(* ===== verification/_CoqProject ===== *)
-Q . S2P
Prelude.v
Words.v
Arith.v
Bitmap.v
BitmapCount.v
BitmapSpec.v
BitmapThms.v
FewBits.v
Float.v
Rand.v
State.v
Text.v
Queue.v
QueueScore.v
QueueCull.v
QueueAdd.v
Score.v
ScoreThms.v
Alias.v
TestcaseCache.v
CacheThms.v
Dedup.v
DedupThms.v
DedupArith.v
Extras.v
DictFile.v
ExtrasThms.v
AutoExtras.v
Callstack.v
CallstackThms.v
Session.v
SessionThms.v
Files.v
Trim.v
TrimThms.v
Calibrate.v
CalThms.v
Describe.v
Save.v
SaveThms.v
DryRun.v
DryRunThms.v
Stages.v
StagesDict.v
StagesRun.v
StagesThms.v
StagesArith.v
EffMap.v
StagesDictThms.v
StagesSafe.v
FuzzOne.v
Havoc.v
HavocThms.v
Colorize.v
ColorizeThms.v
Redqueen.v
RedqueenThms.v
RedqueenMap.v
RedqueenMapThms.v
Protocol.v
ProtocolHello.v
ProtocolThms.v
FuzzLoop.v
FuzzLoopThms.v
Tmin.v
TminThms.v
CmpHooks.v
CmpHooksThms.v
AflAs.v
AflAsThms.v
Common.v
CommonThms.v
