(* ===== verification/Prelude.v ===== *)
(** * IgorFuzz: a verification development

    IgorFuzz is AFL++ turned round.  It starts from inputs that crash a target
    and looks for inputs that crash it at the same place while they cover less
    of the program.  Its engine ([src/engine]) runs a target through a fork
    server, reads the coverage map the target leaves in shared memory, keeps a
    queue of the inputs worth mutating, chooses the next one by energy, mutates
    it and triages what comes out.

    ** The parts and how they interact

    One round of the fuzzer is: [cull_queue] marks the favored entries;
    [select_next_queue_entry] draws an entry from the table that
    [create_alias_table] built from [compute_weight]; [fuzz_one_original] loads
    the test case ([queue_testcase_get]), calibrates it ([calibrate_case]),
    trims it ([trim_case]), scores it ([calculate_score]) and runs the
    deterministic stages, havoc and splicing, each of which hands one mutated
    buffer at a time to [common_fuzz_stuff].  That writes the buffer out, runs
    the target and triages the run ([save_if_interesting]): the trace is
    classified ([classify_counts]) and compared with what is known
    ([has_new_bits], and IgorFuzz's [has_few_bits]), the call stack the target
    left is compared with the one looked for ([same_crash_site]), and a find
    gets a file and a place in the queue ([add_to_queue],
    [update_bitmap_score]).

    ** Which file models what

    - Memory and numbers.  [Prelude]: machine integers as [Z] with their
      wrap-around, the error monad [res], the tactics and hint databases.
      [Words]: bytes, little-endian words and buffers.  [Arith]:
      [include/types.h] and [next_pow2].  [Float]: C's [double] as IEEE 754
      binary64.  [Rand]: [src/afl-performance.c] and [rand_below] of
      [include/afl-fuzz.h]; the classes [RandGen] and [RandGenLaws] are the
      interface its clients are written against.
    - Coverage.  [Bitmap]: [src/afl-fuzz-bitmap.c] and both word-size flavours
      of [include/coverage-64.h] and [include/coverage-32.h], the vector
      versions of [skim] included.  [BitmapCount], [BitmapSpec]: the word-wise
      loops as functions of the bytes; [BitmapThms], [FewBits]: their
      properties.
    - The queue.  [State]: [struct queue_entry] and the part of [afl_state_t]
      the queue reads and writes.  [Text]: [check_if_text].  [Queue]:
      [add_to_queue], [update_bitmap_score], [cull_queue] and the marking of
      entries, from [src/afl-fuzz-queue.c]; [QueueScore], [QueueCull] and
      [QueueAdd]: the invariant [queue_wf] and what the three do.  [Score],
      [ScoreThms]: [calculate_score] and [compute_weight].  [Alias]: Vose's
      alias method.  [TestcaseCache], [CacheThms]: the cache of loaded test
      cases, over any [RandGen].
    - Mutation.  [Dedup], [DedupThms], [DedupArith]: [could_be_bitflip],
      [could_be_arith], [could_be_interest], [choose_block_len] and
      [locate_diffs] of [src/afl-fuzz-one.c].  [Extras]: the dictionaries of
      [src/afl-fuzz-extras.c], over a [Qsort] class for the library's [qsort];
      [DictFile], [ExtrasThms], [AutoExtras]: their properties.  [Stages] and
      [StagesDict]: the deterministic stages of [fuzz_one_original], in a
      state monad over the class [Target], which is what a stage sees of the
      fuzzer.  [StagesRun]: the calculus of the exact list of test cases a
      stage runs; [StagesThms], [StagesArith], [EffMap], [StagesDictThms]: that
      list for every stage; [StagesSafe]: safety of their composition.
      [Havoc]: the random stages, over [Target] and the class [Pool], which is
      what splicing sees of the queue; [HavocThms]: their safety.
    - Input-to-state, [src/afl-fuzz-redqueen.c] (REDQUEEN), over [Target] and
      the classes [CmpLog] and [CmpRun] for the clock, the runs with CmpLog
      and the virgin map.  [Colorize], [ColorizeThms]: colorization.
      [Redqueen], [RedqueenThms]: the search for the operands of an integer
      comparison at one position, [cmp_extend_encoding].  [RedqueenMap],
      [RedqueenMapThms]: [cmp_fuzz], [rtn_fuzz] with the transforms, the
      learning of tokens and [input_to_state_stage].
    - Execution and triage.  [Callstack]: the reader of the call stack file of
      [src/afl-fuzz-bitmap.c] with the block list of [src/sym-blacklist.inc],
      and [CallstackThms].  [Session]: the state around one execution (clock,
      files, fork server, counters) with [fuzz_run_target] of
      [src/afl-fuzz-run.c] and [afl_fsrv_run_target] of
      [src/afl-forkserver.c]; [SessionThms]: its invariant [sess_ok].
      [Files]: the write loops.  [Trim], [TrimThms]: [trim_case].
      [Calibrate], [CalThms]: [calibrate_case].  [Describe]: the names and
      details of saved files.  [Save], [SaveThms]: [same_crash_site],
      [save_if_interesting] and [common_fuzz_stuff].  [FuzzOne]: the stages
      run with the real [common_fuzz_stuff] as their [Target].  [DryRun],
      [DryRunThms]: [perform_dry_run] of [src/afl-fuzz-init.c], which runs the
      initial inputs and chooses the matrix.
    - The loop.  [FuzzLoop]: the fuzzing loop of [src/afl-fuzz.c] around
      culling, selection and the start of a cycle, over the class [Engine] for
      [fuzz_one], [sync_fuzzers] and the clock; [FuzzLoopThms]: the contract
      [EngineLaws] and what the loop keeps.
    - The fork server as a system of processes.  [Protocol]: the fuzzer's side
      ([afl_fsrv_start] and the exchange of a run, [src/afl-forkserver.c]) and
      the target's ([__afl_start_forkserver] of
      [instrumentation/afl-compiler-rt.o.c]) as sequences of system calls,
      the pipes and the child between them, and the steps of the whole.
      [ProtocolHello]: the hello word, its flags and the dictionary's format.
      [ProtocolThms]: the joint phases, as an invariant of every interleaving.
    - In the target.  [CmpHooks]: the CmpLog hooks of
      [instrumentation/afl-compiler-rt.o.c], which fill the map that
      [RedqueenMap] reads; [CmpHooksThms]: the map they keep is the one
      [RedqueenMapThms] assumes of a run with CmpLog.
    - The minimizer.  [Tmin]: the four passes of [src/afl-tmin.c] and their
      loop, over the class [Fsrv] for one execution; [TminThms].
    - The assembler wrapper.  [AflAs]: [src/afl-as.c], its command line and the
      rewriting of an assembly file line by line; [AflAsThms].
    - Shared utilities.  [Common], [CommonThms]: functions of
      [src/afl-common.c]: the edit distance and the suggestions made with it,
      the reader of settings, the replacement of [@@] and two numbers from the
      environment.

    ** State and operations

    A [struct queue_entry *] is an index into [queue_buf]; an update through
    any alias is an update of the one entry.  The state is passed explicitly.
    The result type [res] separates the three ways a call does not return: the
    program's own [FATAL] and [PFATAL] ([Fatal]), undefined behaviour
    ([Fault]: an access out of range, a null pointer, a division by zero) and
    a loop that was not given enough fuel ([OutOfFuel]).  The stages' monad
    adds a fourth outcome, [None]: the entry is abandoned.  Integers are
    stored through [u8], [u16], [u32], [u64] where the C type is unsigned.
    Definitions keep the names of the C functions and struct members.

    ** What the theorems show

    - Coverage: each routine, in each flavour and as written word by word,
      computes its byte-wise meaning; the flavours and the vector versions
      agree; a trace reports a find once ([BitmapThms], [FewBits]).
    - Queue: [queue_wf] (reference counts of the compact traces, valid
      pointers, array sizes) is kept by every operation; the favored set is
      exactly the one described; the testcase cache keeps its books
      ([QueueAdd], [QueueScore], [QueueCull], [CacheThms]).
    - Numbers: the score stays within its limit through every floating-point
      operation; the alias table gives each entry its share of the weight, its
      construction ends and stays in bounds; [rand_below] favours no value on
      64-bit builds and keeps its bias on 32-bit ones ([ScoreThms], [Alias],
      [Rand]).
    - Stages: the exact list of test cases of every stage, completeness of the
      de-duplication, the effector map, and the safety of the whole
      deterministic part for every target ([StagesThms] to [StagesSafe]).
    - Random stages: they stay in bounds and keep every input between one byte
      and [MAX_FILE], whatever is drawn, and end if the draws are fair; a
      splice joins the input and the test case of another entry
      ([HavocThms]).
    - Input-to-state: the taints are the maximal runs of the bytes colorization
      could replace on the same path; the search for an integer is safe, puts
      the input back and is, at level 1, the trial of a flat list of byte
      strings; the whole stage is safe below level 3 or without transforms and
      leaves the entry its colours and, if it gets any, the buffer its input
      ([ColorizeThms], [RedqueenThms], [RedqueenMapThms]).  With transforms at level 3 it is
      not ([transforms_leave_a_byte], [hex_prefix_overflows]).
    - Execution and triage: the crash site is the first frame of the target
      that is not blocked; calibration and trimming end and keep their books,
      but for a [write] that is retried forever; a run that did not time out is
      saved exactly when it crashed, at the third level of crash mode at the
      same site, and [has_few_bits] reports something ([CallstackThms],
      [CalThms], [TrimThms], [SaveThms]).
    - Start: the matrix is the first input that is run, what is left has
      crashed in a run, no trace is left twice, and what the dry run gives up
      for is a fault of an input or of the fork server ([DryRunThms]).
    - The loop: culling, the alias table, the draw and the change of schedules
      fit together: every draw is from a table that covers the queue, every
      call of [fuzz_one] has an entry, and the queue stays ready for the next
      round ([FuzzLoopThms]); with INTROSPECTION it does not
      ([introspection_draws_past_table]).
    - Composition: deterministic fuzzing of an entry with the real execution,
      triage and queue keeps every invariant ([FuzzOne]).
    - Fork server: in every interleaving the two sides agree on the options and
      stay in lockstep, some step is always possible unless the fuzzer gave up
      on the hello, and any fourteen steps bring a result ([ProtocolThms]); a
      pair that does not,
      [denied_dictionary_shifts_runs].
    - CmpLog: the log of a comparison is the ring of its last operands, and the
      hooks for 1, 2, 4 and 8 bytes, switches and routines keep the map in
      order; those for other widths do not ([CmpHooksThms]).
    - Minimization ends and keeps the behaviour of the input, and no single
      byte can be left out of its result any more ([TminThms]).
    - Instrumentation of assembly: what is added, and exactly where; "active
      code" and "a label waits for its first instruction" are said of the lines
      before, by the one relation [sticky] ([AflAsThms]).
    - Utilities: the edit distance is the least number of edits; settings are
      read back as they were written ([CommonThms]).
    - Dictionaries: the parser ends and reads back what the documented escapes
      write; both dictionaries stay sorted, distinct and bounded.

    ** Fuel and bounds

    Recursion is structural wherever the C loop counts.  [rand_draw] takes
    fuel for the rejection loop, which ends with probability one only;
    [Rand] states what any number of draws gives.  [text_scan] gets the length
    of the buffer and consumes a byte per step.  The alias table's loop gets
    the number of entries and takes one off a worklist per step
    ([vose_table_safe]).  The cache's eviction loop is shown to end for any
    generator that reaches every slot within a bound, and to hang when only the
    current entry is cached ([queue_testcase_get_correct]).  The parser of dictionary files gets the
    length of the line ([decode_terminates]), a reader of lines that of the
    file.  [trim_case] and
    [calibrate_case] get fuel for loops whose bounds the code computes first,
    and their theorems say how much is enough.  Havoc's loop may be doubled by
    finds: [random_stages_correct] shows that 2^20 inputs are never exceeded.
    Its loops that draw an entry again ([draw_until]) end when every value of
    a draw comes up within [tries] draws ([fair]); without that the theorem
    still says that running out of draws is all that is added to the ways they
    fail.  No theorem but those on input-to-state needs draws that return: a
    draw that ends the program or not at all is one of the outcomes
    ([rand_stops]).  [write] may take less than it is given, as POSIX allows
    ([posix_write]).  Colorization gets two rounds for each byte, which the code's
    [stage_max] allows; [collect_taints] a round for each range.  The
    recursion of [cmp_extend_encoding] is never deeper than four calls, since
    neither a byte-swapped nor a modified value is modified again.  Sending
    and receiving the dictionary get its length; each call moves a byte or
    more ([forkserver_progress]).  A pass of the minimizer that changes
    something drops a byte or turns one into ['0'], so that twice the length
    is enough of them.  The fuzzing loop ends only when it is told to:
    [fuzz_loop] makes a given number of calls of [fuzz_one], and its theorem
    holds for every number; its draw of an entry needs one try
    ([draw_entry_ok]).

    ** Not modelled

    The MOpt mutator ([mopt_common_fuzzing] repeats the stages with other
    statistics), CmpLog's own run of the target ([src/afl-fuzz-cmplog.c]) and
    the base64 transforms, which are not compiled, custom
    mutators beyond the queue's notification, the inside of [sync_fuzzers], the
    start-up code before the dry run, Nyx and the launch of the fork server,
    the statistics and the user interface, the other stand-alone tools, [afl-cc], [afl-ld-lto] and the compilers' passes, and
    the text of [afl-as]'s trampolines.  Memory
    allocation is assumed to succeed.  Outside the sources, and therefore
    parameters: the third-party symbolizer, the hash of a trace ([hash64], a
    wrapper of the vendored xxHash), the target, the clock and what the file
    system answers.  In [FuzzOne] the fields that only name the stage for
    [describe_op] are kept from before the stages. *)

From Stdlib Require Export ZArith Lia.
From stdpp Require Export base numbers list list_numbers option sets.

#[global] Open Scope Z_scope.

(** ** Machine integers

    An unsigned integer of [w] bits is the [Z] in [0, 2^w); [uwrap w] is the
    conversion the C compiler inserts when a value is stored in such a
    variable.  [swrap w] reads the same bits as two's complement. *)

Definition uwrap (w x : Z) : Z := x mod 2 ^ w.
Definition swrap (w x : Z) : Z := (x + 2 ^ (w - 1)) mod 2 ^ w - 2 ^ (w - 1).

#[global] Arguments uwrap : simpl never.
#[global] Arguments swrap : simpl never.

Declare Scope c_scope.
Delimit Scope c_scope with c.
Abbreviation u8 := (uwrap 8).
Abbreviation u16 := (uwrap 16).
Abbreviation u32 := (uwrap 32).
Abbreviation u64 := (uwrap 64).
Abbreviation s32 := (swrap 32).
Notation "a .& b" := (Z.land a b) (at level 40, left associativity) : c_scope.
Notation "a .| b" := (Z.lor a b) (at level 50, left associativity) : c_scope.
Notation "a .^ b" := (Z.lxor a b) (at level 45, left associativity) : c_scope.
Notation "a .<< b" := (Z.shiftl a b) (at level 38, left associativity) : c_scope.
Notation "a .>> b" := (Z.shiftr a b) (at level 38, left associativity) : c_scope.
#[global] Open Scope c_scope.

Abbreviation UINT32_MAX := 0xffffffff (only parsing).
Abbreviation UINT64_MAX := 0xffffffffffffffff (only parsing).

(** C's conditional expressions on integers: zero is false. *)
Definition truthy (x : Z) : bool := negb (x =? 0).
Definition b2z (b : bool) : Z := if b then 1 else 0.

(** ** Fallible code

    The ways a call does not return: a [FATAL] or [PFATAL] of the program
    ends the process, a fault is undefined behaviour (a null, dangling or out
    of range access, a division by zero, an unrepresentable conversion), and
    a loop modelled with fuel may not be given enough of it. *)

Inductive abort := Fatal | Fault | OutOfFuel.

Inductive res (A : Type) :=
  | Ok (a : A)
  | Err (e : abort).
Arguments Ok {A}.
Arguments Err {A}.

#[export] Instance abort_eq_dec : EqDecision abort.
Proof. solve_decision. Defined.
#[export] Instance res_ret : MRet res := @Ok.
#[export] Instance res_bind : MBind res := fun A B f m =>
  match m with Ok a => f a | Err e => Err e end.
#[export] Instance res_fmap : FMap res := fun A B f m =>
  match m with Ok a => Ok (f a) | Err e => Err e end.

(** An array read, an array write and a pointer dereference. *)
Definition rd {A} (l : list A) (i : nat) : res A :=
  match l !! i with Some x => Ok x | None => Err Fault end.
Definition wr {A} (l : list A) (i : nat) (x : A) : res (list A) :=
  if decide (i < length l)%nat then Ok (<[i:=x]> l) else Err Fault.
Definition ptr {A} (p : option A) : res A :=
  match p with Some x => Ok x | None => Err Fault end.

(** A [for] loop over the listed values of its counter. *)
Fixpoint rfold {A S} (f : S -> A -> res S) (s : S) (l : list A) : res S :=
  match l with [] => Ok s | x :: l => s ← f s x; rfold f s l end.

(** [m] returns a result as [Q] says, or it stops in one of the ways [E]. *)
Definition or_stop {A} (E : abort -> Prop) (m : res A) (Q : A -> Prop) : Prop :=
  match m with Ok x => Q x | Err e => E e end.

(** The program ends itself, which it may only if [E]; it never faults and
    never runs out of fuel. *)
Definition dies (E : Prop) (e : abort) : Prop := e = Fatal /\ E.
Arguments dies _ _ /.
#[export] Hint Unfold dies : core.
Abbreviation or_fatal E := (or_stop (dies E)).

Lemma or_stop_bind {A B} E (m : res A) (k : A -> res B) (Q : B -> Prop) :
  or_stop E m (fun x => or_stop E (k x) Q) -> or_stop E (m ≫= k) Q.
Proof. destruct m; exact (fun H => H). Qed.

Lemma or_stop_mono {A} E (m : res A) (P Q : A -> Prop) :
  or_stop E m P -> (forall x, P x -> Q x) -> or_stop E m Q.
Proof. destruct m; cbn; auto. Qed.

Lemma or_stop_weaken {A} (E E' : abort -> Prop) (m : res A) (Q : A -> Prop) :
  (forall e, E e -> E' e) -> or_stop E m Q -> or_stop E' m Q.
Proof. destruct m; cbn; auto. Qed.

Lemma or_stop_eqn {A} E (m : res A) (P : A -> Prop) :
  or_stop E m P -> or_stop E m (fun x => P x /\ m = Ok x).
Proof. destruct m; cbn; auto. Qed.

Lemma or_stop_ok {A} E (m : res A) x (Q : A -> Prop) : m = Ok x -> Q x -> or_stop E m Q.
Proof. now intros ->. Qed.

Lemma or_fatal_returns {A} (m : res A) (Q : A -> Prop) :
  or_fatal False m Q -> exists x, m = Ok x /\ Q x.
Proof. destruct m as [x|e]; [intros H; exists x; auto|intros [_ []]]. Qed.

(** ** Tactics and hint databases *)

Create Rewrite HintDb cbits.
#[export] Hint Rewrite Z.land_spec Z.lor_spec Z.lxor_spec Z.ldiff_spec Z.bits_0 : cbits.
#[export] Hint Rewrite Z.shiftl_spec Z.shiftr_spec Z.ones_spec_low Z.ones_spec_high using lia : cbits.

(** Equality of integers bit by bit. *)
Ltac bitwise n :=
  apply Z.bits_inj'; intros n ?; autorewrite with cbits.

(** Case analysis on every boolean integer comparison in sight. *)
Ltac zcases :=
  repeat match goal with
  | |- context [?a =? ?b] => destruct (Z.eqb_spec a b)
  | |- context [?a <? ?b] => destruct (Z.ltb_spec a b)
  | |- context [?a <=? ?b] => destruct (Z.leb_spec a b)
  end.

(** Closed integer side conditions. *)
Ltac zlit :=
  solve [done | lia | split; [lia | vm_compute; reflexivity] | vm_compute; intuition congruence].

(** Linear arithmetic with division and remainder by constants. *)
Ltac dlia := Z.to_euclidean_division_equations; lia.

(** Break a [Forall] of an explicit list into its elements' facts. *)
Ltac invbytes :=
  repeat match goal with H : Forall _ (_ :: _) |- _ => inversion H; subst; clear H end.

(** ** Facts on machine integers *)

Create HintDb cint.

Lemma uwrap_range w x : 0 <= w -> 0 <= uwrap w x < 2 ^ w.
Proof. intros; unfold uwrap; apply Z.mod_pos_bound; lia. Qed.

Lemma uwrap_id w x : 0 <= x < 2 ^ w -> uwrap w x = x.
Proof. apply Z.mod_small. Qed.

Lemma uwrap_ones w x : 0 <= w -> uwrap w x = x .& Z.ones w.
Proof. intros; unfold uwrap; now rewrite Z.land_ones. Qed.

Lemma uwrap_testbit w x n :
  0 <= w -> 0 <= n -> Z.testbit (uwrap w x) n = (n <? w) && Z.testbit x n.
Proof.
  intros; unfold uwrap. destruct (Z.ltb_spec n w).
  - now rewrite Z.mod_pow2_bits_low by lia.
  - now rewrite Z.mod_pow2_bits_high by lia.
Qed.
#[export] Hint Rewrite uwrap_testbit using lia : cbits.

Lemma testbit_high w x n : 0 <= x < 2 ^ w -> w <= n -> Z.testbit x n = false.
Proof.
  intros Hx Hn. destruct (Z.eq_dec x 0) as [->|]; [apply Z.bits_0|].
  assert (0 <= w) by (destruct (Z.lt_ge_cases w 0); [rewrite Z.pow_neg_r in Hx; lia | lia]).
  apply Z.bits_above_log2; [lia|].
  apply Z.lt_le_trans with w; [|lia]. apply Z.log2_lt_pow2; lia.
Qed.

(** An integer whose bits from [w] on are all zero is below [2^w]. *)
Lemma bits_bound w x :
  0 <= w -> 0 <= x -> (forall n, w <= n -> Z.testbit x n = false) -> x < 2 ^ w.
Proof.
  intros Hw Hx Hb. destruct (Z.lt_ge_cases x (2 ^ w)) as [|Hge]; [done|exfalso].
  pose proof (Z.pow_pos_nonneg 2 w).
  assert (w <= Z.log2 x) by (rewrite <- (Z.log2_pow2 w) by lia; now apply Z.log2_le_mono).
  specialize (Hb (Z.log2 x) ltac:(done)). rewrite Z.bit_log2 in Hb; [done|lia].
Qed.

Lemma land_range w x y : 0 <= w -> 0 <= x -> 0 <= y < 2 ^ w -> 0 <= x .& y < 2 ^ w.
Proof.
  intros; split; [apply Z.land_nonneg; lia|].
  apply bits_bound; [lia|apply Z.land_nonneg; lia|]; intros.
  rewrite Z.land_spec, (testbit_high w y) by lia. apply andb_false_r.
Qed.

Lemma lor_range w x y : 0 <= w -> 0 <= x < 2 ^ w -> 0 <= y < 2 ^ w -> 0 <= x .| y < 2 ^ w.
Proof.
  intros; split; [apply Z.lor_nonneg; lia|].
  apply bits_bound; [lia|apply Z.lor_nonneg; lia|]; intros.
  now rewrite Z.lor_spec, (testbit_high w y), (testbit_high w x) by lia.
Qed.

Lemma ldiff_range w x y : 0 <= w -> 0 <= x < 2 ^ w -> 0 <= Z.ldiff x y < 2 ^ w.
Proof.
  intros; assert (0 <= Z.ldiff x y) by (apply Z.ldiff_nonneg; lia).
  split; [done|]. apply bits_bound; [lia..|]; intros.
  now rewrite Z.ldiff_spec, (testbit_high w x) by lia.
Qed.

#[export] Hint Resolve uwrap_range land_range lor_range ldiff_range : cint.

Lemma truthy_true x : truthy x = true <-> x <> 0.
Proof. unfold truthy. rewrite negb_true_iff, Z.eqb_neq. done. Qed.

Lemma truthy_false x : truthy x = false <-> x = 0.
Proof. unfold truthy. rewrite negb_false_iff, Z.eqb_eq. done. Qed.

Lemma b2z_range b : 0 <= b2z b <= 1.
Proof. destruct b; simpl; lia. Qed.
#[export] Hint Resolve b2z_range : cint.

(** ** Sums and counts over lists *)

Definition zsum {A} (f : A -> Z) (l : list A) : Z := foldr (fun x acc => f x + acc) 0 l.

Lemma zsum_app {A} (f : A -> Z) l k : zsum f (l ++ k) = zsum f l + zsum f k.
Proof. induction l as [|x l IH]; simpl; [lia|]. unfold zsum in *. lia. Qed.

Lemma zsum_bounds {A} (f : A -> Z) lo hi l :
  (forall x, x ∈ l -> lo <= f x <= hi) ->
  lo * Z.of_nat (length l) <= zsum f l <= hi * Z.of_nat (length l).
Proof.
  induction l as [|x l IH]; intros H; simpl; [lia|].
  specialize (IH ltac:(intros; apply H; now right)).
  specialize (H x ltac:(left)). unfold zsum in *. lia.
Qed.

Lemma zsum_ext {A} (f g : A -> Z) l : (forall x, x ∈ l -> f x = g x) -> zsum f l = zsum g l.
Proof.
  induction l as [|x l IH]; intros H; simpl; [done|]. unfold zsum in *. simpl.
  rewrite H by left. rewrite IH by (intros; apply H; now right). done.
Qed.

Lemma zsum_insert {A} (f : A -> Z) l i x y :
  l !! i = Some x -> zsum f (<[i:=y]> l) = zsum f l - f x + f y.
Proof.
  revert i; induction l as [|z l IH]; intros [|i] H; simplify_eq/=; unfold zsum in *; simpl; [lia|].
  rewrite (IH i H). lia.
Qed.

Lemma zsum_alter {A} (f : A -> Z) (g : A -> A) l i x :
  l !! i = Some x -> zsum f (alter g i l) = zsum f l - f x + f (g x).
Proof.
  revert i; induction l as [|z l IH]; intros [|i] H; simplify_eq/=; unfold zsum in *; simpl; [lia|].
  rewrite (IH i H). lia.
Qed.

Lemma zsum_point (f g : nat -> Z) n a :
  (a < n)%nat -> (forall s, s <> a -> g s = f s) -> zsum g (seq 0 n) = zsum f (seq 0 n) - f a + g a.
Proof.
  intros Ha Hfg. induction n as [|n IH]; [lia|].
  rewrite seq_S, !zsum_app. cbn [zsum foldr].
  destruct (decide (a = n)) as [->|Hne].
  - rewrite (zsum_ext g f); [cbn; lia|]. intros x Hx%elem_of_seq. apply Hfg. lia.
  - rewrite IH by lia. cbn. rewrite (Hfg n) by lia. lia.
Qed.

Lemma zsum_perm {A} (f : A -> Z) l k : l ≡ₚ k -> zsum f l = zsum f k.
Proof. unfold zsum. induction 1; simpl; lia. Qed.

Lemma zsum_const {A} (f : A -> Z) c l : (forall x, x ∈ l -> f x = c) -> zsum f l = c * Z.of_nat (length l).
Proof.
  intros H. rewrite (zsum_ext f (fun _ => c) l H). clear H. unfold zsum.
  induction l; cbn [foldr length]; lia.
Qed.

Lemma zsum_zero {A} (f : A -> Z) l : (forall x, x ∈ l -> f x = 0) -> zsum f l = 0.
Proof. intros H. now rewrite (zsum_const _ 0) by done. Qed.

Lemma zsum_plus {A} (f g : A -> Z) l : zsum (fun x => f x + g x) l = zsum f l + zsum g l.
Proof. unfold zsum. induction l; cbn; lia. Qed.

Lemma zsum_tight {A} (f : A -> Z) c l :
  Forall (fun x => c <= f x) l -> zsum f l = c * Z.of_nat (length l) -> Forall (fun x => f x = c) l.
Proof.
  induction 1 as [|x l Hx Hl IH]; intros Hs; [constructor|].
  assert (c * Z.of_nat (length l) <= zsum f l).
  { clear - Hl. induction Hl; cbn; unfold zsum in *; cbn; lia. }
  cbn in Hs. fold (zsum f l) in Hs. cbn in Hx. constructor; [lia|apply IH; lia].
Qed.

Lemma zsum_short {A} (f : A -> Z) c l :
  Forall (fun x => f x < c) l -> zsum f l = c * Z.of_nat (length l) -> l = [].
Proof.
  intros H Hs. destruct l as [|x l]; [done|]. exfalso.
  assert (zsum f (x :: l) < c * Z.of_nat (length (x :: l))); [|lia]. clear Hs.
  apply Forall_cons in H as [Hx Hl]. revert x Hx. induction Hl as [|y l Hy Hl IH]; intros x Hx.
  - cbn. lia.
  - specialize (IH y Hy). cbn [zsum foldr length] in *. lia.
Qed.

Lemma zsum_pos_elem {A} (f : A -> bool) l p x :
  l !! p = Some x -> f x = true -> 0 < zsum (fun x => b2z (f x)) l.
Proof.
  revert p; induction l as [|y l IH]; intros [|p] H Hf; simplify_eq/=; unfold zsum in *; cbn [foldr].
  - rewrite Hf. pose proof (zsum_bounds (fun x => b2z (f x)) 0 1 l ltac:(intros; apply b2z_range)) as B.
    unfold zsum in B. simpl. lia.
  - specialize (IH p H Hf). pose proof (b2z_range (f y)). lia.
Qed.

Lemma zsum_count_bound {A} (f : A -> bool) (l : list A) : zsum (fun x => b2z (f x)) l <= Z.of_nat (length l).
Proof.
  pose proof (zsum_bounds (fun x => b2z (f x)) 0 1 l ltac:(intros; apply b2z_range)). lia.
Qed.

Lemma zsum_count_nonneg {A} (f : A -> bool) (l : list A) : 0 <= zsum (fun x => b2z (f x)) l.
Proof.
  pose proof (zsum_bounds (fun x => b2z (f x)) 0 1 l ltac:(intros; apply b2z_range)). lia.
Qed.

Lemma zsum_map_same {A B} (g : A -> B) (f : A -> Z) l l' :
  (forall x y, g x = g y -> f x = f y) -> map g l = map g l' -> zsum f l = zsum f l'.
Proof.
  intros Hf. revert l'; induction l as [|x l IH]; intros [|y l'] E; simplify_eq/=; [done|].
  unfold zsum in *. simpl. rewrite (IH l') by done. now rewrite (Hf x y).
Qed.

Lemma insert_as_alter {A} (f : A -> A) (l : list A) i x : l !! i = Some x -> <[i := f x]> l = alter f i l.
Proof.
  intros Hx. apply list_eq. intros j. destruct (decide (i = j)) as [<-|].
  - rewrite list_lookup_insert_eq, list_lookup_alter_eq, Hx by (eapply lookup_lt_Some; eauto). done.
  - now rewrite list_lookup_insert_ne, list_lookup_alter_ne by done.
Qed.

(** Splitting a buffer after its first [n] elements. *)
(** [c] without [avail] elements at [pos]. *)
Definition gap {A} (c : list A) (pos avail : nat) : list A := take pos c ++ drop (pos + avail) c.

Lemma gap_sublist {A} (c : list A) pos avail : sublist (gap c pos avail) c.
Proof.
  unfold gap. rewrite <- (take_drop pos c) at 3. apply sublist_app; [done|].
  rewrite <- drop_drop. apply sublist_drop.
Qed.

Lemma length_gap {A} (c : list A) pos avail : (pos + avail <= length c)%nat -> length (gap c pos avail) = (length c - avail)%nat.
Proof. intros H. unfold gap. rewrite length_app, length_take, length_drop. lia. Qed.

Lemma take_add {A} n m (l : list A) : take (n + m) l = take n l ++ take m (drop n l).
Proof. revert l; induction n; intros [|x l]; simpl; rewrite ?take_nil; try done. now rewrite IHn. Qed.

(** ** The error monad *)

Lemma bind_ok {A B} (m : res A) (f : A -> res B) b :
  m ≫= f = Ok b <-> exists a, m = Ok a /\ f a = Ok b.
Proof.
  destruct m as [a|e]; simpl; split.
  - intros H; exists a; auto.
  - intros (? & [= ->] & H); auto.
  - discriminate.
  - intros (? & [=] & _).
Qed.

Lemma rd_ok {A} (l : list A) i x : rd l i = Ok x <-> l !! i = Some x.
Proof. unfold rd. destruct (l !! i); split; congruence. Qed.

Lemma rd_lt {A} (l : list A) i : (i < length l)%nat -> exists x, rd l i = Ok x /\ l !! i = Some x.
Proof.
  intros H. apply lookup_lt_is_Some_2 in H as [x Hx]. exists x. split; [now apply rd_ok|done].
Qed.

Lemma wr_ok {A} (l l' : list A) i x :
  wr l i x = Ok l' <-> (i < length l)%nat /\ l' = <[i:=x]> l.
Proof. unfold wr. case_decide; split; [intros [= <-]|intros [_ ->]|discriminate|]; tauto. Qed.

Lemma wr_lt {A} (l : list A) i x : (i < length l)%nat -> wr l i x = Ok (<[i:=x]> l).
Proof. intros H. now apply wr_ok. Qed.

Lemma ptr_ok {A} (p : option A) x : ptr p = Ok x <-> p = Some x.
Proof. unfold ptr. destruct p; split; congruence. Qed.

Lemma rfold_app {A S} (f : S -> A -> res S) s l k :
  rfold f s (l ++ k) = (s ← rfold f s l; rfold f s k).
Proof.
  revert s; induction l as [|x l IH]; intros s; simpl; [done|].
  destruct (f s x); simpl; auto.
Qed.

(** A loop whose body keeps an invariant and does not fail under it. *)
Lemma rfold_inv {A S} (I : S -> Prop) (f : S -> A -> res S) s l :
  I s -> (forall s x, x ∈ l -> I s -> exists s', f s x = Ok s' /\ I s') ->
  exists s', rfold f s l = Ok s' /\ I s'.
Proof.
  intros Hs Hf. revert s Hs; induction l as [|x l IH]; intros s Hs; simpl; [eauto|].
  destruct (Hf s x ltac:(left) Hs) as (s' & -> & Hs'). simpl.
  apply IH; [intros; apply Hf; [now right|done]|done].
Qed.

(** Run the next call of a monadic body whose result is known. *)
Ltac rstep H := rewrite H; cbn [mbind res_bind].

Lemma rfold_preserve {A S} (I : S -> Prop) (f : S -> A -> res S) s l s' :
  (forall s x s', f s x = Ok s' -> I s -> I s') -> rfold f s l = Ok s' -> I s -> I s'.
Proof.
  intros Hf. revert s; induction l as [|x l IH]; intros s; simpl; [intros [= <-]; done|].
  intros H Hs. apply bind_ok in H as (s1 & E & H). eauto.
Qed.
