(* ===== verification/Words.v ===== *)
(** Bytes, little-endian words and the byte buffers of the maps: the memory
    model every component that casts a [u8 *] to a wider type shares. *)

From S2P Require Import Prelude.

Definition is_byte (b : Z) : Prop := 0 <= b < 256.
Abbreviation bytes := (Forall is_byte).

(** The executable test, for concrete buffers. *)
Definition bytesb (l : list Z) : bool := forallb (fun b => (0 <=? b) && (b <? 256)) l.

Lemma bytesb_spec l : bytesb l = true -> bytes l.
Proof.
  unfold bytesb. rewrite forallb_forall. intros H. apply Forall_forall. intros x Hx.
  apply list_elem_of_In, H in Hx. apply andb_true_iff in Hx as [H1 H2].
  apply Z.leb_le in H1. apply Z.ltb_lt in H2. done.
Qed.

(** The word read from [W] bytes at the start of a buffer on a little-endian
    machine, and the bytes of a word. *)
Fixpoint le_load (bs : list Z) : Z :=
  match bs with
  | [] => 0
  | b :: r => b .| (le_load r .<< 8)
  end.

Fixpoint le_store (W : nat) (w : Z) : list Z :=
  match W with
  | O => []
  | S W' => (w .& 0xff) :: le_store W' (w .>> 8)
  end.

(** [((u8 * )&w)[k]] *)
Definition byte_at (w : Z) (k : nat) : Z := (w .>> (8 * Z.of_nat k)) .& 0xff.

Lemma le_load_nonneg l : bytes l -> 0 <= le_load l.
Proof.
  induction 1 as [|b l Hb Hl IH]; simpl; [lia|].
  apply Z.lor_nonneg. rewrite Z.shiftl_nonneg. unfold is_byte in *; lia.
Qed.

Lemma byte_testbit_high b n : is_byte b -> 8 <= n -> Z.testbit b n = false.
Proof. intros Hb Hn. apply (testbit_high 8); [exact Hb|lia]. Qed.

(** Bit [n] of a word is bit [n mod 8] of its byte [n / 8]. *)
Lemma le_load_testbit l n :
  bytes l -> 0 <= n ->
  Z.testbit (le_load l) n = Z.testbit (nth (Z.to_nat (n / 8)) l 0) (n mod 8).
Proof.
  intros Hl; revert n; induction Hl as [|b l Hb Hl IH]; intros n Hn; simpl.
  - destruct (Z.to_nat (n / 8)); now rewrite !Z.bits_0.
  - rewrite Z.lor_spec, Z.shiftl_spec by lia.
    destruct (Z.lt_ge_cases n 8).
    + rewrite (Z.testbit_neg_r _ (n - 8)), orb_false_r by lia.
      now rewrite Z.div_small, Z.mod_small by lia.
    + rewrite byte_testbit_high, IH by (done || lia); simpl.
      replace (Z.to_nat (n / 8)) with (S (Z.to_nat ((n - 8) / 8))).
      2: { replace (n / 8) with ((n - 8) / 8 + 1); [rewrite Z2Nat.inj_add by (try apply Z.div_pos; lia); lia|].
           replace n with ((n - 8) + 1 * 8) at 2 by lia. now rewrite Z.div_add by lia. }
      f_equal. replace n with ((n - 8) + 1 * 8) at 2 by lia. now rewrite Z.mod_add by lia.
Qed.

Lemma nth_bytes k l : bytes l -> is_byte (nth k l 0).
Proof.
  intros Hl; revert k; induction Hl; intros [|k]; simpl; auto; unfold is_byte; lia.
Qed.
#[export] Hint Resolve nth_bytes le_load_nonneg : cint.

Lemma byte_at_load l k : bytes l -> byte_at (le_load l) k = nth k l 0.
Proof.
  intros Hl. unfold byte_at. apply Z.bits_inj'; intros n Hn. rewrite Z.land_spec.
  change 255 with (Z.ones 8).
  destruct (Z.lt_ge_cases n 8).
  - rewrite Z.ones_spec_low, andb_true_r by lia.
    rewrite Z.shiftr_spec, le_load_testbit by (done || lia).
    replace ((n + 8 * Z.of_nat k) / 8) with (Z.of_nat k).
    2: { rewrite Z.mul_comm, Z.div_add, Z.div_small by lia; lia. }
    rewrite Nat2Z.id, Z.mul_comm, Z.mod_add, Z.mod_small by lia. done.
  - rewrite Z.ones_spec_high, andb_false_r by lia.
    now rewrite byte_testbit_high by auto with cint.
Qed.

Lemma le_load_bound l : bytes l -> 0 <= le_load l < 2 ^ (8 * Z.of_nat (length l)).
Proof.
  intros Hl. split; [auto with cint|]. apply bits_bound; [lia|auto with cint|]. intros n Hn.
  rewrite le_load_testbit by (done || lia).
  rewrite nth_overflow, Z.bits_0; [done|].
  apply Nat2Z.inj_le. rewrite Z2Nat.id by (apply Z.div_pos; lia).
  apply Z.div_le_lower_bound; lia.
Qed.

Lemma length_le_store W w : length (le_store W w) = W.
Proof. revert w; induction W; simpl; auto. Qed.

Lemma le_store_bytes W w : 0 <= w -> bytes (le_store W w).
Proof.
  revert w; induction W; simpl; intros w Hw; constructor.
  - apply (land_range 8); lia.
  - apply IHW. apply Z.shiftr_nonneg; lia.
Qed.

Lemma le_store_load l : bytes l -> le_store (length l) (le_load l) = l.
Proof.
  induction 1 as [|b l Hb Hl IH]; simpl; [done|]. f_equal.
  - assert (H : byte_at (le_load (b :: l)) 0 = b) by (apply byte_at_load; auto).
    unfold byte_at in H; simpl in H. now rewrite Z.shiftr_0_r in H.
  - rewrite Z.shiftr_lor, Z.shiftr_shiftl_l, Z.sub_diag, Z.shiftl_0_r by lia.
    rewrite (Z.shiftr_eq_0 b 8), Z.lor_0_l; [done|unfold is_byte in *; lia|].
    destruct (Z.eq_dec b 0) as [->|]; [simpl; lia|].
    apply Z.log2_lt_pow2; unfold is_byte in *; lia.
Qed.

Lemma le_store_len W l : bytes l -> length l = W -> le_store W (le_load l) = l.
Proof. intros Hl <-. now apply le_store_load. Qed.

Lemma le_load_store W w : le_load (le_store W w) = uwrap (8 * Z.of_nat W) w.
Proof.
  revert w; induction W as [|W IH]; intros w; cbn [le_load le_store].
  { unfold uwrap. cbn. now rewrite Z.mod_1_r. }
  rewrite IH. change 0xff with (Z.ones 8).
  apply Z.bits_inj'; intros n Hn. rewrite Z.lor_spec, Z.land_spec, Z.shiftl_spec, (uwrap_testbit _ w n) by lia.
  destruct (Z.lt_ge_cases n 8).
  - rewrite Z.ones_spec_low, (Z.testbit_neg_r _ (n - 8)), orb_false_r, andb_true_r by lia.
    destruct (Z.ltb_spec n (8 * Z.of_nat (S W))); [done|lia].
  - rewrite Z.ones_spec_high, andb_false_r, uwrap_testbit, Z.shiftr_spec by lia.
    replace (n - 8 + 8) with n by lia. cbn [orb].
    destruct (Z.ltb_spec (n - 8) (8 * Z.of_nat W)), (Z.ltb_spec n (8 * Z.of_nat (S W))); (done || lia).
Qed.

(** Two words with the same bytes are equal. *)
Lemma le_load_inj a b :
  bytes a -> bytes b -> length a = length b -> le_load a = le_load b -> a = b.
Proof.
  intros Ha Hb Hlen Heq. rewrite <- (le_store_load a), <- (le_store_load b) by done.
  now rewrite Hlen, Heq.
Qed.

(** Bitwise operations act byte by byte. *)
Section Bytewise.
Context (zop : Z -> Z -> Z) (bop : bool -> bool -> bool).
Context (zop_spec : forall a b n, 0 <= n -> Z.testbit (zop a b) n = bop (Z.testbit a n) (Z.testbit b n)).
Context (zop_byte : forall a b, is_byte a -> is_byte b -> is_byte (zop a b)).
Context (bop_ff : bop false false = false).

Lemma zip_with_bytes a b : bytes a -> bytes b -> bytes (zip_with zop a b).
Proof using zop_byte.
  intros Ha; revert b; induction Ha; intros [|y b] Hb; simpl; auto.
  inversion Hb; subst; auto.
Qed.

Lemma nth_zip_with a b k :
  length a = length b -> nth k (zip_with zop a b) 0 = zop (nth k a 0) (nth k b 0).
Proof using zop_spec bop_ff.
  revert b k; induction a as [|x a IH]; intros [|y b] k Hlen; simplify_eq/=.
  - destruct k; apply Z.bits_inj'; intros n Hn; now rewrite zop_spec, Z.bits_0, bop_ff.
  - destruct k; simpl; auto.
Qed.

Lemma le_load_zip_with a b :
  bytes a -> bytes b -> length a = length b ->
  le_load (zip_with zop a b) = zop (le_load a) (le_load b).
Proof using All.
  intros Ha Hb Hlen. apply Z.bits_inj'; intros n Hn.
  rewrite zop_spec, !le_load_testbit by (auto using zip_with_bytes).
  rewrite nth_zip_with by done. apply zop_spec, Z.mod_pos_bound; lia.
Qed.

Lemma le_store_zop W a b :
  bytes a -> bytes b -> length a = W -> length b = W ->
  le_store W (zop (le_load a) (le_load b)) = zip_with zop a b.
Proof using All.
  intros Ha Hb HW HW'. rewrite <- le_load_zip_with by (done || lia).
  replace W with (length (zip_with zop a b)) by (rewrite length_zip_with; lia).
  apply le_store_load; auto using zip_with_bytes.
Qed.
End Bytewise.

Lemma land_byte a b : is_byte a -> is_byte b -> is_byte (a .& b).
Proof. intros; apply (land_range 8); unfold is_byte in *; lia. Qed.
Lemma ldiff_byte a b : is_byte a -> is_byte b -> is_byte (Z.ldiff a b).
Proof. intros; apply (ldiff_range 8); unfold is_byte in *; lia. Qed.
Lemma lor_byte a b : is_byte a -> is_byte b -> is_byte (a .| b).
Proof. intros; apply (lor_range 8); unfold is_byte in *; lia. Qed.
#[export] Hint Resolve land_byte ldiff_byte lor_byte : cint.

Definition le_store_land :=
  le_store_zop Z.land andb (fun a b n _ => Z.land_spec a b n) land_byte eq_refl.
Definition le_store_ldiff :=
  le_store_zop Z.ldiff (fun x y => x && negb y) (fun a b n _ => Z.ldiff_spec a b n) ldiff_byte eq_refl.
Definition le_load_land :=
  le_load_zip_with Z.land andb (fun a b n _ => Z.land_spec a b n) land_byte eq_refl.

Definition le_load_ldiff :=
  le_load_zip_with Z.ldiff (fun x y => x && negb y) (fun a b n _ => Z.ldiff_spec a b n) ldiff_byte eq_refl.

(** A word is zero exactly when all its bytes are. *)
Lemma le_load_zero l : bytes l -> le_load l = 0 <-> Forall (eq 0) l.
Proof.
  intros Hl. split.
  - intros H0. apply Forall_lookup_2; intros k x Hk.
    apply (nth_lookup_Some _ _ 0) in Hk. rewrite <- Hk, <- byte_at_load, H0 by done.
    unfold byte_at. now rewrite Z.shiftr_0_l.
  - induction 1 as [|b l <- Hl' IH]; simpl; [done|].
    inversion Hl; subst. now rewrite IH, Z.shiftl_0_l.
Qed.

Lemma nth_replicate_lt {A} n k (x d : A) : (k < n)%nat -> nth k (replicate n x) d = x.
Proof. revert k; induction n; intros [|k] ?; simpl; try lia; auto with lia. Qed.

Lemma nth_map_lt {A B} (f : A -> B) l k d d' :
  (k < length l)%nat -> nth k (map f l) d = f (nth k l d').
Proof. revert k; induction l; intros [|k] ?; simpl in *; try lia; auto with lia. Qed.

Lemma le_load_cons b r : is_byte b -> bytes r -> le_load (b :: r) = b + 256 * le_load r.
Proof.
  intros Hb Hr. simpl.
  assert (Hd : b .& (le_load r .<< 8) = 0).
  { apply Z.bits_inj'; intros n Hn. rewrite Z.land_spec, Z.shiftl_spec, Z.bits_0 by lia.
    destruct (Z.lt_ge_cases n 8).
    - now rewrite (Z.testbit_neg_r _ (n - 8)), andb_false_r by lia.
    - now rewrite byte_testbit_high. }
  pose proof (Z.add_lor_land b (le_load r .<< 8)) as Ha.
  rewrite Z.shiftl_mul_pow2 in * by lia. lia.
Qed.

Lemma bytes_take n l : bytes l -> bytes (take n l).
Proof. apply Forall_take. Qed.
Lemma bytes_drop n l : bytes l -> bytes (drop n l).
Proof. apply Forall_drop. Qed.
#[export] Hint Resolve bytes_take bytes_drop : cint.

(** Side conditions on buffers: they hold bytes, they are long enough. *)
Ltac buf :=
  solve [ done | auto with cint | rewrite ?length_app, ?length_take, ?length_drop in *; lia
        | apply uwrap_range; lia ].

(** Masking each byte of a shifted word, when the mask keeps only bits that
    come from the same byte. *)
Lemma le_load_shift_mask s m l :
  bytes l -> 0 <= s <= 8 -> 0 <= m < 2 ^ (8 - s) ->
  (le_load l .>> s) .& le_load (replicate (length l) m)
  = le_load (map (fun b => (b .>> s) .& m) l).
Proof.
  intros Hl Hs Hm.
  assert (Hmb : is_byte m).
  { split; [lia|]. apply Z.lt_le_trans with (2 ^ (8 - s)); [lia|].
    change 256 with (2 ^ 8). apply Z.pow_le_mono_r; lia. }
  assert (Hml : bytes (replicate (length l) m)) by (apply Forall_replicate; done).
  assert (Hfl : bytes (map (fun b => (b .>> s) .& m) l)).
  { apply Forall_map. eapply Forall_impl; [exact Hl|]. intros b Hb.
    unfold is_byte in *. apply (land_range 8); [lia| |lia]. apply Z.shiftr_nonneg; lia. }
  apply Z.bits_inj'; intros n Hn.
  rewrite Z.land_spec, Z.shiftr_spec, !le_load_testbit by (done || lia).
  set (q := n / 8). set (r := n mod 8).
  assert (Hr : 0 <= r < 8) by (apply Z.mod_pos_bound; lia).
  assert (Hnqr : n = q * 8 + r) by (unfold q, r; rewrite (Z.div_mod n 8) at 1; lia).
  assert (0 <= q) by (apply Z.div_pos; lia).
  destruct (decide (Z.to_nat q < length l)%nat) as [Hlt|Hge].
  2: { rewrite !(nth_overflow _ (n := Z.to_nat q)); rewrite ?length_replicate, ?length_map; try lia.
       now rewrite !Z.bits_0, andb_false_r. }
  rewrite nth_replicate_lt by done.
  rewrite (nth_map_lt _ _ _ _ 0), Z.land_spec, Z.shiftr_spec by (done || lia).
  destruct (Z.lt_ge_cases r (8 - s)).
  - replace ((n + s) / 8) with q.
    2: { replace (n + s) with ((r + s) + q * 8) by lia. rewrite Z.div_add, Z.div_small by lia; lia. }
    replace ((n + s) mod 8) with (r + s); [done|].
    replace (n + s) with ((r + s) + q * 8) by lia. rewrite Z.mod_add, Z.mod_small by lia; lia.
  - rewrite (testbit_high (8 - s) m) by lia. now rewrite !andb_false_r.
Qed.

(** A decidable property of bytes is checked on the 256 of them. *)
Lemma byte_forall (P : Z -> bool) b :
  forallb P (seqZ 0 256) = true -> is_byte b -> P b = true.
Proof.
  rewrite forallb_forall. intros H Hb. apply H. apply list_elem_of_In, elem_of_seqZ.
  unfold is_byte in Hb; lia.
Qed.

Lemma le_load_4 a b c d :
  is_byte a -> is_byte b -> is_byte c -> is_byte d ->
  le_load [a; b; c; d] = a + 256 * (b + 256 * (c + 256 * d)).
Proof. intros. rewrite !le_load_cons by auto. simpl. lia. Qed.

(** The number of bits set in a byte. *)
Definition popcount8 (b : Z) : Z := zsum (fun k => b2z (Z.testbit b k)) (seqZ 0 8).
