(* ===== verification/Arith.v ===== *)
(** Bit-level helpers: the fork server option words, [SWAP*] and the word
    masks of [include/types.h], [next_pow2] of [include/alloc-inl.h] and
    [next_p2] of [include/afl-fuzz.h]. *)

From S2P Require Import Prelude Words.

(** ** Fork server options *)

Definition FS_OPT_ENABLED : Z := 0x80000001.
Definition FS_OPT_MAPSIZE : Z := 0x40000000.
Definition FS_OPT_SNAPSHOT : Z := 0x20000000.
Definition FS_OPT_AUTODICT : Z := 0x10000000.
Definition FS_OPT_SHDMEM_FUZZ : Z := 0x01000000.
Definition FS_OPT_NEWCMPLOG : Z := 0x02000000.
Definition FS_OPT_ERROR : Z := 0xf800008f.
Definition FS_OPT_MAX_MAPSIZE : Z := (0x00fffffe .>> 1) + 1.

Definition FS_OPT_GET_MAPSIZE (x : Z) : Z := ((x .& 0x00fffffe) .>> 1) + 1.
Definition FS_OPT_SET_MAPSIZE (x : Z) : Z :=
  if (x <=? 1) || (FS_OPT_MAX_MAPSIZE <? x) then 0 else u32 ((x - 1) .<< 1).
Definition FS_OPT_GET_ERROR (x : Z) : Z := (x .& 0x00ffff00) .>> 8.
Definition FS_OPT_SET_ERROR (x : Z) : Z := (x .& 0x0000ffff) .<< 8.

(** ** Byte swaps *)

Definition SWAP16 (x : Z) : Z :=
  let ret := u16 x in u16 ((ret .<< 8) .| (ret .>> 8)).

Definition SWAP32 (x : Z) : Z :=
  let ret := u32 x in
  u32 (u32 (ret .<< 24) .| (ret .>> 24) .| (u32 (ret .<< 8) .& 0x00FF0000)
       .| ((ret .>> 8) .& 0x0000FF00)).

Definition SWAP64 (x : Z) : Z :=
  let ret := u64 x in
  let ret := u64 ((ret .& 0x00000000FFFFFFFF) .<< 32) .| ((ret .& 0xFFFFFFFF00000000) .>> 32) in
  let ret := u64 ((ret .& 0x0000FFFF0000FFFF) .<< 16) .| ((ret .& 0xFFFF0000FFFF0000) .>> 16) in
  u64 ((ret .& 0x00FF00FF00FF00FF) .<< 8) .| ((ret .& 0xFF00FF00FF00FF00) .>> 8).

(** ** Powers of two *)

(** [size_t] arithmetic: [in - 1] wraps around for 0. *)
Definition next_pow2 (n : Z) : Z :=
  let out := u64 (n - 1) in
  let out := out .| (out .>> 1) in
  let out := out .| (out .>> 2) in
  let out := out .| (out .>> 4) in
  let out := out .| (out .>> 8) in
  let out := out .| (out .>> 16) in
  u64 (out + 1).

(** The loop of [next_p2]; [None] when [fuel] iterations are not enough. *)
Fixpoint next_p2_loop (fuel : nat) (val ret : Z) : option Z :=
  match fuel with
  | O => None
  | S f => if ret <? val then next_p2_loop f val (u64 (ret .<< 1)) else Some ret
  end.

Definition next_p2 (fuel : nat) (val : Z) : option Z := next_p2_loop fuel val 1.

(** ** The option words *)

(** a map size between 2 and [FS_OPT_MAX_MAPSIZE] survives the encoding into
    the 32-bit status word next to any set of the option flags, and the
    encoding does not disturb those flags. *)
Theorem FS_OPT_MAPSIZE_roundtrip x flags :
  2 <= x <= FS_OPT_MAX_MAPSIZE -> 0 <= flags < 2 ^ 32 -> flags .& 0x00fffffe = 0 ->
  FS_OPT_GET_MAPSIZE (FS_OPT_SET_MAPSIZE x .| flags) = x /\
  (FS_OPT_SET_MAPSIZE x .| flags) .& Z.lnot 0x00fffffe = flags.
Proof.
  intros Hx Hf Hd. change FS_OPT_MAX_MAPSIZE with 8388608 in Hx.
  unfold FS_OPT_SET_MAPSIZE. change FS_OPT_MAX_MAPSIZE with 8388608.
  rewrite (proj2 (Z.leb_gt x 1)), (proj2 (Z.ltb_ge 8388608 x)) by lia. simpl orb. cbv iota.
  rewrite uwrap_id by (rewrite Z.shiftl_mul_pow2 by lia; change (2 ^ 1) with 2; change (2 ^ 32) with 4294967296; lia).
  assert (Hm : 0x00fffffe = Z.ones 23 .<< 1) by reflexivity.
  assert (Hb : forall n, Z.testbit ((x - 1) .<< 1) n
                       = Z.testbit ((x - 1) .<< 1) n && Z.testbit 0x00fffffe n).
  { intros n. destruct (Z.lt_ge_cases n 0); [now rewrite Z.testbit_neg_r|].
    destruct (Z.lt_ge_cases n 1). { rewrite Z.shiftl_spec_low by lia. done. }
    rewrite Hm, !Z.shiftl_spec by lia. destruct (Z.lt_ge_cases (n - 1) 23).
    - rewrite Z.ones_spec_low by lia. now rewrite andb_true_r.
    - rewrite (testbit_high 23 (x - 1)) by (change (2 ^ 23) with 8388608; lia). done. }
  assert (Hfl : forall n, Z.testbit flags n && Z.testbit 0x00fffffe n = false).
  { intros n. apply (f_equal (fun z => Z.testbit z n)) in Hd. now rewrite Z.land_spec, Z.bits_0 in Hd. }
  split.
  - unfold FS_OPT_GET_MAPSIZE. replace ((_ .| flags) .& 0xfffffe) with ((x - 1) .<< 1).
    + rewrite Z.shiftr_shiftl_l by lia. change (1 - 1) with 0. rewrite Z.shiftl_0_r. lia.
    + apply Z.bits_inj'; intros n Hn. rewrite Z.land_spec, Z.lor_spec, Hb.
      specialize (Hfl n).
      now destruct (Z.testbit ((x - 1) .<< 1) n), (Z.testbit flags n), (Z.testbit 0xfffffe n).
  - apply Z.bits_inj'; intros n Hn.
    rewrite Z.land_spec, Z.lor_spec, Z.lnot_spec, Hb by done.
    specialize (Hfl n).
    now destruct (Z.testbit ((x - 1) .<< 1) n), (Z.testbit flags n), (Z.testbit 0xfffffe n).
Qed.

Lemma FS_OPT_MAPSIZE_roundtrip_witness :
  FS_OPT_GET_MAPSIZE (FS_OPT_SET_MAPSIZE 65536 .| (FS_OPT_ENABLED .| FS_OPT_MAPSIZE)) = 65536 /\
  (FS_OPT_SET_MAPSIZE 65536 .| (FS_OPT_ENABLED .| FS_OPT_MAPSIZE)) .& Z.lnot 0x00fffffe
  = FS_OPT_ENABLED .| FS_OPT_MAPSIZE.
Proof.
  apply FS_OPT_MAPSIZE_roundtrip; [split; vm_compute; discriminate| |reflexivity].
  split; [vm_compute; discriminate|reflexivity].
Defined.

(** ** Byte order *)

(** The bit that lands in position [n] of a swapped [8 * k]-bit integer. *)
Definition swap_pos (k n : Z) : Z := 8 * (k - 1 - n / 8) + n mod 8.

Lemma swap_pos_range k n : 0 <= n < 8 * k -> 0 <= swap_pos k n < 8 * k.
Proof. unfold swap_pos. intros. dlia. Qed.

Lemma swap_pos_invol k n : 0 <= n < 8 * k -> swap_pos k (swap_pos k n) = n.
Proof.
  intros Hn. assert (0 <= n / 8 < k) by dlia. unfold swap_pos at 1.
  assert (E : swap_pos k n = n mod 8 + (k - 1 - n / 8) * 8) by (unfold swap_pos; lia).
  rewrite E, Z.div_add, Z.mod_add, Z.mod_mod by lia.
  rewrite (Z.div_small (n mod 8)) by dlia. dlia.
Qed.

(** Expressions that move bits about, and the positions of the argument a bit
    of the result is the disjunction of. *)
Inductive wiring :=
  | WArg | WMask (e : wiring) (m : Z) | WOr (e1 e2 : wiring)
  | WShl (e : wiring) (s : Z) | WShr (e : wiring) (s : Z) | WWrap (w : Z) (e : wiring).

Fixpoint wire (e : wiring) (x : Z) : Z :=
  match e with
  | WArg => x
  | WMask e m => wire e x .& m
  | WOr e1 e2 => wire e1 x .| wire e2 x
  | WShl e s => wire e x .<< s
  | WShr e s => wire e x .>> s
  | WWrap w e => uwrap w (wire e x)
  end.

Fixpoint wire_src (e : wiring) (n : Z) : list Z :=
  if n <? 0 then [] else
  match e with
  | WArg => [n]
  | WMask e m => if Z.testbit m n then wire_src e n else []
  | WOr e1 e2 => wire_src e1 n ++ wire_src e2 n
  | WShl e s => wire_src e (n - s)
  | WShr e s => wire_src e (n + s)
  | WWrap w e => if n <? w then wire_src e n else []
  end.

Fixpoint wire_ok (e : wiring) : bool :=
  match e with
  | WArg => true
  | WMask e _ => wire_ok e
  | WOr e1 e2 => wire_ok e1 && wire_ok e2
  | WShl e _ | WShr e _ => wire_ok e
  | WWrap w e => (0 <=? w) && wire_ok e
  end.

Lemma wire_src_spec e x n :
  wire_ok e = true -> Z.testbit (wire e x) n = existsb (Z.testbit x) (wire_src e n).
Proof.
  revert n; induction e as [|e IH m|e1 IH1 e2 IH2|e IH s|e IH s|w e IH]; intros n Hok;
    cbn [wire wire_src wire_ok] in *;
    (destruct (Z.ltb_spec n 0); [now rewrite Z.testbit_neg_r|]).
  - simpl. now rewrite orb_false_r.
  - rewrite Z.land_spec, IH by done. destruct (Z.testbit m n); [apply andb_true_r|apply andb_false_r].
  - apply andb_true_iff in Hok as [H1 H2]. now rewrite Z.lor_spec, IH1, IH2, existsb_app.
  - rewrite Z.shiftl_spec by done. auto.
  - rewrite Z.shiftr_spec by done. auto.
  - apply andb_true_iff in Hok as [H1 H2]. apply Z.leb_le in H1.
    rewrite uwrap_testbit by done. destruct (n <? w); simpl; auto.
Qed.

(** The wiring is the permutation [pos] of the positions below [w]. *)
Definition wired_as (e : wiring) (w : Z) (pos : Z -> Z) : bool :=
  wire_ok e && forallb (fun n => bool_decide (wire_src e n = [pos n])) (seqZ 0 w).

Lemma wired_bit e w pos x n :
  wired_as e w pos = true -> 0 <= n < w -> Z.testbit (wire e x) n = Z.testbit x (pos n).
Proof.
  intros H Hn. apply andb_true_iff in H as [Hok H]. rewrite forallb_forall in H.
  rewrite wire_src_spec by done.
  assert (Hi : In n (seqZ 0 w)) by (apply list_elem_of_In, elem_of_seqZ; lia).
  apply H, bool_decide_eq_true in Hi. rewrite Hi. simpl. apply orb_false_r.
Qed.

Definition swap16_wiring : wiring :=
  let r := WWrap 16 WArg in WWrap 16 (WOr (WShl r 8) (WShr r 8)).
Definition swap32_wiring : wiring :=
  let r := WWrap 32 WArg in
  WWrap 32 (WOr (WOr (WOr (WWrap 32 (WShl r 24)) (WShr r 24))
                     (WMask (WWrap 32 (WShl r 8)) 0x00FF0000))
                (WMask (WShr r 8) 0x0000FF00)).
Definition swap_stage (s m : Z) (r : wiring) : wiring :=
  WOr (WWrap 64 (WShl (WMask r m) s)) (WShr (WMask r (0xffffffffffffffff - m)) s).
Definition swap64_wiring : wiring :=
  swap_stage 8 0x00FF00FF00FF00FF (swap_stage 16 0x0000FFFF0000FFFF
    (swap_stage 32 0x00000000FFFFFFFF (WWrap 64 WArg))).

Lemma SWAP16_bit x n : 0 <= n < 16 -> Z.testbit (SWAP16 x) n = Z.testbit x (swap_pos 2 n).
Proof. apply (wired_bit swap16_wiring). vm_compute. reflexivity. Qed.

Lemma SWAP32_bit x n : 0 <= n < 32 -> Z.testbit (SWAP32 x) n = Z.testbit x (swap_pos 4 n).
Proof. apply (wired_bit swap32_wiring). vm_compute. reflexivity. Qed.

Lemma SWAP64_bit x n : 0 <= n < 64 -> Z.testbit (SWAP64 x) n = Z.testbit x (swap_pos 8 n).
Proof. apply (wired_bit swap64_wiring). vm_compute. reflexivity. Qed.

Lemma SWAP_range x :
  0 <= SWAP16 x < 2 ^ 16 /\ 0 <= SWAP32 x < 2 ^ 32 /\ 0 <= SWAP64 x < 2 ^ 64.
Proof.
  assert (Hs : forall y n, 0 <= y -> 0 <= n -> 0 <= y .>> n) by (intros; now apply Z.shiftr_nonneg).
  split; [apply uwrap_range; lia|]. split; [apply uwrap_range; lia|].
  unfold SWAP64. cbv zeta. apply lor_range; [lia|apply uwrap_range; lia|].
  match goal with |- 0 <= (?y .& ?m) .>> 8 < _ => set (z := y .& m) end.
  assert (Hz : 0 <= z < 2 ^ 64).
  { subst z. apply land_range; [lia| |split; [lia|reflexivity]].
    apply Z.lor_nonneg; split; [apply uwrap_range; lia|].
    apply Hs; [|lia]. apply Z.land_nonneg; lia. }
  clearbody z. rewrite Z.shiftr_div_pow2 by lia. change (2 ^ 64) with 18446744073709551616 in *.
  change (2 ^ 8) with 256. dlia.
Qed.

(** the byte swaps reverse the byte order - byte [k] of the result is byte
    [w - 1 - k] of the argument - and undo themselves. *)
Theorem SWAP_correct x :
  (forall n, 0 <= n < 16 -> Z.testbit (SWAP16 x) n = Z.testbit x (8 * (1 - n / 8) + n mod 8)) /\
  (forall n, 0 <= n < 32 -> Z.testbit (SWAP32 x) n = Z.testbit x (8 * (3 - n / 8) + n mod 8)) /\
  (forall n, 0 <= n < 64 -> Z.testbit (SWAP64 x) n = Z.testbit x (8 * (7 - n / 8) + n mod 8)) /\
  SWAP16 (SWAP16 x) = u16 x /\ SWAP32 (SWAP32 x) = u32 x /\ SWAP64 (SWAP64 x) = u64 x.
Proof.
  assert (Hinv : forall k (f : Z -> Z), 0 <= k ->
    (forall y, 0 <= f y < 2 ^ (8 * k)) ->
    (forall y n, 0 <= n < 8 * k -> Z.testbit (f y) n = Z.testbit y (swap_pos k n)) ->
    f (f x) = uwrap (8 * k) x).
  { intros k f Hk Hr Hb. apply Z.bits_inj'; intros n Hn. rewrite uwrap_testbit by lia.
    destruct (Z.ltb_spec n (8 * k)).
    - pose proof (swap_pos_range k n ltac:(lia)). rewrite !Hb, swap_pos_invol by lia. done.
    - rewrite (testbit_high (8 * k)) by (auto with lia). done. }
  split; [apply SWAP16_bit|]. split; [apply SWAP32_bit|]. split; [apply SWAP64_bit|].
  split; [|split].
  - apply (Hinv 2); [lia|intros; apply SWAP_range|apply SWAP16_bit].
  - apply (Hinv 4); [lia|intros; apply SWAP_range|apply SWAP32_bit].
  - apply (Hinv 8); [lia|intros; apply SWAP_range|apply SWAP64_bit].
Qed.

(** ** Powers of two *)

(** [o] is [x] with every set bit smeared over the [k] positions at and below
    it. *)
Definition smeared (x : Z) (k : nat) (o : Z) : Prop :=
  forall n, 0 <= n -> Z.testbit o n = existsb (fun j => Z.testbit x (n + Z.of_nat j)) (seq 0 k).

Lemma smear_step x k o : smeared x k o -> smeared x (k + k) (o .| (o .>> Z.of_nat k)).
Proof.
  intros H n Hn. rewrite Z.lor_spec, Z.shiftr_spec, !H by lia.
  rewrite seq_app, existsb_app. f_equal. simpl.
  replace (seq k k) with (map (Nat.add k) (seq 0 k))
    by (etrans; [apply fmap_add_seq|now rewrite Nat.add_0_r]).
  generalize (seq 0 k) as l. intros l. induction l as [|j l IH]; simpl; [done|].
  rewrite <- IH. do 2 f_equal. lia.
Qed.

(** The smearing covers every bit below the highest one. *)
Lemma smeared_ones x k o :
  0 < x -> Z.log2 x < Z.of_nat k -> 0 <= o -> smeared x k o -> o = Z.ones (Z.log2 x + 1).
Proof.
  intros Hx Hk Ho H. pose proof (Z.log2_nonneg x).
  apply Z.bits_inj'; intros n Hn. rewrite H by done.
  destruct (Z.lt_ge_cases n (Z.log2 x + 1)).
  - rewrite Z.ones_spec_low by lia. apply existsb_exists.
    exists (Z.to_nat (Z.log2 x - n)). split; [apply in_seq; lia|].
    rewrite Z2Nat.id by lia. replace (n + _) with (Z.log2 x) by lia. now apply Z.bit_log2.
  - rewrite Z.ones_spec_high by lia. apply not_true_is_false. intros He.
    apply existsb_exists in He as (j & _ & Hj). rewrite Z.bits_above_log2 in Hj; [done|lia..].
Qed.

Lemma lor_shiftr_nonneg o k : 0 <= o -> 0 <= o .| (o .>> k).
Proof. intros. apply Z.lor_nonneg; split; [done|]. now apply Z.shiftr_nonneg. Qed.

Lemma next_pow2_smear n :
  1 < n <= 2 ^ 32 -> next_pow2 n = 2 ^ (Z.log2 (n - 1) + 1).
Proof.
  intros Hn. change (2 ^ 32) with 4294967296 in Hn. unfold next_pow2. cbv zeta.
  rewrite (uwrap_id 64 (n - 1)) by (change (2 ^ 64) with 18446744073709551616; lia).
  set (x := n - 1).
  assert (Hlog : Z.log2 x < 32) by (apply Z.log2_lt_pow2; change (2 ^ 32) with 4294967296; lia).
  assert (S1 : smeared x 1 x).
  { intros m Hm. simpl. now rewrite Z.add_0_r, orb_false_r. }
  apply smear_step in S1. apply smear_step in S1. apply smear_step in S1.
  apply smear_step in S1. apply smear_step in S1.
  apply smeared_ones in S1; [|lia|simpl; lia|repeat apply lor_shiftr_nonneg; lia].
  transitivity (u64 (Z.ones (Z.log2 x + 1) + 1)); [exact (f_equal (fun o => u64 (o + 1)) S1)|].
  rewrite Z.ones_equiv. unfold Z.pred.
  replace (_ + -1 + 1) with (2 ^ (Z.log2 x + 1)) by lia. apply uwrap_id.
  pose proof (Z.log2_nonneg x). split; [apply Z.pow_nonneg; lia|]. apply Z.pow_lt_mono_r; lia.
Qed.

(** The least power of two at or above [n]. *)
Lemma ceil_pow2_least n k :
  1 < n -> 0 <= k -> n <= 2 ^ k -> 2 ^ (Z.log2 (n - 1) + 1) <= 2 ^ k.
Proof.
  intros Hn Hk Hp. apply Z.pow_le_mono_r; [lia|].
  assert (Z.log2 (n - 1) < k); [|lia]. apply Z.log2_lt_pow2; lia.
Qed.

(** [next_pow2] rounds up to a power of two: for arguments from 1 to 2^32
    the result is the least power of two that is at least the argument; for 0
    it is 0. *)
Theorem next_pow2_correct n :
  1 <= n <= 2 ^ 32 ->
  next_pow2 0 = 0 /\
  (exists k, 0 <= k /\ next_pow2 n = 2 ^ k) /\ n <= next_pow2 n /\
  forall k, 0 <= k -> n <= 2 ^ k -> next_pow2 n <= 2 ^ k.
Proof.
  intros Hn. split; [reflexivity|].
  destruct (Z.eq_dec n 1) as [->|].
  { split; [exists 0; split; [lia|reflexivity]|]. split; [vm_compute; discriminate|].
    intros k Hk _. change (next_pow2 1) with 1. pose proof (Z.pow_pos_nonneg 2 k). lia. }
  rewrite next_pow2_smear by lia. pose proof (Z.log2_nonneg (n - 1)).
  split; [exists (Z.log2 (n - 1) + 1); split; [lia|done]|]. split.
  - pose proof (Z.log2_spec (n - 1) ltac:(lia)) as Hl. rewrite <- Z.add_1_r in Hl. lia.
  - intros k Hk Hp. apply ceil_pow2_least; lia.
Qed.

Lemma next_pow2_correct_witness :
  (1 <= 100 <= 2 ^ 32) /\ 100 <= next_pow2 100 /\ next_pow2 100 <= 2 ^ 7.
Proof.
  assert (H : 1 <= 100 <= 2 ^ 32) by (split; vm_compute; discriminate).
  split; [exact H|]. destruct (next_pow2_correct 100 H) as (_ & _ & H1 & H2).
  split; [exact H1|]. apply H2; vm_compute; discriminate.
Defined.

(** above 2^32 the promise of a power of two "or 0 on overflow" fails: the
    last shift is by 16, so a set bit is only smeared over 32 positions. *)
Theorem next_pow2_wide :
  next_pow2 (2 ^ 40 + 1) = 2 ^ 40 + 1 + (2 ^ 40 - 2 ^ 9) /\
  forall k, 0 <= k -> next_pow2 (2 ^ 40 + 1) <> 2 ^ k.
Proof.
  split; [reflexivity|]. intros k Hk He.
  assert (E : next_pow2 (2 ^ 40 + 1) = 2199023255041) by reflexivity. rewrite E in He.
  destruct (Z.lt_ge_cases k 41).
  - assert (2 ^ k <= 2 ^ 40) by (apply Z.pow_le_mono_r; lia).
    change (2 ^ 40) with 1099511627776 in *. lia.
  - destruct (Z.eq_dec k 41) as [->|]; [vm_compute in He; discriminate|].
    assert (2 ^ 42 <= 2 ^ k) by (apply Z.pow_le_mono_r; lia).
    change (2 ^ 42) with 4398046511104 in *. lia.
Qed.

(** ** The doubling loop *)

Lemma next_p2_loop_finds k fuel val :
  0 <= k < 64 -> val <= 2 ^ 63 -> 2 ^ k <= val \/ k = 0 \/ 2 ^ (k - 1) < val ->
  (Z.to_nat (64 - k) <= fuel)%nat ->
  exists j, k <= j /\ next_p2_loop fuel val (2 ^ k) = Some (2 ^ j) /\ val <= 2 ^ j /\
            (j = k \/ 2 ^ (j - 1) < val).
Proof.
  revert k; induction fuel as [|fuel IH]; intros k Hk Hv Hp Hf; [lia|]. simpl.
  destruct (Z.ltb_spec (2 ^ k) val) as [Hlt|Hge].
  - assert (Hk63 : k < 63).
    { destruct (Z.eq_dec k 63) as [->|]; lia. }
    assert (Ed : 2 ^ (k + 1) = 2 * 2 ^ k) by (rewrite Z.pow_add_r by lia; lia).
    assert (Es : u64 (2 ^ k .<< 1) = 2 ^ (k + 1)).
    { rewrite Z.shiftl_mul_pow2 by lia. change (2 ^ 1) with 2.
      rewrite uwrap_id; [lia|]. rewrite Z.mul_comm, <- Ed. split; [apply Z.pow_nonneg; lia|].
      apply Z.pow_lt_mono_r; lia. }
    rewrite Es. destruct (IH (k + 1)) as (j & Hj & E & Hvj & Hm); [lia|lia| |lia|].
    { right; right. replace (k + 1 - 1) with k by lia. done. }
    exists j. split; [lia|]. split; [done|]. split; [done|].
    destruct Hm as [->|]; [|auto]. right. replace (k + 1 - 1) with k by lia. done.
  - exists k. split; [lia|]. split; [done|]. split; [done|auto].
Qed.

Lemma next_p2_loop_zero fuel val : 0 < val -> next_p2_loop fuel val 0 = None.
Proof.
  intros Hv. induction fuel as [|fuel IH]; simpl; [done|].
  rewrite (proj2 (Z.ltb_lt 0 val)) by done. exact IH.
Qed.

(** [next_p2] terminates exactly under its stated assumption.  Up to 2^63,
    64 iterations are enough and the result is the least power of two at or
    above the argument; beyond it [ret] is shifted out to zero and the loop
    never ends. *)
Theorem next_p2_correct val fuel :
  0 <= val ->
  (val <= 2 ^ 63 -> (64 <= fuel)%nat ->
   exists j, 0 <= j /\ next_p2 fuel val = Some (2 ^ j) /\ val <= 2 ^ j /\
             (j = 0 \/ 2 ^ (j - 1) < val)) /\
  (2 ^ 63 < val -> next_p2 fuel val = None).
Proof.
  intros H0. split.
  - intros Hv Hf. unfold next_p2. change 1 with (2 ^ 0).
    destruct (next_p2_loop_finds 0 fuel val) as (j & Hj & E & Hm); [lia|done|auto|lia|].
    exists j; auto.
  - intros Hv. unfold next_p2.
    enough (H : forall k f, 0 <= k <= 63 -> next_p2_loop f val (2 ^ k) = None)
      by (change 1 with (2 ^ 0); apply H; lia).
    intros k f. revert k; induction f as [|f IH]; intros k Hk; [done|]. simpl.
    assert (2 ^ k <= 2 ^ 63) by (apply Z.pow_le_mono_r; lia).
    rewrite (proj2 (Z.ltb_lt (2 ^ k) val)) by lia.
    destruct (Z.eq_dec k 63) as [->|].
    + change (u64 (2 ^ 63 .<< 1)) with 0. apply next_p2_loop_zero. lia.
    + replace (u64 (2 ^ k .<< 1)) with (2 ^ (k + 1)); [apply IH; lia|].
      rewrite Z.shiftl_mul_pow2 by lia. rewrite Z.pow_add_r by lia. symmetry. apply uwrap_id.
      rewrite <- Z.pow_add_r by lia. split; [apply Z.pow_nonneg; lia|apply Z.pow_lt_mono_r; lia].
Qed.

Lemma next_p2_correct_witness :
  0 <= 1000 /\ 0 <= 2 ^ 63 + 1 /\
  (exists j, 0 <= j /\ next_p2 64 1000 = Some (2 ^ j) /\ 1000 <= 2 ^ j /\
             (j = 0 \/ 2 ^ (j - 1) < 1000)) /\
  next_p2 64 (2 ^ 63 + 1) = None.
Proof.
  assert (H0 : 0 <= 1000) by lia. assert (H1 : 0 <= 2 ^ 63 + 1) by (vm_compute; discriminate).
  split; [exact H0|]. split; [exact H1|]. split.
  - apply (proj1 (next_p2_correct 1000 64 H0)); [vm_compute; discriminate|lia].
  - apply (proj2 (next_p2_correct (2 ^ 63 + 1) 64 H1)). reflexivity.
Defined.
