(* ===== verification/Bitmap.v ===== *)
(** Coverage bitmaps: [src/afl-fuzz-bitmap.c] and the two word-size flavours of
    [include/coverage-64.h] / [include/coverage-32.h].

    A map is the list of its bytes; the code reads it through [u64 *] or
    [u32 *] pointers, which [flavour] selects.  The part of [afl_state_t] these
    functions touch is the record [cov]. *)

From S2P Require Import Prelude Words.

(** [WORD_SIZE_64] defined or not. *)
Inductive flavour := Word32 | Word64.

Definition wbytes (fl : flavour) : nat := match fl with Word32 => 4 | Word64 => 8 end.

Record cov := mkCov {
  trace_bits : list Z;          (* afl->fsrv.trace_bits *)
  map_size : Z;                 (* afl->fsrv.map_size *)
  real_map_size : Z;            (* afl->fsrv.real_map_size *)
  actual_counts : Z;            (* afl->fsrv.actual_counts *)
  virgin_bits : list Z;
  virgin_tmout : list Z;
  virgin_crash : list Z;
  bitmap_changed : bool;
  testcase_matrix : option nat; (* queue id of the entry, None for NULL *)
  min_actual_cnts : Z;
  min_bitmap_size : Z
}.

(** The three virgin maps a caller can pass by pointer. *)
Inductive vmap := VBits | VTmout | VCrash.

#[export] Instance vmap_eq_dec : EqDecision vmap.
Proof. solve_decision. Defined.

Definition get_vmap (c : cov) (m : vmap) : list Z :=
  match m with
  | VBits => virgin_bits c | VTmout => virgin_tmout c | VCrash => virgin_crash c
  end.

Definition set_vmap (c : cov) (m : vmap) (v : list Z) : cov :=
  mkCov (trace_bits c) (map_size c) (real_map_size c) (actual_counts c)
        (if decide (m = VBits) then v else virgin_bits c)
        (if decide (m = VTmout) then v else virgin_tmout c)
        (if decide (m = VCrash) then v else virgin_crash c)
        (bitmap_changed c) (testcase_matrix c) (min_actual_cnts c) (min_bitmap_size c).

Definition set_bitmap_changed (c : cov) (b : bool) : cov :=
  mkCov (trace_bits c) (map_size c) (real_map_size c) (actual_counts c)
        (virgin_bits c) (virgin_tmout c) (virgin_crash c)
        b (testcase_matrix c) (min_actual_cnts c) (min_bitmap_size c).

Definition set_trace (c : cov) (t : list Z) (counts : Z) : cov :=
  mkCov t (map_size c) (real_map_size c) counts
        (virgin_bits c) (virgin_tmout c) (virgin_crash c)
        (bitmap_changed c) (testcase_matrix c) (min_actual_cnts c) (min_bitmap_size c).

(** ** Counting *)

(** One iteration of [count_bits] for a word other than 0xffffffff: the SWAR
    population count. *)
Definition count_bits_word (v : Z) : Z :=
  let v := u32 (v - ((v .>> 1) .& 0x55555555)) in
  let v := u32 ((v .& 0x33333333) + ((v .>> 2) .& 0x33333333)) in
  u32 ((u32 (v + (v .>> 4)) .& 0xF0F0F0F) * 0x01010101) .>> 24.

(** The loop [while (i--) { u32 v = *(ptr++); ... }] the three counters share;
    [step v ret] is its body. *)
Fixpoint word_loop (step : Z -> Z -> Z) (i : nat) (mem : list Z) (ret : Z) : Z :=
  match i with
  | O => ret
  | S i' => word_loop step i' (drop 4 mem) (step (le_load (take 4 mem)) ret)
  end.

(** [(real_map_size + 3) >> 2] *)
Definition count_words (c : cov) : nat := Z.to_nat (u32 (real_map_size c + 3) .>> 2).

Definition count_bits_step (v ret : Z) : Z :=
  if v =? 0xffffffff then u32 (ret + 32) else u32 (ret + count_bits_word v).

Definition count_bits (c : cov) (mem : list Z) : Z :=
  word_loop count_bits_step (count_words c) mem 0.

Definition count_bytes_step (v ret : Z) : Z :=
  if negb (truthy v) then ret else
  let ret := if truthy (v .& 0x000000ff) then u32 (ret + 1) else ret in
  let ret := if truthy (v .& 0x0000ff00) then u32 (ret + 1) else ret in
  let ret := if truthy (v .& 0x00ff0000) then u32 (ret + 1) else ret in
  if truthy (v .& 0xff000000) then u32 (ret + 1) else ret.

Definition count_bytes (c : cov) (mem : list Z) : Z :=
  word_loop count_bytes_step (count_words c) mem 0.

Definition count_non_255_step (v ret : Z) : Z :=
  if v =? 0xffffffff then ret else
  let ret := if negb (v .& 0x000000ff =? 0x000000ff) then u32 (ret + 1) else ret in
  let ret := if negb (v .& 0x0000ff00 =? 0x0000ff00) then u32 (ret + 1) else ret in
  let ret := if negb (v .& 0x00ff0000 =? 0x00ff0000) then u32 (ret + 1) else ret in
  if negb (v .& 0xff000000 =? 0xff000000) then u32 (ret + 1) else ret.

Definition count_non_255_bytes (c : cov) (mem : list Z) : Z :=
  word_loop count_non_255_step (count_words c) mem 0.

(** ** Lookup tables *)

Definition simplify_lookup (b : Z) : Z := if b =? 0 then 1 else 128.

Definition count_class_lookup8 (b : Z) : Z :=
  if b =? 0 then 0 else if b =? 1 then 1 else if b =? 2 then 2 else if b =? 3 then 4
  else if b <=? 7 then 8 else if b <=? 15 then 16 else if b <=? 31 then 32
  else if b <=? 127 then 64 else 128.

(** An array of the C program as a function from its indices; [fupd] is the
    assignment [t[i] = v]. *)
Definition fupd (t : Z -> Z) (i v : Z) : Z -> Z := fun j => if j =? i then v else t j.

Definition init_count_class16 (count_class_lookup16 : Z -> Z) : Z -> Z :=
  foldl (fun t b1 =>
    foldl (fun t b2 =>
      fupd t ((b1 .<< 8) + b2)
        (u16 ((count_class_lookup8 b1 .<< 8) .| count_class_lookup8 b2)))
      t (seqZ 0 256))
    count_class_lookup16 (seqZ 0 256).

(** The zero-initialised global after [init_count_class16()]. *)
Definition count_class_lookup16 : Z -> Z := init_count_class16 (fun _ => 0).

(** ** Word-wise processing ([coverage-64.h], [coverage-32.h]) *)

Section Coverage.
Context (fl : flavour).

(** The [u16 mem16[]] view of a word and back. *)
Definition mem16 (word : Z) : list Z :=
  map (fun k => (word .>> (16 * Z.of_nat k)) .& 0xffff) (seq 0 (wbytes fl / 2)).

Definition of_mem16 (hs : list Z) : Z := foldr (fun h acc => h .| (acc .<< 16)) 0 hs.

Definition classify_word (word : Z) : Z :=
  of_mem16 (map count_class_lookup16 (mem16 word)).

(** The 64-bit version returns the [int] sum as a [u32], the 32-bit version
    casts it to [u16]. *)
Definition sum_word (word : Z) : Z :=
  let sum := foldr Z.add 0 (mem16 word) in
  match fl with Word64 => u32 sum | Word32 => u16 sum end.

(** [0x0101010101010101ULL] or [0x01010101]. *)
Definition ones_word : Z :=
  match fl with Word64 => 0x0101010101010101 | Word32 => 0x01010101 end.

Fixpoint simplify_words (i : nat) (mem : list Z) : list Z :=
  match i with
  | O => mem
  | S i' =>
      let mem8 := take (wbytes fl) mem in
      (if truthy (le_load mem8) then map simplify_lookup mem8
       else le_store (wbytes fl) ones_word)
      ++ simplify_words i' (drop (wbytes fl) mem)
  end.

(** [map_size >> 3] or [map_size >> 2]: the words of the allocated map. *)
Definition map_words (c : cov) : nat :=
  Z.to_nat (map_size c .>> match fl with Word64 => 3 | Word32 => 2 end).

(** [(real_map_size + 7) >> 3] or [(real_map_size + 3) >> 2]. *)
Definition real_words (c : cov) : nat :=
  match fl with
  | Word64 => Z.to_nat (u32 (real_map_size c + 7) .>> 3)
  | Word32 => Z.to_nat (u32 (real_map_size c + 3) .>> 2)
  end.

Definition simplify_trace (c : cov) (bytes : list Z) : list Z :=
  simplify_words (map_words c) bytes.

Fixpoint classify_words (i : nat) (mem : list Z) (actual : Z) : list Z * Z :=
  match i with
  | O => (mem, actual)
  | S i' =>
      let w := le_load (take (wbytes fl) mem) in
      let '(w', actual) :=
        if truthy w then (classify_word w, u64 (actual + sum_word w)) else (w, actual) in
      let '(rest, actual) := classify_words i' (drop (wbytes fl) mem) actual in
      (le_store (wbytes fl) w' ++ rest, actual)
  end.

Definition classify_counts (c : cov) : cov :=
  let '(t, actual) := classify_words (map_words c) (trace_bits c) 0 in
  set_trace c t actual.

(** [(cur[0] && vir[0] == 0xff) || (cur[1] && ...) || ...] *)
Definition pristine_hit (current virgin : Z) : bool :=
  existsb (fun k => truthy (byte_at current k) && (byte_at virgin k =? 0xff))
          (seq 0 (wbytes fl)).

Definition discover_word (ret current virgin : Z) : Z * Z :=
  if truthy (current .& virgin) then
    let ret :=
      if ret <? 2 then (if pristine_hit current virgin then 2 else 1) else ret in
    (ret, virgin .& Z.lnot current)
  else (ret, virgin).

(** One word of the scalar [skim] loop. *)
Definition skim_word (current virgin : Z) : bool :=
  truthy current && truthy (classify_word current .& virgin).

(** The words at indices [0 .. n-1] from a pointer. *)
Definition words_at (n : nat) (mem : list Z) : list Z :=
  map (fun k => le_load (take (wbytes fl) (drop (k * wbytes fl) mem))) (seq 0 n).

(** The portable [skim]: four words per iteration while [current <
    current_end]; [packs] is the number of iterations of that loop. *)
Fixpoint skim_loop (packs : nat) (virgin current : list Z) : Z :=
  match packs with
  | O => 0
  | S p =>
      match words_at 4 current, words_at 4 virgin with
      | [c0; c1; c2; c3], [v0; v1; v2; v3] =>
          if skim_word c0 v0 then 1 else
          if skim_word c1 v1 then 1 else
          if skim_word c2 v2 then 1 else
          if skim_word c3 v3 then 1 else
          skim_loop p (drop (4 * wbytes fl) virgin) (drop (4 * wbytes fl) current)
      | _, _ => 0
      end
  end.

Definition skim_packs (size pack : Z) : nat := Z.to_nat ((size + pack - 1) / pack).

Definition skim (size : Z) (virgin current : list Z) : Z :=
  skim_loop (skim_packs size (4 * Z.of_nat (wbytes fl))) virgin current.

(** ** New coverage *)

Fixpoint has_new_bits_loop (i : nat) (current virgin : list Z) (ret : Z) : Z * list Z :=
  match i with
  | O => (ret, virgin)
  | S i' =>
      let cw := le_load (take (wbytes fl) current) in
      let vw := le_load (take (wbytes fl) virgin) in
      let '(ret, vw) := if truthy cw then discover_word ret cw vw else (ret, vw) in
      let '(ret, rest) :=
        has_new_bits_loop i' (drop (wbytes fl) current) (drop (wbytes fl) virgin) ret in
      (ret, le_store (wbytes fl) vw ++ rest)
  end.

Definition has_new_bits (c : cov) (virgin_map : vmap) : Z * cov :=
  let '(ret, virgin) :=
    has_new_bits_loop (real_words c) (trace_bits c) (get_vmap c virgin_map) 0 in
  let c := set_vmap c virgin_map virgin in
  let c := if truthy ret && bool_decide (virgin_map = VBits)
           then set_bitmap_changed c true else c in
  (ret, c).

Definition has_new_bits_unclassified (c : cov) (virgin_map : vmap) : Z * cov :=
  if skim (map_size c) (get_vmap c virgin_map) (trace_bits c) =? 0 then (0, c)
  else has_new_bits (classify_counts c) virgin_map.

(** ** Coverage decrease *)

(** [(vir[0] != 0xff && cur[0] == 0x0) || ...] and the resets it guards. *)
Definition lost_edge (cur vir : Z) : bool := negb (vir =? 0xff) && (cur =? 0).

Definition few_word (min_counts_hit : bool) (cur vir : list Z) (st : bool * bool)
  : list Z * (bool * bool) :=
  let '(cov_decrease, hcn_decrease) := st in
  let current := le_load cur in
  let virgin := le_load vir in
  if truthy (uwrap (8 * Z.of_nat (wbytes fl)) (virgin + 1)) then
    let hcn_decrease :=
      if truthy (current .& virgin) && min_counts_hit then true else hcn_decrease in
    if existsb (fun '(x, y) => lost_edge x y) (combine cur vir) then
      (zip_with (fun x y => if lost_edge x y then 0xff else y) cur vir,
       (true, hcn_decrease))
    else (vir, (cov_decrease, hcn_decrease))
  else (vir, st).

Fixpoint few_words (min_counts_hit : bool) (i : nat) (current virgin : list Z)
    (st : bool * bool) : list Z * (bool * bool) :=
  match i with
  | O => (virgin, st)
  | S i' =>
      let '(vir, st) := few_word min_counts_hit (take (wbytes fl) current)
                                 (take (wbytes fl) virgin) st in
      let '(rest, st) := few_words min_counts_hit i' (drop (wbytes fl) current)
                                   (drop (wbytes fl) virgin) st in
      (vir ++ rest, st)
  end.

Definition has_few_bits (c : cov) (virgin_map : vmap) : Z * cov :=
  match testcase_matrix c with
  | None => has_new_bits c virgin_map
  | Some _ =>
      let cur_bitmap_size := count_bytes c (trace_bits c) in
      let bms_decrease := cur_bitmap_size <? min_bitmap_size c in
      let '(virgin, (cov_decrease, hcn_decrease)) :=
        few_words (actual_counts c <? min_actual_cnts c) (real_words c)
                  (trace_bits c) (get_vmap c virgin_map) (false, false) in
      let c := set_vmap c virgin_map virgin in
      let c := if cov_decrease then set_bitmap_changed c true else c in
      (0x10 + (b2z bms_decrease .<< 2) + (b2z cov_decrease .<< 1) + b2z hcn_decrease, c)
  end.
End Coverage.

(** *** The vector versions of [skim]

    They exist for 64-bit words only.  The two masks are the results of the
    intrinsics the code calls: [_mm512_testn_epi64_mask(value, value)] has bit
    [k] set when word [k] is zero, and [_mm256_movemask_epi8] of
    [_mm256_cmpeq_epi64(value, zeroes)] has bits [8k .. 8k+7] set then. *)

Definition testn_mask (ws : list Z) : Z :=
  foldr (fun w m => b2z (w =? 0) .| (m .<< 1)) 0 ws.

Definition cmpeq_movemask (ws : list Z) : Z :=
  foldr (fun w m => (if w =? 0 then 0xff else 0) .| (m .<< 8)) 0 ws.

(** [classify_word(current[x]) & virgin[x]] as a condition. *)
Definition class_hit (current virgin : Z) : bool :=
  truthy (classify_word Word64 current .& virgin).

Fixpoint skim_avx512_loop (packs : nat) (virgin current : list Z) : Z :=
  match packs with
  | O => 0
  | S p =>
      let value := words_at Word64 8 current in
      let mask := testn_mask value in
      let next := skim_avx512_loop p (drop 64 virgin) (drop 64 current) in
      if mask =? 0xff then next else
      let unroll x :=
        negb (truthy (mask .& (1 .<< Z.of_nat x))) &&
        class_hit (nth x value 0) (nth x (words_at Word64 8 virgin) 0) in
      if unroll 0%nat then 1 else if unroll 1%nat then 1 else
      if unroll 2%nat then 1 else if unroll 3%nat then 1 else
      if unroll 4%nat then 1 else if unroll 5%nat then 1 else
      if unroll 6%nat then 1 else if unroll 7%nat then 1 else next
  end.

Definition skim_avx512 (size : Z) (virgin current : list Z) : Z :=
  skim_avx512_loop (skim_packs size 64) virgin current.

Fixpoint skim_avx2_loop (packs : nat) (virgin current : list Z) : Z :=
  match packs with
  | O => 0
  | S p =>
      let value := words_at Word64 4 current in
      let mask := cmpeq_movemask value in
      let next := skim_avx2_loop p (drop 32 virgin) (drop 32 current) in
      if mask =? 0xffffffff then next else
      let test x m :=
        negb (truthy (mask .& m)) &&
        class_hit (nth x value 0) (nth x (words_at Word64 4 virgin) 0) in
      if test 0%nat 0xff then 1 else
      if test 1%nat 0xff00 then 1 else
      if test 2%nat 0xff0000 then 1 else
      if test 3%nat 0xff000000 then 1 else next
  end.

Definition skim_avx2 (size : Z) (virgin current : list Z) : Z :=
  skim_avx2_loop (skim_packs size 32) virgin current.

(** [minimize_bits]: one bit per map byte, or-ed into [dst]. *)
Fixpoint minimize_loop (i : Z) (src dst : list Z) : list Z :=
  match src with
  | [] => dst
  | b :: src =>
      let dst := if truthy b
                 then alter (fun d => u8 (d .| (1 .<< (i .& 7)))) (Z.to_nat (i .>> 3)) dst
                 else dst in
      minimize_loop (i + 1) src dst
  end.

Definition minimize_bits (c : cov) (dst src : list Z) : list Z :=
  minimize_loop 0 (take (Z.to_nat (map_size c)) src) dst.
