(* ===== verification/BitmapCount.v ===== *)
(** Counting set bits, touched bytes and classified bytes of a map:
    [count_bits], [count_bytes] and [count_non_255_bytes] of
    [src/afl-fuzz-bitmap.c] against their byte-wise meaning. *)

From S2P Require Import Prelude Words Bitmap.

(** ** The SWAR population count, one step at a time *)

Lemma shift_mask4 s m a b c d :
  bytes [a; b; c; d] -> 0 <= s <= 8 -> 0 <= m < 2 ^ (8 - s) ->
  (le_load [a; b; c; d] .>> s) .& le_load [m; m; m; m]
  = le_load (map (fun b => (b .>> s) .& m) [a; b; c; d]).
Proof. intros. now rewrite <- le_load_shift_mask. Qed.

Lemma mask4 m a b c d :
  bytes [a; b; c; d] -> is_byte m ->
  le_load [a; b; c; d] .& le_load [m; m; m; m]
  = le_load (map (fun b => b .& m) [a; b; c; d]).
Proof. intros ? Hm. rewrite <- le_load_land; auto. Qed.

Definition swar1 (b : Z) : Z := b - ((b .>> 1) .& 0x55).
Definition swar2 (b : Z) : Z := (swar1 b .& 0x33) + ((swar1 b .>> 2) .& 0x33).
Definition swar_ok (b : Z) : bool :=
  (0 <=? swar1 b) && (swar1 b <? 256) && (0 <=? swar2 b) && (swar2 b <? 256) &&
  (swar2 b mod 16 <=? 4) && (swar2 b / 16 <=? 4)
  && (swar2 b mod 16 + swar2 b / 16 =? popcount8 b).

Lemma swar_byte b : is_byte b ->
  is_byte (swar1 b) /\ is_byte (swar2 b) /\ swar2 b mod 16 <= 4 /\ swar2 b / 16 <= 4 /\
  swar2 b mod 16 + swar2 b / 16 = popcount8 b.
Proof.
  intros Hb. assert (H : swar_ok b = true) by (revert Hb; apply byte_forall; vm_compute; reflexivity).
  unfold swar_ok in H. rewrite !andb_true_iff, !Z.leb_le, !Z.ltb_lt, !Z.eqb_eq in H.
  unfold is_byte; tauto.
Qed.

Lemma le_load_4_bound l : bytes l -> length l = 4%nat -> 0 <= le_load l < 2 ^ 32.
Proof. intros Hl Hn. pose proof (le_load_bound l Hl). rewrite Hn in *. exact H. Qed.

Lemma swar_step1 a b c d : bytes [a; b; c; d] ->
  let v := le_load [a; b; c; d] in
  u32 (v - ((v .>> 1) .& 0x55555555)) = le_load (map swar1 [a; b; c; d]).
Proof.
  intros Hb v.
  assert (Hm : bytes (map swar1 [a; b; c; d])).
  { apply Forall_map. eapply Forall_impl; [exact Hb|]. intros x Hx. apply (swar_byte x Hx). }
  rewrite <- (uwrap_id 32 (le_load (map _ _))) by (now apply le_load_4_bound).
  f_equal. unfold v. change 0x55555555 with (le_load [0x55; 0x55; 0x55; 0x55]).
  rewrite shift_mask4 by zlit.
  assert (Hm1 : bytes (map (fun b => (b .>> 1) .& 0x55) [a; b; c; d])).
  { apply Forall_map. eapply Forall_impl; [exact Hb|]. intros x Hx. unfold is_byte in *. simpl.
    apply (land_range 8); try lia. apply Z.shiftr_nonneg; lia. }
  cbn [map] in *.
  repeat match goal with H : Forall _ (_ :: _) |- _ => inversion H; subst; clear H end.
  rewrite !le_load_4 by done. unfold swar1. lia.
Qed.
Lemma swar_step2 a b c d : bytes [a; b; c; d] ->
  let v := le_load (map swar1 [a; b; c; d]) in
  u32 ((v .& 0x33333333) + ((v .>> 2) .& 0x33333333)) = le_load (map swar2 [a; b; c; d]).
Proof.
  intros Hb v.
  assert (Hm : bytes (map swar1 [a; b; c; d]) /\ bytes (map swar2 [a; b; c; d])).
  { split; apply Forall_map; (eapply Forall_impl; [exact Hb|]); intros x Hx; apply (swar_byte x Hx). }
  destruct Hm as [Hm1 Hm2].
  rewrite <- (uwrap_id 32 (le_load (map swar2 _))) by (now apply le_load_4_bound).
  f_equal. unfold v. change 0x33333333 with (le_load [0x33; 0x33; 0x33; 0x33]).
  cbn [map] in *. rewrite shift_mask4 by zlit. rewrite mask4 by zlit.
  assert (Hs : forall x s, is_byte x -> is_byte ((x .>> s) .& 0x33)).
  { intros x s Hx. apply (land_range 8); [lia| |unfold is_byte in *; lia]. apply Z.shiftr_nonneg.
    unfold is_byte in *; lia. }
  assert (Hs0 : forall x, is_byte x -> is_byte (x .& 0x33)) by (intros; apply land_byte; zlit).
  cbn [map] in *. invbytes. rewrite !le_load_4 by auto. unfold swar2. lia.
Qed.

(** The last two steps, on bytes [16 * h + l] whose nibbles are at most 4. *)
Lemma swar_step3 h0 l0 h1 l1 h2 l2 h3 l3 :
  Forall (fun x => 0 <= x <= 4) [h0; l0; h1; l1; h2; l2; h3; l3] ->
  let v := le_load [16 * h0 + l0; 16 * h1 + l1; 16 * h2 + l2; 16 * h3 + l3] in
  u32 ((u32 (v + (v .>> 4)) .& 0xF0F0F0F) * 0x01010101) .>> 24
  = (h0 + l0) + (h1 + l1) + (h2 + l2) + (h3 + l3).
Proof.
  intros Hy v. invbytes.
  assert (Hs : u32 (v + (v .>> 4))
    = le_load [16 * (h0 + l1) + (h0 + l0); 16 * (h1 + l2) + (h1 + l1);
               16 * (h2 + l3) + (h2 + l2); 16 * h3 + (h3 + l3)]).
  { unfold v. rewrite Z.shiftr_div_pow2, !le_load_4 by (unfold is_byte; lia).
    change (2 ^ 4) with 16.
    rewrite <- (Z.div_unique_pos _ 16 (h0 + 16 * l1 + 256 * (h1 + 16 * l2)
      + 65536 * (h2 + 16 * l3) + 16777216 * h3) l0) by lia.
    rewrite uwrap_id by (change (2 ^ 32) with 4294967296; lia). lia. }
  rewrite Hs. change 0xF0F0F0F with (le_load [15; 15; 15; 15]).
  rewrite mask4; [|repeat constructor; unfold is_byte; lia..|unfold is_byte; lia].
  cbn [map]. change 15 with (Z.ones 4). rewrite !Z.land_ones by lia. change (2 ^ 4) with 16.
  rewrite !(Z.add_comm (16 * _)), !(Z.mul_comm 16), !Z.mod_add, !Z.mod_small by lia.
  rewrite le_load_4 by (unfold is_byte; lia).
  rewrite Z.shiftr_div_pow2 by lia. unfold uwrap.
  set (p0 := h0 + l0) in *; set (p1 := h1 + l1) in *; set (p2 := h2 + l2) in *;
  set (p3 := h3 + l3) in *.
  assert (0 <= p0 <= 8 /\ 0 <= p1 <= 8 /\ 0 <= p2 <= 8 /\ 0 <= p3 <= 8) by lia.
  clearbody p0 p1 p2 p3. change (2 ^ 32) with 4294967296. change (2 ^ 24) with 16777216.
  rewrite <- (Z.mod_unique_pos _ 4294967296 (p1 + p2 + p3 + 256 * (p2 + p3) + 65536 * p3)
    (p0 + 256 * (p0 + p1) + 65536 * (p0 + p1 + p2) + 16777216 * (p0 + p1 + p2 + p3))) by lia.
  rewrite <- (Z.div_unique_pos _ 16777216 (p0 + p1 + p2 + p3)
    (p0 + 256 * (p0 + p1) + 65536 * (p0 + p1 + p2))) by lia. done.
Qed.

Lemma count_bits_word_4 l : bytes l -> length l = 4%nat ->
  count_bits_word (le_load l) = zsum popcount8 l.
Proof.
  intros Hb Hl. destruct l as [|a [|b [|c [|d [|]]]]]; try discriminate.
  unfold count_bits_word.
  rewrite (swar_step1 a b c d Hb), (swar_step2 a b c d Hb).
  assert (Hd : forall x, is_byte x -> exists h l, swar2 x = 16 * h + l /\ 0 <= h <= 4 /\
      0 <= l <= 4 /\ popcount8 x = h + l).
  { intros x Hx. exists (swar2 x / 16), (swar2 x mod 16).
    pose proof (swar_byte x Hx). unfold is_byte in *. dlia. }
  cbn [map]. invbytes.
  destruct (Hd a ltac:(done)) as (? & ? & E0 & ?), (Hd b ltac:(done)) as (? & ? & E1 & ?),
    (Hd c ltac:(done)) as (? & ? & E2 & ?), (Hd d ltac:(done)) as (? & ? & E3 & ?).
  rewrite E0, E1, E2, E3, swar_step3 by (repeat constructor; lia). unfold zsum; simpl. lia.
Qed.

(** ** Byte tests by masking *)

Lemma land_byte_mask v k :
  v .& (0xff .<< (8 * Z.of_nat k)) = byte_at v k .<< (8 * Z.of_nat k).
Proof.
  unfold byte_at. apply Z.bits_inj'; intros n Hn.
  rewrite Z.land_spec, !Z.shiftl_spec by lia.
  destruct (Z.lt_ge_cases n (8 * Z.of_nat k)).
  - rewrite !(Z.testbit_neg_r _ (n - _)) by lia. apply andb_false_r.
  - rewrite Z.land_spec, Z.shiftr_spec by lia. f_equal. f_equal. lia.
Qed.

Lemma shiftl_eq_iff a b n : 0 <= n -> a .<< n = b .<< n <-> a = b.
Proof.
  intros Hn. split; [|congruence]. rewrite !Z.shiftl_mul_pow2 by done.
  pose proof (Z.pow_pos_nonneg 2 n). intros. apply (Z.mul_cancel_r _ _ (2 ^ n)); lia.
Qed.

Lemma truthy_byte_mask l k :
  bytes l -> truthy (le_load l .& (0xff .<< (8 * Z.of_nat k))) = truthy (nth k l 0).
Proof.
  intros Hl. rewrite land_byte_mask, byte_at_load by done.
  pose proof (shiftl_eq_iff (nth k l 0) 0 (8 * Z.of_nat k) ltac:(lia)) as H.
  rewrite Z.shiftl_0_l in H. apply eq_true_iff_eq. rewrite !truthy_true. tauto.
Qed.

Lemma full_byte_mask l k :
  bytes l ->
  (le_load l .& (0xff .<< (8 * Z.of_nat k)) =? 0xff .<< (8 * Z.of_nat k)) = (nth k l 0 =? 0xff).
Proof.
  intros Hl. rewrite land_byte_mask, byte_at_load by done.
  apply eq_true_iff_eq. rewrite !Z.eqb_eq. apply shiftl_eq_iff; lia.
Qed.

(** ** The counting loop *)

(** A loop whose body adds [f b] for every byte [b] of the word it reads adds
    up [f] over all the bytes it covers. *)
Lemma word_loop_sum step (f : Z -> Z) i mem ret :
  (forall l ret, bytes l -> length l = 4%nat -> 0 <= ret < 2 ^ 32 ->
     step (le_load l) ret = u32 (ret + zsum f l)) ->
  bytes mem -> (4 * i <= length mem)%nat -> 0 <= ret < 2 ^ 32 ->
  word_loop step i mem ret = u32 (ret + zsum f (take (4 * i) mem)).
Proof.
  intros Hstep. revert mem ret; induction i as [|i IH]; intros mem ret Hm Hlen Hret.
  - simpl. rewrite Z.add_0_r. symmetry; now apply uwrap_id.
  - simpl word_loop. rewrite Hstep by buf. rewrite IH by buf.
    replace (4 * S i)%nat with (4 + 4 * i)%nat by lia.
    rewrite take_add, zsum_app. unfold uwrap.
    rewrite Zplus_mod_idemp_l. f_equal. lia.
Qed.

Definition is_nonzero (b : Z) : Z := b2z (negb (b =? 0)).
Definition is_touched (b : Z) : Z := b2z (negb (b =? 0xff)).

Lemma uwrap_add_l w a b : uwrap w (uwrap w a + b) = uwrap w (a + b).
Proof. unfold uwrap. apply Zplus_mod_idemp_l. Qed.

Lemma u32_cond_incr (t : bool) ret :
  0 <= ret < 2 ^ 32 -> (if t then u32 (ret + 1) else ret) = u32 (ret + b2z t).
Proof. intros; destruct t; simpl; [done|]. rewrite Z.add_0_r. symmetry; now apply uwrap_id. Qed.

(** Four conditional [++ret]. *)
Lemma u32_cond_incr4 (t0 t1 t2 t3 : bool) ret :
  0 <= ret < 2 ^ 32 ->
  (let ret := if t0 then u32 (ret + 1) else ret in
   let ret := if t1 then u32 (ret + 1) else ret in
   let ret := if t2 then u32 (ret + 1) else ret in
   if t3 then u32 (ret + 1) else ret)
  = u32 (ret + (b2z t0 + (b2z t1 + (b2z t2 + (b2z t3 + 0))))).
Proof.
  intros Hr. cbv zeta. rewrite (u32_cond_incr t0 ret) by done.
  rewrite (u32_cond_incr t1) by (apply uwrap_range; lia).
  rewrite (u32_cond_incr t2) by (apply uwrap_range; lia).
  rewrite (u32_cond_incr t3) by (apply uwrap_range; lia).
  repeat (rewrite uwrap_add_l || rewrite <- Z.add_assoc). now rewrite Z.add_0_r.
Qed.

Lemma count_bits_step_sum l ret :
  bytes l -> length l = 4%nat -> 0 <= ret < 2 ^ 32 ->
  count_bits_step (le_load l) ret = u32 (ret + zsum popcount8 l).
Proof.
  intros Hl Hn Hr. unfold count_bits_step. destruct (Z.eqb_spec (le_load l) 0xffffffff) as [E|E].
  - assert (l = [255; 255; 255; 255]) as ->.
    { apply le_load_inj; [done|repeat constructor; zlit|done|rewrite E; reflexivity]. }
    reflexivity.
  - now rewrite count_bits_word_4.
Qed.

Ltac four_bytes l Hl Hn :=
  destruct l as [|?b [|?b [|?b [|?b [|]]]]]; try discriminate Hn.

Lemma count_bytes_step_sum l ret :
  bytes l -> length l = 4%nat -> 0 <= ret < 2 ^ 32 ->
  count_bytes_step (le_load l) ret = u32 (ret + zsum is_nonzero l).
Proof.
  intros Hl Hn Hr. unfold count_bytes_step.
  destruct (truthy (le_load l)) eqn:E; simpl negb; cbv iota.
  - change 0x000000ff with (0xff .<< (8 * Z.of_nat 0)).
    change 0x0000ff00 with (0xff .<< (8 * Z.of_nat 1)).
    change 0x00ff0000 with (0xff .<< (8 * Z.of_nat 2)).
    change 0xff000000 with (0xff .<< (8 * Z.of_nat 3)).
    rewrite !truthy_byte_mask by done. four_bytes l Hl Hn. simpl nth.
    now apply u32_cond_incr4.
  - apply truthy_false, le_load_zero in E; [|done]. four_bytes l Hl Hn. invbytes.
    unfold zsum; simpl. rewrite Z.add_0_r. symmetry; now apply uwrap_id.
Qed.

Lemma count_non_255_step_sum l ret :
  bytes l -> length l = 4%nat -> 0 <= ret < 2 ^ 32 ->
  count_non_255_step (le_load l) ret = u32 (ret + zsum is_touched l).
Proof.
  intros Hl Hn Hr. unfold count_non_255_step.
  destruct (Z.eqb_spec (le_load l) 0xffffffff) as [E|E].
  - assert (l = [255; 255; 255; 255]) as ->.
    { apply le_load_inj; [done|repeat constructor; zlit|done|rewrite E; reflexivity]. }
    unfold zsum; simpl. rewrite Z.add_0_r. symmetry; now apply uwrap_id.
  - change 0x000000ff with (0xff .<< (8 * Z.of_nat 0)).
    change 0x0000ff00 with (0xff .<< (8 * Z.of_nat 1)).
    change 0x00ff0000 with (0xff .<< (8 * Z.of_nat 2)).
    change 0xff000000 with (0xff .<< (8 * Z.of_nat 3)).
    rewrite !full_byte_mask by done. four_bytes l Hl Hn. simpl nth.
    now apply u32_cond_incr4.
Qed.

(** ** The three counters *)

(** The words the counters read lie inside the map. *)
Definition readable (c : cov) (mem : list Z) : Prop :=
  bytes mem /\ (4 * count_words c <= length mem)%nat /\ Z.of_nat (length mem) < 2 ^ 28.

Lemma count_sum step f c mem hi :
  (forall l ret, bytes l -> length l = 4%nat -> 0 <= ret < 2 ^ 32 ->
     step (le_load l) ret = u32 (ret + zsum f l)) ->
  (forall b, 0 <= f b <= hi) -> hi <= 8 -> readable c mem ->
  word_loop step (count_words c) mem 0 = zsum f (take (4 * count_words c) mem).
Proof.
  intros Hs Hf Hhi (Hm & Hlen & Hmax).
  rewrite (word_loop_sum step f) by (done || lia). rewrite Z.add_0_l. apply uwrap_id.
  pose proof (zsum_bounds f 0 hi (take (4 * count_words c) mem) ltac:(auto)) as Hz.
  rewrite length_take in Hz. change (2 ^ 32) with 4294967296. change (2 ^ 28) with 268435456 in *.
  nia.
Qed.

Lemma popcount8_bounds b : 0 <= popcount8 b <= 8.
Proof.
  unfold popcount8. pose proof (zsum_bounds (fun k => b2z (Z.testbit b k)) 0 1 (seqZ 0 8)) as H.
  change (Z.of_nat (length (seqZ 0 8))) with 8 in H. auto with cint.
Qed.
