(* ===== verification/BitmapSpec.v ===== *)
(** What the word-wise coverage routines compute, byte by byte: [discover_word]
    and [has_new_bits], the [skim] shortcut of [has_new_bits_unclassified],
    [classify_counts], [simplify_trace], [minimize_bits] and IgorFuzz's
    [has_few_bits]. *)

From S2P Require Import Prelude Words Bitmap BitmapCount.

(** ** Byte-wise reference for new coverage *)

(** A byte of the trace hits a tuple never seen before... *)
Definition fresh_byte (p : Z * Z) : bool := truthy p.1 && (p.2 =? 0xff).
(** ... or at least a hit-count bucket never seen before. *)
Definition overlap_byte (p : Z * Z) : bool := truthy (p.1 .& p.2).

Definition new_bits_ref (cur vir : list Z) : Z :=
  if existsb fresh_byte (zip cur vir) then 2
  else if existsb overlap_byte (zip cur vir) then 1 else 0.

Definition clear_seen (vir cur : list Z) : list Z := zip_with Z.ldiff vir cur.

Lemma new_bits_ref_range cur vir : 0 <= new_bits_ref cur vir <= 2.
Proof. unfold new_bits_ref. repeat case_match; lia. Qed.

Lemma new_bits_ref_app c1 c2 v1 v2 :
  length c1 = length v1 ->
  new_bits_ref (c1 ++ c2) (v1 ++ v2) = Z.max (new_bits_ref c1 v1) (new_bits_ref c2 v2).
Proof.
  intros Hl. unfold new_bits_ref. rewrite zip_with_app, !existsb_app by done.
  repeat case_match; simpl in *; try lia; simplify_eq.
Qed.

Lemma fresh_overlap p : is_byte p.1 -> fresh_byte p = true -> overlap_byte p = true.
Proof.
  destruct p as [x y]. unfold fresh_byte, overlap_byte; simpl. intros Hx.
  rewrite andb_true_iff, Z.eqb_eq. intros [Ht ->].
  change 255 with (Z.ones 8). rewrite Z.land_ones, Z.mod_small; unfold is_byte in *; done || lia.
Qed.

Lemma existsb_fresh_overlap cur vir :
  bytes cur -> existsb fresh_byte (zip cur vir) = true ->
  existsb overlap_byte (zip cur vir) = true.
Proof.
  intros Hc Hf. apply existsb_exists in Hf as (p & Hp & Hf).
  apply existsb_exists. exists p; split; [done|]. apply fresh_overlap; [|done].
  destruct p. apply list_elem_of_In, elem_of_zip_l in Hp. rewrite Forall_forall in Hc. auto.
Qed.

Lemma clear_seen_no_overlap cur vir :
  length cur = length vir -> existsb overlap_byte (zip cur vir) = false ->
  clear_seen vir cur = vir.
Proof.
  unfold clear_seen. revert vir; induction cur as [|x cur IH]; intros [|y vir] Hl Ho;
    simplify_eq/=; [done|].
  apply orb_false_iff in Ho as [H0 Ho]. rewrite IH by done. f_equal.
  apply truthy_false in H0. simpl in H0.
  apply Z.bits_inj'; intros n Hn. rewrite Z.ldiff_spec.
  apply (f_equal (fun z => Z.testbit z n)) in H0. rewrite Z.land_spec, Z.bits_0 in H0.
  now destruct (Z.testbit x n), (Z.testbit y n).
Qed.

(** Words overlap exactly when some of their bytes do. *)
Lemma truthy_land_bytes c v :
  bytes c -> bytes v -> length c = length v ->
  truthy (le_load c .& le_load v) = existsb overlap_byte (zip c v).
Proof.
  intros Hc Hv Hl. rewrite <- le_load_land by done.
  assert (Hb : bytes (zip_with Z.land c v)) by (apply zip_with_bytes; auto using land_byte).
  apply eq_true_iff_eq. rewrite truthy_true, le_load_zero by done. clear Hb Hc Hv.
  revert v Hl; induction c as [|x c IH]; intros [|y v] Hl; simplify_eq/=.
  - split; [intros []; constructor|done].
  - rewrite orb_true_iff, <- IH by done. unfold overlap_byte at 1; simpl. rewrite truthy_true.
    split.
    + intros Hn. destruct (decide (x .& y = 0)) as [E|E]; [right|by left].
      intros Ha. apply Hn. by constructor.
    + intros Hor Ha. inversion Ha; subst. destruct Hor; [congruence|auto].
Qed.

Section Flavour.
Context (fl : flavour).
Abbreviation W := (wbytes fl).

Lemma pristine_hit_bytes c v :
  bytes c -> bytes v -> length c = W -> length v = W ->
  pristine_hit fl (le_load c) (le_load v) = existsb fresh_byte (zip c v).
Proof.
  intros Hc Hv Lc Lv. unfold pristine_hit.
  destruct fl; simpl in Lc, Lv;
    repeat (destruct c as [|? c]; [discriminate|]; destruct v as [|? v]; [discriminate|]; simpl in Lc, Lv);
    destruct c, v; try discriminate; cbn [wbytes seq existsb zip zip_with];
    rewrite !byte_at_load by done; reflexivity.
Qed.

Lemma discover_word_bytes ret c v :
  bytes c -> bytes v -> length c = W -> length v = W -> 0 <= ret <= 2 ->
  discover_word fl ret (le_load c) (le_load v)
  = (Z.max ret (new_bits_ref c v), le_load (clear_seen v c)).
Proof.
  intros Hc Hv Lc Lv Hr. unfold discover_word.
  rewrite truthy_land_bytes, <- Z.ldiff_land by (done || congruence).
  assert (E : le_load (clear_seen v c) = Z.ldiff (le_load v) (le_load c)).
  { apply le_load_ldiff; (done || congruence). }
  rewrite pristine_hit_bytes by done. unfold new_bits_ref.
  destruct (existsb overlap_byte (zip c v)) eqn:Ho.
  - rewrite E. f_equal. destruct (existsb fresh_byte (zip c v)), (Z.ltb_spec ret 2); lia.
  - destruct (existsb fresh_byte (zip c v)) eqn:Hf.
    + apply existsb_fresh_overlap in Hf; [congruence|done].
    + rewrite clear_seen_no_overlap by (done || congruence). f_equal. lia.
Qed.

Lemma has_new_bits_loop_bytes i cur vir ret :
  bytes cur -> bytes vir -> (i * W <= length cur)%nat -> (i * W <= length vir)%nat ->
  0 <= ret <= 2 ->
  has_new_bits_loop fl i cur vir ret
  = (Z.max ret (new_bits_ref (take (i * W) cur) (take (i * W) vir)),
     clear_seen (take (i * W) vir) (take (i * W) cur) ++ drop (i * W) vir).
Proof.
  revert cur vir ret; induction i as [|i IH]; intros cur vir ret Hc Hv Lc Lv Hr.
  { simpl. rewrite !take_0. unfold new_bits_ref; simpl. f_equal. lia. }
  simpl has_new_bits_loop. cbn [Nat.mul] in *.
  set (cw := take W cur). set (vw := take W vir).
  assert (Hcw : bytes cw /\ length cw = W) by (split; subst cw; buf).
  assert (Hvw : bytes vw /\ length vw = W) by (split; subst vw; buf).
  destruct Hcw as [Hcw Lcw], Hvw as [Hvw Lvw].
  assert (E : (if truthy (le_load cw) then discover_word fl ret (le_load cw) (le_load vw)
               else (ret, le_load vw))
              = (Z.max ret (new_bits_ref cw vw), le_load (clear_seen vw cw))).
  { rewrite <- discover_word_bytes by done. destruct (truthy (le_load cw)) eqn:Et; [done|].
    apply truthy_false in Et. unfold discover_word. now rewrite Et, Z.land_0_l. }
  rewrite E. pose proof (new_bits_ref_range cw vw).
  rewrite IH by (buf || lia).
  rewrite !take_add, new_bits_ref_app by (fold cw vw; congruence).
  unfold clear_seen. rewrite zip_with_app by (fold cw vw; congruence). fold cw vw.
  rewrite <- app_assoc, drop_drop. f_equal; [lia|]. f_equal.
  rewrite <- (le_store_load (zip_with _ vw cw)) at 2.
  - f_equal. rewrite length_zip_with. lia.
  - apply zip_with_bytes; auto using ldiff_byte.
Qed.
End Flavour.

(** ** The count-class tables *)

(** A loop that assigns to each index at most one value. *)
Lemma foldl_assign (step : (Z -> Z) -> Z -> (Z -> Z)) (w : Z) l t j key :
  (forall t b, step t b j = if b =? key then w else t j) ->
  foldl step t l j = if bool_decide (key ∈ l) then w else t j.
Proof.
  intros Hs. revert t; induction l as [|b l IH]; intros t; simpl; [done|].
  rewrite IH, Hs.
  destruct (Z.eqb_spec b key) as [->|Hne].
  - rewrite (bool_decide_true (key ∈ key :: l)) by (now left). now case_bool_decide.
  - rewrite (bool_decide_ext (key ∈ b :: l) (key ∈ l)) by (rewrite elem_of_cons; intuition congruence). done.
Qed.

Definition class16 (i : Z) : Z :=
  u16 ((count_class_lookup8 (i .>> 8) .<< 8) .| count_class_lookup8 (i .& 0xff)).

Lemma init_count_class16_spec t i :
  0 <= i < 65536 -> init_count_class16 t i = class16 i.
Proof.
  intros Hi. unfold init_count_class16.
  assert (Hq : i = ((i .>> 8) .<< 8) + (i .& 0xff) /\ 0 <= i .>> 8 < 256 /\ 0 <= i .& 0xff < 256).
  { change 0xff with (Z.ones 8). rewrite Z.land_ones, Z.shiftr_div_pow2, Z.shiftl_mul_pow2 by lia.
    change (2 ^ 8) with 256. dlia. }
  destruct Hq as (Hq & Hhi & Hlo).
  rewrite (foldl_assign _ (class16 i) _ _ i (i .>> 8)).
  { rewrite bool_decide_true; [done|]. apply elem_of_seqZ; lia. }
  clear t; intros t b1.
  destruct (Z.eqb_spec b1 (i .>> 8)) as [->|Hne].
  - rewrite (foldl_assign _ (class16 i) _ _ i (i .& 0xff)).
    { rewrite bool_decide_true; [done|]. apply elem_of_seqZ; lia. }
    clear t; intros t b2. unfold fupd. destruct (Z.eqb_spec b2 (i .& 0xff)) as [->|Hne].
    + rewrite <- Hq, Z.eqb_refl. done.
    + destruct (Z.eqb_spec i (((i .>> 8) .<< 8) + b2)); [lia|done].
  - set (g := fun t b2 => fupd t ((b1 .<< 8) + b2) (u16 ((count_class_lookup8 b1 .<< 8) .| count_class_lookup8 b2))).
    assert (Hg : forall l t, Forall (fun b => 0 <= b < 256) l -> foldl g t l i = t i).
    { intros l; induction l as [|b l IH]; intros t' Hl; simpl; [done|]. inversion Hl; subst.
      rewrite IH by done. unfold g, fupd. rewrite !Z.shiftl_mul_pow2 in * by lia.
      change (2 ^ 8) with 256 in *. destruct (Z.eqb_spec i (b1 * 256 + b)); [lia|done]. }
    apply Hg. apply Forall_forall. intros x Hx. apply elem_of_seqZ in Hx. lia.
Qed.

Lemma class8_byte b : is_byte b -> is_byte (count_class_lookup8 b).
Proof.
  intros _. unfold count_class_lookup8, is_byte. repeat case_match; lia.
Qed.

Lemma class16_pair a b :
  is_byte a -> is_byte b ->
  count_class_lookup16 (a .| (b .<< 8))
  = count_class_lookup8 a .| (count_class_lookup8 b .<< 8).
Proof.
  intros Ha Hb.
  assert (Hr : forall x y, is_byte x -> is_byte y -> 0 <= x .| (y .<< 8) < 65536).
  { intros x y Hx Hy. change 65536 with (2 ^ 16). apply lor_range; [lia|unfold is_byte in *; lia|].
    rewrite Z.shiftl_mul_pow2 by lia. unfold is_byte in *. lia. }
  unfold count_class_lookup16. rewrite init_count_class16_spec by auto. unfold class16.
  assert (E0 : byte_at (le_load [a; b]) 0 = a) by (rewrite byte_at_load; auto).
  assert (E1 : byte_at (le_load [a; b]) 1 = b) by (rewrite byte_at_load; auto).
  unfold byte_at in E0, E1. simpl in E0, E1. rewrite Z.shiftr_0_r, Z.lor_0_r in *.
  change (8 * Z.of_nat 1) with 8 in E1. rewrite E0.
  replace ((a .| (b .<< 8)) .>> 8) with b.
  - rewrite Z.lor_comm. apply uwrap_id. apply Hr; apply class8_byte; done.
  - rewrite <- E1 at 1. change 255 with (Z.ones 8). rewrite Z.land_ones by lia.
    symmetry. rewrite Z.mod_small; [done|].
    rewrite Z.shiftr_div_pow2 by lia. specialize (Hr a b Ha Hb). change (2 ^ 8) with 256. dlia.
Qed.

(** ** Classification, byte by byte *)

(** The 16-bit counters the code adds up. *)
Fixpoint halves (l : list Z) : list Z :=
  match l with
  | a :: b :: r => (a .| (b .<< 8)) :: halves r
  | _ => []
  end.

Lemma le_load_pair a b r : le_load (a :: b :: r) = (a .| (b .<< 8)) .| (le_load r .<< 16).
Proof.
  simpl. rewrite Z.shiftl_lor, Z.shiftl_shiftl by lia. now rewrite Z.lor_assoc.
Qed.

Lemma mem16_half l k :
  bytes l -> (le_load l .>> (16 * Z.of_nat k)) .& 0xffff
             = nth (2 * k) l 0 .| (nth (2 * k + 1) l 0 .<< 8).
Proof.
  intros Hl. rewrite <- !byte_at_load by done. unfold byte_at.
  apply Z.bits_inj'; intros n Hn. change 0xffff with (Z.ones 16). change 0xff with (Z.ones 8).
  rewrite Z.lor_spec, Z.shiftl_spec by lia.
  destruct (Z.lt_ge_cases n 8); [|destruct (Z.lt_ge_cases n 16)].
  - rewrite (Z.testbit_neg_r _ (n - 8)), orb_false_r by lia.
    rewrite !Z.land_spec, !Z.ones_spec_low, !Z.shiftr_spec by lia. f_equal. f_equal. lia.
  - rewrite !Z.land_spec, (Z.ones_spec_high 8 n), andb_false_r, !Z.ones_spec_low, !Z.shiftr_spec by lia.
    simpl. f_equal. f_equal. lia.
  - now rewrite !Z.land_spec, !(Z.ones_spec_high _ _), !andb_false_r by lia.
Qed.

Section Classify.
Context (fl : flavour).
Abbreviation W := (wbytes fl).

Lemma mem16_halves l : bytes l -> length l = W -> mem16 fl (le_load l) = halves l.
Proof.
  intros Hl Lw. unfold mem16. destruct fl; simpl in Lw;
    repeat (destruct l as [|? l]; [discriminate|]; simpl in Lw); destruct l; try discriminate;
    cbn [wbytes Nat.div Nat.divmod fst seq map]; rewrite !mem16_half by done; reflexivity.
Qed.

Lemma classify_word_bytes l :
  bytes l -> length l = W -> classify_word fl (le_load l) = le_load (map count_class_lookup8 l).
Proof.
  intros Hl Lw. unfold classify_word. rewrite mem16_halves by done.
  destruct fl; simpl in Lw;
    repeat (destruct l as [|? l]; [discriminate|]; simpl in Lw); destruct l; try discriminate;
    invbytes; cbn [halves map of_mem16 foldr]; rewrite !class16_pair by done;
    rewrite !le_load_pair; reflexivity.
Qed.

Lemma classify_zero l : Forall (eq 0) l -> map count_class_lookup8 l = l.
Proof. induction 1 as [|b l <- Hl IH]; simpl; [done|]. now rewrite IH. Qed.

Lemma map_class8_bytes l : bytes l -> bytes (map count_class_lookup8 l).
Proof. induction 1; simpl; auto using class8_byte. Qed.

(** [actual_counts] accumulates the sums of the words. *)
Fixpoint words_sum (i : nat) (mem : list Z) : Z :=
  match i with
  | O => 0
  | S i' => sum_word fl (le_load (take W mem)) + words_sum i' (drop W mem)
  end.

Lemma sum_word_zero : sum_word fl 0 = 0.
Proof. destruct fl; reflexivity. Qed.

Lemma classify_words_bytes i mem actual :
  bytes mem -> (i * W <= length mem)%nat -> 0 <= actual < 2 ^ 64 ->
  classify_words fl i mem actual
  = (map count_class_lookup8 (take (i * W) mem) ++ drop (i * W) mem,
     u64 (actual + words_sum i mem)).
Proof.
  revert mem actual; induction i as [|i IH]; intros mem actual Hm Lm Ha.
  { cbn [words_sum Nat.mul]. rewrite Z.add_0_r, uwrap_id, take_0, drop_0 by exact Ha. reflexivity. }
  simpl classify_words. cbn [Nat.mul words_sum] in *.
  set (w := take W mem). assert (Hw : bytes w) by (subst w; buf).
  assert (Lw : length w = W) by (subst w; buf).
  assert (E : (if truthy (le_load w)
               then (classify_word fl (le_load w), u64 (actual + sum_word fl (le_load w)))
               else (le_load w, actual))
              = (le_load (map count_class_lookup8 w), u64 (actual + sum_word fl (le_load w)))).
  { rewrite classify_word_bytes by done. destruct (truthy (le_load w)) eqn:Et; [done|].
    apply truthy_false in Et. rewrite Et, sum_word_zero, Z.add_0_r, uwrap_id by done.
    apply le_load_zero in Et; [|done]. now rewrite classify_zero, (proj2 (le_load_zero _ Hw) Et). }
  rewrite E, IH by buf. fold w. f_equal.
  - rewrite take_add, map_app, <- app_assoc, drop_drop. f_equal.
    apply le_store_len; [auto using map_class8_bytes|now rewrite length_map].
  - rewrite uwrap_add_l. f_equal. lia.
Qed.
End Classify.

(** ** The [skim] shortcut *)

Section Skim.
Context (fl : flavour).
Abbreviation W := (wbytes fl).

Lemma words_at_app n m mem :
  words_at fl (n + m) mem = words_at fl n mem ++ words_at fl m (drop (n * W) mem).
Proof.
  unfold words_at. rewrite seq_app, map_app. f_equal. simpl.
  replace (seq n m) with (map (Nat.add n) (seq 0 m))
    by (etrans; [apply fmap_add_seq|now rewrite Nat.add_0_r]).
  rewrite map_map. apply map_ext. intros k.
  rewrite drop_drop. do 3 f_equal. lia.
Qed.

(** Some word of the first [n] has a classified bit that is still virgin. *)
Definition skim_ref (n : nat) (cur vir : list Z) : bool :=
  existsb (fun p => skim_word fl p.1 p.2) (zip (words_at fl n cur) (words_at fl n vir)).

Lemma length_words_at n mem : length (words_at fl n mem) = n.
Proof. unfold words_at. now rewrite length_map, length_seq. Qed.

Lemma skim_ref_add n m cur vir :
  skim_ref (n + m) cur vir
  = skim_ref n cur vir || skim_ref m (drop (n * W) cur) (drop (n * W) vir).
Proof.
  unfold skim_ref. rewrite !words_at_app, zip_with_app, existsb_app; [done|].
  now rewrite !length_words_at.
Qed.

Lemma skim_loop_ref packs vir cur :
  skim_loop fl packs vir cur = b2z (skim_ref (packs * 4) cur vir).
Proof.
  revert vir cur; induction packs as [|p IH]; intros vir cur; [done|].
  replace (S p * 4)%nat with (4 + p * 4)%nat by lia. rewrite skim_ref_add.
  cbn [skim_loop]. rewrite IH. unfold skim_ref at 2. unfold words_at. cbn [seq map].
  cbn [zip zip_with existsb fst snd].
  repeat match goal with |- context [if skim_word ?f ?a ?b then _ else _] =>
    destruct (skim_word f a b); [reflexivity|] end.
  reflexivity.
Qed.

Lemma skim_word_bytes c v :
  bytes c -> bytes v -> length c = W -> length v = W ->
  skim_word fl (le_load c) (le_load v)
  = existsb overlap_byte (zip (map count_class_lookup8 c) v).
Proof.
  intros Hc Hv Lc Lv. unfold skim_word.
  rewrite classify_word_bytes, truthy_land_bytes
    by (done || (rewrite length_map; congruence) || auto using map_class8_bytes).
  destruct (truthy (le_load c)) eqn:E; [done|]. simpl.
  rewrite <- truthy_land_bytes by (done || (rewrite length_map; congruence) || auto using map_class8_bytes).
  apply truthy_false, le_load_zero in E; [|done].
  rewrite classify_zero by done. rewrite (proj2 (le_load_zero c Hc)) by done. done.
Qed.

Lemma skim_ref_bytes n cur vir :
  bytes cur -> bytes vir -> (n * W <= length cur)%nat -> (n * W <= length vir)%nat ->
  skim_ref n cur vir
  = existsb overlap_byte (zip (map count_class_lookup8 (take (n * W) cur)) (take (n * W) vir)).
Proof.
  revert cur vir; induction n as [|n IH]; intros cur vir Hc Hv Lc Lv; [done|].
  change (S n) with (1 + n)%nat. rewrite skim_ref_add. cbn [Nat.mul Nat.add] in *.
  rewrite Nat.add_0_r, IH by buf.
  rewrite !take_add, map_app, zip_with_app, existsb_app by (rewrite length_map; buf).
  f_equal. unfold skim_ref, words_at. cbn [seq map Nat.mul zip zip_with existsb fst snd].
  rewrite !drop_0, orb_false_r. apply skim_word_bytes; buf.
Qed.
End Skim.

Lemma b2z_or a b : b2z (a || b) = if a then 1 else b2z b.
Proof. destruct a; done. Qed.

Lemma skim_word_class c v : skim_word Word64 c v = negb (c =? 0) && class_hit c v.
Proof. reflexivity. Qed.

(** The lane bits of the two masks. *)
Lemma testn_mask_lane a b c d e f g h :
  let m := testn_mask [a; b; c; d; e; f; g; h] in
  (m = 0xff -> a = 0 /\ b = 0 /\ c = 0 /\ d = 0 /\ e = 0 /\ f = 0 /\ g = 0 /\ h = 0) /\
  map (fun x => truthy (m .& (1 .<< Z.of_nat x))) (seq 0 8)
  = map (fun w => w =? 0) [a; b; c; d; e; f; g; h].
Proof.
  simpl. destruct (Z.eqb_spec a 0), (Z.eqb_spec b 0), (Z.eqb_spec c 0), (Z.eqb_spec d 0),
    (Z.eqb_spec e 0), (Z.eqb_spec f 0), (Z.eqb_spec g 0), (Z.eqb_spec h 0);
    (split; [first [intros _; tauto | vm_compute; discriminate]|vm_compute; reflexivity]).
Qed.

Lemma cmpeq_movemask_lane a b c d :
  let m := cmpeq_movemask [a; b; c; d] in
  (m = 0xffffffff -> a = 0 /\ b = 0 /\ c = 0 /\ d = 0) /\
  map (fun x => truthy (m .& x)) [0xff; 0xff00; 0xff0000; 0xff000000]
  = map (fun w => w =? 0) [a; b; c; d].
Proof.
  simpl. destruct (Z.eqb_spec a 0), (Z.eqb_spec b 0), (Z.eqb_spec c 0), (Z.eqb_spec d 0);
    (split; [first [intros _; tauto | vm_compute; discriminate]|vm_compute; reflexivity]).
Qed.

Lemma skim_avx512_ref packs vir cur :
  skim_avx512_loop packs vir cur = b2z (skim_ref Word64 (packs * 8) cur vir).
Proof.
  revert vir cur; induction packs as [|p IH]; intros vir cur; [done|].
  replace (S p * 8)%nat with (8 + p * 8)%nat by lia.
  rewrite skim_ref_add, b2z_or. cbn [skim_avx512_loop Nat.mul Nat.add wbytes]. rewrite IH.
  set (next := b2z (skim_ref _ (p * 8) _ _)). unfold skim_ref, words_at. cbn [seq map zip zip_with existsb fst snd nth].
  match goal with |- context [testn_mask [?a; ?b; ?c; ?d; ?e; ?f; ?g; ?h]] =>
    destruct (testn_mask_lane a b c d e f g h) as [Hz Hl]; cbv zeta in Hz, Hl;
    generalize dependent (testn_mask [a; b; c; d; e; f; g; h]) end.
  intros m Hz Hl. cbn [seq map] in Hl. injection Hl as H0 H1 H2 H3 H4 H5 H6 H7.
  rewrite H0, H1, H2, H3, H4, H5, H6, H7, <- !skim_word_class.
  destruct (Z.eqb_spec m 255) as [E|E].
  - destruct (Hz E) as (-> & -> & -> & -> & -> & -> & -> & ->). reflexivity.
  - rewrite !orb_false_r. repeat case_match; simpl in *; congruence.
Qed.

Lemma skim_avx2_ref packs vir cur :
  skim_avx2_loop packs vir cur = b2z (skim_ref Word64 (packs * 4) cur vir).
Proof.
  revert vir cur; induction packs as [|p IH]; intros vir cur; [done|].
  replace (S p * 4)%nat with (4 + p * 4)%nat by lia.
  rewrite skim_ref_add, b2z_or. cbn [skim_avx2_loop Nat.mul Nat.add wbytes]. rewrite IH.
  set (next := b2z (skim_ref _ (p * 4) _ _)). unfold skim_ref, words_at. cbn [seq map zip zip_with existsb fst snd nth].
  match goal with |- context [cmpeq_movemask [?a; ?b; ?c; ?d]] =>
    destruct (cmpeq_movemask_lane a b c d) as [Hz Hl]; cbv zeta in Hz, Hl;
    generalize dependent (cmpeq_movemask [a; b; c; d]) end.
  intros m Hz Hl. cbn [map] in Hl. injection Hl as H0 H1 H2 H3.
  rewrite H0, H1, H2, H3, <- !skim_word_class.
  destruct (Z.eqb_spec m 0xffffffff) as [E|E].
  - destruct (Hz E) as (-> & -> & -> & ->). reflexivity.
  - rewrite !orb_false_r. repeat case_match; simpl in *; congruence.
Qed.

(** ** Coverage decrease *)

(** A tuple the map knows about and the trace no longer hits goes back to
    virgin. *)
Definition reset_lost (cur vir : Z) : Z := if lost_edge cur vir then 0xff else vir.

Definition lost_any (cur vir : list Z) : bool :=
  existsb (fun p => lost_edge p.1 p.2) (zip cur vir).

(** The condition under which a lower total hit count is reported for a word:
    one of its tuples is known and one of its bits is new. *)
Definition word_hcn (cur vir : list Z) : bool :=
  existsb (fun y => negb (y =? 0xff)) vir && existsb overlap_byte (zip cur vir).

Lemma reset_lost_full cur vir :
  length cur = length vir -> existsb (fun y => negb (y =? 0xff)) vir = false ->
  zip_with reset_lost cur vir = vir /\ lost_any cur vir = false.
Proof.
  revert cur; induction vir as [|y vir IH]; intros [|x cur] Hl Hf; simplify_eq/=; [done|].
  apply orb_false_iff in Hf as [Hy Hf]. destruct (IH cur Hl Hf) as [-> IH'].
  unfold lost_any in *. simpl. rewrite IH'. unfold reset_lost, lost_edge. rewrite Hy. done.
Qed.

Section Few.
Context (fl : flavour).
Abbreviation W := (wbytes fl).

Lemma virgin_full_word v :
  bytes v -> length v = W ->
  truthy (uwrap (8 * Z.of_nat W) (le_load v + 1)) = existsb (fun y => negb (y =? 0xff)) v.
Proof.
  intros Hv Lv. apply eq_true_iff_eq. rewrite truthy_true.
  pose proof (le_load_bound v Hv) as Hb. rewrite Lv in Hb.
  assert (Hfull : le_load (replicate W 255) = 2 ^ (8 * Z.of_nat W) - 1) by (destruct fl; reflexivity).
  rewrite existsb_exists. split.
  - intros Hne. destruct (existsb (fun y => negb (y =? 255)) v) eqn:E.
    { now apply existsb_exists in E. }
    exfalso. apply Hne. assert (v = replicate W 255) as ->.
    { apply (list_eq_same_length _ _ W); [now rewrite length_replicate|done|].
      intros i x y Hi Hx Hy. apply lookup_replicate in Hy as [-> _].
      destruct (Z.eq_dec x 255); [done|]. exfalso.
      assert (existsb (fun y => negb (y =? 255)) v = true); [|congruence].
      apply existsb_exists. exists x. split; [|rewrite negb_true_iff, Z.eqb_neq; done].
      apply list_elem_of_In, list_elem_of_lookup. eauto. }
    rewrite Hfull. unfold uwrap. replace (_ - 1 + 1) with (2 ^ (8 * Z.of_nat W)) by lia.
    apply Z.mod_same. pose proof (Z.pow_pos_nonneg 2 (8 * Z.of_nat W)); lia.
  - intros (x & Hx & Hne) H0. rewrite negb_true_iff, Z.eqb_neq in Hne. apply Hne.
    assert (E : le_load v = 2 ^ (8 * Z.of_nat W) - 1).
    { unfold uwrap in H0. destruct (Z.eq_dec (le_load v + 1) (2 ^ (8 * Z.of_nat W))); [lia|].
      rewrite Z.mod_small in H0; lia. }
    rewrite <- Hfull in E. apply le_load_inj in E; [|done| |].
    + subst v. apply list_elem_of_In, elem_of_replicate in Hx. tauto.
    + apply Forall_replicate. unfold is_byte; lia.
    + now rewrite length_replicate.
Qed.

Lemma few_word_bytes mh cur vir cov hcn :
  bytes cur -> bytes vir -> length cur = W -> length vir = W ->
  few_word fl mh cur vir (cov, hcn)
  = (zip_with reset_lost cur vir, (cov || lost_any cur vir, hcn || (mh && word_hcn cur vir))).
Proof.
  intros Hc Hv Lc Lv. unfold few_word. rewrite virgin_full_word by done.
  unfold word_hcn. destruct (existsb _ vir) eqn:E.
  - rewrite truthy_land_bytes by (done || congruence). simpl.
    replace (existsb (fun '(x, y) => lost_edge x y) (combine cur vir)) with (lost_any cur vir).
    2: { unfold lost_any. clear. revert vir; induction cur as [|x cur IH]; intros [|y vir]; simpl;
         [done..|]. now rewrite IH. }
    destruct (lost_any cur vir) eqn:El.
    + rewrite orb_true_r. do 2 f_equal. destruct (existsb overlap_byte _), mh, hcn; done.
    + rewrite orb_false_r. f_equal.
      * symmetry. clear -El Lc Lv. assert (Hl : length cur = length vir) by congruence. clear Lc Lv.
        revert vir El Hl; induction cur as [|x cur IH]; intros [|y vir] El Hl; simplify_eq/=; [done|].
        unfold lost_any in El; simpl in El. apply orb_false_iff in El as [E1 E2].
        f_equal; [|by apply IH]. unfold reset_lost. now rewrite E1.
      * f_equal. destruct (existsb overlap_byte _), mh, hcn; done.
  - destruct (reset_lost_full cur vir) as [-> ->]; [congruence|done|].
    simpl. rewrite andb_false_r, !orb_false_r. done.
Qed.

Definition few_hcn (i : nat) (cur vir : list Z) : bool :=
  existsb (fun k => word_hcn (take W (drop (k * W) cur)) (take W (drop (k * W) vir))) (seq 0 i).

Lemma few_hcn_S i cur vir :
  few_hcn (S i) cur vir
  = word_hcn (take W cur) (take W vir) || few_hcn i (drop W cur) (drop W vir).
Proof.
  unfold few_hcn. simpl. f_equal. rewrite <- seq_shift.
  induction (seq 0 i) as [|k l IH]; simpl; [done|]. rewrite IH, !drop_drop. done.
Qed.

Lemma few_words_bytes mh i cur vir cov hcn :
  bytes cur -> bytes vir -> (i * W <= length cur)%nat -> (i * W <= length vir)%nat ->
  few_words fl mh i cur vir (cov, hcn)
  = (zip_with reset_lost (take (i * W) cur) (take (i * W) vir) ++ drop (i * W) vir,
     (cov || lost_any (take (i * W) cur) (take (i * W) vir),
      hcn || (mh && few_hcn i cur vir))).
Proof.
  revert cur vir cov hcn; induction i as [|i IH]; intros cur vir cov hcn Hc Hv Lc Lv.
  { cbn [few_words Nat.mul]. rewrite !take_0, drop_0. unfold lost_any, few_hcn. simpl.
    now rewrite andb_false_r, !orb_false_r. }
  cbn [few_words Nat.mul] in *. rewrite few_word_bytes by buf. rewrite IH by buf.
  rewrite few_hcn_S, !take_add. unfold lost_any.
  rewrite !zip_with_app, existsb_app by buf. rewrite <- app_assoc, drop_drop.
  rewrite !orb_assoc. do 2 f_equal. destruct hcn, mh; simpl; done.
Qed.
End Few.
