(* ===== verification/BitmapThms.v ===== *)
(** The properties of the coverage bitmaps. *)

From S2P Require Import Prelude Words Bitmap BitmapCount BitmapSpec.

(** ** [minimize_bits] *)

Lemma nth_alter (f : Z -> Z) i j (l : list Z) :
  nth j (alter f i l) 0 = if decide (i = j /\ (j < length l)%nat) then f (nth j l 0) else nth j l 0.
Proof.
  rewrite !nth_lookup, list_lookup_alter. destruct (decide (i = j)) as [->|Hne].
  - destruct (decide (j < length l)%nat) as [Hl|Hl].
    + rewrite decide_True by done. destruct (lookup_lt_is_Some_2 l j Hl) as [x ->]. done.
    + rewrite decide_False by tauto. rewrite (lookup_ge_None_2 l j); [done|lia].
  - now rewrite decide_False by tauto.
Qed.

(** Bit [b] of byte [j] of a bitmap of map bytes. *)
Definition mini_bit (m : list Z) (p : nat) : bool :=
  Z.testbit (nth (p / 8) m 0) (Z.of_nat (p mod 8)).

Lemma minimize_step_bit i dst p :
  (i < 8 * length dst)%nat ->
  mini_bit (alter (fun d => u8 (d .| (1 .<< (Z.of_nat i .& 7)))) (Z.to_nat (Z.of_nat i .>> 3)) dst) p
  = mini_bit dst p || bool_decide (p = i).
Proof.
  intros Hi. unfold mini_bit. rewrite nth_alter.
  assert (E3 : Z.to_nat (Z.of_nat i .>> 3) = (i / 8)%nat).
  { rewrite Z.shiftr_div_pow2 by lia. change (2 ^ 3) with (Z.of_nat 8). rewrite <- Nat2Z.inj_div. lia. }
  assert (E7 : Z.of_nat i .& 7 = Z.of_nat (i mod 8)).
  { change 7 with (Z.ones 3). rewrite Z.land_ones by lia. change (2 ^ 3) with (Z.of_nat 8).
    now rewrite <- Nat2Z.inj_mod. }
  rewrite E3, E7. pose proof (Nat.mod_upper_bound p 8 ltac:(lia)).
  pose proof (Nat.mod_upper_bound i 8 ltac:(lia)).
  pose proof (Nat.div_mod_eq p 8). pose proof (Nat.div_mod_eq i 8).
  case_decide as Hd.
  - destruct Hd as [Hq Hl]. rewrite uwrap_testbit, (proj2 (Z.ltb_lt _ 8)), andb_true_l by lia.
    rewrite Z.lor_spec, Z.shiftl_spec by lia. f_equal.
    case_bool_decide.
    + subst. now rewrite Z.sub_diag.
    + destruct (Z.lt_ge_cases (Z.of_nat (p mod 8)) (Z.of_nat (i mod 8))).
      * apply Z.testbit_neg_r; lia.
      * apply (testbit_high 1); lia.
  - rewrite bool_decide_false; [now rewrite orb_false_r|].
    intros ->. apply Hd. split; [done|]. apply Nat.Div0.div_lt_upper_bound; lia.
Qed.

Lemma minimize_loop_bit i src dst p :
  (i + length src <= 8 * length dst)%nat ->
  mini_bit (minimize_loop (Z.of_nat i) src dst) p
  = mini_bit dst p || ((i <=? p)%nat && truthy (nth (p - i) src 0)).
Proof.
  revert i dst; induction src as [|b src IH]; intros i dst Hl.
  { simpl. destruct (p - i)%nat; now rewrite andb_false_r, orb_false_r. }
  cbn [minimize_loop]. replace (Z.of_nat i + 1) with (Z.of_nat (S i)) by lia.
  simpl in Hl. rewrite IH by (destruct (truthy b); rewrite ?length_alter; lia).
  assert (E : mini_bit (if truthy b then alter (fun d => u8 (d .| (1 .<< (Z.of_nat i .& 7))))
             (Z.to_nat (Z.of_nat i .>> 3)) dst else dst) p
             = mini_bit dst p || (bool_decide (p = i) && truthy b)).
  { destruct (truthy b); [rewrite minimize_step_bit by lia; now rewrite andb_true_r|].
    now rewrite andb_false_r, orb_false_r. }
  rewrite E, <- orb_assoc. f_equal.
  destruct (Nat.lt_trichotomy p i) as [Hp|[->|Hp]].
  - rewrite bool_decide_false, !(proj2 (Nat.leb_gt _ _)) by lia. done.
  - rewrite bool_decide_true, Nat.leb_refl, Nat.sub_diag, (proj2 (Nat.leb_gt _ _)) by lia.
    simpl. now rewrite orb_false_r.
  - rewrite bool_decide_false, !(proj2 (Nat.leb_le _ _)) by lia. simpl.
    replace (p - i)%nat with (S (p - S i)) by lia. done.
Qed.

Lemma minimize_loop_length i src dst : length (minimize_loop i src dst) = length dst.
Proof.
  revert i dst; induction src as [|b src IH]; intros i dst; simpl; [done|].
  rewrite IH. destruct (truthy b); [apply length_alter|done].
Qed.

(** ** Well-formed coverage state

    The fork server rounds [map_size] up to a multiple of 64; [real_map_size]
    is the size the target asked for.  All maps have [map_size] bytes. *)

Record cov_wf (c : cov) : Prop := {
  wf_trace : bytes (trace_bits c);
  wf_trace_len : length (trace_bits c) = Z.to_nat (map_size c);
  wf_vmap m : bytes (get_vmap c m);
  wf_vmap_len m : length (get_vmap c m) = Z.to_nat (map_size c);
  wf_real : 0 < real_map_size c <= map_size c;
  wf_align : map_size c mod 64 = 0;
  wf_max : map_size c < 2 ^ 28
}.

(** The target writes nothing past the counters it declared. *)
Definition quiet_tail (c : cov) : Prop :=
  Forall (eq 0) (drop (Z.to_nat (real_map_size c)) (trace_bits c)).

#[export] Hint Resolve wf_trace wf_vmap : cint.

Lemma real_words_spec fl c :
  cov_wf c ->
  real_map_size c <= Z.of_nat (real_words fl c * wbytes fl) <= map_size c.
Proof.
  intros [_ _ _ _ Hr Ha Hm]. change (2 ^ 28) with 268435456 in Hm.
  unfold real_words. destruct fl; rewrite Z.shiftr_div_pow2, uwrap_id by (try split; lia);
    rewrite Nat2Z.inj_mul, !Z2Nat.id by (try apply Z.div_pos; lia);
    [change (2 ^ 2) with 4|change (2 ^ 3) with 8]; cbn [wbytes];
    [change (Z.of_nat 4) with 4|change (Z.of_nat 8) with 8]; dlia.
Qed.

Lemma count_words_spec c :
  cov_wf c ->
  real_map_size c <= Z.of_nat (4 * count_words c) <= map_size c.
Proof.
  intros Hwf. pose proof (real_words_spec Word32 c Hwf) as H. simpl wbytes in H.
  unfold real_words in H. unfold count_words. rewrite Nat.mul_comm. exact H.
Qed.

Lemma map_words_spec fl c : cov_wf c -> (map_words fl c * wbytes fl)%nat = Z.to_nat (map_size c).
Proof.
  intros [_ _ _ _ Hr Ha Hm]. unfold map_words.
  destruct fl; rewrite Z.shiftr_div_pow2 by lia; apply Nat2Z.inj;
    rewrite Nat2Z.inj_mul, !Z2Nat.id by (try apply Z.div_pos; lia);
    [change (2 ^ 2) with 4|change (2 ^ 3) with 8]; cbn [wbytes];
    [change (Z.of_nat 4) with 4|change (Z.of_nat 8) with 8]; dlia.
Qed.

Lemma wf_real_len fl c : cov_wf c -> (real_words fl c * wbytes fl <= length (trace_bits c))%nat.
Proof.
  intros Hwf. rewrite (wf_trace_len c Hwf). pose proof (real_words_spec fl c Hwf). lia.
Qed.

Lemma wf_real_vlen fl c m :
  cov_wf c -> (real_words fl c * wbytes fl <= length (get_vmap c m))%nat.
Proof.
  intros Hwf. rewrite (wf_vmap_len c Hwf), <- (wf_trace_len c Hwf). now apply wf_real_len.
Qed.
#[export] Hint Resolve wf_real_len wf_real_vlen : cint.

Lemma wf_readable c mem :
  cov_wf c -> bytes mem -> length mem = Z.to_nat (map_size c) -> readable c mem.
Proof.
  intros Hwf Hb Hl. pose proof (count_words_spec c Hwf). pose proof (wf_max c Hwf).
  split; [done|]. rewrite Hl. pose proof (wf_real c Hwf). lia.
Qed.

(** ** Counting *)

(** the status counters are what their names say: over the words that
    cover the target's map, [count_bits] is the number of set bits,
    [count_bytes] the number of nonzero bytes and [count_non_255_bytes] the
    number of bytes other than 0xff, with no 32-bit overflow. *)
Theorem counters_correct c mem :
  readable c mem ->
  let l := take (4 * count_words c) mem in
  count_bits c mem = zsum popcount8 l /\
  count_bytes c mem = zsum is_nonzero l /\
  count_non_255_bytes c mem = zsum is_touched l.
Proof.
  intros Hr l. split; [|split].
  - apply (count_sum _ _ _ _ 8); auto using count_bits_step_sum, popcount8_bounds; lia.
  - apply (count_sum _ _ _ _ 1); auto using count_bytes_step_sum; unfold is_nonzero; auto with cint; lia.
  - apply (count_sum _ _ _ _ 1); auto using count_non_255_step_sum; unfold is_touched; auto with cint; lia.
Qed.

Definition cov0 (trace vir : list Z) : cov :=
  mkCov trace 64 64 0 vir vir vir false None UINT64_MAX UINT32_MAX.

Definition trace0 : list Z := [1; 0; 3; 0; 200] ++ replicate 59 0.
Definition virgin0 : list Z := [255; 7; 254; 255; 200] ++ replicate 59 255.

Lemma counters_correct_witness :
  readable (cov0 trace0 virgin0) trace0 /\ readable (cov0 trace0 virgin0) virgin0 /\
  count_bits (cov0 trace0 virgin0) trace0 = 6 /\
  count_bytes (cov0 trace0 virgin0) trace0 = 3 /\
  count_non_255_bytes (cov0 trace0 virgin0) virgin0 = 3.
Proof.
  assert (Hr : forall t, bytesb t = true -> length t = 64%nat ->
                readable (cov0 trace0 virgin0) t).
  { intros t Ht Hl. split; [now apply bytesb_spec|].
    rewrite Hl; split; [apply Nat.leb_le|]; reflexivity. }
  assert (R1 := Hr trace0 eq_refl eq_refl). assert (R2 := Hr virgin0 eq_refl eq_refl).
  assert (H1 := counters_correct _ _ R1). assert (H2 := counters_correct _ _ R2).
  cbv zeta in H1, H2. destruct H1 as (-> & -> & _), H2 as (_ & _ & ->).
  split; [done|]. split; [done|]. vm_compute. auto.
Defined.

(** ** New coverage *)

Lemma get_set_vmap c m m' v : get_vmap (set_vmap c m v) m' = if decide (m = m') then v else get_vmap c m'.
Proof. destruct m, m'; reflexivity. Qed.

Lemma get_vmap_changed c m b : get_vmap (set_bitmap_changed c b) m = get_vmap c m.
Proof. destruct m; reflexivity. Qed.

Lemma set_bitmap_changed_id c : set_bitmap_changed c (bitmap_changed c) = c.
Proof. destruct c; reflexivity. Qed.

(** The state after a scan that found [ret]. *)
Definition scanned (c : cov) (m : vmap) (v : list Z) (ret : Z) : cov :=
  set_bitmap_changed (set_vmap c m v)
    (bitmap_changed c || (truthy ret && bool_decide (m = VBits))).

Lemma scanned_if c m v ret :
  (if truthy ret && bool_decide (m = VBits) then set_bitmap_changed (set_vmap c m v) true
   else set_vmap c m v) = scanned c m v ret.
Proof.
  unfold scanned. destruct (_ && _); [now rewrite orb_true_r|].
  rewrite orb_false_r. now destruct c.
Qed.

Lemma has_new_bits_eq fl c m :
  cov_wf c ->
  let n := (real_words fl c * wbytes fl)%nat in
  let ret := new_bits_ref (take n (trace_bits c)) (take n (get_vmap c m)) in
  has_new_bits fl c m
  = (ret, scanned c m (clear_seen (take n (get_vmap c m)) (take n (trace_bits c))
                       ++ drop n (get_vmap c m)) ret).
Proof.
  intros Hwf n ret. unfold has_new_bits.
  rewrite has_new_bits_loop_bytes by (auto with cint; lia). fold n.
  pose proof (new_bits_ref_range (take n (trace_bits c)) (take n (get_vmap c m))) as Hr.
  rewrite Z.max_r by (fold ret; lia). fold ret. now rewrite scanned_if.
Qed.

(** C23: [has_new_bits] decides new coverage exactly.  It returns 2 when some
    byte of the trace is nonzero where the virgin map is pristine (a new
    tuple), otherwise 1 when some bit of the trace is still virgin (a new hit
    count), otherwise 0; it clears from the chosen virgin map the bits seen in
    the trace, over the words covering [real_map_size] and nowhere else, and
    raises [bitmap_changed] only for a find in [virgin_bits]. *)
Theorem has_new_bits_correct fl c m :
  cov_wf c ->
  let n := (real_words fl c * wbytes fl)%nat in
  let cur := take n (trace_bits c) in
  let vir := take n (get_vmap c m) in
  let ret := if existsb fresh_byte (zip cur vir) then 2
             else if existsb overlap_byte (zip cur vir) then 1 else 0 in
  has_new_bits fl c m = (ret, scanned c m (zip_with Z.ldiff vir cur ++ drop n (get_vmap c m)) ret).
Proof. exact (has_new_bits_eq fl c m). Qed.

(** A state with small concrete maps, the three virgin maps alike. *)
Lemma flat_cov_wf t v r n ch mx mc mb :
  bytesb t = true -> bytesb v = true -> length t = 64%nat -> length v = 64%nat ->
  0 < r <= 64 -> cov_wf (mkCov t 64 r n v v v ch mx mc mb).
Proof.
  intros Ht Hv Lt Lv Hr. split; simpl; try (now apply bytesb_spec); try lia; try done.
  - intros []; now apply bytesb_spec.
  - intros []; done.
Qed.

Lemma cov0_wf t v :
  bytesb t = true -> bytesb v = true -> length t = 64%nat -> length v = 64%nat ->
  cov_wf (cov0 t v).
Proof. intros. apply flat_cov_wf; try done. Qed.

Lemma has_new_bits_correct_witness :
  cov_wf (cov0 trace0 virgin0) /\
  fst (has_new_bits Word64 (cov0 trace0 virgin0) VBits) = 2 /\
  fst (has_new_bits Word64 (cov0 (replicate 64 1) (255 :: replicate 63 254)) VTmout) = 2 /\
  fst (has_new_bits Word64 (cov0 (replicate 64 2) (254 :: replicate 63 253)) VTmout) = 1 /\
  virgin_bits (snd (has_new_bits Word64 (cov0 trace0 virgin0) VBits))
  = [254; 7; 252; 255; 0] ++ replicate 59 255.
Proof.
  assert (W0 : cov_wf (cov0 trace0 virgin0)) by (apply cov0_wf; reflexivity).
  split; [exact W0|].
  rewrite !(has_new_bits_correct Word64 _ _ W0).
  rewrite (has_new_bits_correct Word64 (cov0 (replicate 64 1) (255 :: replicate 63 254)))
    by (apply cov0_wf; reflexivity).
  rewrite (has_new_bits_correct Word64 (cov0 (replicate 64 2) (254 :: replicate 63 253)))
    by (apply cov0_wf; reflexivity).
  vm_compute. auto.
Defined.

(** What a scan leaves in the map no longer counts as new. *)
Lemma new_bits_ref_cleared cur vir :
  length cur = length vir -> bytes cur -> new_bits_ref cur (clear_seen vir cur) = 0.
Proof.
  intros Hl Hc.
  assert (Ho : existsb overlap_byte (zip cur (clear_seen vir cur)) = false).
  { unfold clear_seen. clear Hc. revert vir Hl; induction cur as [|x cur IH]; intros [|y vir] Hl;
      simplify_eq/=; [done|]. rewrite IH, orb_false_r by done. unfold overlap_byte; simpl.
    apply truthy_false. apply Z.bits_inj'; intros n Hn. autorewrite with cbits.
    now destruct (Z.testbit x n), (Z.testbit y n). }
  unfold new_bits_ref. rewrite Ho.
  destruct (existsb fresh_byte _) eqn:Hf; [|done].
  apply existsb_fresh_overlap in Hf; [congruence|done].
Qed.

Lemma clear_seen_idem cur vir :
  length cur = length vir -> clear_seen (clear_seen vir cur) cur = clear_seen vir cur.
Proof.
  unfold clear_seen. revert vir; induction cur as [|x cur IH]; intros [|y vir] Hl; simplify_eq/=; [done|].
  rewrite IH by done. f_equal. apply Z.bits_inj'; intros n Hn. autorewrite with cbits.
  now destruct (Z.testbit x n), (Z.testbit y n).
Qed.

Lemma bytes_clear_seen vir cur : bytes vir -> bytes cur -> bytes (clear_seen vir cur).
Proof. intros; apply zip_with_bytes; auto using ldiff_byte. Qed.

Lemma length_clear_seen vir cur : length cur = length vir -> length (clear_seen vir cur) = length vir.
Proof. intros. unfold clear_seen. rewrite length_zip_with. lia. Qed.

Lemma scanned_wf c m v ret :
  cov_wf c -> bytes v -> length v = Z.to_nat (map_size c) -> cov_wf (scanned c m v ret).
Proof.
  intros [? ? Hv Hl ? ? ?] Hb Hlen.
  split; auto; unfold scanned; intros m'; rewrite get_vmap_changed, get_set_vmap; case_decide; auto.
Qed.

Lemma has_new_bits_wf fl c m : cov_wf c -> cov_wf (snd (has_new_bits fl c m)).
Proof.
  intros Hwf. rewrite has_new_bits_eq by done. simpl. apply scanned_wf; [done| |].
  - apply Forall_app; split; [apply bytes_clear_seen|]; buf.
  - rewrite length_app, length_clear_seen, length_take, length_drop, (wf_vmap_len c Hwf); [lia|].
    rewrite !length_take, (wf_vmap_len c Hwf), (wf_trace_len c Hwf). lia.
Qed.

(** "Updates the map, so subsequent calls will always return 0": scanning
    the same trace again against the same map, in either word size, finds
    nothing and changes nothing. *)
Theorem has_new_bits_settles fl c m :
  cov_wf c ->
  let c' := snd (has_new_bits fl c m) in
  has_new_bits fl c' m = (0, c').
Proof.
  intros Hwf c'. pose proof (has_new_bits_wf fl c m Hwf) as Hwf'. fold c' in Hwf'.
  rewrite has_new_bits_eq by done. subst c'. rewrite has_new_bits_eq in * by done. simpl in *.
  set (n := (real_words fl c * wbytes fl)%nat) in *.
  assert (Ln : (n <= length (trace_bits c))%nat) by (subst n; auto with cint).
  assert (Lv : (n <= length (get_vmap c m))%nat) by (subst n; auto with cint).
  set (cur := take n (trace_bits c)) in *. set (vir := take n (get_vmap c m)) in *.
  assert (Hl : length cur = length vir) by (subst cur vir; buf).
  assert (Hc : bytes cur) by (subst cur; buf).
  set (ret := new_bits_ref cur vir) in *.
  assert (Hv : get_vmap (scanned c m (clear_seen vir cur ++ drop n (get_vmap c m)) ret) m
               = clear_seen vir cur ++ drop n (get_vmap c m)).
  { unfold scanned. rewrite get_vmap_changed, get_set_vmap. now rewrite decide_True. }
  unfold real_words in *. simpl in *. fold n cur. rewrite Hv.
  assert (Lcs : length (clear_seen vir cur) = n).
  { rewrite length_clear_seen by done. subst vir. buf. }
  rewrite take_app_length', drop_app_length' by done.
  rewrite new_bits_ref_cleared, clear_seen_idem by done. f_equal.
  unfold scanned. simpl. rewrite orb_false_r. unfold set_bitmap_changed, set_vmap; simpl.
  destruct m; reflexivity.
Qed.

Lemma has_new_bits_settles_witness :
  cov_wf (cov0 trace0 virgin0) /\
  fst (has_new_bits Word32 (snd (has_new_bits Word32 (cov0 trace0 virgin0) VBits)) VBits) = 0.
Proof.
  assert (W0 : cov_wf (cov0 trace0 virgin0)) by (apply cov0_wf; reflexivity).
  split; [exact W0|]. now rewrite (has_new_bits_settles Word32 _ VBits W0).
Defined.

(** Where the trace is zero a scan neither finds nor clears anything. *)
Lemma new_bits_ref_zero cur vir : Forall (eq 0) cur -> new_bits_ref cur vir = 0.
Proof.
  intros H. unfold new_bits_ref.
  assert (E : forall f, (forall y, f (0, y) = false) -> existsb f (zip cur vir) = false).
  { intros f Hf. revert vir; induction H as [|x cur <- H IH]; intros [|y vir]; simpl; try done.
    now rewrite Hf, IH. }
  now rewrite !E.
Qed.

Lemma clear_seen_zero cur vir :
  Forall (eq 0) cur -> length cur = length vir -> clear_seen vir cur = vir.
Proof.
  unfold clear_seen. intros H; revert vir; induction H as [|x cur <- H IH]; intros [|y vir] Hl;
    simplify_eq/=; [done|]. rewrite IH by done. now rewrite Z.ldiff_0_r.
Qed.

(** Scanning [n] bytes is scanning the whole maps when the trace is zero from
    [n] on. *)
Lemma scan_app c1 c2 v1 v2 :
  length c1 = length v1 -> length c2 = length v2 -> Forall (eq 0) c2 ->
  new_bits_ref (c1 ++ c2) (v1 ++ v2) = new_bits_ref c1 v1 /\
  clear_seen (v1 ++ v2) (c1 ++ c2) = clear_seen v1 c1 ++ v2.
Proof.
  intros L1 L2 Hz. pose proof (new_bits_ref_range c1 v1).
  rewrite new_bits_ref_app by done. rewrite (new_bits_ref_zero c2) by done. split; [lia|].
  unfold clear_seen. rewrite zip_with_app by congruence.
  fold (clear_seen v2 c2). now rewrite (clear_seen_zero c2 v2).
Qed.

Lemma scan_extend n cur vir :
  length cur = length vir -> Forall (eq 0) (drop n cur) ->
  new_bits_ref (take n cur) (take n vir) = new_bits_ref cur vir /\
  clear_seen (take n vir) (take n cur) ++ drop n vir = clear_seen vir cur.
Proof.
  intros Hl Hz.
  destruct (scan_app (take n cur) (drop n cur) (take n vir) (drop n vir)) as [E1 E2]; [buf..|done|].
  now rewrite !take_drop in E1, E2.
Qed.

Lemma quiet_drop c n :
  quiet_tail c -> real_map_size c <= Z.of_nat n -> Forall (eq 0) (drop n (trace_bits c)).
Proof.
  intros Hq Hn. replace n with (Z.to_nat (real_map_size c) + (n - Z.to_nat (real_map_size c)))%nat by lia.
  rewrite <- drop_drop. now apply Forall_drop.
Qed.

Lemma has_new_bits_quiet fl c m :
  cov_wf c -> quiet_tail c ->
  let ret := new_bits_ref (trace_bits c) (get_vmap c m) in
  has_new_bits fl c m = (ret, scanned c m (clear_seen (get_vmap c m) (trace_bits c)) ret).
Proof.
  intros Hwf Hq ret. rewrite has_new_bits_eq by done.
  pose proof (real_words_spec fl c Hwf).
  destruct (scan_extend (real_words fl c * wbytes fl) (trace_bits c) (get_vmap c m)) as [E1 E2].
  - now rewrite (wf_trace_len c Hwf), (wf_vmap_len c Hwf).
  - apply quiet_drop; [done|lia].
  - now rewrite E1, E2.
Qed.

(** the 32-bit and the 64-bit flavour of [has_new_bits] agree, result and
    state, on every well-formed state whose trace is quiet past
    [real_map_size]. *)
Theorem has_new_bits_flavours c m :
  cov_wf c -> quiet_tail c -> has_new_bits Word32 c m = has_new_bits Word64 c m.
Proof. intros Hwf Hq. now rewrite !has_new_bits_quiet. Qed.

Lemma has_new_bits_flavours_witness :
  cov_wf (cov0 trace0 virgin0) /\ quiet_tail (cov0 trace0 virgin0) /\
  has_new_bits Word32 (cov0 trace0 virgin0) VBits = has_new_bits Word64 (cov0 trace0 virgin0) VBits.
Proof.
  assert (W0 : cov_wf (cov0 trace0 virgin0)) by (apply cov0_wf; reflexivity).
  split; [exact W0|]. split; [apply Forall_nil; exact I|].
  apply (has_new_bits_flavours _ VBits W0). apply Forall_nil; exact I.
Defined.

(** ** Classification *)

Lemma classify_counts_eq fl c :
  cov_wf c ->
  classify_counts fl c
  = set_trace c (map count_class_lookup8 (trace_bits c))
              (u64 (words_sum fl (map_words fl c) (trace_bits c))).
Proof.
  intros Hwf. unfold classify_counts. pose proof (map_words_spec fl c Hwf) as Hm.
  rewrite classify_words_bytes by (auto with cint; rewrite ?Hm, ?(wf_trace_len c Hwf); zlit).
  rewrite Hm, <- (wf_trace_len c Hwf), firstn_all, drop_all, app_nil_r. done.
Qed.

(** The 64-bit words' sums add up to the sum of all 16-bit counters. *)
Lemma halves_app_even l k : Nat.Even (length l) -> halves (l ++ k) = halves l ++ halves k.
Proof.
  intros [n Hn]. revert l Hn; induction n as [|n IH]; intros l Hn.
  - destruct l; [done|discriminate].
  - destruct l as [|a [|b l]]; simpl in Hn; try lia. simpl. rewrite IH by lia. done.
Qed.

Lemma half_range a b : is_byte a -> is_byte b -> 0 <= a .| (b .<< 8) < 65536.
Proof.
  intros Ha Hb. change 65536 with (2 ^ 16). apply lor_range; [lia|unfold is_byte in *; lia|].
  rewrite Z.shiftl_mul_pow2 by lia. unfold is_byte in *. lia.
Qed.

Lemma halves_range l : bytes l -> Forall (fun h => 0 <= h <= 65535) (halves l).
Proof.
  enough (H : forall n l, (length l <= n)%nat -> bytes l -> Forall (fun h => 0 <= h <= 65535) (halves l)) by eauto.
  intros n. induction n as [|n IH]; intros [|a [|b k]] Hn Hl; simpl in *; auto; try lia.
  invbytes. constructor; [pose proof (half_range a b ltac:(done) ltac:(done)); lia|]. apply IH; [lia|done].
Qed.

Lemma sum_word64 l :
  bytes l -> length l = 8%nat -> sum_word Word64 (le_load l) = zsum id (halves l).
Proof.
  intros Hl Hn. unfold sum_word. rewrite mem16_halves by done. apply uwrap_id.
  change (foldr Z.add 0 (halves l)) with (zsum id (halves l)).
  pose proof (zsum_bounds id 0 65535 (halves l)
    (proj1 (Forall_forall _ _) (halves_range l Hl))) as Hb.
  assert (length (halves l) = 4%nat) as Hl4.
  { do 8 (destruct l as [|? l]; [discriminate|]). destruct l; [done|discriminate]. }
  rewrite Hl4 in Hb. change (2 ^ 32) with 4294967296. lia.
Qed.

Lemma words_sum_halves i mem :
  bytes mem -> (i * 8)%nat = length mem -> words_sum Word64 i mem = zsum id (halves mem).
Proof.
  revert mem; induction i as [|i IH]; intros mem Hm Hl.
  - destruct mem; [done|discriminate].
  - cbn [words_sum wbytes]. rewrite IH by buf. rewrite sum_word64 by buf.
    rewrite <- (take_drop 8 mem) at 3. rewrite halves_app_even, zsum_app; [done|].
    exists 4%nat. buf.
Qed.

Lemma classify_counts_wf fl c : cov_wf c -> cov_wf (classify_counts fl c).
Proof.
  intros Hwf. rewrite classify_counts_eq by done. destruct Hwf.
  split; simpl; auto using map_class8_bytes. now rewrite length_map.
Qed.

Lemma classify_counts_quiet fl c : cov_wf c -> quiet_tail c -> quiet_tail (classify_counts fl c).
Proof.
  intros Hwf Hq. rewrite classify_counts_eq by done. unfold quiet_tail in *. simpl.
  rewrite skipn_map, classify_zero; done.
Qed.

(** [classify_counts] replaces every hit count of the trace by its bucket
    and leaves in [actual_counts] the sum, over the words of the map, of their
    16-bit halves; it touches nothing else. *)
Theorem classify_counts_correct c :
  cov_wf c ->
  classify_counts Word64 c
  = set_trace c (map count_class_lookup8 (trace_bits c)) (u64 (zsum id (halves (trace_bits c)))).
Proof.
  intros Hwf. rewrite classify_counts_eq by done. do 2 f_equal.
  pose proof (map_words_spec Word64 c Hwf) as Hm. rewrite <- (wf_trace_len c Hwf) in Hm.
  apply words_sum_halves; auto with cint.
Qed.

Lemma classify_counts_correct_witness :
  cov_wf (cov0 trace0 virgin0) /\
  actual_counts (classify_counts Word64 (cov0 trace0 virgin0)) = 1 + 3 + 200 /\
  take 5 (trace_bits (classify_counts Word64 (cov0 trace0 virgin0))) = [1; 0; 4; 0; 128].
Proof.
  assert (W0 : cov_wf (cov0 trace0 virgin0)) by (apply cov0_wf; reflexivity).
  split; [exact W0|]. rewrite (classify_counts_correct _ W0). vm_compute. auto.
Defined.

(** the two flavours of [sum_word] differ: the 32-bit one cuts the sum of
    a word to 16 bits, so a nonzero trace can end up with a total hit count
    of zero there while the 64-bit flavour counts it. *)
Theorem sum_word_flavours_differ :
  exists c, cov_wf c /\ quiet_tail c /\
    actual_counts (classify_counts Word32 c) = 0 /\
    actual_counts (classify_counts Word64 c) = 0x10000.
Proof.
  exists (cov0 ([0; 128; 0; 128] ++ replicate 60 0) virgin0).
  assert (W0 : cov_wf (cov0 ([0; 128; 0; 128] ++ replicate 60 0) virgin0))
    by (apply cov0_wf; reflexivity).
  split; [exact W0|]. split; [apply Forall_nil; exact I|].
  rewrite !classify_counts_eq by done. split; reflexivity.
Qed.

(** ** The shortcut for unclassified traces *)

Lemma skim_bytes fl c m :
  cov_wf c ->
  skim fl (map_size c) (get_vmap c m) (trace_bits c)
  = b2z (existsb overlap_byte
           (zip (map count_class_lookup8 (trace_bits c)) (get_vmap c m))).
Proof.
  intros Hwf. unfold skim. rewrite skim_loop_ref. f_equal.
  assert (Hp : (skim_packs (map_size c) (4 * Z.of_nat (wbytes fl)) * 4 * wbytes fl)%nat
               = Z.to_nat (map_size c)).
  { unfold skim_packs. destruct Hwf as [_ _ _ _ Hr Ha _]. apply Nat2Z.inj.
    rewrite !Nat2Z.inj_mul, !Z2Nat.id by (try apply Z.div_pos; destruct fl; simpl; lia).
    destruct fl; cbn [wbytes]; [change (Z.of_nat 4) with 4|change (Z.of_nat 8) with 8];
      change (Z.of_nat 4) with 4; dlia. }
  assert (Lt := wf_trace_len c Hwf). assert (Lv := wf_vmap_len c Hwf m).
  rewrite skim_ref_bytes by (auto with cint; lia).
  rewrite Hp. f_equal. rewrite <- Lt at 1. rewrite <- Lv. now rewrite !firstn_all.
Qed.

(** C29: [has_new_bits_unclassified] is [classify_counts] followed by
    [has_new_bits]: the same answer and the same virgin maps.  When it finds
    something the states are equal; when it finds nothing the trace is kept
    as it was. *)
Theorem has_new_bits_unclassified_correct fl c m :
  cov_wf c -> quiet_tail c ->
  let '(ret, c1) := has_new_bits_unclassified fl c m in
  let '(ret', c2) := has_new_bits fl (classify_counts fl c) m in
  ret = ret' /\
  (forall m', get_vmap c1 m' = get_vmap c2 m') /\
  bitmap_changed c1 = bitmap_changed c2 /\
  c1 = (if ret =? 0 then c else c2).
Proof.
  intros Hwf Hq. unfold has_new_bits_unclassified. rewrite skim_bytes by done.
  pose proof (classify_counts_wf fl c Hwf) as Hwf'.
  pose proof (classify_counts_quiet fl c Hwf Hq) as Hq'.
  rewrite has_new_bits_quiet by done. rewrite classify_counts_eq in * by done.
  set (t := map count_class_lookup8 (trace_bits c)) in *.
  assert (Hv : get_vmap (set_trace c t (u64 (words_sum fl (map_words fl c) (trace_bits c)))) m
               = get_vmap c m) by (destruct m; reflexivity).
  rewrite Hv in *. cbn [trace_bits set_trace].
  assert (Lt : length t = length (get_vmap c m)).
  { unfold t. rewrite length_map, (wf_trace_len c Hwf). symmetry. apply (wf_vmap_len c Hwf). }
  destruct (existsb overlap_byte (zip t (get_vmap c m))) eqn:E; cbn [b2z Z.eqb].
  - assert (Hr : new_bits_ref t (get_vmap c m) <> 0).
    { unfold new_bits_ref. rewrite E. case_match; lia. }
    rewrite (proj2 (Z.eqb_neq _ 0)) by done. done.
  - assert (Hr : new_bits_ref t (get_vmap c m) = 0).
    { unfold new_bits_ref. rewrite E. case_match; [|done]. exfalso.
      assert (existsb overlap_byte (zip t (get_vmap c m)) = true); [|congruence].
      eapply existsb_fresh_overlap; [|eassumption]. apply map_class8_bytes; auto with cint. }
    rewrite Hr. cbn [Z.eqb]. split; [done|]. unfold scanned. split; [|split; [|done]].
    + intros m'. rewrite get_vmap_changed, get_set_vmap. case_decide as Hd; [subst m'|destruct m'; done].
      rewrite clear_seen_no_overlap by done. done.
    + simpl. now rewrite orb_false_r.
Qed.

Lemma has_new_bits_unclassified_correct_witness :
  cov_wf (cov0 trace0 virgin0) /\ quiet_tail (cov0 trace0 virgin0) /\
  fst (has_new_bits_unclassified Word64 (cov0 trace0 virgin0) VBits)
  = fst (has_new_bits Word64 (classify_counts Word64 (cov0 trace0 virgin0)) VBits).
Proof.
  assert (W0 : cov_wf (cov0 trace0 virgin0)) by (apply cov0_wf; reflexivity).
  assert (Q0 : quiet_tail (cov0 trace0 virgin0)) by (apply Forall_nil; exact I).
  split; [exact W0|]. split; [exact Q0|].
  pose proof (has_new_bits_unclassified_correct Word64 _ VBits W0 Q0) as H.
  destruct (has_new_bits_unclassified _ _ _), (has_new_bits _ _ _). exact (proj1 H).
Defined.

(** the AVX512, the AVX2 and the portable [skim] agree on every map whose
    size is a multiple of 64, whatever the contents of the maps. *)
Theorem skim_variants_agree size virgin current :
  0 < size -> size mod 64 = 0 ->
  skim_avx512 size virgin current = skim Word64 size virgin current /\
  skim_avx2 size virgin current = skim Word64 size virgin current.
Proof.
  intros Hs Ha. unfold skim_avx512, skim_avx2, skim.
  rewrite skim_avx512_ref, skim_avx2_ref, skim_loop_ref. cbn [wbytes].
  change (4 * Z.of_nat 8) with 32. split; [|done]. do 2 f_equal.
  unfold skim_packs. apply Nat2Z.inj.
  rewrite !Nat2Z.inj_mul, !Z2Nat.id by (apply Z.div_pos; lia).
  change (Z.of_nat 8) with 8. change (Z.of_nat 4) with 4. dlia.
Qed.

Lemma skim_variants_agree_witness :
  0 < 64 /\ 64 mod 64 = 0 /\
  skim_avx512 64 virgin0 trace0 = 1 /\ skim_avx2 64 virgin0 trace0 = 1 /\
  skim_avx512 64 (replicate 64 254) (replicate 64 1) = 0.
Proof.
  assert (H : forall v c, skim_avx512 64 v c = skim Word64 64 v c /\
                          skim_avx2 64 v c = skim Word64 64 v c)
    by (intros; apply skim_variants_agree; [lia|reflexivity]).
  split; [lia|]. split; [reflexivity|].
  rewrite (proj1 (H virgin0 trace0)), (proj2 (H virgin0 trace0)),
    (proj1 (H (replicate 64 254) (replicate 64 1))).
  vm_compute. auto.
Defined.

(** ** Simplification *)

(** A word of zeroes is handled apart, to the same effect. *)
Lemma simplify_words_bytes fl i mem :
  bytes mem -> (i * wbytes fl <= length mem)%nat ->
  simplify_words fl i mem
  = map simplify_lookup (take (i * wbytes fl) mem) ++ drop (i * wbytes fl) mem.
Proof.
  revert mem; induction i as [|i IH]; intros mem Hm Hl.
  { cbn [simplify_words Nat.mul]. now rewrite take_0, drop_0. }
  cbn [simplify_words Nat.mul] in *. rewrite IH by buf.
  rewrite take_add, map_app, <- app_assoc, drop_drop. f_equal.
  set (w := take (wbytes fl) mem). assert (Hw : bytes w) by (subst w; buf).
  assert (Lw : length w = wbytes fl) by (subst w; buf).
  destruct (truthy (le_load w)) eqn:E; [done|].
  apply truthy_false, le_load_zero in E; [|done]. clearbody w. clear -E Lw.
  assert (Hz : w = replicate (wbytes fl) 0).
  { rewrite <- Lw. clear Lw. induction E as [|x w <- E IH]; simpl; [done|]. now rewrite <- IH. }
  rewrite Hz. destruct fl; reflexivity.
Qed.

(** [simplify_trace] maps every byte of the map through
    [simplify_lookup]: 1 for a tuple not hit, 128 for a tuple hit, in both
    flavours. *)
Theorem simplify_trace_correct fl c mem :
  cov_wf c -> bytes mem -> length mem = Z.to_nat (map_size c) ->
  simplify_trace fl c mem = map (fun b => if b =? 0 then 1 else 128) mem.
Proof.
  intros Hwf Hm Hl. unfold simplify_trace. pose proof (map_words_spec fl c Hwf) as Hw.
  rewrite simplify_words_bytes by (done || lia). rewrite Hw, <- Hl, firstn_all, drop_all.
  apply app_nil_r.
Qed.

Lemma simplify_trace_correct_witness :
  cov_wf (cov0 trace0 virgin0) /\
  take 5 (simplify_trace Word64 (cov0 trace0 virgin0) trace0) = [128; 1; 128; 1; 128].
Proof.
  assert (W0 : cov_wf (cov0 trace0 virgin0)) by (apply cov0_wf; reflexivity).
  split; [exact W0|].
  rewrite (simplify_trace_correct Word64 _ trace0 W0 (bytesb_spec trace0 eq_refl) eq_refl).
  reflexivity.
Defined.

(** [minimize_bits] packs the map: bit [p] of the destination is set
    afterwards exactly when it was set before or byte [p] of the source is
    nonzero, and the destination keeps its length ([map_size >> 3] bytes are
    enough). *)
Theorem minimize_bits_correct c dst src p :
  0 <= map_size c -> Z.to_nat (map_size c) = length src -> map_size c <= 8 * Z.of_nat (length dst) ->
  mini_bit (minimize_bits c dst src) p = mini_bit dst p || truthy (nth p src 0) /\
  length (minimize_bits c dst src) = length dst.
Proof.
  intros H0 Hl Hd. unfold minimize_bits. rewrite Hl, firstn_all. split; [|apply minimize_loop_length].
  pose proof (minimize_loop_bit 0 src dst p ltac:(lia)) as E. simpl in E.
  now rewrite Nat.sub_0_r in E.
Qed.

Lemma minimize_bits_correct_witness :
  length (minimize_bits (cov0 trace0 virgin0) (replicate 8 0) trace0) = 8%nat /\
  map (mini_bit (minimize_bits (cov0 trace0 virgin0) (replicate 8 0) trace0)) (seq 0 6)
  = [true; false; true; false; true; false].
Proof.
  assert (H := fun p => minimize_bits_correct (cov0 trace0 virgin0) (replicate 8 0) trace0 p
                ltac:(simpl; lia) eq_refl ltac:(simpl; lia)).
  split; [exact (proj2 (H 0%nat))|].
  cbn [seq map]. rewrite !(fun p => proj1 (H p)). reflexivity.
Defined.
