(* ===== verification/FewBits.v ===== *)
(** IgorFuzz's coverage decrease: what [has_few_bits] of
    [src/afl-fuzz-bitmap.c] reports and what it does to the virgin map. *)

From S2P Require Import Prelude Words Bitmap BitmapCount BitmapSpec BitmapThms.

(** Decoding the result the way [save_if_interesting] reads it. *)
Definition bms_bit (ret : Z) : bool := Z.testbit ret 2.
Definition cov_bit (ret : Z) : bool := Z.testbit ret 1.
Definition hcn_bit (ret : Z) : bool := Z.testbit ret 0.

Definition few_ret (bms cov hcn : bool) : Z :=
  0x10 + (b2z bms .<< 2) + (b2z cov .<< 1) + b2z hcn.

Lemma few_ret_bits bms cov hcn :
  bms_bit (few_ret bms cov hcn) = bms /\ cov_bit (few_ret bms cov hcn) = cov /\
  hcn_bit (few_ret bms cov hcn) = hcn /\ 0x10 <= few_ret bms cov hcn <= 0x17.
Proof. destruct bms, cov, hcn; vm_compute; intuition congruence. Qed.

(** The state after a scan that reset the map to [v]. *)
Definition reset_scan (c : cov) (m : vmap) (v : list Z) (lost : bool) : cov :=
  set_bitmap_changed (set_vmap c m v) (bitmap_changed c || lost).

Lemma reset_scan_if c m v (lost : bool) :
  (if lost then set_bitmap_changed (set_vmap c m v) true else set_vmap c m v)
  = reset_scan c m v lost.
Proof.
  unfold reset_scan. destruct lost; [now rewrite orb_true_r|].
  rewrite orb_false_r. now destruct c.
Qed.

Lemma get_vmap_reset_scan c m v lost m' :
  get_vmap (reset_scan c m v lost) m' = if decide (m = m') then v else get_vmap c m'.
Proof. unfold reset_scan. rewrite get_vmap_changed. apply get_set_vmap. Qed.

Lemma length_reset cur vir :
  length cur = length vir -> length (zip_with reset_lost cur vir) = length vir.
Proof. intros. rewrite length_zip_with. lia. Qed.

Lemma reset_bytes cur vir : bytes cur -> bytes vir -> bytes (zip_with reset_lost cur vir).
Proof.
  apply zip_with_bytes. intros x y Hx Hy. unfold reset_lost. case_match; [|done].
  unfold is_byte; lia.
Qed.

(** The equation the theorems start from. *)
Lemma has_few_bits_eq fl c m q :
  cov_wf c -> testcase_matrix c = Some q ->
  let n := (real_words fl c * wbytes fl)%nat in
  let cur := take n (trace_bits c) in
  let vir := take n (get_vmap c m) in
  has_few_bits fl c m
  = (few_ret (zsum is_nonzero (take (4 * count_words c) (trace_bits c)) <? min_bitmap_size c)
             (lost_any cur vir)
             ((actual_counts c <? min_actual_cnts c)
              && few_hcn fl (real_words fl c) (trace_bits c) (get_vmap c m)),
     reset_scan c m (zip_with reset_lost cur vir ++ drop n (get_vmap c m)) (lost_any cur vir)).
Proof.
  intros Hwf Hq n cur vir. unfold has_few_bits. rewrite Hq.
  rewrite few_words_bytes by auto with cint. fold n cur vir. simpl orb.
  assert (E : count_bytes c (trace_bits c)
              = zsum is_nonzero (take (4 * count_words c) (trace_bits c))).
  { apply (count_sum _ _ _ _ 1); auto using count_bytes_step_sum;
      [unfold is_nonzero; auto with cint|lia|].
    apply wf_readable; auto using wf_trace, wf_trace_len. }
  now rewrite E, reset_scan_if.
Qed.

(** C24: [has_few_bits] with a testcase matrix in place returns a code in
    [0x10, 0x17] whose three bits are: fewer tuples hit than the matrix's
    bitmap size; some tuple the map knows is no longer hit; the total hit
    count is below the matrix's while some word holding a known tuple shows a
    virgin bit.  It resets to 0xff exactly the bytes of tuples known and no
    longer hit, touches nothing past the words that cover [real_map_size] and
    raises [bitmap_changed] exactly when it reset something. *)
Theorem has_few_bits_correct fl c m q :
  cov_wf c -> testcase_matrix c = Some q ->
  let n := (real_words fl c * wbytes fl)%nat in
  let cur := take n (trace_bits c) in
  let vir := take n (get_vmap c m) in
  let '(ret, c') := has_few_bits fl c m in
  0x10 <= ret <= 0x17 /\
  bms_bit ret = (zsum is_nonzero (take (4 * count_words c) (trace_bits c)) <? min_bitmap_size c) /\
  cov_bit ret = existsb (fun p => negb (p.2 =? 0xff) && (p.1 =? 0)) (zip cur vir) /\
  hcn_bit ret = (actual_counts c <? min_actual_cnts c)
                && few_hcn fl (real_words fl c) (trace_bits c) (get_vmap c m) /\
  get_vmap c' m = zip_with (fun x y => if negb (y =? 0xff) && (x =? 0) then 0xff else y) cur vir
                  ++ drop n (get_vmap c m) /\
  (forall m', m' <> m -> get_vmap c' m' = get_vmap c m') /\
  bitmap_changed c' = bitmap_changed c || cov_bit ret /\
  trace_bits c' = trace_bits c /\ actual_counts c' = actual_counts c.
Proof.
  intros Hwf Hq n cur vir. rewrite (has_few_bits_eq fl c m q Hwf Hq). fold n cur vir.
  match goal with |- context [few_ret ?a ?b ?c] =>
    destruct (few_ret_bits a b c) as (-> & -> & -> & Hr) end.
  split; [exact Hr|]. rewrite !get_vmap_reset_scan, decide_True by done.
  repeat split; try done. intros m' Hne. rewrite get_vmap_reset_scan, decide_False; [done|congruence].
Qed.

Definition cov1 (trace vir : list Z) (counts : Z) : cov :=
  mkCov trace 64 60 counts vir vir vir false (Some 7%nat) 100 5.

Lemma cov1_wf t v n :
  bytesb t = true -> bytesb v = true -> length t = 64%nat -> length v = 64%nat ->
  cov_wf (cov1 t v n).
Proof.
  intros. apply flat_cov_wf; try done.
Qed.

Lemma has_few_bits_correct_witness :
  cov_wf (cov1 trace0 virgin0 50) /\ testcase_matrix (cov1 trace0 virgin0 50) = Some 7%nat /\
  cov_bit (fst (has_few_bits Word64 (cov1 trace0 virgin0 50) VBits)) = true /\
  take 5 (virgin_bits (snd (has_few_bits Word64 (cov1 trace0 virgin0 50) VBits)))
  = [255; 255; 254; 255; 200].
Proof.
  assert (W : cov_wf (cov1 trace0 virgin0 50)) by (apply cov1_wf; reflexivity).
  split; [exact W|]. split; [reflexivity|].
  pose proof (has_few_bits_correct Word64 _ VBits _ W eq_refl) as H. cbv zeta in H.
  destruct (has_few_bits _ _ _) as [ret c']. destruct H as (_ & _ & Hc & _ & Hv & _).
  cbn [fst snd]. split; [rewrite Hc; reflexivity|].
  change (virgin_bits c') with (get_vmap c' VBits). rewrite Hv. reflexivity.
Defined.

(** A reset tuple is pristine, so it is not lost twice. *)
Lemma reset_lost_idem cur vir :
  length cur = length vir ->
  lost_any cur (zip_with reset_lost cur vir) = false /\
  zip_with reset_lost cur (zip_with reset_lost cur vir) = zip_with reset_lost cur vir.
Proof.
  unfold lost_any.
  revert vir; induction cur as [|x cur IH]; intros [|y vir] Hl; simplify_eq/=; [done|].
  destruct (IH vir Hl) as [-> ->]. unfold reset_lost, lost_edge.
  destruct (Z.eqb_spec y 255) as [->|Hy], (Z.eqb_spec x 0) as [->|Hx]; simpl;
    rewrite ?(proj2 (Z.eqb_neq y 255)), ?(proj2 (Z.eqb_neq x 0)) by done; done.
Qed.

Lemma reset_scan_wf c m v lost :
  cov_wf c -> bytes v -> length v = Z.to_nat (map_size c) -> cov_wf (reset_scan c m v lost).
Proof.
  intros [? ? Hv Hl ? ? ?] Hb Hlen.
  split; auto; intros m'; rewrite get_vmap_reset_scan; case_decide; auto.
Qed.

Lemma has_few_bits_wf fl c m : cov_wf c -> cov_wf (snd (has_few_bits fl c m)).
Proof.
  intros Hwf. destruct (testcase_matrix c) as [q|] eqn:Hq.
  - rewrite (has_few_bits_eq fl c m q) by done. simpl. apply reset_scan_wf; [done| |].
    + apply Forall_app; split; [apply reset_bytes|]; buf.
    + rewrite length_app, length_reset, length_take, length_drop, (wf_vmap_len c Hwf); [lia|].
      rewrite !length_take, (wf_vmap_len c Hwf), (wf_trace_len c Hwf). lia.
  - unfold has_few_bits. rewrite Hq. now apply has_new_bits_wf.
Qed.

(** scanning the same trace again reports no further lost tuple and
    leaves the state alone. *)
Theorem has_few_bits_settles fl c m q :
  cov_wf c -> testcase_matrix c = Some q ->
  let c' := snd (has_few_bits fl c m) in
  cov_bit (fst (has_few_bits fl c' m)) = false /\ snd (has_few_bits fl c' m) = c'.
Proof.
  intros Hwf Hq c'. pose proof (has_few_bits_wf fl c m Hwf) as Hwf'. fold c' in Hwf'.
  assert (Hc' := has_few_bits_eq fl c m q Hwf Hq).
  rewrite (has_few_bits_eq fl c' m q) by (done || (subst c'; rewrite Hc'; exact Hq)).
  cbn [fst snd]. destruct (few_ret_bits
    (zsum is_nonzero (take (4 * count_words c') (trace_bits c')) <? min_bitmap_size c')
    (lost_any (take (real_words fl c' * wbytes fl) (trace_bits c'))
              (take (real_words fl c' * wbytes fl) (get_vmap c' m)))
    ((actual_counts c' <? min_actual_cnts c')
              && few_hcn fl (real_words fl c') (trace_bits c') (get_vmap c' m))) as (_ & -> & _).
  subst c'. rewrite Hc'. cbn [snd]. clear Hc' Hwf'.
  set (n := (real_words fl c * wbytes fl)%nat).
  assert (Ln : (n <= length (trace_bits c))%nat) by (subst n; auto with cint).
  assert (Lv : (n <= length (get_vmap c m))%nat) by (subst n; auto with cint).
  set (cur := take n (trace_bits c)). set (vir := take n (get_vmap c m)).
  assert (Hl : length cur = length vir) by (subst cur vir; buf).
  set (lost := lost_any cur vir).
  change (real_words fl (reset_scan c m _ lost)) with (real_words fl c). fold n.
  change (trace_bits (reset_scan c m _ lost)) with (trace_bits c). fold cur.
  rewrite !get_vmap_reset_scan, !decide_True by done.
  assert (Lr : length (zip_with reset_lost cur vir) = n)
    by (rewrite length_reset by done; subst vir; buf).
  rewrite take_app_length', drop_app_length' by done.
  destruct (reset_lost_idem cur vir Hl) as [-> ->]. split; [done|].
  unfold reset_scan. simpl. rewrite orb_false_r. unfold set_bitmap_changed, set_vmap; simpl.
  destruct m; reflexivity.
Qed.

Lemma has_few_bits_settles_witness :
  cov_wf (cov1 trace0 virgin0 50) /\
  cov_bit (fst (has_few_bits Word64 (cov1 trace0 virgin0 50) VBits)) = true /\
  cov_bit (fst (has_few_bits Word64
    (snd (has_few_bits Word64 (cov1 trace0 virgin0 50) VBits)) VBits)) = false.
Proof.
  assert (W : cov_wf (cov1 trace0 virgin0 50)) by (apply cov1_wf; reflexivity).
  split; [exact W|]. split; [reflexivity|].
  exact (proj1 (has_few_bits_settles Word64 _ VBits 7 W eq_refl)).
Defined.

(** whether a lower hit count is reported depends on the word size: the
    guard that some tuple is known is evaluated per word, so a state exists
    where the 64-bit build reports it and the 32-bit build does not. *)
Theorem has_few_bits_flavours_differ :
  exists c, cov_wf c /\ quiet_tail c /\ testcase_matrix c = Some 7%nat /\
    fst (has_few_bits Word64 c VBits) = 0x11 /\ fst (has_few_bits Word32 c VBits) = 0x10.
Proof.
  exists (cov1 ([1; 0; 0; 0; 1; 1; 1; 1] ++ replicate 56 0)
               ([255; 255; 255; 255; 254; 254; 254; 254] ++ replicate 56 255) 50).
  split; [apply cov1_wf; reflexivity|]. split; [|split; [reflexivity|]].
  - repeat constructor.
  - vm_compute. auto.
Qed.
