(* ===== verification/Float.v ===== *)
(** IEEE 754 binary64 arithmetic as the code uses it: C's [double] is the
    Standard Library's [spec_float] at precision 53 with round to nearest
    even, so that every operation here is executable and exact. *)

From Stdlib Require Export SpecFloat.
From S2P Require Import Prelude.

Abbreviation double := spec_float.

Definition dadd : double -> double -> double := SFadd 53 1024.
Definition dsub : double -> double -> double := SFsub 53 1024.
Definition dmul : double -> double -> double := SFmul 53 1024.
Definition ddiv : double -> double -> double := SFdiv 53 1024.
Definition dlt : double -> double -> bool := SFltb.

(** Conversion of an integer, rounded to nearest. *)
Definition dint (z : Z) : double := binary_normalize 53 1024 z 0 false.

(** The literal [n / d]: correctly rounded division of two exact integers. *)
Definition dlit (n d : Z) : double := ddiv (dint n) (dint d).

(** Conversion to an integer type truncates; NaN, the infinities and values
    out of range are undefined behaviour. *)
Definition dtrunc (x : double) : option Z :=
  match x with
  | S754_zero _ => Some 0
  | S754_finite s m e =>
      let v := if 0 <=? e then Z.pos m * 2 ^ e else Z.pos m / 2 ^ (- e) in
      Some (if s then - v else v)
  | _ => None
  end.

Definition d_to_u32 (x : double) : res Z :=
  match dtrunc x with
  | Some v => if (0 <=? v) && (v <? 2 ^ 32) then Ok v else Err Fault
  | None => Err Fault
  end.

(** [long double] is the x87 extended format. *)
Definition ldadd : spec_float -> spec_float -> spec_float := SFadd 64 16384.
Definition lddiv : spec_float -> spec_float -> spec_float := SFdiv 64 16384.
Definition ldint (z : Z) : spec_float := binary_normalize 64 16384 z 0 false.

(** The exact conversion from [double]. *)
Definition ld_of_double (x : double) : spec_float :=
  match x with
  | S754_finite s m e => binary_normalize 64 16384 (if s then Z.neg m else Z.pos m) e s
  | _ => x
  end.

(** ** Small integers are exact and ordered *)

Lemma pos_iter_xO p k : Z.pos (Pos.iter xO p k) = Z.pos p * 2 ^ Z.pos k.
Proof.
  induction k as [|k IH] using Pos.peano_ind.
  - change (Z.pos p~0 = Z.pos p * 2). rewrite (Pos2Z.inj_xO p). lia.
  - rewrite Pos.iter_succ, Pos2Z.inj_succ, Z.pow_succ_r by lia.
    change (Z.pos (Pos.iter xO p k)~0) with (2 * Z.pos (Pos.iter xO p k)). rewrite IH. lia.
Qed.

Lemma digits2_iter p k : digits2_pos (Pos.iter xO p k) = (digits2_pos p + k)%positive.
Proof.
  induction k as [|k IH] using Pos.peano_ind.
  - change (Pos.succ (digits2_pos p) = (digits2_pos p + 1)%positive). lia.
  - rewrite Pos.iter_succ. change (digits2_pos (Pos.iter xO p k)~0)
      with (Pos.succ (digits2_pos (Pos.iter xO p k))). rewrite IH. lia.
Qed.

Lemma digits2_spec p : 2 ^ (Z.pos (digits2_pos p) - 1) <= Z.pos p < 2 ^ Z.pos (digits2_pos p).
Proof.
  induction p as [p IH|p IH|]; [| |split; done].
  all: change (digits2_pos _) with (Pos.succ (digits2_pos p)).
  all: rewrite Pos2Z.inj_succ, Z.pow_succ_r by lia.
  all: replace (Z.succ (Z.pos (digits2_pos p)) - 1) with (Z.succ (Z.pos (digits2_pos p) - 1)) by lia.
  all: rewrite Z.pow_succ_r by lia.
  - rewrite (Pos2Z.inj_xI p). lia.
  - rewrite (Pos2Z.inj_xO p). lia.
Qed.

(** A mantissa of exactly 53 digits is not rounded. *)
Lemma round_exact m e :
  digits2_pos m = 53%positive -> -1074 <= e <= 971 ->
  binary_round_aux 53 1024 false (Z.pos m) e loc_Exact = S754_finite false m e.
Proof.
  intros Hd He. unfold binary_round_aux, shr_fexp. cbn [Zdigits2 shr_record_of_loc].
  rewrite Hd. unfold fexp, emin.
  replace (Z.max (53 + e - 53) (3 - 1024 - 53) - e) with 0 by lia.
  cbn [shr shr_m loc_of_shr_record round_nearest_even Zdigits2 shr_record_of_loc]. rewrite Hd.
  replace (Z.max (53 + e - 53) (3 - 1024 - 53) - e) with 0 by lia.
  cbn [shr shr_m]. rewrite (proj2 (Z.leb_le e (1024 - 53))) by lia. done.
Qed.

(** The exponent and the mantissa of an integer below 2^53. *)
Lemma dint_pos p :
  Z.pos p < 2 ^ 53 ->
  exists m, dint (Z.pos p) = S754_finite false m (Z.pos (digits2_pos p) - 53) /\
            Z.pos m = Z.pos p * 2 ^ (53 - Z.pos (digits2_pos p)).
Proof.
  intros Hp. pose proof (digits2_spec p) as Hd.
  assert (Hle : Z.pos (digits2_pos p) <= 53).
  { destruct (Z.le_gt_cases (Z.pos (digits2_pos p)) 53); [done|].
    assert (2 ^ 53 <= 2 ^ (Z.pos (digits2_pos p) - 1)) by (apply Z.pow_le_mono_r; lia). lia. }
  set (d := digits2_pos p) in *.
  unfold dint, binary_normalize, binary_round, shl_align. fold d. unfold fexp, emin.
  replace (Z.max (Z.pos d + 0 - 53) (3 - 1024 - 53) - 0) with (Z.pos d - 53) by lia.
  replace (Z.max (Z.pos d + 0 - 53) (3 - 1024 - 53)) with (Z.pos d - 53) by lia.
  destruct (Z.pos d - 53) as [|k|k] eqn:Ek; [|lia|].
  - exists p. replace (53 - Z.pos d) with 0 by lia. rewrite Z.mul_1_r.
    split; [|done]. apply round_exact; [fold d; lia|lia].
  - exists (Pos.iter xO p k). split.
    + apply round_exact; [|lia]. rewrite digits2_iter. fold d. lia.
    + rewrite pos_iter_xO. do 2 f_equal. lia.
Qed.

(** The conversion is strictly increasing on [0, 2^53). *)
Lemma dint_lt x y : 0 <= x < y -> y < 2 ^ 53 -> dlt (dint x) (dint y) = true.
Proof.
  intros Hxy Hy. destruct y as [|q|]; [lia| |lia]. destruct (dint_pos q) as (mq & -> & Emq); [done|].
  destruct x as [|p|]; [done| |lia]. destruct (dint_pos p) as (mp & -> & Emp); [lia|].
  pose proof (digits2_spec p) as Hp. pose proof (digits2_spec q) as Hq.
  unfold dlt, SFltb, SFcompare.
  destruct (Z.compare_spec (Z.pos (digits2_pos p) - 53) (Z.pos (digits2_pos q) - 53)) as [E|E|E]; [|done|].
  - assert (E' : digits2_pos p = digits2_pos q) by lia. rewrite E' in *.
    assert (Hlt : (mp < mq)%positive).
    { enough (Z.pos mp < Z.pos mq) by lia. rewrite Emp, Emq. apply Z.mul_lt_mono_pos_r; [|lia].
      apply Z.pow_pos_nonneg; [lia|].
      destruct (Z.le_gt_cases 0 (53 - Z.pos (digits2_pos q))); [done|].
      rewrite Z.pow_neg_r in Emq by lia. lia. }
    change (Pos.compare_cont Eq mp mq) with (mp ?= mq)%positive.
    rewrite (proj2 (Pos.compare_lt_iff mp mq) Hlt). done.
  - assert (2 ^ Z.pos (digits2_pos q) <= 2 ^ (Z.pos (digits2_pos p) - 1)) by (apply Z.pow_le_mono_r; lia). lia.
Qed.

Lemma dlt_irrefl x : dlt x x = false.
Proof.
  unfold dlt, SFltb, SFcompare. destruct x as [s|s| |s m e]; try (destruct s; done); [done|].
  rewrite Z.compare_refl. change (Pos.compare_cont Eq m m) with (m ?= m)%positive.
  rewrite Pos.compare_refl. destruct s; done.
Qed.

Lemma dint_ltb x y :
  0 <= x < 2 ^ 53 -> 0 <= y < 2 ^ 53 -> dlt (dint x) (dint y) = (x <? y).
Proof.
  intros Hx Hy. destruct (Z.ltb_spec x y) as [H|H]; [now apply dint_lt|].
  destruct (Z.eq_dec x y) as [->|Hne]; [apply dlt_irrefl|].
  apply not_true_is_false. intros Ht. assert (Hr : dlt (dint y) (dint x) = true) by (apply dint_lt; lia).
  revert Ht Hr. unfold dlt, SFltb, SFcompare.
  assert (Hc : forall a b : positive, Pos.compare_cont Eq a b = CompOpp (Pos.compare_cont Eq b a))
    by (intros a b; apply Pos.compare_antisym).
  destruct (dint x) as [[]|[]| |[] m e], (dint y) as [[]|[]| |[] m' e']; try done;
    rewrite (Z.compare_antisym e e'); destruct (e ?= e'); cbn; try done; rewrite (Hc m' m);
    destruct (Pos.compare_cont Eq m m'); cbn; done.
Qed.

(** Truncation undoes the conversion. *)
Lemma dtrunc_dint z : 0 <= z < 2 ^ 53 -> dtrunc (dint z) = Some z.
Proof.
  intros Hz. destruct z as [|p|]; [done| |lia]. destruct (dint_pos p) as (m & -> & Em); [lia|].
  pose proof (digits2_spec p) as Hp.
  assert (Hle : Z.pos (digits2_pos p) <= 53).
  { destruct (Z.le_gt_cases (Z.pos (digits2_pos p)) 53); [done|].
    assert (2 ^ 53 <= 2 ^ (Z.pos (digits2_pos p) - 1)) by (apply Z.pow_le_mono_r; lia). lia. }
  unfold dtrunc. f_equal. destruct (Z.leb_spec 0 (Z.pos (digits2_pos p) - 53)).
  - assert (E : Z.pos (digits2_pos p) = 53) by lia. rewrite E in *. lia.
  - replace (- (Z.pos (digits2_pos p) - 53)) with (53 - Z.pos (digits2_pos p)) by lia.
    rewrite Em. apply Z.div_mul. apply Z.pow_nonzero; lia.
Qed.
