(* ===== verification/Rand.v ===== *)
(** The random numbers: the Romu generators of [src/afl-performance.c],
    [rand_below] and [rand_below_datalen] of [include/afl-fuzz.h], and the
    interface the mutation code is verified against. *)

From S2P Require Import Prelude Words Bitmap Float.

(** ** The interface

    What the rest of the program uses of the generator: a draw below a limit,
    threading the generator's state. *)

Class RandGen (G : Type) := rand_below : G -> Z -> res (Z * G).

(** Its promise: 0 for limits up to 1, otherwise a value below the limit, if
    it returns: reading new seeds can end the fuzzer, and the loop that draws
    again what is not uniform need not end. *)
Class RandGenLaws (G : Type) `{RandGen G} := {
  rand_below_trivial : forall g limit, limit <= 1 -> rand_below g limit = Ok (0, g);
  rand_below_bound : forall g limit x g',
    1 < limit < 2 ^ 32 -> rand_below g limit = Ok (x, g') -> 0 <= x < limit;
  rand_below_fails : forall g limit e,
    rand_below g limit = Err e -> e = Fatal \/ e = OutOfFuel
}.

(** The ways a draw, and with it the program, can come to nothing. *)
Definition draw_fails {G} `{RandGen G} (n : Z) (e : abort) : Prop := exists g, rand_below g n = Err e.
Definition rand_stops {G} `{RandGen G} (e : abort) : Prop := exists n, draw_fails n e.

(** The program ends itself, where it may, or a draw comes to nothing. *)
Definition dies_or_draws G `{RandGen G} (E : Prop) (e : abort) : Prop := dies E e \/ rand_stops (G := G) e.

Lemma rand_stops_kind {G} `{RandGenLaws G} e : rand_stops (G := G) e -> e = Fatal \/ e = OutOfFuel.
Proof. intros (n & g & E). eapply rand_below_fails, E. Qed.

Lemma or_draws {G} `{RandGen G} (E : Prop) g n (Q : Z * G -> Prop) :
  (forall x g', rand_below g n = Ok (x, g') -> Q (x, g')) -> or_stop (dies_or_draws G E) (rand_below g n) Q.
Proof.
  intros HQ. destruct (rand_below g n) as [[x g']|e] eqn:Er; [now apply HQ|]. right. now exists n, g.
Qed.

Lemma or_dies {G} `{RandGen G} {A} (E : Prop) (m : res A) Q : or_fatal E m Q -> or_stop (dies_or_draws G E) m Q.
Proof. apply or_stop_weaken. intros e He. now left. Qed.

(** ** The generator *)

Record rng := mkRng {
  rand_seed0 : Z;
  rand_seed1 : Z;
  rand_seed2 : Z;
  rand_cnt : Z;
  rng_fixed_seed : bool;
  urandom : list (Z * Z * Z)    (* what the next reads of /dev/urandom return *)
}.

Definition RESEED_RNG : Z := 2500000.

(** Bits of [AFL_RAND_RETURN]. *)
Definition rand_width (fl : flavour) : Z := match fl with Word64 => 64 | Word32 => 32 end.

Definition ROTL (w d lrot : Z) : Z := uwrap w ((d .<< lrot) .| (d .>> (w - lrot))).

(** romuDuoJr for 64-bit words, RomuTrio32 for 32-bit ones. *)
Definition rand_next (fl : flavour) (r : rng) : Z * rng :=
  match fl with
  | Word64 =>
      let xp := rand_seed0 r in
      let s0 := u64 (15241094284759029579 * rand_seed1 r) in
      let s1 := u64 (rand_seed1 r - xp) in
      let s1 := ROTL 64 s1 27 in
      (xp, mkRng s0 s1 (rand_seed2 r) (rand_cnt r) (rng_fixed_seed r) (urandom r))
  | Word32 =>
      let xp := rand_seed0 r in
      let yp := rand_seed1 r in
      let zp := rand_seed2 r in
      let s0 := u32 (3323815723 * zp) in
      let s1 := u32 (yp - xp) in
      let s1 := ROTL 32 s1 6 in
      let s2 := u32 (zp - yp) in
      let s2 := ROTL 32 s2 22 in
      (xp, mkRng s0 s1 s2 (rand_cnt r) (rng_fixed_seed r) (urandom r))
  end.

Definition rand_next_percent (fl : flavour) (r : rng) : double * rng :=
  let '(x, r) := rand_next fl r in
  (ddiv (dint x) (dint 0xffffffffffffffff), r).

(** [if (!afl->rand_cnt-- && !afl->fixed_seed) ck_read(...)]; an empty
    [urandom] is a failed read. *)
Definition rand_reseed (r : rng) : res rng :=
  let cnt := u32 (rand_cnt r - 1) in
  if (rand_cnt r =? 0) && negb (rng_fixed_seed r) then
    match urandom r with
    | [] => Err Fatal
    | (a, b, c) :: rest =>
        Ok (mkRng a b c (u32 (RESEED_RNG / 2 + b mod RESEED_RNG)) (rng_fixed_seed r) rest)
    end
  else
    Ok (mkRng (rand_seed0 r) (rand_seed1 r) (rand_seed2 r) cnt (rng_fixed_seed r) (urandom r)).

(** The [do ... while] loop rejects the values at or above this bound. *)
Definition rand_bound (limit : Z) : Z := UINT64_MAX - UINT64_MAX mod limit.

Fixpoint rand_draw (fl : flavour) (fuel : nat) (limit : Z) (r : rng) : res (Z * rng) :=
  match fuel with
  | O => Err OutOfFuel
  | S f =>
      let '(unbiased_rnd, r) := rand_next fl r in
      if rand_bound limit <=? unbiased_rnd then rand_draw fl f limit r
      else Ok (u32 (unbiased_rnd mod limit), r)
  end.

#[export] Instance afl_rand_below (fl : flavour) (fuel : nat) : RandGen rng := fun r limit =>
  if limit <=? 1 then Ok (0, r) else
  r ← rand_reseed r;
  rand_draw fl fuel limit r.

Section Datalen.
Context {G : Type} `{RandGen G}.

(** C leaves the order of the draws of one expression open; the model takes
    them from left to right. *)
Definition rand_below_datalen (g : G) (limit : Z) : res (Z * G) :=
  if limit <=? 1 then Ok (0, g) else
  '(k, g) ← rand_below g 3;
  if k =? 2 then
    '(a, g) ← rand_below g limit;
    '(b, g) ← rand_below g (limit - 1);
    '(c, g) ← rand_below g (limit - 1);
    Ok ((a mod (1 + b)) mod (1 + c), g)
  else if k =? 1 then
    '(a, g) ← rand_below g limit;
    '(b, g) ← rand_below g (limit - 1);
    Ok (a mod (1 + b), g)
  else if k =? 0 then rand_below g limit
  else Ok (1, g).
End Datalen.

(** ** Drawing below a limit *)

Lemma rand_bound_spec limit :
  1 <= limit < 2 ^ 32 ->
  rand_bound limit = limit * (UINT64_MAX / limit) /\ 2 ^ 64 - 2 ^ 32 < rand_bound limit < 2 ^ 64.
Proof.
  intros Hl. unfold rand_bound. pose proof (Z.mod_pos_bound UINT64_MAX limit ltac:(lia)).
  pose proof (Z.div_mod UINT64_MAX limit ltac:(lia)).
  change (2 ^ 64) with 18446744073709551616. change (2 ^ 32) with 4294967296 in *. lia.
Qed.

Lemma rand_draw_range fl fuel limit r x r' :
  1 <= limit < 2 ^ 32 -> rand_draw fl fuel limit r = Ok (x, r') -> 0 <= x < limit.
Proof.
  intros Hl. revert r; induction fuel as [|f IH]; intros r; [discriminate|]. simpl.
  destruct (rand_next fl r) as [y r1]. destruct (rand_bound limit <=? y); [apply IH|].
  intros [= <- <-]. pose proof (Z.mod_pos_bound y limit ltac:(lia)).
  rewrite uwrap_id by lia. done.
Qed.

Lemma rand_draw_stops fl fuel limit r e : rand_draw fl fuel limit r = Err e -> e = OutOfFuel.
Proof.
  revert r; induction fuel as [|f IH]; intros r; cbn [rand_draw]; [congruence|].
  destruct (rand_next fl r) as [y r1]. destruct (_ <=? _); [apply IH|discriminate].
Qed.

#[export] Instance afl_rand_laws fl fuel : @RandGenLaws rng (afl_rand_below fl fuel).
Proof.
  split.
  - intros r limit Hl. unfold rand_below, afl_rand_below.
    now rewrite (proj2 (Z.leb_le limit 1)).
  - intros r limit x r' Hl. unfold rand_below, afl_rand_below.
    rewrite (proj2 (Z.leb_gt limit 1)) by lia. intros H.
    apply bind_ok in H as (r1 & _ & H). eapply rand_draw_range; [|exact H]. lia.
  - intros r limit e. unfold rand_below, afl_rand_below. destruct (limit <=? 1); [discriminate|].
    destruct (rand_reseed r) as [r1|e1] eqn:Er; cbn [mbind res_bind].
    + intros Hd. right. eapply rand_draw_stops, Hd.
    + intros [= <-]. left. revert Er. unfold rand_reseed. destruct (_ && _); [|discriminate].
      destruct (urandom r) as [|[[? ?] ?] ?]; [congruence|discriminate].
Qed.

(** The successive raw outputs of the generator. *)
Fixpoint rand_outputs (fl : flavour) (n : nat) (r : rng) : list Z :=
  match n with
  | O => []
  | S n => let '(x, r) := rand_next fl r in x :: rand_outputs fl n r
  end.

Definition accepted (limit x : Z) : bool := x <? rand_bound limit.

Lemma rand_draw_first fl fuel limit r :
  (exists r', rand_draw fl fuel limit r
     = match List.find (accepted limit) (rand_outputs fl fuel r) with
       | Some x => Ok (u32 (x mod limit), r')
       | None => Err OutOfFuel
       end).
Proof.
  revert r; induction fuel as [|f IH]; intros r; simpl; [eauto|].
  destruct (rand_next fl r) as [x r1]. simpl. unfold accepted at 1. rewrite Z.ltb_antisym.
  destruct (rand_bound limit <=? x); simpl; [apply IH|eauto].
Qed.

(** With another first seed, which is what the generator returns first. *)
Definition seeded (v : Z) (r : rng) : rng :=
  mkRng v (rand_seed1 r) (rand_seed2 r) (rand_cnt r) (rng_fixed_seed r) (urandom r).

(** No new seeds are read. *)
Definition keeps_seeds (r : rng) : bool := negb (rand_cnt r =? 0) || rng_fixed_seed r.

Lemma rand_reseed_keeps r :
  keeps_seeds r = true -> exists r1, rand_reseed r = Ok r1 /\ rand_seed0 r1 = rand_seed0 r /\
    forall fl n, rand_outputs fl n r1 = rand_outputs fl n r.
Proof.
  intros Hk. unfold rand_reseed.
  assert (Hc : (rand_cnt r =? 0) && negb (rng_fixed_seed r) = false).
  { unfold keeps_seeds in Hk. destruct (rand_cnt r =? 0), (rng_fixed_seed r); cbn in *; congruence. }
  rewrite Hc. eexists. split; [reflexivity|]. split; [reflexivity|]. intros fl n.
  assert (Hs : forall r r', rand_seed0 r = rand_seed0 r' -> rand_seed1 r = rand_seed1 r' ->
    rand_seed2 r = rand_seed2 r' -> rand_outputs fl n r = rand_outputs fl n r').
  { clear. induction n as [|n IH]; intros r r' E0 E1 E2; [done|]. cbn [rand_outputs].
    destruct fl; cbn [rand_next]; rewrite E0, E1, ?E2; f_equal; apply IH; cbn; congruence. }
  now apply Hs.
Qed.

Lemma rand_below_first fl fuel limit r :
  1 < limit < 2 ^ 32 -> keeps_seeds r = true ->
  exists r', afl_rand_below fl fuel r limit
    = match List.find (accepted limit) (rand_outputs fl fuel r) with
      | Some raw => Ok (raw mod limit, r')
      | None => Err OutOfFuel
      end.
Proof.
  intros Hl Hk. destruct (rand_reseed_keeps r Hk) as (r1 & E1 & _ & Eo). unfold afl_rand_below.
  rewrite (proj2 (Z.leb_gt limit 1)), E1 by lia. cbn [mbind res_bind].
  destruct (rand_draw_first fl fuel limit r1) as [r' E]. exists r'. rewrite E, Eo. clear E.
  destruct (List.find _ _) as [raw|]; [|done].
  pose proof (Z.mod_pos_bound raw limit ltac:(lia)). rewrite uwrap_id by lia. done.
Qed.

Lemma rand_below_once fl limit r v x :
  1 < limit < 2 ^ 32 -> keeps_seeds r = true ->
  (exists r', afl_rand_below fl 1 (seeded v r) limit = Ok (x, r')) <-> accepted limit v = true /\ v mod limit = x.
Proof.
  intros Hl Hk. destruct (rand_below_first fl 1 limit (seeded v r) Hl Hk) as [r' ->].
  assert (Eo : rand_outputs fl 1 (seeded v r) = [v]) by now destruct fl.
  rewrite Eo. cbn [List.find]. destruct (accepted limit v).
  - split; [intros [r2 [= <- _]]; done|intros [_ <-]; eauto].
  - split; [intros [r2 [=]]|intros [[=] _]].
Qed.

Lemma accepted_residue limit x v :
  1 < limit < 2 ^ 32 -> 0 <= x < limit ->
  accepted limit v = true /\ 0 <= v /\ v mod limit = x <->
  exists k, 0 <= k < UINT64_MAX / limit /\ v = limit * k + x.
Proof.
  intros Hl Hx. unfold accepted. destruct (rand_bound_spec limit ltac:(lia)) as [-> _]. rewrite Z.ltb_lt. split.
  - intros (Ha & Hv & <-). exists (v / limit). split; [|apply Z.div_mod; lia].
    split; [apply Z.div_pos; lia|]. apply Z.div_lt_upper_bound; lia.
  - intros (k & Hk & ->). split; [nia|]. split; [nia|].
    rewrite Z.mul_comm, Z.add_comm, Z.mod_add by lia. now apply Z.mod_small.
Qed.

Lemma accepted_32 limit v : 1 <= limit < 2 ^ 32 -> v < 2 ^ 32 -> accepted limit v = true.
Proof. intros Hl Hv. unfold accepted. apply Z.ltb_lt. pose proof (rand_bound_spec limit Hl). lia. Qed.

(** C31: how uniform [rand_below] is, between two reads of new seeds.  It
    returns the first output of the generator below its bound, reduced modulo
    the limit.  On 64-bit builds each result comes up at the first attempt for
    exactly [UINT64_MAX / limit] values of the seed that is returned first,
    whatever the other seed, so none is favoured; on 32-bit builds nothing is
    drawn again and each result comes up for every 32-bit value it is
    congruent to, so that the bias the loop is there to avoid remains. *)
Theorem rand_below_uniform fl fuel limit r x :
  1 < limit < 2 ^ 32 -> 0 <= x < limit -> keeps_seeds r = true ->
  (exists r', afl_rand_below fl fuel r limit
    = match List.find (accepted limit) (rand_outputs fl fuel r) with
      | Some raw => Ok (raw mod limit, r')
      | None => Err OutOfFuel
      end) /\
  (forall v, 0 <= v < 2 ^ 64 ->
     (exists r', afl_rand_below Word64 1 (seeded v r) limit = Ok (x, r')) <->
     exists k, 0 <= k < UINT64_MAX / limit /\ v = limit * k + x) /\
  (forall v, 0 <= v < 2 ^ 32 ->
     (exists r', afl_rand_below Word32 1 (seeded v r) limit = Ok (x, r')) <-> v mod limit = x).
Proof.
  intros Hl Hx Hk. split; [now apply rand_below_first|]. split.
  - intros v Hv. rewrite rand_below_once, <- accepted_residue by done. tauto.
  - intros v Hv. rewrite rand_below_once by done. pose proof (accepted_32 limit v ltac:(lia) ltac:(lia)). tauto.
Qed.

Definition rng0 : rng := mkRng 18446744073709551615 7 11 5 false [(1, 2, 3)].

Lemma rand_below_uniform_witness :
  (1 < 10 < 2 ^ 32) /\ 0 <= 3 < 10 /\
  (exists r', afl_rand_below Word64 3 rng0 10 = Ok (3, r')) /\
  (exists r', afl_rand_below Word64 1 (seeded 123 rng0) 10 = Ok (3, r')).
Proof.
  assert (H1 : 1 < 10 < 2 ^ 32) by (split; [lia|reflexivity]). assert (H2 : 0 <= 3 < 10) by lia.
  split; [exact H1|]. split; [exact H2|].
  destruct (rand_below_uniform Word64 3 10 rng0 3 H1 H2 eq_refl) as ([r' E] & H64 & _). split.
  - exists r'. rewrite E. vm_compute. reflexivity.
  - apply (H64 123); [lia|]. exists 12. split; [split; [lia|reflexivity]|reflexivity].
Defined.

(** with 32-bit outputs nothing is ever rejected, so the modulo bias the
    loop is there to avoid remains: drawing below 3 * 2^30, the results below
    2^30 come from two raw outputs each and the others from one. *)
Theorem rand_draw_32_biased :
  (forall limit raw, 1 <= limit < 2 ^ 32 -> 0 <= raw < 2 ^ 32 - 1 -> accepted limit raw = true) /\
  (forall x, 0 <= x < 2 ^ 30 ->
     x mod (3 * 2 ^ 30) = x /\ (x + 3 * 2 ^ 30) mod (3 * 2 ^ 30) = x /\ x + 3 * 2 ^ 30 < 2 ^ 32) /\
  (forall x raw, 2 ^ 30 <= x < 3 * 2 ^ 30 -> 0 <= raw < 2 ^ 32 ->
     raw mod (3 * 2 ^ 30) = x -> raw = x).
Proof.
  split; [|split].
  - intros limit raw Hl Hr. unfold accepted. apply Z.ltb_lt.
    pose proof (rand_bound_spec limit Hl).
    change (2 ^ 64) with 18446744073709551616 in *. change (2 ^ 32) with 4294967296 in *. lia.
  - intros x. change (3 * 2 ^ 30) with 3221225472. change (2 ^ 30) with 1073741824.
    change (2 ^ 32) with 4294967296. intros. dlia.
  - intros x raw. change (3 * 2 ^ 30) with 3221225472. change (2 ^ 30) with 1073741824.
    change (2 ^ 32) with 4294967296. intros. dlia.
Qed.

(** ** The state of the generator *)

Definition rng_wf (fl : flavour) (r : rng) : Prop :=
  0 <= rand_seed0 r < 2 ^ rand_width fl /\ 0 <= rand_seed1 r < 2 ^ rand_width fl /\
  0 <= rand_seed2 r < 2 ^ rand_width fl.

Lemma ROTL_bit w d l n :
  0 < l < w -> 0 <= d < 2 ^ w -> 0 <= n < w ->
  Z.testbit (ROTL w d l) n = Z.testbit d ((n - l) mod w).
Proof.
  intros Hl Hd Hn. unfold ROTL.
  rewrite uwrap_testbit, Z.lor_spec, Z.shiftl_spec, Z.shiftr_spec by lia.
  rewrite (proj2 (Z.ltb_lt n w)) by lia. simpl andb.
  destruct (Z.lt_ge_cases n l).
  - rewrite Z.testbit_neg_r by lia. simpl. f_equal.
    replace (n - l) with (n + (w - l) + -1 * w) by lia. rewrite Z.mod_add by lia.
    symmetry. apply Z.mod_small. lia.
  - rewrite (testbit_high w d (n + (w - l))) by (done || lia). rewrite orb_false_r.
    f_equal. symmetry. apply Z.mod_small. lia.
Qed.

Lemma ROTL_inj w a b l :
  0 < l < w -> 0 <= a < 2 ^ w -> 0 <= b < 2 ^ w -> ROTL w a l = ROTL w b l -> a = b.
Proof.
  intros Hl Ha Hb E. apply Z.bits_inj'; intros n Hn.
  destruct (Z.lt_ge_cases n w); [|now rewrite !(testbit_high w) by lia].
  assert (Hm : n = (((n + l) mod w) - l) mod w).
  { rewrite Zminus_mod_idemp_l. replace (n + l - l) with n by lia. symmetry. apply Z.mod_small. lia. }
  pose proof (Z.mod_pos_bound (n + l) w ltac:(lia)).
  rewrite Hm, <- !ROTL_bit by (done || lia). now rewrite E.
Qed.

(** Multiplication by a unit and subtraction are injective modulo [m]. *)
Lemma mul_unit_inj m u v a b :
  1 < m -> (u * v) mod m = 1 -> 0 <= a < m -> 0 <= b < m ->
  (u * a) mod m = (u * b) mod m -> a = b.
Proof.
  intros Hm Hu Ha Hb E.
  assert (Hc : forall x, 0 <= x < m -> (v * ((u * x) mod m)) mod m = x).
  { intros x Hx. rewrite Zmult_mod_idemp_r.
    replace (v * (u * x)) with ((u * v) * x) by lia.
    rewrite <- Zmult_mod_idemp_l, Hu, Z.mul_1_l. now apply Z.mod_small. }
  rewrite <- (Hc a), <- (Hc b) by done. now rewrite E.
Qed.

Lemma sub_mod_inj m x a b :
  0 < m -> 0 <= a < m -> 0 <= b < m -> (x - a) mod m = (x - b) mod m -> a = b.
Proof.
  intros Hm Ha Hb E.
  assert (Hc : forall y, 0 <= y < m -> (x - (x - y) mod m) mod m = y).
  { intros y Hy. rewrite Zminus_mod_idemp_r. replace (x - (x - y)) with y by lia.
    now apply Z.mod_small. }
  rewrite <- (Hc a), <- (Hc b) by done. now rewrite E.
Qed.

Lemma rand_next_wf fl r : rng_wf fl r -> rng_wf fl (snd (rand_next fl r)).
Proof.
  intros (H0 & H1 & H2). destruct fl; unfold rng_wf, rand_next; cbn [snd rand_seed0 rand_seed1 rand_seed2 rand_width] in *;
    unfold ROTL; repeat split; try (apply uwrap_range; lia); lia.
Qed.

(** a step of either generator is a permutation of its states: states in
    range stay in range, and two states with the same successor are equal.
    The sequence is therefore purely periodic and loses no entropy. *)
Theorem rand_next_injective fl r1 r2 :
  rng_wf fl r1 -> rng_wf fl r2 ->
  snd (rand_next fl r1) = snd (rand_next fl r2) ->
  rng_wf fl (snd (rand_next fl r1)) /\ r1 = r2.
Proof.
  intros W1 W2 E. split; [now apply rand_next_wf|].
  destruct W1 as (A0 & A1 & A2), W2 as (B0 & B1 & B2).
  destruct r1 as [x1 y1 z1 c1 f1 u1], r2 as [x2 y2 z2 c2 f2 u2].
  destruct fl; cbn [rand_next snd rand_seed0 rand_seed1 rand_seed2 rand_width] in *;
    injection E as E0 E1 E2; intros; subst.
  - assert (z1 = z2) as -> by (eapply (mul_unit_inj (2 ^ 32) 3323815723 862068611); [reflexivity|vm_compute; reflexivity|done..]).
    apply ROTL_inj in E1; [|lia|apply uwrap_range; lia..].
    apply ROTL_inj in E2; [|lia|apply uwrap_range; lia..].
    apply (sub_mod_inj (2 ^ 32)) in E2; [subst|lia|done..].
    apply (sub_mod_inj (2 ^ 32)) in E1; [subst|lia|done..]. done.
  - assert (y1 = y2) as -> by (eapply (mul_unit_inj (2 ^ 64) 15241094284759029579 4888251478366616163); [reflexivity|vm_compute; reflexivity|done..]).
    apply ROTL_inj in E1; [|lia|apply uwrap_range; lia..].
    apply (sub_mod_inj (2 ^ 64)) in E1; [subst|lia|done..]. done.
Qed.

Lemma rand_next_injective_witness :
  rng_wf Word64 rng0 /\ snd (rand_next Word64 rng0) = snd (rand_next Word64 rng0) /\
  rng_wf Word64 (snd (rand_next Word64 rng0)).
Proof.
  assert (W : rng_wf Word64 rng0) by (repeat split; vm_compute; congruence).
  split; [exact W|]. split; [reflexivity|].
  exact (proj1 (rand_next_injective Word64 rng0 rng0 W W eq_refl)).
Defined.

(** ** Draws that favour low values *)

Section DatalenThms.
Context {G : Type} `{RandGenLaws G}.

Lemma datalen_inner g limit b g' :
  1 < limit < 2 ^ 32 -> rand_below g (limit - 1) = Ok (b, g') -> 0 <= b < limit - 1.
Proof.
  intros Hl Hb. destruct (Z.eq_dec limit 2) as [->|].
  - rewrite rand_below_trivial in Hb by lia. injection Hb as <- <-. lia.
  - eapply rand_below_bound; [|exact Hb]. lia.
Qed.

(** [rand_below_datalen] keeps below the limit for every generator that
    meets the interface, never divides by zero, and cannot reach its last
    [return]. *)
Theorem rand_below_datalen_bound g limit x g' :
  1 < limit < 2 ^ 32 -> rand_below_datalen g limit = Ok (x, g') -> 0 <= x < limit.
Proof.
  intros Hl E. unfold rand_below_datalen in E. rewrite (proj2 (Z.leb_gt limit 1)) in E by lia.
  apply bind_ok in E as ((k & g1) & Ek & E). apply rand_below_bound in Ek; [|lia].
  assert (Hd : forall a b, 0 <= a < limit -> 0 <= b < limit - 1 ->
                0 <= a mod (1 + b) < limit) by (intros; dlia).
  destruct (Z.eqb_spec k 2); [|destruct (Z.eqb_spec k 1); [|destruct (Z.eqb_spec k 0); [|lia]]].
  - apply bind_ok in E as ((a & g2) & Ea & E). apply bind_ok in E as ((b & g3) & Eb & E).
    apply bind_ok in E as ((c & g4) & Ec & E). injection E as <- <-.
    apply rand_below_bound in Ea; [|lia]. apply datalen_inner in Eb, Ec; [|lia..]. auto.
  - apply bind_ok in E as ((a & g2) & Ea & E). apply bind_ok in E as ((b & g3) & Eb & E).
    injection E as <- <-. apply rand_below_bound in Ea; [|lia]. apply datalen_inner in Eb; [|lia]. auto.
  - eapply rand_below_bound; [|exact E]. lia.
Qed.
End DatalenThms.

Lemma rand_below_datalen_bound_witness :
  exists x r', @rand_below_datalen rng (afl_rand_below Word64 4) rng0 100 = Ok (x, r') /\ 0 <= x < 100.
Proof.
  destruct (@rand_below_datalen rng (afl_rand_below Word64 4) rng0 100) as [[x r']|] eqn:E;
    [|vm_compute in E; discriminate].
  exists x, r'. split; [reflexivity|].
  refine (@rand_below_datalen_bound rng _ (afl_rand_laws Word64 4) rng0 100 x r' _ E).
  split; [lia|reflexivity].
Defined.
