(* ===== verification/State.v ===== *)
(** The state the queue code works on: [struct queue_entry] and the part of
    [afl_state_t] of [include/afl-fuzz.h] it touches.

    A [struct queue_entry *] is the index of the entry in [queue_buf] (entries
    are never removed from it while the fuzzer runs), so that updates through
    any alias of a pointer are updates of the one entry.  A setter is the
    assignment to one field. *)

From stdpp Require Export gmap.
From S2P Require Import Prelude Words Bitmap Float.
#[global] Open Scope Z_scope.

Inductive schedule :=
  EXPLORE | MMOPT | EXPLOIT | FAST | COE | LIN | QUAD | RARE | SEEK.

#[export] Instance schedule_eq_dec : EqDecision schedule.
Proof. solve_decision. Defined.

Definition sched_num (s : schedule) : Z :=
  match s with
  | EXPLORE => 0 | MMOPT => 1 | EXPLOIT => 2 | FAST => 3 | COE => 4
  | LIN => 5 | QUAD => 6 | RARE => 7 | SEEK => 8
  end.

(** [a >= b] on schedules. *)
Definition sched_ge (a b : schedule) : bool := sched_num b <=? sched_num a.

Record queue_entry := mkQ {
  fname : list Z;   (* the path, as bytes *)
  q_len : Z;   (* len *)
  q_id : Z;   (* id *)
  cal_failed : Z;
  trim_done : bool;
  was_fuzzed : bool;
  passed_det : bool;
  has_new_cov : bool;
  var_behavior : bool;
  favored : bool;
  fs_redundant : bool;
  is_ascii : bool;
  disabled : bool;
  bitmap_size : Z;
  fuzz_level : Z;
  n_fuzz_entry : Z;
  exec_us : Z;
  handicap : Z;
  depth : Z;
  exec_cksum : Z;
  trace_mini : option (list Z);   (* None for NULL *)
  tc_ref : Z;
  perf_score : double;
  weight : double;
  testcase_buf : option (list Z);
  mother : option nat   (* index of the parent in queue_buf *)
}.

Record afl := mkAfl {
  acov : cov;   (* fsrv, virgin maps, matrix *)
  sched : schedule;   (* schedule *)
  fixed_seed : bool;
  non_instrumented_mode : bool;
  queue_buf : list queue_entry;
  queue_cur : option nat;
  queue_head : option nat;   (* queue *)
  queue_top : option nat;
  queued_items : Z;
  active_items : Z;
  pending_not_fuzzed : Z;
  ready_for_splicing_count : Z;
  cycles_wo_finds : Z;
  cur_depth : Z;
  max_depth : Z;
  start_time : Z;
  last_find_time : Z;
  longest_find_time : Z;
  syncing_party : bool;   (* not NULL *)
  cmplog_mode : bool;   (* shm.cmplog_mode *)
  top_rated : list (option nat);   (* indices in queue_buf *)
  n_fuzz : list Z;
  score_changed : bool;
  queued_favored : Z;
  pending_favored : Z;
  map_tmp_buf : list Z;
  queued_discovered : Z;
  total_cal_us : Z;
  total_cal_cycles : Z;
  total_bitmap_size : Z;
  total_bitmap_entries : Z;
  total_execs : Z;   (* fsrv.total_execs *)
  havoc_max_mult : Z;
  limit_time_sig : Z;
  reinit_table : bool;
  redundant_edges : gset (list Z);   (* files of queue/.state/redundant_edges *)
  deterministic_done : gset (list Z);   (* files of queue/.state/deterministic_done *)
  variable_behavior : gset (list Z)   (* files of queue/.state/variable_behavior *)
}.

(** ** Field assignments of a queue entry *)

Definition set_cal_failed (v : Z) (q : queue_entry) : queue_entry :=
  mkQ
    (fname q) (q_len q) (q_id q) v (trim_done q) (was_fuzzed q) (passed_det q) (has_new_cov q)
    (var_behavior q) (favored q) (fs_redundant q) (is_ascii q) (disabled q) (bitmap_size q)
    (fuzz_level q) (n_fuzz_entry q) (exec_us q) (handicap q) (depth q) (exec_cksum q)
    (trace_mini q) (tc_ref q) (perf_score q) (weight q) (testcase_buf q) (mother q).

Definition set_trim_done (v : bool) (q : queue_entry) : queue_entry :=
  mkQ
    (fname q) (q_len q) (q_id q) (cal_failed q) v (was_fuzzed q) (passed_det q) (has_new_cov q)
    (var_behavior q) (favored q) (fs_redundant q) (is_ascii q) (disabled q) (bitmap_size q)
    (fuzz_level q) (n_fuzz_entry q) (exec_us q) (handicap q) (depth q) (exec_cksum q)
    (trace_mini q) (tc_ref q) (perf_score q) (weight q) (testcase_buf q) (mother q).

Definition set_was_fuzzed (v : bool) (q : queue_entry) : queue_entry :=
  mkQ
    (fname q) (q_len q) (q_id q) (cal_failed q) (trim_done q) v (passed_det q) (has_new_cov q)
    (var_behavior q) (favored q) (fs_redundant q) (is_ascii q) (disabled q) (bitmap_size q)
    (fuzz_level q) (n_fuzz_entry q) (exec_us q) (handicap q) (depth q) (exec_cksum q)
    (trace_mini q) (tc_ref q) (perf_score q) (weight q) (testcase_buf q) (mother q).

Definition set_passed_det (v : bool) (q : queue_entry) : queue_entry :=
  mkQ
    (fname q) (q_len q) (q_id q) (cal_failed q) (trim_done q) (was_fuzzed q) v (has_new_cov q)
    (var_behavior q) (favored q) (fs_redundant q) (is_ascii q) (disabled q) (bitmap_size q)
    (fuzz_level q) (n_fuzz_entry q) (exec_us q) (handicap q) (depth q) (exec_cksum q)
    (trace_mini q) (tc_ref q) (perf_score q) (weight q) (testcase_buf q) (mother q).

Definition set_has_new_cov (v : bool) (q : queue_entry) : queue_entry :=
  mkQ
    (fname q) (q_len q) (q_id q) (cal_failed q) (trim_done q) (was_fuzzed q) (passed_det q) v
    (var_behavior q) (favored q) (fs_redundant q) (is_ascii q) (disabled q) (bitmap_size q)
    (fuzz_level q) (n_fuzz_entry q) (exec_us q) (handicap q) (depth q) (exec_cksum q)
    (trace_mini q) (tc_ref q) (perf_score q) (weight q) (testcase_buf q) (mother q).

Definition set_var_behavior (v : bool) (q : queue_entry) : queue_entry :=
  mkQ
    (fname q) (q_len q) (q_id q) (cal_failed q) (trim_done q) (was_fuzzed q) (passed_det q)
    (has_new_cov q) v (favored q) (fs_redundant q) (is_ascii q) (disabled q) (bitmap_size q)
    (fuzz_level q) (n_fuzz_entry q) (exec_us q) (handicap q) (depth q) (exec_cksum q)
    (trace_mini q) (tc_ref q) (perf_score q) (weight q) (testcase_buf q) (mother q).

Definition set_favored (v : bool) (q : queue_entry) : queue_entry :=
  mkQ
    (fname q) (q_len q) (q_id q) (cal_failed q) (trim_done q) (was_fuzzed q) (passed_det q)
    (has_new_cov q) (var_behavior q) v (fs_redundant q) (is_ascii q) (disabled q) (bitmap_size q)
    (fuzz_level q) (n_fuzz_entry q) (exec_us q) (handicap q) (depth q) (exec_cksum q)
    (trace_mini q) (tc_ref q) (perf_score q) (weight q) (testcase_buf q) (mother q).

Definition set_fs_redundant (v : bool) (q : queue_entry) : queue_entry :=
  mkQ
    (fname q) (q_len q) (q_id q) (cal_failed q) (trim_done q) (was_fuzzed q) (passed_det q)
    (has_new_cov q) (var_behavior q) (favored q) v (is_ascii q) (disabled q) (bitmap_size q)
    (fuzz_level q) (n_fuzz_entry q) (exec_us q) (handicap q) (depth q) (exec_cksum q)
    (trace_mini q) (tc_ref q) (perf_score q) (weight q) (testcase_buf q) (mother q).

Definition set_is_ascii (v : bool) (q : queue_entry) : queue_entry :=
  mkQ
    (fname q) (q_len q) (q_id q) (cal_failed q) (trim_done q) (was_fuzzed q) (passed_det q)
    (has_new_cov q) (var_behavior q) (favored q) (fs_redundant q) v (disabled q) (bitmap_size q)
    (fuzz_level q) (n_fuzz_entry q) (exec_us q) (handicap q) (depth q) (exec_cksum q)
    (trace_mini q) (tc_ref q) (perf_score q) (weight q) (testcase_buf q) (mother q).

Definition set_disabled (v : bool) (q : queue_entry) : queue_entry :=
  mkQ
    (fname q) (q_len q) (q_id q) (cal_failed q) (trim_done q) (was_fuzzed q) (passed_det q)
    (has_new_cov q) (var_behavior q) (favored q) (fs_redundant q) (is_ascii q) v (bitmap_size q)
    (fuzz_level q) (n_fuzz_entry q) (exec_us q) (handicap q) (depth q) (exec_cksum q)
    (trace_mini q) (tc_ref q) (perf_score q) (weight q) (testcase_buf q) (mother q).

Definition set_q_len (v : Z) (q : queue_entry) : queue_entry :=
  mkQ
    (fname q) v (q_id q) (cal_failed q) (trim_done q) (was_fuzzed q) (passed_det q)
    (has_new_cov q) (var_behavior q) (favored q) (fs_redundant q) (is_ascii q) (disabled q)
    (bitmap_size q) (fuzz_level q) (n_fuzz_entry q) (exec_us q) (handicap q) (depth q)
    (exec_cksum q) (trace_mini q) (tc_ref q) (perf_score q) (weight q) (testcase_buf q)
    (mother q).

Definition set_bitmap_size (v : Z) (q : queue_entry) : queue_entry :=
  mkQ
    (fname q) (q_len q) (q_id q) (cal_failed q) (trim_done q) (was_fuzzed q) (passed_det q)
    (has_new_cov q) (var_behavior q) (favored q) (fs_redundant q) (is_ascii q) (disabled q) v
    (fuzz_level q) (n_fuzz_entry q) (exec_us q) (handicap q) (depth q) (exec_cksum q)
    (trace_mini q) (tc_ref q) (perf_score q) (weight q) (testcase_buf q) (mother q).

Definition set_fuzz_level (v : Z) (q : queue_entry) : queue_entry :=
  mkQ
    (fname q) (q_len q) (q_id q) (cal_failed q) (trim_done q) (was_fuzzed q) (passed_det q)
    (has_new_cov q) (var_behavior q) (favored q) (fs_redundant q) (is_ascii q) (disabled q)
    (bitmap_size q) v (n_fuzz_entry q) (exec_us q) (handicap q) (depth q) (exec_cksum q)
    (trace_mini q) (tc_ref q) (perf_score q) (weight q) (testcase_buf q) (mother q).

Definition set_n_fuzz_entry (v : Z) (q : queue_entry) : queue_entry :=
  mkQ
    (fname q) (q_len q) (q_id q) (cal_failed q) (trim_done q) (was_fuzzed q) (passed_det q)
    (has_new_cov q) (var_behavior q) (favored q) (fs_redundant q) (is_ascii q) (disabled q)
    (bitmap_size q) (fuzz_level q) v (exec_us q) (handicap q) (depth q) (exec_cksum q)
    (trace_mini q) (tc_ref q) (perf_score q) (weight q) (testcase_buf q) (mother q).

Definition set_exec_us (v : Z) (q : queue_entry) : queue_entry :=
  mkQ
    (fname q) (q_len q) (q_id q) (cal_failed q) (trim_done q) (was_fuzzed q) (passed_det q)
    (has_new_cov q) (var_behavior q) (favored q) (fs_redundant q) (is_ascii q) (disabled q)
    (bitmap_size q) (fuzz_level q) (n_fuzz_entry q) v (handicap q) (depth q) (exec_cksum q)
    (trace_mini q) (tc_ref q) (perf_score q) (weight q) (testcase_buf q) (mother q).

Definition set_handicap (v : Z) (q : queue_entry) : queue_entry :=
  mkQ
    (fname q) (q_len q) (q_id q) (cal_failed q) (trim_done q) (was_fuzzed q) (passed_det q)
    (has_new_cov q) (var_behavior q) (favored q) (fs_redundant q) (is_ascii q) (disabled q)
    (bitmap_size q) (fuzz_level q) (n_fuzz_entry q) (exec_us q) v (depth q) (exec_cksum q)
    (trace_mini q) (tc_ref q) (perf_score q) (weight q) (testcase_buf q) (mother q).

Definition set_exec_cksum (v : Z) (q : queue_entry) : queue_entry :=
  mkQ
    (fname q) (q_len q) (q_id q) (cal_failed q) (trim_done q) (was_fuzzed q) (passed_det q)
    (has_new_cov q) (var_behavior q) (favored q) (fs_redundant q) (is_ascii q) (disabled q)
    (bitmap_size q) (fuzz_level q) (n_fuzz_entry q) (exec_us q) (handicap q) (depth q) v
    (trace_mini q) (tc_ref q) (perf_score q) (weight q) (testcase_buf q) (mother q).

Definition set_trace_mini (v : option (list Z)) (q : queue_entry) : queue_entry :=
  mkQ
    (fname q) (q_len q) (q_id q) (cal_failed q) (trim_done q) (was_fuzzed q) (passed_det q)
    (has_new_cov q) (var_behavior q) (favored q) (fs_redundant q) (is_ascii q) (disabled q)
    (bitmap_size q) (fuzz_level q) (n_fuzz_entry q) (exec_us q) (handicap q) (depth q)
    (exec_cksum q) v (tc_ref q) (perf_score q) (weight q) (testcase_buf q) (mother q).

Definition set_tc_ref (v : Z) (q : queue_entry) : queue_entry :=
  mkQ
    (fname q) (q_len q) (q_id q) (cal_failed q) (trim_done q) (was_fuzzed q) (passed_det q)
    (has_new_cov q) (var_behavior q) (favored q) (fs_redundant q) (is_ascii q) (disabled q)
    (bitmap_size q) (fuzz_level q) (n_fuzz_entry q) (exec_us q) (handicap q) (depth q)
    (exec_cksum q) (trace_mini q) v (perf_score q) (weight q) (testcase_buf q) (mother q).

Definition set_perf_score (v : double) (q : queue_entry) : queue_entry :=
  mkQ
    (fname q) (q_len q) (q_id q) (cal_failed q) (trim_done q) (was_fuzzed q) (passed_det q)
    (has_new_cov q) (var_behavior q) (favored q) (fs_redundant q) (is_ascii q) (disabled q)
    (bitmap_size q) (fuzz_level q) (n_fuzz_entry q) (exec_us q) (handicap q) (depth q)
    (exec_cksum q) (trace_mini q) (tc_ref q) v (weight q) (testcase_buf q) (mother q).

Definition set_weight (v : double) (q : queue_entry) : queue_entry :=
  mkQ
    (fname q) (q_len q) (q_id q) (cal_failed q) (trim_done q) (was_fuzzed q) (passed_det q)
    (has_new_cov q) (var_behavior q) (favored q) (fs_redundant q) (is_ascii q) (disabled q)
    (bitmap_size q) (fuzz_level q) (n_fuzz_entry q) (exec_us q) (handicap q) (depth q)
    (exec_cksum q) (trace_mini q) (tc_ref q) (perf_score q) v (testcase_buf q) (mother q).

Definition set_testcase_buf (v : option (list Z)) (q : queue_entry) : queue_entry :=
  mkQ
    (fname q) (q_len q) (q_id q) (cal_failed q) (trim_done q) (was_fuzzed q) (passed_det q)
    (has_new_cov q) (var_behavior q) (favored q) (fs_redundant q) (is_ascii q) (disabled q)
    (bitmap_size q) (fuzz_level q) (n_fuzz_entry q) (exec_us q) (handicap q) (depth q)
    (exec_cksum q) (trace_mini q) (tc_ref q) (perf_score q) (weight q) v (mother q).

(** ** Field assignments of the fuzzer state *)

Definition set_total_execs (v : Z) (a : afl) : afl :=
  mkAfl
    (acov a) (sched a) (fixed_seed a) (non_instrumented_mode a) (queue_buf a) (queue_cur a)
    (queue_head a) (queue_top a) (queued_items a) (active_items a) (pending_not_fuzzed a)
    (ready_for_splicing_count a) (cycles_wo_finds a) (cur_depth a) (max_depth a) (start_time a)
    (last_find_time a) (longest_find_time a) (syncing_party a) (cmplog_mode a) (top_rated a)
    (n_fuzz a) (score_changed a) (queued_favored a) (pending_favored a) (map_tmp_buf a)
    (queued_discovered a) (total_cal_us a) (total_cal_cycles a) (total_bitmap_size a)
    (total_bitmap_entries a) v (havoc_max_mult a) (limit_time_sig a) (reinit_table a)
    (redundant_edges a) (deterministic_done a) (variable_behavior a).

Definition set_queued_discovered (v : Z) (a : afl) : afl :=
  mkAfl
    (acov a) (sched a) (fixed_seed a) (non_instrumented_mode a) (queue_buf a) (queue_cur a)
    (queue_head a) (queue_top a) (queued_items a) (active_items a) (pending_not_fuzzed a)
    (ready_for_splicing_count a) (cycles_wo_finds a) (cur_depth a) (max_depth a) (start_time a)
    (last_find_time a) (longest_find_time a) (syncing_party a) (cmplog_mode a) (top_rated a)
    (n_fuzz a) (score_changed a) (queued_favored a) (pending_favored a) (map_tmp_buf a) v
    (total_cal_us a) (total_cal_cycles a) (total_bitmap_size a) (total_bitmap_entries a)
    (total_execs a) (havoc_max_mult a) (limit_time_sig a) (reinit_table a) (redundant_edges a)
    (deterministic_done a) (variable_behavior a).

Definition set_total_cal_us (v : Z) (a : afl) : afl :=
  mkAfl
    (acov a) (sched a) (fixed_seed a) (non_instrumented_mode a) (queue_buf a) (queue_cur a)
    (queue_head a) (queue_top a) (queued_items a) (active_items a) (pending_not_fuzzed a)
    (ready_for_splicing_count a) (cycles_wo_finds a) (cur_depth a) (max_depth a) (start_time a)
    (last_find_time a) (longest_find_time a) (syncing_party a) (cmplog_mode a) (top_rated a)
    (n_fuzz a) (score_changed a) (queued_favored a) (pending_favored a) (map_tmp_buf a)
    (queued_discovered a) v (total_cal_cycles a) (total_bitmap_size a) (total_bitmap_entries a)
    (total_execs a) (havoc_max_mult a) (limit_time_sig a) (reinit_table a) (redundant_edges a)
    (deterministic_done a) (variable_behavior a).

Definition set_total_cal_cycles (v : Z) (a : afl) : afl :=
  mkAfl
    (acov a) (sched a) (fixed_seed a) (non_instrumented_mode a) (queue_buf a) (queue_cur a)
    (queue_head a) (queue_top a) (queued_items a) (active_items a) (pending_not_fuzzed a)
    (ready_for_splicing_count a) (cycles_wo_finds a) (cur_depth a) (max_depth a) (start_time a)
    (last_find_time a) (longest_find_time a) (syncing_party a) (cmplog_mode a) (top_rated a)
    (n_fuzz a) (score_changed a) (queued_favored a) (pending_favored a) (map_tmp_buf a)
    (queued_discovered a) (total_cal_us a) v (total_bitmap_size a) (total_bitmap_entries a)
    (total_execs a) (havoc_max_mult a) (limit_time_sig a) (reinit_table a) (redundant_edges a)
    (deterministic_done a) (variable_behavior a).

Definition set_total_bitmap_size (v : Z) (a : afl) : afl :=
  mkAfl
    (acov a) (sched a) (fixed_seed a) (non_instrumented_mode a) (queue_buf a) (queue_cur a)
    (queue_head a) (queue_top a) (queued_items a) (active_items a) (pending_not_fuzzed a)
    (ready_for_splicing_count a) (cycles_wo_finds a) (cur_depth a) (max_depth a) (start_time a)
    (last_find_time a) (longest_find_time a) (syncing_party a) (cmplog_mode a) (top_rated a)
    (n_fuzz a) (score_changed a) (queued_favored a) (pending_favored a) (map_tmp_buf a)
    (queued_discovered a) (total_cal_us a) (total_cal_cycles a) v (total_bitmap_entries a)
    (total_execs a) (havoc_max_mult a) (limit_time_sig a) (reinit_table a) (redundant_edges a)
    (deterministic_done a) (variable_behavior a).

Definition set_total_bitmap_entries (v : Z) (a : afl) : afl :=
  mkAfl
    (acov a) (sched a) (fixed_seed a) (non_instrumented_mode a) (queue_buf a) (queue_cur a)
    (queue_head a) (queue_top a) (queued_items a) (active_items a) (pending_not_fuzzed a)
    (ready_for_splicing_count a) (cycles_wo_finds a) (cur_depth a) (max_depth a) (start_time a)
    (last_find_time a) (longest_find_time a) (syncing_party a) (cmplog_mode a) (top_rated a)
    (n_fuzz a) (score_changed a) (queued_favored a) (pending_favored a) (map_tmp_buf a)
    (queued_discovered a) (total_cal_us a) (total_cal_cycles a) (total_bitmap_size a) v
    (total_execs a) (havoc_max_mult a) (limit_time_sig a) (reinit_table a) (redundant_edges a)
    (deterministic_done a) (variable_behavior a).

Definition set_sched (v : schedule) (a : afl) : afl :=
  mkAfl
    (acov a) v (fixed_seed a) (non_instrumented_mode a) (queue_buf a) (queue_cur a)
    (queue_head a) (queue_top a) (queued_items a) (active_items a) (pending_not_fuzzed a)
    (ready_for_splicing_count a) (cycles_wo_finds a) (cur_depth a) (max_depth a) (start_time a)
    (last_find_time a) (longest_find_time a) (syncing_party a) (cmplog_mode a) (top_rated a)
    (n_fuzz a) (score_changed a) (queued_favored a) (pending_favored a) (map_tmp_buf a)
    (queued_discovered a) (total_cal_us a) (total_cal_cycles a) (total_bitmap_size a)
    (total_bitmap_entries a) (total_execs a) (havoc_max_mult a) (limit_time_sig a)
    (reinit_table a) (redundant_edges a) (deterministic_done a) (variable_behavior a).

Definition set_acov (v : cov) (a : afl) : afl :=
  mkAfl
    v (sched a) (fixed_seed a) (non_instrumented_mode a) (queue_buf a) (queue_cur a)
    (queue_head a) (queue_top a) (queued_items a) (active_items a) (pending_not_fuzzed a)
    (ready_for_splicing_count a) (cycles_wo_finds a) (cur_depth a) (max_depth a) (start_time a)
    (last_find_time a) (longest_find_time a) (syncing_party a) (cmplog_mode a) (top_rated a)
    (n_fuzz a) (score_changed a) (queued_favored a) (pending_favored a) (map_tmp_buf a)
    (queued_discovered a) (total_cal_us a) (total_cal_cycles a) (total_bitmap_size a)
    (total_bitmap_entries a) (total_execs a) (havoc_max_mult a) (limit_time_sig a)
    (reinit_table a) (redundant_edges a) (deterministic_done a) (variable_behavior a).

Definition set_queue_buf (v : list queue_entry) (a : afl) : afl :=
  mkAfl
    (acov a) (sched a) (fixed_seed a) (non_instrumented_mode a) v (queue_cur a) (queue_head a)
    (queue_top a) (queued_items a) (active_items a) (pending_not_fuzzed a)
    (ready_for_splicing_count a) (cycles_wo_finds a) (cur_depth a) (max_depth a) (start_time a)
    (last_find_time a) (longest_find_time a) (syncing_party a) (cmplog_mode a) (top_rated a)
    (n_fuzz a) (score_changed a) (queued_favored a) (pending_favored a) (map_tmp_buf a)
    (queued_discovered a) (total_cal_us a) (total_cal_cycles a) (total_bitmap_size a)
    (total_bitmap_entries a) (total_execs a) (havoc_max_mult a) (limit_time_sig a)
    (reinit_table a) (redundant_edges a) (deterministic_done a) (variable_behavior a).

Definition set_queue_cur (v : option nat) (a : afl) : afl :=
  mkAfl
    (acov a) (sched a) (fixed_seed a) (non_instrumented_mode a) (queue_buf a) v (queue_head a)
    (queue_top a) (queued_items a) (active_items a) (pending_not_fuzzed a)
    (ready_for_splicing_count a) (cycles_wo_finds a) (cur_depth a) (max_depth a) (start_time a)
    (last_find_time a) (longest_find_time a) (syncing_party a) (cmplog_mode a) (top_rated a)
    (n_fuzz a) (score_changed a) (queued_favored a) (pending_favored a) (map_tmp_buf a)
    (queued_discovered a) (total_cal_us a) (total_cal_cycles a) (total_bitmap_size a)
    (total_bitmap_entries a) (total_execs a) (havoc_max_mult a) (limit_time_sig a)
    (reinit_table a) (redundant_edges a) (deterministic_done a) (variable_behavior a).

Definition set_queue_head (v : option nat) (a : afl) : afl :=
  mkAfl
    (acov a) (sched a) (fixed_seed a) (non_instrumented_mode a) (queue_buf a) (queue_cur a) v
    (queue_top a) (queued_items a) (active_items a) (pending_not_fuzzed a)
    (ready_for_splicing_count a) (cycles_wo_finds a) (cur_depth a) (max_depth a) (start_time a)
    (last_find_time a) (longest_find_time a) (syncing_party a) (cmplog_mode a) (top_rated a)
    (n_fuzz a) (score_changed a) (queued_favored a) (pending_favored a) (map_tmp_buf a)
    (queued_discovered a) (total_cal_us a) (total_cal_cycles a) (total_bitmap_size a)
    (total_bitmap_entries a) (total_execs a) (havoc_max_mult a) (limit_time_sig a)
    (reinit_table a) (redundant_edges a) (deterministic_done a) (variable_behavior a).

Definition set_queue_top (v : option nat) (a : afl) : afl :=
  mkAfl
    (acov a) (sched a) (fixed_seed a) (non_instrumented_mode a) (queue_buf a) (queue_cur a)
    (queue_head a) v (queued_items a) (active_items a) (pending_not_fuzzed a)
    (ready_for_splicing_count a) (cycles_wo_finds a) (cur_depth a) (max_depth a) (start_time a)
    (last_find_time a) (longest_find_time a) (syncing_party a) (cmplog_mode a) (top_rated a)
    (n_fuzz a) (score_changed a) (queued_favored a) (pending_favored a) (map_tmp_buf a)
    (queued_discovered a) (total_cal_us a) (total_cal_cycles a) (total_bitmap_size a)
    (total_bitmap_entries a) (total_execs a) (havoc_max_mult a) (limit_time_sig a)
    (reinit_table a) (redundant_edges a) (deterministic_done a) (variable_behavior a).

Definition set_queued_items (v : Z) (a : afl) : afl :=
  mkAfl
    (acov a) (sched a) (fixed_seed a) (non_instrumented_mode a) (queue_buf a) (queue_cur a)
    (queue_head a) (queue_top a) v (active_items a) (pending_not_fuzzed a)
    (ready_for_splicing_count a) (cycles_wo_finds a) (cur_depth a) (max_depth a) (start_time a)
    (last_find_time a) (longest_find_time a) (syncing_party a) (cmplog_mode a) (top_rated a)
    (n_fuzz a) (score_changed a) (queued_favored a) (pending_favored a) (map_tmp_buf a)
    (queued_discovered a) (total_cal_us a) (total_cal_cycles a) (total_bitmap_size a)
    (total_bitmap_entries a) (total_execs a) (havoc_max_mult a) (limit_time_sig a)
    (reinit_table a) (redundant_edges a) (deterministic_done a) (variable_behavior a).

Definition set_active_items (v : Z) (a : afl) : afl :=
  mkAfl
    (acov a) (sched a) (fixed_seed a) (non_instrumented_mode a) (queue_buf a) (queue_cur a)
    (queue_head a) (queue_top a) (queued_items a) v (pending_not_fuzzed a)
    (ready_for_splicing_count a) (cycles_wo_finds a) (cur_depth a) (max_depth a) (start_time a)
    (last_find_time a) (longest_find_time a) (syncing_party a) (cmplog_mode a) (top_rated a)
    (n_fuzz a) (score_changed a) (queued_favored a) (pending_favored a) (map_tmp_buf a)
    (queued_discovered a) (total_cal_us a) (total_cal_cycles a) (total_bitmap_size a)
    (total_bitmap_entries a) (total_execs a) (havoc_max_mult a) (limit_time_sig a)
    (reinit_table a) (redundant_edges a) (deterministic_done a) (variable_behavior a).

Definition set_pending_not_fuzzed (v : Z) (a : afl) : afl :=
  mkAfl
    (acov a) (sched a) (fixed_seed a) (non_instrumented_mode a) (queue_buf a) (queue_cur a)
    (queue_head a) (queue_top a) (queued_items a) (active_items a) v (ready_for_splicing_count a)
    (cycles_wo_finds a) (cur_depth a) (max_depth a) (start_time a) (last_find_time a)
    (longest_find_time a) (syncing_party a) (cmplog_mode a) (top_rated a) (n_fuzz a)
    (score_changed a) (queued_favored a) (pending_favored a) (map_tmp_buf a)
    (queued_discovered a) (total_cal_us a) (total_cal_cycles a) (total_bitmap_size a)
    (total_bitmap_entries a) (total_execs a) (havoc_max_mult a) (limit_time_sig a)
    (reinit_table a) (redundant_edges a) (deterministic_done a) (variable_behavior a).

Definition set_ready_for_splicing_count (v : Z) (a : afl) : afl :=
  mkAfl
    (acov a) (sched a) (fixed_seed a) (non_instrumented_mode a) (queue_buf a) (queue_cur a)
    (queue_head a) (queue_top a) (queued_items a) (active_items a) (pending_not_fuzzed a) v
    (cycles_wo_finds a) (cur_depth a) (max_depth a) (start_time a) (last_find_time a)
    (longest_find_time a) (syncing_party a) (cmplog_mode a) (top_rated a) (n_fuzz a)
    (score_changed a) (queued_favored a) (pending_favored a) (map_tmp_buf a)
    (queued_discovered a) (total_cal_us a) (total_cal_cycles a) (total_bitmap_size a)
    (total_bitmap_entries a) (total_execs a) (havoc_max_mult a) (limit_time_sig a)
    (reinit_table a) (redundant_edges a) (deterministic_done a) (variable_behavior a).

Definition set_cycles_wo_finds (v : Z) (a : afl) : afl :=
  mkAfl
    (acov a) (sched a) (fixed_seed a) (non_instrumented_mode a) (queue_buf a) (queue_cur a)
    (queue_head a) (queue_top a) (queued_items a) (active_items a) (pending_not_fuzzed a)
    (ready_for_splicing_count a) v (cur_depth a) (max_depth a) (start_time a) (last_find_time a)
    (longest_find_time a) (syncing_party a) (cmplog_mode a) (top_rated a) (n_fuzz a)
    (score_changed a) (queued_favored a) (pending_favored a) (map_tmp_buf a)
    (queued_discovered a) (total_cal_us a) (total_cal_cycles a) (total_bitmap_size a)
    (total_bitmap_entries a) (total_execs a) (havoc_max_mult a) (limit_time_sig a)
    (reinit_table a) (redundant_edges a) (deterministic_done a) (variable_behavior a).

Definition set_max_depth (v : Z) (a : afl) : afl :=
  mkAfl
    (acov a) (sched a) (fixed_seed a) (non_instrumented_mode a) (queue_buf a) (queue_cur a)
    (queue_head a) (queue_top a) (queued_items a) (active_items a) (pending_not_fuzzed a)
    (ready_for_splicing_count a) (cycles_wo_finds a) (cur_depth a) v (start_time a)
    (last_find_time a) (longest_find_time a) (syncing_party a) (cmplog_mode a) (top_rated a)
    (n_fuzz a) (score_changed a) (queued_favored a) (pending_favored a) (map_tmp_buf a)
    (queued_discovered a) (total_cal_us a) (total_cal_cycles a) (total_bitmap_size a)
    (total_bitmap_entries a) (total_execs a) (havoc_max_mult a) (limit_time_sig a)
    (reinit_table a) (redundant_edges a) (deterministic_done a) (variable_behavior a).

Definition set_last_find_time (v : Z) (a : afl) : afl :=
  mkAfl
    (acov a) (sched a) (fixed_seed a) (non_instrumented_mode a) (queue_buf a) (queue_cur a)
    (queue_head a) (queue_top a) (queued_items a) (active_items a) (pending_not_fuzzed a)
    (ready_for_splicing_count a) (cycles_wo_finds a) (cur_depth a) (max_depth a) (start_time a) v
    (longest_find_time a) (syncing_party a) (cmplog_mode a) (top_rated a) (n_fuzz a)
    (score_changed a) (queued_favored a) (pending_favored a) (map_tmp_buf a)
    (queued_discovered a) (total_cal_us a) (total_cal_cycles a) (total_bitmap_size a)
    (total_bitmap_entries a) (total_execs a) (havoc_max_mult a) (limit_time_sig a)
    (reinit_table a) (redundant_edges a) (deterministic_done a) (variable_behavior a).

Definition set_longest_find_time (v : Z) (a : afl) : afl :=
  mkAfl
    (acov a) (sched a) (fixed_seed a) (non_instrumented_mode a) (queue_buf a) (queue_cur a)
    (queue_head a) (queue_top a) (queued_items a) (active_items a) (pending_not_fuzzed a)
    (ready_for_splicing_count a) (cycles_wo_finds a) (cur_depth a) (max_depth a) (start_time a)
    (last_find_time a) v (syncing_party a) (cmplog_mode a) (top_rated a) (n_fuzz a)
    (score_changed a) (queued_favored a) (pending_favored a) (map_tmp_buf a)
    (queued_discovered a) (total_cal_us a) (total_cal_cycles a) (total_bitmap_size a)
    (total_bitmap_entries a) (total_execs a) (havoc_max_mult a) (limit_time_sig a)
    (reinit_table a) (redundant_edges a) (deterministic_done a) (variable_behavior a).

Definition set_top_rated (v : list (option nat)) (a : afl) : afl :=
  mkAfl
    (acov a) (sched a) (fixed_seed a) (non_instrumented_mode a) (queue_buf a) (queue_cur a)
    (queue_head a) (queue_top a) (queued_items a) (active_items a) (pending_not_fuzzed a)
    (ready_for_splicing_count a) (cycles_wo_finds a) (cur_depth a) (max_depth a) (start_time a)
    (last_find_time a) (longest_find_time a) (syncing_party a) (cmplog_mode a) v (n_fuzz a)
    (score_changed a) (queued_favored a) (pending_favored a) (map_tmp_buf a)
    (queued_discovered a) (total_cal_us a) (total_cal_cycles a) (total_bitmap_size a)
    (total_bitmap_entries a) (total_execs a) (havoc_max_mult a) (limit_time_sig a)
    (reinit_table a) (redundant_edges a) (deterministic_done a) (variable_behavior a).

Definition set_n_fuzz (v : list Z) (a : afl) : afl :=
  mkAfl
    (acov a) (sched a) (fixed_seed a) (non_instrumented_mode a) (queue_buf a) (queue_cur a)
    (queue_head a) (queue_top a) (queued_items a) (active_items a) (pending_not_fuzzed a)
    (ready_for_splicing_count a) (cycles_wo_finds a) (cur_depth a) (max_depth a) (start_time a)
    (last_find_time a) (longest_find_time a) (syncing_party a) (cmplog_mode a) (top_rated a) v
    (score_changed a) (queued_favored a) (pending_favored a) (map_tmp_buf a)
    (queued_discovered a) (total_cal_us a) (total_cal_cycles a) (total_bitmap_size a)
    (total_bitmap_entries a) (total_execs a) (havoc_max_mult a) (limit_time_sig a)
    (reinit_table a) (redundant_edges a) (deterministic_done a) (variable_behavior a).

Definition set_score_changed (v : bool) (a : afl) : afl :=
  mkAfl
    (acov a) (sched a) (fixed_seed a) (non_instrumented_mode a) (queue_buf a) (queue_cur a)
    (queue_head a) (queue_top a) (queued_items a) (active_items a) (pending_not_fuzzed a)
    (ready_for_splicing_count a) (cycles_wo_finds a) (cur_depth a) (max_depth a) (start_time a)
    (last_find_time a) (longest_find_time a) (syncing_party a) (cmplog_mode a) (top_rated a)
    (n_fuzz a) v (queued_favored a) (pending_favored a) (map_tmp_buf a) (queued_discovered a)
    (total_cal_us a) (total_cal_cycles a) (total_bitmap_size a) (total_bitmap_entries a)
    (total_execs a) (havoc_max_mult a) (limit_time_sig a) (reinit_table a) (redundant_edges a)
    (deterministic_done a) (variable_behavior a).

Definition set_queued_favored (v : Z) (a : afl) : afl :=
  mkAfl
    (acov a) (sched a) (fixed_seed a) (non_instrumented_mode a) (queue_buf a) (queue_cur a)
    (queue_head a) (queue_top a) (queued_items a) (active_items a) (pending_not_fuzzed a)
    (ready_for_splicing_count a) (cycles_wo_finds a) (cur_depth a) (max_depth a) (start_time a)
    (last_find_time a) (longest_find_time a) (syncing_party a) (cmplog_mode a) (top_rated a)
    (n_fuzz a) (score_changed a) v (pending_favored a) (map_tmp_buf a) (queued_discovered a)
    (total_cal_us a) (total_cal_cycles a) (total_bitmap_size a) (total_bitmap_entries a)
    (total_execs a) (havoc_max_mult a) (limit_time_sig a) (reinit_table a) (redundant_edges a)
    (deterministic_done a) (variable_behavior a).

Definition set_pending_favored (v : Z) (a : afl) : afl :=
  mkAfl
    (acov a) (sched a) (fixed_seed a) (non_instrumented_mode a) (queue_buf a) (queue_cur a)
    (queue_head a) (queue_top a) (queued_items a) (active_items a) (pending_not_fuzzed a)
    (ready_for_splicing_count a) (cycles_wo_finds a) (cur_depth a) (max_depth a) (start_time a)
    (last_find_time a) (longest_find_time a) (syncing_party a) (cmplog_mode a) (top_rated a)
    (n_fuzz a) (score_changed a) (queued_favored a) v (map_tmp_buf a) (queued_discovered a)
    (total_cal_us a) (total_cal_cycles a) (total_bitmap_size a) (total_bitmap_entries a)
    (total_execs a) (havoc_max_mult a) (limit_time_sig a) (reinit_table a) (redundant_edges a)
    (deterministic_done a) (variable_behavior a).

Definition set_map_tmp_buf (v : list Z) (a : afl) : afl :=
  mkAfl
    (acov a) (sched a) (fixed_seed a) (non_instrumented_mode a) (queue_buf a) (queue_cur a)
    (queue_head a) (queue_top a) (queued_items a) (active_items a) (pending_not_fuzzed a)
    (ready_for_splicing_count a) (cycles_wo_finds a) (cur_depth a) (max_depth a) (start_time a)
    (last_find_time a) (longest_find_time a) (syncing_party a) (cmplog_mode a) (top_rated a)
    (n_fuzz a) (score_changed a) (queued_favored a) (pending_favored a) v (queued_discovered a)
    (total_cal_us a) (total_cal_cycles a) (total_bitmap_size a) (total_bitmap_entries a)
    (total_execs a) (havoc_max_mult a) (limit_time_sig a) (reinit_table a) (redundant_edges a)
    (deterministic_done a) (variable_behavior a).

Definition set_redundant_edges (v : gset (list Z)) (a : afl) : afl :=
  mkAfl
    (acov a) (sched a) (fixed_seed a) (non_instrumented_mode a) (queue_buf a) (queue_cur a)
    (queue_head a) (queue_top a) (queued_items a) (active_items a) (pending_not_fuzzed a)
    (ready_for_splicing_count a) (cycles_wo_finds a) (cur_depth a) (max_depth a) (start_time a)
    (last_find_time a) (longest_find_time a) (syncing_party a) (cmplog_mode a) (top_rated a)
    (n_fuzz a) (score_changed a) (queued_favored a) (pending_favored a) (map_tmp_buf a)
    (queued_discovered a) (total_cal_us a) (total_cal_cycles a) (total_bitmap_size a)
    (total_bitmap_entries a) (total_execs a) (havoc_max_mult a) (limit_time_sig a)
    (reinit_table a) v (deterministic_done a) (variable_behavior a).

Definition set_deterministic_done (v : gset (list Z)) (a : afl) : afl :=
  mkAfl
    (acov a) (sched a) (fixed_seed a) (non_instrumented_mode a) (queue_buf a) (queue_cur a)
    (queue_head a) (queue_top a) (queued_items a) (active_items a) (pending_not_fuzzed a)
    (ready_for_splicing_count a) (cycles_wo_finds a) (cur_depth a) (max_depth a) (start_time a)
    (last_find_time a) (longest_find_time a) (syncing_party a) (cmplog_mode a) (top_rated a)
    (n_fuzz a) (score_changed a) (queued_favored a) (pending_favored a) (map_tmp_buf a)
    (queued_discovered a) (total_cal_us a) (total_cal_cycles a) (total_bitmap_size a)
    (total_bitmap_entries a) (total_execs a) (havoc_max_mult a) (limit_time_sig a)
    (reinit_table a) (redundant_edges a) v (variable_behavior a).

Definition set_variable_behavior (v : gset (list Z)) (a : afl) : afl :=
  mkAfl
    (acov a) (sched a) (fixed_seed a) (non_instrumented_mode a) (queue_buf a) (queue_cur a)
    (queue_head a) (queue_top a) (queued_items a) (active_items a) (pending_not_fuzzed a)
    (ready_for_splicing_count a) (cycles_wo_finds a) (cur_depth a) (max_depth a) (start_time a)
    (last_find_time a) (longest_find_time a) (syncing_party a) (cmplog_mode a) (top_rated a)
    (n_fuzz a) (score_changed a) (queued_favored a) (pending_favored a) (map_tmp_buf a)
    (queued_discovered a) (total_cal_us a) (total_cal_cycles a) (total_bitmap_size a)
    (total_bitmap_entries a) (total_execs a) (havoc_max_mult a) (limit_time_sig a)
    (reinit_table a) (redundant_edges a) (deterministic_done a) v.

Definition set_reinit_table (v : bool) (a : afl) : afl :=
  mkAfl
    (acov a) (sched a) (fixed_seed a) (non_instrumented_mode a) (queue_buf a) (queue_cur a)
    (queue_head a) (queue_top a) (queued_items a) (active_items a) (pending_not_fuzzed a)
    (ready_for_splicing_count a) (cycles_wo_finds a) (cur_depth a) (max_depth a) (start_time a)
    (last_find_time a) (longest_find_time a) (syncing_party a) (cmplog_mode a) (top_rated a)
    (n_fuzz a) (score_changed a) (queued_favored a) (pending_favored a) (map_tmp_buf a)
    (queued_discovered a) (total_cal_us a) (total_cal_cycles a) (total_bitmap_size a)
    (total_bitmap_entries a) (total_execs a) (havoc_max_mult a) (limit_time_sig a) v
    (redundant_edges a) (deterministic_done a) (variable_behavior a).

(** ** Access through pointers *)

Definition deref (a : afl) (p : nat) : res queue_entry := rd (queue_buf a) p.

(** [p->field = ...] for the entry at [p]. *)
Definition upd (p : nat) (f : queue_entry -> queue_entry) (a : afl) : afl :=
  set_queue_buf (alter f p (queue_buf a)) a.

Definition testcase_matrix_of (a : afl) : option nat := testcase_matrix (acov a).
