(* ===== verification/Text.v ===== *)
(** Text detection: [check_if_text_buf] and [check_if_text] of
    [src/afl-fuzz-queue.c]. *)

From S2P Require Import Prelude Words Bitmap Float State.

Definition rng_in (lo hi b : Z) : bool := (lo <=? b) && (b <=? hi).

(** [buf[offset + k]], the buffer being given from [offset] on. *)
Definition at_ (l : list Z) (k : nat) : Z := nth k l 0.

Definition plain_text (b : Z) : bool :=
  (b =? 0x09) || (b =? 0x0A) || (b =? 0x0D) || rng_in 0x20 0x7E b.

(** [isascii(b) || isprint(b)] in the C locale. *)
Definition ascii_or_print (b : Z) : bool := (b <=? 0x7F) || rng_in 0x20 0x7E b.

(** non-overlong 2-byte *)
Definition utf8_2 (l : list Z) : bool :=
  (1 <? Z.of_nat (length l)) && rng_in 0xC2 0xDF (at_ l 0) && rng_in 0x80 0xBF (at_ l 1).

(** excluding overlongs; straight 3-byte; excluding surrogates *)
Definition utf8_3 (l : list Z) : bool :=
  (2 <? Z.of_nat (length l)) &&
  (((at_ l 0 =? 0xE0) && rng_in 0xA0 0xBF (at_ l 1) && rng_in 0x80 0xBF (at_ l 2)) ||
   ((rng_in 0xE1 0xEC (at_ l 0) || (at_ l 0 =? 0xEE) || (at_ l 0 =? 0xEF)) &&
    rng_in 0x80 0xBF (at_ l 1) && rng_in 0x80 0xBF (at_ l 2)) ||
   ((at_ l 0 =? 0xED) && rng_in 0x80 0x9F (at_ l 1) && rng_in 0x80 0xBF (at_ l 2))).

(** planes 1-3, 4-15 and 16 *)
Definition utf8_4 (l : list Z) : bool :=
  (3 <? Z.of_nat (length l)) &&
  (((at_ l 0 =? 0xF0) && rng_in 0x90 0xBF (at_ l 1) && rng_in 0x80 0xBF (at_ l 2) &&
    rng_in 0x80 0xBF (at_ l 3)) ||
   (rng_in 0xF1 0xF3 (at_ l 0) && rng_in 0x80 0xBF (at_ l 1) && rng_in 0x80 0xBF (at_ l 2) &&
    rng_in 0x80 0xBF (at_ l 3)) ||
   ((at_ l 0 =? 0xF4) && rng_in 0x80 0x8F (at_ l 1) && rng_in 0x80 0xBF (at_ l 2) &&
    rng_in 0x80 0xBF (at_ l 3))).

(** The counters of the scan; [comp] is what [check_if_text] subtracts. *)
Record text_count := mkText { ascii : Z; utf8 : Z; comp : Z }.

(** One iteration of [while (offset < len)]: the bytes consumed and the
    counters. *)
Definition text_step (l : list Z) (t : text_count) : nat * text_count :=
  if plain_text (at_ l 0) then (1%nat, mkText (u32 (ascii t + 1)) (u32 (utf8 t + 1)) (comp t))
  else
    let t := if ascii_or_print (at_ l 0) then mkText (u32 (ascii t + 1)) (utf8 t) (comp t) else t in
    if utf8_2 l then (2%nat, mkText (ascii t) (u32 (utf8 t + 1)) (comp t - 1)) else
    if utf8_3 l then (3%nat, mkText (ascii t) (u32 (utf8 t + 1)) (comp t - 2)) else
    if utf8_4 l then (4%nat, mkText (ascii t) (u32 (utf8 t + 1)) (comp t - 3)) else
    (1%nat, t).

Fixpoint text_scan (fuel : nat) (l : list Z) (t : text_count) : res text_count :=
  match l, fuel with
  | [], _ => Ok t
  | _, O => Err OutOfFuel
  | _, S f => let '(n, t) := text_step l t in text_scan f (drop n l) t
  end.

Definition check_if_text_buf (buf : list Z) : res Z :=
  t ← text_scan (length buf) buf (mkText 0 0 0);
  Ok (if ascii t <? utf8 t then utf8 t else ascii t).

Definition AFL_TXT_MIN_LEN : Z := 12.
Definition AFL_TXT_MAX_LEN : Z := 65535.
Definition AFL_TXT_MIN_PERCENT : Z := 99.
Definition MAX_FILE : Z := 1 * 1024 * 1024.

(** What the scan of the file's first [len] bytes concludes. *)
Definition text_verdict (len : Z) (t : text_count) : res Z :=
  if comp t =? 0 then Err Fault else
  let percent_utf8 := u32 (u32 (utf8 t * 100) ÷ comp t) in
  let percent_ascii := u32 (ascii t * 100) / len in
  if (percent_ascii <=? percent_utf8) && (AFL_TXT_MIN_PERCENT <=? percent_utf8) then Ok 2
  else if AFL_TXT_MIN_PERCENT <=? percent_ascii then Ok 1
  else Ok 0.

(** [read_file] is the content of the file of that name, if it can be
    opened. *)
Definition check_if_text (read_file : list Z -> option (list Z)) (q : queue_entry) : res Z :=
  if (q_len q <? AFL_TXT_MIN_LEN) || (q_len q <? AFL_TXT_MAX_LEN) then Ok 0 else
  let len := if MAX_FILE <=? q_len q then MAX_FILE - 1 else q_len q in
  match read_file (fname q) with
  | None => Ok 0
  | Some content =>
      let buf := take (Z.to_nat len) content in
      if negb (Z.of_nat (length buf) =? len) then Ok 0 else
      t ← text_scan (length buf) buf (mkText 0 0 len);
      text_verdict len t
  end.

(** ** UTF-8 *)

(** The reference encoder (RFC 3629) of a code point. *)
Definition utf8_encode (c : Z) : list Z :=
  if c <=? 0x7F then [c]
  else if c <=? 0x7FF then [0xC0 + c / 64; 0x80 + c mod 64]
  else if c <=? 0xFFFF then [0xE0 + c / 4096; 0x80 + c / 64 mod 64; 0x80 + c mod 64]
  else [0xF0 + c / 262144; 0x80 + c / 4096 mod 64; 0x80 + c / 64 mod 64; 0x80 + c mod 64].

(** Unicode scalar values that are printable if ASCII. *)
Definition text_point (c : Z) : Prop :=
  0 <= c <= 0x10FFFF /\ ~ 0xD800 <= c <= 0xDFFF /\ (c <= 0x7F -> plain_text c = true).

Lemma rng_in_true lo hi b : lo <= b <= hi -> rng_in lo hi b = true.
Proof. intros. unfold rng_in. rewrite (proj2 (Z.leb_le _ _)), (proj2 (Z.leb_le _ _)) by lia. done. Qed.

Lemma rng_in_spec lo hi b : rng_in lo hi b = true <-> lo <= b <= hi.
Proof. unfold rng_in. rewrite andb_true_iff, !Z.leb_le. done. Qed.

(** What one step does on an encoded code point. *)
Definition point_count (c : Z) (t : text_count) : text_count :=
  mkText (if c <=? 0x7F then u32 (ascii t + 1) else ascii t) (u32 (utf8 t + 1))
         (comp t - (Z.of_nat (length (utf8_encode c)) - 1)).

Lemma plain_text_high b : 0x7F < b -> plain_text b = false /\ ascii_or_print b = false.
Proof.
  intros. unfold plain_text, ascii_or_print, rng_in.
  repeat match goal with
  | |- context [?a =? ?b] => rewrite (proj2 (Z.eqb_neq a b)) by lia
  | |- context [b <=? ?c] => rewrite (proj2 (Z.leb_gt b c)) by lia
  end. now rewrite !andb_false_r.
Qed.

Lemma rng_in_false lo hi b : ~ lo <= b <= hi -> rng_in lo hi b = false.
Proof. intros. apply not_true_is_false. now rewrite rng_in_spec. Qed.

(** Decide every byte test of the goal by arithmetic. *)
Ltac in_ranges :=
  repeat match goal with
  | |- context [rng_in ?lo ?hi ?b] =>
      first [ rewrite (rng_in_true lo hi b) by lia | rewrite (rng_in_false lo hi b) by lia ]
  | |- context [?a =? ?b] =>
      first [ rewrite (proj2 (Z.eqb_eq a b)) by lia | rewrite (proj2 (Z.eqb_neq a b)) by lia ]
  | |- context [?a <? ?b] =>
      first [ rewrite (proj2 (Z.ltb_lt a b)) by lia | rewrite (proj2 (Z.ltb_ge a b)) by lia ]
  end.

(** The three multi-byte shapes, by the value of the lead byte. *)
Lemma utf8_2_lead a d rest :
  2 <= a < 32 -> 0 <= d < 64 -> utf8_2 ([0xC0 + a; 0x80 + d] ++ rest) = true.
Proof. intros. unfold utf8_2. cbn [app at_ nth length]. now in_ranges. Qed.

Lemma utf8_3_lead a b d rest :
  0 <= a < 16 -> 0 <= b < 64 -> 0 <= d < 64 -> (a = 0 -> 32 <= b) -> (a = 13 -> b < 32) ->
  let l := [0xE0 + a; 0x80 + b; 0x80 + d] ++ rest in utf8_2 l = false /\ utf8_3 l = true.
Proof.
  intros Ha Hb Hd H0 H13 l. subst l. unfold utf8_2, utf8_3. cbn [app at_ nth length].
  assert (E : a = 0 \/ 1 <= a <= 12 \/ a = 13 \/ a = 14 \/ a = 15) by lia.
  destruct E as [->|[E|[->|[->| ->]]]]; in_ranges; now rewrite ?orb_true_r.
Qed.

Lemma utf8_4_lead a b c d rest :
  0 <= a <= 4 -> 0 <= b < 64 -> 0 <= c < 64 -> 0 <= d < 64 ->
  (a = 0 -> 16 <= b) -> (a = 4 -> b < 16) ->
  let l := [0xF0 + a; 0x80 + b; 0x80 + c; 0x80 + d] ++ rest in
  utf8_2 l = false /\ utf8_3 l = false /\ utf8_4 l = true.
Proof.
  intros Ha Hb Hc Hd H0 H4 l. subst l. unfold utf8_2, utf8_3, utf8_4. cbn [app at_ nth length].
  assert (E : a = 0 \/ 1 <= a <= 3 \/ a = 4) by lia.
  destruct E as [->|[E| ->]]; in_ranges; rewrite ?andb_false_r; now rewrite ?orb_true_r.
Qed.

Lemma text_step_point c rest t :
  text_point c -> text_step (utf8_encode c ++ rest) t = (length (utf8_encode c), point_count c t).
Proof.
  intros (Hr & Hs & Ha). unfold point_count, utf8_encode.
  destruct (Z.leb_spec c 0x7F) as [H1|H1].
  { unfold text_step. cbn [app at_ nth]. rewrite Ha by done. simpl. do 2 f_equal. lia. }
  destruct (Z.leb_spec c 0x7FF); [|destruct (Z.leb_spec c 0xFFFF)]; unfold text_step.
  - cbn [app]. unfold at_. cbn [nth].
    destruct (plain_text_high (0xC0 + c / 64)) as [-> ->]; [dlia|].
    change (?x :: ?y :: rest) with ([x; y] ++ rest). rewrite utf8_2_lead by dlia.
    simpl; do 2 f_equal; lia.
  - cbn [app]. unfold at_. cbn [nth].
    destruct (plain_text_high (0xE0 + c / 4096)) as [-> ->]; [dlia|].
    change (?x :: ?y :: ?z :: rest) with ([x; y; z] ++ rest).
    destruct (utf8_3_lead (c / 4096) (c / 64 mod 64) (c mod 64) rest) as [-> ->]; [dlia..|].
    simpl; do 2 f_equal; lia.
  - cbn [app]. unfold at_. cbn [nth].
    destruct (plain_text_high (0xF0 + c / 262144)) as [-> ->]; [dlia|].
    change (?x :: ?y :: ?z :: ?w :: rest) with ([x; y; z; w] ++ rest).
    destruct (utf8_4_lead (c / 262144) (c / 4096 mod 64) (c / 64 mod 64) (c mod 64) rest)
      as (-> & -> & ->); [dlia..|].
    simpl; do 2 f_equal; lia.
Qed.

(** ** The whole scan *)

Definition points_count (cs : list Z) (t : text_count) : text_count :=
  foldl (fun t c => point_count c t) t cs.

Lemma utf8_encode_nonempty c : (1 <= length (utf8_encode c) <= 4)%nat.
Proof. unfold utf8_encode. repeat case_match; simpl; lia. Qed.

Lemma text_scan_S f x l t :
  text_scan (S f) (x :: l) t
  = let '(n, t) := text_step (x :: l) t in text_scan f (drop n (x :: l)) t.
Proof. reflexivity. Qed.

Lemma text_scan_points fuel cs t :
  Forall text_point cs -> (length (concat (map utf8_encode cs)) <= fuel)%nat ->
  text_scan fuel (concat (map utf8_encode cs)) t = Ok (points_count cs t).
Proof.
  intros H. revert fuel t; induction H as [|c cs Hc H IH]; intros fuel t Hf; simpl.
  { destruct fuel; reflexivity. }
  simpl in Hf. rewrite length_app in Hf. pose proof (utf8_encode_nonempty c) as Hn.
  destruct fuel as [|fuel]; [lia|].
  pose proof (text_step_point c (concat (map utf8_encode cs)) t Hc) as Hs.
  destruct (utf8_encode c ++ concat (map utf8_encode cs)) as [|x l] eqn:E.
  { apply (f_equal length) in E. rewrite length_app in E. simpl in E. lia. }
  rewrite text_scan_S, Hs, <- E, drop_app_length. apply IH. lia.
Qed.

(** Below 2^32 the counters do not wrap. *)
Lemma points_count_exact cs t :
  0 <= ascii t -> 0 <= utf8 t ->
  ascii t + Z.of_nat (length cs) < 2 ^ 32 -> utf8 t + Z.of_nat (length cs) < 2 ^ 32 ->
  points_count cs t
  = mkText (ascii t + zsum (fun c => b2z (c <=? 0x7F)) cs) (utf8 t + Z.of_nat (length cs))
           (comp t - (Z.of_nat (length (concat (map utf8_encode cs))) - Z.of_nat (length cs))).
Proof.
  revert t; induction cs as [|c cs IH]; intros t Ha Hu Hal Hul.
  { destruct t; unfold points_count; simpl in *. f_equal; lia. }
  cbn [length] in *. change (points_count (c :: cs) t) with (points_count cs (point_count c t)).
  assert (E : point_count c t = mkText (ascii t + b2z (c <=? 0x7F)) (utf8 t + 1)
                                 (comp t - (Z.of_nat (length (utf8_encode c)) - 1))).
  { unfold point_count. destruct (c <=? 0x7F); rewrite ?uwrap_id by lia; f_equal; simpl; lia. }
  rewrite E, IH; cbn [ascii utf8 comp] in *; try (destruct (c <=? 0x7F); simpl; lia).
  cbn [map concat]. rewrite length_app. unfold zsum. cbn [foldr]. f_equal; lia.
Qed.

Lemma text_points_le cs : (length cs <= length (concat (map utf8_encode cs)))%nat.
Proof.
  induction cs as [|c cs IH]; simpl; [lia|]. rewrite length_app.
  pose proof (utf8_encode_nonempty c). lia.
Qed.

Lemma zsum_count_le {A} (f : A -> bool) l : 0 <= zsum (fun x => b2z (f x)) l <= Z.of_nat (length l).
Proof. pose proof (zsum_bounds (fun x => b2z (f x)) 0 1 l ltac:(intros; apply b2z_range)). lia. Qed.

(** the scan recognises UTF-8: on the encoding of any sequence of Unicode
    scalar values (no ASCII control character among them) it counts every
    code point once, whatever its length, so [check_if_text_buf] returns the
    number of code points. *)
Theorem check_if_text_buf_utf8 cs :
  Forall text_point cs -> Z.of_nat (length cs) < 2 ^ 32 ->
  check_if_text_buf (concat (map utf8_encode cs)) = Ok (Z.of_nat (length cs)).
Proof.
  intros Hp Hl. unfold check_if_text_buf. rewrite text_scan_points by (done || lia).
  cbn [mbind res_bind]. rewrite points_count_exact by (cbn; lia). cbn [ascii utf8].
  pose proof (zsum_count_le (fun c => c <=? 0x7F) cs). zcases; f_equal; lia.
Qed.

Lemma check_if_text_buf_utf8_witness :
  check_if_text_buf (concat (map utf8_encode [0x41; 0xE9; 0x20AC; 0x1F600])) = Ok 4.
Proof.
  refine (check_if_text_buf_utf8 [0x41; 0xE9; 0x20AC; 0x1F600] _ _); [|reflexivity].
  repeat constructor; try (intros; vm_compute; reflexivity); try lia.
  all: intros [? ?]; lia.
Defined.

(** The scan always ends: each step consumes at least one byte. *)
Lemma text_step_advance l t : (1 <= fst (text_step l t))%nat.
Proof. unfold text_step. repeat case_match; simpl; lia. Qed.

Lemma text_scan_total fuel l t : (length l <= fuel)%nat -> exists t', text_scan fuel l t = Ok t'.
Proof.
  revert l t; induction fuel as [|f IH]; intros [|x l] t Hl; try (simpl; eauto; simpl in Hl; lia).
  rewrite text_scan_S. pose proof (text_step_advance (x :: l) t) as Ha.
  destruct (text_step (x :: l) t) as [n t']. simpl in Ha. apply IH. rewrite length_drop. lia.
Qed.

(** the length guard of [check_if_text] - "less than the minimum or less
    than the maximum" - turns it off for every input up to the maximum length:
    such an entry is never text, whatever the file holds. *)
Theorem check_if_text_short read_file q :
  q_len q < AFL_TXT_MAX_LEN -> check_if_text read_file q = Ok 0.
Proof.
  intros Hl. unfold check_if_text. rewrite (proj2 (Z.ltb_lt (q_len q) AFL_TXT_MAX_LEN)) by done.
  now rewrite orb_true_r.
Qed.

(** An entry with a given name and length. *)
Definition named_entry (name : list Z) (len : Z) : queue_entry :=
  mkQ name len 0 0 false false false false false false false false false 0 0 0 0 0 0 0 None 0
      (dint 0) (dint 0) None None.

Lemma check_if_text_short_witness :
  q_len (named_entry [97] 26) < AFL_TXT_MAX_LEN /\
  check_if_text (fun _ => Some (map (Z.add 97) (seqZ 0 26))) (named_entry [97] 26) = Ok 0.
Proof. split; [reflexivity|]. apply check_if_text_short. reflexivity. Defined.
