(* ===== verification/Queue.v ===== *)
(** The queue: marking entries, [add_to_queue], [update_bitmap_score] and
    [cull_queue] of [src/afl-fuzz-queue.c], with IgorFuzz's testcase matrix. *)

From S2P Require Import Prelude Words Arith Float State Bitmap Text.

(** ** The state directories

    A directory is the set of the names in it.  Creating uses
    [O_CREAT | O_EXCL]; both calls end the process when they fail. *)

Abbreviation dir := (gset (list Z)).

Definition fs_create (d : dir) (fn : list Z) : res dir :=
  if decide (fn ∈ d) then Err Fatal else Ok ({[fn]} ∪ d).

Definition fs_unlink (d : dir) (fn : list Z) : res dir :=
  if decide (fn ∈ d) then Ok (d ∖ {[fn]}) else Err Fatal.

(** [strrchr(s, '/') + 1]; a null pointer when there is no slash. *)
Fixpoint after_slash (s : list Z) : option (list Z) :=
  match s with
  | [] => None
  | c :: s' =>
      match after_slash s' with
      | Some r => Some r
      | None => if c =? 0x2f then Some s' else None
      end
  end.

Definition base_name (q : queue_entry) : res (list Z) := ptr (after_slash (fname q)).

Definition mark_as_det_done (a : afl) (p : nat) : res afl :=
  q ← deref a p;
  fn ← base_name q;
  d ← fs_create (deterministic_done a) fn;
  Ok (upd p (set_passed_det true) (set_deterministic_done d a)).

(** When the symlink cannot be made the code falls back to [open], which
    fails as well when the name exists. *)
Definition mark_as_variable (a : afl) (p : nat) : res afl :=
  q ← deref a p;
  fn ← base_name q;
  d ← fs_create (variable_behavior a) fn;
  Ok (upd p (set_var_behavior true) (set_variable_behavior d a)).

Definition mark_as_redundant (a : afl) (p : nat) (state : bool) : res afl :=
  q ← deref a p;
  if bool_decide (state = fs_redundant q) then Ok a else
  let a := upd p (set_fs_redundant state) a in
  fn ← base_name q;
  d ← (if state then fs_create (redundant_edges a) fn else fs_unlink (redundant_edges a) fn);
  Ok (set_redundant_edges d a).

(** ** Adding an entry *)

Section AddToQueue.
Context (read_file : list Z -> option (list Z)).

(** The custom mutators' [afl_custom_queue_new_entry] hooks: [None] when no
    mutator is loaded, otherwise whether some hook says that it rewrote the
    file; [stat_size] is the size of the file afterwards. *)
Context (custom_hook : option (list Z -> list Z -> bool)) (stat_size : list Z -> option Z).

Definition run_afl_custom_queue_new_entry (a : afl) (p : nat) (name mother_name : list Z) : res afl :=
  match custom_hook with
  | None => Ok a
  | Some hook =>
      if hook name mother_name then
        match stat_size name with
        | None => Err Fatal
        | Some size => if size =? 0 then Err Fatal else Ok (upd p (set_q_len (u32 size)) a)
        end
      else Ok a
  end.

(** The zero-initialised entry with its first assignments. *)
Definition new_entry (a : afl) (name : list Z) (len : Z) (det : bool) : queue_entry :=
  mkQ name len (u32 (u32 (queued_items a + 1) - 1)) 0 false false det false false false false false
      false 0 0 0 0 0 (u32 (cur_depth a + 1)) 0 None 0 (dint 0) (dint 0) None (queue_cur a).

(** The statistics of the time since the last find. *)
Definition note_find_time (a : afl) (cur_time : Z) : afl :=
  let a :=
    if truthy (start_time a) && (longest_find_time a <? u64 (cur_time - last_find_time a)) then
      if truthy (last_find_time a)
      then set_longest_find_time (u64 (cur_time - last_find_time a)) a
      else set_longest_find_time (u64 (cur_time - start_time a)) a
    else a in
  set_last_find_time cur_time a.

(** Append the entry to the queue and count it. *)
Definition link_entry (a : afl) (q : queue_entry) : afl :=
  let p := Z.to_nat (queued_items a) in
  let a := if max_depth a <? depth q then set_max_depth (u32 (depth q)) a else a in
  let a := match queue_top a with
           | Some _ => set_queue_top (Some p) a
           | None => set_queue_head (Some p) (set_queue_top (Some p) a)
           end in
  let a := if 4 <? q_len q
           then set_ready_for_splicing_count (u32 (ready_for_splicing_count a + 1)) a else a in
  let a := set_queued_items (u32 (queued_items a + 1)) a in
  let a := set_active_items (u32 (active_items a + 1)) a in
  let a := set_pending_not_fuzzed (u32 (pending_not_fuzzed a + 1)) a in
  let a := set_cycles_wo_finds 0 a in
  set_queue_buf (take p (queue_buf a) ++ [q]) a.

(** The custom mutators are told when there is a current entry and this is
    not a synchronised one. *)
Definition notify_mutators (a : afl) (p : nat) (name : list Z) : res afl :=
  match custom_hook, queue_cur a with
  | Some _, Some cur =>
      if negb (syncing_party a) then
        mother ← deref a cur;
        run_afl_custom_queue_new_entry a p name (fname mother)
      else Ok a
  | _, _ => Ok a
  end.

(** Only redqueen uses [is_ascii]. *)
Definition note_text (a : afl) (p : nat) : res afl :=
  q ← deref a p;
  if cmplog_mode a && negb (is_ascii q) then
    v ← check_if_text read_file q;
    Ok (upd p (set_is_ascii (truthy v)) a)
  else Ok a.

Definition add_to_queue (a : afl) (name : list Z) (len : Z) (det : bool) (cur_time : Z) : res afl :=
  let p := Z.to_nat (queued_items a) in
  b ← notify_mutators (note_find_time (link_entry a (new_entry a name len det)) cur_time) p name;
  note_text b p.
End AddToQueue.

(** ** Favored entries: the top-rated table *)

(** [schedule >= FAST && schedule < RARE] and [schedule >= FAST && schedule
    <= RARE]. *)
Definition fast_not_rare (a : afl) : bool := sched_ge (sched a) FAST && negb (sched_ge (sched a) RARE).
Definition fast_or_rare (a : afl) : bool := sched_ge (sched a) FAST && sched_ge RARE (sched a).

(** The candidate's [fuzz_p2]. *)
Definition cand_fuzz_p2 (a : afl) (q : queue_entry) : res Z :=
  if fast_not_rare a then Ok 0
  else if bool_decide (sched a = RARE) then
    n ← rd (n_fuzz a) (Z.to_nat (n_fuzz_entry q)); Ok (next_pow2 n)
  else Ok (fuzz_level q).

(** The incumbent's [top_rated_fuzz_p2]. *)
Definition top_fuzz_p2 (a : afl) (q : queue_entry) : res Z :=
  if fast_or_rare a then
    n ← rd (n_fuzz a) (Z.to_nat (n_fuzz_entry q)); Ok (next_pow2 n)
  else Ok (fuzz_level q).

(** Both sides' speed-and-size factor. *)
Definition fav_factor (a : afl) (q : queue_entry) : Z :=
  if sched_ge (sched a) RARE || fixed_seed a then u32 (q_len q .<< 2)
  else u64 (exec_us q * q_len q).

(** [len = map_size >> 3; trace_mini = ck_alloc(len); minimize_bits(...)] *)
Definition fresh_mini (a : afl) : list Z :=
  minimize_bits (acov a) (replicate (Z.to_nat (map_size (acov a) .>> 3)) 0) (trace_bits (acov a)).

(** The previous winner of a slot loses a reference; except for the matrix,
    the last one frees its [trace_mini]. *)
Definition dethrone (a : afl) (w : nat) : res afl :=
  q ← deref a w;
  if bool_decide (testcase_matrix_of a = Some w) then
    if 0 <? tc_ref q then Ok (upd w (set_tc_ref (tc_ref q - 1)) a) else Ok a
  else
    let a := upd w (set_tc_ref (u32 (tc_ref q - 1))) a in
    if u32 (tc_ref q - 1) =? 0 then Ok (upd w (set_trace_mini None) a) else Ok a.

(** Insert ourselves as the new winner. *)
Definition enthrone (a : afl) (p i : nat) : res afl :=
  tops ← wr (top_rated a) i (Some p);
  let a := set_top_rated tops a in
  q ← deref a p;
  let a := upd p (set_tc_ref (u32 (tc_ref q + 1))) a in
  let a := match trace_mini q with
           | None => upd p (set_trace_mini (Some (fresh_mini a))) a
           | Some _ => a
           end in
  Ok (set_score_changed true a).

(** The body of the loop for tuple [i]. *)
Definition update_slot (p : nat) (fuzz_p2 fav : Z) (a : afl) (i : nat) : res afl :=
  t ← rd (trace_bits (acov a)) i;
  if negb (truthy t) then Ok a else
  slot ← rd (top_rated a) i;
  match slot with
  | None => enthrone a p i
  | Some w =>
      top ← deref a w;
      top_p2 ← top_fuzz_p2 a top;
      let top_fav := fav_factor a top in
      if top_p2 <? fuzz_p2 then Ok a else
      if (fuzz_p2 =? top_p2) && (top_fav <? fav) then Ok a else
      if top_fav <? fav then Ok a else
      a ← dethrone a w;
      enthrone a p i
  end.

Definition update_bitmap_score (a : afl) (p : nat) : res afl :=
  q ← deref a p;
  fuzz_p2 ← cand_fuzz_p2 a q;
  let fav := fav_factor a q in
  let a := match trace_mini q with
           | None => if bool_decide (testcase_matrix_of a = Some p)
                     then upd p (set_trace_mini (Some (fresh_mini a))) a else a
           | Some _ => a
           end in
  rfold (update_slot p fuzz_p2 fav) a (seq 0 (Z.to_nat (map_size (acov a)))).

(** ** Culling *)

(** [while (j--)]: remove from [temp_v] the bits that the matrix has and this
    entry does not. *)
Fixpoint cull_bits (j : nat) (trated matrix : option (list Z)) (temp_v : list Z) : res (list Z) :=
  match j with
  | O => Ok temp_v
  | S j =>
      tr ← ptr trated;
      mx ← ptr matrix;
      t ← rd tr j;
      m ← rd mx j;
      let gone := (t .^ m) .& m in
      v ← rd temp_v j;
      temp_v ← (if truthy gone then wr temp_v j (u8 (v .& Z.lnot gone)) else Ok temp_v);
      cull_bits j trated matrix temp_v
  end.

(** The body of the loop over the tuples. *)
Definition cull_slot (m : nat) (len : nat) (a : afl) (i : nat) : res afl :=
  slot ← rd (top_rated a) i;
  match slot with
  | None => Ok a
  | Some w =>
      v ← rd (map_tmp_buf a) (i / 8);
      if negb (truthy (v .& (1 .<< Z.of_nat (i mod 8)))) then Ok a else
      top ← deref a w;
      matrix ← deref a m;
      temp_v ← cull_bits len (trace_mini top) (trace_mini matrix) (map_tmp_buf a);
      let a := set_map_tmp_buf temp_v a in
      if favored top then Ok a else
      let a := upd w (set_favored true) a in
      let a := set_queued_favored (u32 (queued_favored a + 1)) a in
      if was_fuzzed top then Ok a
      else Ok (set_pending_favored (u32 (pending_favored a + 1)) a)
  end.

Definition unfavor_all (a : afl) : afl :=
  set_queue_buf (map (set_favored false) (queue_buf a)) a.

(** The last loop: keep the redundant_edges directory in step. *)
Definition cull_mark (a : afl) (p : nat) : res afl :=
  q ← deref a p;
  if disabled q then Ok a else mark_as_redundant a p (negb (favored q)).

Definition cull_queue (a : afl) : res afl :=
  match testcase_matrix_of a with
  | None => Err Fatal
  | Some m =>
      if negb (score_changed a) || non_instrumented_mode a then Ok a else
      let len := Z.to_nat (map_size (acov a) .>> 3) in
      let a := set_score_changed false a in
      let a := set_map_tmp_buf (replicate len 255 ++ drop len (map_tmp_buf a)) a in
      let a := set_queued_favored 0 a in
      let a := set_pending_favored 0 a in
      let a := unfavor_all a in
      a ← rfold (cull_slot m len) a (seq 0 (Z.to_nat (map_size (acov a))));
      rfold cull_mark a (seq 0 (Z.to_nat (queued_items a)))
  end.
