(* ===== verification/QueueScore.v ===== *)
(** The top-rated table: what [update_bitmap_score] does, and that it keeps
    the reference counts and the compact traces of the winners in order. *)

From S2P Require Import Prelude Words Arith Float State Bitmap Text Queue BitmapThms.

(** ** Counting slots *)

(** How many slots of the table [p] holds. *)
Definition occ (p : nat) (tops : list (option nat)) : Z :=
  zsum (fun s => b2z (bool_decide (s = Some p))) tops.

Lemma occ_insert p tops i s t :
  tops !! i = Some s ->
  occ p (<[i:=t]> tops)
  = occ p tops - b2z (bool_decide (s = Some p)) + b2z (bool_decide (t = Some p)).
Proof. intros H. unfold occ. now rewrite (zsum_insert _ _ _ _ _ H). Qed.

Lemma occ_range p tops : 0 <= occ p tops <= Z.of_nat (length tops).
Proof.
  pose proof (zsum_bounds (fun s => b2z (bool_decide (s = Some p))) 0 1 tops
    ltac:(intros; apply b2z_range)) as H. unfold occ. lia.
Qed.

Lemma occ_pos p tops i : tops !! i = Some (Some p) -> 1 <= occ p tops.
Proof.
  revert i; induction tops as [|s tops IH]; intros [|i] H; simplify_eq/=; unfold occ in *; unfold zsum in *; simpl.
  - rewrite bool_decide_true by done. simpl. pose proof (occ_range p tops) as Hr. unfold occ, zsum in Hr. lia.
  - pose proof (b2z_range (bool_decide (s = Some p))). specialize (IH i H). lia.
Qed.

(** ** The invariant *)

(** An entry that wins [n] tuples. *)
Record entry_ok (len : nat) (n : Z) (q : queue_entry) : Prop := {
  eo_ref : tc_ref q = n;
  eo_mini : 0 < n -> is_Some (trace_mini q);
  eo_len m : trace_mini q = Some m -> length m = len
}.

Definition refs_ok (len : nat) (tops : list (option nat)) (buf : list queue_entry) : Prop :=
  forall p q, buf !! p = Some q -> entry_ok len (occ p tops) q.

Definition mini_len (a : afl) : nat := Z.to_nat (map_size (acov a) .>> 3).

Record queue_wf (a : afl) : Prop := {
  qw_cov : cov_wf (acov a);
  qw_tops : length (top_rated a) = Z.to_nat (map_size (acov a));
  qw_items : queued_items a = Z.of_nat (length (queue_buf a));
  qw_max : Z.of_nat (length (queue_buf a)) < 2 ^ 32;
  qw_valid i w : top_rated a !! i = Some (Some w) -> (w < length (queue_buf a))%nat;
  qw_matrix m : testcase_matrix_of a = Some m -> (m < length (queue_buf a))%nat;
  qw_refs : refs_ok (mini_len a) (top_rated a) (queue_buf a);
  qw_nfuzz p q : queue_buf a !! p = Some q ->
    (Z.to_nat (n_fuzz_entry q) < length (n_fuzz a))%nat;
  qw_tmp : length (map_tmp_buf a) = Z.to_nat (map_size (acov a))
}.

(** ** What the scan leaves alone

    Everything but the reference counts and compact traces of the entries,
    the table and [score_changed]. *)

Definition core (q : queue_entry) : queue_entry := set_trace_mini None (set_tc_ref 0 q).

Definition frame (a a' : afl) : Prop :=
  map core (queue_buf a') = map core (queue_buf a) /\
  a' = set_queue_buf (queue_buf a') (set_top_rated (top_rated a')
         (set_score_changed (score_changed a') a)).

Lemma frame_refl a : frame a a.
Proof. split; [done|]. now destruct a. Qed.

Lemma frame_trans a b c : frame a b -> frame b c -> frame a c.
Proof.
  intros [E1 S1] [E2 S2]. split; [congruence|]. rewrite S2 at 1. rewrite S1 at 1. reflexivity.
Qed.

Lemma map_alter_same {A B} (f : A -> B) (g : A -> A) i l :
  (forall x, f (g x) = f x) -> map f (alter g i l) = map f l.
Proof.
  intros H. revert i; induction l as [|x l IH]; intros [|i]; simpl; try done.
  - now rewrite H.
  - f_equal. apply IH.
Qed.

Lemma frame_upd a p f : (forall q, core (f q) = core q) -> frame a (upd p f a).
Proof.
  intros H. split; [|unfold upd; destruct a; reflexivity].
  unfold upd. cbn [queue_buf set_queue_buf]. now apply map_alter_same.
Qed.

Lemma core_tc_ref n q : core (set_tc_ref n q) = core q.
Proof. reflexivity. Qed.
Lemma core_trace_mini m q : core (set_trace_mini m q) = core q.
Proof. reflexivity. Qed.

Lemma frame_length a a' : frame a a' -> length (queue_buf a') = length (queue_buf a).
Proof. intros [E _]. apply (f_equal length) in E. now rewrite !length_map in E. Qed.

(** An entry of the later state is an entry of the earlier one but for its
    reference count and trace. *)
Lemma frame_lookup a a' p q' :
  frame a a' -> queue_buf a' !! p = Some q' ->
  exists q, queue_buf a !! p = Some q /\ core q' = core q.
Proof.
  intros [E _] H. assert (Hm : map core (queue_buf a) !! p = Some (core q'))
    by (rewrite <- E, list_lookup_fmap, H; reflexivity).
  rewrite list_lookup_fmap in Hm. destruct (queue_buf a !! p) as [q|]; [|discriminate].
  apply (inj Some) in Hm. exists q. auto.
Qed.

Lemma core_fields q q' : core q' = core q ->
  q_len q' = q_len q /\ exec_us q' = exec_us q /\ fuzz_level q' = fuzz_level q /\
  n_fuzz_entry q' = n_fuzz_entry q.
Proof.
  intros E. split; [exact (f_equal q_len E)|]. split; [exact (f_equal exec_us E)|].
  split; [exact (f_equal fuzz_level E)|exact (f_equal n_fuzz_entry E)].
Qed.

Lemma frame_fields a a' : frame a a' ->
  acov a' = acov a /\ sched a' = sched a /\ fixed_seed a' = fixed_seed a /\
  n_fuzz a' = n_fuzz a /\ queued_items a' = queued_items a /\ map_tmp_buf a' = map_tmp_buf a.
Proof. intros [_ ->]. repeat split. Qed.

(** ** One slot *)

Lemma lookup_alter_eq {A} (f : A -> A) i (l : list A) : alter f i l !! i = f <$> l !! i.
Proof. rewrite list_lookup_alter, decide_True; done. Qed.
Lemma lookup_alter_ne {A} (f : A -> A) i j (l : list A) : i <> j -> alter f i l !! j = l !! j.
Proof. intros. rewrite list_lookup_alter, decide_False; done. Qed.

(** Changing one entry keeps the others' counts. *)
Lemma refs_upd len tops tops' buf f p q :
  buf !! p = Some q -> refs_ok len tops buf ->
  (forall w, w <> p -> occ w tops' = occ w tops) ->
  entry_ok len (occ p tops') (f q) ->
  refs_ok len tops' (alter f p buf).
Proof.
  intros Hq Hr Ho He w x Hx. destruct (decide (w = p)) as [->|Hne].
  - rewrite lookup_alter_eq, Hq in Hx. now injection Hx as <-.
  - rewrite lookup_alter_ne in Hx by done. rewrite Ho by done. eauto.
Qed.

Lemma upd_queue_buf p f a : queue_buf (upd p f a) = alter f p (queue_buf a).
Proof. reflexivity. Qed.
Lemma upd_top_rated p f a : top_rated (upd p f a) = top_rated a.
Proof. reflexivity. Qed.

Lemma alter_alter {A} (f g : A -> A) i (l : list A) : alter f i (alter g i l) = alter (fun x => f (g x)) i l.
Proof. revert i; induction l as [|x l IH]; intros [|i]; simpl; try done. f_equal; apply IH. Qed.

Lemma dethrone_spec a w i len :
  refs_ok len (top_rated a) (queue_buf a) -> Z.of_nat (length (top_rated a)) < 2 ^ 32 ->
  top_rated a !! i = Some (Some w) -> (w < length (queue_buf a))%nat ->
  exists a', dethrone a w = Ok a' /\ frame a a' /\ top_rated a' = top_rated a /\
             refs_ok len (<[i:=None]> (top_rated a)) (queue_buf a').
Proof.
  intros Hr Hl Hi Hw. destruct (rd_lt _ _ Hw) as (q & Eq & Hq).
  pose proof (Hr w q Hq) as [Hn Hmini Hlen]. pose proof (occ_pos _ _ _ Hi) as Hpos.
  pose proof (occ_range w (top_rated a)) as Hrange.
  assert (Hocc : occ w (<[i:=None]> (top_rated a)) = tc_ref q - 1).
  { rewrite (occ_insert _ _ _ _ _ Hi), bool_decide_true, bool_decide_false, Hn by done. simpl. lia. }
  assert (Hother : forall v, v <> w -> occ v (<[i:=None]> (top_rated a)) = occ v (top_rated a)).
  { intros v Hv. rewrite (occ_insert _ _ _ _ _ Hi), !bool_decide_false by congruence. simpl. lia. }
  assert (Eu : u32 (tc_ref q - 1) = tc_ref q - 1) by (apply uwrap_id; lia).
  unfold dethrone, deref. rewrite Eq. cbn [mbind res_bind]. rewrite Eu.
  assert (Hsimple : refs_ok len (<[i:=None]> (top_rated a))
                      (alter (set_tc_ref (tc_ref q - 1)) w (queue_buf a))).
  { eapply refs_upd; eauto. rewrite Hocc. split; cbn; auto. intros; apply Hmini; lia. }
  case_bool_decide.
  - rewrite (proj2 (Z.ltb_lt 0 (tc_ref q))) by lia. eexists; split; [done|].
    split; [now apply frame_upd|]. split; [done|exact Hsimple].
  - destruct (Z.eqb_spec (tc_ref q - 1) 0) as [E0|E0]; eexists; (split; [done|]).
    + split; [eapply frame_trans; now apply frame_upd|]. split; [done|].
      cbn [upd queue_buf set_queue_buf]. rewrite alter_alter. eapply refs_upd; eauto.
      rewrite Hocc. split; cbn; [done|lia|discriminate].
    + split; [now apply frame_upd|]. split; [done|exact Hsimple].
Qed.

Lemma fresh_mini_length a : length (fresh_mini a) = mini_len a.
Proof. unfold fresh_mini, minimize_bits. rewrite minimize_loop_length. apply length_replicate. Qed.

Lemma fresh_mini_cov a a' : acov a' = acov a -> fresh_mini a' = fresh_mini a.
Proof. unfold fresh_mini. now intros ->. Qed.

Lemma enthrone_spec a p i tops0 len :
  refs_ok len tops0 (queue_buf a) -> Z.of_nat (length tops0) + 1 < 2 ^ 32 -> len = mini_len a ->
  tops0 !! i = Some None -> <[i:=Some p]> tops0 = <[i:=Some p]> (top_rated a) ->
  (i < length (top_rated a))%nat -> (p < length (queue_buf a))%nat ->
  exists a', enthrone a p i = Ok a' /\ frame a a' /\
             top_rated a' = <[i:=Some p]> (top_rated a) /\ score_changed a' = true /\
             refs_ok len (top_rated a') (queue_buf a').
Proof.
  intros Hr Hl -> Hi Etops Hlt Hp. destruct (rd_lt _ _ Hp) as (q & Eq & Hq).
  pose proof (Hr p q Hq) as [Hn Hmini Hlen]. pose proof (occ_range p tops0) as Hrange.
  assert (Hocc : occ p (<[i:=Some p]> (top_rated a)) = tc_ref q + 1).
  { rewrite <- Etops, (occ_insert _ _ _ _ _ Hi), bool_decide_false, bool_decide_true, Hn by done.
    simpl. lia. }
  assert (Hother : forall v, v <> p -> occ v (<[i:=Some p]> (top_rated a)) = occ v tops0).
  { intros v Hv. rewrite <- Etops, (occ_insert _ _ _ _ _ Hi), !bool_decide_false by congruence.
    simpl. lia. }
  assert (Eu : u32 (tc_ref q + 1) = tc_ref q + 1) by (apply uwrap_id; lia).
  unfold enthrone. rewrite (proj2 (wr_ok _ _ _ _) (conj Hlt eq_refl)). cbn [mbind res_bind].
  unfold deref. change (queue_buf (set_top_rated _ a)) with (queue_buf a). rewrite Eq.
  cbn [mbind res_bind]. rewrite Eu. destruct (trace_mini q) as [m|] eqn:Em; eexists; (split; [done|]).
  - split; [split; [|destruct a; reflexivity]; cbn [set_score_changed upd queue_buf set_queue_buf set_top_rated];
      now apply map_alter_same|].
    split; [done|]. split; [done|].
    cbn [set_score_changed upd queue_buf set_queue_buf set_top_rated top_rated].
    eapply refs_upd; eauto. rewrite Hocc. split; cbn; [done|rewrite Em; eauto|rewrite Em; auto].
  - split; [split; [|destruct a; reflexivity]; cbn [set_score_changed upd queue_buf set_queue_buf set_top_rated];
      rewrite alter_alter; now apply map_alter_same|].
    split; [done|]. split; [done|].
    cbn [set_score_changed upd queue_buf set_queue_buf set_top_rated top_rated].
    rewrite alter_alter. eapply refs_upd; eauto. rewrite Hocc. split; cbn; [done|eauto|].
    intros m' [= <-]. rewrite fresh_mini_length. reflexivity.
Qed.

(** ** The contest for a slot *)

Definition hits (a : afl) (q : queue_entry) : Z := nth (Z.to_nat (n_fuzz_entry q)) (n_fuzz a) 0.

Definition cand_p2 (a : afl) (q : queue_entry) : Z :=
  if fast_not_rare a then 0
  else if bool_decide (sched a = RARE) then next_pow2 (hits a q) else fuzz_level q.

Definition top_p2 (a : afl) (q : queue_entry) : Z :=
  if fast_or_rare a then next_pow2 (hits a q) else fuzz_level q.

(** The candidate takes the slot from the incumbent [top] when it is neither
    fuzzed more often nor slower or larger. *)
Definition beats (a : afl) (q top : queue_entry) : bool :=
  (cand_p2 a q <=? top_p2 a top) && (fav_factor a q <=? fav_factor a top).

(** Whether the scan for the candidate [q] puts it into slot [i]. *)
Definition takes_slot (a : afl) (q : queue_entry) (i : nat) : bool :=
  truthy (nth i (trace_bits (acov a)) 0) &&
  match nth i (top_rated a) None with
  | None => true
  | Some w => match queue_buf a !! w with Some top => beats a q top | None => false end
  end.

Lemma fuzz_p2_ok a p q :
  queue_wf a -> queue_buf a !! p = Some q ->
  cand_fuzz_p2 a q = Ok (cand_p2 a q) /\ top_fuzz_p2 a q = Ok (top_p2 a q).
Proof.
  intros Hwf Hq. destruct (rd_lt _ _ (qw_nfuzz a Hwf p q Hq)) as (n & E & Hn).
  unfold cand_fuzz_p2, top_fuzz_p2, cand_p2, top_p2, hits.
  rewrite E, (nth_lookup_Some _ _ _ _ Hn). split; repeat case_match; done.
Qed.

Lemma beats_core a a' q q' top top' :
  frame a a' -> core q' = core q -> core top' = core top -> beats a' q' top' = beats a q top.
Proof.
  intros Hf Hq Ht. destruct (frame_fields a a' Hf) as (_ & Es & Ex & En & _).
  destruct (core_fields _ _ Hq) as (E1 & E2 & E3 & E4).
  destruct (core_fields _ _ Ht) as (F1 & F2 & F3 & F4).
  unfold beats, cand_p2, top_p2, fav_factor, fast_not_rare, fast_or_rare, hits.
  now rewrite Es, Ex, En, E1, E2, E3, E4, F1, F2, F3, F4.
Qed.

Lemma wf_top_len a : queue_wf a -> Z.of_nat (length (top_rated a)) < 2 ^ 28.
Proof.
  intros Hwf. rewrite (qw_tops a Hwf). pose proof (wf_real _ (qw_cov a Hwf)).
  pose proof (wf_max _ (qw_cov a Hwf)). lia.
Qed.

(** Rebuilding the invariant after a framed change. *)
Lemma frame_wf a a' :
  queue_wf a -> frame a a' -> length (top_rated a') = length (top_rated a) ->
  (forall i w, top_rated a' !! i = Some (Some w) -> (w < length (queue_buf a))%nat) ->
  refs_ok (mini_len a) (top_rated a') (queue_buf a') -> queue_wf a'.
Proof.
  intros Hwf Hf Hlen Hval Hrefs. pose proof (frame_length a a' Hf) as Hb.
  destruct (frame_fields a a' Hf) as (Ec & _ & _ & En & Ei & Et).
  destruct Hwf; split; unfold mini_len, testcase_matrix_of in *; rewrite ?Ec, ?Hlen, ?Hb, ?En, ?Ei, ?Et; auto.
  intros p q' Hq'. destruct (frame_lookup a a' p q' Hf Hq') as (q & Hq & Hc).
  destruct (core_fields _ _ Hc) as (_ & _ & _ & ->). eauto.
Qed.

(** The table after slot [i] has been decided. *)
Definition slot_after (a : afl) (p : nat) (q : queue_entry) (i : nat) : list (option nat) :=
  if takes_slot a q i then <[i:=Some p]> (top_rated a) else top_rated a.

(** What one iteration has to establish. *)
Definition slot_done (a : afl) (p : nat) (q : queue_entry) (i : nat) (r : res afl) : Prop :=
  exists a', r = Ok a' /\ frame a a' /\ queue_wf a' /\ top_rated a' = slot_after a p q i /\
             score_changed a' = score_changed a || takes_slot a q i.

Lemma slot_kept a p q i :
  queue_wf a -> takes_slot a q i = false -> slot_done a p q i (Ok a).
Proof.
  intros Hwf E. exists a. unfold slot_after. rewrite E, orb_false_r.
  split; [done|]. split; [apply frame_refl|]. auto.
Qed.

Lemma slot_taken a a1 p q i tops0 :
  queue_wf a -> (p < length (queue_buf a))%nat -> (i < length (top_rated a))%nat ->
  frame a a1 -> top_rated a1 = top_rated a -> refs_ok (mini_len a) tops0 (queue_buf a1) ->
  tops0 !! i = Some None -> <[i:=Some p]> tops0 = <[i:=Some p]> (top_rated a) ->
  length tops0 = length (top_rated a) -> takes_slot a q i = true ->
  slot_done a p q i (enthrone a1 p i).
Proof.
  intros Hwf Hp Hi Hf1 Etop1 Hr0 Hn0 Et0 Hl0 Htake. pose proof (wf_top_len a Hwf) as Hl.
  destruct (frame_fields a a1 Hf1) as (Ec & _).
  destruct (enthrone_spec a1 p i tops0 (mini_len a)) as (a2 & E2 & Hf2 & Et2 & Es2 & Hr2); auto.
  - rewrite Hl0. change (2 ^ 28) with 268435456 in Hl. change (2 ^ 32) with 4294967296. lia.
  - unfold mini_len. now rewrite Ec.
  - now rewrite Etop1.
  - now rewrite Etop1.
  - now rewrite (frame_length a a1 Hf1).
  - assert (Hf : frame a a2) by (eapply frame_trans; eauto). exists a2. rewrite E2.
    split; [done|]. split; [done|]. rewrite Etop1 in Et2.
    unfold slot_after. rewrite Htake, orb_true_r. split; [|auto].
    apply (frame_wf a a2); auto.
    + rewrite Et2. apply length_insert.
    + intros j w Hj. rewrite Et2 in Hj. apply list_lookup_insert_Some in Hj as [(-> & [= <-] & _)|[_ Hj]]; [done|].
      eapply qw_valid; eauto.
Qed.

Lemma update_slot_spec a p q i :
  queue_wf a -> queue_buf a !! p = Some q -> (i < Z.to_nat (map_size (acov a)))%nat ->
  slot_done a p q i (update_slot p (cand_p2 a q) (fav_factor a q) a i).
Proof.
  intros Hwf Hq Hi. pose proof (wf_top_len a Hwf) as Hl.
  assert (Hp : (p < length (queue_buf a))%nat) by (eapply lookup_lt_Some; eauto).
  assert (Hi' : (i < length (top_rated a))%nat) by (now rewrite (qw_tops a Hwf)).
  destruct (rd_lt (trace_bits (acov a)) i) as (t & Et & Ht).
  { now rewrite (wf_trace_len _ (qw_cov a Hwf)). }
  destruct (rd_lt (top_rated a) i Hi') as (s & Es & Hs).
  assert (Etake : takes_slot a q i = truthy t && match s with
      | None => true
      | Some w => match queue_buf a !! w with Some top => beats a q top | None => false end
      end).
  { unfold takes_slot. now rewrite (nth_lookup_Some _ _ _ _ Ht), (nth_lookup_Some _ _ _ _ Hs). }
  unfold update_slot. rewrite Et. cbn [mbind res_bind].
  destruct (truthy t); cbn [negb]; [|now apply slot_kept].
  rewrite Es. cbn [mbind res_bind]. destruct s as [w|].
  - assert (Hw : (w < length (queue_buf a))%nat) by (eapply qw_valid; eauto).
    destruct (rd_lt _ _ Hw) as (top & Etop & Htop). rewrite Htop in Etake.
    unfold deref. rewrite Etop. cbn [mbind res_bind].
    rewrite (proj2 (fuzz_p2_ok a w top Hwf Htop)). cbn [mbind res_bind]. unfold beats in Etake.
    destruct (Z.ltb_spec (top_p2 a top) (cand_p2 a q)) as [Hlt|Hge].
    { apply slot_kept; [done|]. now rewrite Etake, (proj2 (Z.leb_gt _ _)) by done. }
    destruct (Z.ltb_spec (fav_factor a top) (fav_factor a q)) as [Hlt'|Hge'].
    { rewrite (proj2 (Z.leb_gt (fav_factor a q) _)), andb_false_r in Etake by done.
      rewrite andb_true_r. destruct (cand_p2 a q =? top_p2 a top); now apply slot_kept. }
    rewrite andb_false_r.
    destruct (dethrone_spec a w i (mini_len a)) as (a1 & E1 & Hf1 & Et1 & Hr1); auto using qw_refs.
    { change (2 ^ 28) with 268435456 in Hl. change (2 ^ 32) with 4294967296. lia. }
    rewrite E1. cbn [mbind res_bind]. apply (slot_taken a a1 p q i (<[i:=None]> (top_rated a))); auto.
    + now apply list_lookup_insert_eq.
    + apply list_insert_insert_eq.
    + apply length_insert.
    + now rewrite Etake, !(proj2 (Z.leb_le _ _)) by lia.
  - apply (slot_taken a a p q i (top_rated a)); auto using qw_refs, frame_refl.
Qed.

(** ** The whole scan *)

Lemma takes_slot_frame a a' p q q' i :
  queue_wf a -> frame a a' -> queue_buf a !! p = Some q -> core q' = core q ->
  nth i (top_rated a') None = nth i (top_rated a) None ->
  (forall w, nth i (top_rated a) None = Some w -> (w < length (queue_buf a))%nat) ->
  takes_slot a' q' i = takes_slot a q i.
Proof.
  intros Hwf Hf Hq Hc Ei Hv. unfold takes_slot.
  destruct (frame_fields a a' Hf) as (-> & _). rewrite Ei. f_equal.
  destruct (nth i (top_rated a) None) as [w|]; [|done].
  specialize (Hv w eq_refl). rewrite <- (frame_length a a' Hf) in Hv.
  apply lookup_lt_is_Some_2 in Hv as [top' Htop']. rewrite Htop'.
  destruct (frame_lookup a a' w top' Hf Htop') as (top & -> & Ht). now apply beats_core.
Qed.

Lemma nth_tops_valid a i w : queue_wf a ->
  nth i (top_rated a) None = Some w -> (w < length (queue_buf a))%nat.
Proof.
  intros Hwf H. destruct (top_rated a !! i) as [s|] eqn:E.
  - rewrite (nth_lookup_Some _ _ _ _ E) in H. subst. eapply qw_valid; eauto.
  - rewrite (nth_overflow) in H; [discriminate|]. now apply lookup_ge_None.
Qed.

Lemma nth_insert_tops {A} (d : A) l i j x :
  (i < length l)%nat -> nth j (<[i:=x]> l) d = if decide (i = j) then x else nth j l d.
Proof.
  intros Hi. rewrite !nth_lookup. case_decide.
  - subst. now rewrite list_lookup_insert_eq.
  - now rewrite list_lookup_insert_ne.
Qed.

Lemma update_slots_spec a p q l :
  queue_wf a -> queue_buf a !! p = Some q -> NoDup l ->
  Forall (fun i => (i < Z.to_nat (map_size (acov a)))%nat) l ->
  exists a', rfold (update_slot p (cand_p2 a q) (fav_factor a q)) a l = Ok a' /\
             frame a a' /\ queue_wf a' /\
             (forall j, nth j (top_rated a') None
                = if bool_decide (j ∈ l) && takes_slot a q j then Some p
                  else nth j (top_rated a) None) /\
             score_changed a' = score_changed a || existsb (takes_slot a q) l.
Proof.
  intros Hwf Hq Hnd Hl. revert a q Hwf Hq Hl. induction Hnd as [|i l Hi Hnd IH]; intros a q Hwf Hq Hl.
  { exists a. split; [done|]. split; [apply frame_refl|]. split; [done|].
    split; [|now rewrite orb_false_r]. intros j. rewrite bool_decide_false; [done|]. apply not_elem_of_nil. }
  inversion Hl as [|? ? Hil Hl']; subst.
  destruct (update_slot_spec a p q i Hwf Hq Hil) as (a1 & E1 & Hf1 & Hwf1 & Et1 & Es1).
  assert (Hp1 : (p < length (queue_buf a1))%nat).
  { rewrite (frame_length a a1 Hf1). eapply lookup_lt_Some; eauto. }
  apply lookup_lt_is_Some_2 in Hp1 as [q1 Hq1].
  destruct (frame_lookup a a1 p q1 Hf1 Hq1) as (q0 & Hq0 & Hc). rewrite Hq in Hq0. injection Hq0 as <-.
  destruct (frame_fields a a1 Hf1) as (Ec & Esch & Efs & En & _).
  assert (Efix : cand_p2 a1 q1 = cand_p2 a q /\ fav_factor a1 q1 = fav_factor a q).
  { destruct (core_fields _ _ Hc) as (F1 & F2 & F3 & F4).
    unfold cand_p2, fav_factor, hits, fast_not_rare. now rewrite Esch, Efs, En, F1, F2, F3, F4. }
  destruct Efix as [Ep2 Efav].
  destruct (IH a1 q1 Hwf1 Hq1) as (a2 & E2 & Hf2 & Hwf2 & Et2 & Es2). { now rewrite Ec. }
  assert (Hlen : (i < length (top_rated a))%nat) by (now rewrite (qw_tops a Hwf)).
  assert (Htop1 : forall j, nth j (top_rated a1) None
            = if bool_decide (j = i) && takes_slot a q i then Some p else nth j (top_rated a) None).
  { intros j. rewrite Et1. unfold slot_after. destruct (takes_slot a q i).
    - rewrite nth_insert_tops by done. case_decide; case_bool_decide; try done; congruence.
    - now rewrite andb_false_r. }
  assert (Htk : forall j, j ∈ l -> takes_slot a1 q1 j = takes_slot a q j).
  { intros j Hj. apply (takes_slot_frame a a1 p q q1 j); auto.
    - rewrite Htop1, bool_decide_false; [done|]. intros ->. contradiction.
    - intros w. now apply nth_tops_valid. }
  exists a2. cbn [rfold]. rewrite E1. cbn [mbind res_bind]. rewrite <- Ep2, <- Efav.
  split; [done|]. split; [eapply frame_trans; eauto|]. split; [done|]. split.
  - intros j. rewrite Et2, Htop1. destruct (decide (j ∈ l)) as [Hj|Hj].
    + rewrite (bool_decide_true (j ∈ l)), (bool_decide_true (j ∈ i :: l)) by (try done; now right).
      rewrite Htk by done. destruct (takes_slot a q j) eqn:Ej; [done|]. simpl.
      rewrite bool_decide_false; [done|]. intros ->. contradiction.
    + rewrite (bool_decide_false (j ∈ l)) by done. simpl.
      rewrite (bool_decide_ext (j ∈ i :: l) (j = i)) by (rewrite elem_of_cons; intuition).
      case_bool_decide; [now subst|done].
  - rewrite Es2, Es1. cbn [existsb]. rewrite <- orb_assoc. do 2 f_equal.
    clear -Htk. induction l as [|j l IH]; simpl; [done|].
    rewrite Htk, IH by (try (now left); intros; apply Htk; now right). done.
Qed.

(** ** The matrix keeps its compact trace *)

Definition matrix_mini (a : afl) : Prop :=
  forall m q, testcase_matrix_of a = Some m -> queue_buf a !! m = Some q -> is_Some (trace_mini q).

Lemma matrix_mini_upd a p f :
  (testcase_matrix_of a = Some p -> forall q, is_Some (trace_mini q) -> is_Some (trace_mini (f q))) ->
  matrix_mini a -> matrix_mini (upd p f a).
Proof.
  intros Hf Hm m q E H. rewrite upd_queue_buf in H. destruct (decide (p = m)) as [->|Hne].
  - rewrite lookup_alter_eq in H. destruct (queue_buf a !! m) as [q0|] eqn:E0; [|discriminate].
    apply (inj Some) in H as <-. apply Hf; [done|]. eapply Hm; eauto.
  - rewrite lookup_alter_ne in H by done. eapply Hm; eauto.
Qed.

Lemma dethrone_matrix_mini a w a' : dethrone a w = Ok a' -> matrix_mini a -> matrix_mini a'.
Proof.
  intros H Hm. unfold dethrone in H. apply bind_ok in H as (q & _ & H).
  case_bool_decide as Ew.
  - destruct (0 <? tc_ref q); injection H as <-; [|done]. now apply matrix_mini_upd.
  - destruct (_ =? 0); injection H as <-; repeat (apply matrix_mini_upd; [try done|]); try done.
Qed.

Lemma enthrone_matrix_mini a p i a' : enthrone a p i = Ok a' -> matrix_mini a -> matrix_mini a'.
Proof.
  intros H Hm. unfold enthrone in H. apply bind_ok in H as (tops & _ & H).
  apply bind_ok in H as (q & _ & H).
  assert (Hs : forall x, matrix_mini x -> matrix_mini (set_score_changed true x)) by (intros x Hx; exact Hx).
  assert (Ht : matrix_mini (set_top_rated tops a)) by exact Hm.
  destruct (trace_mini q); injection H as <-; apply Hs; repeat (apply matrix_mini_upd; [try done|]); try done.
Qed.

Lemma update_slot_matrix_mini p x y a i a' :
  update_slot p x y a i = Ok a' -> matrix_mini a -> matrix_mini a'.
Proof.
  intros H Hm. unfold update_slot in H. apply bind_ok in H as (t & _ & H).
  destruct (negb (truthy t)); [now injection H as <-|].
  apply bind_ok in H as ([w|] & _ & H); [|eapply enthrone_matrix_mini; eauto].
  apply bind_ok in H as (top & _ & H). apply bind_ok in H as (tp & _ & H). cbv zeta in H.
  repeat (destruct (_ <? _); cbn [andb] in H; try (now injection H as <-)).
  all: repeat match type of H with (if ?b then _ else _) = _ =>
         destruct b; try (now injection H as <-) end.
  all: apply bind_ok in H as (a1 & E & H); eapply enthrone_matrix_mini; [exact H|];
       eapply dethrone_matrix_mini; eauto.
Qed.

(** ** [update_bitmap_score] *)

(** The matrix gets its compact trace first. *)
Definition primed (a : afl) (p : nat) (q : queue_entry) : afl :=
  match trace_mini q with
  | None => if bool_decide (testcase_matrix_of a = Some p)
            then upd p (set_trace_mini (Some (fresh_mini a))) a else a
  | Some _ => a
  end.

Lemma primed_spec a p q :
  queue_wf a -> queue_buf a !! p = Some q ->
  frame a (primed a p q) /\ queue_wf (primed a p q) /\ top_rated (primed a p q) = top_rated a /\
  score_changed (primed a p q) = score_changed a /\
  (testcase_matrix_of a = Some p \/ matrix_mini a -> matrix_mini (primed a p q)).
Proof.
  intros Hwf Hq. unfold primed. destruct (trace_mini q) as [m|] eqn:Em.
  { split; [apply frame_refl|]. split; [done|]. split; [done|]. split; [done|].
    intros [E|H]; [|done]. intros m' q' Hm' Hq'. rewrite E in Hm'. injection Hm' as <-.
    rewrite Hq in Hq'. apply (inj Some) in Hq' as <-. rewrite Em. eauto. }
  case_bool_decide as Ep.
  2: { split; [apply frame_refl|]. split; [done|]. split; [done|]. split; [done|]. tauto. }
  assert (Hf : frame a (upd p (set_trace_mini (Some (fresh_mini a))) a)) by now apply frame_upd.
  split; [done|]. split; [|split; [done|split; [done|]]].
  - apply (frame_wf a _ Hwf Hf); [done|intros; eapply qw_valid; eauto|].
    cbn [upd queue_buf set_queue_buf top_rated]. eapply refs_upd; eauto using qw_refs.
    destruct (qw_refs a Hwf p q Hq) as [Hn _ _]. split; cbn; [done|eauto|].
    intros m [= <-]. apply fresh_mini_length.
  - intros _ m q' Hm' Hq'. change (testcase_matrix_of a = Some m) in Hm'.
    rewrite Ep in Hm'. injection Hm' as <-. rewrite upd_queue_buf, lookup_alter_eq, Hq in Hq'.
    apply (inj Some) in Hq' as <-. cbn. eauto.
Qed.

(** The whole scan. *)
Lemma update_bitmap_score_spec a p q :
  queue_wf a -> queue_buf a !! p = Some q ->
  exists a', update_bitmap_score a p = Ok a' /\ frame a a' /\ queue_wf a' /\
    (forall i, nth i (top_rated a') None
       = if takes_slot a q i then Some p else nth i (top_rated a) None) /\
    score_changed a' = score_changed a
      || existsb (takes_slot a q) (seq 0 (Z.to_nat (map_size (acov a)))) /\
    (testcase_matrix_of a = Some p \/ matrix_mini a -> matrix_mini a').
Proof.
  intros Hwf Hq. destruct (primed_spec a p q Hwf Hq) as (Hf0 & Hwf0 & Et0 & Es0 & Hm0).
  destruct (rd_lt (queue_buf a) p) as (q' & Eq & Hq'). { eapply lookup_lt_Some; eauto. }
  rewrite Hq in Hq'. injection Hq' as <-.
  set (b := primed a p q) in *. set (n := Z.to_nat (map_size (acov a))).
  assert (Hpb : (p < length (queue_buf b))%nat).
  { rewrite (frame_length a b Hf0). eapply lookup_lt_Some; eauto. }
  apply lookup_lt_is_Some_2 in Hpb as [q1 Hq1].
  destruct (frame_lookup a b p q1 Hf0 Hq1) as (q0 & Hq0 & Hc). rewrite Hq in Hq0. injection Hq0 as <-.
  destruct (frame_fields a b Hf0) as (Ec & Esch & Efs & En & _).
  assert (Hl : Forall (fun i => (i < Z.to_nat (map_size (acov b)))%nat) (seq 0 n)).
  { rewrite Ec. fold n. apply Forall_forall. intros i Hi. apply elem_of_seq in Hi. lia. }
  destruct (update_slots_spec b p q1 (seq 0 n) Hwf0 Hq1 (NoDup_seq 0 n) Hl)
    as (a' & E & Hf & Hwf' & Ht & Hs).
  assert (Htk : forall i, takes_slot b q1 i = takes_slot a q i).
  { intros i. apply (takes_slot_frame a b p q q1 i); auto; [now rewrite Et0|].
    intros w. now apply nth_tops_valid. }
  exists a'. unfold update_bitmap_score, deref. rewrite Eq. cbn [mbind res_bind].
  rewrite (proj1 (fuzz_p2_ok a p q Hwf Hq)). cbn [mbind res_bind]. fold (primed a p q). fold b.
  destruct (core_fields _ _ Hc) as (F1 & F2 & F3 & F4).
  assert (Ep2 : cand_p2 b q1 = cand_p2 a q).
  { unfold cand_p2, hits, fast_not_rare. now rewrite Esch, En, F3, F4. }
  assert (Efav : fav_factor b q1 = fav_factor a q) by (unfold fav_factor; now rewrite Esch, Efs, F1, F2).
  rewrite <- Ep2, <- Efav, Ec. fold n. split; [exact E|].
  split; [eapply frame_trans; eauto|]. split; [done|]. split; [|split].
  - intros i. rewrite Ht, Et0, Htk. destruct (decide (i < n)%nat).
    + rewrite bool_decide_true by (apply elem_of_seq; lia). done.
    + rewrite bool_decide_false by (rewrite elem_of_seq; lia). simpl.
      unfold takes_slot. rewrite (nth_overflow (trace_bits (acov a))); [done|].
      rewrite (wf_trace_len _ (qw_cov a Hwf)). fold n. lia.
  - rewrite Hs, Es0. f_equal. clear -Htk. induction (seq 0 n) as [|i l IH]; simpl; [done|].
    now rewrite Htk, IH.
  - intros Hm. apply Hm0 in Hm. eapply rfold_preserve; [|exact E|exact Hm].
    intros; eapply update_slot_matrix_mini; eauto.
Qed.

(** C26: on every well-formed state [update_bitmap_score] returns without a
    fault and keeps the state well-formed: after any number of wins and
    losses each entry's [tc_ref] is exactly the number of tuples it is the
    top-rated entry for, and an entry that wins any tuple has a compact trace
    of [map_size >> 3] bytes.  A slot of the table changes exactly when the
    trace hits its tuple and the slot is free or its holder is neither less
    fuzzed nor smaller and faster than the candidate; [score_changed] is
    raised when one did.  The testcase matrix has a compact trace afterwards
    if it had one before or is the candidate. *)
Theorem update_bitmap_score_correct a p q :
  queue_wf a -> queue_buf a !! p = Some q ->
  exists a', update_bitmap_score a p = Ok a' /\ frame a a' /\ queue_wf a' /\
    (forall i, nth i (top_rated a') None
       = if takes_slot a q i then Some p else nth i (top_rated a) None) /\
    score_changed a' = score_changed a
      || existsb (takes_slot a q) (seq 0 (Z.to_nat (map_size (acov a)))) /\
    (testcase_matrix_of a = Some p \/ matrix_mini a -> matrix_mini a').
Proof. exact (update_bitmap_score_spec a p q). Qed.

(** A fuzzer that has just read two inputs, the first one being the matrix. *)
Definition afl0 : afl :=
  mkAfl (mkCov trace0 64 64 0 virgin0 virgin0 virgin0 false (Some 0%nat) 0 0) EXPLORE false false
    [named_entry [0x2f; 97] 10; named_entry [0x2f; 98] 20] None (Some 0%nat) (Some 1%nat)
    2 2 2 2 0 0 1 0 0 0 false false (replicate 64 None) [0] true 0 0 (replicate 64 0)
    0 0 0 0 0 0 64 0 false ∅ ∅ ∅.

Lemma afl0_wf : queue_wf afl0.
Proof.
  assert (Hnone : forall i w, replicate 64 (@None nat) !! i = Some (Some w) -> False)
    by (intros i w H; apply lookup_replicate in H as [[=] _]).
  split; try reflexivity.
  - apply flat_cov_wf; done.
  - intros i w H. exfalso. eapply Hnone; eauto.
  - intros m [= <-]. simpl. lia.
  - intros p q Hq. replace (occ p (top_rated afl0)) with 0.
    + assert (tc_ref q = 0 /\ trace_mini q = None) as [E1 E2].
      { destruct p as [|[|p]]; [injection Hq as <-..|]; done. }
      split; [done|lia|rewrite E2; discriminate].
    + simpl. destruct p; reflexivity.
  - intros p q Hq. assert (n_fuzz_entry q = 0) as ->; [|simpl; lia].
    destruct p as [|[|p]]; [injection Hq as <-..|]; done.
Qed.

Lemma update_bitmap_score_correct_witness :
  queue_wf afl0 /\ exists a', update_bitmap_score afl0 0 = Ok a' /\
    map (fun i => nth i (top_rated a') None) (seq 0 6)
    = [Some 0%nat; None; Some 0%nat; None; Some 0%nat; None].
Proof.
  split; [exact afl0_wf|].
  destruct (update_bitmap_score_correct afl0 0 _ afl0_wf eq_refl) as (a' & E & _ & _ & Ht & _).
  exists a'. split; [exact E|]. cbn [seq map]. rewrite !Ht. reflexivity.
Defined.
