(* ===== verification/QueueCull.v ===== *)
(** The favored entries: what [cull_queue] selects, with IgorFuzz's reading of
    coverage decrease, and the directory it keeps in step. *)

From S2P Require Import Prelude Words Arith Float State Bitmap Text Queue BitmapThms QueueScore.

(** ** Clearing bits *)

Lemma mini_bit_insert l i v k :
  (i < length l)%nat ->
  mini_bit (<[i:=v]> l) k
  = if decide (k / 8 = i)%nat then Z.testbit v (Z.of_nat (k mod 8)) else mini_bit l k.
Proof.
  intros Hi. unfold mini_bit. rewrite nth_insert_tops by done.
  destruct (decide (i = k / 8)%nat), (decide (k / 8 = i)%nat); congruence.
Qed.

(** The bits of [temp_v] that an entry with compact trace [tr] takes out. *)
Definition gone (tr mx : list Z) (k : nat) : bool := mini_bit mx k && negb (mini_bit tr k).

Lemma cull_bits_spec j tr mx temp :
  (j <= length tr)%nat -> (j <= length mx)%nat -> (j <= length temp)%nat ->
  exists temp', cull_bits j (Some tr) (Some mx) temp = Ok temp' /\ length temp' = length temp /\
    forall k, mini_bit temp' k = mini_bit temp k && negb ((k <? 8 * j)%nat && gone tr mx k).
Proof.
  revert temp; induction j as [|j IH]; intros temp Ht Hm Hv.
  { exists temp. split; [done|]. split; [done|]. intros k. now rewrite andb_true_r. }
  cbn [cull_bits ptr mbind res_bind].
  destruct (rd_lt tr j ltac:(lia)) as (t & -> & Etr), (rd_lt mx j ltac:(lia)) as (m & -> & Emx),
    (rd_lt temp j ltac:(lia)) as (v & -> & Ev). cbn [mbind res_bind].
  set (g := (t .^ m) .& m).
  assert (Hg : exists temp1, (if truthy g then wr temp j (u8 (v .& Z.lnot g)) else Ok temp) = Ok temp1 /\
    length temp1 = length temp /\
    forall k, mini_bit temp1 k = mini_bit temp k && negb ((k / 8 =? j)%nat && gone tr mx k)).
  { assert (Hb : forall k, (k / 8 = j)%nat ->
      gone tr mx k = Z.testbit g (Z.of_nat (k mod 8)) /\ mini_bit temp k = Z.testbit v (Z.of_nat (k mod 8))).
    { intros k Hk. unfold gone, mini_bit. rewrite Hk.
      rewrite (nth_lookup_Some _ _ _ _ Etr), (nth_lookup_Some _ _ _ _ Emx), (nth_lookup_Some _ _ _ _ Ev).
      split; [|done]. subst g. rewrite Z.land_spec, Z.lxor_spec.
      now destruct (Z.testbit t _), (Z.testbit m _). }
    destruct (truthy g) eqn:Eg.
    - exists (<[j:=u8 (v .& Z.lnot g)]> temp). split; [apply wr_ok; split; [lia|done]|].
      split; [apply length_insert|]. intros k. rewrite mini_bit_insert by lia.
      destruct (Nat.eqb_spec (k / 8) j) as [E|E]; [rewrite decide_True by done|rewrite decide_False by done].
      + destruct (Hb k E) as [-> ->]. pose proof (Nat.mod_upper_bound k 8 ltac:(lia)).
        rewrite uwrap_testbit, (proj2 (Z.ltb_lt _ 8)), Z.land_spec, Z.lnot_spec by lia. done.
      + simpl. now rewrite andb_true_r.
    - exists temp. split; [done|]. split; [done|]. intros k.
      destruct (Nat.eqb_spec (k / 8) j) as [E|E]; [|simpl; now rewrite andb_true_r].
      destruct (Hb k E) as [-> _]. apply truthy_false in Eg. rewrite Eg, Z.bits_0. simpl.
      now rewrite andb_true_r. }
  destruct Hg as (temp1 & -> & Hl1 & Hb1). cbn [mbind res_bind].
  destruct (IH temp1) as (temp' & E & Hl & Hb); [lia..|].
  exists temp'. split; [exact E|]. split; [congruence|]. intros k.
  rewrite Hb, Hb1, <- andb_assoc, <- negb_orb, <- andb_orb_distrib_l. do 3 f_equal.
  apply eq_true_iff_eq. rewrite orb_true_iff, Nat.eqb_eq, !Nat.ltb_lt.
  pose proof (Nat.div_mod_eq k 8). pose proof (Nat.mod_upper_bound k 8 ltac:(lia)). lia.
Qed.

(** ** The loop over the tuples *)

Definition is_fav (q : queue_entry) : Z := b2z (favored q).
Definition is_pending_fav (q : queue_entry) : Z := b2z (favored q && negb (was_fuzzed q)).

(** Tuple [k] is hit by the matrix and missed by some favored entry. *)
Definition lost_by_favored (buf : list queue_entry) (mx : list Z) (k : nat) : Prop :=
  exists w q tr, buf !! w = Some q /\ favored q = true /\ trace_mini q = Some tr /\ gone tr mx k = true.

Definition favored_at (buf : list queue_entry) (w : nat) : Prop :=
  exists q, buf !! w = Some q /\ favored q = true.

(** The state before the loop ([a0]) and before its iteration [i]. *)
Record cull_inv (a0 : afl) (mx : list Z) (i : nat) (s : afl) : Prop := {
  ci_buf : map (set_favored false) (queue_buf s) = map (set_favored false) (queue_buf a0);
  ci_rest : s = set_queue_buf (queue_buf s) (set_map_tmp_buf (map_tmp_buf s)
    (set_queued_favored (queued_favored s) (set_pending_favored (pending_favored s) a0)));
  ci_len : length (map_tmp_buf s) = Z.to_nat (map_size (acov a0));
  ci_bits k : (k < 8 * mini_len a0)%nat ->
    mini_bit (map_tmp_buf s) k = false <-> lost_by_favored (queue_buf s) mx k;
  ci_fav w : favored_at (queue_buf s) w -> exists j, top_rated a0 !! j = Some (Some w);
  ci_done j w : (j < i)%nat -> top_rated a0 !! j = Some (Some w) ->
    mini_bit (map_tmp_buf s) j = false \/ favored_at (queue_buf s) w;
  ci_queued : queued_favored s = zsum is_fav (queue_buf s);
  ci_pending : pending_favored s = zsum is_pending_fav (queue_buf s)
}.

Lemma unfav_lookup buf buf' w q' :
  map (set_favored false) buf' = map (set_favored false) buf -> buf' !! w = Some q' ->
  exists q, buf !! w = Some q /\ set_favored false q' = set_favored false q.
Proof.
  intros E H. assert (Hm : map (set_favored false) buf !! w = Some (set_favored false q'))
    by (rewrite <- E, list_lookup_fmap, H; reflexivity).
  rewrite list_lookup_fmap in Hm. destruct (buf !! w) as [q|]; [|discriminate].
  apply (inj Some) in Hm. exists q. auto.
Qed.

Lemma unfav_trace q q' : set_favored false q' = set_favored false q ->
  trace_mini q' = trace_mini q /\ was_fuzzed q' = was_fuzzed q.
Proof. intros E. split; [exact (f_equal trace_mini E)|exact (f_equal was_fuzzed E)]. Qed.

Lemma bit_test v k : truthy (v .& (1 .<< Z.of_nat k)) = Z.testbit v (Z.of_nat k).
Proof.
  assert (E : v .& (1 .<< Z.of_nat k) = if Z.testbit v (Z.of_nat k) then 1 .<< Z.of_nat k else 0).
  { apply Z.bits_inj'; intros n Hn. rewrite Z.land_spec, Z.shiftl_spec by lia.
    destruct (Z.eq_dec n (Z.of_nat k)) as [->|Hne].
    - rewrite Z.sub_diag. destruct (Z.testbit v (Z.of_nat k)); [|now rewrite Z.bits_0].
      rewrite Z.shiftl_spec, Z.sub_diag by lia. done.
    - assert (E0 : Z.testbit 1 (n - Z.of_nat k) = false).
      { destruct (Z.lt_ge_cases (n - Z.of_nat k) 0); [now apply Z.testbit_neg_r|].
        apply (testbit_high 1); lia. }
      rewrite E0, andb_false_r. destruct (Z.testbit v (Z.of_nat k)); [|now rewrite Z.bits_0].
      rewrite Z.shiftl_spec by lia. now rewrite E0. }
  rewrite E. destruct (Z.testbit v _); [|done]. apply truthy_true.
  rewrite Z.shiftl_1_l. pose proof (Z.pow_pos_nonneg 2 (Z.of_nat k)). lia.
Qed.

(** Marking an entry favored. *)
Definition mark_favored (s : afl) (w : nat) (temp : list Z) (top : queue_entry) : afl :=
  let s := set_map_tmp_buf temp s in
  if favored top then s else
  let s := set_queued_favored (u32 (queued_favored s + 1)) (upd w (set_favored true) s) in
  if was_fuzzed top then s else set_pending_favored (u32 (pending_favored s + 1)) s.

Lemma cull_slot_eq m len s i :
  cull_slot m len s i
  = (slot ← rd (top_rated s) i;
     match slot with
     | None => Ok s
     | Some w =>
         v ← rd (map_tmp_buf s) (i / 8);
         if negb (truthy (v .& (1 .<< Z.of_nat (i mod 8)))) then Ok s else
         top ← deref s w; matrix ← deref s m;
         temp_v ← cull_bits len (trace_mini top) (trace_mini matrix) (map_tmp_buf s);
         Ok (mark_favored s w temp_v top)
     end).
Proof.
  unfold cull_slot, mark_favored. destruct (rd (top_rated s) i) as [[w|]|]; try done.
  cbn [mbind res_bind]. destruct (rd (map_tmp_buf s) (i / 8)); [|done]. cbn [mbind res_bind].
  destruct (negb _); [done|]. destruct (deref s w) as [top|]; [|done]. cbn [mbind res_bind].
  destruct (deref s m); [|done]. cbn [mbind res_bind]. destruct (cull_bits _ _ _ _); [|done].
  cbn [mbind res_bind]. destruct (favored top); [done|]. now destruct (was_fuzzed top).
Qed.

Lemma set_favored_id q : favored q = true -> set_favored true q = q.
Proof. destruct q; simpl. now intros ->. Qed.

Lemma alter_id_at {A} (f : A -> A) (i : nat) (l : list A) x : l !! i = Some x -> f x = x -> alter f i l = l.
Proof.
  revert i; induction l as [|y l IH]; intros [|i] H E; simplify_eq/=; [now rewrite E|].
  f_equal. exact (IH i H E).
Qed.

Lemma mark_favored_fields s w temp top :
  queue_buf s !! w = Some top -> Z.of_nat (length (queue_buf s)) < 2 ^ 32 ->
  queued_favored s = zsum is_fav (queue_buf s) ->
  pending_favored s = zsum is_pending_fav (queue_buf s) ->
  let buf := alter (set_favored true) w (queue_buf s) in
  mark_favored s w temp top
  = set_queue_buf buf (set_map_tmp_buf temp
      (set_queued_favored (zsum is_fav buf) (set_pending_favored (zsum is_pending_fav buf) s))).
Proof.
  intros Hw Hmax Hq Hp buf. unfold mark_favored. cbv zeta. destruct (favored top) eqn:Ef.
  - assert (Eb : buf = queue_buf s) by (apply (alter_id_at _ _ _ top); auto using set_favored_id).
    rewrite Eb, <- Hq, <- Hp. now destruct s.
  - assert (E1 : zsum is_fav buf = queued_favored s + 1).
    { subst buf. rewrite (zsum_alter _ _ _ _ _ Hw), Hq. unfold is_fav. rewrite Ef. cbn. lia. }
    assert (E2 : zsum is_pending_fav buf = pending_favored s + b2z (negb (was_fuzzed top))).
    { subst buf. rewrite (zsum_alter _ _ _ _ _ Hw), Hp. unfold is_pending_fav. rewrite Ef.
      cbn. destruct (was_fuzzed top); cbn; lia. }
    assert (Hl : length buf = length (queue_buf s)) by (subst buf; apply length_alter).
    pose proof (zsum_count_bound favored buf) as B1. fold is_fav in B1.
    pose proof (zsum_count_bound (fun q => favored q && negb (was_fuzzed q)) buf) as B2.
    change (zsum is_fav buf <= Z.of_nat (length buf)) in B1.
    change (zsum is_pending_fav buf <= Z.of_nat (length buf)) in B2.
    pose proof (zsum_count_nonneg favored (queue_buf s)) as C1.
    change (0 <= zsum is_fav (queue_buf s)) in C1.
    pose proof (zsum_count_nonneg (fun q => favored q && negb (was_fuzzed q)) (queue_buf s)) as C2.
    change (0 <= zsum is_pending_fav (queue_buf s)) in C2.
    rewrite E1, E2. cbn [set_map_tmp_buf queued_favored upd set_queue_buf set_queued_favored pending_favored].
    rewrite (uwrap_id 32 (queued_favored s + 1)) by lia.
    destruct (was_fuzzed top); cbn [b2z negb] in *.
    + rewrite Z.add_0_r. destruct s; reflexivity.
    + rewrite uwrap_id by lia. destruct s; reflexivity.
Qed.

Lemma favored_at_alter buf w v top :
  buf !! w = Some top ->
  favored_at (alter (set_favored true) w buf) v <-> favored_at buf v \/ v = w.
Proof.
  intros Hw. unfold favored_at. destruct (decide (v = w)) as [->|Hne].
  - rewrite lookup_alter_eq, Hw. split; [auto|]. intros _. eexists; split; [reflexivity|done].
  - rewrite lookup_alter_ne by done. tauto.
Qed.

Lemma lost_alter buf mx w top tr k :
  buf !! w = Some top -> trace_mini top = Some tr ->
  lost_by_favored (alter (set_favored true) w buf) mx k
  <-> lost_by_favored buf mx k \/ gone tr mx k = true.
Proof.
  intros Hw Htr. unfold lost_by_favored. split.
  - intros (v & q & t & Hv & Hf & Ht & Hg). destruct (decide (w = v)) as [<-|Hne].
    + rewrite lookup_alter_eq, Hw in Hv. apply (inj Some) in Hv as <-. cbn in Ht.
      right. congruence.
    + rewrite lookup_alter_ne in Hv by done. left. eauto 10.
  - intros [(v & q & t & Hv & Hf & Ht & Hg)|Hg].
    + destruct (decide (w = v)) as [<-|Hne].
      * exists w, (set_favored true top), tr. rewrite lookup_alter_eq, Hw.
        rewrite Hw in Hv. apply (inj Some) in Hv as <-. repeat split; try done. congruence.
      * exists v, q, t. rewrite lookup_alter_ne by done. auto.
    + exists w, (set_favored true top), tr. rewrite lookup_alter_eq, Hw. auto.
Qed.

Lemma cull_inv_mark a0 mx i s w top tr temp :
  queue_wf a0 -> cull_inv a0 mx i s -> top_rated a0 !! i = Some (Some w) ->
  queue_buf s !! w = Some top -> trace_mini top = Some tr ->
  length temp = length (map_tmp_buf s) ->
  (forall k, mini_bit temp k
    = mini_bit (map_tmp_buf s) k && negb ((k <? 8 * mini_len a0)%nat && gone tr mx k)) ->
  cull_inv a0 mx (S i) (mark_favored s w temp top).
Proof.
  intros Hwf [Cb Cr Cl Ck Cf Cd Cq Cp] Hi Hw Htr Hlen Hbit.
  assert (Hn : length (queue_buf s) = length (queue_buf a0)).
  { apply (f_equal length) in Cb. now rewrite !length_map in Cb. }
  rewrite (mark_favored_fields s w temp top Hw) by (try done; rewrite Hn; apply (qw_max a0 Hwf)).
  cbv zeta. set (buf := alter (set_favored true) w (queue_buf s)).
  split; cbn [queue_buf set_queue_buf map_tmp_buf set_map_tmp_buf queued_favored set_queued_favored
              pending_favored set_pending_favored]; try done.
  - subst buf. rewrite map_alter_same; done.
  - rewrite Cr at 1. destruct a0; reflexivity.
  - congruence.
  - intros k Hk. subst buf. rewrite (lost_alter _ _ _ _ _ _ Hw Htr), <- Ck, Hbit by done.
    rewrite (proj2 (Nat.ltb_lt _ _) Hk). simpl.
    destruct (mini_bit (map_tmp_buf s) k), (gone tr mx k); simpl; intuition congruence.
  - intros v Hv. subst buf. rewrite (favored_at_alter _ _ _ _ Hw) in Hv. destruct Hv as [Hv| ->]; eauto.
  - intros j v Hj Htop. subst buf. rewrite (favored_at_alter _ _ _ _ Hw).
    destruct (decide (j = i)) as [->|]; [rewrite Hi in Htop; right; right; congruence|].
    destruct (Cd j v ltac:(lia) Htop) as [Hz|Hf]; [|auto]. left. rewrite Hbit, Hz. done.
Qed.

Lemma cull_inv_skip a0 mx i s :
  cull_inv a0 mx i s ->
  (forall w, top_rated a0 !! i = Some (Some w) -> mini_bit (map_tmp_buf s) i = false) ->
  cull_inv a0 mx (S i) s.
Proof.
  intros [Cb Cr Cl Ck Cf Cd Cq Cp] Hz. split; auto.
  intros j w Hj Htop. destruct (decide (j = i)) as [->|]; [eauto|]. apply Cd; [lia|done].
Qed.

(** One iteration never faults: a top-rated entry has a compact trace, and so
    does the matrix. *)
Lemma cull_slot_spec a0 m mx i s :
  queue_wf a0 -> (forall q, queue_buf a0 !! m = Some q -> trace_mini q = Some mx) ->
  (m < length (queue_buf a0))%nat -> length mx = mini_len a0 ->
  (i < Z.to_nat (map_size (acov a0)))%nat -> cull_inv a0 mx i s ->
  exists s', cull_slot m (mini_len a0) s i = Ok s' /\ cull_inv a0 mx (S i) s'.
Proof.
  intros Hwf Hmx Hm Hlmx Hi Hinv. pose proof Hinv as [Cb Cr Cl Ck Cf Cd Cq Cp].
  assert (Etop : top_rated s = top_rated a0) by (rewrite Cr; reflexivity).
  assert (Hn : length (queue_buf s) = length (queue_buf a0)).
  { apply (f_equal length) in Cb. now rewrite !length_map in Cb. }
  rewrite cull_slot_eq, Etop.
  destruct (rd_lt (top_rated a0) i) as (slot & -> & Hslot). { now rewrite (qw_tops a0 Hwf). }
  cbn [mbind res_bind]. destruct slot as [w|].
  2: { exists s. split; [done|]. apply cull_inv_skip; [done|]. intros w. rewrite Hslot. discriminate. }
  destruct (rd_lt (map_tmp_buf s) (i / 8)) as (v & -> & Hv).
  { rewrite Cl. apply Nat.Div0.div_lt_upper_bound; lia. }
  cbn [mbind res_bind]. rewrite bit_test.
  assert (Ebit : mini_bit (map_tmp_buf s) i = Z.testbit v (Z.of_nat (i mod 8)))
    by (unfold mini_bit; now rewrite (nth_lookup_Some _ _ _ _ Hv)).
  destruct (Z.testbit v (Z.of_nat (i mod 8))); cbn [negb].
  2: { exists s. split; [done|]. apply cull_inv_skip; auto. }
  assert (Hw : (w < length (queue_buf s))%nat) by (rewrite Hn; eapply qw_valid; eauto).
  rewrite <- Hn in Hm. destruct (rd_lt _ _ Hw) as (top & Et & Htop), (rd_lt _ _ Hm) as (matrix & Em & Hmat).
  unfold deref. rewrite Et. cbn [mbind res_bind]. rewrite Em. cbn [mbind res_bind].
  destruct (unfav_lookup _ _ _ _ Cb Htop) as (top0 & Htop0 & Ec).
  destruct (unfav_lookup _ _ _ _ Cb Hmat) as (mat0 & Hmat0 & Ecm).
  apply unfav_trace in Ec as [Ec _], Ecm as [Ecm _].
  destruct (qw_refs a0 Hwf w top0 Htop0) as [Href Hmini Hlen].
  destruct Hmini as [tr Htr]. { pose proof (occ_pos _ _ _ Hslot). lia. }
  rewrite Ec, Ecm, Htr, (Hmx _ Hmat0).
  assert (Hml : (8 * mini_len a0 <= Z.to_nat (map_size (acov a0)))%nat).
  { unfold mini_len. pose proof (wf_real _ (qw_cov a0 Hwf)). rewrite Z.shiftr_div_pow2 by lia.
    change (2 ^ 3) with 8. dlia. }
  destruct (cull_bits_spec (mini_len a0) tr mx (map_tmp_buf s)) as (temp & -> & Hlt & Hbit).
  { rewrite (Hlen tr Htr). done. } { lia. } { lia. }
  cbn [mbind res_bind]. eexists. split; [done|].
  eapply cull_inv_mark; eauto. congruence.
Qed.

Lemma cull_slots_spec a0 m mx n i s :
  queue_wf a0 -> (forall q, queue_buf a0 !! m = Some q -> trace_mini q = Some mx) ->
  (m < length (queue_buf a0))%nat -> length mx = mini_len a0 ->
  (i + n <= Z.to_nat (map_size (acov a0)))%nat -> cull_inv a0 mx i s ->
  exists s', rfold (cull_slot m (mini_len a0)) s (seq i n) = Ok s' /\ cull_inv a0 mx (i + n) s'.
Proof.
  intros Hwf Hmx Hm Hl. revert i s; induction n as [|n IH]; intros i s Hi Hinv; simpl.
  { exists s. now rewrite Nat.add_0_r. }
  destruct (cull_slot_spec a0 m mx i s) as (s1 & -> & Hinv1); auto; [lia|].
  cbn [mbind res_bind]. destruct (IH (S i) s1) as (s' & E & H); [lia|done|].
  exists s'. split; [exact E|]. now replace (i + S n)%nat with (S i + n)%nat by lia.
Qed.

(** ** The redundant_edges directory *)

(** Base names identify the entries. *)
Definition names_ok (buf : list queue_entry) : Prop :=
  (forall p q, buf !! p = Some q -> is_Some (after_slash (fname q))) /\
  (forall p p' q q', buf !! p = Some q -> buf !! p' = Some q' ->
     after_slash (fname q) = after_slash (fname q') -> p = p').

(** The directory holds the names of the entries flagged in memory. *)
Definition dir_ok (buf : list queue_entry) (d : dir) : Prop :=
  forall p q fn, buf !! p = Some q -> after_slash (fname q) = Some fn ->
    fn ∈ d <-> fs_redundant q = true.

Lemma dir_ok_upd buf d d' p q fn st :
  names_ok buf -> dir_ok buf d -> buf !! p = Some q -> after_slash (fname q) = Some fn ->
  (fn ∈ d' <-> st = true) -> (forall g, g <> fn -> g ∈ d' <-> g ∈ d) ->
  dir_ok (alter (set_fs_redundant st) p buf) d'.
Proof.
  intros [_ Hinj] Hd Hq Hfn Hthis Hother v x g Hx Hg. destruct (decide (p = v)) as [<-|Hne].
  - rewrite lookup_alter_eq, Hq in Hx. apply (inj Some) in Hx as <-. cbn in Hg |- *.
    rewrite Hfn in Hg. apply (inj Some) in Hg as <-. exact Hthis.
  - rewrite lookup_alter_ne in Hx by done.
    assert (g <> fn) by (intros ->; apply Hne; eapply Hinj; eauto; congruence).
    rewrite Hother by done. eauto.
Qed.

Lemma mark_as_redundant_spec a p q st :
  names_ok (queue_buf a) -> dir_ok (queue_buf a) (redundant_edges a) -> queue_buf a !! p = Some q ->
  exists d, mark_as_redundant a p st = Ok (set_redundant_edges d (upd p (set_fs_redundant st) a)) /\
            dir_ok (alter (set_fs_redundant st) p (queue_buf a)) d.
Proof.
  intros Hn Hd Hq. destruct (proj1 Hn p q Hq) as [fn Hfn].
  pose proof (Hd p q fn Hq Hfn) as Hin.
  unfold mark_as_redundant, deref. rewrite (proj2 (rd_ok _ _ _) Hq). cbn [mbind res_bind].
  case_bool_decide as Est.
  - exists (redundant_edges a). subst st.
    assert (E : alter (set_fs_redundant (fs_redundant q)) p (queue_buf a) = queue_buf a)
      by (apply (alter_id_at _ _ _ q); [done|now destruct q]).
    unfold upd. rewrite E. split; [now destruct a|done].
  - unfold base_name. rewrite (proj2 (ptr_ok _ _) Hfn). cbn [mbind res_bind].
    change (redundant_edges (upd p (set_fs_redundant st) a)) with (redundant_edges a).
    destruct st.
    + unfold fs_create. rewrite decide_False.
      2: { rewrite Hin. intros E. apply Est. congruence. }
      cbn [mbind res_bind]. eexists. split; [done|].
      eapply dir_ok_upd; eauto; [|intros g Hg]; rewrite elem_of_union, elem_of_singleton; tauto.
    + unfold fs_unlink. rewrite decide_True.
      2: { rewrite Hin. destruct (fs_redundant q); congruence. }
      cbn [mbind res_bind]. eexists. split; [done|].
      eapply dir_ok_upd; eauto; [|intros g Hg];
        rewrite elem_of_difference, elem_of_singleton; intuition congruence.
Qed.

(** The marking loop, before its iteration [i]. *)
Record mark_inv (a0 : afl) (i : nat) (s : afl) : Prop := {
  mi_buf : map (set_fs_redundant false) (queue_buf s) = map (set_fs_redundant false) (queue_buf a0);
  mi_rest : s = set_redundant_edges (redundant_edges s) (set_queue_buf (queue_buf s) a0);
  mi_dir : dir_ok (queue_buf s) (redundant_edges s);
  mi_done p q : (p < i)%nat -> queue_buf s !! p = Some q -> disabled q = false ->
    fs_redundant q = negb (favored q)
}.

Lemma names_ok_map {B} (f : queue_entry -> B) buf buf' :
  (forall q q', f q' = f q -> fname q' = fname q) -> map f buf' = map f buf ->
  names_ok buf -> names_ok buf'.
Proof.
  intros Hf E [H1 H2].
  assert (Hl : forall p q', buf' !! p = Some q' -> exists q, buf !! p = Some q /\ fname q' = fname q).
  { intros p q' H. assert (Hm : map f buf !! p = Some (f q'))
      by (rewrite <- E, list_lookup_fmap, H; reflexivity).
    rewrite list_lookup_fmap in Hm. destruct (buf !! p) as [q|]; [|discriminate].
    apply (inj Some) in Hm. exists q. auto. }
  split.
  - intros p q Hq. destruct (Hl p q Hq) as (q0 & Hq0 & ->). eauto.
  - intros p p' q q' Hq Hq'. destruct (Hl p q Hq) as (q0 & Hq0 & ->), (Hl p' q' Hq') as (q0' & Hq0' & ->).
    eauto.
Qed.

Lemma cull_mark_spec a0 i s :
  names_ok (queue_buf a0) -> (i < length (queue_buf a0))%nat -> mark_inv a0 i s ->
  exists s', cull_mark s i = Ok s' /\ mark_inv a0 (S i) s'.
Proof.
  intros Hn Hi [Mb Mr Md Mdone].
  assert (Hl : length (queue_buf s) = length (queue_buf a0)).
  { apply (f_equal length) in Mb. now rewrite !length_map in Mb. }
  rewrite <- Hl in Hi. destruct (rd_lt _ _ Hi) as (q & Eq & Hq).
  unfold cull_mark, deref. rewrite Eq. cbn [mbind res_bind]. destruct (disabled q) eqn:Ed.
  - exists s. split; [done|]. split; auto. intros p x Hp Hx Hdis.
    destruct (decide (p = i)) as [->|]; [congruence|]. apply (Mdone p); [lia|done|done].
  - assert (Hns : names_ok (queue_buf s)).
    { eapply (names_ok_map (set_fs_redundant false)); [|exact Mb|done].
      intros x y E. exact (f_equal fname E). }
    destruct (mark_as_redundant_spec s i q (negb (favored q)) Hns Md Hq) as (d & -> & Hd').
    eexists. split; [done|].
    split; cbn [queue_buf set_redundant_edges redundant_edges upd set_queue_buf]; auto.
    + rewrite map_alter_same; done.
    + rewrite Mr at 1. now destruct a0.
    + intros p x Hp Hx Hdis. destruct (decide (i = p)) as [->|Hne].
      * rewrite lookup_alter_eq, Hq in Hx. apply (inj Some) in Hx as <-. done.
      * rewrite lookup_alter_ne in Hx by done. apply (Mdone p); [lia|done|done].
Qed.

Lemma cull_marks_spec a0 n i s :
  names_ok (queue_buf a0) -> (i + n <= length (queue_buf a0))%nat -> mark_inv a0 i s ->
  exists s', rfold cull_mark s (seq i n) = Ok s' /\ mark_inv a0 (i + n) s'.
Proof.
  intros Hn. revert i s; induction n as [|n IH]; intros i s Hi Hinv; simpl.
  { exists s. now rewrite Nat.add_0_r. }
  destruct (cull_mark_spec a0 i s) as (s1 & -> & Hinv1); auto; [lia|].
  cbn [mbind res_bind]. destruct (IH (S i) s1) as (s' & E & H); [lia|done|].
  exists s'. split; [exact E|]. now replace (i + S n)%nat with (S i + n)%nat by lia.
Qed.

(** ** [cull_queue] *)

(** The state at the head of the loop over the tuples. *)
Definition cull_start (a : afl) : afl :=
  unfavor_all (set_pending_favored 0 (set_queued_favored 0
    (set_map_tmp_buf (replicate (mini_len a) 255 ++ drop (mini_len a) (map_tmp_buf a))
      (set_score_changed false a)))).

Lemma cull_start_wf a : queue_wf a -> queue_wf (cull_start a).
Proof.
  intros Hwf. pose proof (wf_real _ (qw_cov a Hwf)) as Hr. pose proof (qw_tmp a Hwf) as Htmp.
  pose proof Hwf as []; split; unfold cull_start, mini_len in *; cbn in *; rewrite ?length_map; auto.
  - intros p q Hq. rewrite list_lookup_fmap in Hq.
    destruct (queue_buf a !! p) as [q0|] eqn:E; [|discriminate]. apply (inj Some) in Hq as <-.
    destruct (qw_refs p q0 E). split; auto.
  - intros p q Hq. rewrite list_lookup_fmap in Hq.
    destruct (queue_buf a !! p) as [q0|] eqn:E; [|discriminate]. apply (inj Some) in Hq as <-. cbn. eauto.
  - rewrite length_app, length_replicate, length_drop, Htmp.
    rewrite Z.shiftr_div_pow2 by lia. change (2 ^ 3) with 8. dlia.
Qed.

Lemma zsum_unfav f buf :
  (forall q, f (set_favored false q) = 0) -> zsum f (map (set_favored false) buf) = 0.
Proof.
  intros Hf. induction buf as [|q buf IH]; [done|]. unfold zsum in *. cbn [map foldr].
  rewrite Hf, IH. done.
Qed.

Lemma mini_bit_ones n l k : (k < 8 * n)%nat -> mini_bit (replicate n 255 ++ l) k = true.
Proof.
  intros Hk. unfold mini_bit. assert (k / 8 < n)%nat by (apply Nat.Div0.div_lt_upper_bound; lia).
  rewrite app_nth1, nth_replicate_lt by (rewrite ?length_replicate; done).
  pose proof (Nat.mod_upper_bound k 8 ltac:(lia)).
  change 255 with (Z.ones 8). apply Z.ones_spec_low. lia.
Qed.

Lemma unfav_none buf w : ~ favored_at (map (set_favored false) buf) w.
Proof.
  intros (q & Hq & Hf). rewrite list_lookup_fmap in Hq. destruct (buf !! w); [|discriminate].
  apply (inj Some) in Hq as <-. discriminate.
Qed.

Lemma cull_start_inv a mx : queue_wf a -> cull_inv (cull_start a) mx 0 (cull_start a).
Proof.
  intros Hwf. split; [done|now destruct a|..].
  - exact (qw_tmp _ (cull_start_wf a Hwf)).
  - intros k Hk. unfold cull_start at 1. cbn [map_tmp_buf unfavor_all set_queue_buf set_pending_favored
      set_queued_favored set_map_tmp_buf]. rewrite mini_bit_ones by done. split; [done|].
    intros (w & q & tr & Hq & Hf & _). exfalso. apply (unfav_none (queue_buf a) w).
    exists q. split; [exact Hq|exact Hf].
  - intros w Hw. exfalso. exact (unfav_none _ _ Hw).
  - intros j w Hj. lia.
  - symmetry. apply zsum_unfav. done.
  - symmetry. apply zsum_unfav. done.
Qed.

(** An entry of the culled queue is the old one up to its two flags. *)
Definition unflag (q : queue_entry) : queue_entry := set_fs_redundant false (set_favored false q).

Lemma map_unflag (s s' a : afl) :
  map (set_fs_redundant false) (queue_buf s') = map (set_fs_redundant false) (queue_buf s) ->
  map (set_favored false) (queue_buf s) = map (set_favored false) (queue_buf a) ->
  map unflag (queue_buf s') = map unflag (queue_buf a).
Proof.
  intros E1 E2.
  assert (H : forall l, map unflag l = map (set_favored false) (map (set_fs_redundant false) l))
    by (intros l; now rewrite map_map).
  assert (H' : forall l, map unflag l = map (set_fs_redundant false) (map (set_favored false) l))
    by (intros l; now rewrite map_map).
  now rewrite H, E1, <- H, H', E2, <- H'.
Qed.

Lemma unflag_wf a a' :
  queue_wf a -> map unflag (queue_buf a') = map unflag (queue_buf a) ->
  acov a' = acov a -> top_rated a' = top_rated a -> queued_items a' = queued_items a ->
  n_fuzz a' = n_fuzz a -> length (map_tmp_buf a') = length (map_tmp_buf a) -> queue_wf a'.
Proof.
  intros Hwf E Ec Et Ei En Em.
  assert (Hlen : length (queue_buf a') = length (queue_buf a)).
  { apply (f_equal length) in E. now rewrite !length_map in E. }
  assert (Hl : forall p q', queue_buf a' !! p = Some q' ->
    exists q, queue_buf a !! p = Some q /\ unflag q' = unflag q).
  { intros p q' H. assert (Hm : map unflag (queue_buf a) !! p = Some (unflag q'))
      by (rewrite <- E, list_lookup_fmap, H; reflexivity).
    rewrite list_lookup_fmap in Hm. destruct (queue_buf a !! p) as [q|]; [|discriminate].
    apply (inj Some) in Hm. eauto. }
  destruct Hwf; split; unfold mini_len, testcase_matrix_of in *; rewrite ?Ec, ?Et, ?Ei, ?En, ?Em, ?Hlen; auto.
  - intros p q' Hq'. destruct (Hl p q' Hq') as (q & Hq & Eu). destruct (qw_refs p q Hq).
    assert (E1 : tc_ref q' = tc_ref q) by exact (f_equal tc_ref Eu).
    assert (E2 : trace_mini q' = trace_mini q) by exact (f_equal trace_mini Eu).
    split; rewrite ?E1, ?E2; auto.
  - intros p q' Hq'. destruct (Hl p q' Hq') as (q & Hq & Eu).
    assert (E1 : n_fuzz_entry q' = n_fuzz_entry q) by exact (f_equal n_fuzz_entry Eu).
    rewrite E1. eauto.
Qed.

Lemma favored_at_mark a0 i s w :
  mark_inv a0 i s -> favored_at (queue_buf s) w <-> favored_at (queue_buf a0) w.
Proof.
  intros [Mb _ _ _].
  assert (H : forall b1 b2, map (set_fs_redundant false) b1 = map (set_fs_redundant false) b2 ->
                favored_at b1 w -> favored_at b2 w).
  { intros b1 b2 E (q & Hq & Hf). assert (Hm : map (set_fs_redundant false) b2 !! w = Some (set_fs_redundant false q))
      by (rewrite <- E, list_lookup_fmap, Hq; reflexivity).
    rewrite list_lookup_fmap in Hm. destruct (b2 !! w) as [q2|] eqn:E2; [|discriminate].
    apply (inj Some) in Hm. exists q2. split; [done|].
    rewrite <- Hf. exact (f_equal favored Hm). }
  split; apply H; auto.
Qed.

Lemma lost_mark a0 i s mx k :
  mark_inv a0 i s -> lost_by_favored (queue_buf a0) mx k -> lost_by_favored (queue_buf s) mx k.
Proof.
  intros [Mb _ _ _] (w & q & tr & Hq & Hf & Ht & Hg).
  assert (Hm : map (set_fs_redundant false) (queue_buf s) !! w = Some (set_fs_redundant false q))
    by (rewrite Mb, list_lookup_fmap, Hq; reflexivity).
  rewrite list_lookup_fmap in Hm. destruct (queue_buf s !! w) as [q2|] eqn:E2; [|discriminate].
  apply (inj Some) in Hm. exists w, q2, tr. split; [done|].
  split; [rewrite <- Hf; exact (f_equal favored Hm)|].
  split; [rewrite <- Ht; exact (f_equal trace_mini Hm)|done].
Qed.

Lemma cull_queue_eq a m :
  testcase_matrix_of a = Some m -> score_changed a = true -> non_instrumented_mode a = false ->
  cull_queue a
  = (s ← rfold (cull_slot m (mini_len a)) (cull_start a) (seq 0 (Z.to_nat (map_size (acov a))));
     rfold cull_mark s (seq 0 (Z.to_nat (queued_items s)))).
Proof. intros Hm Hs Hn. unfold cull_queue. rewrite Hm, Hs, Hn. reflexivity. Qed.

(** The two loops in turn. *)
Lemma cull_queue_run a m qm mx :
  queue_wf a -> testcase_matrix_of a = Some m -> queue_buf a !! m = Some qm ->
  trace_mini qm = Some mx -> names_ok (queue_buf a) ->
  dir_ok (queue_buf a) (redundant_edges a) ->
  score_changed a = true -> non_instrumented_mode a = false ->
  exists s a', cull_queue a = Ok a' /\
    cull_inv (cull_start a) mx (Z.to_nat (map_size (acov a))) s /\
    mark_inv s (length (queue_buf s)) a' /\
    map (set_favored false) (queue_buf s) = map (set_favored false) (queue_buf a).
Proof.
  intros Hwf Hm Hqm Hmx Hn Hd Hsc Hni.
  pose proof (cull_start_wf a Hwf) as Hwf0. rewrite (cull_queue_eq a m) by done.
  assert (Hmlen : length mx = mini_len a) by (eapply eo_len; [exact (qw_refs a Hwf m qm Hqm)|done]).
  assert (Hm0 : (m < length (queue_buf (cull_start a)))%nat).
  { cbn. rewrite length_map. eapply lookup_lt_Some; eauto. }
  assert (Hmx0 : forall q, queue_buf (cull_start a) !! m = Some q -> trace_mini q = Some mx).
  { intros q Hq. cbn in Hq. rewrite list_lookup_fmap, Hqm in Hq. apply (inj Some) in Hq as <-. exact Hmx. }
  destruct (cull_slots_spec (cull_start a) m mx (Z.to_nat (map_size (acov a))) 0 (cull_start a)
    Hwf0 Hmx0 Hm0 Hmlen ltac:(done) (cull_start_inv a mx Hwf)) as (s & Es & Hinv).
  change (mini_len (cull_start a)) with (mini_len a) in Es. rewrite Es. cbn [mbind res_bind].
  pose proof Hinv as [Cb Cr _ _ _ _ _ _].
  assert (Hb0 : map (set_favored false) (queue_buf s) = map (set_favored false) (queue_buf a)).
  { rewrite Cb. cbn. now rewrite map_map. }
  assert (Hns : names_ok (queue_buf s)).
  { eapply (names_ok_map (set_favored false)); [|exact Hb0|done]. intros x y E. exact (f_equal fname E). }
  assert (Hds : dir_ok (queue_buf s) (redundant_edges s)).
  { intros p q fn Hq Hfn. destruct (unfav_lookup _ _ _ _ Hb0 Hq) as (q0 & Hq0 & E).
    replace (redundant_edges s) with (redundant_edges a) by (rewrite Cr; done).
    rewrite (Hd p q0 fn Hq0) by (rewrite <- Hfn; symmetry; exact (f_equal (fun x => after_slash (fname x)) E)).
    assert (Ef : fs_redundant q = fs_redundant q0) by exact (f_equal fs_redundant E). now rewrite Ef. }
  assert (Hi0 : mark_inv s 0 s) by (split; [done|now destruct s|done|lia]).
  destruct (cull_marks_spec s (length (queue_buf s)) 0 s Hns ltac:(done) Hi0) as (a' & Ea & Hmi).
  exists s, a'. split; [|auto].
  replace (queued_items s) with (queued_items a) by (rewrite Cr; done). rewrite (qw_items a Hwf), Nat2Z.id.
  replace (length (queue_buf a)) with (length (queue_buf s)); [exact Ea|].
  apply (f_equal length) in Hb0. now rewrite !length_map in Hb0.
Qed.

(** C25: [cull_queue] selects the favored entries in IgorFuzz's sense.  On a well-formed state whose matrix has its compact trace it
    returns without a fault or a failed file operation, and afterwards: every
    tuple with a top-rated entry either has that entry favored, or is a tuple
    the matrix hits and some favored entry does not; only top-rated entries
    are favored; [queued_favored] and [pending_favored] count the favored and
    the favored unfuzzed entries; every enabled entry is flagged redundant
    exactly when it is not favored, and the redundant_edges directory holds
    the names of the flagged entries; the invariant of the table is kept and a
    second call changes nothing. *)
Theorem cull_queue_correct a m qm mx :
  queue_wf a -> testcase_matrix_of a = Some m -> queue_buf a !! m = Some qm ->
  trace_mini qm = Some mx -> names_ok (queue_buf a) ->
  dir_ok (queue_buf a) (redundant_edges a) ->
  score_changed a = true -> non_instrumented_mode a = false ->
  exists a', cull_queue a = Ok a' /\
    (forall j w, top_rated a !! j = Some (Some w) -> (j < 8 * mini_len a)%nat ->
       favored_at (queue_buf a') w \/ lost_by_favored (queue_buf a') mx j) /\
    (forall w, favored_at (queue_buf a') w -> exists j, top_rated a !! j = Some (Some w)) /\
    queued_favored a' = zsum is_fav (queue_buf a') /\
    pending_favored a' = zsum is_pending_fav (queue_buf a') /\
    (forall p q, queue_buf a' !! p = Some q -> disabled q = false ->
       fs_redundant q = negb (favored q)) /\
    dir_ok (queue_buf a') (redundant_edges a') /\
    queue_wf a' /\ cull_queue a' = Ok a'.
Proof.
  intros Hwf Hm Hqm Hmx Hn Hd Hsc Hni.
  destruct (cull_queue_run a m qm mx) as (s & a' & E & [Cb Cr Cl Ck Cf Cd Cq Cp] & Hmi & Hb0); try done.
  pose proof Hmi as [Mb Mr Md Mdone].
  assert (Hsame : acov a' = acov a /\ top_rated a' = top_rated a /\ queued_items a' = queued_items a /\
    n_fuzz a' = n_fuzz a /\ map_tmp_buf a' = map_tmp_buf s /\ score_changed a' = false /\
    queued_favored a' = queued_favored s /\ pending_favored a' = pending_favored s)
    by (rewrite Mr; repeat split; rewrite Cr; reflexivity).
  destruct Hsame as (Sc & St & Si & Sn & Sm & Ssc & Sq & Sp).
  exists a'. split; [exact E|]. split.
  { intros j w Hj Hjn. rewrite (favored_at_mark s _ a' w Hmi).
    destruct (Cd j w) as [Hz|Hf]; [|exact Hj| |now left].
    { rewrite <- (qw_tops a Hwf). eapply lookup_lt_Some; eauto. }
    right. eapply lost_mark; [exact Hmi|]. apply Ck; [exact Hjn|exact Hz]. }
  split. { intros w Hw. rewrite (favored_at_mark s _ a' w Hmi) in Hw. exact (Cf w Hw). }
  split. { rewrite Sq, Cq. eapply zsum_map_same; [|symmetry; exact Mb].
    intros x y Exy. exact (f_equal is_fav Exy). }
  split. { rewrite Sp, Cp. eapply zsum_map_same; [|symmetry; exact Mb].
    intros x y Exy. exact (f_equal is_pending_fav Exy). }
  split. { intros p q Hq. apply (Mdone p); [|done]. apply (f_equal length) in Mb.
    rewrite !length_map in Mb. rewrite <- Mb. eapply lookup_lt_Some; eauto. }
  split; [exact Md|]. split.
  - apply (unflag_wf a a' Hwf); auto; [eapply map_unflag; eauto|].
    rewrite Sm, Cl, (qw_tmp a Hwf). reflexivity.
  - unfold cull_queue, testcase_matrix_of in *. rewrite Sc, Hm, Ssc. done.
Qed.

(** The matrix's state directory starts out empty. *)
Definition afl1 : afl :=
  match update_bitmap_score afl0 0 with Ok a => a | Err _ => afl0 end.

Lemma cull_queue_correct_witness :
  queue_wf afl1 /\ exists a', cull_queue afl1 = Ok a' /\ queue_wf a' /\ queued_favored a' = 1 /\
    map favored (queue_buf a') = [true; false].
Proof.
  assert (Hwf : queue_wf afl1).
  { destruct (update_bitmap_score_spec afl0 0 _ afl0_wf eq_refl) as (a' & E & _ & Hwf & _).
    unfold afl1. rewrite E. exact Hwf. }
  split; [exact Hwf|].
  assert (Hn : names_ok (queue_buf afl1)).
  { split.
    - intros [|[|p]] q Hq; vm_compute in Hq; try discriminate; injection Hq as <-; vm_compute; eauto.
    - intros [|[|p]] [|[|p']] q q' Hq Hq'; vm_compute in Hq, Hq'; try discriminate; try done;
        injection Hq as <-; injection Hq' as <-; vm_compute; discriminate. }
  assert (Hd : dir_ok (queue_buf afl1) (redundant_edges afl1)).
  { intros [|[|p]] q fn Hq Hfn; vm_compute in Hq; try discriminate; injection Hq as <-;
      (split; [intros Hin; exfalso; revert Hin; apply not_elem_of_empty | discriminate]). }
  assert (Hm : exists qm mx, queue_buf afl1 !! 0%nat = Some qm /\ trace_mini qm = Some mx)
    by (vm_compute; eauto).
  destruct Hm as (qm & mx & Hqm & Hmx).
  assert (Hmat : testcase_matrix_of afl1 = Some 0%nat) by (vm_compute; reflexivity).
  assert (Hsc : score_changed afl1 = true) by (vm_compute; reflexivity).
  assert (Hni : non_instrumented_mode afl1 = false) by (vm_compute; reflexivity).
  destruct (cull_queue_correct afl1 0 qm mx Hwf Hmat Hqm Hmx Hn Hd Hsc Hni)
    as (a' & E & _ & _ & Hq & _ & _ & _ & Hwf' & _).
  exists a'. split; [exact E|]. split; [exact Hwf'|]. rewrite Hq.
  assert (Hr : match cull_queue afl1 with Ok x => map favored (queue_buf x) | Err _ => [] end = [true; false])
    by (vm_compute; reflexivity).
  rewrite E in Hr. split; [|exact Hr].
  clear -Hr. destruct (queue_buf a') as [|q1 [|q2 []]]; try discriminate Hr.
  injection Hr as E1 E2. unfold zsum, is_fav. simpl. now rewrite E1, E2.
Defined.
