(* ===== verification/QueueAdd.v ===== *)
(** [add_to_queue]: what a new entry looks like, and that the queue stays
    well-formed.  [check_if_text], which it may call, always returns. *)

From S2P Require Import Prelude Words Arith Float State Bitmap Text Queue BitmapThms QueueScore.

(** ** [check_if_text] returns *)

Lemma text_step_comp l t n t' :
  l <> [] -> text_step l t = (n, t') ->
  (1 <= n <= length l)%nat /\ comp t' = comp t - (Z.of_nat n - 1).
Proof.
  intros Hl H. destruct l as [|x l]; [done|]. unfold text_step in H.
  destruct (plain_text _). { injection H as <- <-. simpl. lia. }
  cbv zeta in H.
  assert (Ec : comp (if ascii_or_print (at_ (x :: l) 0)
      then mkText (u32 (ascii t + 1)) (utf8 t) (comp t) else t) = comp t)
    by (destruct (ascii_or_print _); done).
  destruct (utf8_2 (x :: l)) eqn:E2.
  { injection H as <- <-. unfold utf8_2 in E2. rewrite !andb_true_iff, Z.ltb_lt in E2. cbn [comp]. rewrite Ec. lia. }
  destruct (utf8_3 (x :: l)) eqn:E3.
  { injection H as <- <-. unfold utf8_3 in E3. rewrite !andb_true_iff, Z.ltb_lt in E3. cbn [comp]. rewrite Ec. lia. }
  destruct (utf8_4 (x :: l)) eqn:E4.
  { injection H as <- <-. unfold utf8_4 in E4. rewrite !andb_true_iff, Z.ltb_lt in E4. cbn [comp]. rewrite Ec. lia. }
  injection H as <- <-. rewrite Ec. simpl. lia.
Qed.

Lemma text_scan_comp fuel l t t' :
  text_scan fuel l t = Ok t' ->
  comp t - Z.of_nat (length l) <= comp t' /\ (l <> [] -> comp t - Z.of_nat (length l) < comp t').
Proof.
  revert l t; induction fuel as [|f IH]; intros [|x l] t H; try (injection H as <-; split; [simpl; lia|done]);
    [discriminate|].
  rewrite text_scan_S in H. destruct (text_step (x :: l) t) as [n t1] eqn:Es.
  destruct (text_step_comp (x :: l) t n t1 ltac:(done) Es) as [Hn Hc].
  apply IH in H as [H _]. rewrite length_drop in H. split; [|intros _]; lia.
Qed.

(** The two percentages never divide by zero. *)
Lemma check_if_text_total read_file q :
  0 <= q_len q -> exists v, check_if_text read_file q = Ok v.
Proof.
  intros Hq. unfold check_if_text. destruct (_ || _) eqn:Eg; [eauto|].
  apply orb_false_iff in Eg as [_ Eg]. apply Z.ltb_ge in Eg. unfold AFL_TXT_MAX_LEN in Eg.
  destruct (read_file (fname q)) as [content|]; [|eauto].
  set (len := if MAX_FILE <=? q_len q then MAX_FILE - 1 else q_len q).
  assert (Hlen : 0 < len) by (subst len; unfold MAX_FILE; destruct (_ <=? _); lia).
  destruct (Z.eqb_spec (Z.of_nat (length (take (Z.to_nat len) content))) len) as [El|]; [|simpl; eauto].
  cbn [negb]. set (buf := take (Z.to_nat len) content) in *.
  destruct (text_scan_total (length buf) buf (mkText 0 0 len) ltac:(done)) as [t Et].
  rewrite Et. cbn [mbind res_bind]. unfold text_verdict.
  apply text_scan_comp in Et as [_ Et]. cbn [comp] in Et.
  assert (buf <> []) by (intros E; rewrite E in El; simpl in El; lia).
  rewrite (proj2 (Z.eqb_neq (comp t) 0)) by (specialize (Et ltac:(done)); lia).
  cbv zeta. repeat case_match; eauto.
Qed.

(** ** The new entry *)

(** What the queue and the new entry look like afterwards; the rest of the
    state, as far as the queue's invariant reads it, is unchanged. *)
Record entry_added (a a' : afl) (q : queue_entry) : Prop := {
  ea_buf : queue_buf a' = queue_buf a ++ [q];
  ea_items : queued_items a' = queued_items a + 1;
  ea_top : queue_top a' = Some (length (queue_buf a));
  ea_head : queue_head a' = match queue_top a with
                            | Some _ => queue_head a | None => Some (length (queue_buf a)) end;
  ea_active : active_items a' = u32 (active_items a + 1);
  ea_pending : pending_not_fuzzed a' = u32 (pending_not_fuzzed a + 1);
  ea_depth : max_depth a' = Z.max (max_depth a) (depth q);
  ea_splice : ready_for_splicing_count a'
    = if 4 <? q_len q then u32 (ready_for_splicing_count a + 1) else ready_for_splicing_count a;
  ea_finds : cycles_wo_finds a' = 0;
  ea_rest : acov a' = acov a /\ top_rated a' = top_rated a /\ n_fuzz a' = n_fuzz a /\
            map_tmp_buf a' = map_tmp_buf a /\ cmplog_mode a' = cmplog_mode a /\
            queue_cur a' = queue_cur a /\ syncing_party a' = syncing_party a
}.

Lemma link_entry_added a q :
  queue_wf a -> Z.of_nat (length (queue_buf a)) + 1 < 2 ^ 32 -> 0 <= depth q < 2 ^ 32 ->
  entry_added a (link_entry a q) q.
Proof.
  intros Hwf Hmax Hd. pose proof (qw_items a Hwf) as Hi.
  assert (Eu : u32 (queued_items a + 1) = queued_items a + 1) by (apply uwrap_id; lia).
  assert (Ep : Z.to_nat (queued_items a) = length (queue_buf a)) by lia.
  unfold link_entry. rewrite Ep, (uwrap_id 32 (depth q)) by done.
  split; destruct (Z.ltb_spec (max_depth a) (depth q)), (queue_top a) eqn:Et, (4 <? q_len q);
    repeat first [ rewrite firstn_all | rewrite Z.max_r by lia | rewrite Z.max_l by lia ];
    cbn; rewrite ?Et; cbn; rewrite ?firstn_all, ?Eu, ?Et; try done; try lia.
Qed.

Lemma note_find_time_added a b q t : entry_added a b q -> entry_added a (note_find_time b t) q.
Proof.
  intros H. unfold note_find_time.
  destruct (_ && _); [destruct (truthy (last_find_time b))|]; destruct H; split; assumption.
Qed.

Lemma alter_last {A} (f : A -> A) (l : list A) x : alter f (length l) (l ++ [x]) = l ++ [f x].
Proof. induction l as [|y l IH]; [done|]. simpl. f_equal. exact IH. Qed.

Lemma entry_added_ascii a b q v :
  entry_added a b q ->
  entry_added a (upd (length (queue_buf a)) (set_is_ascii v) b) (set_is_ascii v q).
Proof.
  intros [H1 H2 H3 H4 H5 H6 H7 H8 H9 H10]. split;
    [|exact H2|exact H3|exact H4|exact H5|exact H6|exact H7|exact H8|exact H9|exact H10].
  rewrite upd_queue_buf, H1. apply alter_last.
Qed.

Lemma entry_added_wf a a' q :
  queue_wf a -> Z.of_nat (length (queue_buf a)) + 1 < 2 ^ 32 -> (0 < length (n_fuzz a))%nat ->
  entry_added a a' q -> tc_ref q = 0 -> trace_mini q = None -> n_fuzz_entry q = 0 -> queue_wf a'.
Proof.
  intros Hwf Hmax Hn [Eb Ei _ _ _ _ _ _ _ (Ec & Et & En & Em & _)] Hr Hm Hf.
  pose proof Hwf as []. split; unfold mini_len, testcase_matrix_of in *; rewrite ?Ec, ?Et, ?En, ?Em, ?Eb, ?length_app; auto; simpl length.
  - lia.
  - lia.
  - intros i w H. apply qw_valid in H. lia.
  - intros m H. apply qw_matrix in H. lia.
  - intros p x Hx. apply lookup_app_Some in Hx as [Hx|[Hp Hx]]; [eauto|].
    assert (p - length (queue_buf a) = 0)%nat as E0.
    { apply lookup_lt_Some in Hx. simpl in Hx. lia. }
    rewrite E0 in Hx. injection Hx as <-.
    assert (Ho : occ p (top_rated a) = 0).
    { unfold occ. assert (Hz : forall s, s ∈ top_rated a -> b2z (bool_decide (s = Some p)) = 0).
      { intros s Hs. rewrite bool_decide_false; [done|]. intros ->.
        apply list_elem_of_lookup in Hs as [i Hi]. apply qw_valid in Hi. lia. }
      pose proof (zsum_bounds (fun s => b2z (bool_decide (s = Some p))) 0 0 (top_rated a)
        ltac:(intros s Hs; cbv beta; rewrite (Hz s Hs); lia)) as Hb. lia. }
    split; [now rewrite Ho|rewrite Ho; lia|rewrite Hm; discriminate].
  - intros p x Hx. apply lookup_app_Some in Hx as [Hx|[Hp Hx]]; [eauto|].
    assert (p - length (queue_buf a) = 0)%nat as E0.
    { apply lookup_lt_Some in Hx. simpl in Hx. lia. }
    rewrite E0 in Hx. injection Hx as <-. rewrite Hf. exact Hn.
Qed.

Lemma new_entry_fields a name len det :
  queue_wf a -> Z.of_nat (length (queue_buf a)) + 1 < 2 ^ 32 ->
  let q := new_entry a name len det in
  q_id q = Z.of_nat (length (queue_buf a)) /\ q_len q = len /\
  fname q = name /\ passed_det q = det /\ depth q = u32 (cur_depth a + 1) /\
  mother q = queue_cur a /\ was_fuzzed q = false /\ disabled q = false /\ tc_ref q = 0 /\
  trace_mini q = None /\ n_fuzz_entry q = 0 /\ is_ascii q = false /\ testcase_buf q = None.
Proof.
  intros Hwf Hmax. pose proof (qw_items a Hwf) as Hi. split; [|repeat split].
  cbn. rewrite (uwrap_id 32 (queued_items a + 1)) by lia. rewrite uwrap_id by lia. lia.
Qed.

Lemma note_text_added read_file a b q v :
  entry_added a b q -> check_if_text read_file q = Ok v -> is_ascii q = false ->
  note_text read_file b (length (queue_buf a))
  = Ok (if cmplog_mode a then upd (length (queue_buf a)) (set_is_ascii (truthy v)) b else b).
Proof.
  intros Hadd Ev Ha. unfold note_text, deref. rewrite (ea_buf _ _ _ Hadd).
  rewrite (proj2 (rd_ok _ _ _) (list_lookup_middle (queue_buf a) [] q _ eq_refl)).
  cbn [mbind res_bind]. destruct (ea_rest _ _ _ Hadd) as (_ & _ & _ & _ & -> & _).
  rewrite Ha, andb_true_r, Ev. now destruct (cmplog_mode a).
Qed.

(** The three steps together. *)
Lemma add_to_queue_spec read_file stat_size a name len det t :
  queue_wf a -> 0 <= len -> Z.of_nat (length (queue_buf a)) + 1 < 2 ^ 32 ->
  (0 < length (n_fuzz a))%nat ->
  exists a' q, add_to_queue read_file None stat_size a name len det t = Ok a' /\
    entry_added a a' q /\ queue_wf a' /\
    q_id q = Z.of_nat (length (queue_buf a)) /\ fname q = name /\ q_len q = len /\
    passed_det q = det /\ depth q = u32 (cur_depth a + 1) /\ mother q = queue_cur a /\
    was_fuzzed q = false /\ disabled q = false /\ tc_ref q = 0 /\ testcase_buf q = None /\
    (is_ascii q = true <-> cmplog_mode a = true /\
       exists v, check_if_text read_file (new_entry a name len det) = Ok v /\ v <> 0).
Proof.
  intros Hwf Hlen Hmax Hn. pose proof (qw_items a Hwf) as Hi.
  pose proof (note_find_time_added a _ _ t
    (link_entry_added a (new_entry a name len det) Hwf Hmax (uwrap_range 32 _ ltac:(lia)))) as Hadd.
  unfold add_to_queue. replace (Z.to_nat (queued_items a)) with (length (queue_buf a)) by lia.
  destruct (new_entry_fields a name len det Hwf Hmax) as (F1 & F2 & F).
  destruct (check_if_text_total read_file (new_entry a name len det)) as [v Ev]; [now rewrite F2|].
  revert Hadd F1 F2 F Ev. generalize (note_find_time (link_entry a (new_entry a name len det)) t) as b.
  generalize (new_entry a name len det) as q. intros q b Hadd F1 F2 (F3 & F4 & F5 & F6 & F7 & F8 & F9 & F10 & F11 & F12 & F13) Ev.
  cbn [notify_mutators mbind res_bind]. rewrite (note_text_added read_file a b q v Hadd Ev F12).
  destruct (cmplog_mode a).
  - exists (upd (length (queue_buf a)) (set_is_ascii (truthy v)) b), (set_is_ascii (truthy v) q).
    split; [reflexivity|]. pose proof (entry_added_ascii a b q (truthy v) Hadd) as Hadd'.
    split; [exact Hadd'|]. split; [apply (entry_added_wf a _ _ Hwf Hmax Hn Hadd'); [exact F9|exact F10|exact F11]|].
    cbn [q_id fname q_len passed_det depth mother was_fuzzed disabled tc_ref testcase_buf is_ascii set_is_ascii].
    do 10 (split; [assumption|]). rewrite truthy_true. split; [eauto|].
    intros (_ & v' & E & Hv). rewrite Ev in E. injection E as <-. exact Hv.
  - exists b, q. split; [reflexivity|]. split; [exact Hadd|].
    split; [apply (entry_added_wf a _ _ Hwf Hmax Hn Hadd); [exact F9|exact F10|exact F11]|].
    do 10 (split; [assumption|]). rewrite F12. split; [discriminate|]. intros [H _]. discriminate H.
Qed.

(** C30: [add_to_queue] appends one entry: it gets the next free index, carries
    the given name, length and determinism flag, one more than the current
    depth and the current entry as its mother; the counters, the head and top
    pointers and the maximal depth follow; the other entries and the
    top-rated table are untouched and the queue stays well-formed.  With
    CmpLog the new entry is tested for text, which cannot fail. *)
Theorem add_to_queue_correct read_file stat_size a name len det t :
  queue_wf a -> 0 <= len -> Z.of_nat (length (queue_buf a)) + 1 < 2 ^ 32 ->
  (0 < length (n_fuzz a))%nat ->
  exists a' q, add_to_queue read_file None stat_size a name len det t = Ok a' /\
    entry_added a a' q /\ queue_wf a' /\
    q_id q = Z.of_nat (length (queue_buf a)) /\ fname q = name /\ q_len q = len /\
    passed_det q = det /\ depth q = u32 (cur_depth a + 1) /\ mother q = queue_cur a /\
    was_fuzzed q = false /\ disabled q = false /\ tc_ref q = 0 /\ testcase_buf q = None /\
    (is_ascii q = true <-> cmplog_mode a = true /\
       exists v, check_if_text read_file (new_entry a name len det) = Ok v /\ v <> 0).
Proof. exact (add_to_queue_spec read_file stat_size a name len det t). Qed.

Lemma add_to_queue_correct_witness :
  queue_wf afl0 /\ exists a', add_to_queue (fun _ => None) None (fun _ => None) afl0 [0x2f; 99] 30 true 77 = Ok a' /\
    queue_wf a' /\ queued_items a' = 3.
Proof.
  split; [exact afl0_wf|].
  destruct (add_to_queue_correct (fun _ => None) (fun _ => None) afl0 [0x2f; 99] 30 true 77 afl0_wf
    ltac:(lia) ltac:(reflexivity) ltac:(simpl; lia)) as (a' & q & E & Ha & Hwf & _).
  exists a'. split; [exact E|]. split; [exact Hwf|]. exact (ea_items _ _ _ Ha).
Defined.
