(* ===== verification/Score.v ===== *)
(** Power schedules: [calculate_score] and [compute_weight] of
    [src/afl-fuzz-queue.c], in IEEE arithmetic. *)

From S2P Require Import Prelude Words Float State Bitmap Queue.

Definition POWER_BETA : Z := 1.
Definition MAX_FACTOR : Z := POWER_BETA * 32.

(** [perf_score *= c] for a [double] [c]: the product is converted back to
    [u32]. *)
Definition scale (perf_score : Z) (c : double) : res Z := d_to_u32 (dmul (dint perf_score) c).

(** [x > y] on a [double] and an integer, and the other way round. *)
Definition dgt_int (x : double) (y : Z) : bool := dlt (dint y) x.
Definition dlt_int (x : double) (y : Z) : bool := dlt x (dint y).

Definition avg_exec_us (a : afl) : Z :=
  let cal_cycles := u32 (total_cal_cycles a) in
  let cal_cycles := if cal_cycles =? 0 then 1 else cal_cycles in
  u32 (total_cal_us a / cal_cycles).

Definition avg_bitmap_size (a : afl) : Z :=
  let bitmap_entries := u32 (total_bitmap_entries a) in
  let bitmap_entries := if bitmap_entries =? 0 then 1 else bitmap_entries in
  u32 (total_bitmap_size a / bitmap_entries).

(** Execution speed, for the schedules before RARE. *)
Definition speed_score (a : afl) (q : queue_entry) : Z :=
  let avg := avg_exec_us a in
  if negb (sched_ge (sched a) RARE) && negb (fixed_seed a) then
    if dgt_int (dmul (dint (exec_us q)) (dlit 1 10)) avg then 10
    else if dgt_int (dmul (dint (exec_us q)) (dlit 1 4)) avg then 25
    else if dgt_int (dmul (dint (exec_us q)) (dlit 1 2)) avg then 50
    else if dgt_int (dmul (dint (exec_us q)) (dlit 3 4)) avg then 75
    else if u64 (exec_us q * 4) <? avg then 300
    else if u64 (exec_us q * 3) <? avg then 200
    else if u64 (exec_us q * 2) <? avg then 150
    else 100
  else 100.

(** Bitmap size: IgorFuzz favours the inputs with the smaller bitmap. *)
Definition bitmap_score (a : afl) (q : queue_entry) (perf_score : Z) : res Z :=
  let avg := avg_bitmap_size a in
  if dgt_int (dmul (dint (bitmap_size q)) (dlit 3 10)) avg then scale perf_score (dlit 1 4)
  else if dgt_int (dmul (dint (bitmap_size q)) (dlit 1 2)) avg then scale perf_score (dlit 1 2)
  else if dgt_int (dmul (dint (bitmap_size q)) (dlit 3 4)) avg then scale perf_score (dlit 3 4)
  else if u32 (bitmap_size q * 3) <? avg then Ok (u32 (perf_score * 3))
  else if u32 (bitmap_size q * 2) <? avg then Ok (u32 (perf_score * 2))
  else if dlt_int (dmul (dint (bitmap_size q)) (dlit 3 2)) avg then scale perf_score (dlit 3 2)
  else Ok perf_score.

(** Handicap: latecomers catch up.  The score and the new handicap. *)
Definition handicap_score (q : queue_entry) (perf_score : Z) : Z * Z :=
  if 4 <=? handicap q then (u32 (perf_score * 4), handicap q - 4)
  else if truthy (handicap q) then (u32 (perf_score * 2), handicap q - 1)
  else (perf_score, handicap q).

Definition depth_score (q : queue_entry) (perf_score : Z) : Z :=
  if depth q <=? 3 then perf_score
  else if depth q <=? 7 then u32 (perf_score * 2)
  else if depth q <=? 13 then u32 (perf_score * 3)
  else if depth q <=? 25 then u32 (perf_score * 4)
  else u32 (perf_score * 5).

Section Schedules.

(** libm's [log2]. *)
Context (log2 : double -> double).

Definition n_fuzz_of (a : afl) (q : queue_entry) : res Z :=
  rd (n_fuzz a) (Z.to_nat (n_fuzz_entry q)).

(** COE: the mean of [log2(n_fuzz)] over the enabled entries, and their
    number. *)
Definition coe_sum (a : afl) : res (spec_float * Z) :=
  rfold (fun '(mu, n) q =>
    if disabled q then Ok (mu, n)
    else k ← n_fuzz_of a q; Ok (ldadd mu (ld_of_double (log2 (dint k))), u32 (n + 1)))
    (S754_zero false, 0) (take (Z.to_nat (queued_items a)) (queue_buf a)).

(** The factor of FAST. *)
Definition fast_factor (a : afl) (q : queue_entry) : res double :=
  if fuzz_level q =? 0 then Ok (dint 1) else
  k ← n_fuzz_of a q;
  l ← d_to_u32 (log2 (dint k));
  let factor :=
    if l <=? 1 then dint 4
    else if l <=? 3 then dint 3
    else if l =? 4 then dint 2
    else if l =? 5 then dint 1
    else if l =? 6 then (if favored q then dint 1 else dlit 8 10)
    else if l =? 7 then (if favored q then dint 1 else dlit 6 10)
    else (if favored q then dint 1 else dlit 4 10) in
  Ok (if favored q then dmul factor (dlit 115 100) else factor).

Definition coe_factor (a : afl) (q : queue_entry) : res double :=
  if fuzz_level q =? 0 then Ok (dint 1) else
  '(mu, n_items) ← coe_sum a;
  if n_items =? 0 then Err Fatal else
  let mu := lddiv mu (ldint n_items) in
  k ← n_fuzz_of a q;
  if SFltb mu (ld_of_double (log2 (dint k))) then
    Ok (if favored q then dint 1 else dint 0)
  else fast_factor a q.

(** LIN and QUAD divide integers, so the quotient is truncated first. *)
Definition lin_factor (a : afl) (q : queue_entry) (num : Z) : res double :=
  if fuzz_level q =? 0 then Ok (dint 1) else
  k ← n_fuzz_of a q;
  if u32 (k + 1) =? 0 then Err Fault else Ok (dint (num / u32 (k + 1))).

(** [afl->max_depth - q->depth < n] in [u64]. *)
Definition depth_within (a : afl) (q : queue_entry) (n : Z) : bool :=
  u64 (max_depth a - depth q) <? n.

(** The [switch] over the schedules: the adjusted score and the factor. *)
Definition schedule_score (a : afl) (q : queue_entry) (perf_score : Z) : res (Z * double) :=
  match sched a with
  | EXPLORE | SEEK => Ok (perf_score, dint 1)
  | EXPLOIT => Ok (perf_score, dint MAX_FACTOR)
  | COE => f ← coe_factor a q; Ok (perf_score, f)
  | FAST => f ← fast_factor a q; Ok (perf_score, f)
  | LIN => f ← lin_factor a q (fuzz_level q); Ok (perf_score, f)
  | QUAD => f ← lin_factor a q (u32 (fuzz_level q * fuzz_level q)); Ok (perf_score, f)
  | MMOPT => Ok (if depth_within a q 5 then u32 (perf_score * 2) else perf_score, dint 1)
  | RARE =>
      let perf_score := u32 (perf_score + u32 (tc_ref q * 10)) in
      k ← n_fuzz_of a q;
      p ← scale perf_score (dsub (dint 1) (ddiv (dint k) (dint (total_execs a))));
      Ok (p, dint 1)
  end.

(** [schedule >= EXPLOIT && schedule <= QUAD] *)
Definition factor_applies (a : afl) : bool := sched_ge (sched a) EXPLOIT && sched_ge QUAD (sched a).

Definition apply_factor (a : afl) (perf_score : Z) (factor : double) : res Z :=
  if factor_applies a then
    let factor := if dgt_int factor MAX_FACTOR then dint MAX_FACTOR else factor in
    scale perf_score (ddiv factor (dint POWER_BETA))
  else Ok perf_score.

(** MOpt mode, AFLFast's lower bound and the limit. *)
Definition limit_score (a : afl) (q : queue_entry) (perf_score : Z) : Z :=
  let perf_score :=
    if truthy (limit_time_sig a) && depth_within a q 3 then u32 (perf_score * 2)
    else if negb (bool_decide (sched a = COE)) && (perf_score <? 1) then 1
    else perf_score in
  if havoc_max_mult a * 100 <? perf_score then havoc_max_mult a * 100 else perf_score.

Definition calculate_score (a : afl) (p : nat) : res (Z * afl) :=
  q ← deref a p;
  perf_score ← bitmap_score a q (speed_score a q);
  let '(perf_score, new_handicap) := handicap_score q perf_score in
  let a := upd p (set_handicap new_handicap) a in
  let perf_score := depth_score q perf_score in
  '(perf_score, factor) ← schedule_score a q perf_score;
  perf_score ← apply_factor a perf_score factor;
  Ok (limit_score a q perf_score, a).
End Schedules.

(** ** Selection weights *)

Section Weights.
(** libm's [log] and [log10]. *)
Context (log log10 : double -> double).

Definition compute_weight (a : afl) (q : queue_entry) (avg_exec avg_bitmap avg_top : double)
    : res double :=
  weight ← (if sched_ge (sched a) FAST && sched_ge RARE (sched a) then
              hits ← n_fuzz_of a q;
              Ok (if truthy hits then ddiv (dint 1) (dadd (log10 (dint hits)) (dint 1)) else dint 1)
            else Ok (dint 1));
  let weight := if negb (sched_ge (sched a) RARE)
                then dmul weight (ddiv avg_exec (dint (exec_us q))) else weight in
  let weight := dmul weight (ddiv (log (dint (bitmap_size q))) avg_bitmap) in
  let weight := dmul weight (dadd (dint 1) (ddiv (dint (tc_ref q)) avg_top)) in
  let weight := if dlt weight (dlit 1 10) then dlit 1 10 else weight in
  let weight := if favored q then dmul weight (dint 5) else weight in
  Ok (if was_fuzzed q then weight else dmul weight (dint 2)).
End Weights.
