(* ===== verification/ScoreThms.v ===== *)
(** [calculate_score] always yields a score within the limit: none of its
    floating-point conversions is out of range, none of its divisions by
    zero.  The score takes finitely many values before the schedule's factor
    is applied, and each of them is checked against each factor. *)

From S2P Require Import Prelude Words Float State Bitmap Queue BitmapThms QueueScore Score.

(** ** The possible scores, stage by stage *)

Definition speed_scores : list Z := [10; 25; 50; 75; 300; 200; 150; 100].

Lemma speed_score_in a q : In (speed_score a q) speed_scores.
Proof. unfold speed_score. repeat case_match; simpl; tauto. Qed.

Definition res_or (d : Z) (r : res Z) : Z := match r with Ok x => x | Err _ => d end.
Definition res_ok {A} (r : res A) : bool := match r with Ok _ => true | Err _ => false end.

Lemma res_ok_or (r : res Z) : res_ok r = true -> r = Ok (res_or 0 r).
Proof. destruct r; [done|discriminate]. Qed.

Definition bitmap_factors : list double := [dlit 1 4; dlit 1 2; dlit 3 4; dlit 3 2].
Definition bitmap_scores : list Z :=
  [10; 30; 20; 2; 5; 7; 15; 6; 12; 18; 56; 900; 600; 400; 450; 37; 112;
   225; 100; 300; 200; 25; 50; 75; 150].

(** A table is closed under the listed outcomes of its elements. *)
Definition covers (table : list Z) (outcomes : Z -> list Z) (l : list Z) : bool :=
  forallb (fun p => forallb (fun r => existsb (Z.eqb r) table) (outcomes p)) l.

Lemma covers_in table outcomes l p r :
  covers table outcomes l = true -> In p l -> In r (outcomes p) -> In r table.
Proof.
  unfold covers. rewrite forallb_forall. intros H Hp Hr. specialize (H p Hp).
  rewrite forallb_forall in H. specialize (H r Hr). apply existsb_exists in H as (x & Hx & E).
  apply Z.eqb_eq in E. now subst.
Qed.

Definition bitmap_outcomes (p : Z) : list Z :=
  [p; u32 (p * 3); u32 (p * 2)] ++ map (fun c => res_or 0 (scale p c)) bitmap_factors.

Lemma bitmap_scales :
  forallb (fun p => forallb (fun c => res_ok (scale p c)) bitmap_factors) speed_scores = true /\
  covers bitmap_scores bitmap_outcomes speed_scores = true.
Proof. split; vm_compute; reflexivity. Qed.

Lemma bitmap_score_in a q p :
  In p speed_scores -> exists r, bitmap_score a q p = Ok r /\ In r bitmap_scores.
Proof.
  intros Hp. destruct bitmap_scales as [Hs Hcov]. rewrite forallb_forall in Hs. specialize (Hs p Hp).
  rewrite forallb_forall in Hs.
  assert (Hout : forall r, In r (bitmap_outcomes p) -> In r bitmap_scores)
    by (intros r; eapply covers_in; eauto).
  assert (Hc : forall c, In c bitmap_factors -> exists r, scale p c = Ok r /\ In r bitmap_scores).
  { intros c Hc. exists (res_or 0 (scale p c)). split; [apply res_ok_or; auto|].
    apply Hout, in_app_iff. right. apply in_map_iff. eauto. }
  clear Hs Hcov. unfold bitmap_score.
  repeat case_match; try (apply Hc; simpl; tauto);
    eexists; (split; [reflexivity|]); apply Hout, in_app_iff; left; simpl; tauto.
Qed.

Definition handicap_outcomes (p : Z) : list Z := [p; u32 (p * 2); u32 (p * 4)].
Definition depth_outcomes (p : Z) : list Z :=
  [p; u32 (p * 2); u32 (p * 3); u32 (p * 4); u32 (p * 5)].

(** The scores before the schedule's factor. *)
Definition depth_scores : list Z :=
  [480; 160; 320; 2; 4; 8; 16; 32; 5; 10; 20; 40; 80; 7; 21; 35; 14; 42; 70; 28; 84; 140; 15; 45;
   6; 30; 12; 60; 24; 120; 48; 96; 192; 240; 18; 54; 90; 36; 108; 180; 72; 144; 216; 288; 360; 56;
   168; 280; 10800; 14400; 18000; 9600; 12000; 6400; 8000; 5400; 7200; 9000; 37; 111; 185; 74; 222;
   370; 148; 296; 444; 592; 740; 112; 336; 560; 224; 672; 1120; 448; 896; 1344; 1792; 2240; 675;
   1125; 1350; 2250; 2700; 4500; 3600; 4800; 6000; 2000; 1600; 3200; 4000; 25; 125; 50; 250; 100;
   500; 200; 400; 800; 1000; 75; 225; 375; 150; 450; 750; 300; 900; 1500; 600; 1200; 1800; 2400;
   3000].

Lemma depth_scores_cover :
  covers depth_scores (fun p => flat_map depth_outcomes (handicap_outcomes p)) bitmap_scores = true.
Proof. vm_compute. reflexivity. Qed.

Lemma depth_score_in q p :
  In p bitmap_scores -> In (depth_score q (fst (handicap_score q p))) depth_scores.
Proof.
  intros Hp. eapply covers_in; [exact depth_scores_cover|exact Hp|].
  apply in_flat_map. exists (fst (handicap_score q p)). split.
  - unfold handicap_score. repeat case_match; simpl; tauto.
  - unfold depth_score. repeat case_match; simpl; tauto.
Qed.

(** ** The possible factors *)

Definition fast_base : list double :=
  [dint 4; dint 3; dint 2; dint 1; dlit 8 10; dlit 6 10; dlit 4 10].
Definition factors : list double :=
  map dint (seqZ 0 33) ++ fast_base ++ map (fun f => dmul f (dlit 115 100)) fast_base.

(** A factor as the schedules produce it: one of the list or a larger
    integer, which is capped. *)
Definition factor_ok (f : double) : Prop :=
  In f factors \/ exists z, 32 < z < 2 ^ 32 /\ f = dint z.

Definition capped (f : double) : double := if dgt_int f MAX_FACTOR then dint MAX_FACTOR else f.

Lemma int_factor z : 0 <= z < 2 ^ 32 -> factor_ok (dint z).
Proof.
  intros Hz. destruct (Z.le_gt_cases z 32); [|right; exists z; split; [lia|done]].
  left. apply in_app_iff. left. apply in_map. apply list_elem_of_In, elem_of_seqZ. lia.
Qed.

Lemma capped_in f : factor_ok f -> In (capped f) factors.
Proof.
  intros [Hf|(z & Hz & ->)]; unfold capped, dgt_int; change MAX_FACTOR with 32.
  - destruct (dlt _ _); [|done]. apply in_app_iff. left. apply in_map.
    apply list_elem_of_In, elem_of_seqZ. lia.
  - rewrite dint_lt by (change (2 ^ 53) with 9007199254740992; change (2 ^ 32) with 4294967296 in *; lia).
    apply in_app_iff. left. apply in_map. apply list_elem_of_In, elem_of_seqZ. lia.
Qed.

(** Every score times every factor converts back to [u32]. *)
Lemma factor_scales :
  forallb (fun p => forallb (fun f => res_ok (scale p (ddiv f (dint POWER_BETA)))) factors) depth_scores
  = true.
Proof. vm_compute. reflexivity. Qed.

Lemma scale_range p c r : scale p c = Ok r -> 0 <= r < 2 ^ 32.
Proof.
  unfold scale, d_to_u32. destruct (dtrunc _) as [v|]; [|discriminate].
  destruct (Z.leb_spec 0 v), (Z.ltb_spec v (2 ^ 32)); simpl; intros [= <-]; lia.
Qed.

Lemma apply_factor_ok a p f :
  In p depth_scores -> factor_ok f -> 0 <= p -> exists r, apply_factor a p f = Ok r /\ 0 <= r.
Proof.
  intros Hp Hf H0. unfold apply_factor. destruct (factor_applies a); [|eauto].
  fold (capped f). apply capped_in in Hf. pose proof factor_scales as Hs.
  rewrite forallb_forall in Hs. specialize (Hs p Hp). rewrite forallb_forall in Hs.
  specialize (Hs _ Hf). apply res_ok_or in Hs. eexists. split; [exact Hs|].
  eapply scale_range; eauto.
Qed.

Lemma depth_scores_nonneg p : In p depth_scores -> 0 <= p.
Proof.
  assert (H : forallb (fun p => 0 <=? p) depth_scores = true) by (vm_compute; reflexivity).
  rewrite forallb_forall in H. intros Hp. apply Z.leb_le. auto.
Qed.

(** ** The schedules *)

Section Schedules.
Context (log2 : double -> double).

(** libm: the integral part of [log2(n)] of a positive 32-bit integer. *)
Hypothesis log2_trunc : forall n, 0 < n < 2 ^ 32 -> dtrunc (log2 (dint n)) = Some (Z.log2 n).

(** The entries' path frequencies are counted, and below the saturation
    point. *)
Definition counted (a : afl) : Prop :=
  forall p q, queue_buf a !! p = Some q -> 0 < hits a q < 2 ^ 32 - 1.

Lemma n_fuzz_of_hits a p q :
  queue_wf a -> queue_buf a !! p = Some q -> n_fuzz_of a q = Ok (hits a q).
Proof.
  intros Hwf Hq. destruct (rd_lt _ _ (qw_nfuzz a Hwf p q Hq)) as (n & E & Hn).
  unfold n_fuzz_of, hits. now rewrite E, (nth_lookup_Some _ _ _ _ Hn).
Qed.

Lemma log2_u32 n : 0 < n < 2 ^ 32 -> d_to_u32 (log2 (dint n)) = Ok (Z.log2 n).
Proof.
  intros Hn. unfold d_to_u32. rewrite log2_trunc by done. pose proof (Z.log2_nonneg n).
  assert (Z.log2 n < 32) by (apply Z.log2_lt_pow2; lia).
  rewrite (proj2 (Z.leb_le _ _)), (proj2 (Z.ltb_lt _ _)) by (change (2 ^ 32) with 4294967296; lia). done.
Qed.

Lemma factor_member f : In f factors -> factor_ok f.
Proof. now left. Qed.

Lemma fast_factor_ok a p q :
  queue_wf a -> queue_buf a !! p = Some q -> 0 < hits a q < 2 ^ 32 ->
  exists f, fast_factor log2 a q = Ok f /\ factor_ok f.
Proof.
  intros Hwf Hq Hh. unfold fast_factor. destruct (fuzz_level q =? 0).
  { eexists; split; [done|]. apply int_factor. split; [lia|reflexivity]. }
  rewrite (n_fuzz_of_hits a p q) by done. cbn [mbind res_bind]. rewrite log2_u32 by done.
  cbn [mbind res_bind]. eexists. split; [reflexivity|]. apply factor_member.
  apply in_app_iff. right. apply in_app_iff.
  destruct (favored q).
  - right. apply (in_map (fun f => dmul f (dlit 115 100))). repeat case_match; unfold fast_base; cbn [In]; tauto.
  - left. repeat case_match; unfold fast_base; cbn [In]; tauto.
Qed.

(** COE counts the enabled entries. *)
Lemma coe_sum_ok a :
  queue_wf a -> exists mu, coe_sum log2 a
    = Ok (mu, zsum (fun q => b2z (negb (disabled q))) (queue_buf a)).
Proof.
  intros Hwf. unfold coe_sum. rewrite (take_ge (queue_buf a)) by (pose proof (qw_items a Hwf); lia).
  assert (H : forall l mu n, (forall q, q ∈ l -> exists p, queue_buf a !! p = Some q) ->
    0 <= n -> n + Z.of_nat (length l) < 2 ^ 32 ->
    exists mu', rfold (fun '(mu, n) q => if disabled q then Ok (mu, n)
      else k ← n_fuzz_of a q; Ok (ldadd mu (ld_of_double (log2 (dint k))), u32 (n + 1))) (mu, n) l
      = Ok (mu', n + zsum (fun q => b2z (negb (disabled q))) l)).
  { intros l. induction l as [|q l IH]; intros mu n Hl Hn Hb; cbn [rfold].
    { exists mu. unfold zsum; simpl. do 2 f_equal. lia. }
    destruct (Hl q ltac:(left)) as [p Hq]. cbn [length] in Hb.
    assert (Hl' : forall x, x ∈ l -> exists p, queue_buf a !! p = Some x) by (intros; apply Hl; now right).
    unfold zsum in *. cbn [foldr]. destruct (disabled q); cbn [negb b2z].
    - cbn [mbind res_bind]. destruct (IH mu n Hl' Hn) as [mu' ->]; [lia|]. exists mu'. do 2 f_equal.
    - rewrite (n_fuzz_of_hits a p q) by done. cbn [mbind res_bind]. rewrite uwrap_id by lia.
      destruct (IH (ldadd mu (ld_of_double (log2 (dint (hits a q))))) (n + 1) Hl') as [mu' ->]; [lia..|].
      exists mu'. do 2 f_equal. lia. }
  destruct (H (queue_buf a) (S754_zero false) 0) as [mu E]; [|lia|pose proof (qw_max a Hwf); lia|].
  - intros q Hq. now apply list_elem_of_lookup in Hq.
  - exists mu. rewrite E. done.
Qed.

Lemma coe_factor_ok a p q :
  queue_wf a -> queue_buf a !! p = Some q -> disabled q = false -> 0 < hits a q < 2 ^ 32 ->
  exists f, coe_factor log2 a q = Ok f /\ factor_ok f.
Proof.
  intros Hwf Hq Hd Hh. unfold coe_factor. destruct (fuzz_level q =? 0).
  { eexists; split; [done|]. apply int_factor. split; [lia|reflexivity]. }
  destruct (coe_sum_ok a Hwf) as [mu ->]. cbn [mbind res_bind].
  pose proof (zsum_pos_elem (fun q => negb (disabled q)) (queue_buf a) p q Hq ltac:(cbv beta; now rewrite Hd)) as Hn.
  rewrite (proj2 (Z.eqb_neq _ 0)) by lia.
  rewrite (n_fuzz_of_hits a p q) by done. cbn [mbind res_bind].
  destruct (SFltb _ _); [|eapply fast_factor_ok; eauto].
  eexists. split; [reflexivity|].
  destruct (favored q); apply int_factor; split; try lia; reflexivity.
Qed.

Lemma lin_factor_ok a p q num :
  queue_wf a -> queue_buf a !! p = Some q -> 0 < hits a q < 2 ^ 32 - 1 -> 0 <= num < 2 ^ 32 ->
  exists f, lin_factor a q num = Ok f /\ factor_ok f.
Proof.
  intros Hwf Hq Hh Hn. unfold lin_factor. destruct (fuzz_level q =? 0).
  { eexists; split; [done|]. apply int_factor. split; [lia|reflexivity]. }
  rewrite (n_fuzz_of_hits a p q) by done. cbn [mbind res_bind]. rewrite uwrap_id by lia.
  rewrite (proj2 (Z.eqb_neq _ 0)) by lia. eexists. split; [reflexivity|]. apply int_factor.
  split; [apply Z.div_pos; lia|]. apply Z.div_lt_upper_bound; nia.
Qed.

Lemma schedule_score_ok a p q s :
  queue_wf a -> queue_buf a !! p = Some q -> disabled q = false -> 0 < hits a q < 2 ^ 32 - 1 ->
  0 <= fuzz_level q < 2 ^ 32 -> sched a <> RARE -> In s depth_scores ->
  exists r f, schedule_score log2 a q s = Ok (r, f) /\ factor_ok f /\ 0 <= r /\
              (factor_applies a = true -> r = s).
Proof.
  intros Hwf Hq Hd Hh Hfl Hr Hs. pose proof (depth_scores_nonneg s Hs) as H0.
  assert (H1 : factor_ok (dint 1)) by (apply int_factor; split; [lia|reflexivity]).
  unfold schedule_score, factor_applies.
  destruct (sched a) eqn:E; try congruence.
  1, 8: eauto 10.
  - do 2 eexists. split; [reflexivity|]. split; [done|]. split; [|discriminate].
    destruct (depth_within a q 5); [apply uwrap_range; lia|done].
  - do 2 eexists. split; [reflexivity|]. split; [apply int_factor; split; [vm_compute; discriminate|reflexivity]|auto].
  - destruct (fast_factor_ok a p q) as (f & -> & Hf); [done..|lia|]. cbn [mbind res_bind]. eauto 10.
  - destruct (coe_factor_ok a p q) as (f & -> & Hf); [done..|lia|]. cbn [mbind res_bind]. eauto 10.
  - destruct (lin_factor_ok a p q (fuzz_level q)) as (f & -> & Hf); [done..|]. cbn [mbind res_bind]. eauto 10.
  - destruct (lin_factor_ok a p q (u32 (fuzz_level q * fuzz_level q))) as (f & -> & Hf);
      [done..|apply uwrap_range; lia|]. cbn [mbind res_bind]. eauto 10.
Qed.

(** ** [calculate_score] *)

(** An update of fields the queue's invariant does not read. *)
Lemma upd_wf a p f :
  queue_wf a ->
  (forall q, tc_ref (f q) = tc_ref q /\ trace_mini (f q) = trace_mini q /\
             n_fuzz_entry (f q) = n_fuzz_entry q) ->
  queue_wf (upd p f a).
Proof.
  intros Hwf Hf. pose proof Hwf as [].
  assert (Hl : forall w x, alter f p (queue_buf a) !! w = Some x ->
    exists q, queue_buf a !! w = Some q /\ tc_ref x = tc_ref q /\ trace_mini x = trace_mini q /\
              n_fuzz_entry x = n_fuzz_entry q).
  { intros w x Hx. destruct (decide (p = w)) as [->|Hne].
    - rewrite lookup_alter_eq in Hx. destruct (queue_buf a !! w) as [q|]; [|discriminate].
      apply (inj Some) in Hx as <-. exists q. auto.
    - rewrite lookup_alter_ne in Hx by done. eauto. }
  split; try assumption; rewrite ?upd_queue_buf, ?length_alter; try assumption.
  - intros w x Hx. apply Hl in Hx as (q & Hq & E1 & E2 & _). destruct (qw_refs w q Hq).
    split; rewrite ?E1, ?E2; auto.
  - intros w x Hx. apply Hl in Hx as (q & Hq & _ & _ & ->). eauto.
Qed.

(** The switch does not read the handicap. *)
Lemma schedule_score_handicap a h q s :
  schedule_score log2 a (set_handicap h q) s = schedule_score log2 a q s.
Proof. reflexivity. Qed.

Lemma limit_score_bounds a q s :
  0 <= s -> 0 <= havoc_max_mult a ->
  0 <= limit_score a q s <= havoc_max_mult a * 100 /\
  (1 <= havoc_max_mult a -> sched a <> COE -> limit_time_sig a = 0 -> 1 <= limit_score a q s).
Proof.
  intros Hs Hm. unfold limit_score.
  set (r := if _ && _ then u32 (s * 2) else _).
  assert (Hr : 0 <= r).
  { subst r. destruct (_ && _); [apply uwrap_range; lia|]. destruct (_ && _); lia. }
  split; [destruct (Z.ltb_spec (havoc_max_mult a * 100) r); lia|].
  intros H1 Hc Hl. assert (1 <= r).
  { subst r. rewrite Hl. cbn [truthy Z.eqb negb andb]. rewrite bool_decide_false by done.
    cbn [negb andb]. destruct (Z.ltb_spec s 1); lia. }
  destruct (Z.ltb_spec (havoc_max_mult a * 100) r); lia.
Qed.

Lemma calculate_score_spec a p q :
  queue_wf a -> queue_buf a !! p = Some q -> disabled q = false -> counted a ->
  0 <= fuzz_level q < 2 ^ 32 -> sched a <> RARE -> 1 <= havoc_max_mult a ->
  exists s, calculate_score log2 a p
    = Ok (s, upd p (set_handicap (handicap q - (if 4 <=? handicap q then 4
                       else if truthy (handicap q) then 1 else 0))) a) /\
    0 <= s <= havoc_max_mult a * 100 /\
    (sched a <> COE -> limit_time_sig a = 0 -> 1 <= s).
Proof.
  intros Hwf Hq Hd Hc Hfl Hr Hm. unfold calculate_score, deref.
  rewrite (proj2 (rd_ok _ _ _) Hq). cbn [mbind res_bind].
  destruct (bitmap_score_in a q _ (speed_score_in a q)) as (s1 & -> & Hs1). cbn [mbind res_bind].
  pose proof (depth_score_in q s1 Hs1) as Hs2.
  set (h := handicap q - _).
  assert (Eh : snd (handicap_score q s1) = h).
  { subst h. unfold handicap_score. destruct (4 <=? handicap q); [done|].
    destruct (truthy (handicap q)); [done|]. simpl. lia. }
  destruct (handicap_score q s1) as [s2 h'] eqn:Ehs. cbn [fst snd] in *. subst h'.
  pose proof (upd_wf a p (set_handicap h) Hwf ltac:(done)) as Hwf'.
  assert (Hq' : queue_buf (upd p (set_handicap h) a) !! p = Some (set_handicap h q))
    by (rewrite upd_queue_buf, lookup_alter_eq, Hq; done).
  rewrite <- (schedule_score_handicap _ h q).
  destruct (schedule_score_ok _ p _ _ Hwf' Hq' Hd (Hc p q Hq) Hfl Hr Hs2) as (r & f & -> & Hf & Hr0 & Hrs).
  cbn [mbind res_bind].
  assert (Hap : exists s, apply_factor (upd p (set_handicap h) a) r f = Ok s /\ 0 <= s).
  { unfold apply_factor. destruct (factor_applies _) eqn:Ea; [|eauto].
    rewrite (Hrs eq_refl) in *. pose proof (apply_factor_ok (upd p (set_handicap h) a) _ f Hs2 Hf Hr0) as H.
    unfold apply_factor in H. now rewrite Ea in H. }
  destruct Hap as (s & -> & Hs). cbn [mbind res_bind]. eexists. split; [reflexivity|].
  destruct (limit_score_bounds (upd p (set_handicap h) a) q s Hs ltac:(cbn; lia)) as [B1 B2].
  split; [exact B1|]. intros H1 H2. exact (B2 Hm H1 H2).
Qed.

(** C28: for every schedule but RARE [calculate_score] returns a score between
    0 and [havoc_max_mult * 100] - at least 1 outside COE and MOpt mode -
    without an out-of-range conversion, a division by zero or the "queue state
    corrupt" abort, and changes nothing but the entry's handicap, which it
    lowers by 4, by 1 or not at all. *)
Theorem calculate_score_bounds a p q :
  queue_wf a -> queue_buf a !! p = Some q -> disabled q = false -> counted a ->
  0 <= fuzz_level q < 2 ^ 32 -> sched a <> RARE -> 1 <= havoc_max_mult a ->
  exists s, calculate_score log2 a p
    = Ok (s, upd p (set_handicap (handicap q - (if 4 <=? handicap q then 4
                       else if truthy (handicap q) then 1 else 0))) a) /\
    0 <= s <= havoc_max_mult a * 100 /\
    (sched a <> COE -> limit_time_sig a = 0 -> 1 <= s).
Proof. exact (calculate_score_spec a p q). Qed.
End Schedules.

(** A [log2] that meets the hypothesis: the integral part as a double. *)
Definition ilog2 (x : double) : double :=
  match dtrunc x with Some n => dint (Z.log2 n) | None => x end.

Lemma ilog2_trunc n : 0 < n < 2 ^ 32 -> dtrunc (ilog2 (dint n)) = Some (Z.log2 n).
Proof.
  intros Hn. pose proof (Z.log2_nonneg n).
  assert (Z.log2 n < 32) by (apply Z.log2_lt_pow2; lia).
  change (2 ^ 32) with 4294967296 in *.
  unfold ilog2. rewrite !dtrunc_dint by (change (2 ^ 53) with 9007199254740992; lia). done.
Qed.

(** Two calibrated inputs under FAST. *)
Definition afl_fast : afl :=
  upd 1 (set_fuzz_level 4) (upd 1 (set_handicap 2) (set_n_fuzz [100] (set_sched FAST afl0))).

Lemma afl_fast_wf : queue_wf afl_fast.
Proof.
  apply upd_wf; [|done]. apply upd_wf; [|done]. pose proof afl0_wf as []. split; try assumption.
Qed.

Lemma calculate_score_bounds_witness :
  queue_wf afl_fast /\ counted afl_fast /\
  exists s, calculate_score ilog2 afl_fast 1 = Ok (s, upd 1 (set_handicap 1) afl_fast) /\
            1 <= s <= 6400.
Proof.
  assert (Hc : counted afl_fast).
  { intros [|[|p]] q Hq; cbn in Hq; try discriminate; apply (inj Some) in Hq as <-; split; reflexivity. }
  split; [exact afl_fast_wf|]. split; [exact Hc|].
  destruct (calculate_score_bounds ilog2 ilog2_trunc afl_fast 1 _ afl_fast_wf eq_refl eq_refl Hc
    ltac:(split; [vm_compute; discriminate|reflexivity]) ltac:(discriminate) ltac:(vm_compute; discriminate))
    as (s & E & B1 & B2).
  exists s. split; [exact E|]. split; [|exact (proj2 B1)].
  apply B2; [discriminate|reflexivity].
Defined.
