(* ===== verification/Alias.v ===== *)
(** Weighted selection: [create_alias_table] and [select_next_queue_entry] of
    [src/afl-fuzz-queue.c], Vose's alias method over [double].

    The table construction is written once, over the arithmetic it uses, and
    used twice: with [double]s as the code has it, where it is shown to end
    and stay in bounds whatever the rounding does, and with exact arithmetic,
    where the distribution it encodes is shown to be the intended one. *)

From S2P Require Import Prelude Words Float State Bitmap Rand Queue Score.

(** ** The arithmetic of the table *)

Class AliasArith (R : Type) := {
  aa_zero : R;
  aa_one : R;
  aa_lt1 : R -> bool;             (* P < 1 *)
  aa_rest : R -> R -> R           (* P[g] + P[a] - 1 *)
}.

#[export] Instance double_alias : AliasArith double := {
  aa_zero := dint 0;
  aa_one := dint 1;
  aa_lt1 p := dlt p (dint 1);
  aa_rest g a := dsub (dadd g a) (dint 1)
}.

(** Exact arithmetic in multiples of [1 / u]. *)
Definition exact_alias (u : Z) : AliasArith Z := {|
  aa_zero := 0;
  aa_one := u;
  aa_lt1 p := p <? u;
  aa_rest g a := g + a - u
|}.

Section Vose.
Context {R : Type} `{AliasArith R}.

(** The two output arrays, the scaled weights and the two stacks, top
    first. *)
Record vose := mkVose {
  alias_probability : list R;
  alias_table : list nat;
  scaled : list R;
  small : list nat;
  large : list nat
}.

(** [for (s = n - 1; s >= 0; --s)]: sort the indices below [s] onto the
    stacks. *)
Fixpoint vose_split (s : nat) (P : list R) (sm lg : list nat) : res (list nat * list nat) :=
  match s with
  | O => Ok (sm, lg)
  | S s' =>
      p ← rd P s';
      if aa_lt1 p then vose_split s' P (s' :: sm) lg else vose_split s' P sm (s' :: lg)
  end.

(** The body of [while (nS && nL)]. *)
Definition vose_step (v : vose) (a g : nat) (sm lg : list nat) : res vose :=
  pa ← rd (scaled v) a;
  prob ← wr (alias_probability v) a pa;
  table ← wr (alias_table v) a g;
  pg ← rd (scaled v) g;
  let p := aa_rest pg pa in
  P ← wr (scaled v) g p;
  Ok (if aa_lt1 p then mkVose prob table P (g :: sm) lg else mkVose prob table P sm (g :: lg)).

Fixpoint vose_loop (fuel : nat) (v : vose) : res vose :=
  match small v, large v with
  | a :: sm, g :: lg =>
      match fuel with
      | O => Err OutOfFuel
      | S f => v ← vose_step v a g sm lg; vose_loop f v
      end
  | _, _ => Ok v
  end.

(** [while (nL) alias_probability[L[--nL]] = 1;] and the same for [S]. *)
Definition vose_fill (prob : list R) (stack : list nat) : res (list R) :=
  rfold (fun prob i => wr prob i aa_one) prob stack.

Definition vose_table (P : list R) : res (list R * list nat) :=
  let n := length P in
  '(sm, lg) ← vose_split n P [] [];
  v ← vose_loop n (mkVose (replicate n aa_zero) (replicate n 0%nat) P sm lg);
  prob ← vose_fill (alias_probability v) (large v);
  prob ← vose_fill prob (small v);
  Ok (prob, alias_table v).
End Vose.
Arguments vose : clear implicits.

(** ** [create_alias_table] *)

Section CreateAliasTable.
Context (log log10 log2 : double -> double).

(** The three averages over the enabled entries. *)
Definition alias_averages (a : afl) : double * double * double :=
  let '(e, b, t, active) :=
    foldl (fun '(e, b, t, active) q =>
      if disabled q then (e, b, t, active)
      else (dadd e (dint (exec_us q)), dadd b (log (dint (bitmap_size q))),
            dadd t (dint (tc_ref q)), u32 (active + 1)))
      (dint 0, dint 0, dint 0, 0) (take (Z.to_nat (queued_items a)) (queue_buf a)) in
  (ddiv e (dint active), ddiv b (dint active), ddiv t (dint active)).

(** The first loop's body: weight and score of entry [p]. *)
Definition weigh_entry (avgs : double * double * double) (st : afl * double) (p : nat)
    : res (afl * double) :=
  let '(a, sum) := st in
  let '(ae, ab, at_) := avgs in
  q ← deref a p;
  if disabled q then Ok (a, sum) else
  w ← compute_weight log log10 a q ae ab at_;
  let a := upd p (set_weight w) a in
  '(s, a) ← calculate_score log2 a p;
  Ok (upd p (set_perf_score (dint s)) a, dadd sum w).

(** MMOPT doubles the weights of the newest entries. *)
Definition mmopt_boost (a : afl) : res afl :=
  if bool_decide (sched a = MMOPT) && truthy (queued_discovered a) then
    let cnt := if 5 <=? queued_discovered a then 5 else queued_discovered a in
    let n := queued_items a in
    rfold (fun a i =>
      q ← deref a i;
      Ok (if disabled q then a else upd i (set_weight (dmul (weight q) (dint 2))) a))
      a (seq (Z.to_nat (u32 (n - cnt))) (Z.to_nat (n - u32 (n - cnt))))
  else Ok a.

(** RARE and SEEK go by the score alone. *)
Definition score_entry (st : afl * double) (p : nat) : res (afl * double) :=
  let '(a, sum) := st in
  q ← deref a p;
  a ← (if disabled q then Ok a
       else '(s, a) ← calculate_score log2 a p; Ok (upd p (set_perf_score (dint s)) a));
  q ← deref a p;
  Ok (a, dadd sum (perf_score q)).

(** [P[i] = (value * n) / sum] *)
Definition scaled_weights (value : queue_entry -> double) (a : afl) (sum : double) : list double :=
  map (fun q => ddiv (dmul (value q) (dint (queued_items a))) sum)
    (take (Z.to_nat (queued_items a)) (queue_buf a)).

Definition create_alias_table (a : afl) : res (afl * (list double * list nat)) :=
  let idx := seq 0 (Z.to_nat (queued_items a)) in
  '(a, P) ←
    (if negb (sched_ge (sched a) RARE) then
       '(a, sum) ← rfold (weigh_entry (alias_averages a)) (a, dint 0) idx;
       a ← mmopt_boost a;
       Ok (a, scaled_weights weight a sum)
     else
       '(a, sum) ← rfold score_entry (a, dint 0) idx;
       Ok (a, scaled_weights perf_score a sum));
  t ← vose_table P;
  Ok (set_reinit_table false a, t).
End CreateAliasTable.

(** ** [select_next_queue_entry] *)

(** The outcome for the drawn index [s] and the drawn fraction [p], with the
    comparison of the arithmetic in use. *)
Definition alias_pick {R} (lt : R -> R -> bool) (tbl : list R * list nat) (s : nat) (p : R) : res nat :=
  prob ← rd (fst tbl) s;
  alias ← rd (snd tbl) s;
  Ok (if lt p prob then s else alias).

Section Select.
Context {G : Type} `{RandGen G} (next_percent : G -> double * G).

Definition select_next_queue_entry (n : Z) (tbl : list double * list nat) (r : G) : res (nat * G) :=
  '(s, r) ← rand_below r n;
  let '(p, r) := next_percent r in
  i ← alias_pick dlt tbl (Z.to_nat s) p;
  Ok (i, r).
End Select.

(** ** Bounds and termination *)

Section VoseSafe.
Context {R : Type} `{AliasArith R}.

Definition below (n : nat) : list nat -> Prop := Forall (fun i => (i < n)%nat).

Lemma vose_split_ok s (P : list R) sm lg :
  (s <= length P)%nat -> below (length P) sm -> below (length P) lg ->
  exists sm' lg', vose_split s P sm lg = Ok (sm', lg') /\ below (length P) sm' /\ below (length P) lg' /\
                (length sm' + length lg' = s + length sm + length lg)%nat.
Proof.
  revert sm lg; induction s as [|s IH]; intros sm lg Hs HS HL; simpl; [eauto 10|].
  destruct (rd_lt P s ltac:(lia)) as (p & -> & _). cbn [mbind res_bind].
  destruct (aa_lt1 p).
  - destruct (IH (s :: sm) lg) as (sm' & lg' & E & H1 & H2 & H3); [lia|constructor; [lia|done]|done|].
    exists sm', lg'. simpl in H3. repeat split; auto; lia.
  - destruct (IH sm (s :: lg)) as (sm' & lg' & E & H1 & H2 & H3); [lia|done|constructor; [lia|done]|].
    exists sm', lg'. simpl in H3. repeat split; auto; lia.
Qed.

Record vose_wf (n : nat) (v : vose R) : Prop := {
  vw_prob : length (alias_probability v) = n;
  vw_table : length (alias_table v) = n;
  vw_scaled : length (scaled v) = n;
  vw_small : below n (small v);
  vw_large : below n (large v);
  vw_below : below n (alias_table v)
}.

Lemma below_insert n l i x : below n l -> (x < n)%nat -> below n (<[i:=x]> l).
Proof. intros Hl Hx. apply Forall_insert; auto. Qed.

(** One round, when the two stack tops are indices. *)
Definition vose_after (v : vose R) (a g : nat) (sm lg : list nat) (pa pg : R) : vose R :=
  let p := aa_rest pg pa in
  let prob := <[a:=pa]> (alias_probability v) in
  let table := <[a:=g]> (alias_table v) in
  let P := <[g:=p]> (scaled v) in
  if aa_lt1 p then mkVose prob table P (g :: sm) lg else mkVose prob table P sm (g :: lg).

Lemma vose_step_eq n v a g sm lg :
  vose_wf n v -> (a < n)%nat -> (g < n)%nat ->
  exists pa pg, scaled v !! a = Some pa /\ scaled v !! g = Some pg /\
    vose_step v a g sm lg = Ok (vose_after v a g sm lg pa pg).
Proof.
  intros [H1 H2 H3 _ _ _] Ha Hg. unfold vose_step.
  destruct (rd_lt (scaled v) a) as (pa & -> & Ea); [lia|]. cbn [mbind res_bind].
  rewrite !wr_lt by lia. cbn [mbind res_bind].
  destruct (rd_lt (scaled v) g) as (pg & -> & Eg); [lia|]. cbn [mbind res_bind].
  rewrite wr_lt by lia. eauto.
Qed.

Lemma vose_step_ok n v a g sm lg :
  vose_wf n v -> small v = a :: sm -> large v = g :: lg ->
  exists v', vose_step v a g sm lg = Ok v' /\ vose_wf n v' /\
             (length (small v') + length (large v') = length sm + length lg + 1)%nat.
Proof.
  intros Hwf ES EL. pose proof Hwf as [H1 H2 H3 H4 H5 H6]. rewrite ES in H4. rewrite EL in H5.
  apply Forall_cons in H4 as [Ha H4]. apply Forall_cons in H5 as [Hg H5].
  destruct (vose_step_eq n v a g sm lg Hwf Ha Hg) as (pa & pg & _ & _ & ->).
  eexists; split; [reflexivity|]. unfold vose_after.
  assert (below n (<[a:=g]> (alias_table v))) by now apply below_insert.
  destruct (aa_lt1 _); (split; [split; cbn; rewrite ?length_insert; auto; now constructor|cbn; lia]).
Qed.

Lemma vose_loop_ok n fuel v :
  vose_wf n v -> (length (small v) + length (large v) <= fuel + 1)%nat ->
  exists v', vose_loop fuel v = Ok v' /\ vose_wf n v'.
Proof.
  revert v; induction fuel as [|f IH]; intros v Hwf Hf;
    cbn [vose_loop]; destruct (small v) as [|a sm] eqn:ES, (large v) as [|g lg] eqn:EL; eauto.
  - simpl in Hf. lia.
  - destruct (vose_step_ok n v a g sm lg Hwf ES EL) as (v' & -> & Hwf' & Hl). cbn [mbind res_bind].
    apply IH; [done|]. simpl in Hf. lia.
Qed.

Lemma vose_fill_ok n (prob : list R) stack :
  length prob = n -> below n stack ->
  exists prob', vose_fill prob stack = Ok prob' /\ length prob' = n.
Proof.
  intros Hl Hb. unfold vose_fill. revert prob Hl; induction Hb as [|i l Hi Hb IH]; intros prob Hl; cbn [rfold].
  - eauto.
  - cbn beta in Hi. rewrite wr_lt by lia. cbn [mbind res_bind].
    apply IH. now rewrite length_insert.
Qed.

Lemma vose_start (P : list R) :
  exists sm lg, vose_split (length P) P [] [] = Ok (sm, lg) /\
    (length sm + length lg = length P)%nat /\
    vose_wf (length P) (mkVose (replicate (length P) aa_zero) (replicate (length P) 0%nat) P sm lg).
Proof.
  destruct (vose_split_ok (length P) P [] []) as (sm & lg & E & HS & HL & Hlen); [done|constructor..|].
  exists sm, lg. simpl in Hlen. split; [done|]. split; [lia|].
  split; cbn; rewrite ?length_replicate; auto.
  destruct (length P); [constructor|]. apply Forall_replicate. lia.
Qed.

Lemma vose_table_spec (P : list R) :
  exists prob table, vose_table P = Ok (prob, table) /\
    length prob = length P /\ length table = length P /\ below (length P) table.
Proof.
  unfold vose_table. destruct (vose_start P) as (sm & lg & -> & Hlen & Hwf). cbn [mbind res_bind].
  destruct (vose_loop_ok (length P) (length P) _ Hwf) as (v & -> & [H1 H2 _ H4 H5 H6]); [cbn; lia|].
  cbn [mbind res_bind].
  destruct (vose_fill_ok _ _ _ H1 H5) as (prob & -> & Hp). cbn [mbind res_bind].
  destruct (vose_fill_ok _ _ _ Hp H4) as (prob' & -> & Hp'). cbn [mbind res_bind].
  exists prob', (alias_table v). auto.
Qed.

(** C32: building the alias table ends within [n] rounds and stays in bounds
    for every arithmetic - rounding, infinities and NaNs of [double]
    included: both arrays have one element per entry and every alias is a
    valid index. *)
Theorem vose_table_safe (P : list R) :
  exists prob table, vose_table P = Ok (prob, table) /\
    length prob = length P /\ length table = length P /\ below (length P) table.
Proof. exact (vose_table_spec P). Qed.
End VoseSafe.

(** ** The distribution the table encodes

    With exact arithmetic and weights that sum to [n * u], drawing an index
    [s < n] and a fraction [c < u] uniformly gives entry [k] exactly [P k]
    times out of [n * u]. *)

Section VoseExact.
Context (u : Z).
#[local] Instance vose_exact : AliasArith Z := exact_alias u.
Implicit Types v : vose Z.

Definition zget (l : list Z) (i : nat) : Z := default 0 (l !! i).
Definition nget (l : list nat) (i : nat) : nat := default 0%nat (l !! i).
Definition active v : list nat := small v ++ large v.

(** What is left over of slot [s] for its alias: nothing until it is
    settled. *)
Definition rest_of v (s : nat) : Z :=
  if bool_decide (s ∈ active v) then 0 else u - zget (alias_probability v) s.
Definition gift v (k s : nat) : Z := if bool_decide (nget (alias_table v) s = k) then rest_of v s else 0.
Definition gifts v (k : nat) : Z := zsum (gift v k) (seq 0 (length (scaled v))).
(** What entry [k] keeps of its own slot. *)
Definition own v (k : nat) : Z :=
  if bool_decide (k ∈ active v) then zget (scaled v) k else zget (alias_probability v) k.

Record exact_wf (P : list Z) v : Prop := {
  ew_wf : vose_wf (length P) v;
  ew_nodup : NoDup (active v);
  ew_dist : forall k, (k < length P)%nat -> own v k + gifts v k = zget P k;
  ew_sum : zsum (zget (scaled v)) (active v) = u * Z.of_nat (length (active v));
  ew_small : Forall (fun i => 0 <= zget (scaled v) i < u) (small v);
  ew_large : Forall (fun i => u <= zget (scaled v) i) (large v);
  ew_prob : forall k, (k < length P)%nat -> k ∉ active v -> 0 <= zget (alias_probability v) k <= u
}.

Lemma zget_insert_eq l i x : (i < length l)%nat -> zget (<[i:=x]> l) i = x.
Proof. intros H. unfold zget. now rewrite list_lookup_insert_eq. Qed.
Lemma zget_insert_ne l i j x : i <> j -> zget (<[i:=x]> l) j = zget l j.
Proof. intros H. unfold zget. now rewrite list_lookup_insert_ne. Qed.
Lemma nget_insert_eq l i x : (i < length l)%nat -> nget (<[i:=x]> l) i = x.
Proof. intros H. unfold nget. now rewrite list_lookup_insert_eq. Qed.
Lemma nget_insert_ne l i j x : i <> j -> nget (<[i:=x]> l) j = nget l j.
Proof. intros H. unfold nget. now rewrite list_lookup_insert_ne. Qed.

Lemma vose_after_fields v a g sm lg pa pg :
  let v' := vose_after v a g sm lg pa pg in
  alias_probability v' = <[a:=pa]> (alias_probability v) /\
  alias_table v' = <[a:=g]> (alias_table v) /\
  scaled v' = <[g:=pg + pa - u]> (scaled v) /\
  active v' ≡ₚ g :: sm ++ lg.
Proof.
  unfold vose_after, active. cbn. destruct (_ <? _); cbn; repeat split; auto.
  now rewrite Permutation_middle.
Qed.
Section Round.
Context (P : list Z) v (a g : nat) (sm lg : list nat).
Context (Hwf : exact_wf P v) (ES : small v = a :: sm) (EL : large v = g :: lg).
Let v' := vose_after v a g sm lg (zget (scaled v) a) (zget (scaled v) g).

Lemma round_active : active v ≡ₚ a :: g :: sm ++ lg.
Proof. unfold active. rewrite ES, EL. simpl. now rewrite <- Permutation_middle. Qed.

Lemma round_fresh : a <> g /\ (a ∉ sm ++ lg) /\ (g ∉ sm ++ lg) /\ NoDup (sm ++ lg).
Proof.
  pose proof (ew_nodup _ _ Hwf) as H. rewrite round_active in H.
  apply NoDup_cons in H as [H1 H]. apply NoDup_cons in H as [H2 H].
  rewrite not_elem_of_cons in H1. tauto.
Qed.

Lemma round_bounds : (a < length P)%nat /\ (g < length P)%nat.
Proof.
  destruct (ew_wf _ _ Hwf) as [_ _ _ H1 H2 _]. rewrite ES in H1. rewrite EL in H2.
  apply Forall_cons in H1 as [? _]. apply Forall_cons in H2 as [? _]. done.
Qed.

Lemma round_mem s : s <> a -> s ∈ active v' <-> s ∈ active v.
Proof.
  intros Hs. destruct (vose_after_fields v a g sm lg (zget (scaled v) a) (zget (scaled v) g)) as (_ & _ & _ & E).
  fold v' in E. rewrite E, round_active, (elem_of_cons _ s a). tauto.
Qed.

Lemma round_gone : a ∉ active v'.
Proof.
  destruct (vose_after_fields v a g sm lg (zget (scaled v) a) (zget (scaled v) g)) as (_ & _ & _ & E).
  fold v' in E. rewrite E, not_elem_of_cons. destruct round_fresh as (? & ? & _). done.
Qed.

Lemma round_gift k s : s <> a -> gift v' k s = gift v k s.
Proof.
  intros Hs. destruct (vose_after_fields v a g sm lg (zget (scaled v) a) (zget (scaled v) g)) as (E1 & E2 & _ & _).
  fold v' in E1, E2. unfold gift, rest_of. rewrite E1, E2, nget_insert_ne, zget_insert_ne by done.
  now rewrite (bool_decide_ext _ _ (round_mem s Hs)).
Qed.

Lemma round_gifts k :
  gifts v' k = gifts v k + (if bool_decide (g = k) then u - zget (scaled v) a else 0).
Proof.
  destruct (vose_after_fields v a g sm lg (zget (scaled v) a) (zget (scaled v) g)) as (E1 & E2 & E3 & _).
  fold v' in E1, E2, E3. destruct round_bounds as [Ha Hg]. destruct (ew_wf _ _ Hwf) as [H1 H2 H3 _ _ _].
  unfold gifts. rewrite E3, length_insert, (zsum_point (gift v k) _ _ a) by (try lia; apply round_gift).
  assert (gift v k a = 0) as ->.
  { unfold gift, rest_of. rewrite (bool_decide_eq_true_2 (a ∈ active v)); [now case_bool_decide|].
    rewrite round_active. left. }
  unfold gift, rest_of. rewrite (bool_decide_eq_false_2 _ round_gone), E1, E2.
  rewrite nget_insert_eq, zget_insert_eq by lia. lia.
Qed.

Lemma round_own k :
  own v' k = own v k - (if bool_decide (g = k) then u - zget (scaled v) a else 0).
Proof.
  destruct (vose_after_fields v a g sm lg (zget (scaled v) a) (zget (scaled v) g)) as (E1 & _ & E3 & _).
  fold v' in E1, E3. destruct round_bounds as [Ha Hg], round_fresh as (Hne & _ & _).
  destruct (ew_wf _ _ Hwf) as [H1 _ H3 _ _ _]. unfold own. rewrite E1, E3.
  destruct (decide (k = a)) as [->|Hk].
  - rewrite (bool_decide_eq_false_2 _ round_gone), zget_insert_eq by lia.
    rewrite bool_decide_eq_true_2 by (rewrite round_active; left).
    rewrite bool_decide_eq_false_2 by done. lia.
  - rewrite (bool_decide_ext _ _ (round_mem k Hk)), (zget_insert_ne _ a) by done.
    destruct (decide (g = k)) as [<-|Hgk].
    + rewrite !bool_decide_eq_true_2; [rewrite zget_insert_eq by lia; lia|done|].
      rewrite round_active. right; left.
    + rewrite zget_insert_ne, (bool_decide_eq_false_2 (g = k)) by done. lia.
Qed.

Lemma round_scaled :
  scaled v' = <[g:=zget (scaled v) g + zget (scaled v) a - u]> (scaled v) /\
  (forall i, i <> g -> zget (scaled v') i = zget (scaled v) i) /\
  zget (scaled v') g = zget (scaled v) g + zget (scaled v) a - u.
Proof.
  destruct (vose_after_fields v a g sm lg (zget (scaled v) a) (zget (scaled v) g)) as (_ & _ & E & _).
  fold v' in E. destruct round_bounds as [_ Hg], (ew_wf _ _ Hwf) as [_ _ H3 _ _ _]. rewrite E.
  repeat split; [intros i Hi; now rewrite zget_insert_ne|now rewrite zget_insert_eq by lia].
Qed.

Lemma round_sum : zsum (zget (scaled v')) (active v') = u * Z.of_nat (length (active v')).
Proof.
  destruct (vose_after_fields v a g sm lg (zget (scaled v) a) (zget (scaled v) g)) as (_ & _ & _ & E).
  fold v' in E. destruct round_scaled as (_ & H1 & H2), round_fresh as (_ & _ & Hg & _).
  pose proof (ew_sum _ _ Hwf) as Hs. rewrite (zsum_perm _ _ _ round_active), round_active in Hs.
  rewrite (zsum_perm _ _ _ E), E. cbn [zsum foldr length] in *.
  fold (zsum (zget (scaled v)) (sm ++ lg)) in Hs. fold (zsum (zget (scaled v')) (sm ++ lg)).
  rewrite H2, (zsum_ext _ (zget (scaled v)) (sm ++ lg)); [lia|]. intros x Hx. apply H1. by intros ->.
Qed.

Lemma round_stacks :
  Forall (fun i => 0 <= zget (scaled v') i < u) (small v') /\
  Forall (fun i => u <= zget (scaled v') i) (large v').
Proof.
  destruct round_scaled as (_ & H1 & H2), round_fresh as (_ & _ & Hg & _).
  pose proof (ew_small _ _ Hwf) as Hs. pose proof (ew_large _ _ Hwf) as Hl. rewrite ES in Hs. rewrite EL in Hl.
  apply Forall_cons in Hs as [Hau Hs]. apply Forall_cons in Hl as [Hgu Hl].
  assert (Forall (fun i => 0 <= zget (scaled v') i < u) sm).
  { rewrite Forall_forall in Hs |- *. intros i Hi. rewrite H1; [auto|]. intros ->. apply Hg, elem_of_app. now left. }
  assert (Forall (fun i => u <= zget (scaled v') i) lg).
  { rewrite Forall_forall in Hl |- *. intros i Hi. rewrite H1; [auto|]. intros ->. apply Hg, elem_of_app. now right. }
  subst v'. unfold vose_after in *. cbn in *. destruct (Z.ltb_spec (zget (scaled v) g + zget (scaled v) a - u) u) as [Hlt|Hge];
    cbn in *; split; auto; constructor; auto; lia.
Qed.

Lemma vose_round_exact : exact_wf P v'.
Proof.
  destruct (vose_after_fields v a g sm lg (zget (scaled v) a) (zget (scaled v) g)) as (E1 & _ & _ & E).
  fold v' in E1, E. destruct round_bounds as [Hab Hgb], round_fresh as (Hne & Ha & Hg & Hnd).
  split.
  - destruct (vose_step_ok _ v a g sm lg (ew_wf _ _ Hwf) ES EL) as (w & Ew & Hw & _).
    destruct (vose_step_eq _ v a g sm lg (ew_wf _ _ Hwf) Hab Hgb) as (pa & pg & Ha' & Hg' & Ew').
    rewrite Ew' in Ew. injection Ew as <-. unfold v', zget. now rewrite Ha', Hg'.
  - rewrite E. now apply NoDup_cons.
  - intros k Hk. rewrite round_own, round_gifts. pose proof (ew_dist _ _ Hwf k Hk). lia.
  - apply round_sum.
  - apply round_stacks.
  - apply round_stacks.
  - intros k Hk Hn. rewrite E1. destruct (decide (k = a)) as [->|Hka].
    + rewrite zget_insert_eq by (rewrite (vw_prob _ _ (ew_wf _ _ Hwf)); done).
      pose proof (ew_small _ _ Hwf) as Hs. rewrite ES in Hs. apply Forall_cons in Hs as [Hs _]. lia.
    + rewrite zget_insert_ne by done. apply (ew_prob _ _ Hwf); [done|]. now rewrite <- (round_mem k Hka).
Qed.
End Round.

Lemma vose_loop_exact P fuel v v' :
  exact_wf P v -> vose_loop fuel v = Ok v' -> exact_wf P v' /\ (small v' = [] \/ large v' = []).
Proof.
  revert v; induction fuel as [|f IH]; intros v Hwf;
    cbn [vose_loop]; destruct (small v) as [|a sm] eqn:ES, (large v) as [|g lg] eqn:EL;
    try (intros [= <-]; auto).
  intros H. destruct (round_bounds P v a g sm lg Hwf ES EL) as [Ha Hg].
  destruct (vose_step_eq _ v a g sm lg (ew_wf _ _ Hwf) Ha Hg) as (pa & pg & Ea & Eg & E).
  rewrite E in H. cbn [mbind res_bind] in H. apply IH in H; [done|].
  pose proof (vose_round_exact P v a g sm lg Hwf ES EL) as HR. unfold zget in HR. now rewrite Ea, Eg in HR.
Qed.

Lemma zsum_seq P : zsum (zget P) (seq 0 (length P)) = zsum id P.
Proof.
  induction P as [|x P IH] using rev_ind; [done|].
  rewrite length_app, Nat.add_1_r, seq_S, !zsum_app, <- IH. f_equal.
  - apply zsum_ext. intros i Hi%elem_of_seq. unfold zget. now rewrite lookup_app_l by lia.
  - cbn. unfold zget. now rewrite lookup_app_r, Nat.sub_diag by lia.
Qed.

Lemma vose_split_exact P s sm lg sm' lg' :
  Forall (fun i => 0 <= zget P i) (seq 0 s) -> vose_split s P sm lg = Ok (sm', lg') ->
  Forall (fun i => 0 <= zget P i < u) sm -> Forall (fun i => u <= zget P i) lg ->
  sm' ++ lg' ≡ₚ seq 0 s ++ sm ++ lg /\
  Forall (fun i => 0 <= zget P i < u) sm' /\ Forall (fun i => u <= zget P i) lg'.
Proof.
  revert sm lg; induction s as [|s IH]; intros sm lg HP H Hs Hl; cbn [vose_split] in H.
  { injection H as <- <-. auto. }
  rewrite seq_S, Forall_app, Forall_singleton in HP. destruct HP as [HP Hp].
  apply bind_ok in H as (p & E & H). apply rd_ok in E.
  assert (Ep : zget P s = p) by (unfold zget; now rewrite E). cbn in Hp. rewrite Ep in Hp.
  cbn in H. destruct (Z.ltb_spec p u); eapply IH in H as (H1 & H2 & H3);
    try (constructor; [lia|done]); try done; (split; [|done]);
    rewrite H1, seq_S, <- app_assoc; apply Permutation_app_head; cbn; rewrite <- ?Permutation_middle; done.
Qed.

Lemma exact_start P sm lg :
  Forall (fun p => 0 <= p) P -> zsum id P = u * Z.of_nat (length P) ->
  vose_split (length P) P [] [] = Ok (sm, lg) ->
  exact_wf P (mkVose (replicate (length P) 0) (replicate (length P) 0%nat) P sm lg).
Proof.
  intros HP Hsum H. destruct (vose_start P) as (sm' & lg' & E & _ & Hwf).
  rewrite E in H. injection H as <- <-.
  apply vose_split_exact in E as (E1 & E2 & E3); [|
    apply Forall_forall; intros i Hi%elem_of_seq;
    destruct (lookup_lt_is_Some_2 P i ltac:(lia)) as [p Hp]; unfold zget; rewrite Hp;
    exact (Forall_lookup_1 _ _ _ _ HP Hp)|constructor..].
  rewrite app_nil_r in E1.
  assert (Hin : forall k, (k < length P)%nat -> k ∈ sm' ++ lg').
  { intros k Hk. rewrite E1. apply elem_of_seq. lia. }
  split; cbn [small large scaled alias_probability alias_table active]; auto.
  - unfold active; cbn. rewrite E1. apply NoDup_seq.
  - intros k Hk. unfold gifts. rewrite (zsum_const _ 0).
    + unfold own, active; cbn. rewrite bool_decide_eq_true_2 by auto. lia.
    + cbn. intros s Hs%elem_of_seq. unfold gift, rest_of, active; cbn.
      rewrite (bool_decide_eq_true_2 (s ∈ sm' ++ lg')) by (apply Hin; lia). now case_bool_decide.
  - unfold active; cbn [small large scaled]. rewrite (zsum_perm _ _ _ E1), E1, length_seq, zsum_seq. done.
  - intros k Hk Hn. exfalso. now apply Hn, Hin.
Qed.

(** When the loop stops, whatever is left on a stack weighs exactly one. *)
Lemma left_is_one P v k :
  exact_wf P v -> small v = [] \/ large v = [] -> k ∈ active v -> zget (scaled v) k = u.
Proof.
  intros Hwf Hend Hk. pose proof (ew_sum _ _ Hwf) as Hs. unfold active in *.
  destruct Hend as [E|E]; rewrite E in *; cbn [app] in *.
  - pose proof (zsum_tight _ _ _ (ew_large _ _ Hwf) Hs) as H. rewrite Forall_forall in H. auto.
  - rewrite app_nil_r in *. rewrite (zsum_short (zget (scaled v)) u (small v)) in Hk; [by apply elem_of_nil in Hk| |done].
    eapply Forall_impl; [apply (ew_small _ _ Hwf)|]. cbn; lia.
Qed.

Lemma vose_fill_get prob stack prob' k :
  vose_fill prob stack = Ok prob' -> zget prob' k = if bool_decide (k ∈ stack) then u else zget prob k.
Proof.
  unfold vose_fill. revert prob; induction stack as [|i l IH]; intros prob H; cbn [rfold] in H.
  { injection H as <-. rewrite bool_decide_eq_false_2 by set_solver. done. }
  apply bind_ok in H as (p & E & H). apply wr_ok in E as [Hi ->]. rewrite (IH _ H).
  destruct (decide (i = k)) as [->|Hne].
  - rewrite (bool_decide_eq_true_2 (k ∈ k :: l)), zget_insert_eq by (done || left). now case_bool_decide.
  - rewrite zget_insert_ne by done.
    rewrite (bool_decide_ext (k ∈ i :: l) (k ∈ l)); [done|]. rewrite elem_of_cons.
    split; [intros [->|?]; done|now right].
Qed.

Definition selects (r : res nat) (k : nat) : bool :=
  match r with Ok i => Nat.eqb i k | Err _ => false end.

(** How many of the [n * u] pairs of an index and a fraction select [k]. *)
Definition draws (tbl : list Z * list nat) (n k : nat) : Z :=
  zsum (fun s => zsum (fun c => b2z (selects (alias_pick Z.ltb tbl s (Z.of_nat c)) k))
                      (seq 0 (Z.to_nat u)))
       (seq 0 n).

(** The fractions of slot [s] that select [k]. *)
Lemma slot_draws prob table s k :
  0 <= zget prob s <= u -> (s < length prob)%nat -> (s < length table)%nat ->
  zsum (fun c => b2z (selects (alias_pick Z.ltb (prob, table) s (Z.of_nat c)) k))
       (seq 0 (Z.to_nat u)) =
  (if bool_decide (s = k) then zget prob s else 0) +
  (if bool_decide (nget table s = k) then u - zget prob s else 0).
Proof.
  intros Hp Hs Ht. set (p := zget prob s) in *.
  assert (Hpick : forall c : nat, alias_pick Z.ltb (prob, table) s (Z.of_nat c) =
                  Ok (if Z.of_nat c <? p then s else nget table s)).
  { intros c. unfold alias_pick, p, zget, nget. cbn [fst snd].
    destruct (rd_lt prob s Hs) as (x & -> & ->). destruct (rd_lt table s Ht) as (y & -> & ->). done. }
  replace (Z.to_nat u) with (Z.to_nat p + Z.to_nat (u - p))%nat by lia.
  rewrite seq_app, zsum_app. f_equal.
  - rewrite (zsum_const _ (b2z (bool_decide (s = k)))), length_seq; [case_bool_decide; cbn; lia|].
    intros c Hc%elem_of_seq. rewrite Hpick. destruct (Z.ltb_spec (Z.of_nat c) p); [|lia].
    cbn. destruct (Nat.eqb_spec s k); now case_bool_decide.
  - rewrite (zsum_const _ (b2z (bool_decide (nget table s = k)))), length_seq; [case_bool_decide; cbn; lia|].
    intros c Hc%elem_of_seq. rewrite Hpick. destruct (Z.ltb_spec (Z.of_nat c) p); [lia|].
    cbn. destruct (Nat.eqb_spec (nget table s) k); now case_bool_decide.
Qed.

(** The finished table settles every slot: what a slot keeps and gives away
    is what the loop's final state says. *)
Lemma finished P v prob :
  exact_wf P v -> small v = [] \/ large v = [] ->
  (forall k, zget prob k = if bool_decide (k ∈ active v) then u else zget (alias_probability v) k) ->
  0 <= u ->
  (forall k, (k < length P)%nat -> 0 <= zget prob k <= u) /\
  (forall k, own v k = zget prob k) /\
  (forall s, rest_of v s = u - zget prob s).
Proof.
  intros Hwf Hend Hprob Hu. repeat split; intros; rewrite ?Hprob; unfold own, rest_of;
    case_bool_decide; try lia; try (apply (ew_prob _ _ Hwf); done).
  now apply (left_is_one P).
Qed.

(** C27: with exact arithmetic the table encodes the weights it was built
    from: for non-negative weights [P] that sum to [n * u], drawing a slot
    and a fraction uniformly selects entry [k] in exactly [P k] of the
    [n * u] cases. *)
Theorem vose_table_distribution (P : list Z) :
  0 <= u -> Forall (fun p => 0 <= p) P -> zsum id P = u * Z.of_nat (length P) ->
  exists tbl, vose_table P = Ok tbl /\
    forall k p, P !! k = Some p -> draws tbl (length P) k = p.
Proof.
  intros Hu HP Hsum. unfold vose_table.
  destruct (vose_start P) as (sm & lg & E & Hlen & Hwf). rewrite E. cbn [mbind res_bind].
  pose proof (exact_start P sm lg HP Hsum E) as Hex.
  destruct (vose_loop_ok (length P) (length P) _ Hwf) as (v & El & [H1 H2 H3 H4 H5 H6]); [cbn; lia|].
  cbn [aa_zero vose_exact exact_alias] in El |- *. rewrite El. cbn [mbind res_bind].
  destruct (vose_loop_exact _ _ _ _ Hex El) as [Hv Hend].
  destruct (vose_fill_ok _ _ _ H1 H5) as (prob1 & E1 & Hp1). rewrite E1. cbn [mbind res_bind].
  destruct (vose_fill_ok _ _ _ Hp1 H4) as (prob & E2 & Hp2). rewrite E2. cbn [mbind res_bind].
  eexists; split; [reflexivity|]. intros k p Hk.
  pose proof (lookup_lt_Some _ _ _ Hk) as Hkl.
  destruct (finished P v prob Hv Hend) as (Hb & Ho & Hr); [|done|].
  { intros i. rewrite (vose_fill_get _ _ _ _ E2), (vose_fill_get _ _ _ _ E1). unfold active.
    rewrite (bool_decide_ext (i ∈ small v ++ large v) (i ∈ small v \/ i ∈ large v)) by apply elem_of_app.
    repeat case_bool_decide; tauto. }
  unfold draws. rewrite (zsum_ext _ (fun s => (if bool_decide (s = k) then zget prob s else 0) + gift v k s)).
  2:{ intros s Hs%elem_of_seq. rewrite slot_draws by (apply Hb || idtac; lia). unfold gift. now rewrite Hr. }
  rewrite zsum_plus, (zsum_point (fun _ => 0) _ _ k) by (done || (intros s Hs; now rewrite bool_decide_eq_false_2)).
  rewrite zsum_zero, bool_decide_eq_true_2 by done.
  pose proof (ew_dist _ _ Hv k Hkl) as Hd. rewrite Ho in Hd. unfold gifts in Hd. rewrite H3 in Hd.
  unfold zget in Hd at 2. rewrite Hk in Hd. cbn in Hd. lia.
Qed.
End VoseExact.

(** Four entries of weights 1/4, 7/4, 2 and 0. *)
Lemma vose_table_distribution_witness :
  exists tbl, @vose_table Z (exact_alias 4) [1; 7; 8; 0] = Ok tbl /\
    forall k p, [1; 7; 8; 0] !! k = Some p -> draws 4 tbl 4 k = p.
Proof.
  apply (vose_table_distribution 4 [1; 7; 8; 0]); [lia|repeat constructor; lia|reflexivity].
Defined.

(** What a finished table promises to selection: as many slots as entries,
    and only entries for aliases. *)
Record table_for {R} (n : nat) (tbl : list R * list nat) : Prop := {
  tf_prob : length (fst tbl) = n;
  tf_alias : length (snd tbl) = n;
  tf_below : below n (snd tbl)
}.

(** Selection never leaves the queue: over the table of [n > 0] entries it
    fails only if drawing the random number does, and otherwise returns an
    index below [n]. *)
Lemma select_next_queue_entry_bound {G} `{RandGenLaws G} next_percent n tbl (r : G) :
  0 < n < 2 ^ 32 -> table_for (Z.to_nat n) tbl ->
  match rand_below r n with
  | Err e => select_next_queue_entry next_percent n tbl r = Err e
  | Ok _ => exists i r', select_next_queue_entry next_percent n tbl r = Ok (i, r') /\ (i < Z.to_nat n)%nat
  end.
Proof.
  intros Hn [H1 H2 H3]. unfold select_next_queue_entry.
  destruct (rand_below r n) as [[s r1]|e] eqn:Er; cbn [mbind res_bind]; [|done].
  assert (Hs : 0 <= s < n).
  { destruct (decide (n <= 1)).
    - rewrite rand_below_trivial in Er by done. injection Er as <- _. lia.
    - eapply rand_below_bound; [|exact Er]. lia. }
  destruct (next_percent r1) as [p r2]. unfold alias_pick.
  destruct (rd_lt (fst tbl) (Z.to_nat s)) as (pr & -> & _); [lia|].
  destruct (rd_lt (snd tbl) (Z.to_nat s)) as (al & -> & Hal); [lia|]. cbn [mbind res_bind].
  do 2 eexists; split; [reflexivity|]. destruct (dlt p pr); [lia|].
  exact (Forall_lookup_1 _ _ _ _ H3 Hal).
Qed.
