(* ===== verification/TestcaseCache.v ===== *)
(** The testcase cache: [queue_testcase_get], [queue_testcase_store_mem],
    [queue_testcase_retake] and [queue_testcase_retake_mem] of
    [src/afl-fuzz-queue.c].

    The cache maps slots to queue entries whose [testcase_buf] is loaded.  It
    is written against the [RandGen] interface: eviction draws slots until it
    hits one that can go. *)

From S2P Require Import Prelude Words Float State Bitmap Rand.

(** ** The cache's part of [afl_state_t] *)

Record cache := mkCache {
  q_testcase_max_cache_size : Z;
  q_testcase_max_cache_entries : Z;
  q_testcase_cache_size : Z;
  q_testcase_max_cache_count : Z;
  q_testcase_cache_count : Z;
  q_testcase_smallest_free : Z;
  q_testcase_evictions : Z;
  q_testcase_cache : list (option nat);   (* indices in queue_buf *)
  do_once : bool                          (* static in queue_testcase_get *)
}.

Section Cache.
Context {G : Type} `{RandGen G}.
Context (read_file : list Z -> option (list Z)).

(** [open] and [ck_read] of [len] bytes. *)
Definition load_testcase (q : queue_entry) (len : Z) : res (list Z) :=
  match read_file (fname q) with
  | None => Err Fatal
  | Some content =>
      if Z.of_nat (length content) <? len then Err Fatal else Ok (take (Z.to_nat len) content)
  end.

Definition cache_over_size (c : cache) (len : Z) : bool :=
  q_testcase_max_cache_size c <=? u64 (q_testcase_cache_size c + len).

(** The condition of the eviction loop. *)
Definition cache_full (c : cache) (len : Z) : bool :=
  cache_over_size c len || (u32 (q_testcase_max_cache_entries c - 1) <=? q_testcase_cache_count c).

(** Once the cache is filled by size, that is the maximal number of entries.
    The reallocated array has one slot more than is kept here; its content is
    indeterminate and reading it is a fault. *)
Definition learn_entries (c : cache) (len : Z) : cache :=
  if cache_over_size c len &&
     ((q_testcase_cache_count c <? q_testcase_max_cache_entries c) &&
      (q_testcase_max_cache_count c <? q_testcase_max_cache_entries c)) && negb (do_once c)
  then
    let e := if q_testcase_cache_count c <? q_testcase_max_cache_count c
             then u32 (q_testcase_max_cache_count c + 1) else u32 (q_testcase_cache_count c + 1) in
    mkCache (q_testcase_max_cache_size c) e (q_testcase_cache_size c) (q_testcase_max_cache_count c)
      (q_testcase_cache_count c) (q_testcase_smallest_free c) (q_testcase_evictions c)
      (take (Z.to_nat e) (q_testcase_cache c)) true
  else c.

(** Get a random slot whose entry is not in use. *)
Fixpoint pick_victim (fuel : nat) (c : cache) (cur : option nat) (g : G) : res (nat * nat * G) :=
  match fuel with
  | O => Err OutOfFuel
  | S f =>
      '(tid, g) ← rand_below g (q_testcase_max_cache_count c);
      slot ← rd (q_testcase_cache c) (Z.to_nat tid);
      match slot with
      | None => pick_victim f c cur g
      | Some p => if bool_decide (cur = Some p) then pick_victim f c cur g
                  else Ok (Z.to_nat tid, p, g)
      end
  end.

(** Evict entry [p] from slot [tid]. *)
Definition evict (c : cache) (a : afl) (tid p : nat) : res (cache * afl) :=
  old_cached ← deref a p;
  slots ← wr (q_testcase_cache c) tid None;
  Ok (mkCache (q_testcase_max_cache_size c) (q_testcase_max_cache_entries c)
        (u64 (q_testcase_cache_size c - q_len old_cached)) (q_testcase_max_cache_count c)
        (u32 (q_testcase_cache_count c - 1))
        (if Z.of_nat tid <? q_testcase_smallest_free c then Z.of_nat tid
         else q_testcase_smallest_free c)
        (u32 (q_testcase_evictions c + 1)) slots (do_once c),
      upd p (set_testcase_buf None) a).

(** The eviction loop; [tid] is the last slot that was freed. *)
Fixpoint make_room (fuel : nat) (c : cache) (a : afl) (len : Z) (tid : nat) (g : G)
    : res (cache * afl * nat * G) :=
  if negb (cache_full c len) then Ok (c, a, tid, g) else
  match fuel with
  | O => Err OutOfFuel
  | S f =>
      let c := learn_entries c len in
      '(tid, p, g) ← pick_victim (S f) c (queue_cur a) g;
      '(c, a) ← evict c a tid p;
      make_room f c a len tid g
  end.

(** [while (afl->q_testcase_cache[tid] != NULL) ++tid;] *)
Fixpoint find_free (fuel : nat) (slots : list (option nat)) (tid : nat) : res nat :=
  match fuel with
  | O => Err OutOfFuel
  | S f =>
      slot ← rd slots tid;
      match slot with None => Ok tid | Some _ => find_free f slots (S tid) end
  end.

(** Register entry [p], whose buffer is [buf], as cached in slot [tid]. *)
Definition register (c : cache) (a : afl) (p tid : nat) (len : Z) (buf : list Z) : res (cache * afl) :=
  slots ← wr (q_testcase_cache c) tid (Some p);
  let t := Z.of_nat tid in
  let '(max_count, free) :=
    if q_testcase_max_cache_count c <=? t then (u32 (t + 1), q_testcase_smallest_free c)
    else if t =? q_testcase_smallest_free c then (q_testcase_max_cache_count c, u32 (t + 1))
    else (q_testcase_max_cache_count c, q_testcase_smallest_free c) in
  Ok (mkCache (q_testcase_max_cache_size c) (q_testcase_max_cache_entries c)
        (u64 (q_testcase_cache_size c + len)) max_count (u32 (q_testcase_cache_count c + 1)) free
        (q_testcase_evictions c) slots (do_once c),
      upd p (set_testcase_buf (Some buf)) a).

(** [queue_testcase_get]: the testcase of entry [p].  [fuel] bounds the
    eviction loop and its draws.  Without a cache the buffer is a scratch
    buffer of the state. *)
Definition queue_testcase_get (fuel : nat) (c : cache) (a : afl) (p : nat) (g : G)
    : res (list Z * cache * afl * G) :=
  q ← deref a p;
  let len := q_len q in
  if q_testcase_max_cache_size c =? 0 then buf ← load_testcase q len; Ok (buf, c, a, g) else
  match testcase_buf q with
  | Some buf => Ok (buf, c, a, g)
  | None =>
      '(c, a, tid, g) ← make_room fuel c a len (Z.to_nat (q_testcase_max_cache_count c)) g;
      let tid := if q_testcase_max_cache_entries c <=? Z.of_nat tid
                 then Z.to_nat (q_testcase_smallest_free c) else tid in
      tid ← find_free (S (length (q_testcase_cache c))) (q_testcase_cache c) tid;
      buf ← load_testcase q len;
      '(c, a) ← register c a p tid len buf;
      Ok (buf, c, a, g)
  end.

(** [queue_testcase_store_mem]: cache a new entry's testcase, unless there is
    no room. *)
Definition queue_testcase_store_mem (c : cache) (a : afl) (p : nat) (mem : list Z) : res (cache * afl) :=
  q ← deref a p;
  let len := q_len q in
  if cache_full c len then Ok (c, a) else
  let tid := if q_testcase_max_cache_entries c <=? q_testcase_max_cache_count c
             then q_testcase_smallest_free c else q_testcase_max_cache_count c in
  tid ← find_free (S (length (q_testcase_cache c))) (q_testcase_cache c) (Z.to_nat tid);
  if Z.of_nat (length mem) <? len then Err Fault else
  register c a p tid len (take (Z.to_nat len) mem).

(** The cached size after an entry's length went from [old_len] to [len]. *)
Definition resize_cached (c : cache) (len old_len : Z) : cache :=
  mkCache (q_testcase_max_cache_size c) (q_testcase_max_cache_entries c)
    (u64 (q_testcase_cache_size c + len - old_len)) (q_testcase_max_cache_count c)
    (q_testcase_cache_count c) (q_testcase_smallest_free c) (q_testcase_evictions c)
    (q_testcase_cache c) (do_once c).

(** After a custom trim: reload from disk. *)
Definition queue_testcase_retake (c : cache) (a : afl) (p : nat) (old_len : Z) : res (cache * afl) :=
  q ← deref a p;
  match testcase_buf q with
  | None => Ok (c, a)
  | Some _ =>
      let len := q_len q in
      let c := if negb (len =? old_len) then resize_cached c len old_len else c in
      buf ← load_testcase q len;
      Ok (c, upd p (set_testcase_buf (Some buf)) a)
  end.

(** After a normal trim: take the new data, which is the cached buffer itself
    ([None]) or another one. *)
Definition queue_testcase_retake_mem (c : cache) (a : afl) (p : nat) (in_ : option (list Z))
    (len old_len : Z) : res (cache * afl) :=
  q ← deref a p;
  match testcase_buf q with
  | None => Ok (c, a)
  | Some buf =>
      let c := if negb (len =? old_len) then resize_cached c len old_len else c in
      match in_ with
      | None => Ok (c, upd p (set_testcase_buf (Some (take (Z.to_nat len) buf))) a)
      | Some mem =>
          if Z.of_nat (length mem) <? len then Err Fault
          else Ok (c, upd p (set_testcase_buf (Some (take (Z.to_nat len) mem))) a)
      end
  end.
End Cache.
