(* ===== verification/CacheThms.v ===== *)
(** The testcase cache keeps its books: the invariant of the cache, that
    every operation keeps it, and when [queue_testcase_get] returns. *)

From S2P Require Import Prelude Words Float State Bitmap Rand Text Queue QueueScore TestcaseCache.

(** ** The invariant *)

Definition occupied (s : option nat) : Z := match s with Some _ => 1 | None => 0 end.

(** The length of the entry in a slot. *)
Definition slot_len (buf : list queue_entry) (s : option nat) : Z :=
  match s with
  | Some p => match buf !! p with Some q => q_len q | None => 0 end
  | None => 0
  end.

Definition holds (slots : list (option nat)) (i p : nat) : Prop := slots !! i = Some (Some p).

(** The slots, the highest count [m] and the smallest free slot [f]: each
    entry whose buffer is loaded has one slot, and the slots below [f] are
    taken. *)
Record slots_wf (slots : list (option nat)) (m f : Z) (buf : list queue_entry) : Prop := {
  sw_max i p : holds slots i p -> Z.of_nat i < m;
  sw_max_le : 0 <= m <= Z.of_nat (length slots);
  sw_free_le : 0 <= f <= m;
  sw_free i : Z.of_nat i < f -> exists p, holds slots i p;
  sw_inj i j p : holds slots i p -> holds slots j p -> i = j;
  sw_valid i p : holds slots i p -> (p < length buf)%nat;
  sw_buf p q : buf !! p = Some q -> (is_Some (testcase_buf q) <-> exists i, holds slots i p)
}.

(** Project out of an explicit cache. *)
Ltac ccbn := cbn [q_testcase_max_cache_size q_testcase_max_cache_entries q_testcase_cache_size
  q_testcase_max_cache_count q_testcase_cache_count q_testcase_smallest_free q_testcase_evictions
  q_testcase_cache do_once].

Record cache_wf (c : cache) (buf : list queue_entry) : Prop := {
  cw_len : Z.of_nat (length (q_testcase_cache c)) = q_testcase_max_cache_entries c;
  cw_entries : 0 < q_testcase_max_cache_entries c < 2 ^ 32;
  cw_count : q_testcase_cache_count c = zsum occupied (q_testcase_cache c);
  cw_size : q_testcase_cache_size c = zsum (slot_len buf) (q_testcase_cache c);
  cw_slots : slots_wf (q_testcase_cache c) (q_testcase_max_cache_count c) (q_testcase_smallest_free c) buf;
  cw_lens p q : buf !! p = Some q -> 0 <= q_len q < 2 ^ 32
}.

Lemma slot_len_range buf s :
  (forall p q, buf !! p = Some q -> 0 <= q_len q < 2 ^ 32) -> 0 <= slot_len buf s < 2 ^ 32.
Proof. intros H. destruct s as [p|]; cbn; [|lia]. destruct (buf !! p) eqn:E; [eauto|lia]. Qed.

Lemma occupied_range s : 0 <= occupied s <= 1.
Proof. destruct s; cbn; lia. Qed.

(** The sizes of the cached buffers cannot overflow the [u64] total. *)
Lemma slots_size_range buf slots :
  (forall p q, buf !! p = Some q -> 0 <= q_len q < 2 ^ 32) -> Z.of_nat (length slots) < 2 ^ 32 ->
  0 <= zsum (slot_len buf) slots < 2 ^ 64.
Proof.
  intros H Hl. pose proof (zsum_bounds (slot_len buf) 0 (2 ^ 32 - 1) slots
    ltac:(intros s _; pose proof (slot_len_range buf s H); lia)) as Hb.
  change (2 ^ 64) with (2 ^ 32 * 2 ^ 32). nia.
Qed.

Lemma slots_count_range slots : 0 <= zsum occupied slots <= Z.of_nat (length slots).
Proof.
  pose proof (zsum_bounds occupied 0 1 slots ltac:(intros; apply occupied_range)). lia.
Qed.

(** Changing a buffer changes no length. *)
Lemma slot_len_upd p b buf s : slot_len (alter (set_testcase_buf b) p buf) s = slot_len buf s.
Proof.
  destruct s as [r|]; [|done]. cbn. destruct (decide (p = r)) as [->|Hne].
  - rewrite lookup_alter_eq. now destruct (buf !! r).
  - now rewrite lookup_alter_ne.
Qed.

Lemma holds_insert slots i x j p :
  (i < length slots)%nat ->
  holds (<[i:=x]> slots) j p <-> (j = i /\ x = Some p) \/ (j <> i /\ holds slots j p).
Proof.
  intros Hi. unfold holds. destruct (decide (i = j)) as [->|Hne].
  - rewrite list_lookup_insert_eq by done.
    split; [intros [= ->]; now left|intros [[_ ->]|[? _]]; done].
  - rewrite list_lookup_insert_ne by done.
    split; [now right|intros [[-> _]|[_ ?]]; done].
Qed.

Lemma holds_lt slots i p : holds slots i p -> (i < length slots)%nat.
Proof. apply lookup_lt_Some. Qed.

(** Entries other than the one that moves in or out keep their slot. *)
Lemma holds_others slots tid x r :
  slots !! tid <> Some (Some r) -> x <> Some r -> (tid < length slots)%nat ->
  (exists i, holds slots i r) <-> (exists i, holds (<[tid:=x]> slots) i r).
Proof.
  intros Ht Hx Hlt. split; intros [i Hi]; exists i.
  - apply holds_insert; [done|]. right. split; [|done]. intros ->. done.
  - apply holds_insert in Hi as [[_ ->]|[_ Hi]]; done.
Qed.

(** The occupied slots fit below the highest count. *)
Lemma count_le_max slots m f buf : slots_wf slots m f buf -> zsum occupied slots <= m.
Proof.
  intros Hwf. pose proof (sw_max_le _ _ _ _ Hwf).
  rewrite <- (take_drop (Z.to_nat m) slots), zsum_app, (zsum_zero occupied (drop _ _)).
  - pose proof (slots_count_range (take (Z.to_nat m) slots)) as Hr. rewrite length_take in Hr. lia.
  - intros s Hs. apply list_elem_of_lookup in Hs as [i Hi]. rewrite lookup_drop in Hi.
    destruct s as [p|]; [|done]. apply (sw_max _ _ _ _ Hwf) in Hi. lia.
Qed.

(** ** Finding a free slot *)

Lemma find_free_spec slots tid j fuel :
  slots !! j = Some None -> (tid <= j)%nat -> (j - tid < fuel)%nat ->
  exists t, find_free fuel slots tid = Ok t /\ slots !! t = Some None.
Proof.
  intros Hj. revert tid; induction fuel as [|f IH]; intros tid Ht Hf; [lia|]. cbn [find_free].
  pose proof (lookup_lt_Some _ _ _ Hj). destruct (rd_lt slots tid) as (s & -> & Hs); [lia|].
  cbn [mbind res_bind]. destruct s as [p|]; [|exists tid; auto].
  assert (tid <> j) by (intros ->; rewrite Hj in Hs; discriminate). apply IH; lia.
Qed.

Lemma free_slot slots : zsum occupied slots < Z.of_nat (length slots) -> exists j, slots !! j = Some None.
Proof.
  induction slots as [|[p|] slots IH]; cbn [length]; intros Hs.
  - cbn in Hs. lia.
  - unfold zsum in *. cbn in Hs. destruct IH as [j Hj]; [lia|]. now exists (S j).
  - now exists 0%nat.
Qed.

(** From the smallest free slot on there is one when the cache is not full. *)
Lemma find_free_from_smallest slots m f buf :
  slots_wf slots m f buf -> zsum occupied slots < Z.of_nat (length slots) ->
  exists t, find_free (S (length slots)) slots (Z.to_nat f) = Ok t /\ slots !! t = Some None.
Proof.
  intros Hwf Hc. destruct (free_slot _ Hc) as [j Hj]. pose proof (sw_free_le _ _ _ _ Hwf).
  pose proof (lookup_lt_Some _ _ _ Hj). apply (find_free_spec slots _ j); [done| |lia].
  destruct (decide (Z.of_nat j < f)) as [Hlt|]; [|lia].
  destruct (sw_free _ _ _ _ Hwf j Hlt) as [p Hp]. unfold holds in Hp. rewrite Hj in Hp. discriminate.
Qed.

Lemma find_free_here slots t :
  slots !! t = Some None -> find_free (S (length slots)) slots t = Ok t.
Proof. intros Ht. cbn [find_free]. now rewrite (proj2 (rd_ok _ _ _) Ht). Qed.

(** ** Filling and clearing a slot *)

(** The counters after filling slot [t]. *)
Definition fill_max (m t : Z) : Z := if m <=? t then t + 1 else m.
Definition fill_free (m f t : Z) : Z := if m <=? t then f else if t =? f then t + 1 else f.

Lemma fill_slots_wf slots m f buf tid p q b :
  slots_wf slots m f buf -> slots !! tid = Some None -> buf !! p = Some q -> testcase_buf q = None ->
  slots_wf (<[tid:=Some p]> slots) (fill_max m (Z.of_nat tid)) (fill_free m f (Z.of_nat tid))
    (alter (set_testcase_buf (Some b)) p buf).
Proof.
  intros Hwf Ht Hq Hb. pose proof (lookup_lt_Some _ _ _ Ht) as Hlt. destruct Hwf as [H1 H2 H3 H4 H5 H6 H7].
  assert (Hfree : forall i, ~ holds slots i p).
  { intros i Hi. destruct (proj2 (H7 p q Hq) (ex_intro _ i Hi)) as [b' Hb']. congruence. }
  unfold fill_max, fill_free. split; rewrite ?length_insert, ?length_alter.
  - intros i r Hi. apply holds_insert in Hi as [[-> _]|[_ Hi]]; [| |done].
    + zcases; lia.
    + apply H1 in Hi. zcases; lia.
  - zcases; lia.
  - zcases; lia.
  - intros i Hi. destruct (decide (i = tid)) as [->|Hne].
    + exists p. apply holds_insert; [done|]. now left.
    + destruct (H4 i) as [r Hr]; [revert Hi; zcases; lia|]. exists r. apply holds_insert; [done|]. now right.
  - intros i j r Hi Hj. apply holds_insert in Hi; [|done]. apply holds_insert in Hj; [|done].
    destruct Hi as [[-> [= <-]]|[_ Hi]], Hj as [[-> Er]|[_ Hj]]; eauto.
    + exfalso. eapply Hfree; eauto.
    + injection Er as <-. exfalso. eapply Hfree; eauto.
  - intros i r Hi. apply holds_insert in Hi as [[_ [= <-]]|[_ Hi]]; [|eauto|done].
    exact (lookup_lt_Some _ _ _ Hq).
  - intros r x Hx. destruct (decide (p = r)) as [<-|Hne].
    + rewrite lookup_alter_eq, Hq in Hx. apply (inj Some) in Hx as <-. split; [|eauto]. intros _. exists tid.
      apply holds_insert; [done|]. now left.
    + rewrite lookup_alter_ne in Hx by done. rewrite (H7 r x Hx). apply holds_others; [congruence..|done].
Qed.

Lemma clear_slots_wf slots m f buf tid p :
  slots_wf slots m f buf -> holds slots tid p ->
  slots_wf (<[tid:=None]> slots) m (if Z.of_nat tid <? f then Z.of_nat tid else f)
    (alter (set_testcase_buf None) p buf).
Proof.
  intros Hwf Ht. pose proof (holds_lt _ _ _ Ht) as Hlt. destruct Hwf as [H1 H2 H3 H4 H5 H6 H7].
  assert (Hold : forall i r, holds (<[tid:=None]> slots) i r -> i <> tid /\ holds slots i r).
  { intros i r Hi. apply holds_insert in Hi as [[_ E]|Hi]; [discriminate|done|done]. }
  split; rewrite ?length_insert, ?length_alter; auto.
  - intros i r Hi. apply Hold in Hi as [_ Hi]. eauto.
  - zcases; lia.
  - intros i Hi. assert (Hf : Z.of_nat i < f /\ i <> tid) by (revert Hi; zcases; lia).
    destruct (H4 i) as [r Hr]; [lia|]. exists r. apply holds_insert; [done|]. now right.
  - intros i j r Hi Hj. apply Hold in Hi as [_ Hi]. apply Hold in Hj as [_ Hj]. eauto.
  - intros i r Hi. apply Hold in Hi as [_ Hi]. eauto.
  - intros r x Hx. destruct (decide (p = r)) as [<-|Hne].
    + rewrite lookup_alter_eq in Hx. destruct (buf !! p) as [y|]; [|discriminate].
      apply (inj Some) in Hx as <-. split; [intros [b Hb]; discriminate|].
      intros [i Hi]. apply Hold in Hi as [Hi1 Hi2]. exfalso. eauto.
    + rewrite lookup_alter_ne in Hx by done. rewrite (H7 r x Hx).
      apply holds_others; [unfold holds in Ht; congruence|congruence|done].
Qed.

(** ** The operations *)

Lemma lens_upd p b (buf : list queue_entry) :
  (forall r q, buf !! r = Some q -> 0 <= q_len q < 2 ^ 32) ->
  forall r q, alter (set_testcase_buf b) p buf !! r = Some q -> 0 <= q_len q < 2 ^ 32.
Proof.
  intros H r q Hr. destruct (decide (p = r)) as [<-|Hne].
  - rewrite lookup_alter_eq in Hr. destruct (buf !! p) eqn:E; [|discriminate].
    apply (inj Some) in Hr as <-. cbn. eauto.
  - rewrite lookup_alter_ne in Hr by done. eauto.
Qed.

Lemma register_ok c a p tid q b :
  cache_wf c (queue_buf a) -> q_testcase_cache c !! tid = Some None ->
  queue_buf a !! p = Some q -> testcase_buf q = None ->
  exists c', register c a p tid (q_len q) b = Ok (c', upd p (set_testcase_buf (Some b)) a) /\
    cache_wf c' (queue_buf (upd p (set_testcase_buf (Some b)) a)).
Proof.
  intros Hwf Ht Hq Hb. pose proof (lookup_lt_Some _ _ _ Ht) as Hlt. destruct Hwf as [H1 H2 H3 H4 H5 H6].
  pose proof (fill_slots_wf _ _ _ _ tid p q b H5 Ht Hq Hb) as Hs.
  set (slots := <[tid:=Some p]> (q_testcase_cache c)) in *.
  assert (Hlen : length slots = length (q_testcase_cache c)) by apply length_insert.
  assert (Hocc : zsum occupied slots = q_testcase_cache_count c + 1)
    by (unfold slots; rewrite (zsum_insert _ _ _ _ _ Ht), H3; cbn; lia).
  assert (Hsum : zsum (slot_len (queue_buf a)) slots = q_testcase_cache_size c + q_len q)
    by (unfold slots; rewrite (zsum_insert _ _ _ _ _ Ht), H4; cbn; rewrite Hq; lia).
  pose proof (slots_count_range slots). pose proof (slots_count_range (q_testcase_cache c)).
  pose proof (slots_size_range (queue_buf a) slots H6 ltac:(lia)).
  unfold register. rewrite wr_lt by done. cbn [mbind res_bind]. fold slots. clearbody slots.
  rewrite (uwrap_id 64 (_ + _)), (uwrap_id 32 (q_testcase_cache_count c + 1)), (uwrap_id 32 (Z.of_nat tid + 1)) by lia.
  rewrite upd_queue_buf. unfold fill_max, fill_free in Hs.
  destruct (q_testcase_max_cache_count c <=? Z.of_nat tid); [|destruct (Z.of_nat tid =? _)];
    (eexists; split; [reflexivity|]; split; ccbn;
     [lia|done|lia|rewrite <- Hsum; apply zsum_ext; intros s _; symmetry; apply slot_len_upd|exact Hs|now apply lens_upd]).
Qed.

Lemma evict_ok c a tid p :
  cache_wf c (queue_buf a) -> holds (q_testcase_cache c) tid p ->
  exists c', evict c a tid p = Ok (c', upd p (set_testcase_buf None) a) /\
    cache_wf c' (queue_buf (upd p (set_testcase_buf None) a)) /\
    q_testcase_cache c' = <[tid:=None]> (q_testcase_cache c) /\
    q_testcase_max_cache_size c' = q_testcase_max_cache_size c /\
    q_testcase_max_cache_entries c' = q_testcase_max_cache_entries c /\
    q_testcase_cache_count c' = q_testcase_cache_count c - 1 /\ do_once c' = do_once c.
Proof.
  intros Hwf Ht. pose proof (holds_lt _ _ _ Ht) as Hlt. destruct Hwf as [H1 H2 H3 H4 H5 H6].
  pose proof (clear_slots_wf _ _ _ _ tid p H5 Ht) as Hs. unfold holds in Ht.
  set (slots := <[tid:=None]> (q_testcase_cache c)) in *.
  assert (Hlen : length slots = length (q_testcase_cache c)) by apply length_insert.
  destruct (lookup_lt_is_Some_2 _ _ (sw_valid _ _ _ _ H5 tid p Ht)) as [q Hq].
  assert (Hocc : zsum occupied slots = q_testcase_cache_count c - 1)
    by (unfold slots; rewrite (zsum_insert _ _ _ _ _ Ht), H3; cbn; lia).
  assert (Hsum : zsum (slot_len (queue_buf a)) slots = q_testcase_cache_size c - q_len q)
    by (unfold slots; rewrite (zsum_insert _ _ _ _ _ Ht), H4; cbn; rewrite Hq; lia).
  pose proof (slots_count_range slots). pose proof (slots_count_range (q_testcase_cache c)).
  pose proof (slots_size_range (queue_buf a) slots H6 ltac:(lia)).
  unfold evict, deref. rewrite (proj2 (rd_ok _ _ _) Hq). cbn [mbind res_bind].
  rewrite wr_lt by done. cbn [mbind res_bind]. fold slots. clearbody slots.
  rewrite (uwrap_id 64 (_ - _)), (uwrap_id 32 (q_testcase_cache_count c - 1)) by lia.
  eexists. split; [reflexivity|]. rewrite upd_queue_buf. split; [|done].
  split; ccbn; [lia|done|lia| |exact Hs|now apply lens_upd].
  rewrite <- Hsum. apply zsum_ext. intros s _. symmetry. apply slot_len_upd.
Qed.

(** Slots above the highest count are empty, so that dropping some of them
    loses nothing. *)
Lemma zsum_take_slots (F : option nat -> Z) slots e :
  F None = 0 -> (forall i p, holds slots i p -> (i < e)%nat) -> zsum F (take e slots) = zsum F slots.
Proof.
  intros HF He. rewrite <- (take_drop e slots) at 2. rewrite zsum_app, (zsum_zero F (drop e slots)); [lia|].
  intros s Hs. apply list_elem_of_lookup in Hs as [i Hi]. rewrite lookup_drop in Hi.
  destruct s as [p|]; [|done]. apply He in Hi. lia.
Qed.

Lemma take_slots_wf slots m f buf e :
  slots_wf slots m f buf -> m <= Z.of_nat e <= Z.of_nat (length slots) -> slots_wf (take e slots) m f buf.
Proof.
  intros [H1 H2 H3 H4 H5 H6 H7] He.
  assert (Hh : forall i p, holds (take e slots) i p <-> holds slots i p).
  { intros i p. unfold holds. split; intros Hi.
    - destruct (decide (i < e)%nat); [now rewrite lookup_take_lt in Hi|].
      rewrite lookup_take_ge in Hi by lia. discriminate.
    - rewrite lookup_take_lt; [done|]. apply H1 in Hi. lia. }
  split.
  - intros i p Hi. apply Hh in Hi. eauto.
  - rewrite length_take. lia.
  - done.
  - intros i Hi. destruct (H4 i Hi) as [p Hp]. exists p. now apply Hh.
  - intros i j p Hi Hj. apply Hh in Hi. apply Hh in Hj. eauto.
  - intros i p Hi. apply Hh in Hi. eauto.
  - intros p q Hq. rewrite (H7 p q Hq). split; intros [i Hi]; exists i; now apply Hh.
Qed.

(** The books without the size limits. *)
Definition same_books (c c' : cache) : Prop :=
  q_testcase_max_cache_size c' = q_testcase_max_cache_size c /\
  q_testcase_cache_size c' = q_testcase_cache_size c /\
  q_testcase_max_cache_count c' = q_testcase_max_cache_count c /\
  q_testcase_cache_count c' = q_testcase_cache_count c.

Lemma learn_entries_size c len buf :
  cache_wf c buf ->
  learn_entries c len = c \/
  q_testcase_max_cache_entries (learn_entries c len) = q_testcase_max_cache_count c + 1.
Proof.
  intros [H1 H2 H3 H4 H5 H6]. unfold learn_entries. case_match eqn:E; [right|now left]. ccbn.
  pose proof (count_le_max _ _ _ _ H5) as Hc. rewrite <- H3 in Hc.
  apply andb_prop in E as [E _]. apply andb_prop in E as [_ E]. apply andb_prop in E as [_ E].
  apply Z.ltb_lt in E. pose proof (sw_max_le _ _ _ _ H5). pose proof (slots_count_range (q_testcase_cache c)).
  destruct (Z.ltb_spec (q_testcase_cache_count c) (q_testcase_max_cache_count c)); rewrite uwrap_id; lia.
Qed.

Lemma learn_entries_ok c len buf :
  cache_wf c buf -> cache_wf (learn_entries c len) buf /\ same_books c (learn_entries c len).
Proof.
  intros Hwf. pose proof (learn_entries_size c len buf Hwf) as [->|He]; [done|].
  unfold learn_entries in *. case_match eqn:E; [|done]. split; [|done]. ccbn. cbn in He. rewrite He.
  destruct Hwf as [H1 H2 H3 H4 H5 H6]. set (m := q_testcase_max_cache_count c) in *.
  apply andb_prop in E as [E _]. apply andb_prop in E as [_ E]. apply andb_prop in E as [_ E].
  apply Z.ltb_lt in E. pose proof (sw_max_le _ _ _ _ H5).
  assert (Hm : forall i p, holds (q_testcase_cache c) i p -> (i < Z.to_nat (m + 1))%nat).
  { intros i p Hi. apply (sw_max _ _ _ _ H5) in Hi. lia. }
  split; ccbn; rewrite ?length_take; [lia|lia| | | |done].
  - now rewrite zsum_take_slots.
  - now rewrite zsum_take_slots.
  - apply take_slots_wf; [done|]. lia.
Qed.

(** ** Eviction *)

Section Get.
Context {G : Type} `{RandGenLaws G}.

Lemma victim_index c buf g tid g' :
  cache_wf c buf -> rand_below g (q_testcase_max_cache_count c) = Ok (tid, g') ->
  (Z.to_nat tid < length (q_testcase_cache c))%nat.
Proof.
  intros [H1 H2 _ _ H5 _] E. pose proof (sw_max_le _ _ _ _ H5).
  destruct (decide (q_testcase_max_cache_count c <= 1)) as [Hle|Hgt].
  - rewrite rand_below_trivial in E by done. injection E as <- <-. lia.
  - apply rand_below_bound in E; lia.
Qed.

Lemma pick_victim_ok fuel c buf cur g :
  cache_wf c buf ->
  match pick_victim fuel c cur g with
  | Ok (tid, p, _) => holds (q_testcase_cache c) tid p /\ cur <> Some p
  | Err e => e = OutOfFuel \/ draw_fails (q_testcase_max_cache_count c) e
  end.
Proof.
  intros Hwf. revert g; induction fuel as [|f IH]; intros g; cbn [pick_victim]; [now left|].
  destruct (rand_below g _) as [[tid g']|e] eqn:E; cbn [mbind res_bind]; [|right; now exists g].
  pose proof (victim_index c buf g tid g' Hwf E) as Hi.
  destruct (rd_lt _ _ Hi) as (s & -> & Hs). cbn [mbind res_bind].
  destruct s as [p|]; [|apply IH]. case_bool_decide; [apply IH|]. auto.
Qed.

(** What eviction may do to the state: drop the buffers of entries other
    than the current one. *)
Definition evicted (a a' : afl) : Prop :=
  a' = set_queue_buf (queue_buf a') a /\
  forall r q, queue_buf a !! r = Some q ->
    queue_buf a' !! r = Some q \/
    (queue_cur a <> Some r /\ queue_buf a' !! r = Some (set_testcase_buf None q)).

Lemma evicted_refl a : evicted a a.
Proof. split; [|auto]. now destruct a. Qed.

Lemma evicted_step a a' p :
  queue_cur a <> Some p -> evicted (upd p (set_testcase_buf None) a) a' -> evicted a a'.
Proof.
  intros Hp [E1 E2]. split; [rewrite E1; now destruct a|]. intros r q Hq.
  rewrite upd_queue_buf in E2. destruct (decide (p = r)) as [<-|Hne].
  - destruct (E2 p (set_testcase_buf None q)) as [Hr|[Hc Hr]]; [now rewrite lookup_alter_eq, Hq|auto|auto].
  - destruct (E2 r q) as [Hr|[Hc Hr]]; [now rewrite lookup_alter_ne|auto|auto].
Qed.

(** The freed slot that is used next: the first never used one as long as
    nothing was evicted. *)
Definition next_slot (c : cache) (tid : nat) : Prop :=
  Z.of_nat tid = q_testcase_max_cache_count c \/ q_testcase_cache c !! tid = Some None.

Lemma make_room_ok fuel c a len tid g :
  cache_wf c (queue_buf a) -> next_slot c tid ->
  match make_room fuel c a len tid g with
  | Ok (c', a', tid', _) =>
      cache_wf c' (queue_buf a') /\ cache_full c' len = false /\ evicted a a' /\ next_slot c' tid' /\
      q_testcase_max_cache_size c' = q_testcase_max_cache_size c
  | Err e => e = OutOfFuel \/ exists n, draw_fails n e
  end.
Proof.
  revert c a tid g; induction fuel as [|f IH]; intros c a tid g Hwf Hn; cbn [make_room];
    (destruct (cache_full c len) eqn:Ef; cbn [negb]; [|split_and!; auto using evicted_refl]).
  - now left.
  - destruct (learn_entries_ok c len _ Hwf) as [Hwf' (B1 & _)].
    pose proof (pick_victim_ok (S f) _ _ (queue_cur a) g Hwf') as Hv.
    destruct (pick_victim _ _ _ _) as [[[t p] g']|e]; cbn [mbind res_bind]; [|destruct Hv; eauto].
    destruct Hv as [Hh Hc]. destruct (evict_ok _ a t p Hwf' Hh) as (c' & -> & Hwf'' & Es & Em & _).
    cbn [mbind res_bind].
    assert (Hn' : next_slot c' t).
    { right. rewrite Es, list_lookup_insert_eq; [done|]. eapply holds_lt, Hh. }
    specialize (IH c' _ t g' Hwf'' Hn'). destruct (make_room f _ _ _ _ _) as [[[[c1 a1] t1] g1]|e]; [|done].
    destruct IH as (I1 & I2 & I3 & I4 & I5). split_and!; auto; [|congruence].
    eapply evicted_step; eauto.
Qed.

(** Where the new entry goes. *)
Lemma slot_found c buf len tid :
  cache_wf c buf -> cache_full c len = false -> next_slot c tid ->
  exists t, find_free (S (length (q_testcase_cache c))) (q_testcase_cache c)
    (if q_testcase_max_cache_entries c <=? Z.of_nat tid
     then Z.to_nat (q_testcase_smallest_free c) else tid) = Ok t /\
    q_testcase_cache c !! t = Some None.
Proof.
  intros [H1 H2 H3 H4 H5 H6] Hf Hn. unfold cache_full in Hf. apply orb_false_iff in Hf as [_ Hf].
  rewrite uwrap_id in Hf by lia. apply Z.leb_gt in Hf.
  destruct (Z.leb_spec (q_testcase_max_cache_entries c) (Z.of_nat tid)).
  - apply (find_free_from_smallest _ _ _ _ H5). lia.
  - exists tid. assert (Ht : q_testcase_cache c !! tid = Some None); [|now rewrite find_free_here].
    destruct Hn as [Hn|]; [|done].
    destruct (lookup_lt_is_Some_2 (q_testcase_cache c) tid) as [[p|] Hp]; [lia| |done].
    apply (sw_max _ _ _ _ H5) in Hp. lia.
Qed.

Context (read_file : list Z -> option (list Z)).

(** Every cached buffer is the content of the entry's file. *)
Definition coherent (buf : list queue_entry) : Prop :=
  forall p q b, buf !! p = Some q -> testcase_buf q = Some b -> load_testcase read_file q (q_len q) = Ok b.

Lemma coherent_upd buf p q b :
  coherent buf -> buf !! p = Some q -> load_testcase read_file q (q_len q) = Ok b ->
  coherent (alter (set_testcase_buf (Some b)) p buf).
Proof.
  intros Hc Hq Hb r x bx Hx Hbx. destruct (decide (p = r)) as [<-|Hne].
  - rewrite lookup_alter_eq, Hq in Hx. apply (inj Some) in Hx as <-. cbn in Hbx. injection Hbx as <-. exact Hb.
  - rewrite lookup_alter_ne in Hx by done. eauto.
Qed.

(** What happens to the entries other than [p]. *)
Definition others_kept (a a' : afl) (p : nat) : Prop :=
  forall r x, r <> p -> queue_buf a !! r = Some x ->
    queue_buf a' !! r = Some x \/
    (queue_cur a <> Some r /\ queue_buf a' !! r = Some (set_testcase_buf None x)).

Lemma evicted_coherent a a' :
  evicted a a' -> length (queue_buf a') = length (queue_buf a) -> coherent (queue_buf a) -> coherent (queue_buf a').
Proof.
  intros [_ He] Hl Hc r x b Hx Hb.
  destruct (lookup_lt_is_Some_2 (queue_buf a) r) as [y Hy]; [rewrite <- Hl; eapply lookup_lt_Some, Hx|].
  destruct (He r y Hy) as [E|[_ E]]; rewrite Hx in E; apply (inj Some) in E as ->; [eauto|discriminate].
Qed.

Lemma make_room_length fuel c a len tid g c' a' tid' g' :
  make_room fuel c a len tid g = Ok (c', a', tid', g') -> length (queue_buf a') = length (queue_buf a).
Proof.
  revert c a tid g; induction fuel as [|f IH]; intros c a tid g; cbn [make_room];
    (destruct (negb _); [intros [= <- <- <- <-]; done|]); [discriminate|].
  intros E. apply bind_ok in E as ([[t p] g1] & _ & E). apply bind_ok in E as ([c1 a1] & E1 & E).
  apply IH in E. rewrite E. unfold evict in E1. apply bind_ok in E1 as (? & _ & E1).
  apply bind_ok in E1 as (? & _ & E1). injection E1 as _ <-. apply length_alter.
Qed.

Lemma set_buf_none q : testcase_buf q = None -> set_testcase_buf None q = q.
Proof. destruct q; cbn. now intros ->. Qed.
Lemma set_buf_same q b : testcase_buf q = Some b -> set_testcase_buf (Some b) q = q.
Proof. destruct q; cbn. now intros ->. Qed.

(** The uncached path once there is room. *)
Lemma get_with_room fuel c a p q b g c1 a1 t1 g1 :
  cache_wf c (queue_buf a) -> coherent (queue_buf a) -> queue_buf a !! p = Some q ->
  q_testcase_max_cache_size c <> 0 -> testcase_buf q = None ->
  make_room fuel c a (q_len q) (Z.to_nat (q_testcase_max_cache_count c)) g = Ok (c1, a1, t1, g1) ->
  load_testcase read_file q (q_len q) = b ->
  exists c' a', queue_testcase_get read_file fuel c a p g = (b ← b; Ok (b, c', a', g1)) /\
    forall b', b = Ok b' -> cache_wf c' (queue_buf a') /\ coherent (queue_buf a') /\ others_kept a a' p /\
    queue_buf a' !! p = Some (set_testcase_buf (Some b') q).
Proof.
  intros Hwf Hco Hq Hz Eb Em El. unfold queue_testcase_get, deref.
  rewrite (proj2 (rd_ok _ _ _) Hq). cbn [mbind res_bind].
  rewrite (proj2 (Z.eqb_neq _ _) Hz), Eb, Em. cbn [mbind res_bind].
  assert (Hn : next_slot c (Z.to_nat (q_testcase_max_cache_count c))).
  { left. pose proof (sw_max_le _ _ _ _ (cw_slots _ _ Hwf)). lia. }
  pose proof (make_room_ok fuel c a (q_len q) _ g Hwf Hn) as Hr. rewrite Em in Hr.
  destruct Hr as (Hwf1 & Hf & Hev & Hn1 & _). apply make_room_length in Em.
  destruct (slot_found c1 _ _ t1 Hwf1 Hf Hn1) as (t & -> & Ht). cbn [mbind res_bind].
  rewrite El. destruct b as [b|e]; cbn [mbind res_bind]; [|now exists c, a].
  assert (Hq1 : queue_buf a1 !! p = Some q).
  { destruct (proj2 Hev p q Hq) as [E|[_ E]]; [done|]. now rewrite set_buf_none in E. }
  destruct (register_ok c1 a1 p t q b Hwf1 Ht Hq1 Eb) as (c2 & -> & Hwf2). cbn [mbind res_bind].
  do 2 eexists. split; [reflexivity|]. intros b' [= <-]. split_and!; [done| | |].
  - rewrite upd_queue_buf. eapply coherent_upd; [|exact Hq1|exact El]. eapply evicted_coherent; eauto.
  - intros r x Hr Hx. rewrite upd_queue_buf, lookup_alter_ne by done. apply (proj2 Hev r x Hx).
  - rewrite upd_queue_buf, lookup_alter_eq, Hq1. done.
Qed.

(** The two paths that load nothing new into the cache. *)
Lemma get_without_room fuel c a p q g :
  queue_buf a !! p = Some q -> q_testcase_max_cache_size c = 0 \/ is_Some (testcase_buf q) ->
  coherent (queue_buf a) ->
  queue_testcase_get read_file fuel c a p g = (b ← load_testcase read_file q (q_len q); Ok (b, c, a, g)) /\
  (q_testcase_max_cache_size c = 0 \/
   exists b, load_testcase read_file q (q_len q) = Ok b /\ set_testcase_buf (Some b) q = q).
Proof.
  intros Hq Hc Hco. unfold queue_testcase_get, deref. rewrite (proj2 (rd_ok _ _ _) Hq). cbn [mbind res_bind].
  destruct (Z.eqb_spec (q_testcase_max_cache_size c) 0); [auto|].
  destruct Hc as [|[b Hb]]; [done|]. rewrite Hb, (Hco p q b Hq Hb). split; [done|]. right.
  exists b. split; [done|]. now apply set_buf_same.
Qed.

(** What a call gives or why it fails, with this fuel for the eviction. *)
Lemma queue_testcase_get_spec fuel c a p q g :
  cache_wf c (queue_buf a) -> coherent (queue_buf a) -> queue_buf a !! p = Some q ->
  match queue_testcase_get read_file fuel c a p g with
  | Ok (b, c', a', _) =>
      load_testcase read_file q (q_len q) = Ok b /\
      cache_wf c' (queue_buf a') /\ coherent (queue_buf a') /\ others_kept a a' p /\
      (q_testcase_max_cache_size c <> 0 -> queue_buf a' !! p = Some (set_testcase_buf (Some b) q))
  | Err e =>
      load_testcase read_file q (q_len q) = Err e \/ rand_stops (G := G) e \/
      (e = OutOfFuel /\ cache_full c (q_len q) = true)
  end.
Proof.
  intros Hwf Hco Hq.
  destruct (decide (q_testcase_max_cache_size c = 0 \/ is_Some (testcase_buf q))) as [Hc|Hc].
  { destruct (get_without_room fuel c a p q g Hq Hc Hco) as [-> Hs].
    destruct (load_testcase _ _ _) as [b|e]; cbn [mbind res_bind]; [|auto].
    split_and!; [done|done|done|intros ? ? ? ?; now left|]. intros Hz.
    destruct Hs as [|(b' & [= <-] & ->)]; [done|exact Hq]. }
  assert (Hz : q_testcase_max_cache_size c <> 0) by tauto.
  assert (Eb : testcase_buf q = None) by (apply eq_None_not_Some; tauto).
  destruct (make_room fuel c a (q_len q) (Z.to_nat (q_testcase_max_cache_count c)) g)
    as [[[[c1 a1] t1] g1]|e] eqn:Em.
  - destruct (get_with_room fuel c a p q _ g _ _ _ _ Hwf Hco Hq Hz Eb Em eq_refl) as (c' & a' & -> & H').
    destruct (load_testcase read_file q (q_len q)) as [b|e]; cbn [mbind res_bind]; [|auto].
    destruct (H' b eq_refl) as (? & ? & ? & ?). auto.
  - unfold queue_testcase_get, deref. rewrite (proj2 (rd_ok _ _ _) Hq). cbn [mbind res_bind].
    rewrite (proj2 (Z.eqb_neq _ _) Hz), Eb, Em. cbn [mbind res_bind].
    assert (Hn : next_slot c (Z.to_nat (q_testcase_max_cache_count c))).
    { left. pose proof (sw_max_le _ _ _ _ (cw_slots _ _ Hwf)). lia. }
    assert (Hfull : cache_full c (q_len q) = true).
    { destruct (cache_full c (q_len q)) eqn:Ef; [done|]. destruct fuel; cbn [make_room] in Em; rewrite Ef in Em; discriminate. }
    pose proof (make_room_ok fuel c a (q_len q) _ g Hwf Hn) as Hr. rewrite Em in Hr. unfold rand_stops. tauto.
Qed.

(** ** Termination

    A generator that reaches every value below the limit again and again. *)

Fixpoint reaches (n : nat) (g : G) (limit x : Z) : Prop :=
  match n with
  | O => exists g', rand_below g limit = Ok (x, g')
  | S n => exists y g', rand_below g limit = Ok (y, g') /\ reaches n g' limit x
  end.

Definition fair : Prop :=
  forall g limit x, 1 < limit < 2 ^ 32 -> 0 <= x < limit -> exists n, reaches n g limit x.

Lemma reach_victim n c buf cur g i p :
  cache_wf c buf -> holds (q_testcase_cache c) i p -> cur <> Some p ->
  reaches n g (q_testcase_max_cache_count c) (Z.of_nat i) ->
  exists r, pick_victim (S n) c cur g = Ok r.
Proof.
  intros Hwf Hi Hc. revert g; induction n as [|n IH]; intros g; cbn [reaches].
  - intros [g' E]. cbn [pick_victim]. rewrite E. cbn [mbind res_bind].
    rewrite Nat2Z.id, (proj2 (rd_ok _ _ _) Hi). cbn [mbind res_bind].
    rewrite bool_decide_eq_false_2 by done. eauto.
  - intros (y & g' & E & Hr). remember (S n) as m. cbn [pick_victim]. rewrite E. cbn [mbind res_bind].
    destruct (rd_lt _ _ (victim_index c buf g y g' Hwf E)) as (s & -> & _). cbn [mbind res_bind].
    specialize (IH g' Hr). destruct s as [r|]; [case_bool_decide|]; eauto.
Qed.

Lemma pick_victim_ends c buf cur g i p :
  fair -> cache_wf c buf -> holds (q_testcase_cache c) i p -> cur <> Some p ->
  exists fuel r, pick_victim fuel c cur g = Ok r.
Proof.
  intros Hfair Hwf Hi Hc. pose proof (sw_max _ _ _ _ (cw_slots _ _ Hwf) i p Hi) as Hm.
  destruct (decide (q_testcase_max_cache_count c <= 1)) as [Hle|Hgt].
  - exists 1%nat. eapply (reach_victim 0); eauto. exists g.
    rewrite rand_below_trivial by done. repeat f_equal. lia.
  - pose proof (sw_max_le _ _ _ _ (cw_slots _ _ Hwf)). pose proof (cw_len _ _ Hwf).
    pose proof (cw_entries _ _ Hwf).
    destruct (Hfair g (q_testcase_max_cache_count c) (Z.of_nat i)) as [n Hn]; [lia..|].
    exists (S n). eapply reach_victim; eauto.
Qed.

Lemma pick_victim_mono f1 f2 c cur g r :
  (f1 <= f2)%nat -> pick_victim f1 c cur g = Ok r -> pick_victim f2 c cur g = Ok r.
Proof.
  revert f2 g; induction f1 as [|f1 IH]; intros [|f2] g Hf; try done; [lia|]. cbn [pick_victim].
  destruct (rand_below g _) as [[tid g']|]; cbn [mbind res_bind]; [|done].
  destruct (rd _ _) as [[p|]|]; cbn [mbind res_bind]; [case_bool_decide; [|done]| |done]; apply IH; lia.
Qed.

Lemma make_room_mono f1 f2 c a len tid g r :
  (f1 <= f2)%nat -> make_room f1 c a len tid g = Ok r -> make_room f2 c a len tid g = Ok r.
Proof.
  revert f2 c a tid g; induction f1 as [|f1 IH]; intros [|f2] c a tid g Hf; try done; try lia;
    cbn [make_room]; (destruct (negb _); [done|]); [done|].
  intros E. apply bind_ok in E as ([[t p] g'] & Ep & E). cbv beta iota in E.
  rewrite (pick_victim_mono (S f1) (S f2) _ _ _ _ Hf Ep). cbn [mbind res_bind].
  apply bind_ok in E as ([c1 a1] & Ee & E). cbv beta iota in E. rewrite Ee. cbn [mbind res_bind].
  apply (IH f2); [lia|exact E].
Qed.

(** Either there is an entry to evict or the cache holds at most the current
    one. *)
Lemma victim_or_current (slots : list (option nat)) cur :
  (exists i p, holds slots i p /\ cur <> Some p) \/ (forall i p, holds slots i p -> cur = Some p).
Proof.
  induction slots as [|s slots [(i & p & H1 & H2)|IH]].
  - right. intros i p Hi. discriminate Hi.
  - left. now exists (S i), p.
  - destruct s as [p|].
    + destruct (decide (cur = Some p)) as [->|Hne]; [right|left; now exists 0%nat, p].
      intros [|i] r Hi; [unfold holds in Hi; cbn in Hi; congruence|]. now apply (IH i).
    + right. intros [|i] r Hi; [discriminate|]. now apply (IH i).
Qed.

Lemma only_current (F : option nat -> Z) (slots : list (option nat)) cur :
  (forall i p, holds slots i p -> cur = Some p) ->
  (forall i j p, holds slots i p -> holds slots j p -> i = j) ->
  F None = 0 -> 0 <= F cur -> zsum F slots <= F cur.
Proof.
  intros Hc Hinj HN HF. induction slots as [|s slots IH]; [done|]. cbn [zsum foldr].
  fold (zsum F slots). destruct s as [p|].
  - rewrite (zsum_zero F slots); [pose proof (Hc 0%nat p eq_refl); subst; lia|].
    intros s Hs. apply list_elem_of_lookup in Hs as [i Hi]. destruct s as [r|]; [|done]. exfalso.
    assert (r = p) as -> by (pose proof (Hc 0%nat p eq_refl); pose proof (Hc (S i) r Hi); congruence).
    discriminate (Hinj 0%nat (S i) p eq_refl Hi).
  - rewrite HN. apply IH; [intros i p Hi; exact (Hc (S i) p Hi)|].
    intros i j p Hi Hj. assert (S i = S j) by (eapply Hinj; eauto). lia.
Qed.

(** Room for the current entry and a new one: by size, and by number. *)
Definition has_room (c : cache) (buf : list queue_entry) (cur : option nat) (len : Z) : Prop :=
  slot_len buf cur + len < q_testcase_max_cache_size c < 2 ^ 64 /\
  (2 < q_testcase_max_cache_entries c \/
   (1 < q_testcase_max_cache_entries c /\
    forall i p, holds (q_testcase_cache c) i p -> cur <> Some p)).

Lemma room_victim c buf cur len :
  cache_wf c buf -> has_room c buf cur len -> 0 <= len -> cache_full c len = true ->
  exists i p, holds (q_testcase_cache c) i p /\ cur <> Some p.
Proof.
  intros [H1 H2 H3 H4 H5 H6] [Hs He] Hl Hf.
  destruct (victim_or_current (q_testcase_cache c) cur) as [|Hc]; [done|exfalso].
  pose proof (only_current (slot_len buf) _ cur Hc (sw_inj _ _ _ _ H5) eq_refl
                ltac:(apply slot_len_range; done)) as HS. rewrite <- H4 in HS.
  pose proof (only_current occupied _ cur Hc (sw_inj _ _ _ _ H5) eq_refl
                ltac:(apply occupied_range)) as HC. rewrite <- H3 in HC.
  pose proof (slots_size_range buf (q_testcase_cache c) H6 ltac:(lia)) as HR. rewrite <- H4 in HR.
  unfold cache_full, cache_over_size in Hf. rewrite (uwrap_id 64), (uwrap_id 32) in Hf by lia.
  apply orb_true_iff in Hf as [Hf|Hf]; apply Z.leb_le in Hf; [lia|].
  pose proof (occupied_range cur). destruct He as [|[He Hn]]; [lia|].
  rewrite H3, (zsum_zero occupied) in Hf; [lia|].
  intros s Hin. apply list_elem_of_lookup in Hin as [i Hi]. destruct s as [p|]; [|done].
  exfalso. exact (Hn i p Hi (Hc i p Hi)).
Qed.

(** A round of eviction leaves room. *)
Lemma room_kept c a len tid p c' :
  cache_wf c (queue_buf a) -> has_room c (queue_buf a) (queue_cur a) len ->
  holds (q_testcase_cache (learn_entries c len)) tid p -> queue_cur a <> Some p ->
  evict (learn_entries c len) a tid p = Ok (c', upd p (set_testcase_buf None) a) ->
  has_room c' (queue_buf (upd p (set_testcase_buf None) a)) (queue_cur a) len /\
  q_testcase_cache_count c' = q_testcase_cache_count c - 1.
Proof.
  intros Hwf [Hs He] Hh Hc E. destruct (learn_entries_ok c len _ Hwf) as [Hwf' (B1 & B2 & B3 & B4)].
  destruct (evict_ok _ a tid p Hwf' Hh) as (c1 & E1 & _ & Es & Em & En & Ec & _).
  rewrite E in E1. injection E1 as <-. split; [|lia].
  split; [rewrite upd_queue_buf, slot_len_upd, Em, B1; done|]. rewrite En, Es.
  pose proof (holds_lt _ _ _ Hh) as Hlt.
  assert (Hold : forall i r, holds (<[tid:=None]> (q_testcase_cache (learn_entries c len))) i r ->
    holds (q_testcase_cache (learn_entries c len)) i r).
  { intros i r Hi. apply holds_insert in Hi as [[_ ?]|[_ Hi]]; [discriminate|done|done]. }
  pose proof (sw_max _ _ _ _ (cw_slots _ _ Hwf')) as Hm. rewrite B3 in Hm. pose proof (Hm tid p Hh).
  destruct (learn_entries_size c len _ Hwf) as [El|El]; rewrite El in *.
  - destruct He as [|[He Hn]]; [now left|right]. eauto.
  - destruct (decide (2 <= q_testcase_max_cache_count c)); [left; lia|right]. split; [lia|].
    intros i r Hi. pose proof (Hm i r (Hold i r Hi)). assert (i = tid) as -> by lia.
    apply Hold in Hi. unfold holds in *. congruence.
Qed.

Lemma learn_holds c buf len i p :
  cache_wf c buf -> holds (q_testcase_cache c) i p -> holds (q_testcase_cache (learn_entries c len)) i p.
Proof.
  intros Hwf Hi. pose proof (sw_max _ _ _ _ (cw_slots _ _ Hwf) i p Hi).
  destruct (learn_entries_size c len buf Hwf) as [->|He]; [done|].
  unfold learn_entries in *. case_match; [|done]. cbn in He |- *. rewrite He.
  unfold holds. now rewrite lookup_take_lt by lia.
Qed.

Lemma make_room_ends c a len tid g :
  fair -> cache_wf c (queue_buf a) -> has_room c (queue_buf a) (queue_cur a) len -> 0 <= len ->
  exists fuel r, make_room fuel c a len tid g = Ok r.
Proof.
  intros Hfair. remember (Z.to_nat (q_testcase_cache_count c)) as k eqn:Ek.
  revert c a tid g Ek; induction k as [k IH] using lt_wf_ind; intros c a tid g Ek Hwf Hroom Hl.
  destruct (cache_full c len) eqn:Ef; [|exists 0%nat; cbn [make_room]; rewrite Ef; cbn; eauto].
  destruct (learn_entries_ok c len _ Hwf) as [Hwf' _].
  destruct (room_victim c _ _ len Hwf Hroom Hl Ef) as (i & p & Hi & Hc).
  pose proof (learn_holds c _ len i p Hwf Hi) as Hi'.
  destruct (pick_victim_ends _ _ (queue_cur a) g i p Hfair Hwf' Hi' Hc) as (f1 & [[t v] g'] & E1).
  pose proof (pick_victim_ok f1 _ _ (queue_cur a) g Hwf') as Hv. rewrite E1 in Hv. destruct Hv as [Hh Hcv].
  destruct (evict_ok _ a t v Hwf' Hh) as (c' & E2 & Hwf2 & _).
  destruct (room_kept c a len t v c' Hwf Hroom Hh Hcv E2) as [Hroom2 Hcount].
  pose proof (slots_count_range (q_testcase_cache c')) as Hr. rewrite <- (cw_count _ _ Hwf2) in Hr.
  destruct (IH (Z.to_nat (q_testcase_cache_count c')) ltac:(lia) c' _ t g' eq_refl Hwf2 Hroom2 Hl) as (f2 & r & E3).
  exists (S (f1 + f2)), r. cbn [make_room]. rewrite Ef. cbn [negb].
  rewrite (pick_victim_mono f1 (S (f1 + f2)) _ _ _ _ ltac:(lia) E1). cbn [mbind res_bind]. rewrite E2. cbn [mbind res_bind].
  apply (make_room_mono f2); [lia|exact E3].
Qed.

(** [queue_testcase_get] returns: when the file can be read, the
    generator is fair, and the current entry and the requested one fit the
    cache together, enough fuel gives a result, and more gives the same. *)
Theorem queue_testcase_get_ends c a p q b g :
  fair -> cache_wf c (queue_buf a) -> coherent (queue_buf a) -> queue_buf a !! p = Some q ->
  load_testcase read_file q (q_len q) = Ok b ->
  slot_len (queue_buf a) (queue_cur a) + q_len q < q_testcase_max_cache_size c < 2 ^ 64 ->
  2 < q_testcase_max_cache_entries c ->
  exists fuel0 r, forall fuel, (fuel0 <= fuel)%nat -> queue_testcase_get read_file fuel c a p g = Ok r.
Proof.
  intros Hfair Hwf Hco Hq Hb Hroom He.
  assert (Hl : 0 <= q_len q) by (destruct (cw_lens _ _ Hwf p q Hq); done).
  destruct (make_room_ends c a (q_len q) (Z.to_nat (q_testcase_max_cache_count c)) g Hfair Hwf
              (conj Hroom (or_introl He)) Hl) as (fuel0 & [[[c1 a1] t1] g1] & Em).
  destruct (decide (q_testcase_max_cache_size c = 0 \/ is_Some (testcase_buf q))) as [Hc|Hc].
  { exists 0%nat, (b, c, a, g). intros fuel _. destruct (get_without_room fuel c a p q g Hq Hc Hco) as [-> _].
    now rewrite Hb. }
  assert (Hz : q_testcase_max_cache_size c <> 0) by tauto.
  assert (Eb : testcase_buf q = None) by (apply eq_None_not_Some; tauto).
  destruct (get_with_room fuel0 c a p q _ g _ _ _ _ Hwf Hco Hq Hz Eb Em eq_refl) as (c' & a' & E & _).
  rewrite Hb in E. cbn [mbind res_bind] in E. exists fuel0, (b, c', a', g1). intros fuel Hf. rewrite <- E.
  unfold queue_testcase_get, deref. rewrite (proj2 (rd_ok _ _ _) Hq). cbn [mbind res_bind].
  now rewrite (proj2 (Z.eqb_neq _ _) Hz), Eb, Em, (make_room_mono fuel0 fuel _ _ _ _ _ _ Hf Em).
Qed.

(** ... and it does not return when the only cached entry is the current
    one and both do not fit: no victim exists, whatever is drawn. *)
Theorem queue_testcase_get_hangs fuel c a p q g r :
  cache_wf c (queue_buf a) -> queue_buf a !! p = Some q -> testcase_buf q = None ->
  q_testcase_max_cache_size c <> 0 -> cache_over_size c (q_len q) = true ->
  (forall i w, holds (q_testcase_cache c) i w -> queue_cur a = Some w) ->
  queue_testcase_get read_file fuel c a p g <> Ok r.
Proof.
  intros Hwf Hq Hb Hz Ho Hc E. unfold queue_testcase_get, deref in E.
  rewrite (proj2 (rd_ok _ _ _) Hq) in E. cbn [mbind res_bind] in E.
  rewrite (proj2 (Z.eqb_neq _ _) Hz), Hb in E.
  destruct fuel as [|f]; cbn [make_room] in E; unfold cache_full in E; rewrite Ho in E; [discriminate|].
  cbn [negb orb] in E. destruct (learn_entries_ok c (q_len q) _ Hwf) as [Hwf' _].
  pose proof (pick_victim_ok (S f) _ _ (queue_cur a) g Hwf') as Hv.
  destruct (pick_victim _ _ _ _) as [[[t v] g']|]; [|discriminate]. destruct Hv as [Hh Hn]. apply Hn.
  apply (Hc t v). unfold learn_entries in Hh. case_match; [|done]. cbn in Hh.
  unfold holds in *. apply lookup_take_Some in Hh as [Hh _]. done.
Qed.

(** C33: [queue_testcase_get] returns the first [len] bytes of the entry's
    file, caches them, and keeps the cache's books and every other buffer
    either as it was or - never the current entry's - dropped.  It never
    leaves an array; it fails only when the file cannot be read, when a random
    draw fails, or when the cache is full and the fuel is gone before the
    eviction found enough victims.  With enough fuel that does not happen if
    the file can be read, the generator comes to every slot, the cache takes
    more than two entries and the current entry and this one fit it together;
    but if the only entry cached is the current one and this one does not fit
    beside it, no fuel is enough: the code hangs. *)
Theorem queue_testcase_get_correct c a p q g :
  cache_wf c (queue_buf a) -> coherent (queue_buf a) -> queue_buf a !! p = Some q ->
  (forall fuel,
    match queue_testcase_get read_file fuel c a p g with
    | Ok (b, c', a', _) =>
        load_testcase read_file q (q_len q) = Ok b /\
        cache_wf c' (queue_buf a') /\ coherent (queue_buf a') /\ others_kept a a' p /\
        (q_testcase_max_cache_size c <> 0 -> queue_buf a' !! p = Some (set_testcase_buf (Some b) q))
    | Err e =>
        load_testcase read_file q (q_len q) = Err e \/ rand_stops (G := G) e \/
        (e = OutOfFuel /\ cache_full c (q_len q) = true)
    end) /\
  (fair -> (exists b, load_testcase read_file q (q_len q) = Ok b) ->
   slot_len (queue_buf a) (queue_cur a) + q_len q < q_testcase_max_cache_size c < 2 ^ 64 ->
   2 < q_testcase_max_cache_entries c ->
   exists fuel0 r, forall fuel, (fuel0 <= fuel)%nat -> queue_testcase_get read_file fuel c a p g = Ok r) /\
  (testcase_buf q = None -> q_testcase_max_cache_size c <> 0 -> cache_over_size c (q_len q) = true ->
   (forall i w, holds (q_testcase_cache c) i w -> queue_cur a = Some w) ->
   forall fuel r, queue_testcase_get read_file fuel c a p g <> Ok r).
Proof.
  intros Hwf Hco Hq. split; [intros fuel; now apply queue_testcase_get_spec|]. split.
  - intros Hf [b Hb] Hs He. now apply (queue_testcase_get_ends c a p q b g).
  - intros Hb Hz Ho Hc fuel r. now apply (queue_testcase_get_hangs fuel c a p q g r).
Qed.
End Get.

(** ** Storing and trimming *)

Lemma queue_testcase_store_mem_spec c a p q mem :
  cache_wf c (queue_buf a) -> queue_buf a !! p = Some q -> testcase_buf q = None ->
  q_len q <= Z.of_nat (length mem) ->
  exists c' a', queue_testcase_store_mem c a p mem = Ok (c', a') /\ cache_wf c' (queue_buf a') /\
    a' = if cache_full c (q_len q) then a
         else upd p (set_testcase_buf (Some (take (Z.to_nat (q_len q)) mem))) a.
Proof.
  intros Hwf Hq Hb Hm. unfold queue_testcase_store_mem, deref.
  rewrite (proj2 (rd_ok _ _ _) Hq). cbn [mbind res_bind].
  destruct (cache_full c (q_len q)) eqn:Ef; [eauto|].
  pose proof (sw_max_le _ _ _ _ (cw_slots _ _ Hwf)).
  destruct (slot_found c _ (q_len q) (Z.to_nat (q_testcase_max_cache_count c)) Hwf Ef) as (t & Et & Ht);
    [left; lia|].
  rewrite Z2Nat.id in Et by lia. replace (Z.to_nat (if _ <=? _ then _ else _)) with
    (if q_testcase_max_cache_entries c <=? q_testcase_max_cache_count c
     then Z.to_nat (q_testcase_smallest_free c) else Z.to_nat (q_testcase_max_cache_count c))
    by now destruct (_ <=? _).
  rewrite Et. cbn [mbind res_bind]. rewrite (proj2 (Z.ltb_ge _ _) Hm).
  destruct (register_ok c a p t q (take (Z.to_nat (q_len q)) mem) Hwf Ht Hq Hb) as (c' & E & Hwf'). eauto.
Qed.

(** [queue_testcase_store_mem] caches the new entry's testcase exactly
    when there is room, and keeps the books; it never evicts. *)
Theorem queue_testcase_store_mem_correct c a p q mem :
  cache_wf c (queue_buf a) -> queue_buf a !! p = Some q -> testcase_buf q = None ->
  q_len q <= Z.of_nat (length mem) ->
  exists c' a', queue_testcase_store_mem c a p mem = Ok (c', a') /\ cache_wf c' (queue_buf a') /\
    a' = if cache_full c (q_len q) then a
         else upd p (set_testcase_buf (Some (take (Z.to_nat (q_len q)) mem))) a.
Proof. exact (queue_testcase_store_mem_spec c a p q mem). Qed.

(** The books while entry [p], already of its new length, is still accounted
    for with [old_len]. *)
Definition books_before (c : cache) (a : afl) (p : nat) (old_len : Z) : Prop :=
  cache_wf c (alter (set_q_len old_len) p (queue_buf a)).

Lemma slot_len_length_change buf p q old_len s :
  buf !! p = Some q ->
  slot_len buf s = slot_len (alter (set_q_len old_len) p buf) s +
                   (if bool_decide (s = Some p) then q_len q - old_len else 0).
Proof.
  intros Hq. destruct s as [r|]; cbn; [|rewrite bool_decide_eq_false_2 by done; lia].
  destruct (decide (p = r)) as [<-|Hne].
  - rewrite lookup_alter_eq, Hq, bool_decide_eq_true_2 by done. cbn. lia.
  - rewrite lookup_alter_ne, bool_decide_eq_false_2 by congruence. lia.
Qed.

Lemma zsum_one_slot slots i p d :
  holds slots i p -> (forall i j, holds slots i p -> holds slots j p -> i = j) ->
  zsum (fun s => if bool_decide (s = Some p) then d else 0) slots = d.
Proof.
  revert i; induction slots as [|s slots IH]; intros [|i] Hi Hinj; try discriminate Hi; cbn [zsum foldr].
  - injection Hi as ->. rewrite bool_decide_eq_true_2 by done.
    fold (zsum (fun s => if bool_decide (s = Some p) then d else 0) slots).
    rewrite zsum_zero; [lia|]. intros x Hx. apply list_elem_of_lookup in Hx as [j Hj].
    rewrite bool_decide_eq_false_2; [done|]. intros ->.
    discriminate (Hinj 0%nat (S j) eq_refl Hj).
  - fold (zsum (fun s => if bool_decide (s = Some p) then d else 0) slots).
    rewrite (IH i Hi) by (intros j k Hj Hk; assert (S j = S k) by (eapply Hinj; eauto); lia).
    rewrite bool_decide_eq_false_2; [lia|]. intros ->. discriminate (Hinj 0%nat (S i) eq_refl Hi).
Qed.

(** Replacing a cached buffer by another one. *)
Lemma cached_upd_wf c buf p q b b' :
  cache_wf c buf -> buf !! p = Some q -> testcase_buf q = Some b ->
  cache_wf c (alter (set_testcase_buf (Some b')) p buf).
Proof.
  intros [H1 H2 H3 H4 [S1 S2 S3 S4 S5 S6 S7] H6] Hq Hb. split; auto.
  - rewrite H4. apply zsum_ext. intros s _. symmetry. apply slot_len_upd.
  - split; auto.
    + intros i r Hi. rewrite length_alter. eauto.
    + intros r x Hx. destruct (decide (p = r)) as [<-|Hne].
      * rewrite lookup_alter_eq, Hq in Hx. apply (inj Some) in Hx as <-.
        rewrite <- (S7 p q Hq), Hb. split; intros _; now eexists.
      * rewrite lookup_alter_ne in Hx by done. eauto.
  - now apply lens_upd.
Qed.

(** Adjusting the cached size brings the books back in order. *)
Lemma resize_cached_wf c a p q old_len :
  books_before c a p old_len -> queue_buf a !! p = Some q -> is_Some (testcase_buf q) ->
  0 <= q_len q < 2 ^ 32 ->
  cache_wf (if negb (q_len q =? old_len) then resize_cached c (q_len q) old_len else c) (queue_buf a).
Proof.
  intros Hwf Hq Hb Hl. unfold books_before in Hwf. destruct Hwf as [H1 H2 H3 H4 H5 H6].
  assert (Hbuf : forall r x, queue_buf a !! r = Some x ->
    exists y, alter (set_q_len old_len) p (queue_buf a) !! r = Some y /\ testcase_buf y = testcase_buf x /\
              (r <> p -> y = x)).
  { intros r x Hx. destruct (decide (p = r)) as [<-|Hne].
    - rewrite lookup_alter_eq, Hx. eexists; split; [reflexivity|]. now split.
    - rewrite lookup_alter_ne by done. eauto. }
  destruct (Hbuf p q Hq) as (y & Hy & Hyb & _).
  destruct (proj1 (sw_buf _ _ _ _ H5 p y Hy)) as [i Hi]; [now rewrite Hyb|].
  assert (Hsize : zsum (slot_len (queue_buf a)) (q_testcase_cache c) = q_testcase_cache_size c + q_len q - old_len).
  { rewrite (zsum_ext _ _ _ (fun s _ => slot_len_length_change (queue_buf a) p q old_len s Hq)).
    rewrite zsum_plus, <- H4, (zsum_one_slot _ i p _ Hi) by (intros; eapply (sw_inj _ _ _ _ H5); eauto). lia. }
  assert (Hlens : forall r x, queue_buf a !! r = Some x -> 0 <= q_len x < 2 ^ 32).
  { intros r x Hx. destruct (Hbuf r x Hx) as (z & Hz & _ & Hsame).
    destruct (decide (r = p)) as [->|Hne]; [congruence|]. rewrite <- (Hsame Hne). eauto. }
  pose proof (slots_size_range _ (q_testcase_cache c) Hlens ltac:(lia)) as Hr.
  assert (Hslots : slots_wf (q_testcase_cache c) (q_testcase_max_cache_count c) (q_testcase_smallest_free c) (queue_buf a)).
  { destruct H5 as [S1 S2 S3 S4 S5 S6 S7]. split; auto.
    - intros j r Hj. apply S6 in Hj. now rewrite length_alter in Hj.
    - intros r x Hx. destruct (Hbuf r x Hx) as (z & Hz & Hzb & _). rewrite <- Hzb. eauto. }
  unfold resize_cached. destruct (Z.eqb_spec (q_len q) old_len); cbn [negb]; split; ccbn; auto; [lia|].
  rewrite uwrap_id by lia. lia.
Qed.

(** after a trim, [queue_testcase_retake_mem] puts the trimmed data in
    the cached buffer and corrects the cached size, so that the books agree
    with the entry's new length again. *)
Theorem queue_testcase_retake_mem_correct c a p q mem old_len :
  books_before c a p old_len -> queue_buf a !! p = Some q -> is_Some (testcase_buf q) ->
  0 <= q_len q <= Z.of_nat (length mem) -> q_len q < 2 ^ 32 ->
  exists c', queue_testcase_retake_mem c a p (Some mem) (q_len q) old_len
             = Ok (c', upd p (set_testcase_buf (Some (take (Z.to_nat (q_len q)) mem))) a) /\
    cache_wf c' (queue_buf (upd p (set_testcase_buf (Some (take (Z.to_nat (q_len q)) mem))) a)).
Proof.
  intros Hwf Hq Hb Hm Hl. pose proof (resize_cached_wf c a p q old_len Hwf Hq Hb ltac:(lia)) as Hwf'.
  unfold queue_testcase_retake_mem, deref. rewrite (proj2 (rd_ok _ _ _) Hq). cbn [mbind res_bind].
  destruct Hb as [b Hb]. rewrite Hb. rewrite (proj2 (Z.ltb_ge _ _)) by lia.
  eexists; split; [reflexivity|]. rewrite upd_queue_buf. now apply (cached_upd_wf _ _ p q b).
Qed.

(** ** A small cache and a round-robin generator *)

#[local] Instance round_robin : RandGen Z :=
  fun g limit => if limit <=? 1 then Ok (0, g) else Ok (g mod limit, g + 1).

#[local] Instance round_robin_laws : RandGenLaws Z.
Proof.
  split; unfold rand_below, round_robin.
  - intros g limit Hl. now rewrite (proj2 (Z.leb_le _ _) Hl).
  - intros g limit x g' Hl E. rewrite (proj2 (Z.leb_gt _ _)) in E by lia. injection E as <- <-.
    apply Z.mod_pos_bound. lia.
  - intros g limit e. destruct (_ <=? _); discriminate.
Qed.

Lemma round_robin_fair : fair (G := Z).
Proof.
  intros g limit x Hl Hx.
  assert (H : forall n g, (g + Z.of_nat n) mod limit = x -> reaches n g limit x).
  { induction n as [|n IH]; intros h Hh; cbn [reaches]; unfold rand_below, round_robin;
      rewrite (proj2 (Z.leb_gt _ _)) by lia.
    - exists (h + 1). rewrite Z.add_0_r in Hh. now rewrite Hh.
    - do 2 eexists; split; [reflexivity|]. apply IH. rewrite <- Hh. f_equal. lia. }
  exists (Z.to_nat ((x - g) mod limit)). apply H.
  pose proof (Z.mod_pos_bound (x - g) limit ltac:(lia)). rewrite Z2Nat.id by lia.
  rewrite Z.add_mod_idemp_r by lia. replace (g + (x - g)) with x by lia. apply Z.mod_small. lia.
Qed.

(** The current entry is cached, the other one is not. *)
Definition disk0 : list Z -> option (list Z) := fun _ => Some [1; 2; 3].
Definition afl2 : afl :=
  set_queue_cur (Some 0%nat)
    (set_queue_buf [set_testcase_buf (Some [1; 2; 3]) (named_entry [0x2f; 97] 3); named_entry [0x2f; 98] 2] afl0).
Definition cache_of (max_size : Z) : cache := mkCache max_size 4 3 1 1 0 0 [Some 0%nat; None; None; None] false.
Definition cache0 : cache := cache_of 100.

Lemma holds0 i p : holds [Some 0%nat; None; None; None] i p -> i = 0%nat /\ p = 0%nat.
Proof. unfold holds. destruct i as [|[|[|[|i]]]]; cbn; try discriminate. intros [= <-]. done. Qed.

Lemma cache_of_wf n : cache_wf (cache_of n) (queue_buf afl2).
Proof.
  split; try reflexivity; [cbn; lia|split|].
  - intros i p Hi. apply holds0 in Hi as [-> _]. cbn. lia.
  - cbn. lia.
  - cbn. lia.
  - cbn. intros i Hi. lia.
  - intros i j p Hi Hj. apply holds0 in Hi as [-> _]. apply holds0 in Hj as [-> _]. done.
  - intros i p Hi. apply holds0 in Hi as [_ ->]. cbn. lia.
  - intros [|[|p]] q Hq; [injection Hq as <-..|discriminate]; cbn.
    + split; [now exists 0%nat|eauto].
    + split; [intros [b Hb]; discriminate|]. intros [i Hi]. apply holds0 in Hi as [_ ?]. lia.
  - intros [|[|p]] q Hq; [injection Hq as <-..|discriminate]; cbn; lia.
Qed.

Lemma afl2_coherent : coherent disk0 (queue_buf afl2).
Proof. intros [|[|p]] q b Hq Hb; [injection Hq as <-..|discriminate]; [injection Hb as <-|discriminate]. done. Qed.

Lemma queue_testcase_get_correct_witness :
  exists b c' a' g', queue_testcase_get disk0 3 cache0 afl2 1 7 = Ok (b, c', a', g') /\ b = [1; 2] /\
    cache_wf c' (queue_buf a').
Proof.
  pose proof (proj1 (queue_testcase_get_correct disk0 cache0 afl2 1 _ 7 (cache_of_wf 100) afl2_coherent eq_refl) 3%nat) as Hg.
  destruct (queue_testcase_get disk0 3 cache0 afl2 1 7) as [[[[b c'] a'] g']|e] eqn:E; [|vm_compute in E; discriminate].
  destruct Hg as (Hb & Hwf & _). exists b, c', a', g'. split; [reflexivity|]. split; [|exact Hwf].
  vm_compute in Hb. congruence.
Defined.

Lemma queue_testcase_get_ends_witness :
  exists fuel0 r, forall fuel, (fuel0 <= fuel)%nat -> queue_testcase_get disk0 fuel cache0 afl2 1 7 = Ok r.
Proof.
  apply (queue_testcase_get_ends disk0 cache0 afl2 1 (named_entry [0x2f; 98] 2) [1; 2] 7 round_robin_fair
           (cache_of_wf 100) afl2_coherent eq_refl); [reflexivity|cbn; lia|cbn; lia].
Defined.

(** Two entries of 3 and 2 bytes and a cache of 5. *)
Lemma queue_testcase_get_hangs_witness :
  cache_over_size (cache_of 5) 2 = true /\ ~ exists r, queue_testcase_get disk0 1000 (cache_of 5) afl2 1 0 = Ok r.
Proof.
  split; [reflexivity|]. intros [r E]. revert E.
  apply (queue_testcase_get_hangs disk0 1000 (cache_of 5) afl2 1 (named_entry [0x2f; 98] 2) 0 r
    (cache_of_wf 5)); [reflexivity..|discriminate|reflexivity|].
  intros i w Hi. apply holds0 in Hi as [_ ->]. reflexivity.
Defined.

Lemma queue_testcase_store_mem_correct_witness :
  exists c' a', queue_testcase_store_mem cache0 afl2 1 [8; 9] = Ok (c', a') /\ cache_wf c' (queue_buf a').
Proof.
  destruct (queue_testcase_store_mem_correct cache0 afl2 1 (named_entry [0x2f; 98] 2) [8; 9]
              (cache_of_wf 100)) as (c' & a' & E & Hwf & _); [reflexivity..|cbn; lia|].
  exists c', a'. done.
Defined.

(** The current entry trimmed from 3 bytes to 2. *)
Definition afl2_trimmed : afl := upd 0 (set_q_len 2) afl2.

Lemma queue_testcase_retake_mem_correct_witness :
  exists c', queue_testcase_retake_mem cache0 afl2_trimmed 0 (Some [1; 2]) 2 3
             = Ok (c', upd 0 (set_testcase_buf (Some [1; 2])) afl2_trimmed) /\
    cache_wf c' (queue_buf (upd 0 (set_testcase_buf (Some [1; 2])) afl2_trimmed)).
Proof.
  apply (queue_testcase_retake_mem_correct cache0 afl2_trimmed 0
           (set_q_len 2 (set_testcase_buf (Some [1; 2; 3]) (named_entry [0x2f; 97] 3))) [1; 2] 3);
    [exact (cache_of_wf 100)|reflexivity|now eexists|cbn; lia|cbn; lia].
Defined.
