(* ===== verification/Dedup.v ===== *)
(** The helpers of the deterministic stages of [src/afl-fuzz-one.c]: which
    changes an earlier stage already made ([could_be_bitflip],
    [could_be_arith], [could_be_interest]), the length of a block
    ([choose_block_len]) and the differing range of two buffers
    ([locate_diffs]). *)

From S2P Require Import Prelude Words Arith Float Bitmap State Rand.

Definition ARITH_MAX : Z := 35.
Definition HAVOC_BLK_SMALL : Z := 32.
Definition HAVOC_BLK_MEDIUM : Z := 128.
Definition HAVOC_BLK_LARGE : Z := 1500.
Definition HAVOC_BLK_XL : Z := 32768.

Definition interesting_8 : list Z := [-128; -1; 0; 1; 16; 32; 64; 100; 127].
Definition interesting_16 : list Z :=
  interesting_8 ++ [-32768; -129; 128; 255; 256; 512; 1000; 1024; 4096; 32767].
Definition interesting_32 : list Z :=
  interesting_16 ++ [-2147483648; -100663046; -32769; 32768; 65535; 65536; 100663045; 2147483647].

(** ** Bit flips *)

(** Shift until the first bit is set: the shift count and the value. *)
Fixpoint shift_out (fuel : nat) (sh xor_val : Z) : res (Z * Z) :=
  if truthy (xor_val .& 1) then Ok (sh, xor_val) else
  match fuel with
  | O => Err OutOfFuel
  | S f => shift_out f (u32 (sh + 1)) (xor_val .>> 1)
  end.

Definition could_be_bitflip (xor_val : Z) : res bool :=
  if xor_val =? 0 then Ok true else
  '(sh, xor_val) ← shift_out 32 0 xor_val;
  Ok (if (xor_val =? 1) || (xor_val =? 3) || (xor_val =? 15) then true
      else if truthy (sh .& 7) then false
      else (xor_val =? 0xff) || (xor_val =? 0xffff) || (xor_val =? 0xffffffff)).

(** ** Arithmetic *)

(** The differing [w]-bit pieces of two values: their number and the last
    one's values. *)
Definition piece (w x i : Z) : Z := uwrap w (x .>> (w * i)).

Definition diff_step (w old_val new_val : Z) (st : Z * Z * Z) (i : Z) : Z * Z * Z :=
  let '(diffs, ov, nv) := st in
  let a := piece w old_val i in
  let b := piece w new_val i in
  if negb (a =? b) then (u32 (diffs + 1), a, b) else st.

Definition diff_pieces (w : Z) (n : nat) (old_val new_val ov nv : Z) : Z * Z * Z :=
  foldl (diff_step w old_val new_val) (0, ov, nv) (seqZ 0 (Z.of_nat n)).

(** [(uN)(ov - nv) <= ARITH_MAX || (uN)(nv - ov) <= ARITH_MAX] *)
Definition within_arith (w ov nv : Z) : bool :=
  (uwrap w (ov - nv) <=? ARITH_MAX) || (uwrap w (nv - ov) <=? ARITH_MAX).

Definition could_be_arith (old_val new_val : Z) (blen : nat) : bool :=
  if old_val =? new_val then true else
  let '(diffs, ov, nv) := diff_pieces 8 blen old_val new_val 0 0 in
  if (diffs =? 1) && within_arith 8 ov nv then true else
  if bool_decide (blen = 1)%nat then false else
  let '(diffs, ov, nv) := diff_pieces 16 (blen / 2) old_val new_val ov nv in
  if (diffs =? 1) && (within_arith 16 ov nv || within_arith 16 (SWAP16 ov) (SWAP16 nv)) then true else
  if bool_decide (blen = 4)%nat then
    within_arith 32 old_val new_val || within_arith 32 (SWAP32 old_val) (SWAP32 new_val)
  else false.

(** ** Interesting values *)

(** [(old_val & ~(mask << (i * 8))) | (v << (i * 8))] in 32 bits. *)
Definition insert_at (mask old_val v i : Z) : Z :=
  u32 (old_val .& Z.lnot (mask .<< (i * 8))) .| u32 (v .<< (i * 8)).

Definition insertable_8 (old_val new_val i : Z) : bool :=
  existsb (fun v => new_val =? insert_at 0xff old_val (u8 v) i) interesting_8.

Definition insertable_16 (old_val new_val : Z) (blen : nat) (i : Z) : bool :=
  existsb (fun v =>
    (new_val =? insert_at 0xffff old_val (u16 v) i) ||
    (bool_decide (2 < blen)%nat && (new_val =? insert_at 0xffff old_val (SWAP16 (u16 v)) i)))
    interesting_16.

Definition could_be_interest (old_val new_val : Z) (blen : nat) (check_le : bool) : bool :=
  if old_val =? new_val then true else
  if existsb (insertable_8 old_val new_val) (seqZ 0 (Z.of_nat blen)) then true else
  if bool_decide (blen = 2)%nat && negb check_le then false else
  if existsb (insertable_16 old_val new_val blen) (seqZ 0 (Z.of_nat blen - 1)) then true else
  if bool_decide (blen = 4)%nat && check_le
  then existsb (fun v => new_val =? u32 v) interesting_32
  else false.

(** ** Block lengths *)

Section Block.
Context {G : Type} `{RandGen G}.

(** The class of block sizes drawn for the current cycle. *)
Definition block_range (queue_cycle : Z) (run_over10m : bool) (g : G) : res (Z * Z * G) :=
  let rlim := u32 (Z.min queue_cycle 3) in
  let rlim := if run_over10m then rlim else 1 in
  '(k, g) ← rand_below g rlim;
  if k =? 0 then Ok (1, HAVOC_BLK_SMALL, g)
  else if k =? 1 then Ok (HAVOC_BLK_SMALL, HAVOC_BLK_MEDIUM, g)
  else
    '(k, g) ← rand_below g 10;
    Ok (if truthy k then (HAVOC_BLK_MEDIUM, HAVOC_BLK_LARGE, g) else (HAVOC_BLK_LARGE, HAVOC_BLK_XL, g)).

Definition choose_block_len (queue_cycle : Z) (run_over10m : bool) (limit : Z) (g : G) : res (Z * G) :=
  '(min_value, max_value, g) ← block_range queue_cycle run_over10m g;
  let min_value := if limit <=? min_value then 1 else min_value in
  '(k, g) ← rand_below g (u32 (Z.min max_value limit - min_value + 1));
  Ok (u32 (min_value + k), g).
End Block.

(** ** Differences *)

Fixpoint locate_loop (pos f_loc l_loc : Z) (ptr1 ptr2 : list Z) : Z * Z :=
  match ptr1, ptr2 with
  | x :: ptr1, y :: ptr2 =>
      if negb (x =? y)
      then locate_loop (pos + 1) (if f_loc =? -1 then s32 pos else f_loc) (s32 pos) ptr1 ptr2
      else locate_loop (pos + 1) f_loc l_loc ptr1 ptr2
  | _, _ => (f_loc, l_loc)
  end.

(** The first [len] bytes of both buffers; first and last differing offset. *)
Definition locate_diffs (ptr1 ptr2 : list Z) (len : nat) : res (Z * Z) :=
  if bool_decide (len <= length ptr1)%nat && bool_decide (len <= length ptr2)%nat
  then Ok (locate_loop 0 (-1) (-1) (take len ptr1) (take len ptr2))
  else Err Fault.
