(* ===== verification/DedupThms.v ===== *)
(** What the helpers of the deterministic stages decide. *)

From S2P Require Import Prelude Words Arith Float Bitmap State Rand Dedup.

(** ** Bit flips *)

Lemma odd_truthy x : truthy (x .& 1) = Z.odd x.
Proof.
  unfold truthy. change 1 with (Z.ones 1). rewrite Z.land_ones by lia. change (2 ^ 1) with 2.
  rewrite Zmod_odd. now destruct (Z.odd x).
Qed.

Lemma shift_out_spec fuel sh x :
  0 < x < 2 ^ Z.of_nat fuel -> 0 <= sh -> sh + Z.of_nat fuel < 2 ^ 32 ->
  exists s m, shift_out fuel sh x = Ok (sh + s, m) /\ 0 <= s /\ Z.odd m = true /\ x = m * 2 ^ s.
Proof.
  revert sh x; induction fuel as [|f IH]; intros sh x Hx Hs Hf; [cbn in Hx; lia|].
  cbn [shift_out]. rewrite odd_truthy. destruct (Z.odd x) eqn:Eo.
  - exists 0, x. repeat split; try done; try lia. now rewrite Z.add_0_r.
  - rewrite uwrap_id by lia. rewrite Nat2Z.inj_succ, Z.pow_succ_r in Hx by lia.
    assert (Ex : x = 2 * (x .>> 1)).
    { rewrite Z.shiftr_div_pow2 by lia. change (2 ^ 1) with 2.
      pose proof (Z.div_mod x 2 ltac:(lia)) as Hd. rewrite (Zmod_odd x), Eo in Hd. lia. }
    destruct (IH (sh + 1) (x .>> 1)) as (s & m & E & H1 & H2 & H3); [lia..|].
    exists (s + 1), m. rewrite E. repeat split; [f_equal; f_equal; lia|lia|done|].
    rewrite Ex, H3, Z.pow_add_r by lia. change (2 ^ 1) with 2. lia.
Qed.

(** An odd factor and a power of two are unique. *)
Lemma odd_pow_unique m n s t :
  Z.odd m = true -> Z.odd n = true -> 0 <= s -> 0 <= t -> m * 2 ^ s = n * 2 ^ t -> m = n /\ s = t.
Proof.
  assert (Hle : forall m n s t, Z.odd m = true -> 0 <= s -> 0 <= t -> s <= t -> m * 2 ^ s = n * 2 ^ t -> s = t).
  { intros a b s0 t0 Ha Hs Ht Hst E. destruct (Z.eq_dec s0 t0) as [|Hne]; [done|exfalso].
    replace t0 with (s0 + (1 + (t0 - s0 - 1))) in E by lia. rewrite !Z.pow_add_r in E by lia.
    assert (0 < 2 ^ s0) by (apply Z.pow_pos_nonneg; lia).
    assert (Ea : a = 2 * (b * 2 ^ (t0 - s0 - 1))) by nia.
    rewrite Ea, Z.odd_mul in Ha. discriminate Ha. }
  intros Hm Hn Hs Ht E. assert (s = t) as ->.
  { destruct (Z.le_ge_cases s t); [eapply (Hle m n)|symmetry; eapply (Hle n m)]; eauto; lia. }
  split; [|done]. assert (0 < 2 ^ t) by (apply Z.pow_pos_nonneg; lia). nia.
Qed.

(** A walking flip of 1, 2 or 4 adjacent bits, or of 1, 2 or 4 whole bytes. *)
Definition flip_pattern (x : Z) : Prop :=
  exists m s, 0 <= s /\ x = m * 2 ^ s /\
    (In m [1; 3; 15] \/ (In m [0xff; 0xffff; 0xffffffff] /\ s mod 8 = 0)).

Lemma aligned_shift s : 0 <= s -> truthy (s .& 7) = negb (s mod 8 =? 0).
Proof. intros Hs. unfold truthy. change 7 with (Z.ones 3). now rewrite Z.land_ones by lia. Qed.

(** It always answers. *)
Lemma could_be_bitflip_total x : 0 <= x < 2 ^ 32 -> exists b, could_be_bitflip x = Ok b.
Proof.
  intros Hx. unfold could_be_bitflip. destruct (Z.eqb_spec x 0) as [|Hz]; [eauto|].
  destruct (shift_out_spec 32 0 x) as (s & m & E & _); [cbn; lia|lia|cbn; lia|].
  rewrite E. cbn [mbind res_bind]. eauto.
Qed.

(** [could_be_bitflip] answers for every 32-bit difference, within 32
    rounds, whether it is empty or a run of 1, 2 or 4 adjacent bits anywhere
    or of 8, 16 or 32 bits at a byte boundary. *)
Theorem could_be_bitflip_correct x :
  0 <= x < 2 ^ 32 ->
  exists b, could_be_bitflip x = Ok b /\ (b = true <-> x = 0 \/ flip_pattern x).
Proof.
  intros Hx. unfold could_be_bitflip. destruct (Z.eqb_spec x 0) as [|Hz]; [exists true; tauto|].
  destruct (shift_out_spec 32 0 x) as (s & m & E & Hs & Ho & Ex); [cbn; lia|lia|cbn; lia|].
  rewrite E. cbn [mbind res_bind]. rewrite Z.add_0_l, aligned_shift by done.
  eexists; split; [reflexivity|].
  assert (Hp : flip_pattern x <-> In m [1; 3; 15] \/ (In m [0xff; 0xffff; 0xffffffff] /\ s mod 8 = 0)).
  { split; [|intros H; exists m, s; tauto]. intros (m' & s' & Hs' & Ex' & H).
    destruct (odd_pow_unique m m' s s') as [-> ->]; auto; [|congruence].
    cbn [In] in H. destruct H as [H|[H _]]; repeat destruct H as [<-|H]; done. }
  rewrite Hp. cbn [In]. destruct (Z.eqb_spec (s mod 8) 0); zcases; cbn [orb negb]; lia.
Qed.

Lemma could_be_bitflip_correct_witness :
  exists b, could_be_bitflip 0x1e0 = Ok b /\ (b = true <-> 0x1e0 = 0 \/ flip_pattern 0x1e0).
Proof. apply could_be_bitflip_correct. lia. Defined.

(** ** Block lengths *)

Section Block.
Context {G : Type} `{RandGenLaws G}.

Lemma block_range_ok c o g mn mx g' :
  block_range c o g = Ok (mn, mx, g') -> 1 <= mn <= mx /\ mx <= HAVOC_BLK_XL.
Proof.
  unfold block_range. intros E. apply bind_ok in E as ([k g1] & _ & E).
  destruct (k =? 0); [injection E as <- <- _; cbv; intuition discriminate|].
  destruct (k =? 1); [injection E as <- <- _; cbv; intuition discriminate|].
  apply bind_ok in E as ([k' g2] & _ & E).
  destruct (truthy k'); injection E as <- <- _; cbv; intuition discriminate.
Qed.

Lemma rand_below_upto g n x g' : 1 <= n < 2 ^ 32 -> rand_below g n = Ok (x, g') -> 0 <= x < n.
Proof.
  intros Hn E. destruct (decide (n <= 1)).
  - rewrite rand_below_trivial in E by done. injection E as <- _. lia.
  - eapply rand_below_bound; [|exact E]. lia.
Qed.

(** for every generator that meets its interface, a block length chosen
    for a limit of at least one is between one and the limit, and at most
    the largest block size. *)
Theorem choose_block_len_bounds c o limit g n g' :
  1 <= limit < 2 ^ 32 -> choose_block_len c o limit g = Ok (n, g') ->
  1 <= n <= limit /\ n <= HAVOC_BLK_XL.
Proof.
  intros Hl E. unfold choose_block_len in E. apply bind_ok in E as ([[mn mx] g1] & Er & E).
  apply block_range_ok in Er as [Hm Hx]. unfold HAVOC_BLK_XL in *.
  apply bind_ok in E as ([k g2] & Ek & E). injection E as <- _.
  set (m := if limit <=? mn then 1 else mn) in *.
  assert (Hm' : 1 <= m <= Z.min mx limit) by (unfold m; destruct (Z.leb_spec limit mn); lia).
  rewrite uwrap_id in Ek by lia. apply rand_below_upto in Ek; [|lia]. rewrite uwrap_id by lia. lia.
Qed.
End Block.

Lemma choose_block_len_bounds_witness :
  exists n g', @choose_block_len rng (afl_rand_below Word64 4) 7 true 100 rng0 = Ok (n, g') /\
    1 <= n <= 100 /\ n <= HAVOC_BLK_XL.
Proof.
  destruct (@choose_block_len rng (afl_rand_below Word64 4) 7 true 100 rng0) as [[n g']|] eqn:E;
    [|vm_compute in E; discriminate].
  exists n, g'. split; [reflexivity|].
  apply (@choose_block_len_bounds rng _ (afl_rand_laws Word64 4) 7 true 100 rng0 n g'); [lia|exact E].
Defined.

(** ** Differences *)

(** The differing offsets, in order. *)
Definition diff_offsets (a b : list Z) (len : nat) : list nat :=
  List.filter (fun i => negb (nth i a 0 =? nth i b 0)) (seq 0 len).

Lemma diff_offsets_cons x y a b len :
  diff_offsets (x :: a) (y :: b) (S len)
  = (if negb (x =? y) then [0%nat] else []) ++ map S (diff_offsets a b len).
Proof.
  unfold diff_offsets. cbn [seq List.filter nth]. rewrite <- seq_shift.
  replace (List.filter _ (map S (seq 0 len))) with
    (map S (List.filter (fun i => negb (nth i a 0 =? nth i b 0)) (seq 0 len))).
  - now destruct (negb (x =? y)).
  - induction (seq 0 len) as [|i l IH]; [done|]. cbn [map List.filter nth].
    destruct (negb _); cbn [map]; now rewrite IH.
Qed.

Definition at_pos (pos : Z) (l : list nat) : list Z := map (fun i => pos + Z.of_nat i) l.

Lemma at_pos_S pos l : at_pos pos (map S l) = at_pos (pos + 1) l.
Proof. unfold at_pos. rewrite map_map. apply map_ext. intros i. lia. Qed.

Lemma locate_loop_spec a b pos f l :
  length a = length b -> 0 <= pos -> pos + Z.of_nat (length a) < 2 ^ 31 ->
  locate_loop pos f l a b =
  (if f =? -1 then hd (-1) (at_pos pos (diff_offsets a b (length a))) else f,
   List.last (at_pos pos (diff_offsets a b (length a))) l).
Proof.
  revert b pos f l; induction a as [|x a IH]; intros [|y b] pos f l Hl Hp Hb; try discriminate Hl;
    cbn [locate_loop length] in *.
  { cbn. now destruct (Z.eqb_spec f (-1)) as [->|]. }
  rewrite diff_offsets_cons. unfold at_pos at 1 2. rewrite map_app. fold (at_pos pos (map S (diff_offsets a b (length a)))).
  rewrite at_pos_S. injection Hl as Hl.
  destruct (Z.eqb_spec x y) as [->|Hne]; cbn [negb map app]; rewrite IH by lia; [done|].
  assert (Es : s32 pos = pos).
  { unfold swrap. change (32 - 1) with 31. change (2 ^ 32) with 4294967296.
    change (2 ^ 31) with 2147483648 in *. rewrite Z.mod_small by lia. lia. }
  rewrite Es, Z.add_0_r. f_equal.
  - destruct (Z.eqb_spec f (-1)); cbn [hd]; [|now destruct (Z.eqb_spec f (-1))].
    destruct (Z.eqb_spec pos (-1)); [lia|done].
  - destruct (at_pos (pos + 1) (diff_offsets a b (length a))) as [|z zs]; [done|].
    cbn [List.last]. clear. revert z. induction zs as [|w ws IHw]; intros z; [done|]. cbn [List.last]. apply IHw.
Qed.

(** [locate_diffs] returns the least and the greatest offset at which the
    buffers differ, and -1 for both when they are equal. *)
Theorem locate_diffs_correct a b len :
  (len <= length a)%nat -> (len <= length b)%nat -> Z.of_nat len < 2 ^ 31 ->
  locate_diffs a b len = Ok (hd (-1) (map Z.of_nat (diff_offsets a b len)),
                             List.last (map Z.of_nat (diff_offsets a b len)) (-1)).
Proof.
  intros Ha Hb Hl. unfold locate_diffs. rewrite !bool_decide_eq_true_2 by done. cbn [andb]. f_equal.
  rewrite locate_loop_spec; rewrite ?length_take; try lia.
  replace (len `min` length a)%nat with len by lia. cbn [Z.eqb].
  assert (E : diff_offsets (take len a) (take len b) len = diff_offsets a b len).
  { unfold diff_offsets. apply List.filter_ext_in. intros i Hi%in_seq.
    rewrite !nth_lookup, !lookup_take_lt by lia. done. }
  rewrite E. unfold at_pos. done.
Qed.

Lemma locate_diffs_correct_witness : locate_diffs [1; 2; 3; 4; 9] [1; 5; 3; 6; 7] 4 = Ok (1, 3).
Proof. apply (locate_diffs_correct [1; 2; 3; 4; 9] [1; 5; 3; 6; 7] 4); cbn; lia. Defined.
