(* ===== verification/DedupArith.v ===== *)
(** [could_be_arith]: exactly the single steps of the arithmetic stages. *)

From S2P Require Import Prelude Words Arith Float Bitmap State Rand Dedup.

(** ** Arithmetic *)

(** Piece [i] of [x] replaced by [v]. *)
Definition put_piece (w x i v : Z) : Z := Z.ldiff x (Z.ones w .<< (w * i)) .| (v .<< (w * i)).

Lemma piece_range w x i : 0 <= w -> 0 <= piece w x i < 2 ^ w.
Proof. apply uwrap_range. Qed.

Lemma piece_testbit w x i k :
  0 <= w -> 0 <= i -> 0 <= k < w -> Z.testbit (piece w x i) k = Z.testbit x (w * i + k).
Proof.
  intros Hw Hi Hk. unfold piece. rewrite uwrap_testbit by lia.
  rewrite (proj2 (Z.ltb_lt k w)), Z.shiftr_spec by lia. cbn. f_equal. lia.
Qed.

Lemma put_piece_testbit w x i v k :
  0 <= w -> 0 <= i -> 0 <= v < 2 ^ w -> 0 <= k ->
  Z.testbit (put_piece w x i v) k
  = if (w * i <=? k) && (k <? w * i + w) then Z.testbit v (k - w * i) else Z.testbit x k.
Proof.
  intros Hw Hi Hv Hk. unfold put_piece. rewrite Z.lor_spec, Z.ldiff_spec, !Z.shiftl_spec by done.
  destruct (Z.leb_spec (w * i) k); cbn [andb].
  - destruct (Z.ltb_spec k (w * i + w)).
    + rewrite Z.ones_spec_low by lia. cbn. now rewrite andb_false_r.
    + rewrite Z.ones_spec_high by lia. rewrite (testbit_high w v) by (done || lia).
      cbn. now rewrite andb_true_r, orb_false_r.
  - rewrite !(Z.testbit_neg_r _ (k - w * i)) by lia. cbn. now rewrite andb_true_r, orb_false_r.
Qed.

Lemma put_piece_get w x i v j :
  0 <= w -> 0 <= i -> 0 <= j -> 0 <= v < 2 ^ w ->
  piece w (put_piece w x i v) j = if i =? j then v else piece w x j.
Proof.
  intros Hw Hi Hj Hv. apply Z.bits_inj'; intros k Hk.
  destruct (Z.lt_ge_cases k w) as [Hlt|Hge].
  - rewrite piece_testbit, put_piece_testbit by lia.
    destruct (Z.eqb_spec i j) as [->|Hne].
    + rewrite (proj2 (Z.leb_le _ _)), (proj2 (Z.ltb_lt _ _)) by lia. cbn. f_equal. lia.
    + rewrite piece_testbit by lia. destruct (Z.leb_spec (w * i) (w * j + k)), (Z.ltb_spec (w * j + k) (w * i + w));
        cbn; try done. exfalso. nia.
  - rewrite (testbit_high w) by (done || apply piece_range; lia).
    destruct (i =? j); symmetry; apply (testbit_high w); try done; apply piece_range; lia.
Qed.

Lemma put_piece_range w n x i v :
  0 <= w -> 0 <= i < n -> 0 <= x < 2 ^ (w * n) -> 0 <= v < 2 ^ w -> 0 <= put_piece w x i v < 2 ^ (w * n).
Proof.
  intros Hw Hi Hx Hv. unfold put_piece. apply lor_range; [nia|now apply ldiff_range; [nia|]|].
  rewrite Z.shiftl_mul_pow2 by nia. split; [nia|].
  apply Z.lt_le_trans with (2 ^ w * 2 ^ (w * i)); [nia|].
  rewrite <- Z.pow_add_r by nia. apply Z.pow_le_mono_r; nia.
Qed.

(** A value is its pieces. *)
Lemma pieces_ext w n x y :
  0 < w -> 0 <= n -> 0 <= x < 2 ^ (w * n) -> 0 <= y < 2 ^ (w * n) ->
  (forall i, 0 <= i < n -> piece w x i = piece w y i) -> x = y.
Proof.
  intros Hw Hn Hx Hy H. apply Z.bits_inj'; intros k Hk.
  destruct (Z.lt_ge_cases k (w * n)) as [Hlt|Hge].
  - assert (Hki : 0 <= k / w < n) by (split; [apply Z.div_pos; lia|apply Z.div_lt_upper_bound; lia]).
    pose proof (Z.mod_pos_bound k w Hw). pose proof (Z.div_mod k w ltac:(lia)) as Hd.
    rewrite Hd, <- !piece_testbit by lia. now rewrite H.
  - rewrite !(testbit_high (w * n)) by (done || lia). done.
Qed.

(** [new] differs from [old] in piece [i] only. *)
Definition one_piece (w n old new i : Z) : Prop :=
  0 <= i < n /\ piece w old i <> piece w new i /\
  forall j, 0 <= j < n -> j <> i -> piece w old j = piece w new j.

Lemma one_piece_put w n old new i :
  0 < w -> 0 <= i < n -> 0 <= old < 2 ^ (w * n) -> 0 <= new < 2 ^ (w * n) ->
  one_piece w n old new i <-> old <> new /\ new = put_piece w old i (piece w new i).
Proof.
  intros Hw Hi Ho Hn. pose proof (piece_range w new i ltac:(lia)) as Hp. split.
  - intros (_ & Hd & Hs). split; [congruence|]. apply (pieces_ext w n); try lia.
    { apply put_piece_range; lia. }
    intros j Hj. rewrite put_piece_get by lia. destruct (Z.eqb_spec i j) as [->|]; [done|]. symmetry. auto.
  - intros [Hne E]. assert (Hoth : forall j, 0 <= j < n -> j <> i -> piece w old j = piece w new j).
    { intros j Hj Hji. rewrite E, put_piece_get by lia. destruct (Z.eqb_spec i j); [congruence|done]. }
    split; [done|]. split; [|done]. intros Heq. apply Hne. apply (pieces_ext w n); try lia.
    intros j Hj. destruct (Z.eq_dec j i) as [->|]; auto.
Qed.

(** The pieces that differ. *)
Definition diff_list (w old new : Z) (l : list Z) : list Z :=
  List.filter (fun i => negb (piece w old i =? piece w new i)) l.

Lemma diff_fold w old new l d ov nv :
  0 <= d -> d + Z.of_nat (length l) < 2 ^ 32 ->
  foldl (diff_step w old new) (d, ov, nv) l =
  (d + Z.of_nat (length (diff_list w old new l)),
   List.last (map (piece w old) (diff_list w old new l)) ov,
   List.last (map (piece w new) (diff_list w old new l)) nv).
Proof.
  revert d ov nv; induction l as [|i l IH]; intros d ov nv Hd Hl; cbn [length foldl] in *.
  { cbn. f_equal; f_equal; lia. }
  unfold diff_list. cbn [List.filter]. fold (diff_list w old new l). unfold diff_step at 2.
  assert (Hlast : forall (l : list Z) (x y : Z), List.last (x :: l) y = List.last l x).
  { clear. intros l. induction l as [|z l IH]; intros x y; [done|]. cbn [List.last] in *. destruct l; [done|]. apply (IH x). }
  destruct (negb _); [|rewrite IH by lia; done].
  rewrite uwrap_id, IH by lia. cbn [length map]. rewrite !Hlast. f_equal; f_equal. lia.
Qed.

Lemma diff_list_one w n old new i :
  0 <= n -> diff_list w old new (seqZ 0 n) = [i] <-> one_piece w n old new i.
Proof.
  intros Hn. unfold diff_list, one_piece.
  assert (Hin : forall j, In j (List.filter (fun i => negb (piece w old i =? piece w new i)) (seqZ 0 n)) <->
                          0 <= j < n /\ piece w old j <> piece w new j).
  { intros j. rewrite filter_In, <- list_elem_of_In, elem_of_seqZ, negb_true_iff, Z.eqb_neq, Z.add_0_l. done. }
  assert (Hnd : List.NoDup (List.filter (fun i => negb (piece w old i =? piece w new i)) (seqZ 0 n))).
  { apply List.NoDup_filter, NoDup_ListNoDup, NoDup_seqZ. }
  set (D := List.filter _ _) in *. clearbody D. split.
  - intros ->. destruct (proj1 (Hin i) (or_introl eq_refl)) as [Hi Hd]. split_and!; [lia|lia|done|].
    intros j Hj Hji. destruct (Z.eq_dec (piece w old j) (piece w new j)) as [|Hne]; [done|].
    destruct (proj2 (Hin j) (conj Hj Hne)) as [->|[]]; done.
  - intros (Hi & Hd & Hs). assert (Hall : forall j, In j D -> j = i).
    { intros j Hj. apply Hin in Hj as [Hj Hne]. destruct (Z.eq_dec j i); [done|]. exfalso. auto. }
    pose proof (proj2 (Hin i) (conj Hi Hd)) as Hii. destruct D as [|x [|y D]]; [done| |].
    + now rewrite (Hall x (or_introl eq_refl)).
    + exfalso. apply NoDup_cons_iff in Hnd as [Hx _]. apply Hx.
      rewrite (Hall x (or_introl eq_refl)), (Hall y (or_intror (or_introl eq_refl))). now left.
Qed.

(** One pass of [could_be_arith]: exactly one piece differs, and its values
    pass the test. *)
Lemma diff_pass w n old new ov nv (test : Z -> Z -> bool) :
  Z.of_nat n < 2 ^ 32 ->
  (let '(diffs, a, b) := diff_pieces w n old new ov nv in (diffs =? 1) && test a b) = true <->
  exists i, one_piece w (Z.of_nat n) old new i /\ test (piece w old i) (piece w new i) = true.
Proof.
  intros Hn. unfold diff_pieces. rewrite diff_fold by (rewrite ?length_seqZ; lia).
  set (D := diff_list w old new (seqZ 0 (Z.of_nat n))). split.
  - intros H. apply andb_prop in H as [H1 H2]. apply Z.eqb_eq in H1.
    destruct D as [|i [|]] eqn:E; cbn [length] in H1; try lia. cbn in H2. exists i. split; [|done].
    apply diff_list_one; [lia|exact E].
  - intros (i & Hi & Ht). apply diff_list_one in Hi; [|lia]. fold D in Hi. rewrite Hi. cbn. exact Ht.
Qed.

(** The values an addition or a subtraction of at most [ARITH_MAX] reaches. *)
Lemma within_arith_spec w a b :
  8 <= w -> 0 <= a < 2 ^ w -> 0 <= b < 2 ^ w ->
  within_arith w a b = true <-> exists j, - ARITH_MAX <= j <= ARITH_MAX /\ b = uwrap w (a + j).
Proof.
  intros Hw Ha Hb. unfold within_arith, ARITH_MAX. rewrite orb_true_iff, !Z.leb_le.
  assert (Hp : 2 ^ 8 <= 2 ^ w) by (apply Z.pow_le_mono_r; lia). change (2 ^ 8) with 256 in Hp.
  unfold uwrap. split.
  - intros [H|H].
    + exists (- ((a - b) mod 2 ^ w)). pose proof (Z.mod_pos_bound (a - b) (2 ^ w)). split; [lia|].
      rewrite Z.add_opp_r, Zminus_mod_idemp_r. replace (a - (a - b)) with b by lia. now rewrite Z.mod_small.
    + exists ((b - a) mod 2 ^ w). pose proof (Z.mod_pos_bound (b - a) (2 ^ w)). split; [lia|].
      rewrite Zplus_mod_idemp_r. replace (a + (b - a)) with b by lia. now rewrite Z.mod_small.
  - intros (j & Hj & ->). destruct (Z.lt_ge_cases j 0); [left|right].
    + rewrite Zminus_mod_idemp_r. replace (a - (a + j)) with (- j) by lia. rewrite Z.mod_small; lia.
    + rewrite Zminus_mod_idemp_l. replace (a + j - a) with j by lia. rewrite Z.mod_small; lia.
Qed.

(** What one step of the arithmetic stages does to a value: add [j] to piece
    [i], in either byte order. *)
Definition arith_le (w x i j : Z) : Z := put_piece w x i (uwrap w (piece w x i + j)).
Definition arith_be16 (x i j : Z) : Z := put_piece 16 x i (SWAP16 (u16 (SWAP16 (piece 16 x i) + j))).
Definition arith_be32 (x j : Z) : Z := SWAP32 (u32 (SWAP32 x + j)).

Lemma le_pass w n old new i :
  8 <= w -> 0 <= i < n -> 0 <= old < 2 ^ (w * n) -> 0 <= new < 2 ^ (w * n) -> old <> new ->
  (one_piece w n old new i /\ within_arith w (piece w old i) (piece w new i) = true) <->
  exists j, - ARITH_MAX <= j <= ARITH_MAX /\ new = arith_le w old i j.
Proof.
  intros Hw Hi Ho Hn Hne. rewrite one_piece_put, within_arith_spec by (try apply piece_range; lia).
  pose proof (fun j => uwrap_range w (piece w old i + j) ltac:(lia)) as Hr. unfold arith_le. split.
  - intros [[_ E] (j & Hj & Ej)]. exists j. split; [done|]. now rewrite <- Ej.
  - intros (j & Hj & E). assert (Ep : piece w new i = uwrap w (piece w old i + j)).
    { rewrite E, put_piece_get, Z.eqb_refl by (try apply Hr; lia). done. }
    split; [split; [done|now rewrite Ep]|]. exists j. now rewrite Ep.
Qed.

Lemma SWAP16_invol x : 0 <= x < 2 ^ 16 -> SWAP16 (SWAP16 x) = x.
Proof. intros. destruct (SWAP_correct x) as (_ & _ & _ & -> & _). now apply uwrap_id. Qed.
Lemma SWAP32_invol x : 0 <= x < 2 ^ 32 -> SWAP32 (SWAP32 x) = x.
Proof. intros. destruct (SWAP_correct x) as (_ & _ & _ & _ & -> & _). now apply uwrap_id. Qed.

Lemma be_pass n old new i :
  0 <= i < n -> 0 <= old < 2 ^ (16 * n) -> 0 <= new < 2 ^ (16 * n) -> old <> new ->
  (one_piece 16 n old new i /\ within_arith 16 (SWAP16 (piece 16 old i)) (SWAP16 (piece 16 new i)) = true) <->
  exists j, - ARITH_MAX <= j <= ARITH_MAX /\ new = arith_be16 old i j.
Proof.
  intros Hi Ho Hn Hne.
  rewrite one_piece_put, within_arith_spec by (try apply SWAP_range; lia).
  assert (Hs : forall y, 0 <= SWAP16 y < 2 ^ 16) by (intros; apply SWAP_range). unfold arith_be16. split.
  - intros [[_ E] (j & Hj & Ej)]. exists j. split; [done|]. rewrite <- Ej.
    rewrite SWAP16_invol by (apply piece_range; lia). done.
  - intros (j & Hj & E). assert (Ep : piece 16 new i = SWAP16 (u16 (SWAP16 (piece 16 old i) + j))).
    { rewrite E, put_piece_get, Z.eqb_refl by (try apply Hs; lia). done. }
    split; [split; [done|now rewrite Ep]|]. exists j. split; [done|].
    rewrite Ep, SWAP16_invol by (apply uwrap_range; lia). done.
Qed.

Lemma be32_pass old new :
  0 <= old < 2 ^ 32 -> 0 <= new < 2 ^ 32 ->
  within_arith 32 (SWAP32 old) (SWAP32 new) = true <->
  exists j, - ARITH_MAX <= j <= ARITH_MAX /\ new = arith_be32 old j.
Proof.
  intros Ho Hn. rewrite within_arith_spec by (try apply SWAP_range; lia). unfold arith_be32.
  split; intros (j & Hj & E); exists j; (split; [done|]).
  - now rewrite <- E, SWAP32_invol.
  - rewrite E, SWAP32_invol by (apply uwrap_range; lia). done.
Qed.

(** The steps that the arithmetic stages up to [blen] bytes make. *)
Definition arith_step (blen : nat) (x y : Z) : Prop :=
  exists j, - ARITH_MAX <= j <= ARITH_MAX /\
    ((exists i, 0 <= i < Z.of_nat blen /\ y = arith_le 8 x i j) \/
     (blen <> 1%nat /\ exists i, 0 <= i < Z.of_nat (blen / 2) /\ (y = arith_le 16 x i j \/ y = arith_be16 x i j)) \/
     (blen = 4%nat /\ (y = arith_le 32 x 0 j \/ y = arith_be32 x j))).

Lemma le_steps w n old new :
  8 <= w -> 0 <= old < 2 ^ (w * n) -> 0 <= new < 2 ^ (w * n) -> old <> new ->
  (exists i, one_piece w n old new i /\ within_arith w (piece w old i) (piece w new i) = true) <->
  exists j, - ARITH_MAX <= j <= ARITH_MAX /\ exists i, 0 <= i < n /\ new = arith_le w old i j.
Proof.
  intros Hw Ho Hn Hne. split.
  - intros (i & H). assert (Hi : 0 <= i < n) by apply H. apply le_pass in H as (j & Hj & E); eauto 10.
  - intros (j & Hj & i & Hi & E). exists i. apply le_pass; eauto.
Qed.

Lemma word_steps n old new :
  0 <= old < 2 ^ (16 * n) -> 0 <= new < 2 ^ (16 * n) -> old <> new ->
  (exists i, one_piece 16 n old new i /\
     within_arith 16 (piece 16 old i) (piece 16 new i)
     || within_arith 16 (SWAP16 (piece 16 old i)) (SWAP16 (piece 16 new i)) = true) <->
  exists j, - ARITH_MAX <= j <= ARITH_MAX /\
    exists i, 0 <= i < n /\ (new = arith_le 16 old i j \/ new = arith_be16 old i j).
Proof.
  intros Ho Hn Hne. split.
  - intros (i & H1 & H2). assert (Hi : 0 <= i < n) by apply H1. apply orb_prop in H2 as [H2|H2].
    + destruct (proj1 (le_pass 16 n old new i ltac:(lia) Hi Ho Hn Hne) (conj H1 H2)) as (j & Hj & E). eauto 10.
    + destruct (proj1 (be_pass n old new i Hi Ho Hn Hne) (conj H1 H2)) as (j & Hj & E). eauto 10.
  - intros (j & Hj & i & Hi & [E|E]); exists i.
    + destruct (proj2 (le_pass 16 n old new i ltac:(lia) Hi Ho Hn Hne)) as [H1 H2]; [eauto|].
      split; [done|]. now rewrite H2.
    + destruct (proj2 (be_pass n old new i Hi Ho Hn Hne)) as [H1 H2]; [eauto|].
      split; [done|]. rewrite H2. apply orb_true_r.
Qed.

Lemma dword_steps old new :
  0 <= old < 2 ^ 32 -> 0 <= new < 2 ^ 32 -> old <> new ->
  within_arith 32 old new || within_arith 32 (SWAP32 old) (SWAP32 new) = true <->
  exists j, - ARITH_MAX <= j <= ARITH_MAX /\ (new = arith_le 32 old 0 j \/ new = arith_be32 old j).
Proof.
  intros Ho Hn Hne. rewrite orb_true_iff, be32_pass by done.
  assert (Hp : forall x, 0 <= x < 2 ^ 32 -> piece 32 x 0 = x).
  { intros x Hx. unfold piece. rewrite Z.mul_0_r, Z.shiftr_0_r. now apply uwrap_id. }
  pose proof (le_pass 32 1 old new 0 ltac:(lia) ltac:(lia) Ho Hn Hne) as Hle. rewrite !Hp in Hle by done.
  assert (H1 : one_piece 32 1 old new 0).
  { split; [lia|]. rewrite !Hp by done. split; [done|]. intros j Hj Hj0. lia. }
  split.
  - intros [H|(j & Hj & E)]; [|eauto]. destruct (proj1 Hle (conj H1 H)) as (j & Hj & E). eauto.
  - intros (j & Hj & [E|E]); [left|right]; [|eauto]. apply Hle. eauto.
Qed.

(** [could_be_arith] answers exactly whether the new value is the old one
    or what a single step of the arithmetic stages of at most [blen] bytes
    makes of it: a byte, an aligned 16-bit word or the 32-bit word, in
    either byte order, plus or minus at most [ARITH_MAX]. *)
Theorem could_be_arith_correct old new blen :
  In blen [1; 2; 4]%nat -> 0 <= old < 2 ^ (8 * Z.of_nat blen) -> 0 <= new < 2 ^ (8 * Z.of_nat blen) ->
  could_be_arith old new blen = true <-> old = new \/ arith_step blen old new.
Proof.
  intros Hb Ho Hn. unfold could_be_arith. destruct (Z.eqb_spec old new) as [|Hne]; [tauto|].
  assert (Hlen : Z.of_nat blen < 2 ^ 32) by (cbn in Hb; lia).
  assert (Hhalf : Z.of_nat (blen / 2) < 2 ^ 32) by (cbn in Hb; intuition (subst; cbn; lia)).
  pose proof (diff_pass 8 blen old new 0 0 (within_arith 8) Hlen) as P8.
  destruct (diff_pieces 8 blen old new 0 0) as [[d ov] nv].
  rewrite le_steps in P8 by (lia || done).
  pose proof (diff_pass 16 (blen / 2) old new ov nv (fun a b => within_arith 16 a b || within_arith 16 (SWAP16 a) (SWAP16 b)) Hhalf) as P16.
  destruct (diff_pieces 16 (blen / 2) old new ov nv) as [[d2 ov2] nv2]. cbv beta in P16.
  unfold arith_step. cbn [In] in Hb.
  destruct ((d =? 1) && within_arith 8 ov nv); [split; [|done]; intros _; right|].
  { destruct (proj1 P8 eq_refl) as (j & Hj & i & Hi & E). eauto 10. }
  assert (N8 : ~ exists j, - ARITH_MAX <= j <= ARITH_MAX /\ exists i, 0 <= i < Z.of_nat blen /\ new = arith_le 8 old i j)
    by (intros H; discriminate (proj2 P8 H)).
  destruct Hb as [<-|[<-|[<-|[]]]].
  - rewrite bool_decide_eq_true_2 by done. split; [discriminate|].
    intros [|(j & Hj & [E|[[? _]|[? _]]])]; try done. exfalso. eauto.
  - rewrite bool_decide_eq_false_2 by done. change (Z.of_nat (2 / 2)) with 1 in *.
    change (8 * Z.of_nat 2) with (16 * 1) in *. rewrite word_steps in P16 by done.
    rewrite (bool_decide_eq_false_2 (2 = 4)%nat) by done.
    transitivity ((d2 =? 1) && (within_arith 16 ov2 nv2 || within_arith 16 (SWAP16 ov2) (SWAP16 nv2)) = true);
      [now destruct (_ && _)|]. rewrite P16. split.
    + intros (j & Hj & E). right. exists j. split; [done|]. right; left. done.
    + intros [|(j & Hj & [E|[[_ E]|[? _]]])]; try done; [exfalso; eauto|eauto].
  - rewrite bool_decide_eq_false_2 by done. change (Z.of_nat (4 / 2)) with 2 in *.
    change (8 * Z.of_nat 4) with (16 * 2) in *. rewrite word_steps in P16 by done.
    rewrite (bool_decide_eq_true_2 (4 = 4)%nat) by done.
    transitivity ((d2 =? 1) && (within_arith 16 ov2 nv2 || within_arith 16 (SWAP16 ov2) (SWAP16 nv2)) = true
                  \/ within_arith 32 old new || within_arith 32 (SWAP32 old) (SWAP32 new) = true);
      [destruct ((d2 =? 1) && _); [split; [now left|done]|split; [now right|intros [?|?]; done]]|].
    rewrite P16, dword_steps by done. split.
    + intros [(j & Hj & E)|(j & Hj & E)]; right; exists j; (split; [done|]); [right; left|right; right]; done.
    + intros [|(j & Hj & [E|[[_ E]|[_ E]]])]; try done; [exfalso; eauto|left; eauto|right; eauto].
Qed.

(** 0x00ff + 2 = 0x0101 in a 16-bit little-endian word. *)
Lemma could_be_arith_correct_witness :
  could_be_arith 0xff 0x101 2 = true <-> 0xff = 0x101 \/ arith_step 2 0xff 0x101.
Proof. apply (could_be_arith_correct 0xff 0x101 2); cbn; [tauto|lia|lia]. Defined.
