(* ===== verification/Extras.v ===== *)
(** The dictionaries of [src/afl-fuzz-extras.c]: the parser of dictionary
    files, the user's tokens ([extras], kept sorted by length) and the ones
    found while fuzzing ([a_extras]).

    A token is the list of its bytes.  [qsort] of the C library is a class:
    it promises a sorted permutation, not which one. *)

From stdpp Require Import sorting.
From S2P Require Import Prelude Words Arith Float Bitmap State Rand Dedup.

Definition MAX_LINE : Z := 8192.
Definition MAX_DICT_FILE : Z := 128.
Definition MIN_AUTO_EXTRA : Z := 3.
Definition MAX_AUTO_EXTRA : Z := 32.
Definition USE_AUTO_EXTRAS : Z := 4096.
Definition MAX_AUTO_EXTRAS : Z := USE_AUTO_EXTRAS * 8.

(** ** <ctype.h> in the C locale, and strings *)

Definition in_range (lo hi c : Z) : bool := (lo <=? c) && (c <=? hi).
Definition isspace (c : Z) : bool := (c =? 32) || in_range 9 13 c.
Definition isdigit (c : Z) : bool := in_range 48 57 c.
Definition isupper (c : Z) : bool := in_range 65 90 c.
Definition islower (c : Z) : bool := in_range 97 122 c.
Definition isalnum (c : Z) : bool := isdigit c || isupper c || islower c.
Definition isxdigit (c : Z) : bool := isdigit c || in_range 65 70 c || in_range 97 102 c.
Definition tolower (c : Z) : Z := if isupper c then c + 32 else c.

(** A C string is the list of its bytes before the terminator. *)
Fixpoint c_str (l : list Z) : list Z :=
  match l with [] => [] | c :: l => if c =? 0 then [] else c :: c_str l end.

(** [while (p( *lptr)) ++lptr;] *)
Fixpoint skip_while (p : Z -> bool) (l : list Z) : list Z :=
  match l with [] => [] | c :: r => if p c then skip_while p r else l end.

Fixpoint digits (acc : Z) (l : list Z) : Z :=
  match l with c :: r => if isdigit c then digits (acc * 10 + (c - 48)) r else acc | [] => acc end.

(** [strtol] saturates at the limits of [long], [atoi] truncates to [int]. *)
Definition atoi (l : list Z) : Z :=
  let l := skip_while isspace l in
  let v := match l with
           | 45 :: r => - digits 0 r
           | 43 :: r => digits 0 r
           | _ => digits 0 l
           end in
  s32 (Z.max (- 2 ^ 63) (Z.min (2 ^ 63 - 1) v)).

(** ** Dictionary files *)

(** [strchr(hexdigits, tolower(c)) - hexdigits] *)
Definition hex_val (c : Z) : Z := if isdigit c then c - 48 else tolower c - 87.

Definition non_printable (c : Z) : bool := in_range 1 31 c || in_range 128 255 c.

(** The loop that copies the keyword.  One unit of fuel is one iteration; the
    [continue] after a non-printable character does not advance. *)
Fixpoint decode (fuel : nat) (l : list Z) : res (list Z) :=
  match l with
  | [] => Ok []
  | c :: r =>
    match fuel with
    | O => Err OutOfFuel
    | S f =>
      if non_printable c then decode f l else
      if c =? 92 then
        match r with
        | d :: r' =>
          if (d =? 92) || (d =? 34) then k ← decode f r'; Ok (d :: k) else
          match r' with
          | h1 :: h2 :: r'' =>
            if (d =? 120) && isxdigit h1 && isxdigit h2
            then k ← decode f r''; Ok (((hex_val h1 .<< 4) .| hex_val h2) :: k)
            else decode f r
          | _ => decode f r
          end
        | [] => decode f r
        end
      else k ← decode f r; Ok (c :: k)
    end
  end.

(** [@number] *)
Definition skip_level (dict_level : Z) (l : list Z) : option (list Z) :=
  match l with
  | 64 :: r => if dict_level <? atoi r then None else Some (skip_while isdigit r)
  | _ => Some l
  end.

(** [[number]] *)
Definition skip_index (l : list Z) : list Z :=
  match l with
  | 91 :: r => match skip_while isdigit r with 93 :: r => r | r => r end
  | _ => l
  end.

Definition rstrip (l : list Z) : list Z := rev (skip_while isspace (rev l)).

(** From a line, without its terminator, to the text between the quotes. *)
Definition quoted (dict_level : Z) (line : list Z) : option (list Z) :=
  let l := rstrip (skip_while isspace line) in
  if (hd 0 l =? 0) || (hd 0 l =? 35) then None else
  if negb (List.last l 0 =? 34) then None else
  let l := removelast l in
  match skip_level dict_level (skip_while (fun c => isalnum c || (c =? 95)) l) with
  | None => None
  | Some l =>
    match skip_while (fun c => isspace c || (c =? 61)) (skip_index l) with
    | 34 :: r => if bool_decide (r = []) then None else Some r
    | _ => None
    end
  end.

(** What a line adds: nothing when it is skipped or the keyword is too big. *)
Definition load_line (fuel : nat) (dict_level : Z) (line : list Z) : res (option (list Z)) :=
  match quoted dict_level (c_str line) with
  | None => Ok None
  | Some r => k ← decode fuel r;
              Ok (if MAX_DICT_FILE <? Z.of_nat (length k) then None else Some k)
  end.

(** [fgets(buf, MAX_LINE, f)]: up to [n] bytes, up to and with a newline. *)
Fixpoint fgets (n : nat) (f : list Z) : list Z * list Z :=
  match n, f with
  | S n, c :: f => if c =? 10 then ([c], f) else let '(l, r) := fgets n f in (c :: l, r)
  | _, _ => ([], f)
  end.

(** [load_extras_file], line after line. *)
Fixpoint load_lines (fuel : nat) (dict_level : Z) (n : nat) (f : list Z) (extras : list (list Z)) (min_len max_len : Z)
    : res (list (list Z) * Z * Z) :=
  match n, f with
  | _, [] => Ok (extras, min_len, max_len)
  | O, _ => Err OutOfFuel
  | S n, _ =>
      let '(line, rest) := fgets (Z.to_nat (MAX_LINE - 1)) f in
      k ← load_line fuel dict_level line;
      match k with
      | None => load_lines fuel dict_level n rest extras min_len max_len
      | Some k => load_lines fuel dict_level n rest (extras ++ [k])
                    (Z.min min_len (Z.of_nat (length k))) (Z.max max_len (Z.of_nat (length k)))
      end
  end.

Definition load_extras_file (dict_level : Z) (f : list Z) (extras : list (list Z)) (min_len max_len : Z)
    : res (list (list Z) * Z * Z) :=
  load_lines (Z.to_nat MAX_LINE) dict_level (length f) f extras min_len max_len.

(** ** Sorting *)

Class Qsort := qsort : forall {A : Type}, (A -> A -> Z) -> list A -> list A.

(** For a comparison that orders the elements by a key the result is a
    permutation sorted by the key. *)
Class QsortLaws `{Qsort} := {
  qsort_perm : forall A (cmp : A -> A -> Z) l, qsort cmp l ≡ₚ l;
  qsort_sorted : forall A (cmp : A -> A -> Z) (key : A -> Z) l,
    (forall x y, x ∈ l -> y ∈ l -> 0 < cmp x y <-> key y < key x) ->
    Sorted (fun x y => key x <= key y) (qsort cmp l)
}.

Record auto_extra := mkAuto { a_data : list Z; a_hit_cnt : Z }.

Definition extra_len (d : list Z) : Z := u32 (Z.of_nat (length d)).
(** The [u32] difference returned as an [int]. *)
Definition compare_extras_len (e1 e2 : list Z) : Z := s32 (u32 (extra_len e1 - extra_len e2)).
Definition compare_auto_extras_len (e1 e2 : auto_extra) : Z := s32 (u32 (extra_len (a_data e1) - extra_len (a_data e2))).
Definition compare_auto_extras_use_d (e1 e2 : auto_extra) : Z := s32 (u32 (a_hit_cnt e2 - a_hit_cnt e1)).

Section Dictionaries.
Context `{Qsort}.

(** [extras_check_and_sort] *)
Definition extras_check_and_sort (extras : list (list Z)) : list (list Z) :=
  if bool_decide (extras = []) then extras else qsort compare_extras_len extras.

(** [load_extras] on a file named [dir@level], and on a directory of regular
    files with the given contents. *)
Definition load_extras_of_file (dict_level : Z) (f : list Z) (extras : list (list Z)) : res (list (list Z)) :=
  '(extras, _, _) ← load_extras_file dict_level f extras MAX_DICT_FILE 0;
  Ok (extras_check_and_sort extras).

Definition load_extras_of_dir (files : list (list Z)) (extras : list (list Z)) : list (list Z) :=
  extras_check_and_sort
    (foldl (fun extras f =>
       if (Z.of_nat (length f) =? 0) || (MAX_DICT_FILE <? Z.of_nat (length f)) then extras else extras ++ [f])
     extras files).

(** ** The user's tokens *)

(** The [j]-loop of [dedup_extras] at [i]: remove what equals token [i], stop
    at the first token of another length. *)
Fixpoint dedup_from (fuel : nat) (i j : nat) (extras : list (list Z)) : res (list (list Z)) :=
  match extras !! j with
  | None => Ok extras
  | Some y =>
    match fuel with
    | O => Err OutOfFuel
    | S f =>
      x ← rd extras i;
      if negb (extra_len x =? extra_len y) then Ok extras else
      if bool_decide (x = y) then dedup_from f i j (delete j extras) else dedup_from f i (S j) extras
    end
  end.

Fixpoint dedup_loop (fuel : nat) (i : nat) (extras : list (list Z)) : res (list (list Z)) :=
  if bool_decide (length extras - 1 <= i)%nat then Ok extras else
  match fuel with
  | O => Err OutOfFuel
  | S f => extras ← dedup_from (length extras) i (S i) extras; dedup_loop f (S i) extras
  end.

Definition dedup_extras (extras : list (list Z)) : res (list (list Z)) :=
  if bool_decide (length extras < 2)%nat then Ok extras else dedup_loop (length extras) 0 extras.

(** The scan of [add_extra] ends after the tokens of the same length. *)
Fixpoint has_extra (found : bool) (mem : list Z) (extras : list (list Z)) : bool :=
  match extras with
  | [] => false
  | x :: extras =>
      if extra_len x =? extra_len mem
      then if bool_decide (x = mem) then true else has_extra true mem extras
      else if found then false else has_extra found mem extras
  end.

Definition add_extra (mem : list Z) (extras : list (list Z)) : list (list Z) :=
  if has_extra false mem extras then extras else
  if MAX_DICT_FILE <? extra_len mem then extras else
  qsort compare_extras_len (extras ++ [mem]).

(** ** De-unicode *)

(** Zero bytes at the positions [r] modulo 4 the counter is for. *)
Definition zeros (d : list Z) (rs : list nat) : Z :=
  zsum (fun j => b2z (existsb (Nat.eqb (j mod 4)) rs && (nth j d 0 =? 0))) (seq 0 (length d)).

Definition every (n r : nat) (d : list Z) : list Z :=
  map (fun j => nth j d 0) (List.filter (fun j => (j mod n =? r)%nat) (seq 0 (length d))).

(** What [deunicode_extras] adds for one token. *)
Definition deunicode (d : list Z) : list (list Z) :=
  let len := Z.of_nat (length d) in
  if (len <? 6) || (64 <? len) || truthy (len mod 2) then [] else
  let half := len .>> 1 in
  let quarter := half .>> 1 in
  let z1 := zeros d [0; 2]%nat in
  let z2 := zeros d [1; 3]%nat in
  let z3 := zeros d [2]%nat in
  let z4 := zeros d [3]%nat in
  if ((z1 <? half) && (z2 <? half)) || (z1 + z2 =? len) then [] else
  (if (len mod 4 =? 0) && (12 <=? len) && ((z3 =? quarter) || (z4 =? quarter)) && (z1 + z2 =? quarter * 3)
   then [if z4 <? quarter then every 4 3 d else if z3 <? quarter then every 4 2 d
         else if z2 <? half then every 4 1 d else every 4 0 d]
   else []) ++
  [if z1 <? half then every 2 0 d else every 2 1 d].

Definition deunicode_extras (extras : list (list Z)) : list (list Z) :=
  if bool_decide (extras = []) then extras else
  qsort compare_extras_len (extras ++ concat (map deunicode extras)).

(** ** Automatic tokens *)

Definition memcmp_nocase (m1 m2 : list Z) : bool :=
  existsb (fun '(a, b) => truthy (tolower a .^ tolower b)) (zip m1 m2).

(** [mem[0] ^ mem[i]] for no [i] from 1 on, and [i == len] then. *)
Definition all_same (mem : list Z) : bool :=
  negb (bool_decide (mem = [])) && forallb (fun i => nth i mem 0 =? nth 0 mem 0) (seq 1 (length mem - 1)).

(** The [u16] read compares with the [s16] after both become [int]. *)
Definition builtin_16 (mem : list Z) : bool :=
  existsb (fun v => (le_load mem =? v) || (le_load mem =? SWAP16 v)) interesting_16.
Definition builtin_32 (mem : list Z) : bool :=
  existsb (fun v => (le_load mem =? u32 v) || (le_load mem =? SWAP32 v)) interesting_32.

(** Two scans that use that [extras] is sorted: to the first token as long as
    [mem], then over those exactly as long. *)
Fixpoint to_length (len : Z) (extras : list (list Z)) : list (list Z) :=
  match extras with [] => [] | x :: r => if len <=? extra_len x then extras else to_length len r end.
Fixpoint match_extra (mem : list Z) (extras : list (list Z)) : bool :=
  match extras with
  | [] => false
  | x :: r => if extra_len x =? extra_len mem
              then if negb (memcmp_nocase x mem) then true else match_extra mem r
              else false
  end.

(** The index of the automatic token that matches. *)
Fixpoint find_auto (i : nat) (mem : list Z) (a_extras : list auto_extra) : option nat :=
  match a_extras with
  | [] => None
  | a :: r => if (extra_len (a_data a) =? extra_len mem) && negb (memcmp_nocase (a_data a) mem)
              then Some i else find_auto (S i) mem r
  end.

(** By use, then the part in use by length. *)
Definition sort_a_extras (a_extras : list auto_extra) : list auto_extra :=
  let l := qsort compare_auto_extras_use_d a_extras in
  let n := Z.to_nat (Z.min USE_AUTO_EXTRAS (Z.of_nat (length a_extras))) in
  qsort compare_auto_extras_len (take n l) ++ drop n l.

Record dict := mkDict { extras : list (list Z); a_extras : list auto_extra; auto_changed : bool }.

Context {G : Type} `{RandGen G}.

(** The reasons to drop a token, in the code's order. *)
Definition auto_rejected (d : dict) (mem : list Z) : bool :=
  let len := extra_len mem in
  all_same mem || (MAX_AUTO_EXTRA <? len) ||
  ((len =? 2) && builtin_16 mem) || ((len =? 4) && builtin_32 mem) ||
  match_extra mem (to_length len (extras d)).

(** A new token is appended or replaces a random one of the bottom half. *)
Definition enter_auto (mem : list Z) (l : list auto_extra) (g : G) : res (list auto_extra * G) :=
  if Z.of_nat (length l) <? MAX_AUTO_EXTRAS then Ok (l ++ [mkAuto mem 0], g) else
  '(k, g) ← rand_below g ((MAX_AUTO_EXTRAS + 1) / 2);
  l ← wr l (Z.to_nat (MAX_AUTO_EXTRAS / 2 + k)) (mkAuto mem 0);
  Ok (l, g).

Definition maybe_add_auto (d : dict) (mem : list Z) (g : G) : res (dict * G) :=
  if auto_rejected d mem then Ok (d, g) else
  match find_auto 0 mem (a_extras d) with
  | Some i =>
      let l := alter (fun a => mkAuto (a_data a) (u32 (a_hit_cnt a + 1))) i (a_extras d) in
      Ok (mkDict (extras d) (sort_a_extras l) true, g)
  | None =>
      '(l, g) ← enter_auto mem (a_extras d) g;
      Ok (mkDict (extras d) (sort_a_extras l) true, g)
  end.

(** The files [save_auto] writes, and [load_auto] of such files: one byte more
    than the limit is read of each. *)
Definition save_auto (d : dict) : option (list (list Z)) * dict :=
  if auto_changed d
  then (Some (map a_data (take (Z.to_nat (Z.min USE_AUTO_EXTRAS (Z.of_nat (length (a_extras d))))) (a_extras d))),
        mkDict (extras d) (a_extras d) false)
  else (None, d).

Definition load_auto (files : list (list Z)) (d : dict) (g : G) : res (dict * G) :=
  rfold (fun '(d, g) f =>
    let tmp := take (Z.to_nat (MAX_AUTO_EXTRA + 1)) f in
    if (MIN_AUTO_EXTRA <=? Z.of_nat (length tmp)) && (Z.of_nat (length tmp) <=? MAX_AUTO_EXTRA)
    then maybe_add_auto d tmp g else Ok (d, g)) (d, g) (take (Z.to_nat USE_AUTO_EXTRAS) files).
End Dictionaries.
