(* ===== verification/DictFile.v ===== *)
(** Dictionary files: when the parser of keywords ends, and that it reads back
    what the documented escapes write. *)

From Stdlib Require Import ZifyBool.
From S2P Require Import Prelude Words Arith Float Bitmap State Rand Dedup Extras.

Definition is_label (c : Z) : bool := isalnum c || (c =? 95).

(** Character classes are linear arithmetic. *)
Ltac ctype :=
  unfold is_label, isxdigit, isalnum, isdigit, isupper, islower, isspace, non_printable, in_range in *; lia.

(** ** Termination *)

Definition printables (l : list Z) : bool := forallb (fun c => negb (non_printable c)) l.

Lemma printable_quote_x d : (d =? 92) || (d =? 34) = true -> non_printable d = false.
Proof. intros Hd. ctype. Qed.

Lemma printable_xdigit c : isxdigit c = true -> non_printable c = false.
Proof. intros Hc. ctype. Qed.

Lemma decode_stuck fuel l : printables l = false -> decode fuel l = Err OutOfFuel.
Proof.
  revert l. induction fuel as [|fuel IH]; intros [|c r] Hp; try done. cbn [decode].
  cbn [printables forallb] in Hp. destruct (non_printable c) eqn:Ec.
  { apply IH. cbn [printables forallb]. now rewrite Ec. }
  cbn [negb andb] in Hp. fold (printables r) in Hp.
  destruct (c =? 92); [|now rewrite IH].
  destruct r as [|d r']; [done|]. cbn [printables forallb] in Hp. fold (printables r') in Hp.
  destruct ((d =? 92) || (d =? 34)) eqn:Ed.
  { rewrite (printable_quote_x d Ed) in Hp. now rewrite IH. }
  assert (Hd : printables (d :: r') = false) by exact Hp.
  destruct r' as [|h1 [|h2 r'']]; [now apply IH..|].
  destruct ((d =? 120) && isxdigit h1 && isxdigit h2) eqn:Ex; [|now apply IH].
  apply andb_true_iff in Ex as [Ex H2]. apply andb_true_iff in Ex as [->%Z.eqb_eq H1].
  cbn [printables forallb] in Hp. rewrite (printable_xdigit h1 H1), (printable_xdigit h2 H2) in Hp.
  rewrite IH; [done|exact Hp].
Qed.

Lemma decode_ends fuel l :
  (length l <= fuel)%nat -> printables l = true -> exists k, decode fuel l = Ok k /\ (length k <= length l)%nat.
Proof.
  revert l. induction fuel as [|fuel IH]; intros [|c r] Hf Hp; cbn [length] in Hf; try lia; [exists []; done..|].
  cbn [decode]. cbn [printables forallb] in Hp. apply andb_true_iff in Hp as [Hc%negb_true_iff Hr]. rewrite Hc.
  assert (Hone : forall b l', (length l' <= length r)%nat -> printables l' = true ->
    exists k, (k ← decode fuel l'; Ok (b :: k)) = Ok k /\ (length k <= length (c :: r))%nat).
  { intros b l' Hl Hp. destruct (IH l' ltac:(lia) Hp) as (k & -> & Hk). eexists. split; [reflexivity|]. cbn [length]. lia. }
  assert (Hnone : forall l', (length l' <= length r)%nat -> printables l' = true ->
    exists k, decode fuel l' = Ok k /\ (length k <= length (c :: r))%nat).
  { intros l' Hl Hp. destruct (IH l' ltac:(lia) Hp) as (k & -> & Hk). exists k. split; [done|]. cbn [length]. lia. }
  destruct (c =? 92); [|now apply Hone]. destruct r as [|d r']; [now apply Hnone|].
  pose proof Hr as Hr'. cbn [printables forallb] in Hr'. apply andb_true_iff in Hr' as [_ Hr'].
  destruct (_ || _); [apply Hone; [cbn [length]; lia|exact Hr']|].
  destruct r' as [|h1 [|h2 r'']]; [now apply Hnone..|]. destruct (_ && _); [|now apply Hnone].
  apply Hone; [cbn [length]; lia|]. cbn [printables forallb] in Hr'.
  apply andb_true_iff in Hr' as [_ Hr']. now apply andb_true_iff in Hr' as [_ Hr'].
Qed.

(** The keyword parser ends, within one step per character, with a keyword
    that fits the buffer allocated for it, exactly when no character between
    the quotes is non-printable; at such a character it loops for ever, since
    the [continue] after the warning does not advance. *)
Theorem decode_terminates l :
  if printables l then exists k, decode (length l) l = Ok k /\ (length k <= length l)%nat
  else forall fuel, decode fuel l = Err OutOfFuel.
Proof.
  destruct (printables l) eqn:E; [now apply decode_ends|]. intros fuel. now apply decode_stuck.
Qed.

(** ** Round trip *)

(** A keyword as the dictionary documentation writes it: a backslash before
    the quote and itself, [\xNN] for what is not printable. *)
Definition hex_digit (n : Z) : Z := if n <? 10 then 48 + n else 87 + n.
Definition escape_byte (b : Z) : list Z :=
  if (b =? 92) || (b =? 34) then [92; b]
  else if in_range 32 126 b then [b]
  else [92; 120; hex_digit (b .>> 4); hex_digit (b .& 15)].
Definition escape (tok : list Z) : list Z := concat (map escape_byte tok).
Definition dict_line (label tok : list Z) : list Z := label ++ [61; 34] ++ escape tok ++ [34].

(** What the hexadecimal digits of a byte are. *)
Definition hex_ok (b : Z) : bool :=
  isxdigit (hex_digit (b .>> 4)) && isxdigit (hex_digit (b .& 15)) &&
  (((hex_val (hex_digit (b .>> 4)) .<< 4) .| hex_val (hex_digit (b .& 15))) =? b).

Lemma decode_escape_byte fuel b l :
  is_byte b -> decode (S fuel) (escape_byte b ++ l) = k ← decode fuel l; Ok (b :: k).
Proof.
  intros Hb. unfold escape_byte. destruct ((b =? 92) || (b =? 34)) eqn:Eq.
  { cbn [app decode]. change (non_printable 92) with false. change (92 =? 92) with true. cbv iota. now rewrite Eq. }
  apply orb_false_iff in Eq as [E92 E34].
  destruct (in_range 32 126 b) eqn:Ep.
  { cbn [app decode]. assert (Hn : non_printable b = false) by ctype.
    now rewrite Hn, E92. }
  pose proof (byte_forall hex_ok b ltac:(vm_compute; reflexivity) Hb) as Hh. unfold hex_ok in Hh.
  apply andb_true_iff in Hh as [Hh Hv%Z.eqb_eq]. apply andb_true_iff in Hh as [H1 H2].
  cbn [app decode]. change (non_printable 92) with false. change (92 =? 92) with true.
  change ((120 =? 92) || (120 =? 34)) with false. cbv iota. change (120 =? 120) with true.
  now rewrite H1, H2, Hv.
Qed.

Lemma decode_escape fuel tok :
  bytes tok -> (length tok <= fuel)%nat -> decode fuel (escape tok) = Ok tok.
Proof.
  intros Hb. revert fuel. induction Hb as [|b tok Hb _ IH]; intros fuel Hf.
  { destruct fuel; reflexivity. }
  cbn [length] in Hf. destruct fuel as [|fuel]; [lia|]. unfold escape. cbn [map concat].
  rewrite decode_escape_byte by done. fold (escape tok). now rewrite IH by lia.
Qed.

Lemma c_str_id l : Forall (fun c => c <> 0) l -> c_str l = l.
Proof. induction 1 as [|c l Hc _ IH]; [done|]. cbn [c_str]. now rewrite (proj2 (Z.eqb_neq _ _) Hc), IH. Qed.

Lemma skip_while_all p a b : forallb p a = true -> skip_while p (a ++ b) = skip_while p b.
Proof.
  induction a as [|c a IH]; [done|]. cbn [forallb app skip_while]. now intros [-> Ha]%andb_true_iff; auto.
Qed.

Lemma skip_while_stop p c l : p c = false -> skip_while p (c :: l) = c :: l.
Proof. intros Hc. cbn [skip_while]. now rewrite Hc. Qed.

Lemma escape_nonzero tok : bytes tok -> Forall (fun c => c <> 0) (escape tok).
Proof.
  induction 1 as [|b tok Hb _ IH]; [constructor|]. unfold escape. cbn [map concat]. apply Forall_app. split; [|exact IH].
  pose proof (byte_forall (fun b => forallb (fun c => negb (c =? 0)) (escape_byte b)) b ltac:(vm_compute; reflexivity) Hb) as Hz.
  cbv beta in Hz. rewrite forallb_forall in Hz. apply Forall_forall. intros c Hc%list_elem_of_In.
  apply Hz in Hc. now apply negb_true_iff, Z.eqb_neq in Hc.
Qed.

Lemma label_nonzero label : forallb is_label label = true -> Forall (fun c => c <> 0) label.
Proof.
  rewrite forallb_forall. intros Hl. apply Forall_forall. intros c Hc%list_elem_of_In. apply Hl in Hc.
  intros ->. discriminate.
Qed.

(** The start of a line is no space and no comment. *)
Lemma line_start label rest : forallb is_label label = true ->
  exists c l, label ++ 61 :: rest = c :: l /\ isspace c = false /\ c <> 0 /\ c <> 35.
Proof.
  destruct label as [|c label]; intros Hl; [exists 61, rest; done|].
  exists c, (label ++ 61 :: rest). split; [done|]. cbn [forallb] in Hl. apply andb_true_iff in Hl as [Hc _].
  split; [ctype|]. split; ctype.
Qed.

Lemma quoted_dict_line dict_level label tok :
  forallb is_label label = true -> tok <> [] -> quoted dict_level (dict_line label tok) = Some (escape tok).
Proof.
  intros Hl Ht. unfold dict_line. cbn [app].
  destruct (line_start label (34 :: escape tok ++ [34]) Hl) as (c & l & El & Hc & H0 & H35).
  unfold quoted. rewrite El, skip_while_stop, <- El by done.
  replace (label ++ 61 :: 34 :: escape tok ++ [34]) with ((label ++ 61 :: 34 :: escape tok) ++ [34])
    by (rewrite <- app_assoc; reflexivity).
  unfold rstrip. rewrite rev_app_distr. cbn [rev app]. rewrite skip_while_stop by done.
  cbn [rev]. rewrite rev_involutive. rewrite last_last, removelast_last.
  replace (hd 0 ((label ++ 61 :: 34 :: escape tok) ++ [34])) with c
    by (replace ((label ++ 61 :: 34 :: escape tok) ++ [34]) with (c :: l); [done|];
        rewrite <- El, <- app_assoc; reflexivity).
  rewrite (proj2 (Z.eqb_neq c 0)), (proj2 (Z.eqb_neq c 35)) by done. cbn [orb].
  change (34 =? 34) with true. cbn [negb].
  rewrite (skip_while_all is_label), skip_while_stop by done. cbn [skip_level skip_index].
  cbn [skip_while]. change (isspace 61 || (61 =? 61)) with true. change (isspace 34 || (34 =? 61)) with false. cbv iota.
  rewrite bool_decide_eq_false_2; [done|]. destruct tok as [|b tok]; [done|].
  unfold escape. cbn [map concat]. unfold escape_byte.
  destruct (_ || _); [discriminate|]. destruct (in_range _ _ _); discriminate.
Qed.

(** C40: A keyword written on a line of a dictionary with its escapes, with or
    without a label, is read back unchanged; one longer than [MAX_DICT_FILE]
    is skipped. *)
Theorem load_line_roundtrip fuel dict_level label tok :
  bytes tok -> tok <> [] -> forallb is_label label = true -> (length tok <= fuel)%nat ->
  load_line fuel dict_level (dict_line label tok) =
  Ok (if MAX_DICT_FILE <? Z.of_nat (length tok) then None else Some tok).
Proof.
  intros Hb Ht Hl Hf.
  assert (Hz : Forall (fun c => c <> 0) (dict_line label tok)).
  { unfold dict_line. apply Forall_app. split; [now apply label_nonzero|]. cbn [app].
    do 2 (constructor; [done|]). apply Forall_app. split; [now apply escape_nonzero|]. constructor; [done|constructor]. }
  unfold load_line. now rewrite (c_str_id _ Hz), quoted_dict_line, decode_escape by done.
Qed.

Lemma load_line_roundtrip_witness :
  load_line 4 0 (dict_line [116; 95; 49] [0; 34; 92; 255]) = Ok (Some [0; 34; 92; 255]).
Proof.
  apply (load_line_roundtrip 4 0 [116; 95; 49] [0; 34; 92; 255]); [now apply bytesb_spec|done|reflexivity|cbn; lia].
Defined.
