(* ===== verification/ExtrasThms.v ===== *)
(** The user's dictionary: removal of duplicates and insertion keep the
    tokens sorted by length and distinct. *)

From stdpp Require Import sorting.
From S2P Require Import Prelude Words Arith Float Bitmap State Rand Dedup Extras.

(** ** A sort that meets the promise *)

Fixpoint sort_insert {A} (cmp : A -> A -> Z) (x : A) (l : list A) : list A :=
  match l with [] => [x] | y :: r => if 0 <? cmp x y then y :: sort_insert cmp x r else x :: l end.
#[export] Instance insertion_qsort : Qsort := fun A cmp l => foldr (sort_insert cmp) [] l.

Lemma sort_insert_perm {A} (cmp : A -> A -> Z) x l : sort_insert cmp x l ≡ₚ x :: l.
Proof.
  induction l as [|y l IH]; [done|]. cbn [sort_insert]. destruct (_ <? _); [|done].
  rewrite IH. apply perm_swap.
Qed.

#[export] Instance insertion_qsort_laws : QsortLaws.
Proof.
  split.
  - intros A cmp l. unfold qsort, insertion_qsort. induction l as [|x l IH]; [done|]. cbn [foldr].
    rewrite sort_insert_perm. now constructor.
  - intros A cmp key l Hcmp. unfold qsort, insertion_qsort.
    assert (Hperm : forall l : list A, foldr (sort_insert cmp) [] l ≡ₚ l).
    { intros k. induction k as [|x k IH]; [done|]. cbn [foldr]. rewrite sort_insert_perm. now constructor. }
    induction l as [|x l IH]; [constructor|]. cbn [foldr].
    assert (Hs : Sorted (fun x y => key x <= key y) (foldr (sort_insert cmp) [] l)).
    { apply IH. intros y z Hy Hz. apply Hcmp; now right. }
    assert (Hin : forall y, y ∈ foldr (sort_insert cmp) [] l -> 0 < cmp x y <-> key y < key x).
    { intros y Hy. apply Hcmp; [left|right]. now rewrite <- (Hperm l). }
    clear IH Hcmp. revert Hs Hin. generalize (foldr (sort_insert cmp) [] l). intros k.
    induction k as [|y k IH]; intros Hs Hin; [repeat constructor|]. cbn [sort_insert].
    pose proof (Hin y ltac:(left)) as Hy.
    inversion Hs as [|y' k' Hsk Hhd Heq]; subst. destruct (Z.ltb_spec 0 (cmp x y)) as [Hlt|Hge].
    + constructor; [apply IH; [done|intros z Hz; apply Hin; now right]|].
      destruct k as [|z k]; cbn [sort_insert]; [constructor; lia|].
      inversion Hhd; subst. destruct (_ <? _); constructor; lia.
    + constructor; [done|]. constructor. lia.
Qed.

(** ** Lengths *)

Definition small (d : list Z) : Prop := Z.of_nat (length d) < 2 ^ 31.
Definition by_length (a b : list Z) : Prop := Z.of_nat (length a) <= Z.of_nat (length b).

(** For explicit lists. *)
Ltac sorted_lengths :=
  repeat first [apply Sorted_nil | apply Sorted_cons | apply HdRel_nil
               | apply HdRel_cons; unfold by_length; cbn [length]; lia].

Lemma extra_len_small d : small d -> extra_len d = Z.of_nat (length d).
Proof. unfold small, extra_len. intros. apply uwrap_id. lia. Qed.

Lemma diff_sign x y :
  0 <= x < 2 ^ 31 -> 0 <= y < 2 ^ 31 -> 0 < s32 (u32 (x - y)) <-> y < x.
Proof.
  intros Hx Hy. unfold swrap, uwrap. change (2 ^ (32 - 1)) with (2 ^ 31).
  rewrite Zplus_mod_idemp_l. destruct (Z.lt_ge_cases y x).
  - rewrite Z.mod_small by lia. lia.
  - rewrite Z.mod_small by lia. lia.
Qed.

Lemma compare_len_ok x y : small x -> small y -> 0 < compare_extras_len x y <-> Z.of_nat (length y) < Z.of_nat (length x).
Proof.
  intros Hx Hy. unfold compare_extras_len. rewrite !extra_len_small by done. unfold small in *.
  apply diff_sign; lia.
Qed.

Lemma qsort_extras `{QsortLaws} l :
  Forall small l -> qsort compare_extras_len l ≡ₚ l /\ Sorted by_length (qsort compare_extras_len l).
Proof.
  intros Hl. split; [apply qsort_perm|].
  apply (qsort_sorted _ compare_extras_len (fun d => Z.of_nat (length d))). intros x y Hx Hy.
  pose proof (proj1 (Forall_forall _ _) Hl) as Hs. apply compare_len_ok; auto.
Qed.

(** ** Duplicates *)

(** The first occurrences. *)
Fixpoint firsts (l : list (list Z)) : list (list Z) :=
  match l with [] => [] | x :: l => x :: List.filter (fun y => negb (bool_decide (x = y))) (firsts l) end.

Lemma elem_of_firsts l y : y ∈ firsts l <-> y ∈ l.
Proof.
  induction l as [|x l IH]; [done|]. cbn [firsts]. rewrite !elem_of_cons, list_elem_of_In, filter_In, <- list_elem_of_In, IH.
  split; [tauto|]. intros [->|Hy]; [now left|]. destruct (decide (x = y)) as [->|Hne]; [now left|right].
  split; [done|]. now rewrite bool_decide_eq_false_2.
Qed.

Lemma NoDup_filter' {A} (p : A -> bool) (l : list A) : NoDup l -> NoDup (List.filter p l).
Proof.
  induction 1 as [|x l Hx _ IH]; [constructor|]. cbn [List.filter]. destruct (p x); [|done].
  constructor; [|done]. intros Hin. apply Hx. apply list_elem_of_In in Hin. apply filter_In in Hin as [Hin _].
  now apply list_elem_of_In.
Qed.

Lemma NoDup_firsts l : NoDup (firsts l).
Proof.
  induction l as [|x l IH]; [constructor|]. cbn [firsts]. constructor; [|now apply NoDup_filter'].
  intros Hin. apply list_elem_of_In, filter_In in Hin as [_ Hin]. rewrite bool_decide_eq_true_2 in Hin by done. done.
Qed.

Lemma filter_filter {A} (p q : A -> bool) l : List.filter p (List.filter q l) = List.filter q (List.filter p l).
Proof.
  induction l as [|x l IH]; [done|]. cbn [List.filter]. destruct (q x) eqn:Eq, (p x) eqn:Ep; cbn [List.filter];
    rewrite ?Eq, ?Ep, IH; done.
Qed.

Lemma firsts_filter (p : list Z -> bool) l : firsts (List.filter p l) = List.filter p (firsts l).
Proof.
  induction l as [|x l IH]; [done|]. cbn [List.filter firsts]. destruct (p x) eqn:Ep; cbn [firsts].
  - rewrite IH. f_equal. apply filter_filter.
  - rewrite IH. symmetry. rewrite filter_filter.
    assert (Hid : forall l, Forall (fun y => p y = true) l -> List.filter (fun y => negb (bool_decide (x = y))) l = l).
    { intros k Hk. induction Hk as [|y k Hy _ IHk]; [done|]. cbn [List.filter].
      rewrite bool_decide_eq_false_2 by congruence. cbn [negb]. now rewrite IHk. }
    apply Hid. apply Forall_forall. intros y Hy%list_elem_of_In. now apply filter_In in Hy as [_ Hy].
Qed.

Definition neq_to (x y : list Z) : bool := negb (bool_decide (x = y)).

Lemma delete_middle_eq {A} (l1 l2 : list A) x n : n = length l1 -> delete n (l1 ++ x :: l2) = l1 ++ l2.
Proof. intros ->. apply delete_middle. Qed.

(** The inner loop removes the later occurrences of token [i]. *)
Lemma dedup_from_ok fuel i x a b :
  a !! i = Some x -> small x -> Forall small b -> Sorted by_length b -> Forall (by_length x) b ->
  (length b <= fuel)%nat -> dedup_from fuel i (length a) (a ++ b) = Ok (a ++ List.filter (neq_to x) b).
Proof.
  intros Hi Hx Hb Hs. revert a b Hi Hb Hs. induction fuel as [|fuel IH]; intros a b Hi Hb Hs Hle Hf.
  { destruct b; [|cbn [length] in Hf; lia]. cbn [dedup_from List.filter]. rewrite app_nil_r.
    now rewrite lookup_ge_None_2. }
  destruct b as [|y b]; cbn [dedup_from].
  { rewrite app_nil_r. cbn [List.filter]. now rewrite lookup_ge_None_2, app_nil_r. }
  rewrite list_lookup_middle by done. rewrite (proj2 (rd_ok _ i x)) by (rewrite lookup_app_l; [done|now apply lookup_lt_Some in Hi]).
  cbn [mbind res_bind]. apply Forall_cons in Hb as [Hy Hb]. rewrite !extra_len_small by done.
  apply Forall_cons in Hle as [Hxy Hle]. cbn [length] in Hf.
  pose proof Hs as Hss. apply Sorted_StronglySorted in Hss; [|intros ? ? ?; unfold by_length; lia].
  apply StronglySorted_inv in Hss as [_ Hall]. inversion Hs; subst.
  destruct (Z.eqb_spec (Z.of_nat (length x)) (Z.of_nat (length y))) as [El|El]; cbn [negb].
  - cbn [List.filter]. unfold neq_to at 1. case_bool_decide as Exy; cbn [negb].
    + rewrite delete_middle_eq by done. now apply IH; try lia.
    + replace (a ++ y :: b) with ((a ++ [y]) ++ b) by (rewrite <- app_assoc; done).
      replace (S (length a)) with (length (a ++ [y])) by (rewrite length_app; cbn [length]; lia).
      rewrite IH; try done; [now rewrite <- app_assoc| |lia].
      rewrite lookup_app_l; [done|now apply lookup_lt_Some in Hi].
  - f_equal. f_equal. symmetry.
    assert (Hid : forall l, Forall (fun z => Z.of_nat (length x) <> Z.of_nat (length z)) l -> List.filter (neq_to x) l = l).
    { intros k Hk. induction Hk as [|z k Hz _ IHk]; [done|]. cbn [List.filter]. unfold neq_to at 1.
      rewrite bool_decide_eq_false_2 by congruence. cbn [negb]. now rewrite IHk. }
    apply Hid. unfold by_length in *. constructor; [done|]. eapply Forall_impl; [exact Hall|]. cbv beta. lia.
Qed.

Lemma filter_sorted (p : list Z -> bool) l : Sorted by_length l -> Sorted by_length (List.filter p l).
Proof.
  intros Hs. apply Sorted_StronglySorted in Hs; [|intros ? ? ?; unfold by_length; lia]. apply StronglySorted_Sorted.
  induction Hs as [|x l _ IH Hx]; [constructor|]. cbn [List.filter]. destruct (p x); [|done]. constructor; [done|].
  apply Forall_forall. intros y Hy%list_elem_of_In. apply filter_In in Hy as [Hy%list_elem_of_In _].
  now apply (proj1 (Forall_forall _ _) Hx).
Qed.

Lemma filter_Forall {A} (P : A -> Prop) (p : A -> bool) l : Forall P l -> Forall P (List.filter p l).
Proof. induction 1; cbn [List.filter]; [constructor|]. destruct (p x); [now constructor|done]. Qed.

Lemma length_filter_le {A} (p : A -> bool) (l : list A) : (length (List.filter p l) <= length l)%nat.
Proof. induction l as [|x l IH]; cbn [List.filter]; [done|]. destruct (p x); cbn [length]; lia. Qed.

Lemma dedup_loop_ok fuel a b :
  Forall small b -> Sorted by_length b -> (length b <= fuel)%nat ->
  dedup_loop fuel (length a) (a ++ b) = Ok (a ++ firsts b).
Proof.
  revert a b. induction fuel as [|fuel IH]; intros a b Hb Hs Hf.
  { destruct b; [|cbn [length] in Hf; lia]. cbn [dedup_loop firsts]. rewrite bool_decide_eq_true_2; [done|].
    rewrite app_nil_r. lia. }
  cbn [dedup_loop]. destruct b as [|x b].
  { rewrite bool_decide_eq_true_2; [done|]. rewrite app_nil_r. lia. }
  rewrite length_app. cbn [length] in *. apply Forall_cons in Hb as [Hx Hb].
  pose proof Hs as Hss. apply Sorted_StronglySorted in Hss; [|intros ? ? ?; unfold by_length; lia].
  apply StronglySorted_inv in Hss as [_ Hall]. inversion Hs as [|x' b' Hsb]; subst.
  destruct b as [|y b].
  { rewrite bool_decide_eq_true_2 by (cbn [length]; lia). done. }
  rewrite bool_decide_eq_false_2 by (cbn [length]; lia).
  replace (a ++ x :: y :: b) with ((a ++ [x]) ++ y :: b) by (rewrite <- app_assoc; done).
  replace (S (length a)) with (length (a ++ [x])) by (rewrite length_app; cbn [length]; lia).
  match goal with |- context [dedup_from ?f _ _ _] => assert (E : dedup_from f (length a) (length (a ++ [x]))
    ((a ++ [x]) ++ y :: b) = Ok ((a ++ [x]) ++ List.filter (neq_to x) (y :: b))) end.
  { apply dedup_from_ok; try done; [now rewrite lookup_app_r, Nat.sub_diag by done|].
    rewrite ?length_app. cbn [length]. lia. }
  rewrite E. cbn [mbind res_bind]. rewrite IH.
  - rewrite firsts_filter, <- app_assoc. done.
  - now apply filter_Forall.
  - now apply filter_sorted.
  - pose proof (length_filter_le (neq_to x) (y :: b)). lia.
Qed.

(** [dedup_extras] on tokens sorted by length leaves exactly the first
    occurrence of every token, in order: no token twice, none lost, and still
    sorted. *)
Theorem dedup_extras_correct l :
  Forall small l -> Sorted by_length l ->
  dedup_extras l = Ok (firsts l) /\ NoDup (firsts l) /\ (forall x, x ∈ firsts l <-> x ∈ l) /\
  Sorted by_length (firsts l).
Proof.
  intros Hb Hs. split; [|split; [apply NoDup_firsts|split; [intros x; apply elem_of_firsts|]]].
  - unfold dedup_extras. case_bool_decide as Hl.
    + destruct l as [|x [|y l]]; [done..|cbn [length] in Hl; lia].
    + exact (dedup_loop_ok (length l) [] l Hb Hs ltac:(lia)).
  - clear Hb. induction l as [|x l IH]; [constructor|]. cbn [firsts].
    assert (Hf : List.filter (neq_to x) (firsts l) = firsts (List.filter (neq_to x) l)) by (symmetry; apply firsts_filter).
    apply Sorted_StronglySorted in Hs; [|intros ? ? ?; unfold by_length; lia].
    apply StronglySorted_inv in Hs as [Hs Hx]. apply StronglySorted_Sorted in Hs. specialize (IH Hs).
    apply (filter_sorted (neq_to x)) in IH. constructor; [exact IH|].
    fold (neq_to x). destruct (List.filter (neq_to x) (firsts l)) as [|y k] eqn:E; [constructor|]. constructor.
    assert (Hy : y ∈ List.filter (neq_to x) (firsts l)) by (rewrite E; left).
    apply list_elem_of_In, filter_In in Hy as [Hy%list_elem_of_In _]. apply (elem_of_firsts l y) in Hy.
    now apply (proj1 (Forall_forall _ _) Hx).
Qed.

Lemma dedup_extras_correct_witness :
  let l := [[1]; [2]; [1]; [3; 4]; [3; 4]] in
  dedup_extras l = Ok (firsts l) /\ NoDup (firsts l) /\ (forall x, x ∈ firsts l <-> x ∈ l) /\
  Sorted by_length (firsts l).
Proof.
  apply dedup_extras_correct; [repeat constructor|sorted_lengths].
Defined.

(** ** Adding a token *)

Lemma has_extra_ok found mem l :
  small mem -> Forall small l -> Sorted by_length l ->
  (found = true -> Forall (by_length mem) l) ->
  has_extra found mem l = bool_decide (mem ∈ l).
Proof.
  intros Hm Hl Hs. revert found. induction Hl as [|x l Hx Hl IH]; intros found Hf; cbn [has_extra].
  { now rewrite bool_decide_eq_false_2 by apply not_elem_of_nil. }
  rewrite !extra_len_small by done. pose proof Hs as Hss.
  apply Sorted_StronglySorted in Hss; [|intros ? ? ?; unfold by_length; lia].
  apply StronglySorted_inv in Hss as [Hss Hall]. apply StronglySorted_Sorted in Hss. specialize (IH Hss).
  destruct (Z.eqb_spec (Z.of_nat (length x)) (Z.of_nat (length mem))) as [El|El].
  - destruct (decide (x = mem)) as [->|E].
    { rewrite !bool_decide_eq_true_2; [done|left|done]. }
    rewrite (bool_decide_eq_false_2 _ E).
    rewrite IH; [|intros _; eapply Forall_impl; [exact Hall|]; unfold by_length in *; lia].
    apply bool_decide_ext. rewrite elem_of_cons. intuition congruence.
  - destruct found.
    + specialize (Hf eq_refl). apply Forall_cons in Hf as [Hxm _]. unfold by_length in Hxm.
      rewrite bool_decide_eq_false_2; [done|]. intros [E|Hin]%elem_of_cons; [subst; lia|].
      apply (proj1 (Forall_forall _ _) Hall) in Hin. unfold by_length in Hin. lia.
    + rewrite IH by done. apply bool_decide_ext. rewrite elem_of_cons. intuition congruence.
Qed.

Section Add.
Context `{QsortLaws}.

(** The dictionary's invariant. *)
Definition extras_wf (l : list (list Z)) : Prop :=
  Forall (fun d => Z.of_nat (length d) <= MAX_DICT_FILE) l /\ Sorted by_length l /\ NoDup l.

Lemma wf_small l : Forall (fun d => Z.of_nat (length d) <= MAX_DICT_FILE) l -> Forall small l.
Proof. intros Hl. eapply Forall_impl; [exact Hl|]. unfold small, MAX_DICT_FILE. cbv beta. lia. Qed.

(** [add_extra] keeps the dictionary sorted by length, free of duplicates
    and within [MAX_DICT_FILE]; it adds a new token of at most that length,
    exactly once, and changes nothing otherwise. *)
Theorem add_extra_correct mem l :
  small mem -> extras_wf l ->
  extras_wf (add_extra mem l) /\
  (if bool_decide (mem ∈ l) || (MAX_DICT_FILE <? Z.of_nat (length mem))
   then add_extra mem l = l else add_extra mem l ≡ₚ mem :: l).
Proof.
  intros Hm (Hl & Hs & Hn). pose proof (wf_small l Hl) as Hsm. unfold add_extra.
  rewrite has_extra_ok, extra_len_small by done.
  case_bool_decide as Hin; cbn [orb]; [now repeat split|].
  destruct (Z.ltb_spec MAX_DICT_FILE (Z.of_nat (length mem))) as [Hbig|Hfit]; [now repeat split|].
  assert (Hall : Forall small (l ++ [mem])) by (apply Forall_app; split; [done|now repeat constructor]).
  destruct (qsort_extras _ Hall) as [Hp Hso].
  assert (Hp' : qsort compare_extras_len (l ++ [mem]) ≡ₚ mem :: l) by (rewrite Hp; apply Permutation_app_comm).
  split; [|exact Hp']. split; [|split; [exact Hso|]].
  - rewrite Hp'. now constructor.
  - rewrite Hp'. now constructor.
Qed.

(** Loading sorts. *)
Lemma extras_check_and_sort_ok l :
  Forall small l -> extras_check_and_sort l ≡ₚ l /\ Sorted by_length (extras_check_and_sort l).
Proof.
  intros Hl. unfold extras_check_and_sort. case_bool_decide as E; [subst; now split|]. now apply qsort_extras.
Qed.
End Add.

Lemma add_extra_correct_witness :
  extras_wf (add_extra [7; 8] [[1]; [3; 4; 5]]) /\
  (if bool_decide ([7; 8] ∈ [[1]; [3; 4; 5]]) || (MAX_DICT_FILE <? 2)
   then add_extra [7; 8] [[1]; [3; 4; 5]] = [[1]; [3; 4; 5]]
   else add_extra [7; 8] [[1]; [3; 4; 5]] ≡ₚ [7; 8] :: [[1]; [3; 4; 5]]).
Proof.
  apply add_extra_correct; [unfold small; cbn [length]; lia|]. split; [|split].
  - repeat (constructor; [unfold MAX_DICT_FILE; cbn [length]; lia|]). constructor.
  - sorted_lengths.
  - apply (bool_decide_unpack _). vm_compute. exact I.
Defined.
