(* ===== verification/AutoExtras.v ===== *)
(** The automatic dictionary: [maybe_add_auto] keeps it distinct, bounded and
    ordered, and never evicts a token in use. *)

From stdpp Require Import sorting.
From S2P Require Import Prelude Words Arith Float Bitmap State Rand Dedup Extras ExtrasThms.

(** ** Comparison without case *)

Definition fold_case (d : list Z) : list Z := map tolower d.

Lemma memcmp_nocase_ok a b : length a = length b -> memcmp_nocase a b = false <-> fold_case a = fold_case b.
Proof.
  unfold memcmp_nocase, fold_case. revert b; induction a as [|x a IH]; intros [|y b] Hl; try done.
  cbn [zip_with existsb map]. rewrite orb_false_iff, truthy_false, Z.lxor_eq_0_iff, (IH b) by (cbn [length] in Hl; lia).
  split; [now intros [-> ->]|now intros [= -> ->]].
Qed.

Definition auto_key (a : auto_extra) : list Z := fold_case (a_data a).

Lemma fold_case_length d : length (fold_case d) = length d.
Proof. apply length_map. Qed.

(** ** The invariant *)

Definition in_use : nat := Z.to_nat USE_AUTO_EXTRAS.

Definition auto_entry (n : Z) (a : auto_extra) : Prop :=
  bytes (a_data a) /\ (0 < length (a_data a))%nat /\ Z.of_nat (length (a_data a)) <= MAX_AUTO_EXTRA /\
  0 <= a_hit_cnt a <= n.

(** [n] bounds the use counts. *)
Definition auto_wf (n : Z) (l : list auto_extra) : Prop :=
  Z.of_nat (length l) <= MAX_AUTO_EXTRAS /\ Forall (auto_entry n) l /\ NoDup (map auto_key l) /\
  Sorted by_length (map a_data (take in_use l)).

Lemma auto_entry_small n a : auto_entry n a -> small (a_data a).
Proof. intros (_ & _ & Hl & _). unfold small, MAX_AUTO_EXTRA in *. lia. Qed.

Lemma auto_entry_mono n m a : n <= m -> auto_entry n a -> auto_entry m a.
Proof. intros Hnm (H1 & H2 & H3 & H4). unfold auto_entry. intuition lia. Qed.

Lemma find_auto_spec i mem l :
  small mem -> Forall (fun a => small (a_data a)) l ->
  match find_auto i mem l with
  | Some j => exists k a, j = (i + k)%nat /\ l !! k = Some a /\ auto_key a = fold_case mem
  | None => fold_case mem ∉ map auto_key l
  end.
Proof.
  intros Hm Hl. revert i. induction Hl as [|a l Ha Hl IH]; intros i; cbn [find_auto map].
  { apply not_elem_of_nil. }
  rewrite !extra_len_small by done.
  assert (Hk : (Z.of_nat (length (a_data a)) =? Z.of_nat (length mem)) && negb (memcmp_nocase (a_data a) mem) = true
    <-> auto_key a = fold_case mem).
  { rewrite andb_true_iff, Z.eqb_eq, negb_true_iff. unfold auto_key. split.
    - intros [El Ec]. now apply memcmp_nocase_ok; [lia|].
    - intros E. pose proof (f_equal length E) as El. rewrite !fold_case_length in El.
      split; [lia|]. now apply memcmp_nocase_ok. }
  destruct (_ && _).
  - exists O, a. split; [lia|]. split; [done|]. now apply Hk.
  - specialize (IH (S i)). destruct (find_auto (S i) mem l) as [j|].
    + destruct IH as (k & b & -> & Hb & E). exists (S k), b. split; [lia|]. now split.
    + apply not_elem_of_cons. split; [|done]. intros E. symmetry in E. apply Hk in E. done.
Qed.

Section Auto.
Context `{QsortLaws}.

Lemma map_perm {A B} (f : A -> B) l k : l ≡ₚ k -> map f l ≡ₚ map f k.
Proof. intros Hp. now apply (fmap_Permutation f). Qed.

Lemma Sorted_map {A B} (R : B -> B -> Prop) (f : A -> B) l :
  Sorted (fun x y => R (f x) (f y)) l -> Sorted R (map f l).
Proof.
  induction 1 as [|x l Hs IH Hx]; cbn [map]; constructor; [done|]. destruct Hx; cbn [map]; now constructor.
Qed.

(** Sorting by use, then the used part by length. *)
Lemma sort_a_extras_parts l :
  let u := qsort compare_auto_extras_use_d l in
  take in_use (sort_a_extras l) = qsort compare_auto_extras_len (take in_use u) /\
  drop in_use (sort_a_extras l) = drop in_use u.
Proof.
  intros u. unfold sort_a_extras. fold u. assert (Hlen : length u = length l) by apply Permutation_length, qsort_perm.
  set (m := Z.to_nat (Z.min USE_AUTO_EXTRAS (Z.of_nat (length l)))).
  assert (Hm : m = Nat.min in_use (length l)) by (unfold m, in_use, USE_AUTO_EXTRAS; lia).
  assert (Et : take m u = take in_use u).
  { destruct (Nat.le_gt_cases in_use (length l)); [f_equal; lia|]. rewrite !take_ge by lia. done. }
  rewrite Et. set (t := qsort compare_auto_extras_len (take in_use u)).
  assert (Htl : length t = m).
  { unfold t. rewrite (Permutation_length (qsort_perm _ _ _)), length_take. lia. }
  destruct (Nat.le_gt_cases in_use (length l)).
  - rewrite take_app_le, take_ge, drop_app_ge by lia. replace (in_use - length t)%nat with O by lia.
    rewrite drop_0. split; [done|f_equal; lia].
  - rewrite (drop_ge u) by lia. rewrite app_nil_r, take_ge, !drop_ge by lia. done.
Qed.

(** A permutation whose used part is sorted by length. *)
Lemma sort_a_extras_sorted l :
  Forall (fun a => small (a_data a)) l ->
  sort_a_extras l ≡ₚ l /\ Sorted by_length (map a_data (take in_use (sort_a_extras l))).
Proof.
  intros Hl. destruct (sort_a_extras_parts l) as [Et Ed]. set (u := qsort compare_auto_extras_use_d l) in *.
  assert (Hu : u ≡ₚ l) by apply qsort_perm. split.
  - rewrite <- (take_drop in_use (sort_a_extras l)), Et, Ed, qsort_perm, take_drop. exact Hu.
  - rewrite Et. apply Sorted_map, (qsort_sorted _ compare_auto_extras_len (fun a => Z.of_nat (length (a_data a)))).
    intros x y Hx Hy. assert (Hin : forall z, z ∈ take in_use u -> small (a_data z)).
    { intros z Hz. apply (proj1 (Forall_forall _ _) Hl). rewrite <- Hu. exact (subseteq_take in_use u z Hz). }
    exact (compare_len_ok (a_data x) (a_data y) (Hin x Hx) (Hin y Hy)).
Qed.

(** The used part is used at least as often as the rest. *)
Lemma sort_a_extras_ok n l :
  n < 2 ^ 31 -> Forall (auto_entry n) l ->
  sort_a_extras l ≡ₚ l /\ Sorted by_length (map a_data (take in_use (sort_a_extras l))) /\
  (forall a b, a ∈ take in_use (sort_a_extras l) -> b ∈ drop in_use (sort_a_extras l) -> a_hit_cnt b <= a_hit_cnt a).
Proof.
  intros Hn Hl. assert (Hsm : Forall (fun a => small (a_data a)) l)
    by (eapply Forall_impl; [exact Hl|]; intros a; apply auto_entry_small).
  destruct (sort_a_extras_sorted l Hsm) as [Hp Hs]. split; [exact Hp|]. split; [exact Hs|].
  destruct (sort_a_extras_parts l) as [-> ->]. set (u := qsort compare_auto_extras_use_d l).
  assert (Hus : Sorted (fun x y => - a_hit_cnt x <= - a_hit_cnt y) u).
  { apply (qsort_sorted _ compare_auto_extras_use_d (fun a => - a_hit_cnt a)). intros x y Hx Hy.
    apply (proj1 (Forall_forall _ _) Hl) in Hx as (_ & _ & _ & Hx), Hy as (_ & _ & _ & Hy).
    unfold compare_auto_extras_use_d. rewrite diff_sign by lia. lia. }
  intros a b Ha Hb. rewrite qsort_perm in Ha. apply Sorted_StronglySorted in Hus; [|intros x y z; lia].
  rewrite <- (take_drop in_use u) in Hus. apply StronglySorted_app in Hus as (Hab & _).
  specialize (Hab a b Ha Hb). cbv beta in Hab. lia.
Qed.

(** Entering or bumping a token keeps the invariant up to the order. *)
Definition auto_set (n : Z) (l : list auto_extra) : Prop :=
  Z.of_nat (length l) <= MAX_AUTO_EXTRAS /\ Forall (auto_entry n) l /\ NoDup (map auto_key l).

Lemma auto_set_sort n l :
  n < 2 ^ 31 -> auto_set n l -> auto_wf n (sort_a_extras l).
Proof.
  intros Hn (Hc & He & Hd). destruct (sort_a_extras_ok n l Hn He) as (Hp & Hs & _).
  split; [|split; [|split; [|exact Hs]]].
  - now rewrite (Permutation_length Hp).
  - now rewrite Hp.
  - now rewrite (map_perm auto_key _ _ Hp).
Qed.

Definition bump (a : auto_extra) : auto_extra := mkAuto (a_data a) (u32 (a_hit_cnt a + 1)).

Lemma bump_set n l i :
  0 <= n < 2 ^ 31 - 1 -> auto_set n l -> auto_set (n + 1) (alter bump i l) /\ map a_data (alter bump i l) = map a_data l.
Proof.
  intros Hn (Hc & He & Hd).
  assert (Em : forall B (f : auto_extra -> B), (forall a, f (bump a) = f a) -> map f (alter bump i l) = map f l).
  { intros B f Hf. apply list_eq. intros j. rewrite !list_lookup_fmap.
    destruct (decide (i = j)) as [<-|Hne]; [rewrite list_lookup_alter_eq|now rewrite list_lookup_alter_ne].
    destruct (l !! i) as [a|]; cbn; [now rewrite Hf|done]. }
  split; [|now apply Em]. split; [now rewrite length_alter|]. split.
  - apply Forall_alter.
    + eapply Forall_impl; [exact He|]. intros a. apply auto_entry_mono. lia.
    + intros a Ha _. apply (proj1 (Forall_lookup _ _) He) in Ha as (H1 & H2 & H3 & H4).
      unfold auto_entry, bump. cbn [a_data a_hit_cnt]. rewrite uwrap_id by lia. intuition lia.
  - now rewrite Em.
Qed.

Lemma NoDup_insert {A} (l : list A) i x : x ∉ l -> NoDup l -> NoDup (<[i := x]> l).
Proof.
  intros Hx Hn. destruct (decide (i < length l)%nat) as [Hi|Hi]; [|now rewrite list_insert_ge by lia].
  rewrite insert_take_drop by done.
  destruct (lookup_lt_is_Some_2 l i Hi) as [y Hy]. rewrite <- (take_drop_middle l i y Hy) in Hn, Hx.
  apply NoDup_app in Hn as (H1 & H2 & H3). apply NoDup_cons in H3 as [_ H3].
  rewrite not_elem_of_app, not_elem_of_cons in Hx. destruct Hx as (Hx1 & _ & Hx2).
  apply NoDup_app. split; [done|]. split.
  - intros z Hz [->|Hz']%elem_of_cons; [done|]. apply (H2 z Hz). now right.
  - now constructor.
Qed.

Context {G : Type} `{RandGenLaws G}.

Lemma enter_set n mem l g l' g' :
  0 <= n -> bytes mem -> (0 < length mem)%nat -> Z.of_nat (length mem) <= MAX_AUTO_EXTRA ->
  fold_case mem ∉ map auto_key l -> auto_set n l -> enter_auto mem l g = Ok (l', g') ->
  auto_set n l' /\ mkAuto mem 0 ∈ l' /\
  (forall j, (j < in_use)%nat -> (j < length l)%nat -> l' !! j = l !! j) /\
  (Z.of_nat (length l) < MAX_AUTO_EXTRAS -> l' = l ++ [mkAuto mem 0]).
Proof.
  intros Hn Hb Hm0 Hm Hnew (Hc & He & Hd). unfold enter_auto.
  assert (Hentry : auto_entry n (mkAuto mem 0)) by (unfold auto_entry; cbn [a_data a_hit_cnt]; intuition lia).
  destruct (Z.ltb_spec (Z.of_nat (length l)) MAX_AUTO_EXTRAS) as [Hlt|Hge].
  - intros [= <- _]. split; [split; [|split]|split; [|split]].
    + rewrite length_app. cbn [length]. lia.
    + apply Forall_app. split; [done|now constructor].
    + rewrite map_app. cbn [map]. apply NoDup_app. split; [done|]. split; [|apply NoDup_singleton].
      intros x Hx [->|Hx']%elem_of_cons; [done|now apply not_elem_of_nil in Hx'].
    + apply elem_of_app. right. left.
    + intros j _ Hj. now rewrite lookup_app_l.
    + done.
  - intros E. apply bind_ok in E as ([k g1] & Ek & E).
    apply rand_below_bound in Ek; [|unfold MAX_AUTO_EXTRAS, USE_AUTO_EXTRAS; split; [vm_compute|]; reflexivity].
    apply bind_ok in E as (l2 & Ew & [= <- _]). apply wr_ok in Ew as [Hi ->].
    change (MAX_AUTO_EXTRAS / 2) with 16384 in *. change ((MAX_AUTO_EXTRAS + 1) / 2) with 16384 in *.
    split; [split; [|split]|split; [|split]].
    + now rewrite length_insert.
    + apply Forall_insert; done.
    + rewrite (list_fmap_insert auto_key). now apply NoDup_insert.
    + apply list_elem_of_lookup. eexists. apply list_lookup_insert_eq. done.
    + intros j Hj _. apply list_lookup_insert_ne. change in_use with 4096%nat in Hj. lia.
    + lia.
Qed.

Lemma auto_wf_set n l : auto_wf n l -> auto_set n l.
Proof. intros (P1 & P2 & P3 & _). now repeat split. Qed.

Lemma auto_set_mono n m l : n <= m -> auto_set n l -> auto_set m l.
Proof.
  intros Hnm (P1 & P2 & P3). split; [done|]. split; [|done].
  eapply Forall_impl; [exact P2|]. intros a. now apply auto_entry_mono.
Qed.

Lemma elem_of_take_lookup {A} n (l : list A) x : x ∈ take n l -> exists j, (j < n)%nat /\ l !! j = Some x.
Proof.
  intros [j Hj]%list_elem_of_lookup. apply lookup_take_Some in Hj as [Hj Hlt]. eauto.
Qed.

(** [maybe_add_auto] keeps the automatic dictionary bounded, its tokens
    within their buffers, pairwise different even ignoring case, and the part
    in use sorted by length; it leaves the user's dictionary alone.  A token
    it rejects changes nothing; any other is in the dictionary afterwards, no
    token in use is evicted or loses count, and those in use are used at
    least as often as the others. *)
Theorem maybe_add_auto_correct n d mem g d' g' :
  0 <= n < 2 ^ 31 - 1 -> bytes mem -> mem <> [] -> small mem -> auto_wf n (a_extras d) ->
  maybe_add_auto d mem g = Ok (d', g') ->
  auto_wf (n + 1) (a_extras d') /\ extras d' = extras d /\
  (if auto_rejected d mem then d' = d else
   auto_changed d' = true /\
   (exists a, a ∈ a_extras d' /\ auto_key a = fold_case mem) /\
   (forall a, a ∈ take in_use (a_extras d) ->
      exists a', a' ∈ a_extras d' /\ a_data a' = a_data a /\ a_hit_cnt a <= a_hit_cnt a') /\
   (forall a b, a ∈ take in_use (a_extras d') -> b ∈ drop in_use (a_extras d') -> a_hit_cnt b <= a_hit_cnt a)).
Proof.
  intros Hn Hb Hne Hsm Hwf. pose proof (auto_wf_set n _ Hwf) as Hset. unfold maybe_add_auto.
  destruct (auto_rejected d mem) eqn:Er.
  { intros [= <- <-]. split; [|done]. destruct Hwf as (P1 & P2 & P3 & P4). split; [done|]. split; [|done].
    eapply Forall_impl; [exact P2|]. intros a. apply auto_entry_mono. lia. }
  assert (Hlen : Z.of_nat (length mem) <= MAX_AUTO_EXTRA).
  { unfold auto_rejected in Er. rewrite !orb_false_iff in Er. destruct Er as ((((_ & Er) & _) & _) & _).
    apply Z.ltb_ge in Er. now rewrite extra_len_small in Er by done. }
  assert (Hall : Forall (fun a => small (a_data a)) (a_extras d)).
  { eapply Forall_impl; [apply Hset|]. intros a. apply auto_entry_small. }
  pose proof (find_auto_spec 0 mem (a_extras d) Hsm Hall) as Hfind.
  destruct (find_auto 0 mem (a_extras d)) as [i|].
  - intros [= <- <-]. cbn [extras a_extras auto_changed]. destruct Hfind as (k & a & -> & Ha & Ek). cbn [Nat.add].
    destruct (bump_set n (a_extras d) k Hn Hset) as [Hset' _].
    fold bump. destruct (sort_a_extras_ok (n + 1) _ ltac:(lia) (proj1 (proj2 Hset'))) as (Hp & _ & Huse).
    split; [apply auto_set_sort; [lia|exact Hset']|]. split; [done|]. split; [done|]. split; [|split; [|exact Huse]].
    + exists (bump a). split; [|exact Ek]. rewrite Hp. apply list_elem_of_lookup. exists k.
      now rewrite list_lookup_alter_eq, Ha.
    + intros b Hbin. apply elem_of_take_lookup in Hbin as (j & _ & Hj).
      destruct (decide (k = j)) as [->|Hkj].
      * exists (bump b). split; [|split; [done|]].
        -- rewrite Hp. apply list_elem_of_lookup. exists j. now rewrite list_lookup_alter_eq, Hj.
        -- apply (proj1 (Forall_lookup _ _) (proj1 (proj2 Hset))) in Hj as (_ & _ & _ & Hc).
           unfold bump. cbn [a_hit_cnt]. rewrite uwrap_id by lia. lia.
      * exists b. split; [|done]. rewrite Hp. apply list_elem_of_lookup. exists j. now rewrite list_lookup_alter_ne.
  - intros E. apply bind_ok in E as ([l g1] & El & [= <- _]). cbn [extras a_extras auto_changed].
    destruct (enter_set n mem _ _ _ _ ltac:(lia) Hb ltac:(destruct mem; [done|cbn [length]; lia]) Hlen Hfind Hset El)
      as (Hset' & Hin & Hkeep & _).
    apply (auto_set_mono n (n + 1)) in Hset'; [|lia].
    destruct (sort_a_extras_ok (n + 1) _ ltac:(lia) (proj1 (proj2 Hset'))) as (Hp & _ & Huse).
    split; [apply auto_set_sort; [lia|exact Hset']|]. split; [done|]. split; [done|]. split; [|split; [|exact Huse]].
    + exists (mkAuto mem 0). split; [now rewrite Hp|done].
    + intros b Hbin. apply elem_of_take_lookup in Hbin as (j & Hju & Hj). exists b. split; [|done].
      rewrite Hp. apply list_elem_of_lookup. exists j. rewrite Hkeep; [done|done|]. now apply lookup_lt_Some in Hj.
Qed.
End Auto.

Definition dict0 : dict := mkDict [[7; 7; 7]] [mkAuto [65; 66; 67] 3; mkAuto [1; 2; 3; 4] 5] false.

Lemma maybe_add_auto_correct_witness :
  exists d' g', @maybe_add_auto _ rng (afl_rand_below Word64 4) dict0 [97; 98; 99] rng0 = Ok (d', g') /\
  auto_wf 6 (a_extras d') /\ extras d' = extras dict0 /\
  (if auto_rejected dict0 [97; 98; 99] then d' = dict0 else
   auto_changed d' = true /\
   (exists a, a ∈ a_extras d' /\ auto_key a = fold_case [97; 98; 99]) /\
   (forall a, a ∈ take in_use (a_extras dict0) ->
      exists a', a' ∈ a_extras d' /\ a_data a' = a_data a /\ a_hit_cnt a <= a_hit_cnt a') /\
   (forall a b, a ∈ take in_use (a_extras d') -> b ∈ drop in_use (a_extras d') -> a_hit_cnt b <= a_hit_cnt a)).
Proof.
  destruct (@maybe_add_auto _ rng (afl_rand_below Word64 4) dict0 [97; 98; 99] rng0) as [[d' g']|] eqn:E;
    [|vm_compute in E; discriminate].
  exists d', g'. split; [reflexivity|].
  apply (@maybe_add_auto_correct _ _ rng _ (afl_rand_laws Word64 4) 5 dict0 [97; 98; 99] rng0 d' g');
    [lia|now apply bytesb_spec|done|unfold small; cbn [length]; lia| |exact E].
  split; [apply Z.leb_le; reflexivity|]. split; [|split].
  - repeat (constructor; [unfold auto_entry, MAX_AUTO_EXTRA; cbn [a_data a_hit_cnt length];
      split; [now apply bytesb_spec|lia]|]). constructor.
  - apply (bool_decide_unpack _). vm_compute. exact I.
  - apply (Sorted_map by_length a_data [mkAuto [65; 66; 67] 3; mkAuto [1; 2; 3; 4] 5]). 
    repeat first [apply Sorted_nil | apply Sorted_cons | apply HdRel_nil
                 | apply HdRel_cons; unfold by_length; cbn [length a_data]; lia].
Defined.

(** The rejection of built-in 16-bit values misses negative ones in native
    byte order: the table's [s16] and the token's [u16] are compared as
    [int], without the conversion the 32-bit test has. *)
Lemma builtin_16_misses_negative :
  -128 ∈ interesting_16 /\
  builtin_16 (le_store 2 (u16 (-128))) = false /\ builtin_16 (le_store 2 (SWAP16 (-128))) = true /\
  builtin_32 (le_store 4 (u32 (-128))) = true.
Proof. split; [left|vm_compute; done]. Qed.
