(* ===== verification/Callstack.v ===== *)
(** The crash site: [find_crash_site] of [src/afl-fuzz-bitmap.c], which reads
    the call stack the target's sanitizer left in a file, and the blacklists
    of [src/sym-blacklist.inc]. *)

From Stdlib Require Import String Ascii.
From S2P Require Import Prelude Words Extras.

(** ** C strings *)

(** The bytes of a literal. *)
Definition txt (s : string) : list Z := map (fun c => Z.of_N (N_of_ascii c)) (list_ascii_of_string s).

(** [strstr(hay, needle) - hay]; [None] is the null pointer. *)
Fixpoint strstr (hay needle : list Z) : option nat :=
  if bool_decide (take (length needle) hay = needle) then Some O
  else match hay with [] => None | _ :: hay' => S <$> strstr hay' needle end.

(** The string [strrchr(s, c)] points to. *)
Fixpoint strrchr (s : list Z) (c : Z) : option (list Z) :=
  match s with
  | [] => None
  | x :: s' => match strrchr s' c with
               | Some r => Some r
               | None => if x =? c then Some s else None
               end
  end.

Fixpoint hex_number (l : list Z) (acc : Z) : Z :=
  match l with
  | c :: l' => if isxdigit c then hex_number l' (acc * 16 + hex_val c) else acc
  | [] => acc
  end.

(** [strtoul(s, NULL, 16)]: spaces, a sign, [0x] before a digit, the digits;
    too large a number gives [ULONG_MAX], a minus sign negates as unsigned. *)
Definition strtoul16 (s : list Z) : Z :=
  let s := skip_while isspace s in
  let '(neg, s) := match s with
                   | 0x2d :: s' => (true, s')
                   | 0x2b :: s' => (false, s')
                   | _ => (false, s)
                   end in
  let s := match s with
           | 0x30 :: x :: d :: s' => if ((x =? 0x78) || (x =? 0x58)) && isxdigit d then d :: s' else s
           | _ => s
           end in
  let v := hex_number s 0 in
  if UINT64_MAX <? v then UINT64_MAX else if (neg : bool) then u64 (- v) else v.

(** [fgets(buf, S n, fp)]: the line read, and the rest of the file. *)
Fixpoint fgets (n : nat) (l : list Z) : list Z * list Z :=
  match n, l with
  | S n, c :: l' => if c =? 0x0a then ([c], l') else let '(a, b) := fgets n l' in (c :: a, b)
  | _, _ => ([], l)
  end.

(** ** The call stack file *)

Definition IGORFUZZ_CALLSTACK_FORMAT_PATH : list Z := txt "@PATH".
Definition IGORFUZZ_CALLSTACK_FORMAT_ADDR : list Z := txt "@ADDR".
Definition IGORFUZZ_CALLSTACK_MIN_LINELEN : nat := 16.
Definition IGORFUZZ_CALLSTACK_MAX_LINELEN : nat := Z.to_nat 2048.
Definition IGORFUZZ_CALLSTACK_EXACT_MODULE : bool := true.

Definition sym_blacklist_module : list (list Z) :=
  [txt "libasan"; txt "liblsan"; txt "libubsan"; txt "libclang_rt."; txt "igorfuzz-rt"].

Definition sym_blacklist_function : list (list Z) :=
  [txt "__asan"; txt "__lsan"; txt "__sanitizer"; txt "__interceptor"; txt "__interception";
   txt "__ubsan"; txt "__sancov"; txt "__hwasan"; txt "__dfsan"; txt "__dfsw"].

(** A name in which a pattern of a blacklist occurs. *)
Definition blacklisted (patterns : list (list Z)) (name : list Z) : bool :=
  existsb (fun p => match strstr name p with Some _ => true | None => false end) patterns.

(** [while (fgets(line_buf, IGORFUZZ_CALLSTACK_MAX_LINELEN, fp))]: every line
    takes a byte, so the length of the file is enough [fuel]. *)
Fixpoint read_lines (fuel : nat) (file : list Z) : list (list Z) :=
  match fuel, file with
  | S f, _ :: _ => let '(line, rest) := fgets (IGORFUZZ_CALLSTACK_MAX_LINELEN - 1) file in
                   line :: read_lines f rest
  | _, _ => []
  end.

(** A line's module path and address, unless the line is to be skipped. *)
Definition parse_frame (line : list Z) : option (list Z * list Z) :=
  let line_buf := c_str line in
  if bool_decide (IGORFUZZ_CALLSTACK_MIN_LINELEN < length line_buf)%nat &&
     bool_decide (last line_buf = Some 0x0a)
  then
    let line_buf := take (length line_buf - 1) line_buf in
    path ← strstr line_buf IGORFUZZ_CALLSTACK_FORMAT_PATH;
    let path_ := (path + length IGORFUZZ_CALLSTACK_FORMAT_PATH)%nat in
    addr ← strstr line_buf IGORFUZZ_CALLSTACK_FORMAT_ADDR;
    if bool_decide (addr <= path_)%nat then None else
    Some (take (addr - path_) (drop path_ line_buf),
          drop (addr + length IGORFUZZ_CALLSTACK_FORMAT_ADDR) line_buf)
  else None.

(** The name of a module: from the last slash of its path. *)
Definition module_name (path : list Z) : list Z := default path (strrchr path 0x2f).

(** The three values [find_crash_site] returns; null pointers are [None]. *)
Record site := mkSite {
  crash_symbol : option (list Z);
  crash_module : option (list Z);
  crash_offset : Z
}.

Definition site0 : site := mkSite None None 0.

#[export] Instance site_eq_dec : EqDecision site.
Proof. solve_decision. Defined.

Section CrashSite.
(** The path of the fuzzed executable. *)
Context (target_path : list Z).

(** The symbolizer, [SanSymTool_addr_send] and [SanSymTool_addr_read]: the
    number of symbols for an address of a module and the innermost one. *)
Context (symbolize : list Z -> Z -> Z * option (list Z)).

Definition module_blocked (path : list Z) : bool :=
  if IGORFUZZ_CALLSTACK_EXACT_MODULE
  then negb (bool_decide (module_name target_path = module_name path))
  else blacklisted sym_blacklist_module (module_name path).

(** One stack frame.  A blocked one drops what was found above it. *)
Definition frame_step (found : site) (line : list Z) : site :=
  match parse_frame line with
  | None => found
  | Some (path_, addr_str) =>
      if module_blocked path_ then site0 else
      let addr_val := u32 (strtoul16 addr_str) in
      let '(n_sym, func) := symbolize path_ addr_val in
      if truthy n_sym then
        match func with
        | Some func =>
            if blacklisted sym_blacklist_function func then site0
            else match crash_module found with
                 | None => mkSite (Some func) (Some path_) addr_val
                 | Some _ => found
                 end
        | None => match crash_module found with
                  | None => mkSite None (Some path_) addr_val
                  | Some _ => found
                  end
        end
      else found
  end.

(** [rewind(fp); fprintf(fp, "\n")] on a file open for reading and writing. *)
Definition flush_stack (content : list Z) : list Z := 0x0a :: drop 1 content.

(** [find_crash_site]: the site, and the file afterwards.  There may be no
    call stack file. *)
Definition find_crash_site (flush : bool) (call_stack : option (list Z)) : site * option (list Z) :=
  match call_stack with
  | None => (site0, None)
  | Some content =>
      (foldl frame_step site0 (read_lines (length content) content),
       Some (if flush then flush_stack content else content))
  end.
End CrashSite.
