(* ===== verification/CallstackThms.v ===== *)
(** The crash site is the topmost analysable frame below the last blocked one;
    and what flushing the call stack file leaves in it. *)

From Stdlib Require Import String.
From S2P Require Import Prelude Words Extras Callstack.
#[local] Open Scope list_scope.
#[local] Open Scope Z_scope.

(** ** Searching in strings *)

Lemma strstr_here needle b : strstr (needle ++ b) needle = Some 0%nat.
Proof.
  destruct (needle ++ b) as [|x l] eqn:E; cbn [strstr]; rewrite <- ?E; rewrite bool_decide_true; try done.
  - now apply app_nil in E as [-> _].
  - now rewrite take_app_length.
Qed.

(** A needle whose first character does not occur again in it is found where
    it is, when it does not occur before. *)
Lemma strstr_app x n a b :
  x ∉ n -> strstr a (x :: n) = None -> strstr (a ++ (x :: n) ++ b) (x :: n) = Some (length a).
Proof.
  intros Hx. induction a as [|c a IH]; intros Ha; [exact (strstr_here (x :: n) b)|].
  cbn [strstr] in Ha. case_bool_decide as Hn; [discriminate|].
  destruct (strstr a (x :: n)) eqn:Ea; [discriminate|].
  change ((c :: a) ++ (x :: n) ++ b) with (c :: (a ++ (x :: n) ++ b)). cbn [strstr].
  rewrite bool_decide_false.
  - now rewrite (IH eq_refl).
  - intros E. apply Hn. revert E. change (length (x :: n)) with (S (length n)). cbn [take]. intros E. injection E as E1 E2. f_equal; [exact E1|].
    destruct (Nat.le_gt_cases (length n) (length a)) as [Hl|Hl].
    + now rewrite take_app_le in E2 by exact Hl.
    + exfalso. apply Hx. rewrite <- E2. rewrite take_app_ge by lia.
      destruct (length n - length a)%nat as [|k] eqn:Ek; [lia|]. apply elem_of_app. right. left.
Qed.

Lemma strstr_cons c a needle :
  take (length needle) (c :: a) <> needle -> strstr (c :: a) needle = S <$> strstr a needle.
Proof. intros H. cbn [strstr]. now rewrite bool_decide_false by exact H. Qed.

Lemma strstr_none_app x n a b : x ∉ a -> strstr b (x :: n) = None -> strstr (a ++ b) (x :: n) = None.
Proof.
  intros Ha Hb. induction a as [|c a IH]; [exact Hb|].
  change ((c :: a) ++ b) with (c :: (a ++ b)). rewrite strstr_cons.
  - rewrite IH; [done|]. intros H. apply Ha. now right.
  - intros E. apply Ha. injection E as -> _. left.
Qed.

(** ** Lines *)

Lemma fgets_line n l rest :
  0x0a ∉ l -> (length l < n)%nat -> fgets n (l ++ 0x0a :: rest) = (l ++ [0x0a], rest).
Proof.
  revert l; induction n as [|n IH]; intros l Hl Hn; [lia|]. destruct l as [|c l]; [done|].
  cbn [app fgets]. destruct (Z.eqb_spec c 0x0a) as [->|Hc]; [exfalso; apply Hl; left|].
  rewrite IH; [done| |cbn [length] in Hn; lia]. intros H. apply Hl. now right.
Qed.

(** A file of the lines [ls]. *)
Definition endl (l : list Z) : list Z := l ++ [0x0a].
Definition text_of (ls : list (list Z)) : list Z := concat (map endl ls).

Definition line_ok (l : list Z) : Prop :=
  (0x0a ∉ l) /\ (length l < IGORFUZZ_CALLSTACK_MAX_LINELEN - 1)%nat.

Lemma read_lines_text ls fuel :
  Forall line_ok ls -> (length (text_of ls) <= fuel)%nat -> read_lines fuel (text_of ls) = map endl ls.
Proof.
  intros Hls. revert fuel; induction Hls as [|l ls [Hl Hn] _ IH]; intros fuel Hf; [now destruct fuel|].
  unfold text_of, endl in *. cbn [map concat] in *. rewrite !length_app in Hf. cbn [length] in Hf.
  destruct fuel as [|f]; [lia|]. rewrite <- app_assoc. cbn [app].
  destruct (l ++ 0x0a :: concat (map (fun l => l ++ [0x0a]) ls)) as [|c r] eqn:E; [now destruct l|].
  cbn [read_lines]. rewrite <- E, fgets_line by assumption. f_equal. apply IH. lia.
Qed.

Lemma c_str_whole l : 0 ∉ l -> c_str l = l.
Proof.
  induction l as [|c l IH]; intros H; [done|]. cbn [c_str].
  destruct (Z.eqb_spec c 0) as [->|]; [exfalso; apply H; left|]. rewrite IH; [done|].
  intros Hc. apply H. now right.
Qed.

(** ** The format of the stack trace: [@PATH%m@ADDR%o] *)

(** A frame: the module's path and the digits of the offset. *)
Abbreviation frame := (list Z * list Z)%type.

Definition print_frame (f : frame) : list Z := (txt "@PATH" ++ f.1 ++ txt "@ADDR" ++ txt "0x" ++ f.2)%list.
Definition print_stack (fs : list frame) : list Z := text_of (map print_frame fs).

Record frame_ok (f : frame) : Prop := {
  fo_path : (0 ∉ f.1) /\ (0x0a ∉ f.1) /\ f.1 <> [];
  fo_addr : strstr f.1 (txt "@ADDR") = None;
  fo_digits : forallb isxdigit f.2 = true /\ f.2 <> [] /\ (length f.2 <= 16)%nat;
  fo_len : (4 <= length f.1 + length f.2 <= Z.to_nat 2034)%nat
}.

Lemma isxdigit_range c : isxdigit c = true -> 48 <= c <= 102 /\ 0 <= hex_val c < 16.
Proof.
  unfold hex_val, tolower. intros H.
  destruct (isdigit c) eqn:E1, (isupper c) eqn:E2; unfold isxdigit, isdigit, isupper, in_range in *; lia.
Qed.

(** The digits before the end of the string are all read. *)
Lemma hex_number_digits d acc : forallb isxdigit d = true -> 0 <= acc ->
  acc * 16 ^ Z.of_nat (length d) <= hex_number d acc < (acc + 1) * 16 ^ Z.of_nat (length d).
Proof.
  revert acc; induction d as [|c d IH]; intros acc Hd Ha; cbn [hex_number length]; [lia|].
  cbn [forallb] in Hd. apply andb_true_iff in Hd as [Hc Hd]. rewrite Hc.
  pose proof (isxdigit_range c Hc) as [_ Hv]. specialize (IH (acc * 16 + hex_val c) Hd ltac:(lia)).
  rewrite Nat2Z.inj_succ, Z.pow_succ_r by lia. nia.
Qed.

Lemma strtoul16_0x d :
  forallb isxdigit d = true -> d <> [] -> (length d <= 16)%nat ->
  strtoul16 (txt "0x" ++ d) = hex_number d 0.
Proof.
  intros Hd Hne Hl. destruct d as [|c d]; [done|].
  pose proof (hex_number_digits (c :: d) 0 Hd ltac:(lia)) as Hr.
  pose proof (Z.pow_le_mono_r 16 (Z.of_nat (length (c :: d))) 16 ltac:(lia) ltac:(lia)) as Hp.
  assert (Hc : isxdigit c = true) by (cbn [forallb] in Hd; now apply andb_true_iff in Hd as [? _]).
  change (strtoul16 (txt "0x" ++ c :: d))
    with (let v := hex_number (if isxdigit c then c :: d else [48; 120; c] ++ d) 0 in
          if UINT64_MAX <? v then UINT64_MAX else v).
  rewrite Hc. cbv zeta. destruct (Z.ltb_spec UINT64_MAX (hex_number (c :: d) 0)); [lia|done].
Qed.

(** ** Reading a stack trace back *)

Lemma xdigits_no h c : forallb isxdigit h = true -> isxdigit c = false -> c ∉ h.
Proof.
  intros Hh Hc Hin. rewrite forallb_forall in Hh. rewrite list_elem_of_In in Hin.
  rewrite (Hh c Hin) in Hc. discriminate.
Qed.

Lemma print_frame_no f c :
  frame_ok f -> c ∉ f.1 -> isxdigit c = false -> forallb (fun x => negb (x =? c)) (txt "@PATHADDR0x") = true ->
  c ∉ print_frame f.
Proof.
  intros Hf Hm Hx Hc. rewrite forallb_forall in Hc. unfold print_frame.
  assert (Ht : forall t, incl t (txt "@PATHADDR0x") -> c ∉ t).
  { intros t Hi Hin. rewrite list_elem_of_In in Hin. apply Hi, Hc in Hin. rewrite Z.eqb_refl in Hin. discriminate. }
  rewrite !not_elem_of_app. pose proof (fo_digits f Hf) as (Hd & _).
  repeat split; try assumption; try (now apply xdigits_no); apply Ht; intros x; cbn; intuition.
Qed.

Lemma print_frame_line f : frame_ok f -> line_ok (print_frame f) /\ (0 ∉ endl (print_frame f)) /\
  (16 < length (endl (print_frame f)))%nat.
Proof.
  intros Hf. pose proof (fo_path f Hf) as (H0 & H1 & _). pose proof (fo_len f Hf) as [L1 L2].
  assert (El : length (print_frame f) = (12 + length f.1 + length f.2)%nat).
  { unfold print_frame. rewrite !length_app. cbn [length txt list_ascii_of_string map]. lia. }
  split; [|split].
  - split; [now apply print_frame_no|]. rewrite El. unfold IGORFUZZ_CALLSTACK_MAX_LINELEN. lia.
  - unfold endl. rewrite not_elem_of_app. split; [now apply print_frame_no|].
    intros H. apply list_elem_of_singleton in H. discriminate.
  - unfold endl. rewrite length_app, El. cbn [length]. lia.
Qed.

Lemma parse_print f :
  frame_ok f -> parse_frame (endl (print_frame f)) = Some (f.1, txt "0x" ++ f.2).
Proof.
  intros Hf. destruct (print_frame_line f Hf) as (_ & Hn & Hl).
  pose proof (fo_path f Hf) as (_ & _ & Hne). pose proof (fo_addr f Hf) as Ha.
  unfold parse_frame. rewrite (c_str_whole _ Hn), (bool_decide_true _ Hl).
  assert (Elast : last (endl (print_frame f)) = Some 0x0a) by (unfold endl; now rewrite last_snoc).
  rewrite (bool_decide_true _ Elast). cbn [andb].
  assert (El : take (length (endl (print_frame f)) - 1) (endl (print_frame f)) = print_frame f).
  { unfold endl. rewrite length_app, Nat.add_sub. now rewrite take_app_length. }
  rewrite El.
  assert (Ep : strstr (print_frame f) IGORFUZZ_CALLSTACK_FORMAT_PATH = Some 0%nat)
    by exact (strstr_here (txt "@PATH") _).
  rewrite Ep. cbn [mbind option_bind].
  assert (Ea : strstr (print_frame f) (txt "@ADDR") = Some (5 + length f.1)%nat).
  { unfold print_frame. rewrite app_assoc.
    assert (Hno : strstr (txt "@PATH" ++ f.1) (txt "@ADDR") = None).
    { change (txt "@PATH" ++ f.1) with (64 :: (txt "PATH" ++ f.1)). rewrite strstr_cons by discriminate.
      change (txt "@ADDR") with (64 :: txt "ADDR"). rewrite strstr_none_app; [done| |exact Ha].
      refine (bool_decide_unpack _ _). exact I. }
    rewrite (strstr_app 64 (txt "ADDR")); [|refine (bool_decide_unpack _ _); exact I|exact Hno].
    now rewrite length_app. }
  unfold IGORFUZZ_CALLSTACK_FORMAT_ADDR. rewrite Ea. cbn [mbind option_bind].
  rewrite bool_decide_false; [|destruct (f.1); [done|cbn; lia]].
  do 2 f_equal.
  - change (drop (0 + length IGORFUZZ_CALLSTACK_FORMAT_PATH) (print_frame f)) with (f.1 ++ txt "@ADDR0x" ++ f.2).
    apply take_app_length'. cbn. lia.
  - unfold print_frame. rewrite app_assoc, (app_assoc (_ ++ _)). apply drop_app_length'.
    rewrite !length_app. cbn. lia.
Qed.

(** ** What one frame says, and what a stack says *)

Inductive verdict := Blocked | Candidate (s : site) | Opaque.

Definition candidate (v : verdict) : option site :=
  match v with Candidate s => Some s | _ => None end.

(** The specification: the first candidate below the last blocked frame. *)
Definition crash_site_of (vs : list verdict) (s : site) : Prop :=
  exists above below, vs = above ++ below /\ (above = [] \/ last above = Some Blocked) /\
    (Blocked ∉ below) /\ s = default site0 (head (omap candidate below)).

Section Site.
Context (target_path : list Z) (symbolize : list Z -> Z -> Z * option (list Z)).

(** A frame is blocked when it lies outside the target's executable or in a
    function of the sanitizers; it is a candidate when the symbolizer knows
    something about it. *)
Definition judge (f : frame) : verdict :=
  let offset := u32 (hex_number f.2 0) in
  if module_blocked target_path f.1 then Blocked else
  match symbolize f.1 offset with
  | (0, _) => Opaque
  | (_, Some func) => if blacklisted sym_blacklist_function func then Blocked
                      else Candidate (mkSite (Some func) (Some f.1) offset)
  | (_, None) => Candidate (mkSite None (Some f.1) offset)
  end.

Definition verdict_step (found : site) (v : verdict) : site :=
  match v with
  | Blocked => site0
  | Candidate s => match crash_module found with None => s | Some _ => found end
  | Opaque => found
  end.

Lemma frame_step_judge found f :
  frame_ok f -> frame_step target_path symbolize found (endl (print_frame f)) = verdict_step found (judge f).
Proof.
  intros Hf. unfold frame_step, judge. rewrite (parse_print f Hf).
  destruct (fo_digits f Hf) as (Hd & Hne & Hl). rewrite (strtoul16_0x _ Hd Hne Hl).
  destruct (module_blocked target_path f.1); [done|].
  destruct (symbolize f.1 (u32 (hex_number f.2 0))) as [n [func|]]; destruct n as [|n|n]; try done.
  all: change (truthy _) with true; cbn match; destruct (blacklisted _ func); done.
Qed.

Lemma judge_module f s : judge f = Candidate s -> crash_module s = Some f.1.
Proof. unfold judge. intros H. repeat case_match; simplify_eq; done. Qed.

Lemma verdict_fold vs :
  (forall v s, v ∈ vs -> v = Candidate s -> crash_module s <> None) ->
  crash_site_of vs (foldl verdict_step site0 vs).
Proof.
  induction vs as [|v vs IH] using rev_ind; intros Hm.
  - exists [], []. repeat split; [now left|apply not_elem_of_nil].
  - destruct IH as (above & below & -> & Ha & Hb & Es).
    { intros v' s Hv. apply Hm. apply elem_of_app. now left. }
    rewrite foldl_snoc, Es. destruct v as [|s|]; cbn [verdict_step].
    + exists ((above ++ below) ++ [Blocked]), []. rewrite app_nil_r, last_snoc.
      repeat split; [now right|apply not_elem_of_nil].
    + exists above, (below ++ [Candidate s]). rewrite app_assoc. repeat split; [exact Ha| |].
      { rewrite not_elem_of_app. split; [exact Hb|]. intros H. now apply list_elem_of_singleton in H. }
      rewrite omap_app. cbn [omap list_omap candidate].
      destruct (omap candidate below) as [|s' l] eqn:El; [done|]. cbn [app head from_option id].
      assert (Hs' : s' ∈ omap candidate below) by (rewrite El; left).
      apply list_elem_of_omap in Hs' as (v' & Hv' & Ev'). destruct v' as [|s1|]; try discriminate.
      injection Ev' as ->. destruct (crash_module s') eqn:Ec; [done|].
      destruct (Hm (Candidate s') s'); [|done|exact Ec]. rewrite !elem_of_app. auto.
    + exists above, (below ++ [Opaque]). rewrite app_assoc. repeat split; [exact Ha| |].
      { rewrite not_elem_of_app. split; [exact Hb|]. intros H. now apply list_elem_of_singleton in H. }
      rewrite omap_app. cbn [omap list_omap candidate]. now rewrite app_nil_r.
Qed.

Lemma stack_fold fs found :
  Forall frame_ok fs ->
  foldl (frame_step target_path symbolize) found
    (read_lines (length (print_stack fs)) (print_stack fs))
  = foldl verdict_step found (map judge fs).
Proof.
  intros Hf. unfold print_stack. rewrite read_lines_text; [|rewrite Forall_map|lia].
  - revert found; induction Hf as [|f fs H _ IH]; intros found; [done|].
    cbn [map foldl]. now rewrite frame_step_judge, IH.
  - eapply Forall_impl; [exact Hf|]. intros f H. apply (print_frame_line f H).
Qed.

(** C22: On a call stack in the format the sanitizer is told to write
    ([@PATH%m@ADDR%o], a frame to a line), [find_crash_site] finds the topmost
    frame that the symbolizer knows below the last blocked frame, or nothing
    when there is none; without a file it finds nothing. *)
Theorem find_crash_site_correct flush fs :
  Forall frame_ok fs ->
  (find_crash_site target_path symbolize flush None).1 = site0 /\
  crash_site_of (map judge fs) (find_crash_site target_path symbolize flush (Some (print_stack fs))).1.
Proof.
  intros Hf. split; [done|]. cbn [find_crash_site fst]. rewrite (stack_fold fs site0 Hf).
  apply verdict_fold. intros v s Hv ->. apply list_elem_of_In, in_map_iff in Hv as (f & E & _).
  now rewrite (judge_module f s E).
Qed.

(** ** Flushing *)

Lemma parse_no_path l :
  (0 ∉ endl l) -> strstr l IGORFUZZ_CALLSTACK_FORMAT_PATH = None -> parse_frame (endl l) = None.
Proof.
  intros H0 Hp. unfold parse_frame. rewrite (c_str_whole _ H0). case_match; [|done].
  replace (take _ (endl l)) with l; [now rewrite Hp|].
  unfold endl. rewrite length_app, Nat.add_sub. now rewrite take_app_length.
Qed.

Lemma beheaded_frame f :
  frame_ok f -> 0x40 ∉ f.1 ->
  parse_frame (endl (drop 1 (print_frame f))) = None /\ line_ok (drop 1 (print_frame f)).
Proof.
  intros Hf Hat. destruct (print_frame_line f Hf) as ((Hn & Hl) & H0 & _).
  assert (Hd : forall c, c ∉ print_frame f -> c ∉ drop 1 (print_frame f)).
  { intros c Hc Hin. apply Hc. rewrite <- (take_drop 1 (print_frame f)). apply elem_of_app. now right. }
  split; [|split; [now apply Hd|rewrite length_drop; lia]]. apply parse_no_path.
  - unfold endl in *. rewrite not_elem_of_app in *. split; [apply Hd|]; apply H0.
  - change (drop 1 (print_frame f)) with (txt "PATH" ++ f.1 ++ 64 :: (txt "ADDR0x" ++ f.2)).
    change IGORFUZZ_CALLSTACK_FORMAT_PATH with (64 :: txt "PATH").
    apply strstr_none_app; [refine (bool_decide_unpack _ _); exact I|].
    apply strstr_none_app; [exact Hat|]. rewrite strstr_cons by discriminate.
    rewrite <- (app_nil_r (txt "ADDR0x" ++ f.2)), strstr_none_app; [done| |done].
    rewrite not_elem_of_app. split; [refine (bool_decide_unpack _ _); exact I|].
    apply xdigits_no; [|done]. apply (fo_digits f Hf).
Qed.

(** Flushing the call stack file does not empty it: it only takes the
    first frame away.  A second look at the file, if no target wrote it in
    between, finds the site of the remaining frames. *)
Theorem flush_keeps_frames f fs :
  Forall frame_ok (f :: fs) -> 0x40 ∉ f.1 ->
  let flushed := (find_crash_site target_path symbolize true (Some (print_stack (f :: fs)))).2 in
  find_crash_site target_path symbolize false flushed
  = ((find_crash_site target_path symbolize false (Some (print_stack fs))).1, flushed).
Proof.
  intros Hfs Hat flushed. inversion Hfs as [|? ? Hf Hr]; subst.
  destruct (beheaded_frame f Hf Hat) as [Hp Hl].
  assert (Ef : flushed = Some (text_of ([] :: drop 1 (print_frame f) :: map print_frame fs))) by reflexivity.
  rewrite Ef. cbn [find_crash_site fst]. f_equal. rewrite (stack_fold fs site0 Hr), read_lines_text; [| |lia].
  - cbn [map foldl]. unfold frame_step at 2 3. rewrite Hp.
    change (parse_frame (endl [])) with (@None (list Z * list Z)). cbv iota.
    rewrite map_map. clear -Hr. generalize site0 as found.
    induction Hr as [|g fs H _ IH]; intros found; [done|]. cbn [map foldl].
    now rewrite (frame_step_judge found g H), IH.
  - constructor; [split; [apply not_elem_of_nil|unfold IGORFUZZ_CALLSTACK_MAX_LINELEN; cbn [length]; lia]|]. constructor; [exact Hl|].
    apply Forall_map. eapply Forall_impl; [exact Hr|]. intros g H. apply (print_frame_line g H).
Qed.
End Site.

(** ** A stack *)

Definition target0 : list Z := txt "/opt/t/prog".

(** The library frame is blocked, the sanitizer's function in the executable
    too; the next two are candidates. *)
Definition stack0 : list frame :=
  [(txt "/usr/lib/libc.so", txt "8f"); (target0, txt "1c0"); (target0, txt "4fe2"); (target0, txt "50a0")].

Definition symbols0 (m : list Z) (o : Z) : Z * option (list Z) :=
  if o =? 0x1c0 then (1, Some (txt "__asan_report_load4"))
  else if o =? 0x4fe2 then (2, Some (txt "parse_header")) else (1, None).

Lemma stack0_ok : Forall frame_ok stack0.
Proof.
  repeat apply List.Forall_cons; try apply List.Forall_nil.
  all: split; refine (bool_decide_unpack _ _); exact I.
Qed.

Lemma find_crash_site_correct_witness :
  crash_site_of (map (judge target0 symbols0) stack0) (mkSite (Some (txt "parse_header")) (Some target0) 0x4fe2).
Proof.
  pose proof (proj2 (find_crash_site_correct target0 symbols0 true stack0 stack0_ok)) as H.
  vm_compute in H |- *. exact H.
Defined.

Lemma flush_keeps_frames_witness :
  let first := find_crash_site target0 symbols0 true (Some (print_stack stack0)) in
  (find_crash_site target0 symbols0 false first.2).1 = first.1.
Proof.
  cbv zeta. pose proof (flush_keeps_frames target0 symbols0 (txt "/usr/lib/libc.so", txt "8f") (tail stack0) stack0_ok
    ltac:(refine (bool_decide_unpack _ _); exact I)) as H.
  cbv zeta in H. etransitivity; [exact (f_equal fst H)|]. vm_compute. reflexivity.
Defined.
