(* ===== verification/Session.v ===== *)
(** The session: what surrounds the queue while a target runs.  The
    configuration, the files of the output directory, the counters, the
    interface of the fork server, and [afl_fsrv_run_target] and
    [afl_fsrv_write_to_testcase] of [src/afl-forkserver.c]. *)

From S2P Require Import Prelude Words Arith Float State Bitmap Text Queue TestcaseCache Callstack.
#[global] Open Scope Z_scope.

(** ** Configuration *)

Record conf := mkConf {
  exec_tmout : Z;                 (* fsrv.exec_tmout *)
  hang_tmout : Z;
  min_length : Z;
  max_length : Z;
  crash_mode : Z;
  afl_ignore_timeouts : bool;
  afl_cal_fast : bool;
  resuming_fuzz : bool;
  no_unlink : bool;
  use_shmem_fuzz : bool;
  uses_asan : bool;
  uses_crash_exitcode : bool;
  crash_exitcode : Z;
  call_stack_file : bool;         (* not NULL *)
  target_path : list Z;
  out_dir : list Z;
  queue_cycle : Z;                (* of the current cycle *)
  stats_update_freq : Z
}.

(** Counters of [afl_state_t]. *)
Record stats := mkStats {
  total_crashes : Z;
  saved_crashes : Z;
  total_tmouts : Z;
  saved_hangs : Z;
  last_crash_execs : Z;
  last_crash_time : Z;
  last_hang_time : Z;
  queued_with_cov : Z;
  queued_variable : Z;
  var_byte_count : Z;
  cur_skipped_items : Z;
  subseq_tmouts : Z;
  trim_execs : Z;
  bytes_trim_in : Z;
  bytes_trim_out : Z
}.

(** What [describe_op] tells of the current operation. *)
Record op_info := mkOp {
  syncing_name : option (list Z);   (* syncing_party *)
  syncing_case : Z;
  current_entry : Z;
  splicing_with : Z;
  prev_run_time : Z;
  stage_short : list Z;
  stage_cur_byte : Z;
  stage_val_type : Z;
  stage_cur_val : Z
}.

(** The session: the queue and the maps with what running a target adds. *)
Record sess (W : Type) := mkSess {
  state : afl;   (* the queue, the maps *)
  tcache : cache;   (* the testcase cache *)
  world : W;   (* the target and the clock *)
  testcase : list Z;   (* what the target reads *)
  last_run_timed_out : bool;   (* fsrv.last_run_timed_out *)
  call_stack : option (list Z);   (* content of fsrv.call_stack_file *)
  crash_site : site;   (* fsrv.crash_symbol, _module, _offset *)
  readme : list Z;   (* crashes/README.txt *)
  queue_dir : gmap (list Z) (list Z);   (* queue/ *)
  hangs_dir : gmap (list Z) (list Z);   (* hangs/ *)
  stat : stats;
  op : op_info;
  var_bytes : list Z;
  first_trace : list Z;
  clean_trace : list Z;
  cur_stage : Z;   (* stage_cur *)
  max_stage : Z   (* stage_max *)
}.

Arguments state {W}.
Arguments tcache {W}.
Arguments world {W}.
Arguments testcase {W}.
Arguments last_run_timed_out {W}.
Arguments call_stack {W}.
Arguments crash_site {W}.
Arguments readme {W}.
Arguments queue_dir {W}.
Arguments hangs_dir {W}.
Arguments stat {W}.
Arguments op {W}.
Arguments var_bytes {W}.
Arguments first_trace {W}.
Arguments clean_trace {W}.
Arguments cur_stage {W}.
Arguments max_stage {W}.
Arguments mkSess {W}.

(** ** Field assignments *)

Definition set_total_crashes (v : Z) (x : stats) : stats :=
  mkStats
    v (saved_crashes x) (total_tmouts x) (saved_hangs x) (last_crash_execs x) (last_crash_time x)
    (last_hang_time x) (queued_with_cov x) (queued_variable x) (var_byte_count x)
    (cur_skipped_items x) (subseq_tmouts x) (trim_execs x) (bytes_trim_in x) (bytes_trim_out x).

Definition set_saved_crashes (v : Z) (x : stats) : stats :=
  mkStats
    (total_crashes x) v (total_tmouts x) (saved_hangs x) (last_crash_execs x) (last_crash_time x)
    (last_hang_time x) (queued_with_cov x) (queued_variable x) (var_byte_count x)
    (cur_skipped_items x) (subseq_tmouts x) (trim_execs x) (bytes_trim_in x) (bytes_trim_out x).

Definition set_total_tmouts (v : Z) (x : stats) : stats :=
  mkStats
    (total_crashes x) (saved_crashes x) v (saved_hangs x) (last_crash_execs x)
    (last_crash_time x) (last_hang_time x) (queued_with_cov x) (queued_variable x)
    (var_byte_count x) (cur_skipped_items x) (subseq_tmouts x) (trim_execs x) (bytes_trim_in x)
    (bytes_trim_out x).

Definition set_saved_hangs (v : Z) (x : stats) : stats :=
  mkStats
    (total_crashes x) (saved_crashes x) (total_tmouts x) v (last_crash_execs x)
    (last_crash_time x) (last_hang_time x) (queued_with_cov x) (queued_variable x)
    (var_byte_count x) (cur_skipped_items x) (subseq_tmouts x) (trim_execs x) (bytes_trim_in x)
    (bytes_trim_out x).

Definition set_last_crash_execs (v : Z) (x : stats) : stats :=
  mkStats
    (total_crashes x) (saved_crashes x) (total_tmouts x) (saved_hangs x) v (last_crash_time x)
    (last_hang_time x) (queued_with_cov x) (queued_variable x) (var_byte_count x)
    (cur_skipped_items x) (subseq_tmouts x) (trim_execs x) (bytes_trim_in x) (bytes_trim_out x).

Definition set_last_crash_time (v : Z) (x : stats) : stats :=
  mkStats
    (total_crashes x) (saved_crashes x) (total_tmouts x) (saved_hangs x) (last_crash_execs x) v
    (last_hang_time x) (queued_with_cov x) (queued_variable x) (var_byte_count x)
    (cur_skipped_items x) (subseq_tmouts x) (trim_execs x) (bytes_trim_in x) (bytes_trim_out x).

Definition set_last_hang_time (v : Z) (x : stats) : stats :=
  mkStats
    (total_crashes x) (saved_crashes x) (total_tmouts x) (saved_hangs x) (last_crash_execs x)
    (last_crash_time x) v (queued_with_cov x) (queued_variable x) (var_byte_count x)
    (cur_skipped_items x) (subseq_tmouts x) (trim_execs x) (bytes_trim_in x) (bytes_trim_out x).

Definition set_queued_with_cov (v : Z) (x : stats) : stats :=
  mkStats
    (total_crashes x) (saved_crashes x) (total_tmouts x) (saved_hangs x) (last_crash_execs x)
    (last_crash_time x) (last_hang_time x) v (queued_variable x) (var_byte_count x)
    (cur_skipped_items x) (subseq_tmouts x) (trim_execs x) (bytes_trim_in x) (bytes_trim_out x).

Definition set_queued_variable (v : Z) (x : stats) : stats :=
  mkStats
    (total_crashes x) (saved_crashes x) (total_tmouts x) (saved_hangs x) (last_crash_execs x)
    (last_crash_time x) (last_hang_time x) (queued_with_cov x) v (var_byte_count x)
    (cur_skipped_items x) (subseq_tmouts x) (trim_execs x) (bytes_trim_in x) (bytes_trim_out x).

Definition set_var_byte_count (v : Z) (x : stats) : stats :=
  mkStats
    (total_crashes x) (saved_crashes x) (total_tmouts x) (saved_hangs x) (last_crash_execs x)
    (last_crash_time x) (last_hang_time x) (queued_with_cov x) (queued_variable x) v
    (cur_skipped_items x) (subseq_tmouts x) (trim_execs x) (bytes_trim_in x) (bytes_trim_out x).

Definition set_cur_skipped_items (v : Z) (x : stats) : stats :=
  mkStats
    (total_crashes x) (saved_crashes x) (total_tmouts x) (saved_hangs x) (last_crash_execs x)
    (last_crash_time x) (last_hang_time x) (queued_with_cov x) (queued_variable x)
    (var_byte_count x) v (subseq_tmouts x) (trim_execs x) (bytes_trim_in x) (bytes_trim_out x).

Definition set_subseq_tmouts (v : Z) (x : stats) : stats :=
  mkStats
    (total_crashes x) (saved_crashes x) (total_tmouts x) (saved_hangs x) (last_crash_execs x)
    (last_crash_time x) (last_hang_time x) (queued_with_cov x) (queued_variable x)
    (var_byte_count x) (cur_skipped_items x) v (trim_execs x) (bytes_trim_in x)
    (bytes_trim_out x).

Definition set_trim_execs (v : Z) (x : stats) : stats :=
  mkStats
    (total_crashes x) (saved_crashes x) (total_tmouts x) (saved_hangs x) (last_crash_execs x)
    (last_crash_time x) (last_hang_time x) (queued_with_cov x) (queued_variable x)
    (var_byte_count x) (cur_skipped_items x) (subseq_tmouts x) v (bytes_trim_in x)
    (bytes_trim_out x).

Definition set_bytes_trim_in (v : Z) (x : stats) : stats :=
  mkStats
    (total_crashes x) (saved_crashes x) (total_tmouts x) (saved_hangs x) (last_crash_execs x)
    (last_crash_time x) (last_hang_time x) (queued_with_cov x) (queued_variable x)
    (var_byte_count x) (cur_skipped_items x) (subseq_tmouts x) (trim_execs x) v
    (bytes_trim_out x).

Definition set_bytes_trim_out (v : Z) (x : stats) : stats :=
  mkStats
    (total_crashes x) (saved_crashes x) (total_tmouts x) (saved_hangs x) (last_crash_execs x)
    (last_crash_time x) (last_hang_time x) (queued_with_cov x) (queued_variable x)
    (var_byte_count x) (cur_skipped_items x) (subseq_tmouts x) (trim_execs x) (bytes_trim_in x) v.

Definition set_state {W : Type} (v : afl) (s : sess W) : sess W :=
  mkSess
    v (tcache s) (world s) (testcase s) (last_run_timed_out s) (call_stack s) (crash_site s)
    (readme s) (queue_dir s) (hangs_dir s) (stat s) (op s) (var_bytes s) (first_trace s)
    (clean_trace s) (cur_stage s) (max_stage s).

Definition set_tcache {W : Type} (v : cache) (s : sess W) : sess W :=
  mkSess
    (state s) v (world s) (testcase s) (last_run_timed_out s) (call_stack s) (crash_site s)
    (readme s) (queue_dir s) (hangs_dir s) (stat s) (op s) (var_bytes s) (first_trace s)
    (clean_trace s) (cur_stage s) (max_stage s).

Definition set_world {W : Type} (v : W) (s : sess W) : sess W :=
  mkSess
    (state s) (tcache s) v (testcase s) (last_run_timed_out s) (call_stack s) (crash_site s)
    (readme s) (queue_dir s) (hangs_dir s) (stat s) (op s) (var_bytes s) (first_trace s)
    (clean_trace s) (cur_stage s) (max_stage s).

Definition set_testcase {W : Type} (v : list Z) (s : sess W) : sess W :=
  mkSess
    (state s) (tcache s) (world s) v (last_run_timed_out s) (call_stack s) (crash_site s)
    (readme s) (queue_dir s) (hangs_dir s) (stat s) (op s) (var_bytes s) (first_trace s)
    (clean_trace s) (cur_stage s) (max_stage s).

Definition set_last_run_timed_out {W : Type} (v : bool) (s : sess W) : sess W :=
  mkSess
    (state s) (tcache s) (world s) (testcase s) v (call_stack s) (crash_site s) (readme s)
    (queue_dir s) (hangs_dir s) (stat s) (op s) (var_bytes s) (first_trace s) (clean_trace s)
    (cur_stage s) (max_stage s).

Definition set_call_stack {W : Type} (v : option (list Z)) (s : sess W) : sess W :=
  mkSess
    (state s) (tcache s) (world s) (testcase s) (last_run_timed_out s) v (crash_site s)
    (readme s) (queue_dir s) (hangs_dir s) (stat s) (op s) (var_bytes s) (first_trace s)
    (clean_trace s) (cur_stage s) (max_stage s).

Definition set_crash_site {W : Type} (v : site) (s : sess W) : sess W :=
  mkSess
    (state s) (tcache s) (world s) (testcase s) (last_run_timed_out s) (call_stack s) v
    (readme s) (queue_dir s) (hangs_dir s) (stat s) (op s) (var_bytes s) (first_trace s)
    (clean_trace s) (cur_stage s) (max_stage s).

Definition set_readme {W : Type} (v : list Z) (s : sess W) : sess W :=
  mkSess
    (state s) (tcache s) (world s) (testcase s) (last_run_timed_out s) (call_stack s)
    (crash_site s) v (queue_dir s) (hangs_dir s) (stat s) (op s) (var_bytes s) (first_trace s)
    (clean_trace s) (cur_stage s) (max_stage s).

Definition set_queue_dir {W : Type} (v : gmap (list Z) (list Z)) (s : sess W) : sess W :=
  mkSess
    (state s) (tcache s) (world s) (testcase s) (last_run_timed_out s) (call_stack s)
    (crash_site s) (readme s) v (hangs_dir s) (stat s) (op s) (var_bytes s) (first_trace s)
    (clean_trace s) (cur_stage s) (max_stage s).

Definition set_hangs_dir {W : Type} (v : gmap (list Z) (list Z)) (s : sess W) : sess W :=
  mkSess
    (state s) (tcache s) (world s) (testcase s) (last_run_timed_out s) (call_stack s)
    (crash_site s) (readme s) (queue_dir s) v (stat s) (op s) (var_bytes s) (first_trace s)
    (clean_trace s) (cur_stage s) (max_stage s).

Definition set_stat {W : Type} (v : stats) (s : sess W) : sess W :=
  mkSess
    (state s) (tcache s) (world s) (testcase s) (last_run_timed_out s) (call_stack s)
    (crash_site s) (readme s) (queue_dir s) (hangs_dir s) v (op s) (var_bytes s) (first_trace s)
    (clean_trace s) (cur_stage s) (max_stage s).

Definition set_op {W : Type} (v : op_info) (s : sess W) : sess W :=
  mkSess
    (state s) (tcache s) (world s) (testcase s) (last_run_timed_out s) (call_stack s)
    (crash_site s) (readme s) (queue_dir s) (hangs_dir s) (stat s) v (var_bytes s)
    (first_trace s) (clean_trace s) (cur_stage s) (max_stage s).

Definition set_var_bytes {W : Type} (v : list Z) (s : sess W) : sess W :=
  mkSess
    (state s) (tcache s) (world s) (testcase s) (last_run_timed_out s) (call_stack s)
    (crash_site s) (readme s) (queue_dir s) (hangs_dir s) (stat s) (op s) v (first_trace s)
    (clean_trace s) (cur_stage s) (max_stage s).

Definition set_first_trace {W : Type} (v : list Z) (s : sess W) : sess W :=
  mkSess
    (state s) (tcache s) (world s) (testcase s) (last_run_timed_out s) (call_stack s)
    (crash_site s) (readme s) (queue_dir s) (hangs_dir s) (stat s) (op s) (var_bytes s) v
    (clean_trace s) (cur_stage s) (max_stage s).

Definition set_clean_trace {W : Type} (v : list Z) (s : sess W) : sess W :=
  mkSess
    (state s) (tcache s) (world s) (testcase s) (last_run_timed_out s) (call_stack s)
    (crash_site s) (readme s) (queue_dir s) (hangs_dir s) (stat s) (op s) (var_bytes s)
    (first_trace s) v (cur_stage s) (max_stage s).

Definition set_cur_stage {W : Type} (v : Z) (s : sess W) : sess W :=
  mkSess
    (state s) (tcache s) (world s) (testcase s) (last_run_timed_out s) (call_stack s)
    (crash_site s) (readme s) (queue_dir s) (hangs_dir s) (stat s) (op s) (var_bytes s)
    (first_trace s) (clean_trace s) v (max_stage s).

Definition set_max_stage {W : Type} (v : Z) (s : sess W) : sess W :=
  mkSess
    (state s) (tcache s) (world s) (testcase s) (last_run_timed_out s) (call_stack s)
    (crash_site s) (readme s) (queue_dir s) (hangs_dir s) (stat s) (op s) (var_bytes s)
    (first_trace s) (clean_trace s) (cur_stage s) v.

(** An assignment to a counter, and one to the queue's state. *)
Definition on_stat {W : Type} (f : stats -> stats) (s : sess W) : sess W := set_stat (f (stat s)) s.
Definition on_state {W : Type} (f : afl -> afl) (s : sess W) : sess W := set_state (f (state s)) s.
Definition trace_of {W : Type} (s : sess W) : list Z := trace_bits (acov (state s)).

(** The coverage state with other trace bits. *)
Definition put_trace {W : Type} (t : list Z) (s : sess W) : sess W :=
  on_state (fun a => set_acov (set_trace (acov a) t (actual_counts (acov a))) a) s.

(** ** The fork server

    What it answers to one request: the child's process id, the milliseconds
    until it reported (0 when the pipe broke), the status the child ended or
    stopped with ([None] when it did not report after a timeout), the map as
    the child left it, and what the sanitizer's error hook wrote to the call
    stack file, if it ran. *)

Record child := mkChild {
  child_pid : Z;
  exec_ms : Z;
  child_status : option Z;
  child_trace : list Z;
  child_stack : option (list Z)
}.

Class World (W : Type) := {
  run_child : W -> bool -> list Z -> Z -> option child * W;
  stop_soon : W -> bool;
  take_skip_request : W -> bool * W;
  get_cur_time : W -> Z * W;
  get_cur_time_us : W -> Z * W
}.

Inductive fsrv_run_result :=
  FSRV_RUN_OK | FSRV_RUN_TMOUT | FSRV_RUN_CRASH | FSRV_RUN_ERROR | FSRV_RUN_NOINST | FSRV_RUN_NOBITS.

#[export] Instance fsrv_run_result_eq_dec : EqDecision fsrv_run_result.
Proof. solve_decision. Defined.

Definition EXEC_FAIL_SIG : Z := 0xfee1dead.
Definition MSAN_ERROR : Z := 86.
Definition LSAN_ERROR : Z := 23.

(** <sys/wait.h> *)
Definition WIFSIGNALED (status : Z) : bool :=
  negb (status .& 0x7f =? 0) && negb (status .& 0x7f =? 0x7f).
Definition WEXITSTATUS (status : Z) : Z := (status .& 0xff00) .>> 8.

Section Fsrv.
Context {W : Type} `{World W} (cf : conf).
Implicit Types s : sess W.

(** Did we crash? *)
Definition crashed (status : Z) : bool :=
  WIFSIGNALED status ||
  (uses_asan cf && ((WEXITSTATUS status =? MSAN_ERROR) || (WEXITSTATUS status =? LSAN_ERROR))) ||
  (uses_crash_exitcode cf && (WEXITSTATUS status =? crash_exitcode cf)).

(** The outcome of a run that reported. *)
Definition outcome (trace : list Z) (timed_out : bool) (status : Z) : fsrv_run_result :=
  if le_load (take 4 trace) =? EXEC_FAIL_SIG then FSRV_RUN_ERROR
  else if timed_out then FSRV_RUN_TMOUT
  else if crashed status then FSRV_RUN_CRASH
  else FSRV_RUN_OK.

(** A run that could not be made: Ctrl-C, or the end. *)
Definition no_run s : res (fsrv_run_result * sess W) :=
  if stop_soon (world s) then Ok (FSRV_RUN_OK, s) else Err Fatal.

(** What the target leaves behind: its trace and its call stack. *)
Definition leave (c : child) s : sess W :=
  set_call_stack (if call_stack_file cf
                  then match child_stack c with Some t => Some t | None => call_stack s end
                  else call_stack s)
    (put_trace (child_trace c) s).

Definition afl_fsrv_run_target s (timeout : Z) : res (fsrv_run_result * sess W) :=
  let n := Z.to_nat (map_size (acov (state s))) in
  let s := put_trace (replicate n 0 ++ drop n (trace_of s)) s in
  let '(reply, w) := run_child (world s) (last_run_timed_out s) (testcase s) timeout in
  let s := set_last_run_timed_out false (set_world w s) in
  match reply with
  | None => no_run s
  | Some c =>
      if child_pid c <=? 0 then no_run s else
      let s := leave c s in
      let timed_out := timeout <? exec_ms c in
      let s := set_last_run_timed_out timed_out s in
      match child_status c with
      | None => no_run s
      | Some status =>
          if negb timed_out && (exec_ms c =? 0) then no_run s else
          let s := on_state (fun a => set_total_execs (u64 (total_execs a + 1)) a) s in
          Ok (outcome (trace_of s) timed_out status, s)
      end
  end.

Definition fuzz_run_target s (timeout : Z) : res (fsrv_run_result * sess W) := afl_fsrv_run_target s timeout.

(** ** Handing over the input

    [mem] is the buffer with all its allocated bytes; the first [len] are
    written to the shared memory or the file the target reads. *)

Definition afl_fsrv_write_to_testcase s (mem : list Z) (len : Z) : res (sess W) :=
  let len := if use_shmem_fuzz cf && (MAX_FILE <? len) then MAX_FILE else len in
  if Z.of_nat (length mem) <? len then Err Fault
  else Ok (set_testcase (take (Z.to_nat len) mem) s).

(** [write_to_testcase] of [src/afl-fuzz-run.c] without custom mutators. *)
Definition write_to_testcase s (mem : list Z) (len : Z) (fix_ : bool) : res (Z * sess W) :=
  let len := if (len <? min_length cf) && negb fix_ then min_length cf
             else if max_length cf <? len then max_length cf else len in
  s ← afl_fsrv_write_to_testcase s mem len;
  Ok (len, s).

(** [write_with_gap]: the input without the [skip_len] bytes at [skip_at]. *)
Definition write_with_gap s (mem : list Z) (len skip_at skip_len : Z) : res (sess W) :=
  let tail_len := u32 (len - skip_at - skip_len) in
  if Z.of_nat (length mem) <? skip_at + skip_len + tail_len then Err Fault else
  Ok (set_testcase (take (Z.to_nat (u32 (len - skip_len)))
        (take (Z.to_nat skip_at) mem ++
         take (Z.to_nat tail_len) (drop (Z.to_nat (skip_at + skip_len)) mem))%list) s).
End Fsrv.
