(* ===== verification/SessionThms.v ===== *)
(** Running the target: what a run changes, and what the invariants of the
    queue survive. *)

From S2P Require Import Prelude Words Arith Float State Bitmap BitmapThms Text Queue QueueScore TestcaseCache Callstack Session.

(** ** Assignments that keep the queue well-formed *)

Lemma cov_wf_trace c t n : cov_wf c -> bytes t -> length t = length (trace_bits c) -> cov_wf (set_trace c t n).
Proof.
  intros [H1 H2 H3 H4 H5 H6 H7] Ht Hl. split; auto. cbn [trace_bits set_trace map_size]. congruence.
Qed.

Lemma queue_wf_acov a c :
  queue_wf a -> cov_wf c -> map_size c = map_size (acov a) -> testcase_matrix c = testcase_matrix (acov a) ->
  queue_wf (set_acov c a).
Proof.
  intros [] Hc Em Et. unfold mini_len, testcase_matrix_of in *.
  split; unfold mini_len, testcase_matrix_of; cbn [acov set_acov top_rated queue_buf queued_items n_fuzz map_tmp_buf];
    rewrite ?Em, ?Et; auto.
Qed.

(** What the invariant reads of an entry. *)
Definition refs_of (q : queue_entry) : Z * option (list Z) * Z := (tc_ref q, trace_mini q, n_fuzz_entry q).

Lemma queue_wf_upd a p f : queue_wf a -> (forall q, refs_of (f q) = refs_of q) -> queue_wf (upd p f a).
Proof.
  intros [] Hf. unfold mini_len, testcase_matrix_of in *.
  assert (Hb : forall r x, queue_buf (upd p f a) !! r = Some x ->
    exists y, queue_buf a !! r = Some y /\ refs_of x = refs_of y).
  { intros r x Hx. unfold upd in Hx. cbn [queue_buf set_queue_buf] in Hx. destruct (decide (p = r)) as [<-|Hne].
    - rewrite lookup_alter_eq in Hx. destruct (queue_buf a !! p) as [y|]; [|discriminate].
      apply (inj Some) in Hx as <-. eauto.
    - rewrite lookup_alter_ne in Hx by done. eauto. }
  assert (Hl : length (queue_buf (upd p f a)) = length (queue_buf a)) by apply length_alter.
  split; unfold mini_len, testcase_matrix_of; rewrite ?Hl; try assumption.
  - intros r x Hx. destruct (Hb r x Hx) as (y & Hy & E). destruct (qw_refs r y Hy) as [E1 E2 E3].
    unfold refs_of in E. injection E as F1 F2 F3. split; rewrite ?F1, ?F2; auto.
  - intros r x Hx. destruct (Hb r x Hx) as (y & Hy & E). unfold refs_of in E. injection E as _ _ F3.
    rewrite F3. exact (qw_nfuzz r y Hy).
Qed.

Lemma classify_same fl c :
  map_size (classify_counts fl c) = map_size c /\ testcase_matrix (classify_counts fl c) = testcase_matrix c.
Proof. unfold classify_counts. destruct (classify_words _ _ _ _). done. Qed.

Lemma queue_wf_classify fl a : queue_wf a -> queue_wf (set_acov (classify_counts fl (acov a)) a).
Proof.
  intros H. apply queue_wf_acov; [exact H|apply classify_counts_wf; apply H|apply classify_same..].
Qed.

(** ** What a target may do

    [T t x]: given the input [t] it may leave the trace [x].  [E]: the fork
    server may be lost. *)
Record target_laws {W : Type} `{World W} (I : W -> Prop) (T : list Z -> list Z -> Prop) (n : nat) (E : Prop) : Prop := {
  tl_run w b t tmo : I w ->
    let '(reply, w') := run_child w b t tmo in
    I w' /\
    (forall c, reply = Some c -> T t (child_trace c)) /\
    (stop_soon w' = true \/ E \/
     exists c st, reply = Some c /\ 0 < child_pid c /\ child_status c = Some st /\ exec_ms c <> 0);
  tl_trace t x : T t x -> bytes x /\ length x = n;
  tl_skip w : I w -> I (take_skip_request w).2;
  tl_time w : I w -> I (get_cur_time w).2 /\ I (get_cur_time_us w).2
}.

Section Run.
Context {W : Type} `{World W} (cf : conf).
Context (I : W -> Prop) (T : list Z -> list Z -> Prop) (n : nat) (E : Prop).
Context (laws : target_laws I T n E).
Implicit Types s : sess W.

(** What a run changes. *)
Definition ran s (s' : sess W) : Prop :=
  exists t k w b cs,
    s' = set_last_run_timed_out b (set_call_stack cs (set_world w
           (on_state (fun a => set_total_execs k (set_acov (set_trace (acov a) t (actual_counts (acov a))) a)) s))) /\
    bytes t /\ length t = n /\ I w.

Lemma ran_wf s s' : ran s s' -> map_size (acov (state s)) = Z.of_nat n -> queue_wf (state s) -> queue_wf (state s').
Proof.
  intros (t & k & w & b & cs & -> & Ht & Hl & _) Hn Hwf.
  change (queue_wf (set_total_execs k (set_acov (set_trace (acov (state s)) t (actual_counts (acov (state s)))) (state s)))).
  assert (Hw : queue_wf (set_acov (set_trace (acov (state s)) t (actual_counts (acov (state s)))) (state s))).
  { apply queue_wf_acov; [exact Hwf| |done|done]. apply cov_wf_trace; [apply Hwf|exact Ht|].
    rewrite Hl, (wf_trace_len _ (qw_cov _ Hwf)), Hn. lia. }
  destruct Hw. split; assumption.
Qed.

(** A run that was not made. *)
Lemma no_run_spec s s1 t :
  ran s s1 -> (stop_soon (world s1) = true \/ E) ->
  or_fatal E (no_run s1) (fun '(fault, s') => ran s s' /\ (stop_soon (world s') = true \/ T t (trace_of s'))).
Proof.
  intros Hr Ho. unfold no_run. destruct (stop_soon (world s1)) eqn:Es; cbn [or_stop].
  - auto.
  - destruct Ho as [Ho|He]; [discriminate|auto].
Qed.

Lemma ran_intro s (z t : list Z) k w b cs :
  bytes t -> length t = n -> I w ->
  ran s (set_last_run_timed_out b (on_state (set_total_execs k) (set_call_stack cs (put_trace t
           (set_last_run_timed_out false (set_world w (put_trace z s))))))).
Proof. intros Ht Hl Hw. exists t, k, w, b, cs. split; [reflexivity|auto]. Qed.

Lemma fuzz_run_target_spec s tmo :
  I (world s) -> queue_wf (state s) -> map_size (acov (state s)) = Z.of_nat n ->
  or_fatal E (fuzz_run_target cf s tmo) (fun '(fault, s') =>
    ran s s' /\ (stop_soon (world s') = true \/ T (testcase s) (trace_of s'))).
Proof.
  intros Hi Hwf Hn. pose proof (wf_trace _ (qw_cov _ Hwf)) as Hb. pose proof (wf_trace_len _ (qw_cov _ Hwf)) as Hl.
  unfold fuzz_run_target, afl_fsrv_run_target. rewrite Hn, Nat2Z.id in *.
  set (z := replicate n 0 ++ drop n (trace_of s)).
  assert (Hz : bytes z /\ length z = n).
  { subst z. unfold trace_of. rewrite drop_ge by lia. rewrite app_nil_r, length_replicate. split; [|done].
    apply Forall_replicate. unfold is_byte. lia. }
  change (world (put_trace z s)) with (world s).
  change (last_run_timed_out (put_trace z s)) with (last_run_timed_out s).
  change (testcase (put_trace z s)) with (testcase s).
  pose proof (tl_run _ _ _ _ laws (world s) (last_run_timed_out s) (testcase s) tmo Hi) as Hr.
  destruct (run_child _ _ _ _) as [reply w]. destruct Hr as (Hw & Ht & Ho).
  assert (Hz' : forall s1, s1 = set_last_run_timed_out false (set_world w (put_trace z s)) ->
    ran s s1 /\ world s1 = w).
  { intros s1 ->. split; [|done].
    exists z, (total_execs (state s)), w, false, (call_stack s). split; [reflexivity|tauto]. }
  destruct reply as [c|].
  2: { apply no_run_spec; [now apply Hz'|]. destruct Ho as [Ho|[Ho|(c & st & Hc & _)]]; [now left|now right|discriminate]. }
  specialize (Ht c eq_refl). destruct (tl_trace _ _ _ _ laws _ _ Ht) as [Htb Htl].
  destruct (Z.leb_spec (child_pid c) 0) as [Hp|Hp].
  { apply no_run_spec; [now apply Hz'|]. destruct Ho as [Ho|[Ho|(c' & st & Hc & Hp' & _)]]; [now left|now right|].
    injection Hc as <-. lia. }
  set (cs := if call_stack_file cf then match child_stack c with Some t => Some t | None => call_stack s end
             else call_stack s).
  assert (Hleave : forall s1 b, s1 = set_last_run_timed_out b
      (leave cf c (set_last_run_timed_out false (set_world w (put_trace z s)))) -> ran s s1 /\ world s1 = w).
  { intros s1 b ->. split; [|done].
    exists (child_trace c), (total_execs (state s)), w, b, cs. split; [reflexivity|auto]. }
  destruct (child_status c) as [st|] eqn:Est.
  2: { apply no_run_spec; [now eapply Hleave|]. destruct Ho as [Ho|[Ho|(c' & st & Hc & _ & Hs & _)]]; [now left|now right|].
       injection Hc as <-. congruence. }
  destruct (negb (tmo <? exec_ms c) && (exec_ms c =? 0)) eqn:Em.
  { apply no_run_spec; [now eapply Hleave|]. destruct Ho as [Ho|[Ho|(c' & st' & Hc & _ & _ & Hm)]]; [now left|now right|].
    injection Hc as <-. lia. }
  cbn [or_stop]. split; [|right; exact Ht].
  exists (child_trace c), (u64 (total_execs (state s) + 1)), w, (tmo <? exec_ms c), cs. split; [reflexivity|auto].
Qed.
End Run.

(** The outcomes of a run. *)
Lemma fuzz_run_outcome {W} `{World W} cf (s : sess W) tmo flt s' :
  fuzz_run_target cf s tmo = Ok (flt, s') -> flt <> FSRV_RUN_NOINST /\ flt <> FSRV_RUN_NOBITS.
Proof.
  unfold fuzz_run_target, afl_fsrv_run_target. destruct (run_child _ _ _ _) as [reply w].
  assert (Hno : forall s1, no_run s1 = Ok (flt, s') -> flt = FSRV_RUN_OK).
  { intros s1. unfold no_run. destruct (stop_soon (world s1)); [|discriminate]. congruence. }
  destruct reply as [c|]; [|intros E; now rewrite (Hno _ E)].
  destruct (child_pid c <=? 0); [intros E; now rewrite (Hno _ E)|].
  destruct (child_status c); [|intros E; now rewrite (Hno _ E)].
  destruct (_ && _); [intros E; now rewrite (Hno _ E)|]. intros [= <- _].
  unfold outcome. repeat case_match; done.
Qed.

(** A run that was made within [tmo] milliseconds ends on [t] with [flt]; one
    with [FSRV_RUN_NOINST] is a run that leaves no tuple in a map like that of
    [c0]. *)
Definition run_ends {W} `{World W} (cf : conf) (I : W -> Prop) (tmo : Z) (c0 : cov) (t : list Z)
    (flt : fsrv_run_result) : Prop :=
  exists w b c w' st, I w /\ run_child w b t tmo = (Some c, w') /\ child_status c = Some st /\
    match flt with
    | FSRV_RUN_NOINST => count_bytes c0 (child_trace c) = 0
    | _ => outcome cf (child_trace c) (tmo <? exec_ms c) st = flt
    end.

(** What the target gets of a test case of [len] bytes that may be shorter than
    [min_length]. *)
Definition handed (cf : conf) (mem : list Z) (len : Z) : list Z :=
  let len := if max_length cf <? len then max_length cf else len in
  take (Z.to_nat (if use_shmem_fuzz cf && (MAX_FILE <? len) then MAX_FILE else len)) mem.

Lemma fuzz_run_seen {W} `{World W} cf I (s : sess W) tmo flt s' :
  I (world s) -> fuzz_run_target cf s tmo = Ok (flt, s') ->
  (flt = FSRV_RUN_OK /\ stop_soon (world s') = true) \/
  (run_ends cf I tmo (acov (state s)) (testcase s) flt /\
   (count_bytes (acov (state s)) (trace_of s') = 0 -> run_ends cf I tmo (acov (state s)) (testcase s) FSRV_RUN_NOINST)).
Proof.
  intros Hi Ef. pose proof (fuzz_run_outcome cf s tmo flt s' Ef) as [Hno _]. revert Ef.
  unfold fuzz_run_target, afl_fsrv_run_target. set (s1 := put_trace _ s).
  change (world s1) with (world s). change (testcase s1) with (testcase s).
  assert (Hstop : forall s2, no_run s2 = Ok (flt, s') -> flt = FSRV_RUN_OK /\ stop_soon (world s') = true).
  { intros s2. unfold no_run. destruct (stop_soon (world s2)) eqn:Es; [|discriminate]. now intros [= <- <-]. }
  destruct (run_child (world s) (last_run_timed_out s1) (testcase s) tmo) as [[c|] w'] eqn:Er; [|eauto].
  destruct (child_pid c <=? 0); [eauto|].
  destruct (child_status c) as [st|] eqn:Est; [|eauto].
  destruct (_ && _); [eauto|]. intros [= <- <-]. right.
  split; [|intros Hz]; exists (world s), (last_run_timed_out s1), c, w', st; (do 3 (split; [done|])); [|exact Hz].
  set (o := outcome _ _ _ _) in *. now destruct o.
Qed.

(** ** A target for examples: it aborts, leaving the trace [tr] gives. *)

Definition toy (tr : list Z -> list Z) : World unit := {|
  run_child := fun _ _ t _ => (Some (mkChild 7 1 (Some 6) (tr t) None), tt);
  stop_soon := fun _ => false;
  take_skip_request := fun _ => (false, tt);
  get_cur_time := fun _ => (1000, tt);
  get_cur_time_us := fun _ => (1000000, tt)
|}.

Lemma toy_laws tr n :
  (forall t, bytes (tr t) /\ length (tr t) = n) ->
  @target_laws unit (toy tr) (fun _ => True) (fun t x => x = tr t) n False.
Proof.
  intros Htr. split; cbn; auto.
  - intros _ _ t _ _. split; [done|]. split; [now intros c [= <-]|]. right; right.
    do 2 eexists. do 2 (split; [reflexivity || lia|]). split; [reflexivity|done].
  - intros t x ->. apply Htr.
Qed.

Definition conf0 : conf :=
  mkConf 1000 2000 1 MAX_FILE 1 false false false false true true false 0 false [] [] 1 10.

Definition stats0 : stats := mkStats 0 0 0 0 0 0 0 0 0 0 0 0 0 0 0.

Definition sess0 (a : afl) : sess unit :=
  mkSess a (mkCache 0 1 0 0 0 0 0 [None] false) tt [] false None site0 [] ∅ ∅ stats0
    (mkOp None 0 0 (-1) 0 [] 0 0 0) (replicate 64 0) (replicate 64 0) (replicate 64 0) 0 0.

(** A child of a persistent target that stopped itself with [SIGSTOP], as it
    does after every input, counts as crashed when 19 is the exit code that
    marks a crash. *)
Lemma stopped_child_looks_crashed :
  crashed (mkConf 0 0 0 0 0 false false false false true false true 19 false [] [] 0 0) 0x137f = true.
Proof. reflexivity. Qed.
