(* ===== verification/Files.v ===== *)
(** Writing files: [ck_write] of [include/debug.h] and the loop that
    [trim_case] of [src/afl-fuzz-run.c] has of its own. *)

From S2P Require Import Prelude Words.

Section Write.
(** What [write] returns when it is asked to write [n] bytes. *)
Context (accept : Z -> Z).

(** The loop of [ck_write]; [rest] is the buffer from [_off] on, [out] what is
    in the file. *)
Fixpoint ck_write_loop (fuel : nat) (_written _len : Z) (rest out : list Z) : res (list Z) :=
  match fuel with
  | O => Err OutOfFuel
  | S f =>
      let _res := accept _len in
      let out := out ++ take (Z.to_nat _res) rest in
      if negb (_res =? _len) && ((0 <? _res) && negb (_written + _res =? _len))
      then ck_write_loop f (_written + _res) (_len - _res) (drop (Z.to_nat _res) rest) out
      else Ok out
  end.

Definition ck_write (buf : list Z) (len : Z) : res (list Z) :=
  if len <=? 0 then Ok [] else
  if Z.of_nat (length buf) <? len then Err Fault else
  ck_write_loop (Z.to_nat len) 0 len (take (Z.to_nat len) buf) [].

(** [while (written < q->len) ...]: every call starts at [in_buf]. *)
Fixpoint rewrite_loop (fuel : nat) (written len : Z) (in_buf out : list Z) : res (list Z) :=
  if len <=? written then Ok out else
  match fuel with
  | O => Err OutOfFuel
  | S f =>
      let result := accept (len - written) in
      if 0 <? result
      then rewrite_loop f (written + result) len in_buf (out ++ take (Z.to_nat result) in_buf)
      else rewrite_loop f written len in_buf out
  end.
End Write.

(** A system call that writes at most what it is asked to. *)
Definition posix_write (accept : Z -> Z) : Prop := forall n, 0 < n -> accept n <= n.

Lemma ck_write_loop_prefix accept fuel written len rest out :
  posix_write accept -> 0 < len -> (Z.to_nat len <= fuel)%nat -> Z.of_nat (length rest) = len ->
  exists k, ck_write_loop accept fuel written len rest out = Ok (out ++ take k rest) /\
    (k <= length rest)%nat /\ (accept len = len -> k = length rest).
Proof.
  intros Ha. revert written len rest out. induction fuel as [|f IH]; intros written len rest out Hp Hf Hl; [lia|].
  cbn [ck_write_loop]. destruct (_ && _) eqn:Ec.
  - rewrite !andb_true_iff, !negb_true_iff, !Z.eqb_neq, Z.ltb_lt in Ec. destruct Ec as (Hne & H0 & _).
    pose proof (Ha len Hp) as Hle.
    destruct (IH (written + accept len) (len - accept len) (drop (Z.to_nat (accept len)) rest)
      (out ++ take (Z.to_nat (accept len)) rest)) as (k & E & Hk & _);
      [lia|lia|rewrite length_drop; lia|]. rewrite length_drop in Hk.
    exists (Z.to_nat (accept len) + k)%nat. rewrite E. split; [|split; [lia|contradiction]].
    rewrite <- app_assoc. f_equal. f_equal. now rewrite <- take_take_drop.
  - exists (Nat.min (Z.to_nat (accept len)) (length rest)). split; [|split; [lia|intros E; lia]].
    f_equal. f_equal. destruct (Nat.le_gt_cases (Z.to_nat (accept len)) (length rest)).
    + now rewrite Nat.min_l by lia.
    + rewrite Nat.min_r by lia. rewrite !take_ge by lia. done.
Qed.

(** [ck_write] always returns, whatever the system writes, and leaves a
    prefix of the buffer in the file: all of it if the system takes all in one
    go, but possibly less, without a message. *)
Lemma ck_write_spec accept buf len :
  posix_write accept -> 0 <= len <= Z.of_nat (length buf) ->
  exists k, ck_write accept buf len = Ok (take k buf) /\ Z.of_nat k <= len /\
    (accept len = len -> Z.of_nat k = len).
Proof.
  intros Ha Hl. unfold ck_write. destruct (Z.leb_spec len 0).
  - exists 0%nat. split; [done|lia].
  - destruct (Z.ltb_spec (Z.of_nat (length buf)) len); [lia|].
    assert (Et : length (take (Z.to_nat len) buf) = Z.to_nat len) by (rewrite length_take; lia).
    destruct (ck_write_loop_prefix accept (Z.to_nat len) 0 len (take (Z.to_nat len) buf) [] Ha)
      as (k & E & Hk & Hw); [lia|lia|lia|].
    exists k. rewrite E, take_take, Nat.min_l by lia. split; [done|lia].
Qed.

(** Three bytes at first, then at most four. *)
Definition hesitant (n : Z) : Z := if n =? 10 then 3 else if n <? 4 then n else 4.

Lemma hesitant_posix : posix_write hesitant.
Proof. intros n Hn. unfold hesitant. destruct (Z.eqb_spec n 10); [lia|]. destruct (Z.ltb_spec n 4); lia. Qed.

Lemma ck_write_hesitant :
  exists k, ck_write hesitant [0; 1; 2; 3; 4; 5; 6; 7; 8; 9] 10 = Ok (take k [0; 1; 2; 3; 4; 5; 6; 7; 8; 9]) /\
    Z.of_nat k <= 10.
Proof.
  destruct (ck_write_spec hesitant [0; 1; 2; 3; 4; 5; 6; 7; 8; 9] 10 hesitant_posix ltac:(cbn; lia))
    as (k & E & Hk & _). exists k. exact (conj E Hk).
Defined.

(** [_written + _res != _len] compares with what is left: seven of the ten
    bytes arrive, and the loop is content. *)
Lemma ck_write_truncates :
  ck_write hesitant [0; 1; 2; 3; 4; 5; 6; 7; 8; 9] 10 = Ok [0; 1; 2; 3; 4; 5; 6].
Proof. reflexivity. Qed.

(** A failed write goes unnoticed. *)
Lemma ck_write_ignores_failure : ck_write (fun _ => -1) [1; 2; 3] 3 = Ok [].
Proof. reflexivity. Qed.

(** A write that takes nothing: the trimmer's loop tries it again. *)
Definition can_stall (accept : Z -> Z) : Prop := exists k, 0 < k /\ accept k <= 0.

Lemma rewrite_loop_length accept fuel w len buf out :
  posix_write accept -> 0 <= w <= len -> len <= Z.of_nat (length buf) -> len - w <= Z.of_nat fuel ->
  match rewrite_loop accept fuel w len buf out with
  | Ok c => Z.of_nat (length c) = Z.of_nat (length out) + (len - w)
  | Err e => e = OutOfFuel /\ can_stall accept
  end.
Proof.
  intros Hp. revert w out. induction fuel as [|f IH]; intros w out Hw Hl Hf; cbn [rewrite_loop];
    (destruct (Z.leb_spec len w); [lia|]); [lia|].
  destruct (Z.ltb_spec 0 (accept (len - w))) as [Hpos|Hstall].
  - pose proof (Hp (len - w) ltac:(lia)) as Hle.
    pose proof (IH (w + accept (len - w)) (out ++ take (Z.to_nat (accept (len - w))) buf) ltac:(lia) Hl ltac:(lia)) as Hi.
    destruct (rewrite_loop _ _ _ _ _ _) as [c|e]; [|exact Hi]. rewrite length_app, length_take in Hi. lia.
  - assert (Hs : can_stall accept) by (exists (len - w); split; [lia|exact Hstall]). clear IH Hf.
    assert (He : forall f, rewrite_loop accept f w len buf out = Err OutOfFuel).
    { induction f0 as [|f0 IH]; cbn [rewrite_loop]; rewrite (proj2 (Z.leb_gt len w)) by lia; [done|].
      now rewrite (proj2 (Z.ltb_ge 0 _)) by lia. }
    rewrite He. now split.
Qed.

(** The trimmer's loop writes as many bytes as the entry has, unless a write
    takes nothing; they are the buffer if the system takes all in one go, and
    otherwise begin with its first bytes again. *)
Lemma rewrite_loop_spec accept buf len :
  posix_write accept -> 0 < len <= Z.of_nat (length buf) ->
  match rewrite_loop accept (Z.to_nat len) 0 len buf [] with
  | Ok c => Z.of_nat (length c) = len /\ (accept len = len -> c = take (Z.to_nat len) buf)
  | Err e => e = OutOfFuel /\ can_stall accept
  end.
Proof.
  intros Hp Hl. pose proof (rewrite_loop_length accept (Z.to_nat len) 0 len buf [] Hp ltac:(lia) ltac:(lia) ltac:(lia)) as Hn.
  destruct (rewrite_loop _ _ _ _ _ _) as [c|e] eqn:E; [|exact Hn]. split; [cbn [length] in Hn; lia|]. intros Ha.
  destruct (Z.to_nat len) as [|k] eqn:Ek; [lia|]. cbn [rewrite_loop] in E. rewrite Z.sub_0_r, Ha in E.
  rewrite (proj2 (Z.leb_gt len 0)), (proj2 (Z.ltb_lt 0 len)) in E by lia.
  destruct k; cbn [rewrite_loop] in E; rewrite (proj2 (Z.leb_le len (0 + len))), Ek in E by lia; cbn in E; congruence.
Qed.

Lemma rewrite_loop_restarts :
  rewrite_loop (fun n => if n =? 6 then 4 else n) 6 0 6 [1; 2; 3; 4; 5; 6] [] = Ok [1; 2; 3; 4; 1; 2].
Proof. reflexivity. Qed.
