(* ===== verification/Trim.v ===== *)
(** Trimming: [trim_case] of [src/afl-fuzz-run.c], without custom mutators. *)

From S2P Require Import Prelude Words Arith Float State Bitmap Text Queue TestcaseCache Callstack Session Files.

Definition TRIM_MIN_BYTES : Z := 4.
Definition TRIM_START_STEPS : Z := 16.
Definition TRIM_END_STEPS : Z := 1024.

(** [memmove(buf + dst, buf + src, len)]. *)
Definition memmove (dst src len : nat) (buf : list Z) : list Z :=
  take dst buf ++ take len (drop src buf) ++ drop (dst + len) buf.

(** The locals of [trim_case] its loops change. *)
Record trim := mkTrim {
  in_buf : list Z;
  len_p2 : Z;
  needs_write : bool;
  fault : fsrv_run_result
}.

Section Trim.
Context {W : Type} `{World W} (fl : flavour) (cf : conf).

(** [hash64] of the trace, and what [write] takes of so many bytes. *)
Context (hash64 : list Z -> Z) (accept : Z -> Z).

(** [p] is the entry; [cached] says whether [in_buf] is its [testcase_buf]. *)
Context (p : nat) (cached : bool).
Implicit Types s : sess W.

(** The deletion had no impact on the trace: make it permanent. *)
Definition keep_removal (q : queue_entry) (remove_pos trim_avail : Z) (t : trim) (flt : fsrv_run_result) s
    : trim * sess W :=
  let move_tail := u32 (q_len q - remove_pos - trim_avail) in
  let len := u32 (q_len q - trim_avail) in
  let s := on_state (upd p (set_q_len len)) s in
  let buf := memmove (Z.to_nat remove_pos) (Z.to_nat (remove_pos + trim_avail)) (Z.to_nat move_tail) (in_buf t) in
  let s := if cached then on_state (upd p (set_testcase_buf (Some buf))) s else s in
  let s := if needs_write t then s else set_clean_trace (trace_of s) s in
  (mkTrim buf (next_pow2 len) true flt, s).

(** [while (remove_pos < q->len)]; the first component says that trimming was
    aborted. *)
Fixpoint trim_pass (fuel : nat) (remove_len remove_pos : Z) (t : trim) s : res (bool * trim * sess W) :=
  q ← deref (state s) p;
  if negb (remove_pos <? q_len q) then Ok (false, t, s) else
  match fuel with
  | O => Err OutOfFuel
  | S f =>
      let trim_avail := Z.min remove_len (u32 (q_len q - remove_pos)) in
      s ← write_with_gap s (in_buf t) (q_len q) remove_pos trim_avail;
      '(flt, s) ← fuzz_run_target cf s (exec_tmout cf);
      if stop_soon (world s) || bool_decide (flt = FSRV_RUN_ERROR)
      then Ok (true, mkTrim (in_buf t) (len_p2 t) (needs_write t) flt, s) else
      let s := on_stat (fun x => set_trim_execs (u64 (trim_execs x + 1)) x) s in
      let s := on_state (fun a => set_acov (classify_counts fl (acov a)) a) s in
      let cksum := hash64 (trace_of s) in
      if cksum =? exec_cksum q then
        let '(t, s) := keep_removal q remove_pos trim_avail t flt s in
        trim_pass f remove_len remove_pos t (set_cur_stage (u32 (cur_stage s + 1)) s)
      else
        trim_pass f remove_len (u32 (remove_pos + remove_len))
          (mkTrim (in_buf t) (len_p2 t) (needs_write t) flt) (set_cur_stage (u32 (cur_stage s + 1)) s)
  end.

(** Until the number of steps gets too high or the stepover too small. *)
Fixpoint trim_passes (fuel : nat) (remove_len : Z) (t : trim) s : res (bool * trim * sess W) :=
  if negb (Z.max (len_p2 t / TRIM_END_STEPS) TRIM_MIN_BYTES <=? remove_len) then Ok (false, t, s) else
  match fuel with
  | O => Err OutOfFuel
  | S f =>
      q ← deref (state s) p;
      let s := set_max_stage (q_len q / remove_len) (set_cur_stage 0 s) in
      '(aborted, t, s) ← trim_pass (Z.to_nat (q_len q)) remove_len remove_len t s;
      if aborted : bool then Ok (true, t, s) else trim_passes f (remove_len .>> 1) t s
  end.

(** The file of the entry, the cached test case and the scores follow. *)
Definition write_trimmed (orig_len : Z) (t : trim) s : res (sess W) :=
  q ← deref (state s) p;
  content ← (if no_unlink cf then rewrite_loop accept (Z.to_nat (q_len q)) 0 (q_len q) (in_buf t) []
             else ck_write accept (in_buf t) (q_len q));
  let s := set_queue_dir (<[fname q := content]> (queue_dir s)) s in
  '(c, a) ← queue_testcase_retake_mem (tcache s) (state s) p (if cached then None else Some (in_buf t))
              (q_len q) orig_len;
  let s := set_state a (set_tcache c s) in
  let n := Z.to_nat (map_size (acov (state s))) in
  let s := put_trace (take n (clean_trace s) ++ drop n (trace_of s)) s in
  a ← update_bitmap_score (state s) p;
  Ok (set_state a s).

Definition trim_case (buf : list Z) s : res (fsrv_run_result * list Z * sess W) :=
  q ← deref (state s) p;
  if q_len q <? 5 then Ok (FSRV_RUN_OK, buf, s) else
  let s := on_stat (fun x => set_bytes_trim_in (u64 (bytes_trim_in x + q_len q)) x) s in
  let p2 := next_pow2 (q_len q) in
  let remove_len := Z.max (p2 / TRIM_START_STEPS) TRIM_MIN_BYTES in
  '(aborted, t, s) ← trim_passes 32 remove_len (mkTrim buf p2 false FSRV_RUN_OK) s;
  s ← (if negb aborted && needs_write t then write_trimmed (q_len q) t s else Ok s);
  q ← deref (state s) p;
  let s := on_stat (fun x => set_bytes_trim_out (u64 (bytes_trim_out x + q_len q)) x) s in
  Ok (fault t, in_buf t, s).
End Trim.
