(* ===== verification/TrimThms.v ===== *)
(** Trimming ends, and what is left of the input runs like the input did. *)

From S2P Require Import Prelude Words Arith Float State Bitmap BitmapThms Text Queue QueueScore TestcaseCache Callstack Session SessionThms Files Trim.

(** ** Inputs with a gap *)

Lemma take_gap {A} k (c : list A) pos avail : (k <= pos <= length c)%nat -> take k (gap c pos avail) = take k c.
Proof.
  intros H. unfold gap. rewrite take_app_le by (rewrite length_take; lia).
  rewrite take_take. f_equal. lia.
Qed.

Lemma drop_take_comm {A} (l : list A) i j : drop i (take j l) = take (j - i) (drop i l).
Proof. apply skipn_firstn_comm. Qed.

Lemma alter_insert_same {A} (f : A -> A) i x (l : list A) : alter f i (<[i:=x]> l) = <[i:=f x]> l.
Proof. revert i; induction l as [|y l IH]; intros [|i]; try done. cbn. f_equal. apply IH. Qed.

Lemma memmove_gap buf len pos avail :
  (pos + avail <= len <= length buf)%nat ->
  take (len - avail) (memmove pos (pos + avail) (len - pos - avail) buf) = gap (take len buf) pos avail /\
  length (memmove pos (pos + avail) (len - pos - avail) buf) = length buf.
Proof.
  intros H. unfold memmove, gap. split.
  - rewrite app_assoc, take_app_le by (rewrite length_app, !length_take, length_drop; lia).
    rewrite take_ge by (rewrite length_app, !length_take, length_drop; lia).
    rewrite take_take, drop_take_comm. f_equal; f_equal; lia.
  - rewrite !length_app, !length_take, !length_drop. lia.
Qed.

Lemma write_with_gap_eq {W} (s : sess W) buf len pos avail :
  0 <= pos -> 0 < avail -> pos + avail <= len -> len <= Z.of_nat (length buf) -> len < 2 ^ 32 ->
  write_with_gap s buf len pos avail
  = Ok (set_testcase (gap (take (Z.to_nat len) buf) (Z.to_nat pos) (Z.to_nat avail)) s).
Proof.
  intros Hp Ha Hl Hb Hm. unfold write_with_gap, gap.
  rewrite (uwrap_id 32 (len - pos - avail)), (uwrap_id 32 (len - avail)) by lia.
  rewrite (proj2 (Z.ltb_ge _ _)) by lia. do 2 f_equal.
  rewrite take_ge by (rewrite length_app, !length_take, length_drop; lia).
  rewrite take_take, drop_take_comm. f_equal; f_equal; lia || (f_equal; lia).
Qed.

(** ** The loops *)

Section Trim.
Context {W : Type} `{World W} (fl : flavour) (cf : conf) (hash64 : list Z -> Z) (accept : Z -> Z).
Context (p : nat) (cached : bool).

(** The target's trace is a function of its input. *)
Context (I : W -> Prop) (tr : list Z -> list Z) (n : nat) (E : Prop).
Context (laws : target_laws I (fun t x => x = tr t) n E).
Implicit Types s : sess W.

(** The checksum [trim_case] compares. *)
Definition checksum (t : list Z) : Z := hash64 (map count_class_lookup8 (tr t)).

(** The entry and its buffer before trimming. *)
Context (s0 : sess W) (q0 : queue_entry) (buf0 : list Z).
Context (Hq0 : queue_buf (state s0) !! p = Some q0).
Context (Hlen0 : 0 < q_len q0 <= MAX_FILE /\ q_len q0 <= Z.of_nat (length buf0)).
Context (Hcached : cached = true -> testcase_buf q0 = Some buf0).
Context (Hsum0 : checksum (take (Z.to_nat (q_len q0)) buf0) = exec_cksum q0).
Let c0 := take (Z.to_nat (q_len q0)) buf0.

(** The entry while it is trimmed. *)
Definition trimmed_entry (len : Z) (buf : list Z) : queue_entry :=
  set_testcase_buf (if cached then Some buf else testcase_buf q0) (set_q_len len q0).

(** What is left of the input. *)
Record left_over (len : Z) (buf : list Z) : Prop := {
  lo_len : 0 < len <= q_len q0;
  lo_buf : length buf = length buf0;
  lo_sub : sublist (take (Z.to_nat len) buf) c0;
  lo_head : take 4 (take (Z.to_nat len) buf) = take 4 c0;
  lo_sum : checksum (take (Z.to_nat len) buf) = exec_cksum q0
}.

Record trim_inv (len : Z) (t : trim) s : Prop := {
  ti_world : I (world s);
  ti_wf : queue_wf (state s);
  ti_size : map_size (acov (state s)) = Z.of_nat n;
  ti_queue : queue_buf (state s) = <[p := trimmed_entry len (in_buf t)]> (queue_buf (state s0));
  ti_left : left_over len (in_buf t);
  ti_write : needs_write t = false -> len = q_len q0 /\ in_buf t = buf0;
  ti_clean : needs_write t = true -> bytes (clean_trace s) /\ length (clean_trace s) = n;
  ti_rest : tcache s = tcache s0 /\ queue_dir s = queue_dir s0
}.

Lemma left_over_start : left_over (q_len q0) buf0.
Proof. split; auto with lia. Qed.

Lemma trimmed_lookup len t s :
  trim_inv len t s -> queue_buf (state s) !! p = Some (trimmed_entry len (in_buf t)).
Proof.
  intros Hi. rewrite (ti_queue _ _ _ Hi). apply list_lookup_insert_eq. eapply lookup_lt_Some, Hq0.
Qed.

Lemma trimmed_deref len t s : trim_inv len t s -> deref (state s) p = Ok (trimmed_entry len (in_buf t)).
Proof. intros Hi. unfold deref. now apply rd_ok, trimmed_lookup. Qed.

(** One more removal. *)
Lemma left_over_gap len buf pos avail buf' :
  left_over len buf -> 4 <= pos -> 0 < avail -> pos + avail <= len ->
  take (Z.to_nat (len - avail)) buf' = gap (take (Z.to_nat len) buf) (Z.to_nat pos) (Z.to_nat avail) ->
  length buf' = length buf -> checksum (take (Z.to_nat (len - avail)) buf') = exec_cksum q0 ->
  left_over (len - avail) buf'.
Proof.
  intros [H1 H2 H3 H4 H5] Hp Ha Hl Et El Es. destruct Hlen0 as [L1 L2].
  split; [lia|congruence| | |exact Es]; rewrite Et.
  - etransitivity; [apply gap_sublist|exact H3].
  - rewrite take_gap; [exact H4|]. rewrite length_take. lia.
Qed.

(** The invariant does not look at [fault], the testcase handed over, the
    counters and the stage's progress. *)
Lemma trim_inv_fault len t s flt :
  trim_inv len t s -> trim_inv len (mkTrim (in_buf t) (len_p2 t) (needs_write t) flt) s.
Proof. intros []. split; assumption. Qed.

Lemma trim_inv_same len t s s' :
  world s' = world s -> state s' = state s -> tcache s' = tcache s -> queue_dir s' = queue_dir s ->
  clean_trace s' = clean_trace s -> trim_inv len t s -> trim_inv len t s'.
Proof. intros E1 E2 E3 E4 E5 []. split; rewrite ?E1, ?E2, ?E3, ?E4, ?E5; assumption. Qed.

Lemma trim_inv_ran len t s s' : ran I n s s' -> trim_inv len t s -> trim_inv len t s'.
Proof.
  intros Hr []. pose proof (ran_wf I n s s' Hr ti_size0 ti_wf0) as Hwf.
  destruct Hr as (t' & k & w & b & cs & -> & _ & _ & Hw). split; assumption.
Qed.

Lemma trim_inv_classify len t s :
  trim_inv len t s -> trim_inv len t (on_state (fun a => set_acov (classify_counts fl (acov a)) a) s).
Proof.
  intros []. split; try assumption.
  - change (queue_wf (set_acov (classify_counts fl (acov (state s))) (state s))). now apply queue_wf_classify.
  - rewrite <- ti_size0. apply (classify_same fl (acov (state s))).
Qed.

Lemma trace_classified s :
  queue_wf (state s) ->
  trace_of (on_state (fun a => set_acov (classify_counts fl (acov a)) a) s) = map count_class_lookup8 (trace_of s).
Proof.
  intros Hwf. unfold trace_of, on_state. cbn [state set_state acov set_acov].
  now rewrite classify_counts_eq by apply Hwf.
Qed.

(** The removal that was tried is made permanent. *)
Lemma trim_inv_keep len t s pos avail flt :
  trim_inv len t s -> 4 <= pos -> 0 < avail -> pos + avail <= len ->
  bytes (trace_of s) -> length (trace_of s) = n ->
  checksum (gap (take (Z.to_nat len) (in_buf t)) (Z.to_nat pos) (Z.to_nat avail)) = exec_cksum q0 ->
  let '(t', s') := keep_removal p cached (trimmed_entry len (in_buf t)) pos avail t flt s in
  trim_inv (len - avail) t' s'.
Proof.
  intros Hi Hp Ha Hl Hb Hn Hs. pose proof (ti_left _ _ _ Hi) as Hlo. destruct Hlen0 as [L1 L2].
  pose proof (lo_len _ _ Hlo) as Hll. pose proof (lo_buf _ _ Hlo) as Hbl. unfold MAX_FILE in L1.
  unfold keep_removal. cbn [q_len trimmed_entry set_testcase_buf set_q_len].
  rewrite (uwrap_id 32 (len - pos - avail)), (uwrap_id 32 (len - avail)) by lia.
  destruct (memmove_gap (in_buf t) (Z.to_nat len) (Z.to_nat pos) (Z.to_nat avail)) as [Eg El]; [lia|].
  replace (Z.to_nat (pos + avail)) with (Z.to_nat pos + Z.to_nat avail)%nat by lia.
  replace (Z.to_nat (len - pos - avail)) with (Z.to_nat len - Z.to_nat pos - Z.to_nat avail)%nat by lia.
  set (buf := memmove _ _ _ (in_buf t)) in *.
  replace (Z.to_nat len - Z.to_nat avail)%nat with (Z.to_nat (len - avail)) in Eg by lia.
  assert (Hlo' : left_over (len - avail) buf).
  { apply (left_over_gap len (in_buf t) pos avail buf); auto. now rewrite Eg. }
  destruct Hi as [I1 I2 I3 I4 I5 I6 I7 [I8 I9]].
  assert (Hw : queue_wf (upd p (set_q_len (len - avail)) (state s))) by (now apply queue_wf_upd).
  assert (Hc : forall s1, state s1 = state s -> queue_buf (state (if cached
      then on_state (upd p (set_testcase_buf (Some buf))) (on_state (upd p (set_q_len (len - avail))) s1)
      else on_state (upd p (set_q_len (len - avail))) s1)) = <[p:=trimmed_entry (len - avail) buf]> (queue_buf (state s0))).
  { intros s1 E1. unfold trimmed_entry in *. destruct cached; unfold on_state; cbn [state set_state];
      rewrite !upd_queue_buf, E1, I4, !alter_insert_same; reflexivity. }
  specialize (Hc s eq_refl).
  assert (Hs' : forall s1, s1 = (if cached then on_state (upd p (set_testcase_buf (Some buf)))
        (on_state (upd p (set_q_len (len - avail))) s) else on_state (upd p (set_q_len (len - avail))) s) ->
      world s1 = world s /\ queue_wf (state s1) /\ acov (state s1) = acov (state s) /\ tcache s1 = tcache s /\
      queue_dir s1 = queue_dir s /\ clean_trace s1 = clean_trace s).
  { intros s1 ->. split; [now destruct cached|]. split; [|now destruct cached].
    destruct cached; [now apply queue_wf_upd|exact Hw]. }
  set (s1 := if cached then _ else _) in *. destruct (Hs' s1 eq_refl) as (J1 & J2 & J3 & J4 & J5 & J6).
  assert (Ht : trace_of s1 = trace_of s) by (unfold trace_of; now rewrite J3). clearbody s1. clear Hs'.
  destruct (needs_write t) eqn:En.
  - specialize (I7 eq_refl). split; rewrite ?J1, ?J3, ?J4, ?J5, ?J6; auto. discriminate.
  - split; cbn [world state tcache queue_dir clean_trace set_clean_trace]; rewrite ?J1, ?J3, ?J4, ?J5, ?Ht; auto. discriminate.
Qed.

(** What the loops end with; aborted or not, the invariant holds. *)
Definition pass_done (r : bool * trim * sess W) : Prop :=
  let '(aborted, t, s) := r in
  (exists len, trim_inv len t s) /\
  (aborted = true -> stop_soon (world s) = true \/ fault t = FSRV_RUN_ERROR).

Lemma trim_pass_spec fuel remove_len remove_pos len t s :
  4 <= remove_len < 2 ^ 30 -> 4 <= remove_pos -> trim_inv len t s -> len - remove_pos <= Z.of_nat fuel ->
  or_fatal E (trim_pass fl cf hash64 p cached fuel remove_len remove_pos t s) pass_done.
Proof.
  intros Hr. revert remove_pos len t s. induction fuel as [|f IH]; intros pos len t s Hp Hi Hf;
    pose proof (lo_len _ _ (ti_left _ _ _ Hi)) as Hll; pose proof (lo_buf _ _ (ti_left _ _ _ Hi)) as Hbl;
    destruct Hlen0 as [L1 L2]; unfold MAX_FILE in L1;
    cbn [trim_pass]; rewrite (trimmed_deref len t s Hi); cbn [mbind res_bind];
    cbn [q_len exec_cksum trimmed_entry set_testcase_buf set_q_len]; fold (trimmed_entry len (in_buf t));
    destruct (Z.ltb_spec pos len) as [Hlt|Hge]; cbn [negb];
    try (cbn [or_stop pass_done]; split; [eauto|discriminate]); [lia|].
  rewrite (uwrap_id 32 (len - pos)) by lia. set (avail := Z.min remove_len (len - pos)).
  assert (Ha : 0 < avail /\ pos + avail <= len) by lia.
  rewrite write_with_gap_eq by lia. cbn [mbind res_bind].
  set (c := gap _ _ _). set (s1 := set_testcase c s).
  assert (Hi1 : trim_inv len t s1) by (exact (trim_inv_same len t s s1 eq_refl eq_refl eq_refl eq_refl eq_refl Hi)).
  apply or_stop_bind.
  eapply or_stop_mono; [exact (fuzz_run_target_spec cf I _ n E laws s1 (exec_tmout cf)
    (ti_world _ _ _ Hi1) (ti_wf _ _ _ Hi1) (ti_size _ _ _ Hi1))|].
  intros [flt s2] [Hran Htr]. pose proof (trim_inv_ran len t s1 s2 Hran Hi1) as Hi2.
  destruct (stop_soon (world s2)) eqn:Es; cbn [orb].
  { cbn [or_stop pass_done]. split; [|auto]. exists len. now apply (trim_inv_fault len t s2 flt). }
  destruct (bool_decide (flt = FSRV_RUN_ERROR)) eqn:Ee.
  { cbn [or_stop pass_done]. split; [|intros _; right; exact (bool_decide_eq_true_1 _ Ee)].
    exists len. now apply (trim_inv_fault len t s2 flt). }
  destruct Htr as [Htr|Htr]; [congruence|]. change (testcase s1) with c in Htr.
  cbv zeta. set (s3 := on_stat _ s2). set (s4 := on_state _ s3).
  assert (Hi4 : trim_inv len t s4)
    by (apply trim_inv_classify; exact (trim_inv_same len t s2 s3 eq_refl eq_refl eq_refl eq_refl eq_refl Hi2)).
  assert (Et : hash64 (trace_of s4) = checksum c).
  { unfold s4. rewrite trace_classified by exact (ti_wf _ _ _ Hi2). change (trace_of s3) with (trace_of s2).
    now rewrite Htr. }
  rewrite Et. clearbody s4. destruct (Z.eqb_spec (checksum c) (exec_cksum q0)) as [Ec|_].
  - pose proof (trim_inv_keep len t s4 pos avail flt Hi4 Hp (proj1 Ha) (proj2 Ha)) as Hk.
    pose proof (qw_cov _ (ti_wf _ _ _ Hi4)) as Hcov.
    specialize (Hk (wf_trace _ Hcov)). rewrite <- (Nat2Z.id n), <- (ti_size _ _ _ Hi4) in Hk.
    specialize (Hk (wf_trace_len _ Hcov) Ec).
    destruct (keep_removal p cached (trimmed_entry len (in_buf t)) pos avail t flt s4) as [t' s'].
    apply (IH pos (len - avail)); [exact Hp| |lia].
    apply (trim_inv_same _ t' s'); try reflexivity. exact Hk.
  - rewrite (uwrap_id 32 (pos + remove_len)) by lia. apply (IH _ len); [lia| |lia].
    apply (trim_inv_same len _ s4); try reflexivity. now apply trim_inv_fault.
Qed.

Lemma trim_passes_spec fuel remove_len len t s :
  0 <= remove_len < 2 ^ 30 -> remove_len < 2 ^ (Z.of_nat fuel + 2) -> trim_inv len t s ->
  or_fatal E (trim_passes fl cf hash64 p cached fuel remove_len t s) pass_done.
Proof.
  revert remove_len len t s. induction fuel as [|f IH]; intros remove_len len t s Hr Hf Hi; cbn [trim_passes];
    destruct (Z.leb_spec (Z.max (len_p2 t / TRIM_END_STEPS) TRIM_MIN_BYTES) remove_len) as [Hle|Hgt]; cbn [negb];
    try (cbn [or_stop pass_done]; split; [eauto|discriminate]);
    [exfalso; change (2 ^ (Z.of_nat 0 + 2)) with 4 in Hf; unfold TRIM_MIN_BYTES in Hle; lia|].
  unfold TRIM_MIN_BYTES in Hle. rewrite (trimmed_deref len t s Hi). cbn [mbind res_bind]. apply or_stop_bind.
  pose proof (lo_len _ _ (ti_left _ _ _ Hi)) as Hll.
  eapply or_stop_mono; [apply (trim_pass_spec _ remove_len remove_len len); [lia|lia| |]|].
  - apply (trim_inv_same len t s); try reflexivity. exact Hi.
  - cbn [q_len trimmed_entry set_testcase_buf set_q_len]. lia.
  - intros [[aborted t'] s'] [[len' Hi'] Hab]. destruct aborted.
    + split; eauto.
    + apply (IH _ len'); [| |exact Hi'].
      * rewrite Z.shiftr_div_pow2 by lia. change (2 ^ 1) with 2. split; [apply Z.div_pos|apply Z.div_lt_upper_bound]; lia.
      * rewrite Z.shiftr_div_pow2 by lia. change (2 ^ 1) with 2. apply Z.div_lt_upper_bound; [lia|].
        rewrite Nat2Z.inj_succ in Hf. replace (Z.succ (Z.of_nat f) + 2) with (Z.succ (Z.of_nat f + 2)) in Hf by lia.
        now rewrite Z.pow_succ_r in Hf by lia.
Qed.
(** ** Writing the result *)

Context (Hwrite : posix_write accept).

(** The cached test case becomes the first [len] bytes of the buffer. *)
Lemma retake_spec c a len buf old :
  queue_buf a !! p = Some (trimmed_entry len buf) -> 0 <= len <= Z.of_nat (length buf) ->
  exists c', queue_testcase_retake_mem c a p (if cached then None else Some buf) len old
    = Ok (c', match testcase_buf (trimmed_entry len buf) with
              | Some _ => upd p (set_testcase_buf (Some (take (Z.to_nat len) buf))) a
              | None => a
              end).
Proof.
  intros Hq Hl. unfold queue_testcase_retake_mem, deref. rewrite (proj2 (rd_ok _ _ _) Hq). cbn [mbind res_bind].
  cbn [testcase_buf trimmed_entry set_testcase_buf]. destruct cached; [eauto|].
  destruct (testcase_buf q0); [|eauto]. rewrite (proj2 (Z.ltb_ge _ _)) by lia. eauto.
Qed.

(** What is in a file [rest] was written to: [rest], if the system takes it in
    one go; otherwise a prefix of it, or with [no_unlink] as many bytes. *)
Definition stored (content rest : list Z) : Prop :=
  (accept (Z.of_nat (length rest)) = Z.of_nat (length rest) -> content = rest) /\
  (if no_unlink cf then length content = length rest else content `prefix_of` rest).

Lemma content_spec len buf :
  0 < len <= Z.of_nat (length buf) ->
  match (if no_unlink cf then rewrite_loop accept (Z.to_nat len) 0 len buf [] else ck_write accept buf len) with
  | Ok content => stored content (take (Z.to_nat len) buf)
  | Err e => e = OutOfFuel /\ no_unlink cf = true /\ can_stall accept
  end.
Proof.
  intros Hl. unfold stored. assert (Et : Z.of_nat (length (take (Z.to_nat len) buf)) = len) by (rewrite length_take; lia).
  rewrite Et. destruct (no_unlink cf).
  - pose proof (rewrite_loop_spec accept buf len Hwrite Hl) as Hr. destruct (rewrite_loop _ _ _ _ _ _); [|tauto].
    destruct Hr as [H1 H2]. split; [exact H2|lia].
  - destruct (ck_write_spec accept buf len Hwrite ltac:(lia)) as (k & -> & Hk & Hall). split.
    + intros Ea. f_equal. specialize (Hall Ea). lia.
    + exists (drop k (take (Z.to_nat len) buf)). rewrite <- (take_drop k (take (Z.to_nat len) buf)) at 1.
      f_equal. rewrite take_take. f_equal. lia.
Qed.

(** What is written: the entry and its cached test case agree, and the file
    is what was stored of it. *)
Definition written (len : Z) (buf : list Z) s : Prop :=
  (exists content, queue_dir s = <[fname q0 := content]> (queue_dir s0) /\ stored content (take (Z.to_nat len) buf)) /\
  exists q, queue_buf (state s) !! p = Some q /\ q_len q = len /\ fname q = fname q0 /\
    testcase_buf q = (if testcase_buf q0 is Some _ then Some (take (Z.to_nat len) buf) else None).

Lemma write_trimmed_spec len t s old :
  trim_inv len t s -> needs_write t = true ->
  or_stop (fun e => e = OutOfFuel /\ no_unlink cf = true /\ can_stall accept) (write_trimmed cf accept p cached old t s)
    (fun s' => world s' = world s /\ queue_wf (state s') /\ written len (in_buf t) s').
Proof.
  intros Hi Hw. pose proof (trimmed_lookup len t s Hi) as Hq. pose proof (ti_left _ _ _ Hi) as Hlo.
  pose proof (lo_len _ _ Hlo) as Hll. pose proof (lo_buf _ _ Hlo) as Hbl. destruct Hlen0 as [L1 L2].
  unfold write_trimmed. rewrite (trimmed_deref len t s Hi). cbn [mbind res_bind].
  cbn [q_len fname trimmed_entry set_testcase_buf set_q_len].
  pose proof (content_spec len (in_buf t) ltac:(lia)) as Hfile. destruct (if no_unlink cf then _ else _) as [file|x]; [|exact Hfile].
  cbn [mbind res_bind]. set (content := take (Z.to_nat len) (in_buf t)) in *.
  set (e := trimmed_entry len (in_buf t)) in *.
  set (s1 := set_queue_dir _ s). destruct (retake_spec (tcache s1) (state s1) len (in_buf t) old Hq) as [c Er]; [lia|].
  rewrite Er. cbn [mbind res_bind]. fold e content.
  set (a1 := match testcase_buf e with Some _ => _ | None => _ end).
  assert (Ha1 : queue_wf a1 /\ acov a1 = acov (state s) /\ exists q1, queue_buf a1 !! p = Some q1 /\
      q_len q1 = len /\ fname q1 = fname q0 /\
      testcase_buf q1 = (if testcase_buf q0 is Some _ then Some content else None)).
  { assert (Hb : testcase_buf e = None <-> testcase_buf q0 = None).
    { subst e. cbn [trimmed_entry testcase_buf set_testcase_buf]. destruct cached; [|done].
      rewrite (Hcached eq_refl). split; discriminate. }
    subst a1. destruct (testcase_buf e) as [b|] eqn:Eb.
    - split; [apply queue_wf_upd; [apply Hi|done]|]. split; [done|].
      exists (set_testcase_buf (Some content) e). rewrite upd_queue_buf, lookup_alter_eq. change (state s1) with (state s).
      rewrite Hq. split; [done|]. destruct (testcase_buf q0); [done|]. discriminate (proj2 Hb eq_refl).
    - split; [apply Hi|]. split; [done|]. exists e. rewrite (proj1 Hb eq_refl). auto. }
  clearbody a1. destruct Ha1 as (Hw1 & Ec1 & q1 & Hq1 & F1 & F2 & F3).
  destruct (ti_clean _ _ _ Hi Hw) as [Hcb Hcl]. pose proof (wf_trace_len _ (qw_cov _ Hw1)) as Htl.
  set (s2 := put_trace _ _).
  assert (Hw2 : queue_wf (state s2)).
  { subst s2. unfold put_trace, on_state. apply queue_wf_acov; [exact Hw1| |done|done].
    change (state (set_state a1 (set_tcache c s1))) with a1.
    change (trace_of (set_state a1 (set_tcache c s1))) with (trace_bits (acov a1)).
    change (clean_trace (set_state a1 (set_tcache c s1))) with (clean_trace s).
    apply cov_wf_trace; [apply Hw1| |].
    - rewrite drop_ge, app_nil_r by lia. now apply Forall_take.
    - rewrite drop_ge, app_nil_r by lia. rewrite length_take, Htl, Hcl.
      rewrite Ec1, (ti_size _ _ _ Hi). lia. }
  destruct (update_bitmap_score_spec (state s2) p q1 Hw2 Hq1) as (a2 & E2 & Hf & Hw3 & _). rewrite E2.
  cbn [mbind res_bind or_stop]. split; [reflexivity|]. split; [exact Hw3|]. split.
  - exists file. split; [|exact Hfile]. change (<[fname q0:=file]> (queue_dir s) = <[fname q0:=file]> (queue_dir s0)).
    now rewrite (proj2 (ti_rest _ _ _ Hi)).
  - assert (Hl2 : is_Some (queue_buf a2 !! p)).
    { apply lookup_lt_is_Some_2. rewrite (frame_length _ _ Hf). eapply lookup_lt_Some. exact Hq1. }
    destruct Hl2 as [q2 Hq2]. destruct (frame_lookup _ _ _ _ Hf Hq2) as (q1' & Hq1' & Hc).
    change (queue_buf (state s2)) with (queue_buf a1) in Hq1'. rewrite Hq1 in Hq1'. injection Hq1' as <-.
    exists q2. split; [exact Hq2|]. split; [exact (eq_trans (f_equal q_len Hc) F1)|].
    split; [exact (eq_trans (f_equal fname Hc) F2)|exact (eq_trans (f_equal testcase_buf Hc) F3)].
Qed.
Lemma trim_start_len : 4 <= Z.max (next_pow2 (q_len q0) / TRIM_START_STEPS) TRIM_MIN_BYTES < 2 ^ 30.
Proof.
  destruct Hlen0 as [L1 L2]. change MAX_FILE with (2 ^ 20) in L1. unfold TRIM_START_STEPS, TRIM_MIN_BYTES.
  destruct (next_pow2_correct (q_len q0)) as (_ & _ & H1 & H2); [lia|]. specialize (H2 20 ltac:(lia) ltac:(lia)).
  pose proof (Z.div_le_mono _ _ 16 ltac:(lia) H2). change (2 ^ 20 / 16) with 65536 in *. lia.
Qed.

(** What trimming leaves: the input or what remained of it, in the queue, on
    disk and in the cache. *)
Definition trim_done (r : fsrv_run_result * list Z * sess W) : Prop :=
  let '(flt, buf, s) := r in
  exists len, left_over len buf /\ I (world s) /\ queue_wf (state s) /\
    (exists q, queue_buf (state s) !! p = Some q /\ q_len q = len) /\
    (stop_soon (world s) = true \/ flt = FSRV_RUN_ERROR \/
     (len = q_len q0 /\ buf = buf0 /\ queue_dir s = queue_dir s0) \/ written len buf s).

(** The target ends the fuzzer, or the loop that rewrites the file never
    gets any further. *)
Definition trim_stops (e : abort) : Prop :=
  dies E e \/ (e = OutOfFuel /\ no_unlink cf = true /\ can_stall accept).

Lemma trim_case_done :
  I (world s0) -> queue_wf (state s0) -> map_size (acov (state s0)) = Z.of_nat n ->
  or_stop trim_stops (trim_case fl cf hash64 accept p cached buf0 s0) trim_done.
Proof.
  intros Hw Hwf Hn. assert (Hd : deref (state s0) p = Ok q0) by (now apply rd_ok).
  unfold trim_case. rewrite Hd. cbn [mbind res_bind]. destruct (Z.ltb_spec (q_len q0) 5).
  { cbn [or_stop trim_done]. exists (q_len q0). split; [apply left_over_start|]. split; [exact Hw|]. split; [exact Hwf|].
    split; [eauto|]. right; right; left. auto. }
  cbv zeta. set (s1 := on_stat _ s0). set (t0 := mkTrim buf0 _ false FSRV_RUN_OK).
  assert (Hi : trim_inv (q_len q0) t0 s1).
  { split; auto; try discriminate; [|apply left_over_start]. change (state s1) with (state s0).
    rewrite list_insert_id; [done|]. rewrite Hq0. f_equal. unfold trimmed_entry, t0. cbn [in_buf].
    destruct q0. cbn in *. destruct cached; [now rewrite Hcached|done]. }
  pose proof trim_start_len as Hr. apply or_stop_bind.
  eapply or_stop_mono; [eapply or_stop_weaken with (E := dies E); [intros x Hx; now left|];
    apply (trim_passes_spec 32 _ (q_len q0) t0 s1); [lia| |exact Hi]|].
  { change (2 ^ (Z.of_nat 32 + 2)) with (2 ^ 34). lia. }
  intros [[aborted t] s2] [[len Hi2] Hab]. destruct (negb aborted && needs_write t) eqn:Eb.
  - apply andb_true_iff in Eb as [_ Enw].
    apply or_stop_bind. eapply or_stop_mono; [eapply or_stop_weaken; [|exact (write_trimmed_spec len t s2 (q_len q0) Hi2 Enw)];
      intros x Hx; now right|]. intros s3 (W3 & Q3 & D3). pose proof D3 as (_ & q & Hq & Hql & _).
    assert (Hd3 : deref (state s3) p = Ok q) by (now apply rd_ok). rewrite Hd3. cbn [mbind res_bind or_stop trim_done].
    exists len. split; [apply Hi2|]. split; [change (I (world s3)); rewrite W3; apply Hi2|]. split; [exact Q3|].
    split; [eauto|]. right; right; right. exact D3.
  - cbn [mbind res_bind]. rewrite (trimmed_deref len t s2 Hi2). cbn [mbind res_bind or_stop trim_done].
    exists len. split; [apply Hi2|]. split; [apply Hi2|]. split; [apply Hi2|].
    split; [exists (trimmed_entry len (in_buf t)); split; [exact (trimmed_lookup len t s2 Hi2)|done]|].
    destruct aborted; [destruct (Hab eq_refl) as [Hs|Hs]; auto|]. cbn [negb andb] in Eb.
    destruct (ti_write _ _ _ Hi2 Eb) as [El Ebuf]. right; right; left.
    split; [exact El|]. split; [exact Ebuf|]. exact (proj2 (ti_rest _ _ _ Hi2)).
Qed.
End Trim.

(** C20: Trimming.  For a target whose trace is a function of its input,
    what [trim_case] leaves of an input of [MAX_FILE] bytes at most is a
    subsequence of it with the same first four bytes, of the length the queue
    entry then has, and with the trace checksum the entry was calibrated with.
    Unless it was interrupted or the target could not be executed, either
    nothing changed or the cached test case, if there is one, is what is left,
    and so is the entry's file, provided that [write] takes that many bytes in
    one go; if it does not, the file holds a prefix of it, or with
    [AFL_NO_UNLINK] as many bytes, though possibly the first ones again
    ([rewrite_loop_restarts]).  The queue stays well-formed.  It always ends,
    except that with [AFL_NO_UNLINK] a [write] that takes nothing is tried
    again forever. *)
Theorem trim_case_correct {W} `{World W} fl cf hash64 accept p cached I tr n E s q buf :
  target_laws I (fun t x => x = tr t) n E -> posix_write accept ->
  I (world s) -> queue_wf (state s) -> map_size (acov (state s)) = Z.of_nat n ->
  queue_buf (state s) !! p = Some q -> 0 < q_len q <= MAX_FILE /\ q_len q <= Z.of_nat (length buf) ->
  (cached = true -> testcase_buf q = Some buf) ->
  let input := take (Z.to_nat (q_len q)) buf in
  checksum hash64 tr input = exec_cksum q ->
  or_stop (trim_stops cf accept E) (trim_case fl cf hash64 accept p cached buf s) (fun '(flt, buf', s') =>
    exists q', queue_buf (state s') !! p = Some q' /\ queue_wf (state s') /\
    let rest := take (Z.to_nat (q_len q')) buf' in
    sublist rest input /\ Z.of_nat (length rest) = q_len q' /\ take 4 rest = take 4 input /\
    checksum hash64 tr rest = exec_cksum q /\
    (stop_soon (world s') = true \/ flt = FSRV_RUN_ERROR \/
     (rest = input /\ queue_dir s' = queue_dir s) \/
     ((exists content, queue_dir s' = <[fname q := content]> (queue_dir s) /\ stored cf accept content rest) /\
      testcase_buf q' = (if testcase_buf q is Some _ then Some rest else None)))).
Proof.
  intros Hlaws Hwr Hw Hwf Hn Hq Hl Hc input Hs.
  pose proof (trim_case_done fl cf hash64 accept p cached I tr n E Hlaws s q buf Hq Hl Hc Hs Hwr Hw Hwf Hn) as Hd.
  eapply or_stop_mono; [exact Hd|]. intros [[flt buf'] s'] (len & Hlo & _ & Hwf' & (q' & Hq' & Hql) & Ho).
  exists q'. split; [exact Hq'|]. split; [exact Hwf'|]. rewrite Hql. destruct Hlo as [L1 L2 L3 L4 L5].
  split; [exact L3|]. split; [rewrite length_take; lia|]. split; [exact L4|]. split; [exact L5|].
  destruct Ho as [Ho|[Ho|[(-> & -> & Ho)|(Ho & q1 & Hq1 & _ & _ & Hb)]]]; auto.
  right; right; right. split; [exact Ho|]. rewrite Hq' in Hq1. injection Hq1 as <-. exact Hb.
Qed.

(** ** A target that looks for the byte 9 *)

Definition finds_9 (t : list Z) : list Z := (if bool_decide (9 ∈ t) then 2 else 1) :: replicate 63 0.
Definition sum_hash : list Z -> Z := zsum id.
Definition input0 : list Z := [1; 2; 3; 4; 5; 6; 7; 8; 9; 10].
Definition trim_sess : sess unit := sess0 (upd 0 (set_exec_cksum 2) afl0).

Lemma finds_9_ok t : bytes (finds_9 t) /\ length (finds_9 t) = 64%nat.
Proof. split; [|reflexivity]. apply bytesb_spec. unfold finds_9. destruct (bool_decide _); reflexivity. Qed.

(** It keeps four bytes and the 9, with the 10 behind it: four bytes are the
    least it removes. *)
Lemma trim_example :
  match @trim_case unit (toy finds_9) Word64 conf0 sum_hash (fun k => k) 0 false input0 trim_sess with
  | Ok (_, buf, s) => exists q, queue_buf (state s) !! 0%nat = Some q /\
      take (Z.to_nat (q_len q)) buf = [1; 2; 3; 4; 9; 10]
  | Err _ => False
  end.
Proof. vm_compute. eexists. split; reflexivity. Qed.

Lemma trim_case_correct_witness :
  exists r, @trim_case unit (toy finds_9) Word64 conf0 sum_hash hesitant 0 false input0 trim_sess = Ok r.
Proof.
  assert (Hwf : queue_wf (state trim_sess)) by (apply queue_wf_upd; [exact afl0_wf|done]).
  assert (Hl : 0 < 10 <= MAX_FILE /\ 10 <= Z.of_nat (length input0)) by (unfold MAX_FILE; cbn [length input0]; lia).
  assert (Hs : checksum sum_hash finds_9 (take (Z.to_nat 10) input0) = 2) by (vm_compute; reflexivity).
  pose proof (@trim_case_correct unit (toy finds_9) Word64 conf0 sum_hash hesitant 0 false (fun _ => True)
    finds_9 64 False trim_sess (set_exec_cksum 2 (named_entry [0x2f; 97] 10)) input0
    (toy_laws finds_9 64 finds_9_ok) hesitant_posix Logic.I Hwf eq_refl eq_refl) as H.
  specialize (H Hl ltac:(discriminate) Hs). 
  destruct (trim_case _ _ _ _ _ _ _ _) as [r|e]; [now exists r|]. destruct H as [[_ []]|(_ & [=] & _)].
Defined.
