(* ===== verification/Calibrate.v ===== *)
(** Calibration: [calibrate_case] of [src/afl-fuzz-run.c], once the fork
    server is up. *)

From S2P Require Import Prelude Words Arith Float State Bitmap Text Queue TestcaseCache Callstack Session.

Definition CAL_CYCLES_FAST : Z := 3.
Definition CAL_CYCLES : Z := 7.
Definition CAL_CYCLES_LONG : Z := 12.
Definition CAL_TMOUT_PERC : Z := 125.
Definition CAL_TMOUT_ADD : Z := 50.

(** IgorFuzz's minima over the queue. *)
Definition set_mins (c : cov) (counts size : Z) : cov :=
  mkCov (trace_bits c) (map_size c) (real_map_size c) (actual_counts c)
        (virgin_bits c) (virgin_tmout c) (virgin_crash c)
        (bitmap_changed c) (testcase_matrix c) counts size.

Definition lower_mins (c : cov) (size : Z) : cov :=
  set_mins c (if actual_counts c <? min_actual_cnts c then actual_counts c else min_actual_cnts c)
             (if size <? min_bitmap_size c then size else min_bitmap_size c).

(** Bytes that differ between two runs are marked in [var_bytes], and
    ignored by setting them to fully discovered. *)
Fixpoint mark_var_bytes (var first trace virgin : list Z) : list Z * list Z :=
  match var, first, trace, virgin with
  | v :: var, f :: first, t :: trace, g :: virgin =>
      let '(var', virgin') := mark_var_bytes var first trace virgin in
      if negb (truthy v) && negb (f =? t) then (1 :: var', 0 :: virgin') else (v :: var', g :: virgin')
  | _, _, _, _ => (var, virgin)
  end.

(** The locals of [calibrate_case] that change. *)
Record cal := mkCal { new_bits : Z; var_detected : bool; cal_fault : fsrv_run_result }.

Section Calibrate.
Context {W : Type} `{World W} (fl : flavour) (cf : conf) (hash64 : list Z -> Z).
Context (p : nat) (use_mem : list Z) (use_tmout : Z).
Implicit Types s : sess W.

Definition with_fault (k : cal) (flt : fsrv_run_result) : cal := mkCal (new_bits k) (var_detected k) flt.

(** [hnb = has_few_bits(afl, afl->virgin_bits)] and what [new_bits] makes of it. *)
Definition note_bits (k : cal) s : cal * sess W :=
  let '(hnb, c) := has_few_bits fl (acov (state s)) VBits in
  let nb := if 0x10 <? hnb then hnb else if new_bits k <? hnb then hnb else new_bits k in
  (mkCal nb (var_detected k) (cal_fault k), on_state (set_acov c) s).

(** The variable bytes of this run. *)
Definition note_variable s : sess W :=
  let c := acov (state s) in
  let '(var, virgin) := mark_var_bytes (var_bytes s) (first_trace s) (trace_bits c) (virgin_bits c) in
  set_var_bytes var (on_state (set_acov (set_vmap c VBits virgin)) s).

(** Run the test case; [None] when calibration goes on. *)
Definition cal_run (first : bool) s : res (option fsrv_run_result * sess W) :=
  q ← deref (state s) p;
  '(_, s) ← write_to_testcase cf s use_mem (q_len q) true;
  '(flt, s) ← fuzz_run_target cf s use_tmout;
  if stop_soon (world s) || negb (bool_decide (flt = FSRV_RUN_CRASH)) then Ok (Some flt, s) else
  if negb (non_instrumented_mode (state s)) && first && (count_bytes (acov (state s)) (trace_of s) =? 0)
  then Ok (Some FSRV_RUN_NOINST, s)
  else Ok (None, s).

(** The trace is not the one the entry has: look at it closer. *)
Definition cal_compare (cksum max : Z) (k : cal) s : res (cal * Z * sess W) :=
  q ← deref (state s) p;
  if exec_cksum q =? cksum then Ok (k, max, s) else
  let '(k, s) := note_bits k s in
  if truthy (exec_cksum q) then
    Ok (mkCal (new_bits k) true (cal_fault k), if afl_cal_fast cf then CAL_CYCLES else CAL_CYCLES_LONG,
        note_variable s)
  else Ok (k, max, set_first_trace (trace_of s) (on_state (upd p (set_exec_cksum cksum)) s)).

(** The loop over [stage_cur]; the bound [stage_max] may grow to
    [CAL_CYCLES_LONG].  The first component: the calibration was aborted. *)
Fixpoint cal_loop (fuel : nat) (cur max : Z) (k : cal) s : res (bool * cal * Z * sess W) :=
  if negb (cur <? max) then Ok (false, k, max, s) else
  match fuel with
  | O => Err OutOfFuel
  | S f =>
      '(stop, s) ← cal_run (cur =? 0) s;
      match stop with
      | Some flt => Ok (true, with_fault k flt, max, s)
      | None =>
          let s := on_state (fun a => set_acov (classify_counts fl (acov a)) a) s in
          '(k, max, s) ← cal_compare (hash64 (trace_of s)) max (with_fault k FSRV_RUN_CRASH) s;
          cal_loop f (cur + 1) max k s
      end
  end.

(** The statistics of a calibration that was completed. *)
Definition cal_stats (max diff_us handicap : Z) s : sess W :=
  let size := count_bytes (acov (state s)) (trace_of s) in
  on_state (fun a =>
    let a := set_total_cal_us (u64 (total_cal_us a + diff_us)) a in
    let a := set_total_cal_cycles (u64 (total_cal_cycles a + max)) a in
    let a := upd p (fun q => set_cal_failed 0 (set_handicap handicap
               (set_bitmap_size size (set_exec_us (diff_us / max) q)))) a in
    let a := set_total_bitmap_size (u64 (total_bitmap_size a + size)) a in
    set_total_bitmap_entries (u64 (total_bitmap_entries a + 1)) a) s.

(** The microseconds the cycles took. *)
Definition cal_time (start_us max : Z) s : Z * sess W :=
  if fixed_seed (state s) then (u64 (u32 (exec_tmout cf - 1) * max), s)
  else let '(stop_us, w) := get_cur_time_us (world s) in
       let diff_us := u64 (stop_us - start_us) in
       (if diff_us =? 0 then 1 else diff_us, set_world w s).

(** From the end of the loop to the label [abort_calibration]. *)
Definition cal_finish (start_us max handicap : Z) (first_run : bool) (k : cal) s : res (cal * sess W) :=
  let '(diff_us, s) := cal_time start_us max s in
  if max =? 0 then Err Fatal else
  let s := cal_stats max diff_us handicap s in
  q ← deref (state s) p;
  let s := if 0x10 <? new_bits k
           then on_state (fun a => set_acov (lower_mins (acov a) (bitmap_size q)) a) s else s in
  a ← update_bitmap_score (state s) p;
  let s := set_state a s in
  if negb (non_instrumented_mode a) && first_run && bool_decide (cal_fault k = FSRV_RUN_OK) &&
     ((new_bits k =? 0x10) || (new_bits k =? 0x00))
  then Ok (with_fault k FSRV_RUN_NOBITS, s) else Ok (k, s).

(** From [abort_calibration] on. *)
Definition cal_end (k : cal) s : res (sess W) :=
  q ← deref (state s) p;
  let s := if truthy (new_bits k .& 0x02) && negb (has_new_cov q)
           then on_stat (fun x => set_queued_with_cov (u32 (queued_with_cov x + 1)) x)
                  (on_state (upd p (set_has_new_cov true)) s)
           else s in
  if var_detected k then
    let s := on_stat (set_var_byte_count (count_bytes (acov (state s)) (var_bytes s))) s in
    if var_behavior q then Ok s else
    a ← mark_as_variable (state s) p;
    Ok (on_stat (fun x => set_queued_variable (u32 (queued_variable x + 1)) x) (set_state a s))
  else Ok s.

(** Everything after the entry's [exec_cksum] was reset for CmpLog and its
    dummy run. *)
Definition cal_cycles (handicap : Z) (first_run : bool) s : res (fsrv_run_result * sess W) :=
  q ← deref (state s) p;
  let k := mkCal 0 false FSRV_RUN_OK in
  let '(k, s) := if truthy (exec_cksum q) then note_bits k (set_first_trace (trace_of s) s) else (k, s) in
  let '(start_us, w) := get_cur_time_us (world s) in
  '(aborted, k, max, s) ← cal_loop 12 0 (if afl_cal_fast cf then CAL_CYCLES_FAST else CAL_CYCLES) k (set_world w s);
  '(k, s) ← (if aborted : bool then Ok (k, s) else cal_finish start_us max handicap first_run k s);
  s ← cal_end k s;
  Ok (cal_fault k, s).

Definition cal_body (handicap : Z) s : res (fsrv_run_result * sess W) :=
  q ← deref (state s) p;
  let first_run := exec_cksum q =? 0 in
  let cmplog := cmplog_mode (state s) in
  let s := if cmplog then on_state (upd p (set_exec_cksum 0)) s else s in
  let s := on_state (upd p (set_cal_failed (u8 (cal_failed q + 1)))) s in
  if cmplog then
    '(stop, s) ← cal_run (cur_stage s =? 0) s;
    match stop with
    | Some flt => s ← cal_end (mkCal 0 false flt) s; Ok (flt, s)
    | None => cal_cycles handicap first_run s
    end
  else cal_cycles handicap first_run s.
End Calibrate.

(** A bit more generous about timeouts when resuming, or for new finds. *)
Definition cal_tmout (cf : conf) (from_queue : bool) : Z :=
  if negb from_queue || resuming_fuzz cf
  then Z.max (u32 (exec_tmout cf + CAL_TMOUT_ADD)) (u32 (exec_tmout cf * CAL_TMOUT_PERC) / 100)
  else exec_tmout cf.

Definition calibrate_case {W : Type} `{World W} (fl : flavour) (cf : conf) (hash64 : list Z -> Z)
    (p : nat) (use_mem : list Z) (handicap : Z) (from_queue : bool) (s : sess W)
    : res (fsrv_run_result * sess W) :=
  cal_body fl cf hash64 p use_mem (cal_tmout cf from_queue) handicap s.
