(* ===== verification/CalThms.v ===== *)
(** What calibration does to the queue and to IgorFuzz's minima. *)

From S2P Require Import Prelude Words Arith Float State Bitmap BitmapThms FewBits Text Queue QueueScore TestcaseCache Callstack Session SessionThms Calibrate.

(** ** Variable bytes *)

Lemma mark_var_bytes_ok var first trace virgin :
  let '(var', virgin') := mark_var_bytes var first trace virgin in
  length var' = length var /\ length virgin' = length virgin /\
  (bytes var -> bytes var') /\ (bytes virgin -> bytes virgin') /\
  (forall i, nth i virgin' 0 = nth i virgin 0 \/
     (nth i virgin' 0 = 0 /\ nth i var 0 = 0 /\ nth i first 0 <> nth i trace 0)).
Proof.
  revert first trace virgin; induction var as [|v var IH]; intros [|f first] [|t trace] [|g virgin];
    cbn [mark_var_bytes]; try (repeat split; auto; fail).
  specialize (IH first trace virgin). destruct (mark_var_bytes var first trace virgin) as [var' virgin'].
  destruct IH as (L1 & L2 & B1 & B2 & Hn). destruct (negb (truthy v) && negb (f =? t)) eqn:Ev; cbn [length].
  - apply andb_true_iff in Ev as [Ev Eft]. apply negb_true_iff, truthy_false in Ev.
    apply negb_true_iff, Z.eqb_neq in Eft. split; [lia|]. split; [lia|].
    split; [intros Hb; inversion Hb; subst; constructor; [unfold is_byte; lia|auto]|].
    split; [intros Hb; inversion Hb; subst; constructor; [unfold is_byte; lia|auto]|].
    intros [|i]; cbn [nth]; auto.
  - split; [lia|]. split; [lia|].
    split; [intros Hb; inversion Hb; subst; constructor; auto|].
    split; [intros Hb; inversion Hb; subst; constructor; auto|].
    intros [|i]; cbn [nth]; auto.
Qed.

Lemma cov_wf_vmap c m v : cov_wf c -> bytes v -> length v = length (get_vmap c m) -> cov_wf (set_vmap c m v).
Proof.
  intros [H1 H2 H3 H4 H5 H6 H7] Hv Hl.
  split; auto; intros m'; rewrite get_set_vmap; destruct (decide (m = m')) as [->|]; auto.
  now rewrite Hl, H4.
Qed.

Lemma cov_wf_mins c a b : cov_wf c -> cov_wf (set_mins c a b).
Proof. intros [H1 H2 H3 H4 H5 H6 H7]. split; auto; intros []; first [exact (H3 _)|exact (H4 _)]. Qed.

(** ** What [has_few_bits] and the others leave alone *)

Record cov_same (c c' : cov) : Prop := {
  cs_size : map_size c' = map_size c;
  cs_real : real_map_size c' = real_map_size c;
  cs_matrix : testcase_matrix c' = testcase_matrix c;
  cs_mins : min_actual_cnts c' = min_actual_cnts c /\ min_bitmap_size c' = min_bitmap_size c
}.

Definition dims (c : cov) := (map_size c, real_map_size c).

Lemma cov_same_dims c c' : cov_same c c' -> dims c' = dims c.
Proof. intros Hs. unfold dims. now rewrite (cs_size _ _ Hs), (cs_real _ _ Hs). Qed.

Lemma cov_same_refl c : cov_same c c.
Proof. now split. Qed.

Lemma cov_same_trans c1 c2 c3 : cov_same c1 c2 -> cov_same c2 c3 -> cov_same c1 c3.
Proof. intros [A1 A2 A3 [A4 A5]] [B1 B2 B3 [B4 B5]]. split; try split; congruence. Qed.

Lemma few_bits_same fl c m :
  cov_wf c -> cov_same c (has_few_bits fl c m).2 /\ trace_bits (has_few_bits fl c m).2 = trace_bits c /\
  actual_counts (has_few_bits fl c m).2 = actual_counts c.
Proof.
  intros Hwf. destruct (testcase_matrix c) as [q|] eqn:Hq.
  - rewrite (has_few_bits_eq fl c m q) by done. cbn [snd]. now repeat split.
  - unfold has_few_bits. rewrite Hq, has_new_bits_eq by done. cbn [snd]. now repeat split.
Qed.

Lemma classify_cov_same fl c : cov_wf c -> cov_same c (classify_counts fl c).
Proof. intros Hwf. rewrite classify_counts_eq by done. now repeat split. Qed.

(** ** What calibration leaves alone

    What identifies an entry, and the parts of the session that are not about
    running the target. *)

Definition ident (q : queue_entry) :=
  (fname q, q_len q, q_id q, passed_det q, depth q, mother q, testcase_buf q, was_fuzzed q, disabled q).

Definition afl_rest (a : afl) :=
  (queued_items a, queue_top a, queue_head a, queue_cur a, active_items a, pending_not_fuzzed a, n_fuzz a,
   non_instrumented_mode a, cmplog_mode a, sched a, testcase_matrix_of a).

Definition sess_rest {W : Type} (s : sess W) :=
  (tcache s, crash_site s, readme s, queue_dir s, hangs_dir s, op s).

(** The other entries than [p], but for the compact traces. *)
Definition others (p : nat) (l l' : list queue_entry) : Prop :=
  forall r, r <> p -> core <$> l' !! r = core <$> l !! r.

Lemma others_alter p f l : others p l (alter f p l).
Proof. intros r Hr. now rewrite lookup_alter_ne. Qed.

Lemma others_core p l l' : map core l' = map core l -> others p l l'.
Proof. intros E r _. rewrite <- !list_lookup_fmap. now f_equal. Qed.

Definition kept {W : Type} (p : nat) (s s' : sess W) : Prop :=
  map ident (queue_buf (state s')) = map ident (queue_buf (state s)) /\
  afl_rest (state s') = afl_rest (state s) /\ sess_rest s' = sess_rest s /\
  others p (queue_buf (state s)) (queue_buf (state s')).

Lemma kept_refl {W : Type} p (s : sess W) : kept p s s.
Proof. done. Qed.

Lemma kept_trans {W : Type} p (s1 s2 s3 : sess W) : kept p s1 s2 -> kept p s2 s3 -> kept p s1 s3.
Proof.
  intros (A1 & A2 & A3 & A4) (B1 & B2 & B3 & B4). split; [congruence|]. split; [congruence|]. split; [congruence|].
  intros r Hr. now rewrite B4, A4.
Qed.

(** An assignment to the entry itself. *)
Lemma kept_upd {W : Type} p f (s : sess W) :
  (forall q, ident (f q) = ident q) -> kept p s (on_state (upd p f) s).
Proof. intros Hf. split; [now apply map_alter_same|]. split; [done|]. split; [done|]. apply others_alter. Qed.

Lemma kept_length {W : Type} p (s s' : sess W) : kept p s s' -> length (queue_buf (state s')) = length (queue_buf (state s)).
Proof. intros (H & _). apply (f_equal length) in H. now rewrite !length_map in H. Qed.

Lemma kept_lookup {W : Type} (s s' : sess W) p r q' :
  kept p s s' -> queue_buf (state s') !! r = Some q' ->
  exists q, queue_buf (state s) !! r = Some q /\ ident q' = ident q.
Proof.
  intros (E & _) H. assert (Hm : map ident (queue_buf (state s)) !! r = Some (ident q'))
    by (rewrite <- E, list_lookup_fmap, H; reflexivity).
  rewrite list_lookup_fmap in Hm. destruct (queue_buf (state s) !! r) as [q|]; [|discriminate].
  apply (inj Some) in Hm. eauto.
Qed.

(** What a calibration decides at its end. *)
Definition verdict_of (q : queue_entry) := (cal_failed q, bitmap_size q, var_behavior q).

Section Calibrate.
Context {W : Type} `{World W} (fl : flavour) (cf : conf) (hash64 : list Z -> Z).
Context (p : nat) (use_mem : list Z) (use_tmout : Z).
Context (I : W -> Prop) (T : list Z -> list Z -> Prop) (n : nat) (E : Prop).
Context (laws : target_laws I T n E).
Context (s0 : sess W) (v0 : Z * Z * bool).
Implicit Types s : sess W.

Record cal_inv s : Prop := {
  ci_world : I (world s);
  ci_wf : queue_wf (state s);
  ci_cov : cov_same (acov (state s0)) (acov (state s));
  ci_kept : kept p s0 s;
  ci_entry : exists q, queue_buf (state s) !! p = Some q /\ verdict_of q = v0;
  ci_var : variable_behavior (state s) = variable_behavior (state s0)
}.

Context (Hn : map_size (acov (state s0)) = Z.of_nat n).

Lemma cal_inv_size s : cal_inv s -> map_size (acov (state s)) = Z.of_nat n.
Proof. intros Hi. now rewrite (cs_size _ _ (ci_cov s Hi)). Qed.

Lemma cal_inv_same s s' :
  I (world s') -> state s' = state s -> sess_rest s' = sess_rest s -> cal_inv s -> cal_inv s'.
Proof.
  intros E1 E2 E3 [H1 H2 H3 H4 H5 H6]. split; rewrite ?E2; auto.
  eapply kept_trans; [exact H4|]. unfold kept. now rewrite E2, E3.
Qed.

Lemma cal_inv_ran s s' : ran I n s s' -> cal_inv s -> cal_inv s'.
Proof.
  intros Hr Hi. pose proof (ran_wf I n s s' Hr (cal_inv_size s Hi) (ci_wf s Hi)) as Hwf.
  destruct Hr as (t & k & w & b & cs & -> & _ & _ & Hw). destruct Hi as [H1 H2 H3 H4 H5 H6].
  split; auto. eapply cov_same_trans; [exact H3|]. now split.
Qed.

Lemma cal_inv_acov s c :
  cal_inv s -> cov_wf c -> cov_same (acov (state s)) c -> cal_inv (on_state (set_acov c) s).
Proof.
  intros [H1 H2 H3 H4 H5 H6] Hc Hs. split; auto.
  - destruct Hs as [S1 S2 S3 _]. unfold on_state. apply queue_wf_acov; assumption.
  - eapply cov_same_trans; eauto.
  - eapply kept_trans; [exact H4|]. split; [done|]. split; [|done]. destruct Hs as [_ _ S3 _].
    unfold afl_rest, testcase_matrix_of. cbn. now rewrite S3.
Qed.

Lemma cal_inv_upd s f :
  cal_inv s -> (forall q, refs_of (f q) = refs_of q) -> (forall q, ident (f q) = ident q) ->
  (forall q, verdict_of (f q) = verdict_of q) -> cal_inv (on_state (upd p f) s).
Proof.
  intros [H1 H2 H3 H4 (q & Hq & Hv) H6] Hr Hi Hc. split; auto.
  - unfold on_state. now apply queue_wf_upd.
  - eapply kept_trans; [exact H4|]. now apply kept_upd.
  - exists (f q). split; [|now rewrite Hc]. unfold on_state, upd. cbn [state set_state queue_buf set_queue_buf].
    now rewrite lookup_alter_eq, Hq.
Qed.

Lemma cal_inv_deref s : cal_inv s -> exists q, deref (state s) p = Ok q /\ queue_buf (state s) !! p = Some q /\
  verdict_of q = v0.
Proof. intros Hi. destruct (ci_entry s Hi) as (q & Hq & Hv). exists q. split; [now apply rd_ok|auto]. Qed.

Lemma note_bits_inv k s : cal_inv s -> cal_inv (note_bits fl k s).2.
Proof.
  intros Hi. unfold note_bits. pose proof (few_bits_same fl (acov (state s)) VBits (qw_cov _ (ci_wf s Hi))) as (Hs & _).
  pose proof (has_few_bits_wf fl (acov (state s)) VBits (qw_cov _ (ci_wf s Hi))) as Hw.
  destruct (has_few_bits _ _ _) as [hnb c]. now apply cal_inv_acov.
Qed.

Lemma note_variable_inv s : cal_inv s -> cal_inv (note_variable s).
Proof.
  intros Hi. unfold note_variable. pose proof (qw_cov _ (ci_wf s Hi)) as Hc.
  pose proof (mark_var_bytes_ok (var_bytes s) (first_trace s) (trace_bits (acov (state s)))
    (virgin_bits (acov (state s)))) as Hm.
  destruct (mark_var_bytes _ _ _ _) as [var virgin]. destruct Hm as (_ & Hl & _ & Hb & _).
  eapply (cal_inv_same (on_state (set_acov (set_vmap (acov (state s)) VBits virgin)) s)); [apply Hi|reflexivity|reflexivity|].
  apply cal_inv_acov; [exact Hi| |now split].
  apply cov_wf_vmap; [exact Hc| |exact Hl]. apply Hb. exact (wf_vmap _ Hc VBits).
Qed.

(** ** The cycles *)

Context (Hmem : forall q, queue_buf (state s0) !! p = Some q -> q_len q <= Z.of_nat (length use_mem)).

Lemma cal_inv_len s q : cal_inv s -> queue_buf (state s) !! p = Some q -> q_len q <= Z.of_nat (length use_mem).
Proof.
  intros Hi Hq. destruct (kept_lookup _ _ _ _ _ (ci_kept s Hi) Hq) as (q' & Hq' & Hid).
  apply (f_equal (fun x => x.1.1.1.1.1.1.1.2)) in Hid. cbn in Hid. rewrite Hid. eauto.
Qed.

Lemma write_fixed_ok s mem len :
  len <= Z.of_nat (length mem) ->
  exists l, write_to_testcase cf s mem len true = Ok (l, set_testcase (handed cf mem len) s).
Proof.
  intros Hl. unfold write_to_testcase, afl_fsrv_write_to_testcase, handed. rewrite andb_false_r. cbv zeta.
  set (l := if max_length cf <? len then max_length cf else len).
  assert (l <= len) by (subst l; destruct (Z.ltb_spec (max_length cf) len); lia).
  set (l' := if use_shmem_fuzz cf && (MAX_FILE <? l) then MAX_FILE else l).
  assert (l' <= l) by (subst l'; destruct (use_shmem_fuzz cf); cbn [andb]; [|lia]; destruct (Z.ltb_spec MAX_FILE l); lia).
  rewrite (proj2 (Z.ltb_ge _ _)) by lia. cbn [mbind res_bind]. eauto.
Qed.

(** Some run of the entry's content ended with [flt], or the user stopped it. *)
Definition run_seen (flt : fsrv_run_result) s : Prop :=
  (forall q, queue_buf (state s0) !! p = Some q ->
     run_ends cf I use_tmout (acov (state s0)) (handed cf use_mem (q_len q)) flt) \/
  (flt <> FSRV_RUN_CRASH /\ stop_soon (world s) = true).

Lemma run_seen_crash s s' : run_seen FSRV_RUN_CRASH s -> run_seen FSRV_RUN_CRASH s'.
Proof. intros [Hx|[Hx _]]; [now left|done]. Qed.

Lemma run_ends_cov c c' t flt :
  real_map_size c' = real_map_size c -> run_ends cf I use_tmout c t flt -> run_ends cf I use_tmout c' t flt.
Proof.
  intros Hc (w & b & ch & w' & st & H1 & H2 & H3 & H4). exists w, b, ch, w', st. do 3 (split; [done|]).
  destruct flt; try exact H4. unfold count_bytes, count_words in *. now rewrite Hc.
Qed.

Lemma cal_run_seen s s1 c q flt :
  cal_inv s -> queue_buf (state s) !! p = Some q -> c = handed cf use_mem (q_len q) ->
  fuzz_run_target cf (set_testcase c s) use_tmout = Ok (flt, s1) ->
  run_seen flt s1 /\
  (real_map_size (acov (state s1)) = real_map_size (acov (state s)) -> count_bytes (acov (state s1)) (trace_of s1) = 0 ->
   run_seen FSRV_RUN_NOINST s1).
Proof.
  intros Hi Hq -> Er. destruct (fuzz_run_seen cf I (set_testcase _ s) _ _ _ (ci_world _ Hi) Er) as [[-> Hs]|[Hr Hz]].
  - split; [now right|intros _ _; now right].
  - assert (Hx : forall f, run_ends cf I use_tmout (acov (state s)) (handed cf use_mem (q_len q)) f -> run_seen f s1).
    { intros f Hf. left. intros q0 Hq0. destruct (kept_lookup _ _ _ _ _ (ci_kept s Hi) Hq) as (q' & Hq' & Hid).
      assert (q' = q0) as -> by congruence. apply (f_equal (fun x => x.1.1.1.1.1.1.1.2)) in Hid. cbn in Hid. rewrite <- Hid.
      eapply run_ends_cov; [|exact Hf]. now rewrite (cs_real _ _ (ci_cov s Hi)). }
    split; [now apply Hx|]. intros Hreal H0. apply Hx, Hz. unfold count_bytes, count_words in *. cbn [state set_testcase]. now rewrite <- Hreal.
Qed.

Lemma cal_run_spec first s :
  cal_inv s -> or_fatal E (cal_run cf p use_mem use_tmout first s) (fun '(stop, s') =>
    cal_inv s' /\ match stop with
                  | Some flt => flt <> FSRV_RUN_NOBITS /\ (stop_soon (world s') = true \/ flt <> FSRV_RUN_CRASH) /\ run_seen flt s'
                  | None => run_seen FSRV_RUN_CRASH s'
                  end).
Proof.
  intros Hi. destruct (cal_inv_deref s Hi) as (q & Hd & Hq & _). unfold cal_run. rewrite Hd. cbn [mbind res_bind].
  destruct (write_fixed_ok s use_mem (q_len q) (cal_inv_len s q Hi Hq)) as (l & Ew). rewrite Ew. cbn [mbind res_bind].
  set (c := handed _ _ _) in *.
  assert (Hi1 : cal_inv (set_testcase c s)) by (apply (cal_inv_same s); [apply Hi|done|done|exact Hi]).
  apply or_stop_bind. eapply or_stop_mono.
  { apply or_stop_eqn. exact (fuzz_run_target_spec cf I T n E laws _ use_tmout (ci_world _ Hi1) (ci_wf _ Hi1)
      (cal_inv_size _ Hi1)). }
  intros [flt s2] [[Hran _] Eo]. pose proof (cal_inv_ran _ _ Hran Hi1) as Hi2.
  destruct (cal_run_seen s s2 c q flt Hi Hq eq_refl Eo) as [Hseen Hzero].
  apply fuzz_run_outcome in Eo. destruct (stop_soon (world s2)) eqn:Es; cbn [orb]; [cbn [or_stop]; tauto|].
  case_bool_decide as Ec; cbn [negb]; [|cbn [or_stop]; tauto]. subst flt.
  destruct (_ && _) eqn:Ez; cbn [or_stop]; [|auto]. split; [exact Hi2|]. split; [done|]. split; [now right|].
  apply andb_prop in Ez as [_ Ez]. apply Hzero; [|lia].
  rewrite (cs_real _ _ (ci_cov _ Hi2)). symmetry. exact (cs_real _ _ (ci_cov _ Hi)).
Qed.

Lemma cal_compare_spec cksum max k s :
  cal_inv s -> exists k' max' s', cal_compare fl cf p cksum max k s = Ok (k', max', s') /\ cal_inv s' /\
    world s' = world s /\ trace_of s' = trace_of s /\ actual_counts (acov (state s')) = actual_counts (acov (state s)) /\
    cal_fault k' = cal_fault k /\ (max' = max \/ max' = CAL_CYCLES \/ max' = CAL_CYCLES_LONG).
Proof.
  intros Hi. destruct (cal_inv_deref s Hi) as (q & Hd & Hq & _). unfold cal_compare. rewrite Hd. cbn [mbind res_bind].
  destruct (exec_cksum q =? cksum); [do 3 eexists; split; [reflexivity|]; auto 10|].
  pose proof (note_bits_inv k s Hi) as Hi1.
  pose proof (few_bits_same fl (acov (state s)) VBits (qw_cov _ (ci_wf s Hi))) as (_ & Ht & Ha).
  assert (Hw : world (note_bits fl k s).2 = world s /\ trace_of (note_bits fl k s).2 = trace_of s /\
    actual_counts (acov (state (note_bits fl k s).2)) = actual_counts (acov (state s)) /\
    cal_fault (note_bits fl k s).1 = cal_fault k).
  { unfold note_bits. destruct (has_few_bits _ _ _) as [hnb c]. cbn in Ht, Ha. auto. }
  destruct (note_bits fl k s) as [k1 s1]. cbn [fst snd] in *. destruct Hw as (W1 & W2 & W3 & W4).
  destruct (truthy (exec_cksum q)).
  - do 3 eexists. split; [reflexivity|]. split; [now apply note_variable_inv|].
    assert (Hv : world (note_variable s1) = world s1 /\ trace_of (note_variable s1) = trace_of s1 /\
      actual_counts (acov (state (note_variable s1))) = actual_counts (acov (state s1))).
    { unfold note_variable. destruct (mark_var_bytes _ _ _ _). done. }
    destruct Hv as (-> & -> & ->). repeat (split; [assumption|]). destruct (afl_cal_fast cf); auto.
  - do 3 eexists. split; [reflexivity|]. split; [|auto 10].
    apply (cal_inv_same (on_state (upd p (set_exec_cksum cksum)) s1)); [apply Hi1|done|done|]. now apply cal_inv_upd.
Qed.

(** What the loop ends with. *)
Definition cycles_done (r : bool * cal * Z * sess W) : Prop :=
  let '(aborted, k, max, s) := r in
  cal_inv s /\ 0 < max <= CAL_CYCLES_LONG /\ cal_fault k <> FSRV_RUN_NOBITS /\
  run_seen (cal_fault k) s /\
  if aborted : bool then stop_soon (world s) = true \/ cal_fault k <> FSRV_RUN_CRASH
  else cal_fault k = FSRV_RUN_CRASH.

Lemma cal_loop_spec fuel cur max k s :
  0 < max <= CAL_CYCLES_LONG -> CAL_CYCLES_LONG - cur <= Z.of_nat fuel -> cal_inv s ->
  (cur < max \/ (cal_fault k = FSRV_RUN_CRASH /\ run_seen FSRV_RUN_CRASH s)) ->
  or_fatal E (cal_loop fl cf hash64 p use_mem use_tmout fuel cur max k s) cycles_done.
Proof.
  revert cur max k s. induction fuel as [|f IH]; intros cur max k s Hm Hf Hi Hc; cbn [cal_loop];
    destruct (Z.ltb_spec cur max) as [Hlt|Hge]; cbn [negb]; [lia| | |];
    try (cbn [or_stop cycles_done]; destruct Hc as [Hc|[Hc Hs]]; [lia|]; rewrite Hc; auto 6; fail).
  apply or_stop_bind. eapply or_stop_mono; [apply (cal_run_spec (cur =? 0) s Hi)|].
  intros [[flt|] s1] [Hi1 Hs].
  - destruct Hs as (Hs1 & Hs2 & Hs3). cbn [or_stop cycles_done]. auto.
  - set (s2 := on_state _ s1).
    assert (Hi2 : cal_inv s2).
    { unfold s2. apply (cal_inv_acov s1 (classify_counts fl (acov (state s1))) Hi1);
        [apply classify_counts_wf|apply classify_cov_same]; apply (ci_wf _ Hi1). }
    destruct (cal_compare_spec (hash64 (trace_of s2)) max (with_fault k FSRV_RUN_CRASH) s2 Hi2)
      as (k' & max' & s' & Ek & Hi' & _ & _ & _ & Hfk & Hmax).
    rewrite Ek. cbn [mbind res_bind]. apply IH; [|lia|exact Hi'|right; split; [exact Hfk|exact (run_seen_crash _ _ Hs)]].
    unfold CAL_CYCLES, CAL_CYCLES_LONG in *. lia.
Qed.

(** ** The end of a calibration *)

Lemma frame_ident (a a' : afl) :
  frame a a' -> map ident (queue_buf a') = map ident (queue_buf a) /\ afl_rest a' = afl_rest a /\
  variable_behavior a' = variable_behavior a /\ acov a' = acov a.
Proof.
  intros [E1 E2]. split; [|split; [|split]]; try (rewrite E2; reflexivity).
  assert (Hc : forall l, map ident l = map ident (map core l)) by (intros l; rewrite map_map; now apply map_ext).
  rewrite (Hc (queue_buf a')), E1. symmetry. apply Hc.
Qed.

Lemma cal_stats_wf max d handicap s : queue_wf (state s) -> queue_wf (state (cal_stats p max d handicap s)).
Proof.
  intros Hwf. unfold cal_stats, on_state. cbn [state set_state].
  set (b := upd p _ _). assert (Hb : queue_wf b).
  { subst b. apply queue_wf_upd; [|done]. destruct Hwf. split; assumption. }
  destruct Hb. split; assumption.
Qed.

Lemma cal_stats_lookup max d handicap s q :
  queue_buf (state s) !! p = Some q ->
  queue_buf (state (cal_stats p max d handicap s)) !! p
  = Some (set_cal_failed 0 (set_handicap handicap (set_bitmap_size (count_bytes (acov (state s)) (trace_of s))
            (set_exec_us (d / max) q)))).
Proof.
  intros Hq. unfold cal_stats, on_state, upd. cbn. now rewrite lookup_alter_eq, Hq.
Qed.

Lemma cal_stats_kept max d handicap s : kept p s (cal_stats p max d handicap s).
Proof. split; [now apply map_alter_same|]. split; [done|]. split; [done|]. apply others_alter. Qed.

Lemma cal_stats_same max d handicap s :
  acov (state (cal_stats p max d handicap s)) = acov (state s) /\ world (cal_stats p max d handicap s) = world s /\
  variable_behavior (state (cal_stats p max d handicap s)) = variable_behavior (state s).
Proof. done. Qed.

(** Lowering the minima changes nothing else. *)
Lemma lower_mins_step s size (lower : bool) :
  queue_wf (state s) ->
  exists s', (if lower then on_state (fun a => set_acov (lower_mins (acov a) size) a) s else s) = s' /\
    queue_wf (state s') /\ queue_buf (state s') = queue_buf (state s) /\ kept p s s' /\ world s' = world s /\
    variable_behavior (state s') = variable_behavior (state s) /\
    acov (state s') = if lower then lower_mins (acov (state s)) size else acov (state s).
Proof.
  intros Hwf. eexists. split; [reflexivity|]. destruct lower; [|exact (conj Hwf (conj eq_refl (conj (kept_refl p s)
    (conj eq_refl (conj eq_refl eq_refl)))))].
  split; [unfold on_state; apply queue_wf_acov; [exact Hwf|apply cov_wf_mins, Hwf|reflexivity|reflexivity]|].
  split; [reflexivity|]. split; [split; [reflexivity|split; [reflexivity|done]]|]. split; [reflexivity|]. split; reflexivity.
Qed.

Lemma core_cal q q' : core q' = core q ->
  cal_failed q' = cal_failed q /\ bitmap_size q' = bitmap_size q /\ State.handicap q' = State.handicap q /\
  var_behavior q' = var_behavior q.
Proof.
  intros E1. split; [exact (f_equal cal_failed E1)|]. split; [exact (f_equal bitmap_size E1)|].
  split; [exact (f_equal State.handicap E1)|exact (f_equal var_behavior E1)].
Qed.

(** What a completed calibration leaves: [c] and [t] are the coverage state
    and the trace after the last run. *)
Definition completed (c : cov) (nb handicap : Z) s : Prop :=
  let size := count_bytes c (trace_bits c) in
  acov (state s) = (if 0x10 <? nb then lower_mins c size else c) /\
  exists q, queue_buf (state s) !! p = Some q /\ cal_failed q = 0 /\ bitmap_size q = size /\
    State.handicap q = handicap /\ var_behavior q = v0.2.

Definition finished s : Prop :=
  I (world s) /\ queue_wf (state s) /\ kept p s0 s /\ variable_behavior (state s) = variable_behavior (state s0).

Lemma cal_finish_spec start_us max handicap first_run k s :
  cal_inv s -> 0 < max -> cal_fault k = FSRV_RUN_CRASH ->
  exists s', cal_finish cf p start_us max handicap first_run k s = Ok (k, s') /\ finished s' /\
    completed (acov (state s)) (new_bits k) handicap s'.
Proof.
  intros Hi Hm Hk. unfold cal_finish.
  assert (Ht : exists d s1, cal_time cf start_us max s = (d, s1) /\
    cal_inv s1 /\ state s1 = state s).
  { unfold cal_time. destruct (fixed_seed (state s)); [eauto|]. pose proof (proj2 (tl_time _ _ _ _ laws _ (ci_world _ Hi))) as Hw.
    destruct (get_cur_time_us (world s)) as [us w]. do 2 eexists. split; [reflexivity|]. split; [|done].
    now apply (cal_inv_same s). }
  destruct Ht as (d & s1 & -> & Hi1 & Es1). destruct (Z.eqb_spec max 0); [lia|]. cbv zeta.
  destruct (cal_inv_deref s1 Hi1) as (q & _ & Hq & Hv).
  pose proof (cal_stats_lookup max d handicap s1 q Hq) as Hq2. pose proof (cal_stats_wf max d handicap s1 (ci_wf _ Hi1)) as Hw2.
  pose proof (cal_stats_kept max d handicap s1) as Hk2.
  assert (Es : count_bytes (acov (state s)) (trace_bits (acov (state s))) = count_bytes (acov (state s1)) (trace_of s1))
    by (unfold trace_of; now rewrite Es1).
  set (size := count_bytes (acov (state s1)) (trace_of s1)) in *. clearbody size.
  destruct (cal_stats_same max d handicap s1) as (C1 & C2 & C3). rewrite Es1 in C1.
  set (s2 := cal_stats p max d handicap s1) in *. clearbody s2.
  unfold deref. rewrite (proj2 (rd_ok _ _ _) Hq2). cbn [mbind res_bind].
  cbn [bitmap_size set_cal_failed set_handicap set_bitmap_size set_exec_us].
  destruct (lower_mins_step s2 size (0x10 <? new_bits k) Hw2) as (s3 & E3 & W3 & Q3 & K3 & D3 & V3 & A3).
  rewrite E3, C1 in *. clear E3. rewrite <- Q3 in Hq2.
  destruct (update_bitmap_score_spec (state s3) p _ W3 Hq2) as (a & Ea & Hf & Hwa & _). rewrite Ea.
  cbn [mbind res_bind]. rewrite Hk. rewrite bool_decide_false by discriminate. rewrite andb_false_r. cbn [andb].
  destruct (frame_ident _ _ Hf) as (F1 & F2 & F3 & F4).
  eexists. split; [reflexivity|]. split; [split; [|split; [exact Hwa|split]]|].
  - change (I (world s3)). rewrite D3, C2. apply Hi1.
  - eapply kept_trans; [exact (ci_kept _ Hi1)|]. eapply kept_trans; [exact Hk2|]. eapply kept_trans; [exact K3|].
    split; [exact F1|]. split; [exact F2|]. split; [reflexivity|]. apply others_core, Hf.
  - change (variable_behavior a = variable_behavior (state s0)). rewrite F3, V3, C3. apply Hi1.
  - unfold completed. rewrite Es. split; [change (acov a = (if 0x10 <? new_bits k then lower_mins (acov (state s)) size else acov (state s))); now rewrite F4|].
    assert (Hl : is_Some (queue_buf a !! p)).
    { apply lookup_lt_is_Some_2. rewrite (frame_length _ _ Hf). eapply lookup_lt_Some. exact Hq2. }
    destruct Hl as [q' Hq']. destruct (frame_lookup _ _ _ _ Hf Hq') as (q1 & Hq1 & Hc). rewrite Hq2 in Hq1. injection Hq1 as <-.
    destruct (core_cal _ _ Hc) as (G1 & G2 & G3 & G4). exists q'. split; [exact Hq'|].
    split; [exact G1|]. split; [exact G2|]. split; [exact G3|]. rewrite <- Hv. exact G4.
Qed.

(** Marking the entry: its name has a directory, and no file of that name
    stands in the way. *)
Context (Hname : forall q, queue_buf (state s0) !! p = Some q ->
  exists fn, base_name q = Ok fn /\ (var_behavior q = false -> fn ∈ variable_behavior (state s0) -> E)).
Context (Hv0 : forall q, queue_buf (state s0) !! p = Some q -> var_behavior q = v0.2).

(** What is decided about the entry and the minima stays. *)
Definition result_of s := (acov (state s), (fun q => (cal_failed q, bitmap_size q, State.handicap q)) <$> queue_buf (state s) !! p).

Lemma finished_upd s f :
  finished s -> (forall q, refs_of (f q) = refs_of q) -> (forall q, ident (f q) = ident q) ->
  finished (on_state (upd p f) s).
Proof.
  intros (H1 & H2 & H3 & H4) Hr Hi. split; [exact H1|]. split; [unfold on_state; now apply queue_wf_upd|].
  split; [|exact H4]. eapply kept_trans; [exact H3|]. now apply kept_upd.
Qed.

(** What the calibration leaves of the markers of variable entries: one more at
    most, that of the entry. *)
Definition var_noted s : Prop :=
  (variable_behavior (state s) = variable_behavior (state s0) /\
   exists q, queue_buf (state s) !! p = Some q /\ var_behavior q = v0.2) \/
  exists q0 q fn, queue_buf (state s0) !! p = Some q0 /\ base_name q0 = Ok fn /\
    variable_behavior (state s) = {[fn]} ∪ variable_behavior (state s0) /\
    queue_buf (state s) !! p = Some q /\ var_behavior q = true.

Lemma mark_as_variable_spec s q fn :
  finished s -> queue_buf (state s) !! p = Some q -> base_name q = Ok fn ->
  (fn ∈ variable_behavior (state s) -> E) ->
  or_fatal E (mark_as_variable (state s) p) (fun a =>
    let s' := set_state a s in
    I (world s') /\ queue_wf a /\ kept p s0 s' /\ result_of s' = result_of s /\ var_noted s').
Proof.
  intros (H1 & H2 & H3 & H4) Hq Hb Hfn. unfold mark_as_variable, deref. rewrite (proj2 (rd_ok _ _ _) Hq).
  cbn [mbind res_bind]. rewrite Hb. cbn [mbind res_bind]. unfold fs_create.
  destruct (decide _) as [Hin|Hin]; cbn [mbind res_bind or_stop]; [auto|]. split; [exact H1|].
  set (d := _ ∪ _). assert (Hw : queue_wf (set_variable_behavior d (state s))) by (destruct H2; split; assumption).
  split; [now apply queue_wf_upd|]. split.
  - eapply kept_trans; [exact H3|]. split; [now apply map_alter_same|]. split; [done|]. split; [done|]. apply others_alter.
  - split; [unfold result_of, upd; cbn; now rewrite lookup_alter_eq, Hq|]. right.
    destruct (kept_lookup _ _ _ _ _ H3 Hq) as (q0 & Hq0 & Id0). exists q0, (set_var_behavior true q), fn.
    split; [exact Hq0|]. split; [rewrite <- Hb; unfold base_name; do 2 f_equal; exact (f_equal (fun x => x.1.1.1.1.1.1.1.1) (eq_sym Id0))|].
    split; [subst d; unfold upd; cbn; now rewrite H4|]. split; [|done]. unfold upd. cbn. now rewrite lookup_alter_eq, Hq.
Qed.

Lemma cal_end_spec k s q :
  finished s -> queue_buf (state s) !! p = Some q -> var_behavior q = v0.2 ->
  or_fatal E (cal_end p k s) (fun s' =>
    I (world s') /\ queue_wf (state s') /\ kept p s0 s' /\ result_of s' = result_of s /\ world s' = world s /\
    trace_of s' = trace_of s /\ var_noted s').
Proof.
  intros Hf Hq Hvb. unfold cal_end, deref. rewrite (proj2 (rd_ok _ _ _) Hq). cbn [mbind res_bind].
  set (s1 := if truthy _ && _ then _ else s).
  assert (H1 : finished s1 /\ result_of s1 = result_of s /\ world s1 = world s /\ trace_of s1 = trace_of s /\
    exists q1, queue_buf (state s1) !! p = Some q1 /\ ident q1 = ident q /\ var_behavior q1 = var_behavior q).
  { subst s1. destruct (_ && _); [|split; [exact Hf|]; repeat (split; [done|]); eauto].
    split; [now apply (finished_upd s (set_has_new_cov true))|].
    split; [unfold result_of, on_state, upd; cbn; rewrite lookup_alter_eq, Hq; done|].
    split; [done|]. split; [done|]. exists (set_has_new_cov true q). split; [|done].
    unfold on_state, upd. cbn. now rewrite lookup_alter_eq, Hq. }
  clearbody s1. destruct H1 as (F1 & R1 & W1 & T1 & q1 & Hq1 & Id1 & V1). rewrite <- R1, <- W1, <- T1.
  assert (Hdone : forall g, I (world (on_stat g s1)) /\ queue_wf (state (on_stat g s1)) /\ kept p s0 (on_stat g s1) /\
    result_of (on_stat g s1) = result_of s1 /\ world (on_stat g s1) = world s1 /\ trace_of (on_stat g s1) = trace_of s1 /\
    var_noted (on_stat g s1)).
  { intros g. destruct F1 as (A1 & A2 & A3 & A4). split; [exact A1|]. split; [exact A2|]. split; [exact A3|].
    do 3 (split; [done|]). left. split; [exact A4|]. exists q1. split; [exact Hq1|congruence]. }
  destruct (var_detected k); [|exact (Hdone (fun x => x))].
  destruct (var_behavior q) eqn:Eb; [exact (Hdone _)|]. set (g := set_var_byte_count _). specialize (Hdone g).
  pose proof F1 as (_ & _ & K1 & V0). destruct (kept_lookup _ _ _ _ _ K1 Hq1) as (q0 & Hq0 & Id0).
  destruct (Hname q0 Hq0) as (fn & Hfn & Hno).
  assert (Hb1 : base_name q1 = Ok fn).
  { rewrite <- Hfn. unfold base_name. do 2 f_equal. exact (f_equal (fun x => x.1.1.1.1.1.1.1.1) Id0). }
  apply or_stop_bind. eapply or_stop_mono.
  { apply (mark_as_variable_spec (on_stat g s1) q1 fn); [exact F1|exact Hq1|exact Hb1|].
    change (fn ∈ variable_behavior (state s1) -> E). rewrite V0. apply Hno. rewrite (Hv0 q0 Hq0). congruence. }
  intros a (A1 & A2 & A3 & A4 & A5). cbn [or_stop]. split; [exact A1|]. split; [exact A2|]. split; [exact A3|].
  split; [exact A4|]. split; [done|]. split; [|exact A5].
  apply (f_equal fst) in A4. cbn in A4. unfold trace_of. cbn. now rewrite A4.
Qed.

(** ** The whole calibration *)

(** The minima follow a completed calibration that found a decrease. *)
Definition mins_after (c c' : cov) (size : Z) : Prop :=
  (min_actual_cnts c' = min_actual_cnts c /\ min_bitmap_size c' = min_bitmap_size c) \/
  (min_actual_cnts c' = Z.min (min_actual_cnts c) (actual_counts c') /\
   min_bitmap_size c' = Z.min (min_bitmap_size c) size).

Definition calibrated (handicap : Z) (r : fsrv_run_result * sess W) : Prop :=
  let '(flt, s) := r in
  let c := acov (state s0) in let c' := acov (state s) in
  I (world s) /\ queue_wf (state s) /\ kept p s0 s /\ dims c' = dims c /\ flt <> FSRV_RUN_NOBITS /\
  (run_seen flt s /\ var_noted s) /\
  exists q, queue_buf (state s) !! p = Some q /\
    ((flt = FSRV_RUN_CRASH /\ cal_failed q = 0 /\ State.handicap q = handicap /\
      bitmap_size q = count_bytes c' (trace_bits c') /\ mins_after c c' (bitmap_size q)) \/
     ((stop_soon (world s) = true \/ flt <> FSRV_RUN_CRASH) /\ cal_failed q = v0.1.1 /\ bitmap_size q = v0.1.2 /\
      min_actual_cnts c' = min_actual_cnts c /\ min_bitmap_size c' = min_bitmap_size c)).

Lemma completed_mins c nb handicap s :
  cov_same (acov (state s0)) c -> completed c nb handicap s ->
  exists q, queue_buf (state s) !! p = Some q /\ cal_failed q = 0 /\ State.handicap q = handicap /\
    bitmap_size q = count_bytes (acov (state s)) (trace_bits (acov (state s))) /\
    mins_after (acov (state s0)) (acov (state s)) (bitmap_size q) /\ var_behavior q = v0.2.
Proof.
  intros Hs (Ec & q & H1 & H2 & H3 & H4 & H5). exists q. split; [exact H1|]. split; [exact H2|]. split; [exact H4|].
  assert (Hb : count_bytes (acov (state s)) (trace_bits (acov (state s))) = count_bytes c (trace_bits c))
    by (rewrite Ec; destruct (0x10 <? nb); reflexivity).
  split; [congruence|]. split; [|exact H5]. rewrite H3. destruct Hs as [_ _ _ [M1 M2]]. rewrite Ec. unfold mins_after.
  destruct (0x10 <? nb); [right|left; auto]. unfold lower_mins, set_mins.
  cbn [min_actual_cnts min_bitmap_size actual_counts]. rewrite M1, M2. split; zcases; lia.
Qed.

(** An aborted calibration goes to the end at once. *)
Lemma cal_abort_spec k s handicap :
  cal_inv s -> cal_fault k <> FSRV_RUN_NOBITS -> (stop_soon (world s) = true \/ cal_fault k <> FSRV_RUN_CRASH) ->
  run_seen (cal_fault k) s -> or_fatal E (cal_end p k s) (fun s' => calibrated handicap (cal_fault k, s')).
Proof.
  intros Hi Hnb Hab Hseen. destruct (ci_entry s Hi) as (q & Hq & Hv).
  assert (Hf : finished s) by (split; [apply Hi|]; split; [apply Hi|]; split; apply Hi).
  eapply or_stop_mono; [apply (cal_end_spec k s q Hf Hq); now rewrite <- Hv|].
  intros s' (A1 & A2 & A3 & A4 & A5 & _ & A6). unfold result_of in A4. rewrite Hq in A4. injection A4 as Ec Eq.
  split; [exact A1|]. split; [exact A2|]. split; [exact A3|].
  split; [rewrite Ec; exact (cov_same_dims _ _ (ci_cov s Hi))|]. split; [exact Hnb|].
  split; [split; [|exact A6]; destruct Hseen as [Hs|[Hs1 Hs2]]; [now left|right; now rewrite A5]|].
  destruct (queue_buf (state s') !! p) as [q'|]; [|discriminate]. injection Eq as F1 F2 _.
  exists q'. split; [done|]. right. rewrite A5, Ec, F1, F2, <- Hv. split; [exact Hab|]. split; [done|]. split; [done|].
  exact (cs_mins _ _ (ci_cov s Hi)).
Qed.

Lemma cal_cycles_spec handicap first_run s :
  cal_inv s -> or_fatal E (cal_cycles fl cf hash64 p use_mem use_tmout handicap first_run s) (calibrated handicap).
Proof.
  intros Hi. destruct (cal_inv_deref s Hi) as (q & Hd & _). unfold cal_cycles. rewrite Hd. cbn [mbind res_bind].
  set (k0 := mkCal 0 false FSRV_RUN_OK).
  assert (Hk : exists k1 s1, (if truthy (exec_cksum q) then note_bits fl k0 (set_first_trace (trace_of s) s) else (k0, s))
    = (k1, s1) /\ cal_inv s1).
  { destruct (truthy (exec_cksum q)); [|eauto].
    assert (Hi1 : cal_inv (set_first_trace (trace_of s) s)) by (apply (cal_inv_same s); [apply Hi|done|done|exact Hi]).
    pose proof (note_bits_inv k0 _ Hi1) as Hi2. destruct (note_bits _ _ _) as [k1 s1]. eauto. }
  destruct Hk as (k1 & s1 & -> & Hi1). pose proof (proj2 (tl_time _ _ _ _ laws _ (ci_world _ Hi1))) as Hw.
  destruct (get_cur_time_us (world s1)) as [start_us w]. cbn [snd] in Hw. apply or_stop_bind. eapply or_stop_mono.
  { apply cal_loop_spec; [| | |].
    - unfold CAL_CYCLES_FAST, CAL_CYCLES, CAL_CYCLES_LONG. destruct (afl_cal_fast cf); lia.
    - unfold CAL_CYCLES_LONG. lia.
    - apply (cal_inv_same s1); [exact Hw|done|done|exact Hi1].
    - left. unfold CAL_CYCLES_FAST, CAL_CYCLES. destruct (afl_cal_fast cf); lia. }
  intros [[[aborted k] max] s2] (Hi2 & Hm & Hnb & Hseen & Ha). destruct aborted; cbn [mbind res_bind].
  - apply or_stop_bind. eapply or_stop_mono; [apply (cal_abort_spec k s2 handicap Hi2 Hnb Ha Hseen)|]. auto.
  - destruct (cal_finish_spec start_us max handicap first_run k s2 Hi2 ltac:(lia) Ha) as (s3 & E3 & Hf & Hc).
    rewrite E3. cbn [mbind res_bind].
    destruct (completed_mins _ _ _ _ (ci_cov _ Hi2) Hc) as (q3 & Hq3 & C1 & C2 & C3 & C4 & C5).
    apply or_stop_bind. eapply or_stop_mono; [apply (cal_end_spec k s3 q3 Hf Hq3 C5)|].
    intros s' (A1 & A2 & A3 & A4 & _ & _ & A6). cbn [or_stop]. unfold result_of in A4. rewrite Hq3 in A4.
    injection A4 as Ec Eq. split; [exact A1|]. split; [exact A2|]. split; [exact A3|].
    split; [rewrite Ec, (proj1 Hc), <- (cov_same_dims _ _ (ci_cov _ Hi2)); now destruct (0x10 <? new_bits k)|].
    split; [exact Hnb|]. split; [split; [|exact A6]; rewrite Ha in *; exact (run_seen_crash _ _ Hseen)|].
    destruct (queue_buf (state s') !! p) as [q'|]; [|discriminate]. injection Eq as F1 F2 F3.
    exists q'. split; [done|]. left. rewrite Ec, F1, F2, F3. auto.
Qed.
End Calibrate.

(** The entry once its failure count was raised. *)
Lemma cal_start_inv {W} p (I : W -> Prop) (s : sess W) q (reset : bool) :
  I (world s) -> queue_wf (state s) -> queue_buf (state s) !! p = Some q ->
  cal_inv p I s (u8 (cal_failed q + 1), bitmap_size q, var_behavior q)
    (on_state (upd p (set_cal_failed (u8 (cal_failed q + 1))))
       (if reset then on_state (upd p (set_exec_cksum 0)) s else s)).
Proof.
  intros Hw Hwf Hq. set (s1 := if reset then _ else s).
  assert (H1 : I (world s1) /\ queue_wf (state s1) /\ acov (state s1) = acov (state s) /\ kept p s s1 /\
    variable_behavior (state s1) = variable_behavior (state s) /\
    exists q1, queue_buf (state s1) !! p = Some q1 /\ verdict_of q1 = verdict_of q).
  { subst s1. destruct reset; [|repeat (split; [done|]); eauto]. split; [exact Hw|].
    split; [unfold on_state; now apply queue_wf_upd|]. split; [done|].
    split; [now apply kept_upd|]. split; [done|].
    exists (set_exec_cksum 0 q). split; [|done]. unfold on_state, upd. cbn. now rewrite lookup_alter_eq, Hq. }
  clearbody s1. destruct H1 as (A1 & A2 & A3 & A4 & A5 & q1 & Hq1 & Hv1). split.
  - exact A1.
  - unfold on_state. now apply queue_wf_upd.
  - change (cov_same (acov (state s)) (acov (state s1))). rewrite A3. apply cov_same_refl.
  - eapply kept_trans; [exact A4|]. now apply kept_upd.
  - exists (set_cal_failed (u8 (cal_failed q + 1)) q1). split.
    + unfold on_state, upd. cbn. now rewrite lookup_alter_eq, Hq1.
    + unfold verdict_of in *. cbn. injection Hv1 as _ -> ->. done.
  - exact A5.
Qed.

Lemma cal_body_spec {W} `{World W} fl cf hash64 p use_mem use_tmout handicap I T n E (s : sess W) q fn :
  target_laws I T n E -> I (world s) -> queue_wf (state s) -> map_size (acov (state s)) = Z.of_nat n ->
  queue_buf (state s) !! p = Some q -> q_len q <= Z.of_nat (length use_mem) ->
  base_name q = Ok fn -> (var_behavior q = false -> fn ∈ variable_behavior (state s) -> E) ->
  or_fatal E (cal_body fl cf hash64 p use_mem use_tmout handicap s)
    (calibrated cf p use_mem use_tmout I s (u8 (cal_failed q + 1), bitmap_size q, var_behavior q) handicap).
Proof.
  intros Hlaws Hw Hwf Hn Hq Hlen Hb Hfn. unfold cal_body, deref. rewrite (proj2 (rd_ok _ _ _) Hq). cbn [mbind res_bind].
  set (v0 := (u8 (cal_failed q + 1), bitmap_size q, var_behavior q)).
  pose proof (cal_start_inv p I s q (cmplog_mode (state s)) Hw Hwf Hq) as Hi. fold v0 in Hi.
  set (s1 := on_state _ _) in *. clearbody s1.
  assert (Hmem : forall x, queue_buf (state s) !! p = Some x -> q_len x <= Z.of_nat (length use_mem))
    by (intros x Hx; rewrite Hq in Hx; now injection Hx as <-).
  assert (Hname : forall x, queue_buf (state s) !! p = Some x -> exists fn, base_name x = Ok fn /\
    (var_behavior x = false -> fn ∈ variable_behavior (state s) -> E))
    by (intros x Hx; rewrite Hq in Hx; injection Hx as <-; eauto).
  assert (Hv0 : forall x, queue_buf (state s) !! p = Some x -> var_behavior x = v0.2)
    by (intros x Hx; rewrite Hq in Hx; now injection Hx as <-).
  pose proof (fun s' Hi' => cal_cycles_spec fl cf hash64 p use_mem use_tmout I T n E Hlaws s v0 Hn Hmem Hname Hv0
    handicap (exec_cksum q =? 0) s' Hi') as Hc.
  destruct (cmplog_mode (state s)); [|now apply Hc].
  apply or_stop_bind. eapply or_stop_mono; [exact (cal_run_spec cf hash64 p use_mem use_tmout I T n E Hlaws s v0 Hn Hmem _ _ Hi)|].
  intros [[flt|] s2] [Hi2 Hf]; [|now apply Hc]. destruct Hf as (Hf1 & Hf2 & Hf3). apply or_stop_bind.
  eapply or_stop_mono; [exact (cal_abort_spec cf p use_mem use_tmout I E s v0 Hname Hv0 (mkCal 0 false flt) s2 handicap Hi2 Hf1 Hf2 Hf3)|].
  auto.
Qed.

(** C21: Calibration.  For every target, however its trace varies from run to
    run, [calibrate_case] ends within its twelve cycles and keeps the queue
    well-formed; it changes no entry's identity and no file but the marker of
    a variable entry.  If every run crashed, the entry has no failed
    calibration left, its bitmap size is the number of tuples of the last
    trace, and IgorFuzz's two minima are as before or are lowered to this
    entry's; otherwise one more failure is counted and the minima stay.  It
    never reports [FSRV_RUN_NOBITS]. *)
Theorem calibrate_case_correct {W} `{World W} fl cf hash64 p use_mem handicap from_queue I T n E (s : sess W) q fn :
  target_laws I T n E -> I (world s) -> queue_wf (state s) -> map_size (acov (state s)) = Z.of_nat n ->
  queue_buf (state s) !! p = Some q -> q_len q <= Z.of_nat (length use_mem) ->
  base_name q = Ok fn -> (var_behavior q = false -> fn ∈ variable_behavior (state s) -> E) ->
  or_fatal E (calibrate_case fl cf hash64 p use_mem handicap from_queue s) (fun '(flt, s') =>
    let c := acov (state s) in let c' := acov (state s') in
    queue_wf (state s') /\ kept p s s' /\ flt <> FSRV_RUN_NOBITS /\
    exists q', queue_buf (state s') !! p = Some q' /\
      ((flt = FSRV_RUN_CRASH /\ cal_failed q' = 0 /\ State.handicap q' = handicap /\
        bitmap_size q' = count_bytes c' (trace_bits c') /\
        ((min_actual_cnts c' = min_actual_cnts c /\ min_bitmap_size c' = min_bitmap_size c) \/
         (min_actual_cnts c' = Z.min (min_actual_cnts c) (actual_counts c') /\
          min_bitmap_size c' = Z.min (min_bitmap_size c) (bitmap_size q')))) \/
       ((stop_soon (world s') = true \/ flt <> FSRV_RUN_CRASH) /\
        cal_failed q' = u8 (cal_failed q + 1) /\ bitmap_size q' = bitmap_size q /\
        min_actual_cnts c' = min_actual_cnts c /\ min_bitmap_size c' = min_bitmap_size c))).
Proof.
  intros Hlaws Hw Hwf Hn Hq Hlen Hb Hfn. eapply or_stop_mono.
  - exact (cal_body_spec fl cf hash64 p use_mem _ handicap I T n E s q fn Hlaws Hw Hwf Hn Hq Hlen Hb Hfn).
  - intros [flt s'] (_ & A2 & A3 & _ & A4 & _ & A5). auto.
Qed.

(** ** A target whose trace varies with nothing *)

Definition const_trace (t : list Z) : list Z := [0; 4; 200] ++ replicate 61 0.

Lemma const_trace_ok t : bytes (const_trace t) /\ length (const_trace t) = 64%nat.
Proof. split; [|reflexivity]. apply bytesb_spec. reflexivity. Qed.

Lemma calibrate_case_correct_witness :
  exists r, @calibrate_case unit (toy const_trace) Word64 conf0 (zsum id) 1 (replicate 20 65) 0 false (sess0 afl0) = Ok r.
Proof.
  assert (Hl : q_len (named_entry [0x2f; 98] 20) <= Z.of_nat (length (replicate 20 65)))
    by (rewrite length_replicate; cbn [q_len named_entry]; lia).
  assert (Hv : var_behavior (named_entry [0x2f; 98] 20) = false -> [98] ∈ variable_behavior (state (sess0 afl0)) -> False)
    by (intros _ Hin; set_solver).
  pose proof (@calibrate_case_correct unit (toy const_trace) Word64 conf0 (zsum id) 1 (replicate 20 65) 0 false
    (fun _ => True) _ 64 False (sess0 afl0) (named_entry [0x2f; 98] 20) [98]
    (toy_laws const_trace 64 const_trace_ok) Logic.I afl0_wf eq_refl eq_refl Hl eq_refl Hv) as Hr.
  apply or_fatal_returns in Hr as (r & Er & _). exists r. exact Er.
Defined.
