(* ===== verification/Describe.v ===== *)
(** Names and messages: [describe_op] and [write_crash_detail] of
    [src/afl-fuzz-bitmap.c], without custom mutators. *)

From Stdlib Require Import String.
From S2P Require Import Prelude Words Arith Float State Bitmap Queue QueueScore TestcaseCache Callstack Session SessionThms.
#[local] Open Scope list_scope.
#[local] Open Scope Z_scope.

(** ** [printf] conversions *)

(** The digits of [n] in base [b]; twenty are enough for 64 bits. *)
Fixpoint digits_of (fuel : nat) (b n : Z) : list Z :=
  let d := n mod b in
  let c := if d <? 10 then 48 + d else 87 + d in
  match fuel with
  | O => [c]
  | S f => if n <? b then [c] else digits_of f b (n / b) ++ [c]
  end.

Definition fmt_u (n : Z) : list Z := digits_of 20 10 n.
Definition fmt_x (n : Z) : list Z := digits_of 20 16 n.
Definition fmt_d (n : Z) : list Z := if n <? 0 then 45 :: fmt_u (- n) else fmt_u n.
Definition fmt_plus_d (n : Z) : list Z := if n <? 0 then 45 :: fmt_u (- n) else 43 :: fmt_u n.
(** [%06u] *)
Definition fmt_06u (n : Z) : list Z := replicate (6 - length (fmt_u n)) 48 ++ fmt_u n.

(** ** [describe_op] *)

Definition STAGE_VAL_NONE : Z := 0.
Definition STAGE_VAL_BE : Z := 2.
Definition NAME_MAX : Z := 255.
Definition describe_op_buf_len : Z := 256.

(** What has decreased, or that there is new coverage. *)
Definition cov_suffix (new_bits : Z) : list Z :=
  if new_bits =? 0x02 then txt ",+cov"
  else if new_bits =? 0x11 then txt ",-xxh"
  else if new_bits =? 0x12 then txt ",-xcx"
  else if new_bits =? 0x13 then txt ",-xch"
  else if new_bits =? 0x14 then txt ",-bxx"
  else if new_bits =? 0x15 then txt ",-bxh"
  else if new_bits =? 0x16 then txt ",-bcx"
  else if new_bits =? 0x17 then txt ",-bch"
  else [].

(** The operation of a mutation stage. *)
Definition stage_desc (o : op_info) : list Z :=
  txt ",op:" ++ stage_short o ++
  (if 0 <=? stage_cur_byte o then
     txt ",pos:" ++ fmt_d (stage_cur_byte o) ++
     (if negb (stage_val_type o =? STAGE_VAL_NONE)
      then txt ",val:" ++ (if stage_val_type o =? STAGE_VAL_BE then txt "be:" else []) ++ fmt_plus_d (stage_cur_val o)
      else [])
   else txt ",rep:" ++ fmt_d (stage_cur_val o)).

(** Where the test case comes from; [time] is in milliseconds. *)
Definition source_desc (o : op_info) (time execs : Z) : list Z :=
  txt "src:" ++ fmt_06u (current_entry o) ++
  (if 0 <=? splicing_with o then txt "+" ++ fmt_06u (splicing_with o) else []) ++
  txt ",time:" ++ fmt_u time ++ txt ",execs:" ++ fmt_u execs ++ stage_desc o.

Section Describe.
Context {W : Type} `{World W} (cf : conf).
Implicit Types s : sess W.

(** The text goes to a buffer of 256 bytes. *)
Definition describe_op s (new_bits max_description_len : Z) : res (list Z * sess W) :=
  let '(is_timeout, new_bits) := if truthy (new_bits .& 0x20) then (true, u8 (new_bits - 0x20)) else (false, new_bits) in
  let '(ret, s) :=
    match syncing_name (op s) with
    | Some party => (txt "sync:" ++ party ++ txt ",src:" ++ fmt_06u (syncing_case (op s)), s)
    | None =>
        let '(now, w) := get_cur_time (world s) in
        (source_desc (op s) (u64 (now + prev_run_time (op s) - start_time (state s))) (total_execs (state s)),
         set_world w s)
    end in
  let ret := ret ++ (if is_timeout : bool then txt ",+tout" else []) ++ cov_suffix new_bits in
  if describe_op_buf_len <=? Z.of_nat (length ret) then Err Fault
  else if max_description_len <=? Z.of_nat (length ret) then Err Fatal
  else Ok (ret, s).

(** ** [write_crash_detail] *)

Definition IGORFUZZ_CALLSTACK_NUL_TEXT : list Z := txt "null".
Definition IGORFUZZ_NEW_CRASH_MODE_LV1 : Z := 1.
Definition IGORFUZZ_NEW_CRASH_MODE_LV2 : Z := 2.
Definition IGORFUZZ_NEW_CRASH_MODE_LV3 : Z := 3.

Definition crash_detail (c : site) (q : queue_entry) (counts : Z) : list Z :=
  txt "@FILE:" ++ fname q ++ txt "; @SIZE:" ++ fmt_x (bitmap_size q) ++ txt "; @HITS:" ++ fmt_x counts ++ txt "; " ++
  (if IGORFUZZ_NEW_CRASH_MODE_LV1 <=? crash_mode cf
   then txt "@ADDR:" ++ (match crash_module c with
                         | Some m => m ++ txt "+0x" ++ fmt_x (crash_offset c)
                         | None => IGORFUZZ_CALLSTACK_NUL_TEXT
                         end) ++ txt "; "
   else []) ++
  (if IGORFUZZ_NEW_CRASH_MODE_LV2 <=? crash_mode cf
   then txt "@FUNC:" ++ (match crash_symbol c with Some f => f | None => IGORFUZZ_CALLSTACK_NUL_TEXT end) ++ txt "; "
   else []) ++ [0x0a].

(** Appended to crashes/README.txt. *)
Definition write_crash_detail s (p : nat) : res (sess W) :=
  q ← deref (state s) p;
  Ok (set_readme (readme s ++ crash_detail (crash_site s) q (actual_counts (acov (state s)))) s).
End Describe.

(** ** The description fits *)

Lemma length_digits fuel b n : (length (digits_of fuel b n) <= S fuel)%nat.
Proof.
  revert n; induction fuel as [|f IH]; intros n; cbn [digits_of length]; [lia|].
  destruct (n <? b); [cbn; lia|]. rewrite length_app. specialize (IH (n / b)). cbn [length]. lia.
Qed.

(** At most [k] decimal digits below [10 ^ k]. *)
Lemma length_fmt_u k n : 0 <= n < 10 ^ Z.of_nat (S k) -> (length (fmt_u n) <= S k)%nat.
Proof.
  unfold fmt_u. generalize 20%nat as fuel. intros fuel. revert k n.
  induction fuel as [|f IH]; intros k n Hn; cbn [digits_of length]; [lia|].
  destruct (Z.ltb_spec n 10); [cbn; lia|]. rewrite length_app. cbn [length].
  destruct k as [|k]; [change (10 ^ Z.of_nat 1) with 10 in Hn; lia|].
  rewrite Nat2Z.inj_succ, Z.pow_succ_r in Hn by lia.
  assert (length (digits_of f 10 (n / 10)) <= S k)%nat; [|lia].
  apply IH. split; [apply Z.div_pos; lia|apply Z.div_lt_upper_bound; lia].
Qed.

Lemma length_fmt_06u n : 0 <= n < 2 ^ 32 -> (length (fmt_06u n) <= 10)%nat.
Proof.
  intros Hn. assert (length (fmt_u n) <= 10)%nat by (apply (length_fmt_u 9); lia).
  unfold fmt_06u. rewrite length_app, length_replicate. lia.
Qed.

Lemma length_fmt_s32 n : - 2 ^ 31 <= n < 2 ^ 31 -> (length (fmt_d n) <= 11)%nat /\ (length (fmt_plus_d n) <= 11)%nat.
Proof.
  intros Hn. unfold fmt_d, fmt_plus_d. destruct (Z.ltb_spec n 0).
  - assert (length (fmt_u (- n)) <= 10)%nat by (apply (length_fmt_u 9); lia). cbn [length]. lia.
  - assert (length (fmt_u n) <= 10)%nat by (apply (length_fmt_u 9); lia). cbn [length]. lia.
Qed.

Lemma length_fmt_u_any n : (length (fmt_u n) <= 21)%nat.
Proof. apply length_digits. Qed.

(** The values are in the range of their types and the names are short. *)
Record op_ok (o : op_info) : Prop := {
  oo_entry : 0 <= current_entry o < 2 ^ 32;
  oo_splice : - 2 ^ 31 <= splicing_with o < 2 ^ 31;
  oo_byte : - 2 ^ 31 <= stage_cur_byte o < 2 ^ 31;
  oo_val : - 2 ^ 31 <= stage_cur_val o < 2 ^ 31;
  oo_short : (length (stage_short o) <= 64)%nat;
  oo_party p : syncing_name o = Some p -> (length p <= 200)%nat;
  oo_case : 0 <= syncing_case o < 2 ^ 32
}.

Lemma length_stage_desc o : op_ok o -> (length (stage_desc o) <= 103)%nat.
Proof.
  intros []. destruct (length_fmt_s32 (stage_cur_byte o) oo_byte0) as [L1 _].
  destruct (length_fmt_s32 (stage_cur_val o) oo_val0) as [L2 L3].
  unfold stage_desc. destruct (0 <=? stage_cur_byte o); [destruct (negb _); [destruct (_ =? STAGE_VAL_BE)|]|];
    rewrite ?length_app; cbn [length txt list_ascii_of_string map]; lia.
Qed.

Lemma length_source_desc o t e :
  op_ok o -> (length (source_desc o t e) <= 183)%nat.
Proof.
  intros Ho. pose proof (length_stage_desc o Ho). destruct Ho.
  pose proof (length_fmt_u_any t). pose proof (length_fmt_u_any e).
  pose proof (length_fmt_06u _ oo_entry0). unfold source_desc. destruct (Z.leb_spec 0 (splicing_with o)).
  - assert (length (fmt_06u (splicing_with o)) <= 10)%nat by (apply length_fmt_06u; lia).
    rewrite !length_app; cbn [length txt list_ascii_of_string map]; lia.
  - rewrite !length_app; cbn [length txt list_ascii_of_string map]; lia.
Qed.

Lemma length_cov_suffix nb : (length (cov_suffix nb) <= 5)%nat.
Proof. unfold cov_suffix. repeat case_match; cbn; lia. Qed.

Section Fits.
Context {W : Type} `{World W}.

(** The world after the clock may have been read. *)
Definition clock_read (s s' : sess W) : Prop := s' = s \/ s' = set_world (get_cur_time (world s)).2 s.

Lemma describe_op_ok (s : sess W) nb max :
  op_ok (op s) -> 245 <= max ->
  exists base s', clock_read s s' /\ (length base <= 220)%nat /\
    describe_op s nb max = Ok (base ++ (if truthy (nb .& 0x20) then txt ",+tout" else []) ++
      cov_suffix (if truthy (nb .& 0x20) then u8 (nb - 0x20) else nb), s').
Proof.
  intros Ho Hm. unfold describe_op.
  assert (Hb : exists base s', clock_read s s' /\ (length base <= 220)%nat /\
    match syncing_name (op s) with
    | Some party => (txt "sync:" ++ party ++ txt ",src:" ++ fmt_06u (syncing_case (op s)), s)
    | None => let '(now, w) := get_cur_time (world s) in
              (source_desc (op s) (u64 (now + prev_run_time (op s) - start_time (state s))) (total_execs (state s)),
               set_world w s)
    end = (base, s')).
  { destruct (syncing_name (op s)) as [party|] eqn:Ep.
    - do 2 eexists. split; [now left|]. split; [|reflexivity].
      pose proof (oo_party _ Ho _ Ep). pose proof (length_fmt_06u _ (oo_case _ Ho)).
      rewrite !length_app. cbn [length txt list_ascii_of_string map]. lia.
    - pose proof (fun t => length_source_desc (op s) t (total_execs (state s)) Ho) as Hl.
      destruct (get_cur_time (world s)) as [now w] eqn:Et.
      do 2 eexists. split; [right; now rewrite Et|]. split; [|reflexivity].
      etransitivity; [apply Hl|lia]. }
  destruct Hb as (base & s' & Hs & Hl & E). exists base, s'. split; [exact Hs|]. split; [exact Hl|].
  set (tout := truthy (nb .& 0x20)).
  pose proof (length_cov_suffix (if tout then u8 (nb - 0x20) else nb)) as Hc.
  destruct tout; cbv iota; rewrite E; cbv iota beta;
    (rewrite (proj2 (Z.leb_gt _ _)) by (rewrite !length_app; cbn [length txt list_ascii_of_string map]; unfold describe_op_buf_len; lia));
    (rewrite (proj2 (Z.leb_gt _ _)) by (rewrite !length_app; cbn [length txt list_ascii_of_string map]; lia)); reflexivity.
Qed.

(** The description of a find always fits: whatever the stage, the
    counters and the clock, [describe_op] stays inside its buffer and below
    the length its callers allow for a file name, as long as stage names have
    at most 64 characters and other fuzzers' names at most 200. *)
Theorem describe_op_fits (s : sess W) nb :
  op_ok (op s) ->
  exists ret s', describe_op s nb (NAME_MAX - 10) = Ok (ret, s') /\ Z.of_nat (length ret) < NAME_MAX - 10 /\
    state s' = state s.
Proof.
  intros Ho. destruct (describe_op_ok s nb (NAME_MAX - 10) Ho ltac:(unfold NAME_MAX; lia))
    as (base & s' & Hs & Hl & E).
  do 2 eexists. split; [exact E|]. split.
  - pose proof (length_cov_suffix (if truthy (nb .& 0x20) then u8 (nb - 0x20) else nb)).
    rewrite !length_app. unfold NAME_MAX. destruct (truthy _); cbn [length txt list_ascii_of_string map]; lia.
  - destruct Hs as [-> | ->]; done.
Qed.
End Fits.

(** A fuzzer's directory may have a name of up to 255 bytes, which are more
    than the buffer holds. *)
Definition foreign_op : op_info := mkOp (Some (replicate 250 65)) 12 0 (-1) 0 [] 0 0 0.

Lemma describe_op_overflow :
  @describe_op unit (toy id) (set_op foreign_op (sess0 afl0)) 0x11 (NAME_MAX - 10) = Err Fault.
Proof. vm_compute. reflexivity. Qed.

(** An arithmetic stage's find that loses edges and hits, after a timeout. *)
Definition arith_op : op_info := mkOp None 0 3 (-1) 0 (txt "arith8") 17 1 (-35).

Lemma arith_op_ok : op_ok arith_op.
Proof. split; cbn; try lia. discriminate. Qed.

Lemma describe_op_fits_witness :
  exists ret s', @describe_op unit (toy id) (set_op arith_op (sess0 afl0)) (0x13 + 0x20) (NAME_MAX - 10) = Ok (ret, s') /\
    Z.of_nat (length ret) < 245 /\ ret = txt "src:000003,time:1000,execs:0,op:arith8,pos:17,val:-35,+tout,-xch".
Proof.
  destruct (@describe_op_fits unit (toy id) (set_op arith_op (sess0 afl0)) (0x13 + 0x20) arith_op_ok) as (ret & s' & E & Hl & _).
  exists ret, s'. split; [exact E|]. split; [exact Hl|].
  apply (f_equal (fun r => match r with Ok (x, _) => x | Err _ => [] end)) in E.
  vm_compute in E. vm_compute. symmetry. exact E.
Defined.
