(* ===== verification/Save.v ===== *)
(** Triage: [same_crash_site] and [save_if_interesting] of
    [src/afl-fuzz-bitmap.c], and [common_fuzz_stuff] of [src/afl-fuzz-run.c],
    for an instrumented target without custom mutators. *)

From Stdlib Require Import String.
From S2P Require Import Prelude Words Arith Float State Bitmap Text Queue TestcaseCache Callstack Session Files Calibrate Describe.
#[local] Open Scope list_scope.
#[local] Open Scope Z_scope.

Definition KEEP_UNIQUE_HANG : Z := 500.
Definition TMOUT_LIMIT : Z := 250.
Definition N_FUZZ_SIZE : Z := 2 ^ 21.

Section Save.
Context {W : Type} `{World W} (fl : flavour) (cf : conf).
Context (symbolize : list Z -> Z -> Z * option (list Z)) (hash64 : list Z -> Z) (accept : Z -> Z).
Context (can_create : gmap (list Z) (list Z) -> bool).
Implicit Types s : sess W.

(** ** The crash site *)

(** [find_crash_site(afl, 1, ...)]: the site, and the flushed file. *)
Definition look_at_crash s : site * sess W :=
  let '(found, stack) := find_crash_site (target_path cf) symbolize true (call_stack s) in
  (found, set_call_stack stack s).

(** The comparison: the symbol does not count. *)
Definition same_site (a b : site) : bool :=
  (crash_offset a =? crash_offset b) && bool_decide (crash_module a = crash_module b).

(** Take the entry out of the queue's business. *)
Definition discard_entry (p : nat) s : res (sess W) :=
  q ← deref (state s) p;
  let s := on_state (fun a => upd p (set_perf_score (dint 0)) (upd p (set_disabled true) a)) s in
  if was_fuzzed q then Ok s else
  Ok (on_state (fun a =>
    let a := upd p (set_was_fuzzed true) a in
    let a := set_pending_not_fuzzed (u32 (pending_not_fuzzed a - 1)) a in
    set_active_items (u32 (active_items a - 1)) a) s).

Definition same_crash_site s (q : option nat) (detail discard : bool) : res (bool * sess W) :=
  let old := crash_site s in
  let '(found, s) := look_at_crash s in
  let s := set_crash_site found s in
  if same_site old found then Ok (true, s) else
  s ← (match q with
       | Some p =>
           s ← (if detail then write_crash_detail cf s p else Ok s);
           if discard then discard_entry p s else Ok s
       | None => Ok s
       end);
  Ok (false, set_crash_site old s).

(** ** Saving *)

(** [few_bits == 0x10 || few_bits == 0x00] *)
Definition uninteresting (few_bits : Z) : bool := (few_bits =? 0x10) || (few_bits =? 0x00).

(** [few_bits = has_few_bits(afl, virgin)] *)
Definition few_bits_of (m : vmap) s : Z * sess W :=
  let '(few_bits, c) := has_few_bits fl (acov (state s)) m in (few_bits, on_state (set_acov c) s).

Definition classify s : sess W := on_state (fun a => set_acov (classify_counts fl (acov a)) a) s.

(** [open(fn, O_WRONLY | O_CREAT | O_EXCL)] and [ck_write]: [can_create] is
    whether the file system has room for one more file. *)
Definition create_file (d : gmap (list Z) (list Z)) (fn mem : list Z) (len : Z) : res (gmap (list Z) (list Z)) :=
  match d !! fn with
  | Some _ => Err Fatal
  | None =>
      if negb (can_create d) then Err Fatal else
      content ← ck_write accept mem len; Ok (<[fn := content]> d)
  end.

(** How often this path was seen, for the schedules that ask: the checksum
    and the saturated count. *)
Definition note_path s : res (bool * Z * sess W) :=
  if fast_or_rare (state s) then
    let s := classify s in
    let cksum := hash64 (trace_of s) in
    let i := Z.to_nat (cksum mod N_FUZZ_SIZE) in
    n ← rd (n_fuzz (state s)) i;
    if n <? 0xFFFFFFFF then
      l ← wr (n_fuzz (state s)) i (n + 1);
      Ok (true, cksum, on_state (set_n_fuzz l) s)
    else Ok (true, cksum, s)
  else Ok (false, 0, s).

(** The file of a hang. *)
Definition save_hang s (mem : list Z) (len : Z) : res (sess W) :=
  '(desc, s) ← describe_op s 0 (NAME_MAX - 10);
  let fn := out_dir cf ++ txt "/hangs/id:" ++ fmt_06u (saved_hangs (stat s)) ++ txt "," ++ desc in
  d ← create_file (hangs_dir s) fn mem len;
  let s := set_hangs_dir d s in
  let s := on_stat (fun x => set_saved_hangs (u64 (saved_hangs x + 1)) x) s in
  let '(now, w) := get_cur_time (world s) in
  Ok (on_stat (set_last_hang_time now) (set_world w s)).

(** The new entry's fields, once it is in the queue. *)
Definition dress_entry (p : nat) (few_bits cksum : Z) s : res (sess W) :=
  let s := if truthy (few_bits .& 0x02)
           then on_stat (fun x => set_queued_with_cov (u32 (queued_with_cov x + 1)) x)
                  (on_state (upd p (set_has_new_cov true)) s)
           else s in
  let s := on_state (upd p (set_exec_cksum (hash64 (trace_of s)))) s in
  if truthy cksum then
    let i := u32 (cksum mod N_FUZZ_SIZE) in
    let s := on_state (upd p (set_n_fuzz_entry i)) s in
    l ← wr (n_fuzz (state s)) (Z.to_nat i) 1;
    Ok (on_state (set_n_fuzz l) s)
  else Ok s.

(** The detail of the entry: with the third level of crash mode the site is
    compared once more, otherwise it is looked at anew. *)
Definition save_detail (p : nat) s : res (sess W) :=
  '(saved, s) ← (if truthy (crash_mode cf) then
      if IGORFUZZ_NEW_CRASH_MODE_LV3 <=? crash_mode cf
      then '(same, s) ← same_crash_site s (Some p) true false; Ok (negb same, s)
      else let '(found, s) := look_at_crash s in Ok (false, set_crash_site found s)
    else Ok (false, s));
  if saved : bool then Ok s else write_crash_detail cf s p.

(** Queue the find: its file, its entry, its calibration, its detail. *)
Definition queue_find s (mem : list Z) (len few_bits cksum : Z) (is_timeout : bool) : res (sess W) :=
  '(desc, s) ← describe_op s (u8 (few_bits + if is_timeout then 0x20 else 0)) (NAME_MAX - 10);
  let queue_fn := out_dir cf ++ txt "/queue/id:" ++ fmt_06u (queued_items (state s)) ++ txt "," ++ desc in
  d ← create_file (queue_dir s) queue_fn mem len;
  let s := set_queue_dir d s in
  let '(now, w) := get_cur_time (world s) in
  let s := set_world w s in
  let p := Z.to_nat (queued_items (state s)) in
  a ← add_to_queue (fun fn => d !! fn) None (fun _ => None) (state s) queue_fn len false now;
  s ← dress_entry p few_bits cksum (set_state a s);
  '(fault, s) ← calibrate_case fl cf hash64 p mem (u32 (queue_cycle cf - 1)) false s;
  if bool_decide (fault = FSRV_RUN_ERROR) then Err Fatal else
  s ← (if truthy (q_testcase_max_cache_size (tcache s))
       then '(c, a) ← queue_testcase_store_mem (tcache s) (state s) p mem; Ok (set_state a (set_tcache c s))
       else Ok s);
  s ← save_detail p s;
  let s := on_stat (fun x => set_saved_crashes (u64 (saved_crashes x + 1)) x) s in
  let '(now, w) := get_cur_time (world s) in
  let s := set_world w s in
  Ok (on_stat (fun x => set_last_crash_execs (total_execs (state s)) (set_last_crash_time now x)) s).

(** A crash: is it at the same site (third level), and does it cover less? *)
Definition save_crash s (mem : list Z) (len cksum : Z) (classified is_timeout : bool) : res (bool * sess W) :=
  let s := on_stat (fun x => set_total_crashes (u64 (total_crashes x + 1)) x) s in
  '(same, s) ← (if IGORFUZZ_NEW_CRASH_MODE_LV3 <=? crash_mode cf
                then same_crash_site s None false false else Ok (true, s));
  if negb same then Ok (false, s) else
  let s := if classified then s else classify s in
  let '(few_bits, s) := few_bits_of VBits s in
  if uninteresting few_bits then Ok (false, s) else
  s ← queue_find s mem len few_bits cksum is_timeout;
  Ok (true, s).

(** A timeout that looks new: run the target again with a more generous
    limit, unless the limit is generous already. *)
Definition rerun s (mem : list Z) (len : Z) : res (fsrv_run_result * Z * sess W) :=
  '(tmp_len, s) ← write_to_testcase cf s mem len false;
  '(len, s) ← (if truthy tmp_len then Ok (tmp_len, s) else write_to_testcase cf s mem len true);
  '(fault, s) ← fuzz_run_target cf s (hang_tmout cf);
  Ok (fault, len, classify s).

(** The [switch]; it is restarted when a timeout turns out to be something
    else, which cannot be a timeout again. *)
Fixpoint save_switch (fuel : nat) (fault : fsrv_run_result) s (mem : list Z) (len cksum : Z)
    (classified is_timeout : bool) : res (bool * sess W) :=
  match fault with
  | FSRV_RUN_TMOUT =>
      let s := on_stat (fun x => set_total_tmouts (u64 (total_tmouts x + 1)) x) s in
      if KEEP_UNIQUE_HANG <=? saved_hangs (stat s) then Ok (false, s) else
      let s := if classified then s else classify s in
      let s := put_trace (simplify_trace fl (acov (state s)) (trace_of s)) s in
      let '(few_bits, s) := few_bits_of VTmout s in
      if uninteresting few_bits then Ok (false, s) else
      if exec_tmout cf <? hang_tmout cf then
        '(fault, len, s) ← rerun s mem len;
        if bool_decide (fault = FSRV_RUN_TMOUT)
        then s ← save_hang s mem len; Ok (false, s)
        else match fuel with
             | O => Err OutOfFuel
             | S f => save_switch f fault s mem len cksum true true
             end
      else s ← save_hang s mem len; Ok (false, s)
  | FSRV_RUN_CRASH => save_crash s mem len cksum classified is_timeout
  | FSRV_RUN_ERROR => Err Fatal
  | _ => Ok (false, s)
  end.

Definition save_if_interesting s (mem : list Z) (len : Z) (fault : fsrv_run_result) : res (bool * sess W) :=
  if len =? 0 then Ok (false, s) else
  if bool_decide (fault = FSRV_RUN_TMOUT) && afl_ignore_timeouts cf then Ok (false, s) else
  '(classified, cksum, s) ← note_path s;
  save_switch 1 fault s mem len cksum classified false.

(** ** [common_fuzz_stuff] *)

(** The second component: bail out. *)
Definition common_fuzz_stuff s (out_buf : list Z) (len : Z) : res (sess W * bool) :=
  '(len, s) ← write_to_testcase cf s out_buf len false;
  if len =? 0 then Ok (s, false) else
  '(fault, s) ← fuzz_run_target cf s (exec_tmout cf);
  if stop_soon (world s) then Ok (s, true) else
  let n := subseq_tmouts (stat s) in
  let tmout := bool_decide (fault = FSRV_RUN_TMOUT) in
  let s := on_stat (set_subseq_tmouts (if tmout then u32 (n + 1) else 0)) s in
  let skip := on_stat (fun x => set_cur_skipped_items (u32 (cur_skipped_items x + 1)) x) in
  if tmout && (TMOUT_LIMIT <? n) then Ok (skip s, true) else
  let '(skip_requested, w) := take_skip_request (world s) in
  let s := set_world w s in
  if skip_requested then Ok (skip s, true) else
  '(saved, s) ← save_if_interesting s out_buf len fault;
  Ok (on_state (fun a => set_queued_discovered (u32 (queued_discovered a + b2z saved)) a) s, false).
End Save.
