(* ===== verification/SaveThms.v ===== *)
(** What is saved, and that the crash stays the same crash. *)

From Stdlib Require Import String.
From S2P Require Import Prelude Words Arith Float State Bitmap BitmapThms FewBits Text Queue QueueScore QueueAdd TestcaseCache CacheThms Callstack Session SessionThms Files Calibrate CalThms Describe Save.
#[local] Open Scope list_scope.
#[local] Open Scope Z_scope.

(** ** Crash sites *)

Lemma same_site_spec a b :
  same_site a b = true <-> crash_offset a = crash_offset b /\ crash_module a = crash_module b.
Proof. unfold same_site. now rewrite andb_true_iff, Z.eqb_eq, bool_decide_eq_true. Qed.

Lemma same_site_refl a : same_site a a = true.
Proof. now apply same_site_spec. Qed.

Lemma same_site_trans a b c : same_site a b = true -> same_site b c = true -> same_site a c = true.
Proof. rewrite !same_site_spec. intros [] []. split; congruence. Qed.

(** ** The cache's books when the queue changes *)

Lemma cache_wf_app c buf q :
  cache_wf c buf -> testcase_buf q = None -> 0 <= q_len q < 2 ^ 32 -> cache_wf c (buf ++ [q]).
Proof.
  intros [H1 H2 H3 H4 [S1 S2 S3 S4 S5 S6 S7] H6] Hq Hl.
  assert (Hlook : forall i p, holds (q_testcase_cache c) i p -> (buf ++ [q]) !! p = buf !! p).
  { intros i p Hp. apply lookup_app_l. eauto. }
  split; auto.
  - rewrite H4. apply zsum_ext. intros [p|] Hs; [|done]. apply list_elem_of_lookup in Hs as [i Hi].
    unfold slot_len. now rewrite (Hlook i p Hi).
  - split; auto.
    + intros i p Hp. rewrite length_app. apply S6 in Hp. lia.
    + intros p x Hx. apply lookup_app_Some in Hx as [Hx|[Hge Hx]]; [auto|].
      apply list_lookup_singleton_Some in Hx as [Hp <-]. rewrite Hq. split; [intros [? E]; discriminate|].
      intros [i Hi]. apply S6 in Hi. lia.
  - intros p x Hx. apply lookup_app_Some in Hx as [Hx|[_ Hx]]; [eauto|].
    now apply list_lookup_singleton_Some in Hx as [_ <-].
Qed.

Lemma ident_lookup (l l' : list queue_entry) p q' :
  map ident l' = map ident l -> l' !! p = Some q' -> exists q, l !! p = Some q /\ ident q' = ident q.
Proof.
  intros E Hq. assert (Hm : map ident l !! p = Some (ident q')) by (rewrite <- E, list_lookup_fmap, Hq; reflexivity).
  rewrite list_lookup_fmap in Hm. destruct (l !! p) as [q|]; [|discriminate]. apply (inj Some) in Hm. eauto.
Qed.

Lemma ident_length (l l' : list queue_entry) : map ident l' = map ident l -> length l' = length l.
Proof. intros E. apply (f_equal length) in E. now rewrite !length_map in E. Qed.

Lemma cache_wf_ident c buf buf' : cache_wf c buf -> map ident buf' = map ident buf -> cache_wf c buf'.
Proof.
  intros [H1 H2 H3 H4 [S1 S2 S3 S4 S5 S6 S7] H6] E.
  assert (Hl : length buf' = length buf) by (apply (f_equal length) in E; now rewrite !length_map in E).
  assert (Hq : forall p q', buf' !! p = Some q' -> exists q, buf !! p = Some q /\ q_len q' = q_len q /\ testcase_buf q' = testcase_buf q).
  { intros p q' Hq'. destruct (ident_lookup _ _ _ _ E Hq') as (q & Hq & Hi). exists q. unfold ident in Hi.
    injection Hi as _ E2 _ _ _ _ E7 _ _. auto. }
  split; auto.
  - rewrite H4. apply zsum_ext. intros [p|] Hs; [|done]. apply list_elem_of_lookup in Hs as [i Hi]. unfold slot_len.
    destruct (buf' !! p) as [q'|] eqn:Eq'.
    + destruct (Hq p q' Eq') as (q & -> & El & _). now rewrite El.
    + destruct (buf !! p) eqn:Eq; [|done]. apply lookup_ge_None in Eq'. apply lookup_lt_Some in Eq. lia.
  - split; auto.
    + intros i p Hp. rewrite Hl. eauto.
    + intros p q' Hq'. destruct (Hq p q' Hq') as (q & Hpq & _ & Eb). rewrite Eb. auto.
  - intros p q' Hq'. destruct (Hq p q' Hq') as (q & Hpq & El & _). rewrite El. eauto.
Qed.

(** What identifies an entry of the queue in the output directory. *)
Definition tag (q : queue_entry) := (fname q, q_len q, q_id q).

Lemma ident_tags l l' : map ident l' = map ident l -> map tag l' = map tag l.
Proof.
  intros E. assert (Ht : forall k, map tag k = map (fun x => (x.1.1.1.1.1.1.1.1, x.1.1.1.1.1.1.1.2, x.1.1.1.1.1.1.2)) (map ident k))
    by (intros k; rewrite map_map; now apply map_ext).
  now rewrite !Ht, E.
Qed.

Section Save.
Context {W : Type} `{World W} (fl : flavour) (cf : conf).
Context (symbolize : list Z -> Z -> Z * option (list Z)) (hash64 : list Z -> Z) (accept : Z -> Z).
Context (Hwrite : posix_write accept).
Context (can_create : gmap (list Z) (list Z) -> bool).
Context (Hdisk : forall d, can_create d = true -> Z.of_nat (size d) + 1 < 2 ^ 32).
Context (I : W -> Prop) (T : list Z -> list Z -> Prop) (n : nat).
Context (laws : target_laws I T n True).
Implicit Types s : sess W.

(** The invariant of a session. *)
Record sess_ok s : Prop := {
  so_world : I (world s);
  so_wf : queue_wf (state s);
  so_size : map_size (acov (state s)) = Z.of_nat n;
  so_op : op_ok (op s);
  so_nfuzz : N_FUZZ_SIZE <= Z.of_nat (length (n_fuzz (state s)));
  so_cache : q_testcase_max_cache_size (tcache s) <> 0 -> cache_wf (tcache s) (queue_buf (state s));
  so_dir : Z.of_nat (length (queue_buf (state s))) <= Z.of_nat (size (queue_dir s))
}.

(** Nothing was saved: the queue, its files and the readme are as before, and
    so is the crash site but for its symbol. *)
Record quiet s s' : Prop := {
  qt_ok : sess_ok s -> sess_ok s';
  qt_buf : queue_buf (state s') = queue_buf (state s);
  qt_items : queued_items (state s') = queued_items (state s);
  qt_dir : queue_dir s' = queue_dir s;
  qt_readme : readme s' = readme s;
  qt_site : same_site (crash_site s) (crash_site s') = true
}.

Lemma quiet_refl s : quiet s s.
Proof. split; auto using same_site_refl. Qed.

Lemma quiet_trans s1 s2 s3 : quiet s1 s2 -> quiet s2 s3 -> quiet s1 s3.
Proof. intros [A1 A2 A3 A4 A5 A6] [B1 B2 B3 B4 B5 B6]. split; eauto using same_site_trans; congruence. Qed.

(** Steps that touch neither the queue nor the maps. *)
Lemma quiet_same s s' :
  (I (world s) -> I (world s')) -> state s' = state s -> tcache s' = tcache s -> op s' = op s ->
  queue_dir s' = queue_dir s -> readme s' = readme s -> same_site (crash_site s) (crash_site s') = true -> quiet s s'.
Proof.
  intros Hw E1 E2 E3 E4 E5 E6. split; rewrite ?E1; auto.
  intros [H1 H2 H3 H4 H5 H6 H7]. split; rewrite ?E1, ?E2, ?E3, ?E4; auto.
Qed.

(** Steps on the coverage state. *)
Lemma quiet_acov s c :
  (cov_wf (acov (state s)) -> cov_wf c /\ cov_same (acov (state s)) c) -> quiet s (on_state (set_acov c) s).
Proof.
  intros Hc. split; auto using same_site_refl. intros [H1 H2 H3 H4 H5 H6 H7].
  destruct (Hc (qw_cov _ H2)) as [Hw Hs]. split; auto.
  - unfold on_state. destruct Hs. now apply queue_wf_acov.
  - destruct Hs. cbn. congruence.
Qed.

Lemma quiet_classify s : quiet s (classify fl s).
Proof.
  apply (quiet_acov s (classify_counts fl (acov (state s)))). intros Hw.
  split; [now apply classify_counts_wf|now apply classify_cov_same].
Qed.

Lemma quiet_few m s : quiet s (few_bits_of fl m s).2 /\ (few_bits_of fl m s).1 = (has_few_bits fl (acov (state s)) m).1.
Proof.
  unfold few_bits_of. pose proof (fun Hw => proj1 (few_bits_same fl (acov (state s)) m Hw)) as Hs.
  pose proof (has_few_bits_wf fl (acov (state s)) m) as Hw. destruct (has_few_bits _ _ _) as [few c]. split; [|done].
  apply quiet_acov. intros Hc. split; [exact (Hw Hc)|exact (Hs Hc)].
Qed.

Lemma quiet_stat s f : quiet s (on_stat f s).
Proof. apply quiet_same; auto using same_site_refl. Qed.

Lemma quiet_ran s s' : sess_ok s -> ran I n s s' -> quiet s s'.
Proof.
  intros Hok Hr. pose proof (ran_wf I n s s' Hr (so_size s Hok) (so_wf s Hok)) as Hwf.
  destruct Hr as (t & k & w & b & cs & -> & _ & _ & Hw). split; auto using same_site_refl.
  intros [H1 H2 H3 H4 H5 H6 H7]. split; auto.
Qed.

Lemma quiet_run s tmo :
  sess_ok s -> or_fatal True (fuzz_run_target cf s tmo) (fun '(flt, s') => quiet s s').
Proof.
  intros Hok. eapply or_stop_mono; [exact (fuzz_run_target_spec cf I T n True laws s tmo (so_world s Hok) (so_wf s Hok) (so_size s Hok))|].
  intros [flt s'] [Hr _]. now apply quiet_ran.
Qed.

(** ** Comparing the crash site *)

Lemma quiet_look s : quiet s (look_at_crash cf symbolize s).2.
Proof. unfold look_at_crash. destruct (find_crash_site _ _ _ _). apply quiet_same; auto using same_site_refl. Qed.

(** Without an entry at hand: the answer, and the site that stays. *)
Lemma same_crash_site_none s :
  exists s', same_crash_site cf symbolize s None false false
    = Ok (same_site (crash_site s) (look_at_crash cf symbolize s).1, s') /\ quiet s s' /\ state s' = state s.
Proof.
  pose proof (quiet_look s) as Hq. unfold same_crash_site.
  assert (Es : state (look_at_crash cf symbolize s).2 = state s)
    by (unfold look_at_crash; now destruct (find_crash_site _ _ _ _)).
  destruct (look_at_crash cf symbolize s) as [found s1]. cbn [fst snd] in *.
  destruct (same_site (crash_site s) found) eqn:E; cbn [mbind res_bind]; eexists; (split; [reflexivity|]); (split; [|done]);
    (eapply quiet_trans; [exact Hq|]); destruct Hq as [_ _ _ _ _ Q]; apply quiet_same; auto; cbn [crash_site set_crash_site].
  - apply same_site_spec. apply same_site_spec in Q, E. destruct Q, E. split; congruence.
  - apply same_site_spec. apply same_site_spec in Q. destruct Q. split; congruence.
Qed.

(** ** Timeouts *)

(** What the buffers and limits must be. *)
Context (Hlimits : 0 <= min_length cf /\ 0 <= max_length cf).
Definition mem_ok (mem : list Z) (len : Z) : Prop :=
  0 <= len <= Z.of_nat (length mem) /\ min_length cf <= Z.of_nat (length mem) < 2 ^ 32.

Lemma write_any_ok s mem len fix_ :
  mem_ok mem len -> exists l c, write_to_testcase cf s mem len fix_ = Ok (l, set_testcase c s) /\ mem_ok mem l.
Proof.
  intros [Hl Hm]. unfold write_to_testcase, afl_fsrv_write_to_testcase. cbv zeta.
  set (l := if (len <? min_length cf) && negb fix_ then min_length cf else if max_length cf <? len then max_length cf else len).
  assert (Hl' : 0 <= l <= Z.of_nat (length mem)) by
    (subst l; destruct (_ && _); [lia|]; destruct (Z.ltb_spec (max_length cf) len); lia).
  set (l' := if use_shmem_fuzz cf && (MAX_FILE <? l) then MAX_FILE else l).
  assert (l' <= l) by (subst l'; destruct (use_shmem_fuzz cf); cbn [andb]; [|lia]; destruct (Z.ltb_spec MAX_FILE l); lia).
  rewrite (proj2 (Z.ltb_ge _ _)) by lia. cbn [mbind res_bind]. do 2 eexists. split; [reflexivity|]. now split.
Qed.

Lemma quiet_testcase s c : quiet s (set_testcase c s).
Proof. apply quiet_same; auto using same_site_refl. Qed.

Lemma rerun_spec s mem len :
  sess_ok s -> mem_ok mem len ->
  or_fatal True (rerun fl cf s mem len) (fun '(flt, len', s') => quiet s s' /\ mem_ok mem len').
Proof.
  intros Hok Hm. unfold rerun. destruct (write_any_ok s mem len false Hm) as (l & c & E & Hl). rewrite E. cbn [mbind res_bind].
  set (s1 := set_testcase c s).
  assert (H2 : exists l2 s2, (if truthy l then Ok (l, s1) else write_to_testcase cf s1 mem len true) = Ok (l2, s2) /\
    quiet s s2 /\ mem_ok mem l2).
  { destruct (truthy l); [do 2 eexists; split; [reflexivity|]; split; [apply quiet_testcase|exact Hl]|].
    destruct (write_any_ok s1 mem len true Hm) as (l2 & c2 & E2 & Hl2). do 2 eexists. split; [exact E2|]. split; [|exact Hl2].
    eapply quiet_trans; apply quiet_testcase. }
  destruct H2 as (l2 & s2 & E2 & Q2 & Hl2). rewrite E2. cbn [mbind res_bind]. apply or_stop_bind.
  eapply or_stop_mono; [apply (quiet_run s2 (hang_tmout cf)); now apply (qt_ok _ _ Q2)|].
  intros [flt s3] Q3. cbn [or_stop]. split; [|exact Hl2].
  eapply quiet_trans; [exact Q2|]. eapply quiet_trans; [exact Q3|apply quiet_classify].
Qed.

Lemma quiet_clock s w' : (I (world s) -> I w') -> quiet s (set_world w' s).
Proof. intros Hw. apply quiet_same; auto using same_site_refl. Qed.

Lemma quiet_read s s' : clock_read s s' -> quiet s s'.
Proof.
  intros [-> | ->]; [apply quiet_refl|]. apply quiet_clock. intros Hi. apply (tl_time _ _ _ _ laws _ Hi).
Qed.

(** A file of [len] bytes got the first [k] of them: all of them, if the
    system takes so many in one go. *)
Definition written (k : nat) (len : Z) : Prop :=
  Z.of_nat k <= len /\ (accept len = len -> Z.of_nat k = len).

Lemma create_file_spec d fn mem len :
  0 <= len <= Z.of_nat (length mem) ->
  or_fatal True (create_file accept can_create d fn mem len) (fun d' =>
    exists k, d !! fn = None /\ can_create d = true /\ d' = <[fn := take k mem]> d /\ written k len).
Proof.
  intros Hl. unfold create_file. destruct (d !! fn) eqn:E; [now split|].
  destruct (can_create d) eqn:Ec; [|now split]. destruct (ck_write_spec accept mem len Hwrite Hl) as (k & Ek & Hk).
  rewrite Ek. cbn. exists k. auto.
Qed.

Lemma save_hang_spec s mem len :
  sess_ok s -> mem_ok mem len -> or_fatal True (save_hang cf accept can_create s mem len) (quiet s).
Proof.
  intros Hok [Hm _]. unfold save_hang.
  destruct (describe_op_ok s 0 (NAME_MAX - 10) (so_op s Hok) ltac:(unfold NAME_MAX; lia)) as (b & s1 & Hs1 & _ & E).
  rewrite E. cbn [mbind res_bind]. apply quiet_read in Hs1. apply or_stop_bind.
  eapply or_stop_mono; [now apply create_file_spec|]. intros d _.
  set (s2 := on_stat _ (set_hangs_dir d s1)).
  assert (Q2 : quiet s s2) by (eapply quiet_trans; [exact Hs1|]; apply quiet_same; auto using same_site_refl).
  pose proof (fun Hi => proj1 (tl_time _ _ _ _ laws (world s2) Hi)) as Hw.
  destruct (get_cur_time (world s2)) as [now w]. cbn [or_stop].
  eapply quiet_trans; [exact Q2|]. eapply quiet_trans; [apply (quiet_clock s2 w Hw)|]. apply quiet_stat.
Qed.

Lemma quiet_simplify s : quiet s (put_trace (simplify_trace fl (acov (state s)) (trace_of s)) s).
Proof.
  apply (quiet_acov s (set_trace (acov (state s)) (simplify_trace fl (acov (state s)) (trace_of s)) (actual_counts (acov (state s))))).
  intros Hw. split; [|now split]. unfold trace_of.
  rewrite (simplify_trace_correct fl _ _ Hw (wf_trace _ Hw) (wf_trace_len _ Hw)). apply cov_wf_trace; [exact Hw| |now rewrite length_map].
  apply Forall_map. eapply Forall_impl; [exact (wf_trace _ Hw)|]. intros x _. unfold is_byte. destruct (x =? 0); lia.
Qed.

(** ** How often a path was seen *)

Lemma quiet_nfuzz s l : length l = length (n_fuzz (state s)) -> quiet s (on_state (set_n_fuzz l) s).
Proof.
  intros Hl. split; auto using same_site_refl. intros [H1 H2 H3 H4 H5 H6 H7]. split; auto.
  - destruct H2. split; auto. cbn. rewrite Hl. assumption.
  - cbn. now rewrite Hl.
Qed.

Lemma note_path_spec s :
  sess_ok s ->
  exists cl cksum s1, note_path fl hash64 s = Ok (cl, cksum, s1) /\ quiet s s1 /\
    acov (state s1) = (if cl then classify_counts fl (acov (state s)) else acov (state s)) /\
    crash_site s1 = crash_site s /\ call_stack s1 = call_stack s.
Proof.
  intros Hok. unfold note_path. destruct (fast_or_rare (state s)).
  2: { do 3 eexists. split; [reflexivity|]. split; [apply quiet_refl|auto]. }
  cbv zeta. set (s1 := classify fl s). set (i := Z.to_nat (hash64 (trace_of s1) mod N_FUZZ_SIZE)).
  pose proof (quiet_classify s) as Q. fold s1 in Q. pose proof (qt_ok _ _ Q Hok) as Hok1.
  assert (Hi : (i < length (n_fuzz (state s1)))%nat).
  { pose proof (so_nfuzz s1 Hok1). pose proof (Z.mod_pos_bound (hash64 (trace_of s1)) N_FUZZ_SIZE ltac:(reflexivity)).
    subst i. lia. }
  destruct (rd_lt _ _ Hi) as (x & Ex & _). rewrite Ex. cbn [mbind res_bind].
  destruct (x <? 0xFFFFFFFF).
  - rewrite (wr_lt _ _ _ Hi). cbn [mbind res_bind]. do 3 eexists. split; [reflexivity|]. split; [|auto].
    eapply quiet_trans; [exact Q|]. apply quiet_nfuzz. apply length_insert.
  - do 3 eexists. split; [reflexivity|]. auto.
Qed.

(** ** Queueing a find *)

(** The same entries, and the files as before. *)
Record same_entries s s' : Prop := {
  se_ok : sess_ok s -> sess_ok s';
  se_ident : map ident (queue_buf (state s')) = map ident (queue_buf (state s));
  se_cache : tcache s' = tcache s;
  se_dir : queue_dir s' = queue_dir s;
  se_readme : readme s' = readme s;
  se_site : crash_site s' = crash_site s
}.

Lemma same_entries_trans s1 s2 s3 : same_entries s1 s2 -> same_entries s2 s3 -> same_entries s1 s3.
Proof. intros [A1 A2 A3 A4 A5 A6] [B1 B2 B3 B4 B5 B6]. split; auto; congruence. Qed.

Lemma same_entries_upd s p f :
  (forall q, refs_of (f q) = refs_of q) -> (forall q, ident (f q) = ident q) ->
  same_entries s (on_state (upd p f) s).
Proof.
  intros Hr Hi. assert (Em : map ident (queue_buf (state (on_state (upd p f) s))) = map ident (queue_buf (state s)))
    by (unfold on_state, upd; cbn; now apply map_alter_same).
  split; auto. intros [H1 H2 H3 H4 H5 H6 H7]. split; auto.
  - unfold on_state. now apply queue_wf_upd.
  - intros Hc. eapply cache_wf_ident; [exact (H6 Hc)|exact Em].
  - pose proof (ident_length _ _ Em). cbn in *. lia.
Qed.

Lemma same_entries_stat s f : same_entries s (on_stat f s).
Proof. split; auto. intros [H1 H2 H3 H4 H5 H6 H7]. split; auto. Qed.

Lemma queue_wf_nfuzz a p i l :
  queue_wf a -> length l = length (n_fuzz a) -> (Z.to_nat i < length l)%nat ->
  queue_wf (set_n_fuzz l (upd p (set_n_fuzz_entry i) a)).
Proof.
  intros [] Hl Hi. unfold mini_len, testcase_matrix_of in *.
  assert (Hb : forall r x, queue_buf (upd p (set_n_fuzz_entry i) a) !! r = Some x ->
    exists y, queue_buf a !! r = Some y /\ tc_ref x = tc_ref y /\ trace_mini x = trace_mini y /\
      (n_fuzz_entry x = n_fuzz_entry y \/ n_fuzz_entry x = i)).
  { intros r x Hx. unfold upd in Hx. cbn [queue_buf set_queue_buf] in Hx. destruct (decide (p = r)) as [<-|Hne].
    - rewrite lookup_alter_eq in Hx. destruct (queue_buf a !! p) as [y|]; [|discriminate].
      apply (inj Some) in Hx as <-. exists y. cbn. auto.
    - rewrite lookup_alter_ne in Hx by done. eauto 6. }
  assert (Hlen : length (queue_buf (upd p (set_n_fuzz_entry i) a)) = length (queue_buf a)) by apply length_alter.
  split; unfold mini_len, testcase_matrix_of; cbn [queue_buf set_n_fuzz n_fuzz]; rewrite ?Hlen; try assumption.
  - intros r x Hx. destruct (Hb r x Hx) as (y & Hy & E1 & E2 & _). destruct (qw_refs r y Hy) as [F1 F2 F3].
    split; rewrite ?E1, ?E2; auto.
  - intros r x Hx. destruct (Hb r x Hx) as (y & Hy & _ & _ & [E|E]); rewrite E, ?Hl; [eauto|].
    now rewrite <- Hl.
Qed.

Lemma dress_entry_spec s p few cksum :
  sess_ok s -> exists s', dress_entry hash64 p few cksum s = Ok s' /\ same_entries s s'.
Proof.
  intros Hok. unfold dress_entry. set (s1 := if truthy (few .& 0x02) then _ else s).
  assert (Q1 : same_entries s s1).
  { subst s1. destruct (truthy _); [|split; auto].
    eapply same_entries_trans; [apply (same_entries_upd s p (set_has_new_cov true)); done|apply same_entries_stat]. }
  clearbody s1. set (s2 := on_state (upd p (set_exec_cksum (hash64 (trace_of s1)))) s1).
  assert (Q2 : same_entries s s2) by (eapply same_entries_trans; [exact Q1|now apply same_entries_upd]).
  clearbody s2. pose proof (se_ok _ _ Q2 Hok) as Hok2. destruct (truthy cksum); [|eauto].
  set (i := u32 (cksum mod N_FUZZ_SIZE)). pose proof (Z.mod_pos_bound cksum N_FUZZ_SIZE ltac:(reflexivity)) as Hm.
  assert (Ei : i = cksum mod N_FUZZ_SIZE) by (subst i; apply uwrap_id; unfold N_FUZZ_SIZE in *; lia).
  pose proof (so_nfuzz s2 Hok2) as Hn. cbv zeta.
  rewrite wr_lt by (cbn [n_fuzz on_state state set_state upd set_queue_buf]; lia). cbn [mbind res_bind].
  eexists. split; [reflexivity|]. eapply same_entries_trans; [exact Q2|].
  set (l := <[Z.to_nat i := 1]> (n_fuzz (state s2))).
  assert (Ll : length l = length (n_fuzz (state s2))) by apply length_insert.
  assert (Em : map ident (queue_buf (upd p (set_n_fuzz_entry i) (state s2))) = map ident (queue_buf (state s2)))
    by (unfold upd; cbn; now apply map_alter_same).
  split; auto. intros [H1 H2 H3 H4 H5 H6 H7]. split; auto.
  - change (queue_wf (set_n_fuzz l (upd p (set_n_fuzz_entry i) (state s2)))). apply queue_wf_nfuzz; [exact H2|exact Ll|lia].
  - change (N_FUZZ_SIZE <= Z.of_nat (length l)). lia.
  - intros Hc. eapply cache_wf_ident; [exact (H6 Hc)|exact Em].
  - pose proof (ident_length _ _ Em). cbn in *. lia.
Qed.

Lemma calibrate_same s p mem handicap q fn :
  sess_ok s -> queue_buf (state s) !! p = Some q -> q_len q <= Z.of_nat (length mem) -> base_name q = Ok fn ->
  or_fatal True (calibrate_case fl cf hash64 p mem handicap false s) (fun '(_, s') => same_entries s s').
Proof.
  intros Hok Hq Hl Hb. pose proof Hok as [H1 H2 H3 H4 H5 H6 H7]. eapply or_stop_mono.
  - exact (cal_body_spec fl cf hash64 p mem _ handicap I T n True s q fn laws H1 H2 H3 Hq Hl Hb (fun _ _ => Logic.I)).
  - intros [flt s'] (A1 & A2 & (K1 & K2 & K3 & _) & A4 & _). apply (f_equal fst) in A4. cbn [fst dims] in A4. unfold afl_rest in K2. injection K2 as _ _ _ _ _ _ K2 _ _ _ _.
    unfold sess_rest in K3. injection K3 as K4 K5 K6 K7 _ K8. split; auto. intros _. split; auto.
    + congruence.
    + congruence.
    + now rewrite K2.
    + rewrite K4. intros Hc. eapply cache_wf_ident; [exact (H6 Hc)|exact K1].
    + rewrite (ident_length _ _ K1). congruence.
Qed.

(** ** The detail of an entry *)

(** Only the readme, the call stack file and the crash site change. *)
Definition detailed (q : queue_entry) s s' : Prop :=
  state s' = state s /\ world s' = world s /\ tcache s' = tcache s /\ op s' = op s /\ queue_dir s' = queue_dir s /\
  (exists c, readme s' = readme s ++ crash_detail cf c q (actual_counts (acov (state s)))) /\
  (IGORFUZZ_NEW_CRASH_MODE_LV3 <= crash_mode cf -> same_site (crash_site s) (crash_site s') = true).

Lemma write_crash_detail_eq s p q :
  queue_buf (state s) !! p = Some q ->
  write_crash_detail cf s p
  = Ok (set_readme (readme s ++ crash_detail cf (crash_site s) q (actual_counts (acov (state s)))) s).
Proof. intros Hq. unfold write_crash_detail, deref. now rewrite (proj2 (rd_ok _ _ _) Hq). Qed.

(** A look at the crash changes the call stack file only. *)
Lemma look_at_crash_eq s :
  exists st, look_at_crash cf symbolize s = ((look_at_crash cf symbolize s).1, set_call_stack st s).
Proof. unfold look_at_crash. destruct (find_crash_site _ _ _ _) as [f st]. exists st. reflexivity. Qed.

Lemma save_detail_spec s p q :
  queue_buf (state s) !! p = Some q ->
  exists s', save_detail cf symbolize p s = Ok s' /\ detailed q s s'.
Proof.
  intros Hq. unfold save_detail. destruct (truthy (crash_mode cf)) eqn:Em.
  2: { cbn [mbind res_bind]. rewrite (write_crash_detail_eq s p q Hq). eexists. split; [reflexivity|].
       do 5 (split; [reflexivity|]). split; [now eexists|]. intros _. apply same_site_refl. }
  destruct (look_at_crash_eq s) as [st El]. destruct (Z.leb_spec IGORFUZZ_NEW_CRASH_MODE_LV3 (crash_mode cf)) as [Hlv|Hlv].
  - unfold same_crash_site. rewrite El. set (found := (look_at_crash cf symbolize s).1). cbn [crash_site set_call_stack].
    destruct (same_site (crash_site s) found) eqn:Es; cbn [mbind res_bind negb].
    + rewrite (write_crash_detail_eq _ p q) by exact Hq. eexists. split; [reflexivity|].
      do 5 (split; [reflexivity|]). split; [now eexists|]. intros _. exact Es.
    + rewrite (write_crash_detail_eq _ p q) by exact Hq. cbn [mbind res_bind negb]. eexists. split; [reflexivity|].
      do 5 (split; [reflexivity|]). split; [now eexists|]. intros _. apply same_site_refl.
  - rewrite El. cbn [mbind res_bind]. rewrite (write_crash_detail_eq _ p q) by exact Hq. eexists. split; [reflexivity|].
    do 5 (split; [reflexivity|]). split; [now eexists|]. lia.
Qed.

(** ** One more entry *)

(** The queue has one more entry, of [len] bytes, with a file of its own that
    holds as many of the first of them as were written, and the readme has one
    more line, about the entry. *)
Definition one_more (mem : list Z) (len : Z) s s' : Prop :=
  let N := length (queue_buf (state s)) in
  exists q c k w,
    map tag (queue_buf (state s')) = map tag (queue_buf (state s)) ++ [tag q] /\
    queue_buf (state s') !! N = Some q /\ q_id q = Z.of_nat N /\ q_len q = len /\
    queue_dir s !! fname q = None /\ queue_dir s' = <[fname q := take w mem]> (queue_dir s) /\ written w len /\
    readme s' = readme s ++ crash_detail cf c q k.

Lemma after_slash_some l : 0x2f ∈ l -> is_Some (after_slash l).
Proof.
  induction l as [|c l IH]; intros Hl; [now apply not_elem_of_nil in Hl|]. cbn [after_slash].
  destruct (after_slash l); [eauto|]. destruct (Z.eqb_spec c 0x2f); [eauto|].
  apply elem_of_cons in Hl as [Hl|Hl]; [congruence|]. destruct (IH Hl) as [? [=]].
Qed.

Lemma store_mem_spec s p q mem :
  sess_ok s -> queue_buf (state s) !! p = Some q -> testcase_buf q = None -> q_len q <= Z.of_nat (length mem) ->
  exists s', (if truthy (q_testcase_max_cache_size (tcache s))
     then '(c, a) ← queue_testcase_store_mem (tcache s) (state s) p mem; Ok (set_state a (set_tcache c s))
     else Ok s) = Ok s' /\ sess_ok s' /\ map tag (queue_buf (state s')) = map tag (queue_buf (state s)) /\
    queue_dir s' = queue_dir s /\ readme s' = readme s /\ crash_site s' = crash_site s.
Proof.
  intros Hok Hq Hb Hl. destruct (truthy _) eqn:Ec; [|eauto 10]. apply truthy_true in Ec.
  destruct (queue_testcase_store_mem_spec (tcache s) (state s) p q mem (so_cache s Hok Ec) Hq Hb Hl)
    as (c & a & E & Hwf & Ea). rewrite E. cbn [mbind res_bind]. eexists. split; [reflexivity|].
  pose proof Hok as [H1 H2 H3 H4 H5 H6 H7].
  assert (Ha : queue_wf a /\ acov a = acov (state s) /\ n_fuzz a = n_fuzz (state s) /\
    map tag (queue_buf a) = map tag (queue_buf (state s))).
  { subst a. destruct (cache_full _ _); [auto|]. split; [now apply queue_wf_upd|]. split; [done|]. split; [done|].
    rewrite upd_queue_buf. now apply map_alter_same. }
  destruct Ha as (A1 & A2 & A3 & A4). split; [|auto]. split; auto; cbn [state set_state].
  - now rewrite A2.
  - now rewrite A3.
  - apply (f_equal length) in A4. rewrite !length_map in A4. now rewrite A4.
Qed.

(** Adding the entry. *)
Lemma add_entry_spec read s fn len now :
  sess_ok s -> Z.of_nat (length (queue_buf (state s))) + 1 < 2 ^ 32 -> 0 <= len < 2 ^ 32 ->
  Z.of_nat (length (queue_buf (state s))) + 1 <= Z.of_nat (size (queue_dir s)) ->
  exists a q, add_to_queue read None (fun _ => None) (state s) fn len false now = Ok a /\
    sess_ok (set_state a s) /\ queue_buf a = queue_buf (state s) ++ [q] /\
    q_id q = Z.of_nat (length (queue_buf (state s))) /\ fname q = fn /\ q_len q = len /\ testcase_buf q = None.
Proof.
  intros Hok Hmax Hl Hd. pose proof Hok as [H1 H2 H3 H4 H5 H6 H7].
  assert (Hn : (0 < length (n_fuzz (state s)))%nat) by (unfold N_FUZZ_SIZE in H5; lia).
  destruct (add_to_queue_spec read (fun _ => None) (state s) fn len false now H2 ltac:(lia) Hmax Hn)
    as (a & q & E & Hadd & Hwf & Q1 & Q2 & Q3 & _ & _ & _ & _ & _ & _ & Q4 & _).
  exists a, q. split; [exact E|]. destruct (ea_rest _ _ _ Hadd) as (R1 & _ & R3 & _).
  split; [|split; [exact (ea_buf _ _ _ Hadd)|auto]]. split; auto; cbn [state set_state].
  - now rewrite R1.
  - now rewrite R3.
  - intros Hc. rewrite (ea_buf _ _ _ Hadd). apply cache_wf_app; [exact (H6 Hc)|exact Q4|lia].
  - rewrite (ea_buf _ _ _ Hadd), length_app. cbn. lia.
Qed.

Lemma ident_last (l l' : list queue_entry) q :
  map ident l' = map ident (l ++ [q]) ->
  exists q', l' !! length l = Some q' /\ ident q' = ident q /\ map tag l' = map tag l ++ [tag q'].
Proof.
  intros E. assert (El : length l' = S (length l)).
  { apply (f_equal length) in E. rewrite !length_map, length_app in E. cbn in E. lia. }
  destruct (lookup_lt_is_Some_2 l' (length l)) as [q' Hq']; [lia|]. exists q'. split; [exact Hq'|].
  destruct (ident_lookup _ _ _ _ E Hq') as (q0 & Hq0 & Hi).
  rewrite list_lookup_middle in Hq0 by done. injection Hq0 as <-. split; [exact Hi|].
  rewrite (ident_tags _ _ E), map_app. cbn. unfold ident in Hi. injection Hi as F1 F2 F3 _ _ _ _ _ _. unfold tag. congruence.
Qed.

(** What is so once the entry [q] is dressed, calibrated and written down. *)
Definition entered (L : list queue_entry) (q : queue_entry) s s' : Prop :=
  sess_ok s' /\ queue_dir s' = queue_dir s /\
  (exists q' c k, map tag (queue_buf (state s')) = map tag L ++ [tag q'] /\
     queue_buf (state s') !! length L = Some q' /\ tag q' = tag q /\
     readme s' = readme s ++ crash_detail cf c q' k) /\
  (IGORFUZZ_NEW_CRASH_MODE_LV3 <= crash_mode cf -> same_site (crash_site s) (crash_site s') = true).

Lemma new_entry_spec s (L : list queue_entry) q mem few cksum handicap (rest : sess W -> res (sess W)) Q :
  sess_ok s -> queue_buf (state s) = L ++ [q] -> testcase_buf q = None ->
  q_len q <= Z.of_nat (length mem) -> 0x2f ∈ fname q ->
  (forall s', entered L q s s' -> or_fatal True (rest s') Q) ->
  or_fatal True
    (s ← dress_entry hash64 (length L) few cksum s;
     '(fault, s) ← calibrate_case fl cf hash64 (length L) mem handicap false s;
     if bool_decide (fault = FSRV_RUN_ERROR) then Err Fatal else
     s ← (if truthy (q_testcase_max_cache_size (tcache s))
          then '(c, a) ← queue_testcase_store_mem (tcache s) (state s) (length L) mem; Ok (set_state a (set_tcache c s))
          else Ok s);
     s ← save_detail cf symbolize (length L) s; rest s) Q.
Proof.
  intros Hok Hbuf Hnone Hlen Hslash Hrest.
  destruct (dress_entry_spec s (length L) few cksum Hok) as (s1 & -> & Q1). cbn [mbind res_bind].
  pose proof (se_ok _ _ Q1 Hok) as Hok1. pose proof (se_ident _ _ Q1) as Em. rewrite Hbuf in Em.
  destruct (ident_last _ _ _ Em) as (q1 & Hq1 & Hi1 & _).
  assert (Hb1 : base_name q1 = Ok (default [] (after_slash (fname q)))).
  { unfold base_name. assert (Ef : fname q1 = fname q) by (unfold ident in Hi1; now injection Hi1). rewrite Ef.
    destruct (after_slash_some _ Hslash) as [x Hx]. now rewrite Hx. }
  assert (Hl1 : q_len q1 <= Z.of_nat (length mem)).
  { assert (Ef : q_len q1 = q_len q) by (unfold ident in Hi1; now injection Hi1). lia. }
  apply or_stop_bind. eapply or_stop_mono; [exact (calibrate_same s1 (length L) mem handicap q1 _ Hok1 Hq1 Hl1 Hb1)|].
  intros [flt s2] Q2. destruct (bool_decide _); [now split|].
  pose proof (se_ok _ _ Q2 Hok1) as Hok2. pose proof (se_ident _ _ Q2) as Em2. rewrite Em in Em2.
  destruct (ident_last _ _ _ Em2) as (q2 & Hq2 & Hi2 & _).
  assert (F2 : testcase_buf q2 = testcase_buf q /\ q_len q2 = q_len q /\ tag q2 = tag q).
  { unfold ident in Hi2. injection Hi2 as F1 F2 F3 _ _ _ F4 _ _. unfold tag. repeat split; congruence. }
  destruct F2 as (F2a & F2b & F2c).
  destruct (store_mem_spec s2 (length L) q2 mem Hok2 Hq2) as (s3 & E3 & Hok3 & T3 & D3 & R3 & S3); [congruence|lia|].
  rewrite E3. cbn [mbind res_bind]. pose proof T3 as T3'. rewrite (ident_tags _ _ Em2), map_app in T3'. cbn [map] in T3'.
  assert (Hq3 : exists q3, queue_buf (state s3) !! length L = Some q3 /\ tag q3 = tag q).
  { assert (Hm : map tag (queue_buf (state s3)) !! length L = Some (tag q)).
    { rewrite T3'. apply list_lookup_middle. now rewrite length_map. }
    rewrite list_lookup_fmap in Hm. destruct (queue_buf (state s3) !! length L) as [q3|]; [|discriminate]. cbn in Hm. apply Some_inj in Hm. eauto. }
  destruct Hq3 as (q3 & Hq3 & Ht3).
  destruct (save_detail_spec s3 _ q3 Hq3) as (s4 & -> & D). cbn [mbind res_bind]. apply Hrest.
  destruct D as (D1 & D2 & D4 & D5 & D6 & (c & D7) & D8).
  destruct Q1 as [_ _ _ A4 A5 A6]. destruct Q2 as [_ _ _ B4 B5 B6].
  split; [|split; [congruence|split]].
  - destruct Hok3. split; rewrite ?D1, ?D2, ?D4, ?D5, ?D6; assumption.
  - exists q3, c, (actual_counts (acov (state s3))). rewrite D1, D7, T3', Ht3. repeat split; try assumption. congruence.
  - intros Hlv. specialize (D8 Hlv). rewrite S3, B6, A6 in D8. exact D8.
Qed.

Lemma queue_find_spec s mem len few cksum tmo :
  sess_ok s -> mem_ok mem len ->
  or_fatal True (queue_find fl cf symbolize hash64 accept can_create s mem len few cksum tmo) (fun s' =>
    sess_ok s' /\ one_more mem len s s' /\
    (IGORFUZZ_NEW_CRASH_MODE_LV3 <= crash_mode cf -> same_site (crash_site s) (crash_site s') = true)).
Proof.
  intros Hok [Hm Hmax]. unfold queue_find.
  destruct (describe_op_ok s (u8 (few + (if tmo then 32 else 0))) (NAME_MAX - 10) (so_op s Hok) ltac:(unfold NAME_MAX; lia))
    as (b & s1 & Hs1 & _ & Ed). rewrite Ed. cbn [mbind res_bind]. set (desc := b ++ _). clearbody desc.
  pose proof (quiet_read _ _ Hs1) as Q1. assert (E1 : state s1 = state s /\ tcache s1 = tcache s /\ crash_site s1 = crash_site s)
    by (destruct Hs1 as [-> | ->]; done). clear Ed Hs1. destruct E1 as (E1 & E1c & E1s).
  set (fn := out_dir cf ++ _). assert (Hslash : 0x2f ∈ fn).
  { subst fn. rewrite !elem_of_app. right; left. left. }
  clearbody fn. apply or_stop_bind. eapply or_stop_mono; [now apply create_file_spec|]. intros d (w & Hfree & Hcan & -> & Hw0).
  rewrite (qt_dir _ _ Q1) in *. set (d := <[fn := _]> (queue_dir s)).
  set (s2 := set_queue_dir d s1). pose proof (fun Hi => proj1 (tl_time _ _ _ _ laws (world s2) Hi)) as Hw.
  destruct (get_cur_time (world s2)) as [now w2]. cbn [snd] in Hw.
  set (s3 := set_world w2 s2). apply Hdisk in Hcan.
  pose proof (qt_ok _ _ Q1 Hok) as Hok1. pose proof (so_dir s Hok) as Hd0.
  assert (Hsz : size (queue_dir s3) = S (size (queue_dir s))) by now apply map_size_insert_None.
  assert (Hok3 : sess_ok s3).
  { pose proof (so_dir _ Hok1) as Hd1. rewrite (qt_dir _ _ Q1) in Hd1. destruct Hok1. split; auto. rewrite Hsz.
    change (queue_buf (state s3)) with (queue_buf (state s1)). lia. }
  assert (E3 : state s3 = state s) by exact E1.
  assert (Ei : Z.to_nat (queued_items (state s3)) = length (queue_buf (state s)))
    by (rewrite E3, (qw_items _ (so_wf s Hok)); lia).
  rewrite Ei.
  destruct (add_entry_spec (fun x => d !! x) s3 fn len now Hok3) as (a & q & Ea & Hok4 & Hbuf & I1 & I2 & I3 & I4);
    [rewrite E3; lia|lia|rewrite E3, Hsz; lia|].
  rewrite Ea. cbn [mbind res_bind]. rewrite E3 in Hbuf, I1.
  eapply (new_entry_spec (set_state a s3) (queue_buf (state s)) q); [exact Hok4|exact Hbuf|exact I4|lia|now rewrite I2|].
  intros s' (Hok' & D1 & (q' & c & k & T1 & T2 & T3 & R) & S). set (s4 := on_stat _ s').
  assert (Q4 : quiet s' s4) by apply quiet_stat.
  pose proof (fun Hi => proj1 (tl_time _ _ _ _ laws (world s4) Hi)) as Hw4.
  destruct (get_cur_time (world s4)) as [now' w']. cbn [snd] in Hw4. cbn [or_stop].
  assert (Q5 : quiet s4 (set_world w' s4)) by now apply quiet_clock.
  split; [|split].
  - apply (qt_ok _ _ (quiet_stat _ _)), (qt_ok _ _ Q5), (qt_ok _ _ Q4), Hok'.
  - unfold tag in T3. injection T3 as F1 F2 F3. exists q', c, k, w. split; [exact T1|]. split; [exact T2|].
    rewrite F1, F2, F3, I1, I2, I3. split; [done|]. split; [done|]. split; [exact Hfree|]. split; [exact D1|]. split; [exact Hw0|].
    change (readme (set_state a s3)) with (readme s1) in R. rewrite (qt_readme _ _ Q1) in R. exact R.
  - intros Hlv. specialize (S Hlv). change (crash_site (set_state a s3)) with (crash_site s1) in S. now rewrite E1s in S.
Qed.

(** ** Saving *)

(** The verdict of a save: nothing changed in the output directory and the
    queue, or there is one more entry, a beginning of the input; at the third
    level of crash mode the crash is still the same. *)
Definition saved_or_quiet (saved : bool) mem s s' : Prop :=
  if saved
  then sess_ok s' /\ (exists len, 0 <= len <= Z.of_nat (length mem) /\ one_more mem len s s') /\
       (IGORFUZZ_NEW_CRASH_MODE_LV3 <= crash_mode cf -> same_site (crash_site s) (crash_site s') = true)
  else quiet s s'.

(** The verdict, when there is one more entry exactly if [b], and it is the
    first [len] bytes. *)
Definition saves_if (b : bool) mem (len : Z) s (saved : bool) s' : Prop :=
  saved_or_quiet saved mem s s' /\ saved = b /\ (saved = true -> one_more mem len s s').

Lemma one_more_quiet mem len s s1 s2 : quiet s s1 -> one_more mem len s1 s2 -> one_more mem len s s2.
Proof. intros [_ Q2 _ Q4 Q5 _]. unfold one_more. now rewrite Q2, Q4, Q5. Qed.

Lemma saved_or_quiet_after saved mem s s1 s2 :
  quiet s s1 -> saved_or_quiet saved mem s1 s2 -> saved_or_quiet saved mem s s2.
Proof.
  intros Q. destruct saved; cbn.
  - intros (H1 & (k & Hk & H2) & H3). split; [exact H1|]. split; [exists k; split; [exact Hk|now apply (one_more_quiet _ _ _ s1)]|].
    intros Hlv. eapply same_site_trans; [apply (qt_site _ _ Q)|now apply H3].
  - now apply quiet_trans.
Qed.

Lemma saves_if_after b mem len s s1 saved s2 :
  quiet s s1 -> saves_if b mem len s1 saved s2 -> saves_if b mem len s saved s2.
Proof.
  intros Q (H1 & H2 & H3). split; [now apply (saved_or_quiet_after _ _ _ s1)|]. split; [exact H2|].
  intros Hs. apply (one_more_quiet _ _ _ s1); auto.
Qed.

(** Is the crash, whose counts [c] are classified, worth keeping? *)
Definition worth_keeping s (c : cov) : bool :=
  ((crash_mode cf <? IGORFUZZ_NEW_CRASH_MODE_LV3) || same_site (crash_site s) (look_at_crash cf symbolize s).1)
  && (let few := (has_few_bits fl c VBits).1 in negb ((few =? 0x10) || (few =? 0))).

Lemma uninteresting_iff few : negb ((few =? 0x10) || (few =? 0)) = negb (uninteresting few).
Proof. reflexivity. Qed.

Lemma look_same s s' : call_stack s' = call_stack s ->
  (look_at_crash cf symbolize s).1 = (look_at_crash cf symbolize s').1.
Proof. intros E. unfold look_at_crash. rewrite E. now destruct (find_crash_site _ _ _ _). Qed.

Lemma save_crash_spec s mem len cksum (classified tmo : bool) :
  sess_ok s -> mem_ok mem len ->
  or_fatal True (save_crash fl cf symbolize hash64 accept can_create s mem len cksum classified tmo) (fun '(saved, s') =>
    saves_if (worth_keeping s (if classified then acov (state s) else classify_counts fl (acov (state s)))) mem len s saved s').
Proof.
  intros Hok Hm. unfold save_crash, worth_keeping. cbv zeta. rewrite uninteresting_iff. set (s1 := on_stat _ s).
  pose proof (quiet_stat s (fun x => set_total_crashes (u64 (total_crashes x + 1)) x)) as Q1. fold s1 in Q1.
  rewrite (look_same s s1 eq_refl). change (crash_site s) with (crash_site s1).
  set (ok := (crash_mode cf <? _) || _).
  assert (H2 : exists s2, (if IGORFUZZ_NEW_CRASH_MODE_LV3 <=? crash_mode cf
     then same_crash_site cf symbolize s1 None false false else Ok (true, s1)) = Ok (ok, s2) /\ quiet s1 s2 /\ state s2 = state s1).
  { subst ok. rewrite Z.ltb_antisym. destruct (IGORFUZZ_NEW_CRASH_MODE_LV3 <=? crash_mode cf); cbn [negb orb].
    - apply same_crash_site_none.
    - exists s1. split; [reflexivity|]. split; [apply quiet_refl|reflexivity]. }
  destruct H2 as (s2 & E2 & Q2 & S2). rewrite E2. cbn [mbind res_bind]. clearbody ok.
  assert (Q12 : quiet s s2) by (eapply quiet_trans; eassumption).
  destruct ok; cbn [negb andb]; [|cbn; split; [exact Q12|now split]].
  set (s3 := if classified then s2 else classify fl s2).
  assert (Q3 : quiet s s3) by (subst s3; destruct classified; [done|]; eapply quiet_trans; [exact Q12|apply quiet_classify]).
  assert (S3 : acov (state s3) = if classified then acov (state s) else classify_counts fl (acov (state s))).
  { subst s3. destruct classified; [now rewrite S2|]. unfold classify, on_state. cbn. now rewrite S2. }
  clearbody s3. destruct (quiet_few VBits s3) as [Q4 F4]. rewrite S3 in F4.
  destruct (few_bits_of fl VBits s3) as [few s4]. cbn [fst snd] in Q4, F4. rewrite F4.
  assert (Q34 : quiet s s4) by (eapply quiet_trans; eassumption).
  destruct (uninteresting _) eqn:Eu; cbn [negb]; [cbn; split; [exact Q34|now split]|].
  apply or_stop_bind.
  eapply or_stop_mono; [apply (queue_find_spec s4 mem len _ cksum tmo); auto; now apply (qt_ok _ _ Q34)|].
  intros s5 (H5 & O5 & L5). cbn [or_stop]. apply (saves_if_after _ _ _ _ s4); [exact Q34|]. split; [|auto].
  split; [exact H5|]. split; [exists len; split; [apply Hm|exact O5]|exact L5].
Qed.

Lemma save_switch_quick fuel flt s mem len cksum classified tmo :
  sess_ok s -> mem_ok mem len -> flt <> FSRV_RUN_TMOUT ->
  or_fatal True (save_switch fl cf symbolize hash64 accept can_create fuel flt s mem len cksum classified tmo) (fun '(saved, s') =>
    saves_if (bool_decide (flt = FSRV_RUN_CRASH) &&
      worth_keeping s (if classified then acov (state s) else classify_counts fl (acov (state s)))) mem len s saved s').
Proof.
  intros Hok Hm Hflt.
  destruct fuel, flt; try done; cbn [save_switch]; try (now apply save_crash_spec); cbn; (split; [apply quiet_refl|done]).
Qed.

(** A timeout: it is run again with the longer limit if it is new, and then
    it is a hang, or a crash after all. *)
Lemma save_timeout fuel s mem len cksum (classified : bool) :
  sess_ok s -> mem_ok mem len ->
  or_fatal True (save_switch fl cf symbolize hash64 accept can_create (S fuel) FSRV_RUN_TMOUT s mem len cksum classified false)
    (fun '(saved, s') => saved_or_quiet saved mem s s').
Proof.
  intros Hok Hm. cbn [save_switch]. set (s1 := on_stat _ s).
  assert (Q1 : quiet s s1) by apply quiet_stat. clearbody s1.
  destruct (_ <=? _); [exact Q1|]. set (s2 := if classified then s1 else classify fl s1).
  assert (Q2 : quiet s s2) by (subst s2; destruct classified; [done|]; eapply quiet_trans; [exact Q1|apply quiet_classify]).
  clearbody s2. set (s3 := put_trace _ s2).
  assert (Q3 : quiet s s3) by (eapply quiet_trans; [exact Q2|apply quiet_simplify]). clearbody s3.
  destruct (quiet_few VTmout s3) as [Q4 _]. destruct (few_bits_of fl VTmout s3) as [few s4]. cbn [snd] in Q4.
  assert (Q34 : quiet s s4) by (eapply quiet_trans; eassumption). pose proof (qt_ok _ _ Q34 Hok) as Hok4.
  destruct (uninteresting few); [exact Q34|].
  assert (Hhang : forall s5 k, quiet s s5 -> mem_ok mem k -> or_fatal True (s ← save_hang cf accept can_create s5 mem k; Ok (false, s))
    (fun '(saved, s') => saved_or_quiet saved mem s s')).
  { intros s5 k Q5 Hk. apply or_stop_bind. eapply or_stop_mono; [apply save_hang_spec; [now apply (qt_ok _ _ Q5)|exact Hk]|].
    intros s6 Q6. cbn. eapply quiet_trans; eassumption. }
  destruct (_ <? _); [|now apply Hhang].
  apply or_stop_bind. eapply or_stop_mono; [exact (rerun_spec s4 mem len Hok4 Hm)|]. intros [[flt k] s5] [Q5 Hk].
  assert (Q45 : quiet s s5) by (eapply quiet_trans; eassumption).
  destruct (bool_decide _) eqn:Eb; [now apply Hhang|]. apply bool_decide_eq_false in Eb.
  eapply or_stop_mono;
    [exact (save_switch_quick fuel flt s5 mem k cksum true true (qt_ok _ _ Q45 Hok) Hk Eb)|].
  intros [saved s6] (H6 & _). now apply (saved_or_quiet_after _ _ _ s5).
Qed.

Lemma save_if_interesting_spec s mem len flt :
  sess_ok s -> mem_ok mem len ->
  or_fatal True (save_if_interesting fl cf symbolize hash64 accept can_create s mem len flt) (fun '(saved, s') =>
    saved_or_quiet saved mem s s' /\
    (flt <> FSRV_RUN_TMOUT ->
     saves_if (negb (len =? 0) && bool_decide (flt = FSRV_RUN_CRASH) &&
               worth_keeping s (classify_counts fl (acov (state s)))) mem len s saved s')).
Proof.
  intros Hok Hm. unfold save_if_interesting.
  destruct (len =? 0); [cbn; split; [apply quiet_refl|]; split; [apply quiet_refl|done]|]. cbn [negb andb].
  destruct (bool_decide (flt = FSRV_RUN_TMOUT) && _) eqn:Eb.
  { apply andb_true_iff in Eb as [Eb _]. apply bool_decide_eq_true in Eb. cbn. split; [apply quiet_refl|done]. }
  clear Eb. destruct (note_path_spec s Hok) as (cl & cksum & s1 & -> & Q1 & A1 & C1 & S1). cbn [mbind res_bind].
  pose proof (qt_ok _ _ Q1 Hok) as Hok1.
  destruct (decide (flt = FSRV_RUN_TMOUT)) as [-> |Hflt].
  - eapply or_stop_mono; [now apply save_timeout|]. intros [saved s2] H2. split; [now apply (saved_or_quiet_after _ _ _ s1)|done].
  - eapply or_stop_mono; [now apply save_switch_quick|]. intros [saved s2] H2.
    apply (saves_if_after _ _ _ s) in H2; [|exact Q1]. split; [apply H2|]. intros _. unfold worth_keeping in *.
    rewrite (look_same s s1 (eq_sym S1)) || rewrite (look_same s s1 S1). rewrite C1, A1 in H2. now destruct cl.
Qed.

(** ** Running the target on a mutated input *)

Lemma quiet_counter s k : quiet s (on_state (set_queued_discovered k) s).
Proof.
  split; auto using same_site_refl. intros [H1 H2 H3 H4 H5 H6 H7]. split; auto. destruct H2. split; auto.
Qed.

Lemma saved_or_quiet_then saved mem s s1 s2 :
  saved_or_quiet saved mem s s1 -> quiet s1 s2 -> saved_or_quiet saved mem s s2.
Proof.
  intros Hs Q. destruct saved; cbn in *; [|now apply (quiet_trans _ s1)]. destruct Hs as (H1 & (k & Hk & H2) & H3).
  split; [now apply (qt_ok _ _ Q)|]. split.
  - exists k. split; [exact Hk|]. destruct Q as [_ Q2 _ Q4 Q5 _]. unfold one_more. now rewrite Q2, Q4, Q5.
  - intros Hlv. eapply same_site_trans; [now apply H3|apply Q].
Qed.

Lemma common_fuzz_stuff_spec s out_buf len :
  sess_ok s -> mem_ok out_buf len ->
  or_fatal True (common_fuzz_stuff fl cf symbolize hash64 accept can_create s out_buf len) (fun '(s', bail) =>
    exists saved, saved_or_quiet saved out_buf s s' /\ (bail = true -> saved = false)).
Proof.
  intros Hok Hm. unfold common_fuzz_stuff.
  destruct (write_any_ok s out_buf len false Hm) as (l & c & E & Hl). rewrite E. cbn [mbind res_bind].
  set (s1 := set_testcase c s). assert (Q1 : quiet s s1) by apply quiet_testcase. clearbody s1.
  destruct (l =? 0); [exists false; split; [exact Q1|done]|].
  apply or_stop_bind. eapply or_stop_mono; [apply (quiet_run s1 (exec_tmout cf)); now apply (qt_ok _ _ Q1)|].
  intros [flt s2] Q2'. assert (Q2 : quiet s s2) by (eapply quiet_trans; eassumption).
  destruct (stop_soon _); [exists false; split; [exact Q2|done]|].
  set (s3 := on_stat _ s2). assert (Q3 : quiet s s3) by (eapply quiet_trans; [exact Q2|apply quiet_stat]). clearbody s3.
  destruct (_ && _); [exists false; split; [eapply quiet_trans; [exact Q3|apply quiet_stat]|done]|].
  pose proof (fun Hi => tl_skip _ _ _ _ laws (world s3) Hi) as Hw.
  destruct (take_skip_request (world s3)) as [skip w]. cbn [snd] in Hw.
  assert (Q4 : quiet s (set_world w s3)) by (eapply quiet_trans; [exact Q3|now apply quiet_clock]).
  destruct skip; [exists false; split; [eapply quiet_trans; [exact Q4|apply quiet_stat]|done]|].
  apply or_stop_bind. eapply or_stop_mono; [apply save_if_interesting_spec; [now apply (qt_ok _ _ Q4)|exact Hl]|].
  intros [saved s5] [H5 _]. exists saved. split; [|done]. apply (saved_or_quiet_after _ _ _ _ _ Q4) in H5.
  eapply saved_or_quiet_then; [exact H5|apply quiet_counter].
Qed.
End Save.

(** C2: what an execution leads to.  [save_if_interesting] always comes to a
    verdict or ends the fuzzer with an error message, however much of what it
    is given each [write] takes.  A verdict that nothing is saved leaves the
    queue, its files and the readme as they were; one that the input is saved
    leaves exactly one more entry, a beginning of the input, with a new file
    that holds what was written of it (all of it, if the system takes it in
    one go), and one more line of the readme; at the third level of crash mode
    the crash site is the same afterwards.  If the run did not time out, the
    input is saved exactly when it is not empty, the target crashed -- at the
    site looked for, but that is compared at the third level of crash mode
    only -- and [has_few_bits] does not return 0 or 0x10 on the classified
    trace: with a matrix, one of its three decreases is there, and without one
    something is new ([has_few_bits] is [has_new_bits] then); the entry is then
    as long as the input.  For a run that timed out it is not said when
    something is saved, only what a save is.  The buffer has at least
    [min_length] bytes, and a directory less than [2 ^ 32] files. *)
Theorem save_if_interesting_correct {W} `{World W} fl cf symbolize hash64 accept can_create I T n (s : sess W) mem len flt :
  posix_write accept -> (forall d, can_create d = true -> Z.of_nat (size d) + 1 < 2 ^ 32) ->
  target_laws I T n True -> 0 <= min_length cf /\ 0 <= max_length cf ->
  sess_ok I n s -> mem_ok cf mem len ->
  or_fatal True (save_if_interesting fl cf symbolize hash64 accept can_create s mem len flt) (fun '(saved, s') =>
    saved_or_quiet cf accept I n saved mem s s' /\
    (flt <> FSRV_RUN_TMOUT ->
     saves_if cf accept I n (negb (len =? 0) && bool_decide (flt = FSRV_RUN_CRASH) &&
       worth_keeping fl cf symbolize s (classify_counts fl (acov (state s)))) mem len s saved s')).
Proof.
  intros Ha Hd Hlaws Hlim. now apply (save_if_interesting_spec fl cf symbolize hash64 accept Ha can_create Hd I T n Hlaws Hlim).
Qed.

(** ** A session to save into *)

Lemma queue_wf_more_nfuzz a l :
  queue_wf a -> (length (n_fuzz a) <= length l)%nat -> queue_wf (set_n_fuzz l a).
Proof.
  intros [] Hl. split; auto. intros p q Hq. cbn [set_n_fuzz queue_buf n_fuzz] in *. specialize (qw_nfuzz p q Hq). lia.
Qed.

Definition nfuzz0 : list Z := replicate (Z.to_nat N_FUZZ_SIZE) 0.

Definition sess1 : sess unit :=
  set_queue_dir (<[[0x2f; 97] := replicate 10 1]> (<[[0x2f; 98] := replicate 20 2]> ∅))
    (sess0 (set_n_fuzz nfuzz0 afl0)).

Lemma nfuzz0_length : length nfuzz0 = Z.to_nat N_FUZZ_SIZE.
Proof. apply length_replicate. Qed.

#[local] Opaque nfuzz0.

Lemma sess1_ok : sess_ok (fun _ : unit => True) 64 sess1.
Proof.
  assert (Hwf : queue_wf (set_n_fuzz nfuzz0 afl0)).
  { apply queue_wf_more_nfuzz; [exact afl0_wf|]. rewrite nfuzz0_length. unfold N_FUZZ_SIZE. cbn [n_fuzz afl0 length]. lia. }
  split; [exact Logic.I|exact Hwf|reflexivity| | | |].
  - split; cbn; try lia. discriminate.
  - change (N_FUZZ_SIZE <= Z.of_nat (length nfuzz0)). rewrite nfuzz0_length. unfold N_FUZZ_SIZE. lia.
  - intros Hc. now destruct Hc.
  - change (Z.of_nat 2 <= Z.of_nat (size (queue_dir sess1))). 
    assert (size (queue_dir sess1) = 2%nat) as -> by (vm_compute; reflexivity). lia.
Qed.

Definition disk100 (d : gmap (list Z) (list Z)) : bool := bool_decide (Z.of_nat (size d) < 100).

#[local] Abbreviation save1 :=
  (@save_if_interesting unit (toy const_trace) Word64 conf0 (fun _ _ => (0, None)) (zsum id) hesitant disk100
     sess1 (replicate 20 65) 20 FSRV_RUN_CRASH).

Lemma or_fatal_yes {S} (m : res (bool * S)) (P : bool * S -> Prop) :
  or_fatal True m P -> match m with Ok (saved, _) => saved | Err _ => false end = true ->
  exists s', m = Ok (true, s') /\ P (true, s').
Proof. destruct m as [[[] s']|]; cbn; [eauto|discriminate..]. Qed.

Lemma disk100_room d : disk100 d = true -> Z.of_nat (size d) + 1 < 2 ^ 32.
Proof. intros Hd. apply bool_decide_eq_true in Hd. lia. Qed.

Lemma toy_laws_true tr n :
  (forall t, bytes (tr t) /\ length (tr t) = n) ->
  @target_laws unit (toy tr) (fun _ => True) (fun t x => x = tr t) n True.
Proof.
  intros Htr. destruct (toy_laws tr n Htr) as [L1 L2 L3 L4]. split; auto. intros w b t tmo Hw.
  specialize (L1 w b t tmo Hw). destruct (run_child _ _ _ _). destruct L1 as (? & ? & L). tauto.
Qed.

Lemma save1_returns : match save1 with Ok (saved, _) => saved | Err _ => false end = true.
Proof. vm_compute. reflexivity. Qed.

Lemma save_if_interesting_correct_witness :
  exists s', save1 = Ok (true, s') /\ sess_ok (fun _ : unit => True) 64 s' /\
    one_more conf0 hesitant (replicate 20 65) 20 sess1 s'.
Proof.
  assert (Hm : mem_ok conf0 (replicate 20 65) 20) by (unfold mem_ok; rewrite length_replicate; cbn; lia).
  assert (Hlim : 0 <= min_length conf0 /\ 0 <= max_length conf0) by (cbn; unfold MAX_FILE; lia).
  destruct (or_fatal_yes _ _ (@save_if_interesting_correct unit (toy const_trace) Word64 conf0 (fun _ _ => (0, None)) (zsum id) hesitant
    disk100 (fun _ => True) (fun t x => x = const_trace t) 64 sess1 (replicate 20 65) 20 FSRV_RUN_CRASH
    hesitant_posix disk100_room (toy_laws_true const_trace 64 const_trace_ok) Hlim sess1_ok Hm) save1_returns)
    as (s' & E & H1 & H2).
  exists s'. split; [exact E|]. split; [apply H1|].
  assert (Hne : FSRV_RUN_CRASH = FSRV_RUN_TMOUT -> False) by discriminate.
  destruct (H2 Hne) as (_ & _ & H3). apply H3. reflexivity.
Defined.
