(* ===== verification/DryRun.v ===== *)
(** The dry run: [perform_dry_run] of [src/afl-fuzz-init.c] runs each of the
    initial inputs, picks the matrix and disables the inputs whose trace
    another one has too. *)

From S2P Require Import Prelude Words Arith Float State Bitmap Text Queue TestcaseCache Callstack Session Calibrate Describe Save.

Definition CAL_CHANCES : Z := 3.

(** [afl->testcase_matrix = q] *)
Definition set_matrix (m : option nat) (c : cov) : cov :=
  mkCov (trace_bits c) (map_size c) (real_map_size c) (actual_counts c)
        (virgin_bits c) (virgin_tmout c) (virgin_crash c)
        (bitmap_changed c) m (min_actual_cnts c) (min_bitmap_size c).

(** The first fuzzing of an entry that will never be fuzzed. *)
Definition never_fuzz (p : nat) (a : afl) : res afl :=
  q ← deref a p;
  if was_fuzzed q then Ok a else
  let a := upd p (set_was_fuzzed true) a in
  let a := set_pending_not_fuzzed (u32 (pending_not_fuzzed a - 1)) a in
  Ok (set_active_items (u32 (active_items a - 1)) a).

Section DryRun.
Context {W : Type} `{World W} (fl : flavour) (cf : conf).
Context (symbolize : list Z -> Z -> Z * option (list Z)) (hash64 : list Z -> Z).
(** [afl->timeout_given] and [AFL_EXIT_ON_SEED_ISSUES]. *)
Context (timeout_given afl_exit_on_seed_issues : bool).
Implicit Types s : sess W.

(** [open], [ck_read] and [close] of the entry's file. *)
Definition read_entry s (q : queue_entry) : res (list Z) :=
  match queue_dir s !! fname q with
  | None => Err Fatal
  | Some content =>
      let read_len := Z.min (q_len q) MAX_FILE in
      if Z.of_nat (length content) <? read_len then Err Fatal else Ok (take (Z.to_nat read_len) content)
  end.

(** The matrix is the first entry that is run.  It is calibrated once more, and
    its crash site is what other crashes are compared with. *)
Definition choose_matrix s (idx : nat) (use_mem : list Z) (flt : fsrv_run_result) : res (fsrv_run_result * sess W) :=
  match testcase_matrix_of (state s) with
  | Some _ => Ok (flt, s)
  | None =>
      let s := on_state (fun a => set_acov (set_matrix (Some idx) (acov a)) a) s in
      '(flt, s) ← calibrate_case fl cf hash64 idx use_mem 0 true s;
      if IGORFUZZ_NEW_CRASH_MODE_LV3 <=? crash_mode cf then
        let '(found, stack) := find_crash_site (target_path cf) symbolize false (call_stack s) in
        Ok (flt, set_crash_site found (set_call_stack stack s))
      else Ok (flt, s)
  end.

(** [switch (res)]: what is counted is the entries that are given up. *)
Definition judge_entry s (idx : nat) (flt : fsrv_run_result) (cal_failures : Z) : res (Z * sess W) :=
  match flt with
  | FSRV_RUN_OK | FSRV_RUN_ERROR | FSRV_RUN_NOINST => Err Fatal
  | FSRV_RUN_CRASH | FSRV_RUN_NOBITS => Ok (cal_failures, s)
  | FSRV_RUN_TMOUT =>
      if timeout_given && negb afl_exit_on_seed_issues then
        let s := on_state (upd idx (fun q => set_perf_score (dint 0) (set_disabled true (set_cal_failed CAL_CHANCES q)))) s in
        a ← never_fuzz idx (state s);
        Ok (u32 (cal_failures + 1), set_state a s)
      else Err Fatal
  end.

(** The detail of an initial input. *)
Definition report_entry s (idx : nat) : res (sess W) :=
  if truthy (crash_mode cf) && (crash_mode cf <? IGORFUZZ_NEW_CRASH_MODE_LV3) then
    let '(found, s) := look_at_crash cf symbolize s in
    write_crash_detail cf (set_crash_site found s) idx
  else if IGORFUZZ_NEW_CRASH_MODE_LV3 <=? crash_mode cf then
    '(same, s) ← same_crash_site cf symbolize s (Some idx) true true;
    if same : bool then write_crash_detail cf s idx else Ok s
  else write_crash_detail cf s idx.

(** The body of the loop; the first component: [stop_soon] ends it. *)
Definition dry_run_entry s (idx : nat) (cal_failures : Z) : res (bool * Z * sess W) :=
  q ← deref (state s) idx;
  if disabled q || (q_len q =? 0) then Ok (false, cal_failures, s) else
  use_mem ← read_entry s q;
  '(flt, s) ← calibrate_case fl cf hash64 idx use_mem 0 true s;
  '(flt, s) ← choose_matrix s idx use_mem flt;
  if stop_soon (world s) then Ok (true, cal_failures, s) else
  '(cal_failures, s) ← judge_entry s idx flt cal_failures;
  s ← report_entry s idx;
  Ok (false, cal_failures, s).

Fixpoint dry_run_from (todo : nat) (idx : nat) (cal_failures : Z) s : res (bool * Z * sess W) :=
  match todo with
  | O => Ok (false, cal_failures, s)
  | S todo =>
      '(stopped, cal_failures, s) ← dry_run_entry s idx cal_failures;
      if stopped : bool then Ok (true, cal_failures, s) else dry_run_from todo (S idx) cal_failures s
  end.

(** ** Entries with the same trace *)

Definition skip_duplicate (q : queue_entry) : bool := disabled q || truthy (cal_failed q) || (exec_cksum q =? 0).

Definition disable_duplicate (p : nat) (a : afl) : res afl :=
  a ← never_fuzz p a;
  Ok (upd p (fun q => set_perf_score (dint 0) (set_disabled true q)) a).

(** The inner loop: the later entries against entry [idx]; the flag is [done]. *)
Fixpoint compare_from (todo : nat) (idx i : nat) (duplicates : bool) (a : afl) : res (bool * afl) :=
  match todo with
  | O => Ok (duplicates, a)
  | S todo =>
      q ← deref a idx;
      p ← deref a i;
      if skip_duplicate p then compare_from todo idx (S i) duplicates a else
      if negb (exec_cksum p =? exec_cksum q) then compare_from todo idx (S i) duplicates a else
      if q_len q <=? q_len p then
        a ← disable_duplicate i a;
        compare_from todo idx (S i) true a
      else
        a ← disable_duplicate idx a;
        Ok (true, a)
  end.

Fixpoint duplicates_from (todo : nat) (idx : nat) (duplicates : bool) (a : afl) : res (bool * afl) :=
  match todo with
  | O => Ok (duplicates, a)
  | S todo =>
      q ← deref a idx;
      '(duplicates, a) ← (if skip_duplicate q then Ok (duplicates, a) else compare_from todo idx (S idx) duplicates a);
      duplicates_from todo (S idx) duplicates a
  end.

(** [max_depth] over the entries that are left. *)
Definition deepest (l : list queue_entry) : Z :=
  foldl (fun d q => if negb (disabled q) && (d <? depth q) then depth q else d) 0 l.

Definition remove_duplicates (a : afl) : res afl :=
  '(duplicates, a) ← duplicates_from (length (queue_buf a)) 0 false a;
  Ok (if duplicates : bool then set_queue_top (queue_head a) (set_max_depth (deepest (queue_buf a)) a) else a).

Definition perform_dry_run s : res (sess W) :=
  '(stopped, cal_failures, s) ← dry_run_from (length (queue_buf (state s))) 0 0 s;
  if stopped : bool then Ok s else
  if truthy cal_failures && (cal_failures =? queued_items (state s)) then Err Fatal else
  a ← remove_duplicates (state s);
  Ok (set_state a s).
End DryRun.
