(* ===== verification/DryRunThms.v ===== *)
(** Properties of [DryRun]: which of the initial inputs are left. *)

From S2P Require Import Prelude Words Arith Float State Bitmap BitmapThms FewBits Text Queue QueueScore TestcaseCache Callstack Session SessionThms Calibrate CalThms Describe Save SaveThms DryRun.

(** ** Entries with the same trace *)

(** An entry that takes part in the comparison. *)
Definition live (q : queue_entry) : bool := negb (skip_duplicate q).
(** What is left of an entry whose trace another one has. *)
Definition retire (q : queue_entry) : queue_entry := set_perf_score (dint 0) (set_disabled true (set_was_fuzzed true q)).
Definition live_at (l : list queue_entry) (r : nat) (q : queue_entry) : Prop := l !! r = Some q /\ live q = true.
Definition fuzzed_count (l : list queue_entry) : Z := zsum (fun q => b2z (was_fuzzed q)) l.

Lemma retire_dead q : live (retire q) = false.
Proof. done. Qed.

(** Each entry is as it was, or it was live and is retired, and a live entry
    with its checksum is no longer than it. *)
Definition thinned (l0 l : list queue_entry) : Prop :=
  length l = length l0 /\
  forall r q0, l0 !! r = Some q0 -> exists q, l !! r = Some q /\
    (q = q0 \/ (live q0 = true /\ q = retire q0 /\
       exists r' q', live_at l r' q' /\ exec_cksum q' = exec_cksum q0 /\ q_len q' <= q_len q0)).

(** The live entries before [idx] have no double. *)
Definition single (idx : nat) (l : list queue_entry) : Prop :=
  forall r1 r2 q1 q2, (r1 < idx)%nat -> live_at l r1 q1 -> live_at l r2 q2 -> exec_cksum q1 = exec_cksum q2 -> r1 = r2.

Lemma live_at_retire l x r q : live_at (alter retire x l) r q <-> live_at l r q /\ r <> x.
Proof.
  unfold live_at. destruct (decide (r = x)) as [->|Hr].
  - rewrite lookup_alter_eq. destruct (l !! x) as [y|]; cbn; [|intuition congruence].
    split; [|tauto]. intros [[= <-] Hl]. now rewrite retire_dead in Hl.
  - rewrite lookup_alter_ne by done. tauto.
Qed.

Lemma thinned_refl l : thinned l l.
Proof. split; [done|]. eauto. Qed.

(** Retiring an entry that has a double which is no longer. *)
Lemma thinned_retire l0 l x y qx qy :
  thinned l0 l -> live_at l x qx -> live_at l y qy -> x <> y ->
  exec_cksum qy = exec_cksum qx -> q_len qy <= q_len qx -> thinned l0 (alter retire x l).
Proof.
  intros [Hl Ht] Hx Hy Hne Ec Elen. split; [now rewrite length_alter|]. intros r q0 Hr.
  assert (Hw : exists r' q', live_at (alter retire x l) r' q' /\ exec_cksum q' = exec_cksum qx /\ q_len q' <= q_len qx).
  { exists y, qy. rewrite live_at_retire. auto. }
  destruct (Ht r q0 Hr) as (q & Hq & Hc). destruct (decide (r = x)) as [->|Hrx].
  - destruct Hx as [Hx Lx]. rewrite Hx in Hq. injection Hq as <-. exists (retire qx). rewrite lookup_alter_eq, Hx.
    split; [done|]. right. destruct Hc as [->|(_ & -> & _)]; [auto|now rewrite retire_dead in Lx].
  - exists q. rewrite lookup_alter_ne by done. split; [done|]. destruct Hc as [->|(L0 & -> & r' & q' & L' & C' & E')]; [now left|].
    right. split; [done|]. split; [done|]. destruct (decide (r' = x)) as [->|Hr'].
    + assert (q' = qx) as -> by (destruct L', Hx; congruence). destruct Hw as (r2 & q2 & A1 & A2 & A3).
      exists r2, q2. split; [done|]. split; [congruence|lia].
    + exists r', q'. rewrite live_at_retire. auto.
Qed.

Lemma single_retire idx l x : single idx l -> single idx (alter retire x l).
Proof. intros Hs r1 r2 q1 q2 Hr H1 H2. apply live_at_retire in H1 as [H1 _], H2 as [H2 _]. eauto. Qed.

(** What the comparison changes of the queue's state. *)
Record thin (a0 a : afl) : Prop := {
  th_queue : thinned (queue_buf a0) (queue_buf a);
  th_rest : exists l n m, a = set_queue_buf l (set_active_items n (set_pending_not_fuzzed m a0));
  th_active : u32 (active_items a) = u32 (active_items a0 - (fuzzed_count (queue_buf a) - fuzzed_count (queue_buf a0)));
  th_pending : u32 (pending_not_fuzzed a)
               = u32 (pending_not_fuzzed a0 - (fuzzed_count (queue_buf a) - fuzzed_count (queue_buf a0)))
}.

Lemma thin_refl a : thin a a.
Proof.
  split; [apply thinned_refl| |f_equal; lia|f_equal; lia].
  exists (queue_buf a), (active_items a), (pending_not_fuzzed a). now destruct a.
Qed.

Lemma u32_sub_cong x y d : u32 x = u32 y -> u32 (u32 (x - d)) = u32 (y - d).
Proof.
  unfold uwrap. intros E. rewrite Zmod_mod, (Zminus_mod x d), E, <- Zminus_mod. reflexivity.
Qed.

Lemma disable_duplicate_spec a0 a x y qx qy :
  thin a0 a -> live_at (queue_buf a) x qx -> live_at (queue_buf a) y qy -> x <> y ->
  exec_cksum qy = exec_cksum qx -> q_len qy <= q_len qx ->
  exists a', disable_duplicate x a = Ok a' /\ thin a0 a' /\ queue_buf a' = alter retire x (queue_buf a).
Proof.
  intros [T1 T2 T3 T4] Hx Hy Hne Ec El. pose proof Hx as [Hq _].
  assert (Hthin : thinned (queue_buf a0) (alter retire x (queue_buf a))) by (eapply thinned_retire; eauto).
  pose proof (zsum_alter (fun q => b2z (was_fuzzed q)) retire (queue_buf a) x qx Hq) as Hz.
  cbv beta in Hz. change (b2z (was_fuzzed (retire qx))) with 1 in Hz.
  unfold disable_duplicate, never_fuzz, deref. rewrite (proj2 (rd_ok _ _ _) Hq). cbn [mbind res_bind].
  destruct (was_fuzzed qx) eqn:Ew; cbn [mbind res_bind b2z] in *.
  - assert (Ea : alter (fun q => set_perf_score (dint 0) (set_disabled true q)) x (queue_buf a) = alter retire x (queue_buf a)).
    { apply list_eq. intros r. destruct (decide (r = x)) as [->|Hr]; [|now rewrite !lookup_alter_ne].
      rewrite !lookup_alter_eq, Hq. cbn. f_equal. unfold retire. f_equal. f_equal. destruct qx. cbn in Ew. now subst. }
    eexists. split; [reflexivity|]. split; [|exact Ea]. split.
    + cbn [upd queue_buf set_queue_buf]. now rewrite Ea.
    + destruct T2 as (l & n & m & ->). do 3 eexists. reflexivity.
    + cbn [upd queue_buf set_queue_buf active_items]. rewrite Ea. unfold fuzzed_count in *. rewrite T3. f_equal. lia.
    + cbn [upd queue_buf set_queue_buf pending_not_fuzzed]. rewrite Ea. unfold fuzzed_count in *. rewrite T4. f_equal. lia.
  - eexists. split; [reflexivity|].
    match goal with |- thin _ ?b /\ _ => assert (Ea : queue_buf b = alter retire x (queue_buf a))
      by (unfold upd; cbn; now rewrite alter_alter) end.
    split; [|exact Ea]. split; rewrite ?Ea.
    + done.
    + destruct T2 as (l & n & m & ->). do 3 eexists. reflexivity.
    + cbn. rewrite (u32_sub_cong _ _ 1 T3). f_equal. unfold fuzzed_count in *. lia.
    + cbn. rewrite (u32_sub_cong _ _ 1 T4). f_equal. unfold fuzzed_count in *. lia.
Qed.

Lemma single_next idx l q :
  single idx l -> live_at l idx q ->
  (forall r p, (idx < r)%nat -> live_at l r p -> exec_cksum p <> exec_cksum q) -> single (S idx) l.
Proof.
  intros Hs Hq Hd r1 r2 q1 q2 Hr H1 H2 Ec. destruct (decide (r1 = idx)) as [->|]; [|apply (Hs r1 r2 q1 q2); auto; lia].
  assert (q1 = q) as -> by (destruct H1, Hq; congruence).
  destruct (lt_eq_lt_dec r2 idx) as [[Hl| ->]|Hl]; [|done|exfalso; eapply Hd; eauto].
  symmetry. apply (Hs r2 idx q2 q); auto.
Qed.

Lemma single_skip idx l : single idx l -> (forall q, ~ live_at l idx q) -> single (S idx) l.
Proof.
  intros Hs Hn r1 r2 q1 q2 Hr H1 H2 Ec. destruct (decide (r1 = idx)) as [->|]; [now apply Hn in H1|].
  apply (Hs r1 r2 q1 q2); auto. lia.
Qed.

(** The state of the two loops: what was compared, and whether anything was
    retired. *)
Definition compared (a0 : afl) (idx : nat) (dup : bool) (a : afl) : Prop :=
  thin a0 a /\ single idx (queue_buf a) /\ (dup = false -> a = a0).

Lemma compare_spec todo a0 idx i dup a q :
  compared a0 idx dup a -> live_at (queue_buf a) idx q -> (i + todo = length (queue_buf a))%nat -> (idx < i)%nat ->
  (forall r p, (idx < r < i)%nat -> live_at (queue_buf a) r p -> exec_cksum p <> exec_cksum q) ->
  exists dup' a', compare_from todo idx i dup a = Ok (dup', a') /\ compared a0 (S idx) dup' a' /\
    length (queue_buf a') = length (queue_buf a).
Proof.
  revert i dup a. induction todo as [|todo IH]; intros i dup a Hc Hq Hi Hlt Hd; cbn [compare_from];
    pose proof Hc as (Ht & Hs & Hdup).
  { exists dup, a. split; [done|]. split; [|done]. split; [done|]. split; [|done].
    apply (single_next idx _ q Hs Hq). intros r p Hr Hp. apply (Hd r p); [|done].
    split; [done|]. destruct Hp as [Hp _]. apply lookup_lt_Some in Hp. lia. }
  destruct (rd_lt (queue_buf a) i) as (p & Ep & Hp); [lia|]. unfold deref. rewrite Ep, (proj2 (rd_ok _ _ _) (proj1 Hq)).
  cbn [mbind res_bind]. destruct (skip_duplicate p) eqn:Esk.
  { apply IH; [done|done|lia|lia|]. intros r p' Hr Hp'. destruct (decide (r = i)) as [->|]; [|apply (Hd r); [lia|done]].
    destruct Hp' as [Hp' Hl]. assert (p' = p) as -> by congruence. unfold live in Hl. now rewrite Esk in Hl. }
  assert (Hlp : live_at (queue_buf a) i p) by (split; [done|unfold live; now rewrite Esk]).
  destruct (Z.eqb_spec (exec_cksum p) (exec_cksum q)) as [Ec|Ec]; cbn [negb].
  2: { apply IH; [done|done|lia|lia|]. intros r p' Hr Hp'. destruct (decide (r = i)) as [->|]; [|apply (Hd r); [lia|done]].
       assert (p' = p) as -> by (destruct Hp', Hlp; congruence). done. }
  destruct (Z.leb_spec (q_len q) (q_len p)) as [El|El].
  - destruct (disable_duplicate_spec a0 a i idx p q Ht Hlp Hq) as (a' & E & Ht' & Eb); [lia|auto|auto|].
    rewrite E. cbn [mbind res_bind]. destruct (IH (S i) true a') as (dup' & a2 & E2 & Hc2 & L2).
    + split; [done|]. split; [rewrite Eb; now apply single_retire|done].
    + rewrite Eb. apply live_at_retire. split; [done|lia].
    + rewrite Eb, length_alter. lia.
    + lia.
    + intros r p' Hr Hp'. rewrite Eb in Hp'. apply live_at_retire in Hp' as [Hp' Hne]. apply (Hd r); [lia|done].
    + rewrite Eb, length_alter in L2. eauto.
  - destruct (disable_duplicate_spec a0 a idx i q p Ht Hq Hlp) as (a' & E & Ht' & Eb); [lia|auto|lia|].
    rewrite E. cbn [mbind res_bind]. exists true, a'. split; [done|]. rewrite Eb, length_alter. split; [|done].
    split; [done|]. split; [|done]. rewrite Eb. apply single_skip; [now apply single_retire|].
    intros q' Hq'. apply live_at_retire in Hq' as [_ Hq']. done.
Qed.

Lemma duplicates_spec todo a0 idx dup a :
  compared a0 idx dup a -> (idx + todo = length (queue_buf a))%nat ->
  exists dup' a', duplicates_from todo idx dup a = Ok (dup', a') /\ compared a0 (length (queue_buf a)) dup' a'.
Proof.
  revert idx dup a. induction todo as [|todo IH]; intros idx dup a Hc Hi; cbn [duplicates_from].
  { exists dup, a. replace (length (queue_buf a)) with idx by lia. done. }
  pose proof Hc as (Ht & Hs & Hdup). destruct (rd_lt (queue_buf a) idx) as (q & Eq & Hq); [lia|].
  unfold deref. rewrite Eq. cbn [mbind res_bind]. destruct (skip_duplicate q) eqn:Esk; cbn [mbind res_bind].
  - apply IH; [|lia]. split; [done|]. split; [|done]. apply single_skip; [done|].
    intros q' [Hq' Hl]. assert (q' = q) as -> by congruence. unfold live in Hl. now rewrite Esk in Hl.
  - assert (Hlq : live_at (queue_buf a) idx q) by (split; [done|unfold live; now rewrite Esk]).
    destruct (compare_spec todo a0 idx (S idx) dup a q Hc Hlq) as (dup' & a' & E & Hc' & El); [lia|lia|intros; lia|].
    rewrite E. cbn [mbind res_bind]. rewrite <- El. apply IH; [done|lia].
Qed.

Lemma remove_duplicates_spec a :
  exists dup a1, remove_duplicates a =
      Ok (if dup : bool then set_queue_top (queue_head a) (set_max_depth (deepest (queue_buf a1)) a1) else a) /\
    thin a a1 /\ single (length (queue_buf a)) (queue_buf a1) /\ (dup = false -> a1 = a).
Proof.
  unfold remove_duplicates.
  destruct (duplicates_spec (length (queue_buf a)) a 0 false a) as (dup & a1 & E & Ht & Hs & Hd); [|done|].
  { split; [apply thin_refl|]. split; [intros r1 r2 q1 q2 Hr; lia|done]. }
  rewrite E. cbn [mbind res_bind]. exists dup, a1. split; [|auto].
  destruct dup; [|now rewrite Hd]. destruct (th_rest _ _ Ht) as (l & n & m & ->). reflexivity.
Qed.

(** The invariant of the queue reads three fields of an entry only. *)
Lemma queue_wf_entries a l n m :
  queue_wf a -> length l = length (queue_buf a) ->
  (forall r x, l !! r = Some x -> exists y, queue_buf a !! r = Some y /\ refs_of x = refs_of y) ->
  queue_wf (set_queue_buf l (set_active_items n (set_pending_not_fuzzed m a))).
Proof.
  intros [] Hl Hb. unfold mini_len, testcase_matrix_of in *.
  split; unfold mini_len, testcase_matrix_of; cbn [queue_buf set_queue_buf]; rewrite ?Hl; try assumption.
  - intros r x Hx. destruct (Hb r x Hx) as (y & Hy & E). destruct (qw_refs r y Hy) as [E1 E2 E3].
    unfold refs_of in E. injection E as F1 F2 F3. split; rewrite ?F1, ?F2; auto.
  - intros r x Hx. destruct (Hb r x Hx) as (y & Hy & E). unfold refs_of in E. injection E as _ _ F3.
    rewrite F3. exact (qw_nfuzz r y Hy).
Qed.

Lemma thinned_back l0 l r q :
  thinned l0 l -> l !! r = Some q -> exists q0, l0 !! r = Some q0 /\ (q = q0 \/ q = retire q0).
Proof.
  intros [El Ht] Hq. assert (Hr : (r < length l0)%nat) by (rewrite <- El; eapply lookup_lt_Some; eauto).
  apply lookup_lt_is_Some in Hr as [q0 Hq0]. destruct (Ht r q0 Hq0) as (q' & Hq' & Hc). exists q0. split; [done|].
  assert (q' = q) as -> by congruence. destruct Hc as [->|(_ & -> & _)]; auto.
Qed.

Lemma queue_wf_thin a0 a : thin a0 a -> queue_wf a0 -> queue_wf a.
Proof.
  intros [Ht (l & n & m & ->) _ _] Hwf. cbn [queue_buf set_queue_buf] in Ht. apply queue_wf_entries; [done|apply Ht|].
  intros r x Hx. destruct (thinned_back _ _ _ _ Ht Hx) as (y & Hy & [->| ->]); eauto.
Qed.

Lemma queue_wf_depth a t d : queue_wf a -> queue_wf (set_queue_top t (set_max_depth d a)).
Proof. intros []. split; assumption. Qed.

(** ** The loop over the inputs *)

(** What never changes of an entry, and what its run decides. *)
Definition seed_of (q : queue_entry) := (fname q, q_len q, q_id q, depth q, mother q).
Definition fate_of (q : queue_entry) := (disabled q, cal_failed q).

(** The first entry that is run. *)
Definition runs (q : queue_entry) : bool := negb (disabled q) && negb (q_len q =? 0).
Fixpoint first_run (l : list queue_entry) (i : nat) : option nat :=
  match l with
  | [] => None
  | q :: l => if runs q then Some i else first_run l (S i)
  end.

Lemma first_run_snoc l q i :
  first_run (l ++ [q]) i = match first_run l i with
                           | Some m => Some m
                           | None => if runs q then Some (i + length l)%nat else None
                           end.
Proof.
  revert i. induction l as [|x l IH]; intros i; cbn [app first_run length].
  - now rewrite Nat.add_0_r.
  - destruct (runs x); [done|]. rewrite IH. now replace (S i + length l)%nat with (i + S (length l))%nat by lia.
Qed.

Section Loop.
Context {W : Type} `{World W} (fl : flavour) (cf : conf).
Context (symbolize : list Z -> Z -> Z * option (list Z)) (hash64 : list Z -> Z).
Context (timeout_given exit_on_issues : bool).
Context (I : W -> Prop) (T : list Z -> list Z -> Prop) (n : nat) (Bad : Prop) (laws : target_laws I T n Bad).
Context (c0 : cov) (Hc0 : map_size c0 = Z.of_nat n).
Implicit Types s : sess W.

(** A step that is about entry [idx]. *)
Record touched (idx : nat) s s' : Prop := {
  to_world : I (world s');
  to_wf : queue_wf (state s');
  to_dims : dims (acov (state s')) = dims (acov (state s));
  to_dir : queue_dir s' = queue_dir s;
  to_seeds : map seed_of (queue_buf (state s')) = map seed_of (queue_buf (state s));
  to_others r : r <> idx -> fate_of <$> queue_buf (state s') !! r = fate_of <$> queue_buf (state s) !! r;
  to_entry q q' : queue_buf (state s) !! idx = Some q -> queue_buf (state s') !! idx = Some q' ->
    disabled q = true -> disabled q' = true;
  to_var fn : fn ∈ variable_behavior (state s') -> fn ∈ variable_behavior (state s) \/
    exists q, queue_buf (state s) !! idx = Some q /\ base_name q = Ok fn
}.

Lemma base_name_seed q q' : seed_of q = seed_of q' -> base_name q = base_name q'.
Proof. unfold seed_of, base_name. intros Hs. do 2 f_equal. congruence. Qed.

Lemma touched_lookup idx s s' q :
  touched idx s s' -> queue_buf (state s) !! idx = Some q ->
  exists q', queue_buf (state s') !! idx = Some q' /\ seed_of q' = seed_of q.
Proof.
  intros Ht Hq. assert (E : map seed_of (queue_buf (state s')) !! idx = Some (seed_of q))
    by (rewrite (to_seeds _ _ _ Ht), list_lookup_fmap, Hq; done).
  rewrite list_lookup_fmap in E. destruct (queue_buf (state s') !! idx) as [q'|]; [|done]. injection E as E.
  exists q'. split; [done|]. unfold seed_of. congruence.
Qed.

Lemma touched_trans idx s1 s2 s3 :
  touched idx s1 s2 -> touched idx s2 s3 -> touched idx s1 s3.
Proof.
  intros A B. destruct B as [B1 B2 B3 B4 B5 B6 B7 B8]. split; auto.
  - now rewrite B3, (to_dims _ _ _ A).
  - now rewrite B4, (to_dir _ _ _ A).
  - now rewrite B5, (to_seeds _ _ _ A).
  - intros r Hr. now rewrite B6, (to_others _ _ _ A).
  - intros q q' Hq Hq' Hd. destruct (touched_lookup _ _ _ _ A Hq) as (q2 & Hq2 & _).
    eapply B7; [exact Hq2|exact Hq'|]. eapply to_entry; eauto.
  - intros fn Hfn. destruct (B8 fn Hfn) as [Hv|(q2 & Hq2 & Hb)]; [exact (to_var _ _ _ A fn Hv)|]. right.
    assert (Hm : map seed_of (queue_buf (state s1)) !! idx = Some (seed_of q2))
      by (now rewrite <- (to_seeds _ _ _ A), list_lookup_fmap, Hq2).
    rewrite list_lookup_fmap in Hm. destruct (queue_buf (state s1) !! idx) as [q|]; [|done].
    apply (inj Some) in Hm. exists q. now rewrite (base_name_seed _ _ Hm).
Qed.

(** Steps that change no entry. *)
Lemma touched_quiet idx s s' :
  I (world s') -> queue_wf (state s') -> dims (acov (state s')) = dims (acov (state s)) ->
  queue_dir s' = queue_dir s -> queue_buf (state s') = queue_buf (state s) ->
  variable_behavior (state s') = variable_behavior (state s) -> touched idx s s'.
Proof.
  intros H1 H2 H3 H4 H5 H6. split; auto; rewrite ?H5; auto; [intros q q' Hq Hq'; congruence|]. rewrite H6. auto.
Qed.

(** Steps that change the entry, but for its name and place. *)
Lemma touched_upd idx f s :
  I (world s) -> queue_wf (state s) -> (forall q, refs_of (f q) = refs_of q) -> (forall q, seed_of (f q) = seed_of q) ->
  (forall q, disabled q = true -> disabled (f q) = true) -> touched idx s (on_state (upd idx f) s).
Proof.
  intros Hi Hwf Hr Hs Hd. split; auto.
  - now apply queue_wf_upd.
  - now apply map_alter_same.
  - intros r Hne. unfold on_state, upd. cbn. now rewrite lookup_alter_ne.
  - intros q q' Hq Hq'. unfold on_state, upd in Hq'. cbn in Hq'. rewrite lookup_alter_eq, Hq in Hq'. injection Hq' as <-. auto.
Qed.

Lemma touched_never_fuzz idx s q :
  I (world s) -> queue_wf (state s) -> queue_buf (state s) !! idx = Some q ->
  exists a, never_fuzz idx (state s) = Ok a /\ touched idx s (set_state a s) /\
    acov a = acov (state s) /\ exists q', queue_buf a !! idx = Some q' /\ fate_of q' = fate_of q.
Proof.
  intros Hi Hwf Hq. unfold never_fuzz, deref. rewrite (proj2 (rd_ok _ _ _) Hq). cbn [mbind res_bind].
  destruct (was_fuzzed q) eqn:Ew; eexists; (split; [reflexivity|]).
  - split; [|eauto]. now apply touched_quiet.
  - pose proof (touched_upd idx (set_was_fuzzed true) s Hi Hwf (fun _ => eq_refl) (fun _ => eq_refl) (fun _ h => h)) as Ht.
    split.
    + destruct Ht as [A1 A2 A3 A4 A5 A6 A7 A8]. split; auto. destruct A2. split; assumption.
    + split; [done|]. exists (set_was_fuzzed true q). cbn. rewrite lookup_alter_eq, Hq. done.
Qed.

(** A calibration run of the input ended with [flt]. *)
Definition cal_ended (mem : list Z) (q : queue_entry) (flt : fsrv_run_result) : Prop :=
  run_ends cf I (cal_tmout cf true) c0 (handed cf mem (q_len q)) flt.

Lemma dims_size s : dims (acov (state s)) = dims c0 -> map_size (acov (state s)) = Z.of_nat n.
Proof. intros Hd. rewrite <- Hc0. exact (f_equal fst Hd). Qed.

(** The state of the entry [q0] after a calibration that ended with [flt]. *)
Definition cal_verdict (idx : nat) (q0 : queue_entry) (mem : list Z) (flt : fsrv_run_result) s : Prop :=
  exists q, queue_buf (state s) !! idx = Some q /\ seed_of q = seed_of q0 /\ disabled q = disabled q0 /\
    (stop_soon (world s) = false -> cal_ended mem q0 flt /\ (flt = FSRV_RUN_CRASH -> cal_failed q = 0)).

(** The entry's marker cannot be there before it is made. *)
Definition unmarked (q : queue_entry) s : Prop :=
  forall fn, base_name q = Ok fn -> var_behavior q = false -> fn ∈ variable_behavior (state s) -> Bad.

Lemma calibrate_touched idx mem s q fn :
  I (world s) -> queue_wf (state s) -> dims (acov (state s)) = dims c0 ->
  queue_buf (state s) !! idx = Some q -> q_len q <= Z.of_nat (length mem) -> base_name q = Ok fn -> unmarked q s ->
  or_fatal Bad (calibrate_case fl cf hash64 idx mem 0 true s) (fun '(flt, s') =>
    touched idx s s' /\ testcase_matrix_of (state s') = testcase_matrix_of (state s) /\ flt <> FSRV_RUN_NOBITS /\
    cal_verdict idx q mem flt s' /\ (forall q', queue_buf (state s') !! idx = Some q' -> unmarked q' s')).
Proof.
  intros Hi Hwf Hn Hq Hl Hb Hu. eapply or_stop_mono.
  - exact (cal_body_spec fl cf hash64 idx mem _ 0 I T n Bad s q fn laws Hi Hwf (dims_size s Hn) Hq Hl Hb (Hu fn Hb)).
  - intros [flt s'] (A1 & A2 & (K1 & K2 & K3 & K4) & A4 & A5 & [Hseen Hvar] & q' & Hq' & Hv).
    assert (Hid : ident q' = ident q).
    { assert (Em : map ident (queue_buf (state s')) !! idx = Some (ident q)) by (rewrite K1, list_lookup_fmap, Hq; done).
      rewrite list_lookup_fmap, Hq' in Em. now apply (inj Some) in Em. }
    unfold ident in Hid. injection Hid as I1 I2 I3 _ I5 I6 _ _ I9.
    assert (Hseed : seed_of q' = seed_of q) by (unfold seed_of; congruence).
    split; [split; auto|].
    + exact (f_equal (fun x => x.1.1.2) K3).
    + assert (Hm : forall l, map seed_of l = map (fun x => (x.1.1.1.1.1.1.1.1, x.1.1.1.1.1.1.1.2, x.1.1.1.1.1.1.2,
        x.1.1.1.1.2, x.1.1.1.2)) (map ident l)) by (intros l; rewrite map_map; now apply map_ext).
      now rewrite !Hm, K1.
    + intros r Hr. specialize (K4 r Hr). destruct (queue_buf (state s') !! r) as [x|], (queue_buf (state s) !! r) as [y|];
        try done. cbn in *. apply (inj Some) in K4. unfold fate_of. f_equal. f_equal; [exact (f_equal disabled K4)|exact (f_equal cal_failed K4)].
    + intros x x' Hx Hx' Hd. congruence.
    + intros f Hf. destruct Hvar as [[Hvar _]|(x & x' & g & Hx & Hg & Hvar & _)]; rewrite Hvar in Hf; [now left|].
      apply elem_of_union in Hf as [Hf|Hf]; [|now left]. apply elem_of_singleton in Hf as ->. right. eauto.
    + unfold afl_rest in K2. split; [exact (f_equal snd K2)|]. split; [done|]. split.
      * exists q'. split; [done|]. split; [done|]. split; [done|]. intros Hs. split.
        -- destruct Hseen as [Hs'|[_ Hs']]; [|congruence]. eapply run_ends_cov; [|exact (Hs' q Hq)].
           symmetry. exact (f_equal snd Hn).
        -- intros ->. destruct Hv as [(_ & Hv & _)|([Hv|Hv] & _)]; congruence.
      * intros x Hx f Hf Hnv Hin. assert (x = q') as -> by congruence. rewrite (base_name_seed _ _ Hseed) in Hf.
        destruct Hvar as [(Hvar & x & Hx' & Hv')|(x & x' & g & _ & _ & _ & Hx' & Hnv')]; [|congruence].
        cbn [snd] in Hv'. rewrite Hvar in Hin. apply (Hu f Hf); [congruence|exact Hin].
Qed.

Lemma look_at_crash_state s :
  exists found st, look_at_crash cf symbolize s = (found, set_call_stack st s).
Proof. unfold look_at_crash. destruct (find_crash_site _ _ _ _) as [f st]. eauto. Qed.

Lemma choose_matrix_spec idx mem s q fn flt :
  I (world s) -> queue_wf (state s) -> dims (acov (state s)) = dims c0 ->
  queue_buf (state s) !! idx = Some q -> q_len q <= Z.of_nat (length mem) -> base_name q = Ok fn -> unmarked q s ->
  flt <> FSRV_RUN_NOBITS -> cal_verdict idx q mem flt s ->
  or_fatal Bad (choose_matrix fl cf symbolize hash64 s idx mem flt) (fun '(flt', s') =>
    touched idx s s' /\ flt' <> FSRV_RUN_NOBITS /\ cal_verdict idx q mem flt' s' /\
    testcase_matrix_of (state s') = Some (default idx (testcase_matrix_of (state s)))).
Proof.
  intros Hi Hwf Hn Hq Hl Hb Hu Hf Hc. unfold choose_matrix. destruct (testcase_matrix_of (state s)) as [m|] eqn:Em.
  { cbn [or_stop default]. split; [now apply touched_quiet|]. auto. }
  set (s1 := on_state _ s).
  assert (Hwf1 : queue_wf (state s1)).
  { destruct Hwf as [[C1 C2 C3 C4 C5 C6 C7] D2 D3 D4 D5 D6 D7 D8 D9]. split; auto; [split; auto|].
    intros m Hm. injection Hm as <-. now apply lookup_lt_Some in Hq. }
  assert (Ht1 : touched idx s s1) by now apply touched_quiet.
  apply or_stop_bind. eapply or_stop_mono.
  { exact (calibrate_touched idx mem s1 q fn Hi Hwf1 Hn Hq Hl Hb Hu). }
  intros [flt' s2] (Ht2 & Em2 & Hf2 & Hc2 & _).
  destruct (IGORFUZZ_NEW_CRASH_MODE_LV3 <=? crash_mode cf).
  - destruct (find_crash_site _ _ _ _) as [found st]. cbn [or_stop].
    split; [|auto]. eapply touched_trans; [exact Ht1|]. eapply touched_trans; [exact Ht2|].
    apply touched_quiet; try done; apply Ht2.
  - cbn [or_stop]. split; [|auto]. eapply touched_trans; eauto.
Qed.

Lemma judge_entry_spec idx s flt k q mem :
  I (world s) -> queue_wf (state s) -> flt <> FSRV_RUN_NOBITS -> stop_soon (world s) = false -> disabled q = false ->
  cal_verdict idx q mem flt s -> (forall flt, flt <> FSRV_RUN_CRASH -> cal_ended mem q flt -> Bad) ->
  or_fatal Bad (judge_entry timeout_given exit_on_issues s idx flt k) (fun '(k', s') =>
    (truthy k' = true -> truthy k = true \/ Bad) /\
    touched idx s s' /\ testcase_matrix_of (state s') = testcase_matrix_of (state s) /\
    exists q', queue_buf (state s') !! idx = Some q' /\
      (disabled q' = false -> cal_failed q' = 0 /\ cal_ended mem q FSRV_RUN_CRASH)).
Proof.
  intros Hi Hwf Hf Hs Hd (q1 & Hq1 & _ & Hd1 & Hc) Hbad. destruct (Hc Hs) as [Hend Hcal]. rewrite Hd in Hd1.
  assert (Hmiss : flt <> FSRV_RUN_CRASH -> Bad) by eauto.
  unfold judge_entry. destruct flt; try done; try (split; [done|]; now apply Hmiss).
  - destruct (timeout_given && negb exit_on_issues); [|split; [done|]; now apply Hmiss].
    set (f := fun q => set_perf_score (dint 0) (set_disabled true (set_cal_failed CAL_CHANCES q))).
    pose proof (touched_upd idx f s Hi Hwf (fun _ => eq_refl) (fun _ => eq_refl) (fun _ _ => eq_refl)) as Ht1.
    assert (Hq2 : queue_buf (state (on_state (upd idx f) s)) !! idx = Some (f q1))
      by (unfold on_state, upd; cbn; now rewrite lookup_alter_eq, Hq1).
    set (s1 := on_state (upd idx f) s) in *.
    destruct (touched_never_fuzz idx s1 _ (to_world _ _ _ Ht1) (to_wf _ _ _ Ht1) Hq2) as (a & E & Ht2 & Ea & q' & Hq' & Hfate).
    rewrite E. cbn [mbind res_bind or_stop]. split; [intros _; right; now apply Hmiss|].
    split; [eapply touched_trans; eauto|].
    split; [unfold testcase_matrix_of; cbn [state set_state]; now rewrite Ea|].
    exists q'. split; [done|]. unfold fate_of in Hfate. injection Hfate as -> _. done.
  - cbn [or_stop]. split; [auto|]. split; [now apply touched_quiet|]. split; [done|]. eauto.
Qed.

Lemma discard_entry_spec idx s q :
  I (world s) -> queue_wf (state s) -> queue_buf (state s) !! idx = Some q ->
  exists s', discard_entry idx s = Ok s' /\ touched idx s s' /\ testcase_matrix_of (state s') = testcase_matrix_of (state s) /\
    exists q', queue_buf (state s') !! idx = Some q' /\ disabled q' = true.
Proof.
  intros Hi Hwf Hq. unfold discard_entry, deref. rewrite (proj2 (rd_ok _ _ _) Hq). cbn [mbind res_bind].
  set (f := fun q => set_perf_score (dint 0) (set_disabled true q)).
  pose proof (touched_upd idx f s Hi Hwf (fun _ => eq_refl) (fun _ => eq_refl) (fun _ _ => eq_refl)) as Ht1.
  assert (E1 : on_state (fun a => upd idx (set_perf_score (dint 0)) (upd idx (set_disabled true) a)) s = on_state (upd idx f) s)
    by (unfold on_state, upd; cbn; now rewrite alter_alter).
  rewrite E1. clear E1.
  assert (Hq1 : queue_buf (state (on_state (upd idx f) s)) !! idx = Some (f q))
    by (unfold on_state, upd; cbn; now rewrite lookup_alter_eq, Hq).
  set (s1 := on_state (upd idx f) s) in *.
  destruct (touched_never_fuzz idx s1 _ (to_world _ _ _ Ht1) (to_wf _ _ _ Ht1) Hq1) as (a & E & Ht2 & Ea & q' & Hq' & Hfate).
  unfold never_fuzz, deref in E. rewrite (proj2 (rd_ok _ _ _) Hq1) in E. cbn [mbind res_bind] in E.
  change (was_fuzzed (f q)) with (was_fuzzed q) in E.
  assert (Hd : disabled q' = true) by (unfold fate_of in Hfate; now injection Hfate as -> _).
  destruct (was_fuzzed q); injection E as <-; eexists; (split; [reflexivity|]);
    (split; [eapply touched_trans; [exact Ht1|exact Ht2]|]); eauto.
Qed.

Lemma report_entry_spec idx s q :
  I (world s) -> queue_wf (state s) -> queue_buf (state s) !! idx = Some q ->
  exists s', report_entry cf symbolize s idx = Ok s' /\ touched idx s s' /\
    testcase_matrix_of (state s') = testcase_matrix_of (state s) /\
    exists q', queue_buf (state s') !! idx = Some q' /\ (disabled q' = false -> q' = q).
Proof.
  intros Hi Hwf Hq. unfold report_entry. destruct (look_at_crash_state s) as (found & st & El).
  destruct (truthy (crash_mode cf) && _); [|destruct (IGORFUZZ_NEW_CRASH_MODE_LV3 <=? crash_mode cf)].
  - rewrite El. rewrite (write_crash_detail_eq cf _ idx q) by exact Hq. eexists. split; [reflexivity|].
    split; [now apply touched_quiet|]. eauto.
  - unfold same_crash_site. rewrite El. cbv zeta beta iota. cbn [crash_site set_call_stack].
    destruct (same_site _ _); cbn [mbind res_bind].
    + rewrite (write_crash_detail_eq cf _ idx q) by exact Hq. eexists. split; [reflexivity|]. split; [now apply touched_quiet|]. eauto.
    + rewrite (write_crash_detail_eq cf _ idx q) by exact Hq. cbn [mbind res_bind].
      match goal with |- context [discard_entry idx ?s1] =>
        destruct (discard_entry_spec idx s1 q Hi Hwf Hq) as (s2 & E2 & Ht2 & Em2 & q' & Hq' & Hd);
        assert (Ht1 : touched idx s s1) by now apply touched_quiet end.
      rewrite E2. cbn [mbind res_bind]. eexists. split; [reflexivity|]. split.
      * eapply touched_trans; [exact Ht1|]. eapply touched_trans; [exact Ht2|]. apply touched_quiet; try done; apply Ht2.
      * split; [exact Em2|]. exists q'. split; [exact Hq'|]. congruence.
  - rewrite (write_crash_detail_eq cf _ idx q) by exact Hq. eexists. split; [reflexivity|].
    split; [now apply touched_quiet|]. eauto.
Qed.

Definition matrix_after (idx : nat) (q : queue_entry) s : option nat :=
  match testcase_matrix_of (state s) with
  | Some m => Some m
  | None => if runs q then Some idx else None
  end.

Lemma read_entry_length s q mem :
  q_len q <= MAX_FILE -> read_entry s q = Ok mem -> q_len q <= Z.of_nat (length mem).
Proof.
  intros Hq. unfold read_entry. destruct (queue_dir s !! fname q) as [c|]; [|done].
  rewrite Z.min_l by done. destruct (Z.ltb_spec (Z.of_nat (length c)) (q_len q)); [done|].
  intros [= <-]. rewrite length_take. lia.
Qed.

(** The content of the entry's file makes the target crash. *)
Definition crashed_once s (q : queue_entry) : Prop :=
  exists mem, read_entry s q = Ok mem /\ cal_ended mem q FSRV_RUN_CRASH.

Lemma read_entry_seed s s' q q' :
  queue_dir s' = queue_dir s -> seed_of q' = seed_of q -> read_entry s' q' = read_entry s q.
Proof.
  intros Hd Hs. unfold seed_of in Hs. unfold read_entry.
  assert (E : fname q' = fname q /\ q_len q' = q_len q) by (split; congruence). destruct E as [-> ->]. now rewrite Hd.
Qed.

Lemma cal_ended_seed mem q q' flt : seed_of q' = seed_of q -> cal_ended mem q flt -> cal_ended mem q' flt.
Proof. intros Hs. unfold cal_ended. unfold seed_of in Hs. assert (E : q_len q' = q_len q) by congruence. now rewrite E. Qed.

Lemma crashed_once_same s s' q q' :
  queue_dir s' = queue_dir s -> seed_of q' = seed_of q -> crashed_once s q -> crashed_once s' q'.
Proof.
  intros Hd Hs (mem & Hm & Hc). exists mem. rewrite (read_entry_seed _ _ _ _ Hd Hs). split; [exact Hm|].
  exact (cal_ended_seed _ _ _ _ Hs Hc).
Qed.

(** What can be wrong with an initial input: its file is not whole, one of its
    runs does not crash in time or leaves no tuple, or another file has the
    name of its marker. *)
Definition faulty (q : queue_entry) s : Prop :=
  read_entry s q = Err Fatal \/
  (exists mem flt, read_entry s q = Ok mem /\ flt <> FSRV_RUN_CRASH /\ cal_ended mem q flt) \/
  (exists fn, base_name q = Ok fn /\ fn ∈ variable_behavior (state s)).

Lemma dry_run_entry_spec idx s k q fn :
  I (world s) -> queue_wf (state s) -> dims (acov (state s)) = dims c0 ->
  queue_buf (state s) !! idx = Some q -> q_len q <= MAX_FILE -> base_name q = Ok fn ->
  (runs q = true -> faulty q s -> Bad) ->
  or_fatal Bad (dry_run_entry fl cf symbolize hash64 timeout_given exit_on_issues s idx k) (fun '(stopped, k', s') =>
    touched idx s s' /\
    if stopped : bool then stop_soon (world s') = true else
    (truthy k' = true -> truthy k = true \/ Bad) /\
    testcase_matrix_of (state s') = matrix_after idx q s /\
    exists q', queue_buf (state s') !! idx = Some q' /\ (runs q' = true -> cal_failed q' = 0 /\ crashed_once s q)).
Proof.
  intros Hi Hwf Hn Hq Hlen Hb Hbad. unfold dry_run_entry, deref, matrix_after. rewrite (proj2 (rd_ok _ _ _) Hq). cbn [mbind res_bind].
  assert (Hruns : runs q = negb (disabled q || (q_len q =? 0))) by (unfold runs; now rewrite negb_orb).
  destruct (disabled q || (q_len q =? 0)) eqn:Esk.
  { cbn [or_stop]. split; [now apply touched_quiet|]. rewrite Hruns. cbn [negb]. split; [auto|].
    split; [now destruct (testcase_matrix_of _)|]. exists q. rewrite Hruns. split; [exact Hq|discriminate]. }
  rewrite Hruns. cbn [negb]. specialize (Hbad Hruns). apply orb_false_iff in Esk as [Hd _].
  destruct (read_entry s q) as [mem|e] eqn:Er; cbn [mbind res_bind].
  2: { assert (e = Fatal) as -> by (unfold read_entry in Er; repeat case_match; congruence).
       split; [done|]. apply Hbad. now left. }
  pose proof (read_entry_length s q mem Hlen Er) as Hl.
  assert (Hu : unmarked q s) by (intros f Hf _ Hin; apply Hbad; right; right; eauto).
  apply or_stop_bind. eapply or_stop_mono; [exact (calibrate_touched idx mem s q fn Hi Hwf Hn Hq Hl Hb Hu)|].
  intros [flt s1] (T1 & M1 & F1 & C1 & U1). pose proof C1 as (q1 & Hq1 & S1 & D1 & _).
  assert (Hn1 : dims (acov (state s1)) = dims c0) by now rewrite (to_dims _ _ _ T1).
  assert (Hlq : q_len q1 = q_len q) by (unfold seed_of in S1; congruence).
  assert (Hb1 : base_name q1 = Ok fn) by (now rewrite (base_name_seed _ _ S1)).
  assert (C1' : cal_verdict idx q1 mem flt s1).
  { destruct C1 as (x & Hx & Sx & Dx & Cx). exists x. rewrite S1, D1. split; [done|]. split; [done|]. split; [done|].
    intros Hs. destruct (Cx Hs) as [Ex Kx]. split; [exact (cal_ended_seed _ _ _ _ S1 Ex)|exact Kx]. }
  apply or_stop_bind. eapply or_stop_mono.
  { apply (choose_matrix_spec idx mem s1 q1 fn flt (to_world _ _ _ T1) (to_wf _ _ _ T1) Hn1 Hq1); auto. lia. }
  intros [flt2 s2] (T2 & F2 & C2 & M2). rewrite M1 in M2. pose proof (touched_trans _ _ _ _ T1 T2) as T12.
  destruct (stop_soon (world s2)) eqn:Es; [cbn [or_stop]; auto|].
  apply or_stop_bind. eapply or_stop_mono.
  { apply (judge_entry_spec idx s2 flt2 k q1 mem (to_world _ _ _ T2) (to_wf _ _ _ T2) F2 Es); [congruence|exact C2|].
    intros f Hf He. apply Hbad. right; left. exists mem, f. split; [done|]. split; [done|].
    exact (cal_ended_seed _ _ _ _ (eq_sym S1) He). }
  intros [k3 s3] (K3 & T3 & M3 & q3 & Hq3 & C3).
  destruct (report_entry_spec idx s3 q3 (to_world _ _ _ T3) (to_wf _ _ _ T3) Hq3) as (s4 & E4 & T4 & M4 & q4 & Hq4 & C4).
  rewrite E4. cbn [mbind res_bind or_stop]. split; [eapply touched_trans; [exact T12|]; eapply touched_trans; eauto|].
  split; [exact K3|]. split; [rewrite M4, M3, M2; now destruct (testcase_matrix_of (state s))|].
  exists q4. split; [done|]. intros Hr. unfold runs in Hr. apply andb_prop in Hr as [Hr _]. apply negb_true_iff in Hr.
  pose proof (C4 Hr) as ->. destruct (C3 Hr) as [C3a C3b]. split; [exact C3a|]. exists mem. split; [exact Er|].
  exact (cal_ended_seed _ _ _ _ (eq_sym S1) C3b).
Qed.

(** The loop before entry [idx]. *)
Record dry_inv s0 (idx : nat) s : Prop := {
  di_world : I (world s);
  di_wf : queue_wf (state s);
  di_dims : dims (acov (state s)) = dims c0;
  di_dir : queue_dir s = queue_dir s0;
  di_seeds : map seed_of (queue_buf (state s)) = map seed_of (queue_buf (state s0));
  di_done r q : (r < idx)%nat -> queue_buf (state s) !! r = Some q -> runs q = true ->
    cal_failed q = 0 /\ crashed_once s0 q;
  di_todo r : (idx <= r)%nat -> fate_of <$> queue_buf (state s) !! r = fate_of <$> queue_buf (state s0) !! r;
  di_off r q0 q : queue_buf (state s0) !! r = Some q0 -> queue_buf (state s) !! r = Some q ->
    disabled q0 = true -> disabled q = true;
  di_var fn : fn ∈ variable_behavior (state s) -> fn ∈ variable_behavior (state s0) \/
    exists r q, (r < idx)%nat /\ queue_buf (state s0) !! r = Some q /\ base_name q = Ok fn;
  di_matrix : testcase_matrix_of (state s) = match testcase_matrix_of (state s0) with
                                             | Some m => Some m
                                             | None => first_run (take idx (queue_buf (state s0))) 0
                                             end
}.

Lemma dry_inv_seed s0 idx s r q :
  dry_inv s0 idx s -> queue_buf (state s) !! r = Some q ->
  exists q0, queue_buf (state s0) !! r = Some q0 /\ seed_of q = seed_of q0 /\ ((idx <= r)%nat -> runs q = runs q0).
Proof.
  intros Hv Hq. pose proof (di_seeds _ _ _ Hv) as A5. apply (f_equal (fun l => l !! r)) in A5.
  rewrite !list_lookup_fmap, Hq in A5. cbn in A5. destruct (queue_buf (state s0) !! r) as [q0|] eqn:Hq0; [|done].
  apply (inj Some) in A5. exists q0. split; [done|]. split; [done|]. intros Hr.
  pose proof (di_todo _ _ _ Hv r Hr) as A7. rewrite Hq, Hq0 in A7. apply (inj Some) in A7.
  unfold fate_of, seed_of in *. unfold runs. congruence.
Qed.

Lemma dry_inv_next s0 idx s s' q q' :
  dry_inv s0 idx s -> touched idx s s' -> queue_buf (state s) !! idx = Some q ->
  queue_buf (state s') !! idx = Some q' -> (runs q' = true -> cal_failed q' = 0 /\ crashed_once s q) ->
  testcase_matrix_of (state s') = matrix_after idx q s -> dry_inv s0 (S idx) s'.
Proof.
  intros Hinv Ht Hq Hq' Hc Hm. pose proof Hinv as [A1 A2 A3 A4 A5 A6 A7 A8 A9 A10].
  destruct (dry_inv_seed s0 idx s idx q Hinv Hq) as (q0 & Hq0 & Hseed & Hr0). specialize (Hr0 (le_n idx)).
  split.
  - apply Ht.
  - apply Ht.
  - now rewrite (to_dims _ _ _ Ht).
  - now rewrite (to_dir _ _ _ Ht).
  - now rewrite (to_seeds _ _ _ Ht).
  - intros r x Hr Hx Hrun. pose proof (to_seeds _ _ _ Ht) as Hs. apply (f_equal (fun l => l !! r)) in Hs.
    rewrite !list_lookup_fmap, Hx in Hs. destruct (queue_buf (state s) !! r) as [y|] eqn:Hy; [|done].
    cbn in Hs. apply (inj Some) in Hs. destruct (decide (r = idx)) as [->|Hne].
    + assert (x = q' /\ y = q) as [-> ->] by (split; congruence). destruct (Hc Hrun) as [Hc1 Hc2]. split; [exact Hc1|].
      eapply crashed_once_same; [|exact Hs|exact Hc2]. now symmetry.
    + pose proof (to_others _ _ _ Ht r Hne) as Hf. rewrite Hx, Hy in Hf. apply (inj Some) in Hf.
      unfold fate_of in Hf. assert (Hry : runs y = true) by (rewrite <- Hrun; unfold runs; unfold seed_of in Hs; congruence).
      destruct (A6 r y ltac:(lia) Hy Hry) as [Hz Ho]. split; [congruence|]. eapply crashed_once_same; eauto.
  - intros r Hr. rewrite (to_others _ _ _ Ht) by lia. apply A7. lia.
  - intros r x0 x Hx0 Hx Hd. destruct (decide (r = idx)) as [->|Hne].
    + eapply to_entry; [exact Ht|exact Hq|exact Hx|]. eapply A8; eauto.
    + pose proof (to_others _ _ _ Ht r Hne) as Hf. rewrite Hx in Hf. destruct (queue_buf (state s) !! r) as [y|] eqn:Hy; [|done].
      cbn in Hf. apply (inj Some) in Hf. unfold fate_of in Hf. assert (disabled y = true) by eauto. congruence.
  - intros fn Hfn. destruct (to_var _ _ _ Ht fn Hfn) as [Hv|(x & Hx & Hb)].
    + destruct (A9 fn Hv) as [Hv'|(r & x & Hr & Hx)]; [now left|]. right. exists r, x. split; [lia|exact Hx].
    + right. exists idx, q0. split; [lia|]. split; [exact Hq0|]. assert (x = q) as -> by congruence.
      now rewrite <- (base_name_seed _ _ Hseed).
  - rewrite Hm. unfold matrix_after. rewrite A10. destruct (testcase_matrix_of (state s0)) as [m|]; [done|].
    rewrite (take_S_r _ _ _ Hq0), first_run_snoc, Hr0, length_take, Nat.add_0_l.
    apply lookup_lt_Some in Hq0. now rewrite Nat.min_l by lia.
Qed.

Definition seeds_ok s : Prop :=
  forall r q, queue_buf (state s) !! r = Some q -> q_len q <= MAX_FILE /\ exists fn, base_name q = Ok fn.

(** Two inputs have markers of one name. *)
Definition same_marker s : Prop :=
  exists r1 r2 q1 q2 fn, r1 <> r2 /\ queue_buf (state s) !! r1 = Some q1 /\ queue_buf (state s) !! r2 = Some q2 /\
    base_name q1 = Ok fn /\ base_name q2 = Ok fn.

(** Why the dry run may give up. *)
Definition dry_issue s : Prop :=
  (exists r q, queue_buf (state s) !! r = Some q /\ runs q = true /\ faulty q s) \/ same_marker s.

Lemma dry_issue_entry s0 idx s q :
  dry_inv s0 idx s -> queue_buf (state s) !! idx = Some q -> runs q = true -> faulty q s -> dry_issue s0.
Proof.
  intros Hinv Hq Hr Hbad. destruct (dry_inv_seed s0 idx s idx q Hinv Hq) as (q0 & Hq0 & Hseed & Hr0).
  specialize (Hr0 (le_n idx)). rewrite Hr in Hr0. symmetry in Hr0.
  pose proof (read_entry_seed s0 s q0 q (di_dir _ _ _ Hinv) Hseed) as Er.
  destruct Hbad as [Hbad|[(mem & flt & Hm & Hflt & He)|(fn & Hb & Hin)]].
  - left. exists idx, q0. split; [done|]. split; [done|]. left. congruence.
  - left. exists idx, q0. split; [done|]. split; [done|]. right; left. exists mem, flt. split; [congruence|].
    split; [done|]. exact (cal_ended_seed _ _ _ _ (eq_sym Hseed) He).
  - rewrite (base_name_seed _ _ Hseed) in Hb. destruct (di_var _ _ _ Hinv fn Hin) as [Hv|(r & x & Hlt & Hx & Hbx)].
    + left. exists idx, q0. split; [done|]. split; [done|]. right; right. eauto.
    + right. exists r, idx, x, q0, fn. split; [lia|auto].
Qed.

Lemma dry_run_from_spec todo s0 idx k s :
  seeds_ok s0 -> (dry_issue s0 -> Bad) -> dry_inv s0 idx s -> (truthy k = true -> Bad) ->
  (idx + todo = length (queue_buf (state s0)))%nat ->
  or_fatal Bad (dry_run_from fl cf symbolize hash64 timeout_given exit_on_issues todo idx k s) (fun '(stopped, k', s') =>
    if stopped : bool then
      stop_soon (world s') = true /\ I (world s') /\ queue_wf (state s') /\ queue_dir s' = queue_dir s0 /\
      map seed_of (queue_buf (state s')) = map seed_of (queue_buf (state s0))
    else (truthy k' = true -> Bad) /\ dry_inv s0 (length (queue_buf (state s0))) s').
Proof.
  intros Hok Hbad. revert idx k s. induction todo as [|todo IH]; intros idx k s Hinv Hk Hi; cbn [dry_run_from].
  { cbn [or_stop]. split; [exact Hk|]. now replace (length (queue_buf (state s0))) with idx by lia. }
  pose proof Hinv as [A1 A2 A3 A4 A5 A6 A7 A8 A9 A10].
  assert (Hl : (idx < length (queue_buf (state s)))%nat)
    by (apply (f_equal length) in A5; rewrite !length_map in A5; lia).
  apply lookup_lt_is_Some in Hl as [q Hq].
  destruct (dry_inv_seed s0 idx s idx q Hinv Hq) as (q0 & Hq0 & Hseed & _).
  destruct (Hok idx q0 Hq0) as (Hlen & fn & Hb).
  apply or_stop_bind. eapply or_stop_mono.
  { apply (dry_run_entry_spec idx s k q fn A1 A2 A3 Hq).
    - unfold seed_of in Hseed. assert (q_len q = q_len q0) as -> by congruence. done.
    - now rewrite (base_name_seed _ _ Hseed).
    - intros Hr Hf. apply Hbad. exact (dry_issue_entry s0 idx s q Hinv Hq Hr Hf). }
  intros [[stopped k'] s'] [Ht Hs]. destruct stopped; cbn [or_stop].
  - split; [done|]. split; [apply Ht|]. split; [apply Ht|]. now rewrite (to_dir _ _ _ Ht), (to_seeds _ _ _ Ht).
  - destruct Hs as (Hk' & Hm & q' & Hq' & Hc). apply IH; [eapply dry_inv_next; eauto| |lia]. tauto.
Qed.
End Loop.

(** ** The properties *)

Lemma thinned_seeds l0 l : thinned l0 l -> map seed_of l = map seed_of l0.
Proof.
  intros Ht. apply list_eq. intros r. rewrite !list_lookup_fmap. destruct (l !! r) as [q|] eqn:Eq.
  - destruct (thinned_back _ _ _ _ Ht Eq) as (q0 & -> & [->| ->]); done.
  - apply lookup_ge_None in Eq. rewrite (proj1 Ht) in Eq. apply lookup_ge_None in Eq. now rewrite Eq.
Qed.

(** C11: of the inputs with the same trace one is left.  No two entries that take
    part have the same checksum any more; an entry that was switched off has a
    double that is left and no longer than it; every other entry is as it was,
    the counters follow, and [max_depth] is taken again over what is left. *)
Theorem remove_duplicates_correct a :
  queue_wf a ->
  exists a', remove_duplicates a = Ok a' /\ queue_wf a' /\ thinned (queue_buf a) (queue_buf a') /\
    (forall r1 r2 q1 q2, live_at (queue_buf a') r1 q1 -> live_at (queue_buf a') r2 q2 ->
       exec_cksum q1 = exec_cksum q2 -> r1 = r2) /\
    (let k := fuzzed_count (queue_buf a') - fuzzed_count (queue_buf a) in
     u32 (active_items a') = u32 (active_items a - k) /\
     u32 (pending_not_fuzzed a') = u32 (pending_not_fuzzed a - k)) /\
    (a' = a \/ (max_depth a' = deepest (queue_buf a') /\ queue_top a' = queue_head a')).
Proof.
  intros Hwf. destruct (remove_duplicates_spec a) as (dup & a1 & E & Ht & Hs & Hd).
  pose proof (queue_wf_thin a a1 Ht Hwf) as Hwf1.
  assert (Hall : forall r1 r2 q1 q2, live_at (queue_buf a1) r1 q1 -> live_at (queue_buf a1) r2 q2 ->
       exec_cksum q1 = exec_cksum q2 -> r1 = r2).
  { intros r1 r2 q1 q2 H1 H2. eapply Hs; [|exact H1|exact H2]. destruct H1 as [H1 _]. apply lookup_lt_Some in H1.
    now rewrite <- (proj1 (th_queue _ _ Ht)). }
  destruct Ht as [T1 T2 T3 T4]. eexists. split; [exact E|]. destruct dup.
  - split; [now apply queue_wf_depth|]. split; [done|]. split; [done|]. split; [done|]. right. split; [done|].
    destruct T2 as (l & n & m & ->). done.
  - rewrite (Hd eq_refl) in *. split; [done|]. split; [apply thinned_refl|]. split; [done|]. split; [|now left].
    split; f_equal; lia.
Qed.

Lemma target_laws_weaken {W : Type} `{World W} I T n (E E' : Prop) :
  (E -> E') -> target_laws I T n E -> target_laws I T n E'.
Proof.
  intros HE [L1 L2 L3 L4]. split; auto. intros w b t tmo Hw. specialize (L1 w b t tmo Hw).
  destruct (run_child w b t tmo) as [reply w']. intuition.
Qed.

(** C10: the dry run, for every target.  It gives up only if the fork server is
    lost ([Lost]) or [dry_issue] holds: the file of an input that is run is
    not whole, a run of an input does not end with a crash in the time
    calibration allows or leaves no tuple, or the name of a variable entry's
    marker is taken.  Otherwise the queue is well-formed after it and has the
    same inputs in the same files.  Unless the user stopped it, then
    - the matrix, if there was none, is the first input that was enabled and
      not empty; it may be one that timed out and is now disabled
      ([timed_out_input_is_matrix]);
    - every input that is enabled and not empty has a file whose content,
      as calibration hands it over, has crashed the target in a run within that
      time, and no failed calibration;
    - none that was disabled is enabled, and no two that are left have the same
      trace checksum. *)
Theorem perform_dry_run_correct {W : Type} `{World W} fl cf symbolize hash64 timeout_given exit_on_issues I T n Lost (s : sess W) :
  target_laws I T n Lost -> I (world s) -> queue_wf (state s) -> map_size (acov (state s)) = Z.of_nat n -> seeds_ok s ->
  or_fatal (Lost \/ dry_issue cf I (acov (state s)) s)
    (perform_dry_run fl cf symbolize hash64 timeout_given exit_on_issues s) (fun s' =>
    let l := queue_buf (state s) in let l' := queue_buf (state s') in
    I (world s') /\ queue_wf (state s') /\ queue_dir s' = queue_dir s /\ map seed_of l' = map seed_of l /\
    (stop_soon (world s') = true \/
     (testcase_matrix_of (state s') = match testcase_matrix_of (state s) with
                                      | Some m => Some m
                                      | None => first_run l 0
                                      end /\
      (forall r q, l' !! r = Some q -> runs q = true ->
         cal_failed q = 0 /\
         exists mem, read_entry s q = Ok mem /\
           run_ends cf I (cal_tmout cf true) (acov (state s)) (handed cf mem (q_len q)) FSRV_RUN_CRASH) /\
      (forall r q q', l !! r = Some q -> l' !! r = Some q' -> disabled q = true -> disabled q' = true) /\
      (forall r1 r2 q1 q2, live_at l' r1 q1 -> live_at l' r2 q2 -> exec_cksum q1 = exec_cksum q2 -> r1 = r2)))).
Proof.
  intros laws0 Hi Hwf Hn Hok. set (Bad := Lost \/ _).
  pose proof (target_laws_weaken I T n Lost Bad (fun h => or_introl h) laws0) as laws.
  unfold perform_dry_run. apply or_stop_bind. eapply or_stop_mono.
  { apply (dry_run_from_spec fl cf symbolize hash64 timeout_given exit_on_issues I T n Bad laws _ Hn _ s 0 0 s Hok);
      [now right| |done|done].
    split; auto; [intros; lia|intros r q0 q Hq0 Hq; congruence|]. now destruct (testcase_matrix_of (state s)). }
  intros [[stopped k] s1] Hs. destruct stopped; [cbn [or_stop]; tauto|].
  destruct Hs as [Hk [A1 A2 A3 A4 A5 A6 A7 A8 A9 A10]].
  destruct (truthy k && _) eqn:Ek; [split; [done|]; apply Hk; now apply andb_prop in Ek as [Ek _]|].
  destruct (remove_duplicates_spec (state s1)) as (dup & a1 & E & Ht & Hs & Hd). rewrite E. cbn [mbind res_bind or_stop].
  set (a2 := if dup then _ else _).
  assert (H2 : queue_wf a2 /\ queue_buf a2 = queue_buf a1 /\ testcase_matrix_of a2 = testcase_matrix_of (state s1)).
  { pose proof (queue_wf_thin _ _ Ht A2) as Hwf1. destruct Ht as [_ (l & x & y & Ea) _ _]. subst a2. destruct dup.
    - split; [now apply queue_wf_depth|]. split; [done|]. rewrite Ea. done.
    - rewrite (Hd eq_refl). done. }
  destruct H2 as (B1 & B2 & B3). clearbody a2. cbn [world set_state state queue_dir].
  pose proof (th_queue _ _ Ht) as Hth. rewrite B2, B3, (thinned_seeds _ _ Hth), A10, A5.
  assert (El : length (queue_buf (state s1)) = length (queue_buf (state s)))
    by (apply (f_equal length) in A5; now rewrite !length_map in A5).
  rewrite firstn_all. split; [done|]. split; [done|]. split; [done|]. split; [done|]. right. split; [done|].
  split; [|split].
  - intros r q Hq Hr. destruct (thinned_back _ _ _ _ Hth Hq) as (q0 & Hq0 & [->| ->]); [|done].
    apply (A6 r q0); [|done|done]. rewrite <- El. eapply lookup_lt_Some; eauto.
  - intros r q q' Hq Hq' Hdis. destruct (thinned_back _ _ _ _ Hth Hq') as (q0 & Hq0 & [->| ->]); [|done]. eauto.
  - intros r1 r2 q1 q2 H1 H2. eapply Hs; [|exact H1|exact H2]. destruct H1 as [H1 _]. apply lookup_lt_Some in H1.
    now rewrite <- (proj1 Hth).
Qed.

(** ** Examples *)

(** Two inputs in their files, no matrix yet. *)
Definition seeds_sess : sess unit :=
  set_queue_dir (<[[0x2f; 97] := replicate 10 65]> (<[[0x2f; 98] := replicate 20 66]> ∅))
    (sess0 (set_acov (set_matrix None (acov afl0)) afl0)).

Lemma seeds_sess_ok : queue_wf (state seeds_sess) /\ seeds_ok seeds_sess.
Proof.
  split.
  - destruct afl0_wf as [[C1 C2 C3 C4 C5 C6 C7] D2 D3 D4 D5 D6 D7 D8 D9]. split; auto; [split; auto|]. done.
  - intros [|[|r]] q Hq; injection Hq as <- || discriminate; split; try (vm_compute; congruence); eexists; reflexivity.
Qed.

Definition dry_outcome (r : res (sess unit)) : option (option nat * list (bool * Z)) :=
  match r with
  | Ok s => Some (testcase_matrix_of (state s), map fate_of (queue_buf (state s)))
  | Err _ => None
  end.

(** Both inputs crash with the same trace: the shorter one is left. *)
Example dry_run_same_trace :
  dry_outcome (@perform_dry_run unit (toy const_trace) Word64 conf0 (fun _ _ => (0, None)) (zsum id) false false seeds_sess)
  = Some (Some 0%nat, [(false, 0); (true, 0)]).
Proof. vm_compute. reflexivity. Qed.

(** None of the two gives the dry run a reason to stop. *)
Lemma seeds_sess_sound : ~ @dry_issue unit (toy const_trace) conf0 (fun _ => True) (acov (state seeds_sess)) seeds_sess.
Proof.
  assert (Hcase : forall r q, queue_buf (state seeds_sess) !! r = Some q ->
    (r = 0%nat /\ q = named_entry [0x2f; 97] 10) \/ (r = 1%nat /\ q = named_entry [0x2f; 98] 20)).
  { intros [|[|r]] q Hq; cbn in Hq; [injection Hq as <-; now left|injection Hq as <-; now right|discriminate]. }
  intros [(r & q & Hq & _ & Hf)|(r1 & r2 & q1 & q2 & fn & Hne & Hq1 & Hq2 & H1 & H2)].
  - destruct Hf as [Hf|[(mem & flt & _ & Hflt & w & b & c & w' & st & _ & Hrun & Hst & Ho)|(fn & _ & Hin)]].
    + destruct (Hcase r q Hq) as [[-> ->]|[-> ->]]; vm_compute in Hf; discriminate.
    + injection Hrun as <- _. injection Hst as <-. destruct flt; vm_compute in Ho; congruence.
    + cbn in Hin. set_solver.
  - destruct (Hcase r1 q1 Hq1) as [[-> ->]|[-> ->]], (Hcase r2 q2 Hq2) as [[-> ->]|[-> ->]]; try done;
      vm_compute in H1, H2; congruence.
Qed.

Lemma perform_dry_run_correct_witness :
  exists s', @perform_dry_run unit (toy const_trace) Word64 conf0 (fun _ _ => (0, None)) (zsum id) false false seeds_sess = Ok s' /\
    testcase_matrix_of (state s') = Some 0%nat /\
    forall r q, queue_buf (state s') !! r = Some q -> runs q = true -> cal_failed q = 0.
Proof.
  destruct seeds_sess_ok as [Hwf Hok].
  pose proof (@perform_dry_run_correct unit (toy const_trace) Word64 conf0 (fun _ _ => (0, None)) (zsum id) false false
    _ _ 64 False seeds_sess (toy_laws const_trace 64 const_trace_ok) Logic.I Hwf eq_refl Hok) as Hd.
  destruct (perform_dry_run _ _ _ _ _ _ _) as [s'|e]; [|destruct Hd as [_ [[]|Hd]]; now apply seeds_sess_sound in Hd].
  destruct Hd as (_ & _ & _ & _ & [Hs|(Hm & Hc & _)]); [discriminate Hs|]. exists s'. split; [reflexivity|]. split; [exact Hm|].
  intros r q Hq Hr. exact (proj1 (Hc r q Hq Hr)).
Defined.

(** Two inputs of one trace. *)
Definition doubles : afl := upd 0 (set_exec_cksum 5) (upd 1 (set_exec_cksum 5) afl0).

Lemma remove_duplicates_correct_witness :
  exists a', remove_duplicates doubles = Ok a' /\ map fate_of (queue_buf a') = [(false, 0); (true, 0)] /\
    (forall r1 r2 q1 q2, live_at (queue_buf a') r1 q1 -> live_at (queue_buf a') r2 q2 ->
       exec_cksum q1 = exec_cksum q2 -> r1 = r2).
Proof.
  assert (Hwf : queue_wf doubles) by (unfold doubles; do 2 (apply queue_wf_upd; [|done]); exact afl0_wf).
  destruct (remove_duplicates_correct doubles Hwf) as (a' & E & _ & _ & Hs & _).
  exists a'. split; [exact E|]. split; [|exact Hs]. vm_compute in E. injection E as <-. reflexivity.
Defined.

(** The matrix is chosen before the cal_verdict on its run.  If the first input
    runs into a timeout that the user gave, it is given up and disabled, and
    it stays the matrix: the other inputs are compared with a trace that was
    never completed. *)
Definition slow_first : World unit := {|
  run_child := fun _ _ t tmo => (Some (mkChild 7 (if bool_decide (t = replicate 10 65) then tmo + 1 else 1) (Some 6) (const_trace t) None), tt);
  stop_soon := fun _ => false;
  take_skip_request := fun _ => (false, tt);
  get_cur_time := fun _ => (1000, tt);
  get_cur_time_us := fun _ => (1000000, tt)
|}.
Lemma timed_out_input_is_matrix :
  dry_outcome (@perform_dry_run unit slow_first Word64 conf0 (fun _ _ => (0, None)) (zsum id) true false seeds_sess)
  = Some (Some 0%nat, [(true, CAL_CHANCES); (false, 0)]).
Proof. vm_compute. reflexivity. Qed.
