(* ===== verification/Stages.v ===== *)
(** The deterministic stages of [fuzz_one_original] in
    [src/afl-fuzz-one.c]: bit flips with the collection of tokens, the
    effector map, arithmetic, interesting values and dictionary tokens.

    The stages mutate [out_buf] in place, run it and put it back.  They are
    written in a state monad with the exit [goto abandon_entry], against the
    interface [Target] of what running a test case does to the rest of the
    fuzzer.  [stage_cur_byte], [stage_cur_val] and [stage_val_type], which
    only name the files of finds, are left out. *)

From S2P Require Import Prelude Words Arith Float Bitmap State Rand Dedup Extras.

Definition EFF_MAP_SCALE2 : Z := 3.
Definition EFF_MIN_LEN : Z := 128.
Definition EFF_MAX_PERC : Z := 90.

(** ** What the stages ask of the rest of the fuzzer *)

(** [common_fuzz_stuff] runs a test case and tells whether to abandon the
    entry; [trace_cksum] is the hash of the trace it left; [hit_cnt] is
    [queued_items + saved_crashes]; [draw] is [rand_below] on the fuzzer's
    generator. *)
Class Target (W : Type) := {
  common_fuzz_stuff : W -> list Z -> res (W * bool);
  trace_cksum : W -> Z;
  hit_cnt : W -> Z;
  maybe_add_auto : W -> list Z -> res W;
  draw : W -> Z -> res (Z * W)
}.

(** ** The stages' state and monad *)

Record fz (W : Type) := mkFz {
  world : W;
  out_buf : list Z;
  stage_cur : Z;
  stage_max : Z;
  new_hit_cnt : Z;
  stage_finds : list Z;
  stage_cycles : list Z;
  blocks_eff_select : Z;
  blocks_eff_total : Z
}.
Arguments mkFz {W}.
Arguments world {W}.
Arguments out_buf {W}.
Arguments stage_cur {W}.
Arguments stage_max {W}.
Arguments new_hit_cnt {W}.
Arguments stage_finds {W}.
Arguments stage_cycles {W}.
Arguments blocks_eff_select {W}.
Arguments blocks_eff_total {W}.

(** [None] is [goto abandon_entry]. *)
Definition M (W A : Type) : Type := fz W -> res (fz W * option A).

#[export] Instance M_ret W : MRet (M W) := fun A x s => Ok (s, Some x).
#[export] Instance M_bind W : MBind (M W) := fun A B f m s =>
  '(s, r) ← m s; match r with Some x => f x s | None => Ok (s, None) end.

Section Monad.
Context {W : Type}.

Definition lift {A} (m : res A) : M W A := fun s => x ← m; Ok (s, Some x).
Definition get : M W (fz W) := fun s => Ok (s, Some s).
Definition put (s : fz W) : M W unit := fun _ => Ok (s, Some tt).

Definition with_world (w : W) (s : fz W) : fz W :=
  mkFz w (out_buf s) (stage_cur s) (stage_max s) (new_hit_cnt s) (stage_finds s) (stage_cycles s)
    (blocks_eff_select s) (blocks_eff_total s).
Definition with_buf (b : list Z) (s : fz W) : fz W :=
  mkFz (world s) b (stage_cur s) (stage_max s) (new_hit_cnt s) (stage_finds s) (stage_cycles s)
    (blocks_eff_select s) (blocks_eff_total s).
Definition with_stage (c m : Z) (s : fz W) : fz W :=
  mkFz (world s) (out_buf s) c m (new_hit_cnt s) (stage_finds s) (stage_cycles s)
    (blocks_eff_select s) (blocks_eff_total s).
Definition with_stats (h : Z) (f c : list Z) (s : fz W) : fz W :=
  mkFz (world s) (out_buf s) (stage_cur s) (stage_max s) h f c (blocks_eff_select s) (blocks_eff_total s).
Definition with_eff (sel tot : Z) (s : fz W) : fz W :=
  mkFz (world s) (out_buf s) (stage_cur s) (stage_max s) (new_hit_cnt s) (stage_finds s) (stage_cycles s) sel tot.

(** A [for] loop over the listed values of its counter, and one that carries
    local variables. *)
Fixpoint for_ {A} (l : list A) (body : A -> M W unit) : M W unit :=
  match l with [] => mret tt | x :: l => body x ≫= fun _ => for_ l body end.
Fixpoint for_with {A S} (l : list A) (st : S) (body : S -> A -> M W S) : M W S :=
  match l with [] => mret st | x :: l => body st x ≫= fun st => for_with l st body end.

(** [++afl->stage_cur] and [afl->stage_max -= n]. *)
Definition stage_step : M W unit := s ← get; put (with_stage (u32 (stage_cur s + 1)) (stage_max s) s).
Definition stage_less (n : Z) : M W unit := s ← get; put (with_stage (stage_cur s) (u32 (stage_max s - n)) s).

(** Little-endian accesses of [k] bytes at [out_buf + i]. *)
Definition load (k i : nat) : M W Z :=
  s ← get;
  if bool_decide (i + k <= length (out_buf s))%nat
  then mret (le_load (take k (drop i (out_buf s)))) else lift (Err Fault).
Definition write_at (i : nat) (bs buf : list Z) : list Z := take i buf ++ bs ++ drop (i + length bs) buf.
Definition memcpy_out (i : nat) (bs : list Z) : M W unit :=
  s ← get;
  if bool_decide (i + length bs <= length (out_buf s))%nat
  then put (with_buf (write_at i bs (out_buf s)) s) else lift (Err Fault).
Definition store (k i : nat) (v : Z) : M W unit := memcpy_out i (le_store k v).
End Monad.

Section Stages.
Context {W : Type} `{Target W}.
Context (non_instrumented_mode no_arith : bool).

(** [if (common_fuzz_stuff(afl, buf, len)) { goto abandon_entry; }] *)
Definition exec_buf (buf : list Z) : M W unit := fun s =>
  '(w, abandon) ← common_fuzz_stuff (world s) buf;
  Ok (with_world w s, if abandon : bool then None else Some tt).
Definition exec : M W unit := s ← get; exec_buf (out_buf s).

(** A stage starts with [orig_hit_cnt = new_hit_cnt] and ends with its
    statistics. *)
Definition begin_stage (max : Z) : M W Z := s ← get; _ ← put (with_stage 0 (u32 max) s); mret (new_hit_cnt s).
Definition end_stage (n : nat) (orig_hit_cnt : Z) : M W unit :=
  s ← get;
  let h := hit_cnt (world s) in
  f ← lift (rd (stage_finds s) n);
  c ← lift (rd (stage_cycles s) n);
  put (with_stats h (<[n := u64 (f + (h - orig_hit_cnt))]> (stage_finds s))
                    (<[n := u64 (c + stage_max s)]> (stage_cycles s)) s).

(** ** Walking bits *)

(** FLIP_BIT *)
Definition flip_bit (b : nat) (buf : list Z) : res (list Z) :=
  x ← rd buf (b / 8);
  wr buf (b / 8) (x .^ (128 .>> Z.of_nat (b mod 8))).
Definition FLIP_BIT (b : nat) : M W unit :=
  s ← get; buf ← lift (flip_bit b (out_buf s)); put (with_buf buf s).
Definition FLIP_BITS (k b : nat) : M W unit := for_ (seq b k) FLIP_BIT.

(** [for (stage_cur = 0; stage_cur < stage_max; ++stage_cur)] *)
Definition set_stage_cur (c : Z) : M W unit := s ← get; put (with_stage c (stage_max s) s).

(** "bitflip 2/1" and "bitflip 4/1" *)
Definition flip_stage (k : nat) (stage : nat) : M W unit :=
  s ← get;
  let max := (length (out_buf s) * 8 - (k - 1))%nat in
  orig_hit_cnt ← begin_stage (Z.of_nat max);
  _ ← for_ (seq 0 max) (fun c =>
    _ ← set_stage_cur (Z.of_nat c);
    _ ← FLIP_BITS k c;
    _ ← exec;
    FLIP_BITS k c);
  _ ← set_stage_cur (Z.of_nat max);
  end_stage stage orig_hit_cnt.

Definition flip2_stage : M W unit := flip_stage 2 1.
Definition flip4_stage : M W unit := flip_stage 4 2.

(** The token being collected. *)
Record token := mkToken { a_collect : list Z; a_len : Z; prev_cksum : Z }.

Definition grab (b : Z) (t : token) : token :=
  mkToken (if a_len t <? MAX_AUTO_EXTRA then <[Z.to_nat (a_len t) := b]> (a_collect t) else a_collect t)
    (u32 (a_len t + 1)) (prev_cksum t).

(** [if (a_len >= MIN_AUTO_EXTRA && a_len <= MAX_AUTO_EXTRA) maybe_add_auto] *)
Definition offer (t : token) : M W unit :=
  if (MIN_AUTO_EXTRA <=? a_len t) && (a_len t <=? MAX_AUTO_EXTRA) then
    s ← get;
    w ← lift (maybe_add_auto (world s) (take (Z.to_nat (a_len t)) (a_collect t)));
    put (with_world w s)
  else mret tt.

(** After the least significant bit of byte [b] was flipped, with the clean
    checksum [_prev_cksum] and [last] at the end of the file. *)
Definition collect (clean : Z) (last : bool) (b cksum : Z) (t : token) : M W token :=
  t ← (if last && (cksum =? prev_cksum t) then
         let t := grab b t in _ ← offer t; mret t
       else if negb (cksum =? prev_cksum t) then
         _ ← offer t; mret (mkToken (a_collect t) 0 cksum)
       else mret t);
  mret (if negb (cksum =? clean) then grab b t else t).

(** "bitflip 1/1"; the result is the clean checksum. *)
Definition flip1_stage : M W Z :=
  s ← get;
  let max := (length (out_buf s) * 8)%nat in
  _ ← put (with_stage (stage_cur s) (u32 (Z.of_nat max)) s);
  let orig_hit_cnt := hit_cnt (world s) in
  _ ← exec;
  s ← get;
  let clean := trace_cksum (world s) in
  _ ← for_with (seq 0 max) (mkToken (replicate (Z.to_nat MAX_AUTO_EXTRA) 0) 0 clean) (fun t c =>
    _ ← set_stage_cur (Z.of_nat c);
    _ ← FLIP_BIT c;
    _ ← exec;
    _ ← FLIP_BIT c;
    if negb non_instrumented_mode && bool_decide (c mod 8 = 7)%nat then
      s ← get;
      b ← lift (rd (out_buf s) (c / 8));
      collect clean (bool_decide (c = max - 1)%nat) b (trace_cksum (world s)) t
    else mret t);
  _ ← set_stage_cur (Z.of_nat max);
  _ ← end_stage 0 orig_hit_cnt;
  mret clean.

(** ** Walking bytes and the effector map *)

Definition EFF_APOS (p : nat) : nat := (p / 8)%nat.
Definition EFF_ALEN (l : nat) : nat := (l / 8 + (if bool_decide (l mod 8 = 0) then 0 else 1))%nat.
Definition EFF_SPAN_ALEN (p l : nat) : nat := (EFF_APOS (p + l - 1) - EFF_APOS p + 1)%nat.

(** The map is the reallocated [eff_buf], whose content [stale] it starts
    with, with the first and the last block flagged. *)
Definition eff_init (stale : list Z) (len : nat) : res (list Z * Z) :=
  let eff_map := take (EFF_ALEN len) stale in
  eff_map ← wr eff_map 0 1;
  if bool_decide (EFF_APOS (len - 1) <> 0)%nat
  then eff_map ← wr eff_map (EFF_APOS (len - 1)) 1; Ok (eff_map, 2) else Ok (eff_map, 1).

(** Flag the block of byte [c] when flipping it changed the checksum. *)
Definition eff_note (prev : Z) (len : nat) (cksum : Z) (st : list Z * Z) (c : nat) : res (list Z * Z) :=
  let '(eff_map, eff_cnt) := st in
  e ← rd eff_map (EFF_APOS c);
  if truthy e then Ok st else
  let cksum := if negb non_instrumented_mode && (EFF_MIN_LEN <=? Z.of_nat len)
               then cksum else u64 (Z.lnot prev) in
  if cksum =? prev then Ok st else
  eff_map ← wr eff_map (EFF_APOS c) 1;
  Ok (eff_map, u32 (eff_cnt + 1)).

(** A dense map is filled. *)
Definition eff_finish (len : nat) (st : list Z * Z) : M W (list Z) :=
  let '(eff_map, eff_cnt) := st in
  let alen := Z.of_nat (EFF_ALEN len) in
  s ← get;
  let full := negb (eff_cnt =? alen) && (EFF_MAX_PERC <? u32 (eff_cnt * 100) / alen) in
  _ ← put (with_eff (u64 (blocks_eff_select s + (if full then alen else eff_cnt)))
                    (u64 (blocks_eff_total s + alen)) s);
  mret (if full then replicate (EFF_ALEN len) 1 else eff_map).

(** [out_buf[i..] ^= 0xFF..] on [k] bytes *)
Definition flip_bytes (k i : nat) : M W unit :=
  v ← load k i; store k i (v .^ Z.ones (8 * Z.of_nat k)).

(** "bitflip 8/8"; the result is the effector map. *)
Definition walking_byte (stale : list Z) (clean : Z) : M W (list Z) :=
  s ← get;
  let len := length (out_buf s) in
  st ← lift (eff_init stale len);
  orig_hit_cnt ← begin_stage (Z.of_nat len);
  st ← for_with (seq 0 len) st (fun st c =>
    _ ← set_stage_cur (Z.of_nat c);
    _ ← flip_bytes 1 c;
    _ ← exec;
    s ← get;
    st ← lift (eff_note clean len (trace_cksum (world s)) st c);
    _ ← flip_bytes 1 c;
    mret st);
  _ ← set_stage_cur (Z.of_nat len);
  eff_map ← eff_finish len st;
  _ ← end_stage 3 orig_hit_cnt;
  mret eff_map.

(** Some of the [k] bytes at [i] is in a flagged block. *)
Definition eff_any (eff_map : list Z) (k i : nat) : res bool :=
  rfold (fun b p => e ← rd eff_map (EFF_APOS p); Ok (b || truthy e)) false (seq i k).

(** The loop over the positions of [k]-byte pieces that consults the map;
    [n] is what a skipped position takes off [stage_max]. *)
Definition pieces (eff_map : list Z) (k : nat) (n : Z) (body : nat -> M W unit) : M W unit :=
  s ← get;
  for_ (seq 0 (length (out_buf s) - (k - 1))) (fun i =>
    e ← lift (eff_any eff_map k i);
    if e : bool then body i else stage_less n).

(** "bitflip 16/8" and "bitflip 32/8" *)
Definition flip_words (eff_map : list Z) (k stage : nat) : M W unit :=
  s ← get;
  orig_hit_cnt ← begin_stage (Z.of_nat (length (out_buf s) - (k - 1)));
  _ ← pieces eff_map k 1 (fun i => _ ← flip_bytes k i; _ ← exec; _ ← stage_step; flip_bytes k i);
  end_stage stage orig_hit_cnt.

Definition flip16_stage (eff_map : list Z) : M W unit := flip_words eff_map 2 4.
Definition flip32_stage (eff_map : list Z) : M W unit := flip_words eff_map 4 5.

Definition bitflips (stale : list Z) : M W (list Z) :=
  clean ← flip1_stage;
  _ ← flip2_stage;
  _ ← flip4_stage;
  eff_map ← walking_byte stale clean;
  s ← get;
  _ ← (if bool_decide (length (out_buf s) < 2)%nat then mret tt else
       _ ← flip16_stage eff_map;
       if bool_decide (length (out_buf s) < 4)%nat then mret tt else flip32_stage eff_map);
  mret eff_map.

(** ** Arithmetic and interesting values *)

(** Run the piece with value [v] instead when [ok]. *)
Definition attempt (k i : nat) (ok : bool) (v : Z) : M W unit :=
  if ok then _ ← store k i v; _ ← exec; stage_step else stage_less 1.

(** A value to try: a guard, the change it makes, and the value. *)
Definition try_arith (k i : nat) (t : bool * Z * Z) : M W unit :=
  let '(guard, r, v) := t in
  ok ← lift (if guard : bool then b ← could_be_bitflip r; Ok (negb b) else Ok false);
  attempt k i ok v.

Definition arith8_tries (orig j : Z) : list (bool * Z * Z) :=
  [(true, u8 (orig .^ (orig + j)), u8 (orig + j)); (true, u8 (orig .^ (orig - j)), u8 (orig - j))].

Definition arith16_tries (orig j : Z) : list (bool * Z * Z) :=
  [(0xff <? (orig .& 0xff) + j, u16 (orig .^ (orig + j)), u16 (orig + j));
   ((orig .& 0xff) <? j, u16 (orig .^ (orig - j)), u16 (orig - j));
   (0xff <? (orig .>> 8) + j, u16 (orig .^ SWAP16 (SWAP16 orig + j)), SWAP16 (SWAP16 orig + j));
   ((orig .>> 8) <? j, u16 (orig .^ SWAP16 (SWAP16 orig - j)), SWAP16 (SWAP16 orig - j))].

Definition arith32_tries (orig j : Z) : list (bool * Z * Z) :=
  [(0xffff <? (orig .& 0xffff) + j, u32 (orig .^ (orig + j)), u32 (orig + j));
   ((orig .& 0xffff) <? j, u32 (orig .^ (orig - j)), u32 (orig - j));
   (0xffff <? (SWAP32 orig .& 0xffff) + j, u32 (orig .^ SWAP32 (SWAP32 orig + j)), SWAP32 (SWAP32 orig + j));
   ((SWAP32 orig .& 0xffff) <? j, u32 (orig .^ SWAP32 (SWAP32 orig - j)), SWAP32 (SWAP32 orig - j))].

(** "arith 8/8", "arith 16/8" and "arith 32/8"; [n] tries per addend. *)
Definition arith_stage (eff_map : list Z) (k : nat) (n : Z) (tries : Z -> Z -> list (bool * Z * Z))
    (stage : nat) : M W unit :=
  s ← get;
  orig_hit_cnt ← begin_stage (n * Z.of_nat (length (out_buf s) - (k - 1)) * ARITH_MAX);
  _ ← pieces eff_map k (n * ARITH_MAX) (fun i =>
    orig ← load k i;
    for_ (seqZ 1 ARITH_MAX) (fun j => _ ← for_ (tries orig j) (try_arith k i); store k i orig));
  end_stage stage orig_hit_cnt.

Definition arith8_stage (eff_map : list Z) : M W unit := arith_stage eff_map 1 2 arith8_tries 6.
Definition arith16_stage (eff_map : list Z) : M W unit := arith_stage eff_map 2 4 arith16_tries 7.
Definition arith32_stage (eff_map : list Z) : M W unit := arith_stage eff_map 4 4 arith32_tries 8.

Definition ariths (eff_map : list Z) : M W unit :=
  if no_arith then mret tt else
  _ ← arith8_stage eff_map;
  s ← get;
  if bool_decide (length (out_buf s) < 2)%nat then mret tt else
  _ ← arith16_stage eff_map;
  if bool_decide (length (out_buf s) < 4)%nat then mret tt else
  arith32_stage eff_map.

(** [!could_be_bitflip && !could_be_arith && !could_be_interest] *)
Definition unseen (k : nat) (orig v : Z) (check_le : option bool) : res bool :=
  b ← could_be_bitflip (orig .^ v);
  Ok (negb b && negb (could_be_arith orig v k) &&
      match check_le with Some le => negb (could_be_interest orig v k le) | None => true end).

(** "interest 8/8" *)
Definition interest8_stage (eff_map : list Z) : M W unit :=
  s ← get;
  orig_hit_cnt ← begin_stage (Z.of_nat (length (out_buf s)) * 9);
  _ ← pieces eff_map 1 9 (fun i =>
    orig ← load 1 i;
    for_ interesting_8 (fun v =>
      ok ← lift (unseen 1 orig (u8 v) None);
      if ok : bool then _ ← store 1 i (u8 v); _ ← exec; _ ← store 1 i orig; stage_step
      else stage_less 1));
  end_stage 9 orig_hit_cnt.

(** "interest 16/8" and "interest 32/8", in both byte orders *)
Definition interest_stage (eff_map : list Z) (k : nat) (values : list Z) (conv swap : Z -> Z)
    (stage : nat) : M W unit :=
  s ← get;
  let n := Z.of_nat (length values) in
  orig_hit_cnt ← begin_stage (2 * Z.of_nat (length (out_buf s) - (k - 1)) * n);
  _ ← pieces eff_map k (2 * n) (fun i =>
    orig ← load k i;
    _ ← for_ values (fun v =>
      ok ← lift (unseen k orig (conv v) (Some false));
      _ ← attempt k i ok (conv v);
      ok ← lift (if conv v =? swap v then Ok false else unseen k orig (swap v) (Some true));
      attempt k i ok (swap v));
    store k i orig);
  end_stage stage orig_hit_cnt.

Definition interest16_stage (eff_map : list Z) : M W unit :=
  interest_stage eff_map 2 interesting_16 u16 SWAP16 10.
Definition interest32_stage (eff_map : list Z) : M W unit :=
  interest_stage eff_map 4 interesting_32 u32 SWAP32 11.

Definition interests (eff_map : list Z) : M W unit :=
  _ ← interest8_stage eff_map;
  s ← get;
  if no_arith || bool_decide (length (out_buf s) < 2)%nat then mret tt else
  _ ← interest16_stage eff_map;
  if bool_decide (length (out_buf s) < 4)%nat then mret tt else
  interest32_stage eff_map.
End Stages.
