(* ===== verification/StagesDict.v ===== *)
(** The dictionary stages of [fuzz_one_original] in [src/afl-fuzz-one.c]:
    overwriting with and insertion of the user's tokens and of the collected
    ones, and the whole deterministic part of the function. *)

From S2P Require Import Prelude Words Arith Float Bitmap State Text Rand Dedup Extras Stages.

(** [memchr(eff_map + p, 1, n)]: it stops at the first match. *)
Fixpoint memchr_1 (eff_map : list Z) (p n : nat) : res bool :=
  match n with
  | O => Ok false
  | S n => e ← rd eff_map p; if e =? 1 then Ok true else memchr_1 eff_map (S p) n
  end.

Section Dictionary.
Context {W : Type} `{Target W}.
Context (max_det_extras : Z).

(** ** Overwriting *)

(** With more than [max_det_extras] user tokens each is used with probability
    [max_det_extras / extras_cnt]; a token is skipped when it does not fit,
    is already there, or covers no flagged block. *)
Definition over_skip (prob : bool) (cnt : Z) (eff_map : list Z) (i : nat) (tok : list Z) : M W bool := fun s =>
  '(k, s) ← (if prob && (max_det_extras <? cnt)
             then '(k, w) ← draw (world s) cnt; Ok (max_det_extras <=? k, with_world w s)
             else Ok (false, s));
  if k : bool then Ok (s, Some true) else
  let n := length tok in
  if bool_decide (length (out_buf s) - i < n)%nat then Ok (s, Some true) else
  if bool_decide (take n (drop i (out_buf s)) = tok) then Ok (s, Some true) else
  b ← memchr_1 eff_map (EFF_APOS i) (EFF_SPAN_ALEN i n);
  Ok (s, Some (negb b)).

Definition over_token (prob : bool) (cnt : Z) (eff_map : list Z) (i last_len : nat) (tok : list Z) : M W nat :=
  skip ← over_skip prob cnt eff_map i tok;
  if skip : bool then _ ← stage_less 1; mret last_len
  else _ ← memcpy_out i tok; _ ← exec; _ ← stage_step; mret (length tok).

(** "user extras (over)" and "auto extras (over)" *)
Definition extras_over (prob : bool) (eff_map in_buf : list Z) (extras : list (list Z)) (stage : nat) : M W unit :=
  s ← get;
  let cnt := Z.of_nat (length extras) in
  orig_hit_cnt ← begin_stage (cnt * Z.of_nat (length (out_buf s)));
  _ ← for_ (seq 0 (length (out_buf s))) (fun i =>
    last_len ← for_with extras O (over_token prob cnt eff_map i);
    memcpy_out i (take last_len (drop i in_buf)));
  end_stage stage orig_hit_cnt.

(** ** Insertion *)

(** [memcpy] into the scratch buffer [ex_tmp]. *)
Definition memcpy_ex (ex : list Z) (i : nat) (bs : list Z) : res (list Z) :=
  if bool_decide (i + length bs <= length ex)%nat then Ok (write_at i bs ex) else Err Fault.

Definition insert_token (i : nat) (ex tok : list Z) : M W (list Z) :=
  s ← get;
  let len := length (out_buf s) in
  let n := length tok in
  if MAX_FILE <? Z.of_nat (len + n) then _ ← stage_less 1; mret ex else
  ex ← lift (memcpy_ex ex i tok);
  ex ← lift (memcpy_ex ex (i + n) (drop i (out_buf s)));
  _ ← exec_buf (take (len + n) ex);
  _ ← stage_step;
  mret ex.

(** "user extras (insert)" and "auto extras (insert)": [slack] are the bytes
    allocated after the [len] bytes of [out_buf], [stale] what the [ex]
    buffer, reallocated to [len + MAX_DICT_FILE] bytes, holds.  The result is
    what it holds afterwards. *)
Definition extras_insert (slack stale : list Z) (extras : list (list Z)) (stage : nat) : M W (list Z) :=
  s ← get;
  let len := length (out_buf s) in
  orig_hit_cnt ← begin_stage (Z.of_nat (length extras) * Z.of_nat (len + 1));
  ex ← for_with (seq 0 (len + 1)) stale (fun ex i =>
    ex ← for_with extras ex (insert_token i);
    b ← lift (rd (out_buf s ++ slack) i);
    lift (wr ex i b));
  _ ← end_stage stage orig_hit_cnt;
  mret ex.

(** ** The dictionary stages and the deterministic part *)

Definition user_extras_over (eff_map in_buf : list Z) (extras : list (list Z)) : M W unit :=
  extras_over true eff_map in_buf extras 12.
Definition user_extras_insert (slack stale : list Z) (extras : list (list Z)) : M W (list Z) :=
  extras_insert slack stale extras 13.
(** Only the tokens in use overwrite, all are inserted. *)
Definition auto_extras_over (eff_map in_buf : list Z) (a_extras : list (list Z)) : M W unit :=
  extras_over false eff_map in_buf (take (Z.to_nat USE_AUTO_EXTRAS) a_extras) 14.
Definition auto_extras_insert (slack stale : list Z) (a_extras : list (list Z)) : M W (list Z) :=
  extras_insert slack stale a_extras 15.

Definition dictionary (eff_map in_buf slack stale : list Z) (extras a_extras : list (list Z)) : M W unit :=
  ex ← (if bool_decide (extras = []) then mret stale else
        _ ← user_extras_over eff_map in_buf extras;
        user_extras_insert slack stale extras);
  if bool_decide (a_extras = []) then mret tt else
  _ ← auto_extras_over eff_map in_buf a_extras;
  _ ← auto_extras_insert slack ex a_extras;
  mret tt.

Definition deterministic (non_instrumented_mode no_arith : bool) (stale_eff slack stale_ex : list Z)
    (extras : list (list Z)) (a_extras : W -> list (list Z)) : M W unit :=
  s ← get;
  eff_map ← bitflips non_instrumented_mode stale_eff;
  _ ← ariths no_arith eff_map;
  _ ← interests no_arith eff_map;
  s' ← get;
  dictionary eff_map (out_buf s) slack stale_ex extras (a_extras (world s')).
End Dictionary.
