(* ===== verification/StagesRun.v ===== *)
(** Reasoning about the stages: a stage that does not look at the traces is
    the sequence of the test cases it runs.

    [does m s cs s' x]: from state [s], [m] runs exactly the test cases [cs]
    in this order - unless one of them abandons the entry, which ends it
    there - and then returns [x] in state [s'], apart from the world, which is
    what the runs made of it. *)

From S2P Require Import Prelude Words Arith Float Bitmap State Rand Dedup Extras Stages.

Section Does.
Context {W : Type} `{Target W}.
Implicit Types (s : fz W) (w : W).

(** Run test cases until one abandons. *)
Fixpoint exec_all (w : W) (cs : list (list Z)) : res (W * bool) :=
  match cs with
  | [] => Ok (w, false)
  | c :: cs => '(w, abandon) ← common_fuzz_stuff w c; if abandon : bool then Ok (w, true) else exec_all w cs
  end.

(** The state of an abandoned entry is of no further use, its world is. *)
Definition obs {A} (r : res (fz W * option A)) : res (fz W * A + W) :=
  '(s, o) ← r; Ok (match o with Some x => inl (s, x) | None => inr (world s) end).

Definition does {A} (m : M W A) (s : fz W) (cs : list (list Z)) (s' : fz W) (x : A) : Prop :=
  obs (m s) = '(w, abandon) ← exec_all (world s) cs;
              Ok (if abandon : bool then inr w else inl (with_world w s', x)).

Lemma exec_all_app w cs1 cs2 :
  exec_all w (cs1 ++ cs2) =
  '(w, abandon) ← exec_all w cs1; if abandon : bool then Ok (w, true) else exec_all w cs2.
Proof.
  revert w; induction cs1 as [|c cs1 IH]; intros w; [done|]. cbn [exec_all app].
  destruct (common_fuzz_stuff w c) as [[w1 [|]]|e]; cbn [mbind res_bind]; auto.
Qed.

Lemma with_world_same s : with_world (world s) s = s.
Proof. now destruct s. Qed.
Lemma with_world_world w s : world (with_world w s) = w.
Proof. done. Qed.
Lemma with_world_twice w w' s : with_world w (with_world w' s) = with_world w s.
Proof. done. Qed.

Lemma does_ret {A} (x : A) s : does (mret x) s [] s x.
Proof. unfold does. cbn. now rewrite with_world_same. Qed.

Lemma run_bind {A B} (m : M W A) (k : A -> M W B) s :
  (m ≫= k) s = '(s', r) ← m s; match r with Some x => k x s' | None => Ok (s', None) end.
Proof. done. Qed.

(** The same with a final state that depends on the world the runs leave. *)
Definition does_to {A} (m : M W A) (s : fz W) (cs : list (list Z)) (F : W -> fz W * A) : Prop :=
  obs (m s) = '(w, abandon) ← exec_all (world s) cs; Ok (if abandon : bool then inr w else inl (F w)).

Lemma does_to_seq {A B} (m : M W A) (k : A -> M W B) s cs1 F cs2 G :
  does_to m s cs1 F -> (forall w, world (F w).1 = w) -> (forall w, does_to (k (F w).2) (F w).1 cs2 G) ->
  does_to (m ≫= k) s (cs1 ++ cs2) G.
Proof.
  unfold does_to. intros Hm Hw Hk. rewrite exec_all_app, run_bind.
  destruct (exec_all (world s) cs1) as [[w ab]|e] eqn:E; cbn [mbind res_bind] in *.
  - destruct (m s) as [[s' [x'|]]|e]; cbn in Hm; [| |discriminate].
    + destruct ab; [discriminate|]. injection Hm as EF. cbn [mbind res_bind].
      specialize (Hk w). rewrite Hw, <- EF in Hk. exact Hk.
    + destruct ab; [|discriminate]. injection Hm as Hm. cbn. now rewrite Hm.
  - destruct (m s) as [[s' [x'|]]|e']; cbn in Hm; [discriminate..|]. now injection Hm as ->.
Qed.

Lemma does_then {A B} (m : M W A) (k : A -> M W B) s cs1 s1 x cs2 G :
  does m s cs1 s1 x -> (forall w, does_to (k x) (with_world w s1) cs2 G) -> does_to (m ≫= k) s (cs1 ++ cs2) G.
Proof. intros Hm Hk. eapply does_to_seq; [exact Hm|done|exact Hk]. Qed.

Lemma does_bind {A B} (m : M W A) (k : A -> M W B) s cs1 s1 x cs2 s2 y :
  does m s cs1 s1 x -> (forall w, does (k x) (with_world w s1) cs2 s2 y) ->
  does (m ≫= k) s (cs1 ++ cs2) s2 y.
Proof. exact (does_then m k s cs1 s1 x cs2 (fun w => (with_world w s2, y))). Qed.

(** The common case in which the rest of the body runs nothing. *)
Lemma does_bind_nil {A B} (m : M W A) (k : A -> M W B) s cs s1 x s2 y :
  does m s cs s1 x -> (forall w, does (k x) (with_world w s1) [] s2 y) -> does (m ≫= k) s cs s2 y.
Proof. intros Hm Hk. rewrite <- (app_nil_r cs). eapply does_bind; eauto. Qed.

Lemma does_nil_bind {A B} (m : M W A) (k : A -> M W B) s s1 x cs s2 y :
  does m s [] s1 x -> (forall w, does (k x) (with_world w s1) cs s2 y) -> does (m ≫= k) s cs s2 y.
Proof. intros Hm Hk. rewrite <- (app_nil_l cs). eapply does_bind; eauto. Qed.

(** A step that runs nothing. *)
Lemma does_step {A B} (m : M W A) (k : A -> M W B) s s1 x cs s2 y :
  m s = Ok (s1, Some x) -> world s1 = world s -> does (k x) s1 cs s2 y -> does (m ≫= k) s cs s2 y.
Proof. unfold does. rewrite run_bind. intros -> ->. cbn [mbind res_bind]. auto. Qed.

Lemma does_pure {A} (m : M W A) s s1 x : m s = Ok (s1, Some x) -> world s1 = world s -> does m s [] s1 x.
Proof. unfold does. intros -> Hw. cbn. now rewrite <- Hw, with_world_same. Qed.

Lemma does_world {A} (m : M W A) s cs s1 s1' x :
  does m s cs s1 x -> with_world (world s) s1 = with_world (world s) s1' -> does m s cs s1' x.
Proof.
  unfold does. intros -> E. destruct (exec_all (world s) cs) as [[w ab]|]; [|done]. cbn.
  destruct ab; [done|]. assert (Ew : with_world w s1 = with_world w s1'); [|now rewrite Ew].
  rewrite <- (with_world_twice w (world s) s1), E. done.
Qed.

Lemma does_forget {A} (m : M W A) s cs w s1 x : does m s cs (with_world w s1) x -> does m s cs s1 x.
Proof. intros Hd. eapply does_world; [exact Hd|done]. Qed.

Lemma does_exec_buf buf s : does (exec_buf buf) s [buf] s tt.
Proof.
  unfold does, exec_buf. cbn [mbind res_bind exec_all].
  destruct (common_fuzz_stuff _ _) as [[w [|]]|]; reflexivity.
Qed.

Lemma does_exec s : does exec s [out_buf s] s tt.
Proof. exact (does_exec_buf (out_buf s) s). Qed.

(** Running the primitive steps. *)
Lemma bind_get {B} (k : fz W -> M W B) s : (get ≫= k) s = k s s.
Proof. done. Qed.
Lemma bind_put {B} (k : unit -> M W B) s s' : (put s' ≫= k) s = k tt s'.
Proof. done. Qed.
Lemma bind_ret {A B} (k : A -> M W B) x s : (mret x ≫= k) s = k x s.
Proof. done. Qed.
Lemma bind_lift {A B} (k : A -> M W B) x s : (lift (Ok x) ≫= k) s = k x s.
Proof. done. Qed.
Lemma bind_ok_step {A B} (m : M W A) (k : A -> M W B) s s1 x : m s = Ok (s1, Some x) -> (m ≫= k) s = k x s1.
Proof. intros E. now rewrite run_bind, E. Qed.
Lemma bind_assoc {A B C} (m : M W A) (f : A -> M W B) (g : B -> M W C) s :
  ((m ≫= f) ≫= g) s = (m ≫= fun x => f x ≫= g) s.
Proof. rewrite !run_bind. destruct (m s) as [[s1 [x|]]|e]; reflexivity. Qed.

Lemma does_to_eq {A} (m m' : M W A) s s' cs F :
  m s = m' s' -> world s = world s' -> does_to m' s' cs F -> does_to m s cs F.
Proof. unfold does_to. now intros -> ->. Qed.

(** ** Whole stages *)

(** What is left after a stage that took [n] test cases into account. *)
Definition after_stage (stage : nat) (n : Z) (s : fz W) (w : W) : fz W :=
  with_world w (with_stats (hit_cnt w)
    (alter (fun f => u64 (f + (hit_cnt w - new_hit_cnt s))) stage (stage_finds s))
    (alter (fun c => u64 (c + n)) stage (stage_cycles s)) (with_stage n n s)).

Definition has_stage (s : fz W) (stage : nat) : Prop :=
  (stage < length (stage_finds s))%nat /\ (stage < length (stage_cycles s))%nat.

(** A stage runs exactly [cs], puts everything back and counts them. *)
Definition runs_stage (m : M W unit) (s : fz W) (stage : nat) (cs : list (list Z)) : Prop :=
  does_to m s cs (fun w => (after_stage stage (u32 (Z.of_nat (length cs))) s w, tt)).

Lemma end_stage_ok stage h s :
  has_stage s stage ->
  end_stage stage h s =
  Ok (with_stats (hit_cnt (world s)) (alter (fun f => u64 (f + (hit_cnt (world s) - h))) stage (stage_finds s))
        (alter (fun c => u64 (c + stage_max s)) stage (stage_cycles s)) s, Some tt).
Proof.
  intros [Hf Hc]. unfold end_stage. rewrite bind_get.
  apply rd_lt in Hf as (f & Ef & Lf). apply rd_lt in Hc as (c & Ec & Lc).
  rewrite Ef, bind_lift, Ec, bind_lift. unfold put.
  now rewrite (insert_as_alter (fun f => u64 (f + (hit_cnt (world s) - h))) _ _ _ Lf),
    (insert_as_alter (fun c => u64 (c + stage_max s)) _ _ _ Lc).
Qed.

(** ** Counting loops *)

(** The counters, kept modulo 2^32. *)
Definition counted (c m : Z) (s : fz W) : fz W := with_stage (u32 c) (u32 m) s.

Lemma u32_add x y : u32 (u32 x + y) = u32 (x + y).
Proof. unfold uwrap. now rewrite Zplus_mod_idemp_l. Qed.
Lemma u32_sub x y : u32 (u32 x - y) = u32 (x - y).
Proof. unfold uwrap. now rewrite Zminus_mod_idemp_l. Qed.

Lemma stage_step_counted c m s :
  stage_step (counted c m s) = Ok (counted (c + 1) m s, Some tt).
Proof.
  unfold stage_step, counted. rewrite run_bind. unfold get, put, with_stage.
  cbn [mbind res_bind stage_cur stage_max world out_buf new_hit_cnt stage_finds stage_cycles
       blocks_eff_select blocks_eff_total]. now rewrite u32_add.
Qed.

Lemma stage_less_counted n c m s :
  stage_less n (counted c m s) = Ok (counted c (m - n) s, Some tt).
Proof.
  unfold stage_less, counted. rewrite run_bind. unfold get, put, with_stage.
  cbn [mbind res_bind stage_cur stage_max world out_buf new_hit_cnt stage_finds stage_cycles
       blocks_eff_select blocks_eff_total]. now rewrite u32_sub.
Qed.

Lemma does_counted {A} (m : M W A) s cs c mx c' mx' s1 x :
  does m s cs (counted c mx s1) x -> c = c' -> mx = mx' -> does m s cs (counted c' mx' s1) x.
Proof. now intros ? -> ->. Qed.

Definition len_of {A} (l : list A) : Z := Z.of_nat (length l).

Lemma does_skip n c m s w : does (stage_less n) (with_world w (counted c m s)) [] (counted c (m - n) s) tt.
Proof. apply (does_forget _ _ _ w), does_pure; [exact (stage_less_counted n c m (with_world w s))|done]. Qed.

Lemma does_count c m s w : does stage_step (with_world w (counted c m s)) [] (counted (c + 1) m s) tt.
Proof. apply (does_forget _ _ _ w), does_pure; [exact (stage_step_counted c m (with_world w s))|done]. Qed.

(** A loop that walks [stage_cur]. *)
Lemma does_walk {A} (l : list A) (body : A -> M W unit) (g : A -> list (list Z)) mx s :
  (forall x c, x ∈ l -> exists c', forall w,
     does (body x) (with_world w (with_stage c mx s)) (g x) (with_stage c' mx s) tt) ->
  forall c, exists c', forall w,
    does (for_ l body) (with_world w (with_stage c mx s)) (concat (map g l)) (with_stage c' mx s) tt.
Proof.
  induction l as [|x l IH]; intros Hb c; cbn [for_ map concat].
  { exists c. intros w. eapply does_forget, does_ret. }
  destruct (Hb x c ltac:(left)) as [c1 H1].
  destruct (IH (fun y c Hy => Hb y c ltac:(now right)) c1) as [c2 H2].
  exists c2. intros w. eapply does_bind; [apply H1|exact H2].
Qed.

(** A loop of which every round tries [n] test cases, runs those of [g x],
    and takes the others off [stage_max]; the rounds move within the family
    [P] of states. *)
Lemma does_for {A U} (P : U -> fz W) (l : list A) (body : A -> M W unit) (g : A -> list (list Z)) n :
  (forall x c m u, x ∈ l -> exists u', forall w,
     does (body x) (with_world w (counted c m (P u))) (g x)
          (counted (c + len_of (g x)) (m - (n - len_of (g x))) (P u')) tt) ->
  forall c m u, exists u', forall w,
  does (for_ l body) (with_world w (counted c m (P u))) (concat (map g l))
       (counted (c + len_of (concat (map g l))) (m - (n * len_of l - len_of (concat (map g l)))) (P u')) tt.
Proof.
  induction l as [|x l IH]; intros Hb c m u; cbn [for_ map concat].
  { exists u. intros w. eapply does_counted; [eapply does_forget, does_ret|unfold len_of; cbn [length]; lia..]. }
  destruct (Hb x c m u ltac:(left)) as [u1 H1].
  destruct (IH (fun y c m u Hy => Hb y c m u ltac:(now right)) (c + len_of (g x)) (m - (n - len_of (g x))) u1) as [u2 H2].
  exists u2. intros w. eapply does_bind; [apply H1|]. intros w'. cbn beta.
  eapply does_counted; [apply H2|unfold len_of; rewrite length_app; cbn [length]; lia..].
Qed.

(** Every round starts and ends in the same state. *)
Lemma does_for_same {A} (l : list A) (body : A -> M W unit) (g : A -> list (list Z)) n s :
  (forall x c m w, x ∈ l ->
     does (body x) (with_world w (counted c m s)) (g x)
          (counted (c + len_of (g x)) (m - (n - len_of (g x))) s) tt) ->
  forall c m w,
  does (for_ l body) (with_world w (counted c m s)) (concat (map g l))
       (counted (c + len_of (concat (map g l))) (m - (n * len_of l - len_of (concat (map g l)))) s) tt.
Proof.
  intros Hb c m. destruct (does_for (fun _ : unit => s) l body g n) with (c := c) (m := m) (u := tt) as [_ Hd];
    [|exact Hd]. intros x c' m' _ Hx. exists tt. intros w. now apply Hb.
Qed.

(** A loop that carries a value, of which [Inv] relates the rest of the list
    to the value. *)
Lemma does_for_with {A X} (Inv : list A -> X -> Prop) (body : X -> A -> M W X) (g : A -> list (list Z)) n s :
  (forall x l st c m, Inv (x :: l) st -> exists st', Inv l st' /\ forall w,
     does (body st x) (with_world w (counted c m s)) (g x)
          (counted (c + len_of (g x)) (m - (n - len_of (g x))) s) st') ->
  forall l st c m, Inv l st -> exists st', Inv [] st' /\ forall w,
  does (for_with l st body) (with_world w (counted c m s)) (concat (map g l))
       (counted (c + len_of (concat (map g l))) (m - (n * len_of l - len_of (concat (map g l)))) s) st'.
Proof.
  intros Hb l. induction l as [|x l IH]; intros st c m Hi; cbn [for_with map concat].
  { exists st. split; [done|]. intros w.
    eapply does_counted; [eapply does_forget, does_ret|unfold len_of; cbn [length]; lia..]. }
  destruct (Hb x l st c m Hi) as (st1 & H1 & D1).
  destruct (IH st1 (c + len_of (g x)) (m - (n - len_of (g x))) H1) as (st2 & H2 & D2).
  exists st2. split; [done|]. intros w. eapply does_bind; [apply D1|]. intros w1.
  eapply does_counted; [apply D2|unfold len_of; rewrite length_app; cbn [length]; lia..].
Qed.

(** A stage with a counting body. *)
Lemma counted_stage stage max (body : M W unit) s cs :
  has_stage s stage ->
  does body (counted 0 max s) cs (counted (len_of cs) (len_of cs) s) tt ->
  runs_stage (orig ← begin_stage max; _ ← body; end_stage stage orig) s stage cs.
Proof.
  intros Hs Hb. unfold runs_stage.
  eapply (does_to_eq _ (body ≫= fun _ => end_stage stage (new_hit_cnt s)) _ (counted 0 max s)).
  { unfold begin_stage. now rewrite bind_assoc, bind_get, bind_assoc, bind_put, bind_ret. }
  { done. }
  rewrite <- (app_nil_r cs) at 1. eapply does_then; [exact Hb|]. intros w.
  unfold does_to. cbv beta. rewrite end_stage_ok by exact Hs. reflexivity.
Qed.

(** ** The buffer *)

Lemma length_write_at i bs buf :
  (i + length bs <= length buf)%nat -> length (write_at i bs buf) = length buf.
Proof. intros. unfold write_at. rewrite !length_app, length_take, length_drop. lia. Qed.

Lemma write_at_twice i a b buf :
  length a = length b -> (i + length a <= length buf)%nat ->
  write_at i b (write_at i a buf) = write_at i b buf.
Proof.
  intros Hl Hi. unfold write_at.
  rewrite take_app_le, take_take by (rewrite length_take; lia). f_equal; [f_equal; lia|]. f_equal.
  rewrite app_assoc, drop_app_ge by (rewrite length_app, length_take; lia).
  rewrite length_app, length_take, drop_drop. f_equal. lia.
Qed.

Lemma write_at_same i k buf :
  (i + k <= length buf)%nat -> write_at i (take k (drop i buf)) buf = buf.
Proof.
  intros Hi. unfold write_at. rewrite length_take, length_drop.
  replace (k `min` (length buf - i))%nat with k by lia.
  rewrite <- drop_drop, take_drop, take_drop. done.
Qed.

(** The state with [v] in the [k]-byte piece at [i] of [inb]. *)
Definition piece_at (k i : nat) (inb : list Z) (v : Z) (s : fz W) : fz W :=
  with_buf (write_at i (le_store k v) inb) s.

Lemma store_piece k i inb u v s :
  (i + k <= length inb)%nat -> store k i v (piece_at k i inb u s) = Ok (piece_at k i inb v s, Some tt).
Proof.
  intros Hi. unfold store, memcpy_out. rewrite run_bind. unfold get, put, piece_at, with_buf.
  cbn [mbind res_bind out_buf world stage_cur stage_max new_hit_cnt stage_finds stage_cycles
       blocks_eff_select blocks_eff_total].
  rewrite bool_decide_eq_true_2 by (rewrite length_write_at; rewrite !length_le_store; lia).
  now rewrite write_at_twice by (rewrite !length_le_store; lia).
Qed.

Lemma load_buf k i s :
  (i + k <= length (out_buf s))%nat -> load k i s = Ok (s, Some (le_load (take k (drop i (out_buf s))))).
Proof.
  intros Hi. unfold load. rewrite run_bind. unfold get. cbn [mbind res_bind].
  now rewrite bool_decide_eq_true_2 by done.
Qed.

Lemma piece_write_at i bs buf :
  (i + length bs <= length buf)%nat -> take (length bs) (drop i (write_at i bs buf)) = bs.
Proof.
  intros Hi. unfold write_at. rewrite drop_app_ge by (rewrite length_take; lia).
  rewrite length_take. replace (i - i `min` length buf)%nat with O by lia.
  rewrite drop_0, take_app_le, take_ge by lia. done.
Qed.

Lemma load_piece k i inb v s :
  0 <= v < 2 ^ (8 * Z.of_nat k) -> (i + k <= length inb)%nat ->
  load k i (piece_at k i inb v s) = Ok (piece_at k i inb v s, Some v).
Proof.
  intros Hv Hi. pose proof (length_le_store k v) as Hk.
  rewrite load_buf by (unfold piece_at; cbn [out_buf with_buf]; rewrite length_write_at; lia).
  assert (E : take k (drop i (write_at i (le_store k v) inb)) = le_store k v).
  { rewrite <- Hk at 1. apply piece_write_at. lia. }
  unfold piece_at at 2. cbn [out_buf with_buf]. now rewrite E, le_load_store, uwrap_id.
Qed.

(** The state is the one with the piece's own value. *)
Lemma piece_at_self k i s :
  bytes (out_buf s) -> (i + k <= length (out_buf s))%nat ->
  piece_at k i (out_buf s) (le_load (take k (drop i (out_buf s)))) s = s.
Proof.
  intros Hb Hi. unfold piece_at. rewrite le_store_len, write_at_same; [now destruct s|done| |].
  - now apply bytes_take, bytes_drop.
  - rewrite length_take, length_drop. lia.
Qed.

Lemma piece_bound k i inb :
  bytes inb -> 0 <= le_load (take k (drop i inb)) < 2 ^ (8 * Z.of_nat k).
Proof.
  intros Hb. assert (Hp : bytes (take k (drop i inb))) by now apply bytes_take, bytes_drop.
  pose proof (le_load_bound _ Hp) as [H1 H2]. split; [done|]. eapply Z.lt_le_trans; [exact H2|].
  apply Z.pow_le_mono_r; [lia|]. rewrite length_take. lia.
Qed.

Lemma le_store_piece k i inb :
  bytes inb -> (i + k <= length inb)%nat ->
  le_store k (le_load (take k (drop i inb))) = take k (drop i inb).
Proof.
  intros Hb Hi. apply le_store_len; [now apply bytes_take, bytes_drop|].
  rewrite length_take, length_drop. lia.
Qed.
End Does.

(** ** A recording target *)

(** A target to evaluate the stages with: its world is the list of the test
    cases run; [cksum] is the checksum of a test case's trace. *)
Definition recorder (cksum : list Z -> Z) : Target (list (list Z)) := {|
  common_fuzz_stuff w c := Ok (w ++ [c], false);
  trace_cksum w := cksum (List.last w []);
  hit_cnt w := Z.of_nat (length w);
  maybe_add_auto w t := Ok w;
  draw w n := Ok (0, w)
|}.

Definition fz0 (buf : list Z) : fz (list (list Z)) :=
  mkFz [] buf 0 0 0 (replicate 16 0) (replicate 16 0) 0 0.
