(* ===== verification/StagesThms.v ===== *)
(** What the deterministic stages run: walking bit flips, arithmetic and
    interesting values as the exact lists of their test cases. *)

From S2P Require Import Prelude Words Arith Float Bitmap State Rand Dedup Extras DedupThms Stages StagesRun.

(** ** Bits of a buffer *)

(** Flip bit [b], counted from the most significant bit of the first byte. *)
Definition toggle (b : nat) (buf : list Z) : list Z :=
  alter (fun x => x .^ (128 .>> Z.of_nat (b mod 8))) (b / 8)%nat buf.
Definition toggles (bs : list nat) (buf : list Z) : list Z := foldl (fun buf b => toggle b buf) buf bs.

Lemma length_toggles bs buf : length (toggles bs buf) = length buf.
Proof.
  unfold toggles. revert buf; induction bs as [|b bs IH]; intros buf; [done|]. cbn [foldl].
  rewrite IH. apply length_alter.
Qed.

Lemma alter_id {A} (f : A -> A) (l : list A) i : (forall x, f x = x) -> alter f i l = l.
Proof.
  intros Hf. apply list_eq. intros j. destruct (decide (i = j)) as [<-|].
  - rewrite list_lookup_alter_eq. destruct (l !! i); cbn; now rewrite ?Hf.
  - now rewrite list_lookup_alter_ne.
Qed.

Lemma lxor_twice x y : (x .^ y) .^ y = x.
Proof. now rewrite Z.lxor_assoc, Z.lxor_nilpotent, Z.lxor_0_r. Qed.

Lemma toggle_comm a b buf : toggle a (toggle b buf) = toggle b (toggle a buf).
Proof.
  unfold toggle. destruct (decide (a / 8 = b / 8)%nat) as [->|Hne].
  - rewrite !list_alter_alter_eq. apply list_alter_ext; [|done]. intros x _. cbn.
    rewrite !Z.lxor_assoc. f_equal. apply Z.lxor_comm.
  - now apply list_alter_alter_ne.
Qed.

Lemma toggle_twice b buf : toggle b (toggle b buf) = buf.
Proof. unfold toggle. rewrite list_alter_alter_eq. apply alter_id. intros x. apply lxor_twice. Qed.

Lemma toggles_toggle bs b buf : toggles bs (toggle b buf) = toggle b (toggles bs buf).
Proof.
  unfold toggles. revert buf; induction bs as [|c bs IH]; intros buf; [done|]. cbn [foldl].
  now rewrite toggle_comm, IH.
Qed.

Lemma toggles_twice bs buf : toggles bs (toggles bs buf) = buf.
Proof.
  induction bs as [|b bs IH]; [done|].
  assert (E : forall x, toggles (b :: bs) x = toggle b (toggles bs x)) by (intros; apply toggles_toggle).
  now rewrite !E, toggles_toggle, toggle_twice.
Qed.

Section Flips.
Context {W : Type} `{Target W}.
Implicit Types s : fz W.

Lemma FLIP_BIT_ok b s :
  (b < 8 * length (out_buf s))%nat -> FLIP_BIT b s = Ok (with_buf (toggle b (out_buf s)) s, Some tt).
Proof.
  intros Hb. assert (Hl : (b / 8 < length (out_buf s))%nat) by (apply Nat.Div0.div_lt_upper_bound; lia).
  unfold FLIP_BIT. rewrite bind_get. unfold flip_bit.
  destruct (rd_lt _ _ Hl) as (x & E & L). rewrite E. cbn [mbind res_bind].
  rewrite wr_lt by done. rewrite bind_lift. unfold put, toggle.
  now rewrite (insert_as_alter (fun x => x .^ (128 .>> Z.of_nat (b mod 8))) _ _ _ L).
Qed.

Lemma FLIP_BITS_ok k b s :
  (b + k <= 8 * length (out_buf s))%nat ->
  FLIP_BITS k b s = Ok (with_buf (toggles (seq b k) (out_buf s)) s, Some tt).
Proof.
  unfold FLIP_BITS. revert b s; induction k as [|k IH]; intros b s Hb; cbn [seq for_].
  { unfold toggles. cbn. now destruct s. }
  erewrite bind_ok_step by (apply FLIP_BIT_ok; lia).
  rewrite IH by (cbn [out_buf with_buf]; unfold toggle; rewrite length_alter; lia). reflexivity.
Qed.

(** ** "bitflip 2/1" and "bitflip 4/1" *)

Definition flip_cands (k : nat) (buf : list Z) : list (list Z) :=
  map (fun c => toggles (seq c k) buf) (seq 0 (8 * length buf - (k - 1))).

Lemma does_flip k c mx b s :
  (b + k <= 8 * length (out_buf s))%nat -> forall w,
  does (_ ← set_stage_cur (Z.of_nat b); _ ← FLIP_BITS k b; _ ← exec; FLIP_BITS k b)
    (with_world w (with_stage c mx s)) [toggles (seq b k) (out_buf s)] (with_stage (Z.of_nat b) mx s) tt.
Proof.
  intros Hb w. eapply does_step; [reflexivity|done|]. cbv beta.
  eapply does_step; [apply FLIP_BITS_ok; exact Hb|done|].
  eapply does_bind_nil; [apply does_exec|]. intros w'. apply (does_forget _ _ _ w'), does_pure; [|done].
  rewrite FLIP_BITS_ok by (cbn [out_buf with_buf with_world with_stage]; now rewrite length_toggles).
  cbn [out_buf with_buf with_world with_stage]. now rewrite toggles_twice.
Qed.

(** The stages "bitflip 2/1" and "bitflip 4/1" run, in order, exactly the
    input with every [k] consecutive bits flipped, put the buffer back, and
    account one execution for each. *)
Theorem flip_stage_correct k stage s :
  has_stage s stage -> 8 * Z.of_nat (length (out_buf s)) < 2 ^ 32 ->
  runs_stage (flip_stage k stage) s stage (flip_cands k (out_buf s)).
Proof.
  intros Hs Hl. unfold runs_stage, flip_cands. rewrite length_map, length_seq.
  set (max := (8 * length (out_buf s) - (k - 1))%nat).
  destruct (does_walk (seq 0 max) (fun c => _ ← set_stage_cur (Z.of_nat c); _ ← FLIP_BITS k c; _ ← exec; FLIP_BITS k c)
    (fun c => [toggles (seq c k) (out_buf s)]) (u32 (Z.of_nat max)) s) with (c := 0) as [c' Hd].
  { intros b c Hb%elem_of_seq. exists (Z.of_nat b). apply does_flip. lia. }
  specialize (Hd (world s)).
  assert (E : concat (map (fun c => [toggles (seq c k) (out_buf s)]) (seq 0 max))
              = map (fun c => toggles (seq c k) (out_buf s)) (seq 0 max)).
  { generalize (seq 0 max). intros l; induction l as [|x l IH]; [done|]. cbn [map concat app]. now rewrite IH. }
  rewrite E in Hd. clear E.
  eapply does_to_eq; [unfold flip_stage; rewrite bind_get; unfold begin_stage;
    rewrite bind_assoc, bind_get, bind_assoc, bind_put, bind_ret; rewrite (Nat.mul_comm _ 8); fold max; reflexivity|done|].
  rewrite <- (app_nil_r (map _ _)). eapply does_then; [exact Hd|]. intros w. cbv beta.
  unfold does_to, set_stage_cur. rewrite bind_assoc, bind_get, bind_put.
  rewrite end_stage_ok by exact Hs. rewrite uwrap_id by lia. reflexivity.
Qed.
End Flips.

Lemma flip_stage_correct_witness :
  @runs_stage _ (recorder (zsum id)) (@flip_stage _ (recorder (zsum id)) 2 1) (fz0 [0xAA; 0x55]) 1 (flip_cands 2 [0xAA; 0x55]).
Proof. apply (@flip_stage_correct _ (recorder (zsum id)) 2 1 (fz0 [0xAA; 0x55])); [split; cbn; lia|cbn; lia]. Defined.

Section Flagged.
Context {W : Type} `{Target W}.
Implicit Types s : fz W.

(** ** Pieces in flagged blocks *)

Definition flagged (eff_map : list Z) (k i : nat) : bool :=
  existsb (fun p => truthy (nth (EFF_APOS p) eff_map 0)) (seq i k).

(** The test cases [g i] of every piece of [k] bytes the map lets through. *)
Definition piece_cands (eff_map : list Z) (k len : nat) (g : nat -> list (list Z)) : list (list Z) :=
  concat (map (fun i => if flagged eff_map k i then g i else []) (seq 0 (len - (k - 1)))).

Lemma eff_apos_lt p len : (p < len)%nat -> (EFF_APOS p < EFF_ALEN len)%nat.
Proof.
  intros Hp. unfold EFF_APOS, EFF_ALEN.
  pose proof (Nat.div_mod_eq p 8). pose proof (Nat.div_mod_eq len 8).
  pose proof (Nat.mod_upper_bound p 8). pose proof (Nat.mod_upper_bound len 8).
  case_bool_decide; lia.
Qed.

Lemma eff_any_flagged eff_map len k i :
  length eff_map = EFF_ALEN len -> (i + k <= len)%nat -> eff_any eff_map k i = Ok (flagged eff_map k i).
Proof.
  intros Hl Hi. unfold eff_any, flagged.
  assert (G : forall l b, (forall p, p ∈ l -> (p < len)%nat) ->
    rfold (fun b p => e ← rd eff_map (EFF_APOS p); Ok (b || truthy e)) b l =
    Ok (b || existsb (fun p => truthy (nth (EFF_APOS p) eff_map 0)) l)).
  { induction l as [|p l IH]; intros b Hp; cbn [rfold existsb]; [now rewrite orb_false_r|].
    destruct (rd_lt eff_map (EFF_APOS p)) as (e & E & L).
    { rewrite Hl. apply eff_apos_lt, Hp. left. }
    rewrite E. cbn [mbind res_bind]. rewrite IH by (intros; apply Hp; now right).
    now rewrite (nth_lookup_Some _ _ 0 _ L), orb_assoc. }
  rewrite G; [done|]. intros p Hp%elem_of_seq. lia.
Qed.

Lemma does_pieces eff_map k n (body : nat -> M W unit) (g : nat -> list (list Z)) s :
  (0 < k)%nat -> length eff_map = EFF_ALEN (length (out_buf s)) ->
  (forall i c m w, (i + k <= length (out_buf s))%nat ->
     does (body i) (with_world w (counted c m s)) (g i)
          (counted (c + len_of (g i)) (m - (n - len_of (g i))) s) tt) ->
  let cs := piece_cands eff_map k (length (out_buf s)) g in
  forall c m w,
  does (pieces eff_map k n body) (with_world w (counted c m s)) cs
       (counted (c + len_of cs) (m - (n * Z.of_nat (length (out_buf s) - (k - 1)) - len_of cs)) s) tt.
Proof.
  intros Hk Hl Hb cs c m w. unfold pieces. eapply does_step; [reflexivity|done|]. cbv beta.
  eapply does_counted; [eapply does_for_same|reflexivity|unfold len_of; rewrite length_seq; reflexivity].
  intros i c' m' w' Hi%elem_of_seq. cbn [out_buf with_world counted with_stage] in Hi.
  eapply does_step; [rewrite (eff_any_flagged _ (length (out_buf s))) by (auto; lia); reflexivity|done|].
  destruct (flagged eff_map k i); [apply Hb; lia|].
  eapply does_counted; [apply (does_skip n c' m' s w')|unfold len_of; cbn [length]; lia..].
Qed.

End Flagged.
