(* ===== verification/StagesArith.v ===== *)
(** What the piecewise stages run: flips of words, arithmetic and interesting
    values, as the exact lists of their test cases. *)

From S2P Require Import Prelude Words Arith Float Bitmap State Rand Dedup Extras DedupThms Stages StagesRun StagesThms.

Section Pieces.
Context {W : Type} `{Target W}.
Implicit Types s : fz W.

(** ** "bitflip 16/8" and "bitflip 32/8" *)

Definition invert_cand (k i : nat) (buf : list Z) : list Z :=
  write_at i (le_store k (le_load (take k (drop i buf)) .^ Z.ones (8 * Z.of_nat k))) buf.

Lemma flip_bytes_piece k i inb v s :
  0 <= v < 2 ^ (8 * Z.of_nat k) -> (i + k <= length inb)%nat ->
  flip_bytes k i (piece_at k i inb v s) =
  Ok (piece_at k i inb (v .^ Z.ones (8 * Z.of_nat k)) s, Some tt).
Proof.
  intros Hv Hi. unfold flip_bytes. erewrite bind_ok_step by (apply load_piece; [exact Hv|exact Hi]).
  now rewrite store_piece by lia.
Qed.

Lemma lxor_range w x y : 0 <= w -> 0 <= x < 2 ^ w -> 0 <= y < 2 ^ w -> 0 <= x .^ y < 2 ^ w.
Proof.
  intros Hw Hx Hy. assert (0 <= x .^ y) by (apply Z.lxor_nonneg; lia).
  split; [done|]. apply bits_bound; [done..|]. intros n Hn.
  now rewrite Z.lxor_spec, (testbit_high w x), (testbit_high w y) by lia.
Qed.

Lemma lxor_ones_range w x : 0 <= w -> 0 <= x < 2 ^ w -> 0 <= x .^ Z.ones w < 2 ^ w.
Proof.
  intros Hw Hx. apply lxor_range; [done..|]. rewrite Z.ones_equiv. pose proof (Z.pow_pos_nonneg 2 w). lia.
Qed.

Lemma does_invert k i c m w s :
  bytes (out_buf s) -> (i + k <= length (out_buf s))%nat ->
  does (_ ← flip_bytes k i; _ ← exec; _ ← stage_step; flip_bytes k i)
    (with_world w (counted c m s)) [invert_cand k i (out_buf s)] (counted (c + 1) m s) tt.
Proof.
  intros Hb Hi. set (v := le_load (take k (drop i (out_buf s)))).
  assert (Hv : 0 <= v < 2 ^ (8 * Z.of_nat k)) by now apply piece_bound.
  assert (Es : forall w c, with_world w (counted c m s) = piece_at k i (out_buf s) v (with_world w (counted c m s))).
  { intros. symmetry. exact (piece_at_self k i (with_world w0 (counted c0 m s)) Hb Hi). }
  rewrite Es. eapply does_step; [now apply flip_bytes_piece|done|].
  eapply does_bind_nil; [apply does_exec|]. intros w'.
  eapply does_bind_nil; [eapply (does_count c m (piece_at k i (out_buf s) _ s))|]. intros w2.
  apply (does_forget _ _ _ w2). rewrite (Es w2). apply does_pure; [|done].
  change (with_world w2 (counted (c + 1) m (piece_at k i (out_buf s) ?u s)))
    with (piece_at k i (out_buf s) u (with_world w2 (counted (c + 1) m s))).
  rewrite flip_bytes_piece by (auto using lxor_ones_range with lia). now rewrite lxor_twice.
Qed.

(** A stage over the flagged pieces, each of which tries [n] test cases. *)
Lemma pieces_stage eff_map k n max (body : nat -> M W unit) (g : nat -> list (list Z)) stage s :
  (0 < k)%nat -> length eff_map = EFF_ALEN (length (out_buf s)) -> has_stage s stage ->
  max = n * Z.of_nat (length (out_buf s) - (k - 1)) ->
  (forall i c m w, (i + k <= length (out_buf s))%nat ->
     does (body i) (with_world w (counted c m s)) (g i)
          (counted (c + len_of (g i)) (m - (n - len_of (g i))) s) tt) ->
  runs_stage (orig ← begin_stage max; _ ← pieces eff_map k n body; end_stage stage orig) s stage
    (piece_cands eff_map k (length (out_buf s)) g).
Proof.
  intros Hk Hl Hs -> Hb. apply counted_stage; [exact Hs|].
  pose proof (does_pieces eff_map k n body g s Hk Hl Hb 0 (n * Z.of_nat (length (out_buf s) - (k - 1))) (world s)) as Hd.
  assert (E : with_world (world s) (counted 0 (n * Z.of_nat (length (out_buf s) - (k - 1))) s)
    = counted 0 (n * Z.of_nat (length (out_buf s) - (k - 1))) s) by now destruct s.
  rewrite E in Hd. eapply does_counted; [exact Hd|lia..].
Qed.

Lemma flip_words_runs eff_map k stage s :
  (0 < k)%nat -> bytes (out_buf s) -> length eff_map = EFF_ALEN (length (out_buf s)) -> has_stage s stage ->
  runs_stage (flip_words eff_map k stage) s stage
    (piece_cands eff_map k (length (out_buf s)) (fun i => [invert_cand k i (out_buf s)])).
Proof.
  intros Hk Hb Hl Hs. unfold runs_stage. eapply does_to_eq; [apply bind_get|done|].
  apply pieces_stage; auto; [lia|]. intros i c m w Hi.
  eapply does_counted; [now apply does_invert|unfold len_of; cbn [length]; lia..].
Qed.

(** ** Trying values *)

(** The answer of [could_be_bitflip], which it always gives in 32 bits. *)
Definition flip_seen (x : Z) : bool := match could_be_bitflip x with Ok b => b | Err _ => false end.

Lemma flip_seen_ok x : 0 <= x < 2 ^ 32 -> could_be_bitflip x = Ok (flip_seen x).
Proof. intros Hx. unfold flip_seen. destruct (could_be_bitflip_total x Hx) as [b ->]. done. Qed.

Definition try_cand (k i : nat) (buf : list Z) (ok : bool) (v : Z) : list (list Z) :=
  if ok then [write_at i (le_store k v) buf] else [].

Section Trying.
Context (k i : nat) (s : fz W).
Context (Hi : (i + k <= length (out_buf s))%nat).
Let P (u : Z) : fz W := piece_at k i (out_buf s) u s.

Lemma does_store_piece u v c m w :
  does (store k i v) (with_world w (counted c m (P u))) [] (counted c m (P v)) tt.
Proof.
  apply (does_forget _ _ _ w), does_pure; [|done].
  exact (store_piece k i (out_buf s) u v (with_world w (counted c m s)) Hi).
Qed.

Lemma does_store_back u c m w :
  bytes (out_buf s) ->
  does (store k i (le_load (take k (drop i (out_buf s))))) (with_world w (counted c m (P u))) [] (counted c m s) tt.
Proof.
  intros Hb. pose proof (does_store_piece u (le_load (take k (drop i (out_buf s)))) c m w) as Hd.
  unfold P at 2 in Hd. now rewrite piece_at_self in Hd by done.
Qed.

Lemma does_attempt ok u v c m w :
  let g := try_cand k i (out_buf s) ok v in
  does (attempt k i ok v) (with_world w (counted c m (P u))) g
    (counted (c + len_of g) (m - (1 - len_of g)) (P (if ok then v else u))) tt.
Proof.
  unfold attempt, try_cand. destruct ok; unfold len_of; cbn [length].
  - eapply does_nil_bind; [apply does_store_piece|]. intros w1.
    eapply does_bind_nil; [apply does_exec|]. intros w2.
    eapply does_counted; [apply (does_count c m (P v))|lia..].
  - eapply does_counted; [apply (does_skip 1 c m (P u))|lia..].
Qed.

Lemma does_try_arith t u c m :
  0 <= t.1.2 < 2 ^ 32 ->
  let g := try_cand k i (out_buf s) (t.1.1 && negb (flip_seen t.1.2)) t.2 in
  exists u', forall w,
    does (try_arith k i t) (with_world w (counted c m (P u))) g
      (counted (c + len_of g) (m - (1 - len_of g)) (P u')) tt.
Proof.
  intros Hr g. destruct t as [[guard r] v]. cbn [fst snd] in *. eexists. intros w. unfold try_arith.
  eapply does_step; [|reflexivity|apply does_attempt].
  destruct guard; [rewrite flip_seen_ok by done|]; reflexivity.
Qed.
End Trying.

(** ** Arithmetic *)

Definition arith_cands (k : nat) (tries : Z -> Z -> list (bool * Z * Z)) (buf : list Z) (i : nat) : list (list Z) :=
  let orig := le_load (take k (drop i buf)) in
  concat (map (fun j =>
    concat (map (fun t => try_cand k i buf (t.1.1 && negb (flip_seen t.1.2)) t.2) (tries orig j)))
    (seqZ 1 ARITH_MAX)).

(** The tries of a stage: [n] per addend, each with a 32-bit difference. *)
Definition fair_tries (k : nat) (n : Z) (tries : Z -> Z -> list (bool * Z * Z)) : Prop :=
  forall orig j, 0 <= orig < 2 ^ (8 * Z.of_nat k) ->
    len_of (tries orig j) = n /\ Forall (fun t => 0 <= t.1.2 < 2 ^ 32) (tries orig j).

Lemma does_piece_arith k n tries i c m w s :
  bytes (out_buf s) -> (i + k <= length (out_buf s))%nat -> fair_tries k n tries ->
  let g := arith_cands k tries (out_buf s) i in
  does (orig ← load k i; for_ (seqZ 1 ARITH_MAX) (fun j => _ ← for_ (tries orig j) (try_arith k i); store k i orig))
    (with_world w (counted c m s)) g (counted (c + len_of g) (m - (n * ARITH_MAX - len_of g)) s) tt.
Proof.
  intros Hb Hi Ht g. subst g. unfold arith_cands. set (orig := le_load (take k (drop i (out_buf s)))).
  pose proof (piece_bound k i (out_buf s) Hb) as Ho. fold orig in Ho.
  pose proof (piece_at_self k i s Hb Hi) as Es. fold orig in Es.
  eapply does_step; [apply load_buf; exact Hi|done|]. cbv beta.
  change (take k (drop i (out_buf (with_world w (counted c m s))))) with (take k (drop i (out_buf s))). fold orig.
  eapply does_counted; [apply (does_for_same _ _ _ n)|reflexivity|unfold len_of; rewrite length_seqZ; done].
  intros j c1 m1 w1 _. destruct (Ht orig j Ho) as [Hn Hr].
  destruct (does_for (fun u => piece_at k i (out_buf s) u s) (tries orig j) (try_arith k i)
    (fun t => try_cand k i (out_buf s) (t.1.1 && negb (flip_seen t.1.2)) t.2) 1) with (c := c1) (m := m1) (u := orig)
    as [u' Hd].
  { intros t c2 m2 u Hin. apply does_try_arith; [exact Hi|now eapply (proj1 (Forall_forall _ _) Hr)]. }
  rewrite Es in Hd. eapply does_bind_nil; [apply Hd|]. intros w2.
  eapply does_counted; [apply does_store_back; auto|done|lia].
Qed.

Lemma arith_stage_runs eff_map k n tries stage s :
  (0 < k)%nat -> bytes (out_buf s) -> length eff_map = EFF_ALEN (length (out_buf s)) -> has_stage s stage ->
  fair_tries k n tries ->
  runs_stage (arith_stage eff_map k n tries stage) s stage
    (piece_cands eff_map k (length (out_buf s)) (arith_cands k tries (out_buf s))).
Proof.
  intros Hk Hb Hl Hs Ht. unfold runs_stage. eapply does_to_eq; [apply bind_get|done|].
  apply pieces_stage; auto; [lia|]. intros i c m w Hi. now apply does_piece_arith.
Qed.

Lemma u32_in x : 0 <= u32 x < 2 ^ 32.
Proof. apply uwrap_range. lia. Qed.
Lemma u16_in x : 0 <= u16 x < 2 ^ 32.
Proof. pose proof (uwrap_range 16 x). lia. Qed.
Lemma u8_in x : 0 <= u8 x < 2 ^ 32.
Proof. pose proof (uwrap_range 8 x). lia. Qed.

Lemma tries8_fair : fair_tries 1 2 arith8_tries.
Proof. intros o j _. split; [done|]. repeat constructor; apply u8_in. Qed.
Lemma tries16_fair : fair_tries 2 4 arith16_tries.
Proof. intros o j _. split; [done|]. repeat constructor; apply u16_in. Qed.
Lemma tries32_fair : fair_tries 4 4 arith32_tries.
Proof. intros o j _. split; [done|]. repeat constructor; apply u32_in. Qed.

(** The three arithmetic stages. *)
Inductive arith_kind : nat -> Z -> (Z -> Z -> list (bool * Z * Z)) -> Prop :=
  | arith_8 : arith_kind 1 2 arith8_tries
  | arith_16 : arith_kind 2 4 arith16_tries
  | arith_32 : arith_kind 4 4 arith32_tries.

(** C34: Each arithmetic stage runs, for every piece with a flagged byte, every
    addend up to [ARITH_MAX] and every form of addition of the stage, exactly
    the changed inputs that its guard lets through and that no bit flip made,
    in this order, restores the buffer, and accounts exactly these. *)
Theorem arith_stage_correct eff_map k n tries stage s :
  arith_kind k n tries -> bytes (out_buf s) -> length eff_map = EFF_ALEN (length (out_buf s)) ->
  has_stage s stage ->
  runs_stage (arith_stage eff_map k n tries stage) s stage
    (piece_cands eff_map k (length (out_buf s)) (arith_cands k tries (out_buf s))).
Proof.
  intros [] Hb Hl Hs; apply arith_stage_runs; auto using tries8_fair, tries16_fair, tries32_fair with lia.
Qed.

(** ** Interesting values *)

(** No earlier stage ran the value. *)
Definition fresh (k : nat) (orig v : Z) (check_le : option bool) : bool :=
  negb (flip_seen (orig .^ v)) && negb (could_be_arith orig v k) &&
  match check_le with Some le => negb (could_be_interest orig v k le) | None => true end.

Lemma unseen_ok w k orig v check_le :
  0 <= w <= 32 -> 0 <= orig < 2 ^ w -> 0 <= v < 2 ^ w -> unseen k orig v check_le = Ok (fresh k orig v check_le).
Proof.
  intros Hw Ho Hv. unfold unseen, fresh. rewrite flip_seen_ok; [done|].
  pose proof (lxor_range w orig v ltac:(lia) Ho Hv) as Hx.
  pose proof (Z.pow_le_mono_r 2 w 32). lia.
Qed.

Definition interest8_cands (buf : list Z) (i : nat) : list (list Z) :=
  let orig := le_load (take 1 (drop i buf)) in
  concat (map (fun v => try_cand 1 i buf (fresh 1 orig (u8 v) None) (u8 v)) interesting_8).

Definition interest_cands (k : nat) (values : list Z) (conv swap : Z -> Z) (buf : list Z) (i : nat) : list (list Z) :=
  let orig := le_load (take k (drop i buf)) in
  concat (map (fun v =>
    try_cand k i buf (fresh k orig (conv v) (Some false)) (conv v) ++
    try_cand k i buf (negb (conv v =? swap v) && fresh k orig (swap v) (Some true)) (swap v)) values).

Section PieceInterest.
Context (i : nat) (s : fz W) (Hb : bytes (out_buf s)).

Lemma does_value8 v c m w :
  (i + 1 <= length (out_buf s))%nat ->
  let orig := le_load (take 1 (drop i (out_buf s))) in
  let g := try_cand 1 i (out_buf s) (fresh 1 orig (u8 v) None) (u8 v) in
  does (ok ← lift (unseen 1 orig (u8 v) None);
        if ok : bool then _ ← store 1 i (u8 v); _ ← exec; _ ← store 1 i orig; stage_step else stage_less 1)
    (with_world w (counted c m s)) g (counted (c + len_of g) (m - (1 - len_of g)) s) tt.
Proof.
  intros Hi orig g. pose proof (piece_bound 1 i (out_buf s) Hb) as Ho. fold orig in Ho.
  eapply does_step; [rewrite (unseen_ok 8) by (lia || apply uwrap_range; lia); reflexivity|done|].
  unfold g, try_cand. destruct (fresh 1 orig (u8 v) None); unfold len_of; cbn [length].
  - pose proof (piece_at_self 1 i s Hb Hi) as Es. fold orig in Es.
    rewrite <- Es at 1. eapply does_nil_bind; [now apply does_store_piece|]. intros w1.
    eapply does_bind_nil; [apply does_exec|]. intros w2.
    eapply does_nil_bind; [now apply does_store_back|]. intros w3.
    eapply does_counted; [apply does_count|lia..].
  - eapply does_counted; [apply does_skip|lia..].
Qed.

Lemma does_value k (conv swap : Z -> Z) v c m u :
  (i + k <= length (out_buf s))%nat -> (0 < k <= 4)%nat ->
  0 <= conv v < 2 ^ (8 * Z.of_nat k) -> 0 <= swap v < 2 ^ (8 * Z.of_nat k) ->
  let orig := le_load (take k (drop i (out_buf s))) in
  let g := try_cand k i (out_buf s) (fresh k orig (conv v) (Some false)) (conv v) ++
    try_cand k i (out_buf s) (negb (conv v =? swap v) && fresh k orig (swap v) (Some true)) (swap v) in
  exists u', forall w,
  does (ok ← lift (unseen k orig (conv v) (Some false));
        _ ← attempt k i ok (conv v);
        ok ← lift (if conv v =? swap v then Ok false else unseen k orig (swap v) (Some true));
        attempt k i ok (swap v))
    (with_world w (counted c m (piece_at k i (out_buf s) u s))) g
    (counted (c + len_of g) (m - (2 - len_of g)) (piece_at k i (out_buf s) u' s)) tt.
Proof.
  intros Hi Hk Hc Hs orig g. pose proof (piece_bound k i (out_buf s) Hb) as Ho. fold orig in Ho.
  eexists. intros w.
  eapply does_step; [rewrite (unseen_ok (8 * Z.of_nat k)) by (done || lia); reflexivity|done|].
  eapply does_bind; [now apply does_attempt|]. intros w1.
  eapply does_counted; [|unfold g, len_of; rewrite length_app; reflexivity|unfold g, len_of; rewrite length_app; reflexivity].
  eapply does_step; [|reflexivity|eapply does_counted; [now apply does_attempt|unfold len_of; lia..]].
  destruct (conv v =? swap v); [reflexivity|].
  rewrite (unseen_ok (8 * Z.of_nat k)) by (done || lia). reflexivity.
Qed.
End PieceInterest.

Lemma interest8_runs eff_map s :
  bytes (out_buf s) -> length eff_map = EFF_ALEN (length (out_buf s)) -> has_stage s 9 ->
  runs_stage (interest8_stage eff_map) s 9
    (piece_cands eff_map 1 (length (out_buf s)) (interest8_cands (out_buf s))).
Proof.
  intros Hb Hl Hs. unfold runs_stage. eapply does_to_eq; [apply bind_get|done|].
  apply pieces_stage; auto; [lia|]. intros i c m w Hi.
  eapply does_step; [apply load_buf; exact Hi|done|]. cbv beta.
  eapply does_counted; [apply (does_for_same _ _ _ 1)|reflexivity|reflexivity].
  intros v c1 m1 w1 _. exact (does_value8 i s Hb v c1 m1 w1 Hi).
Qed.

(** The two stages of wider interesting values. *)
Inductive interest_kind : nat -> list Z -> (Z -> Z) -> (Z -> Z) -> Prop :=
  | interest_16 : interest_kind 2 interesting_16 u16 SWAP16
  | interest_32 : interest_kind 4 interesting_32 u32 SWAP32.

Lemma interest_range k values (conv swap : Z -> Z) v :
  interest_kind k values conv swap ->
  (0 < k <= 4)%nat /\ 0 <= conv v < 2 ^ (8 * Z.of_nat k) /\ 0 <= swap v < 2 ^ (8 * Z.of_nat k).
Proof.
  intros []; (split; [lia|split]); try (apply uwrap_range; lia).
Qed.

(** "interest 16/8" and "interest 32/8" run, for every piece with a
    flagged byte and every interesting value, the input with the value in
    little and, when it differs, in big endian, unless a bit flip, an
    arithmetic step or a narrower interesting value made the same change;
    they restore the buffer and account exactly these. *)
Theorem interest_stage_correct eff_map k values (conv swap : Z -> Z) stage s :
  interest_kind k values conv swap -> bytes (out_buf s) ->
  length eff_map = EFF_ALEN (length (out_buf s)) -> has_stage s stage ->
  runs_stage (interest_stage eff_map k values conv swap stage) s stage
    (piece_cands eff_map k (length (out_buf s)) (interest_cands k values conv swap (out_buf s))).
Proof.
  intros Hkind Hb Hl Hs. pose proof (fun v => interest_range _ _ _ _ v Hkind) as Hr.
  assert (Hk : (0 < k <= 4)%nat) by apply (Hr 0).
  unfold runs_stage. eapply does_to_eq; [apply bind_get|done|].
  apply pieces_stage; auto; [lia|lia|]. intros i c m w Hi. unfold interest_cands.
  set (orig := le_load (take k (drop i (out_buf s)))).
  pose proof (piece_at_self k i s Hb Hi) as Es. fold orig in Es.
  eapply does_step; [apply load_buf; exact Hi|done|]. cbv beta.
  change (take k (drop i (out_buf (with_world w (counted c m s))))) with (take k (drop i (out_buf s))). fold orig.
  destruct (does_for (fun u => piece_at k i (out_buf s) u s) values
    (fun v => ok ← lift (unseen k orig (conv v) (Some false));
        _ ← attempt k i ok (conv v);
        ok ← lift (if conv v =? swap v then Ok false else unseen k orig (swap v) (Some true));
        attempt k i ok (swap v))
    (fun v => try_cand k i (out_buf s) (fresh k orig (conv v) (Some false)) (conv v) ++
      try_cand k i (out_buf s) (negb (conv v =? swap v) && fresh k orig (swap v) (Some true)) (swap v)) 2)
    with (c := c) (m := m) (u := orig) as [u' Hd].
  { intros v c1 m1 u _. apply does_value; try done; apply (Hr v). }
  rewrite Es in Hd. eapply does_bind_nil; [apply Hd|]. intros w2.
  eapply does_counted; [apply does_store_back; auto|reflexivity|reflexivity].
Qed.

End Pieces.

(** ** Witnesses *)

Lemma arith_stage_correct_witness :
  @runs_stage _ (recorder (zsum id)) (@arith_stage _ (recorder (zsum id)) [1] 2 4 arith16_tries 7)
    (fz0 [0xE0; 0x00; 0x07]) 7
    (piece_cands [1] 2 3 (arith_cands 2 arith16_tries [0xE0; 0x00; 0x07])).
Proof.
  apply (@arith_stage_correct _ (recorder (zsum id)) [1] 2 4 arith16_tries 7 (fz0 [0xE0; 0x00; 0x07]));
    [constructor|now apply bytesb_spec|reflexivity|split; cbn; lia].
Defined.

Lemma interest_stage_correct_witness :
  @runs_stage _ (recorder (zsum id)) (@interest_stage _ (recorder (zsum id)) [1] 2 interesting_16 u16 SWAP16 10)
    (fz0 [0xE0; 0x00; 0x07]) 10
    (piece_cands [1] 2 3 (interest_cands 2 interesting_16 u16 SWAP16 [0xE0; 0x00; 0x07])).
Proof.
  apply (@interest_stage_correct _ (recorder (zsum id)) [1] 2 interesting_16 u16 SWAP16 10 (fz0 [0xE0; 0x00; 0x07]));
    [constructor|now apply bytesb_spec|reflexivity|split; cbn; lia].
Defined.

(** ** What the stages cover together *)

(** Toggling bits of one byte. *)
Definition bit_mask (qs : list nat) : Z := foldl (fun m q => m .^ (128 .>> Z.of_nat q)) 0 qs.

Lemma toggles_byte i qs buf :
  Forall (fun q => q < 8)%nat qs ->
  toggles (map (fun q => 8 * i + q)%nat qs) buf = alter (fun x => x .^ bit_mask qs) i buf.
Proof.
  intros Hq. unfold bit_mask.
  assert (G : forall m, toggles (map (fun q => 8 * i + q)%nat qs) (alter (fun x => x .^ m) i buf)
    = alter (fun x => x .^ foldl (fun m q => m .^ (128 .>> Z.of_nat q)) m qs) i buf).
  { induction Hq as [|q qs Hlt _ IH]; intros m; [done|]. cbn [map foldl]. rewrite <- IH.
    unfold toggles. cbn [foldl]. f_equal. unfold toggle.
    replace ((8 * i + q) / 8)%nat with i by (rewrite Nat.mul_comm, Nat.div_add_l, Nat.div_small by lia; lia).
    replace ((8 * i + q) mod 8)%nat with q by (rewrite Nat.mul_comm, Nat.add_comm, Nat.Div0.mod_add, Nat.mod_small by lia; lia).
    rewrite list_alter_alter_eq. apply list_alter_ext; [|done]. intros x _. cbn. now rewrite Z.lxor_assoc. }
  rewrite <- G. f_equal. symmetry. apply alter_id. intros x. apply Z.lxor_0_r.
Qed.

(** The shapes of a byte's change that [could_be_bitflip] accepts are those
    of the walking flips within the byte. *)
Definition walking_mask (r : Z) : bool :=
  (r =? 0) || (r =? 255) ||
  existsb (fun k => existsb (fun q => bool_decide (q + k <= 8)%nat && (r =? bit_mask (seq q k))) (seq 0 8)) [1; 2; 4]%nat.

Lemma flip_seen_walking r : 0 <= r < 256 -> flip_seen r = true -> walking_mask r = true.
Proof.
  intros Hr Hf.
  pose proof (byte_forall (fun r => implb (flip_seen r) (walking_mask r)) r ltac:(vm_compute; reflexivity) Hr) as Hw.
  cbv beta in Hw. now rewrite Hf in Hw.
Qed.

(** All that the walking flips, arithmetic and interesting values run on a
    file of at least four bytes, for an effector map. *)
Definition det_cands (eff_map buf : list Z) : list (list Z) :=
  let len := length buf in
  flip_cands 1 buf ++ flip_cands 2 buf ++ flip_cands 4 buf ++
  map (fun i => invert_cand 1 i buf) (seq 0 len) ++
  piece_cands eff_map 2 len (fun i => [invert_cand 2 i buf]) ++
  piece_cands eff_map 4 len (fun i => [invert_cand 4 i buf]) ++
  piece_cands eff_map 1 len (arith_cands 1 arith8_tries buf) ++
  piece_cands eff_map 2 len (arith_cands 2 arith16_tries buf) ++
  piece_cands eff_map 4 len (arith_cands 4 arith32_tries buf) ++
  piece_cands eff_map 1 len (interest8_cands buf) ++
  piece_cands eff_map 2 len (interest_cands 2 interesting_16 u16 SWAP16 buf) ++
  piece_cands eff_map 4 len (interest_cands 4 interesting_32 u32 SWAP32 buf).

Lemma elem_of_concat_map {A B} (f : A -> list B) l x y : x ∈ l -> y ∈ f x -> y ∈ concat (map f l).
Proof.
  induction 1 as [x l|x z l Hx IH]; intros Hy; cbn [map concat]; apply elem_of_app; [now left|right; auto].
Qed.

Lemma write_at_1 i x buf : (i < length buf)%nat -> write_at i (le_store 1 x) buf = <[i := uwrap 8 x]> buf.
Proof.
  intros Hi. unfold write_at. cbn [le_store length].
  change 0xff with (Z.ones 8). rewrite Z.land_ones by lia. fold (uwrap 8 x).
  rewrite insert_take_drop by done. now rewrite Nat.add_1_r.
Qed.

Lemma le_load_1 buf i x : buf !! i = Some x -> le_load (take 1 (drop i buf)) = x.
Proof.
  intros Hx. rewrite (drop_S _ _ _ Hx), firstn_cons, take_0. cbn [le_load].
  now rewrite Z.shiftl_0_l, Z.lor_0_r.
Qed.

(** Changing one byte as a walking flip does. *)
Lemma flip_cands_byte k i q buf :
  (0 < k)%nat -> (q + k <= 8)%nat -> (i < length buf)%nat ->
  alter (fun x => x .^ bit_mask (seq q k)) i buf ∈ flip_cands k buf.
Proof.
  intros Hk Hq Hi. rewrite <- toggles_byte by (apply Forall_seq; intros; lia).
  unfold flip_cands. apply list_elem_of_In, in_map_iff. exists (8 * i + q)%nat. split.
  - f_equal. symmetry. apply (fmap_add_seq (8 * i) q k).
  - apply in_seq. lia.
Qed.

Lemma walking_mask_cands i x r buf :
  buf !! i = Some x -> is_byte x -> walking_mask r = true -> r <> 0 ->
  <[i := x .^ r]> buf ∈ flip_cands 1 buf ++ flip_cands 2 buf ++ flip_cands 4 buf ++
                        map (fun i => invert_cand 1 i buf) (seq 0 (length buf)).
Proof.
  intros Hx Hbx Hm Hr. pose proof (lookup_lt_Some _ _ _ Hx) as Hi.
  rewrite (insert_as_alter (fun x => x .^ r) _ _ _ Hx). rewrite !elem_of_app.
  unfold walking_mask in Hm. apply orb_true_iff in Hm as [Hm|Hm].
  - apply orb_true_iff in Hm as [->%Z.eqb_eq| ->%Z.eqb_eq]; [done|]. do 3 right.
    apply list_elem_of_In, in_map_iff. exists i. split; [|apply in_seq; lia].
    unfold invert_cand. rewrite (le_load_1 _ _ _ Hx), write_at_1 by done.
    change (Z.ones (8 * Z.of_nat 1)) with 255. rewrite uwrap_id; [exact (insert_as_alter (fun x => x .^ 255) _ _ _ Hx)|].
    apply (lxor_range 8); unfold is_byte in Hbx; lia.
  - apply existsb_exists in Hm as (k & Hk & Hm). apply existsb_exists in Hm as (q & _ & Hm).
    apply andb_true_iff in Hm as [Hq%bool_decide_eq_true ->%Z.eqb_eq].
    pose proof (fun Hk => flip_cands_byte k i q buf Hk Hq Hi) as Hc. cbn [In] in Hk.
    destruct Hk as [<-|[<-|[<-|[]]]]; specialize (Hc ltac:(lia)); auto.
Qed.

(** C36: No byte-sized addition is lost to the filter: for every byte in a
    flagged block and every addend within [ARITH_MAX], the input with the
    byte increased or decreased, modulo 256, is run by the arithmetic stage
    or by one of the walking flips it defers to. *)
Theorem arith8_complete eff_map buf i x j d :
  bytes buf -> buf !! i = Some x -> flagged eff_map 1 i = true ->
  1 <= j <= ARITH_MAX -> d = j \/ d = - j ->
  <[i := u8 (x + d)]> buf ∈ det_cands eff_map buf.
Proof.
  intros Hb Hx Hf Hj Hd. pose proof (lookup_lt_Some _ _ _ Hx) as Hi.
  pose proof (proj1 (Forall_lookup _ _) Hb _ _ Hx) as Hbx. pose proof Hbx as Hbx'. unfold is_byte in Hbx'.
  set (r := u8 (x .^ (x + d))). set (v := u8 (x + d)).
  assert (Hr : r = x .^ v).
  { unfold r, v. apply Z.bits_inj'; intros n Hn. rewrite uwrap_testbit, !Z.lxor_spec, uwrap_testbit by lia.
    destruct (Z.ltb_spec n 8); [done|]. now rewrite (testbit_high 8 x) by lia. }
  assert (Hv : 0 <= v < 256) by (apply (uwrap_range 8); lia).
  unfold det_cands. destruct (flip_seen r) eqn:Es.
  - apply flip_seen_walking in Es; [|apply (uwrap_range 8); lia].
    assert (Hr0 : r <> 0).
    { intros E. rewrite Hr in E. apply Z.lxor_eq in E. unfold v, uwrap, ARITH_MAX in *.
      destruct Hd as [-> | ->]; dlia. }
    pose proof (walking_mask_cands i x r buf Hx Hbx Es Hr0) as Hw.
    assert (Ev : x .^ r = v) by (rewrite Hr, <- Z.lxor_assoc, Z.lxor_nilpotent, Z.lxor_0_l; done).
    rewrite Ev in Hw. rewrite !elem_of_app in Hw. rewrite !elem_of_app. tauto.
  - rewrite !elem_of_app. do 6 right. left. unfold piece_cands.
    apply (elem_of_concat_map _ _ i); [apply elem_of_seq; lia|]. rewrite Hf.
    unfold arith_cands. rewrite (le_load_1 _ _ _ Hx).
    apply (elem_of_concat_map _ _ j); [apply elem_of_seqZ; lia|].
    apply (elem_of_concat_map _ _ (true, r, v)).
    + unfold r, v, arith8_tries. destruct Hd as [-> | ->]; [left|right; rewrite Z.sub_opp_r || rewrite <- Z.add_opp_r; left].
    + cbn [fst snd andb]. rewrite Es. cbn [negb try_cand].
      rewrite write_at_1, uwrap_id by lia. left.
Qed.

Lemma arith8_complete_witness :
  <[1%nat := u8 (0x05 + - 20)]> [0xE0; 0x05] ∈ det_cands [1] [0xE0; 0x05].
Proof.
  apply (arith8_complete [1] [0xE0; 0x05] 1 0x05 20 (- 20));
    [now apply bytesb_spec|reflexivity|reflexivity|unfold ARITH_MAX; lia|now right].
Defined.

(** The filter does lose word-sized additions: 0x00e0 + 32 = 0x0100 in
    little endian is a legal step of "arith 16/8", which defers it to the
    bit flips because the words differ in four consecutive bits; but the
    flips walk from each byte's most significant bit and do not make that
    change, and neither does any other stage. *)
Theorem arith16_gap :
  write_at 0 (le_store 2 (0xE0 + 32)) [0xE0; 0x00] ∉ det_cands [1] [0xE0; 0x00].
Proof. apply (bool_decide_unpack _). vm_compute. exact I. Qed.
