(* ===== verification/EffMap.v ===== *)
(** The effector map: which blocks of eight bytes "bitflip 8/8" finds to
    matter. *)

From S2P Require Import Prelude Words Arith Float Bitmap State Rand Dedup Extras Stages StagesRun StagesThms StagesArith.

Section EffMap.
Context {W : Type} `{Target W}.
Context (non_instrumented_mode : bool).
Implicit Types s : fz W.

(** Run the test cases and collect the checksum each one leaves; [None] when
    one abandons the entry. *)
Fixpoint probes (w : W) (cs : list (list Z)) : res (W * option (list Z)) :=
  match cs with
  | [] => Ok (w, Some [])
  | c :: cs =>
      '(w, abandon) ← common_fuzz_stuff w c;
      if abandon : bool then Ok (w, None) else
      '(w', r) ← probes w cs;
      Ok (w', match r with Some ks => Some (trace_cksum w :: ks) | None => None end)
  end.

Lemma probes_length w cs w' ks : probes w cs = Ok (w', Some ks) -> length ks = length cs.
Proof.
  revert w w' ks; induction cs as [|c cs IH]; intros w w' ks E; cbn [probes] in E.
  { now injection E as <- <-. }
  apply bind_ok in E as ([w1 ab] & _ & E). destruct ab; [discriminate|].
  apply bind_ok in E as ([w2 [r|]] & E2 & E); [|discriminate]. injection E as <- <-.
  cbn [length]. now rewrite (IH _ _ _ E2).
Qed.

(** ** The map, purely *)

(** Flipping the byte of this checksum moved the trace; short inputs and
    uninstrumented targets are taken to be all sensitive. *)
Definition moved (clean : Z) (len : nat) (k : Z) : bool :=
  if negb non_instrumented_mode && (EFF_MIN_LEN <=? Z.of_nat len) then negb (k =? clean) else true.

Definition fixed_block (len b : nat) : bool := bool_decide (b = 0)%nat || bool_decide (b = EFF_APOS (len - 1)).

(** Some position below [n] of block [b] moved the trace. *)
Definition moved_block (clean : Z) (len : nat) (ks : list Z) (n b : nat) : bool :=
  existsb (fun c => bool_decide (EFF_APOS c = b) && moved clean len (nth c ks 0)) (seq 0 n).

Definition eff_flag (stale : list Z) (clean : Z) (len : nat) (ks : list Z) (n b : nat) : bool :=
  fixed_block len b || truthy (nth b stale 0) || moved_block clean len ks n b.

(** The blocks the code counts: a stale flag hides its block. *)
Definition eff_counted (stale : list Z) (clean : Z) (len : nat) (ks : list Z) (n b : nat) : bool :=
  fixed_block len b || (negb (truthy (nth b stale 0)) && moved_block clean len ks n b).

Definition eff_count (stale : list Z) (clean : Z) (len : nat) (ks : list Z) (n : nat) : Z :=
  zsum (fun b => b2z (eff_counted stale clean len ks n b)) (seq 0 (EFF_ALEN len)).

Definition eff_inv (stale : list Z) (clean : Z) (len : nat) (ks : list Z) (n : nat) (st : list Z * Z) : Prop :=
  length st.1 = EFF_ALEN len /\
  (forall b, (b < EFF_ALEN len)%nat -> truthy (nth b st.1 0) = eff_flag stale clean len ks n b) /\
  st.2 = eff_count stale clean len ks n.

Lemma moved_block_S clean len ks n b :
  moved_block clean len ks (S n) b =
  moved_block clean len ks n b || (bool_decide (EFF_APOS n = b) && moved clean len (nth n ks 0)).
Proof. unfold moved_block. rewrite seq_S, existsb_app. cbn [existsb]. now rewrite orb_false_r. Qed.

Lemma lnot64_ne x : 0 <= x < 2 ^ 64 -> u64 (Z.lnot x) <> x.
Proof.
  intros Hx E. apply (f_equal (fun y => Z.testbit y 0)) in E. revert E.
  rewrite uwrap_testbit, Z.lnot_spec by lia. cbn [Z.ltb Z.compare andb]. now destruct (Z.testbit x 0).
Qed.

Lemma eff_note_moved clean len k st c :
  0 <= clean < 2 ^ 64 ->
  eff_note non_instrumented_mode clean len k st c =
  (e ← rd st.1 (EFF_APOS c);
   if truthy e || negb (moved clean len k) then Ok st
   else m ← wr st.1 (EFF_APOS c) 1; Ok (m, u32 (st.2 + 1))).
Proof.
  intros Hc. destruct st as [m n]. unfold eff_note, moved. cbn [fst snd].
  destruct (rd m (EFF_APOS c)) as [e|]; [|done]. cbn [mbind res_bind].
  destruct (truthy e); [done|]. cbn [orb]. destruct (negb _ && _).
  - now rewrite negb_involutive.
  - now rewrite (proj2 (Z.eqb_neq _ _) (lnot64_ne clean Hc)).
Qed.

Lemma eff_count_range stale clean len ks n :
  0 <= eff_count stale clean len ks n <= Z.of_nat (EFF_ALEN len).
Proof.
  unfold eff_count. split; [apply zsum_count_nonneg|].
  etransitivity; [apply zsum_count_bound|]. now rewrite length_seq.
Qed.

Lemma EFF_ALEN_le len : (8 * EFF_ALEN len <= len + 7)%nat.
Proof.
  unfold EFF_ALEN. pose proof (Nat.div_mod_eq len 8). pose proof (Nat.mod_upper_bound len 8).
  case_bool_decide; lia.
Qed.

(** One more position. *)
Lemma eff_note_inv stale clean len ks n st :
  0 <= clean < 2 ^ 64 -> (n < len)%nat -> Z.of_nat len < 2 ^ 32 ->
  eff_inv stale clean len ks n st ->
  exists st', eff_note non_instrumented_mode clean len (nth n ks 0) st n = Ok st' /\
    eff_inv stale clean len ks (S n) st'.
Proof.
  intros Hc Hn Hlen (Hl & Hf & Hcnt). rewrite eff_note_moved by done.
  pose proof (eff_apos_lt n len Hn) as Ha. set (a := EFF_APOS n) in *.
  destruct (rd_lt st.1 a) as (e & Ee & Le); [lia|]. rewrite Ee. cbn [mbind res_bind].
  pose proof (Hf a Ha) as Hfa. rewrite (nth_lookup_Some _ _ 0 _ Le) in Hfa.
  assert (Hne : forall b, b <> a -> moved_block clean len ks (S n) b = moved_block clean len ks n b).
  { intros b Hb. rewrite moved_block_S. fold a. rewrite (bool_decide_eq_false_2 (a = b)) by done. apply orb_false_r. }
  assert (Hsame : moved_block clean len ks (S n) a = moved_block clean len ks n a || moved clean len (nth n ks 0)).
  { rewrite moved_block_S. fold a. now rewrite (bool_decide_eq_true_2 (a = a)). }
  assert (Hpt : eff_count stale clean len ks (S n) = eff_count stale clean len ks n
    - b2z (eff_counted stale clean len ks n a) + b2z (eff_counted stale clean len ks (S n) a)).
  { unfold eff_count. apply (zsum_point (fun b => b2z (eff_counted stale clean len ks n b))
      (fun b => b2z (eff_counted stale clean len ks (S n) b))); [done|]. intros b Hb. unfold eff_counted. now rewrite Hne. }
  unfold eff_flag, eff_counted in *. rewrite Hsame in Hpt.
  assert (Hothers : forall b, b <> a -> fixed_block len b || truthy (nth b stale 0) || moved_block clean len ks (S n) b
    = fixed_block len b || truthy (nth b stale 0) || moved_block clean len ks n b) by (intros; now rewrite Hne).
  destruct (truthy e || negb (moved clean len (nth n ks 0))) eqn:Et.
  - exists st. split; [done|]. split; [done|]. split.
    + intros b Hb. unfold eff_flag. destruct (decide (b = a)) as [->|]; [|now rewrite Hothers, Hf].
      rewrite Hsame, (Hf a Ha). destruct (fixed_block len a), (truthy (nth a stale 0)),
        (moved_block clean len ks n a), (moved clean len (nth n ks 0)), (truthy e); done.
    + rewrite Hpt, Hcnt. destruct (fixed_block len a), (truthy (nth a stale 0)),
        (moved_block clean len ks n a), (moved clean len (nth n ks 0)), (truthy e); cbn in *; (done || lia).
  - apply orb_false_iff in Et as [He Em%negb_false_iff]. rewrite He in Hfa. symmetry in Hfa.
    apply orb_false_iff in Hfa as [Hfa Hma]. apply orb_false_iff in Hfa as [Hxa Hsa].
    rewrite wr_lt by lia. cbn [mbind res_bind]. eexists. split; [reflexivity|].
    unfold eff_inv. cbn [fst snd]. split; [now rewrite length_insert|].
    rewrite Hxa, Hsa, Hma, Em in Hpt. cbn [b2z orb andb negb] in Hpt. split.
    + intros b Hb. unfold eff_flag. destruct (decide (b = a)) as [->|].
      * rewrite Hsame, Em. rewrite (nth_lookup_Some _ _ 0 1) by (apply list_lookup_insert_eq; lia).
        now rewrite !orb_true_r.
      * rewrite Hothers, <- Hf by done. now rewrite !nth_lookup, list_lookup_insert_ne by done.
    + rewrite Hcnt. pose proof (eff_count_range stale clean len ks (S n)) as B. pose proof (EFF_ALEN_le len).
      rewrite uwrap_id by lia. lia.
Qed.

(** Before any position. *)
Lemma eff_init_inv stale clean len ks :
  (0 < len)%nat -> (EFF_ALEN len <= length stale)%nat ->
  exists st, eff_init stale len = Ok st /\ eff_inv stale clean len ks 0 st.
Proof.
  intros Hlen Hs. pose proof (eff_apos_lt 0 len Hlen) as H0. change (EFF_APOS 0) with O in H0.
  pose proof (eff_apos_lt (len - 1) len ltac:(lia)) as Ha.
  assert (Hl : length (take (EFF_ALEN len) stale) = EFF_ALEN len) by (rewrite length_take; lia).
  assert (Hcnt : eff_count stale clean len ks 0 = if bool_decide (EFF_APOS (len - 1) <> 0)%nat then 2 else 1).
  { unfold eff_count.
    rewrite (zsum_ext _ (fun b => b2z (fixed_block len b))).
    2: { intros b _. unfold eff_counted, moved_block. cbn [seq existsb]. now rewrite andb_false_r, orb_false_r. }
    set (g1 := fun b => b2z (bool_decide (b = 0)%nat)).
    assert (E1 : zsum g1 (seq 0 (EFF_ALEN len)) = 1).
    { rewrite (zsum_point (fun _ => 0) g1 _ 0) by (done || (intros b Hb; unfold g1; now rewrite bool_decide_eq_false_2)).
      rewrite zsum_zero by done. unfold g1. now rewrite bool_decide_eq_true_2. }
    case_bool_decide as Hlast.
    - rewrite (zsum_point g1 _ _ (EFF_APOS (len - 1))) by (done ||
        (intros b Hb; unfold fixed_block, g1; rewrite (bool_decide_eq_false_2 (b = EFF_APOS _)) by done; now rewrite orb_false_r)).
      rewrite E1. unfold g1, fixed_block. rewrite (bool_decide_eq_false_2 (EFF_APOS (len - 1) = 0)%nat) by done.
      now rewrite bool_decide_eq_true_2.
    - rewrite (zsum_ext _ g1), E1; [done|]. intros b _. unfold fixed_block, g1.
      destruct (decide (EFF_APOS (len - 1) = 0%nat)) as [->|]; [now rewrite orb_diag|done]. }
  unfold eff_init. rewrite wr_lt by lia. cbn [mbind res_bind].
  assert (Hflag : forall m b, (b < EFF_ALEN len)%nat ->
    m !! b = (if fixed_block len b then Some 1 else stale !! b) ->
    truthy (nth b m 0) = eff_flag stale clean len ks 0 b).
  { intros m b Hb Hm. unfold eff_flag, moved_block. cbn [seq existsb]. rewrite orb_false_r.
    rewrite nth_lookup, Hm. destruct (fixed_block len b); [done|]. cbn [orb]. now rewrite nth_lookup. }
  case_bool_decide as Hlast.
  - rewrite wr_lt by (rewrite length_insert; lia). cbn [mbind res_bind]. eexists. split; [reflexivity|].
    unfold eff_inv. cbn [fst snd]. rewrite !length_insert. split; [done|]. split; [|done].
    intros b Hb. apply Hflag; [done|]. unfold fixed_block.
    destruct (decide (b = EFF_APOS (len - 1))) as [->|Hb2].
    + rewrite list_lookup_insert_eq by (rewrite length_insert; lia).
      now rewrite (bool_decide_eq_true_2 (EFF_APOS _ = EFF_APOS _)), orb_true_r.
    + rewrite list_lookup_insert_ne by done. rewrite (bool_decide_eq_false_2 _ Hb2), orb_false_r.
      destruct (decide (b = 0)%nat) as [->|Hb0].
      * rewrite list_lookup_insert_eq by lia. done.
      * rewrite list_lookup_insert_ne, lookup_take_lt by done. now rewrite bool_decide_eq_false_2.
  - eexists. split; [reflexivity|]. unfold eff_inv. cbn [fst snd]. rewrite length_insert.
    split; [done|]. split; [|done]. intros b Hb. apply Hflag; [done|]. unfold fixed_block.
    assert (Hz : EFF_APOS (len - 1) = O) by lia.
    rewrite Hz, orb_diag. destruct (decide (b = 0)%nat) as [->|Hb0].
    + rewrite list_lookup_insert_eq by lia. done.
    + rewrite list_lookup_insert_ne, lookup_take_lt by done. now rewrite bool_decide_eq_false_2.
Qed.

(** The positions in turn. *)
Lemma eff_notes_inv stale clean len ks n st :
  0 <= clean < 2 ^ 64 -> Z.of_nat len < 2 ^ 32 -> (n <= len)%nat ->
  eff_inv stale clean len ks 0 st ->
  exists st', rfold (fun st c => eff_note non_instrumented_mode clean len (nth c ks 0) st c) st (seq 0 n) = Ok st' /\
    eff_inv stale clean len ks n st'.
Proof.
  intros Hc Hlen Hn Hi. induction n as [|n IH]; [eauto|].
  destruct (IH ltac:(lia)) as (st1 & E1 & H1).
  destruct (eff_note_inv _ _ _ _ _ _ Hc Hn Hlen H1) as (st2 & E2 & H2).
  exists st2. rewrite seq_S, rfold_app, E1. cbn [mbind res_bind rfold Nat.add]. now rewrite E2.
Qed.

(** ** The stage *)

Definition walking_body (clean : Z) (len : nat) (st : list Z * Z) (c : nat) : M W (list Z * Z) :=
  _ ← set_stage_cur (Z.of_nat c);
  _ ← flip_bytes 1 c;
  _ ← exec;
  s ← get;
  st ← lift (eff_note non_instrumented_mode clean len (trace_cksum (world s)) st c);
  _ ← flip_bytes 1 c;
  mret st.

Lemma flip_bytes_self k i s :
  bytes (out_buf s) -> (i + k <= length (out_buf s))%nat ->
  flip_bytes k i s = Ok (with_buf (invert_cand k i (out_buf s)) s, Some tt).
Proof.
  intros Hb Hi. pose proof (piece_at_self k i s Hb Hi) as Es.
  pose proof (flip_bytes_piece k i (out_buf s) _ s (piece_bound k i (out_buf s) Hb) Hi) as Hf.
  rewrite Es in Hf. exact Hf.
Qed.

Lemma flip_bytes_back k i s :
  bytes (out_buf s) -> (i + k <= length (out_buf s))%nat ->
  flip_bytes k i (with_buf (invert_cand k i (out_buf s)) s) = Ok (s, Some tt).
Proof.
  intros Hb Hi. pose proof (piece_at_self k i s Hb Hi) as Es.
  pose proof (piece_bound k i (out_buf s) Hb) as Hv.
  pose proof (flip_bytes_piece k i (out_buf s) _ s (lxor_ones_range (8 * Z.of_nat k) _ ltac:(lia) Hv) Hi) as Hf.
  rewrite lxor_twice, Es in Hf. exact Hf.
Qed.

Lemma walking_body_run clean st st' x c mx w w1 s :
  bytes (out_buf s) -> (x < length (out_buf s))%nat ->
  common_fuzz_stuff w (invert_cand 1 x (out_buf s)) = Ok (w1, false) ->
  eff_note non_instrumented_mode clean (length (out_buf s)) (trace_cksum w1) st x = Ok st' ->
  walking_body clean (length (out_buf s)) st x (with_world w (with_stage c mx s)) =
  Ok (with_world w1 (with_stage (Z.of_nat x) mx s), Some st').
Proof.
  intros Hb Hx Hr Hn. unfold walking_body, set_stage_cur. rewrite bind_assoc, bind_get, bind_put.
  set (s1 := with_stage (Z.of_nat x) _ _).
  erewrite bind_ok_step by (apply flip_bytes_self; [exact Hb|cbn; lia]).
  unfold exec, exec_buf. rewrite bind_assoc, bind_get, run_bind.
  cbn [world out_buf with_buf with_world with_stage s1]. rewrite Hr. cbn [mbind res_bind].
  rewrite bind_get. cbn [world with_world]. rewrite Hn, bind_lift.
  erewrite bind_ok_step by
    exact (flip_bytes_back 1 x (with_world w1 (with_stage (Z.of_nat x) mx s)) Hb ltac:(cbn; lia)).
  reflexivity.
Qed.

Lemma walking_loop_run clean (kf : nat -> Z) l st st' c mx w w' s :
  bytes (out_buf s) -> Forall (fun x => x < length (out_buf s))%nat l ->
  probes w (map (fun i => invert_cand 1 i (out_buf s)) l) = Ok (w', Some (map kf l)) ->
  rfold (fun st c => eff_note non_instrumented_mode clean (length (out_buf s)) (kf c) st c) st l = Ok st' ->
  exists c', for_with l st (walking_body clean (length (out_buf s))) (with_world w (with_stage c mx s)) =
    Ok (with_world w' (with_stage c' mx s), Some st').
Proof.
  intros Hb. revert st c w. induction l as [|x l IH]; intros st c w Hl Hp Hn; cbn [map probes rfold for_with] in *.
  { injection Hp as ->. injection Hn as ->. eauto. }
  apply Forall_cons in Hl as [Hx Hl]. apply bind_ok in Hp as ([w1 ab] & Er & Hp). destruct ab; [discriminate|].
  apply bind_ok in Hp as ([w2 [ks|]] & Ep & Hp); [|discriminate]. injection Hp as -> Ek Eks. subst ks.
  apply bind_ok in Hn as (st1 & E1 & Hn). rewrite <- Ek in E1.
  erewrite bind_ok_step by (eapply walking_body_run; eauto).
  exact (IH st1 _ w1 Hl Ep Hn).
Qed.

Lemma map_nth_all (ks : list Z) : map (fun c => nth c ks 0) (seq 0 (length ks)) = ks.
Proof.
  induction ks as [|k ks IH]; [done|]. cbn [length seq map nth]. f_equal.
  rewrite <- seq_shift, map_map. exact IH.
Qed.

(** The density test. *)
Definition dense (n alen : Z) : bool := negb (n =? alen) && (EFF_MAX_PERC <? n * 100 / alen).

(** C35: "bitflip 8/8" flags exactly the blocks in which inverting some byte
    moved the trace, with the first and the last - and the blocks the
    reallocated map happened to flag before; every block on inputs shorter
    than [EFF_MIN_LEN] and on uninstrumented targets; and all of them when
    more than [EFF_MAX_PERC] per cent were counted.  The buffer is put back. *)
Theorem walking_byte_correct stale clean s w ks :
  let len := length (out_buf s) in
  bytes (out_buf s) -> (0 < len)%nat -> Z.of_nat len < 2 ^ 28 -> (EFF_ALEN len <= length stale)%nat ->
  0 <= clean < 2 ^ 64 -> has_stage s 3 ->
  probes (world s) (map (fun i => invert_cand 1 i (out_buf s)) (seq 0 len)) = Ok (w, Some ks) ->
  exists s' eff_map, walking_byte non_instrumented_mode stale clean s = Ok (s', Some eff_map) /\
    world s' = w /\ out_buf s' = out_buf s /\ length eff_map = EFF_ALEN len /\
    let full := dense (eff_count stale clean len ks len) (Z.of_nat (EFF_ALEN len)) in
    forall b, (b < EFF_ALEN len)%nat ->
      truthy (nth b eff_map 0) = full || eff_flag stale clean len ks len b.
Proof.
  intros len Hb Hlen0 Hlen Hst Hc Hs Hp.
  pose proof (probes_length _ _ _ _ Hp) as Hks. rewrite length_map, length_seq in Hks.
  destruct (eff_init_inv stale clean len ks Hlen0 Hst) as (st0 & E0 & H0).
  destruct (eff_notes_inv stale clean len ks len st0 Hc ltac:(lia) ltac:(lia) H0) as (st & En & Hl & Hf & Hcnt).
  rewrite <- (map_nth_all ks), Hks in Hp.
  destruct (walking_loop_run clean (fun c => nth c ks 0) (seq 0 len) st0 st 0 (u32 (Z.of_nat len)) (world s) w s Hb)
    as [c' El]; [apply Forall_seq; intros; lia|exact Hp|exact En|].
  unfold walking_byte. rewrite bind_get. fold len. rewrite E0, bind_lift.
  unfold begin_stage. rewrite bind_assoc, bind_get, bind_assoc, bind_put, bind_ret.
  erewrite bind_ok_step by exact El.
  unfold set_stage_cur. rewrite bind_assoc, bind_get, bind_put.
  unfold eff_finish. destruct st as [m n]. cbn [fst snd] in *. rewrite bind_assoc, bind_get, bind_assoc, bind_put, bind_ret.
  pose proof (eff_count_range stale clean len ks len) as B. pose proof (EFF_ALEN_le len) as HA.
  rewrite Hcnt, (uwrap_id 32) by lia. fold (dense (eff_count stale clean len ks len) (Z.of_nat (EFF_ALEN len))).
  erewrite bind_ok_step by (apply end_stage_ok; exact Hs).
  eexists _, _. split; [reflexivity|]. split; [done|]. split; [done|].
  destruct (dense _ _).
  - split; [now rewrite length_replicate|]. intros b Hbl. now rewrite nth_replicate_lt.
  - split; [done|]. intros b Hbl. now apply Hf.
Qed.
End EffMap.

(** A target that reads byte 40 of 130. *)
Definition read_40 : Target (list (list Z)) := recorder (fun c => nth 40 c 0).
Definition file_130 : list Z := replicate 130 0.
Definition probed_130 : list (list Z) * list Z :=
  match @probes _ read_40 [] (map (fun i => invert_cand 1 i file_130) (seq 0 130)) with
  | Ok (w, Some ks) => (w, ks)
  | _ => ([], [])
  end.

Lemma walking_byte_correct_witness :
  exists s' eff_map,
    @walking_byte _ read_40 false (replicate 17 0) 0 (fz0 file_130) = Ok (s', Some eff_map) /\
    world s' = probed_130.1 /\ out_buf s' = file_130 /\ length eff_map = 17%nat /\
    let full := dense (eff_count false (replicate 17 0) 0 130 probed_130.2 130) 17 in
    forall b, (b < 17)%nat ->
      truthy (nth b eff_map 0) = full || eff_flag false (replicate 17 0) 0 130 probed_130.2 130 b.
Proof.
  apply (@walking_byte_correct _ read_40 false (replicate 17 0) 0 (fz0 file_130) probed_130.1 probed_130.2);
    [now apply bytesb_spec|apply Nat.ltb_lt; reflexivity|apply Z.ltb_lt; reflexivity|
     apply Nat.leb_le; reflexivity|lia|split; cbn; lia|vm_compute; reflexivity].
Defined.
