(* ===== verification/StagesDictThms.v ===== *)
(** What the dictionary stages run. *)

From stdpp Require Import sorting.
From S2P Require Import Prelude Words Arith Float Bitmap State Text Rand Dedup Extras Stages StagesDict StagesRun StagesThms.

(** ** Pure descriptions *)

Section Pure.
Context (eff_map buf : list Z).

(** Some block the token covers is flagged. *)
Definition span_flagged (i : nat) (tok : list Z) : bool :=
  existsb (fun b => nth b eff_map 0 =? 1) (seq (EFF_APOS i) (EFF_SPAN_ALEN i (length tok))).

Definition usable (i : nat) (tok : list Z) : bool :=
  bool_decide (i + length tok <= length buf)%nat && span_flagged i tok.

(** The list without the elements that repeat the one before them. *)
Fixpoint changes (cur : list Z) (l : list (list Z)) : list (list Z) :=
  match l with
  | [] => []
  | b :: l => if bool_decide (b = cur) then changes cur l else b :: changes b l
  end.

(** Every usable token written over the original input at [i], without
    executing the same input twice in a row. *)
Definition over_cands (toks : list (list Z)) (i : nat) : list (list Z) :=
  changes buf (map (fun t => write_at i t buf) (List.filter (usable i) toks)).

Definition inserted (i : nat) (tok : list Z) : list Z := take i buf ++ tok ++ drop i buf.

Definition insert_cands (toks : list (list Z)) (i : nat) : list (list Z) :=
  map (inserted i) (List.filter (fun t => Z.of_nat (length buf + length t) <=? MAX_FILE) toks).
End Pure.

Lemma changes_complete cur l b : b ∈ l -> b = cur \/ b ∈ changes cur l.
Proof.
  revert cur; induction l as [|x l IH]; intros cur Hb; [now apply not_elem_of_nil in Hb|].
  cbn [changes]. case_bool_decide as Hx; apply elem_of_cons in Hb as [->|Hb].
  - now left.
  - auto.
  - right. left.
  - destruct (IH x Hb) as [->|]; [right; left|right; now right].
Qed.

Lemma memchr_1_ok eff_map p n :
  (p + n <= length eff_map)%nat ->
  memchr_1 eff_map p n = Ok (existsb (fun b => nth b eff_map 0 =? 1) (seq p n)).
Proof.
  revert p; induction n as [|n IH]; intros p Hp; [done|]. cbn [memchr_1 seq existsb].
  destruct (rd_lt eff_map p ltac:(lia)) as (e & E & L). rewrite E. cbn [mbind res_bind].
  rewrite (nth_lookup_Some _ _ 0 _ L). destruct (e =? 1); [done|]. rewrite IH by lia. done.
Qed.

Lemma span_bound i n len :
  (0 < n)%nat -> (i + n <= len)%nat -> (EFF_APOS i + EFF_SPAN_ALEN i n <= EFF_ALEN len)%nat.
Proof.
  intros Hn Hi. unfold EFF_SPAN_ALEN. pose proof (eff_apos_lt (i + n - 1) len ltac:(lia)).
  assert (EFF_APOS i <= EFF_APOS (i + n - 1))%nat by (unfold EFF_APOS; apply Nat.Div0.div_le_mono; lia). lia.
Qed.

Lemma write_at_over i a b buf :
  (length a <= length b)%nat -> (i + length b <= length buf)%nat ->
  write_at i b (write_at i a buf) = write_at i b buf.
Proof.
  intros Hl Hi. unfold write_at.
  rewrite take_app_le, take_take by (rewrite length_take; lia). f_equal; [f_equal; lia|]. f_equal.
  rewrite app_assoc, drop_app_ge by (rewrite length_app, length_take; lia).
  rewrite length_app, length_take, drop_drop. f_equal. lia.
Qed.

Lemma write_at_nil i buf : (i <= length buf)%nat -> write_at i [] buf = buf.
Proof. intros Hi. unfold write_at. cbn [app length]. now rewrite Nat.add_0_r, take_drop. Qed.

(** What is there already need not be written. *)
Lemma write_at_idem i tok cur :
  (i + length tok <= length cur)%nat -> take (length tok) (drop i cur) = tok <-> write_at i tok cur = cur.
Proof.
  intros Hi. split.
  - intros E. rewrite <- E at 1. apply write_at_same. done.
  - intros E. rewrite <- E. now apply piece_write_at.
Qed.

Section Dictionary.
Context {W : Type} `{Target W}.
Context (max_det_extras : Z) (prob : bool) (cnt : Z).
Context (Hdet : prob && (max_det_extras <? cnt) = false).
Implicit Types s : fz W.

(** ** Overwriting *)

Lemma over_skip_ok eff_map i tok s :
  (0 < length tok)%nat -> length eff_map = EFF_ALEN (length (out_buf s)) -> (i <= length (out_buf s))%nat ->
  over_skip max_det_extras prob cnt eff_map i tok s =
  Ok (s, Some (negb (usable eff_map (out_buf s) i tok) ||
               bool_decide (take (length tok) (drop i (out_buf s)) = tok))).
Proof.
  intros Hn Hl Hi. unfold over_skip. rewrite Hdet. cbn [mbind res_bind]. unfold usable.
  destruct (decide (i + length tok <= length (out_buf s))%nat) as [Hfit|Hfit].
  - rewrite (bool_decide_eq_false_2 (_ < _)%nat), (bool_decide_eq_true_2 _ Hfit) by lia. cbn [andb].
    case_bool_decide; [now rewrite orb_true_r|]. rewrite orb_false_r.
    rewrite memchr_1_ok by (rewrite Hl; now apply span_bound). reflexivity.
  - rewrite (bool_decide_eq_true_2 (_ < _)%nat), (bool_decide_eq_false_2 _ Hfit) by lia. done.
Qed.

Lemma over_token_skip eff_map i last_len tok c m s :
  over_skip max_det_extras prob cnt eff_map i tok (counted c m s) = Ok (counted c m s, Some true) ->
  over_token max_det_extras prob cnt eff_map i last_len tok (counted c m s) =
  Ok (counted c (m - 1) s, Some last_len).
Proof.
  intros E. unfold over_token. erewrite bind_ok_step by exact E.
  cbv beta iota. erewrite bind_ok_step by apply stage_less_counted. reflexivity.
Qed.

Lemma does_over_token eff_map i last_len tok c m s w :
  over_skip max_det_extras prob cnt eff_map i tok (with_world w (counted c m s)) =
    Ok (with_world w (counted c m s), Some false) ->
  (i + length tok <= length (out_buf s))%nat ->
  does (over_token max_det_extras prob cnt eff_map i last_len tok) (with_world w (counted c m s))
    [write_at i tok (out_buf s)] (counted (c + 1) m (with_buf (write_at i tok (out_buf s)) s)) (length tok).
Proof.
  intros E Hi. unfold over_token. eapply does_step; [exact E|done|]. cbv beta.
  set (s' := with_buf (write_at i tok (out_buf s)) s).
  eapply (does_step _ _ _ (with_world w (counted c m s')) tt); [|done|].
  { unfold memcpy_out. rewrite bind_get. cbn [out_buf with_world counted with_stage].
    rewrite (bool_decide_eq_true_2 _ Hi). reflexivity. }
  eapply does_bind_nil; [apply does_exec|]. intros w1.
  eapply does_bind_nil; [eapply (does_count c m s')|]. intros w2. eapply does_forget, does_ret.
Qed.

Section Position.
Context (eff_map : list Z) (i : nat) (s : fz W).
Context (Hl : length eff_map = EFF_ALEN (length (out_buf s))).
Let B (prev : list Z) : fz W := with_buf (write_at i prev (out_buf s)) s.

Definition by_len (a b : list Z) : Prop := (length a <= length b)%nat.

Lemma does_over_tokens toks :
  Sorted by_len toks -> Forall (fun t => 0 < length t)%nat toks ->
  forall prev c m, (i + length prev <= length (out_buf s))%nat -> Forall (by_len prev) toks ->
  let g := changes (write_at i prev (out_buf s))
             (map (fun t => write_at i t (out_buf s)) (List.filter (usable eff_map (out_buf s) i) toks)) in
  exists prev', (i + length prev' <= length (out_buf s))%nat /\ forall w,
    does (for_with toks (length prev) (over_token max_det_extras prob cnt eff_map i))
      (with_world w (counted c m (B prev))) g
      (counted (c + len_of g) (m - (len_of toks - len_of g)) (B prev')) (length prev').
Proof.
  intros Hsort%Sorted_StronglySorted; [|intros x y z; unfold by_len; lia].
  induction Hsort as [|tok toks _ IH Htoks]; intros Hpos prev c m Hfit Hprev; cbn [List.filter map changes for_with].
  { exists prev. split; [done|]. intros w. eapply does_counted; [eapply does_forget, does_ret|unfold len_of; cbn [length]; lia..]. }
  apply Forall_cons in Hpos as [Hn Hpos]. apply Forall_cons in Hprev as [Hlen Hprev]. unfold by_len in Hlen.
  assert (Hwl : length (write_at i prev (out_buf s)) = length (out_buf s)) by now apply length_write_at.
  assert (Eskip : forall w, over_skip max_det_extras prob cnt eff_map i tok (with_world w (counted c m (B prev))) =
    Ok (with_world w (counted c m (B prev)), Some (negb (usable eff_map (out_buf s) i tok) ||
        bool_decide (write_at i tok (out_buf s) = write_at i prev (out_buf s))))).
  { intros w. rewrite over_skip_ok; [|done|cbn; rewrite Hwl; done|cbn; rewrite Hwl; lia].
    cbn [out_buf with_world counted with_stage B with_buf].
    assert (Eu : usable eff_map (write_at i prev (out_buf s)) i tok = usable eff_map (out_buf s) i tok)
      by (unfold usable; now rewrite Hwl).
    rewrite Eu. do 3 f_equal. unfold usable.
    destruct (decide (i + length tok <= length (out_buf s))%nat) as [Hf|Hf];
      [|now rewrite (bool_decide_eq_false_2 _ Hf)].
    f_equal. apply bool_decide_ext. rewrite write_at_idem by (rewrite Hwl; done). now rewrite write_at_over. }
  destruct (usable eff_map (out_buf s) i tok) eqn:Eu; cbn [map changes negb orb] in *.
  - case_bool_decide as Esame.
    + destruct (IH Hpos prev c (m - 1) Hfit Hprev) as (prev' & Hf' & Hd). exists prev'. split; [done|]. intros w.
      eapply does_step; [exact (over_token_skip _ _ _ _ _ _ (with_world w (B prev)) (Eskip w))|done|].
      eapply does_counted; [apply (Hd w)|unfold len_of; cbn [length]; lia..].
    + assert (Hf : (i + length tok <= length (out_buf s))%nat)
        by (unfold usable in Eu; apply andb_true_iff in Eu as [Eu _]; now apply bool_decide_eq_true in Eu).
      destruct (IH Hpos tok (c + 1) m Hf Htoks) as (prev' & Hf' & Hd). exists prev'. split; [done|]. intros w.
      assert (EB : with_buf (write_at i tok (out_buf (B prev))) (B prev) = B tok)
        by (unfold B; cbn [out_buf with_buf]; now rewrite write_at_over).
      change (?b :: ?l) with ([b] ++ l).
      pose proof (does_over_token eff_map i (length prev) tok c m (B prev) w (Eskip w)) as Hone.
      rewrite EB in Hone. cbn [out_buf B with_buf] in Hone. rewrite write_at_over in Hone by done.
      eapply does_bind; [apply Hone; rewrite Hwl; exact Hf|]. intros w1.
      eapply does_counted; [apply (Hd w1)|unfold len_of; cbn [length app]; lia..].
  - destruct (IH Hpos prev c (m - 1) Hfit Hprev) as (prev' & Hf' & Hd). exists prev'. split; [done|]. intros w.
    eapply does_step; [exact (over_token_skip _ _ _ _ _ _ (with_world w (B prev)) (Eskip w))|done|].
    eapply does_counted; [apply (Hd w)|unfold len_of; cbn [length]; lia..].
Qed.
End Position.

Lemma extras_over_runs eff_map extras stage s :
  cnt = Z.of_nat (length extras) ->
  Sorted by_len extras -> Forall (fun t => 0 < length t)%nat extras ->
  length eff_map = EFF_ALEN (length (out_buf s)) -> has_stage s stage ->
  runs_stage (extras_over max_det_extras prob eff_map (out_buf s) extras stage) s stage
    (concat (map (over_cands eff_map (out_buf s) extras) (seq 0 (length (out_buf s))))).
Proof.
  intros Hcnt Hsort Hpos Hl Hs. unfold runs_stage. eapply does_to_eq; [apply bind_get|done|].
  rewrite <- Hcnt. apply counted_stage; [done|].
  assert (E : counted 0 (cnt * Z.of_nat (length (out_buf s))) s =
    with_world (world s) (counted 0 (cnt * Z.of_nat (length (out_buf s))) s)) by now destruct s.
  rewrite E. eapply does_counted; [apply (does_for_same _ _ (over_cands eff_map (out_buf s) extras) cnt)|
    lia|unfold len_of; rewrite length_seq; lia].
  intros i c m w Hi%elem_of_seq.
  assert (Ebuf : with_buf (write_at i [] (out_buf s)) s = s) by (rewrite write_at_nil by lia; now destruct s).
  destruct (does_over_tokens eff_map i s Hl extras Hsort Hpos [] c m) as (prev & Hf & Hd).
  { cbn [length]. lia. }
  { apply Forall_forall. intros t _. unfold by_len. cbn [length]. lia. }
  rewrite Ebuf, write_at_nil in Hd by lia. fold (over_cands eff_map (out_buf s) extras i) in Hd.
  eapply does_bind_nil; [apply Hd|]. intros w1. apply (does_forget _ _ _ w1), does_pure; [|done].
  unfold memcpy_out. rewrite bind_get. cbn [out_buf with_world counted with_stage with_buf].
  rewrite length_write_at, length_take, length_drop by lia.
  rewrite bool_decide_eq_true_2 by lia. unfold put. rewrite write_at_twice, write_at_same
    by (rewrite ?length_take, ?length_drop; lia).
  unfold len_of. rewrite <- Hcnt. now destruct s.
Qed.
End Dictionary.

(** ** Insertion *)

Section Insert.
Context {W : Type} `{Target W}.
Implicit Types s : fz W.

Lemma take_write_at i j bs l : (i <= j <= length l)%nat -> take i (write_at j bs l) = take i l.
Proof.
  intros Hi. unfold write_at. rewrite take_app_le by (rewrite length_take; lia). rewrite take_take. f_equal. lia.
Qed.

(** The head of the scratch buffer is that of the input. *)
Definition ex_ok (buf : list Z) (i : nat) (ex : list Z) : Prop :=
  take i ex = take i buf /\ (length buf + Z.to_nat MAX_DICT_FILE <= length ex)%nat.

Lemma ex_inserted buf i tok ex :
  (i <= length buf)%nat -> (length tok <= Z.to_nat MAX_DICT_FILE)%nat -> ex_ok buf i ex ->
  let ex' := write_at (i + length tok) (drop i buf) (write_at i tok ex) in
  ex_ok buf i ex' /\ take (length buf + length tok) ex' = inserted buf i tok.
Proof.
  intros Hi Ht [Htake Hlen] ex'.
  assert (H1 : length (write_at i tok ex) = length ex) by (apply length_write_at; lia).
  assert (H2 : length ex' = length ex).
  { unfold ex'. rewrite length_write_at; [done|]. rewrite H1, length_drop. lia. }
  split.
  - split; [|lia]. unfold ex'. rewrite !take_write_at by lia. exact Htake.
  - unfold ex', inserted. unfold write_at at 1.
    rewrite app_assoc, take_app_le by (rewrite length_app, length_take, length_drop; lia).
    rewrite take_ge by (rewrite length_app, length_take, length_drop; lia).
    rewrite app_assoc. f_equal. rewrite Nat.add_comm, <- Htake. unfold write_at.
    rewrite app_assoc, take_app_le by (rewrite length_app, length_take; lia).
    apply take_ge. rewrite length_app, length_take. lia.
Qed.

Definition insert_cand (buf : list Z) (i : nat) (tok : list Z) : list (list Z) :=
  if Z.of_nat (length buf + length tok) <=? MAX_FILE then [inserted buf i tok] else [].

Lemma does_insert_token i tok ex c m s :
  (i <= length (out_buf s))%nat -> (length tok <= Z.to_nat MAX_DICT_FILE)%nat -> ex_ok (out_buf s) i ex ->
  let g := insert_cand (out_buf s) i tok in
  exists ex', ex_ok (out_buf s) i ex' /\ forall w,
    does (insert_token i ex tok) (with_world w (counted c m s)) g
      (counted (c + len_of g) (m - (1 - len_of g)) s) ex'.
Proof.
  intros Hi Ht Hex g. destruct (ex_inserted _ _ _ _ Hi Ht Hex) as [Hex' Etake]. destruct Hex as [Htake Hlen].
  unfold g, insert_cand. clear g.
  destruct (Z.leb_spec (Z.of_nat (length (out_buf s) + length tok)) MAX_FILE) as [Hfit|Hfit].
  - eexists. split; [exact Hex'|]. intros w. unfold insert_token. eapply does_step; [reflexivity|done|]. cbv beta.
    cbn [out_buf with_world counted with_stage].
    rewrite (proj2 (Z.ltb_ge _ _)) by lia. unfold memcpy_ex.
    rewrite bool_decide_eq_true_2 by lia. eapply does_step; [reflexivity|done|]. cbv beta.
    rewrite bool_decide_eq_true_2 by (rewrite length_write_at, length_drop; lia).
    eapply does_step; [reflexivity|done|]. cbv beta. rewrite Etake.
    eapply (does_bind_nil _ _ _ _ _ tt); [apply does_exec_buf|]. intros w1. cbv beta.
    eapply does_counted; [eapply does_bind_nil; [apply (does_count c m s)|]; intros w2; eapply does_forget, does_ret|..];
      unfold len_of; cbn [length]; lia.
  - exists ex. split; [done|]. intros w. unfold insert_token. eapply does_step; [reflexivity|done|]. cbv beta.
    cbn [out_buf with_world counted with_stage]. rewrite (proj2 (Z.ltb_lt _ _)) by lia.
    eapply does_counted; [eapply does_bind_nil; [apply (does_skip 1 c m s)|]; intros w2; eapply does_forget, does_ret|..];
      unfold len_of; cbn [length]; lia.
Qed.

Lemma insert_cand_concat buf i toks : concat (map (insert_cand buf i) toks) = insert_cands buf toks i.
Proof.
  unfold insert_cands. induction toks as [|t toks IH]; [done|]. cbn [map concat List.filter].
  rewrite IH. unfold insert_cand. now destruct (_ <=? _).
Qed.

Lemma ex_ok_head buf i b ex :
  (i < length buf)%nat -> buf !! i = Some b -> ex_ok buf i ex -> ex_ok buf (S i) (<[i:=b]> ex).
Proof.
  intros Hi Hb [Ht Hl]. split; [|now rewrite length_insert].
  assert (Hi' : (i < length ex)%nat) by lia.
  rewrite (take_S_r _ _ b) by (now apply list_lookup_insert_eq). rewrite (take_S_r buf _ b Hb).
  rewrite take_insert_ge by lia. now rewrite Ht.
Qed.

(** What the outer loop keeps: before position [i] the head is in place. *)
Definition outer_inv (buf : list Z) (l : list nat) (ex : list Z) : Prop :=
  exists i, l = seq i (length l) /\ (i + length l = S (length buf))%nat /\
    (length buf + Z.to_nat MAX_DICT_FILE <= length ex)%nat /\ (l <> [] -> ex_ok buf i ex).

Lemma does_insert_position slack toks i l ex c m s :
  slack <> [] -> Forall (fun t => length t <= Z.to_nat MAX_DICT_FILE)%nat toks ->
  outer_inv (out_buf s) (i :: l) ex ->
  let g := insert_cands (out_buf s) toks i in
  exists ex', outer_inv (out_buf s) l ex' /\ forall w,
    does (ex ← for_with toks ex (insert_token i); b ← lift (rd (out_buf s ++ slack) i); lift (wr ex i b))
      (with_world w (counted c m s)) g (counted (c + len_of g) (m - (len_of toks - len_of g)) s) ex'.
Proof.
  intros Hslack Htoks (i' & El & Hsum & Hlen & Hex) g. cbn [length seq] in El, Hsum. injection El as <- El.
  specialize (Hex ltac:(done)).
  destruct (does_for_with (fun l ex => Forall (fun t => length t <= Z.to_nat MAX_DICT_FILE)%nat l /\ ex_ok (out_buf s) i ex)
    (insert_token i) (insert_cand (out_buf s) i) 1 s) with (l := toks) (st := ex) (c := c) (m := m)
    as (ex1 & [_ Hex1] & Hd); [|done|].
  { intros t l' ex1 c1 m1 [[Ht Hl']%Forall_cons H1].
    destruct (does_insert_token i t ex1 c1 m1 s ltac:(lia) Ht H1) as (ex2 & H2 & Hd). eauto. }
  rewrite insert_cand_concat in Hd.
  assert (Hb : exists b, (out_buf s ++ slack) !! i = Some b).
  { apply lookup_lt_is_Some_2. rewrite length_app. destruct slack; [done|]. cbn [length]. lia. }
  destruct Hb as [b Hb]. exists (<[i:=b]> ex1). split.
  - exists (S i). split; [done|]. split; [lia|]. rewrite length_insert. destruct Hex1 as [H1 H2]. split; [done|].
    intros Hl. destruct l as [|j l]; [done|]. cbn [length] in Hsum. apply ex_ok_head; [lia| |done].
    rewrite lookup_app_l in Hb by lia. exact Hb.
  - intros w. eapply does_bind_nil; [apply Hd|]. intros w1.
    rewrite (proj2 (rd_ok _ _ _) Hb). eapply does_step; [reflexivity|done|]. cbv beta.
    rewrite wr_lt by (destruct Hex1 as [_ Hl1]; change (Z.to_nat MAX_DICT_FILE) with 128%nat in Hl1; lia).
    apply (does_forget _ _ _ w1), does_pure; [|done].
    unfold g. rewrite Z.mul_1_l. reflexivity.
Qed.

Lemma extras_insert_runs slack stale extras stage s :
  slack <> [] -> Forall (fun t => length t <= Z.to_nat MAX_DICT_FILE)%nat extras ->
  (length (out_buf s) + Z.to_nat MAX_DICT_FILE <= length stale)%nat -> has_stage s stage ->
  let cs := concat (map (insert_cands (out_buf s) extras) (seq 0 (length (out_buf s) + 1))) in
  exists ex', (length (out_buf s) + Z.to_nat MAX_DICT_FILE <= length ex')%nat /\
    does_to (extras_insert slack stale extras stage) s cs
      (fun w => (after_stage stage (u32 (Z.of_nat (length cs))) s w, ex')).
Proof.
  intros Hslack Htoks Hstale Hs cs. set (len := length (out_buf s)) in *.
  set (max := Z.of_nat (length extras) * Z.of_nat (len + 1)).
  destruct (does_for_with (outer_inv (out_buf s))
    (fun ex i => ex ← for_with extras ex (insert_token i); b ← lift (rd (out_buf s ++ slack) i); lift (wr ex i b))
    (insert_cands (out_buf s) extras) (len_of extras) s) with (l := seq 0 (len + 1)) (st := stale) (c := 0) (m := max)
    as (ex' & (i & _ & _ & Hex' & _) & Hd).
  { intros i l ex c m Hi. now apply does_insert_position. }
  { exists O. rewrite length_seq. split; [done|]. split; [unfold len; lia|]. split; [done|].
    intros _. split; [now rewrite !take_0|done]. }
  fold cs in Hd. exists ex'. split; [exact Hex'|].
  assert (E : counted 0 max s = with_world (world s) (counted 0 max s)) by now destruct s.
  eapply (does_to_eq _ (for_with (seq 0 (len + 1)) stale _ ≫= fun ex => _ ← end_stage stage (new_hit_cnt s); mret ex)
    _ (counted 0 max s)); [|done|].
  { unfold extras_insert. rewrite bind_get. fold len. unfold begin_stage.
    rewrite bind_assoc, bind_get, bind_assoc, bind_put, bind_ret. reflexivity. }
  rewrite <- (app_nil_r cs) at 1. rewrite E. eapply does_then; [apply Hd|]. intros w. cbv beta.
  unfold does_to. erewrite bind_ok_step by (apply end_stage_ok; exact Hs).
  unfold after_stage. cbn [exec_all mbind res_bind obs mret M_ret]. do 2 f_equal.
  assert (Ec : counted (0 + len_of cs) (max - (len_of extras * len_of (seq 0 (len + 1)) - len_of cs)) s
    = counted (len_of cs) (len_of cs) s).
  { unfold counted, max, len_of. rewrite length_seq. f_equal; f_equal; lia. }
  rewrite Ec. reflexivity.
Qed.
End Insert.

Section Theorems.
Context {W : Type} `{Target W}.
Implicit Types s : fz W.

(** Overwriting with tokens sorted by length runs exactly each usable
    token - one that fits and touches a flagged block - written over the
    original input at each offset, skipping only immediate repetitions of the
    same input: not restoring the buffer between tokens is sound, no usable
    token is lost, and the buffer is restored in the end. *)
Theorem extras_over_correct max_det_extras prob eff_map extras stage s :
  prob && (max_det_extras <? Z.of_nat (length extras)) = false ->
  Sorted by_len extras -> Forall (fun t => 0 < length t)%nat extras ->
  length eff_map = EFF_ALEN (length (out_buf s)) -> has_stage s stage ->
  let cs := concat (map (over_cands eff_map (out_buf s) extras) (seq 0 (length (out_buf s)))) in
  runs_stage (extras_over max_det_extras prob eff_map (out_buf s) extras stage) s stage cs /\
  (forall i tok, tok ∈ extras -> (i < length (out_buf s))%nat -> usable eff_map (out_buf s) i tok = true ->
     write_at i tok (out_buf s) = out_buf s \/ write_at i tok (out_buf s) ∈ cs).
Proof.
  intros Hdet Hsort Hpos Hl Hs cs. split; [now apply (extras_over_runs max_det_extras prob _ Hdet)|]. intros i tok Ht Hi Hu.
  set (toks := map (fun t => write_at i t (out_buf s)) (List.filter (usable eff_map (out_buf s) i) extras)).
  assert (Hin : write_at i tok (out_buf s) ∈ toks).
  { apply list_elem_of_In, in_map_iff. exists tok. split; [done|]. apply filter_In. split; [|done].
    now apply list_elem_of_In. }
  destruct (changes_complete (out_buf s) toks _ Hin) as [|Hc]; [now left|right].
  unfold cs. apply list_elem_of_In, in_concat. exists (over_cands eff_map (out_buf s) extras i). split.
  - apply in_map_iff. exists i. split; [done|]. apply in_seq. lia.
  - now apply list_elem_of_In.
Qed.

(** Insertion runs exactly the input with each token inserted at each of
    its [len + 1] offsets, unless that exceeds [MAX_FILE], whatever the
    scratch buffer held: the incrementally built head is always right. *)
Theorem extras_insert_correct slack stale extras stage s :
  slack <> [] -> Forall (fun t => length t <= Z.to_nat MAX_DICT_FILE)%nat extras ->
  (length (out_buf s) + Z.to_nat MAX_DICT_FILE <= length stale)%nat -> has_stage s stage ->
  let cs := concat (map (insert_cands (out_buf s) extras) (seq 0 (length (out_buf s) + 1))) in
  exists ex', (length (out_buf s) + Z.to_nat MAX_DICT_FILE <= length ex')%nat /\
    does_to (extras_insert slack stale extras stage) s cs
      (fun w => (after_stage stage (u32 (Z.of_nat (length cs))) s w, ex')).
Proof. exact (extras_insert_runs slack stale extras stage s). Qed.
End Theorems.

Definition read_0 : Target (list (list Z)) := recorder (fun c => nth 0 c 0).

Lemma extras_over_correct_witness :
  let toks := [[7]; [8; 9]; [8; 9; 3]] in
  let cs := concat (map (over_cands [1] [1; 2; 3] toks) (seq 0 3)) in
  @runs_stage _ read_0 (@extras_over _ read_0 200 true [1] [1; 2; 3] toks 12) (fz0 [1; 2; 3]) 12 cs /\
  (forall i tok, tok ∈ toks -> (i < 3)%nat -> usable [1] [1; 2; 3] i tok = true ->
     write_at i tok [1; 2; 3] = [1; 2; 3] \/ write_at i tok [1; 2; 3] ∈ cs).
Proof.
  apply (@extras_over_correct _ read_0 200 true [1] [[7]; [8; 9]; [8; 9; 3]] 12 (fz0 [1; 2; 3]));
    [reflexivity|repeat constructor|repeat constructor|reflexivity|split; cbn; lia].
Defined.

Lemma extras_insert_correct_witness :
  let cs := concat (map (insert_cands [1; 2; 3] [[7]; [8; 9]]) (seq 0 4)) in
  exists ex', (131 <= length ex')%nat /\
    @does_to _ read_0 _ (@extras_insert _ read_0 [0] (replicate 131 0) [[7]; [8; 9]] 13) (fz0 [1; 2; 3]) cs
      (fun w => (@after_stage _ read_0 13 8 (fz0 [1; 2; 3]) w, ex')).
Proof.
  apply (@extras_insert_correct _ read_0 [0] (replicate 131 0) [[7]; [8; 9]] 13 (fz0 [1; 2; 3]));
    [done|repeat (constructor; [apply Nat.leb_le; reflexivity|]); constructor|apply Nat.leb_le; reflexivity|split; cbn; lia].
Defined.

(** With no byte allocated after the input, the copy of the head after the
    last offset reads past the buffer. *)
Lemma extras_insert_reads_past :
  @extras_insert _ read_0 [] (replicate 131 0) [[7]] 13 (fz0 [1; 2; 3]) = Err Fault.
Proof. vm_compute. reflexivity. Qed.
