(* ===== verification/StagesSafe.v ===== *)
(** Safety of the whole deterministic part: for every target that keeps an
    invariant when it is given non-empty inputs of at most [MAX_FILE] bytes
    and tokens cut from the input, no stage reads or writes out of bounds,
    runs anything else, or leaves the buffer changed. *)

From stdpp Require Import sorting.
From S2P Require Import Prelude Words Arith Float Bitmap State Text Rand Dedup Extras Stages StagesDict StagesRun StagesThms StagesArith EffMap StagesDictThms.

Section Safe.
Context {W : Type} `{Target W}.
Context (Lost : abort -> Prop) (I : W -> Prop) (buf : list Z).
Implicit Types s : fz W.

(** What the stages promise about an execution and about a token. *)
Definition good (c : list Z) : Prop := bytes c /\ (0 < length c)%nat /\ Z.of_nat (length c) <= MAX_FILE.
Definition candidate (c : list Z) : Prop := bytes c /\ (length buf <= length c)%nat /\ Z.of_nat (length c) <= MAX_FILE.
Definition cut_from_input (t : list Z) : Prop :=
  MIN_AUTO_EXTRA <= Z.of_nat (length t) <= MAX_AUTO_EXTRA /\ exists p, t = take (length t) (drop p buf).

(** What they need of the target; [Lost] are the ways in which executing an
    input, or a draw of the generator, may end the fuzzer. *)
Record safe_target : Prop := {
  run_safe : forall w c, I w -> candidate c -> or_stop Lost (common_fuzz_stuff w c) (fun '(w', _) => I w');
  auto_safe : forall w t, I w -> cut_from_input t -> or_stop Lost (maybe_add_auto w t) I;
  draw_safe : forall w n, I w -> 0 < n < 2 ^ 32 -> or_stop Lost (draw w n) (fun '(_, w') => I w')
}.
Context (Htarget : safe_target).
Context (Hbytes : bytes buf) (Hlen : (0 < length buf)%nat /\ Z.of_nat (length buf) <= MAX_FILE).

Definition wp {A} (m : M W A) (s : fz W) (Q : A -> fz W -> Prop) : Prop :=
  match m s with
  | Ok (s', Some x) => Q x s'
  | Ok (s', None) => I (world s')
  | Err e => Lost e
  end.

Lemma wp_bind {A B} (m : M W A) (k : A -> M W B) s Q :
  wp m s (fun x s' => wp (k x) s' Q) -> wp (m ≫= k) s Q.
Proof. unfold wp. rewrite run_bind. destruct (m s) as [[s' [x|]]|]; auto. Qed.

Lemma wp_mono {A} (m : M W A) s (P Q : A -> fz W -> Prop) :
  wp m s P -> (forall x s', P x s' -> Q x s') -> wp m s Q.
Proof. unfold wp. destruct (m s) as [[s' [x|]]|]; auto. Qed.

Lemma wp_ok {A} (m : M W A) s s' x Q : m s = Ok (s', Some x) -> Q x s' -> wp m s Q.
Proof. unfold wp. now intros ->. Qed.

Lemma wp_eq {A} (m m' : M W A) s s' Q : m s = m' s' -> wp m' s' Q -> wp m s Q.
Proof. unfold wp. now intros ->. Qed.

Lemma wp_exec_buf c s Q :
  candidate c -> I (world s) -> (forall w, I w -> Q tt (with_world w s)) -> wp (exec_buf c) s Q.
Proof.
  intros Hc Hi HQ. pose proof (run_safe Htarget _ _ Hi Hc) as Hr.
  unfold wp, exec_buf. destruct (common_fuzz_stuff _ _) as [[w b]|]; [|exact Hr]. cbn [mbind res_bind].
  destruct b; [exact Hr|auto].
Qed.

Lemma wp_for_with {A X} (Inv : list A -> X -> fz W -> Prop) (body : X -> A -> M W X) :
  (forall x l st s, Inv (x :: l) st s -> wp (body st x) s (Inv l)) ->
  forall l st s, Inv l st s -> wp (for_with l st body) s (Inv []).
Proof.
  intros Hb l. induction l as [|x l IH]; intros st s Hi; cbn [for_with]; [exact Hi|].
  apply wp_bind. eapply wp_mono; [apply Hb; exact Hi|]. exact (fun st' s' Hi' => IH st' s' Hi').
Qed.

Lemma wp_for {A} (Inv : list A -> fz W -> Prop) (body : A -> M W unit) :
  (forall x l s, Inv (x :: l) s -> wp (body x) s (fun _ => Inv l)) ->
  forall l s, Inv l s -> wp (for_ l body) s (fun _ => Inv []).
Proof.
  intros Hb l. induction l as [|x l IH]; intros s Hi; cbn [for_]; [exact Hi|].
  apply wp_bind. eapply wp_mono; [apply Hb; exact Hi|]. exact (fun _ s' Hi' => IH s' Hi').
Qed.

(** From the exact runs. *)
Lemma exec_all_safe w cs :
  I w -> Forall candidate cs -> or_stop Lost (exec_all w cs) (fun '(w', _) => I w').
Proof.
  intros Hw Hcs. revert w Hw. induction Hcs as [|c cs Hc _ IH]; intros w Hw; cbn [exec_all]; [exact Hw|].
  apply or_stop_bind. eapply or_stop_mono; [exact (run_safe Htarget _ _ Hw Hc)|].
  intros [w1 []] H1; [exact H1|auto].
Qed.

Lemma wp_does_to {A} (m : M W A) s cs F Q :
  does_to m s cs F -> Forall candidate cs -> I (world s) -> (forall w, I w -> Q (F w).2 (F w).1) -> wp m s Q.
Proof.
  unfold does_to, wp. intros Hd Hcs Hw HQ. pose proof (exec_all_safe _ _ Hw Hcs) as He.
  destruct (exec_all _ _) as [[w b]|e] eqn:Ee; cbn [mbind res_bind or_stop] in Hd, He;
    [rename He into Hi|destruct (m s) as [[s' [x|]]|e']; cbn in Hd; [discriminate..|now injection Hd as ->]].
  destruct (m s) as [[s' [x|]]|]; cbn in Hd; [| |discriminate]; destruct b; try discriminate.
  - injection Hd as Hd. specialize (HQ w Hi). now rewrite <- Hd in HQ.
  - injection Hd as Hd. now rewrite Hd.
Qed.

(** Between stages. *)
Definition rest (s : fz W) : Prop :=
  out_buf s = buf /\ I (world s) /\ (16 <= length (stage_finds s))%nat /\ (16 <= length (stage_cycles s))%nat.

Lemma rest_has_stage s n : rest s -> (n < 16)%nat -> has_stage s n.
Proof. intros (_ & _ & H1 & H2) Hn. split; lia. Qed.

Lemma rest_after_stage n k s w : rest s -> I w -> rest (after_stage n k s w).
Proof.
  intros (Hb & _ & H1 & H2) Hw. unfold rest, after_stage.
  cbn [out_buf world stage_finds stage_cycles with_world with_stats with_stage]. now rewrite !length_alter.
Qed.

Lemma wp_stage m s n cs :
  runs_stage m s n cs -> Forall candidate cs -> rest s -> wp m s (fun _ => rest).
Proof.
  intros Hr Hcs Hs. eapply wp_does_to; [exact Hr|exact Hcs|apply Hs|].
  intros w Hw. now apply rest_after_stage.
Qed.

Lemma wp_end_stage n h s : rest s -> (n < 16)%nat -> wp (end_stage n h) s (fun _ => rest).
Proof.
  intros Hs Hn. eapply wp_ok; [apply end_stage_ok; now apply rest_has_stage|].
  destruct Hs as (Hb & Hi & H1 & H2). unfold rest.
  cbn [out_buf world stage_finds stage_cycles with_stats]. now rewrite !length_alter.
Qed.

Lemma rest_with_stage c m s : rest s -> rest (with_stage c m s).
Proof. exact id. Qed.

(** ** The test cases *)

Lemma good_like c : bytes c -> length c = length buf -> candidate c.
Proof. intros Hc E. unfold candidate. rewrite E. exact (conj Hc (conj (le_n _) (proj2 Hlen))). Qed.

Lemma good_buf : candidate buf.
Proof. exact (good_like buf Hbytes eq_refl). Qed.

Lemma bytes_write_at i bs b : bytes b -> bytes bs -> bytes (write_at i bs b).
Proof.
  intros Hb Hbs. unfold write_at.
  apply Forall_app; split; [now apply bytes_take|apply Forall_app; split; [done|now apply bytes_drop]].
Qed.

Lemma good_store k i v : 0 <= v -> (i + k <= length buf)%nat -> candidate (write_at i (le_store k v) buf).
Proof.
  intros Hv Hi. apply good_like; [apply bytes_write_at; [done|now apply le_store_bytes]|].
  apply length_write_at. rewrite length_le_store. lia.
Qed.

Lemma toggle_bytes b c : bytes c -> bytes (toggle b c).
Proof.
  intros Hc. unfold toggle. apply Forall_alter; [done|]. intros x Hx Hbx.
  assert (Hm : 0 <= 128 .>> Z.of_nat (b mod 8) < 256).
  { rewrite Z.shiftr_div_pow2 by lia. pose proof (Z.pow_pos_nonneg 2 (Z.of_nat (b mod 8))).
    split; [apply Z.div_pos; lia|]. apply Z.div_lt_upper_bound; nia. }
  apply (lxor_range 8); [lia|exact Hbx|exact Hm].
Qed.

Lemma toggles_bytes bs c : bytes c -> bytes (toggles bs c).
Proof.
  unfold toggles. revert c; induction bs as [|b bs IH]; intros c Hc; [done|]. cbn [foldl].
  apply IH. now apply toggle_bytes.
Qed.

Lemma good_flips k : Forall candidate (flip_cands k buf).
Proof.
  apply Forall_forall. intros c Hc%list_elem_of_In. apply in_map_iff in Hc as (b & <- & _).
  apply good_like; [now apply toggles_bytes|apply length_toggles].
Qed.

Lemma Forall_concat_map {A B} (P : B -> Prop) (f : A -> list B) l :
  (forall x, x ∈ l -> Forall P (f x)) -> Forall P (concat (map f l)).
Proof.
  induction l as [|x l IH]; intros Hf; [constructor|]. cbn [map concat]. apply Forall_app. split.
  - apply Hf. left.
  - apply IH. intros y Hy. apply Hf. now right.
Qed.

Lemma good_pieces eff_map k g :
  (0 < k)%nat -> (forall i, (i + k <= length buf)%nat -> Forall candidate (g i)) ->
  Forall candidate (piece_cands eff_map k (length buf) g).
Proof.
  intros Hk Hg. apply Forall_concat_map. intros i Hi%elem_of_seq.
  destruct (flagged eff_map k i); [apply Hg; lia|constructor].
Qed.

Lemma good_try k i ok v : 0 <= v -> (i + k <= length buf)%nat -> Forall candidate (try_cand k i buf ok v).
Proof. intros Hv Hi. unfold try_cand. destruct ok; [|constructor]. constructor; [now apply good_store|constructor]. Qed.

Lemma good_invert k i : (i + k <= length buf)%nat -> candidate (invert_cand k i buf).
Proof.
  intros Hi. apply good_store; [|done]. pose proof (piece_bound k i buf Hbytes) as Hv.
  apply (lxor_ones_range (8 * Z.of_nat k) _ ltac:(lia) Hv).
Qed.

Lemma good_arith k n tries i :
  arith_kind k n tries -> (i + k <= length buf)%nat -> Forall candidate (arith_cands k tries buf i).
Proof.
  intros Hk Hi. apply Forall_concat_map. intros j _. apply Forall_concat_map. intros t Ht.
  apply good_try; [|done].
  assert (Hall : Forall (fun t => 0 <= t.2) (tries (le_load (take k (drop i buf))) j)).
  { destruct Hk; repeat constructor; cbn [snd]; apply uwrap_range; lia. }
  now apply (proj1 (Forall_forall _ _) Hall).
Qed.

Lemma good_interest8 i : (i + 1 <= length buf)%nat -> Forall candidate (interest8_cands buf i).
Proof. intros Hi. apply Forall_concat_map. intros v _. apply good_try; [apply uwrap_range; lia|done]. Qed.

Lemma good_interest k values (conv swap : Z -> Z) i :
  interest_kind k values conv swap -> (i + k <= length buf)%nat ->
  Forall candidate (interest_cands k values conv swap buf i).
Proof.
  intros Hk Hi. apply Forall_concat_map. intros v _. destruct (interest_range _ _ _ _ v Hk) as (_ & H1 & H2).
  apply Forall_app. split; apply good_try; (lia || done).
Qed.

(** ** Bit flips and the token collector *)

Lemma wp_flip_stage k stage s :
  (stage < 16)%nat -> rest s -> wp (flip_stage k stage) s (fun _ => rest).
Proof.
  intros Hn Hs. pose proof Hs as (Hb & _). eapply wp_stage; [|apply (good_flips k)|exact Hs].
  rewrite <- Hb. apply flip_stage_correct; [now apply rest_has_stage|]. rewrite Hb. unfold MAX_FILE in Hlen. lia.
Qed.

(** After [p] bytes the token is the end of what was read, and there is none
    while the trace is the clean one. *)
Definition token_inv (clean : Z) (p : nat) (t : token) : Prop :=
  length (a_collect t) = Z.to_nat MAX_AUTO_EXTRA /\ 0 <= a_len t <= Z.of_nat p /\
  (prev_cksum t = clean -> a_len t = 0) /\
  forall k, (Z.of_nat k < Z.min (a_len t) MAX_AUTO_EXTRA) ->
    a_collect t !! k = buf !! (p - Z.to_nat (a_len t) + k)%nat.

Lemma grab_inv clean p b t :
  Z.of_nat (S p) < 2 ^ 32 -> buf !! p = Some b -> token_inv clean p t -> prev_cksum t <> clean ->
  token_inv clean (S p) (grab b t).
Proof.
  intros Hp Hb (Hl & Ha & _ & Hk) Hne. unfold grab, token_inv. cbn [a_collect a_len prev_cksum].
  rewrite uwrap_id by lia. split; [|split; [lia|split; [done|]]].
  - destruct (_ <? _); [rewrite length_insert|]; done.
  - intros k Hlt. replace (S p - Z.to_nat (a_len t + 1) + k)%nat with (p - Z.to_nat (a_len t) + k)%nat by lia.
    unfold MAX_AUTO_EXTRA in *. destruct (Z.ltb_spec (a_len t) 32) as [Hlt'|Hge].
    + destruct (decide (k = Z.to_nat (a_len t))) as [->|Hkne].
      * rewrite list_lookup_insert_eq by lia. rewrite <- Hb. f_equal. lia.
      * rewrite list_lookup_insert_ne by lia. apply Hk. lia.
    + apply Hk. lia.
Qed.

Lemma token_cut clean p t :
  token_inv clean p t -> (p <= length buf)%nat -> MIN_AUTO_EXTRA <= a_len t <= MAX_AUTO_EXTRA ->
  cut_from_input (take (Z.to_nat (a_len t)) (a_collect t)).
Proof.
  intros (Hl & Ha & _ & Hk) Hp Hr. unfold cut_from_input. unfold MIN_AUTO_EXTRA, MAX_AUTO_EXTRA in *.
  assert (Hn : length (take (Z.to_nat (a_len t)) (a_collect t)) = Z.to_nat (a_len t)) by (rewrite length_take; lia).
  rewrite Hn. split; [lia|]. exists (p - Z.to_nat (a_len t))%nat. apply list_eq. intros k.
  destruct (decide (k < Z.to_nat (a_len t))%nat) as [Hlt|Hge].
  - rewrite !lookup_take_lt, lookup_drop by lia. apply Hk. lia.
  - rewrite !lookup_take_ge by lia. done.
Qed.

Lemma wp_offer clean p t s :
  token_inv clean p t -> (p <= length buf)%nat -> rest s -> wp (offer t) s (fun _ => rest).
Proof.
  intros Ht Hp Hs. unfold offer. destruct (_ && _) eqn:E; [|exact Hs].
  apply andb_true_iff in E as [H1%Z.leb_le H2%Z.leb_le]. destruct Hs as (Hb & Hi & H3 & H4).
  pose proof (auto_safe Htarget (world s) _ Hi (token_cut _ _ _ Ht Hp (conj H1 H2))) as Ha.
  unfold wp. rewrite bind_get. destruct (maybe_add_auto _ _) as [w|e]; [|exact Ha].
  rewrite bind_lift. unfold put. now repeat split.
Qed.

Definition reset (cksum : Z) (t : token) : token := mkToken (a_collect t) 0 cksum.

Lemma reset_inv clean p q cksum t : token_inv clean p t -> token_inv clean q (reset cksum t).
Proof.
  intros (Hl & _). unfold token_inv, reset. cbn [a_collect a_len prev_cksum].
  split; [done|]. split; [lia|]. split; [done|]. unfold MAX_AUTO_EXTRA. intros k Hk. lia.
Qed.

Lemma skip_inv clean p t : token_inv clean p t -> prev_cksum t = clean -> token_inv clean (S p) t.
Proof.
  intros (Hl & Ha & Hz & Hk) E. specialize (Hz E). split; [done|]. split; [lia|]. split; [done|].
  intros k Hlt. unfold MAX_AUTO_EXTRA in Hlt. lia.
Qed.

(** Once the last byte is done nothing is asked of the token any more. *)
Lemma wp_collect clean last b cksum t p s :
  Z.of_nat (S p) < 2 ^ 32 -> buf !! p = Some b -> token_inv clean p t -> rest s ->
  wp (collect clean last b cksum t) s (fun t' s' => rest s' /\ (last = false -> token_inv clean (S p) t')).
Proof.
  intros Hp Hb Ht Hs. pose proof (lookup_lt_Some _ _ _ Hb) as Hlt. unfold collect. apply wp_bind.
  destruct (Z.eqb_spec cksum (prev_cksum t)) as [->|Hne].
  - destruct last; cbn [andb negb].
    + destruct (decide (prev_cksum t = clean)) as [Ec|Ec].
      * apply wp_bind. pose proof (skip_inv _ _ _ Ht Ec) as Hskip.
        assert (Hg : wp (offer (grab b t)) s (fun _ => rest)).
        { destruct Ht as (_ & _ & Hz & _). unfold offer, grab. cbn [a_len a_collect]. rewrite (Hz Ec). exact Hs. }
        eapply wp_mono; [exact Hg|]. intros u s1 H1. cbn. destruct (_ =? _); now split.
      * apply wp_bind. eapply wp_mono; [exact (wp_offer clean (S p) _ s (grab_inv _ _ _ _ Hp Hb Ht Ec) ltac:(lia) Hs)|].
        intros u s1 H1. cbn. destruct (_ =? _); now split.
    + cbn. destruct (Z.eqb_spec (prev_cksum t) clean) as [Ec|Ec]; cbn; (split; [exact Hs|intros _]).
      * now apply skip_inv.
      * now apply grab_inv.
  - rewrite andb_false_r. cbn [negb]. apply wp_bind.
    eapply wp_mono; [exact (wp_offer clean p t s Ht ltac:(lia) Hs)|]. intros u s1 H1. cbn.
    fold (reset cksum t). destruct (Z.eqb_spec cksum clean) as [Ec|Ec]; cbn; (split; [exact H1|intros _]).
    * exact (reset_inv _ _ _ cksum _ Ht).
    * apply grab_inv; [done|done|exact (reset_inv _ _ p cksum _ Ht)|exact Ec].
Qed.

(** Flip, run, flip back. *)
Lemma wp_flip_run {A} c (k : M W A) s Q :
  (c < 8 * length buf)%nat -> rest s -> (forall s', rest s' -> wp k s' Q) ->
  wp (_ ← set_stage_cur (Z.of_nat c); _ ← FLIP_BIT c; _ ← exec; _ ← FLIP_BIT c; k) s Q.
Proof.
  intros Hc Hs HQ. pose proof Hs as (Hb & Hi & H1 & H2).
  eapply wp_eq; [unfold set_stage_cur; rewrite bind_assoc, bind_get, bind_put; reflexivity|].
  eapply wp_eq; [apply bind_ok_step, FLIP_BIT_ok; cbn; rewrite Hb; exact Hc|]. cbv beta. apply wp_bind.
  cbn [out_buf with_stage]. unfold exec. eapply wp_eq; [apply bind_get|]. cbn [out_buf with_buf].
  apply wp_exec_buf; [rewrite Hb; apply good_like; [now apply toggle_bytes|apply length_alter]|exact Hi|].
  intros w Hw. eapply wp_eq; [apply bind_ok_step, FLIP_BIT_ok|].
  { cbn [out_buf with_world with_buf]. unfold toggle. rewrite length_alter, Hb. exact Hc. }
  cbv beta. apply HQ. cbn [out_buf with_world with_buf with_stage]. rewrite toggle_twice.
  repeat split; (done || exact Hb || exact Hw).
Qed.

Lemma length_small : Z.of_nat (length buf) < 2 ^ 32 - 1.
Proof. destruct Hlen as [_ Hl]. unfold MAX_FILE in Hl. lia. Qed.

Definition flip1_inv (nim : bool) (clean : Z) (l : list nat) (t : token) (s : fz W) : Prop :=
  rest s /\ exists c, l = seq c (length l) /\ (c + length l = 8 * length buf)%nat /\
    (nim = false -> l <> [] -> token_inv clean (c / 8) t).

Lemma wp_flip1 nim s : rest s -> wp (flip1_stage nim) s (fun _ => rest).
Proof.
  intros Hs. pose proof Hs as (Hb & Hi & H1 & H2). pose proof length_small as Hsmall.
  eapply wp_eq; [unfold flip1_stage; rewrite bind_get, Hb, bind_put; reflexivity|].
  set (max := (length buf * 8)%nat). apply wp_bind. unfold exec. eapply wp_eq; [apply bind_get|].
  cbn [out_buf with_stage]. rewrite Hb. apply wp_exec_buf; [apply good_buf|exact Hi|]. intros w Hw.
  eapply wp_eq; [apply bind_get|]. cbn [world with_world]. set (clean := trace_cksum w).
  apply wp_bind. eapply wp_mono; [apply (wp_for_with (flip1_inv nim clean))|].
  - intros c l t s1 (Hs1 & c' & El & Hsum & Htok). cbn [length seq] in El, Hsum. injection El as <- El.
    apply wp_flip_run; [lia|done|]. intros s2 Hs2.
    assert (Hp : (c / 8 < length buf)%nat) by (apply Nat.Div0.div_lt_upper_bound; lia).
    pose proof (Nat.div_mod_eq c 8) as Hdm. pose proof (Nat.mod_upper_bound c 8 ltac:(lia)) as Hmod.
    pose proof (Nat.div_mod_eq (S c) 8) as Hdm'. pose proof (Nat.mod_upper_bound (S c) 8 ltac:(lia)) as Hmod'.
    destruct (bool_decide (c mod 8 = 7)%nat) eqn:E7; [|apply bool_decide_eq_false in E7].
    + apply bool_decide_eq_true in E7. rewrite andb_true_r. destruct nim; cbn [negb].
      { split; [exact Hs2|]. exists (S c). split; [done|]. split; [lia|done]. }
      pose proof Hs2 as (Hb2 & _). destruct (rd_lt buf (c / 8) Hp) as (b & Eb & Lb).
      eapply wp_eq; [rewrite bind_get, Hb2, Eb, bind_lift; reflexivity|].
      eapply wp_mono; [eapply (wp_collect clean); [|exact Lb|apply Htok; done|exact Hs2]; lia|].
      cbv beta. intros t' s3 [Hs3 Ht']. split; [exact Hs3|]. exists (S c). split; [done|]. split; [lia|].
      intros _ Hl. replace (S c / 8)%nat with (S (c / 8)) by lia. apply Ht'. apply bool_decide_eq_false.
      destruct l; [done|]. cbn [length] in Hsum. unfold max. lia.
    + rewrite andb_false_r. unfold wp. cbn. split; [exact Hs2|]. exists (S c).
      split; [done|]. split; [lia|]. intros Hn _. replace (S c / 8)%nat with (c / 8)%nat by lia. now apply Htok.
  - split; [exact (conj Hb (conj Hw (conj H1 H2)))|]. exists O. rewrite length_seq. unfold max.
    rewrite Nat.mul_comm. split; [done|]. split; [lia|]. intros _ _. cbn [Nat.div].
    unfold token_inv. cbn [a_collect a_len prev_cksum]. rewrite length_replicate.
    split; [done|]. split; [lia|]. split; [done|]. unfold MAX_AUTO_EXTRA. intros k Hk. lia.
  - intros t s1 (Hs1 & _). eapply wp_eq; [unfold set_stage_cur; rewrite bind_assoc, bind_get, bind_put; reflexivity|].
    apply wp_bind. eapply wp_mono; [apply wp_end_stage; [exact Hs1|lia]|]. intros u s2 Hs2. exact Hs2.
Qed.

(** ** The effector map *)

Lemma eff_note_safe nim clean len k st c :
  (c < len)%nat -> length st.1 = EFF_ALEN len ->
  exists st', eff_note nim clean len k st c = Ok st' /\ length st'.1 = EFF_ALEN len.
Proof.
  intros Hc Hl. destruct st as [m n]. cbn [fst] in Hl. pose proof (eff_apos_lt c len Hc) as Ha.
  unfold eff_note. destruct (rd_lt m (EFF_APOS c)) as (e & Ee & _); [lia|]. rewrite Ee. cbn [mbind res_bind].
  destruct (truthy e); [eauto|]. destruct (_ =? clean); [eauto|].
  rewrite wr_lt by lia. cbn [mbind res_bind]. eexists. split; [reflexivity|]. cbn [fst]. now rewrite length_insert.
Qed.

Lemma eff_init_safe stale :
  (EFF_ALEN (length buf) <= length stale)%nat ->
  exists st, eff_init stale (length buf) = Ok st /\ length st.1 = EFF_ALEN (length buf).
Proof.
  intros Hs. destruct (eff_init_inv false stale 0 (length buf) [] (proj1 Hlen) Hs) as (st & E & Hl & _). eauto.
Qed.

Definition walking_inv (l : list nat) (st : list Z * Z) (s : fz W) : Prop :=
  rest s /\ length st.1 = EFF_ALEN (length buf) /\ Forall (fun c => c < length buf)%nat l.

Lemma wp_walking_body nim clean c l st s :
  walking_inv (c :: l) st s -> wp (walking_body nim clean (length buf) st c) s (walking_inv l).
Proof.
  intros (Hs & Hl & [Hc Hrest]%Forall_cons). pose proof Hs as (Hb & Hi & H1 & H2).
  eapply wp_eq; [unfold walking_body, set_stage_cur; rewrite bind_assoc, bind_get, bind_put; reflexivity|].
  set (s1 := with_stage _ _ s).
  assert (Hb1 : out_buf s1 = buf) by exact Hb.
  eapply wp_eq; [apply bind_ok_step, (flip_bytes_self 1 c s1); rewrite Hb1; (exact Hbytes || lia)|].
  cbv beta. rewrite Hb1. apply wp_bind. unfold exec. eapply wp_eq; [apply bind_get|].
  cbn [out_buf with_buf]. apply wp_exec_buf; [apply good_invert; lia|exact Hi|]. intros w Hw.
  eapply wp_eq; [apply bind_get|]. cbn [world with_world].
  destruct (eff_note_safe nim clean (length buf) (trace_cksum w) st c Hc Hl) as (st' & En & Hl').
  rewrite En. eapply wp_eq; [apply bind_lift|]. cbv beta.
  pose proof (flip_bytes_back 1 c (with_world w s1)) as Hback.
  replace (out_buf (with_world w s1)) with buf in Hback by (symmetry; exact Hb1).
  specialize (Hback Hbytes ltac:(lia)).
  eapply wp_eq; [apply bind_ok_step; exact Hback|]. unfold wp. cbn.
  split; [exact (conj Hb (conj Hw (conj H1 H2)))|]. split; [exact Hl'|exact Hrest].
Qed.

Lemma wp_walking_byte nim stale clean s :
  (EFF_ALEN (length buf) <= length stale)%nat -> rest s ->
  wp (walking_byte nim stale clean) s (fun m s' => rest s' /\ length m = EFF_ALEN (length buf)).
Proof.
  intros Hst Hs. pose proof Hs as (Hb & _). destruct (eff_init_safe stale Hst) as (st & E & Hl).
  eapply wp_eq; [unfold walking_byte; rewrite bind_get, Hb, E, bind_lift; unfold begin_stage;
    rewrite bind_assoc, bind_get, bind_assoc, bind_put, bind_ret; reflexivity|].
  apply wp_bind. eapply wp_mono; [apply (wp_for_with walking_inv)|].
  - intros c l st1 s1 H1. now apply wp_walking_body.
  - split; [exact Hs|]. split; [exact Hl|]. apply Forall_seq. intros; lia.
  - intros [m n] s1 (H1 & Hm & _). cbn [fst] in Hm.
    eapply wp_eq; [unfold set_stage_cur; rewrite bind_assoc, bind_get, bind_put; unfold eff_finish;
      rewrite bind_assoc, bind_get, bind_assoc, bind_put, bind_ret; reflexivity|].
    apply wp_bind. eapply wp_mono; [apply wp_end_stage; [exact H1|lia]|]. intros u s2 H2. unfold wp. cbn.
    split; [exact H2|]. destruct (_ && _); [apply length_replicate|exact Hm].
Qed.

(** ** The stages in turn *)

Lemma wp_flip_words eff_map k stage s :
  (0 < k)%nat -> (stage < 16)%nat -> length eff_map = EFF_ALEN (length buf) -> rest s ->
  wp (flip_words eff_map k stage) s (fun _ => rest).
Proof.
  intros Hk Hn Hl Hs. pose proof Hs as (Hb & _).
  eapply wp_stage; [apply flip_words_runs; rewrite ?Hb; auto using rest_has_stage| |exact Hs].
  rewrite Hb. apply good_pieces; [done|]. intros i Hi. constructor; [now apply good_invert|constructor].
Qed.

Lemma wp_arith eff_map k n tries stage s :
  arith_kind k n tries -> (stage < 16)%nat -> length eff_map = EFF_ALEN (length buf) -> rest s ->
  wp (arith_stage eff_map k n tries stage) s (fun _ => rest).
Proof.
  intros Hk Hn Hl Hs. pose proof Hs as (Hb & _).
  eapply wp_stage; [apply arith_stage_correct; rewrite ?Hb; eauto using rest_has_stage| |exact Hs].
  rewrite Hb. apply good_pieces; [destruct Hk; lia|]. intros i Hi. now apply (good_arith k n).
Qed.

Lemma wp_interest eff_map k values (conv swap : Z -> Z) stage s :
  interest_kind k values conv swap -> (stage < 16)%nat -> length eff_map = EFF_ALEN (length buf) -> rest s ->
  wp (interest_stage eff_map k values conv swap stage) s (fun _ => rest).
Proof.
  intros Hk Hn Hl Hs. pose proof Hs as (Hb & _).
  eapply wp_stage; [apply interest_stage_correct; rewrite ?Hb; eauto using rest_has_stage| |exact Hs].
  rewrite Hb. apply good_pieces; [destruct Hk; lia|]. intros i Hi. now apply good_interest.
Qed.

Lemma wp_interest8 eff_map s :
  length eff_map = EFF_ALEN (length buf) -> rest s -> wp (interest8_stage eff_map) s (fun _ => rest).
Proof.
  intros Hl Hs. pose proof Hs as (Hb & _).
  eapply wp_stage; [apply interest8_runs; rewrite ?Hb; eauto using rest_has_stage with lia| |exact Hs].
  rewrite Hb. apply good_pieces; [lia|]. intros i Hi. now apply good_interest8.
Qed.

(** A stage after the others. *)
Lemma wp_then {A} (m : M W A) (k : A -> M W unit) s (P : A -> Prop) :
  wp m s (fun x s' => rest s' /\ P x) -> (forall x s', P x -> rest s' -> wp (k x) s' (fun _ => rest)) ->
  wp (m ≫= k) s (fun _ => rest).
Proof. intros Hm Hk. apply wp_bind. eapply wp_mono; [exact Hm|]. intros x s' [H1 H2]. auto. Qed.

Lemma wp_seq (m : M W unit) {B} (k : unit -> M W B) s Q :
  wp m s (fun _ => rest) -> (forall s', rest s' -> wp (k tt) s' Q) -> wp (m ≫= k) s Q.
Proof. intros Hm Hk. apply wp_bind. eapply wp_mono; [exact Hm|]. intros [] s' Hs'. auto. Qed.

Lemma wp_bitflips nim stale s :
  (EFF_ALEN (length buf) <= length stale)%nat -> rest s ->
  wp (bitflips nim stale) s (fun m s' => rest s' /\ length m = EFF_ALEN (length buf)).
Proof.
  intros Hst Hs. unfold bitflips. apply wp_bind. eapply wp_mono; [now apply wp_flip1|]. intros clean s1 H1.
  apply wp_seq; [apply wp_flip_stage; [lia|exact H1]|]. intros s2 H2.
  apply wp_seq; [apply wp_flip_stage; [lia|exact H2]|]. intros s3 H3.
  apply wp_bind. eapply wp_mono; [now apply wp_walking_byte|]. intros m s4 [H4 Hm].
  eapply wp_eq; [apply bind_get|]. pose proof H4 as (Hb & _).
  apply wp_seq; [|intros s5 H5; exact (conj H5 Hm)].
  rewrite Hb. case_bool_decide; [exact H4|]. apply wp_seq; [apply wp_flip_words; auto; lia|]. intros s5 H5.
  case_bool_decide; [exact H5|]. apply wp_flip_words; auto; lia.
Qed.

Lemma wp_ariths no_arith m s :
  length m = EFF_ALEN (length buf) -> rest s -> wp (ariths no_arith m) s (fun _ => rest).
Proof.
  intros Hm Hs. unfold ariths. destruct no_arith; [exact Hs|].
  apply wp_seq; [apply wp_arith; (exact arith_8 || lia || done)|]. intros s1 H1.
  eapply wp_eq; [apply bind_get|]. case_bool_decide; [exact H1|].
  apply wp_seq; [apply wp_arith; (exact arith_16 || lia || done)|]. intros s2 H2.
  case_bool_decide; [exact H2|]. apply wp_arith; (exact arith_32 || lia || done).
Qed.

Lemma wp_interests no_arith m s :
  length m = EFF_ALEN (length buf) -> rest s -> wp (interests no_arith m) s (fun _ => rest).
Proof.
  intros Hm Hs. unfold interests. apply wp_seq; [now apply wp_interest8|]. intros s1 H1.
  eapply wp_eq; [apply bind_get|]. destruct (_ || _); [exact H1|].
  apply wp_seq; [apply wp_interest; (exact interest_16 || lia || done)|]. intros s2 H2.
  case_bool_decide; [exact H2|]. apply wp_interest; (exact interest_32 || lia || done).
Qed.

(** ** Dictionaries *)

Definition dict_ok (toks : list (list Z)) : Prop :=
  Forall (fun t => bytes t /\ (0 < length t)%nat /\ (length t <= Z.to_nat MAX_DICT_FILE)%nat) toks.

(** The state within a position: a token written over the input. *)
Definition over_rest (i : nat) (prev : list Z) (s : fz W) : Prop :=
  (i + length prev <= length buf)%nat /\ bytes prev /\ out_buf s = write_at i prev buf /\ rest (with_buf buf s).

Definition over_inv (i : nat) (l : list (list Z)) (last_len : nat) (s : fz W) : Prop :=
  exists prev, last_len = length prev /\ over_rest i prev s /\ Forall (by_len prev) l /\
    Sorted by_len l /\ dict_ok l.

Lemma wp_over_skip max_det prob cnt eff_map i tok prev s :
  0 < cnt < 2 ^ 32 -> length eff_map = EFF_ALEN (length buf) -> (0 < length tok)%nat -> over_rest i prev s ->
  wp (over_skip max_det prob cnt eff_map i tok) s (fun skip s' =>
    over_rest i prev s' /\ (skip = false -> (i + length tok <= length buf)%nat)).
Proof.
  intros Hcnt Hl Hn Hs.
  assert (Hplain : forall s, over_rest i prev s -> wp (over_skip max_det false cnt eff_map i tok) s (fun skip s' =>
    over_rest i prev s' /\ (skip = false -> (i + length tok <= length buf)%nat))).
  { clear s Hs. intros s Hs. pose proof Hs as (Hi & _ & Hb & _).
    assert (Hlb : length (out_buf s) = length buf) by (rewrite Hb; now apply length_write_at).
    eapply wp_ok; [apply over_skip_ok; [done|done|now rewrite Hlb|rewrite Hlb; lia]|]. split; [done|].
    intros Hu%orb_false_iff. destruct Hu as [Hu%negb_false_iff _]. unfold usable in Hu.
    apply andb_true_iff in Hu as [Hu%bool_decide_eq_true _]. lia. }
  destruct (prob && (max_det <? cnt)) eqn:Ep.
  - pose proof Hs as (Hi & Hbp & Hb & Hr1 & Hr2 & Hr3).
    pose proof (draw_safe Htarget (world s) cnt Hr2 Hcnt) as Hd.
    destruct (draw (world s) cnt) as [[k w]|e] eqn:Ed; cbn in Hd; [rename Hd into Hw|unfold wp, over_skip; now rewrite Ep, Ed].
    assert (Hs' : over_rest i prev (with_world w s)) by exact (conj Hi (conj Hbp (conj Hb (conj Hr1 (conj Hw Hr3))))).
    eapply wp_eq with (m' := if max_det <=? k then mret true else over_skip max_det false cnt eff_map i tok)
      (s' := with_world w s).
    { unfold over_skip. rewrite Ep, Ed. cbn [mbind res_bind andb]. now destruct (_ <=? k). }
    destruct (_ <=? k); [exact (conj Hs' (fun E => match Bool.diff_true_false E with end))|now apply Hplain].
  - eapply wp_eq with (m' := over_skip max_det false cnt eff_map i tok) (s' := s); [|now apply Hplain].
    unfold over_skip. now rewrite Ep.
Qed.

Lemma wp_over_token max_det prob cnt eff_map i tok l last_len s :
  0 < cnt < 2 ^ 32 -> length eff_map = EFF_ALEN (length buf) -> over_inv i (tok :: l) last_len s ->
  wp (over_token max_det prob cnt eff_map i last_len tok) s (over_inv i l).
Proof.
  intros Hcnt Hl (prev & -> & Hs & [Hlen' Hprev]%Forall_cons & Hsort & [(Htb & Htn & Htl) Hdict]%Forall_cons).
  unfold over_token. apply wp_bind. eapply wp_mono; [apply (wp_over_skip _ _ _ _ _ _ prev); done|].
  intros skip s1 [H1 Hfit]. destruct skip.
  - eapply wp_eq; [unfold stage_less; rewrite bind_assoc, bind_get, bind_put; reflexivity|].
    exists prev. repeat split; try done; try apply H1. now inversion Hsort.
  - specialize (Hfit eq_refl). destruct H1 as (Hi & Hbp & Hb & Hr1 & Hr2 & Hr3). unfold by_len in Hlen'.
    eapply wp_eq; [unfold memcpy_out; rewrite bind_assoc, bind_get, Hb, length_write_at, bool_decide_eq_true_2, bind_put by done;
      reflexivity|].
    rewrite write_at_over by done. apply wp_bind. unfold exec. eapply wp_eq; [apply bind_get|].
    cbn [out_buf with_buf]. apply wp_exec_buf; [|exact Hr2|].
    + apply good_like; [now apply bytes_write_at|now apply length_write_at].
    + intros w Hw. eapply wp_eq; [unfold stage_step; rewrite bind_assoc, bind_get, bind_put; reflexivity|].
      exists tok. apply Sorted_StronglySorted in Hsort; [|intros x y z; unfold by_len; lia].
      apply StronglySorted_inv in Hsort as [Hsort Hall].
      split; [done|]. split; [exact (conj Hfit (conj Htb (conj eq_refl (conj eq_refl (conj Hw Hr3)))))|].
      split; [exact Hall|]. split; [now apply StronglySorted_Sorted|exact Hdict].
Qed.

Lemma wp_extras_over max_det prob eff_map extras stage s :
  extras <> [] -> Z.of_nat (length extras) < 2 ^ 32 -> Sorted by_len extras -> dict_ok extras ->
  (stage < 16)%nat -> length eff_map = EFF_ALEN (length buf) -> rest s ->
  wp (extras_over max_det prob eff_map buf extras stage) s (fun _ => rest).
Proof.
  intros Hne Hcnt Hsort Hdict Hn Hl Hs. pose proof Hs as (Hb & _).
  assert (Hcnt' : 0 < Z.of_nat (length extras) < 2 ^ 32) by (destruct extras; [done|cbn [length] in *; lia]).
  eapply wp_eq; [unfold extras_over; rewrite bind_get; unfold begin_stage;
    rewrite bind_assoc, bind_get, bind_assoc, bind_put, bind_ret, Hb; reflexivity|].
  apply wp_seq; [|intros s1 H1; now apply wp_end_stage].
  eapply wp_mono; [apply (wp_for (fun l s => rest s /\ Forall (fun i => i < length buf)%nat l))|].
  - intros i l s1 (H1 & [Hi Hrest]%Forall_cons). pose proof H1 as (Hb1 & Hr). apply wp_bind.
    eapply wp_mono; [apply (wp_for_with (over_inv i))|].
    + intros tok l' last_len s2 H2. now apply wp_over_token.
    + exists []. split; [done|]. split; [|split; [|done]].
      * split; [cbn [length]; lia|]. split; [constructor|]. rewrite write_at_nil by lia. split; [exact Hb1|].
        split; [done|exact Hr].
      * apply Forall_forall. intros t _. unfold by_len. cbn [length]. lia.
    + intros last_len s2 (prev & -> & (Hf & _ & Hb2 & Hr2) & _).
      unfold wp, memcpy_out. rewrite bind_get, Hb2, length_write_at, length_take, length_drop by done.
      rewrite bool_decide_eq_true_2 by lia. unfold put. cbn.
      rewrite write_at_twice, write_at_same by (rewrite ?length_take, ?length_drop; lia). exact (conj Hr2 Hrest).
  - split; [exact Hs|]. apply Forall_seq. intros; lia.
  - intros u s1 [H1 _]. exact H1.
Qed.

Lemma wp_extras_insert slack stale extras stage s :
  slack <> [] -> dict_ok extras -> (stage < 16)%nat ->
  (length buf + Z.to_nat MAX_DICT_FILE <= length stale)%nat -> rest s ->
  wp (extras_insert slack stale extras stage) s (fun ex s' =>
    rest s' /\ (length buf + Z.to_nat MAX_DICT_FILE <= length ex)%nat).
Proof.
  intros Hslack Hdict Hn Hst Hs. pose proof Hs as (Hb & Hi & _).
  destruct (extras_insert_correct slack stale extras stage s) as (ex & Hex & Hd); rewrite ?Hb in *.
  - exact Hslack.
  - eapply Forall_impl; [exact Hdict|]. now intros t (_ & _ & ?).
  - exact Hst.
  - now apply rest_has_stage.
  - eapply wp_does_to; [exact Hd| |exact Hi|].
    + apply Forall_concat_map. intros i _. apply Forall_forall. intros c Hc%list_elem_of_In.
      apply in_map_iff in Hc as (t & <- & [Ht Hle]%filter_In). apply Z.leb_le in Hle.
      apply list_elem_of_In in Ht. apply (proj1 (Forall_forall _ _) Hdict) in Ht as (Htb & Htn & _).
      unfold candidate, inserted. rewrite !length_app, length_take, length_drop.
      split; [|lia]. apply Forall_app; split; [now apply bytes_take|].
      apply Forall_app; split; [done|now apply bytes_drop].
    + intros w Hw. split; [now apply rest_after_stage|exact Hex].
Qed.

(** ** The whole *)

(** The fuzzer's tokens as the stages find them. *)
Definition auto_ok (toks : list (list Z)) : Prop :=
  dict_ok toks /\ Sorted by_len (take (Z.to_nat USE_AUTO_EXTRAS) toks).

Lemma wp_dictionary max_det eff_map slack stale extras a_extras s :
  slack <> [] -> (length buf + Z.to_nat MAX_DICT_FILE <= length stale)%nat ->
  length eff_map = EFF_ALEN (length buf) ->
  dict_ok extras -> Sorted by_len extras -> Z.of_nat (length extras) < 2 ^ 32 -> auto_ok a_extras -> rest s ->
  wp (dictionary max_det eff_map buf slack stale extras a_extras) s (fun _ => rest).
Proof.
  intros Hslack Hst Hl Hd Hsort Hcnt [Hda Hsa] Hs. unfold dictionary. apply wp_bind.
  apply (wp_mono _ _ (fun ex s' => rest s' /\ (length buf + Z.to_nat MAX_DICT_FILE <= length ex)%nat)).
  - case_bool_decide; [exact (conj Hs Hst)|]. apply wp_seq; [apply wp_extras_over; auto; lia|].
    intros s1 H1. apply wp_extras_insert; auto; lia.
  - intros ex s1 [H1 Hex]. case_bool_decide as Hne; [exact H1|].
    apply wp_seq.
    + apply wp_extras_over; [|rewrite length_take; unfold USE_AUTO_EXTRAS; lia|done|now apply Forall_take|lia|done|done].
      intros E. apply Hne. apply length_zero_iff_nil. apply (f_equal length) in E.
      rewrite length_take in E. unfold USE_AUTO_EXTRAS in E. cbn [length] in E. lia.
    + intros s2 H2. eapply wp_then; [apply wp_extras_insert; auto; lia|]. intros x s3 _ H3. exact H3.
Qed.

Lemma deterministic_safe_spec max_det nim no_arith stale_eff slack stale_ex extras a_extras s :
  (EFF_ALEN (length buf) <= length stale_eff)%nat ->
  slack <> [] -> (length buf + Z.to_nat MAX_DICT_FILE <= length stale_ex)%nat ->
  dict_ok extras -> Sorted by_len extras -> Z.of_nat (length extras) < 2 ^ 32 ->
  (forall w, I w -> auto_ok (a_extras w)) -> rest s ->
  match deterministic max_det nim no_arith stale_eff slack stale_ex extras a_extras s with
  | Ok (s', Some tt) => out_buf s' = buf /\ I (world s')
  | Ok (s', None) => I (world s')
  | Err e => Lost e
  end.
Proof.
  intros He Hslack Hx Hd Hsort Hcnt Ha Hs.
  assert (Hwp : wp (deterministic max_det nim no_arith stale_eff slack stale_ex extras a_extras) s (fun _ => rest)).
  { pose proof Hs as (Hb & _). eapply wp_eq; [unfold deterministic; apply bind_get|]. rewrite Hb.
    eapply wp_then; [now apply wp_bitflips|]. intros m s1 Hm H1.
    apply wp_seq; [now apply wp_ariths|]. intros s2 H2. apply wp_seq; [now apply wp_interests|]. intros s3 H3.
    eapply wp_eq; [apply bind_get|]. apply wp_dictionary; auto. apply Ha. apply H3. }
  unfold wp in Hwp. destruct (deterministic _ _ _ _ _ _ _ _ s) as [[s' [[]|]]|]; try done.
  exact (conj (proj1 Hwp) (proj1 (proj2 Hwp))).
Qed.

(** ** The byte after the input

    With nothing allocated there, the insertions do the same until they read
    it. *)

Definition same_until_fault {A} (m m' : M W A) : Prop := forall s, m s = m' s \/ m s = Err Fault.

Lemma same_refl {A} (m : M W A) : same_until_fault m m.
Proof. intros s. now left. Qed.

Lemma same_until_bind {A B} (m m' : M W A) (k k' : A -> M W B) :
  same_until_fault m m' -> (forall x, same_until_fault (k x) (k' x)) -> same_until_fault (m ≫= k) (m' ≫= k').
Proof.
  intros Hm Hk s. rewrite !run_bind. destruct (Hm s) as [-> | ->]; [|now right].
  destruct (m' s) as [[s' [x|]]|e]; [apply Hk|now left..].
Qed.

Lemma same_for_with {A X} (body body' : X -> A -> M W X) :
  (forall st x, same_until_fault (body st x) (body' st x)) ->
  forall l st, same_until_fault (for_with l st body) (for_with l st body').
Proof.
  intros Hb l. induction l as [|x l IH]; intros st; cbn [for_with]; [apply same_refl|].
  apply same_until_bind; [apply Hb|exact IH].
Qed.

Lemma extras_insert_unallocated b stale extras stage :
  same_until_fault (extras_insert [] stale extras stage) (extras_insert [b] stale extras stage).
Proof.
  clear Hlen. unfold extras_insert. apply same_until_bind; [apply same_refl|]. intros s. apply same_until_bind; [apply same_refl|]. intros h.
  apply same_until_bind; [|intros ex; apply same_refl]. apply same_for_with. intros ex i.
  apply same_until_bind; [apply same_refl|]. intros ex'. apply same_until_bind; [|intros; apply same_refl].
  intros s'. rewrite app_nil_r. destruct (Nat.lt_ge_cases i (length (out_buf s))) as [Hi|Hi].
  - left. unfold rd. now rewrite lookup_app_l by lia.
  - right. unfold rd. now rewrite lookup_ge_None_2 by lia.
Qed.

Lemma deterministic_unallocated b max_det nim no_arith stale_eff stale_ex extras a_extras :
  same_until_fault (deterministic max_det nim no_arith stale_eff [] stale_ex extras a_extras)
    (deterministic max_det nim no_arith stale_eff [b] stale_ex extras a_extras).
Proof.
  pose proof (fun st ex n => extras_insert_unallocated b st ex n) as Hins.
  unfold deterministic. repeat (apply same_until_bind; [apply same_refl|intros ?]).
  unfold dictionary. apply same_until_bind.
  - case_bool_decide; [apply same_refl|]. apply same_until_bind; [apply same_refl|]. intros _. apply Hins.
  - intros ex. case_bool_decide; [apply same_refl|]. apply same_until_bind; [apply same_refl|]. intros _.
    apply same_until_bind; [apply Hins|]. intros _. apply same_refl.
Qed.

(** The deterministic part as a whole is safe.  Whatever the traces and
    finds, it never accesses memory out of bounds, and it fails only if an
    execution or a draw ends the fuzzer; it hands the target only inputs at
    least as long as the entry and of at most [MAX_FILE] bytes, and tokens of
    3 to 32 bytes that occur in the input; and, unless the entry is abandoned,
    the buffer is the original input again. *)
Theorem deterministic_safe max_det nim no_arith stale_eff slack stale_ex extras a_extras s :
  (EFF_ALEN (length buf) <= length stale_eff)%nat ->
  slack <> [] -> (length buf + Z.to_nat MAX_DICT_FILE <= length stale_ex)%nat ->
  dict_ok extras -> Sorted by_len extras -> Z.of_nat (length extras) < 2 ^ 32 ->
  (forall w, I w -> auto_ok (a_extras w)) -> rest s ->
  match deterministic max_det nim no_arith stale_eff slack stale_ex extras a_extras s with
  | Ok (s', Some tt) => out_buf s' = buf /\ I (world s')
  | Ok (s', None) => I (world s')
  | Err e => Lost e
  end.
Proof. exact (deterministic_safe_spec max_det nim no_arith stale_eff slack stale_ex extras a_extras s). Qed.
End Safe.

Lemma recorder_safe cksum buf : @safe_target _ (recorder cksum) (dies False) (fun _ => True) buf.
Proof. split; cbn; eauto. Qed.

Lemma deterministic_safe_witness :
  match @deterministic _ read_0 200 false false [5] [0] (replicate 131 0) [[7]; [8; 9]] (fun _ => [[1; 1; 2]])
          (fz0 [1; 2; 3]) with
  | Ok (s', Some tt) => out_buf s' = [1; 2; 3] /\ True
  | Ok (s', None) => True
  | Err e => e = Fatal /\ False
  end.
Proof.
  assert (Hd : forall t, bytesb t = true -> (0 < length t)%nat -> (length t <= 128)%nat ->
    bytes t /\ (0 < length t)%nat /\ (length t <= Z.to_nat MAX_DICT_FILE)%nat).
  { intros t Hb Hn Hl. split; [now apply bytesb_spec|]. split; [exact Hn|exact Hl]. }
  assert (Hl3 : (0 < length [1; 2; 3])%nat /\ Z.of_nat (length [1; 2; 3]) <= MAX_FILE)
    by (unfold MAX_FILE; cbn [length]; lia).
  apply (@deterministic_safe _ read_0 (dies False) (fun _ => True) [1; 2; 3] (recorder_safe _ _)
    (bytesb_spec [1; 2; 3] eq_refl) Hl3
    200 false false [5] [0] (replicate 131 0) [[7]; [8; 9]] (fun _ => [[1; 1; 2]]) (fz0 [1; 2; 3])).
  - apply Nat.leb_le. reflexivity.
  - done.
  - apply Nat.leb_le. reflexivity.
  - repeat (constructor; [apply Hd; (reflexivity || (cbn [length]; lia))|]). constructor.
  - repeat constructor.
  - reflexivity.
  - intros w _. split; [|repeat constructor].
    constructor; [apply Hd; (reflexivity || (cbn [length]; lia))|constructor].
  - repeat split; cbn; lia.
Defined.
