(* ===== verification/FuzzOne.v ===== *)
(** The deterministic stages on a session: the program around the stages,
    put together.  The target the stages see is the fork server, the triage
    of each result, the queue and its files, the automatic dictionary and the
    generator. *)

From stdpp Require Import sorting.
From S2P Require Import Prelude Words Arith Float State Bitmap Text Rand Queue TestcaseCache Callstack Session SessionThms Calibrate CalThms Describe Save SaveThms Dedup Extras ExtrasThms AutoExtras Stages StagesDict StagesRun EffMap StagesDictThms StagesSafe.
#[local] Open Scope list_scope.
#[local] Open Scope Z_scope.

(** ** The automatic dictionary, whatever the use counts *)

Definition plain_entry (a : auto_extra) : Prop :=
  bytes (a_data a) /\ (0 < length (a_data a))%nat /\ Z.of_nat (length (a_data a)) <= MAX_AUTO_EXTRA.
Definition auto_plain (l : list auto_extra) : Prop :=
  Forall plain_entry l /\ Sorted by_length (map a_data (take in_use l)).

Section Auto.
Context `{QsortLaws} {G : Type} `{RandGenLaws G}.

Lemma auto_plain_sort l : Forall plain_entry l -> auto_plain (sort_a_extras l).
Proof.
  intros Hl. assert (Hsm : Forall (fun a => small (a_data a)) l).
  { eapply Forall_impl; [exact Hl|]. intros a (_ & _ & Ha). unfold small, MAX_AUTO_EXTRA in *. lia. }
  destruct (sort_a_extras_sorted l Hsm) as [Hp Hs]. split; [|exact Hs]. now rewrite Hp.
Qed.

Lemma enter_auto_plain mem l g :
  plain_entry (mkAuto mem 0) -> Forall plain_entry l ->
  or_stop (dies_or_draws G True) (enter_auto mem l g) (fun '(l', _) => Forall plain_entry l').
Proof.
  intros Hm Hl. unfold enter_auto. destruct (Z.ltb_spec (Z.of_nat (length l)) MAX_AUTO_EXTRAS) as [Hlt|Hge].
  - apply Forall_app. now split; [|constructor].
  - apply or_stop_bind, or_draws. intros k g' Ek.
    apply rand_below_bound in Ek; [|split; [vm_compute|]; reflexivity].
    change (MAX_AUTO_EXTRAS / 2) with 16384 in *. change ((MAX_AUTO_EXTRAS + 1) / 2) with 16384 in *.
    assert (Hi : (Z.to_nat (16384 + k) < length l)%nat) by (change MAX_AUTO_EXTRAS with 32768 in Hge; lia).
    rewrite (wr_lt _ _ _ Hi). now apply Forall_insert.
Qed.

Lemma maybe_add_auto_plain d mem g :
  bytes mem -> (0 < length mem)%nat -> Z.of_nat (length mem) <= MAX_AUTO_EXTRA -> auto_plain (Extras.a_extras d) ->
  or_stop (dies_or_draws G True) (Extras.maybe_add_auto d mem g) (fun '(d', _) =>
    auto_plain (Extras.a_extras d') /\ Extras.extras d' = Extras.extras d).
Proof.
  intros Hb Hl Hm Hp. unfold Extras.maybe_add_auto. destruct (auto_rejected d mem); [now split|].
  assert (He : plain_entry (mkAuto mem 0)) by (split; [exact Hb|split; [exact Hl|exact Hm]]).
  destruct (find_auto 0 mem (Extras.a_extras d)) as [i|].
  - split; [|reflexivity]. apply auto_plain_sort, Forall_alter; [apply Hp|].
    intros a Ha _. exact (proj1 (Forall_lookup _ _) (proj1 Hp) _ _ Ha).
  - apply or_stop_bind. eapply or_stop_mono; [exact (enter_auto_plain mem _ g He (proj1 Hp))|].
    intros [l g'] Hf. split; [now apply auto_plain_sort|reflexivity].
Qed.
End Auto.

Lemma auto_plain_ok l : auto_plain l -> auto_ok (map a_data l).
Proof.
  intros [Hf Hs]. split.
  - apply Forall_map. eapply Forall_impl; [exact Hf|]. intros a (H1 & H2 & H3).
    split; [exact H1|]. split; [exact H2|]. unfold MAX_AUTO_EXTRA, MAX_DICT_FILE in *. lia.
  - rewrite <- fmap_take. change (take (Z.to_nat USE_AUTO_EXTRAS) l) with (take in_use l).
    eapply Sorted_ind with (P := Sorted by_len); [constructor| |exact Hs]. 
    intros x k _ IH Hx. constructor; [exact IH|]. destruct Hx; constructor. unfold by_length, by_len in *. lia.
Qed.

(** ** The stages' target *)

Record fuzzer (W G : Type) := mkFuzzer { fz_sess : sess W; fz_dict : dict; fz_rng : G }.
Arguments mkFuzzer {W G}. Arguments fz_sess {W G}. Arguments fz_dict {W G}. Arguments fz_rng {W G}.

Section FuzzOne.
Context {W : Type} `{World W} `{QsortLaws} {G : Type} `{RandGenLaws G} (fl : flavour) (cf : conf).
Context (symbolize : list Z -> Z -> Z * option (list Z)) (hash64 : list Z -> Z) (accept : Z -> Z).
Context (can_create : gmap (list Z) (list Z) -> bool).
Implicit Types f : fuzzer W G.

Definition run_input f (mem : list Z) : res (fuzzer W G * bool) :=
  '(s, bail) ← Save.common_fuzz_stuff fl cf symbolize hash64 accept can_create (fz_sess f) mem (Z.of_nat (length mem));
  Ok (mkFuzzer s (fz_dict f) (fz_rng f), bail).

Definition add_token f (mem : list Z) : res (fuzzer W G) :=
  '(d, g) ← Extras.maybe_add_auto (fz_dict f) mem (fz_rng f); Ok (mkFuzzer (fz_sess f) d g).

Definition draw_below f (limit : Z) : res (Z * fuzzer W G) :=
  '(k, g) ← rand_below (fz_rng f) limit; Ok (k, mkFuzzer (fz_sess f) (fz_dict f) g).

#[export] Instance fuzzer_target : Target (fuzzer W G) := {|
  Stages.common_fuzz_stuff := run_input;
  Stages.trace_cksum f := hash64 (trace_of (fz_sess f));
  Stages.hit_cnt f := u64 (queued_items (state (fz_sess f)) + saved_crashes (stat (fz_sess f)));
  Stages.maybe_add_auto := add_token;
  Stages.draw := draw_below
|}.

(** ** What they keep *)

Context (Hwrite : Files.posix_write accept).
Context (Hdisk : forall d, can_create d = true -> Z.of_nat (size d) + 1 < 2 ^ 32).
Context (I : W -> Prop) (T : list Z -> list Z -> Prop) (n : nat) (laws : target_laws I T n True).
Context (buf : list Z) (Hmin : 0 <= min_length cf <= Z.of_nat (length buf)) (Hmax : 0 <= max_length cf).

(** Everything is in order, and the queue has only grown since [f0]: no entry
    was lost or renamed, no file of the queue changed. *)
Record grown f0 f : Prop := {
  gr_sess : sess_ok I n (fz_sess f);
  gr_auto : auto_plain (Extras.a_extras (fz_dict f));
  gr_extras : Extras.extras (fz_dict f) = Extras.extras (fz_dict f0);
  gr_queue : map tag (queue_buf (state (fz_sess f0))) `prefix_of` map tag (queue_buf (state (fz_sess f)));
  gr_files : queue_dir (fz_sess f0) ⊆ queue_dir (fz_sess f);
  gr_readme : readme (fz_sess f0) `prefix_of` readme (fz_sess f);
  gr_site : IGORFUZZ_NEW_CRASH_MODE_LV3 <= crash_mode cf ->
    same_site (crash_site (fz_sess f0)) (crash_site (fz_sess f)) = true
}.

Lemma grown_run f0 f c :
  grown f0 f -> candidate buf c -> or_fatal True (run_input f c) (fun '(f', _) => grown f0 f').
Proof.
  intros [G1 G2 G3 G4 G5 G6 G7] (_ & Hl & Hmx). unfold run_input. apply or_stop_bind.
  assert (Hm : mem_ok cf c (Z.of_nat (length c))) by (unfold mem_ok, MAX_FILE in *; lia).
  eapply or_stop_mono; [apply (common_fuzz_stuff_spec fl cf symbolize hash64 accept Hwrite can_create Hdisk I T n laws
    (conj (proj1 Hmin) Hmax) _ c _ G1 Hm)|].
  intros [s' bail] (saved & Hs & _). cbn [or_stop]. destruct saved; cbn in Hs.
  - destruct Hs as (Hok & (len & _ & q & cs & m & w & M1 & _ & _ & _ & M2 & M3 & _ & M4) & M5). split; cbn [fz_sess fz_dict]; try assumption.
    + rewrite M1. now apply prefix_app_r.
    + rewrite M3. etransitivity; [exact G5|]. now apply insert_subseteq.
    + rewrite M4. now apply prefix_app_r.
    + intros Hlv. eapply same_site_trans; [exact (G7 Hlv)|exact (M5 Hlv)].
  - destruct Hs as [Q1 Q2 _ Q4 Q5 Q6]. split; cbn [fz_sess fz_dict]; rewrite ?Q2, ?Q4, ?Q5; auto.
    intros Hlv. eapply same_site_trans; [exact (G7 Hlv)|exact Q6].
Qed.

Lemma fuzzer_safe f0 : bytes buf -> safe_target (dies_or_draws G True) (grown f0) buf.
Proof.
  intros Hbuf. split.
  - intros f c Hg Hc. apply or_dies. now apply grown_run.
  - intros f t [G1 G2 G3 G4 G5 G6 G7] [Hl [p Hp]]. 
    cbn. unfold add_token. apply or_stop_bind.
    eapply or_stop_mono; [apply (maybe_add_auto_plain (fz_dict f) t (fz_rng f)); auto|].
    + rewrite Hp. now apply bytes_take, bytes_drop.
    + unfold MIN_AUTO_EXTRA in Hl. lia.
    + lia.
    + intros [d g] [Ha Hx]. split; auto. cbn. congruence.
  - intros f k [] _. cbn. unfold draw_below. apply or_stop_bind, or_draws. intros x g _. split; auto.
Qed.

(** What ends the stages, with [slack] allocated after the input. *)
Lemma weaken_stops {A} (m : res (A * option unit)) (slack : list Z) (P Q : A -> Prop) :
  match m with
  | Ok (s', Some tt) => P s'
  | Ok (s', None) => Q s'
  | Err e => dies_or_draws G True e
  end ->
  match m with
  | Ok (s', Some tt) => P s'
  | Ok (s', None) => Q s'
  | Err e => e = Fatal \/ (e = OutOfFuel /\ rand_stops (G := G) e) \/ (e = Fault /\ slack = [])
  end.
Proof.
  destruct m as [[s' [[]|]]|e]; [done..|]. intros [[-> _]|Hr]; [now left|].
  destruct (rand_stops_kind e Hr) as [-> | ->]; auto.
Qed.
End FuzzOne.

(** C1: Deterministic fuzzing of an entry by the whole program: the real
    execution, triage, queue, dictionary and generator are the target of the
    stages.  They end normally, with the input restored, or they abandon the
    entry, or the fuzzer ends with an error message, or a draw of the
    generator does not end; the only access out of bounds there can be is the
    read of the byte after the input by the insertions, if nothing is
    allocated there ([slack] is what is).  Meanwhile the queue only grows: the
    entries before keep their places, names, lengths and numbers, their files
    their contents, and the readme its text; the queue, the coverage maps, the
    testcase cache and the automatic dictionary stay well-formed; at the third
    level of crash mode the crash site stays the same.  This is so from a
    session in order, for an entry of at least [min_length] bytes, with the
    dictionary sorted, its tokens of at most [MAX_DICT_FILE] bytes, the
    scratch buffers as long as the code allocates them, and less than [2 ^ 32]
    files in a directory. *)
Theorem deterministic_fuzzing_correct {W} `{World W} `{QsortLaws} {G : Type} `{RandGenLaws G} fl cf symbolize hash64 accept
    can_create I T n (buf : list Z) max_det nim no_arith stale_eff slack stale_ex (s : fz (fuzzer W G)) :
  Files.posix_write accept -> (forall d, can_create d = true -> Z.of_nat (size d) + 1 < 2 ^ 32) ->
  target_laws I T n True -> 0 <= min_length cf <= Z.of_nat (length buf) -> 0 <= max_length cf ->
  bytes buf -> (0 < length buf)%nat /\ Z.of_nat (length buf) <= MAX_FILE ->
  (EFF_ALEN (length buf) <= length stale_eff)%nat ->
  (length buf + Z.to_nat MAX_DICT_FILE <= length stale_ex)%nat ->
  let f0 := Stages.world s in
  dict_ok (Extras.extras (fz_dict f0)) -> Sorted by_len (Extras.extras (fz_dict f0)) ->
  Z.of_nat (length (Extras.extras (fz_dict f0))) < 2 ^ 32 ->
  sess_ok I n (fz_sess f0) -> auto_plain (Extras.a_extras (fz_dict f0)) ->
  out_buf s = buf -> (16 <= length (stage_finds s))%nat -> (16 <= length (stage_cycles s))%nat ->
  match @deterministic _ (fuzzer_target fl cf symbolize hash64 accept can_create) max_det nim no_arith stale_eff slack stale_ex
          (Extras.extras (fz_dict f0)) (fun f => map a_data (Extras.a_extras (fz_dict f))) s with
  | Ok (s', Some tt) => out_buf s' = buf /\ grown cf I n f0 (Stages.world s')
  | Ok (s', None) => grown cf I n f0 (Stages.world s')
  | Err e => e = Fatal \/ (e = OutOfFuel /\ rand_stops (G := G) e) \/ (e = Fault /\ slack = [])
  end.
Proof.
  intros Ha Hd Hlaws Hmin Hmax Hb Hl He Hx f0 D1 D2 D3 Hs Hp E1 E2 E3.
  assert (Hsafe : forall sl, sl <> [] ->
    match @deterministic _ (fuzzer_target fl cf symbolize hash64 accept can_create) max_det nim no_arith stale_eff sl stale_ex
            (Extras.extras (fz_dict f0)) (fun f => map a_data (Extras.a_extras (fz_dict f))) s with
    | Ok (s', Some tt) => out_buf s' = buf /\ grown cf I n f0 (Stages.world s')
    | Ok (s', None) => grown cf I n f0 (Stages.world s')
    | Err e => dies_or_draws G True e
    end).
  { intros sl Hsl.
    apply (@deterministic_safe_spec _ (fuzzer_target fl cf symbolize hash64 accept can_create) (dies_or_draws G True) (grown cf I n f0) buf); auto.
    - now apply (fuzzer_safe fl cf symbolize hash64 accept can_create Ha Hd I T n Hlaws buf Hmin Hmax).
    - intros f [_ G2 _ _ _ _ _]. now apply auto_plain_ok.
    - split; [exact E1|]. split; [|split; assumption]. split; auto using same_site_refl; reflexivity. }
  destruct slack as [|b slack].
  - destruct (@deterministic_unallocated _ (fuzzer_target fl cf symbolize hash64 accept can_create) 0 max_det nim no_arith
      stale_eff stale_ex (Extras.extras (fz_dict f0)) (fun f => map a_data (Extras.a_extras (fz_dict f))) s) as [-> | ->]; [|auto].
    apply weaken_stops, Hsafe. discriminate.
  - apply weaken_stops, Hsafe. discriminate.
Qed.

(** ** A fuzzer *)

#[local] Abbreviation toy_rng := (afl_rand_below Word64 64).
#[local] Abbreviation toy_target :=
  (@fuzzer_target unit (toy const_trace) insertion_qsort rng toy_rng Word64 conf0 (fun _ _ => (0, None)) (zsum id) Files.hesitant disk100).
Definition fuzzer0 : fz (fuzzer unit rng) :=
  mkFz (mkFuzzer sess1 dict0 rng0) [1; 2; 3] 0 0 0 (replicate 32 0) (replicate 32 0) 0 0.

Lemma deterministic_fuzzing_correct_witness :
  match @deterministic _ toy_target 200 false false [5] [0] (replicate 131 0) [[7; 7; 7]]
          (fun f => map a_data (Extras.a_extras (fz_dict f))) fuzzer0 with
  | Ok (s', Some tt) => out_buf s' = [1; 2; 3] /\ grown conf0 (fun _ => True) 64 (Stages.world fuzzer0) (Stages.world s')
  | Ok (s', None) => grown conf0 (fun _ => True) 64 (Stages.world fuzzer0) (Stages.world s')
  | Err e => e = Fatal \/ (e = OutOfFuel /\ @rand_stops rng toy_rng e) \/ (e = Fault /\ [0] = [])
  end.
Proof.
  assert (H3 : (0 < length [1; 2; 3])%nat /\ Z.of_nat (length [1; 2; 3]) <= MAX_FILE) by (unfold MAX_FILE; cbn [length]; lia).
  assert (Hmin : 0 <= min_length conf0 <= Z.of_nat (length [1; 2; 3])) by (cbn; lia).
  assert (Hmax : 0 <= max_length conf0) by (cbn; unfold MAX_FILE; lia).
  assert (He : (EFF_ALEN (length [1; 2; 3]) <= length [5])%nat) by (apply Nat.leb_le; reflexivity).
  assert (Hx : (length [1; 2; 3] + Z.to_nat MAX_DICT_FILE <= length (replicate 131 0))%nat) by (apply Nat.leb_le; reflexivity).
  assert (Hd : dict_ok [[7; 7; 7]]).
  { constructor; [|constructor]. split; [now apply bytesb_spec|]. split; [cbn; lia|apply Nat.leb_le; reflexivity]. }
  assert (Ha : auto_plain (Extras.a_extras dict0)).
  { split.
    - repeat (constructor; [split; [now apply bytesb_spec|]; unfold MAX_AUTO_EXTRA; cbn [a_data length]; lia|]). constructor.
    - change (Sorted by_length [[65; 66; 67]; [1; 2; 3; 4]]). sorted_lengths. }
  apply (@deterministic_fuzzing_correct unit (toy const_trace) insertion_qsort insertion_qsort_laws rng toy_rng (afl_rand_laws Word64 64)
    Word64 conf0 (fun _ _ => (0, None)) (zsum id) Files.hesitant disk100 (fun _ => True) (fun t x => x = const_trace t) 64
    [1; 2; 3] 200 false false [5] [0] (replicate 131 0) fuzzer0 Files.hesitant_posix disk100_room
    (toy_laws_true const_trace 64 const_trace_ok) Hmin Hmax (bytesb_spec [1; 2; 3] eq_refl) H3 He).
  - exact Hx.
  - exact Hd.
  - repeat constructor.
  - reflexivity.
  - exact sess1_ok.
  - exact Ha.
  - reflexivity.
  - apply Nat.leb_le. reflexivity.
  - apply Nat.leb_le. reflexivity.
Defined.
