(* ===== verification/Havoc.v ===== *)
(** The random stages of [fuzz_one_original] in [src/afl-fuzz-one.c]: havoc
    and splicing, without custom mutators.

    [out_buf] holds the [temp_len] live bytes; what is allocated beyond them
    is never read.  Where C leaves the order of two draws within one
    assignment open, the left operand draws first. *)

From S2P Require Import Prelude Words Arith Float Bitmap State Text Rand Dedup Extras Stages.

Definition HAVOC_CYCLES : Z := 256.
Definition HAVOC_CYCLES_INIT : Z := 1024.
Definition HAVOC_MIN : Z := 12.
Definition SPLICE_CYCLES : nat := 15.
Definition SPLICE_HAVOC : Z := 32.
Definition MAX_HAVOC_ENTRY : Z := 64.
Definition MUTATE_ASCII_DICT : Z := 64.

(** ** What splicing asks of the queue *)

(** The number of entries, the number of the current one, an entry's length,
    its test case ([queue_testcase_get]), and whether splicing makes sense
    ([ready_for_splicing_count > 1]). *)
Class Pool (W : Type) := {
  queued_items : W -> Z;
  current_entry : W -> Z;
  entry_len : W -> Z -> res Z;
  testcase_get : W -> Z -> res (list Z * W);
  ready_for_splicing : W -> bool
}.

(** [memcpy] from a buffer. *)
Definition slice (i n : Z) (buf : list Z) : res (list Z) :=
  if (0 <=? i) && (0 <=? n) && (i + n <=? Z.of_nat (length buf))
  then Ok (take (Z.to_nat n) (drop (Z.to_nat i) buf)) else Err Fault.

Section Havoc.
Context {W : Type} `{Target W} `{Pool W}.

(** [tries]: how often the loops that draw again do so. *)
Context (tries : nat) (queue_cycle : Z) (run_over10m : bool).

(** ** Draws *)

(** [rand_below(afl, n)] *)
Definition rand (n : Z) : M W Z :=
  s ← get; '(k, w) ← lift (draw (world s) (u32 n)); _ ← put (with_world w s); mret k.

#[local] Instance world_gen : RandGen W := draw.
Definition block_len (limit : Z) : M W Z :=
  s ← get; '(k, w) ← lift (choose_block_len queue_cycle run_over10m (u32 limit) (world s));
  _ ← put (with_world w s); mret k.

(** [do x = rand_below(afl, n); while (reject(x));] *)
Fixpoint draw_until (fuel : nat) (n : Z) (reject : W -> Z -> res bool) : M W Z :=
  match fuel with
  | O => lift (Err OutOfFuel)
  | S f =>
      k ← rand n;
      s ← get;
      again ← lift (reject (world s) k);
      if again : bool then draw_until f n reject else mret k
  end.

Definition temp_len : M W Z := s ← get; mret (Z.of_nat (length (out_buf s))).

(** [rand_below(afl, temp_len - (k - 1))]: where [k] bytes fit. *)
Definition rand_at (k : nat) : M W nat :=
  n ← temp_len; p ← rand (n - (Z.of_nat k - 1)); mret (Z.to_nat p).

(** ** Changes in place *)

Definition update (k : nat) (p : nat) (f : Z -> Z) : M W unit :=
  x ← load k p; store k p (uwrap (8 * Z.of_nat k) (f x)).

Definition swap (k : nat) (x : Z) : Z := match k with 2%nat => SWAP16 x | 4%nat => SWAP32 x | _ => x end.
Definition values (k : nat) : list Z :=
  match k with 1%nat => interesting_8 | 2%nat => interesting_16 | _ => interesting_32 end.

Definition havoc_flip : M W unit := n ← temp_len; b ← rand (n .<< 3); FLIP_BIT (Z.to_nat b).

(** [temp_len < k]; single bytes are not guarded. *)
Definition too_short (k : nat) (n : Z) : bool := (1 <? k)%nat && (n <? Z.of_nat k).

Definition havoc_interesting (k : nat) (be : bool) : M W unit :=
  n ← temp_len;
  if too_short k n then mret tt else
  p ← rand_at k;
  j ← rand (Z.of_nat (length (values k)));
  v ← lift (rd (values k) (Z.to_nat j));
  store k p (uwrap (8 * Z.of_nat k) (if be then swap k v else v)).

Definition havoc_arith (k : nat) (be sub : bool) : M W unit :=
  n ← temp_len;
  if too_short k n then mret tt else
  p ← rand_at k;
  d ← rand ARITH_MAX;
  let num := 1 + d in
  update k p (fun x =>
    let x := if be then swap k x else x in
    let x := uwrap (8 * Z.of_nat k) (if sub then x - num else x + num) in
    if be then swap k x else x).

Definition havoc_xor : M W unit := p ← rand_at 1; d ← rand 255; update 1 p (fun x => x .^ (1 + d)).
Definition havoc_increment (d : Z) : M W unit := p ← rand_at 1; update 1 p (fun x => x + d).
Definition havoc_flip8 : M W unit := p ← rand_at 1; update 1 p (fun x => x .^ 0xff).

(** ** Blocks *)

(** Head, inserted part, tail. *)
Definition insert_bytes (to : Z) (bs : list Z) : M W unit :=
  s ← get;
  head ← lift (slice 0 to (out_buf s));
  tail ← lift (slice to (Z.of_nat (length (out_buf s)) - to) (out_buf s));
  put (with_buf (head ++ bs ++ tail) s).
Definition read_out (from n : Z) : M W (list Z) := s ← get; lift (slice from n (out_buf s)).
Definition write_out (to : Z) (bs : list Z) : M W unit := memcpy_out (Z.to_nat to) bs.

(** [rand_below(afl, 2) ? rand_below(afl, 256) : out_buf[rand_below(afl, temp_len)]] *)
Definition fill_byte : M W Z :=
  c ← rand 2; if truthy c then rand 256 else p ← rand_at 1; load 1 p.

Definition has_room : M W bool := n ← temp_len; mret (n + HAVOC_BLK_XL <? MAX_FILE).

Definition havoc_clone : M W unit :=
  room ← has_room;
  if negb room then mret tt else
  n ← temp_len;
  clone_len ← block_len n;
  clone_from ← rand (n - clone_len + 1);
  clone_to ← rand n;
  bs ← read_out clone_from clone_len;
  insert_bytes clone_to bs.

Definition havoc_insert : M W unit :=
  room ← has_room;
  if negb room then mret tt else
  n ← temp_len;
  clone_len ← block_len HAVOC_BLK_XL;
  clone_to ← rand n;
  b ← fill_byte;
  insert_bytes clone_to (replicate (Z.to_nat clone_len) b).

Definition havoc_copy : M W unit :=
  n ← temp_len;
  if n <? 2 then mret tt else
  copy_len ← block_len (n - 1);
  copy_from ← rand (n - copy_len + 1);
  copy_to ← rand (n - copy_len + 1);
  if copy_from =? copy_to then mret tt else
  bs ← read_out copy_from copy_len;
  write_out copy_to bs.

Definition havoc_fixed : M W unit :=
  n ← temp_len;
  if n <? 2 then mret tt else
  copy_len ← block_len (n - 1);
  copy_to ← rand (n - copy_len + 1);
  b ← fill_byte;
  write_out copy_to (replicate (Z.to_nat copy_len) b).

Definition switch_blocks (switch_from switch_to limit : Z) : M W unit :=
  switch_len ← block_len limit;
  new_buf ← read_out switch_from switch_len;
  other ← read_out switch_to switch_len;
  _ ← write_out switch_from other;
  write_out switch_to new_buf.

Definition havoc_switch : M W unit :=
  n ← temp_len;
  if n <? 4 then mret tt else
  switch_from ← rand n;
  switch_to ← draw_until tries n (fun _ k => Ok (switch_from =? k));
  let '(switch_len, to_end) :=
    if switch_from <? switch_to then (switch_to - switch_from, n - switch_to)
    else (switch_from - switch_to, n - switch_from) in
  switch_blocks switch_from switch_to (Z.min switch_len to_end).

Definition havoc_delete : M W unit :=
  n ← temp_len;
  if n <? 2 then mret tt else
  del_len ← block_len (n - 1);
  del_from ← rand (n - del_len + 1);
  head ← read_out 0 del_from;
  tail ← read_out (del_from + del_len) (n - del_from - del_len);
  s ← get;
  put (with_buf (head ++ tail) s).

(** ** Tokens *)

Definition token_over (toks : list (list Z)) : M W unit :=
  use_extra ← rand (Z.of_nat (length toks));
  tok ← lift (rd toks (Z.to_nat use_extra));
  n ← temp_len;
  let extra_len := Z.of_nat (length tok) in
  if n <? extra_len then mret tt else
  insert_at ← rand (n - extra_len + 1);
  write_out insert_at tok.

Definition token_insert (toks : list (list Z)) : M W unit :=
  use_extra ← rand (Z.of_nat (length toks));
  tok ← lift (rd toks (Z.to_nat use_extra));
  n ← temp_len;
  if MAX_FILE <=? n + Z.of_nat (length tok) then mret tt else
  at_ ← rand (n + 1);
  insert_bytes at_ tok.

(** ** Chunks of other test cases *)

(** Another entry of at least four bytes, and its test case. *)
Definition pick_target : M W (list Z) :=
  s ← get;
  tid ← draw_until tries (queued_items (world s)) (fun w tid =>
    if tid =? current_entry w then Ok true else len ← entry_len w tid; Ok (len <? 4));
  s ← get;
  '(new_buf, w) ← lift (testcase_get (world s) tid);
  _ ← put (with_world w s);
  mret new_buf.

Definition splice_chunk (r : Z) : M W unit :=
  new_buf ← pick_target;
  let new_len := Z.of_nat (length new_buf) in
  n ← temp_len;
  if ((2 <=? n) && truthy (r mod 2)) || (MAX_FILE <=? n + HAVOC_BLK_XL) then
    copy_len ← block_len (new_len - 1);
    let copy_len := if n <? copy_len then n else copy_len in
    copy_from ← rand (new_len - copy_len + 1);
    copy_to ← rand (n - copy_len + 1);
    bs ← lift (slice copy_from copy_len new_buf);
    write_out copy_to bs
  else
    clone_len ← block_len new_len;
    clone_from ← rand (new_len - clone_len + 1);
    clone_to ← rand (n + 1);
    bs ← lift (slice clone_from clone_len new_buf);
    insert_bytes clone_to bs.

(** ** The switch *)

(** [extras], [a_extras]: the dictionaries; [ascii_cmplog]: CmpLog is on and
    the entry is text. *)
Context (extras : list (list Z)) (a_extras : W -> list (list Z)) (ascii_cmplog : bool).

Definition r_cmp : Z := if ascii_cmplog then MUTATE_ASCII_DICT .>> 1 else 2.

(** What [default] makes of [r]. *)
Definition havoc_auto (r : Z) : M W unit :=
  s ← get;
  let toks := a_extras (world s) in
  if bool_decide (toks = []) then splice_chunk r
  else if r <? r_cmp then token_over toks
  else if r <? r_cmp .<< 1 then token_insert toks
  else splice_chunk (r - (r_cmp .<< 1)).

Definition havoc_default (r : Z) : M W unit :=
  if bool_decide (extras = []) then havoc_auto r
  else if r <? 2 then token_over extras
  else if r <? 4 then token_insert extras
  else havoc_auto (r - 4).

Definition havoc_op (r : Z) : M W unit :=
  if r <=? 3 then havoc_flip
  else if r <=? 7 then havoc_interesting 1 false
  else if r <=? 9 then havoc_interesting 2 false
  else if r <=? 11 then havoc_interesting 2 true
  else if r <=? 13 then havoc_interesting 4 false
  else if r <=? 15 then havoc_interesting 4 true
  else if r <=? 19 then havoc_arith 1 false true
  else if r <=? 23 then havoc_arith 1 false false
  else if r <=? 25 then havoc_arith 2 false true
  else if r <=? 27 then havoc_arith 2 true true
  else if r <=? 29 then havoc_arith 2 false false
  else if r <=? 31 then havoc_arith 2 true false
  else if r <=? 33 then havoc_arith 4 false true
  else if r <=? 35 then havoc_arith 4 true true
  else if r <=? 37 then havoc_arith 4 false false
  else if r <=? 39 then havoc_arith 4 true false
  else if r <=? 43 then havoc_xor
  else if r <=? 46 then havoc_clone
  else if r <=? 47 then havoc_insert
  else if r <=? 50 then havoc_copy
  else if r <=? 51 then havoc_fixed
  else if r <=? 52 then havoc_increment 1
  else if r <=? 53 then havoc_increment (-1)
  else if r <=? 54 then havoc_flip8
  else if r <=? 56 then havoc_switch
  else if r <=? MAX_HAVOC_ENTRY then havoc_delete
  else havoc_default (r - (MAX_HAVOC_ENTRY + 1)).

(** ** The stage *)

(** [expand_havoc]; nothing found for five seconds; the limits. *)
Context (expand_havoc idle_5s : bool) (havoc_stack_pow2 havoc_div havoc_max_mult : Z).

Definition havoc_r_max (w : W) : Z :=
  (MAX_HAVOC_ENTRY + 1) + (if bool_decide (extras = []) then 0 else 4) +
  (if bool_decide (a_extras w = []) then 0 else if ascii_cmplog then MUTATE_ASCII_DICT else 4) +
  (if expand_havoc && ready_for_splicing w then 4 else 0) +
  (if idle_5s && ready_for_splicing w then 4 else 0).

(** Stacked tweaks of [out_buf]. *)
Definition stack_tweaks (r_max : Z) : M W unit :=
  k ← rand havoc_stack_pow2;
  for_ (seq 0 (Z.to_nat (1 .<< (1 + k)))) (fun _ => r ← rand r_max; havoc_op r).

(** One input: mutate, run, restore; finds double the rest of the stage. *)
Definition havoc_body (r_max : Z) (in_buf : list Z) (st : Z * Z) : M W (Z * Z) :=
  let '(perf_score, havoc_queued) := st in
  _ ← stack_tweaks r_max;
  _ ← exec;
  s ← get;
  _ ← put (with_buf in_buf s);
  st ← (if queued_items (world s) =? havoc_queued then mret (perf_score, havoc_queued) else
    perf_score ← (if perf_score <=? havoc_max_mult * 100
      then s ← get; _ ← put (with_stage (stage_cur s) (u32 (stage_max s * 2)) s); mret (u32 (perf_score * 2))
      else mret perf_score);
    mret (perf_score, queued_items (world s)));
  _ ← stage_step;
  mret st.

Fixpoint havoc_loop (fuel : nat) (r_max : Z) (in_buf : list Z) (st : Z * Z) : M W unit :=
  s ← get;
  if negb (stage_cur s <? stage_max s) then mret tt else
  match fuel with
  | O => lift (Err OutOfFuel)
  | S f => st ← havoc_body r_max in_buf st; havoc_loop f r_max in_buf st
  end.

Definition havoc_cycles (cycles perf_score : Z) : res Z :=
  if havoc_div =? 0 then Err Fault else
  let max := (u32 (cycles * perf_score) / havoc_div) .>> 8 in
  Ok (if max <? HAVOC_MIN then HAVOC_MIN else max).

(** [in_buf] is in [out_buf]; the cycles and the stage's number depend on
    whether this is a splice. *)
Definition havoc_stage (fuel : nat) (cycles : Z) (stage : nat) (perf_score : Z) : M W unit :=
  s ← get;
  max ← lift (havoc_cycles cycles perf_score);
  _ ← put (with_stage 0 max s);
  _ ← havoc_loop fuel (havoc_r_max (world s)) (out_buf s) (perf_score, queued_items (world s));
  end_stage stage (hit_cnt (world s)).

(** ** Splicing *)

(** Join the current input, [in_buf], and another one; [None]: they are too
    similar. *)
Definition splice_with (in_buf : list Z) : M W (option (list Z)) :=
  new_buf ← pick_target;
  let len := Z.of_nat (length new_buf) in
  '(f_diff, l_diff) ← lift (locate_diffs in_buf new_buf (Nat.min (length in_buf) (length new_buf)));
  if (f_diff <? 0) || (l_diff <? 2) || (f_diff =? l_diff) then mret None else
  k ← rand (l_diff - f_diff);
  let split_at := f_diff + k in
  head ← lift (slice 0 split_at in_buf);
  tail ← lift (slice split_at (len - split_at) new_buf);
  mret (Some (head ++ tail)).

(** [retry_splicing], with [more] of the [SPLICE_CYCLES] to come. *)
Fixpoint splicing (fuel more : nat) (orig_in : list Z) (orig_perf : Z) : M W unit :=
  match more with
  | O => mret tt
  | S more =>
      s ← get;
      if negb (ready_for_splicing (world s)) || bool_decide (length orig_in < 4)%nat then mret tt else
      spliced ← splice_with orig_in;
      match spliced with
      | None => splicing fuel more orig_in orig_perf
      | Some in_buf =>
          s ← get;
          _ ← put (with_buf in_buf s);
          _ ← havoc_stage fuel SPLICE_HAVOC 17 orig_perf;
          splicing fuel more orig_in orig_perf
      end
  end.

(** From [havoc_stage] to [abandon_entry]; [use_splicing]. *)
Definition random_stages (fuel : nat) (doing_det use_splicing : bool) (perf_score : Z) : M W unit :=
  s ← get;
  _ ← havoc_stage fuel (if doing_det then HAVOC_CYCLES_INIT else HAVOC_CYCLES) 16 perf_score;
  if use_splicing then splicing fuel SPLICE_CYCLES (out_buf s) perf_score else mret tt.
End Havoc.
