(* ===== verification/HavocThms.v ===== *)
(** Havoc and splicing are safe: whatever is drawn, no tweak reads or writes
    outside the live bytes, the input stays between one byte and [MAX_FILE],
    the loops end, and a splice joins two different inputs. *)

From S2P Require Import Prelude Words Arith Float Bitmap State Text Rand Dedup DedupThms Extras Stages StagesRun StagesThms StagesArith StagesDict EffMap StagesDictThms StagesSafe Havoc.

Section Havoc.
Context {W : Type} `{Target W} `{Pool W}.
Context (Lost : abort -> Prop) (I : W -> Prop).
Context (tries : nat) (queue_cycle : Z) (run_over10m : bool).
Context (extras : list (list Z)) (a_extras : W -> list (list Z)).
Implicit Types s : fz W.

(** ** What the stages need of the fuzzer *)

(** An entry fit for splicing. *)
Definition good_target (w : W) (tid : Z) : Prop :=
  0 <= tid < queued_items w /\ tid <> current_entry w /\ exists l, entry_len w tid = Ok l /\ 4 <= l.

(** What is never lost: entries fit for splicing, and automatic tokens. *)
Record keeps (w w' : W) : Prop := {
  kp_items : queued_items w <= queued_items w';
  kp_target tid : good_target w tid -> good_target w' tid;
  kp_auto : a_extras w <> [] -> a_extras w' <> []
}.

(** Drawing below [n] from [w] gives [x] at the [j]-th draw. *)
Fixpoint hits (j : nat) (w : W) (n x : Z) : Prop :=
  match j with
  | O => exists w', draw w n = Ok (x, w')
  | S j => exists k w', draw w n = Ok (k, w') /\ hits j w' n x
  end.

(** It gives [x] within [j] further draws, unless a draw fails. *)
Fixpoint comes_up (j : nat) (w : W) (n x : Z) : Prop :=
  match draw w n with
  | Ok (k, w') => k = x \/ match j with O => False | S j => comes_up j w' n x end
  | Err _ => True
  end.

Lemma hits_comes_up j w n x : hits j w n x -> comes_up j w n x.
Proof.
  revert w; induction j as [|j IH]; intros w; cbn [hits comes_up].
  - intros [w' ->]. now left.
  - intros (k & w' & -> & Hh). right. now apply IH.
Qed.

(** Every value comes up before the loops that draw again give up. *)
Definition fair : Prop := forall w n x,
  I w -> 0 <= x < n -> n < 2 ^ 32 -> exists j, (j < tries)%nat /\ comes_up j w n x.

(** A draw of the generator. *)
Definition drawn (w w' : W) : Prop := exists n k, draw w n = Ok (k, w').

Definition in_range (n k : Z) : Prop := 0 <= k /\ (k < n \/ n <= 1 /\ k = 0).
Definition tokens_ok (toks : list (list Z)) : Prop := Forall bytes toks /\ Z.of_nat (length toks) < 2 ^ 32.

Record havoc_laws : Prop := {
  hl_run w c : I w -> good c -> or_stop Lost (common_fuzz_stuff w c) (fun '(w', _) => I w' /\ keeps w w');
  hl_draw w n : I w -> 0 <= n < 2 ^ 32 ->
    or_stop Lost (draw w n) (fun '(k, w') => I w' /\ keeps w w' /\ in_range n k);
  hl_items w : I w -> 0 <= queued_items w < 2 ^ 32;
  hl_len w tid : I w -> 0 <= tid < queued_items w -> exists l, entry_len w tid = Ok l;
  hl_get w tid l : I w -> 0 <= tid < queued_items w -> entry_len w tid = Ok l ->
    or_stop Lost (testcase_get w tid) (fun '(b, w') =>
      I w' /\ keeps w w' /\ bytes b /\ Z.of_nat (length b) = l /\ l <= MAX_FILE);
  hl_ready w : I w -> ready_for_splicing w = true -> exists tid, good_target w tid;
  hl_auto w : I w -> tokens_ok (a_extras w)
}.
Context (laws : havoc_laws) (Hextras : tokens_ok extras).

(** The loops that draw again may run out of fuel, or the generator is fair. *)
Context (Hends : Lost OutOfFuel \/ fair).

(** [sp]: splicing may be asked for; [au]: there are automatic tokens. *)
Context (sp au : bool).
Record J (w : W) : Prop := {
  j_inv : I w;
  j_splice : sp = true -> exists tid, good_target w tid;
  j_auto : au = true -> a_extras w <> []
}.

Lemma keeps_refl w : keeps w w.
Proof. now split. Qed.

Lemma keeps_trans w1 w2 w3 : keeps w1 w2 -> keeps w2 w3 -> keeps w1 w3.
Proof. intros [] []. split; auto. lia. Qed.

Lemma J_keeps w w' : J w -> I w' -> keeps w w' -> J w'.
Proof.
  intros [J1 J2 J3] Hi [K1 K2 K3]. split; auto. intros Hs. destruct (J2 Hs) as [tid Ht]. eauto.
Qed.

(** ** Rules for the steps *)

Abbreviation wp := (StagesSafe.wp Lost I).

Lemma wp_ret {A} (x : A) s (Q : A -> fz W -> Prop) : Q x s -> wp (mret x) s Q.
Proof. exact id. Qed.

Lemma wp_get {B} (k : fz W -> M W B) s Q : wp (k s) s Q -> wp (get ≫= k) s Q.
Proof. exact id. Qed.

Lemma wp_put s s' (Q : unit -> fz W -> Prop) : Q tt s' -> wp (put s') s Q.
Proof. exact id. Qed.

Lemma wp_lift {A} (m : res A) x s (Q : A -> fz W -> Prop) : m = Ok x -> Q x s -> wp (lift m) s Q.
Proof. intros -> HQ. exact HQ. Qed.

Lemma wp_lift_stop {A} (m : res A) s (P : A -> Prop) (Q : A -> fz W -> Prop) :
  or_stop Lost m P -> (forall x, P x -> Q x s) -> wp (lift m) s Q.
Proof. unfold StagesSafe.wp, lift. destruct m; cbn; auto. Qed.

Lemma wp_draw n s (Q : Z -> fz W -> Prop) :
  J (world s) -> 0 <= n < 2 ^ 32 ->
  (forall k w, J w -> keeps (world s) w -> draw (world s) n = Ok (k, w) -> in_range n k -> Q k (with_world w s)) ->
  wp (rand n) s Q.
Proof.
  intros Hj Hn HQ. unfold rand. apply wp_get. rewrite uwrap_id by lia.
  pose proof (hl_draw laws (world s) n (j_inv _ Hj) Hn) as Hd. unfold StagesSafe.wp.
  destruct (draw (world s) n) as [[k w]|e] eqn:E; [|exact Hd]. destruct Hd as (Hi & Hk & Hr).
  apply (HQ k w); auto. now apply (J_keeps (world s)).
Qed.

Lemma wp_rand n s (Q : Z -> fz W -> Prop) :
  J (world s) -> 1 <= n < 2 ^ 32 -> (forall k w, J w -> 0 <= k < n -> Q k (with_world w s)) -> wp (rand n) s Q.
Proof.
  intros Hj Hn HQ. apply wp_draw; [exact Hj|lia|]. intros k w Hw _ _ [H1 H2]. apply HQ; [exact Hw|lia].
Qed.

Lemma wp_temp_len s (Q : Z -> fz W -> Prop) : Q (Z.of_nat (length (out_buf s))) s -> wp temp_len s Q.
Proof. exact id. Qed.

(** Block lengths. *)
Lemma wp_block_len limit s (Q : Z -> fz W -> Prop) :
  J (world s) -> 1 <= limit < 2 ^ 32 ->
  (forall k w, J w -> 1 <= k <= limit -> k <= HAVOC_BLK_XL -> Q k (with_world w s)) ->
  wp (block_len queue_cycle run_over10m limit) s Q.
Proof.
  intros Hj Hl HQ. unfold block_len. apply wp_get. rewrite uwrap_id by lia. unfold choose_block_len.
  assert (Hdraw : forall w n, J w -> 0 <= n < 2 ^ 32 -> or_stop Lost (@rand_below W (@world_gen W _) w n) (fun '(k, w') => J w' /\ in_range n k)).
  { intros w n Hw Hn. eapply or_stop_mono; [exact (hl_draw laws w n (j_inv _ Hw) Hn)|]. intros [k w'] (Hi & Hk & Hr).
    split; [now apply (J_keeps w)|exact Hr]. }
  apply wp_bind. eapply (wp_lift_stop _ _ (fun '(k, w) => J w /\ 1 <= k <= limit /\ k <= HAVOC_BLK_XL));
    [|intros [k w'] (Jw & H1 & H2); apply wp_bind, wp_put, wp_ret; now apply HQ].
  apply or_stop_bind, or_stop_mono with (P := fun '(mn, mx, w) => J w /\ 1 <= mn <= mx /\ mx <= HAVOC_BLK_XL).
  { unfold block_range. set (rlim := if run_over10m then u32 (Z.min queue_cycle 3) else 1).
    assert (Hr : 0 <= rlim < 2 ^ 32) by (subst rlim; destruct run_over10m; [apply uwrap_range|]; lia).
    apply or_stop_bind. eapply or_stop_mono; [exact (Hdraw (world s) rlim Hj Hr)|]. intros [k w1] [J1 _].
    destruct (k =? 0); [split; [exact J1|cbv; intuition discriminate]|].
    destruct (k =? 1); [split; [exact J1|cbv; intuition discriminate]|].
    apply or_stop_bind. eapply or_stop_mono; [exact (Hdraw w1 10 J1 ltac:(lia))|]. intros [k2 w2] [J2 _].
    destruct (truthy k2); (split; [exact J2|cbv; intuition discriminate]). }
  intros [[mn mx] w1] (J1 & Hm & Hx). set (m := if limit <=? mn then 1 else mn).
  assert (Hm' : 1 <= m <= Z.min mx limit) by (unfold m; destruct (Z.leb_spec limit mn); lia).
  unfold HAVOC_BLK_XL in *. rewrite uwrap_id by lia.
  apply or_stop_bind. eapply or_stop_mono; [exact (Hdraw w1 (Z.min mx limit - m + 1) J1 ltac:(lia))|].
  intros [k w2] (J2 & Hk1 & Hk2). cbn [or_stop]. rewrite uwrap_id by lia. split; [exact J2|lia].
Qed.

Lemma wp_load k p s (Q : Z -> fz W -> Prop) :
  (p + k <= length (out_buf s))%nat -> Q (le_load (take k (drop p (out_buf s)))) s -> wp (load k p) s Q.
Proof. intros Hp HQ. unfold load. apply wp_get. rewrite bool_decide_eq_true_2 by done. exact HQ. Qed.

Lemma wp_memcpy p bs s (Q : unit -> fz W -> Prop) :
  (p + length bs <= length (out_buf s))%nat -> Q tt (with_buf (write_at p bs (out_buf s)) s) -> wp (memcpy_out p bs) s Q.
Proof. intros Hp HQ. unfold memcpy_out. apply wp_get. rewrite bool_decide_eq_true_2 by done. exact HQ. Qed.

Lemma slice_ok i n (buf : list Z) :
  0 <= i -> 0 <= n -> i + n <= Z.of_nat (length buf) -> slice i n buf = Ok (take (Z.to_nat n) (drop (Z.to_nat i) buf)).
Proof. intros. unfold slice. rewrite !(proj2 (Z.leb_le _ _)) by lia. reflexivity. Qed.

Lemma wp_read_out i n s (Q : list Z -> fz W -> Prop) :
  0 <= i -> 0 <= n -> i + n <= Z.of_nat (length (out_buf s)) ->
  Q (take (Z.to_nat n) (drop (Z.to_nat i) (out_buf s))) s -> wp (read_out i n) s Q.
Proof. intros Hi Hn Hl HQ. unfold read_out. apply wp_get. eapply wp_lift; [now apply slice_ok|exact HQ]. Qed.

Lemma wp_insert_bytes to bs s (Q : unit -> fz W -> Prop) :
  0 <= to <= Z.of_nat (length (out_buf s)) ->
  Q tt (with_buf (take (Z.to_nat to) (out_buf s) ++ bs ++ drop (Z.to_nat to) (out_buf s)) s) -> wp (insert_bytes to bs) s Q.
Proof.
  intros Hl HQ. unfold insert_bytes. apply wp_get, wp_bind. eapply wp_lift; [apply slice_ok; lia|].
  apply wp_bind. eapply wp_lift; [apply slice_ok; lia|]. apply wp_put.
  rewrite drop_0, (take_ge (drop _ _)) by (rewrite length_drop; lia). exact HQ.
Qed.

(** ** Good buffers *)

Lemma good_write p bs b :
  good b -> bytes bs -> (p + length bs <= length b)%nat -> good (write_at p bs b).
Proof.
  intros (H1 & H2) Hb Hp. split; [now apply bytes_write_at|]. now rewrite length_write_at by lia.
Qed.

Lemma good_store_at p k v b : good b -> (p + k <= length b)%nat -> 0 <= v -> good (write_at p (le_store k v) b).
Proof. intros Hg Hp Hv. apply good_write; [exact Hg|now apply le_store_bytes|now rewrite length_le_store]. Qed.

Lemma good_insert p bs b :
  good b -> bytes bs -> Z.of_nat (length b + length bs) <= MAX_FILE -> good (take p b ++ bs ++ drop p b).
Proof.
  intros (H1 & H2 & H3) Hb Hl. split.
  - apply Forall_app. split; [now apply bytes_take|]. apply Forall_app. split; [exact Hb|now apply bytes_drop].
  - rewrite !length_app, length_take, length_drop. lia.
Qed.

Lemma bytes_replicate n x : is_byte x -> bytes (replicate n x).
Proof. intros Hx. now apply Forall_replicate. Qed.

Lemma good_range b : good b -> 1 <= Z.of_nat (length b) <= MAX_FILE.
Proof. intros (_ & Hl & Hm). lia. Qed.

(** Only the world and the buffer differ. *)
Definition tweaked s (_ : unit) (s' : fz W) : Prop :=
  exists w b, s' = with_world w (with_buf b s) /\ J w /\ good b.
Definition safe_op (m : M W unit) : Prop :=
  forall s, J (world s) -> good (out_buf s) -> wp m s (tweaked s).

Lemma tweaked_same s : J (world s) -> good (out_buf s) -> tweaked s tt s.
Proof. intros Hj Hg. exists (world s), (out_buf s). split; [now destruct s|auto]. Qed.

Lemma tweaked_skip m s :
  m = mret tt -> J (world s) -> good (out_buf s) -> wp m s (tweaked s).
Proof. intros -> Hj Hg. now apply tweaked_same. Qed.

(** The pieces of the state. *)
Ltac proj := cbn [out_buf world with_world with_buf] in *.
Ltac tweak := eexists _, _; split; [reflexivity|]; split; [assumption|].
Ltac draws := (apply wp_rand; proj; [assumption|lia|]).
Ltac lens := apply wp_bind, wp_temp_len; proj.

Lemma wp_rand_at k s (Q : nat -> fz W -> Prop) :
  J (world s) -> good (out_buf s) -> (1 <= k <= length (out_buf s))%nat ->
  (forall p w, J w -> (p + k <= length (out_buf s))%nat -> Q p (with_world w s)) -> wp (rand_at k) s Q.
Proof.
  intros Hj Hg Hk HQ. apply good_range in Hg. unfold rand_at. lens. apply wp_bind. unfold MAX_FILE in Hg.
  draws. intros p w Hw Hp. apply wp_ret, HQ; [exact Hw|lia].
Qed.

Lemma tweaked_trans s s1 u s2 : tweaked s tt s1 -> tweaked s1 u s2 -> tweaked s u s2.
Proof. intros (w1 & b1 & -> & _) (w2 & b2 & -> & Hw & Hb). exists w2, b2. auto. Qed.

Lemma wp_after m s s1 :
  safe_op m -> tweaked s tt s1 -> wp m s1 (tweaked s).
Proof.
  intros Hm Ht. pose proof Ht as (w & b & -> & Hw & Hb). eapply wp_mono; [now apply Hm|].
  intros u s'. now apply tweaked_trans.
Qed.

Lemma wp_update k p f s w :
  J w -> good (out_buf s) -> (p + k <= length (out_buf s))%nat -> wp (update k p f) (with_world w s) (tweaked s).
Proof.
  intros Hj Hg Hp. unfold update. apply wp_bind, wp_load; [exact Hp|]. apply wp_memcpy; [now rewrite length_le_store|].
  exists w. eexists. split; [reflexivity|]. split; [exact Hj|]. apply good_store_at; [exact Hg|exact Hp|].
  apply uwrap_range. lia.
Qed.

(** ** The tweaks in place *)

Lemma flip_safe : safe_op havoc_flip.
Proof.
  intros s Hj Hg. pose proof (good_range _ Hg) as Hl. unfold MAX_FILE in Hl. unfold havoc_flip. lens. apply wp_bind.
  rewrite Z.shiftl_mul_pow2 by lia. draws. intros b w Hw Hb.
  eapply wp_ok; [apply FLIP_BIT_ok; proj; lia|].
  assert (Hgood : good (toggle (Z.to_nat b) (out_buf s))).
  { destruct Hg as (H1 & H2). split; [now apply (toggle_bytes (out_buf s))|].
    change (toggle (Z.to_nat b) (out_buf s)) with (toggles [Z.to_nat b] (out_buf s)). now rewrite length_toggles. }
  exists w, (toggle (Z.to_nat b) (out_buf s)). auto.
Qed.

Lemma too_short_spec k (n : nat) : (1 <= n)%nat ->
  if too_short k (Z.of_nat n) then True else (k <= n)%nat.
Proof. intros Hn. unfold too_short. destruct (Nat.ltb_spec 1 k), (Z.ltb_spec (Z.of_nat n) (Z.of_nat k)); cbn; lia. Qed.

Lemma interesting_safe k be : In k [1; 2; 4]%nat -> safe_op (havoc_interesting k be).
Proof.
  intros Hk s Hj Hg. pose proof (good_range _ Hg) as Hl. unfold havoc_interesting. lens.
  pose proof (too_short_spec k (length (out_buf s)) ltac:(lia)) as Hs. destruct (too_short _ _).
  { now apply tweaked_same. }
  assert (Hk1 : (1 <= k)%nat) by (destruct Hk as [<-|[<-|[<-|[]]]]; lia).
  apply wp_bind, wp_rand_at; [assumption..|lia|]. intros p w Hw Hp. apply wp_bind.
  assert (Hv : 1 <= Z.of_nat (length (values k)) < 2 ^ 32) by (destruct Hk as [<-|[<-|[<-|[]]]]; cbv; intuition discriminate).
  draws. intros j w' Hw' Hj'. apply wp_bind.
  destruct (rd_lt (values k) (Z.to_nat j)) as (v & Ev & _); [lia|]. apply (wp_lift _ v); [exact Ev|].
  apply wp_memcpy; [now rewrite length_le_store|]. proj. tweak. apply good_store_at; [exact Hg|exact Hp|].
  apply uwrap_range. lia.
Qed.

Lemma arith_safe k be sub : (1 <= k)%nat -> safe_op (havoc_arith k be sub).
Proof.
  intros Hk s Hj Hg. pose proof (good_range _ Hg) as Hl. unfold havoc_arith. lens.
  pose proof (too_short_spec k (length (out_buf s)) ltac:(lia)) as Hs. destruct (too_short _ _).
  { now apply tweaked_same. }
  apply wp_bind, wp_rand_at; [assumption..|lia|]. intros p w Hw Hp. apply wp_bind. unfold ARITH_MAX.
  draws. intros d w' Hw' Hd. now apply (wp_update _ _ _ s w').
Qed.

Lemma byte_safe f : safe_op (p ← rand_at 1; update 1 p f).
Proof.
  intros s Hj Hg. pose proof (good_range _ Hg). apply wp_bind, wp_rand_at; [assumption..|lia|]. intros p w Hw Hp.
  now apply wp_update.
Qed.

Lemma xor_safe : safe_op havoc_xor.
Proof.
  intros s Hj Hg. pose proof (good_range _ Hg). unfold havoc_xor. apply wp_bind, wp_rand_at; [assumption..|lia|].
  intros p w Hw Hp. apply wp_bind. draws. intros d w' Hw' Hd. now apply (wp_update _ _ _ s w').
Qed.

(** ** The blocks *)

Lemma wp_has_room s (Q : bool -> fz W -> Prop) :
  (forall room : bool, (room = true -> Z.of_nat (length (out_buf s)) + HAVOC_BLK_XL < MAX_FILE) -> Q room s) -> wp has_room s Q.
Proof. intros HQ. unfold has_room. lens. apply wp_ret, HQ. intros Hr. now apply Z.ltb_lt in Hr. Qed.

Lemma wp_fill_byte s (Q : Z -> fz W -> Prop) :
  J (world s) -> good (out_buf s) -> (forall b w, J w -> is_byte b -> Q b (with_world w s)) -> wp fill_byte s Q.
Proof.
  intros Hj Hg HQ. pose proof (good_range _ Hg). unfold fill_byte. apply wp_bind. draws. intros c w Hw _.
  destruct (truthy c).
  - draws. intros b w' Hw' Hb. apply HQ; [exact Hw'|exact Hb].
  - apply wp_bind, wp_rand_at; proj; [assumption..|lia|]. intros p w' Hw' Hp. apply wp_load; [exact Hp|].
    apply HQ; [exact Hw'|]. proj. destruct Hg as [Hb _].
    pose proof (le_load_bound (take 1 (drop p (out_buf s))) (bytes_take _ _ (bytes_drop _ _ Hb))) as Hl.
    rewrite length_take, length_drop in Hl. replace (1 `min` (length (out_buf s) - p))%nat with 1%nat in Hl by lia. exact Hl.
Qed.

Lemma clone_safe : safe_op (havoc_clone queue_cycle run_over10m).
Proof.
  intros s Hj Hg. pose proof (good_range _ Hg) as Hl. unfold MAX_FILE in Hl. unfold havoc_clone. apply wp_bind, wp_has_room.
  intros room Hroom. destruct room; cbn [negb]; [|now apply tweaked_same]. specialize (Hroom eq_refl).
  lens. apply wp_bind, wp_block_len; proj; [assumption|lia|]. intros n w1 J1 Hn Hx.
  apply wp_bind. draws. intros from w2 J2 Hf. apply wp_bind. draws. intros to w3 J3 Ht.
  apply wp_bind, wp_read_out; proj; [lia..|]. apply wp_insert_bytes; proj; [lia|]. tweak.
  apply good_insert; [exact Hg|apply bytes_take, bytes_drop, Hg|].
  rewrite length_take, length_drop. lia.
Qed.

Lemma insert_safe : safe_op (havoc_insert queue_cycle run_over10m).
Proof.
  intros s Hj Hg. pose proof (good_range _ Hg) as Hl. unfold MAX_FILE in Hl. unfold havoc_insert. apply wp_bind, wp_has_room.
  intros room Hroom. destruct room; cbn [negb]; [|now apply tweaked_same]. specialize (Hroom eq_refl).
  lens. apply wp_bind, wp_block_len; proj; [assumption|unfold HAVOC_BLK_XL; lia|]. intros n w1 J1 Hn Hx.
  apply wp_bind. draws. intros to w2 J2 Ht. apply wp_bind, wp_fill_byte; proj; [assumption..|]. intros b w3 J3 Hb.
  apply wp_insert_bytes; proj; [lia|]. tweak.
  apply good_insert; [exact Hg|now apply bytes_replicate|]. rewrite length_replicate. lia.
Qed.

Lemma copy_safe : safe_op (havoc_copy queue_cycle run_over10m).
Proof.
  intros s Hj Hg. pose proof (good_range _ Hg) as Hl. unfold MAX_FILE in Hl. unfold havoc_copy. lens.
  destruct (Z.ltb_spec (Z.of_nat (length (out_buf s))) 2); [now apply tweaked_same|].
  apply wp_bind, wp_block_len; proj; [assumption|lia|]. intros n w1 J1 Hn Hx.
  apply wp_bind. draws. intros from w2 J2 Hf. apply wp_bind. draws. intros to w3 J3 Ht.
  destruct (from =? to); [exists w3, (out_buf s); auto|].
  apply wp_bind, wp_read_out; proj; [lia..|]. apply wp_memcpy; proj; [rewrite length_take, length_drop; lia|]. tweak.
  apply good_write; [exact Hg|apply bytes_take, bytes_drop, Hg|]. rewrite length_take, length_drop. lia.
Qed.

Lemma fixed_safe : safe_op (havoc_fixed queue_cycle run_over10m).
Proof.
  intros s Hj Hg. pose proof (good_range _ Hg) as Hl. unfold MAX_FILE in Hl. unfold havoc_fixed. lens.
  destruct (Z.ltb_spec (Z.of_nat (length (out_buf s))) 2); [now apply tweaked_same|].
  apply wp_bind, wp_block_len; proj; [assumption|lia|]. intros n w1 J1 Hn Hx.
  apply wp_bind. draws. intros to w2 J2 Ht. apply wp_bind, wp_fill_byte; proj; [assumption..|]. intros b w3 J3 Hb.
  apply wp_memcpy; proj; [rewrite length_replicate; lia|]. tweak.
  apply good_write; [exact Hg|now apply bytes_replicate|]. rewrite length_replicate. lia.
Qed.

Lemma delete_safe : safe_op (havoc_delete queue_cycle run_over10m).
Proof.
  intros s Hj Hg. pose proof (good_range _ Hg) as Hl. unfold MAX_FILE in Hl. unfold havoc_delete. lens.
  destruct (Z.ltb_spec (Z.of_nat (length (out_buf s))) 2); [now apply tweaked_same|].
  apply wp_bind, wp_block_len; proj; [assumption|lia|]. intros n w1 J1 Hn Hx.
  apply wp_bind. draws. intros from w2 J2 Hf.
  apply wp_bind, wp_read_out; proj; [lia..|]. apply wp_bind, wp_read_out; proj; [lia..|]. apply wp_get, wp_put. proj. tweak.
  destruct Hg as (Hb & _). split; [apply Forall_app; split; apply bytes_take, bytes_drop, Hb|].
  rewrite length_app, !length_take, !length_drop. unfold MAX_FILE. lia.
Qed.

(** ** Drawing again *)

Lemma draw_until_ends f n x reject s (P : W -> Prop) (Q : Z -> fz W -> Prop) :
  Lost OutOfFuel \/ (exists j, (j < f)%nat /\ comes_up j (world s) n x) ->
  0 <= n < 2 ^ 32 -> J (world s) -> P (world s) ->
  (forall w w', P w -> keeps w w' -> drawn w w' -> P w') ->
  (forall w, J w -> P w -> reject w x = Ok false) ->
  (forall w k, J w -> P w -> in_range n k -> exists b, reject w k = Ok b) ->
  (forall k w, J w -> P w -> in_range n k -> reject w k = Ok false -> Q k (with_world w s)) ->
  wp (draw_until f n reject) s Q.
Proof.
  intros Hf Hn Hj HP HPk Hx Htot HQ. revert s Hf Hj HP HQ.
  induction f as [|f IH]; intros s Hf Hj HP HQ; [destruct Hf as [Hf|(j & Hf & _)]; [exact Hf|lia]|].
  cbn [draw_until]. apply wp_bind. apply wp_draw; [exact Hj|exact Hn|]. intros k w Hw Hk Ed Hr.
  pose proof (HPk _ _ HP Hk (ex_intro _ n (ex_intro _ k Ed))) as HPw. apply wp_get. proj.
  destruct (Htot w k Hw HPw Hr) as [b Eb]. apply wp_bind. eapply wp_lift; [exact Eb|]. destruct b.
  - eapply (IH (with_world w s)); [|exact Hw|exact HPw|intros k1 w1 J1 P1 R1 E1; exact (HQ k1 w1 J1 P1 R1 E1)].
    destruct Hf as [Hf|(j & Hjf & Hc)]; [now left|]. right. proj.
    assert (Hc' : k = x \/ match j with O => False | S j => comes_up j w n x end).
    { destruct j; cbn [comes_up] in Hc; rewrite Ed in Hc; exact Hc. }
    destruct Hc' as [-> |Hc']; [rewrite (Hx w Hw HPw) in Eb; discriminate|]. destruct j as [|j]; [destruct Hc'|].
    exists j. split; [lia|exact Hc'].
  - apply wp_ret. now apply HQ.
Qed.

Lemma wp_draw_until n x reject s (P : W -> Prop) (Q : Z -> fz W -> Prop) :
  0 <= x < n -> n < 2 ^ 32 -> J (world s) -> P (world s) ->
  (forall w w', P w -> keeps w w' -> drawn w w' -> P w') ->
  (forall w, J w -> P w -> reject w x = Ok false) ->
  (forall w k, J w -> P w -> in_range n k -> exists b, reject w k = Ok b) ->
  (forall k w, J w -> P w -> in_range n k -> reject w k = Ok false -> Q k (with_world w s)) ->
  wp (draw_until tries n reject) s Q.
Proof.
  intros Hxn Hn Hj. intros. eapply (draw_until_ends tries n x); eauto; [|lia].
  destruct Hends as [He|Hf]; [now left|right]. exact (Hf (world s) n x (j_inv _ Hj) Hxn Hn).
Qed.

Lemma switch_blocks_safe from to limit :
  0 <= from -> 0 <= to -> 1 <= limit < 2 ^ 32 ->
  forall s, J (world s) -> good (out_buf s) ->
  from + limit <= Z.of_nat (length (out_buf s)) -> to + limit <= Z.of_nat (length (out_buf s)) ->
  wp (switch_blocks queue_cycle run_over10m from to limit) s (tweaked s).
Proof.
  intros Hf Ht Hlim s Hj Hg H1 H2. unfold switch_blocks. apply wp_bind, wp_block_len; [assumption|lia|].
  intros n w Hw Hn _. apply wp_bind, wp_read_out; proj; [lia..|]. apply wp_bind, wp_read_out; proj; [lia..|].
  assert (Hl : forall i, 0 <= i -> i + n <= Z.of_nat (length (out_buf s)) ->
    length (take (Z.to_nat n) (drop (Z.to_nat i) (out_buf s))) = Z.to_nat n).
  { intros i Hi Hin. rewrite length_take, length_drop. lia. }
  assert (Hb : forall i, bytes (take (Z.to_nat n) (drop (Z.to_nat i) (out_buf s)))) by (intros i; apply bytes_take, bytes_drop, Hg).
  assert (Hg1 : good (write_at (Z.to_nat from) (take (Z.to_nat n) (drop (Z.to_nat to) (out_buf s))) (out_buf s))).
  { apply good_write; [exact Hg|apply Hb|]. rewrite Hl; lia. }
  apply wp_bind, wp_memcpy; proj; [rewrite Hl; lia|]. apply wp_memcpy; proj.
  - rewrite length_write_at by (rewrite Hl; lia). rewrite Hl; lia.
  - tweak. apply good_write; [exact Hg1|apply Hb|]. rewrite length_write_at by (rewrite Hl; lia). rewrite Hl; lia.
Qed.

Lemma switch_safe : safe_op (havoc_switch tries queue_cycle run_over10m).
Proof.
  intros s Hj Hg. pose proof (good_range _ Hg) as Hl. unfold MAX_FILE in Hl. unfold havoc_switch. lens.
  destruct (Z.ltb_spec (Z.of_nat (length (out_buf s))) 4) as [|H4]; [now apply tweaked_same|].
  apply wp_bind. draws. intros from w1 J1 Hf. apply wp_bind.
  apply (wp_draw_until _ (if from =? 0 then 1 else 0) _ _ (fun _ => True)); proj; auto.
  - destruct (from =? 0); lia.
  - lia.
  - intros w _ _. destruct (Z.eqb_spec from 0) as [->|Hne]; [reflexivity|]. now rewrite (proj2 (Z.eqb_neq _ _) Hne).
  - intros w k _ _ _. eauto.
  - intros to w2 J2 _ [Ht1 Ht2] Hne. injection Hne as Hne. apply Z.eqb_neq in Hne.
    apply (wp_mono _ _ _ _ (tweaked (with_world w2 s))); [|intros u s' (w & b & -> & Hw & Hb); exists w, b; auto].
    destruct (Z.ltb_spec from to); apply switch_blocks_safe; proj; auto; lia.
Qed.

(** ** Tokens *)

Lemma token_over_safe toks : toks <> [] -> tokens_ok toks -> safe_op (token_over toks).
Proof.
  intros Hne [Hb Hc] s Hj Hg. pose proof (good_range _ Hg) as Hl. unfold MAX_FILE in Hl.
  assert (0 < length toks)%nat by (destruct toks; [done|cbn; lia]).
  unfold token_over. apply wp_bind. draws. intros e w Hw He. apply wp_bind.
  destruct (rd_lt toks (Z.to_nat e)) as (t & Et & Ht); [lia|]. apply (wp_lift _ t); [exact Et|]. lens.
  pose proof (proj1 (Forall_lookup _ _) Hb _ _ Ht) as Htb.
  destruct (Z.ltb_spec (Z.of_nat (length (out_buf s))) (Z.of_nat (length t))); [exists w, (out_buf s); auto|].
  apply wp_bind. draws. intros i w2 J2 Hi. apply wp_memcpy; proj; [lia|]. tweak. apply good_write; [exact Hg|exact Htb|lia].
Qed.

Lemma token_insert_safe toks : toks <> [] -> tokens_ok toks -> safe_op (token_insert toks).
Proof.
  intros Hne [Hb Hc] s Hj Hg. pose proof (good_range _ Hg) as Hl. unfold MAX_FILE in Hl.
  assert (0 < length toks)%nat by (destruct toks; [done|cbn; lia]).
  unfold token_insert. apply wp_bind. draws. intros e w Hw He. apply wp_bind.
  destruct (rd_lt toks (Z.to_nat e)) as (t & Et & Ht); [lia|]. apply (wp_lift _ t); [exact Et|]. lens.
  pose proof (proj1 (Forall_lookup _ _) Hb _ _ Ht) as Htb.
  destruct (Z.leb_spec MAX_FILE (Z.of_nat (length (out_buf s)) + Z.of_nat (length t))) as [|Hfit]; [exists w, (out_buf s); auto|].
  apply wp_bind. draws. intros i w2 J2 Hi. apply wp_insert_bytes; proj; [lia|]. tweak.
  apply good_insert; [exact Hg|exact Htb|lia].
Qed.

(** ** Chunks of other test cases *)

Lemma wp_pick_target s (Q : list Z -> fz W -> Prop) :
  J (world s) -> (exists tid, good_target (world s) tid) ->
  (forall b w tid w1, J w -> bytes b -> 4 <= Z.of_nat (length b) <= MAX_FILE ->
     rtc drawn (world s) w1 -> good_target w1 tid -> testcase_get w1 tid = Ok (b, w) -> Q b (with_world w s)) ->
  wp (pick_target tries) s Q.
Proof.
  intros Hj [tid Ht] HQ. unfold pick_target. apply wp_get, wp_bind.
  pose proof (hl_items laws _ (j_inv _ Hj)) as Hi. set (n := queued_items (world s)) in *.
  apply (wp_draw_until _ tid _ _ (fun w => good_target w tid /\ n <= queued_items w /\ rtc drawn (world s) w)); auto.
  - apply Ht.
  - lia.
  - split; [exact Ht|]. split; [subst n; lia|reflexivity].
  - intros w w' (K1 & K2 & K0) [K3 K4 _] Hd. split; [auto|]. split; [lia|]. eapply rtc_r; eassumption.
  - intros w _ [(_ & Hc & l & El & Hl) _]. rewrite (proj2 (Z.eqb_neq _ _) Hc), El. cbn [mbind res_bind].
    now rewrite (proj2 (Z.ltb_ge _ _) Hl).
  - intros w k Hw (_ & Hk & _) [Hr1 Hr2]. destruct (k =? current_entry w); [eauto|].
    destruct (hl_len laws w k (j_inv _ Hw)) as [l El]; [destruct Ht; lia|]. rewrite El. cbn [mbind res_bind]. eauto.
  - intros k w Hw (_ & Hk & Hdr) [Hr1 Hr2] Er. apply wp_get, wp_bind. proj.
    destruct (Z.eqb_spec k (current_entry w)) as [|Hcur]; [discriminate|].
    destruct (hl_len laws w k (j_inv _ Hw)) as [l El]; [destruct Ht; lia|]. rewrite El in Er. cbn [mbind res_bind] in Er.
    injection Er as Er. apply Z.ltb_ge in Er.
    eapply wp_lift_stop; [apply or_stop_eqn, (hl_get laws w k l (j_inv _ Hw)); [destruct Ht; lia|exact El]|].
    intros [b w'] ((Hi' & Hk' & Hb & Hlb & Hm) & Eg). apply wp_bind, wp_put, wp_ret. proj.
    apply (HQ b w' k w); [now apply (J_keeps w)|exact Hb|lia|exact Hdr| |exact Eg].
    split; [destruct Ht; lia|]. split; [exact Hcur|]. exists l. split; [exact El|lia].
Qed.

Lemma splice_chunk_safe r : sp = true -> safe_op (splice_chunk tries queue_cycle run_over10m r).
Proof.
  intros Hsp s Hj Hg. pose proof (good_range _ Hg) as Hl. unfold MAX_FILE in Hl. unfold splice_chunk. apply wp_bind.
  apply wp_pick_target; [exact Hj|exact (j_splice _ Hj Hsp)|]. intros nb w1 tid0 w0 J1 Hb Hnl _ _ _. unfold MAX_FILE in Hnl. lens.
  destruct (_ || _) eqn:Ec.
  - apply wp_bind, wp_block_len; proj; [assumption|lia|]. intros n0 w2 J2 Hn0 _.
    set (n := if _ <? n0 then _ else n0).
    assert (Hn : 1 <= n <= Z.of_nat (length nb) - 1 /\ n <= Z.of_nat (length (out_buf s)))
      by (subst n; destruct (Z.ltb_spec (Z.of_nat (length (out_buf s))) n0); lia). clearbody n.
    apply wp_bind. draws. intros from w3 J3 Hf. apply wp_bind. draws. intros to w4 J4 Ht.
    apply wp_bind. eapply wp_lift; [apply slice_ok; lia|]. apply wp_memcpy; proj; [rewrite length_take, length_drop; lia|].
    tweak. apply good_write; [exact Hg|now apply bytes_take, bytes_drop|]. rewrite length_take, length_drop. lia.
  - apply orb_false_iff in Ec as [_ Ec]. apply Z.leb_gt in Ec.
    apply wp_bind, wp_block_len; proj; [assumption|lia|]. intros n w2 J2 Hn Hx.
    apply wp_bind. draws. intros from w3 J3 Hf. apply wp_bind. draws. intros to w4 J4 Ht.
    apply wp_bind. eapply wp_lift; [apply slice_ok; lia|]. apply wp_insert_bytes; proj; [lia|].
    tweak. apply good_insert; [exact Hg|now apply bytes_take, bytes_drop|]. rewrite length_take, length_drop. lia.
Qed.

(** ** The switch *)

Context (ascii_cmplog : bool).

Lemma auto_safe r :
  0 <= r -> r < (if au then r_cmp ascii_cmplog .<< 1 else 0) \/ sp = true ->
  safe_op (havoc_auto tries queue_cycle run_over10m a_extras ascii_cmplog r).
Proof.
  intros Hr Hcase s Hj Hg. unfold havoc_auto. apply wp_get. pose proof (hl_auto laws _ (j_inv _ Hj)) as Ht.
  case_bool_decide as Ee.
  - apply splice_chunk_safe; auto. destruct Hcase as [Hcase|]; [|done]. destruct au eqn:Eau; [|lia]. destruct (j_auto _ Hj Eau Ee).
  - destruct (_ <? _); [now apply token_over_safe|]. destruct (Z.ltb_spec r (r_cmp ascii_cmplog .<< 1)); [now apply token_insert_safe|].
    apply splice_chunk_safe; auto. destruct Hcase as [Hcase|]; [|done]. destruct au; lia.
Qed.

(** The values [r] has. *)
Definition op_ok (r : Z) : Prop :=
  0 <= r /\ (r < (MAX_HAVOC_ENTRY + 1) + (if bool_decide (extras = []) then 0 else 4) +
                 (if au then r_cmp ascii_cmplog .<< 1 else 0) \/ sp = true).

Lemma safe_if (c : bool) a b : safe_op a -> (c = false -> safe_op b) -> safe_op (if c then a else b).
Proof. destruct c; auto. Qed.

Ltac step tac := apply safe_if; [tac|intros ?].

Lemma op_safe r : op_ok r -> safe_op (havoc_op tries queue_cycle run_over10m extras a_extras ascii_cmplog r).
Proof.
  intros [Hr Hcase]. unfold havoc_op.
  step ltac:(apply flip_safe).
  step ltac:(apply interesting_safe; cbn; tauto).
  step ltac:(apply interesting_safe; cbn; tauto).
  step ltac:(apply interesting_safe; cbn; tauto).
  step ltac:(apply interesting_safe; cbn; tauto).
  step ltac:(apply interesting_safe; cbn; tauto).
  step ltac:(apply arith_safe; lia).
  step ltac:(apply arith_safe; lia).
  step ltac:(apply arith_safe; lia).
  step ltac:(apply arith_safe; lia).
  step ltac:(apply arith_safe; lia).
  step ltac:(apply arith_safe; lia).
  step ltac:(apply arith_safe; lia).
  step ltac:(apply arith_safe; lia).
  step ltac:(apply arith_safe; lia).
  step ltac:(apply arith_safe; lia).
  step ltac:(apply xor_safe).
  step ltac:(apply clone_safe).
  step ltac:(apply insert_safe).
  step ltac:(apply copy_safe).
  step ltac:(apply fixed_safe).
  step ltac:(apply byte_safe).
  step ltac:(apply byte_safe).
  step ltac:(apply byte_safe).
  step ltac:(apply switch_safe).
  step ltac:(apply delete_safe).
  rename select ((r <=? MAX_HAVOC_ENTRY) = false) into Hbig. apply Z.leb_gt in Hbig. unfold MAX_HAVOC_ENTRY in *.
  intros s Hj Hg. unfold havoc_default. case_bool_decide as Ee.
  - apply auto_safe; auto; [lia|]. destruct Hcase as [Hcase|]; [left; lia|now right].
  - destruct (_ <? 2); [now apply token_over_safe|]. destruct (Z.ltb_spec (r - (64 + 1)) 4); [now apply token_insert_safe|].
    apply auto_safe; auto; [lia|]. destruct Hcase as [Hcase|]; [left; lia|now right].
Qed.

(** ** One input *)

Context (expand_havoc idle_5s : bool) (havoc_stack_pow2 havoc_div havoc_max_mult : Z).
Context (Hpow : 1 <= havoc_stack_pow2 < 256) (Hmult : 0 <= havoc_max_mult < 256).

Lemma tweaks_safe r_max :
  1 <= r_max < 2 ^ 32 -> (forall r, 0 <= r < r_max -> op_ok r) ->
  safe_op (stack_tweaks tries queue_cycle run_over10m extras a_extras ascii_cmplog havoc_stack_pow2 r_max).
Proof.
  intros Hm Hr s Hj Hg. unfold stack_tweaks. apply wp_bind. draws. intros k w Hw Hk.
  apply (wp_for _ _ (fun _ => tweaked s tt)); [|exists w, (out_buf s); auto].
  intros x l s1 (w1 & b1 & -> & J1 & G1). apply wp_bind. draws. intros r w2 J2 Hr2.
  eapply wp_mono; [apply wp_after with (s := s); [apply op_safe, Hr, Hr2|exists w2, b1; auto]|]. now intros [] s'.
Qed.

Lemma wp_exec s (Q : unit -> fz W -> Prop) :
  J (world s) -> good (out_buf s) -> (forall w, J w -> Q tt (with_world w s)) -> wp exec s Q.
Proof.
  intros Hj Hg HQ. unfold exec. apply wp_get. unfold StagesSafe.wp, exec_buf.
  pose proof (hl_run laws _ _ (j_inv _ Hj) Hg) as Hr. destruct (common_fuzz_stuff _ _) as [[w b]|]; [|exact Hr].
  destruct Hr as [Hi Hk]. cbn [mbind res_bind]. destruct b; [exact Hi|]. apply HQ. now apply (J_keeps (world s)).
Qed.

(** How much longer finds can make the stage. *)
Definition growth (perf_score : Z) : Z :=
  if perf_score <=? havoc_max_mult * 100 then 2 * (havoc_max_mult * 100) / perf_score else 1.

Lemma growth_pos perf : 0 < perf -> 1 <= growth perf.
Proof.
  intros Hp. unfold growth. destruct (Z.leb_spec perf (havoc_max_mult * 100)); [|lia].
  apply Z.div_le_lower_bound; lia.
Qed.

Lemma growth_double perf : 0 < perf <= havoc_max_mult * 100 -> 2 * growth (2 * perf) <= growth perf.
Proof.
  intros Hp. unfold growth. rewrite (proj2 (Z.leb_le _ _) (proj2 Hp)).
  destruct (Z.leb_spec (2 * perf) (havoc_max_mult * 100)).
  - rewrite Z.div_mul_cancel_l by lia. apply Z.div_le_lower_bound; [lia|].
    pose proof (Z.mul_div_le (havoc_max_mult * 100) perf). nia.
  - apply Z.div_le_lower_bound; lia.
Qed.

(** The state between two inputs: [in_buf] is back in place. *)
Definition between s0 (in_buf : list Z) (c m : Z) s : Prop :=
  exists w, s = with_stage c m (with_world w (with_buf in_buf s0)) /\ J w.

Abbreviation body := (havoc_body tries queue_cycle run_over10m extras a_extras ascii_cmplog havoc_stack_pow2 havoc_max_mult).

Lemma body_safe r_max in_buf s0 c m perf queued s B :
  1 <= r_max < 2 ^ 32 -> (forall r, 0 <= r < r_max -> op_ok r) -> good in_buf ->
  between s0 in_buf c m s -> 0 <= c < m -> 0 < perf < 2 ^ 31 -> m * growth perf <= B < 2 ^ 32 ->
  wp (body r_max in_buf (perf, queued)) s (fun '(perf', _) s' =>
    0 < perf' < 2 ^ 31 /\ exists m', m <= m' /\ m' * growth perf' <= B /\ between s0 in_buf (c + 1) m' s').
Proof.
  intros Hr Hops Hin (w & -> & Hw) Hc Hp HB. pose proof (growth_pos perf ltac:(lia)) as Hgr.
  unfold havoc_body. apply wp_bind. eapply wp_mono; [apply tweaks_safe; [exact Hr|exact Hops|exact Hw|exact Hin]|].
  intros [] s1 (w1 & b1 & -> & J1 & G1). apply wp_bind, wp_exec; [exact J1|exact G1|]. intros w2 J2.
  apply wp_get, wp_bind, wp_put, wp_bind.
  assert (Hstep : forall m' (st : Z * Z) s2, between s0 in_buf c m' s2 -> m <= m' -> 0 < st.1 < 2 ^ 31 -> m' * growth st.1 <= B ->
    wp (stage_step ≫= fun _ => mret st) s2 (fun '(perf', _) s' =>
      0 < perf' < 2 ^ 31 /\ exists m', m <= m' /\ m' * growth perf' <= B /\ between s0 in_buf (c + 1) m' s')).
  { intros m' [p q] s2 (w3 & -> & J3) Hm' Hp' HB'. cbn [fst] in *. apply wp_bind. unfold stage_step. apply wp_get, wp_put, wp_ret.
    split; [exact Hp'|]. exists m'. split; [exact Hm'|]. split; [exact HB'|]. exists w3. split; [|exact J3].
    cbn [stage_cur stage_max with_stage]. rewrite uwrap_id by nia. reflexivity. }
  assert (Hb2 : between s0 in_buf c m (with_buf in_buf (with_world w2 (with_world w1 (with_buf b1 (with_stage c m (with_world w (with_buf in_buf s0))))))))
    by (exists w2; auto).
  destruct (_ =? queued).
  - apply wp_ret. apply (Hstep m); auto. cbn. lia. cbn. lia.
  - apply wp_bind. destruct (Z.leb_spec perf (havoc_max_mult * 100)).
    + pose proof (growth_double perf ltac:(lia)) as Hd. pose proof (growth_pos (2 * perf) ltac:(lia)).
      apply wp_get, wp_bind, wp_put, wp_ret, wp_ret. cbn [stage_cur stage_max with_stage with_buf with_world].
      rewrite (uwrap_id 32 (perf * 2)), (uwrap_id 32 (m * 2)) by nia. apply (Hstep (m * 2)); cbn [fst]; [|lia|lia|].
      * exists w2. auto.
      * replace (perf * 2) with (2 * perf) by lia. nia.
    + apply wp_ret, wp_ret. apply (Hstep m); cbn [fst]; auto; lia.
Qed.

Abbreviation loop := (havoc_loop tries queue_cycle run_over10m extras a_extras ascii_cmplog havoc_stack_pow2 havoc_max_mult).

Lemma loop_safe r_max in_buf s0 B :
  1 <= r_max < 2 ^ 32 -> (forall r, 0 <= r < r_max -> op_ok r) -> good in_buf -> B < 2 ^ 32 ->
  forall fuel c m perf queued s,
  between s0 in_buf c m s -> 0 <= c -> 0 < perf < 2 ^ 31 -> 0 < m -> m * growth perf <= B -> B <= c + Z.of_nat fuel ->
  wp (loop fuel r_max in_buf (perf, queued)) s (fun _ s' => exists c' m', between s0 in_buf c' m' s').
Proof.
  intros Hr Hops Hin HB fuel. induction fuel as [|fuel IH]; intros c m perf queued s Hb Hc Hp Hm HmB Hfuel;
    cbn [havoc_loop]; apply wp_get; pose proof Hb as (w & Es & Hw); pose proof (growth_pos perf ltac:(lia)).
  - replace (stage_cur s <? stage_max s) with false; [exists c, m; exact Hb|].
    symmetry. rewrite Es. cbn [stage_cur stage_max with_stage]. apply Z.ltb_ge. nia.
  - replace (stage_cur s <? stage_max s) with (c <? m) by (now rewrite Es).
    destruct (Z.ltb_spec c m); cbn [negb]; [|exists c, m; exact Hb].
    apply wp_bind. eapply wp_mono; [apply (body_safe r_max in_buf s0 c m perf queued s B); auto; lia|].
    intros [perf' q'] s' (Hp' & m' & Hm' & HB' & Hb'). eapply IH; [exact Hb'|lia|exact Hp'|lia|exact HB'|lia].
Qed.

End Havoc.

(** ** The stages *)

Section Stages.
Context {W : Type} `{Target W} `{Pool W}.
Context (Lost : abort -> Prop) (I : W -> Prop).
Context (tries : nat) (queue_cycle : Z) (run_over10m : bool).
Context (extras : list (list Z)) (a_extras : W -> list (list Z)).
Context (laws : havoc_laws Lost I a_extras) (Hextras : tokens_ok extras).
Context (Hends : Lost OutOfFuel \/ fair I tries).
Context (ascii_cmplog expand_havoc idle_5s : bool) (havoc_stack_pow2 havoc_div havoc_max_mult : Z).
Context (Hpow : 1 <= havoc_stack_pow2 < 256) (Hmult : 0 <= havoc_max_mult < 256) (Hdiv : 0 < havoc_div).
Implicit Types s : fz W.

Abbreviation wp := (StagesSafe.wp Lost I).

(** The number of inputs a stage runs at most. *)
Definition cycles_of (cycles perf_score : Z) : Z := Z.max HAVOC_MIN (cycles * perf_score / havoc_div / 256).
Definition longest (cycles perf_score : Z) : Z := cycles_of cycles perf_score * growth havoc_max_mult perf_score.

Lemma havoc_cycles_eq cycles perf :
  0 <= cycles * perf < 2 ^ 32 -> havoc_cycles havoc_div cycles perf = Ok (cycles_of cycles perf).
Proof.
  intros Hc. unfold havoc_cycles, cycles_of. rewrite (proj2 (Z.eqb_neq _ _)) by lia. rewrite uwrap_id by lia.
  rewrite Z.shiftr_div_pow2 by lia. change (2 ^ 8) with 256. f_equal. set (x := cycles * perf / havoc_div / 256). destruct (Z.ltb_spec x HAVOC_MIN); lia.
Qed.

(** The state between two stages. *)
Definition idle s : Prop :=
  I (world s) /\ (18 <= length (stage_finds s))%nat /\ (18 <= length (stage_cycles s))%nat.

Lemma r_max_ops w r :
  0 <= r < havoc_r_max extras a_extras ascii_cmplog expand_havoc idle_5s w ->
  op_ok extras (ready_for_splicing w) (negb (bool_decide (a_extras w = []))) ascii_cmplog r.
Proof.
  unfold havoc_r_max. intros Hr. split; [lia|]. destruct (ready_for_splicing w); [now right|left].
  assert (Er : r_cmp ascii_cmplog .<< 1 = if ascii_cmplog then MUTATE_ASCII_DICT else 4) by now destruct ascii_cmplog.
  rewrite !andb_false_r in Hr. rewrite Er. destruct (bool_decide (a_extras w = [])); cbn [negb]; lia.
Qed.

Abbreviation stage := (havoc_stage tries queue_cycle run_over10m extras a_extras ascii_cmplog
  expand_havoc idle_5s havoc_stack_pow2 havoc_div havoc_max_mult).

Lemma havoc_stage_safe fuel cycles n perf s :
  idle s -> good (out_buf s) -> (n < 18)%nat -> 0 <= cycles -> 0 < perf < 2 ^ 31 -> cycles * perf < 2 ^ 32 ->
  longest cycles perf < 2 ^ 32 -> longest cycles perf <= Z.of_nat fuel ->
  wp (stage fuel cycles n perf) s (fun _ s' => idle s' /\ out_buf s' = out_buf s).
Proof.
  intros (Hi & H1 & H2) Hg Hn Hc Hp Hcp Hlong Hfuel. unfold havoc_stage. apply wp_get, wp_bind.
  eapply wp_lift; [apply havoc_cycles_eq; nia|]. apply wp_bind, wp_put, wp_bind.
  set (w := world s). set (sp := ready_for_splicing w). set (au := negb (bool_decide (a_extras w = []))).
  set (m := cycles_of cycles perf). assert (Hm : 0 < m) by (unfold m, cycles_of, HAVOC_MIN; lia).
  assert (Hj : J I a_extras sp au w).
  { split; [exact Hi|exact (hl_ready _ _ _ laws w Hi)|]. unfold au. case_bool_decide; done. }
  eapply wp_mono; [apply (loop_safe Lost I tries queue_cycle run_over10m extras a_extras laws Hextras Hends sp au ascii_cmplog
     havoc_stack_pow2 havoc_max_mult Hpow Hmult _ (out_buf s) s (longest cycles perf)) with (c := 0) (m := m)|].
  - unfold havoc_r_max, MAX_HAVOC_ENTRY, MUTATE_ASCII_DICT. repeat case_match; lia.
  - exact (r_max_ops w).
  - exact Hg.
  - exact Hlong.
  - exists w. split; [now destruct s|exact Hj].
  - lia.
  - exact Hp.
  - exact Hm.
  - unfold longest. fold m. lia.
  - lia.
  - intros u s' (c' & m' & w' & -> & J').
    assert (Hst : has_stage (with_stage c' m' (with_world w' (with_buf (out_buf s) s))) n)
      by (split; cbn [stage_finds stage_cycles with_stage with_world with_buf]; lia).
    eapply wp_ok; [apply end_stage_ok; exact Hst|]. split; [|reflexivity]. destruct J' as [Hi' _ _]. split; [exact Hi'|].
    cbn [stage_finds stage_cycles with_stats with_stage with_world with_buf]. rewrite !length_alter. lia.
Qed.

End Stages.

(** ** Where two inputs differ *)

Lemma filter_seq_first (p : nat -> bool) a n i l :
  List.filter p (seq a n) = i :: l -> (a <= i < a + n)%nat /\ p i = true /\ forall j, (a <= j < i)%nat -> p j = false.
Proof.
  revert a; induction n as [|n IH]; intros a E; cbn [seq List.filter] in E; [discriminate|].
  destruct (p a) eqn:Ep.
  - injection E as -> _. split; [lia|]. split; [exact Ep|]. intros j Hj. lia.
  - apply IH in E as (H1 & H2 & H3). split; [lia|]. split; [exact H2|]. intros j Hj.
    destruct (decide (j = a)) as [->|]; [exact Ep|]. apply H3. lia.
Qed.

Lemma last_map_in {A} (f : A -> Z) l d : l <> [] -> exists x, In x l /\ List.last (map f l) d = f x.
Proof.
  intros Hl. induction l as [|a l IH]; [done|]. destruct l as [|b l]; [exists a; cbn; auto|].
  destruct IH as (x & Hx & E); [done|]. exists x. split; [now right|]. exact E.
Qed.

(** The first and a later offset at which two inputs differ. *)
Record differ_at (a b : list Z) (f l : nat) : Prop := {
  da_range : (l < length a)%nat /\ (l < length b)%nat;
  da_first : (f <= l)%nat /\ nth f a 0 <> nth f b 0;
  da_before j : (j < f)%nat -> nth j a 0 = nth j b 0;
  da_last : nth l a 0 <> nth l b 0
}.

Lemma locate_diffs_at a b f l :
  Z.of_nat (length a) < 2 ^ 31 ->
  locate_diffs a b (Nat.min (length a) (length b)) = Ok (f, l) -> 0 <= f -> 0 <= l -> differ_at a b (Z.to_nat f) (Z.to_nat l).
Proof.
  intros Ha E Hf Hl. rewrite locate_diffs_correct in E by lia. injection E as Ef El.
  set (d := diff_offsets a b _) in *. destruct d as [|i ds] eqn:Ed; [cbn in Ef; lia|].
  cbn [map hd] in Ef. destruct (last_map_in Z.of_nat (i :: ds) (-1)) as (x & Hx & Ex); [done|]. rewrite Ex in El.
  subst f l. rewrite !Nat2Z.id. unfold d, diff_offsets in Ed.
  assert (Hin : forall y, In y (i :: ds) -> (y < Nat.min (length a) (length b))%nat /\ nth y a 0 <> nth y b 0).
  { intros y Hy. rewrite <- Ed in Hy. apply List.filter_In in Hy as [Hy Hn]. apply in_seq in Hy.
    apply negb_true_iff, Z.eqb_neq in Hn. split; [lia|exact Hn]. }
  apply filter_seq_first in Ed as (H1 & H2 & H3). destruct (Hin x Hx) as [Hx1 Hx2].
  assert (Hix : (i <= x)%nat).
  { destruct (decide (x < i)%nat); [|lia]. specialize (H3 x ltac:(lia)). apply negb_false_iff, Z.eqb_eq in H3. done. }
  split; [lia| |intros j Hj|exact Hx2].
  - split; [exact Hix|]. now apply Hin; left.
  - specialize (H3 j ltac:(lia)). now apply negb_false_iff, Z.eqb_eq in H3.
Qed.

(** The result of a splice. *)
Definition joined (a b c : list Z) : Prop :=
  exists split f l, differ_at a b f l /\ (f <= split < l)%nat /\ c = take split a ++ drop split b /\
    c <> a /\ (c = b <-> split = f).

Lemma nth_join split (a b : list Z) j :
  (split <= length a)%nat ->
  nth j (take split a ++ drop split b) 0 = if decide (j < split)%nat then nth j a 0 else nth j b 0.
Proof.
  intros Hs. assert (Hl : length (take split a) = split) by (rewrite length_take; lia).
  rewrite !nth_lookup, lookup_app. case_decide.
  - now rewrite lookup_take_lt; [destruct (lookup_lt_is_Some_2 a j ltac:(lia)) as [x ->]|].
  - rewrite (lookup_ge_None_2 (take split a)) by lia. rewrite Hl, lookup_drop.
    now replace (split + (j - split))%nat with j by lia.
Qed.

Lemma joined_intro a b split f l :
  differ_at a b f l -> (f <= split < l)%nat -> joined a b (take split a ++ drop split b).
Proof.
  intros Hd Hs. exists split, f, l. pose proof Hd as [[Ra Rb] [Hf1 Hf2] Hbef Hlast].
  pose proof (fun j => nth_join split a b j ltac:(lia)) as Hn.
  split; [exact Hd|]. split; [exact Hs|]. split; [reflexivity|]. split.
  - intros E. specialize (Hn l). rewrite E, decide_False in Hn by lia. done.
  - split.
    + intros E. destruct (decide (split = f)) as [|Hne]; [done|]. specialize (Hn f). rewrite E, decide_True in Hn by lia. done.
    + intros ->. rewrite <- (take_drop f b) at 2. f_equal. apply (nth_ext _ _ 0 0); rewrite !length_take; [lia|].
      intros j Hj. rewrite !nth_lookup, !lookup_take_lt by lia. rewrite <- !nth_lookup. apply Hbef. lia.
Qed.

Section Splicing.
Context {W : Type} `{Target W} `{Pool W}.

(** [c] joins [in_buf] and the test case of another entry of at least four
    bytes: what [testcase_get] gives for it after some draws from [w]. *)
Definition spliced_in (w : W) (in_buf c : list Z) : Prop :=
  exists tid w1 w2 b, rtc drawn w w1 /\ good_target w1 tid /\ testcase_get w1 tid = Ok (b, w2) /\ joined in_buf b c.

Context (Lost : abort -> Prop) (I : W -> Prop).
Context (tries : nat) (queue_cycle : Z) (run_over10m : bool).
Context (extras : list (list Z)) (a_extras : W -> list (list Z)).
Context (laws : havoc_laws Lost I a_extras) (Hextras : tokens_ok extras).
Context (Hends : Lost OutOfFuel \/ fair I tries).
Context (ascii_cmplog expand_havoc idle_5s : bool) (havoc_stack_pow2 havoc_div havoc_max_mult : Z).
Context (Hpow : 1 <= havoc_stack_pow2 < 256) (Hmult : 0 <= havoc_max_mult < 256) (Hdiv : 0 < havoc_div).
Implicit Types s : fz W.

Abbreviation wp := (StagesSafe.wp Lost I).

(** A splice joins the input with an entry of the queue, or gives up. *)
Lemma splice_with_spec in_buf s :
  I (world s) -> (exists tid, good_target (world s) tid) -> good in_buf ->
  wp (splice_with tries in_buf) s (fun r s' =>
    exists w, s' = with_world w s /\ I w /\
      match r with Some c => good c /\ spliced_in (world s) in_buf c | None => True end).
Proof.
  intros Hi Ht Hg. pose proof (good_range _ Hg) as Hl. unfold MAX_FILE in Hl. unfold splice_with. apply wp_bind.
  apply (wp_pick_target Lost I tries a_extras laws Hends true false); [split; [exact Hi|auto|discriminate]|exact Ht|].
  intros nb w1 tid w0 J1 Hb Hnl Hdr Htid Hget. unfold MAX_FILE in Hnl. apply wp_bind.
  destruct (locate_diffs in_buf nb _) as [[f l]|e] eqn:Ed; [|rewrite locate_diffs_correct in Ed by lia; discriminate].
  apply (wp_lift Lost I _ (f, l)); [reflexivity|].
  destruct (_ || _) eqn:Ec; [apply wp_ret; exists w1; split; [reflexivity|]; split; [apply J1|done]|].
  rewrite !orb_false_iff in Ec. destruct Ec as [[Ef Ell] Efl].
  apply Z.ltb_ge in Ef, Ell. apply Z.eqb_neq in Efl.
  pose proof (locate_diffs_at in_buf nb f l ltac:(lia) Ed ltac:(lia) ltac:(lia)) as Hd.
  pose proof Hd as [[Ra Rb] [Hfl _] _ _]. apply wp_bind.
  apply (wp_rand Lost I a_extras laws true false); [exact J1|lia|]. intros k w2 J2 Hk.
  apply wp_bind. eapply wp_lift; [apply slice_ok; lia|]. apply wp_bind. eapply wp_lift; [apply slice_ok; lia|]. apply wp_ret.
  exists w2. split; [reflexivity|]. split; [apply J2|].
  rewrite drop_0, (take_ge (drop _ nb)) by (rewrite length_drop; lia).
  split; [|exists tid, w0, w1, nb; split; [exact Hdr|]; split; [exact Htid|]; split; [exact Hget|];
      apply (joined_intro _ _ _ (Z.to_nat f) (Z.to_nat l)); [exact Hd|lia]].
  split; [apply Forall_app; split; [apply bytes_take, Hg|now apply bytes_drop]|].
  rewrite length_app, length_take, length_drop. unfold MAX_FILE. lia.
Qed.

Abbreviation splice_loop := (splicing tries queue_cycle run_over10m extras a_extras ascii_cmplog
  expand_havoc idle_5s havoc_stack_pow2 havoc_div havoc_max_mult).

Lemma splicing_safe fuel perf orig_in :
  0 < perf < 2 ^ 24 -> good orig_in ->
  longest havoc_div havoc_max_mult SPLICE_HAVOC perf < 2 ^ 32 ->
  longest havoc_div havoc_max_mult SPLICE_HAVOC perf <= Z.of_nat fuel ->
  forall more s, idle I s -> wp (splice_loop fuel more orig_in perf) s (fun _ => idle I).
Proof.
  intros Hp Hg Hlong Hfuel more. induction more as [|more IH]; intros s Hs; cbn [splicing]; [exact Hs|].
  apply wp_get. destruct (_ || _) eqn:Er; [exact Hs|]. apply orb_false_iff in Er as [Er _]. apply negb_false_iff in Er.
  destruct Hs as (Hi & H1 & H2). apply wp_bind. eapply wp_mono.
  { apply splice_with_spec; [exact Hi|exact (hl_ready _ _ _ laws _ Hi Er)|exact Hg]. }
  intros r s' (w & -> & Hw & Hr). destruct r as [c|]; [|apply IH; now repeat split].
  destruct Hr as [Hc _]. apply wp_get, wp_bind, wp_put, wp_bind. eapply wp_mono.
  { apply (havoc_stage_safe Lost I tries queue_cycle run_over10m extras a_extras laws Hextras Hends ascii_cmplog expand_havoc
      idle_5s havoc_stack_pow2 havoc_div havoc_max_mult Hpow Hmult Hdiv); auto; try (unfold SPLICE_HAVOC; lia). now repeat split. }
  intros u s' [Hs' _]. now apply IH.
Qed.

Lemma random_stages_spec fuel doing_det use_splicing perf s :
  idle I s -> good (out_buf s) -> 0 < perf <= havoc_max_mult * 100 ->
  longest havoc_div havoc_max_mult HAVOC_CYCLES_INIT perf < 2 ^ 32 ->
  longest havoc_div havoc_max_mult HAVOC_CYCLES_INIT perf <= Z.of_nat fuel ->
  wp (random_stages tries queue_cycle run_over10m extras a_extras ascii_cmplog expand_havoc idle_5s
        havoc_stack_pow2 havoc_div havoc_max_mult fuel doing_det use_splicing perf) s (fun _ => idle I).
Proof.
  intros Hs Hg Hp Hlong Hfuel. unfold random_stages. apply wp_get, wp_bind.
  assert (Hle : forall c, 0 <= c <= HAVOC_CYCLES_INIT -> longest havoc_div havoc_max_mult c perf
    <= longest havoc_div havoc_max_mult HAVOC_CYCLES_INIT perf).
  { intros c Hc. unfold longest, cycles_of. apply Z.mul_le_mono_nonneg_r; [pose proof (growth_pos havoc_max_mult perf ltac:(lia)); lia|].
    apply Z.max_le_compat_l, Z.div_le_mono, Z.div_le_mono; nia. }
  pose proof (Hle HAVOC_CYCLES ltac:(unfold HAVOC_CYCLES, HAVOC_CYCLES_INIT; lia)) as L1.
  pose proof (Hle SPLICE_HAVOC ltac:(unfold SPLICE_HAVOC, HAVOC_CYCLES_INIT; lia)) as L2.
  eapply wp_mono.
  { apply (havoc_stage_safe Lost I tries queue_cycle run_over10m extras a_extras laws Hextras Hends ascii_cmplog expand_havoc
      idle_5s havoc_stack_pow2 havoc_div havoc_max_mult Hpow Hmult Hdiv); auto;
    try (destruct doing_det; unfold HAVOC_CYCLES, HAVOC_CYCLES_INIT in *; lia). }
  intros u s' [Hs' _]. destruct use_splicing; [|exact Hs'].
  apply splicing_safe; auto; lia.
Qed.
End Splicing.

(** However many finds, a stage runs fewer than [2 ^ 20] inputs. *)
Lemma longest_bound havoc_div havoc_max_mult cycles perf :
  0 < havoc_div -> 0 <= havoc_max_mult < 256 -> 0 <= cycles <= HAVOC_CYCLES_INIT -> 0 < perf <= havoc_max_mult * 100 ->
  longest havoc_div havoc_max_mult cycles perf <= 2 ^ 20.
Proof.
  intros Hd Hm Hc Hp. unfold longest, cycles_of, growth. rewrite (proj2 (Z.leb_le perf _)) by lia.
  pose proof (Z.mul_div_le (2 * (havoc_max_mult * 100)) perf ltac:(lia)) as Hg.
  set (g := 2 * (havoc_max_mult * 100) / perf) in *.
  assert (Hg0 : 0 <= g) by (apply Z.div_pos; lia).
  assert (Hx : cycles * perf / havoc_div / 256 <= 4 * perf).
  { apply Z.div_le_upper_bound; [lia|]. apply Z.div_le_upper_bound; [lia|]. unfold HAVOC_CYCLES_INIT in Hc. nia. }
  unfold HAVOC_MIN. set (x := cycles * perf / havoc_div / 256) in *.
  assert (Hgc : g <= 2 * (havoc_max_mult * 100)) by (apply Z.div_le_upper_bound; nia).
  destruct (Z.max_spec 12 x) as [[_ ->]|[_ ->]]; nia.
Qed.

(** More ways to end. *)
Lemma havoc_laws_weaken {W} `{Target W} `{Pool W} (Lost Lost' : abort -> Prop) I a_extras :
  (forall e, Lost e -> Lost' e) -> havoc_laws Lost I a_extras -> havoc_laws Lost' I a_extras.
Proof. intros HL []. split; eauto using or_stop_weaken. Qed.

(** C4: The random stages are safe.  Let the parts of the fuzzer keep an
    invariant, with entries of at most [MAX_FILE] bytes, and fail only in the
    ways [Lost].  Then whatever is drawn, havoc and all rounds of splicing
    never read or write outside the live bytes of any buffer, hand the target
    only non-empty inputs of at most [MAX_FILE] bytes, keep the invariant, and
    fail only if an execution, the loading of a test case or a draw does, or
    if a loop that draws again does so [tries] times.  With a generator for
    which every value comes up within [tries] draws the loops always end, and
    only the first remain; no stage runs more than [2 ^ 20] inputs.  This is
    for a score of the deterministic kind, at most 100 times [havoc_max_mult],
    and the limits of [havoc_stack_pow2] and [havoc_max_mult] as bytes. *)
Theorem random_stages_correct {W} `{Target W} `{Pool W} Lost I tries queue_cycle run_over10m extras a_extras
    ascii_cmplog expand_havoc idle_5s havoc_stack_pow2 havoc_div havoc_max_mult fuel doing_det use_splicing perf (s : fz W) :
  havoc_laws Lost I a_extras -> tokens_ok extras ->
  1 <= havoc_stack_pow2 < 256 -> 0 <= havoc_max_mult < 256 -> 0 < havoc_div -> 0 < perf <= havoc_max_mult * 100 ->
  2 ^ 20 <= Z.of_nat fuel ->
  idle I s -> good (out_buf s) ->
  match random_stages tries queue_cycle run_over10m extras a_extras ascii_cmplog expand_havoc idle_5s
          havoc_stack_pow2 havoc_div havoc_max_mult fuel doing_det use_splicing perf s with
  | Ok (s', Some tt) => idle I s'
  | Ok (s', None) => I (world s')
  | Err e => (Lost e \/ e = OutOfFuel) /\ (fair I tries -> Lost e)
  end.
Proof.
  intros Hlaws Hex Hpow Hmult Hdiv Hp Hfuel Hs Hg.
  pose proof (longest_bound havoc_div havoc_max_mult HAVOC_CYCLES_INIT perf Hdiv Hmult ltac:(unfold HAVOC_CYCLES_INIT; lia) Hp).
  pose proof (fun Lost' Hw Hends => random_stages_spec Lost' I tries queue_cycle run_over10m extras a_extras
    (havoc_laws_weaken Lost Lost' I a_extras Hw Hlaws) Hex Hends ascii_cmplog expand_havoc idle_5s
    havoc_stack_pow2 havoc_div havoc_max_mult Hpow Hmult Hdiv fuel doing_det use_splicing perf s Hs Hg Hp ltac:(lia) ltac:(lia)) as Hrun.
  pose proof (Hrun (fun e => Lost e \/ e = OutOfFuel) (fun e He => or_introl He) (or_introl (or_intror eq_refl))) as Hany.
  pose proof (fun Hf => Hrun Lost (fun e He => He) (or_intror Hf)) as Hfair.
  unfold StagesSafe.wp in Hany, Hfair. destruct (random_stages _ _ _ _ _ _ _ _ _ _ _ _ _ _ _ s) as [[s' [[]|]]|e]; auto.
Qed.

(** C5: A splice joins two inputs.  [splice_with] gives up, or the new input
    is a prefix of the old one followed by the rest of the test case of
    another entry of the queue, of at least four bytes, cut between the first
    and the last offset at which they differ.  It is never the old input; but
    it is the other test case unchanged exactly when the cut is at the first
    difference, which the draw allows.  It fails only if a draw or loading
    the test case does, or, unless the generator is fair, as the loop that
    looks for the other entry does not end. *)
Theorem splice_with_correct {W} `{Target W} `{Pool W} Lost I tries a_extras in_buf (s : fz W) :
  havoc_laws Lost I a_extras -> Lost OutOfFuel \/ fair I tries ->
  I (world s) -> (exists tid, good_target (world s) tid) -> good in_buf ->
  match splice_with tries in_buf s with
  | Ok (s', Some (Some c)) => out_buf s' = out_buf s /\ I (world s') /\ good c /\ spliced_in (world s) in_buf c
  | Ok (s', Some None) => out_buf s' = out_buf s /\ I (world s')
  | Ok (s', None) => I (world s')
  | Err e => Lost e
  end.
Proof.
  intros Hlaws Hends Hi Ht Hg.
  pose proof (splice_with_spec Lost I tries a_extras Hlaws Hends in_buf s Hi Ht Hg) as Hw.
  unfold StagesSafe.wp in Hw. destruct (splice_with tries in_buf s) as [[s' [[c|]|]]|]; [..|exact Hw|exact Hw];
    destruct Hw as (w & -> & Hw & Hr); auto.
Qed.

(** ** Generators that count

    [f] reads the counter, [g] steps it. *)

Section Counting.
Context {W : Type} `{Target W} (f : W -> Z) (g : W -> W).
Context (Hdraw : forall w n, 1 < n -> draw w n = Ok (f w mod n, g w)) (Htrivial : forall w, draw w 1 = Ok (0, w)).
Context (Hstep : forall w, f (g w) = f w + 1).

Lemma counting_hits j w n x : 0 <= x < n -> (f w + Z.of_nat j) mod n = x -> 1 < n -> hits j w n x.
Proof.
  intros Hx. revert w; induction j as [|j IH]; intros w E Hn; cbn [hits]; rewrite Hdraw by done.
  - rewrite Z.add_0_r in E. rewrite E. eauto.
  - do 2 eexists. split; [reflexivity|]. apply IH; [|exact Hn]. rewrite <- E, Hstep. f_equal. lia.
Qed.

Lemma counting_fair tries w n x : 2 ^ 32 <= Z.of_nat tries -> 0 <= x < n -> n < 2 ^ 32 ->
  exists j, (j < tries)%nat /\ hits j w n x.
Proof.
  intros Ht Hx Hn. destruct (decide (n = 1)) as [->|].
  - exists O. split; [lia|]. exists w. now replace x with 0 by lia.
  - exists (Z.to_nat ((x - f w) mod n)). pose proof (Z.mod_pos_bound (x - f w) n ltac:(lia)). split; [lia|].
    apply counting_hits; [exact Hx| |lia]. rewrite Z2Nat.id by lia. rewrite Zplus_mod_idemp_r.
    replace (f w + (x - f w)) with x by lia. apply Z.mod_small. lia.
Qed.
End Counting.

(** ** A fuzzer of two entries with a counter for a generator *)

#[local] Instance two_target : Target Z := {|
  common_fuzz_stuff w c := Ok (w, false);
  trace_cksum w := 0;
  hit_cnt w := 2;
  maybe_add_auto w t := Ok w;
  draw w n := Ok (if n <=? 1 then (0, w) else (w mod n, w + 1))
|}.

#[local] Instance two_pool : Pool Z := {|
  queued_items w := 2;
  current_entry w := 0;
  entry_len w tid := Ok 5;
  testcase_get w tid := Ok ([1; 2; 7; 4; 8], w);
  ready_for_splicing w := true
|}.

Lemma two_laws : havoc_laws (dies False) (fun _ : Z => True) (fun _ => [[9]]).
Proof.
  split; cbn.
  - intros w c _ _. split; [done|apply keeps_refl].
  - intros w n _ Hn. destruct (Z.leb_spec n 1); (split; [done|]).
    + split; [apply keeps_refl|]. split; lia.
    + split; [now split|]. pose proof (Z.mod_pos_bound w n ltac:(lia)). split; lia.
  - intros w _. lia.
  - eauto.
  - intros w tid l _ _ [= <-]. split; [done|]. split; [apply keeps_refl|]. split; [now apply bytesb_spec|].
    split; [reflexivity|unfold MAX_FILE; lia].
  - intros w _ _. exists 1. split; [cbn; lia|]. split; [cbn; lia|]. exists 5. cbn. split; [done|lia].
  - intros w _. split; [|cbn; lia]. constructor; [now apply bytesb_spec|constructor].
Qed.

Lemma two_fair (tries : nat) : 2 ^ 32 <= Z.of_nat tries -> fair (fun _ : Z => True) tries.
Proof.
  intros Ht w n x _ Hx Hn.
  destruct (counting_fair id (fun w => w + 1)) with (tries := tries) (w := w) (n := n) (x := x) as (j & Hj & Hh); auto; cbn.
  - intros v m Hm. now rewrite (proj2 (Z.leb_gt _ _) Hm).
  - exists j. split; [exact Hj|now apply hits_comes_up].
Qed.

Definition two0 : fz Z := mkFz 5 [1; 2; 3; 4; 5; 6] 0 0 0 (replicate 32 0) (replicate 32 0) 0 0.

Lemma two0_good : good (out_buf two0).
Proof. split; [now apply bytesb_spec|]. cbn [out_buf two0 length]. unfold MAX_FILE. lia. Qed.

Lemma random_stages_correct_witness :
  match random_stages (Z.to_nat (2 ^ 32)) 3 true [[65; 66]] (fun _ => [[9]]) false true true 4 1 64
          (Z.to_nat (2 ^ 20)) true true 100 two0 with
  | Ok (s', Some tt) => idle (fun _ => True) s'
  | Ok (s', None) => True
  | Err e => e = Fatal /\ False
  end.
Proof.
  assert (Hex : tokens_ok [[65; 66]]) by (split; [constructor; [now apply bytesb_spec|constructor]|cbn; lia]).
  assert (Hs : idle (fun _ => True) two0) by (split; [done|cbn; lia]).
  assert (Ht : 2 ^ 32 <= Z.of_nat (Z.to_nat (2 ^ 32))) by (rewrite Z2Nat.id; lia).
  assert (Hf : 2 ^ 20 <= Z.of_nat (Z.to_nat (2 ^ 20))) by (rewrite Z2Nat.id; lia).
  pose proof (random_stages_correct (dies False) (fun _ => True) (Z.to_nat (2 ^ 32)) 3 true [[65; 66]] (fun _ => [[9]]) false true true 4 1 64
    (Z.to_nat (2 ^ 20)) true true 100 two0 two_laws Hex ltac:(lia) ltac:(lia) ltac:(lia) ltac:(lia) Hf Hs two0_good) as Hr.
  destruct (random_stages _ _ _ _ _ _ _ _ _ _ _ _ _ _ _ two0) as [[s' [[]|]]|e]; [exact Hr..|].
  exact (proj2 Hr (two_fair _ Ht)).
Defined.

Lemma splice_with_correct_witness :
  match splice_with (Z.to_nat (2 ^ 32)) [1; 2; 3; 4; 5; 6] two0 with
  | Ok (s', Some (Some c)) => out_buf s' = out_buf two0 /\ True /\ good c /\ spliced_in 5 [1; 2; 3; 4; 5; 6] c
  | Ok (s', Some None) => out_buf s' = out_buf two0 /\ True
  | Ok (_, None) => True
  | Err e => e = Fatal /\ False
  end.
Proof.
  assert (Ht : 2 ^ 32 <= Z.of_nat (Z.to_nat (2 ^ 32))) by (rewrite Z2Nat.id; lia).
  apply (splice_with_correct (dies False) (fun _ => True) (Z.to_nat (2 ^ 32)) (fun _ => [[9]]) [1; 2; 3; 4; 5; 6] two0
    two_laws (or_intror (two_fair _ Ht)) Logic.I (hl_ready _ _ _ two_laws 5 Logic.I eq_refl) two0_good).
Defined.

(** The other entry as it is. *)
Lemma splice_can_be_the_other :
  match splice_with 4 [1; 2; 3; 4; 5; 6] (with_world 8 two0) with
  | Ok (_, Some (Some c)) => c = [1; 2; 7; 4; 8]
  | _ => False
  end.
Proof. vm_compute. reflexivity. Qed.
