(* ===== verification/Colorize.v ===== *)
(** Colorization, the first half of input-to-state fuzzing in
    [src/afl-fuzz-redqueen.c]: replace as much of the input as can be replaced
    without the target taking another path. *)

From S2P Require Import Prelude Words Arith Float Bitmap State Text Rand Dedup Extras Stages Havoc.

Definition CMPLOG_POSITIONS_MAX : Z := 12 * 1024.
Definition CMPLOG_CORPUS_PERCENT : Z := 5.
Definition STAGE_COLORIZATION : nat := 20.

(** What CmpLog asks of the fuzzer beyond [Target]: the clock and
    [active_items]. *)
Class CmpLog (W : Type) := {
  now_us : W -> Z * W;
  live_items : W -> Z
}.

(** ** Ranges

    The linked list [ranges] is a list, a pointer into it an index. *)

Record range := mkRange { r_start : Z; r_end : Z; r_ok : Z }.

Definition add_range (ranges : list range) (start end_ : Z) : list range := mkRange start end_ 0 :: ranges.

(** The last of the longest ranges that are not done; [i] is the index of the
    head of [r]. *)
Fixpoint pop_biggest (r : list range) (i : nat) (max_size : Z) (rmax : option nat) : option nat :=
  match r with
  | [] => rmax
  | x :: r =>
      let s := u32 (1 + r_end x - r_start x) in
      if negb (truthy (r_ok x)) && (max_size <=? s) then pop_biggest r (S i) s (Some i)
      else pop_biggest r (S i) max_size rmax
  end.
Definition pop_biggest_range (ranges : list range) : option nat := pop_biggest ranges 0 0 None.

(** A taint: [len] bytes at [pos]; the last one is the head of the list. *)
Record tainted := mkTaint { t_pos : Z; t_len : Z }.

Section Colorize.
Context {W : Type} `{Target W} `{CmpLog W}.
Context (tries : nat).

(** ** Replacements *)

(** [do { c = ... } while (c == b)] *)
Fixpoint until_other (fuel : nat) (c : M W Z) (b : Z) : M W Z :=
  match fuel with
  | O => lift (Err OutOfFuel)
  | S f => x ← c; if x =? b then until_other f c b else mret x
  end.

Fixpoint replace_all (f : Z -> M W Z) (buf : list Z) : M W (list Z) :=
  match buf with
  | [] => mret []
  | b :: buf => c ← f b; buf ← replace_all f buf; mret (c :: buf)
  end.

Definition random_replace (buf : list Z) : M W (list Z) := replace_all (until_other tries (rand 256)) buf.

(** The ranges of characters that are replaced among themselves: A-F, a-f,
    2-9, G-Z, g-z, !-*, the comma to the dot, :-@, [-`, {-~. *)
Definition type_ranges : list (Z * Z) :=
  [(65, 70); (97, 102); (50, 57); (71, 90); (103, 122); (33, 42); (44, 46); (58, 64); (91, 96); (123, 126)].

Definition in_type (b : Z) (r : Z * Z) : bool := (r.1 <=? b) && (b <=? r.2).

(** The other characters: 0/1, +, /, blank and tab, CR and LF, ... *)
Definition type_other (b : Z) : Z :=
  if b =? 48 then 49 else if b =? 49 then 48
  else if b =? 43 then 47 else if b =? 47 then 43
  else if b =? 32 then 9 else if b =? 9 then 32
  else if b =? 13 then 10 else if b =? 10 then 13
  else if b =? 0 then 1 else if b =? 1 then 0
  else if b =? 0xff then 0
  else if b <? 32 then b .^ 0x1f else b .^ 0x7f.

Definition type_draw (b : Z) : M W Z :=
  match List.find (in_type b) type_ranges with
  | Some (lo, hi) => k ← rand (1 + hi - lo); mret (lo + k)
  | None => mret (type_other b)
  end.

Definition type_replace (buf : list Z) : M W (list Z) := replace_all (fun b => until_other tries (type_draw b) b) buf.

(** ** Searching the ranges *)

Definition get_exec_checksum : M W Z := _ ← exec; s ← get; mret (trace_cksum (world s)).

Definition now : M W Z := s ← get; let '(t, w) := now_us (world s) in _ ← put (with_world w s); mret t.

(** [fixed_seed]; [queue_cur->exec_us]. *)
Context (fixed_seed : bool) (exec_us : Z).

(** One round of the first loop, on the range at index [i]. *)
Definition color_step (exec_cksum : Z) (backup changed : list Z) (i : nat) (ranges : list range) : M W (list range) :=
  rng ← lift (rd ranges i);
  let s := u32 (1 + r_end rng - r_start rng) in
  colour ← lift (slice (r_start rng) s changed);
  _ ← memcpy_out (Z.to_nat (r_start rng)) colour;
  start_us ← now;
  cksum ← get_exec_checksum;
  stop_us ← now;
  _ ← stage_step;
  if negb (cksum =? exec_cksum) || ((u64 (3 * exec_us) <? u64 (stop_us - start_us)) && negb fixed_seed) then
    old ← lift (slice (r_start rng) s backup);
    _ ← memcpy_out (Z.to_nat (r_start rng)) old;
    let rest := delete i ranges in
    mret (if 1 <? s
          then add_range (add_range rest (r_start rng) (u32 (r_start rng - 1 + s / 2)))
                 (u32 (r_start rng + s / 2)) (r_end rng)
          else rest)
  else mret (<[i := mkRange (r_start rng) (r_end rng) 1]> ranges).

Fixpoint color_loop (fuel : nat) (exec_cksum : Z) (backup changed : list Z) (ranges : list range) : M W (list range) :=
  s ← get;
  match pop_biggest_range ranges with
  | Some i =>
      if stage_cur s <? stage_max s then
        match fuel with
        | O => lift (Err OutOfFuel)
        | S f => ranges ← color_step exec_cksum backup changed i ranges; color_loop f exec_cksum backup changed ranges
        end
      else mret ranges
  | None => mret ranges
  end.

(** ** From ranges to taints *)

Definition adjacent (taint : list tainted) (r : range) : bool :=
  match taint with t :: _ => u32 (t_pos t + t_len t) =? r_start r | [] => false end.

(** One scan of the ranges: [inl]: this one extends the last taint; [inr]: the
    one that starts first. *)
Fixpoint scan (taint : list tainted) (rng : list range) (i : nat) (pos : Z) (r : option nat) : nat + option nat :=
  match rng with
  | [] => inr r
  | x :: rng =>
      if (r_ok x =? 1) && (r_start x <? pos) then
        if adjacent taint x then inl i else scan taint rng (S i) (r_start x) (Some i)
      else scan taint rng (S i) pos r
  end.

Definition range_len (r : range) : Z := u32 (1 + r_end r - r_start r).

Definition used (i : nat) (ranges : list range) : list range :=
  alter (fun r => mkRange (r_start r) (r_end r) 2) i ranges.

(** [positions] counts the bytes of the taints. *)
Fixpoint collect_taints (fuel : nat) (taint : list tainted) (positions : Z) (ranges : list range)
    : res (list tainted * Z) :=
  match fuel with
  | O => Err OutOfFuel
  | S f =>
      match scan taint ranges 0 0xffffffff None with
      | inl i =>
          r ← rd ranges i;
          match taint with
          | t :: rest => collect_taints f (mkTaint (t_pos t) (u32 (t_len t + range_len r)) :: rest)
                           (u32 (positions + range_len r)) (used i ranges)
          | [] => Err Fault
          end
      | inr (Some i) =>
          r ← rd ranges i;
          collect_taints f (mkTaint (r_start r) (range_len r) :: taint) (u32 (positions + range_len r)) (used i ranges)
      | inr None => Ok (taint, positions)
      end
  end.

(** ** The whole *)

(** [cmplog_random_colorization], [cmplog_lvl]. *)
Context (random_colors : bool) (cmplog_lvl : Z).

(** Not worth it: nearly everything is tainted, as is too often so. *)
Definition unsatisfactory (colorize_success active positions len : Z) : bool :=
  truthy colorize_success && (cmplog_lvl <? 3) &&
  ((CMPLOG_POSITIONS_MAX <? positions) && (len / positions =? 1) &&
   (CMPLOG_CORPUS_PERCENT <? active / colorize_success)).

(** Returns the taints ([None] for a null pointer) and [colorize_success]. *)
Definition colorization (colorize_success : Z) : M W (option (list tainted) * Z) :=
  s ← get;
  let len := Z.of_nat (length (out_buf s)) in
  let orig_hit_cnt := hit_cnt (world s) in
  _ ← put (with_stage 0 (u32 (len .<< 1)) s);
  exec_cksum ← get_exec_checksum;
  s ← get;
  let backup := out_buf s in
  changed ← (if random_colors then random_replace backup else type_replace backup);
  ranges ← color_loop (Z.to_nat (len .<< 1)) exec_cksum backup changed (add_range [] 0 (u32 (len - 1)));
  '(taint, positions) ← lift (collect_taints (S (length ranges)) [] 0 ranges);
  s ← get;
  let new_hit := hit_cnt (world s) in
  f ← lift (rd (stage_finds s) STAGE_COLORIZATION);
  c ← lift (rd (stage_cycles s) STAGE_COLORIZATION);
  _ ← put (with_stats (new_hit_cnt s) (<[STAGE_COLORIZATION := u64 (f + (new_hit - orig_hit_cnt))]> (stage_finds s))
             (<[STAGE_COLORIZATION := u64 (c + stage_cur s)]> (stage_cycles s)) s);
  match taint with
  | [] => mret (None, colorize_success)
  | _ =>
      if unsatisfactory colorize_success (live_items (world s)) positions len then mret (None, colorize_success)
      else mret (Some taint, u32 (colorize_success + 1))
  end.
End Colorize.
