(* ===== verification/ColorizeThms.v ===== *)
(** Colorization marks exactly what it changed: the taints are the maximal
    runs of replaced bytes, each replaced by another one of its kind, and the
    coloured input takes the path of the original. *)

From S2P Require Import Prelude Words Arith Float Bitmap State Text Rand Dedup Extras Stages StagesRun StagesThms StagesSafe Havoc HavocThms Colorize.

(** ** Ranges *)

Definition inside (r : range) (p : nat) : bool := (r_start r <=? Z.of_nat p) && (Z.of_nat p <=? r_end r).
Definition covers (ok : Z) (rs : list range) (p : nat) : bool := existsb (fun r => (r_ok r =? ok) && inside r p) rs.
Definition within (n : Z) (r : range) : Prop := 0 <= r_start r <= r_end r /\ r_end r < n.

(** The ranges are within [n] bytes and do not overlap. *)
Record ranges_wf (n : Z) (rs : list range) : Prop := {
  rw_within : Forall (within n) rs;
  rw_once p : zsum (fun r => b2z (inside r p)) rs <= 1
}.

Lemma zsum_delete {A} (f : A -> Z) l i x : l !! i = Some x -> zsum f (delete i l) = zsum f l - f x.
Proof.
  revert i; induction l as [|y l IH]; intros [|i] H; simplify_eq/=; unfold zsum in *; cbn [foldr]; [lia|].
  rewrite (IH i H). lia.
Qed.

Lemma inside_spec r p : inside r p = true <-> r_start r <= Z.of_nat p <= r_end r.
Proof. unfold inside. rewrite andb_true_iff, !Z.leb_le. done. Qed.

Lemma covers_spec ok rs p : covers ok rs p = true <-> exists i r, rs !! i = Some r /\ r_ok r = ok /\ inside r p = true.
Proof.
  unfold covers. rewrite existsb_exists. split.
  - intros (r & Hr & [E%Z.eqb_eq Hp]%andb_true_iff). apply list_elem_of_In, list_elem_of_lookup in Hr as [i Hi]. eauto.
  - intros (i & r & Hi & E & Hp). exists r. split; [apply list_elem_of_In; eapply list_elem_of_lookup_2, Hi|].
    now rewrite Hp, (proj2 (Z.eqb_eq _ _) E).
Qed.

Lemma once_unique rs p i j r r' :
  zsum (fun r => b2z (inside r p)) rs <= 1 -> rs !! i = Some r -> rs !! j = Some r' ->
  inside r p = true -> inside r' p = true -> i = j.
Proof.
  intros Ho Hi Hj Hr Hr'. destruct (decide (i = j)) as [|Hne]; [done|exfalso].
  pose proof (zsum_delete (fun r => b2z (inside r p)) rs i r Hi) as Hd. cbv beta in Hd. rewrite Hr in Hd. cbn [b2z] in Hd.
  assert (Hx : exists k, delete i rs !! k = Some r').
  { destruct (decide (j < i)%nat) as [Hlt|Hge].
    - exists j. now rewrite list_lookup_delete_lt.
    - exists (j - 1)%nat. rewrite list_lookup_delete_ge by lia. now replace (S (j - 1)) with j by lia. }
  destruct Hx as [k Hk]. pose proof (zsum_pos_elem (fun r => inside r p) _ _ _ Hk Hr'). lia.
Qed.

Lemma pop_biggest_spec r i m rmax k :
  pop_biggest r i m rmax = Some k -> rmax = Some k \/ exists j x, k = (i + j)%nat /\ r !! j = Some x /\ r_ok x = 0.
Proof.
  revert i m rmax; induction r as [|x r IH]; intros i m rmax; cbn [pop_biggest]; [auto|].
  destruct (negb (truthy (r_ok x)) && _) eqn:E; intros [H|(j & y & -> & Hj & Hy)]%IH.
  - injection H as <-. right. exists 0%nat, x. apply andb_true_iff in E as [E%negb_true_iff%truthy_false _].
    split; [lia|]. now split.
  - right. exists (S j), y. split; [lia|]. now split.
  - now left.
  - right. exists (S j), y. split; [lia|]. now split.
Qed.

Lemma pop_biggest_range_spec rs i :
  pop_biggest_range rs = Some i -> exists r, rs !! i = Some r /\ r_ok r = 0.
Proof. intros [H|(j & x & -> & Hj & Hx)]%pop_biggest_spec; [discriminate|eauto]. Qed.

(** *** What the two outcomes of a round do to the ranges *)

Lemma insert_wf n rs i r ok : ranges_wf n rs -> rs !! i = Some r ->
  ranges_wf n (<[i := mkRange (r_start r) (r_end r) ok]> rs).
Proof.
  intros [H1 H2] Hi. split.
  - apply Forall_insert; [exact H1|]. exact (proj1 (Forall_lookup _ _) H1 _ _ Hi).
  - intros p. rewrite (zsum_insert _ _ _ _ _ Hi). specialize (H2 p).
    change (inside (mkRange _ _ _) p) with (inside r p). lia.
Qed.

Lemma covers_insert n rs i r p : ranges_wf n rs -> rs !! i = Some r ->
  covers 1 (<[i := mkRange (r_start r) (r_end r) 1]> rs) p = covers 1 rs p || inside r p.
Proof.
  intros Hwf Hi. apply eq_true_iff_eq. rewrite orb_true_iff, !covers_spec. split.
  - intros (j & x & Hj & E & Hp). destruct (decide (i = j)) as [<-|Hne].
    + rewrite list_lookup_insert_eq in Hj by (eapply lookup_lt_Some, Hi). injection Hj as <-. now right.
    + rewrite list_lookup_insert_ne in Hj by done. left. eauto.
  - intros [(j & x & Hj & E & Hp)|Hp].
    + destruct (decide (i = j)) as [<-|Hne].
      * rewrite Hi in Hj. injection Hj as <-. exists i, (mkRange (r_start r) (r_end r) 1).
        rewrite list_lookup_insert_eq by (eapply lookup_lt_Some, Hi). now split.
      * exists j, x. now rewrite list_lookup_insert_ne.
    + exists i, (mkRange (r_start r) (r_end r) 1).
      rewrite list_lookup_insert_eq by (eapply lookup_lt_Some, Hi). now split.
Qed.

Lemma delete_wf n rs i r : ranges_wf n rs -> rs !! i = Some r -> ranges_wf n (delete i rs).
Proof.
  intros [H1 H2] Hi. split; [now apply Forall_delete|]. intros p. rewrite (zsum_delete _ _ _ _ Hi).
  specialize (H2 p). pose proof (b2z_range (inside r p)). lia.
Qed.

Lemma covers_delete rs i r p : rs !! i = Some r -> r_ok r = 0 -> covers 1 (delete i rs) p = covers 1 rs p.
Proof.
  intros Hi Hr. unfold covers. rewrite <- (take_drop_middle rs i r Hi) at 2.
  rewrite delete_take_drop, !existsb_app. cbn [existsb]. rewrite Hr. reflexivity.
Qed.

Definition split_range (r : range) (rest : list range) : list range :=
  let s := range_len r in
  if 1 <? s then add_range (add_range rest (r_start r) (u32 (r_start r - 1 + s / 2))) (u32 (r_start r + s / 2)) (r_end r)
  else rest.

Lemma range_len_eq n r : within n r -> n <= MAX_FILE -> range_len r = r_end r - r_start r + 1.
Proof. unfold within, range_len, MAX_FILE. intros. rewrite uwrap_id; lia. Qed.

Lemma split_wf n rs i r : ranges_wf n rs -> n <= MAX_FILE -> rs !! i = Some r -> ranges_wf n (split_range r (delete i rs)).
Proof.
  intros Hwf Hn Hi. pose proof (delete_wf n rs i r Hwf Hi) as Hd.
  pose proof (proj1 (Forall_lookup _ _) (rw_within _ _ Hwf) _ _ Hi) as Hr.
  unfold split_range. rewrite (range_len_eq n r Hr Hn). destruct (Z.ltb_spec 1 (r_end r - r_start r + 1)) as [Hs|]; [|exact Hd].
  set (h := (r_end r - r_start r + 1) / 2). assert (Hh : 1 <= h /\ 2 * h <= r_end r - r_start r + 1) by (unfold h; dlia).
  unfold within, MAX_FILE in *. rewrite !uwrap_id by lia. split.
  - constructor; [unfold within; cbn; lia|]. constructor; [unfold within; cbn; lia|apply Hd].
  - intros p. cbn [add_range zsum foldr]. fold (zsum (fun r => b2z (inside r p)) (delete i rs)).
    pose proof (rw_once _ _ Hwf p) as Ho. rewrite (zsum_delete _ _ _ _ Hi).
    assert (E : b2z (inside (mkRange (r_start r + h) (r_end r) 0) p) + b2z (inside (mkRange (r_start r) (r_start r - 1 + h) 0) p)
                = b2z (inside r p)) by (unfold inside; cbn [r_start r_end]; zcases; cbn; lia).
    lia.
Qed.

Lemma covers_split rs i r p : rs !! i = Some r -> r_ok r = 0 -> covers 1 (split_range r (delete i rs)) p = covers 1 rs p.
Proof.
  intros Hi Hr. rewrite <- (covers_delete rs i r p Hi Hr). unfold split_range. now destruct (1 <? range_len r).
Qed.

(** ** Taints *)

Definition tainted_at (ts : list tainted) (p : nat) : bool :=
  existsb (fun t => (t_pos t <=? Z.of_nat p) && (Z.of_nat p <? t_pos t + t_len t)) ts.

(** Non-empty taints below [hi], from the last one down, with at least one
    untouched byte between two of them. *)
Fixpoint maximal_runs (hi : Z) (ts : list tainted) : Prop :=
  match ts with
  | [] => True
  | t :: ts => 0 <= t_pos t /\ 1 <= t_len t /\ t_pos t + t_len t <= hi /\ maximal_runs (t_pos t - 1) ts
  end.

Definition end_of (ts : list tainted) : Z := match ts with t :: _ => t_pos t + t_len t | [] => 0 end.

Lemma maximal_runs_hi hi hi' ts : maximal_runs hi ts -> end_of ts <= hi' -> maximal_runs hi' ts.
Proof. destruct ts as [|t ts]; [done|]. intros (H1 & H2 & H3 & H4) Hh. now repeat split. Qed.

Lemma scan_spec taint rng i pos r :
  match scan taint rng i pos r with
  | inl j => exists k x, j = (i + k)%nat /\ rng !! k = Some x /\ r_ok x = 1 /\ adjacent taint x = true
  | inr None => r = None /\ Forall (fun x => r_ok x = 1 -> pos <= r_start x) rng
  | inr (Some j) =>
      (r = Some j /\ Forall (fun x => r_ok x = 1 -> pos <= r_start x) rng) \/
      exists k x, j = (i + k)%nat /\ rng !! k = Some x /\ r_ok x = 1 /\ r_start x < pos /\ adjacent taint x = false /\
        Forall (fun y => r_ok y = 1 -> r_start x <= r_start y) rng
  end.
Proof.
  revert i pos r; induction rng as [|x rng IH]; intros i pos r; cbn [scan].
  { destruct r; [left|]; split; constructor. }
  destruct (Z.eqb_spec (r_ok x) 1) as [Ex|Ex]; cbn [andb]; [destruct (Z.ltb_spec (r_start x) pos) as [Hx|Hx]|].
  - destruct (adjacent taint x) eqn:Ea; [exists 0%nat, x; split; [lia|auto]|].
    specialize (IH (S i) (r_start x) (Some i)). destruct (scan _ _ _ _ _) as [j|[j|]]; [| |destruct IH; discriminate].
    + destruct IH as (k & y & -> & Hk & Hy). exists (S k), y. split; [lia|now split].
    + right. destruct IH as [[Ej Hf]|(k & y & -> & Hk & Ey & Hlt & Hadj & Hf)].
      * injection Ej as <-. exists 0%nat, x. split; [lia|]. do 4 (split; [done|]). now constructor.
      * exists (S k), y. split; [lia|]. do 2 (split; [done|]). split; [lia|]. split; [done|]. constructor; [lia|exact Hf].
  - specialize (IH (S i) pos r). destruct (scan _ _ _ _ _) as [j|[j|]].
    + destruct IH as (k & y & -> & Hk & Hy). exists (S k), y. split; [lia|now split].
    + destruct IH as [[Ej Hf]|(k & y & -> & Hk & Ey & Hlt & Hadj & Hf)]; [left; split; [done|now constructor]|].
      right. exists (S k), y. split; [lia|]. do 4 (split; [done|]). constructor; [lia|exact Hf].
    + destruct IH as [-> Hf]. split; [done|now constructor].
  - specialize (IH (S i) pos r). destruct (scan _ _ _ _ _) as [j|[j|]].
    + destruct IH as (k & y & -> & Hk & Hy). exists (S k), y. split; [lia|now split].
    + destruct IH as [[Ej Hf]|(k & y & -> & Hk & Ey & Hlt & Hadj & Hf)]; [left; split; [done|now constructor]|].
      right. exists (S k), y. split; [lia|]. do 4 (split; [done|]). constructor; [done|exact Hf].
    + destruct IH as [-> Hf]. split; [done|now constructor].
Qed.

(** Half-way: the ranges already taken are the taints, the others start after
    the last taint. *)
Record collected (n : Z) (taint : list tainted) (rs : list range) : Prop := {
  co_wf : ranges_wf n rs;
  co_runs : maximal_runs n taint;
  co_same p : tainted_at taint p = covers 2 rs p;
  co_after : Forall (fun r => r_ok r = 1 -> end_of taint <= r_start r) rs
}.

Lemma used_eq i rs r : rs !! i = Some r -> used i rs = <[i := mkRange (r_start r) (r_end r) 2]> rs.
Proof. intros Hi. unfold used. symmetry. exact (insert_as_alter (fun r => mkRange (r_start r) (r_end r) 2) rs i r Hi). Qed.

Lemma covers_used i rs r p : rs !! i = Some r -> r_ok r = 1 -> covers 2 (used i rs) p = covers 2 rs p || inside r p.
Proof.
  intros Hi Hr. rewrite (used_eq i rs r Hi). apply eq_true_iff_eq. rewrite orb_true_iff, !covers_spec. split.
  - intros (j & x & Hj & E & Hp). destruct (decide (i = j)) as [<-|Hne].
    + rewrite list_lookup_insert_eq in Hj by (eapply lookup_lt_Some, Hi). injection Hj as <-. now right.
    + rewrite list_lookup_insert_ne in Hj by done. left. eauto.
  - intros [(j & x & Hj & E & Hp)|Hp].
    + exists j, x. rewrite list_lookup_insert_ne; [auto|]. intros <-. rewrite Hi in Hj. injection Hj as <-. lia.
    + exists i, (mkRange (r_start r) (r_end r) 2).
      rewrite list_lookup_insert_eq by (eapply lookup_lt_Some, Hi). now split.
Qed.

Lemma covers_left i rs r p : rs !! i = Some r -> r_ok r = 1 -> covers 1 rs p = covers 1 (used i rs) p || inside r p.
Proof.
  intros Hi Hr. apply eq_true_iff_eq. rewrite orb_true_iff, !covers_spec, (used_eq i rs r Hi). split.
  - intros (j & x & Hj & E1 & Hx). destruct (decide (i = j)) as [<-|Hne].
    + rewrite Hi in Hj. injection Hj as <-. now right.
    + left. exists j, x. now rewrite list_lookup_insert_ne.
  - intros [(j & x & Hj & E1 & Hx)|Hx]; [|eauto]. exists j, x. rewrite list_lookup_insert_ne in Hj; [auto|].
    intros <-. rewrite list_lookup_insert_eq in Hj by (eapply lookup_lt_Some, Hi). injection Hj as <-. discriminate.
Qed.

(** The ranges not taken yet start behind the one taken. *)
Lemma after_used n i rs r m :
  ranges_wf n rs -> rs !! i = Some r -> r_start r = m -> Forall (fun x => r_ok x = 1 -> m <= r_start x) rs ->
  Forall (fun x => r_ok x = 1 -> r_end r + 1 <= r_start x) (used i rs).
Proof.
  intros Hwf Hi <- Hf. rewrite (used_eq i rs r Hi). apply Forall_lookup. intros j x Hj Hx.
  destruct (decide (i = j)) as [<-|Hne].
  { rewrite list_lookup_insert_eq in Hj by (eapply lookup_lt_Some, Hi). injection Hj as <-. cbn in Hx. lia. }
  rewrite list_lookup_insert_ne in Hj by done. pose proof (proj1 (Forall_lookup _ _) Hf _ _ Hj Hx) as Hs.
  pose proof (proj1 (Forall_lookup _ _) (rw_within _ _ Hwf) _ _ Hj) as Hw. unfold within in Hw.
  destruct (Z.le_gt_cases (r_end r + 1) (r_start x)) as [|Hlt]; [done|]. exfalso. apply Hne.
  apply (once_unique rs (Z.to_nat (r_start x)) i j r x (rw_once _ _ Hwf _) Hi Hj); apply inside_spec; lia.
Qed.

Definition waiting (rs : list range) : Z := zsum (fun r => b2z (r_ok r =? 1)) rs.

Lemma waiting_used i rs r : rs !! i = Some r -> r_ok r = 1 -> waiting (used i rs) = waiting rs - 1.
Proof.
  intros Hi Hr. unfold waiting. rewrite (used_eq i rs r Hi), (zsum_insert _ _ _ _ _ Hi), Hr. cbn. lia.
Qed.

Lemma collect_taints_spec n fuel taint positions rs :
  n <= MAX_FILE -> collected n taint rs -> waiting rs < Z.of_nat fuel ->
  exists ts k, collect_taints fuel taint positions rs = Ok (ts, k) /\ maximal_runs n ts /\
    forall p, tainted_at ts p = covers 2 rs p || covers 1 rs p.
Proof.
  intros Hn. revert taint positions rs; induction fuel as [|f IH]; intros taint positions rs Hc Hw.
  { pose proof (zsum_count_nonneg (fun r => r_ok r =? 1) rs). unfold waiting in Hw. lia. }
  cbn [collect_taints]. pose proof (scan_spec taint rs 0 0xffffffff None) as Hs.
  assert (Hstep : forall i r taint', rs !! i = Some r -> r_ok r = 1 -> collected n taint' (used i rs) ->
    exists ts k, collect_taints f taint' (u32 (positions + range_len r)) (used i rs) = Ok (ts, k) /\ maximal_runs n ts /\
      forall p, tainted_at ts p = covers 2 rs p || covers 1 rs p).
  { intros i r taint' Hi Hr Hc'. pose proof (waiting_used i rs r Hi Hr).
    destruct (IH taint' (u32 (positions + range_len r)) (used i rs) Hc' ltac:(lia)) as (ts & k & E & Hm & Hp).
    exists ts, k. do 2 (split; [assumption|]). intros p. rewrite Hp, (covers_used i rs r p Hi Hr).
    rewrite (covers_left i rs r p Hi Hr).
    destruct (covers 2 rs p), (covers 1 (used i rs) p), (inside r p); reflexivity. }
  pose proof Hc as [C1 C2 C3 C4].
  destruct (scan _ _ _ _ _) as [i|[i|]].
  - destruct Hs as (k & r & -> & Hk & Hr & Ha). cbn [Nat.add] in *. rewrite (proj2 (rd_ok _ _ _) Hk). cbn [mbind res_bind].
    destruct taint as [|t rest]; [discriminate|]. cbn [adjacent] in Ha. apply Z.eqb_eq in Ha.
    pose proof (proj1 (Forall_lookup _ _) (rw_within _ _ C1) _ _ Hk) as Hin.
    destruct C2 as (T1 & T2 & T3 & T4). unfold MAX_FILE in *. rewrite uwrap_id in Ha by lia.
    apply (Hstep k r); [exact Hk|exact Hr|]. rewrite (range_len_eq n r Hin) by (unfold MAX_FILE; lia). unfold within in Hin.
    rewrite uwrap_id by lia. split.
    + rewrite (used_eq k rs r Hk). now apply insert_wf.
    + cbn [maximal_runs t_pos t_len]. split; [lia|]. split; [lia|]. split; [lia|exact T4].
    + intros p. rewrite (covers_used k rs r p Hk Hr), <- C3. unfold tainted_at, inside. cbn [existsb t_pos t_len].
      destruct (existsb _ rest); [now rewrite !orb_true_r|]. rewrite !orb_false_r. zcases; cbn; first [reflexivity|exfalso; lia].
    + cbn [end_of t_pos t_len]. pose proof (after_used n k rs r _ C1 Hk eq_refl) as Hf. rewrite <- Ha in Hf.
      eapply Forall_impl; [apply Hf; exact C4|]. cbv beta. lia.
  - destruct Hs as [[E _]|(k & r & -> & Hk & Hr & Hlt & Ha & Hf)]; [discriminate|]. cbn [Nat.add] in *.
    rewrite (proj2 (rd_ok _ _ _) Hk). cbn [mbind res_bind].
    pose proof (proj1 (Forall_lookup _ _) (rw_within _ _ C1) _ _ Hk) as Hin.
    apply (Hstep k r); [exact Hk|exact Hr|]. rewrite (range_len_eq n r Hin Hn). unfold within, MAX_FILE in *. split.
    + rewrite (used_eq k rs r Hk). now apply insert_wf.
    + cbn [maximal_runs t_pos t_len]. split; [lia|]. split; [lia|]. split; [lia|].
      pose proof (proj1 (Forall_lookup _ _) C4 _ _ Hk Hr) as Hs. destruct taint as [|t rest]; [done|].
      apply (maximal_runs_hi n); [exact C2|]. cbn [end_of] in *. cbn [adjacent] in Ha. apply Z.eqb_neq in Ha.
      destruct C2 as (T1 & T2 & T3 & _). rewrite uwrap_id in Ha by lia. lia.
    + intros p. rewrite (covers_used k rs r p Hk Hr), <- C3. unfold tainted_at, inside. cbn [existsb t_pos t_len].
      destruct (existsb _ taint); [now rewrite !orb_true_r|]. rewrite !orb_false_r. zcases; cbn; first [reflexivity|exfalso; lia].
    + cbn [end_of t_pos t_len]. eapply Forall_impl; [exact (after_used n k rs r _ C1 Hk eq_refl Hf)|]. cbv beta. lia.
  - destruct Hs as [_ Hf]. exists taint, positions. split; [reflexivity|]. split; [exact C2|]. intros p.
    rewrite C3. destruct (covers 1 rs p) eqn:E; [|now rewrite orb_false_r]. exfalso.
    apply covers_spec in E as (i & r & Hi & Hr & _). pose proof (proj1 (Forall_lookup _ _) Hf _ _ Hi Hr) as Hb.
    pose proof (proj1 (Forall_lookup _ _) (rw_within _ _ C1) _ _ Hi) as Hin. unfold within, MAX_FILE in *. lia.
Qed.

(** ** Replacements *)

(** [c] may replace [b] in an input of text. *)
Definition alike (b c : Z) : Prop :=
  match List.find (in_type b) type_ranges with Some r => in_type c r = true | None => c = type_other b end.

Section Colorize.
Context {W : Type} `{Target W} `{CmpLog W}.
Context (Lost : Prop) (I : W -> Prop) (tries : nat).
Implicit Types s : fz W.

(** What input-to-state fuzzing needs of the fuzzer: executions, fair draws
    and the clock keep its invariant. *)
Record its_laws : Prop := {
  il_run w c : I w -> good c -> or_fatal Lost (common_fuzz_stuff w c) (fun '(w', _) => I w');
  il_draw w n : I w -> 0 <= n < 2 ^ 32 -> exists k w', draw w n = Ok (k, w') /\ I w' /\ in_range n k;
  il_fair w n x : I w -> 0 <= x < n -> n < 2 ^ 32 -> exists j, (j < tries)%nat /\ hits j w n x;
  il_now w : I w -> I (now_us w).2
}.
Context (laws : its_laws).
Abbreviation wp := (StagesSafe.wp (dies Lost) I).

Lemma wp_one_draw n s (Q : Z -> fz W -> Prop) :
  I (world s) -> 0 <= n < 2 ^ 32 ->
  (forall k w, draw (world s) n = Ok (k, w) -> I w -> in_range n k -> Q k (with_world w s)) -> wp (rand n) s Q.
Proof.
  intros Hi Hn HQ. unfold rand. apply wp_get. rewrite uwrap_id by lia.
  destruct (il_draw laws (world s) n Hi Hn) as (k & w & E & Hw & Hr). rewrite E. now apply (HQ k w).
Qed.

(** [c] draws below [n] and makes [g] of it. *)
Definition draws_as (c : M W Z) (n : Z) (g : Z -> Z) : Prop :=
  forall s (Q : Z -> fz W -> Prop), I (world s) ->
    (forall k w, draw (world s) n = Ok (k, w) -> I w -> in_range n k -> Q (g k) (with_world w s)) -> wp c s Q.

Lemma until_other_hits f j c n g x b s (Q : Z -> fz W -> Prop) :
  draws_as c n g -> (j < f)%nat -> hits j (world s) n x -> g x <> b -> I (world s) ->
  (forall k w, I w -> in_range n k -> g k <> b -> Q (g k) (with_world w s)) -> wp (until_other f c b) s Q.
Proof.
  intros Hc. revert j s; induction f as [|f IH]; intros j s Hj Hh Hx Hi HQ; [lia|]. cbn [until_other].
  apply wp_bind, Hc; [exact Hi|]. intros k w Ed Hw Hr. destruct (Z.eqb_spec (g k) b) as [E|E]; [|now apply wp_ret, HQ].
  destruct j as [|j]; cbn [hits] in Hh.
  - destruct Hh as [w' Ed']. rewrite Ed in Ed'. injection Ed' as -> _. done.
  - destruct Hh as (k' & w' & Ed' & Hh). rewrite Ed in Ed'. injection Ed' as _ <-.
    apply (IH j); [lia|exact Hh|exact Hx|exact Hw|]. intros k1 w1 H1 R1 E1. exact (HQ k1 w1 H1 R1 E1).
Qed.

Lemma wp_until_other c n g b s (Q : Z -> fz W -> Prop) :
  draws_as c n g -> 2 <= n < 2 ^ 32 -> g 0 <> g 1 -> I (world s) ->
  (forall k w, I w -> 0 <= k < n -> g k <> b -> Q (g k) (with_world w s)) -> wp (until_other tries c b) s Q.
Proof.
  intros Hc Hn Hg Hi HQ. set (x := if g 0 =? b then 1 else 0).
  assert (Hx : g x <> b) by (unfold x; destruct (Z.eqb_spec (g 0) b); congruence).
  assert (Hxn : 0 <= x < n) by (unfold x; destruct (g 0 =? b); lia).
  destruct (il_fair laws (world s) n x Hi Hxn (proj2 Hn)) as (j & Hj & Hh).
  apply (until_other_hits tries j c n g x b s Q Hc Hj Hh Hx Hi). intros k w Hw [Hk1 Hk2] E. apply HQ; [exact Hw|lia|exact E].
Qed.

Lemma rand_draws_as n : 0 <= n < 2 ^ 32 -> draws_as (rand n) n id.
Proof. intros Hn s Q Hi HQ. now apply wp_one_draw. Qed.

Lemma type_draw_some b r : List.find (in_type b) type_ranges = Some r ->
  draws_as (type_draw b) (1 + r.2 - r.1) (fun k => r.1 + k) /\ 2 <= 1 + r.2 - r.1 < 2 ^ 32 /\ in_type b r = true /\
  0 <= r.1 /\ r.2 < 256.
Proof.
  intros E. apply find_some in E as E'. destruct E' as [Hr Hb].
  assert (Hn : 2 <= 1 + r.2 - r.1 < 2 ^ 32 /\ 0 <= r.1 /\ r.2 < 256).
  { unfold type_ranges in Hr. cbn [In] in Hr. intuition (subst; cbn; lia). }
  split; [|tauto]. intros s Q Hi HQ. unfold type_draw. rewrite E. destruct r as [lo hi]. cbn [fst snd] in *.
  apply wp_bind, wp_one_draw; [exact Hi|lia|]. intros k w Ed Hw Hk. now apply wp_ret, HQ.
Qed.

Lemma type_other_spec b : is_byte b -> List.find (in_type b) type_ranges = None -> is_byte (type_other b) /\ type_other b <> b.
Proof.
  intros Hb E.
  assert (Hc : match List.find (in_type b) type_ranges with
               | None => (0 <=? type_other b) && (type_other b <? 256) && negb (type_other b =? b) | Some _ => true end = true)
    by (apply (byte_forall (fun b => match List.find (in_type b) type_ranges with
               | None => (0 <=? type_other b) && (type_other b <? 256) && negb (type_other b =? b) | Some _ => true end));
        [vm_compute; reflexivity|exact Hb]).
  rewrite E in Hc. unfold is_byte. lia.
Qed.

(** The replacement of [b]. *)
Definition colour (random_colors : bool) (b c : Z) : Prop :=
  is_byte c /\ c <> b /\ (random_colors = false -> alike b c).

Lemma type_byte_spec b s (Q : Z -> fz W -> Prop) : (0 < tries)%nat ->
  is_byte b -> I (world s) -> (forall c w, I w -> colour false b c -> Q c (with_world w s)) ->
  wp (until_other tries (type_draw b) b) s Q.
Proof.
  intros Ht Hb Hi HQ. destruct (List.find (in_type b) type_ranges) as [r|] eqn:E.
  - destruct (type_draw_some b r E) as (Hc & Hn & Hr & Hlo & Hhi).
    apply (wp_until_other _ _ _ _ _ _ Hc Hn); [lia|exact Hi|]. intros k w Hw Hk Hne. apply HQ; [exact Hw|].
    split; [unfold is_byte; lia|]. split; [exact Hne|]. intros _. unfold alike. rewrite E. unfold in_type. lia.
  - destruct tries as [|f]; [lia|]. destruct (type_other_spec b Hb E) as [Ho Hne]. cbn [until_other]. unfold type_draw.
    rewrite E. apply wp_bind, wp_ret. rewrite (proj2 (Z.eqb_neq _ _) Hne). apply wp_ret.
    rewrite <- (with_world_same s) at 1. apply HQ; [exact Hi|]. split; [exact Ho|]. split; [exact Hne|].
    intros _. unfold alike. now rewrite E.
Qed.

Lemma random_byte_spec b s (Q : Z -> fz W -> Prop) :
  I (world s) -> (forall c w, I w -> colour true b c -> Q c (with_world w s)) -> wp (until_other tries (rand 256) b) s Q.
Proof.
  intros Hi HQ. apply (wp_until_other _ 256 id); [now apply rand_draws_as|lia|done|exact Hi|].
  intros k w Hw Hk Hne. apply HQ; [exact Hw|]. split; [exact Hk|]. now split.
Qed.

Lemma replace_all_spec (R : Z -> Z -> Prop) f buf s (Q : list Z -> fz W -> Prop) :
  (forall b s (Q : Z -> fz W -> Prop), is_byte b -> I (world s) ->
     (forall c w, I w -> R b c -> Q c (with_world w s)) -> wp (f b) s Q) ->
  bytes buf -> I (world s) -> (forall l w, I w -> Forall2 R buf l -> Q l (with_world w s)) -> wp (replace_all f buf) s Q.
Proof.
  intros Hf Hb. revert s Q; induction Hb as [|b buf Hb _ IH]; intros s Q Hi HQ; cbn [replace_all].
  - apply wp_ret. rewrite <- (with_world_same s). now apply HQ.
  - apply wp_bind, Hf; [exact Hb|exact Hi|]. intros c w Hw Hc. apply wp_bind, IH; [exact Hw|].
    intros l w' Hw' Hl. apply wp_ret. rewrite with_world_twice. apply HQ; [exact Hw'|now constructor].
Qed.

Lemma fair_tries w : I w -> (0 < tries)%nat.
Proof. intros Hi. destruct (il_fair laws w 2 0 Hi ltac:(lia) ltac:(lia)) as (j & Hj & _). lia. Qed.

Lemma recolour_spec (random_colors : bool) buf s (Q : list Z -> fz W -> Prop) :
  bytes buf -> I (world s) -> (forall l w, I w -> Forall2 (colour random_colors) buf l -> Q l (with_world w s)) ->
  wp (if random_colors then random_replace tries buf else type_replace tries buf) s Q.
Proof.
  intros Hb Hi HQ. destruct random_colors;
    [apply (replace_all_spec (colour true))|apply (replace_all_spec (colour false))]; auto; intros b s' Q' Hb' Hi'.
  - apply random_byte_spec; exact Hi'.
  - apply type_byte_spec; [eapply fair_tries, Hi'|exact Hb'|exact Hi'].
Qed.

(** ** The search *)

Lemma wp_exec_path c s (Q : unit -> fz W -> Prop) :
  I (world s) -> good c -> (forall w, I w -> common_fuzz_stuff (world s) c = Ok (w, false) -> Q tt (with_world w s)) ->
  wp (exec_buf c) s Q.
Proof.
  intros Hi Hg HQ. pose proof (il_run laws _ _ Hi Hg) as Hr. unfold StagesSafe.wp, exec_buf.
  destruct (common_fuzz_stuff _ _) as [[w [|]]|]; cbn [mbind res_bind or_stop] in *; [exact Hr|now apply HQ|exact Hr].
Qed.

Lemma wp_checksum s (Q : Z -> fz W -> Prop) :
  I (world s) -> good (out_buf s) ->
  (forall w, I w -> common_fuzz_stuff (world s) (out_buf s) = Ok (w, false) -> Q (trace_cksum w) (with_world w s)) ->
  wp get_exec_checksum s Q.
Proof.
  intros Hi Hg HQ. unfold get_exec_checksum, exec. apply wp_bind, wp_get, wp_exec_path; [exact Hi|exact Hg|].
  intros w Hw E. apply wp_get, wp_ret. exact (HQ w Hw E).
Qed.

Lemma wp_now s (Q : Z -> fz W -> Prop) :
  I (world s) -> (forall t w, I w -> Q t (with_world w s)) -> wp now s Q.
Proof.
  intros Hi HQ. pose proof (il_now laws _ Hi) as Hn. unfold now. apply wp_get.
  destruct (now_us (world s)) as [t w]. apply wp_bind, wp_put, wp_ret. now apply HQ.
Qed.

Lemma wp_stage_step s (Q : unit -> fz W -> Prop) :
  Q tt (with_stage (u32 (stage_cur s + 1)) (stage_max s) s) -> wp stage_step s Q.
Proof. exact id. Qed.

(** [b] was run and had this checksum. *)
Definition same_path (cksum : Z) (b : list Z) : Prop :=
  exists w w', I w /\ common_fuzz_stuff w b = Ok (w', false) /\ trace_cksum w' = cksum.
End Colorize.

Lemma lookup_write_at i bs buf p : (i + length bs <= length buf)%nat ->
  write_at i bs buf !! p = if bool_decide (i <= p < i + length bs)%nat then bs !! (p - i)%nat else buf !! p.
Proof.
  intros Hl. unfold write_at. case_bool_decide as Hp.
  - rewrite lookup_app_r, length_take, lookup_app_l by (rewrite ?length_take; lia). f_equal. lia.
  - destruct (decide (p < i)%nat).
    + rewrite lookup_app_l, lookup_take_lt by (rewrite ?length_take; lia). done.
    + rewrite lookup_app_r, lookup_app_r, lookup_drop by (rewrite ?length_take; lia). f_equal. rewrite length_take. lia.
Qed.

Section Paint.
Context (backup changed : list Z).

(** The buffer while the ranges are searched. *)
Definition painted (rs : list range) (b : list Z) : Prop :=
  length b = length backup /\ forall p, b !! p = if covers 1 rs p then changed !! p else backup !! p.

Definition piece_of (r : range) (src : list Z) : list Z := take (Z.to_nat (range_len r)) (drop (Z.to_nat (r_start r)) src).

Lemma write_piece r src b p : within (Z.of_nat (length b)) r -> Z.of_nat (length b) <= MAX_FILE -> length src = length b ->
  write_at (Z.to_nat (r_start r)) (piece_of r src) b !! p = if inside r p then src !! p else b !! p.
Proof.
  intros Hr Hm Hs. pose proof (range_len_eq _ r Hr Hm) as Hl. unfold within in Hr.
  assert (Hp : length (piece_of r src) = Z.to_nat (range_len r)) by (unfold piece_of; rewrite length_take, length_drop; lia).
  rewrite lookup_write_at by lia. rewrite Hp, Hl. destruct (inside r p) eqn:E.
  - apply inside_spec in E. rewrite bool_decide_eq_true_2 by lia. unfold piece_of.
    rewrite lookup_take_lt, lookup_drop by lia. f_equal. lia.
  - rewrite bool_decide_eq_false_2; [done|]. intros Hx. assert (inside r p = true); [apply inside_spec; lia|congruence].
Qed.

Lemma piece_length r src : within (Z.of_nat (length src)) r -> Z.of_nat (length src) <= MAX_FILE ->
  (Z.to_nat (r_start r) + length (piece_of r src) <= length src)%nat.
Proof.
  intros Hr Hm. rewrite <- (Nat.add_0_r (length src)). pose proof (range_len_eq _ r Hr Hm). unfold within in Hr.
  unfold piece_of. rewrite length_take, length_drop. lia.
Qed.

Lemma paint_more n rs i r b : n = Z.of_nat (length backup) -> n <= MAX_FILE -> length changed = length backup ->
  ranges_wf n rs -> rs !! i = Some r -> painted rs b ->
  painted (<[i := mkRange (r_start r) (r_end r) 1]> rs) (write_at (Z.to_nat (r_start r)) (piece_of r changed) b).
Proof.
  intros -> Hn Hc Hwf Hi [Hl Hb]. pose proof (proj1 (Forall_lookup _ _) (rw_within _ _ Hwf) _ _ Hi) as Hr.
  rewrite <- Hl in *. split.
  - rewrite length_write_at; [done|]. rewrite <- Hc in Hr, Hn |- *. now apply piece_length.
  - intros p. rewrite write_piece, (covers_insert _ rs i r p Hwf Hi), Hb by done.
    destruct (inside r p), (covers 1 rs p); reflexivity.
Qed.

(** Writing the old bytes back undoes the change. *)
Lemma paint_back n rs i r b : n = Z.of_nat (length backup) -> n <= MAX_FILE -> length changed = length backup ->
  ranges_wf n rs -> rs !! i = Some r -> r_ok r = 0 -> painted rs b ->
  write_at (Z.to_nat (r_start r)) (piece_of r backup) (write_at (Z.to_nat (r_start r)) (piece_of r changed) b) = b.
Proof.
  intros -> Hn Hc Hwf Hi Ho [Hl Hb]. pose proof (proj1 (Forall_lookup _ _) (rw_within _ _ Hwf) _ _ Hi) as Hr.
  rewrite <- Hl in *. assert (Hlw : length (write_at (Z.to_nat (r_start r)) (piece_of r changed) b) = length b).
  { apply length_write_at. rewrite <- Hc in Hr, Hn |- *. now apply piece_length. }
  apply list_eq. intros p. rewrite write_piece, write_piece by (rewrite ?Hlw; auto).
  destruct (inside r p) eqn:E; [|done]. rewrite Hb. destruct (covers 1 rs p) eqn:Ec; [|done].
  apply covers_spec in Ec as (j & x & Hj & Hx & Hp). 
  rewrite (once_unique rs p i j r x (rw_once _ _ Hwf p) Hi Hj E Hp) in Hi. rewrite Hi in Hj. injection Hj as ->. lia.
Qed.

Lemma paint_split rs i r b : rs !! i = Some r -> r_ok r = 0 -> painted rs b -> painted (split_range r (delete i rs)) b.
Proof. intros Hi Ho [Hl Hb]. split; [exact Hl|]. intros p. now rewrite Hb, covers_split. Qed.
End Paint.

Section Search.
Context {W : Type} `{Target W} `{CmpLog W}.
Context (Lost : Prop) (I : W -> Prop) (tries : nat) (laws : its_laws Lost I tries).
Context (fixed_seed : bool) (exec_us exec_cksum : Z) (backup changed : list Z).
Context (Hgood : good backup) (Hchanged : bytes changed) (Hlen : length changed = length backup).
Implicit Types s : fz W.
Abbreviation wp := (StagesSafe.wp (dies Lost) I).
Abbreviation n := (Z.of_nat (length backup)).

(** Between two rounds. *)
Record color_inv (rs : list range) s : Prop := {
  cv_world : I (world s);
  cv_bytes : bytes (out_buf s);
  cv_paint : painted backup changed rs (out_buf s);
  cv_wf : ranges_wf n rs;
  cv_ok : Forall (fun r => r_ok r = 0 \/ r_ok r = 1) rs;
  cv_path : same_path I exec_cksum (out_buf s)
}.

(** A round: one more execution. *)
Definition round s (rs' : list range) (s' : fz W) : Prop :=
  color_inv rs' s' /\ exists w b, s' = with_world w (with_buf b (with_stage (u32 (stage_cur s + 1)) (stage_max s) s)).

Lemma slice_piece r src : within n r -> length src = length backup -> slice (r_start r) (range_len r) src = Ok (piece_of r src).
Proof.
  intros Hr Hs. destruct Hgood as (_ & _ & Hm). pose proof (range_len_eq n r Hr Hm). unfold within in Hr.
  apply slice_ok; lia.
Qed.

Lemma bytes_piece r src : bytes src -> bytes (piece_of r src).
Proof. intros Hs. now apply bytes_take, bytes_drop. Qed.

Lemma color_step_spec i rs s :
  color_inv rs s -> pop_biggest_range rs = Some i ->
  wp (color_step fixed_seed exec_us exec_cksum backup changed i rs) s (round s).
Proof.
  intros [C1 C2 C3 C4 C5 C6] (r & Hi & Ho)%pop_biggest_range_spec.
  pose proof (proj1 (Forall_lookup _ _) (rw_within _ _ C4) _ _ Hi) as Hr. destruct Hgood as (Gb & Gl & Gm).
  assert (Hls : length (out_buf s) = length backup) by apply C3.
  assert (Hfit : forall src, length src = length backup -> (Z.to_nat (r_start r) + length (piece_of r src) <= length backup)%nat).
  { intros src Hs. rewrite <- Hs. apply piece_length; now rewrite Hs. }
  unfold color_step. apply wp_bind, (wp_lift _ _ _ r); [now apply rd_ok|]. fold (range_len r).
  apply wp_bind, (wp_lift _ _ _ _ _ _ (slice_piece r changed Hr Hlen)).
  apply wp_bind, wp_memcpy; [rewrite Hls; now apply Hfit|]. set (b := write_at _ _ _).
  assert (Hb : bytes b /\ length b = length backup).
  { split; [apply bytes_write_at; [exact C2|now apply bytes_piece]|]. unfold b. rewrite length_write_at; rewrite Hls; auto. }
  apply wp_bind, (wp_now _ _ _ laws); [exact C1|]. intros t0 w0 I0. apply wp_bind, (wp_checksum _ _ _ laws); [exact I0| |].
  { split; [apply Hb|]. cbn [out_buf with_buf with_world]. rewrite (proj2 Hb). now split. }
  intros w1 I1 E1. cbn [out_buf with_buf with_world world] in E1.
  apply wp_bind, (wp_now _ _ _ laws); [exact I1|]. intros t1 w2 I2. apply wp_bind, wp_stage_step.
  destruct (_ || _) eqn:Ec.
  - apply wp_bind, (wp_lift _ _ _ _ _ _ (slice_piece r backup Hr eq_refl)). apply wp_bind, wp_memcpy.
    { cbn [out_buf with_stage with_world with_buf]. rewrite (proj2 Hb). now apply Hfit. }
    apply wp_ret. cbn [out_buf with_stage with_world with_buf]. unfold b.
    rewrite (paint_back backup changed n rs i r (out_buf s)) by auto. fold (range_len r).
    split; [|exists w2, (out_buf s); reflexivity]. fold (split_range r (delete i rs)).
    split; cbn [world out_buf with_buf with_world with_stage]; auto.
    + now apply paint_split.
    + now apply split_wf.
    + unfold split_range. destruct (1 <? range_len r); [|now apply Forall_delete].
      do 2 (constructor; [now left|]). now apply Forall_delete.
  - apply orb_false_iff in Ec as [Ec%negb_false_iff%Z.eqb_eq _]. apply wp_ret.
    split; [|exists w2, b; reflexivity]. split; cbn [world out_buf with_buf with_world with_stage]; auto.
    + apply Hb.
    + now apply (paint_more backup changed n).
    + now apply insert_wf.
    + apply Forall_insert; [exact C5|now right].
    + exists w0, w1. now split.
Qed.

Lemma color_loop_spec fuel rs s :
  color_inv rs s -> 0 <= stage_cur s -> stage_max s < 2 ^ 32 -> stage_max s <= stage_cur s + Z.of_nat fuel ->
  wp (color_loop fixed_seed exec_us fuel exec_cksum backup changed rs) s (fun rs' s' =>
    color_inv rs' s' /\ exists w b c, s' = with_world w (with_buf b (with_stage c (stage_max s) s)) /\
    stage_cur s <= c <= Z.max (stage_cur s) (stage_max s)).
Proof.
  assert (Hsame : forall s, exists w b c, s = with_world w (with_buf b (with_stage c (stage_max s) s)) /\ c = stage_cur s).
  { intros []. do 3 eexists. split; reflexivity. }
  revert rs s; induction fuel as [|f IH]; intros rs s Hc I0 Hm Hf; cbn [color_loop]; apply wp_get;
    (destruct (pop_biggest_range rs) as [i|] eqn:Ep;
     [|apply wp_ret; split; [exact Hc|]; destruct (Hsame s) as (w & b & c & E & Ec); exists w, b, c; split; [exact E|lia]]);
    (destruct (Z.ltb_spec (stage_cur s) (stage_max s)) as [Hlt|Hge];
     [|apply wp_ret; split; [exact Hc|]; destruct (Hsame s) as (w & b & c & E & Ec); exists w, b, c; split; [exact E|lia]]).
  - lia.
  - apply wp_bind. eapply wp_mono; [now apply color_step_spec|]. intros rs1 s1 (Hc1 & w & b & ->).
    rewrite uwrap_id in Hc1 |- * by lia. eapply wp_mono; [apply IH; [exact Hc1|cbn; lia..]|].
    intros rs2 s2 (Hc2 & w2 & b2 & c2 & -> & I2). split; [exact Hc2|]. exists w2, b2, c2. split; [reflexivity|].
    cbn in I2. lia.
Qed.
End Search.

(** ** The theorem *)

(** [b] is [buf] with the bytes of the taints [ts], and no others, replaced. *)
Definition coloured (random_colors : bool) (buf : list Z) (ts : list tainted) (b : list Z) : Prop :=
  length b = length buf /\
  forall p x y, buf !! p = Some x -> b !! p = Some y ->
    if tainted_at ts p then colour random_colors x y else y = x.

Lemma painted_coloured random_colors backup changed rs b ts :
  Forall2 (colour random_colors) backup changed -> painted backup changed rs b ->
  (forall p, tainted_at ts p = covers 1 rs p) -> coloured random_colors backup ts b.
Proof.
  intros Hc [Hl Hb] Hts. split; [exact Hl|]. intros p x y Hx Hy. rewrite Hb in Hy. rewrite Hts.
  destruct (covers 1 rs p); [|congruence]. exact (Forall2_lookup_lr _ _ _ _ _ _ Hc Hx Hy).
Qed.

Lemma covers_2_fresh rs p : Forall (fun r => r_ok r = 0 \/ r_ok r = 1) rs -> covers 2 rs p = false.
Proof.
  intros Hf. apply not_true_iff_false. rewrite covers_spec. intros (i & r & Hi & Hr & _).
  pose proof (proj1 (Forall_lookup _ _) Hf _ _ Hi) as Hx. cbn in Hx. lia.
Qed.

(** What [colorization] leaves and returns. *)
Definition colorized {W} `{Target W} (I : W -> Prop) (random_colors : bool) (cmplog_lvl success : Z) (buf : list Z)
    (r : option (list tainted) * Z) (s' : fz W) : Prop :=
  I (world s') /\ (exists cksum, same_path I cksum buf /\ same_path I cksum (out_buf s')) /\
  0 <= stage_cur s' <= 2 * Z.of_nat (length buf) /\ bytes (out_buf s') /\
  exists ts, maximal_runs (Z.of_nat (length buf)) ts /\ coloured random_colors buf ts (out_buf s') /\
    (r = (Some ts, u32 (success + 1)) /\ ts <> [] \/
     r = (None, success) /\ (ts = [] \/ success <> 0 /\ cmplog_lvl < 3)).

Lemma color_start {W} `{Target W} I cksum buf changed (s : fz W) :
  good buf -> out_buf s = buf -> I (world s) -> same_path I cksum buf ->
  color_inv I cksum buf changed (add_range [] 0 (Z.of_nat (length buf) - 1)) s.
Proof.
  intros (Gb & Gl & Gm) <- Hi Hp. split; auto.
  - split; [done|]. intros p. now destruct (covers 1 _ p) eqn:Ec.
  - split; [constructor; [unfold within; cbn; lia|constructor]|]. intros p. cbn.
    pose proof (b2z_range (inside (mkRange 0 (Z.of_nat (length (out_buf s)) - 1) 0) p)). lia.
  - constructor; [now left|constructor].
Qed.

Lemma colorization_spec {W} `{Target W} `{CmpLog W} Lost I tries fixed_seed exec_us random_colors cmplog_lvl success (s : fz W) :
  its_laws Lost I tries -> I (world s) -> good (out_buf s) ->
  (20 < length (stage_finds s))%nat -> (20 < length (stage_cycles s))%nat ->
  StagesSafe.wp (dies Lost) I (colorization tries fixed_seed exec_us random_colors cmplog_lvl success) s
    (colorized I random_colors cmplog_lvl success (out_buf s)).
Proof.
  intros laws Hi Hg Hf Hc. pose proof Hg as (Gb & Gl & Gm). unfold MAX_FILE in Gm. set (buf := out_buf s) in *.
  set (n := Z.of_nat (length buf)) in *.
  unfold colorization. apply wp_get. cbv zeta. fold buf n. rewrite Z.shiftl_mul_pow2 by lia. change (n * 2 ^ 1) with (n * 2).
  rewrite (uwrap_id 32 (n * 2)) by lia. apply wp_bind, wp_put, wp_bind.
  apply (wp_checksum _ _ _ laws); [exact Hi|exact Hg|]. intros w1 I1 E1. cbn [world with_stage out_buf] in E1. apply wp_get.
  cbn [out_buf with_world with_stage]. fold buf.
  apply wp_bind, (recolour_spec _ _ _ laws); [exact Gb|exact I1|]. intros changed w2 I2 Hcol. cbn [world with_world with_stage].
  pose proof (Forall2_length _ _ _ Hcol) as Hlen.
  assert (Hchb : bytes changed).
  { apply Forall_lookup. intros p y Hy. destruct (Forall2_lookup_r _ _ _ _ _ Hcol Hy) as (x & _ & Hxy). apply Hxy. }
  rewrite (uwrap_id 32 (n - 1)) by lia. apply wp_bind. eapply wp_mono.
  { apply (color_loop_spec _ _ _ laws _ _ (trace_cksum w1) buf changed Hg Hchb (eq_sym Hlen));
      [|cbn; lia|cbn [stage_max with_world with_stage]; lia|cbn [stage_max stage_cur with_world with_stage]; lia].
    apply color_start; [exact Hg|done|exact I2|]. exists (world s), w1. now split. }
  intros rs s3 (C & w3 & b & c & -> & Hcur). cbn [stage_cur stage_max with_world with_stage] in Hcur.
  destruct C as [C1 C2 C3 C4 C5 C6]. cbn [world out_buf with_world with_stage with_buf] in *.
  destruct (collect_taints_spec n (S (length rs)) [] 0 rs ltac:(unfold MAX_FILE; lia)) as (ts & k & Ets & Hruns & Hts).
  { split; [exact C4|done| |].
    - intros p. now rewrite (covers_2_fresh rs p C5).
    - eapply Forall_impl; [apply C4|]. unfold within. cbn. lia. }
  { unfold waiting. pose proof (zsum_count_bound (fun r => r_ok r =? 1) rs). lia. }
  apply wp_bind, (wp_lift _ _ _ _ _ _ Ets). cbv beta iota. apply wp_get. cbv zeta.
  cbn [stage_finds stage_cycles with_world with_stage with_buf].
  destruct (rd_lt (stage_finds s) STAGE_COLORIZATION Hf) as (x & Ex & _).
  destruct (rd_lt (stage_cycles s) STAGE_COLORIZATION Hc) as (y & Ey & _).
  apply wp_bind, (wp_lift _ _ _ _ _ _ Ex), wp_bind, (wp_lift _ _ _ _ _ _ Ey), wp_bind, wp_put.
  set (s4 := with_stats _ _ _ _).
  assert (Hpost : forall r, (r = (Some ts, u32 (success + 1)) /\ ts <> [] \/
      r = (None, success) /\ (ts = [] \/ success <> 0 /\ cmplog_lvl < 3)) ->
    colorized I random_colors cmplog_lvl success buf r s4).
  { intros r Hr. split; [exact C1|]. split.
    - exists (trace_cksum w1). split; [|exact C6]. exists (world s), w1. now split.
    - split; [subst s4 n; cbn; lia|]. split; [exact C2|]. exists ts. split; [exact Hruns|]. split; [|exact Hr].
      apply (painted_coloured _ _ changed rs); [exact Hcol|exact C3|]. intros p. now rewrite Hts, (covers_2_fresh rs p C5). }
  destruct ts as [|t ts]; [apply wp_ret, Hpost; auto|].
  destruct (unsatisfactory _ _ _ _ _) eqn:Eu; apply wp_ret, Hpost.
  - right. split; [done|]. right. unfold unsatisfactory in Eu.
    apply andb_true_iff in Eu as [[Eu1 Eu2]%andb_true_iff _]. rewrite truthy_true in Eu1. lia.
  - now left.
Qed.

(** C17: Colorization.  It ends, after at most twice as many executions as the
    input has bytes.  The taints are the maximal runs of the bytes it replaced,
    in descending order: outside them the input is unchanged, inside every byte
    is another one (of its kind, unless colours are random), and the coloured
    input took the path of the original one when it was run.  No taints are
    returned if no byte could be replaced or, below level 3, if too many were;
    the coloured bytes stay in the buffer even then. *)
Theorem colorization_correct {W} `{Target W} `{CmpLog W} Lost I tries fixed_seed exec_us random_colors cmplog_lvl success (s : fz W) :
  its_laws Lost I tries -> I (world s) -> good (out_buf s) ->
  (20 < length (stage_finds s))%nat -> (20 < length (stage_cycles s))%nat ->
  match colorization tries fixed_seed exec_us random_colors cmplog_lvl success s with
  | Ok (s', Some r) => colorized I random_colors cmplog_lvl success (out_buf s) r s'
  | Ok (s', None) => I (world s')
  | Err e => e = Fatal /\ Lost
  end.
Proof. exact (colorization_spec Lost I tries fixed_seed exec_us random_colors cmplog_lvl success s). Qed.

(** ** A target that looks at the first two bytes

    The world is the generator's counter and the checksum of the last run. *)

#[local] Instance first_two : Target (Z * Z) := {|
  common_fuzz_stuff w c := Ok ((w.1, nth 0 c 0 + 256 * nth 1 c 0), false);
  trace_cksum w := w.2;
  hit_cnt w := 0;
  maybe_add_auto w t := Ok w;
  draw w n := Ok (if n <=? 1 then (0, w) else (w.1 mod n, (w.1 + 1, w.2)))
|}.
#[local] Instance still : CmpLog (Z * Z) := {| now_us w := (0, w); live_items w := 1 |}.

Lemma first_two_laws (tries : nat) : 2 ^ 32 <= Z.of_nat tries -> its_laws False (fun _ : Z * Z => True) tries.
Proof.
  intros Ht. split; cbn; auto.
  - intros w n _ Hn. destruct (Z.leb_spec n 1); do 2 eexists; (split; [reflexivity|]); (split; [done|]).
    + split; lia.
    + pose proof (Z.mod_pos_bound w.1 n ltac:(lia)). split; lia.
  - intros w n x _. apply (counting_fair fst (fun w => (w.1 + 1, w.2))); [| |done|exact Ht]; cbn.
    + intros v m Hm. now rewrite (proj2 (Z.leb_gt _ _) Hm).
    + done.
Qed.

Definition six0 : fz (Z * Z) := mkFz (3, 0) [71; 73; 70; 56; 57; 97] 0 0 0 (replicate 32 0) (replicate 32 0) 0 0.

(** All but the first two bytes are replaced, by others of their kind. *)
Example colorization_six :
  match colorization 100 true 0 false 2 0 six0 with
  | Ok (s', Some (Some ts, 1)) => ts = [mkTaint 2 4] /\ out_buf s' = [71; 73; 65; 57; 50; 100]
  | _ => False
  end.
Proof. vm_compute. split; reflexivity. Qed.

Lemma colorization_correct_witness :
  match colorization (Z.to_nat (2 ^ 32)) true 0 false 2 0 six0 with
  | Ok (s', Some r) => colorized (fun _ => True) false 2 0 [71; 73; 70; 56; 57; 97] r s'
  | Ok (s', None) => True
  | Err e => e = Fatal /\ False
  end.
Proof.
  assert (Ht : 2 ^ 32 <= Z.of_nat (Z.to_nat (2 ^ 32))) by (rewrite Z2Nat.id; lia).
  assert (Hg : good (out_buf six0)).
  { split; [now apply bytesb_spec|]. cbn [out_buf six0 length]. unfold MAX_FILE. lia. }
  apply (colorization_correct False (fun _ => True) (Z.to_nat (2 ^ 32)) true 0 false 2 0 six0 (first_two_laws _ Ht) Logic.I Hg);
    apply Nat.ltb_lt; reflexivity.
Defined.
