(* ===== verification/Redqueen.v ===== *)
(** Input-to-state replacement for integer comparisons, in
    [src/afl-fuzz-redqueen.c]: [its_fuzz], [cmp_extend_encoding] and
    [cmp_extend_encodingN].

    [buf], the coloured input, is the [out_buf] of the stages' state.  What
    else the functions change through pointers is the record [its].  The
    static [hshape] is an argument.  Byte order is little-endian. *)

From S2P Require Import Prelude Words Arith Float Bitmap State Text Rand Describe Dedup Extras Stages Havoc Colorize.
#[local] Open Scope list_scope.
#[local] Open Scope Z_scope.

(** ** Attributes of comparisons, and levels *)

Definition IS_EQUAL : Z := 1.
Definition IS_GREATER : Z := 2.
Definition IS_LESSER : Z := 4.
Definition IS_FP : Z := 8.
Definition IS_FP_MOD : Z := 16.
Definition IS_INT_MOD : Z := 32.
Definition IS_TRANSFORM : Z := 64.
Definition LVL1 : Z := 1.
Definition LVL2 : Z := 2.
Definition LVL3 : Z := 4.
Definition SWAPA (x : Z) : Z := (x .& 0xf8) + ((x .& 7) .^ 0x07).

(** ** Reading numbers

    [strntoll] and [strntoull] around [strtoll] and [strtoull] with base 0.
    [errno] is that of the call. *)

Definition c_isspace (c : Z) : bool := (c =? 32) || ((9 <=? c) && (c <=? 13)).
Definition digit_val (c : Z) : Z :=
  if (48 <=? c) && (c <=? 57) then c - 48
  else if (97 <=? c) && (c <=? 122) then c - 87
  else if (65 <=? c) && (c <=? 90) then c - 55 else 99.

(** The value and the number of the leading digits. *)
Fixpoint digits (base : Z) (s : list Z) (acc : Z) (k : nat) : Z * nat :=
  match s with
  | c :: s => if digit_val c <? base then digits base s (acc * base + digit_val c) (S k) else (acc, k)
  | [] => (acc, k)
  end.

Fixpoint leading (f : Z -> bool) (s : list Z) : nat :=
  match s with c :: s => if f c then S (leading f s) else O | [] => O end.

(** Sign, magnitude and length of the number at the start of [s]; the length
    is 0 when there is none. *)
Definition c_strto (s : list Z) : bool * Z * nat :=
  let blanks := leading c_isspace s in
  let t := drop blanks s in
  let '(neg, sg) := match t with 43 :: _ => (false, 1%nat) | 45 :: _ => (true, 1%nat) | _ => (false, O) end in
  let t := drop sg t in
  let '(base, pre) := match t with
    | 48 :: x :: d :: _ => if ((x =? 120) || (x =? 88)) && (digit_val d <? 16) then (16, 2%nat) else (8, O)
    | 48 :: _ => (8, O)
    | _ => (10, O)
    end in
  let '(v, k) := digits base (drop pre t) 0 0 in
  match k with O => (false, 0, O) | _ => (neg, v, (blanks + sg + pre + k)%nat) end.

(** The number at the start of [str], and where it ends; [None] is the
    result 1. *)
Definition strnto (str : list Z) (ret : bool -> Z -> option Z) : option (Z * nat) :=
  let blanks := leading (fun c => c =? 32) str in
  match drop blanks str with
  | [] => None
  | beg => let '(neg, v, k) := c_strto (take 63 beg) in
           match ret neg v with Some num => Some (num, (blanks + k)%nat) | None => None end
  end.
Definition strntoll (str : list Z) : option (Z * nat) :=
  strnto str (fun neg v =>
    if neg then if 2 ^ 63 <? v then None else Some (- v)
    else if 2 ^ 63 - 1 <? v then None else Some v).
Definition strntoull (str : list Z) : option (Z * nat) :=
  strnto str (fun neg v => if 2 ^ 64 - 1 <? v then None else Some (if neg then u64 (- v) else v)).

(** ** Floating point on bit patterns

    [mw] and [ew] are the widths of mantissa and exponent. *)

Definition fp_of_bits (mw ew b : Z) : spec_float :=
  let m := b mod 2 ^ mw in
  let e := (b .>> mw) mod 2 ^ ew in
  let s := Z.testbit b (mw + ew) in
  let bias := 2 ^ (ew - 1) - 1 in
  if e =? 0 then match m with Z.pos p => S754_finite s p (1 - bias - mw) | _ => S754_zero s end
  else if e =? 2 ^ ew - 1 then (if m =? 0 then S754_infinity s else S754_nan)
  else match m + 2 ^ mw with Z.pos p => S754_finite s p (e - bias - mw) | _ => S754_nan end.

Definition fp_to_bits (mw ew : Z) (x : spec_float) : Z :=
  let sign (s : bool) := if s then 2 ^ (mw + ew) else 0 in
  let inf := (2 ^ ew - 1) .<< mw in
  match x with
  | S754_zero s => sign s
  | S754_infinity s => sign s + inf
  | S754_nan => inf + 2 ^ (mw - 1)
  | S754_finite s p e =>
      sign s + (if Z.pos p <? 2 ^ mw then Z.pos p else ((e + (2 ^ (ew - 1) - 1) + mw) .<< mw) + (Z.pos p - 2 ^ mw))
  end.

(** Not-a-number keeps its payload and becomes quiet. *)
Definition fp_is_nan (mw ew b : Z) : bool := ((b .>> mw) mod 2 ^ ew =? 2 ^ ew - 1) && negb (b mod 2 ^ mw =? 0).

Definition float_of_double (x : double) : spec_float :=
  match x with S754_finite s p e => binary_normalize 24 128 (if s then Z.neg p else Z.pos p) e s | _ => x end.

(** [float g = *f; g += one] and the same for a [double]. *)
Definition float_add (b one : Z) : Z :=
  if fp_is_nan 23 8 b then b .| 2 ^ 22
  else fp_to_bits 23 8 (float_of_double (dadd (fp_of_bits 23 8 b) (dint one))).
Definition double_add (b one : Z) : Z :=
  if fp_is_nan 52 11 b then b .| 2 ^ 51 else fp_to_bits 52 11 (dadd (fp_of_bits 52 11 b) (dint one)).
(** [float g = (float)*f] *)
Definition double_to_float (b : Z) : Z :=
  if fp_is_nan 52 11 b then ((b .>> 63) .<< 31) .| (0xff .<< 23) .| ((b mod 2 ^ 52) .>> 29) .| 2 ^ 22
  else fp_to_bits 23 8 (float_of_double (fp_of_bits 52 11 b)).

(** ** What the functions change through pointers

    [*status] (0, 1: a find, 2: none), the buffer [cbuf] that combines the
    finds, the fuzzer's [out_scratch_buf], and [total] and [faileds] of
    [pass_stats] for each comparison. *)
Record its := mkIts { status : Z; cbuf : list Z; scratch : list Z; pass_stats : list (Z * Z) }.

Definition set_status (v : Z) (t : its) : its := mkIts v (cbuf t) (scratch t) (pass_stats t).
Definition set_cbuf (v : list Z) (t : its) : its := mkIts (status t) v (scratch t) (pass_stats t).
Definition set_scratch (v : list Z) (t : its) : its := mkIts (status t) (cbuf t) v (pass_stats t).
Definition set_pass_stats (v : list (Z * Z)) (t : its) : its := mkIts (status t) (cbuf t) (scratch t) v.

Definition swap_bytes (k : nat) (x : Z) : Z :=
  match k with 8%nat => SWAP64 x | 4%nat => SWAP32 x | _ => SWAP16 x end.

(** The stages' state with these beside the fuzzer. *)
#[export] Instance its_target {W} `{Target W} : Target (W * its) := {|
  common_fuzz_stuff wt c := '(w, b) ← common_fuzz_stuff wt.1 c; Ok ((w, wt.2), b);
  trace_cksum wt := trace_cksum wt.1;
  hit_cnt wt := hit_cnt wt.1;
  maybe_add_auto wt t := w ← maybe_add_auto wt.1 t; Ok (w, wt.2);
  draw wt n := '(k, w) ← draw wt.1 n; Ok (k, (w, wt.2))
|}.
#[export] Instance its_cmplog {W} `{CmpLog W} : CmpLog (W * its) := {|
  now_us wt := let '(t, w) := now_us wt.1 in (t, (w, wt.2));
  live_items wt := live_items wt.1
|}.

Section Its.
Context {W : Type} `{Target W}.
Abbreviation R := (M (W * its)).

Definition get_its : R its := s ← get; mret (world s).2.
Definition get_status : R Z := t ← get_its; mret (status t).
Definition on_its (f : its -> its) : R unit := s ← get; put (with_world ((world s).1, f (world s).2) s).

(** [memcpy(cbuf + i, bs, ...)] *)
Definition combine (i : nat) (bs : list Z) : R unit :=
  t ← get_its;
  if bool_decide (i + length bs <= length (cbuf t))%nat then on_its (set_cbuf (write_at i bs (cbuf t)))
  else lift (Err Fault).

Definition its_fuzz (buf : list Z) : R unit :=
  s ← get;
  let orig_hit_cnt := hit_cnt (world s) in
  _ ← exec_buf buf;
  s ← get;
  on_its (set_status (if hit_cnt (world s) =? orig_hit_cnt then 2 else 1)).

(** [cmplog_enable_transform], [cmplog_enable_arith], [queue_cur->is_ascii];
    what fresh memory of some size contains. *)
Context (enable_transform enable_arith is_ascii : bool) (fresh : nat -> list Z).
Context (orig_buf : list Z) (idx : nat) (taint_len : Z) (lvl : Z).

(** [k] bytes of [orig_buf]. *)
Definition orig_at (k : nat) : res Z := bs ← slice (Z.of_nat idx) (Z.of_nat k) orig_buf; Ok (le_load bs).

Definition its_len : R Z := s ← get; mret (Z.min (u32 (Z.of_nat (length (out_buf s)) - Z.of_nat idx)) taint_len).

(** Put [new] in place of the bytes at [idx], for one execution. *)
Definition try_bytes (new : list Z) : R unit :=
  s ← get;
  old ← lift (slice (Z.of_nat idx) (Z.of_nat (length new)) (out_buf s));
  _ ← memcpy_out idx new;
  s ← get;
  _ ← its_fuzz (out_buf s);
  st ← get_status;
  _ ← (if st =? 1 then combine idx new else mret tt);
  memcpy_out idx old.

(** Where the input has [pattern], and the original had [o_pattern], try
    [repl]. *)
Definition try_width (k : nat) (pattern repl o_pattern attr : Z) : R unit :=
  n ← its_len;
  if n <? Z.of_nat k then mret tt else
  x ← load k idx;
  o ← lift (orig_at k);
  if ((x =? uwrap (8 * Z.of_nat k) pattern) && (o =? uwrap (8 * Z.of_nat k) o_pattern)) || (IS_FP_MOD <=? attr)
  then try_bytes (le_store k (uwrap (8 * Z.of_nat k) repl)) else mret tt.

(** ** Text that was parsed as a number *)

(** [num_text] in place of the [old_len] bytes at [idx]; the input keeps its
    length. *)
Definition try_number (num_text : list Z) (old_len : nat) : R unit :=
  s ← get;
  let len := length (out_buf s) in
  let size := (len + length num_text)%nat in
  let old := scratch (world s).2 in
  let space := if bool_decide (length old < size)%nat then old ++ fresh (size - length old) else old in
  head ← lift (slice 0 (Z.of_nat idx) (out_buf s));
  tail ← lift (slice (Z.of_nat (idx + old_len)) (Z.of_nat len - Z.of_nat (idx + old_len)) (out_buf s));
  let written := head ++ num_text ++ tail in
  let new_buf := written ++ drop (length written) space in
  let j := (idx + length num_text)%nat in
  c ← lift (rd new_buf j);
  let new_buf := if (48 <=? c) && (c <=? 57) then <[j := 32]> new_buf else new_buf in
  _ ← on_its (set_scratch new_buf);
  its_fuzz (take len new_buf).

Definition try_numbers (pattern repl : Z) : R unit :=
  s ← get;
  let here := drop idx (out_buf s) in
  if negb is_ascii then mret tt else
  match strntoll here with
  | Some (num, e) =>
      if (u64 num =? pattern) || (num =? 0) then try_number (fmt_d (swrap 64 repl)) e else mret tt
  | None =>
      match strntoull here with
      | Some (unum, e) => if (unum =? pattern) || (unum =? 0) then try_number (fmt_u repl) e else mret tt
      | None => mret tt
      end
  end.

(** ** Transformed integers *)

(** The bytes the comparison took, as far as there are any. *)
Definition transform_width (hshape : Z) : M (W * its) nat :=
  s ← get;
  let bytes := if hshape <=? 1 then 1 else if hshape =? 2 then 2 else if (hshape =? 3) || (hshape =? 4) then 4 else 8 in
  let bytes := u8 (Z.min bytes (u32 (Z.of_nat (length (out_buf s)) - Z.of_nat idx))) in
  mret (if bytes =? 0 then O else if bytes =? 1 then 1%nat else if bytes <=? 3 then 2%nat else if bytes <=? 7 then 4%nat else 8%nat).

Definition LOWER : Z := 0x2020202020202020.
Definition UPPER : Z := 0x5f5f5f5f5f5f5f5f.

(** What the target may have made of the input, and the value that becomes
    [repl] by it: a difference, an exclusive or, lower or upper case. *)
Definition transforms (k : nat) (pattern repl o_pattern b_val o_b_val : Z) : list (option Z) :=
  let mask := Z.ones (8 * Z.of_nat k) in
  let diff := u64 (pattern - b_val) in
  let diff_x := pattern .^ b_val in
  [ (if (diff =? u64 (o_pattern - o_b_val)) && truthy diff then Some (u64 (repl - diff)) else None);
    (if (diff_x =? o_pattern .^ o_b_val) && truthy diff_x then Some (repl .^ diff_x) else None);
    (if (o_b_val .| (LOWER .& mask) =? o_pattern .& mask) && (b_val .| (LOWER .& mask) =? pattern .& mask)
     then Some (repl .& (UPPER .& mask)) else None);
    (if (o_b_val .& (UPPER .& mask) =? o_pattern .& mask) && (b_val .& (UPPER .& mask) =? pattern .& mask)
     then Some (repl .| (LOWER .& mask)) else None) ].

(** The value one above or below, for a comparison that is not an equality;
    the attribute marks it as modified. *)
Definition nudge (hshape attr : Z) (n repl : Z) : option (Z * Z) :=
  let up := truthy (attr .& IS_GREATER) in
  if (IS_FP <=? attr) && (attr <? IS_FP_MOD) then
    if up then
      if (hshape =? 4) && (4 <=? n) then Some (float_add (u32 repl) 1, IS_FP_MOD)
      else if (hshape =? 8) && (8 <=? n) then Some (double_add repl 1, IS_FP_MOD) else None
    else
      if hshape =? 4 then Some (float_add (u32 repl) (-1), IS_FP_MOD)
      else if hshape =? 8 then Some (double_add repl (-1), IS_FP_MOD) else None
  else if attr <? IS_FP then Some (u64 (if up then repl + 1 else repl - 1), IS_INT_MOD) else None.

(** "Transform >= to < and <= to >". *)
Definition turn (attr : Z) : Z :=
  if truthy (attr .& IS_EQUAL) && truthy (attr .& (IS_GREATER .| IS_LESSER))
  then if truthy (attr .& 2) then u8 (attr + 2) else u8 (attr - 2) else attr.

(** ** The search *)

(** [fuel] bounds the depth of the recursion. *)
Fixpoint cmp_extend_encoding (fuel : nat) (hshape pattern repl o_pattern changed_val attr : Z) (do_reverse : bool) : R unit :=
  match fuel with
  | O => lift (Err OutOfFuel)
  | S f =>
  let again := cmp_extend_encoding f in
  _ ← (if enable_transform && truthy (lvl .& LVL3) then
         _ ← try_numbers pattern repl;
         if negb (pattern =? o_pattern) && (repl =? changed_val) && (attr <=? IS_EQUAL) then
           k ← transform_width hshape;
           b_val ← load k idx;
           o_b_val ← lift (orig_at k);
           _ ← for_ (zip (seq 0 4) (transforms k pattern repl o_pattern b_val o_b_val)) (fun '(i, r) =>
             st ← get_status;
             match r with
             | Some new_repl =>
                 if bool_decide (i = O) || negb (st =? 1)
                 then again hshape pattern new_repl o_pattern repl IS_TRANSFORM true else mret tt
             | None => mret tt
             end);
           on_its (set_status 0)
         else mret tt
       else mret tt);
  if pattern =? o_pattern then mret tt else
  _ ← (if truthy (lvl .& LVL1) || (IS_FP_MOD <=? attr) then
         _ ← for_ [8; 4; 2]%nat (fun k =>
           st ← get_status;
           if (hshape <? Z.of_nat k) || (st =? 1) then mret tt else
           _ ← try_width k pattern repl o_pattern attr;
           st ← get_status;
           if do_reverse && negb (st =? 1)
           then again hshape (swap_bytes k pattern) (swap_bytes k repl) (swap_bytes k o_pattern) (swap_bytes k changed_val)
                  attr false
           else mret tt);
         st ← get_status;
         if st =? 1 then mret tt else try_width 1 pattern repl o_pattern attr
       else mret tt);
  if negb enable_arith || (lvl <? LVL3) || (attr =? IS_TRANSFORM) then mret tt else
  if negb (truthy (attr .& (IS_GREATER .| IS_LESSER))) || (hshape <? 4) then mret tt else
  let attr := turn attr in
  n ← its_len;
  match nudge hshape attr n repl with
  | None => mret tt
  | Some (repl_new, attr_new) =>
      _ ← again hshape pattern repl_new o_pattern repl_new attr_new true;
      if (IS_FP <=? attr) && (hshape =? 8) && (4 <=? n)
      then let g := double_to_float repl in again 4 pattern g o_pattern g IS_FP_MOD true
      else mret tt
  end
  end.

(** *** Other widths

    [SWAPN(x, l)]: the shift is by a [u32]; beyond the 128 bits it is
    undefined. *)
Definition SWAPN (x l : Z) : res Z :=
  let sr := u32 (128 - u32 (l .<< 3)) in
  if sr <? 128 then Ok (le_load (rev (le_store 16 x)) .>> sr) else Err Fault.

Fixpoint cmp_extend_encodingN (fuel : nat) (hshape pattern repl o_pattern changed_val : Z) (do_reverse : bool) : R unit :=
  match fuel with
  | O => lift (Err OutOfFuel)
  | S f =>
  n ← its_len;
  if n <? hshape then mret tt else
  let k := Z.to_nat hshape in
  p ← lift (slice 0 hshape (le_store 16 pattern));
  r ← lift (slice 0 hshape (le_store 16 repl));
  o_p ← lift (slice 0 hshape (le_store 16 o_pattern));
  s ← get;
  ptr ← lift (slice (Z.of_nat idx) hshape (out_buf s));
  o_ptr ← lift (slice (Z.of_nat idx) hshape orig_buf);
  _ ← (if bool_decide (ptr = p) && bool_decide (o_ptr = o_p) then try_bytes r else mret tt);
  st ← get_status;
  if do_reverse && negb (st =? 1) then
    pattern ← lift (SWAPN pattern (hshape .<< 3));
    repl ← lift (SWAPN repl (hshape .<< 3));
    o_pattern ← lift (SWAPN o_pattern (hshape .<< 3));
    changed_val ← lift (SWAPN changed_val (hshape .<< 3));
    cmp_extend_encodingN f hshape pattern repl o_pattern changed_val false
  else mret tt
  end.
End Its.
