(* ===== verification/RedqueenThms.v ===== *)
(** Input-to-state replacement of integers: the search ends, stays inside the
    tainted bytes and puts the input back; at level 1 it is the trial of a
    flat list of byte strings. *)

From S2P Require Import Prelude Words Arith Float Bitmap State Text Rand Describe Dedup Extras Stages StagesRun StagesThms StagesSafe Havoc HavocThms Colorize ColorizeThms Redqueen.
#[local] Open Scope list_scope.
#[local] Open Scope Z_scope.

(** ** Attributes *)

(** The comparison [attr] asks for, of operands that compare like this. *)
Definition asks (attr : Z) (c : comparison) : bool :=
  truthy (attr .& match c with Eq => IS_EQUAL | Gt => IS_GREATER | Lt => IS_LESSER end).

(** [SWAPA] negates a comparison; exchanging its operands is [CompOpp]. *)
Lemma SWAPA_negates attr c : 0 <= attr < 8 -> asks (SWAPA attr) c = negb (asks attr c).
Proof. intros Ha. assert (Hc : In attr [0; 1; 2; 3; 4; 5; 6; 7]) by (cbn; lia). cbn in Hc. intuition (subst; destruct c; reflexivity). Qed.

Lemma SWAPA_does_not_swap : asks (SWAPA IS_EQUAL) Eq <> asks IS_EQUAL (CompOpp Eq).
Proof. discriminate. Qed.

(** ** Numbers in text *)

Lemma leading_le f s : (leading f s <= length s)%nat.
Proof. induction s as [|c s IH]; cbn; [lia|]. destruct (f c); lia. Qed.

Lemma digits_le base s acc k : (k <= (digits base s acc k).2 <= k + length s)%nat.
Proof.
  revert acc k; induction s as [|c s IH]; intros acc k; cbn [digits]; [cbn; lia|].
  destruct (digit_val c <? base); [|cbn; lia]. specialize (IH (acc * base + digit_val c) (S k)). cbn [length]. lia.
Qed.

Lemma c_strto_le s : ((c_strto s).2 <= length s)%nat.
Proof.
  unfold c_strto. pose proof (leading_le c_isspace s) as Hl. set (b := leading c_isspace s) in *.
  set (sgn := match drop b s with 43 :: _ => _ | _ => _ end).
  assert (Hs : (sgn.2 <= length (drop b s))%nat).
  { subst sgn. destruct (drop b s) as [|c r]; [cbn; lia|]. repeat case_match; cbn; lia. }
  destruct sgn as [neg sg]. cbn [snd] in Hs. rewrite length_drop in Hs.
  set (bp := match drop sg (drop b s) with 48 :: _ => _ | _ => _ end).
  assert (Hp : (bp.2 <= length (drop sg (drop b s)))%nat).
  { subst bp. destruct (drop sg (drop b s)) as [|c r]; [cbn; lia|]. destruct r as [|x [|d r]]; repeat case_match; cbn; lia. }
  destruct bp as [base pre]. cbn [snd] in Hp. rewrite !length_drop in Hp.
  pose proof (digits_le base (drop pre (drop sg (drop b s))) 0 0) as Hd.
  destruct (digits _ _ _ _) as [v k]. cbn [snd] in Hd. rewrite !length_drop in Hd.
  destruct k; cbn [snd]; lia.
Qed.

Lemma strnto_le str ret num e : strnto str ret = Some (num, e) -> (e <= length str)%nat.
Proof.
  unfold strnto. pose proof (leading_le (fun c => c =? 32) str) as Hl. set (b := leading _ str) in *.
  destruct (drop b str) as [|c r] eqn:E; [discriminate|].
  pose proof (c_strto_le (take 63 (c :: r))) as Hc. destruct (c_strto _) as [[neg v] k]. cbn [snd] in Hc.
  destruct (ret neg v); [|discriminate]. intros [= _ <-]. apply (f_equal length) in E.
  rewrite length_drop in E. rewrite length_take in Hc. lia.
Qed.

Lemma digits_of_bytes fuel n : bytes (digits_of fuel 10 n).
Proof.
  assert (Hc : forall n, is_byte (if n mod 10 <? 10 then 48 + n mod 10 else 87 + n mod 10)).
  { intros m. pose proof (Z.mod_pos_bound m 10 ltac:(lia)). unfold is_byte. zcases; lia. }
  revert n; induction fuel as [|f IH]; intros n; cbn [digits_of]; [constructor; [apply Hc|constructor]|].
  destruct (n <? 10); [constructor; [apply Hc|constructor]|].
  apply Forall_app. split; [apply IH|]. constructor; [apply Hc|constructor].
Qed.

Lemma fmt_u_bytes n : bytes (fmt_u n).
Proof. apply digits_of_bytes. Qed.
Lemma fmt_d_bytes n : bytes (fmt_d n).
Proof. unfold fmt_d. destruct (n <? 0); [constructor; [unfold is_byte; lia|]|]; apply fmt_u_bytes. Qed.

(** ** Safety

    [ok]: the inputs that may be run. *)

Section Search.
Context {W : Type} `{Target W} (Lost : Prop) (I : W -> Prop) (ok : list Z -> Prop).
Context (enable_transform enable_arith is_ascii : bool) (fresh : nat -> list Z).
Context (orig_buf buf : list Z) (keys idx : nat) (taint_len lvl : Z).
Context (Hfresh : forall n, length (fresh n) = n /\ bytes (fresh n)).
Context (Hgood : good buf) (Horig : length orig_buf = length buf) (Hidx : (idx < length buf)%nat).
Context (Hrun : forall w c, I w -> ok c -> or_fatal Lost (common_fuzz_stuff w c) (fun '(w', _) => I w')).

(** The bytes that may change: the rest of the taint. *)
Abbreviation room := (Z.min (Z.of_nat (length buf) - Z.of_nat idx) taint_len).
Context (Hwindow : forall new, bytes new -> Z.of_nat (length new) <= room -> ok (write_at idx new buf)).
Context (Hnumbers : enable_transform = true -> is_ascii = true ->
  forall c, bytes c -> length c = length buf -> take idx c = take idx buf -> ok c).

(** [keys]: the comparisons with statistics. *)
Definition its_ok (t : its) : Prop :=
  bytes (cbuf t) /\ length (cbuf t) = length buf /\ bytes (scratch t) /\ length (pass_stats t) = keys.
Definition I2 (wt : W * its) : Prop := I wt.1 /\ its_ok wt.2.
Abbreviation wp := (StagesSafe.wp (dies Lost) I2).
Abbreviation fzi := (fz (W * its)).

Definition ready (s : fzi) : Prop := I2 (world s) /\ out_buf s = buf.
(** Nothing but the world and the [its] has changed. *)
Definition held (s s' : fzi) : Prop := exists wt, s' = with_world wt s /\ I2 wt.
Definition safe (m : M (W * its) unit) : Prop := forall s, ready s -> wp m s (fun _ s' => held s s').

Lemma held_refl s : ready s -> held s s.
Proof. intros [Hi _]. exists (world s). split; [now destruct s|exact Hi]. Qed.

Lemma held_ready s s' : ready s -> held s s' -> ready s'.
Proof. intros [_ Hb] (wt & -> & Hi). now split. Qed.

Lemma safe_ret : safe (mret tt).
Proof. intros s Hs. now apply wp_ret, held_refl. Qed.

Lemma safe_bind (m m' : M (W * its) unit) : safe m -> safe m' -> safe (m ≫= fun _ => m').
Proof.
  intros Hm Hm' s Hs. apply wp_bind. eapply wp_mono; [exact (Hm s Hs)|]. intros [] s1 H1. cbv beta in H1.
  eapply wp_mono; [exact (Hm' s1 (held_ready _ _ Hs H1))|]. intros [] s2 (wt & -> & Hi).
  destruct H1 as (wt1 & -> & _). exists wt. now split.
Qed.

Lemma safe_status (k : Z -> M (W * its) unit) : (forall st, safe (k st)) -> safe (get_status ≫= k).
Proof. intros Hk s Hs. exact (Hk _ s Hs). Qed.

Lemma safe_its_len (k : Z -> M (W * its) unit) :
  0 <= taint_len -> safe (k room) -> safe (its_len idx taint_len ≫= k).
Proof.
  intros Ht Hk s Hs. pose proof Hgood as (_ & _ & Hm). unfold MAX_FILE in Hm.
  assert (E : Z.min (u32 (Z.of_nat (length (out_buf s)) - Z.of_nat idx)) taint_len = room)
    by (rewrite (proj2 Hs), uwrap_id by lia; reflexivity).
  unfold its_len. apply wp_bind, wp_get, wp_ret. rewrite E. exact (Hk s Hs).
Qed.

Lemma safe_load k (f : Z -> M (W * its) unit) :
  (idx + k <= length buf)%nat -> (forall x, safe (f x)) -> safe (load k idx ≫= f).
Proof. intros Hk Hf s Hs. apply wp_bind, wp_load; [now rewrite (proj2 Hs)|]. now apply Hf. Qed.

Lemma safe_orig k (f : Z -> M (W * its) unit) :
  (idx + k <= length buf)%nat -> (forall x, safe (f x)) -> safe (lift (orig_at orig_buf idx k) ≫= f).
Proof.
  intros Hk Hf s Hs. unfold orig_at. rewrite slice_ok by (rewrite ?Horig; lia). cbn [mbind res_bind].
  apply wp_bind. eapply wp_lift; [reflexivity|]. now apply Hf.
Qed.

Lemma its_safe_if (b : bool) m m' : (b = true -> safe m) -> (b = false -> safe m') -> safe (if b then m else m').
Proof. intros Hm Hm'. destruct b; auto. Qed.

Lemma safe_for {A} (l : list A) (f : A -> M (W * its) unit) : Forall (fun x => safe (f x)) l -> safe (for_ l f).
Proof. induction 1 as [|x l Hx _ IH]; cbn [for_]; [apply safe_ret|now apply safe_bind]. Qed.

Lemma wp_on_its f s (Q : unit -> fzi -> Prop) : Q tt (with_world ((world s).1, f (world s).2) s) -> wp (on_its f) s Q.
Proof. exact id. Qed.

Lemma safe_set_status v : safe (on_its (set_status v)).
Proof. intros s [[Hi Ht] _]. apply wp_on_its. eexists. split; [reflexivity|]. split; [exact Hi|exact Ht]. Qed.

(** Running some buffer. *)
Lemma wp_its_fuzz c s (Q : unit -> fzi -> Prop) :
  I2 (world s) -> ok c -> (forall wt, I2 wt -> Q tt (with_world wt s)) -> wp (its_fuzz c) s Q.
Proof.
  intros [Hi Ht] Hc HQ. unfold its_fuzz. apply wp_get, wp_bind. pose proof (Hrun _ _ Hi Hc) as Hr.
  unfold StagesSafe.wp at 1, exec_buf. cbn [common_fuzz_stuff its_target].
  destruct (common_fuzz_stuff (world s).1 c) as [[w [|]]|e]; cbn [mbind res_bind or_stop] in *; [split; [exact Hr|exact Ht]| |exact Hr].
  apply wp_get, wp_on_its. rewrite with_world_twice. apply HQ. split; [exact Hr|exact Ht].
Qed.

Lemma wp_combine bs s (Q : unit -> fzi -> Prop) :
  I2 (world s) -> bytes bs -> (idx + length bs <= length buf)%nat ->
  (forall wt, I2 wt -> Q tt (with_world wt s)) -> wp (combine idx bs) s Q.
Proof.
  intros [Hi (T1 & T2 & T3)] Hb Hl HQ. unfold combine, get_its. apply wp_bind, wp_get, wp_ret.
  rewrite bool_decide_eq_true_2 by lia. apply wp_on_its, HQ. split; [exact Hi|].
  split; [now apply bytes_write_at|]. split; [|exact T3]. cbn. now rewrite length_write_at by lia.
Qed.

Lemma try_bytes_safe new : bytes new -> Z.of_nat (length new) <= room -> safe (try_bytes idx new).
Proof.
  intros Hb Hl s [Hi Ho]. unfold try_bytes. apply wp_get. rewrite Ho.
  apply wp_bind. eapply wp_lift; [apply slice_ok; lia|]. rewrite !Nat2Z.id. set (old := take _ (drop idx buf)).
  assert (Hlo : length old = length new) by (unfold old; rewrite length_take, length_drop; lia).
  apply wp_bind, wp_memcpy; [rewrite Ho; lia|]. rewrite Ho. apply wp_get. cbn [out_buf with_buf].
  apply wp_bind, wp_its_fuzz; [exact Hi|now apply Hwindow|]. intros wt Hwt.
  assert (Hback : forall s2 wt2, I2 wt2 -> s2 = with_world wt2 (with_buf (write_at idx new buf) s) ->
    wp (memcpy_out idx old) s2 (fun _ s' => held s s')).
  { intros s2 wt2 Hwt2 ->. apply wp_memcpy.
    - cbn [out_buf with_world with_buf]. rewrite length_write_at; lia.
    - cbn [out_buf with_world with_buf]. exists wt2. split; [|exact Hwt2].
      rewrite write_at_twice by lia. unfold old. rewrite write_at_same by lia. rewrite <- Ho. now destruct s. }
  unfold get_status, get_its. apply wp_bind, wp_bind, wp_get, wp_ret, wp_ret. cbn [world with_world].
  apply wp_bind. destruct (status wt.2 =? 1).
  - apply wp_combine; [exact Hwt|exact Hb|lia|]. intros wt2 Hwt2. now apply (Hback _ wt2).
  - apply wp_ret. now apply (Hback _ wt).
Qed.

Lemma try_width_safe k pattern repl o_pattern attr : 0 <= taint_len ->
  safe (try_width orig_buf idx taint_len k pattern repl o_pattern attr).
Proof.
  intros Ht. unfold try_width. apply safe_its_len; [exact Ht|]. apply its_safe_if; [intros _; apply safe_ret|].
  intros Hk%Z.ltb_ge. apply safe_load; [lia|]. intros x. apply safe_orig; [lia|]. intros o.
  apply its_safe_if; intros _; [|apply safe_ret]. apply try_bytes_safe; [|rewrite length_le_store; lia].
  apply le_store_bytes. apply uwrap_range. lia.
Qed.

(** *** Numbers *)

Lemma try_number_safe num_text old_len : enable_transform = true -> is_ascii = true ->
  bytes num_text -> (idx + old_len <= length buf)%nat -> safe (try_number fresh idx num_text old_len).
Proof.
  intros E1 E2 Hn Hl s [[Hi (T1 & T2 & T3 & T4)] Ho]. pose proof Hgood as (Gb & _ & _).
  unfold try_number. apply wp_get. rewrite Ho. cbv zeta.
  apply wp_bind. eapply wp_lift; [apply slice_ok; lia|]. apply wp_bind. eapply wp_lift; [apply slice_ok; lia|].
  rewrite Z2Nat.inj_0, drop_0, !Nat2Z.id, (take_ge (drop _ _)) by (rewrite length_drop; lia).
  set (space := if bool_decide _ then _ else _).
  assert (Hsp : bytes space /\ (length buf + length num_text <= length space)%nat).
  { subst space. destruct (Hfresh (length buf + length num_text - length (scratch (world s).2))) as [F1 F2].
    case_bool_decide; [split; [now apply Forall_app|rewrite length_app, F1; lia]|split; [exact T3|lia]]. }
  set (written := take idx buf ++ num_text ++ drop (idx + old_len) buf).
  assert (Hwr : bytes written).
  { apply Forall_app. split; [now apply bytes_take|]. apply Forall_app. split; [exact Hn|now apply bytes_drop]. }
  set (new_buf := written ++ drop (length written) space).
  assert (Hnb : bytes new_buf /\ (length buf + length num_text <= length new_buf)%nat).
  { split; [apply Forall_app; split; [exact Hwr|apply bytes_drop, Hsp]|]. subst new_buf. rewrite length_app, length_drop. lia. }
  set (j := (idx + length num_text)%nat). assert (Hj : (j < length new_buf)%nat) by (unfold j; lia).
  destruct (rd_lt new_buf j Hj) as (c & Ec & _).
  apply wp_bind, (wp_lift _ _ _ _ _ _ Ec). set (final := if _ && _ then _ else new_buf).
  assert (Hf : bytes final /\ length final = length new_buf /\ take idx final = take idx buf).
  { assert (Htk : take idx new_buf = take idx buf).
    { subst new_buf written. rewrite <- !app_assoc. rewrite take_app_le by (rewrite length_take; lia).
      rewrite take_take. f_equal. lia. }
    subst final. destruct (_ && _); [|split; [apply Hnb|auto]]. split; [apply Forall_insert; [apply Hnb|unfold is_byte; lia]|].
    split; [apply length_insert|]. rewrite take_insert_ge by (unfold j; lia). exact Htk. }
  apply wp_bind, wp_on_its. apply wp_its_fuzz.
  - split; [exact Hi|]. split; [exact T1|]. split; [exact T2|]. split; [apply Hf|exact T4].
  - destruct Hf as (F1 & F2 & F3). apply Hnumbers; auto.
    + now apply bytes_take.
    + rewrite length_take. lia.
    + rewrite take_take. rewrite Nat.min_l by lia. exact F3.
  - intros wt Hwt. rewrite with_world_twice. exists wt. now split.
Qed.

Lemma try_numbers_safe pattern repl : enable_transform = true -> safe (try_numbers is_ascii fresh idx pattern repl).
Proof.
  intros E s Hs. unfold try_numbers. apply wp_get. cbv zeta. rewrite (proj2 Hs). revert s Hs.
  change (safe (if negb is_ascii then mret tt else
    match strntoll (drop idx buf) with
    | Some (num, e) => if (u64 num =? pattern) || (num =? 0) then try_number fresh idx (fmt_d (swrap 64 repl)) e else mret tt
    | None => match strntoull (drop idx buf) with
      | Some (unum, e) => if (unum =? pattern) || (unum =? 0) then try_number fresh idx (fmt_u repl) e else mret tt
      | None => mret tt end end)).
  apply its_safe_if; [intros _; apply safe_ret|intros Ea%negb_false_iff].
  assert (Hle : forall num e ret, strnto (drop idx buf) ret = Some (num, e) -> (idx + e <= length buf)%nat).
  { intros num e ret Hx%strnto_le. rewrite length_drop in Hx. lia. }
  destruct (strntoll (drop idx buf)) as [[num e]|] eqn:E1.
  - apply its_safe_if; intros _; [|apply safe_ret]. apply try_number_safe; [exact E|exact Ea|apply fmt_d_bytes|eapply Hle, E1].
  - destruct (strntoull (drop idx buf)) as [[num e]|] eqn:E2; [|apply safe_ret].
    apply its_safe_if; intros _; [|apply safe_ret]. apply try_number_safe; [exact E|exact Ea|apply fmt_u_bytes|eapply Hle, E2].
Qed.

(** *** The recursion *)

Context (Htaint : 0 <= taint_len).
Abbreviation search := (cmp_extend_encoding enable_transform enable_arith is_ascii fresh orig_buf idx taint_len lvl).
Definition safe_at (f : nat) (attr : Z) (rev : bool) : Prop :=
  forall hshape p r o c, safe (search f hshape p r o c attr rev).

Lemma safe_transform_width hshape (f : nat -> M (W * its) unit) :
  (forall k, (idx + k <= length buf)%nat -> safe (f k)) -> safe (transform_width idx hshape ≫= f).
Proof.
  intros Hf s Hs. pose proof Hgood as (_ & _ & Hm). unfold MAX_FILE in Hm. unfold transform_width.
  apply wp_bind, wp_get. rewrite (proj2 Hs). rewrite (uwrap_id 32) by lia. cbv zeta.
  set (b := if hshape <=? 1 then 1 else _). assert (Hb : 1 <= b <= 8) by (subst b; zcases; cbn [orb]; lia).
  rewrite uwrap_id by lia. set (m := Z.min b _). apply wp_ret. apply Hf; [|exact Hs].
  assert (Hmm : 0 <= m <= Z.of_nat (length buf) - Z.of_nat idx) by (subst m; lia). clearbody m. zcases; lia.
Qed.

Lemma width_safe f hshape p r o c attr rev k : (rev = true -> safe_at f attr false) ->
  safe (st ← get_status;
        if (hshape <? Z.of_nat k) || (st =? 1) then mret tt else
        _ ← try_width orig_buf idx taint_len k p r o attr;
        st ← get_status;
        if rev && negb (st =? 1)
        then search f hshape (swap_bytes k p) (swap_bytes k r) (swap_bytes k o) (swap_bytes k c) attr false else mret tt).
Proof.
  intros Hrev. apply safe_status. intros st. apply its_safe_if; intros _; [apply safe_ret|].
  apply safe_bind; [now apply try_width_safe|]. apply safe_status. intros st'. apply its_safe_if; [|intros _; apply safe_ret].
  intros [Hr _]%andb_true_iff. apply (Hrev Hr).
Qed.

Lemma transforms_safe f hshape p r o attr : (attr <= IS_EQUAL -> safe_at f IS_TRANSFORM true) -> attr <= IS_EQUAL ->
  safe (k ← transform_width idx hshape;
        b_val ← load k idx;
        o_b_val ← lift (orig_at orig_buf idx k);
        _ ← for_ (zip (seq 0 4) (transforms k p r o b_val o_b_val)) (fun '(i, x) =>
          st ← get_status;
          match x with
          | Some new_repl => if bool_decide (i = O) || negb (st =? 1)
                             then search f hshape p new_repl o r IS_TRANSFORM true else mret tt
          | None => mret tt
          end);
        on_its (set_status 0)).
Proof.
  intros Hf Ha. apply safe_transform_width. intros k Hk. apply safe_load; [exact Hk|]. intros b.
  apply safe_orig; [exact Hk|]. intros b'. apply safe_bind; [|apply safe_set_status].
  apply safe_for, Forall_forall. intros [i x] _. apply safe_status. intros st.
  destruct x as [v|]; [|apply safe_ret]. apply its_safe_if; intros _; [now apply Hf|apply safe_ret].
Qed.

Lemma nudge_attr hshape attr n repl v a : nudge hshape attr n repl = Some (v, a) -> a = IS_FP_MOD \/ a = IS_INT_MOD.
Proof. unfold nudge. repeat case_match; intros E; try discriminate; injection E as _ <-; auto. Qed.

Lemma search_body_safe f attr rev :
  (attr <= IS_EQUAL -> safe_at f IS_TRANSFORM true) ->
  (rev = true -> safe_at f attr false) ->
  (truthy (attr .& (IS_GREATER .| IS_LESSER)) = true -> safe_at f IS_FP_MOD true /\ safe_at f IS_INT_MOD true) ->
  safe_at (S f) attr rev.
Proof.
  intros HA HB HC hshape p r o c. cbn [cmp_extend_encoding]. apply safe_bind.
  { apply its_safe_if; [|intros _; apply safe_ret]. intros [Et _]%andb_true_iff.
    apply safe_bind; [now apply try_numbers_safe|]. apply its_safe_if; [|intros _; apply safe_ret].
    intros [_ Ha%Z.leb_le]%andb_true_iff. now apply (transforms_safe f hshape p r o attr). }
  apply its_safe_if; intros _; [apply safe_ret|]. apply safe_bind.
  { apply its_safe_if; intros _; [|apply safe_ret]. apply safe_bind.
    - apply safe_for, Forall_forall. intros k _. now apply (width_safe f hshape p r o c attr rev k).
    - apply safe_status. intros st. apply its_safe_if; intros _; [apply safe_ret|now apply try_width_safe]. }
  apply its_safe_if; intros _; [apply safe_ret|]. apply its_safe_if; [intros _; apply safe_ret|].
  intros [Hg _]%orb_false_iff. apply negb_false_iff in Hg. destruct (HC Hg) as [H16 H32].
  apply safe_its_len; [exact Htaint|]. destruct (nudge _ _ _ _) as [[v a]|] eqn:En; [|apply safe_ret].
  apply safe_bind; [destruct (nudge_attr _ _ _ _ _ _ En) as [->| ->]; [apply H16|apply H32]|].
  apply its_safe_if; intros _; [apply H16|apply safe_ret].
Qed.

(** Modified values are not modified again. *)
Lemma search_modified_safe f m rev : In m [IS_FP_MOD; IS_INT_MOD; IS_TRANSFORM] -> safe_at (S (S f)) m rev.
Proof.
  intros Hm.
  assert (Hle : m <= IS_EQUAL -> False) by (destruct Hm as [<-|[<-|[<-|[]]]]; intros Hle; now apply Hle).
  assert (Hgt : truthy (m .& (IS_GREATER .| IS_LESSER)) = true -> False)
    by (destruct Hm as [<-|[<-|[<-|[]]]]; discriminate).
  assert (Hfwd : forall f, safe_at (S f) m false)
    by (intros g; apply search_body_safe; [now intros ?%Hle|discriminate|now intros ?%Hgt]).
  apply search_body_safe; [now intros ?%Hle|auto|now intros ?%Hgt].
Qed.

Lemma search_safe f attr rev : safe_at (S (S (S (S f)))) attr rev.
Proof.
  assert (Hfwd : safe_at (S (S (S f))) attr false).
  { apply search_body_safe; [|discriminate|]; intros _; [|split]; apply search_modified_safe; cbn; auto. }
  apply search_body_safe; [|auto|]; intros _; [|split]; apply search_modified_safe; cbn; auto.
Qed.
End Search.

(** ** Level 1 as a flat list *)

Section Flat.
Context {W : Type} `{Target W}.
Context (orig_buf buf : list Z) (idx : nat) (taint_len hshape attr : Z).
Abbreviation room := (Z.min (Z.of_nat (length buf) - Z.of_nat idx) taint_len).
Abbreviation fzi := (fz (W * its)).
Abbreviation R := (M (W * its)).

(** The input has [pattern] where the original has [o_pattern]. *)
Definition matches (k : nat) (pattern o_pattern : Z) : bool :=
  (le_load (take k (drop idx buf)) =? uwrap (8 * Z.of_nat k) pattern) &&
  (le_load (take k (drop idx orig_buf)) =? uwrap (8 * Z.of_nat k) o_pattern).

Definition width_cands (k : nat) (pattern repl o_pattern : Z) : list (list Z) :=
  if (Z.of_nat k <=? room) && (matches k pattern o_pattern || (IS_FP_MOD <=? attr))
  then [le_store k (uwrap (8 * Z.of_nat k) repl)] else [].

(** What is tried for the widths up to that of the comparison, from the widest
    to a byte; [swapped] adds what is tried after a width for its byte-swapped
    values. *)
Definition all_widths (swapped : nat -> list (list Z)) (pattern repl o_pattern : Z) : list (list Z) :=
  if pattern =? o_pattern then [] else
  concat (map (fun k => if hshape <? Z.of_nat k then [] else width_cands k pattern repl o_pattern ++ swapped k) [8; 4; 2]%nat)
  ++ width_cands 1 pattern repl o_pattern.

Definition candidates (reversed : bool) (pattern repl o_pattern : Z) : list (list Z) :=
  all_widths (fun k => if reversed
    then all_widths (fun _ => []) (swap_bytes k pattern) (swap_bytes k repl) (swap_bytes k o_pattern) else [])
    pattern repl o_pattern.

(** Try byte strings until one is a find. *)
Definition try_until_find (l : list (list Z)) : R unit :=
  for_ l (fun new => st ← get_status; if st =? 1 then mret tt else try_bytes idx new).

(** The same effect on the input [buf], which stays. *)
Definition same (m m' : R unit) : Prop :=
  forall s : fzi, out_buf s = buf -> m s = m' s /\ forall s', m' s = Ok (s', Some tt) -> out_buf s' = buf.

Lemma same_bind (m1 m1' m2 m2' : R unit) : same m1 m1' -> same m2 m2' -> same (m1 ≫= fun _ => m2) (m1' ≫= fun _ => m2').
Proof.
  intros H1 H2 s Hs. destruct (H1 s Hs) as [E1 K1]. rewrite !run_bind, E1.
  destruct (m1' s) as [[s1 [[]|]]|e]; cbn [mbind res_bind]; [|now split|now split].
  exact (H2 s1 (K1 s1 eq_refl)).
Qed.

Lemma same_trans (m1 m2 m3 : R unit) : same m1 m2 -> same m2 m3 -> same m1 m3.
Proof. intros H1 H2 s Hs. destruct (H1 s Hs) as [E1 _], (H2 s Hs) as [E2 K2]. split; [congruence|exact K2]. Qed.

Lemma same_ret : same (mret tt) (mret tt).
Proof. intros s Hs. split; [done|]. now intros s' [= <-]. Qed.

Lemma bind_some {A B} (m : M (W * its) A) (k : A -> M (W * its) B) s s' y :
  (m ≫= k) s = Ok (s', Some y) -> exists s1 x, m s = Ok (s1, Some x) /\ k x s1 = Ok (s', Some y).
Proof.
  rewrite run_bind. destruct (m s) as [[s1 [x|]]|]; cbn [mbind res_bind]; [eauto|discriminate..].
Qed.

Lemma bind_ext {A B} (m : M (W * its) A) (k k' : A -> M (W * its) B) s :
  (forall x s1, k x s1 = k' x s1) -> (m ≫= k) s = (m ≫= k') s.
Proof. intros E. rewrite !run_bind. destruct (m s) as [[s1 [x|]]|]; cbn [mbind res_bind]; auto. Qed.

Lemma its_bind_assoc {A B C} (m : M (W * its) A) (k : A -> M (W * its) B) (h : B -> M (W * its) C) s :
  ((m ≫= k) ≫= h) s = (m ≫= fun x => k x ≫= h) s.
Proof. rewrite !run_bind. destruct (m s) as [[s1 [x|]]|]; cbn [mbind res_bind]; [|done..]. now rewrite run_bind. Qed.

Lemma its_fuzz_buf c s s' : its_fuzz c s = Ok (s', Some tt) -> out_buf s' = out_buf s.
Proof.
  unfold its_fuzz. rewrite bind_get. intros E. apply bind_some in E as (s1 & [] & E1 & E). unfold exec_buf in E1.
  apply bind_ok in E1 as ([w b] & _ & E1). injection E1 as <- _. rewrite bind_get in E. injection E as <-. reflexivity.
Qed.

Lemma try_bytes_stays new : same (try_bytes idx new) (try_bytes idx new).
Proof.
  intros s Hs. split; [done|]. intros s' E. unfold try_bytes in E. rewrite bind_get, Hs in E.
  apply bind_some in E as (s1 & old & E1 & E). unfold lift in E1. apply bind_ok in E1 as (old' & E1 & [= <- <-]).
  unfold slice in E1. destruct (_ && _) eqn:Eb; [|discriminate]. rewrite !Nat2Z.id in E1. injection E1 as E1.
  assert (Hlo : length old' = length new) by (rewrite <- E1, length_take, length_drop; lia).
  apply bind_some in E as (s2 & [] & E2 & E). unfold memcpy_out in E2. rewrite bind_get, Hs in E2.
  rewrite bool_decide_eq_true_2 in E2 by lia. injection E2 as <-. rewrite bind_get in E. cbn [out_buf with_buf] in E.
  apply bind_some in E as (s3 & [] & E3 & E). apply its_fuzz_buf in E3. cbn [out_buf with_buf] in E3.
  apply bind_some in E as (s4 & st & E4 & E). injection E4 as <- <-. apply bind_some in E as (s5 & [] & E5 & E).
  assert (Hb5 : out_buf s5 = write_at idx new buf).
  { destruct (_ =? 1); [|injection E5 as <-; exact E3]. unfold combine in E5. apply bind_some in E5 as (s6 & t & E6 & E5).
    injection E6 as <- _. case_bool_decide; [|discriminate]. injection E5 as <-. exact E3. }
  unfold memcpy_out in E. rewrite bind_get, Hb5, bool_decide_eq_true_2 in E by (rewrite length_write_at; lia).
  injection E as <-. cbn [out_buf with_buf]. rewrite write_at_twice by lia. rewrite <- E1. apply write_at_same. lia.
Qed.

Lemma try_until_find_stays l : same (try_until_find l) (try_until_find l).
Proof.
  induction l as [|new l IH]; [exact same_ret|]. apply same_bind; [|exact IH]. intros s Hs. split; [done|].
  intros s' E. apply bind_some in E as (s1 & st & E1 & E). injection E1 as <- _.
  destruct (_ =? 1); [now injection E as <-|]. exact (proj2 (try_bytes_stays new s Hs) s' E).
Qed.

Lemma try_until_find_app l1 l2 s :
  try_until_find (l1 ++ l2) s = (try_until_find l1 ≫= fun _ => try_until_find l2) s.
Proof.
  revert s; induction l1 as [|new l1 IH]; intros s; [done|]. cbn [app try_until_find for_].
  fold (try_until_find l1) (try_until_find (l1 ++ l2)). etransitivity; [|symmetry; apply its_bind_assoc]. apply bind_ext. auto.
Qed.

Lemma bind_status {A} (k : Z -> M (W * its) A) s : (get_status ≫= k) s = k (status (world s).2) s.
Proof. done. Qed.

Lemma try_until_find_done l s : status (world s).2 = 1 -> try_until_find l s = Ok (s, Some tt).
Proof.
  intros Hd. induction l as [|new l IH]; [done|]. cbn [try_until_find for_]. rewrite run_bind, bind_status, Hd. exact IH.
Qed.

Lemma bind_unit (m : R unit) s : (m ≫= fun _ => mret tt) s = m s.
Proof. rewrite run_bind. destruct (m s) as [[s1 [[]|]]|]; reflexivity. Qed.

Lemma try_one new s : status (world s).2 <> 1 -> try_until_find [new] s = try_bytes idx new s.
Proof.
  intros Hn. cbn [try_until_find for_]. rewrite bind_unit, bind_status.
  now rewrite (proj2 (Z.eqb_neq _ _) Hn).
Qed.

Context (enable_transform enable_arith is_ascii : bool) (fresh : nat -> list Z) (lvl : Z).
Context (Hgood : good buf) (Horig : length orig_buf = length buf) (Hidx : (idx < length buf)%nat).
Context (Hlvl1 : truthy (lvl .& LVL1) = true) (Hlvl : 0 <= lvl < LVL3).
Abbreviation search := (cmp_extend_encoding enable_transform enable_arith is_ascii fresh orig_buf idx taint_len lvl).

Lemma try_width_flat k p r o (s : fzi) : out_buf s = buf -> status (world s).2 <> 1 ->
  try_width orig_buf idx taint_len k p r o attr s = try_until_find (width_cands k p r o) s.
Proof.
  intros Hs Hn. unfold try_width, its_len, width_cands. pose proof Hgood as (_ & _ & Hm). unfold MAX_FILE in Hm.
  rewrite its_bind_assoc, bind_get, Hs, (uwrap_id 32) by lia. rewrite bind_ret. cbv beta. rewrite (Z.leb_antisym room (Z.of_nat k)).
  destruct (Z.ltb_spec room (Z.of_nat k)); cbn [negb andb]; [done|].
  unfold load. rewrite its_bind_assoc, bind_get, Hs, bool_decide_eq_true_2, bind_ret by lia. unfold orig_at.
  rewrite slice_ok by (rewrite ?Horig; lia). cbn [mbind res_bind]. rewrite !Nat2Z.id. unfold lift. rewrite run_bind. cbn [mbind res_bind].
  fold (matches k p o). destruct (_ || _); [|done]. now rewrite try_one.
Qed.

Lemma stays_trans (m : R unit) l : (forall s : fzi, out_buf s = buf -> m s = try_until_find l s) -> same m (try_until_find l).
Proof. intros E s Hs. split; [now apply E|]. exact (proj2 (try_until_find_stays l s Hs)). Qed.

(** One width of the search, with what its reverse runs. *)
Lemma width_flat (again : R unit) k p r o rev L :
  (rev = true -> same again (try_until_find L)) ->
  same (st ← get_status;
        if (hshape <? Z.of_nat k) || (st =? 1) then mret tt else
        _ ← try_width orig_buf idx taint_len k p r o attr;
        st ← get_status; if rev && negb (st =? 1) then again else mret tt)
       (try_until_find (if hshape <? Z.of_nat k then [] else width_cands k p r o ++ if rev then L else [])).
Proof.
  intros Ha. apply stays_trans. intros s Hs. rewrite bind_status. destruct (hshape <? Z.of_nat k); cbn [orb]; [done|].
  destruct (Z.eqb_spec (status (world s).2) 1) as [E|E]; [now rewrite try_until_find_done|].
  rewrite try_until_find_app, run_bind, (try_width_flat k p r o s Hs E), run_bind.
  destruct (try_until_find (width_cands k p r o) s) as [[s1 [[]|]]|] eqn:Es; cbn [mbind res_bind]; [|done..].
  pose proof (proj2 (try_until_find_stays _ s Hs) s1 Es) as Hs1. rewrite bind_status.
  destruct rev; cbn [andb]; [|done]. destruct (Z.eqb_spec (status (world s1).2) 1) as [E1|E1]; cbn [negb].
  - now rewrite try_until_find_done.
  - exact (proj1 (Ha eq_refl s1 Hs1)).
Qed.

Lemma last_width_flat p r o :
  same (st ← get_status; if st =? 1 then mret tt else try_width orig_buf idx taint_len 1 p r o attr)
       (try_until_find (width_cands 1 p r o)).
Proof.
  apply stays_trans. intros s Hs. rewrite bind_status. destruct (Z.eqb_spec (status (world s).2) 1) as [E|E].
  - now rewrite try_until_find_done.
  - now apply try_width_flat.
Qed.

Lemma same_app (m m' : R unit) l l' : same m (try_until_find l) -> same m' (try_until_find l') ->
  same (m ≫= fun _ => m') (try_until_find (l ++ l')).
Proof.
  intros Hm Hm'. apply stays_trans. intros s Hs. rewrite try_until_find_app. exact (proj1 (same_bind _ _ _ _ Hm Hm' s Hs)).
Qed.

Lemma same_nil : same (mret tt) (try_until_find []).
Proof. exact same_ret. Qed.

Lemma search_flat_step f p r o c rev (L : nat -> list (list Z)) :
  (forall k, rev = true -> same (search f hshape (swap_bytes k p) (swap_bytes k r) (swap_bytes k o) (swap_bytes k c) attr false)
    (try_until_find (L k))) ->
  same (search (S f) hshape p r o c attr rev) (try_until_find (all_widths (fun k => if rev then L k else []) p r o)).
Proof.
  intros HL. assert (E3 : lvl .& LVL3 = 0).
  { assert (Hc : In lvl [0; 1; 2; 3]) by (unfold LVL3 in Hlvl; cbn; lia).
    cbn in Hc. intuition (subst; reflexivity). }
  cbn [cmp_extend_encoding]. rewrite E3, Hlvl1, (proj2 (Z.ltb_lt _ _) (proj2 Hlvl)).
  change (truthy 0) with false. rewrite andb_false_r, orb_true_r. cbn [orb]. unfold all_widths.
  rewrite <- (app_nil_l (if p =? o then [] else _)). apply same_app; [apply same_nil|]. destruct (p =? o); [apply same_nil|].
  rewrite <- (app_nil_r (concat _ ++ _)). apply same_app; [|apply same_nil]. apply same_app; [|apply last_width_flat].
  cbn [for_ map concat]. do 3 (apply same_app; [apply width_flat; intros Hr; now apply HL|]). apply same_nil.
Qed.

Lemma search_flat_fwd f p r o c : same (search (S f) hshape p r o c attr false) (try_until_find (candidates false p r o)).
Proof. exact (search_flat_step f p r o c false (fun _ => []) ltac:(discriminate)). Qed.

Lemma search_flat f p r o c : same (search (S (S f)) hshape p r o c attr true) (try_until_find (candidates true p r o)).
Proof. apply (search_flat_step (S f) p r o c true). intros k _. apply search_flat_fwd. Qed.
End Flat.

(** ** The theorems *)

(** The inputs the search for [idx] may run: [buf] with other bytes from [idx]
    on, in the rest of the taint only unless text is parsed as a number. *)
Definition may_run (numbers : bool) (buf : list Z) (idx : nat) (taint_len : Z) (c : list Z) : Prop :=
  bytes c /\ length c = length buf /\ take idx c = take idx buf /\
  (numbers = false -> drop (idx + Z.to_nat taint_len) c = drop (idx + Z.to_nat taint_len) buf).

Lemma window_may_run numbers buf idx taint_len new : good buf -> (idx < length buf)%nat -> bytes new ->
  Z.of_nat (length new) <= Z.min (Z.of_nat (length buf) - Z.of_nat idx) taint_len ->
  may_run numbers buf idx taint_len (write_at idx new buf).
Proof.
  intros (Gb & _) Hi Hb Hl. split; [now apply bytes_write_at|]. split; [rewrite length_write_at; lia|].
  unfold write_at. split; [rewrite take_app_le, take_take by (rewrite length_take; lia); f_equal; lia|]. intros _.
  rewrite app_assoc, drop_app_ge by (rewrite length_app, length_take; lia).
  rewrite length_app, length_take, drop_drop. f_equal. lia.
Qed.

(** C19: The search for the value of an integer comparison, at any level and
    with any attribute.  Four nested calls are enough.  It runs only inputs
    that agree with the coloured one before [idx] and after the taint -- the
    latter not with transforms on an entry that is text, where it rewrites
    numbers to the end of the input; it accesses nothing outside the
    buffers; and whether or not it finds something, the coloured input is back
    in its buffer when it returns. *)
Theorem cmp_extend_encoding_correct {W} `{Target W} Lost I enable_transform enable_arith is_ascii fresh
    orig_buf keys idx taint_len lvl fuel hshape pattern repl o_pattern changed_val attr rev (s : fz (W * its)) :
  let buf := out_buf s in
  (forall n, length (fresh n) = n /\ bytes (fresh n)) ->
  (forall w c, I w -> may_run (enable_transform && is_ascii) buf idx taint_len c ->
    or_fatal Lost (common_fuzz_stuff w c) (fun '(w', _) => I w')) ->
  good buf -> length orig_buf = length buf -> (idx < length buf)%nat -> 0 <= taint_len ->
  I2 I buf keys (world s) ->
  match cmp_extend_encoding enable_transform enable_arith is_ascii fresh orig_buf idx taint_len lvl (4 + fuel)
          hshape pattern repl o_pattern changed_val attr rev s with
  | Ok (s', Some _) => held I buf keys s s'
  | Ok (s', None) => I2 I buf keys (world s')
  | Err e => e = Fatal /\ Lost
  end.
Proof.
  intros buf Hf Hrun Hg Ho Hi Ht Hs.
  apply (search_safe Lost I (may_run (enable_transform && is_ascii) buf idx taint_len) enable_transform enable_arith is_ascii
    fresh orig_buf buf keys idx taint_len lvl Hf Hg Ho Hi Hrun); [| |exact Ht|now split].
  - intros new. now apply window_may_run.
  - intros -> -> c Hb Hl Htk. split; [exact Hb|]. split; [exact Hl|]. split; [exact Htk|]. discriminate.
Qed.

(** C18: The search at level 1 is a flat list of trials.  The recursive
    search, with its byte swaps and widths, behaves exactly like trying one
    byte string after the other at [idx] until there is a find: for each
    width up to the comparison's, from the widest to a single byte, the
    value, and the candidates of the byte-swapped values, where the coloured
    input has the one operand and the original input the one it had there. *)
Theorem cmp_extend_encoding_flat {W} `{Target W} enable_transform enable_arith is_ascii fresh
    orig_buf idx taint_len lvl fuel hshape pattern repl o_pattern changed_val attr (s : fz (W * its)) :
  let buf := out_buf s in
  good buf -> length orig_buf = length buf -> (idx < length buf)%nat ->
  truthy (lvl .& LVL1) = true -> 0 <= lvl < LVL3 ->
  cmp_extend_encoding enable_transform enable_arith is_ascii fresh orig_buf idx taint_len lvl (2 + fuel)
    hshape pattern repl o_pattern changed_val attr true s =
  try_until_find idx (candidates orig_buf buf idx taint_len hshape attr true pattern repl o_pattern) s.
Proof.
  intros buf Hg Ho Hi H1 H3.
  exact (proj1 (search_flat orig_buf buf idx taint_len hshape attr enable_transform enable_arith is_ascii fresh lvl
    Hg Ho Hi H1 H3 fuel pattern repl o_pattern changed_val s eq_refl)).
Qed.

(** *** What modelling showed *)

(** An inequality (attribute 0) with its operands exchanged is taken for a
    floating-point comparison. *)
Lemma inequality_becomes_float n repl : 8 <= n ->
  nudge 8 (turn (SWAPA 0)) n repl = Some (double_add repl (-1), IS_FP_MOD).
Proof. reflexivity. Qed.

(** The reverse search of the odd widths passes bits where bytes are asked
    for: the shift is never within the width of the type. *)
Lemma SWAPN_of_bits_faults x l : 2 < l <= 32 -> SWAPN x (l .<< 3) = Err Fault.
Proof.
  intros Hl. unfold SWAPN. rewrite !Z.shiftl_mul_pow2 by lia. rewrite (uwrap_id 32 (l * 2 ^ 3 * 2 ^ 3)) by lia.
  rewrite (proj2 (Z.ltb_ge _ _)); [done|]. unfold uwrap. rewrite Z.mod_eq by lia.
  assert (Hq : (128 - l * 2 ^ 3 * 2 ^ 3) / 2 ^ 32 = -1) by dlia. rewrite Hq. lia.
Qed.

(** ** A target that compares four bytes *)

#[local] Instance magic : Target Z := {|
  common_fuzz_stuff w c := Ok (w + b2z (bool_decide (take 4 c = [1; 2; 3; 4])), false);
  trace_cksum w := 0;
  hit_cnt w := w;
  maybe_add_auto w t := Ok w;
  draw w n := Ok (0, w)
|}.

Definition its0 : its := mkIts 0 [71; 73; 70; 56; 57; 97] [] [].
Definition magic0 : fz (Z * its) := mkFz (0, its0) [65; 66; 67; 68; 57; 97] 0 0 0 [] [] 0 0.

Lemma magic0_good : good (out_buf magic0).
Proof. split; [now apply bytesb_spec|]. cbn [out_buf magic0 length]. unfold MAX_FILE. lia. Qed.

#[local] Abbreviation magic_search lvl :=
  (cmp_extend_encoding false false false (fun n => replicate n 0) [71; 73; 70; 56; 57; 97] 0 6 lvl 4 4
     0x44434241 0x04030201 0x38464947 0x04030201 IS_EQUAL true magic0).

(** Found, noted in [cbuf], and put back. *)
Example magic_found :
  match magic_search LVL1 with
  | Ok (s', Some tt) => status (world s').2 = 1 /\ cbuf (world s').2 = [1; 2; 3; 4; 57; 97] /\ out_buf s' = out_buf magic0
  | _ => False
  end.
Proof. vm_compute. auto. Qed.

Lemma cmp_extend_encoding_correct_witness :
  match magic_search LVL1 with
  | Ok (s', Some _) => held (fun _ => True) (out_buf magic0) 0 magic0 s'
  | Ok (s', None) => I2 (fun _ => True) (out_buf magic0) 0 (world s')
  | Err e => e = Fatal /\ False
  end.
Proof.
  assert (Hf : forall n, length (replicate n 0) = n /\ bytes (replicate n 0)).
  { intros n. split; [apply length_replicate|]. apply Forall_replicate. unfold is_byte. lia. }
  assert (Hi : (0 < length (out_buf magic0))%nat) by (cbn; lia).
  assert (Hrun : forall (w : Z) c, True -> may_run (false && false) (out_buf magic0) 0 6 c ->
    or_fatal False (common_fuzz_stuff w c) (fun '(_, _) => True)) by done.
  assert (Hs : I2 (fun _ => True) (out_buf magic0) 0 (world magic0)).
  { split; [done|]. split; [now apply bytesb_spec|]. split; [done|]. split; [constructor|done]. }
  apply (cmp_extend_encoding_correct False (fun _ => True) false false false (fun n => replicate n 0) [71; 73; 70; 56; 57; 97]
    0 0 6 LVL1 0 4 0x44434241 0x04030201 0x38464947 0x04030201 IS_EQUAL true magic0 Hf
    Hrun magic0_good eq_refl Hi ltac:(lia) Hs).
Defined.

Lemma cmp_extend_encoding_flat_witness :
  magic_search LVL1 = try_until_find 0 (candidates [71; 73; 70; 56; 57; 97] (out_buf magic0) 0 6 4 IS_EQUAL true
    0x44434241 0x04030201 0x38464947) magic0.
Proof.
  assert (Hi : (0 < length (out_buf magic0))%nat) by (cbn; lia).
  assert (H3 : 0 <= LVL1 < LVL3) by (unfold LVL1, LVL3; lia).
  exact (cmp_extend_encoding_flat false false false (fun n => replicate n 0) [71; 73; 70; 56; 57; 97] 0 6 LVL1 2 4
    0x44434241 0x04030201 0x38464947 0x04030201 IS_EQUAL magic0 magic0_good eq_refl Hi eq_refl H3).
Defined.
