(* ===== verification/RedqueenMap.v ===== *)
(** Input-to-state fuzzing over the whole CmpLog map, in
    [src/afl-fuzz-redqueen.c]: [try_to_add_to_dict], [cmp_fuzz],
    [rtn_extend_encoding], [rtn_fuzz] and [input_to_state_stage].

    The log of a comparison is the bytes the target wrote, of which the
    integer comparisons use 32 for each hit and the routines 64. *)

From S2P Require Import Prelude Words Arith Float Bitmap State Text Rand Describe Dedup Extras Stages Havoc Colorize Redqueen.
#[local] Open Scope list_scope.
#[local] Open Scope Z_scope.

Definition CMP_MAP_W : Z := 65536.
Definition CMP_MAP_H : Z := 32.
Definition CMP_MAP_RTN_H : Z := CMP_MAP_H / 4.
Definition SHAPE_BYTES (x : Z) : Z := x + 1.
Definition CMP_TYPE_INS : Z := 1.
Definition CMPLOG_FAIL_MAX : Z := 96.
Definition CMPLOG_LVL_MAX : Z := 3.
Definition STAGE_ITS : nat := 21.

Record cmp_header := mkHeader { hits : Z; shape : Z; type : Z; attribute : Z }.
Record cmp_map := mkCmpMap { headers : list cmp_header; log : list (list Z) }.
Record cmp_operands := mkOps { v0 : Z; v1 : Z; v0_128 : Z; v1_128 : Z }.

(** The [i]-th [struct cmp_operands] of a log. *)
Definition operands (lg : list Z) (i : nat) : res cmp_operands :=
  let word k := bs ← slice (Z.of_nat (32 * i + 8 * k)) 8 lg; Ok (le_load bs) in
  a ← word O; b ← word 1%nat; c ← word 2%nat; d ← word 3%nat; Ok (mkOps a b c d).

Section Map.
Context {W : Type} `{Target W}.
Abbreviation R := (M (W * its)).
Context (enable_transform enable_arith is_ascii : bool) (fresh : nat -> list Z).
Context (orig_buf : list Z) (lvl : Z).

(** ** Learning tokens *)

(** More than one zero, or more than one 0xff, with no other byte between. *)
Fixpoint repetitive (bs : list Z) (cons_0 cons_ff : Z) : bool :=
  match bs with
  | [] => false
  | b :: bs =>
      let '(c0, cf) := if b =? 0 then (cons_0 + 1, cons_ff) else if b =? 0xff then (cons_0, cons_ff + 1) else (0, 0) in
      if (1 <? c0) || (1 <? cf) then true else repetitive bs c0 cf
  end.

Definition add_auto (bs : list Z) : R unit := s ← get; w ← lift (maybe_add_auto (world s) bs); put (with_world w s).

Definition try_to_add_to_dict (v shape : Z) : R unit :=
  bs ← lift (slice 0 shape (le_store 8 v));
  if repetitive bs 0 0 then mret tt else
  _ ← add_auto bs;
  if (shape =? 2) || (shape =? 4) || (shape =? 8)
  then add_auto (le_store (Z.to_nat shape) (swap_bytes (Z.to_nat shape) v)) else mret tt.

Definition try_to_add_to_dictN (v size : Z) : R unit :=
  bs ← lift (slice 0 size (le_store 16 v));
  if repetitive bs 0 0 then mret tt else
  _ ← add_auto bs;
  rev ← lift (SWAPN v size);
  add_auto (le_store (Z.to_nat size) rev).

(** [check_if_text_buf(bs, len) == len] *)
Definition all_text (bs : list Z) : res bool := n ← check_if_text_buf bs; Ok (n =? Z.of_nat (length bs)).

(** ** The tainted positions *)

(** [try] at each tainted position, with what is left of the taint, until a
    find; [t] is the taint at or after the position. *)
Fixpoint over_taint (try : nat -> Z -> R unit) (idxs : list nat) (t : list tainted) : R bool :=
  match idxs with
  | [] => mret false
  | idx :: idxs =>
      match t with
      | [] => over_taint try idxs t
      | x :: later =>
          if Z.of_nat idx <? t_pos x then over_taint try idxs t else
          let taint_len := u32 (t_pos x + t_len x - Z.of_nat idx) in
          let t := if Z.of_nat idx =? u32 (t_pos x + t_len x - 1) then later else t in
          _ ← try idx taint_len;
          st ← get_status;
          if st =? 1 then mret true else over_taint try idxs t
      end
  end.

(** From the first taint, the last of the list, on. *)
Definition search_taint (taint : list tainted) (try : nat -> Z -> R unit) : R bool :=
  match taint with
  | [] => lift (Err Fault)
  | _ => s ← get; over_taint try (seq 0 (length (out_buf s))) (rev taint)
  end.

Definition unless_found (m : R unit) : R unit := st ← get_status; if st =? 1 then mret tt else m.

(** ** Integer comparisons *)

(** Is one operand fixed and does the other count up or down? *)
Record counting := mkCounting {
  s_v0 : Z; s_v1 : Z; v0_fixed : bool; v1_fixed : bool; v0_inc : bool; v1_inc : bool; v0_dec : bool; v1_dec : bool
}.
Definition watch (first : bool) (o : cmp_operands) (d : counting) : counting :=
  if first then mkCounting (v0 o) (v1 o) (v0_fixed d) (v1_fixed d) (v0_inc d) (v1_inc d) (v0_dec d) (v1_dec d)
  else mkCounting (v0 o) (v1 o)
    (v0_fixed d && (s_v0 d =? v0 o)) (v1_fixed d && (s_v1 d =? v1 o))
    (v0_inc d && (u64 (s_v0 d + 1) =? v0 o)) (v1_inc d && (u64 (s_v1 d + 1) =? v1 o))
    (v0_dec d && (u64 (s_v0 d - 1) =? v0 o)) (v1_dec d && (u64 (s_v1 d - 1) =? v1 o)).
Definition is_loop (d : counting) : bool :=
  (v0_fixed d && v1_inc d) || (v1_fixed d && v0_inc d) || (v0_fixed d && v1_dec d) || (v1_fixed d && v0_dec d).

Definition is_n (hshape : Z) : bool := negb ((hshape =? 1) || (hshape =? 2) || (hshape =? 4) || (hshape =? 8)).
Definition wide (lo hi : Z) : Z := uwrap 128 (lo + (hi .<< 64)).

(** What is tried at one position. *)
Definition cmp_try (h : cmp_header) (o orig : cmp_operands) (idx : nat) (taint_len : Z) : R unit :=
  let hshape := SHAPE_BYTES (shape h) in
  let search := cmp_extend_encoding enable_transform enable_arith is_ascii fresh orig_buf idx taint_len lvl 4 hshape in
  let searchN := cmp_extend_encodingN orig_buf idx taint_len 2 hshape in
  let s0 := wide (v0 o) (v0_128 o) in let s1 := wide (v1 o) (v1_128 o) in
  let o0 := wide (v0 orig) (v0_128 orig) in let o1 := wide (v1 orig) (v1_128 orig) in
  _ ← on_its (set_status 0);
  _ ← (if is_n hshape then
         _ ← (if negb (s0 =? o0) && negb (o0 =? o1) then searchN s0 s1 o0 o1 true else mret tt);
         unless_found (if negb (s1 =? o1) && negb (o1 =? o0) then searchN s1 s0 o1 o0 true else mret tt)
       else mret tt);
  unless_found (
    _ ← (if (negb (v0 o =? v0 orig) || (LVL3 <=? lvl)) && negb (v0 orig =? v1 orig)
         then search (v0 o) (v1 o) (v0 orig) (v1 orig) (attribute h) true else mret tt);
    unless_found (
      _ ← on_its (set_status 0);
      if (negb (v1 o =? v1 orig) || (LVL3 <=? lvl)) && negb (v0 orig =? v1 orig)
      then search (v1 o) (v0 o) (v1 orig) (v0 orig) (SWAPA (attribute h)) true else mret tt)).

(** [found_one]; the operands may become tokens. *)
Definition cmp_learn (h : cmp_header) (o orig : cmp_operands) (found_one : bool) : R unit :=
  let n := SHAPE_BYTES (shape h) in
  if (1 <? n) && (negb found_one || is_ascii) then
    if is_n n then
      for_ [wide (v0 o) (v0_128 o); wide (v1 o) (v1_128 o)] (fun v =>
        ok ← (if negb found_one then mret true else bs ← lift (slice 0 n (le_store 16 v)); lift (all_text bs));
        if ok : bool then try_to_add_to_dictN v n else mret tt)
    else
      for_ [(v0 o, v0 orig); (v1 o, v1 orig)] (fun '(v, ov) =>
        let bs := le_store (Z.to_nat n) v in
        if negb (bool_decide (bs = le_store (Z.to_nat n) ov)) then mret tt else
        ok ← (if negb found_one then mret true else lift (all_text bs));
        if ok : bool then try_to_add_to_dict v n else mret tt)
  else mret tt.

(** The same operands as in an earlier hit. *)
Definition cmp_seen (lg : list Z) (i : nat) (o : cmp_operands) : res bool :=
  rfold (fun seen j => x ← operands lg j; Ok (seen || ((v0 x =? v0 o) && (v1 x =? v1 o)))) false (seq 0 i).

(** [faileds] and [total] count up to 0xff. *)
Definition count_pass (key : nat) (all_failed failed : bool) : R unit :=
  t ← get_its;
  '(total, faileds) ← lift (rd (pass_stats t) key);
  let '(total, faileds) := if all_failed then (0xff, 0xff) else (total, faileds) in
  let faileds := if failed && (faileds <? 0xff) then faileds + 1 else faileds in
  let total := if total <? 0xff then total + 1 else total in
  on_its (set_pass_stats (<[key := (total, faileds)]> (pass_stats t))).

Definition cmp_fuzz (key : nat) (h : cmp_header) (lg orig_lg : list Z) (taint : list tainted) : R unit :=
  let loggeds := Z.min (hits h) CMP_MAP_H in
  '(found_one, d) ← for_with (seq 0 (Z.to_nat loggeds)) (false, mkCounting 0 0 true true true true true true)
    (fun '(found_one, d) i =>
      o ← lift (operands lg i);
      let d := watch (bool_decide (i = O)) o d in
      orig ← lift (operands orig_lg i);
      seen ← lift (cmp_seen lg i o);
      found_one ← (if seen : bool then mret found_one else
        found ← search_taint taint (cmp_try h o orig);
        let found_one := found_one || found in
        _ ← cmp_learn h o orig found_one;
        mret found_one);
      _ ← stage_step;
      mret (found_one, d));
  count_pass key ((3 <? loggeds) && is_loop d) (negb found_one).

(** ** Routines with two buffers

    [ptr] and the like are offsets in the log. *)

Definition byte (lg : list Z) (p i : nat) : res Z := rd lg (p + i).

Definition rtn_lens (hshape l0 l1 ol0 ol1 : Z) : Z * Z :=
  let '(l0, l1, ol0, ol1) := if (0x80 <=? l0) || (0x80 <=? ol0)
    then (u8 (l0 - 0x80), u8 (l1 - 0x80), u8 (ol0 - 0x80), u8 (ol1 - 0x80)) else (l0, l1, ol0, ol1) in
  if (l0 =? 0) || (l1 =? 0) || (ol0 =? 0) || (ol1 =? 0) || (31 <? l0) || (31 <? l1) || (31 <? ol0) || (31 <? ol1)
  then (u8 hshape, u8 hshape) else (l0, ol0).

(** Replace byte by byte from [idx] on while the input has the operand, or had
    it originally; the number of replaced bytes. *)
Fixpoint rtn_bytes (fuel : nat) (lg orig_lg : list Z) (pattern repl : nat) (idx i n : nat) : R nat :=
  match fuel with
  | O => mret i
  | S f =>
      if negb (i <? n)%nat then mret i else
      x ← load 1 (idx + i);
      p ← lift (byte lg pattern i);
      op ← lift (byte orig_lg pattern i);
      ox ← lift (rd orig_buf (idx + i));
      st ← get_status;
      if (negb (p =? x) && negb (op =? ox)) || (st =? 1) then mret i else
      r ← lift (byte lg repl i);
      _ ← memcpy_out (idx + i) [r];
      s ← get;
      _ ← its_fuzz (out_buf s);
      st ← get_status;
      _ ← (if st =? 1 then s ← get; bs ← lift (slice (Z.of_nat idx) (Z.of_nat i) (out_buf s)); combine idx bs else mret tt);
      rtn_bytes f lg orig_lg pattern repl idx (S i) n
  end.

(** The same from up to four bytes before [saved_idx], which already are as in
    [repl]. *)
Definition rtn_before (lg orig_lg : list Z) (pattern repl : nat) (saved_idx saved_its_len pre : nat) (save : list Z) (to : nat) : R unit :=
  unless_found (
    s ← get;
    here ← lift (slice (Z.of_nat (saved_idx - pre)) (Z.of_nat pre) (out_buf s));
    want ← lift (slice (Z.of_nat repl) (Z.of_nat pre) lg);
    if negb (bool_decide (here = want)) then mret tt else
    let idx := (saved_idx - pre)%nat in
    i ← rtn_bytes (saved_its_len + pre) lg orig_lg pattern repl idx 0 (saved_its_len + pre);
    back ← lift (slice (Z.of_nat (to - pre)) (Z.of_nat i) save);
    memcpy_out idx back).

(** *** Transformed buffers *)

Definition in_chars (lo hi c : Z) : bool := (lo <=? c) && (c <=? hi).
Definition is_hex_digit (c : Z) : bool := in_chars 48 57 c || in_chars 65 70 c || in_chars 97 102 c.
Definition is_hex (a b : Z) : bool := is_hex_digit a && is_hex_digit b.

Definition hex_table_up : list Z := [48; 49; 50; 51; 52; 53; 54; 55; 56; 57; 65; 66; 67; 68; 69; 70].
Definition hex_table_low : list Z := [48; 49; 50; 51; 52; 53; 54; 55; 56; 57; 97; 98; 99; 100; 101; 102].
Definition hex_table : list Z := seqZ 0 10 ++ replicate 7 0 ++ seqZ 10 6 ++ replicate 26 0 ++ seqZ 10 6.

(** What was seen of the bytes so far. *)
Record seen := mkSeen {
  n_xor : Z; n_arith : Z; n_tolower : Z; n_toupper : Z; n_tohex : Z; n_fromhex : Z;
  from_0 : Z; from_x : Z; from_X : Z; from_slash : Z;
  to_0 : Z; to_x : Z; to_slash : Z; to_up : Z;
  xor_val : list Z; arith_val : list Z
}.
Definition seen0 : seen := mkSeen 0 0 0 0 0 0 0 0 0 0 0 0 0 0 [] [].

(** The case of the last letter of a pair of digits. *)
Definition case_of (a b up : Z) : Z :=
  if truthy up then up else
  let up := if in_chars 65 70 a then 1 else if in_chars 97 102 a then 2 else up in
  if in_chars 65 70 b then 1 else if in_chars 97 102 b then 2 else up.

(** Byte [i]: [x] of the input, [ox] of the original, [p] and [op] of the
    operand, [r] of the replacement; [r2] the pair of the replacement at
    twice [i]; [ohex]: the pair of the original there is hexadecimal. *)
Definition see (i : nat) (x ox p op r : Z) (r2 : Z * Z) (ohex : bool) (v : seen) : seen :=
  let xv := p .^ x in
  let av := u8 (p - x) in
  let one b := b2z b in
  let hex := (i <? 16)%nat && is_hex r2.1 r2.2 in
  let first := bool_decide (i = 0)%nat in
  let second := bool_decide (i = 1)%nat in
  mkSeen
    (n_xor v + one ((op .^ ox =? xv) && truthy xv))
    (n_arith v + one ((op - ox =? av) && truthy av))
    (n_tolower v + one ((x .| 0x20 =? p) && (ox .| 0x20 =? op)))
    (n_toupper v + one ((x .& 0x5a =? p) && (ox .& 0x5a =? op)))
    (n_tohex v + one hex)
    (n_fromhex v + if Nat.odd i && ohex then 2 else 0)
    (if first && (ox =? 48) then 1 else from_0 v)
    (if second && ((ox =? 120) || (ox =? 88)) then 1 else from_x v)
    (if second && (ox =? 88) then 1 else from_X v)
    (if first && (ox =? 92) then 1 else from_slash v)
    (if first && (r =? 48) then 1 else to_0 v)
    (if second && ((r =? 120) || (r =? 88)) then 1 else to_x v)
    (if first && (r =? 92) then 1 else to_slash v)
    (if hex then case_of r2.1 r2.2 (to_up v) else to_up v)
    (xor_val v ++ [xv]) (arith_val v ++ [av]).

(** [memcpy(buf + idx, bs, ...)], and an execution. *)
Definition attempt_bytes (idx : nat) (bs : list Z) : R unit := _ ← memcpy_out idx bs; s ← get; its_fuzz (out_buf s).

(** The digits of the replacement as bytes. *)
Definition from_digits (lg : list Z) (p k : nat) : res (list Z) :=
  foldr (fun j acc =>
    a ← byte lg p (2 * j); b ← byte lg p (2 * j + 1);
    hi ← (if a <? 48 then Err Fault else rd hex_table (Z.to_nat (a - 48)));
    lo ← (if b <? 48 then Err Fault else rd hex_table (Z.to_nat (b - 48)));
    rest ← acc; Ok (u8 ((hi .<< 4) + lo) :: rest)) (Ok []) (seq 0 k).

(** The bytes of the replacement as digits. *)
Definition to_digits (table : list Z) (bs : list Z) : list Z :=
  concat (map (fun b => [nth (Z.to_nat (b .>> 4)) table 0; nth (Z.to_nat (b mod 16)) table 0]) bs).

Definition hex_prefix (v : seen) : list Z :=
  let x := if truthy (from_X v) then 88 else 120 in
  if truthy (from_slash v) && truthy (from_x v) then [92; x]
  else if truthy (from_0 v) && truthy (from_x v) then [48; x] else [].

(** The attempts after byte [i] was seen; [rs] are the first [i + 1] bytes of
    the replacement. *)
Definition rtn_attempts (lg : list Z) (repl idx i : nat) (rs : list Z) (save : list Z) (v : seen) : R unit :=
  let n := Z.of_nat i in
  _ ← (if (i <? 16)%nat && (n <? n_tohex v) then
         let off := if to_slash v + to_x v + to_0 v =? 2 then 2%nat else 0%nat in
         tmp ← lift (from_digits lg (repl + off) (S i)); attempt_bytes idx tmp
       else mret tt);
  _ ← (if Nat.odd i && (i <? 16)%nat && truthy (n_fromhex v) &&
          (n <? n_fromhex v + from_slash v + from_x v + from_0 v) then
         let pre := hex_prefix v in
         let tmp := pre ++ to_digits (if to_up v =? 1 then hex_table_up else hex_table_low) (take (S (i / 2)) rs) in
         _ ← attempt_bytes idx tmp;
         old ← lift (slice 0 (Z.of_nat (length tmp)) save);
         memcpy_out idx old
       else mret tt);
  _ ← (if n <? n_xor v then attempt_bytes idx (zip_with Z.lxor rs (xor_val v)) else mret tt);
  _ ← unless_found (if n <? n_arith v then attempt_bytes idx (zip_with (fun r a => u8 (r - a)) rs (arith_val v)) else mret tt);
  _ ← unless_found (if n <? n_toupper v then attempt_bytes idx (map (fun r => r .| 0x20) rs) else mret tt);
  _ ← unless_found (if n <? n_tolower v then attempt_bytes idx (map (fun r => r .& 0x5f) rs) else mret tt);
  st ← get_status;
  if st =? 1 then s ← get; bs ← lift (slice (Z.of_nat idx) (n + 1) (out_buf s)); combine idx bs else mret tt.

Definition no_transform (i : nat) (v : seen) : bool :=
  let n := Z.of_nat i in
  (7 <=? n) && ((n_xor v <=? n) && (n_arith v <=? n) && (n_tolower v <=? n) && (n_toupper v <=? n) && (n_tohex v <? n) &&
                (n_fromhex v + from_0 v + from_x v + from_slash v + 1 <? n)).

(** The loop over the bytes; where it ended. *)
Fixpoint rtn_transforms (fuel : nat) (lg orig_lg : list Z) (pattern repl idx i n : nat) (save : list Z) (v : seen) : R nat :=
  match fuel with
  | O => mret i
  | S f =>
      x ← load 1 (idx + i);
      ox ← lift (rd orig_buf (idx + i));
      p ← lift (byte lg pattern i);
      op ← lift (byte orig_lg pattern i);
      rs ← lift (slice (Z.of_nat repl) (Z.of_nat (S i)) lg);
      changed ← lift (byte orig_lg repl i);
      r2 ← (if (i <? 16)%nat then a ← lift (byte lg repl (2 * i)); b ← lift (byte lg repl (2 * i + 1)); mret (a, b)
            else mret (0, 0));
      ohex ← (if Nat.odd i && (S (idx + i) <? length orig_buf)%nat
              then b ← lift (rd orig_buf (S (idx + i))); mret (is_hex ox b) else mret false);
      let v := see i x ox p op (List.last rs 0) r2 ohex v in
      _ ← rtn_attempts lg repl idx i rs save v;
      st ← get_status;
      if no_transform i v || negb (List.last rs 0 =? changed) || (st =? 1) then mret i
      else if (S i <? n)%nat then rtn_transforms f lg orig_lg pattern repl idx (S i) n save v else mret (S i)
  end.

(** ** A routine *)

(** Operand [entry] (0 or 1) of hit [k], at [idx]. *)
Definition rtn_extend_encoding (hshape : Z) (entry : bool) (lg orig_lg : list Z) (k idx : nat) (taint_len : Z) : R unit :=
  let base := (64 * k)%nat in
  let '(pattern, repl) := if entry then ((base + 32)%nat, base) else (base, (base + 32)%nat) in
  l0 ← lift (byte lg pattern 31); l1 ← lift (byte lg repl 31);
  ol0 ← lift (byte orig_lg pattern 31); ol1 ← lift (byte orig_lg repl 31);
  let '(l0, ol0) := rtn_lens hshape l0 l1 ol0 ol1 in
  s ← get;
  let len := Z.of_nat (length (out_buf s)) in
  let its_len := Z.min (Z.min (Z.min (Z.max l0 ol0) hshape) (u32 (len - Z.of_nat idx))) taint_len in
  let lvl3 := truthy (lvl .& LVL3) in
  let max_to := Nat.min 4 idx in
  let from := if lvl3 && negb (truthy (lvl .& LVL1)) && negb (max_to =? 0)%nat then 1%nat else 0%nat in
  let to := if lvl3 then max_to else 0%nat in
  saved ← lift (slice (Z.of_nat (idx - to)) (its_len + Z.of_nat to) (out_buf s));
  let save := write_at 0 saved (fresh 40) in
  _ ← for_ (seq from (S to - from)) (fun pre => rtn_before lg orig_lg pattern repl idx (Z.to_nat its_len) pre save to);
  unless_found (
    if enable_transform && lvl3 then
      s ← get;
      saved ← lift (slice (Z.of_nat idx) its_len (out_buf s));
      let save := write_at 0 saved save in
      i ← (if its_len <=? 0 then mret 0%nat
           else rtn_transforms (Z.to_nat its_len) lg orig_lg pattern repl idx 0 (Z.to_nat its_len) save seen0);
      back ← lift (slice 0 (Z.of_nat i) save);
      memcpy_out idx back
    else mret tt).

Fixpoint c_strlen (bs : list Z) : res nat :=
  match bs with [] => Err Fault | b :: bs => if b =? 0 then Ok O else n ← c_strlen bs; Ok (S n) end.

Definition rtn_try (hshape : Z) (lg orig_lg : list Z) (k idx : nat) (taint_len : Z) : R unit :=
  _ ← on_its (set_status 0);
  _ ← rtn_extend_encoding hshape false lg orig_lg k idx taint_len;
  unless_found (
    _ ← on_its (set_status 0);
    rtn_extend_encoding hshape true lg orig_lg k idx taint_len).

(** An operand may become a token: all of it, or the string it is. *)
Definition rtn_learn (shape_len : Z) (found_one : bool) (lg orig_lg : list Z) (p : nat) : R unit :=
  text ← (if is_ascii then mret true else bs ← lift (slice (Z.of_nat p) shape_len lg); lift (all_text bs));
  n ← (if text : bool then n ← lift (c_strlen (drop p lg)); mret (if (n =? 0)%nat then shape_len else Z.of_nat n)
       else mret shape_len);
  bs ← lift (slice (Z.of_nat p) n lg);
  ob ← lift (slice (Z.of_nat p) n orig_lg);
  ok ← (if bool_decide (bs = ob) || negb found_one then mret true else lift (all_text bs));
  if ok : bool then add_auto bs else mret tt.

Definition rtn_entry (lg : list Z) (i : nat) : res (list Z) := slice (Z.of_nat (64 * i)) 64 lg.

Definition rtn_seen (lg : list Z) (i : nat) (o : list Z) : res bool :=
  rfold (fun seen j => x ← rtn_entry lg j; Ok (seen || bool_decide (x = o))) false (seq 0 i).

Definition rtn_fuzz (key : nat) (h : cmp_header) (lg orig_lg : list Z) (taint : list tainted) : R unit :=
  let hshape := SHAPE_BYTES (shape h) in
  found_one ← for_with (seq 0 (Z.to_nat (Z.min (hits h) CMP_MAP_RTN_H))) false (fun found_one i =>
    o ← lift (rtn_entry lg i);
    seen ← lift (rtn_seen lg i o);
    found_one ← (if seen : bool then mret found_one else
      found ← search_taint taint (rtn_try hshape lg orig_lg i);
      let found_one := found_one || found in
      _ ← (if (negb found_one && truthy (lvl .& LVL1)) || is_ascii then
             _ ← rtn_learn hshape found_one lg orig_lg (64 * i);
             rtn_learn hshape found_one lg orig_lg (64 * i + 32)
           else mret tt);
      mret found_one);
    _ ← stage_step;
    mret found_one);
  count_pass key false (negb found_one).
End Map.

(** ** The stage *)

(** What the stage asks of the fuzzer besides: a run with CmpLog
    ([common_fuzz_cmplog_stuff]) on a cleared map, [virgin_bits] and
    [total_execs]. *)
Class CmpRun (W : Type) := {
  common_fuzz_cmplog_stuff : W -> cmp_map -> list Z -> res (W * cmp_map * bool);
  virgin : W -> list Z;
  set_virgin : list Z -> W -> W;
  execs : W -> Z
}.

(** [colorized], [taint] and [cmplog_colorinput] of the entry. *)
Record its_entry := mkEntry { colorized : Z; taint : option (list tainted); colorinput : option (list Z) }.

Section Stage.
Context {W : Type} `{Target W} `{CmpLog W} `{CmpRun W}.
Abbreviation R := (M (W * its)).
Context (tries : nat) (enable_transform enable_arith is_ascii : bool) (fresh : nat -> list Z).
Context (fixed_seed random_colors : bool) (exec_us cmplog_lvl : Z) (orig_buf : list Z).

(** Go on after [return 1], with what happened until then. *)
Definition catch {A} (m : R A) : R (option A) := fun s => '(s, r) ← m s; Ok (s, Some r).

Definition on_world (f : W -> W) : R unit := s ← get; put (with_world (f (world s).1, (world s).2) s).

Definition no_header : cmp_header := mkHeader 0 0 0 0.

(** [None]: the run asks for the end of the entry. *)
Definition run_cmplog (m : cmp_map) (buf : list Z) : R (option cmp_map) :=
  s ← get;
  '(w, m, stop) ← lift (common_fuzz_cmplog_stuff (world s).1 m buf);
  _ ← put (with_world (w, (world s).2) s);
  mret (if stop : bool then None else Some m).

(** Comparisons that failed too often are ignored. *)
Definition usable (h : cmp_header) (p : Z * Z) : cmp_header :=
  if truthy (hits h) && ((CMPLOG_FAIL_MAX <=? p.2) || (CMPLOG_FAIL_MAX <=? p.1))
  then mkHeader 0 (shape h) (type h) (attribute h) else h.

(** What [stage_max] counts: nothing for a comparison ignored only now. *)
Definition planned (h h' : cmp_header) : Z :=
  if truthy (hits h) then Z.min (hits h') (if type h =? CMP_TYPE_INS then CMP_MAP_H else CMP_MAP_RTN_H) else 0.

Definition fuzz_key (lvl : Z) (ts : list tainted) (m orig : cmp_map) (hs : list cmp_header) (k : nat) : R unit :=
  h ← lift (rd hs k);
  if negb (truthy (hits h)) then mret tt else
  lg ← lift (rd (log m) k);
  orig_lg ← lift (rd (log orig) k);
  if type h =? CMP_TYPE_INS then cmp_fuzz enable_transform enable_arith is_ascii fresh orig_buf lvl k h lg orig_lg ts
  else if truthy (lvl .& LVL1) || (truthy (lvl .& LVL3) && enable_transform)
  then rtn_fuzz enable_transform is_ascii fresh orig_buf lvl k h lg orig_lg ts
  else mret tt.

(** The insertion loop, over the comparisons of the second run. *)
Definition insertion (lvl : Z) (ts : list tainted) (m orig : cmp_map) : R unit :=
  t ← get_its;
  let hs := zip_with usable (headers m) (pass_stats t) in
  s ← get;
  _ ← put (with_stage 0 (u32 (zsum id (zip_with planned (headers m) hs))) s);
  for_ (seq 0 (Z.to_nat CMP_MAP_W)) (fuzz_key lvl ts m orig hs).

(** The colours of the entry after the stage: kept for the next level, or
    dropped after the last, where the code frees [cmplog_colorinput] and keeps
    the dangling pointer, which [colorized] bars from use. *)
Definition keep_colours (e : its_entry) (ts : list tainted) : R its_entry :=
  s ← get;
  if cmplog_lvl =? CMPLOG_LVL_MAX then mret (mkEntry CMPLOG_LVL_MAX None None)
  else
    let taint' := match taint e with None => Some ts | t => t end in
    match colorinput e with
    | Some _ => mret (mkEntry LVL2 taint' (colorinput e))
    | None => _ ← put (with_buf orig_buf s); mret (mkEntry LVL2 taint' (Some (out_buf s)))
    end.

(** All finds combined in one input; the maps know of both afterwards. *)
Definition run_combined (orig_hit_cnt : Z) (virgin_backup : list Z) : R unit :=
  s ← get;
  if orig_hit_cnt + 1 <? hit_cnt (world s) then
    let virgin_save := virgin (world s).1 in
    _ ← on_world (set_virgin virgin_backup);
    _ ← catch (its_fuzz (cbuf (world s).2));
    on_world (fun w => set_virgin (zip_with Z.land (virgin w) virgin_save) w)
  else mret tt.

(** From the colours on; the result says whether to abandon the entry. *)
Definition its_insert (e : its_entry) (ts : list tainted) : R (its_entry * bool) :=
  let abandoned e := mret (mkEntry CMPLOG_LVL_MAX (taint e) (colorinput e), true) in
  let empty := mkCmpMap (replicate (Z.to_nat CMP_MAP_W) no_header) (replicate (Z.to_nat CMP_MAP_W) (replicate 1024 0)) in
  m ← run_cmplog empty orig_buf;
  match m with
  | None => abandoned e
  | Some orig =>
      s ← get;
      m ← run_cmplog (mkCmpMap (replicate (Z.to_nat CMP_MAP_W) no_header) (log orig)) (out_buf s);
      match m with
      | None => abandoned e
      | Some m =>
          s ← get;
          let orig_execs := execs (world s).1 in
          let orig_hit_cnt := hit_cnt (world s) in
          let lvl := (if truthy (colorized e) then 0 else LVL1) + (if cmplog_lvl =? CMPLOG_LVL_MAX then LVL3 else 0) in
          _ ← on_its (set_cbuf orig_buf);
          let virgin_backup := virgin (world s).1 in
          r ← catch (insertion lvl ts m orig);
          e ← keep_colours e ts;
          _ ← run_combined orig_hit_cnt virgin_backup;
          s ← get;
          f ← lift (rd (stage_finds s) STAGE_ITS);
          c ← lift (rd (stage_cycles s) STAGE_ITS);
          let new_hit := hit_cnt (world s) in
          _ ← put (with_stats (new_hit_cnt s)
                 (<[STAGE_ITS := u64 (f + (new_hit - orig_hit_cnt))]> (stage_finds s))
                 (<[STAGE_ITS := u64 (c + (execs (world s).1 - orig_execs))]> (stage_cycles s)) s);
          mret (e, match r with Some _ => false | None => true end)
      end
  end.

(** [input_to_state_stage(afl, orig_buf, out_buf, len)]; [success] is
    [colorize_success].  Colours kept in the entry are used on a buffer of
    their own. *)
Definition input_to_state_stage (success : Z) (e : its_entry) : R (its_entry * Z * bool) :=
  match taint e, colorinput e with
  | Some ts, Some buf =>
      s ← get;
      let out := out_buf s in
      _ ← put (with_buf buf s);
      '(e, stop) ← its_insert e ts;
      s ← get;
      _ ← put (with_buf out s);
      mret (e, success, stop)
  | _, _ =>
      r ← catch (colorization tries fixed_seed exec_us random_colors cmplog_lvl success);
      match r with
      | None => mret (e, success, true)
      | Some (None, success) => mret (mkEntry CMPLOG_LVL_MAX (taint e) (colorinput e), success, false)
      | Some (Some ts, success) => '(e, stop) ← its_insert e ts; mret (e, success, stop)
      end
  end.
End Stage.
