(* ===== verification/RedqueenMapThms.v ===== *)
(** Input-to-state fuzzing over the whole CmpLog map is safe below level 3, or
    with transforms off: it accesses only what it may, puts the coloured input
    back after every comparison, and leaves the entry with the colours for its
    next level and the buffer with the original input. *)

From S2P Require Import Prelude Words Arith Float Bitmap State Text Rand Describe Dedup Extras Stages StagesRun StagesThms StagesSafe Havoc HavocThms Colorize ColorizeThms Redqueen RedqueenThms RedqueenMap.
#[local] Open Scope list_scope.
#[local] Open Scope Z_scope.

(** ** Shapes of the map *)

(** The log of a key; some byte after the routines' operands is zero. *)
Record row_ok (lg : list Z) : Prop := {
  row_bytes : bytes lg;
  row_len : length lg = 1024%nat;
  row_end : In 0 (drop 512 lg)
}.

(** Comparisons have 1, 2, 4 or 8 bytes. *)
Definition header_ok (h : cmp_header) : Prop :=
  0 <= shape h < 32 /\ (type h = CMP_TYPE_INS -> is_n (SHAPE_BYTES (shape h)) = false).

Record map_ok (m : cmp_map) : Prop := {
  map_headers : Z.of_nat (length (headers m)) = CMP_MAP_W;
  map_log : Z.of_nat (length (log m)) = CMP_MAP_W;
  map_shapes : Forall header_ok (headers m);
  map_rows : Forall row_ok (log m)
}.

Lemma operands_ok lg i : row_ok lg -> (i < 32)%nat -> exists o, operands lg i = Ok o /\ 0 <= v0 o /\ 0 <= v1 o.
Proof.
  intros [Hb Hl _] Hi. unfold operands. rewrite !slice_ok by lia. cbn [mbind res_bind]. eexists. split; [reflexivity|].
  cbn [v0 v1]. split; apply le_load_nonneg; now apply bytes_take, bytes_drop.
Qed.

Lemma rtn_entry_ok lg i : row_ok lg -> (i < 8)%nat -> exists o, rtn_entry lg i = Ok o.
Proof. intros [_ Hl _] Hi. unfold rtn_entry. rewrite slice_ok by lia. eauto. Qed.

Lemma rfold_total {A S} (f : S -> A -> res S) l : Forall (fun x => forall s, exists s', f s x = Ok s') l ->
  forall s, exists s', rfold f s l = Ok s'.
Proof.
  induction 1 as [|x l Hx _ IH]; intros s; cbn; [eauto|]. destruct (Hx s) as [s' ->]. cbn [mbind res_bind]. apply IH.
Qed.

Lemma cmp_seen_ok lg i o : row_ok lg -> (i <= 32)%nat -> exists b, cmp_seen lg i o = Ok b.
Proof.
  intros Hr Hi. unfold cmp_seen. apply rfold_total, Forall_forall. intros j Hj%elem_of_seq s.
  destruct (operands_ok lg j Hr ltac:(lia)) as (x & -> & _). cbn [mbind res_bind]. eauto.
Qed.

Lemma rtn_seen_ok lg i o : row_ok lg -> (i <= 8)%nat -> exists b, rtn_seen lg i o = Ok b.
Proof.
  intros Hr Hi. unfold rtn_seen. apply rfold_total, Forall_forall. intros j Hj%elem_of_seq s.
  destruct (rtn_entry_ok lg j Hr ltac:(lia)) as [x ->]. cbn [mbind res_bind]. eauto.
Qed.

Lemma all_text_ok bs : exists b, all_text bs = Ok b.
Proof.
  unfold all_text, check_if_text_buf. destruct (text_scan_total (length bs) bs (mkText 0 0 0)) as [t ->]; [lia|].
  cbn [mbind res_bind]. eauto.
Qed.

Lemma c_strlen_ok bs : In 0 bs -> exists n, c_strlen bs = Ok n /\ (n < length bs)%nat.
Proof.
  induction bs as [|b bs IH]; [intros []|]. intros Hi. cbn. destruct (Z.eqb_spec b 0) as [->|Hb]; [exists O; split; [done|lia]|].
  destruct Hi as [->|Hi]; [done|]. destruct (IH Hi) as (n & -> & Hn). cbn [mbind res_bind]. exists (S n). split; [done|lia].
Qed.

Lemma take_within {A} i a b (l : list A) : (a + i <= b)%nat -> take i (drop a (take b l)) = take i (drop a l).
Proof. intros Hi. now rewrite !take_drop_commute, take_take, Nat.min_l by lia. Qed.

(** ** What keeps the coloured input *)

Section Keep.
Context {W : Type} `{Target W} (Lost : Prop) (I : W -> Prop).
Context (enable_transform enable_arith is_ascii : bool) (fresh : nat -> list Z).
Context (orig_buf buf : list Z) (keys : nat) (lvl : Z).
Context (Hfresh : forall n, length (fresh n) = n /\ bytes (fresh n)).
Context (Hgood : good buf) (Horig : length orig_buf = length buf).
Context (Hrun : forall w c, I w -> good c -> or_fatal Lost (common_fuzz_stuff w c) (fun '(w', _) => I w')).
Context (Hauto : forall w t, I w -> bytes t -> exists w', maybe_add_auto w t = Ok w' /\ I w').
Abbreviation R := (M (W * its)).
Abbreviation fzi := (fz (W * its)).
Abbreviation I2 := (RedqueenThms.I2 I buf keys).
Abbreviation wp := (StagesSafe.wp (dies Lost) I2).
Abbreviation ready := (RedqueenThms.ready I buf keys).
Abbreviation safe := (RedqueenThms.safe Lost I buf keys).

Definition keeps {A} (m : R A) : Prop := forall s : fzi, ready s -> wp m s (fun _ s' => ready s').

Lemma safe_keeps m : safe m -> keeps m.
Proof. intros Hm s Hs. eapply wp_mono; [exact (Hm s Hs)|]. intros [] s'. apply held_ready, Hs. Qed.

Lemma keeps_ret {A} (x : A) : keeps (mret x).
Proof. intros s Hs. now apply wp_ret. Qed.

Lemma keeps_bind {A B} (m : R A) (k : A -> R B) : keeps m -> (forall x, keeps (k x)) -> keeps (m ≫= k).
Proof. intros Hm Hk s Hs. apply wp_bind. eapply wp_mono; [exact (Hm s Hs)|]. intros x s'. apply Hk. Qed.

Lemma keeps_lift {A B} (m : res A) (k : A -> R B) (P : A -> Prop) :
  (exists x, m = Ok x /\ P x) -> (forall x, P x -> keeps (k x)) -> keeps (lift m ≫= k).
Proof. intros (x & E & Hx) Hk s Hs. apply wp_bind, (wp_lift _ _ _ _ _ _ E). now apply Hk. Qed.

Lemma keeps_ok {A B} (m : res A) (k : A -> R B) : (exists x, m = Ok x) -> (forall x, keeps (k x)) -> keeps (lift m ≫= k).
Proof. intros [x E] Hk. apply (keeps_lift m k (fun _ => True)); eauto. Qed.

Lemma keeps_slice {A} i n bs (k : list Z -> R A) : 0 <= i -> 0 <= n -> i + n <= Z.of_nat (length bs) ->
  keeps (k (take (Z.to_nat n) (drop (Z.to_nat i) bs))) -> keeps (lift (slice i n bs) ≫= k).
Proof.
  intros Hi Hn Hl Hk. apply (keeps_lift _ _ (eq (take (Z.to_nat n) (drop (Z.to_nat i) bs)))); [|intros x <-; exact Hk].
  eexists. split; [now apply slice_ok|done].
Qed.

Lemma keeps_if {A} (b : bool) (m m' : R A) : (b = true -> keeps m) -> (b = false -> keeps m') -> keeps (if b then m else m').
Proof. intros Hm Hm'. destruct b; auto. Qed.

Lemma keeps_for {A} (l : list A) (f : A -> R unit) : Forall (fun x => keeps (f x)) l -> keeps (for_ l f).
Proof. induction 1 as [|x l Hx _ IH]; cbn [for_]; [apply keeps_ret|now apply keeps_bind]. Qed.

Lemma keeps_for_with {A X} (l : list A) (f : X -> A -> R X) : Forall (fun a => forall x, keeps (f x a)) l ->
  forall x, keeps (for_with l x f).
Proof. induction 1 as [|a l Ha _ IH]; intros x; cbn [for_with]; [apply keeps_ret|now apply keeps_bind]. Qed.

Lemma keeps_get {A} (k : fzi -> R A) : (forall s, ready s -> keeps (k s)) -> keeps (get ≫= k).
Proof. intros Hk s Hs. apply wp_get. now apply Hk. Qed.

Lemma keeps_status {A} (k : Z -> R A) : (forall st, keeps (k st)) -> keeps (get_status ≫= k).
Proof. intros Hk s Hs. exact (Hk _ s Hs). Qed.

Lemma keeps_unless_found m : keeps m -> keeps (unless_found m).
Proof. intros Hm. apply keeps_status. intros st. apply keeps_if; intros _; [apply keeps_ret|exact Hm]. Qed.

Lemma keeps_set_status v : keeps (on_its (set_status v)).
Proof. apply safe_keeps, safe_set_status. Qed.

Lemma keeps_stage_step : keeps stage_step.
Proof. intros s Hs. exact Hs. Qed.

(** *** Tokens *)

Lemma add_auto_keeps bs : bytes bs -> keeps (add_auto bs).
Proof.
  intros Hb s [[Hi Ht] Ho]. unfold add_auto. apply wp_get. destruct (Hauto _ _ Hi Hb) as (w' & E & Hw).
  cbn [maybe_add_auto its_target]. rewrite E. apply wp_bind. eapply wp_lift; [reflexivity|]. apply wp_put.
  split; [split; [exact Hw|exact Ht]|exact Ho].
Qed.

Lemma swap_bytes_nonneg k x : 0 <= swap_bytes k x.
Proof. pose proof (SWAP_range x). unfold swap_bytes. repeat case_match; lia. Qed.

Lemma try_to_add_keeps v n : 0 <= v -> 0 <= n <= 8 -> keeps (try_to_add_to_dict v n).
Proof.
  intros Hv Hn. unfold try_to_add_to_dict. apply keeps_slice; [lia|lia|rewrite length_le_store; lia|].
  apply keeps_if; intros _; [apply keeps_ret|]. apply keeps_bind.
  - apply add_auto_keeps. now apply bytes_take, bytes_drop, le_store_bytes.
  - intros _. apply keeps_if; intros _; [|apply keeps_ret]. apply add_auto_keeps, le_store_bytes, swap_bytes_nonneg.
Qed.

Lemma is_n_small n : is_n n = false -> 1 <= n <= 8.
Proof. unfold is_n. rewrite negb_false_iff, !orb_true_iff, !Z.eqb_eq. lia. Qed.

Lemma cmp_learn_keeps h o orig found : is_n (SHAPE_BYTES (shape h)) = false -> 0 <= v0 o -> 0 <= v1 o ->
  keeps (cmp_learn is_ascii h o orig found).
Proof.
  intros Hn H0 H1. unfold cmp_learn. set (n := SHAPE_BYTES (shape h)) in *. rewrite Hn. pose proof (is_n_small n Hn).
  apply keeps_if; intros _; [|apply keeps_ret]. apply keeps_for.
  assert (Hone : forall v ov, 0 <= v -> keeps (
    let bs := le_store (Z.to_nat n) v in
    if negb (bool_decide (bs = le_store (Z.to_nat n) ov)) then mret tt else
    ok ← (if negb found then mret true else lift (all_text bs));
    if ok : bool then try_to_add_to_dict v n else mret tt)).
  { intros v ov Hv. cbv zeta. apply keeps_if; intros _; [apply keeps_ret|]. apply keeps_bind.
    - apply keeps_if; intros _; [apply keeps_ret|]. destruct (all_text_ok (le_store (Z.to_nat n) v)) as [b E].
      intros s Hs. now apply (wp_lift _ _ _ _ _ _ E).
    - intros ok. apply keeps_if; intros _; [apply try_to_add_keeps; lia|apply keeps_ret]. }
  constructor; [now apply Hone|]. constructor; [now apply Hone|constructor].
Qed.

(** *** Positions *)

Lemma over_taint_keeps try idxs t :
  Forall (fun idx => forall n, 0 <= n -> keeps (try idx n)) idxs -> keeps (over_taint try idxs t).
Proof.
  intros Hf. revert t. induction Hf as [|idx idxs Hi _ IH]; intros t; cbn [over_taint]; [apply keeps_ret|].
  destruct t as [|x later]; [apply IH|]. apply keeps_if; intros _; [apply IH|]. cbv zeta. apply keeps_bind.
  - apply Hi. apply uwrap_range. lia.
  - intros _. apply keeps_status. intros st. apply keeps_if; intros _; [apply keeps_ret|apply IH].
Qed.

Lemma search_taint_keeps ts try : ts <> [] ->
  (forall idx n, (idx < length buf)%nat -> 0 <= n -> keeps (try idx n)) -> keeps (search_taint ts try).
Proof.
  intros Hts Ht. unfold search_taint. destruct ts as [|t ts]; [done|]. apply keeps_get. intros s [_ Hs]. rewrite Hs.
  apply over_taint_keeps, Forall_forall. intros idx Hi%elem_of_seq n Hn. apply Ht; lia.
Qed.

Lemma search_keeps idx n hshape p r o c attr rev : (idx < length buf)%nat -> 0 <= n ->
  keeps (cmp_extend_encoding enable_transform enable_arith is_ascii fresh orig_buf idx n lvl 4 hshape p r o c attr rev).
Proof.
  intros Hi Hn. apply safe_keeps.
  assert (Hlike : forall c, bytes c -> length c = length buf -> good c).
  { intros x Hb E. unfold good. rewrite E. split; [exact Hb|apply Hgood]. }
  apply (search_safe Lost I good enable_transform enable_arith is_ascii fresh orig_buf buf keys idx n lvl Hfresh Hgood Horig Hi Hrun);
    [| |exact Hn].
  - intros new Hb Hl. apply Hlike; [now apply bytes_write_at; [apply Hgood|]|]. rewrite length_write_at; lia.
  - intros _ _ x Hb Hl _. now apply Hlike.
Qed.

Lemma cmp_try_keeps h o orig idx n : is_n (SHAPE_BYTES (shape h)) = false -> (idx < length buf)%nat -> 0 <= n ->
  keeps (cmp_try enable_transform enable_arith is_ascii fresh orig_buf lvl h o orig idx n).
Proof.
  intros Hh Hi Hn. unfold cmp_try. rewrite Hh. cbv zeta. apply keeps_bind; [apply keeps_set_status|]. intros _.
  apply keeps_bind; [apply keeps_ret|]. intros _. apply keeps_unless_found, keeps_bind.
  - apply keeps_if; intros _; [now apply search_keeps|apply keeps_ret].
  - intros _. apply keeps_unless_found, keeps_bind; [apply keeps_set_status|]. intros _.
    apply keeps_if; intros _; [now apply search_keeps|apply keeps_ret].
Qed.

Lemma count_pass_keeps key b c : (key < keys)%nat -> keeps (count_pass key b c).
Proof.
  intros Hk s [[Hi (T1 & T2 & T3 & T4)] Ho]. unfold count_pass, get_its. apply wp_bind, wp_get, wp_ret.
  destruct (rd_lt (pass_stats (world s).2) key ltac:(lia)) as ([total faileds] & E & _).
  apply wp_bind, (wp_lift _ _ _ _ _ _ E). destruct (if b then _ else _) as [t f]. apply wp_on_its.
  split; [|exact Ho]. split; [exact Hi|]. split; [exact T1|]. split; [exact T2|]. split; [exact T3|]. cbn. now rewrite length_insert.
Qed.

Lemma cmp_fuzz_keeps key h lg orig_lg ts : (key < keys)%nat -> header_ok h -> type h = CMP_TYPE_INS ->
  row_ok lg -> row_ok orig_lg -> ts <> [] ->
  keeps (cmp_fuzz enable_transform enable_arith is_ascii fresh orig_buf lvl key h lg orig_lg ts).
Proof.
  intros Hk [_ Hh] Ht Hl Hol Hts. specialize (Hh Ht). unfold cmp_fuzz. apply keeps_bind; [|intros [f d]; now apply count_pass_keeps].
  apply keeps_for_with, Forall_forall. intros i Hi%elem_of_seq [f d]. unfold CMP_MAP_H in Hi.
  apply (keeps_lift _ _ (fun o => 0 <= v0 o /\ 0 <= v1 o)); [apply operands_ok; [exact Hl|lia]|]. intros o [O0 O1].
  apply (keeps_lift _ _ (fun o => 0 <= v0 o /\ 0 <= v1 o)); [apply operands_ok; [exact Hol|lia]|]. intros orig _.
  apply keeps_ok; [apply cmp_seen_ok; [exact Hl|lia]|]. intros seen. apply keeps_bind.
  - apply keeps_if; intros _; [apply keeps_ret|]. apply keeps_bind.
    + apply search_taint_keeps; [exact Hts|]. intros idx n. now apply cmp_try_keeps.
    + intros found. apply keeps_bind; [now apply cmp_learn_keeps|]. intros _. apply keeps_ret.
  - intros f'. apply keeps_bind; [apply keeps_stage_step|]. intros _. apply keeps_ret.
Qed.
(** *** Routines *)

Lemma byte_ok lg p i : row_ok lg -> (p + i < 1024)%nat -> exists x, byte lg p i = Ok x /\ drop p lg !! i = Some x /\ is_byte x.
Proof.
  intros [Hb Hl _] Hi. unfold byte. destruct (rd_lt lg (p + i)%nat ltac:(lia)) as (x & E & Ex).
  exists x. split; [exact E|]. split; [now rewrite lookup_drop|]. exact (proj1 (Forall_lookup _ _) Hb _ _ Ex).
Qed.

Lemma write_more i k (r : Z) rs b : drop k rs !! i = Some r -> forall p, (p + S i <= length b)%nat ->
  write_at (p + i) [r] (write_at p (take i (drop k rs)) b) = write_at p (take (S i) (drop k rs)) b.
Proof.
  intros Hr p Hp. set (l := drop k rs) in *. pose proof (lookup_lt_Some _ _ _ Hr) as Hl.
  rewrite (take_S_r _ _ _ Hr). set (B := take i l). assert (HB : length B = i) by (subst B; rewrite length_take; lia).
  clearbody B. unfold write_at. rewrite length_app, HB. cbn [length]. set (A := take p b).
  assert (HA : length A = p) by (subst A; rewrite length_take; lia). clearbody A.
  rewrite (app_assoc A B), (take_app_length' (A ++ B)), drop_app_ge by (rewrite length_app; lia).
  rewrite length_app, HA, HB, drop_drop, <- !app_assoc. do 4 f_equal. lia.
Qed.

(** The state within a trial: the input has the first [i] bytes of [rs] at
    [p]. *)
Definition trying (p i : nat) (rs : list Z) (s : fzi) : Prop := I2 (world s) /\ out_buf s = write_at p (take i rs) buf.

Lemma trying_0 p rs s : (p <= length buf)%nat -> ready s -> trying p 0 rs s.
Proof. intros Hp [Hi Ho]. split; [exact Hi|]. rewrite take_0, Ho. unfold write_at. cbn. now rewrite Nat.add_0_r, take_drop. Qed.

Lemma rtn_bytes_wp fuel lg orig_lg pattern repl idx i n s :
  row_ok lg -> row_ok orig_lg -> (pattern + n <= 1024)%nat -> (repl + n <= 1024)%nat -> (idx + n <= length buf)%nat ->
  (i <= n)%nat -> (n - i <= fuel)%nat -> trying idx i (drop repl lg) s ->
  wp (rtn_bytes orig_buf fuel lg orig_lg pattern repl idx i n) s
    (fun i' s' => (i' <= n)%nat /\ trying idx i' (drop repl lg) s').
Proof.
  intros Hl Hol Hp Hr Hx. revert i s; induction fuel as [|f IH]; intros i s Hi Hf Hs; cbn [rtn_bytes]; [now apply wp_ret|].
  destruct (Nat.ltb_spec i n) as [Hin|Hin]; cbn [negb]; [|now apply wp_ret].
  pose proof Hl as [Lb Ll _]. pose proof Hs as [Hi2 Ho].
  assert (Hlr : length (take i (drop repl lg)) = i) by (rewrite length_take, length_drop; lia).
  assert (Hlen : length (out_buf s) = length buf) by (rewrite Ho, length_write_at; rewrite ?Hlr; lia).
  apply wp_bind, wp_load; [lia|]. set (x := le_load _). clearbody x.
  destruct (byte_ok lg pattern i Hl ltac:(lia)) as (pv & -> & _). apply wp_bind. eapply wp_lift; [reflexivity|].
  destruct (byte_ok orig_lg pattern i Hol ltac:(lia)) as (opv & -> & _). apply wp_bind. eapply wp_lift; [reflexivity|].
  destruct (rd_lt orig_buf (idx + i)%nat ltac:(lia)) as (ox & -> & _). apply wp_bind. eapply wp_lift; [reflexivity|].
  unfold get_status, get_its. apply wp_bind, wp_bind, wp_get, wp_ret, wp_ret. destruct (_ || _); [apply wp_ret; split; [lia|exact Hs]|].
  destruct (byte_ok lg repl i Hl ltac:(lia)) as (r & -> & Er & Hb). apply wp_bind. eapply wp_lift; [reflexivity|].
  apply wp_bind, wp_memcpy; [cbn; lia|]. rewrite Ho, (write_more i repl r lg buf Er idx) by lia.
  assert (Hlr' : length (take (S i) (drop repl lg)) = S i) by (rewrite length_take, length_drop; lia).
  apply wp_get, wp_bind. apply (wp_its_fuzz Lost I good buf keys Hrun); [exact Hi2| |].
  { cbn [out_buf with_buf]. apply good_write; [exact Hgood|now apply bytes_take, bytes_drop|lia]. }
  intros wt Hwt. apply wp_bind, wp_bind, wp_get, wp_ret, wp_ret. cbn [world with_world].
  assert (Hnext : forall s', trying idx (S i) (drop repl lg) s' ->
    wp (rtn_bytes orig_buf f lg orig_lg pattern repl idx (S i) n) s' (fun i' s' => (i' <= n)%nat /\ trying idx i' (drop repl lg) s'))
    by (intros s' Hs'; apply IH; [lia|lia|exact Hs']).
  apply wp_bind. destruct (_ =? 1); [|apply wp_ret, Hnext; now split].
  apply wp_get. cbn [out_buf with_world with_buf]. apply wp_bind.
  eapply wp_lift; [apply slice_ok; rewrite ?length_write_at; lia|]. rewrite !Nat2Z.id.
  apply (wp_combine Lost I orig_buf buf keys idx Horig ltac:(lia)); [exact Hwt| | |].
  - apply bytes_take, bytes_drop, bytes_write_at; [apply Hgood|now apply bytes_take, bytes_drop].
  - rewrite length_take. lia.
  - intros wt' Hwt'. apply Hnext. now split.
Qed.

Lemma rtn_before_keeps lg orig_lg pattern repl idx n pre save to :
  row_ok lg -> row_ok orig_lg -> (pattern + n + pre <= 1024)%nat -> (repl + n + pre <= 1024)%nat ->
  (idx + n <= length buf)%nat -> (pre <= to <= idx)%nat -> (to + n <= length save)%nat ->
  take (to + n) save = take (to + n) (drop (idx - to) buf) ->
  keeps (rtn_before orig_buf lg orig_lg pattern repl idx n pre save to).
Proof.
  intros Hl Hol Hp Hr Hx Hpre Hls Hsave. unfold rtn_before. apply keeps_unless_found. intros s Hs. apply wp_get.
  pose proof (row_len _ Hl) as Ll. rewrite (proj2 Hs). apply wp_bind. eapply wp_lift; [apply slice_ok; lia|].
  apply wp_bind. eapply wp_lift; [apply slice_ok; lia|]. destruct (negb _); [now apply wp_ret|].
  apply wp_bind. eapply wp_mono.
  { apply (rtn_bytes_wp _ lg orig_lg pattern repl (idx - pre) 0 (n + pre) s Hl Hol); [lia..|apply trying_0; [lia|exact Hs]]. }
  intros i s' [Hi [Hi2 Ho]]. cbv beta. apply wp_bind. eapply wp_lift; [apply slice_ok; lia|]. rewrite !Nat2Z.id.
  assert (Hback : take i (drop (to - pre) save) = take i (drop (idx - pre) buf)).
  { rewrite <- (take_within i _ (to + n) save), Hsave, take_within, drop_drop by lia. do 2 f_equal. lia. }
  rewrite Hback. assert (Hlt : length (take i (drop repl lg)) = i) by (rewrite length_take, length_drop; lia).
  assert (Hlb : length (take i (drop (idx - pre) buf)) = i) by (rewrite length_take, length_drop; lia).
  apply wp_memcpy; [rewrite Ho, length_write_at; lia|]. split; [exact Hi2|]. cbn [out_buf with_buf].
  rewrite Ho, write_at_twice by lia. apply write_at_same. lia.
Qed.
Lemma rtn_lens_nonneg hshape l0 l1 ol0 ol1 : is_byte l0 -> is_byte ol0 ->
  0 <= (rtn_lens hshape l0 l1 ol0 ol1).1 /\ 0 <= (rtn_lens hshape l0 l1 ol0 ol1).2.
Proof.
  intros [H0 _] [H1 _]. assert (U : forall x, 0 <= u8 x) by (intros; now apply uwrap_range).
  unfold rtn_lens. destruct (_ || _); destruct (_ || _); cbn; auto.
Qed.

Context (Hno_transforms : enable_transform && truthy (lvl .& LVL3) = false).

Lemma rtn_extend_keeps hshape entry lg orig_lg k idx n :
  row_ok lg -> row_ok orig_lg -> (k < 8)%nat -> 1 <= hshape <= 32 -> (idx < length buf)%nat -> 0 <= n ->
  keeps (rtn_extend_encoding enable_transform fresh orig_buf lvl hshape entry lg orig_lg k idx n).
Proof.
  intros Hl Hol Hk Hh Hi Hn. pose proof Hgood as (_ & _ & Hm). unfold MAX_FILE in Hm.
  unfold rtn_extend_encoding. rewrite Hno_transforms.
  set (pr := if entry then _ else _). assert (Hpr : (pr.1 <= 480 /\ pr.2 <= 480)%nat) by (subst pr; destruct entry; cbn [fst snd]; lia).
  destruct pr as [pattern repl]. cbn [fst snd] in Hpr.
  assert (Hb : forall lg p, row_ok lg -> (p <= 480)%nat -> exists x, byte lg p 31 = Ok x /\ is_byte x).
  { intros g p Hg Hp. destruct (byte_ok g p 31 Hg ltac:(lia)) as (x & E & _ & Hx). eauto. }
  apply (keeps_lift _ _ is_byte); [apply Hb; [exact Hl|lia]|]. intros l0 B0.
  apply (keeps_lift _ _ is_byte); [apply Hb; [exact Hl|lia]|]. intros l1 _.
  apply (keeps_lift _ _ is_byte); [apply Hb; [exact Hol|lia]|]. intros ol0 B1.
  apply (keeps_lift _ _ is_byte); [apply Hb; [exact Hol|lia]|]. intros ol1 _.
  pose proof (rtn_lens_nonneg hshape l0 l1 ol0 ol1 B0 B1) as [N0 N1].
  destruct (rtn_lens hshape l0 l1 ol0 ol1) as [m0 m1]. cbn [fst snd] in N0, N1.
  apply keeps_get. intros s [_ Ho]. rewrite Ho. rewrite (uwrap_id 32) by lia. cbv zeta.
  set (its_len := Z.min (Z.min (Z.min (Z.max m0 m1) hshape) _) n).
  assert (Hits : 0 <= its_len <= 32 /\ its_len <= Z.of_nat (length buf) - Z.of_nat idx) by (subst its_len; lia). clearbody its_len.
  set (to := if truthy (lvl .& LVL3) then Nat.min 4 idx else 0%nat).
  assert (Hto : (to <= 4 /\ to <= idx)%nat) by (subst to; destruct (truthy _); lia).
  set (from := if _ && _ && _ then 1%nat else 0%nat). clearbody to from.
  apply keeps_slice; [lia..|]. rewrite Nat2Z.id. replace (Z.to_nat (its_len + Z.of_nat to)) with (to + Z.to_nat its_len)%nat by lia.
  set (saved := take _ (drop (idx - to) buf)).
  assert (Hsl : length saved = (to + Z.to_nat its_len)%nat) by (subst saved; rewrite length_take, length_drop; lia).
  assert (Hsave : take (to + Z.to_nat its_len) (write_at 0 saved (fresh 40)) = saved)
    by (unfold write_at; rewrite take_0; cbn [app]; now apply take_app_length').
  apply keeps_bind; [|intros []; apply keeps_unless_found, keeps_ret].
  apply keeps_for, Forall_forall. intros pre Hpre%elem_of_seq. apply rtn_before_keeps; [exact Hl|exact Hol|lia..| |].
  - rewrite length_write_at; [rewrite (proj1 (Hfresh 40)); lia|]. rewrite (proj1 (Hfresh 40)). lia.
  - exact Hsave.
Qed.

Lemma rtn_try_keeps hshape lg orig_lg k idx n :
  row_ok lg -> row_ok orig_lg -> (k < 8)%nat -> 1 <= hshape <= 32 -> (idx < length buf)%nat -> 0 <= n ->
  keeps (rtn_try enable_transform fresh orig_buf lvl hshape lg orig_lg k idx n).
Proof.
  intros. unfold rtn_try. apply keeps_bind; [apply keeps_set_status|]. intros _. apply keeps_bind; [now apply rtn_extend_keeps|].
  intros _. apply keeps_unless_found, keeps_bind; [apply keeps_set_status|]. intros _. now apply rtn_extend_keeps.
Qed.

Lemma rtn_learn_keeps n found lg orig_lg p :
  row_ok lg -> row_ok orig_lg -> (p <= 480)%nat -> 1 <= n <= 32 -> keeps (rtn_learn is_ascii n found lg orig_lg p).
Proof.
  intros [Lb Ll Le] Hol Hp Hn. pose proof (row_len _ Hol) as Lol. unfold rtn_learn.
  apply keeps_bind.
  { apply keeps_if; intros _; [apply keeps_ret|]. apply keeps_slice; [lia..|]. intros s Hs.
    edestruct all_text_ok as [b E]. now apply (wp_lift _ _ _ _ _ _ E). }
  assert (Hin : In 0 (drop p lg)).
  { replace 512%nat with (p + (512 - p))%nat in Le by lia. rewrite <- drop_drop in Le. apply list_elem_of_In in Le.
    apply list_elem_of_In. exact (subseteq_drop _ _ _ Le). }
  destruct (c_strlen_ok _ Hin) as (m & E & Hm). rewrite length_drop in Hm.
  intros text. intros s Hs. apply wp_bind.
  assert (Hk : forall j, 0 <= j <= 1024 - Z.of_nat p -> wp (bs ← lift (slice (Z.of_nat p) j lg);
      ob ← lift (slice (Z.of_nat p) j orig_lg);
      ok ← (if bool_decide (bs = ob) || negb found then mret true else lift (all_text bs));
      if ok : bool then add_auto bs else mret tt) s (fun _ s' => ready s')).
  { intros j Hj. revert s Hs. apply keeps_slice; [lia..|]. apply keeps_slice; [lia..|]. apply keeps_bind.
    - apply keeps_if; intros _; [apply keeps_ret|]. intros s Hs. edestruct all_text_ok as [b Eb]. now apply (wp_lift _ _ _ _ _ _ Eb).
    - intros ok. apply keeps_if; intros _; [|apply keeps_ret]. now apply add_auto_keeps, bytes_take, bytes_drop. }
  destruct text; [|apply wp_ret, Hk; lia]. rewrite E. apply wp_bind. eapply wp_lift; [reflexivity|].
  apply wp_ret. destruct (m =? 0)%nat; apply Hk; lia.
Qed.

Lemma rtn_fuzz_keeps key h lg orig_lg ts : (key < keys)%nat -> header_ok h -> row_ok lg -> row_ok orig_lg -> ts <> [] ->
  keeps (rtn_fuzz enable_transform is_ascii fresh orig_buf lvl key h lg orig_lg ts).
Proof.
  intros Hk [Hh _] Hl Hol Hts. unfold rtn_fuzz. unfold SHAPE_BYTES. apply keeps_bind; [|intros f; now apply count_pass_keeps].
  apply keeps_for_with, Forall_forall. intros i Hi%elem_of_seq f. change CMP_MAP_RTN_H with 8 in Hi.
  apply keeps_ok; [apply rtn_entry_ok; [exact Hl|lia]|]. intros o. apply keeps_ok; [apply rtn_seen_ok; [exact Hl|lia]|]. intros seen.
  apply keeps_bind; [|intros f'; apply keeps_bind; [apply keeps_stage_step|]; intros _; apply keeps_ret].
  apply keeps_if; intros _; [apply keeps_ret|]. apply keeps_bind.
  - apply search_taint_keeps; [exact Hts|]. intros idx n Hidx Hn. apply rtn_try_keeps; auto; lia.
  - intros found. apply keeps_bind; [|intros _; apply keeps_ret]. apply keeps_if; intros _; [|apply keeps_ret].
    apply keeps_bind; [apply rtn_learn_keeps; auto; lia|]. intros _. apply rtn_learn_keeps; auto; lia.
Qed.
End Keep.

(** ** What never changes size

    Also when the search is broken off. *)

Definition sizes {W} (s : fz W) : nat * nat * nat := (length (out_buf s), length (stage_finds s), length (stage_cycles s)).

Section Frame.
Context {W : Type} `{Target W} (x : nat * nat * nat).
Abbreviation R := (M (W * its)).
Abbreviation fzi := (fz (W * its)).

Definition fr {A} (m : R A) : Prop := forall s s' r, sizes s = x -> m s = Ok (s', r) -> sizes s' = x.

Lemma fr_ret {A} (a : A) : fr (mret a).
Proof. intros s s' r Hs [= <- _]. exact Hs. Qed.

Lemma fr_bind {A B} (m : R A) (k : A -> R B) : fr m -> (forall a, fr (k a)) -> fr (m ≫= k).
Proof.
  intros Hm Hk s s' r Hs E. rewrite run_bind in E. destruct (m s) as [[s1 [a|]]|] eqn:Em; cbn [mbind res_bind] in E; [| |discriminate].
  - exact (Hk a s1 s' r (Hm _ _ _ Hs Em) E).
  - injection E as <- _. exact (Hm _ _ _ Hs Em).
Qed.

Lemma fr_get {A} (k : fzi -> R A) : (forall s, sizes s = x -> fr (k s)) -> fr (get ≫= k).
Proof. intros Hk s s' r Hs E. exact (Hk s Hs s s' r Hs E). Qed.

Lemma fr_put s : sizes s = x -> fr (put s).
Proof. intros Hs s0 s' r _ [= <- _]. exact Hs. Qed.

Lemma fr_lift {A} (m : res A) : fr (lift m).
Proof. intros s s' r Hs E. unfold lift in E. destruct m; [now injection E as <- _|discriminate]. Qed.

Lemma fr_exec_buf c : fr (exec_buf c).
Proof.
  intros s s' r Hs E. unfold exec_buf in E. destruct (common_fuzz_stuff _ _) as [[w b]|]; [|discriminate].
  now injection E as <- _.
Qed.

Lemma fr_memcpy p bs : fr (memcpy_out p bs).
Proof.
  apply fr_get. intros s <-. case_bool_decide as Hl; [|apply fr_lift]. apply fr_put. unfold sizes. cbn. now rewrite length_write_at.
Qed.

Lemma fr_for {A} (l : list A) (f : A -> R unit) : (forall a, fr (f a)) -> fr (for_ l f).
Proof. intros Hf. induction l as [|a l IH]; cbn [for_]; [apply fr_ret|now apply fr_bind]. Qed.

Lemma fr_for_with {A X} (l : list A) (f : X -> A -> R X) : (forall a y, fr (f y a)) -> forall y, fr (for_with l y f).
Proof. intros Hf. induction l as [|a l IH]; intros y; cbn [for_with]; [apply fr_ret|now apply fr_bind]. Qed.

Create HintDb frame.
#[local] Hint Resolve fr_ret fr_put fr_lift fr_exec_buf fr_memcpy : frame.
Ltac fr_step := match goal with
  | |- fr (get ≫= _) => apply fr_get; intros ? ?
  | |- fr (_ ≫= _) => apply fr_bind; [|intros ?]
  | |- fr (for_ _ _) => apply fr_for; intros ?
  | |- fr (for_with _ _ _) => apply fr_for_with; intros ? ?
  | |- fr (match ?b with _ => _ end) => destruct b
  | |- fr (let '_ := _ in _) => cbv zeta
  | |- fr _ => solve [auto 2 with frame nocore]
  end.
Ltac fr := cbv zeta; repeat fr_step.

Context (enable_transform enable_arith is_ascii : bool) (fresh : nat -> list Z) (orig_buf : list Z) (lvl : Z).

Lemma fr_get_its : fr get_its. Proof. unfold get_its. fr. Qed.
#[local] Hint Resolve fr_get_its : frame.
Lemma fr_get_status : fr get_status. Proof. unfold get_status. fr. Qed.
Lemma fr_on_its f : fr (on_its f). Proof. unfold on_its. fr. Qed.
#[local] Hint Resolve fr_get_status fr_on_its : frame.
Lemma fr_combine i bs : fr (combine i bs). Proof. unfold combine. fr. Qed.
Lemma fr_its_fuzz c : fr (its_fuzz c). Proof. unfold its_fuzz. fr. Qed.
Lemma fr_load k i : fr (load k i). Proof. unfold load. fr. Qed.
Lemma fr_its_len idx n : fr (its_len idx n). Proof. unfold its_len. fr. Qed.
Lemma fr_add_auto bs : fr (add_auto bs). Proof. unfold add_auto. fr. Qed.
Lemma fr_stage_step : fr stage_step. Proof. unfold stage_step. fr. Qed.
#[local] Hint Resolve fr_combine fr_its_fuzz fr_load fr_its_len fr_add_auto fr_stage_step : frame.
Lemma fr_try_bytes idx new : fr (try_bytes idx new). Proof. unfold try_bytes. fr. Qed.
Lemma fr_attempt idx new : fr (attempt_bytes idx new). Proof. unfold attempt_bytes. fr. Qed.
Lemma fr_unless_found m : fr m -> fr (unless_found m). Proof. intros Hm. unfold unless_found. fr. Qed.
#[local] Hint Resolve fr_try_bytes fr_attempt fr_unless_found : frame.
Lemma fr_try_width idx n k p r o a : fr (try_width orig_buf idx n k p r o a). Proof. unfold try_width. fr. Qed.
Lemma fr_try_numbers idx p r : fr (try_numbers is_ascii fresh idx p r). Proof. unfold try_numbers, try_number. fr. Qed.
Lemma fr_transform_width idx h : fr (transform_width idx h). Proof. unfold transform_width. fr. Qed.
#[local] Hint Resolve fr_try_width fr_try_numbers fr_transform_width : frame.

Lemma fr_search f idx n : forall hshape p r o c a rev,
  fr (cmp_extend_encoding enable_transform enable_arith is_ascii fresh orig_buf idx n lvl f hshape p r o c a rev).
Proof. induction f as [|f IH]; intros; cbn [cmp_extend_encoding]; fr. Qed.
Lemma fr_searchN f idx n : forall hshape p r o c rev, fr (cmp_extend_encodingN orig_buf idx n f hshape p r o c rev).
Proof. induction f as [|f IH]; intros; cbn [cmp_extend_encodingN]; fr. Qed.
#[local] Hint Resolve fr_search fr_searchN : frame.

Lemma fr_search_taint ts try : (forall idx n, fr (try idx n)) -> fr (search_taint ts try).
Proof.
  intros Ht. assert (Ho : forall idxs t, fr (over_taint try idxs t)).
  { induction idxs as [|i idxs IH]; intros t; cbn [over_taint]; cbv zeta; fr. }
  unfold search_taint. fr.
Qed.

Lemma fr_learn h o orig b : fr (cmp_learn is_ascii h o orig b).
Proof. unfold cmp_learn, try_to_add_to_dict, try_to_add_to_dictN. fr. Qed.
Lemma fr_count key b c : fr (count_pass key b c). Proof. unfold count_pass. fr. Qed.
#[local] Hint Resolve fr_learn fr_count : frame.

Lemma fr_cmp_fuzz key h lg orig_lg ts : fr (cmp_fuzz enable_transform enable_arith is_ascii fresh orig_buf lvl key h lg orig_lg ts).
Proof.
  unfold cmp_fuzz. apply fr_bind; [|intros []; fr]. apply fr_for_with. intros i [found d].
  do 3 (apply fr_bind; [fr|intros ?]). apply fr_bind; [|intros ?; fr]. case_match; [fr|]. apply fr_bind; [|intros ?; fr].
  apply fr_search_taint. intros idx n. unfold cmp_try. fr. all: apply fr_unless_found; fr. all: apply fr_unless_found; fr.
Qed.

Lemma fr_rtn_bytes f lg orig_lg p r idx i n : fr (rtn_bytes orig_buf f lg orig_lg p r idx i n).
Proof. revert i; induction f as [|f IH]; intros i; cbn [rtn_bytes]; fr. Qed.
#[local] Hint Resolve fr_rtn_bytes : frame.
Lemma fr_rtn_before lg orig_lg p r idx n pre save to : fr (rtn_before orig_buf lg orig_lg p r idx n pre save to).
Proof. unfold rtn_before. apply fr_unless_found. fr. Qed.
Lemma fr_rtn_attempts lg r idx i rs save v : fr (rtn_attempts lg r idx i rs save v).
Proof. unfold rtn_attempts. cbv zeta. do 3 (apply fr_bind; [fr|intros ?]). do 3 (apply fr_bind; [apply fr_unless_found; fr|intros ?]). fr. Qed.
#[local] Hint Resolve fr_rtn_before fr_rtn_attempts : frame.
Lemma fr_rtn_transforms f lg orig_lg p r idx n save : forall i v, fr (rtn_transforms orig_buf f lg orig_lg p r idx i n save v).
Proof. induction f as [|f IH]; intros i v; cbn [rtn_transforms]; cbv zeta; fr. Qed.
#[local] Hint Resolve fr_rtn_transforms : frame.
Lemma fr_rtn_extend hshape e lg orig_lg k idx n : fr (rtn_extend_encoding enable_transform fresh orig_buf lvl hshape e lg orig_lg k idx n).
Proof. unfold rtn_extend_encoding. cbv zeta. fr. all: apply fr_unless_found; fr. Qed.
#[local] Hint Resolve fr_rtn_extend : frame.

Lemma fr_rtn_fuzz key h lg orig_lg ts : fr (rtn_fuzz enable_transform is_ascii fresh orig_buf lvl key h lg orig_lg ts).
Proof.
  unfold rtn_fuzz. cbv zeta. apply fr_bind; [|intros ?; fr]. apply fr_for_with. intros i found.
  do 2 (apply fr_bind; [fr|intros ?]). apply fr_bind; [|intros ?; fr]. case_match; [fr|]. apply fr_bind.
  - apply fr_search_taint. intros idx n. unfold rtn_try. fr. apply fr_unless_found. fr.
  - intros ?. unfold rtn_learn. fr.
Qed.
End Frame.

(** ** The stage *)

Lemma keys_nat : Z.of_nat (Z.to_nat CMP_MAP_W) = CMP_MAP_W.
Proof. reflexivity. Qed.
#[local] Opaque CMP_MAP_W.

Section Stage.
Context {W : Type} `{Target W} `{CmpLog W} `{CmpRun W}.
Context (Lost : Prop) (I : W -> Prop) (tries map_size : nat).

(** What the stage needs of the fuzzer: what colorization does, that a run
    with CmpLog leaves a well-formed map, and that tokens and the virgin map
    can be stored. *)
Record cmp_laws : Prop := {
  cl_its : its_laws Lost I tries;
  cl_auto w t : I w -> bytes t -> exists w', maybe_add_auto w t = Ok w' /\ I w';
  cl_cmplog w m c : I w -> good c -> map_ok m ->
    or_fatal Lost (common_fuzz_cmplog_stuff w m c) (fun '(w', m', _) => I w' /\ map_ok m');
  cl_virgin w : I w -> bytes (virgin w) /\ length (virgin w) = map_size;
  cl_set_virgin w v : I w -> bytes v -> length v = map_size -> I (set_virgin v w)
}.
Context (laws : cmp_laws).
Abbreviation R := (M (W * its)).
Abbreviation fzi := (fz (W * its)).
Abbreviation keys := (Z.to_nat CMP_MAP_W).

(** Between stages; the buffer of the finds is anything. *)
Definition I0 (wt : W * its) : Prop := I wt.1 /\ bytes (scratch wt.2) /\ length (pass_stats wt.2) = keys.
Abbreviation wp := (StagesSafe.wp (dies Lost) I0).

Lemma its_its_laws : its_laws Lost I0 tries.
Proof.
  destruct laws as [[L1 L2 L3 L4] _ _ _ _]. split.
  - intros [w t] c [Hi Ht] Hc. cbn. specialize (L1 w c Hi Hc). destruct (common_fuzz_stuff w c) as [[w' b]|]; [|exact L1].
    split; [exact L1|exact Ht].
  - intros [w t] n [Hi Ht] Hn. destruct (L2 w n Hi Hn) as (k & w' & E & Hw & Hr). exists k, (w', t). cbn. rewrite E.
    split; [done|]. split; [split; [exact Hw|exact Ht]|exact Hr].
  - intros [w t] n x [Hi _] Hx Hn. destruct (L3 w n x Hi Hx Hn) as (j & Hj & Hh). exists j. split; [exact Hj|].
    clear - Hh. revert w Hh. induction j as [|j IH]; intros w Hh; cbn [hits] in *.
    + destruct Hh as [w' E]. exists (w', t). cbn in *. now rewrite E.
    + destruct Hh as (k & w' & E & Hh). exists k, (w', t). cbn in *. rewrite E. split; [done|]. now apply IH.
  - intros [w t] [Hi Ht]. cbn. specialize (L4 w Hi). destruct (now_us w). split; [exact L4|exact Ht].
Qed.

Lemma I2_I0 buf wt : RedqueenThms.I2 I buf keys wt -> I0 wt.
Proof. intros [Hi (_ & _ & T)]. split; [exact Hi|exact T]. Qed.

Lemma wp_weaken {A} buf (m : R A) s Q : StagesSafe.wp (dies Lost) (RedqueenThms.I2 I buf keys) m s Q -> wp m s Q.
Proof. unfold StagesSafe.wp. destruct (m s) as [[s' [y|]]|]; [auto|apply I2_I0|auto]. Qed.

Lemma wp_catch {A} (J : W * its -> Prop) (m : R A) s (P : A -> fzi -> Prop) (Q : option A -> fzi -> Prop) :
  StagesSafe.wp (dies Lost) J m s P -> (forall y s', m s = Ok (s', Some y) -> P y s' -> Q (Some y) s') ->
  (forall s', m s = Ok (s', None) -> J (world s') -> Q None s') -> wp (catch m) s Q.
Proof. unfold StagesSafe.wp, catch. destruct (m s) as [[s' [y|]]|e]; cbn [mbind res_bind]; auto. Qed.

Lemma wp_run_cmplog m buf s (Q : option cmp_map -> fzi -> Prop) :
  I0 (world s) -> good buf -> map_ok m ->
  (forall w r, I w -> (forall m', r = Some m' -> map_ok m') -> Q r (with_world (w, (world s).2) s)) ->
  wp (run_cmplog m buf) s Q.
Proof.
  intros [Hi Ht] Hb Hm HQ. unfold run_cmplog. apply wp_get, wp_bind.
  eapply wp_lift_stop; [exact (cl_cmplog laws _ _ _ Hi Hb Hm)|]. intros [[w m'] stop] [Hw Hm']. apply wp_bind, wp_put, wp_ret.
  apply HQ; [exact Hw|]. destruct stop; [discriminate|]. now intros ? [= <-].
Qed.

Lemma cleared_ok lg : Forall row_ok lg -> Z.of_nat (length lg) = CMP_MAP_W -> map_ok (mkCmpMap (replicate keys no_header) lg).
Proof.
  intros Hr Hl. split; cbn [headers log]; [rewrite length_replicate; exact keys_nat|exact Hl| |exact Hr].
  apply Forall_replicate. split; [cbn; lia|discriminate].
Qed.

Lemma zeros_ok : row_ok (replicate 1024 0).
Proof.
  split; [apply Forall_replicate; unfold is_byte; lia|apply length_replicate|].
  change 1024%nat with (512 + S 511)%nat. rewrite replicate_add, drop_app_length' by now rewrite length_replicate. now left.
Qed.

Context (enable_transform enable_arith is_ascii : bool) (fresh : nat -> list Z).
Context (fixed_seed random_colors : bool) (exec_us cmplog_lvl : Z) (orig_buf : list Z).
Context (Hfresh : forall n, length (fresh n) = n /\ bytes (fresh n)).
Context (Hno_transforms : enable_transform && (cmplog_lvl =? CMPLOG_LVL_MAX) = false).
Context (Hgood_orig : good orig_buf).

Definition its_lvl (e : its_entry) : Z := (if truthy (colorized e) then 0 else LVL1) + (if cmplog_lvl =? CMPLOG_LVL_MAX then LVL3 else 0).

Lemma usable_ok h p : header_ok h -> header_ok (usable h p).
Proof. intros Hh. unfold usable. case_match; exact Hh. Qed.

Lemma insertion_keeps buf e ts m orig : good buf -> length orig_buf = length buf -> map_ok m -> map_ok orig -> ts <> [] ->
  keeps Lost I buf keys (insertion enable_transform enable_arith is_ascii fresh orig_buf (its_lvl e) ts m orig).
Proof.
  intros Hb Hl Hm Ho Hts s Hs. pose proof Hs as [[Hi (T1 & T2 & T3 & T4)] Hbuf].
  unfold insertion, get_its. apply wp_bind, wp_get, wp_ret, wp_get, wp_bind, wp_put. set (hs := zip_with usable _ _).
  assert (Hhs : length hs = keys /\ Forall header_ok hs).
  { subst hs. split; [rewrite length_zip_with_l; pose proof (map_headers _ Hm); lia|].
    apply Forall_lookup. intros i h Hh. apply lookup_zip_with_Some in Hh as (h' & p & -> & Hh' & _).
    apply usable_ok. exact (proj1 (Forall_lookup _ _) (map_shapes _ Hm) _ _ Hh'). }
  destruct Hhs as [Hhl Hhs].
  assert (Hk : keeps Lost I buf keys (for_ (seq 0 keys)
    (fuzz_key enable_transform enable_arith is_ascii fresh orig_buf (its_lvl e) ts m orig hs))); [|apply Hk, Hs].
  apply keeps_for, Forall_forall. intros k Hk%elem_of_seq. unfold fuzz_key.
  destruct (rd_lt hs k ltac:(lia)) as (h & Eh & Hh). pose proof (proj1 (Forall_lookup _ _) Hhs _ _ Hh) as Hok.
  apply (keeps_lift _ _ _ _ _ _ (eq h)); [now exists h|]. intros ? <-. apply keeps_if; intros _; [apply keeps_ret|].
  assert (Hrow : forall mm, map_ok mm -> exists lg, rd (log mm) k = Ok lg /\ row_ok lg).
  { intros mm Hmm. pose proof (map_log _ Hmm). destruct (rd_lt (log mm) k ltac:(lia)) as (lg & E & Hlg).
    exists lg. split; [exact E|]. exact (proj1 (Forall_lookup _ _) (map_rows _ Hmm) _ _ Hlg). }
  apply (keeps_lift _ _ _ _ _ _ row_ok); [exact (Hrow m Hm)|]. intros lg Hlg.
  apply (keeps_lift _ _ _ _ _ _ row_ok); [exact (Hrow orig Ho)|]. intros olg Holg.
  assert (Hnt : enable_transform && truthy (its_lvl e .& LVL3) = false).
  { destruct enable_transform; [|done]. cbn [andb] in *. unfold its_lvl. rewrite Hno_transforms. now destruct (truthy (colorized e)). }
  pose proof (il_run _ _ _ (cl_its laws)) as Hrun. pose proof (cl_auto laws) as Hauto.
  apply keeps_if; [intros Ht%Z.eqb_eq; apply cmp_fuzz_keeps; auto; lia|intros _].
  apply keeps_if; intros _; [apply rtn_fuzz_keeps; auto; lia|apply keeps_ret].
Qed.

Lemma fr_insertion x e ts m orig :
  fr x (insertion enable_transform enable_arith is_ascii fresh orig_buf (its_lvl e) ts m orig).
Proof.
  unfold insertion. apply fr_bind; [apply fr_get_its|]. intros t. cbv zeta. apply fr_get. intros s Hs.
  apply fr_bind; [now apply fr_put|]. intros _. apply fr_for. intros k. unfold fuzz_key.
  apply fr_bind; [apply fr_lift|]. intros h. destruct (negb _); [apply fr_ret|].
  do 2 (apply fr_bind; [apply fr_lift|intros ?]).
  destruct (type h =? CMP_TYPE_INS); [apply fr_cmp_fuzz|]. case_match; [apply fr_rtn_fuzz|apply fr_ret].
Qed.

(** What is kept for the next level. *)
Definition kept (e : its_entry) (ts : list tainted) (buf : list Z) (e' : its_entry) (buf' : list Z) : Prop :=
  if cmplog_lvl =? CMPLOG_LVL_MAX then e' = mkEntry CMPLOG_LVL_MAX None None /\ buf' = buf
  else e' = mkEntry LVL2 (Some (default ts (taint e))) (Some (default buf (colorinput e))) /\
       buf' = match colorinput e with None => orig_buf | Some _ => buf end.

Lemma keep_colours_eq e ts (s : fzi) : exists e' buf', keep_colours cmplog_lvl orig_buf e ts s = Ok (with_buf buf' s, Some e') /\
  kept e ts (out_buf s) e' buf'.
Proof.
  unfold keep_colours, kept. rewrite bind_get. destruct (cmplog_lvl =? CMPLOG_LVL_MAX); [exists (mkEntry CMPLOG_LVL_MAX None None), (out_buf s); split; [now destruct s|done]|].
  destruct (colorinput e) as [b|].
  - exists (mkEntry LVL2 (match taint e with None => Some ts | t => t end) (Some b)), (out_buf s).
    split; [now destruct s|]. split; [|done]. now destruct (taint e).
  - eexists _, orig_buf. split; [reflexivity|]. split; [|done]. now destruct (taint e).
Qed.

Lemma bytes_land a b : bytes a -> bytes b -> bytes (zip_with Z.land a b).
Proof.
  intros Ha Hb. apply Forall_lookup. intros i y Hy. apply lookup_zip_with_Some in Hy as (p & q & -> & Hp & Hq).
  apply (land_range 8); [lia|apply (proj1 (Forall_lookup _ _) Ha _ _ Hp)|exact (proj1 (Forall_lookup _ _) Hb _ _ Hq)].
Qed.

Lemma its_fuzz_world c (s s' : fzi) r : its_fuzz c s = Ok (s', r) -> exists wt, s' = with_world wt s.
Proof.
  unfold its_fuzz. rewrite bind_get, run_bind. unfold exec_buf.
  destruct (common_fuzz_stuff _ _) as [[w [|]]|]; cbn [mbind res_bind]; [|rewrite bind_get|discriminate]; intros [= <- _]; [eauto|].
  rewrite with_world_twice. eauto.
Qed.

Lemma wp_run_combined h v (s : fzi) (Q : unit -> fzi -> Prop) : good (cbuf (world s).2) -> bytes v -> length v = map_size ->
  I0 (world s) -> (forall wt, I0 wt -> Q tt (with_world wt s)) -> wp (run_combined h v) s Q.
Proof.
  intros Hc Hv Hl Hi HQ. unfold run_combined, on_world. apply wp_get.
  destruct (_ <? _); [|apply wp_ret; rewrite <- (with_world_same s); now apply HQ].
  destruct Hi as [Hi Ht]. destruct (cl_virgin laws _ Hi) as [V1 V2]. cbv zeta.
  apply wp_bind, wp_get, wp_put.
  pose proof (cl_set_virgin laws _ _ Hi Hv Hl) as Hi1. set (s1 := with_world _ s).
  assert (Hfin : forall r s', its_fuzz (cbuf (world s).2) s1 = Ok (s', r) -> I0 (world s') ->
    wp (on_world (fun w => set_virgin (zip_with Z.land (virgin w) (virgin (world s).1)) w)) s' Q).
  { intros r s' E [Hi' Ht']. apply its_fuzz_world in E as [wt ->]. subst s1. rewrite with_world_twice in *. cbn [world with_world] in *.
    destruct (cl_virgin laws _ Hi') as [V3 V4]. apply wp_get, wp_put. rewrite with_world_twice. apply HQ. split; [|exact Ht'].
    cbn [world with_world fst]. apply (cl_set_virgin laws); [exact Hi'|now apply bytes_land|]. rewrite length_zip_with_l; lia. }
  apply wp_bind. eapply (wp_catch I0 _ _ (fun _ s' => I0 (world s'))).
  - apply (wp_weaken (cbuf (world s).2)).
    apply (wp_its_fuzz Lost I good (cbuf (world s).2) keys (il_run _ _ _ (cl_its laws))); [|exact Hc|intros wt; apply I2_I0].
    split; [exact Hi1|]. split; [apply Hc|]. split; [done|exact Ht].
  - intros [] s' E Hs'. now apply (Hfin (Some tt)).
  - intros s' E Hs'. now apply (Hfin None).
Qed.

Abbreviation insert := (its_insert enable_transform enable_arith is_ascii fresh cmplog_lvl orig_buf).
Abbreviation stage := (input_to_state_stage tries enable_transform enable_arith is_ascii fresh fixed_seed random_colors exec_us cmplog_lvl orig_buf).

(** The colours of an entry belong to an input of this length. *)
Definition fits (e : its_entry) : Prop := forall b, colorinput e = Some b -> length b = length orig_buf.

Definition inserted (e : its_entry) (ts : list tainted) (buf : list Z) (r : its_entry * bool) (s' : fzi) : Prop :=
  I0 (world s') /\ fits r.1 /\ (r.2 = false -> kept e ts buf r.1 (out_buf s')).

Lemma kept_fits e ts buf e' buf' : kept e ts buf e' buf' -> fits e -> length buf = length orig_buf -> fits e'.
Proof.
  unfold kept, fits. intros Hk He Hb b E. case_match; destruct Hk as [-> _]; [discriminate|]. cbn in E.
  destruct (colorinput e) as [c|]; cbn in E; injection E as <-; auto.
Qed.

(** Writing the statistics. *)
Lemma wp_its_stats (r : its_entry * bool) orig_hit_cnt orig_execs (s : fzi) (Q : its_entry * bool -> fzi -> Prop) :
  (STAGE_ITS < length (stage_finds s))%nat -> (STAGE_ITS < length (stage_cycles s))%nat ->
  (forall f c h, Q r (with_stats h f c s)) ->
  wp (s ← get;
      f ← lift (rd (stage_finds s) STAGE_ITS);
      c ← lift (rd (stage_cycles s) STAGE_ITS);
      let new_hit := hit_cnt (world s) in
      _ ← put (with_stats (new_hit_cnt s)
             (<[STAGE_ITS := u64 (f + (new_hit - orig_hit_cnt))]> (stage_finds s))
             (<[STAGE_ITS := u64 (c + (execs (world s).1 - orig_execs))]> (stage_cycles s)) s);
      mret r) s Q.
Proof.
  intros Hf Hc HQ. apply wp_get. destruct (rd_lt _ _ Hf) as (f & -> & _). destruct (rd_lt _ _ Hc) as (c & -> & _).
  apply wp_bind. eapply wp_lift; [reflexivity|]. apply wp_bind. eapply wp_lift; [reflexivity|]. apply wp_bind, wp_put, wp_ret, HQ.
Qed.

Lemma its_insert_spec e ts s : I0 (world s) -> good (out_buf s) -> length (out_buf s) = length orig_buf -> fits e -> ts <> [] ->
  (STAGE_ITS < length (stage_finds s))%nat -> (STAGE_ITS < length (stage_cycles s))%nat ->
  wp (insert e ts) s (inserted e ts (out_buf s)).
Proof.
  intros Hi Hb Hl He Hts Hf Hc. unfold its_insert. set (buf := out_buf s) in *. cbv zeta.
  assert (Hab : forall s', I0 (world s') -> inserted e ts buf (mkEntry CMPLOG_LVL_MAX (taint e) (colorinput e), true) s')
    by (intros s' Hs'; split; [exact Hs'|]; split; [exact He|discriminate]).
  assert (Hempty : map_ok (mkCmpMap (replicate keys no_header) (replicate keys (replicate 1024 0)))).
  { apply cleared_ok; [apply Forall_replicate, zeros_ok|rewrite length_replicate; exact keys_nat]. }
  apply wp_bind, wp_run_cmplog; [exact Hi|exact Hgood_orig|exact Hempty|]. intros w1 r1 I1 Hr1.
  destruct r1 as [orig|]; [|apply wp_ret, Hab; split; [exact I1|apply Hi]]. specialize (Hr1 orig eq_refl).
  apply wp_get, wp_bind, wp_run_cmplog; [split; [exact I1|apply Hi]|exact Hb|apply cleared_ok; apply Hr1|]. intros w2 r2 I2 Hr2.
  rewrite with_world_twice. cbn [world with_world snd]. destruct Hi as [_ Ht].
  destruct r2 as [m|]; [|apply wp_ret, Hab; split; [exact I2|exact Ht]]. specialize (Hr2 m eq_refl).
  apply wp_get. fold (its_lvl e). unfold on_its at 1. apply wp_bind, wp_get, wp_put. rewrite with_world_twice. cbn [world with_world fst snd].
  destruct (cl_virgin laws _ I2) as [V1 V2].
  set (s3 := with_world (w2, set_cbuf orig_buf (world s).2) s).
  assert (Hready : ready I buf keys s3).
  { split; [|reflexivity]. split; [exact I2|]. split; [apply Hgood_orig|]. split; [now symmetry|exact Ht]. }
  assert (Hrest : forall r s', RedqueenThms.I2 I buf keys (world s') -> sizes s' = sizes s -> (r = true -> out_buf s' = buf) ->
    forall h x,
    wp (e ← keep_colours cmplog_lvl orig_buf e ts;
        _ ← run_combined h (virgin w2);
        s ← get;
        f ← lift (rd (stage_finds s) STAGE_ITS);
        c ← lift (rd (stage_cycles s) STAGE_ITS);
        let new_hit := hit_cnt (world s) in
        _ ← put (with_stats (new_hit_cnt s)
               (<[STAGE_ITS := u64 (f + (new_hit - h))]> (stage_finds s))
               (<[STAGE_ITS := u64 (c + (execs (world s).1 - x))]> (stage_cycles s)) s);
        mret (e, negb r)) s' (inserted e ts buf)).
  { intros r s' Hs' Hsz Hr h x. injection Hsz as Z1 Z2 Z3.
    destruct (keep_colours_eq e ts s') as (e' & buf' & E & Hk). apply wp_bind, (wp_ok _ _ _ _ _ _ _ E), wp_bind.
    pose proof Hs' as [Hi' (C1 & C2 & C3)].
    apply wp_run_combined; [|exact V1|exact V2|exact (I2_I0 _ _ Hs')|].
    { unfold good. cbn [world with_buf]. rewrite C2. split; [exact C1|apply Hb]. }
    intros wt Hwt. apply wp_its_stats; [cbn; rewrite Z2; exact Hf|cbn; rewrite Z3; exact Hc|]. intros f c hh.
    split; [exact Hwt|]. split; [apply (kept_fits _ _ _ _ _ Hk He); now rewrite Z1|]. cbn [fst snd]. rewrite negb_false_iff.
    intros ->. rewrite (Hr eq_refl) in Hk. exact Hk. }
  apply wp_bind. eapply (wp_catch (RedqueenThms.I2 I buf keys)).
  - exact (insertion_keeps buf e ts m orig Hb ltac:(now symmetry) Hr2 Hr1 Hts s3 Hready).
  - intros [] s' E [R1 R2]. apply (Hrest true); [exact R1| |auto]. exact (fr_insertion _ e ts m orig s3 s' _ eq_refl E).
  - intros s' E R1. apply (Hrest false); [exact R1| |discriminate]. exact (fr_insertion _ e ts m orig s3 s' _ eq_refl E).
Qed.

Lemma fr_colorization x success :
  fr x (colorization tries fixed_seed exec_us random_colors cmplog_lvl success : R _).
Proof.
  assert (Hrand : forall n, fr x (rand n : R Z)).
  { intros n. apply fr_get. intros s Hs. apply fr_bind; [apply fr_lift|]. intros [k w]. apply fr_bind; [now apply fr_put|]. intros _. apply fr_ret. }
  assert (Hother : forall f c b, fr x c -> fr x (until_other f c b : R Z)).
  { induction f as [|f IH]; intros c b Hc; cbn [until_other]; [apply fr_lift|].
    apply fr_bind; [exact Hc|]. intros y. destruct (y =? b); [now apply IH|apply fr_ret]. }
  assert (Hall : forall f buf, (forall b, fr x (f b)) -> fr x (replace_all f buf : R _)).
  { intros f buf Hf. induction buf as [|b buf IH]; cbn [replace_all]; [apply fr_ret|].
    apply fr_bind; [apply Hf|]. intros c. apply fr_bind; [exact IH|]. intros l. apply fr_ret. }
  assert (Hexec : fr x (get_exec_checksum : R Z)).
  { apply fr_bind; [apply fr_get; intros s Hs; apply fr_exec_buf|]. intros _. apply fr_get. intros s Hs. apply fr_ret. }
  assert (Hnow : fr x (now : R Z)).
  { apply fr_get. intros s Hs. destruct (now_us (world s)) as [t w]. apply fr_bind; [now apply fr_put|]. intros _. apply fr_ret. }
  assert (Hstep : forall cksum b c i rs, fr x (color_step fixed_seed exec_us cksum b c i rs : R _)).
  { intros cksum b c i rs. unfold color_step. apply fr_bind; [apply fr_lift|]. intros rng. cbv zeta.
    apply fr_bind; [apply fr_lift|]. intros col. apply fr_bind; [apply fr_memcpy|]. intros _.
    do 3 (apply fr_bind; [assumption|intros ?]). apply fr_bind; [apply fr_stage_step|]. intros _. case_match; [|apply fr_ret].
    apply fr_bind; [apply fr_lift|]. intros old. apply fr_bind; [apply fr_memcpy|]. intros _. apply fr_ret. }
  assert (Hloop : forall f cksum b c rs, fr x (color_loop fixed_seed exec_us f cksum b c rs : R _)).
  { induction f as [|f IH]; intros cksum b c rs; cbn [color_loop]; apply fr_get; intros s Hs.
    - case_match; [|apply fr_ret]. destruct (stage_cur s <? stage_max s); [apply fr_lift|apply fr_ret].
    - case_match; [|apply fr_ret]. destruct (stage_cur s <? stage_max s); [|apply fr_ret].
      apply fr_bind; [apply Hstep|]. intros rs'. apply IH. }
  unfold colorization. apply fr_get. intros s Hs. cbv zeta. apply fr_bind; [now apply fr_put|]. intros _.
  apply fr_bind; [exact Hexec|]. intros cksum. apply fr_get. intros s1 Hs1. apply fr_bind.
  { unfold random_replace, type_replace. destruct random_colors; apply Hall; intros b; apply Hother; [apply Hrand|].
    unfold type_draw. destruct (List.find _ _) as [[lo hi]|]; [|apply fr_ret]. apply fr_bind; [apply Hrand|]. intros k. apply fr_ret. }
  intros changed. apply fr_bind; [apply Hloop|]. intros rs. apply fr_bind; [apply fr_lift|]. intros [ts positions].
  apply fr_get. intros s2 Hs2. do 2 (apply fr_bind; [apply fr_lift|intros ?]). apply fr_bind.
  { apply fr_put. rewrite <- Hs2. unfold sizes. cbn. now rewrite !length_insert. }
  intros _. destruct ts; [apply fr_ret|]. destruct (unsatisfactory _ _ _ _ _); apply fr_ret.
Qed.

(** Colours come with taints, and belong to this input. *)
Definition entry_ok (e : its_entry) : Prop :=
  match taint e, colorinput e with
  | Some ts, Some b => ts <> [] /\ bytes b /\ length b = length orig_buf
  | None, None => True
  | _, _ => False
  end.

(** What the stage leaves: the entry [e'], [colorize_success], whether to
    abandon the entry, and the buffer. *)
Definition its_done (e : its_entry) (success : Z) (r : its_entry * Z * bool) (s' : fzi) : Prop :=
  let '(e', success', stop) := r in
  let last := cmplog_lvl =? CMPLOG_LVL_MAX in
  let done := mkEntry CMPLOG_LVL_MAX None None in
  I0 (world s') /\ fits e' /\
  match taint e, colorinput e with
  | Some ts, Some b =>
      out_buf s' = orig_buf /\ success' = success /\
      (stop = false -> e' = if last then done else mkEntry LVL2 (Some ts) (Some b))
  | _, _ => stop = false -> exists ts b,
      maximal_runs (Z.of_nat (length orig_buf)) ts /\ coloured random_colors orig_buf ts b /\
      (e' = done /\ out_buf s' = b /\ (ts = [] \/ success <> 0 /\ cmplog_lvl < 3 \/ last = true) \/
       e' = mkEntry LVL2 (Some ts) (Some b) /\ ts <> [] /\ last = false /\ success' = u32 (success + 1) /\ out_buf s' = orig_buf)
  end.

Lemma colours_fit e : entry_ok e -> fits e.
Proof.
  unfold entry_ok, fits. destruct (taint e), (colorinput e); intros He b E; try done.
  injection E as <-. apply He.
Qed.

Lemma input_to_state_spec e success (s : fzi) : I0 (world s) -> out_buf s = orig_buf -> entry_ok e ->
  (STAGE_ITS < length (stage_finds s))%nat -> (STAGE_ITS < length (stage_cycles s))%nat ->
  wp (stage success e) s (its_done e success).
Proof.
  intros Hi Hb He Hf Hc. pose proof (colours_fit e He) as Hfit. unfold input_to_state_stage.
  destruct (taint e) as [ts|] eqn:Et, (colorinput e) as [b|] eqn:Ec; unfold entry_ok in He; rewrite Et, Ec in He; try done.
  - destruct He as (Hts & Bb & Lb). apply wp_get, wp_bind, wp_put, wp_bind. eapply wp_mono.
    { apply (its_insert_spec e ts); [exact Hi| |exact Lb|exact Hfit|exact Hts|exact Hf|exact Hc].
      unfold good. cbn [out_buf with_buf]. rewrite Lb. split; [exact Bb|apply Hgood_orig]. }
    intros [e' stop] s' (R1 & R2 & R3). apply wp_get, wp_bind, wp_put, wp_ret. unfold its_done. rewrite Et, Ec.
    split; [exact R1|]. split; [exact R2|]. split; [exact Hb|]. split; [done|]. intros ->. specialize (R3 eq_refl).
    unfold kept in R3. cbn [fst out_buf with_buf] in R3. rewrite Et, Ec in R3. case_match; apply R3.
  - pose proof its_its_laws as L. apply wp_bind.
    eapply (wp_catch I0); [apply (colorization_spec Lost I0 tries fixed_seed exec_us random_colors cmplog_lvl success s L Hi)| |].
    + rewrite Hb. exact Hgood_orig.
    + unfold STAGE_ITS in Hf. lia.
    + unfold STAGE_ITS in Hc. lia.
    + intros r s1 E (C1 & _ & _ & C4 & ts & Hmax & Hcol & Hr). rewrite Hb in Hmax, Hcol.
      assert (Hout : forall e' success' (stop : bool) s', I0 (world s') -> fits e' -> (stop = false ->
          e' = mkEntry CMPLOG_LVL_MAX None None /\ out_buf s' = out_buf s1 /\
            (ts = [] \/ success <> 0 /\ cmplog_lvl < 3 \/ (cmplog_lvl =? CMPLOG_LVL_MAX) = true) \/
          e' = mkEntry LVL2 (Some ts) (Some (out_buf s1)) /\ ts <> [] /\ (cmplog_lvl =? CMPLOG_LVL_MAX) = false /\
            success' = u32 (success + 1) /\ out_buf s' = orig_buf) ->
        its_done e success (e', success', stop) s').
      { intros e' success' stop s' Hi' Hf' Hd. unfold its_done. rewrite Et. split; [exact Hi'|]. split; [exact Hf'|].
        intros Hs. exists ts, (out_buf s1). split; [exact Hmax|]. split; [exact Hcol|exact (Hd Hs)]. }
      assert (Hsz : sizes s1 = sizes s) by exact (fr_colorization _ success s s1 _ eq_refl E). injection Hsz as Z1 Z2 Z3.
      destruct Hr as [[-> Hts]|[-> Hno]].
      * apply wp_bind. eapply wp_mono.
        { apply (its_insert_spec e ts); [exact C1| |rewrite Z1, Hb; done|exact Hfit|exact Hts|rewrite Z2; exact Hf|rewrite Z3; exact Hc].
          unfold good. rewrite Z1, Hb. split; [exact C4|apply Hgood_orig]. }
        intros [e' stop] s' (R1 & R2 & R3). apply wp_ret, Hout; [exact R1|exact R2|]. intros ->. specialize (R3 eq_refl).
        unfold kept in R3. cbn [fst] in R3. rewrite Et, Ec in R3. cbn [default] in R3.
        destruct (cmplog_lvl =? CMPLOG_LVL_MAX); destruct R3 as [-> ->]; [left; auto|right; auto].
      * apply wp_ret, Hout; [exact C1|intros b Eb; discriminate| ]. intros _. left. split; [now rewrite ?Et, ?Ec|]. intuition.
    + intros s' E Hi'. apply wp_ret. unfold its_done. rewrite Et. split; [exact Hi'|]. split; [exact Hfit|discriminate].
Qed.
End Stage.

(** ** The theorem *)

(** C6: Input-to-state fuzzing of an entry, below level 3 or with transforms
    off, when a run with CmpLog leaves a map the stage can read ([map_ok]:
    integers of 1, 2, 4 or 8 bytes only) and every value of a draw comes up
    within [tries] draws.  The whole stage (colours, the two runs with CmpLog, every logged
    comparison and routine at every tainted byte, the combined input) ends
    without an access out of bounds.  Unless the entry is to be abandoned, an
    entry with colours keeps them for the next level, or drops them at the last
    one, and the buffer is as it was; an entry without gets the taints, which
    are the maximal runs of replaced bytes, and the coloured input, and the
    buffer is the original input again -- or it gets none, since this is the
    last level, nothing could be coloured or the taints are not satisfactory,
    and then the coloured input stays in the buffer.  Colours that are kept always have the length
    of the input. *)
Theorem input_to_state_stage_correct {W} `{Target W} `{CmpLog W} `{CmpRun W} Lost I tries map_size
    enable_transform enable_arith is_ascii fresh fixed_seed random_colors exec_us cmplog_lvl orig_buf e success (s : fz (W * its)) :
  cmp_laws Lost I tries map_size ->
  (forall n, length (fresh n) = n /\ bytes (fresh n)) ->
  enable_transform && (cmplog_lvl =? CMPLOG_LVL_MAX) = false ->
  good orig_buf -> out_buf s = orig_buf -> I0 I (world s) -> entry_ok orig_buf e ->
  (STAGE_ITS < length (stage_finds s))%nat -> (STAGE_ITS < length (stage_cycles s))%nat ->
  match input_to_state_stage tries enable_transform enable_arith is_ascii fresh fixed_seed random_colors exec_us cmplog_lvl
          orig_buf success e s with
  | Ok (s', Some r) => its_done I random_colors cmplog_lvl orig_buf e success r s'
  | Ok (s', None) => I0 I (world s')
  | Err x => x = Fatal /\ Lost
  end.
Proof.
  intros L Hf Hn Hg Hb Hi He H1' H2'.
  exact (input_to_state_spec Lost I tries map_size L enable_transform enable_arith is_ascii fresh fixed_seed random_colors
    exec_us cmplog_lvl orig_buf Hf Hn Hg e success s Hi Hb He H1' H2').
Qed.

(** *** What modelling showed: transforms at level 3 *)

#[local] Existing Instance magic.

(** The log of one routine with these operands. *)
Definition one_routine (v0 v1 : list Z) : list Z :=
  let field v := v ++ replicate (31 - length v) 0 ++ [Z.of_nat (length v)] in field v0 ++ field v1 ++ replicate 960 0.

#[local] Abbreviation transform_at_0 orig o oo :=
  (rtn_extend_encoding true (fun n => replicate n 0) orig LVL3 8 false o oo 0 0 6).

(** The loop is left before it counts the byte it has changed, so that byte is
    not put back: the first is 8 now. *)
Lemma transforms_leave_a_byte :
  match transform_at_0 [71; 73; 70; 56; 57; 97] (one_routine [64; 67; 66; 69] [9; 9; 9; 9]) (one_routine [70; 72; 71; 57] [8; 8; 8; 8]) magic0 with
  | Ok (s', Some _) => out_buf magic0 = [65; 66; 67; 68; 57; 97] /\ out_buf s' = [8; 66; 67; 68; 57; 97]
  | _ => False
  end.
Proof. vm_compute. auto. Qed.

(** The digits with their prefix do not fit: "0x123" is the whole input. *)
Lemma hex_prefix_overflows :
  transform_at_0 [48; 120; 49; 50; 51] (one_routine [1; 2; 3; 4; 5] [6; 6; 6; 6; 6]) (one_routine [1; 2; 3; 4; 5] [6; 6; 6; 6; 6])
    (with_buf [49; 120; 49; 50; 51] magic0) = Err Fault.
Proof. vm_compute. reflexivity. Qed.

(** ** A fuzzer without comparisons *)

#[local] Existing Instance first_two.
#[local] Existing Instance still.
#[local] Instance no_cmps : CmpRun (Z * Z) := {|
  common_fuzz_cmplog_stuff w m c := Ok (w, m, false);
  virgin w := [255];
  set_virgin v w := w;
  execs w := 0
|}.

Definition six_its : fz ((Z * Z) * its) :=
  mkFz ((3, 0), mkIts 0 [] [] (replicate (Z.to_nat CMP_MAP_W) (0, 0))) [71; 73; 70; 56; 57; 97] 0 0 0 (replicate 32 0) (replicate 32 0) 0 0.

Lemma input_to_state_stage_correct_witness :
  match input_to_state_stage (Z.to_nat (2 ^ 32)) true true true (fun n => replicate n 0) true false 0 2
          [71; 73; 70; 56; 57; 97] 0 (mkEntry 0 None None) six_its with
  | Ok (s', Some r) => its_done (fun _ => True) false 2 [71; 73; 70; 56; 57; 97] (mkEntry 0 None None) 0 r s'
  | Ok (s', None) => I0 (fun _ => True) (world s')
  | Err x => x = Fatal /\ False
  end.
Proof.
  assert (L : cmp_laws False (fun _ : Z * Z => True) (Z.to_nat (2 ^ 32)) 1).
  { split; [apply first_two_laws; rewrite Z2Nat.id; lia|eauto| |split; [now apply bytesb_spec|done]|done].
    intros w m c _ _ Hm. split; [done|exact Hm]. }
  assert (Hf : forall n, length (replicate n 0) = n /\ bytes (replicate n 0)).
  { intros n. split; [apply length_replicate|]. apply Forall_replicate. unfold is_byte. lia. }
  assert (Hg : good [71; 73; 70; 56; 57; 97]) by (split; [now apply bytesb_spec|unfold MAX_FILE; cbn; lia]).
  assert (Hi : I0 (fun _ : Z * Z => True) (world six_its)).
  { split; [done|]. split; [constructor|]. cbn [world six_its snd pass_stats]. apply length_replicate. }
  assert (Hs : (STAGE_ITS < 32)%nat) by (unfold STAGE_ITS; lia).
  apply (input_to_state_stage_correct False (fun _ => True) (Z.to_nat (2 ^ 32)) 1 true true true (fun n => replicate n 0) true false 0 2
    [71; 73; 70; 56; 57; 97] (mkEntry 0 None None) 0 six_its L Hf eq_refl Hg eq_refl Hi Logic.I Hs Hs).
Defined.
