(* ===== verification/Protocol.v ===== *)
(** The protocol of the fork server: the fuzzer's side in
    [src/afl-forkserver.c] ([afl_fsrv_start] and the exchange of
    [afl_fsrv_run_target]) and the target's in
    [instrumentation/afl-compiler-rt.o.c] ([__afl_start_forkserver]).

    Each side is a process: the system calls it makes, in order.  A step of
    the system is one system call of one side, or the end of the child's run
    on the current test case.  Words are little-endian, pipes are never full,
    and the signal that kills a child is SIGKILL.  Nyx, the snapshot module
    and the faux server are left out. *)

From stdpp Require Import relations.
From S2P Require Import Prelude Words Arith.
#[local] Open Scope list_scope.
#[local] Open Scope Z_scope.

(** ** Processes *)

(** What the fuzzer learns of the target when it starts. *)
Record options := mkOptions { snapshot : bool; use_shmem_fuzz : bool; map_size : Z; real_map_size : Z; extras : list (list Z) }.

Inductive proc (R : Type) :=
  | Done (r : R)
  | Exit  (** [_exit(1)] or a [FATAL] *)
  | Write (bs : list Z) (k : proc R)
  | WriteSome (bs : list Z) (k : nat -> proc R)  (** a [write] that may be short *)
  | Read (n : nat) (k : list Z -> proc R)
  | ReadTimed (n : nat) (k : option (list Z) -> proc R)  (** [read_s32_timed] *)
  | Fork (k : Z -> proc R)
  | Cont (k : proc R)  (** SIGCONT to the child *)
  | Wait (untraced : bool) (k : Z -> proc R)  (** [waitpid(child_pid, &status, ...)] *)
  | Kill (pid : Z) (k : proc R)
  | Map_shm (k : proc R)  (** [__afl_map_shm_fuzz] *)
  | Up (o : options) (k : proc R)  (** the fuzzer takes the fork server for ready *)
  | Put (i : Z) (k : proc R)  (** [i] becomes the test case, the trace is cleared *)
  | Report (i status : Z) (timed_out : bool) (k : proc R).  (** the result of a run *)
Arguments Done {R}. Arguments Exit {R}. Arguments Write {R}. Arguments WriteSome {R}. Arguments Read {R}.
Arguments ReadTimed {R}. Arguments Fork {R}. Arguments Cont {R}. Arguments Wait {R}. Arguments Kill {R}.
Arguments Map_shm {R}. Arguments Up {R}. Arguments Put {R}. Arguments Report {R}.

Fixpoint proc_bind {A B} (m : proc A) (f : A -> proc B) : proc B :=
  match m with
  | Done r => f r
  | Exit => Exit
  | Write bs k => Write bs (proc_bind k f)
  | WriteSome bs k => WriteSome bs (fun n => proc_bind (k n) f)
  | Read n k => Read n (fun bs => proc_bind (k bs) f)
  | ReadTimed n k => ReadTimed n (fun bs => proc_bind (k bs) f)
  | Fork k => Fork (fun p => proc_bind (k p) f)
  | Cont k => Cont (proc_bind k f)
  | Wait u k => Wait u (fun st => proc_bind (k st) f)
  | Kill p k => Kill p (proc_bind k f)
  | Map_shm k => Map_shm (proc_bind k f)
  | Up o k => Up o (proc_bind k f)
  | Put i k => Put i (proc_bind k f)
  | Report i st t k => Report i st t (proc_bind k f)
  end.
#[export] Instance proc_mret : MRet proc := fun A => Done.
#[export] Instance proc_mbind : MBind proc := fun A B f m => proc_bind m f.

(** [write(fd, &x, 4)], and [read(fd, &x, 4)], which must give four bytes. *)
Definition word (x : Z) : list Z := le_store 4 (u32 x).
Definition write_word (x : Z) : proc unit := Write (word x) (mret tt).
Definition of_word (bs : list Z) : proc Z := if bool_decide (length bs = 4%nat) then mret (le_load bs) else Exit.
Definition read_word : proc Z := Read 4 of_word.

Definition WIFSTOPPED (status : Z) : bool := status .& 0xff =? 0x7f.
Definition has (status flags : Z) : bool := status .& flags =? flags.

(** ** The target *)

Record target_config := mkTarget { afl_map_size : Z; sharedmem_fuzzing : bool; dictionary : list Z; is_persistent : bool }.

(** [child_pid], [child_stopped], and the word that was already read. *)
Record tstate := mkT { child_pid : Z; child_stopped : bool; already_read : option Z }.

Section Target.
Context (c : target_config).

Definition has_dict : bool := negb (bool_decide (dictionary c = [])).

Definition status_for_fsrv : Z :=
  let st := if afl_map_size c <=? FS_OPT_MAX_MAPSIZE then FS_OPT_SET_MAPSIZE (afl_map_size c) .| FS_OPT_MAPSIZE else 0 in
  let st := if has_dict then st .| FS_OPT_AUTODICT else st in
  let st := if sharedmem_fuzzing c then st .| FS_OPT_SHDMEM_FUZZ else st in
  if truthy st then st .| (FS_OPT_ENABLED .| FS_OPT_NEWCMPLOG) else st.

(** [fuel] is the length of the dictionary. *)
Fixpoint send_dict (fuel : nat) (dict : list Z) : proc unit :=
  match dict, fuel with
  | [], _ => mret tt
  | _, O => Exit
  | _, S f => WriteSome dict (fun n => send_dict f (drop n dict))
  end.

(** From the answer to the hello on; [__afl_fuzz_ptr] is set by mapping the
    shared memory only. *)
Definition got_options (was_killed : Z) : proc tstate :=
  let mapped := has was_killed (FS_OPT_ENABLED .| FS_OPT_SHDMEM_FUZZ) in
  _ ← (if mapped then Map_shm (mret tt) else mret tt);
  if has was_killed (FS_OPT_ENABLED .| FS_OPT_AUTODICT) && has_dict then
    _ ← write_word (Z.of_nat (length (dictionary c)));
    _ ← send_dict (length (dictionary c)) (dictionary c);
    mret (mkT 0 false None)
  else mret (mkT 0 false (if mapped then None else Some was_killed)).

Definition after_hello : proc tstate :=
  if sharedmem_fuzzing c || has_dict then was_killed ← read_word; got_options was_killed else mret (mkT 0 false None).

Definition start_forkserver : proc tstate := _ ← write_word status_for_fsrv; after_hello.

(** The loop. *)
Definition serve_wait (pid : Z) : proc tstate :=
  status ← Wait (is_persistent c) mret;
  _ ← write_word status;
  mret (mkT pid (WIFSTOPPED status) None).

Definition serve_child (pid : Z) (stopped : bool) : proc tstate :=
  pid ← (if stopped then Cont (mret pid) else Fork mret);
  _ ← write_word pid;
  serve_wait pid.

Definition serve_killed (t : tstate) (was_killed : Z) : proc tstate :=
  stopped ← (if child_stopped t && truthy was_killed then _ ← Wait false mret; mret false else mret (child_stopped t));
  serve_child (child_pid t) stopped.

Definition serve (t : tstate) : proc tstate :=
  was_killed ← (match already_read t with Some w => mret w | None => read_word end);
  serve_killed t was_killed.
End Target.

(** ** The fuzzer *)

Record fuzzer_config := mkFuzzer {
  cmplog_binary : bool; support_shmem_fuzz : bool; fsrv_map_size : Z;
  ignore_autodict : bool; accepts_extras : bool; init_tmout : bool
}.

(** [last_run_timed_out], and the number of the next test case. *)
Record fstate := mkF { last_run_timed_out : bool; test : Z }.

Definition MAP_SIZE : Z := 65536.

Section Fuzzer.
Context (c : fuzzer_config).

Fixpoint recv_dict (fuel len : nat) (dict : list Z) : proc (list Z) :=
  match len, fuel with
  | O, _ => mret dict
  | _, O => Exit
  | _, S f => Read len (fun bs => match bs with [] => Exit | _ => recv_dict f (len - length bs) (dict ++ bs) end)
  end.

(** The entries, each after its length; [fuel] is the length. *)
Fixpoint parse_dict (fuel offset : nat) (dict : list Z) : list (list Z) :=
  match fuel with
  | O => []
  | S f =>
      match dict !! offset with
      | Some n =>
          if (Z.to_nat n + offset <? length dict)%nat
          then take (Z.to_nat n) (drop (S offset) dict) :: parse_dict f (offset + (1 + Z.to_nat n)) dict else []
      | None => []
      end
  end.

Definition got_shmem (status : Z) : proc bool :=
  if has status FS_OPT_SHDMEM_FUZZ then
    if negb (support_shmem_fuzz c) then Exit
    else
      _ ← (if (status .& FS_OPT_AUTODICT =? 0) || ignore_autodict c
           then write_word (FS_OPT_ENABLED .| FS_OPT_SHDMEM_FUZZ) else mret tt);
      mret true
  else mret false.

(** [map_size] and [real_map_size]. *)
Definition got_map_size (status : Z) : proc (Z * Z) :=
  if has status FS_OPT_MAPSIZE then
    let tmp_map_size := FS_OPT_GET_MAPSIZE status in
    let size := if fsrv_map_size c =? 0 then MAP_SIZE else fsrv_map_size c in
    let rounded := if truthy (tmp_map_size mod 64) then ((tmp_map_size + 63) .>> 6) .<< 6 else tmp_map_size in
    if size <? rounded then Exit else mret (rounded, tmp_map_size)
  else mret (fsrv_map_size c, 0).

Definition got_autodict (status : Z) (shmem : bool) : proc (list (list Z)) :=
  let flag := if shmem then FS_OPT_SHDMEM_FUZZ else 0 in
  if has status FS_OPT_AUTODICT && negb (ignore_autodict c) then
    if negb (accepts_extras c) then _ ← write_word (FS_OPT_ENABLED .| flag); mret []
    else
      _ ← write_word (FS_OPT_ENABLED .| FS_OPT_AUTODICT .| flag);
      len ← read_word;
      if (s32 len <? 2) || (0xffffff <? len) then Exit else
      dict ← recv_dict (Z.to_nat len) (Z.to_nat len) [];
      mret (parse_dict (length dict) 0 dict)
  else mret [].

Definition got_hello (status : Z) : proc options :=
  if has status FS_OPT_ERROR then Exit else
  if has status FS_OPT_ENABLED then
    let status := if has status 0x0f000000 then status .& 0xf0ffffff else status in
    if (status .& FS_OPT_NEWCMPLOG =? 0) && cmplog_binary c then Exit else
    shmem ← got_shmem status;
    '(size, real) ← got_map_size status;
    tokens ← got_autodict status shmem;
    mret (mkOptions (has status FS_OPT_SNAPSHOT) shmem size real tokens)
  else mret (mkOptions false false (fsrv_map_size c) 0 []).

Definition fsrv_up (o : options) : proc fstate := Up o (mret (mkF false 0)).

Definition fsrv_start : proc fstate :=
  status ← (if init_tmout c then ReadTimed 4 (fun r => match r with Some bs => of_word bs | None => Exit end) else read_word);
  o ← got_hello status;
  fsrv_up o.

(** One run: the request with [last_run_timed_out] of the run before, the
    child's pid, its status; a child that takes too long is killed. *)
Definition run_status (pid : Z) : proc (Z * bool) :=
  ReadTimed 4 (fun r =>
    match r with
    | Some bs => status ← of_word bs; mret (status, false)
    | None => Kill pid (status ← read_word; mret (status, true))
    end).

Definition run_report (f : fstate) (r : Z * bool) : proc fstate :=
  Report (test f) r.1 r.2 (mret (mkF r.2 (test f + 1))).

Definition run_pid (f : fstate) (pid : Z) : proc fstate :=
  if s32 pid <=? 0 then Exit else r ← run_status pid; run_report f r.

Definition run_request (f : fstate) : proc fstate :=
  _ ← write_word (b2z (last_run_timed_out f)); pid ← read_word; run_pid f pid.

Definition run_target (f : fstate) : proc fstate := Put (test f) (run_request f).
End Fuzzer.

(** ** The system *)

Inductive child := NoChild | Running | Stopped (reported : bool) | Zombie (status : Z).

(** The two pipes; the child; what was executed with which status, the latest
    run first; what the fuzzer was told; and three things that must not
    happen or have happened: children that were forgotten, a test case
    changed while a child ran, shared memory mapped. *)
Record sys := mkSys {
  tgt : proc tstate; fz : proc fstate;
  ctl : list Z; st : list Z;
  the_child : child; cur_pid : Z; input : Z;
  executed : list (Z * Z); results : list (Z * Z * bool); opts : option options;
  orphans : nat; torn : bool; mapped : bool
}.

Definition with_tgt (p : proc tstate) (s : sys) : sys :=
  mkSys p (fz s) (ctl s) (st s) (the_child s) (cur_pid s) (input s) (executed s) (results s) (opts s) (orphans s) (torn s) (mapped s).
Definition with_fz (p : proc fstate) (s : sys) : sys :=
  mkSys (tgt s) p (ctl s) (st s) (the_child s) (cur_pid s) (input s) (executed s) (results s) (opts s) (orphans s) (torn s) (mapped s).
Definition with_ctl (b : list Z) (s : sys) : sys :=
  mkSys (tgt s) (fz s) b (st s) (the_child s) (cur_pid s) (input s) (executed s) (results s) (opts s) (orphans s) (torn s) (mapped s).
Definition with_st (b : list Z) (s : sys) : sys :=
  mkSys (tgt s) (fz s) (ctl s) b (the_child s) (cur_pid s) (input s) (executed s) (results s) (opts s) (orphans s) (torn s) (mapped s).
Definition with_child (c : child) (pid : Z) (n : nat) (s : sys) : sys :=
  mkSys (tgt s) (fz s) (ctl s) (st s) c pid (input s) (executed s) (results s) (opts s) n (torn s) (mapped s).
Definition with_mapped (s : sys) : sys :=
  mkSys (tgt s) (fz s) (ctl s) (st s) (the_child s) (cur_pid s) (input s) (executed s) (results s) (opts s) (orphans s) (torn s) true.
Definition with_opts (o : options) (s : sys) : sys :=
  mkSys (tgt s) (fz s) (ctl s) (st s) (the_child s) (cur_pid s) (input s) (executed s) (results s) (Some o) (orphans s) (torn s) (mapped s).
Definition with_input (i : Z) (t : bool) (s : sys) : sys :=
  mkSys (tgt s) (fz s) (ctl s) (st s) (the_child s) (cur_pid s) i (executed s) (results s) (opts s) (orphans s) t (mapped s).
Definition with_executed (i status : Z) (s : sys) : sys :=
  mkSys (tgt s) (fz s) (ctl s) (st s) (the_child s) (cur_pid s) (input s) ((i, status) :: executed s) (results s) (opts s) (orphans s) (torn s) (mapped s).
Definition with_result (r : Z * Z * bool) (s : sys) : sys :=
  mkSys (tgt s) (fz s) (ctl s) (st s) (the_child s) (cur_pid s) (input s) (executed s) (r :: results s) (opts s) (orphans s) (torn s) (mapped s).

Definition killed (c : child) : child := match c with NoChild => NoChild | Zombie st => Zombie st | _ => Zombie 9 end.
Definition ended (status : Z) : child := if WIFSTOPPED status then Stopped false else Zombie status.

Section System.
Context (tc : target_config) (fc : fuzzer_config).

(** Both sides loop. *)
Definition tgt_next (p : proc tstate) : proc tstate := match p with Done t => serve tc t | _ => p end.
Definition fz_next (p : proc fstate) : proc fstate := match p with Done f => run_target f | _ => p end.

(** [n]: how much a short write writes, or the pid of a new child. *)
Definition tgt_step (n : nat) (s : sys) : option sys :=
  match tgt s with
  | Write bs k => Some (with_st (st s ++ bs) (with_tgt (tgt_next k) s))
  | WriteSome bs k =>
      if bool_decide (1 <= n <= length bs)%nat then Some (with_st (st s ++ take n bs) (with_tgt (tgt_next (k n)) s)) else None
  | Read m k =>
      match ctl s with [] => None | _ => Some (with_ctl (drop m (ctl s)) (with_tgt (tgt_next (k (take m (ctl s)))) s)) end
  | Fork k =>
      if (0 <? Z.of_nat n) && (Z.of_nat n <? 2 ^ 31)
      then let old := match the_child s with NoChild => O | _ => 1%nat end in
           Some (with_child Running (Z.of_nat n) (old + orphans s) (with_tgt (tgt_next (k (Z.of_nat n))) s))
      else None
  | Cont k =>
      let c := match the_child s with Stopped _ => Running | c => c end in
      Some (with_child c (cur_pid s) (orphans s) (with_tgt (tgt_next k) s))
  | Wait untraced k =>
      match the_child s with
      | Zombie status => Some (with_child NoChild (cur_pid s) (orphans s) (with_tgt (tgt_next (k status)) s))
      | Stopped false =>
          match executed s with
          | (_, status) :: _ =>
              if untraced then Some (with_child (Stopped true) (cur_pid s) (orphans s) (with_tgt (tgt_next (k status)) s)) else None
          | [] => None
          end
      | _ => None
      end
  | Map_shm k => Some (with_mapped (with_tgt (tgt_next k) s))
  | _ => None
  end.

Definition fz_step (timeout : bool) (s : sys) : option sys :=
  match fz s with
  | Write bs k => Some (with_ctl (ctl s ++ bs) (with_fz (fz_next k) s))
  | Read m k =>
      match st s with [] => None | _ => Some (with_st (drop m (st s)) (with_fz (fz_next (k (take m (st s)))) s)) end
  | ReadTimed m k =>
      if timeout then Some (with_fz (fz_next (k None)) s)
      else match st s with [] => None | _ => Some (with_st (drop m (st s)) (with_fz (fz_next (k (Some (take m (st s))))) s)) end
  | Kill pid k =>
      let c := if pid =? cur_pid s then killed (the_child s) else the_child s in
      Some (with_child c (cur_pid s) (orphans s) (with_fz (fz_next k) s))
  | Up o k => Some (with_opts o (with_fz (fz_next k) s))
  | Put i k =>
      let t := match the_child s with Running => true | _ => torn s end in
      Some (with_input i t (with_fz (fz_next k) s))
  | Report i status t k => Some (with_result (i, status, t) (with_fz (fz_next k) s))
  | _ => None
  end.

(** A running child reads the test case and ends with some status. *)
Definition child_step (status : Z) (s : sys) : option sys :=
  match the_child s with
  | Running =>
      if (0 <=? status) && (status <? 2 ^ 32)
      then Some (with_child (ended status) (cur_pid s) (orphans s) (with_executed (input s) status s)) else None
  | _ => None
  end.

Inductive act := Tgt (n : nat) | Fz (timeout : bool) | Chld (status : Z).

Definition exec (a : act) (s : sys) : option sys :=
  match a with Tgt n => tgt_step n s | Fz t => fz_step t s | Chld status => child_step status s end.

Fixpoint exec_all (l : list act) (s : sys) : option sys :=
  match l with [] => Some s | a :: l => s ← exec a s; exec_all l s end.

Definition step (s s' : sys) : Prop := exists a, exec a s = Some s'.

Definition start : sys :=
  mkSys (start_forkserver tc) (fsrv_start fc) [] [] NoChild 0 (-1) [] [] None 0 false false.
End System.
