(* ===== verification/ProtocolHello.v ===== *)
(** The hello of the fork server: the words on the pipes, the status word and
    its flags, and that the two sides agree on what it says. *)

From stdpp Require Import relations.
From S2P Require Import Prelude Words Arith Protocol.
#[local] Open Scope list_scope.
#[local] Open Scope Z_scope.

(** ** Words *)

Lemma word_length x : length (word x) = 4%nat.
Proof. apply length_le_store. Qed.

Lemma word_load x : 0 <= x < 2 ^ 32 -> le_load (word x) = x.
Proof. intros Hx. unfold word. rewrite le_load_store, (uwrap_id 32 x Hx). now apply (uwrap_id 32). Qed.

Lemma take_word x l : take 4 (word x ++ l) = word x.
Proof. apply take_app_length'. symmetry. apply word_length. Qed.

Lemma drop_word x l : drop 4 (word x ++ l) = l.
Proof. apply drop_app_length'. symmetry. apply word_length. Qed.

Lemma take_word' x : take 4 (word x) = word x.
Proof. apply take_ge. apply Nat.eq_le_incl, length_le_store. Qed.

Lemma drop_word' x : drop 4 (word x) = [].
Proof. apply drop_ge. apply Nat.eq_le_incl, length_le_store. Qed.

Lemma of_word_load x : 0 <= x < 2 ^ 32 -> of_word (word x) = Done x.
Proof. intros Hx. unfold of_word. rewrite bool_decide_eq_true_2 by apply word_length. now rewrite word_load. Qed.

Lemma word_not_nil x l : exists b r, word x ++ l = b :: r.
Proof. pose proof (word_length x). destruct (word x) as [|b r]; [discriminate|]. cbn. eauto. Qed.

Lemma s32_pid p : 0 < p < 2 ^ 31 -> (s32 p <=? 0) = false.
Proof. intros Hp. unfold s32, swrap. apply Z.leb_gt. rewrite Z.mod_small by lia. lia. Qed.

(** ** The hello *)

Section Hello.
Context (x : Z) (Hx : x .& 0xfffffe = x).

Lemma has_disjoint flags f : f .& 0xfffffe = 0 -> has (x .| flags) f = has flags f.
Proof.
  intros Hf. unfold has. rewrite Z.land_lor_distr_l. rewrite <- Hx at 1.
  rewrite <- Z.land_assoc, (Z.land_comm 0xfffffe), Hf, Z.land_0_r, Z.lor_0_l. reflexivity.
Qed.

Lemma land_disjoint flags f : f .& 0xfffffe = 0 -> (x .| flags) .& f = flags .& f.
Proof.
  intros Hf. rewrite Z.land_lor_distr_l. rewrite <- Hx at 1.
  now rewrite <- Z.land_assoc, (Z.land_comm 0xfffffe), Hf, Z.land_0_r, Z.lor_0_l.
Qed.

(** One bit that is asked for and not set is enough. *)
Lemma has_not flags f b : f .& b = b -> b .& 0xfffffe = 0 -> has flags b = false -> has (x .| flags) f = false.
Proof.
  intros Hf Hb Hn. apply not_true_iff_false. unfold has. rewrite Z.eqb_eq. intros E.
  assert (Hh : has (x .| flags) b = true).
  { unfold has. apply Z.eqb_eq. transitivity (((x .| flags) .& f) .& b); [now rewrite <- Z.land_assoc, Hf|now rewrite E]. }
  rewrite has_disjoint in Hh by done. congruence.
Qed.
End Hello.

Definition rounded_size (m : Z) : Z := if truthy (m mod 64) then ((m + 63) .>> 6) .<< 6 else m.

Section Agree.
Context (tc : target_config) (fc : fuzzer_config).

(** The pairs of a target and a fuzzer that can work together.  The last
    condition leaves out a target with a dictionary and without shared memory
    for a tool that takes no dictionary: [denied_dictionary_shifts_runs]. *)
Record compatible : Prop := {
  c_map : 2 <= afl_map_size tc <= FS_OPT_MAX_MAPSIZE;
  c_fits : rounded_size (afl_map_size tc) <= (if fsrv_map_size fc =? 0 then MAP_SIZE else fsrv_map_size fc);
  c_shm : sharedmem_fuzzing tc = true -> support_shmem_fuzz fc = true;
  c_dict : dictionary tc <> [] -> 2 <= Z.of_nat (length (dictionary tc)) <= 0xffffff;
  c_deny : has_dict tc && negb (ignore_autodict fc) && negb (accepts_extras fc) = true -> sharedmem_fuzzing tc = true
}.
Context (Hc : compatible).

Definition wants : bool := has_dict tc && negb (ignore_autodict fc) && accepts_extras fc.

(** What the fuzzer must learn. *)
Definition agreed : options :=
  mkOptions false (sharedmem_fuzzing tc) (rounded_size (afl_map_size tc)) (afl_map_size tc)
    (if wants then parse_dict (length (dictionary tc)) 0 (dictionary tc) else []).

(** The fuzzer's answer to the hello, if it sends one. *)
Definition answer : option Z :=
  let flag := if sharedmem_fuzzing tc then FS_OPT_SHDMEM_FUZZ else 0 in
  if wants then Some (FS_OPT_ENABLED .| FS_OPT_AUTODICT .| flag)
  else if sharedmem_fuzzing tc then Some (FS_OPT_ENABLED .| FS_OPT_SHDMEM_FUZZ) else None.


Definition dict_len (len : Z) : proc (list (list Z)) :=
  if (s32 len <? 2) || (0xffffff <? len) then Exit
  else dict ← recv_dict (Z.to_nat len) (Z.to_nat len) []; mret (parse_dict (length dict) 0 dict).

Definition with_tokens (tokens : list (list Z)) : proc options :=
  mret (mkOptions false (sharedmem_fuzzing tc) (rounded_size (afl_map_size tc)) (afl_map_size tc) tokens).

Let x := FS_OPT_SET_MAPSIZE (afl_map_size tc).

Definition hello_flags : Z :=
  (FS_OPT_MAPSIZE .| (if has_dict tc then FS_OPT_AUTODICT else 0)) .|
  ((if sharedmem_fuzzing tc then FS_OPT_SHDMEM_FUZZ else 0) .| (FS_OPT_ENABLED .| FS_OPT_NEWCMPLOG)).

Lemma set_mapsize : x = (afl_map_size tc - 1) .<< 1.
Proof.
  pose proof (c_map Hc) as Hm. unfold x, FS_OPT_SET_MAPSIZE in *.
  change FS_OPT_MAX_MAPSIZE with 8388608 in *.
  rewrite (proj2 (Z.leb_gt _ 1)), (proj2 (Z.ltb_ge 8388608 _)) by lia. cbn [orb].
  apply uwrap_id. rewrite Z.shiftl_mul_pow2 by lia. change (2 ^ 1) with 2. lia.
Qed.

Lemma map_bits : x .& 0xfffffe = x.
Proof.
  pose proof (c_map Hc) as Hm. change FS_OPT_MAX_MAPSIZE with 8388608 in Hm. rewrite set_mapsize.
  change 0xfffffe with (Z.ones 23 .<< 1). rewrite <- Z.shiftl_land, Z.land_ones by lia.
  rewrite Z.mod_small; [done|]. change (2 ^ 23) with 8388608. lia.
Qed.

Lemma map_nonzero : x <> 0.
Proof. pose proof (c_map Hc). rewrite set_mapsize, Z.shiftl_mul_pow2 by lia. lia. Qed.

Lemma hello_status : status_for_fsrv tc = x .| hello_flags.
Proof.
  unfold status_for_fsrv, hello_flags. rewrite (proj2 (Z.leb_le _ _)) by apply (c_map Hc). fold x.
  assert (Ht : forall y, truthy (x .| y) = true).
  { intros y. apply truthy_true. intros E. apply Z.lor_eq_0_iff in E as [E _]. exact (map_nonzero E). }
  destruct (has_dict tc), (sharedmem_fuzzing tc);
    rewrite ?Z.lor_0_r, <- ?Z.lor_assoc, Ht, <- ?Z.lor_assoc; reflexivity.
Qed.

Lemma hello_word : 0 <= status_for_fsrv tc < 2 ^ 32.
Proof.
  rewrite hello_status, set_mapsize. pose proof (c_map Hc) as Hm. change FS_OPT_MAX_MAPSIZE with 8388608 in Hm. apply lor_range; [lia| |].
  - rewrite Z.shiftl_mul_pow2 by lia. change (2 ^ 1) with 2. lia.
  - unfold hello_flags. destruct (has_dict tc), (sharedmem_fuzzing tc); split; (discriminate || reflexivity).
Qed.

Lemma hello_map_size flags : 0 <= flags < 2 ^ 32 -> flags .& 0xfffffe = 0 -> FS_OPT_GET_MAPSIZE (x .| flags) = afl_map_size tc.
Proof. intros H1 H2. now apply FS_OPT_MAPSIZE_roundtrip; [apply (c_map Hc)|..]. Qed.

Definition answer_then (k : proc options) : proc options := match answer with Some o => Write (word o) k | None => k end.

Lemma hello_size_fits : ((if fsrv_map_size fc =? 0 then MAP_SIZE else fsrv_map_size fc) <? rounded_size (afl_map_size tc)) = false.
Proof. apply Z.ltb_ge, (c_fits Hc). Qed.

(** The flags are literals once the four switches are known. *)
Ltac eval_flags :=
  rewrite ?(has_disjoint _ map_bits), ?(land_disjoint _ map_bits), ?hello_map_size by first [reflexivity|split; [discriminate|reflexivity]];
  repeat match goal with
  | |- context [has ?a ?b] => let v := eval vm_compute in (has a b) in change (has a b) with v
  | |- context [?a .& ?b =? 0] => let v := eval vm_compute in (a .& b =? 0) in change (a .& b =? 0) with v
  end.

Lemma hello_spec :
  got_hello fc (status_for_fsrv tc) =
  answer_then (if wants then proc_bind (proc_bind read_word dict_len) with_tokens else Done agreed).
Proof.
  rewrite hello_status. unfold got_hello, got_shmem, got_map_size, got_autodict, answer_then, answer, wants, agreed, wants, hello_flags.
  pose proof (c_deny Hc) as Hdeny. pose proof (c_shm Hc) as Hshm.
  destruct (has_dict tc) eqn:Hd, (sharedmem_fuzzing tc) eqn:Hs, (ignore_autodict fc) eqn:Hi, (accepts_extras fc) eqn:Ha;
    cbn [negb andb orb] in *; try (now specialize (Hdeny eq_refl)); try (rewrite Hshm by done);
    rewrite (has_not _ map_bits _ FS_OPT_ERROR 0x08000000) by reflexivity;
    rewrite !(has_not _ map_bits _ 0x0f000000 0x04000000) by reflexivity; cbv zeta; eval_flags; cbn [negb andb orb]; fold (rounded_size (afl_map_size tc)); rewrite hello_size_fits;
    unfold agreed, with_tokens, wants; rewrite ?Hd, ?Hs, ?Hi, ?Ha; reflexivity.
Qed.
End Agree.

(** ** The dictionary *)

Definition encode_dict (es : list (list Z)) : list Z := concat (map (fun e => Z.of_nat (length e) :: e) es).

Lemma parse_encoded fuel pre es :
  (length es <= fuel)%nat -> parse_dict fuel (length pre) (pre ++ encode_dict es) = es.
Proof.
  revert pre es. induction fuel as [|f IH]; intros pre [|e es] Hf; cbn [length] in Hf; try done; [lia| |].
  { cbn [parse_dict]. rewrite lookup_ge_None_2; [done|]. unfold encode_dict. cbn. rewrite app_nil_r. lia. }
  cbn [parse_dict]. rewrite lookup_app_r, Nat.sub_diag by lia. unfold encode_dict. cbn [map concat]. cbn [lookup list_lookup app].
  rewrite Nat2Z.id, (proj2 (Nat.ltb_lt _ _)) by (rewrite !length_app; cbn; rewrite length_app; lia).
  f_equal.
  - assert (E : forall a l, pre ++ a :: l = (pre ++ [a]) ++ l) by (intros; now rewrite <- app_assoc).
    rewrite E. replace (S (length pre)) with (length (pre ++ [Z.of_nat (length e)])) by (rewrite length_app; cbn; lia).
    rewrite drop_app_length. apply take_app_length.
  - replace (length pre + _)%nat with (length (pre ++ Z.of_nat (length e) :: e)) by (rewrite length_app; cbn; lia).
    rewrite <- (IH (pre ++ Z.of_nat (length e) :: e) es) at 2 by lia. f_equal. now rewrite <- app_assoc.
Qed.

Lemma encode_length es : (length es <= length (encode_dict es))%nat.
Proof. induction es as [|e es IH]; [done|]. unfold encode_dict in *. cbn. rewrite length_app. lia. Qed.
