(* ===== verification/ProtocolThms.v ===== *)
(** The fork server's protocol: in every interleaving of the fuzzer, the
    target and its children, both sides agree on the options and run in
    lockstep.  [J n s] lists the joint phases of the system; [n] bounds the
    steps to the next result. *)

From stdpp Require Import relations.
From S2P Require Import Prelude Words Arith Protocol ProtocolHello.
#[local] Open Scope list_scope.
#[local] Open Scope Z_scope.
#[local] Arguments word : simpl never.

(** ** Histories *)

(** Tests are executed at most once and in order. *)
Fixpoint once (i : Z) (ex : list (Z * Z)) : Prop :=
  match ex with [] => True | (j, _) :: ex => 0 <= j < i /\ once j ex end.

(** Every test up to [i] got its result. *)
Fixpoint numbered (i : Z) (rs : list (Z * Z * bool)) : Prop :=
  match rs with [] => i = 0 | (j, _, _) :: rs => j + 1 = i /\ numbered j rs end.

Record hist (i : Z) (ex : list (Z * Z)) (rs : list (Z * Z * bool)) : Prop := {
  h_pos : 0 <= i;
  h_once : once i ex;
  h_results : numbered i rs;
  h_told j status : (j, status, false) ∈ rs -> (j, status) ∈ ex
}.

(** What the run of test [i] may have added. *)
Definition grown (i : Z) (ex ex' : list (Z * Z)) : Prop := ex' = ex \/ exists status, ex' = (i, status) :: ex.

Lemma once_weaken i j ex : i <= j -> once i ex -> once j ex.
Proof. destruct ex as [|[k st] ex]; cbn; [done|]. intros ? [? ?]. split; [lia|done]. Qed.

Lemma once_grown i ex ex' : 0 <= i -> once i ex -> grown i ex ex' -> once (i + 1) ex'.
Proof.
  intros Hi Ho [->|[st ->]]; [eapply once_weaken; [|done]; lia|]. cbn. split; [lia|done].
Qed.

Lemma hist_next i ex rs ex' status to :
  hist i ex rs -> grown i ex ex' -> (to = false -> ex' = (i, status) :: ex) -> hist (i + 1) ex' ((i, status, to) :: rs).
Proof.
  intros [Hp Ho Hr Ht] Hg Hto. split; [lia|by eapply once_grown|by cbn|].
  intros j st Hin. apply elem_of_cons in Hin as [E|Hin].
  - injection E as E1 E2 E3. subst j st. rewrite Hto by done. apply elem_of_cons. by left.
  - apply Ht in Hin. destruct Hg as [->|[st' ->]]; [done|]. apply elem_of_cons. by right.
Qed.

Lemma numbered_length i rs : numbered i rs -> numbered (Z.of_nat (length rs)) rs.
Proof.
  intros H. replace (Z.of_nat (length rs)) with i; [done|]. revert i H. induction rs as [|[[j x] b] rs IH]; cbn; [done|].
  intros i [<- H]. rewrite (IH _ H). lia.
Qed.

Lemma once_nodup i ex : once i ex -> NoDup (map fst ex).
Proof.
  revert i. induction ex as [|[j st] ex IH]; intros i; [constructor|]. cbn. intros [Hj Ho].
  constructor; [|by eapply IH]. clear IH Hj i. revert j Ho. induction ex as [|[k st'] ex IH]; cbn; intros j Ho; [by apply not_elem_of_nil|].
  destruct Ho as [Hk Ho]. apply not_elem_of_cons. split; [lia|]. apply IH. eapply once_weaken; [|done]. lia.
Qed.

Definition status_word (x : Z) : Prop := 0 <= x < 2 ^ 32.

(** The child while its end was not reported. *)
Inductive live (i : Z) (killed : bool) (ex : list (Z * Z)) : child -> list (Z * Z) -> Prop :=
  | live_running : killed = false -> live i killed ex Running ex
  | live_ended x : killed = false -> status_word x -> live i killed ex (ended x) ((i, x) :: ex)
  | live_killed ex' x :
      killed = true -> status_word x -> WIFSTOPPED x = false -> grown i ex ex' -> live i killed ex (Zombie x) ex'.

(** The child after its end was reported as [x]. *)
Inductive idle_child (killed : bool) : bool -> child -> Prop :=
  | idle_none : idle_child killed false NoChild
  | idle_stopped : killed = false -> idle_child killed true (Stopped true)
  | idle_zombie x : killed = true -> status_word x -> idle_child killed true (Zombie x).

Record waited (i : Z) (killed : bool) (ex : list (Z * Z)) (x : Z) (c : child) (ex' : list (Z * Z)) : Prop := {
  w_status : status_word x;
  w_child : idle_child killed (WIFSTOPPED x) c;
  w_grown : grown i ex ex';
  w_true : killed = false -> ex' = (i, x) :: ex
}.

Lemma status_9 : status_word 9. Proof. unfold status_word. lia. Qed.
#[local] Hint Resolve status_9 : core.

Lemma kill_live i ex c ex' : live i false ex c ex' -> live i true ex (killed c) ex'.
Proof.
  intros H. inversion H; subst; cbn; [constructor 3; [done..|by left]| |discriminate].
  unfold ended. case_eq (WIFSTOPPED x); intros E; cbn; constructor 3; try done; right; eauto.
Qed.

Lemma kill_waited i ex x c ex' : waited i false ex x c ex' -> waited i true ex x (killed c) ex'.
Proof.
  intros [H1 H2 H3 H4]. split; try done. inversion H2; subst; cbn; try discriminate; by constructor.
Qed.

Lemma live_ends i k ex ex' x : live i k ex Running ex' -> status_word x -> live i k ex (ended x) ((i, x) :: ex').
Proof.
  intros H Hx. inversion H as [Hk|y Hk Hy Ey|]; subst; [by constructor|]. unfold ended in Ey. by destruct (WIFSTOPPED y).
Qed.

Lemma live_grown i k ex c ex' : live i k ex c ex' -> grown i ex ex'.
Proof. destruct 1; [by left|right; eauto|done]. Qed.

Section Lockstep.
Context (tc : target_config) (fc : fuzzer_config) (Hc : compatible tc fc).

(** ** The phases *)

(** The target waits for a request. *)
Definition idle (pid : Z) (cs : bool) : proc tstate := serve tc (mkT pid cs None).

(** The target after the hello; the fuzzer until its first request. *)
Inductive tphase := A_read | A_map | A_wait | A_idle.
Inductive fphase := F_up | F_put | F_req | F_sent.

Definition tphase_proc (p : tphase) : proc tstate :=
  match p with A_read | A_wait => tgt_next tc (after_hello tc) | A_map => Map_shm (mret (mkT 0 false None)) | A_idle => idle 0 false end.
Definition tphase_ok (p : tphase) : Prop :=
  match p with
  | A_read | A_map => sharedmem_fuzzing tc = true
  | A_wait => sharedmem_fuzzing tc = false /\ has_dict tc = true
  | A_idle => True
  end.
Definition tphase_ctl (p : tphase) : list Z := match p with A_read => word (FS_OPT_ENABLED .| FS_OPT_SHDMEM_FUZZ) | _ => [] end.
Definition tphase_mapped (p : tphase) : bool := match p with A_read | A_map => false | _ => sharedmem_fuzzing tc end.
Definition tphase_rank (p : tphase) : nat := match p with A_read => 2 | A_map => 1 | _ => 0 end.

Definition fphase_proc (p : fphase) (f : fstate) : proc fstate :=
  match p with
  | F_up => fsrv_up (agreed tc fc)
  | F_put => run_target f
  | F_req => run_request f
  | F_sent => x ← read_word; run_pid f x
  end.
Definition fphase_ctl (p : fphase) (f : fstate) : list Z := match p with F_sent => word (b2z (last_run_timed_out f)) | _ => [] end.
Definition fphase_opts (p : fphase) : option options := match p with F_up => None | _ => Some (agreed tc fc) end.
Definition fphase_input (p : fphase) (i input : Z) : Prop := match p with F_up | F_put => True | _ => input = i end.
Definition fphase_rank (p : fphase) : nat := match p with F_up => 15 | F_put => 14 | F_req => 13 | F_sent => 12 end.

(** The dictionary on its way. *)
Inductive dphase := D_read | D_map | D_len.
Definition send_next (fuel : nat) (rest : list Z) : proc tstate :=
  tgt_next tc (proc_bind (send_dict fuel rest) (fun _ => mret (mkT 0 false None))).
Definition send_len : proc tstate :=
  _ ← write_word (Z.of_nat (length (dictionary tc))); _ ← send_dict (length (dictionary tc)) (dictionary tc); mret (mkT 0 false None).
Definition wish : Z := default 0 (answer tc fc).
Definition dphase_proc (p : dphase) : proc tstate :=
  match p with D_read => tgt_next tc (after_hello tc) | D_map => Map_shm send_len | D_len => send_len end.
Definition dphase_mapped (p : dphase) : bool := match p with D_len => sharedmem_fuzzing tc | _ => false end.
Definition dphase_ctl (p : dphase) : list Z := match p with D_read => word wish | _ => [] end.
Definition dphase_rank (p : dphase) : nat := match p with D_read => 3 | D_map => 2 | D_len => 1 end.
Definition recv_len : proc fstate := proc_bind (proc_bind (proc_bind read_word dict_len) (with_tokens tc)) fsrv_up.
Definition recv_next (fuel : nat) (got : list Z) : proc fstate :=
  fz_next (proc_bind (proc_bind (proc_bind (recv_dict fuel (length (dictionary tc) - length got) got)
    (fun dict => mret (parse_dict (length dict) 0 dict))) (with_tokens tc)) fsrv_up).

(** A run: the target's phase with the status it got, the fuzzer's phase. *)
Inductive trun := T_pid | T_wait | T_status (x : Z) | T_ready (x : Z).
Inductive frun := R_pid | R_timed | R_kill | R_status.
Definition trun_proc (pid : Z) (p : trun) : proc tstate :=
  match p with
  | T_pid => _ ← write_word pid; serve_wait tc pid
  | T_wait => serve_wait tc pid
  | T_status x => _ ← write_word x; mret (mkT pid (WIFSTOPPED x) None)
  | T_ready x => idle pid (WIFSTOPPED x)
  end.
Definition run_end (pid : Z) (f : fstate) : proc fstate := proc_bind (status ← read_word; mret (status, true)) (run_report f).
Definition frun_proc (pid : Z) (f : fstate) (p : frun) : proc fstate :=
  match p with
  | R_pid => x ← read_word; run_pid f x
  | R_timed => r ← run_status pid; run_report f r
  | R_kill => Kill pid (run_end pid f)
  | R_status => run_end pid f
  end.
Definition was_killed (p : frun) : bool := match p with R_status => true | _ => false end.
Definition run_pipe (pid : Z) (t : trun) (f : frun) : list Z :=
  match f, t with R_pid, T_pid => [] | R_pid, _ => word pid | _, _ => [] end ++ match t with T_ready x => word x | _ => [] end.
Definition run_child (i : Z) (ex : list (Z * Z)) (t : trun) (f : frun) : child -> list (Z * Z) -> Prop :=
  match t with T_pid | T_wait => live i (was_killed f) ex | T_status x | T_ready x => waited i (was_killed f) ex x end.
Definition run_possible (t : trun) (f : frun) : Prop := match t, f with T_pid, R_pid => True | T_pid, _ => False | _, _ => True end.
Definition trun_rank (t : trun) : nat := match t with T_pid => 3 | T_wait => 2 | T_status _ => 1 | T_ready _ => 0 end.
Definition frun_rank (f : frun) : nat := match f with R_pid => 5 | R_timed => 4 | R_kill => 3 | R_status => 2 end.
Definition child_rank (c : child) : nat := match c with Running => 1 | _ => 0 end.

Definition pid_ok (pid : Z) : Prop := 0 < pid < 2 ^ 31.
#[local] Abbreviation L := (length (dictionary tc)).
#[local] Abbreviation shm := (sharedmem_fuzzing tc).
#[local] Abbreviation ready := (Some (agreed tc fc)).

Inductive J : nat -> sys -> Prop :=
  | J_start : J (23 + 2 * L) (start tc fc)
  | J_lost_hello : init_tmout fc = true -> J 1 (mkSys (start_forkserver tc) Exit [] [] NoChild 0 (-1) [] [] None 0 false false)
  | J_lost : init_tmout fc = true ->
      J 0 (mkSys (tgt_next tc (after_hello tc)) Exit [] (word (status_for_fsrv tc)) NoChild 0 (-1) [] [] None 0 false false)
  | J_hello :
      J (22 + 2 * L) (mkSys (tgt_next tc (after_hello tc)) (fsrv_start fc) [] (word (status_for_fsrv tc)) NoChild 0 (-1) [] [] None 0 false false)
  | J_answer w : answer tc fc = Some w ->
      J (21 + 2 * L) (mkSys (tgt_next tc (after_hello tc))
        (Write (word w) (proc_bind (if wants tc fc then proc_bind (proc_bind read_word dict_len) (with_tokens tc) else Done (agreed tc fc)) fsrv_up))
        [] [] NoChild 0 (-1) [] [] None 0 false false)
  | J_setup t f inp : tphase_ok t -> fphase_input f 0 inp ->
      J (tphase_rank t + fphase_rank f) (mkSys (tphase_proc t) (fphase_proc f (mkF false 0)) (tphase_ctl t ++ fphase_ctl f (mkF false 0)) []
        NoChild 0 inp [] [] (fphase_opts f) 0 false (tphase_mapped t))
  | J_dict d : wants tc fc = true -> (d = D_map -> shm = true) ->
      J (17 + 2 * L + dphase_rank d) (mkSys (dphase_proc d) recv_len (dphase_ctl d) [] NoChild 0 (-1) [] [] None 0 false (dphase_mapped d))
  | J_dict_len fuel rest pend : wants tc fc = true -> (length rest <= fuel)%nat -> pend ++ rest = dictionary tc ->
      J (17 + L + length rest)
        (mkSys (send_next fuel rest) recv_len [] (word (Z.of_nat L) ++ pend) NoChild 0 (-1) [] [] None 0 false shm)
  | J_dict_recv fuel rest pend fuel' got :
      wants tc fc = true -> (length rest <= fuel)%nat -> (length (pend ++ rest) <= fuel')%nat -> got ++ pend ++ rest = dictionary tc ->
      pend ++ rest <> [] ->
      J (16 + (L - length got) + length rest)
        (mkSys (send_next fuel rest) (recv_next fuel' got) [] pend NoChild 0 (-1) [] [] None 0 false shm)
  | J_idle f pid cs to i c inp ex rs :
      f <> F_up -> hist i ex rs -> idle_child to cs c -> pid_ok pid -> fphase_input f i inp ->
      J (fphase_rank f) (mkSys (idle pid cs) (fphase_proc f (mkF to i)) (fphase_ctl f (mkF to i)) [] c pid inp ex rs ready 0 false shm)
  | J_reap pid to0 i x ex rs : hist i ex rs -> pid_ok pid -> status_word x ->
      J 11 (mkSys (Wait false (fun _ => serve_child tc pid false)) (fphase_proc F_sent (mkF to0 i)) [] [] (Zombie x) pid i ex rs ready 0 false shm)
  | J_serve pid pid0 to0 i ex rs (cs : bool) : hist i ex rs -> (cs = true -> pid = pid0 /\ pid_ok pid) ->
      J 10 (mkSys (serve_child tc pid cs) (fphase_proc F_sent (mkF to0 i)) [] [] (if cs then Stopped true else NoChild) pid0 i ex rs ready 0 false shm)
  | J_run t f pid to0 i c ex ex' rs : hist i ex rs -> run_possible t f -> pid_ok pid -> run_child i ex t f c ex' ->
      J (trun_rank t + frun_rank f + child_rank c)
        (mkSys (trun_proc pid t) (frun_proc pid (mkF to0 i) f) [] (run_pipe pid t f) c pid i ex' rs ready 0 false shm)
  | J_report pid to0 x to i c ex ex' rs : hist i ex rs -> pid_ok pid -> waited i to ex x c ex' ->
      J 1 (mkSys (idle pid (WIFSTOPPED x)) (run_report (mkF to0 i) (x, to)) [] [] c pid i ex' rs ready 0 false shm).

(** One step gets closer to the next result, or reports one. *)
Definition goes (n : nat) (rs : list (Z * Z * bool)) (s : sys) : Prop :=
  exists n', J n' s /\ (n' + 1 + 14 * length rs <= n + 14 * length (results s))%nat.

Lemma goes_to n n' rs s : J n' s -> results s = rs -> (n' < n)%nat -> goes n rs s.
Proof. intros HJ <- Hn. exists n'. split; [done|lia]. Qed.

(** ** Reading a word *)

Lemma tgt_reads n s k x l :
  tgt s = Read 4 (fun bs => proc_bind (of_word bs) k) -> ctl s = word x ++ l -> status_word x ->
  tgt_step tc n s = Some (with_ctl l (with_tgt (tgt_next tc (k x)) s)).
Proof.
  intros Ht Hp Hx. unfold tgt_step. rewrite Ht, Hp, take_word, drop_word, of_word_load by done.
  destruct (word_not_nil x l) as (b & r & ->). reflexivity.
Qed.

Lemma fz_reads to s k x l p :
  fz s = Read 4 k -> st s = word x ++ l -> k (word x) = p -> fz_step to s = Some (with_st l (with_fz (fz_next p) s)).
Proof.
  intros Ht Hp <-. unfold fz_step. rewrite Ht, Hp, take_word, drop_word.
  destruct (word_not_nil x l) as (b & r & ->). reflexivity.
Qed.

Lemma fz_reads_timed s k x l p :
  fz s = ReadTimed 4 k -> st s = word x ++ l -> k (Some (word x)) = p -> fz_step false s = Some (with_st l (with_fz (fz_next p) s)).
Proof.
  intros Ht Hp <-. unfold fz_step. rewrite Ht, Hp, take_word, drop_word.
  destruct (word_not_nil x l) as (b & r & ->). reflexivity.
Qed.

(** ** A run *)

Section Run.
Context (i : Z) (ex : list (Z * Z)) (rs : list (Z * Z * bool)) (pid : Z) (to0 : bool).
Context (Hh : hist i ex rs) (Hpid : pid_ok pid).

Definition run_sys (t : trun) (f : frun) (c : child) (ex' : list (Z * Z)) : sys :=
  mkSys (trun_proc pid t) (frun_proc pid (mkF to0 i) f) [] (run_pipe pid t f) c pid i ex' rs ready 0 false shm.

Lemma goes_run n t f c ex' :
  run_possible t f -> run_child i ex t f c ex' -> (trun_rank t + frun_rank f + child_rank c < n)%nat -> goes n rs (run_sys t f c ex').
Proof. intros Hp Hr Hn. eapply goes_to; [by eapply J_run|done..]. Qed.

Lemma pid_word : status_word pid.
Proof. unfold pid_ok, status_word in *. lia. Qed.

Lemma run_waits n f c ex' s' :
  run_possible T_wait f -> run_child i ex T_wait f c ex' -> tgt_step tc n (run_sys T_wait f c ex') = Some s' ->
  goes (2 + frun_rank f + child_rank c) rs s'.
Proof.
  intros Hp Hr. cbn in Hr. inversion Hr as [Hk|x Hk Hx|ex2 x Hk Hx Hs Hg]; subst; [discriminate| |].
  - unfold ended. case_eq (WIFSTOPPED x); intros Es; cbn; [case_match; [|discriminate]|]; intros [= <-].
    all: eapply (goes_run _ (T_status x)); [by destruct f| |cbn; lia].
    all: cbn; split; [done|rewrite Es; by constructor|right; eauto|done].
  - cbn. intros [= <-]. eapply (goes_run _ (T_status x)); [by destruct f| |cbn; lia].
    cbn. split; [done|rewrite Hs; constructor|done|congruence].
Qed.

Lemma run_tgt n t f c ex' s' :
  run_possible t f -> run_child i ex t f c ex' -> tgt_step tc n (run_sys t f c ex') = Some s' ->
  goes (trun_rank t + frun_rank f + child_rank c) rs s'.
Proof.
  intros Hp Hr. destruct t as [| |x|x]; [|by apply run_waits| |discriminate].
  - cbn. intros [= <-]. destruct f; try done. eapply (goes_run _ T_wait R_pid); [done..|cbn; lia].
  - intros [= <-]. replace (with_st _ _) with (run_sys (T_ready x) f c ex') by (by destruct f).
    eapply goes_run; [by destruct f|done|cbn; lia].
Qed.

Lemma run_pid_starts f : run_pid f pid = (r ← run_status pid; run_report f r).
Proof. unfold run_pid. now rewrite s32_pid. Qed.

(** The status in the pipe ends the run. *)
Lemma goes_report n to x c ex' :
  waited i to ex x c ex' -> (1 < n)%nat ->
  goes n rs (mkSys (idle pid (WIFSTOPPED x)) (run_report (mkF to0 i) (x, to)) [] [] c pid i ex' rs ready 0 false shm).
Proof. intros Hw Hn. eapply goes_to; [by eapply J_report|done..]. Qed.

Lemma run_fz to t f c ex' s' :
  run_possible t f -> run_child i ex t f c ex' -> fz_step to (run_sys t f c ex') = Some s' ->
  goes (trun_rank t + frun_rank f + child_rank c) rs s'.
Proof.
  intros Hp Hr. destruct f.
  - assert (t = T_pid \/ t <> T_pid) as [->|Ht] by (destruct t; auto); [discriminate|].
    erewrite (fz_reads _ _ _ pid (run_pipe pid t R_timed) (frun_proc pid (mkF to0 i) R_timed)); [|reflexivity|..].
    + intros [= <-]. eapply (goes_run _ t R_timed); [by destruct t|by destruct t|cbn; lia].
    + destruct t; try done; cbn; now rewrite ?app_nil_r.
    + cbv beta. rewrite of_word_load by apply pid_word. apply run_pid_starts.
  - destruct to.
    + cbn. intros [= <-]. eapply (goes_run _ t R_kill); [by destruct t|by destruct t|cbn; lia].
    + destruct t as [| | |x]; [done..|].
      erewrite (fz_reads_timed _ _ x [] (run_report (mkF to0 i) (x, false))); [|reflexivity|cbn; now rewrite app_nil_r|].
      * intros [= <-]. apply goes_report; [done|cbn; lia].
      * cbn. now rewrite of_word_load by apply Hr.
  - cbn. rewrite Z.eqb_refl. intros [= <-]. destruct t as [| |x|x]; [done|..].
    + eapply (goes_run _ T_wait R_status); [done|by apply kill_live|]. destruct c; cbn; lia.
    + eapply (goes_run _ (T_status x) R_status); [done|by apply kill_waited|]. destruct c; cbn; lia.
    + eapply (goes_run _ (T_ready x) R_status); [done|by apply kill_waited|]. destruct c; cbn; lia.
  - destruct t as [| | |x]; [done..|].
    erewrite (fz_reads _ _ _ x [] (run_report (mkF to0 i) (x, true))); [|reflexivity|cbn; now rewrite app_nil_r|].
    + intros [= <-]. apply goes_report; [done|cbn; lia].
    + cbn. now rewrite of_word_load by apply Hr.
Qed.

Lemma run_chld x t f c ex' s' :
  run_possible t f -> run_child i ex t f c ex' -> child_step x (run_sys t f c ex') = Some s' ->
  goes (trun_rank t + frun_rank f + child_rank c) rs s'.
Proof.
  intros Hp Hr. unfold child_step. cbn [the_child run_sys]. destruct c; try done. case_match eqn:Hx; [|done]. intros [= <-].
  apply andb_prop in Hx as [H1 H2]. apply Z.leb_le in H1. apply Z.ltb_lt in H2.
  assert (Hl : (t = T_pid \/ t = T_wait) /\ live i (was_killed f) ex Running ex').
  { destruct t; cbn in Hr; auto; destruct Hr as [_ Hi _ _]; inversion Hi. }
  destruct Hl as [Ht Hl]. eapply (goes_run _ t f (ended x) ((i, x) :: ex')); [done| |].
  - destruct Ht as [-> | ->]; by apply live_ends.
  - unfold ended. destruct (WIFSTOPPED x); cbn; lia.
Qed.

Lemma run_step a t f c ex' s' :
  run_possible t f -> run_child i ex t f c ex' -> exec tc a (run_sys t f c ex') = Some s' ->
  goes (trun_rank t + frun_rank f + child_rank c) rs s'.
Proof. destruct a; [apply run_tgt|apply run_fz|apply run_chld]. Qed.

(** A run never gets stuck: the last way out is the fuzzer's timeout. *)
Lemma run_moves t f c ex' :
  run_possible t f -> run_child i ex t f c ex' -> exists a s', exec tc a (run_sys t f c ex') = Some s'.
Proof.
  intros Hp Hr. destruct f.
  - destruct t as [| | |]; [exists (Tgt 0)|exists (Fz false)..]; cbn [exec]; [eauto|..];
      (erewrite (fz_reads _ _ _ pid); [eauto|reflexivity..]).
  - exists (Fz true). cbn. eauto.
  - exists (Fz true). cbn. eauto.
  - destruct t as [| |x|x]; [done|exists (Tgt 0)..|exists (Fz false)]; cbn [exec].
    + inversion Hr; subst; [discriminate..|]. cbn. eauto.
    + cbn. eauto.
    + erewrite (fz_reads _ _ _ x); [eauto|reflexivity|cbn; rewrite ?app_nil_r; reflexivity|reflexivity].
Qed.
End Run.

(** ** Between two runs *)

Lemma idle_not_running k cs c : idle_child k cs c -> forall A (x y : A), match c with Running => x | _ => y end = y.
Proof. by inversion 1. Qed.

Lemma serve_step pid pid0 to0 i ex rs (cs : bool) a s' :
  hist i ex rs -> (cs = true -> pid = pid0 /\ pid_ok pid) ->
  exec tc a (mkSys (serve_child tc pid cs) (fphase_proc F_sent (mkF to0 i)) [] [] (if cs then Stopped true else NoChild) pid0 i ex rs ready 0 false shm) = Some s' ->
  goes 10 rs s'.
Proof.
  intros Hh Hcs. destruct a as [n|to|x]; [|discriminate|destruct cs; discriminate]. destruct cs; cbn.
  - intros [= <-]. destruct Hcs as [<- Hp]; [done|].
    eapply (goes_run i ex rs pid to0 Hh Hp _ T_pid R_pid Running); [done|by constructor|cbn; lia].
  - case_match eqn:Hn; [|done]. intros [= <-]. apply andb_prop in Hn as [H1 H2]. apply Z.ltb_lt in H1, H2.
    eapply (goes_run i ex rs (Z.of_nat n) to0 Hh _ _ T_pid R_pid Running); [done|by constructor|cbn; lia].
    Unshelve. done.
Qed.

Lemma serve_moves pid pid0 i ex rs (cs : bool) p :
  exists a s', exec tc a (mkSys (serve_child tc pid cs) p [] [] (if cs then Stopped true else NoChild) pid0 i ex rs ready 0 false shm) = Some s'.
Proof. exists (Tgt 1). destruct cs; cbn; eauto. Qed.

(** The target takes the request: a stopped child that was killed is reaped first. *)
Lemma request_step n pid cs to i c ex rs :
  hist i ex rs -> idle_child to cs c -> pid_ok pid -> (11 < n)%nat ->
  goes n rs (mkSys (tgt_next tc (serve_killed tc (mkT pid cs None) (b2z to))) (fphase_proc F_sent (mkF to i)) [] [] c pid i ex rs ready 0 false shm).
Proof.
  intros Hh Hi Hp Hn. inversion Hi as [|Ht|x Ht Hx]; subst; cbn.
  - eapply goes_to; [by eapply (J_serve pid pid to i ex rs false)|done|lia].
  - eapply goes_to; [by eapply (J_serve pid pid false i ex rs true)|done|lia].
  - eapply goes_to; [by eapply (J_reap pid true i x ex rs)|done|lia].
Qed.

Lemma b2z_word b : status_word (b2z b). Proof. destruct b; unfold status_word; cbn; lia. Qed.

Definition idle_sys f pid cs to i c inp ex rs : sys :=
  mkSys (idle pid cs) (fphase_proc f (mkF to i)) (fphase_ctl f (mkF to i)) [] c pid inp ex rs ready 0 false shm.

Lemma idle_step f pid cs to i c inp ex rs a s' :
  f <> F_up -> hist i ex rs -> idle_child to cs c -> pid_ok pid -> fphase_input f i inp ->
  exec tc a (idle_sys f pid cs to i c inp ex rs) = Some s' -> goes (fphase_rank f) rs s'.
Proof.
  intros Hf Hh Hi Hp Hin. destruct a as [n|tm|x].
  - destruct f; try discriminate. cbn [exec].
    erewrite (tgt_reads n _ _ (b2z to) []); [|reflexivity|symmetry; apply app_nil_r|apply b2z_word].
    intros [= <-]. cbn in Hin. subst inp. apply (request_step _ pid cs to); try done. cbn; lia.
  - destruct f; try done; cbn; intros [= <-].
    + rewrite (idle_not_running to cs c Hi). eapply goes_to; [by eapply (J_idle F_req pid cs to i c i ex rs)|done|cbn; lia].
    + eapply goes_to; [by eapply (J_idle F_sent pid cs to i c inp ex rs)|done|cbn; lia].
  - unfold exec, child_step. cbn [the_child idle_sys]. by rewrite (idle_not_running to cs c Hi).
Qed.

Lemma idle_moves f pid cs to i c inp ex rs :
  f <> F_up -> exists a s', exec tc a (idle_sys f pid cs to i c inp ex rs) = Some s'.
Proof.
  intros Hf. destruct f; [done|exists (Fz false)..|exists (Tgt 0)]; cbn [exec]; [cbn; eauto..|].
  erewrite (tgt_reads 0 _ _ (b2z to) []); [eauto|reflexivity|symmetry; apply app_nil_r|apply b2z_word].
Qed.

Lemma reap_step pid to0 i x ex rs a s' :
  hist i ex rs -> pid_ok pid ->
  exec tc a (mkSys (Wait false (fun _ => serve_child tc pid false)) (fphase_proc F_sent (mkF to0 i)) [] [] (Zombie x) pid i ex rs ready 0 false shm) = Some s' ->
  goes 11 rs s'.
Proof.
  intros Hh Hp. destruct a; cbn; try done. intros [= <-]. eapply goes_to; [by eapply (J_serve pid pid to0 i ex rs false)|done|lia].
Qed.

Lemma report_step pid to0 x to i c ex ex' rs a s' :
  hist i ex rs -> pid_ok pid -> waited i to ex x c ex' ->
  exec tc a (mkSys (idle pid (WIFSTOPPED x)) (run_report (mkF to0 i) (x, to)) [] [] c pid i ex' rs ready 0 false shm) = Some s' ->
  goes 1 rs s'.
Proof.
  intros Hh Hp [H1 H2 H3 H4]. destruct a as [n|tm|y]; cbn; [done| |].
  - intros [= <-]. exists 14%nat. split; [|cbn; lia].
    by apply (J_idle F_put pid (WIFSTOPPED x) to (i + 1) c i ex' ((i, x, to) :: rs)); try done; eapply hist_next.
  - unfold child_step. cbn [the_child]. by rewrite (idle_not_running _ _ _ H2).
Qed.

(** ** The hello *)

Definition got_hello_target : proc tstate := tgt_next tc (after_hello tc).

Lemma after_hello_reads :
  sharedmem_fuzzing tc || has_dict tc = true ->
  got_hello_target = Read 4 (fun bs => proc_bind (of_word bs) (got_options tc)).
Proof. unfold got_hello_target, after_hello. by intros ->. Qed.

Lemma after_hello_idle : sharedmem_fuzzing tc || has_dict tc = false -> got_hello_target = idle 0 false.
Proof. unfold got_hello_target, after_hello. by intros ->. Qed.

Lemma after_hello_waits n p q inp o m : tgt_step tc n (mkSys got_hello_target p [] q NoChild 0 inp [] [] o 0 false m) = None.
Proof. unfold got_hello_target, after_hello. by destruct (_ || _). Qed.

(** What the target makes of the fuzzer's answer. *)
Lemma takes_shm :
  shm = true -> got_options tc (FS_OPT_ENABLED .| FS_OPT_SHDMEM_FUZZ) = Map_shm (mret (mkT 0 false None)).
Proof. reflexivity. Qed.

Lemma wants_wish : wants tc fc = true -> answer tc fc = Some wish /\ has_dict tc = true.
Proof.
  intros Hw. unfold wish, answer. rewrite Hw. split; [done|]. unfold wants in Hw. by destruct (has_dict tc).
Qed.

Lemma takes_wish : wants tc fc = true -> got_options tc wish = if shm then Map_shm send_len else send_len.
Proof.
  intros Hw. destruct (wants_wish Hw) as [_ Hd]. unfold got_options, wish, answer. rewrite Hw, Hd. by destruct shm.
Qed.

Lemma wish_word : status_word wish.
Proof. unfold wish, answer, status_word. destruct (wants tc fc), shm; vm_compute; split; (discriminate || reflexivity). Qed.

Lemma answer_shm w : answer tc fc = Some w -> wants tc fc = false -> w = FS_OPT_ENABLED .| FS_OPT_SHDMEM_FUZZ /\ shm = true.
Proof. unfold answer. intros Ha Hw. rewrite Hw in Ha. destruct shm; by simplify_eq. Qed.

Lemma answer_none : answer tc fc = None -> wants tc fc = false /\ shm = false.
Proof. unfold answer. by destruct (wants tc fc), shm. Qed.

Lemma hist_0 : hist 0 [] []. Proof. split; [done..|]. intros j x H. by apply elem_of_nil in H. Qed.

(** *** Without a dictionary *)

Definition setup_sys t f inp : sys :=
  mkSys (tphase_proc t) (fphase_proc f (mkF false 0)) (tphase_ctl t ++ fphase_ctl f (mkF false 0)) []
    NoChild 0 inp [] [] (fphase_opts f) 0 false (tphase_mapped t).

Lemma goes_setup n t f inp :
  tphase_ok t -> fphase_input f 0 inp -> (tphase_rank t + fphase_rank f < n)%nat -> goes n [] (setup_sys t f inp).
Proof. intros Ht Hf Hn. eapply goes_to; [by eapply J_setup|done..]. Qed.

Lemma goes_serve n inp :
  (10 < n)%nat -> inp = 0 ->
  goes n [] (mkSys (serve_child tc 0 false) (fphase_proc F_sent (mkF false 0)) [] [] NoChild 0 inp [] [] ready 0 false shm).
Proof. intros Hn ->. eapply goes_to; [by eapply (J_serve 0 0 false 0 [] [] false hist_0)|done..]. Qed.

Lemma setup_tgt n t f inp s' :
  tphase_ok t -> fphase_input f 0 inp -> tgt_step tc n (setup_sys t f inp) = Some s' -> goes (tphase_rank t + fphase_rank f) [] s'.
Proof.
  intros Ht Hf. destruct t.
  - cbn in Ht. erewrite tgt_reads; [|cbn [tgt setup_sys tphase_proc]; apply after_hello_reads; by rewrite Ht|reflexivity|split; [discriminate|reflexivity]].
    intros [= <-]. rewrite takes_shm by done. apply (goes_setup _ A_map f); [done..|cbn; lia].
  - cbn in Ht. cbn. intros [= <-].
    replace (with_mapped _) with (setup_sys A_idle f inp) by (unfold setup_sys; cbn; by rewrite Ht). apply goes_setup; [done..|cbn; lia].
  - destruct Ht as [Hs Hd]. destruct f; try (by unfold setup_sys; cbn [tphase_proc tphase_ctl fphase_ctl]; rewrite after_hello_waits).
    erewrite (tgt_reads n _ _ 0 []); [|cbn [tgt setup_sys tphase_proc]; apply after_hello_reads; by rewrite Hd, orb_true_r|reflexivity|done].
    intros [= <-]. apply goes_serve; [cbn; lia|done].
  - destruct f; try done. erewrite (tgt_reads n _ _ 0 []); [|reflexivity|reflexivity|done].
    intros [= <-]. apply goes_serve; [cbn; lia|done].
Qed.

Lemma setup_step t f inp a s' :
  tphase_ok t -> fphase_input f 0 inp -> exec tc a (setup_sys t f inp) = Some s' -> goes (tphase_rank t + fphase_rank f) [] s'.
Proof.
  intros Ht Hf. destruct a as [n|tm|x]; [by apply setup_tgt| |discriminate].
  destruct f; [..|discriminate]; intros [= <-].
  - apply (goes_setup _ t F_put); [done..|cbn; lia].
  - apply (goes_setup _ t F_req); [done..|cbn; lia].
  - replace (with_ctl _ _) with (setup_sys t F_sent inp) by (unfold setup_sys; cbn; by rewrite app_nil_r).
    apply goes_setup; [done..|cbn; lia].
Qed.

Lemma setup_moves t f inp : tphase_ok t -> exists a s', exec tc a (setup_sys t f inp) = Some s'.
Proof.
  intros Ht. destruct f; [exists (Fz false); cbn; eauto..|]. exists (Tgt 0). cbn [exec]. destruct t.
  - erewrite tgt_reads; [eauto|cbn [tgt setup_sys tphase_proc]; apply after_hello_reads; by rewrite Ht|reflexivity|split; [discriminate|reflexivity]].
  - cbn. eauto.
  - destruct Ht as [Hs Hd].
    erewrite (tgt_reads 0 _ _ 0 []); [eauto|cbn [tgt setup_sys tphase_proc]; apply after_hello_reads; by rewrite Hd, orb_true_r|reflexivity|done].
  - erewrite (tgt_reads 0 _ _ 0 []); [eauto|reflexivity|reflexivity|done].
Qed.

(** *** With a dictionary *)

Definition dict_sys d : sys :=
  mkSys (dphase_proc d) recv_len (dphase_ctl d) [] NoChild 0 (-1) [] [] None 0 false (dphase_mapped d).

Lemma goes_dict n d :
  wants tc fc = true -> (d = D_map -> shm = true) -> (17 + 2 * L + dphase_rank d < n)%nat -> goes n [] (dict_sys d).
Proof. intros Hw Hd Hn. eapply goes_to; [by eapply J_dict|done..]. Qed.

Lemma dict_step d a s' :
  wants tc fc = true -> (d = D_map -> shm = true) -> exec tc a (dict_sys d) = Some s' -> goes (17 + 2 * L + dphase_rank d) [] s'.
Proof.
  intros Hw Hd. destruct a as [n|tm|x]; [|discriminate..]. destruct (wants_wish Hw) as [_ Hdict]. destruct d; cbn [exec].
  - erewrite (tgt_reads n _ _ wish []); [|cbn [tgt dict_sys dphase_proc]; apply after_hello_reads; by rewrite Hdict, orb_true_r
      |cbn; by rewrite app_nil_r|apply wish_word].
    intros Es. apply Some_inj in Es. subst s'. rewrite takes_wish by done. destruct shm eqn:Hs.
    + apply (goes_dict _ D_map); [done..|cbn; lia].
    + replace (with_ctl _ _) with (dict_sys D_len) by (unfold dict_sys, dphase_mapped; by rewrite Hs).
      apply goes_dict; [done..|cbn; lia].
  - cbn. intros [= <-]. replace (with_mapped _) with (dict_sys D_len) by (unfold dict_sys; cbn; by rewrite Hd).
    apply goes_dict; [done..|cbn; lia].
  - intros Es. apply Some_inj in Es. subst s'. eapply goes_to; [|done|].
    + replace (with_st _ _) with (mkSys (send_next L (dictionary tc)) recv_len [] (word (Z.of_nat L) ++ []) NoChild 0 (-1) [] [] None 0 false shm);
        [by eapply J_dict_len|]. rewrite app_nil_r. reflexivity.
    + cbn. lia.
Qed.

Lemma dict_moves d : wants tc fc = true -> exists a s', exec tc a (dict_sys d) = Some s'.
Proof.
  intros Hw. destruct (wants_wish Hw) as [_ Hdict]. exists (Tgt 0). destruct d; cbn [exec]; [|cbn; eauto..].
  erewrite (tgt_reads 0 _ _ wish []); [eauto|cbn [tgt dict_sys dphase_proc]; apply after_hello_reads; by rewrite Hdict, orb_true_r
      |cbn; by rewrite app_nil_r|apply wish_word].
Qed.

(** The target sends some more. *)
Lemma send_step n fuel rest p q s' :
  (length rest <= fuel)%nat -> tgt_step tc n (mkSys (send_next fuel rest) p [] q NoChild 0 (-1) [] [] None 0 false shm) = Some s' ->
  exists f, (1 <= n <= length rest)%nat /\ (length (drop n rest) <= f)%nat /\
    s' = mkSys (send_next f (drop n rest)) p [] (q ++ take n rest) NoChild 0 (-1) [] [] None 0 false shm.
Proof.
  intros Hf. destruct rest as [|b rest]; [by destruct fuel|]. destruct fuel as [|f]; [cbn in Hf; lia|].
  unfold tgt_step. cbn [tgt send_next send_dict proc_bind tgt_next]. case_bool_decide as Hn; [|done]. intros Es. apply Some_inj in Es. subst s'.
  exists f. split; [done|]. split; [rewrite length_drop; cbn in *; lia|]. reflexivity.
Qed.

Lemma send_moves fuel rest p q :
  (length rest <= fuel)%nat -> rest <> [] ->
  exists s', tgt_step tc 1 (mkSys (send_next fuel rest) p [] q NoChild 0 (-1) [] [] None 0 false shm) = Some s'.
Proof.
  intros Hf Hr. destruct rest as [|b rest]; [done|]. destruct fuel as [|f]; [cbn in Hf; lia|].
  unfold tgt_step. cbn [tgt send_next send_dict proc_bind tgt_next]. rewrite bool_decide_eq_true_2 by (cbn; lia). eauto.
Qed.

Lemma wants_length : wants tc fc = true -> 2 <= Z.of_nat L <= 0xffffff.
Proof.
  intros Hw. destruct (wants_wish Hw) as [_ Hd]. apply (c_dict _ _ Hc). intros E. unfold has_dict in Hd. by rewrite E in Hd.
Qed.

Lemma takes_len : wants tc fc = true -> dict_len (Z.of_nat L) = dict ← recv_dict L L []; mret (parse_dict (length dict) 0 dict).
Proof.
  intros Hw. pose proof (wants_length Hw) as Hl. unfold dict_len, s32, swrap. rewrite Z.mod_small by lia.
  rewrite (proj2 (Z.ltb_ge _ 2)), (proj2 (Z.ltb_ge 0xffffff _)) by lia. by rewrite Nat2Z.id.
Qed.

Definition len_sys fuel rest pend : sys :=
  mkSys (send_next fuel rest) recv_len [] (word (Z.of_nat L) ++ pend) NoChild 0 (-1) [] [] None 0 false shm.

Lemma len_fz tm fuel rest pend :
  wants tc fc = true ->
  fz_step tm (len_sys fuel rest pend) = Some (mkSys (send_next fuel rest) (recv_next L []) [] pend NoChild 0 (-1) [] [] None 0 false shm).
Proof.
  intros Hw. pose proof (wants_length Hw).
  erewrite (fz_reads _ _ _ (Z.of_nat L) pend); [|reflexivity..]. cbv beta. rewrite of_word_load by (unfold status_word in *; lia).
  cbn [proc_bind]. rewrite takes_len by done. unfold recv_next. cbn [length]. rewrite Nat.sub_0_r. reflexivity.
Qed.

Lemma len_step fuel rest pend a s' :
  wants tc fc = true -> (length rest <= fuel)%nat -> pend ++ rest = dictionary tc ->
  exec tc a (len_sys fuel rest pend) = Some s' -> goes (17 + L + length rest) [] s'.
Proof.
  intros Hw Hf Hd. pose proof (wants_length Hw). destruct a as [n|tm|x]; [| |discriminate]; cbn [exec].
  - intros Es. apply send_step in Es as (f & Hn & Hf' & ->); [|done]. eapply goes_to; [|done|].
    + rewrite <- app_assoc. eapply (J_dict_len f (drop n rest) (pend ++ take n rest)); [done..|].
      by rewrite <- app_assoc, take_drop.
    + rewrite length_drop. lia.
  - rewrite len_fz by done. intros Es. apply Some_inj in Es. subst s'. eapply goes_to; [|done|].
    + eapply (J_dict_recv fuel rest pend L []); [done..|rewrite Hd; done|done|]. intros E. rewrite E in Hd. rewrite <- Hd in H. cbn in H. lia.
    + cbn [length]. lia.
Qed.

Definition recv_sys fuel rest pend fuel' got : sys :=
  mkSys (send_next fuel rest) (recv_next fuel' got) [] pend NoChild 0 (-1) [] [] None 0 false shm.

(** The fuzzer takes what is in the pipe. *)
Lemma recv_fz tm fuel rest pend f got s' :
  (length (pend ++ rest) <= f)%nat -> got ++ pend ++ rest = dictionary tc -> pend ++ rest <> [] ->
  fz_step tm (recv_sys fuel rest pend f got) = Some s' ->
  exists f', pend <> [] /\ f = S f' /\ s' = recv_sys fuel rest [] f' (got ++ pend).
Proof.
  intros Hf Hd Hne. assert (HL : (L - length got = length (pend ++ rest))%nat) by (rewrite <- Hd, length_app; lia).
  unfold fz_step, recv_sys. cbn [fz st]. unfold recv_next at 1. rewrite HL.
  destruct f as [|f]; [destruct (pend ++ rest); [done|cbn in Hf; lia]|].
  destruct (length (pend ++ rest)) as [|k] eqn:Hk; [by apply nil_length_inv in Hk|].
  cbn [recv_dict proc_bind fz_next]. rewrite length_app in Hk.
  destruct pend as [|b pend]; [done|]. intros Es. apply Some_inj in Es. subst s'. exists f. do 2 (split; [done|]).
  rewrite take_ge, drop_ge by (cbn in *; lia). unfold recv_next. rewrite length_app.
  replace (L - (length got + _))%nat with (S k - length (b :: pend))%nat; [reflexivity|lia].
Qed.

Lemma recv_step fuel rest pend f got a s' :
  wants tc fc = true -> (length rest <= fuel)%nat -> (length (pend ++ rest) <= f)%nat -> got ++ pend ++ rest = dictionary tc ->
  pend ++ rest <> [] ->
  exec tc a (recv_sys fuel rest pend f got) = Some s' -> goes (16 + (L - length got) + length rest) [] s'.
Proof.
  intros Hw Hf Hf' Hd Hne. destruct a as [n|tm|x]; [| |discriminate]; cbn [exec].
  - intros Es. apply send_step in Es as (g & Hn & Hg & ->); [|done]. eapply goes_to; [|done|].
    + assert (E : (pend ++ take n rest) ++ drop n rest = pend ++ rest) by (now rewrite <- app_assoc, take_drop).
      eapply (J_dict_recv g (drop n rest) (pend ++ take n rest) f got); rewrite ?E; done.
    + rewrite length_drop. lia.
  - intros Es. apply recv_fz in Es as (f' & Hp & -> & ->); [|done..].
    assert (HL : (L = length got + (length pend + length rest))%nat) by (rewrite <- Hd, !length_app; lia).
    assert (Hpl : length pend <> 0%nat) by (by intros ?%nil_length_inv). rewrite length_app in Hf'.
    destruct rest as [|b rest].
    + rewrite app_nil_r in Hd. replace (recv_sys _ _ _ _ _) with (setup_sys A_idle F_up (-1)).
      * apply goes_setup; [done..|cbn; lia].
      * unfold recv_sys, setup_sys, recv_next. rewrite Hd, Nat.sub_diag. destruct f', fuel; cbn; unfold agreed; by rewrite Hw.
    + eapply goes_to; [by eapply (J_dict_recv fuel (b :: rest) [] f' (got ++ pend)); [done..|cbn in *; lia|rewrite <- app_assoc|]|done|].
      rewrite !length_app. lia.
Qed.

Lemma recv_moves fuel rest pend f got :
  (length rest <= fuel)%nat -> (length (pend ++ rest) <= f)%nat -> got ++ pend ++ rest = dictionary tc -> pend ++ rest <> [] ->
  exists a s', exec tc a (recv_sys fuel rest pend f got) = Some s'.
Proof.
  intros Hf Hf' Hd Hne. destruct pend as [|b pend].
  - destruct (send_moves fuel rest (recv_next f got) [] Hf Hne) as [s' E]. exists (Tgt 1), s'. exact E.
  - exists (Fz false). cbn [exec]. unfold fz_step, recv_sys. cbn [fz st]. unfold recv_next.
    assert (HL : (L - length got = length ((b :: pend) ++ rest))%nat) by (rewrite <- Hd, length_app; lia).
    rewrite HL. destruct f as [|f]; [cbn in Hf'; lia|]. cbn [app length recv_dict proc_bind fz_next]. eauto.
Qed.

(** *** Until the answer *)

Lemma starts a s' : exec tc a (start tc fc) = Some s' -> goes (23 + 2 * L) [] s'.
Proof.
  destruct a as [n|tm|x]; cbn [exec]; [| |discriminate].
  - intros Es. apply Some_inj in Es. subst s'. eapply goes_to; [by eapply J_hello|done|lia].
  - unfold fz_step, start, fsrv_start. cbn [fz]. destruct (init_tmout fc) eqn:Hi; [|discriminate].
    destruct tm; [|discriminate]. intros Es. apply Some_inj in Es. subst s'. eapply goes_to; [by eapply J_lost_hello|done|lia].
Qed.

Definition hello_sys : sys :=
  mkSys got_hello_target (fsrv_start fc) [] (word (status_for_fsrv tc)) NoChild 0 (-1) [] [] None 0 false false.

Lemma fz_hello tm :
  fz_step tm hello_sys =
  Some (if init_tmout fc && tm then mkSys got_hello_target Exit [] (word (status_for_fsrv tc)) NoChild 0 (-1) [] [] None 0 false false
        else mkSys got_hello_target
          (fz_next (proc_bind (answer_then tc fc (if wants tc fc then proc_bind (proc_bind read_word dict_len) (with_tokens tc) else Done (agreed tc fc))) fsrv_up))
          [] [] NoChild 0 (-1) [] [] None 0 false false).
Proof.
  assert (E : proc_bind (of_word (word (status_for_fsrv tc))) (fun status => o ← got_hello fc status; fsrv_up o) =
    proc_bind (answer_then tc fc (if wants tc fc then proc_bind (proc_bind read_word dict_len) (with_tokens tc) else Done (agreed tc fc))) fsrv_up).
  { rewrite of_word_load by apply (hello_word tc fc Hc). cbn [proc_bind]. unfold mbind, proc_mbind. by rewrite hello_spec. }
  destruct (init_tmout fc) eqn:Hi.
  - destruct tm; [unfold fz_step, hello_sys, fsrv_start; cbn [fz]; by rewrite Hi|].
    erewrite (fz_reads_timed _ _ (status_for_fsrv tc) []); [|cbn [fz hello_sys]; unfold fsrv_start; rewrite Hi; reflexivity|by rewrite app_nil_r|exact E].
    reflexivity.
  - erewrite (fz_reads _ _ _ (status_for_fsrv tc) []); [|cbn [fz hello_sys]; unfold fsrv_start; rewrite Hi; reflexivity|by rewrite app_nil_r|exact E].
    reflexivity.
Qed.

Lemma hello_step a s' : exec tc a hello_sys = Some s' -> goes (22 + 2 * L) [] s'.
Proof.
  destruct a as [n|tm|x]; cbn [exec]; [|rewrite fz_hello|discriminate].
  { unfold hello_sys. by rewrite after_hello_waits. }
  intros Es. apply Some_inj in Es. subst s'. destruct (init_tmout fc) eqn:Hi, tm; cbn [andb].
  1: { eapply goes_to; [by eapply J_lost|done|lia]. }
  all: unfold answer_then; destruct (answer tc fc) as [w|] eqn:Ha; [eapply goes_to; [by eapply (J_answer w)|done|lia]|].
  all: destruct (answer_none Ha) as [Hw Hs]; rewrite Hw; destruct (has_dict tc) eqn:Hd.
  all: match goal with |- goes _ _ ?s => replace s with (setup_sys (if has_dict tc then A_wait else A_idle) F_up (-1)) end;
    [apply goes_setup; rewrite ?Hd; cbn; try done; lia|].
  all: unfold setup_sys; rewrite Hd; cbn [tphase_proc tphase_mapped]; rewrite Hs; try reflexivity.
  all: rewrite after_hello_idle by (by rewrite Hs, Hd); reflexivity.
Qed.

Definition answer_sys w : sys :=
  mkSys got_hello_target
    (Write (word w) (proc_bind (if wants tc fc then proc_bind (proc_bind read_word dict_len) (with_tokens tc) else Done (agreed tc fc)) fsrv_up))
    [] [] NoChild 0 (-1) [] [] None 0 false false.

Lemma answer_step w a s' : answer tc fc = Some w -> exec tc a (answer_sys w) = Some s' -> goes (21 + 2 * L) [] s'.
Proof.
  intros Ha. destruct a as [n|tm|x]; cbn [exec]; [| |discriminate].
  { unfold answer_sys. by rewrite after_hello_waits. }
  intros Es. apply Some_inj in Es. subst s'. unfold answer_sys. destruct (wants tc fc) eqn:Hw.
  - assert (w = wish) as -> by (destruct (wants_wish Hw); congruence). apply (goes_dict _ D_read); [done..|cbn; lia].
  - destruct (answer_shm w Ha Hw) as [-> Hs]. apply (goes_setup _ A_read F_up (-1)); [done..|cbn; lia].
Qed.

(** ** All phases *)

Lemma J_step n s a s' : J n s -> exec tc a s = Some s' -> goes n (results s) s'.
Proof.
  destruct 1.
  - apply starts.
  - destruct a; [|discriminate..]. cbn [exec]. intros Es. apply Some_inj in Es. subst s'. eapply goes_to; [by eapply J_lost|done|lia].
  - destruct a as [k| |]; [|discriminate..]. cbn [exec]. by rewrite after_hello_waits.
  - apply hello_step.
  - by apply answer_step.
  - by apply setup_step.
  - by apply dict_step.
  - by apply len_step.
  - by apply recv_step.
  - by apply idle_step.
  - by apply reap_step.
  - by apply serve_step.
  - by eapply run_step.
  - by eapply report_step.
Qed.

Lemma J_moves n s : J n s -> fz s = Exit \/ exists a s', exec tc a s = Some s'.
Proof.
  destruct 1; [|by left|by left|..]; right.
  - exists (Tgt 0). cbn [exec]. unfold start, start_forkserver, tgt_step. cbn. eauto.
  - exists (Fz false). cbn [exec]. rewrite fz_hello. eauto.
  - exists (Fz false). cbn. eauto.
  - by apply setup_moves.
  - by apply dict_moves.
  - exists (Fz false). eexists. by apply len_fz.
  - by eapply recv_moves.
  - by apply idle_moves.
  - exists (Tgt 0). cbn. eauto.
  - apply serve_moves.
  - by eapply run_moves.
  - exists (Fz false). cbn. eauto.
Qed.

Lemma send_not_exit fuel rest : (length rest <= fuel)%nat -> send_next fuel rest <> Exit.
Proof. intros Hf. destruct rest, fuel; cbn in *; done || lia. Qed.

Lemma hello_target_not_exit : got_hello_target <> Exit.
Proof. unfold got_hello_target, after_hello. by destruct (_ || _). Qed.

Lemma recv_not_exit fuel got rest :
  (length rest <= fuel)%nat -> got ++ rest = dictionary tc -> rest <> [] -> recv_next fuel got <> Exit.
Proof.
  intros Hf Hd Hr. unfold recv_next. replace (L - length got)%nat with (length rest) by (rewrite <- Hd, length_app; lia).
  destruct rest, fuel; cbn in *; done || lia.
Qed.

Lemma J_target n s : J n s -> tgt s <> Exit.
Proof.
  destruct 1; cbn [tgt start]; try (done || apply hello_target_not_exit || by apply send_not_exit).
  - destruct t; try done; apply hello_target_not_exit.
  - destruct d; try done. apply hello_target_not_exit.
  - by destruct cs.
  - by destruct t.
Qed.

Lemma J_fuzzer n s : J n s -> fz s = Exit -> init_tmout fc = true /\ executed s = [].
Proof.
  destruct 1; cbn [fz executed start]; try done.
  1, 2: unfold fsrv_start; by destruct (init_tmout fc).
  - by destruct f.
  - intros E. exfalso. by eapply recv_not_exit.
  - by destruct f.
  - by destruct f.
Qed.

Lemma J_gave_up n s : J n s -> fz s = Exit -> results s = [].
Proof.
  destruct 1; cbn [fz results start]; try done.
  - by destruct f.
  - by destruct f.
Qed.

(** What is on record when the runs are going, or before. *)
Lemma J_record n s :
  J n s ->
  orphans s = 0%nat /\ torn s = false /\ (opts s = None \/ opts s = ready) /\
  (executed s <> [] -> opts s = ready /\ mapped s = shm) /\
  exists i ex, hist i ex (results s) /\ grown i ex (executed s).
Proof.
  assert (Hn : exists i ex, hist i ex [] /\ grown i ex []) by (exists 0, []; split; [apply hist_0|by left]).
  destruct 1; cbn [orphans torn opts executed mapped results start]; repeat match goal with |- _ /\ _ => split end; auto; try done.
  - destruct f; auto.
  - exists i, ex. split; [done|by left].
  - exists i, ex. split; [done|by left].
  - exists i, ex. split; [done|by left].
  - exists i, ex. split; [done|]. destruct t; eauto using live_grown, w_grown.
  - exists i, ex. split; [done|]. eauto using w_grown.
Qed.

Lemma J_reachable s : rtc (step tc) (start tc fc) s -> exists n, J n s.
Proof.
  intros H. apply (rtc_ind_r (fun s => exists n, J n s) (start tc fc)) in H; [done|eexists; apply J_start|].
  intros x y _ [a E] [n Hn]. destruct (J_step n x a y Hn E) as (n' & Hn' & _). eauto.
Qed.

Lemma J_schedule l n s s' : J n s -> exec_all tc l s = Some s' ->
  exists n', J n' s' /\ (n' + length l + 14 * length (results s) <= n + 14 * length (results s'))%nat.
Proof.
  revert n s. induction l as [|a l IH]; intros n s Hn; [intros [= ->]; exists n; split; [done|cbn; lia]|].
  cbn [exec_all]. destruct (exec tc a s) as [s1|] eqn:E; [cbn|done]. intros El.
  destruct (J_step n s a s1 Hn E) as (n1 & Hn1 & Hle1). destruct (IH n1 s1 Hn1 El) as (n2 & Hn2 & Hle2).
  exists n2. split; [done|]. lia.
Qed.

(** How far the next result can be. *)
Lemma J_near n s : J n s -> results s <> [] -> (n <= 14)%nat.
Proof.
  destruct 1; cbn [results start]; intros Hr; try done; try lia.
  - destruct f; cbn; done || lia.
  - destruct t, f, c; cbn; lia.
Qed.

Lemma J_far n s : J n s -> fz s <> Exit -> (1 <= n)%nat.
Proof.
  destruct 1; cbn [fz]; intros Hr; try done; try lia.
  - destruct f; cbn; lia.
  - destruct f; cbn; lia.
  - destruct f; cbn; lia.
Qed.

Lemma J_sooner n l s s' : J n s -> exec_all tc l s = Some s' -> fz s' <> Exit -> (n <= length l)%nat ->
  (length (results s) < length (results s'))%nat.
Proof.
  intros Hn El Hf Hl. destruct (J_schedule l n s s' Hn El) as (n' & Hn' & Hle). pose proof (J_far n' s' Hn' Hf). lia.
Qed.
End Lockstep.

(** C7: the two sides of the fork server, for every pair of a target and a
    fuzzer that can work together, and whatever the order of their steps, of
    the child's and of the timeouts: no process gives up (except the fuzzer
    when the hello takes too long), no child is forgotten, and no test case
    changes while a child runs; the fuzzer learns exactly the options that
    the target has and the target maps the shared memory before the first
    run; every test case is run at most once; the results come in order, one
    for each test case, and a result that is not a timeout is the status with
    which the child ended on that very test case. *)
Theorem forkserver_lockstep (tc : target_config) (fc : fuzzer_config) (s : sys) :
  compatible tc fc -> rtc (step tc) (start tc fc) s ->
  tgt s <> Exit /\ (fz s = Exit -> init_tmout fc = true /\ executed s = []) /\
  orphans s = 0%nat /\ torn s = false /\
  (opts s = None \/ opts s = Some (agreed tc fc)) /\
  (executed s <> [] -> opts s = Some (agreed tc fc) /\ mapped s = sharedmem_fuzzing tc) /\
  NoDup (map fst (executed s)) /\
  numbered (Z.of_nat (length (results s))) (results s) /\
  (forall i status, (i, status, false) ∈ results s -> (i, status) ∈ executed s).
Proof.
  intros Hc Hr. destruct (J_reachable tc fc Hc s Hr) as [n Hn].
  destruct (J_record tc fc n s Hn) as (Ho & Ht & Hopt & Hrun & i & ex & [Hp H1 H2 H3] & Hg).
  do 2 (split; [by eapply J_target || by eapply J_fuzzer|]). do 4 (split; [done|]).
  split; [eapply once_nodup, once_grown; done|]. split; [by eapply numbered_length|].
  intros j status Hin. apply H3 in Hin. destruct Hg as [-> | [x ->]]; [done|]. apply elem_of_cons. by right.
Qed.

(** C8: progress.  In every state the two sides can come to, some process can
    take a step, unless the fuzzer has given up waiting for the hello.  Once
    there is a result, any fourteen steps, whoever takes them, bring another;
    the first comes within 23 steps and two for each byte of the dictionary,
    unless the fuzzer gives up.  A step is a system call of one side, a
    timeout of the fuzzer's or the end of a child. *)
Theorem forkserver_progress (tc : target_config) (fc : fuzzer_config) (s : sys) :
  compatible tc fc -> rtc (step tc) (start tc fc) s ->
  ((fz s = Exit /\ init_tmout fc = true) \/ exists a s', exec tc a s = Some s') /\
  (results s <> [] -> forall l s', exec_all tc l s = Some s' -> (14 <= length l)%nat ->
     (length (results s) < length (results s'))%nat) /\
  (forall l s', exec_all tc l (start tc fc) = Some s' -> fz s' <> Exit ->
     (23 + 2 * length (dictionary tc) <= length l)%nat -> results s' <> []).
Proof.
  intros Hc Hr. destruct (J_reachable tc fc Hc s Hr) as [n Hn]. split; [|split].
  - destruct (J_moves tc fc Hc n s Hn) as [He|He]; [left|by right]. split; [done|]. by eapply J_fuzzer.
  - intros Hres l s' El Hl. pose proof (J_near tc fc n s Hn Hres).
    eapply (J_sooner tc fc Hc n l); [done|done| |lia]. intros Hex.
    destruct (J_schedule tc fc Hc l n s s' Hn El) as (n' & Hn' & Hle).
    rewrite (J_gave_up tc fc n' s' Hn' Hex) in Hle. destruct (results s); [done|]. cbn in Hle. lia.
  - intros l s' El Hf Hl E. pose proof (J_sooner tc fc Hc _ l _ s' (J_start tc fc) El Hf Hl) as Hlt. rewrite E in Hlt. cbn in Hlt. lia.
Qed.

(** C39: the dictionary that the compiler put into the target, in whatever
    pieces the pipe delivers it, is the list of tokens that the fuzzer gets. *)
Theorem autodict_roundtrip (tc : target_config) (fc : fuzzer_config) (s : sys) (es : list (list Z)) (o : options) :
  compatible tc fc -> dictionary tc = encode_dict es -> wants tc fc = true ->
  rtc (step tc) (start tc fc) s -> opts s = Some o -> extras o = es.
Proof.
  intros Hc Hd Hw Hr Ho. destruct (J_reachable tc fc Hc s Hr) as [n Hn].
  destruct (J_record tc fc n s Hn) as (_ & _ & [E|E] & _); [congruence|].
  assert (o = agreed tc fc) as -> by congruence. cbn. rewrite Hw, Hd. apply (parse_encoded _ []), encode_length.
Qed.

(** ** Examples *)

Lemma exec_all_steps tc l s s' : exec_all tc l s = Some s' -> rtc (step tc) s s'.
Proof.
  revert s. induction l as [|a l IH]; intros s; cbn [exec_all]; [intros [= ->]; apply rtc_refl|].
  destruct (exec tc a s) as [s1|] eqn:E; [cbn|done]. intros El. eapply rtc_l; [by exists a|by apply IH].
Qed.

Lemma runs_to {A} (m : option A) a : match m with Some _ => true | None => false end = true -> m = Some (default a m).
Proof. by destruct m. Qed.

(** A persistent target with shared memory and two tokens: a run that stops,
    a run that stops too late and is killed, a run that crashes. *)
Definition demo_target : target_config := mkTarget 1000 true [1; 65; 2; 66; 67] true.
Definition demo_fuzzer : fuzzer_config := mkFuzzer true true 65536 false true true.
Definition demo_schedule : list act :=
  [Tgt 0; Fz false; Fz false; Tgt 0; Tgt 0; Tgt 0; Fz false; Tgt 2; Fz false; Tgt 3; Fz false; Fz false;
   Fz false; Fz false; Tgt 0; Tgt 77; Tgt 0; Fz false; Chld 0x137f; Tgt 0; Tgt 0; Fz false; Fz false;
   Fz false; Fz false; Tgt 0; Tgt 0; Tgt 0; Fz false; Fz true; Chld 0x137f; Tgt 0; Fz false; Tgt 0; Fz false; Fz false;
   Fz false; Fz false; Tgt 0; Tgt 0; Tgt 78; Tgt 0; Fz false; Chld 11; Tgt 0; Tgt 0; Fz false; Fz false].
Definition demo_end : sys :=
  default (start demo_target demo_fuzzer) (exec_all demo_target demo_schedule (start demo_target demo_fuzzer)).

Lemma demo_runs : exec_all demo_target demo_schedule (start demo_target demo_fuzzer) = Some demo_end.
Proof. apply runs_to. vm_compute. reflexivity. Qed.

Lemma demo_compatible : compatible demo_target demo_fuzzer.
Proof.
  split; [split; vm_compute; discriminate|vm_compute; discriminate|reflexivity|split; vm_compute; discriminate|reflexivity].
Qed.

Lemma forkserver_lockstep_witness :
  results demo_end = [(2, 11, false); (1, 0x137f, true); (0, 0x137f, false)] /\ (2, 11) ∈ executed demo_end.
Proof.
  destruct (forkserver_lockstep demo_target demo_fuzzer demo_end demo_compatible (exec_all_steps _ _ _ _ demo_runs))
    as (_ & _ & _ & _ & _ & _ & _ & _ & H).
  split; [vm_compute; reflexivity|]. apply H.
  assert (E : results demo_end = [(2, 11, false); (1, 0x137f, true); (0, 0x137f, false)]) by (vm_compute; reflexivity).
  rewrite E. left.
Defined.

Lemma forkserver_progress_witness :
  (exists a s, exec demo_target a demo_end = Some s) /\
  (forall l s, exec_all demo_target l demo_end = Some s -> (14 <= length l)%nat -> (3 < length (results s))%nat).
Proof.
  destruct (forkserver_progress demo_target demo_fuzzer demo_end demo_compatible (exec_all_steps _ _ _ _ demo_runs))
    as ([[Hx _]|Hm] & Hnext & _).
  - exfalso. assert (E : match fz demo_end with Exit => true | _ => false end = false) by (vm_compute; reflexivity).
    clear - E Hx. set (p := fz demo_end) in *. clearbody p. subst p. discriminate E.
  - split; [exact Hm|]. intros l s El Hl. assert (E3 : length (results demo_end) = 3%nat) by (vm_compute; reflexivity).
    assert (Hne : results demo_end <> []) by (clear - E3; set (rs := results demo_end) in *; clearbody rs; now intros ->). rewrite <- E3. exact (Hnext Hne l s El Hl).
Defined.

Lemma autodict_roundtrip_witness : exists o, opts demo_end = Some o /\ extras o = [[65]; [66; 67]].
Proof.
  assert (E : opts demo_end = Some (default (mkOptions false false 0 0 []) (opts demo_end))) by (apply runs_to; vm_compute; reflexivity).
  exists (default (mkOptions false false 0 0 []) (opts demo_end)). split; [exact E|].
  eapply (autodict_roundtrip demo_target demo_fuzzer demo_end _ _ demo_compatible); [reflexivity|reflexivity| |exact E].
  exact (exec_all_steps _ _ _ _ demo_runs).
Defined.

(** A target with a dictionary and without shared memory, for a tool that
    takes no dictionary ([afl-showmap], [afl-tmin], [afl-fuzz]'s second fork
    server): the tool denies the dictionary, the target takes the answer for
    the first request, and every result belongs to the test case before. *)
Definition denied_target : target_config := mkTarget 1000 false [2; 65; 66] false.
Definition denying_fuzzer : fuzzer_config := mkFuzzer false false 65536 false false false.
Definition denied_schedule : list act :=
  [Tgt 0; Fz false; Fz false; Fz false; Tgt 0; Tgt 7; Tgt 0; Chld 139; Tgt 0; Tgt 0; Fz false; Fz false; Fz false; Fz false; Fz false].
Definition denied_end : sys :=
  default (start denied_target denying_fuzzer) (exec_all denied_target denied_schedule (start denied_target denying_fuzzer)).

Lemma denied_dictionary_shifts_runs :
  exec_all denied_target denied_schedule (start denied_target denying_fuzzer) = Some denied_end /\
  results denied_end = [(0, 139, false)] /\ executed denied_end = [(-1, 139)] /\ ctl denied_end = word 0.
Proof. split; [apply runs_to|repeat split]; vm_compute; reflexivity. Qed.
