(* ===== verification/FuzzLoop.v ===== *)
(** The fuzzing loop of [src/afl-fuzz.c], from the start of the first queue
    cycle to the stop: culling, the start of a queue cycle, the selection of
    the next entry, [fuzz_one] and the synchronisation with other instances.

    [fuzz_one], [sync_fuzzers] and the clock are the class [Engine]: the loop
    is proved against what they promise.  A step of the loop is one call of
    [fuzz_one]; [fuzz_loop] makes a given number of them.  The pizza mode and
    the messages to the terminal are left out. *)

From S2P Require Import Prelude Words Float State Bitmap Text Rand Queue Score Alias.
#[local] Open Scope list_scope.
#[local] Open Scope Z_scope.

Definition SYNC_INTERVAL : Z := 8.

(** ** The state *)

(** The settings that stay. *)
Record settings := mkSettings {
  old_seed_selection : bool;
  sync_id : bool;            (* not NULL *)
  afl_import_first : bool;
  cycle_schedules : bool;
  skip_deterministic : bool;
  is_main_node : bool;
  exit_1 : bool;
  sync_time : Z;
  no_splicing : bool;        (* built with NO_SPLICING *)
  introspection : bool       (* built with INTROSPECTION *)
}.

(** What the loop turns up while it finds nothing. *)
Record effort := mkEffort {
  use_splicing : bool;
  expand_havoc : Z;
  havoc_stack_pow2 : Z;
  cmplog_lvl : Z;
  cmplog_max_filesize : Z
}.

(** The rest of the program as the loop sees it: the queue and its
    neighbourhood, the generator, [stop_soon], and everything else. *)
Record engine (G W : Type) := mkEngine {
  e_afl : afl;
  e_rng : G;
  e_stop : Z;
  e_world : W
}.
Arguments mkEngine {G W}. Arguments e_afl {G W}. Arguments e_rng {G W}.
Arguments e_stop {G W}. Arguments e_world {G W}.

Class Engine (G W : Type) := {
  fuzz_one : effort -> Z -> engine G W -> res (bool * engine G W);   (* the entry was skipped? *)
  sync_fuzzers : Z -> engine G W -> res (engine G W);
  get_cur_time : W -> Z * W
}.

Record loop (G W : Type) := mkLoop {
  l_eng : engine G W;
  l_effort : effort;
  current_entry : nat;
  alias_tables : list double * list nat;
  queue_cycle : Z;
  last_sync_cycle : Z;
  last_sync_time : Z;
  prev_queued : Z;
  prev_queued_items : Z;
  runs_in_current_cycle : Z;
  seek_to : Z;
  sync_interval_cnt : Z
}.
Arguments mkLoop {G W}. Arguments l_eng {G W}. Arguments l_effort {G W}.
Arguments current_entry {G W}. Arguments alias_tables {G W}. Arguments queue_cycle {G W}.
Arguments last_sync_cycle {G W}. Arguments last_sync_time {G W}. Arguments prev_queued {G W}.
Arguments prev_queued_items {G W}. Arguments runs_in_current_cycle {G W}.
Arguments seek_to {G W}. Arguments sync_interval_cnt {G W}.

(** ** The start of a cycle *)

(** [if (afl->queued_items == prev_queued)]: nothing was found in the whole
    cycle, so splice, then work harder. *)
Definition harder (o : settings) (cmplog : bool) (e : effort) : effort :=
  if use_splicing e then
    let lvl := cmplog_lvl e in
    let pow := havoc_stack_pow2 e in
    let size := if cmplog && (cmplog_max_filesize e <? MAX_FILE)
                then u32 (cmplog_max_filesize e .<< 4) else cmplog_max_filesize e in
    match expand_havoc e with
    | 0 => mkEffort true 1 pow lvl size
    | 1 => mkEffort true 2 pow (if truthy lvl && (lvl <? 2) then 2 else lvl) size
    | 2 => mkEffort true 3 (u8 (pow + 1)) lvl size
    | 3 => mkEffort true 4 (u8 (pow + 1)) lvl size
    | 4 => mkEffort true 5 pow lvl size
    | n => mkEffort true n pow lvl size
    end
  else mkEffort (negb (no_splicing o)) (expand_havoc e) (havoc_stack_pow2 e) (cmplog_lvl e)
         (cmplog_max_filesize e).

Definition next_schedule (s : schedule) : schedule :=
  match s with
  | EXPLORE => EXPLOIT | EXPLOIT => MMOPT | MMOPT => SEEK | SEEK => EXPLORE
  | FAST => COE | COE => LIN | LIN => QUAD | QUAD => RARE | RARE => FAST
  end.

(** [if (afl->cycle_schedules)]: the next schedule, and the scores of all
    enabled entries again. *)
Definition rescore (a : afl) (p : nat) : res afl :=
  q ← deref a p;
  if disabled q then Ok a else update_bitmap_score a p.

Definition cycle_schedule (o : settings) (a : afl) : res afl :=
  if cycle_schedules o then
    rfold rescore (set_sched (next_schedule (sched a)) a) (seq 0 (Z.to_nat (queued_items a)))
  else Ok a.

(** [while (current_entry < queued_items && queue_buf[current_entry]->disabled)
    ++current_entry;] *)
Fixpoint skip_disabled (n : nat) (a : afl) (i : nat) : res nat :=
  match n with
  | O => Ok i
  | S n =>
      if Z.of_nat i <? queued_items a then
        q ← deref a i;
        if disabled q then skip_disabled n a (S i) else Ok i
      else Ok i
  end.

(** The old seed selection starts at the first enabled entry, or where an
    earlier session stopped: the entry and the new [seek_to]. *)
Definition first_entry (o : settings) (a : afl) (seek : Z) (cur : nat) : res (afl * nat * Z) :=
  if old_seed_selection o then
    i ← skip_disabled (Z.to_nat (queued_items a)) a 0;
    let i := if queued_items a <=? Z.of_nat i then 0%nat else i in
    _ ← deref a i;
    if truthy seek then
      if queued_items a <=? seek then Err Fatal
      else
        _ ← deref a (Z.to_nat seek);
        Ok (set_queue_cur (Some (Z.to_nat seek)) a, Z.to_nat seek, 0)
    else Ok (set_queue_cur (Some i) a, i, seek)
  else Ok (a, cur, seek).

(** The end of [fuzz_one], from [abandon_entry]: the first time through, an
    entry that calibrates is taken off the pending ones. *)
Definition abandon_entry (stop_soon : bool) (a : afl) : res afl :=
  p ← ptr (queue_cur a);
  q ← deref a p;
  let a :=
    if negb stop_soon && (cal_failed q =? 0) && negb (was_fuzzed q) && negb (disabled q) then
      let a := set_pending_not_fuzzed (u32 (pending_not_fuzzed a - 1)) a in
      let a := set_reinit_table true (upd p (set_was_fuzzed true) a) in
      if favored q then set_pending_favored (u32 (pending_favored a - 1)) a else a
    else a in
  Ok (upd p (set_fuzz_level (u32 (fuzz_level q + 1))) a).

Section Loop.
Context {G W : Type} `{RandGen G} `{Engine G W} (next_percent : G -> double * G).
Context (log log10 log2 : double -> double) (o : settings).
Implicit Types (l : loop G W) (e : engine G W).

Definition set_afl a e : engine G W := mkEngine a (e_rng e) (e_stop e) (e_world e).
Definition with_eng e l : loop G W :=
  mkLoop e (l_effort l) (current_entry l) (alias_tables l) (queue_cycle l) (last_sync_cycle l) (last_sync_time l)
    (prev_queued l) (prev_queued_items l) (runs_in_current_cycle l) (seek_to l) (sync_interval_cnt l).
Definition l_afl l : afl := e_afl (l_eng l).
Definition with_afl a l : loop G W := with_eng (set_afl a (l_eng l)) l.

(** [sync_fuzzers] ends by noting when it ran. *)
Definition sync l : res (loop G W) :=
  e ← sync_fuzzers (queue_cycle l) (l_eng l);
  let '(t, w) := get_cur_time (e_world e) in
  Ok (mkLoop (mkEngine (e_afl e) (e_rng e) (e_stop e) w) (l_effort l) (current_entry l) (alias_tables l)
        (queue_cycle l) (queue_cycle l) t (prev_queued l) (prev_queued_items l) (runs_in_current_cycle l)
        (seek_to l) (sync_interval_cnt l)).

Definition cycle_is_over l : bool :=
  (negb (old_seed_selection o) && (queued_items (l_afl l) <? runs_in_current_cycle l)) ||
  (old_seed_selection o && bool_decide (queue_cur (l_afl l) = None)).

Definition sync_is_due l : bool :=
  ((last_sync_cycle l <? queue_cycle l) || ((queue_cycle l =? 0) && afl_import_first o)) && sync_id o.

(** The cycles without finds, and the effort that follows. *)
Definition no_finds l : afl * effort :=
  let a := l_afl l in
  if queued_items a =? prev_queued l then
    (if use_splicing (l_effort l) then set_cycles_wo_finds (u64 (cycles_wo_finds a + 1)) a else a,
     harder o (cmplog_mode a) (l_effort l))
  else (set_cycles_wo_finds 0 a, l_effort l).

Definition new_cycle l : res (loop G W) :=
  l ← (if sync_is_due l then sync l else Ok l);
  '(a, cur, seek) ← first_entry o (l_afl l) (seek_to l) (current_entry l);
  let '(a, f) := no_finds (with_afl a l) in
  a ← cycle_schedule o a;
  Ok (mkLoop (set_afl a (l_eng l)) f cur (alias_tables l) (u64 (queue_cycle l + 1)) (last_sync_cycle l)
        (last_sync_time l) (queued_items a) (prev_queued_items l) UINT32_MAX seek (sync_interval_cnt l)).

(** From the head of [while (!afl->stop_soon)] to the inner loop. *)
Definition loop_head l : res (loop G W) :=
  a ← cull_queue (l_afl l);
  let l := with_afl a l in
  l ← (if cycle_is_over l then new_cycle l else Ok l);
  Ok (mkLoop (l_eng l) (l_effort l) (current_entry l) (alias_tables l) (queue_cycle l) (last_sync_cycle l)
        (last_sync_time l) (prev_queued l) (prev_queued_items l) (u32 (runs_in_current_cycle l + 1))
        (seek_to l) (sync_interval_cnt l)).

(** ** One entry *)

(** [do { current_entry = select_next_queue_entry(afl); } while (current_entry
    >= queued_items);] *)
Fixpoint draw_entry (fuel : nat) (n : Z) (tbl : list double * list nat) (g : G) : res (nat * G) :=
  match fuel with
  | O => Err OutOfFuel
  | S fuel =>
      '(i, g) ← select_next_queue_entry next_percent n tbl g;
      if n <=? Z.of_nat i then draw_entry fuel n tbl g else Ok (i, g)
  end.

(** New entries, or an entry fuzzed for the first time, call for a new
    table. *)
Definition fresh_table l : res (loop G W) :=
  let a := l_afl l in
  if (prev_queued_items l <? queued_items a) || reinit_table a then
    '(a', tbl) ← create_alias_table log log10 log2 a;
    Ok (mkLoop (set_afl a' (l_eng l)) (l_effort l) (current_entry l) tbl (queue_cycle l) (last_sync_cycle l)
          (last_sync_time l) (prev_queued l) (queued_items a) (runs_in_current_cycle l) (seek_to l)
          (sync_interval_cnt l))
  else Ok l.

Definition at_entry (i : nat) l : loop G W :=
  mkLoop (l_eng l) (l_effort l) i (alias_tables l) (queue_cycle l) (last_sync_cycle l) (last_sync_time l)
    (prev_queued l) (prev_queued_items l) (runs_in_current_cycle l) (seek_to l) (sync_interval_cnt l).

Definition next_entry (tries : nat) l : res (loop G W) :=
  if old_seed_selection o then Ok l else
  l ← fresh_table l;
  '(i, g) ← draw_entry tries (queued_items (l_afl l)) (alias_tables l) (e_rng (l_eng l));
  _ ← deref (l_afl l) i;
  Ok (at_entry i (with_eng (mkEngine (set_queue_cur (Some i) (l_afl l)) g (e_stop (l_eng l)) (e_world (l_eng l))) l)).

(** The old seed selection goes on to the next enabled entry, or to none. *)
Definition old_next l : res (loop G W) :=
  if old_seed_selection o then
    let a := l_afl l in
    i ← skip_disabled (Z.to_nat (queued_items a) - S (current_entry l)) a (S (current_entry l));
    cur ← (if queued_items a <=? Z.of_nat i then Ok None
           else q ← deref a i; Ok (if disabled q then None else Some i));
    Ok (at_entry i (with_afl (set_queue_cur cur a) l))
  else Ok l.

(** With INTROSPECTION the finds of an entry are credited to it, and counted
    as seen. *)
Definition credit_finds (skipped : bool) l : loop G W :=
  if introspection o && negb skipped && (prev_queued_items l <? queued_items (l_afl l)) then
    mkLoop (l_eng l) (l_effort l) (current_entry l) (alias_tables l) (queue_cycle l) (last_sync_cycle l)
      (last_sync_time l) (prev_queued l) (queued_items (l_afl l)) (runs_in_current_cycle l) (seek_to l)
      (sync_interval_cnt l)
  else l.

Definition stopped l : bool := truthy (e_stop (l_eng l)).

(** The body of the inner loop, and whether it is repeated. *)
Definition one_entry (tries : nat) l : res (bool * loop G W) :=
  l ← next_entry tries l;
  '(skipped, e) ← fuzz_one (l_effort l) (queue_cycle l) (l_eng l);
  let l := credit_finds skipped (with_eng e l) in
  let l := if negb (stopped l) && exit_1 o
           then with_eng (mkEngine (e_afl e) (e_rng e) 2 (e_world e)) l else l in
  l ← old_next l;
  Ok (skipped && bool_decide (is_Some (queue_cur (l_afl l))) && negb (stopped l), l).

(** ** Synchronisation *)

Definition count_sync (every : Z) l : res (loop G W) :=
  let l' := mkLoop (l_eng l) (l_effort l) (current_entry l) (alias_tables l) (queue_cycle l) (last_sync_cycle l)
    (last_sync_time l) (prev_queued l) (prev_queued_items l) (runs_in_current_cycle l) (seek_to l)
    (u32 (sync_interval_cnt l + 1)) in
  if sync_interval_cnt l mod every =? 0 then sync l' else Ok l'.

Definition maybe_sync l : res (loop G W) :=
  if negb (stopped l) && sync_id o then
    if skip_deterministic o then
      let '(t, w) := get_cur_time (e_world (l_eng l)) in
      let l := with_eng (mkEngine (l_afl l) (e_rng (l_eng l)) (e_stop (l_eng l)) w) l in
      if is_main_node o then
        if u64 ((sync_time o .>> 1) + last_sync_time l) <? t then count_sync (SYNC_INTERVAL / 3) l else Ok l
      else
        if u64 (sync_time o + last_sync_time l) <? t then count_sync SYNC_INTERVAL l else Ok l
    else sync l
  else Ok l.

(** ** The loop *)

(** [n] calls of [fuzz_one] from the head of the loop or, after a skipped
    entry, from the head of the inner one; fewer when the fuzzer stops. *)
Fixpoint fuzz_loop (tries n : nat) (at_head : bool) l : res (bool * loop G W) :=
  match n with
  | O => Ok (at_head, l)
  | S n =>
      if at_head && stopped l then Ok (true, l) else
      l ← (if at_head then loop_head l else Ok l);
      '(again, l) ← one_entry tries l;
      l ← (if again then Ok l else maybe_sync l);
      fuzz_loop tries n (negb again) l
  end.
End Loop.
