(* ===== verification/FuzzLoopThms.v ===== *)
(** The fuzzing loop: selection never leaves the queue, the tables it draws
    from are built in time, and the whole keeps the queue in order, whatever
    [fuzz_one] and the synchronisation do within their contracts. *)

From S2P Require Import Prelude Words Float State Bitmap Text Rand Queue QueueScore QueueCull QueueAdd Score ScoreThms Alias FuzzLoop.
#[local] Open Scope list_scope.
#[local] Open Scope Z_scope.

(** ** A queue that is ready for another round *)

Record queue_ready (a : afl) : Prop := {
  qr_wf : queue_wf a;
  qr_matrix : is_Some (testcase_matrix_of a);
  qr_mini : matrix_mini a;
  qr_names : names_ok (queue_buf a);
  qr_dir : dir_ok (queue_buf a) (redundant_edges a);
  qr_counted : counted a;
  qr_level p q : queue_buf a !! p = Some q -> 0 <= fuzz_level q < 2 ^ 32;
  qr_mult : 1 <= havoc_max_mult a;
  qr_some : queue_buf a <> []
}.

(** What the loop's own operations leave alone. *)
Definition ident (q : queue_entry) : list Z * Z * Z := (fname q, n_fuzz_entry q, fuzz_level q).

Record alike (a a' : afl) : Prop := {
  al_buf : map ident (queue_buf a') = map ident (queue_buf a);
  al_nfuzz : n_fuzz a' = n_fuzz a;
  al_mult : havoc_max_mult a' = havoc_max_mult a;
  al_matrix : testcase_matrix_of a' = testcase_matrix_of a;
  al_sched : sched a' = sched a;
  al_cur : queue_cur a' = queue_cur a
}.

#[export] Instance alike_preorder : PreOrder alike.
Proof. split; [now split|]. intros a b c [] []. split; congruence. Qed.

Lemma map_through {A B C} (g : A -> B) (f : A -> C) (k : B -> C) l l' :
  (forall x, k (g x) = f x) -> map g l' = map g l -> map f l' = map f l.
Proof.
  intros Hk E. assert (H : forall m, map f m = map k (map g m))
    by (intros m; rewrite map_map; apply map_ext; intros; now rewrite Hk).
  now rewrite !H, E.
Qed.

Lemma alike_length a a' : alike a a' -> length (queue_buf a') = length (queue_buf a).
Proof. intros H. pose proof (f_equal length (al_buf _ _ H)) as E. now rewrite !length_map in E. Qed.

Lemma alike_lookup a a' p q' : alike a a' -> queue_buf a' !! p = Some q' ->
  exists q, queue_buf a !! p = Some q /\ ident q' = ident q.
Proof.
  intros H Hq. assert (Hm : map ident (queue_buf a) !! p = Some (ident q'))
    by (rewrite <- (al_buf _ _ H), list_lookup_fmap, Hq; reflexivity).
  rewrite list_lookup_fmap in Hm. destruct (queue_buf a !! p) as [q|]; [|discriminate].
  apply (inj Some) in Hm. eauto.
Qed.

Lemma alike_names a a' : alike a a' -> map fname (queue_buf a') = map fname (queue_buf a).
Proof. intros H. exact (map_through ident fname (fun x => fst (fst x)) _ _ (fun _ => eq_refl) (al_buf _ _ H)). Qed.

Lemma ready_alike a a' : queue_ready a -> alike a a' ->
  queue_wf a' -> matrix_mini a' -> dir_ok (queue_buf a') (redundant_edges a') -> queue_ready a'.
Proof.
  intros [] H Hwf Hm Hd. split; rewrite ?(al_matrix _ _ H), ?(al_mult _ _ H); auto.
  - eapply (names_ok_map fname); [|exact (alike_names _ _ H)|done]. auto.
  - intros p q' Hq'. destruct (alike_lookup _ _ _ _ H Hq') as (q & Hq & E).
    assert (Eh : hits a' q' = hits a q) by (injection E as _ En _; unfold hits; now rewrite En, (al_nfuzz _ _ H)).
    rewrite Eh. eauto.
  - intros p q' Hq'. destruct (alike_lookup _ _ _ _ H Hq') as (q & Hq & E). injection E as _ _ ->. eauto.
  - intros En. apply qr_some0. apply nil_length_inv. rewrite <- (alike_length _ _ H), En. done.
Qed.

Lemma ready_items a : queue_ready a -> 0 < queued_items a < 2 ^ 32.
Proof.
  intros []. rewrite (qw_items a qr_wf0). pose proof (qw_max a qr_wf0). destruct (queue_buf a); [done|]. cbn in *. lia.
Qed.

Lemma dir_ok_map {B} (g : queue_entry -> B) buf buf' d :
  (forall q q', g q' = g q -> fname q' = fname q /\ fs_redundant q' = fs_redundant q) ->
  map g buf' = map g buf -> dir_ok buf d -> dir_ok buf' d.
Proof.
  intros Hg E Hd p q' fn Hq' Hfn. assert (Hm : map g buf !! p = Some (g q'))
    by (rewrite <- E, list_lookup_fmap, Hq'; reflexivity).
  rewrite list_lookup_fmap in Hm. destruct (buf !! p) as [q|] eqn:Hq; [|discriminate].
  apply (inj Some) in Hm. destruct (Hg q q' (eq_sym Hm)) as [E1 E2]. rewrite E2. apply (Hd p q fn Hq). now rewrite <- E1.
Qed.

(** ** Culling *)

Lemma cull_ready a : queue_ready a -> exists a', cull_queue a = Ok a' /\ queue_ready a' /\ alike a a'.
Proof.
  intros Hr. pose proof Hr as [Hwf [m Hm] Hmini Hn Hd _ _ _ _].
  destruct (negb (score_changed a) || non_instrumented_mode a) eqn:Es.
  { exists a. split; [|now split]. unfold cull_queue. now rewrite Hm, Es. }
  apply orb_false_iff in Es as [Es Eni]. apply negb_false_iff in Es.
  destruct (lookup_lt_is_Some_2 (queue_buf a) m (qw_matrix a Hwf m Hm)) as [qm Hqm].
  destruct (Hmini m qm Hm Hqm) as [mx Hmx].
  destruct (cull_queue_run a m qm mx) as (s & a' & E & [Cb Cr Cl _ _ _ _ _] & [Mb Mr Md _] & Hb0); try done.
  exists a'. split; [exact E|]. pose proof (map_unflag s a' a Mb Hb0) as Hu.
  assert (Hal : alike a a').
  { split; [exact (map_through unflag ident ident _ _ (fun _ => eq_refl) Hu)|..];
      rewrite Mr; unfold testcase_matrix_of; rewrite Cr; reflexivity. }
  split; [|exact Hal]. apply (ready_alike a a' Hr Hal); [| |exact Md].
  - apply (unflag_wf a a' Hwf Hu); rewrite Mr; cbn; [rewrite Cr; reflexivity..|].
    rewrite Cl, (qw_tmp a Hwf). reflexivity.
  - intros k q Ek Hq. rewrite (al_matrix _ _ Hal), Hm in Ek. injection Ek as <-.
    assert (Et : map trace_mini (queue_buf a') = map trace_mini (queue_buf a))
      by exact (map_through unflag trace_mini trace_mini _ _ (fun _ => eq_refl) Hu).
    assert (Hk : map trace_mini (queue_buf a') !! m = Some (trace_mini q)) by (rewrite list_lookup_fmap, Hq; reflexivity).
    rewrite Et, list_lookup_fmap, Hqm in Hk. injection Hk as <-. eauto.
Qed.

(** ** The alias table *)

(** Another weight, score or handicap. *)
Definition weighs (f : queue_entry -> queue_entry) : Prop := forall q,
  ident (f q) = ident q /\ tc_ref (f q) = tc_ref q /\ trace_mini (f q) = trace_mini q /\
  fs_redundant (f q) = fs_redundant q.

Lemma ready_upd a p f : weighs f -> queue_ready a -> queue_ready (upd p f a) /\ alike a (upd p f a).
Proof.
  intros Hf Hr. assert (Hal : alike a (upd p f a)).
  { split; try reflexivity. rewrite upd_queue_buf. apply map_alter_same. intros q. apply Hf. }
  split; [|exact Hal]. apply (ready_alike _ _ Hr Hal).
  - apply upd_wf; [apply Hr|]. intros q. destruct (Hf q) as (E & E1 & E2 & _). injection E. auto.
  - apply matrix_mini_upd; [|apply Hr]. intros _ q. now rewrite (proj1 (proj2 (proj2 (Hf q)))).
  - apply (dir_ok_map (fun q => (fname q, fs_redundant q)) (queue_buf a)); [|rewrite upd_queue_buf; apply map_alter_same|apply Hr].
    + intros q q' [= ]. auto.
    + intros q. destruct (Hf q) as (E & _ & _ & E3). injection E as -> _ _. now rewrite E3.
Qed.

Lemma weighs_weight w : weighs (set_weight w). Proof. now split. Qed.
Lemma weighs_perf s : weighs (set_perf_score s). Proof. now split. Qed.
Lemma weighs_handicap h : weighs (set_handicap h). Proof. now split. Qed.
#[export] Hint Resolve weighs_weight weighs_perf weighs_handicap : core.

Section Table.
Context (log log10 log2 : double -> double).
Hypothesis log2_trunc : forall n, 0 < n < 2 ^ 32 -> dtrunc (log2 (dint n)) = Some (Z.log2 n).

(** The entries with other weights, and nothing else. *)
Definition reweighed (a a' : afl) : Prop :=
  queue_ready a' /\ alike a a' /\ a' = set_queue_buf (queue_buf a') a.

Lemma reweighed_refl a : queue_ready a -> reweighed a a.
Proof. intros H. split; [done|]. split; [done|]. now destruct a. Qed.

Lemma reweighed_upd a0 a p f : weighs f -> reweighed a0 a -> reweighed a0 (upd p f a).
Proof.
  intros Hf (Hr & Hal & E). destruct (ready_upd a p f Hf Hr) as [Hr' Hal'].
  split; [exact Hr'|]. split; [now transitivity a|]. unfold upd. rewrite E at 2. now destruct a0.
Qed.

Lemma reweighed_deref a0 a p : reweighed a0 a -> (p < length (queue_buf a0))%nat ->
  exists q, deref a p = Ok q /\ queue_buf a !! p = Some q.
Proof.
  intros (_ & Hal & _) Hp. rewrite <- (alike_length _ _ Hal) in Hp. unfold deref.
  destruct (rd_lt _ _ Hp) as (q & E & Hq). eauto.
Qed.

Lemma compute_weight_total a p q x y z :
  queue_ready a -> queue_buf a !! p = Some q -> exists w, compute_weight log log10 a q x y z = Ok w.
Proof.
  intros Hr Hq. unfold compute_weight. rewrite (n_fuzz_of_hits a p q (qr_wf a Hr) Hq).
  destruct (_ && _); cbn [mbind res_bind]; eauto.
Qed.

Lemma calculate_score_ready a p q :
  queue_ready a -> sched a <> RARE -> queue_buf a !! p = Some q -> disabled q = false ->
  exists s h, calculate_score log2 a p = Ok (s, upd p (set_handicap h) a).
Proof.
  intros Hr Hs Hq Hd. destruct (calculate_score_spec log2 log2_trunc a p q (qr_wf a Hr) Hq Hd (qr_counted a Hr)
    (qr_level a Hr p q Hq) Hs (qr_mult a Hr)) as (s & E & _). eauto.
Qed.

Lemma weigh_entry_ok a0 avgs a sum p :
  sched a0 <> RARE -> reweighed a0 a -> (p < length (queue_buf a0))%nat ->
  exists a' sum', weigh_entry log log10 log2 avgs (a, sum) p = Ok (a', sum') /\ reweighed a0 a'.
Proof.
  intros Hs Hr Hp. destruct (reweighed_deref a0 a p Hr Hp) as (q & E & Hq).
  unfold weigh_entry. destruct avgs as [[ae ab] at_]. rewrite E. cbn [mbind res_bind].
  destruct (disabled q) eqn:Ed; [eauto|].
  destruct (compute_weight_total a p q ae ab at_ (proj1 Hr) Hq) as [w ->]. cbn [mbind res_bind].
  pose proof (reweighed_upd a0 a p (set_weight w) (weighs_weight w) Hr) as Hr1. set (a1 := upd p _ a) in *.
  assert (Hq1 : queue_buf a1 !! p = Some (set_weight w q)) by (unfold a1; rewrite upd_queue_buf, lookup_alter_eq, Hq; done).
  assert (Hs1 : sched a1 <> RARE) by (rewrite (al_sched _ _ (proj1 (proj2 Hr1))); done).
  destruct (calculate_score_ready a1 p _ (proj1 Hr1) Hs1 Hq1 Ed) as (s & h & ->). cbn [mbind res_bind].
  do 2 eexists. split; [reflexivity|]. do 2 (apply reweighed_upd; [auto|]). assumption.
Qed.

Lemma score_entry_ok a0 a sum p :
  sched a0 <> RARE -> reweighed a0 a -> (p < length (queue_buf a0))%nat ->
  exists a' sum', score_entry log2 (a, sum) p = Ok (a', sum') /\ reweighed a0 a'.
Proof.
  intros Hs Hr Hp. destruct (reweighed_deref a0 a p Hr Hp) as (q & E & Hq).
  unfold score_entry. rewrite E. cbn [mbind res_bind].
  assert (H : exists a1, (if disabled q then Ok a else '(s, a) ← calculate_score log2 a p;
                          Ok (upd p (set_perf_score (dint s)) a)) = Ok a1 /\ reweighed a0 a1).
  { destruct (disabled q) eqn:Ed; [eauto|].
    assert (Hs1 : sched a <> RARE) by (rewrite (al_sched _ _ (proj1 (proj2 Hr))); done).
    destruct (calculate_score_ready a p q (proj1 Hr) Hs1 Hq Ed) as (s & h & ->). cbn [mbind res_bind].
    eexists. split; [reflexivity|]. do 2 (apply reweighed_upd; [auto|]). assumption. }
  destruct H as (a1 & -> & Hr1). cbn [mbind res_bind].
  destruct (reweighed_deref a0 a1 p Hr1 Hp) as (q1 & -> & _). cbn [mbind res_bind]. eauto.
Qed.

(** A pass over entries of the queue. *)
Lemma entries_pass {S} (f : afl * S -> nat -> res (afl * S)) a0 l a s :
  (forall a s p, reweighed a0 a -> (p < length (queue_buf a0))%nat ->
     exists a' s', f (a, s) p = Ok (a', s') /\ reweighed a0 a') ->
  Forall (fun p => (p < length (queue_buf a0))%nat) l -> reweighed a0 a ->
  exists a' s', rfold f (a, s) l = Ok (a', s') /\ reweighed a0 a'.
Proof.
  intros Hf Hl. revert a s; induction Hl as [|p l Hp Hl IH]; intros a s Hr; cbn [rfold]; [eauto|].
  destruct (Hf a s p Hr Hp) as (a' & s' & -> & Hr'). cbn [mbind res_bind]. now apply IH.
Qed.

Lemma mmopt_boost_ok a0 a : reweighed a0 a -> exists a', mmopt_boost a = Ok a' /\ reweighed a0 a'.
Proof.
  intros Hr. unfold mmopt_boost. destruct (_ && _); [|eauto]. set (cnt := if 5 <=? queued_discovered a then 5 else queued_discovered a).
  assert (Hi : Forall (fun i => (i < length (queue_buf a0))%nat)
    (seq (Z.to_nat (u32 (queued_items a - cnt))) (Z.to_nat (queued_items a - u32 (queued_items a - cnt))))).
  { apply Forall_forall. intros i Hi%elem_of_seq. rewrite <- (alike_length _ _ (proj1 (proj2 Hr))).
    pose proof (qw_items a (qr_wf a (proj1 Hr))). pose proof (uwrap_range 32 (queued_items a - cnt) ltac:(lia)). lia. }
  revert Hi. generalize (seq (Z.to_nat (u32 (queued_items a - cnt))) (Z.to_nat (queued_items a - u32 (queued_items a - cnt)))).
  clear cnt. intros l Hl. revert a Hr; induction Hl as [|i l Hi Hl IH]; intros a Hr; cbn [rfold]; [eauto|].
  destruct (reweighed_deref a0 a i Hr Hi) as (q & E & _). rewrite E. cbn [mbind res_bind].
  apply IH. destruct (disabled q); [done|]. now apply reweighed_upd.
Qed.

Lemma scaled_weights_length value a0 a sum :
  reweighed a0 a -> length (scaled_weights value a sum) = Z.to_nat (queued_items a0).
Proof.
  intros (Hr & Hal & E). unfold scaled_weights. rewrite length_map, length_take.
  replace (queued_items a) with (queued_items a0) by (rewrite E; reflexivity).
  assert (Hi : queued_items a = queued_items a0) by (rewrite E; reflexivity).
  pose proof (qw_items a (qr_wf a Hr)). lia.
Qed.

(** The table is always built, in every schedule but RARE, has a slot for
    every entry, and building it changes only weights and scores. *)
Lemma create_alias_table_ok a :
  queue_ready a -> sched a <> RARE ->
  exists a' tbl, create_alias_table log log10 log2 a = Ok (a', tbl) /\
    queue_ready a' /\ alike a a' /\ a' = set_reinit_table false (set_queue_buf (queue_buf a') a) /\
    table_for (Z.to_nat (queued_items a)) tbl.
Proof.
  intros Hr Hs. unfold create_alias_table. set (idx := seq 0 _).
  assert (Hidx : Forall (fun p => (p < length (queue_buf a))%nat) idx).
  { apply Forall_forall. intros p Hp%elem_of_seq. pose proof (qw_items a (qr_wf a Hr)). lia. }
  assert (H : exists a1 value sum,
    (if negb (sched_ge (sched a) RARE) then
       '(a, sum) ← rfold (weigh_entry log log10 log2 (alias_averages log a)) (a, dint 0) idx;
       a ← mmopt_boost a; Ok (a, scaled_weights weight a sum)
     else '(a, sum) ← rfold (score_entry log2) (a, dint 0) idx; Ok (a, scaled_weights perf_score a sum))
    = Ok (a1, scaled_weights value a1 sum) /\ reweighed a a1).
  { destruct (negb _).
    - destruct (entries_pass (weigh_entry log log10 log2 (alias_averages log a)) a idx a (dint 0)) as (a1 & sum & -> & H1);
        [intros; now apply weigh_entry_ok|exact Hidx|now apply reweighed_refl|]. cbn [mbind res_bind].
      destruct (mmopt_boost_ok a a1 H1) as (a2 & -> & H2). cbn [mbind res_bind]. eauto.
    - destruct (entries_pass (score_entry log2) a idx a (dint 0)) as (a1 & sum & -> & H1);
        [intros; now apply score_entry_ok|exact Hidx|now apply reweighed_refl|]. cbn [mbind res_bind]. eauto. }
  destruct H as (a1 & value & sum & -> & H1). cbn [mbind res_bind].
  destruct (vose_table_spec (scaled_weights value a1 sum)) as (prob & table & -> & E1 & E2 & E3). cbn [mbind res_bind].
  rewrite (scaled_weights_length value a a1 sum H1) in *.
  do 2 eexists. split; [reflexivity|]. destruct H1 as (R1 & R2 & R3). split; [|split; [|split]].
  - destruct R1 as [[] ? ? ? ? ? ? ? ?]. split; auto. now split.
  - destruct R2. now split.
  - cbn. now rewrite R3 at 1.
  - now split.
Qed.
End Table.

(** ** The contract of [fuzz_one] and of the synchronisation *)

(** The queue is still ready and lost nothing. *)
Record kept {G W} (I : W -> Prop) (e e' : engine G W) : Prop := {
  kp_ready : queue_ready (e_afl e');
  kp_inv : I (e_world e');
  kp_names : map fname (queue_buf (e_afl e)) `prefix_of` map fname (queue_buf (e_afl e'));
  kp_sched : sched (e_afl e') = sched (e_afl e)
}.

Class EngineLaws (G W : Type) `{Engine G W} (I : W -> Prop) (E : abort -> Prop) := {
  el_fuzz : forall f c (e : engine G W) p, queue_ready (e_afl e) -> I (e_world e) ->
    queue_cur (e_afl e) = Some p -> (p < length (queue_buf (e_afl e)))%nat ->
    or_stop E (fuzz_one f c e) (fun '(_, e') => kept I e e');
  el_sync : forall c (e : engine G W), queue_ready (e_afl e) -> I (e_world e) ->
    or_stop E (sync_fuzzers c e) (fun e' => kept I e e' /\ queue_cur (e_afl e') = queue_cur (e_afl e));
  el_clock : forall w, I w -> I (snd (get_cur_time w))
}.

(** The schedules the loop is followed through: all but RARE, and the cycle of
    schedules that RARE is not part of. *)
Definition schedule_ok (o : settings) (s : schedule) : Prop :=
  s <> RARE /\ (cycle_schedules o = true -> s = EXPLORE \/ s = EXPLOIT \/ s = MMOPT \/ s = SEEK).

(** How far the stack of havoc mutations can still rise, and the limits of
    the rest. *)
Definition spare (n : Z) : Z := if n <=? 2 then 2 else if n =? 3 then 1 else 0.

Record effort_ok (B : Z) (f : effort) : Prop := {
  ef_havoc : 0 <= expand_havoc f <= 5;
  ef_stack : 0 <= havoc_stack_pow2 f /\ havoc_stack_pow2 f + spare (expand_havoc f) <= B;
  ef_lvl : 0 <= cmplog_lvl f <= 3;
  ef_size : 0 <= cmplog_max_filesize f <= 16 * MAX_FILE
}.

Lemma harder_ok o c B f : B < 256 -> effort_ok B f -> effort_ok B (harder o c f).
Proof.
  intros HB [H1 [H2 H3] H4 H5]. unfold harder. destruct (use_splicing f); [|now split]. cbv zeta.
  assert (Hsz : 0 <= (if c && (cmplog_max_filesize f <? MAX_FILE) then u32 (cmplog_max_filesize f .<< 4)
                      else cmplog_max_filesize f) <= 16 * MAX_FILE).
  { destruct (Z.ltb_spec (cmplog_max_filesize f) MAX_FILE); destruct c; cbn [andb]; try done.
    change MAX_FILE with 1048576 in *. rewrite Z.shiftl_mul_pow2 by lia. change (2 ^ 4) with 16. rewrite uwrap_id; lia. }
  assert (Hlv : 0 <= (if truthy (cmplog_lvl f) && (cmplog_lvl f <? 2) then 2 else cmplog_lvl f) <= 3)
    by (destruct (truthy (cmplog_lvl f) && (cmplog_lvl f <? 2)); lia).
  unfold spare in *.
  assert (Hc : expand_havoc f = 0 \/ expand_havoc f = 1 \/ expand_havoc f = 2 \/ expand_havoc f = 3 \/
               expand_havoc f = 4 \/ expand_havoc f = 5) by lia.
  destruct Hc as [Ec|[Ec|[Ec|[Ec|[Ec|Ec]]]]]; rewrite Ec in H3 |- *; cbn in H3; split; cbn;
    rewrite ?(uwrap_id 8) by lia; try exact Hsz; try exact Hlv; try exact H4; try lia.
Qed.

(** ** The start of a cycle *)

Lemma rescore_ok a p : queue_ready a -> (p < length (queue_buf a))%nat ->
  exists a', rescore a p = Ok a' /\ queue_ready a' /\ alike a a'.
Proof.
  intros Hr Hp. unfold rescore, deref. destruct (rd_lt _ _ Hp) as (q & -> & Hq). cbn [mbind res_bind].
  destruct (disabled q); [exists a; now split|].
  destruct (update_bitmap_score_spec a p q (qr_wf a Hr) Hq) as (a' & -> & [Eb Er] & Hwf & _ & _ & Hm).
  exists a'. split; [done|].
  assert (Hal : alike a a').
  { split; [exact (map_through core ident ident _ _ (fun _ => eq_refl) Eb)|now rewrite Er..]. }
  split; [|exact Hal]. apply (ready_alike a a' Hr Hal Hwf).
  - apply Hm. right. apply Hr.
  - replace (redundant_edges a') with (redundant_edges a) by (rewrite Er; reflexivity).
    apply (dir_ok_map core (queue_buf a)); [|exact Eb|apply Hr]. intros x y E.
    split; [exact (f_equal fname E)|exact (f_equal fs_redundant E)].
Qed.

Lemma ready_cur c a : queue_ready a -> queue_ready (set_queue_cur c a).
Proof. intros [[] ? ? ? ? ? ? ? ?]. split; auto. now split. Qed.
Lemma ready_finds n a : queue_ready a -> queue_ready (set_cycles_wo_finds n a).
Proof. intros [[] ? ? ? ? ? ? ? ?]. split; auto. now split. Qed.
Lemma ready_sched s a : queue_ready a -> queue_ready (set_sched s a).
Proof. intros [[] ? ? ? ? ? ? ? ?]. split; auto. now split. Qed.

Lemma next_schedule_ok o s : cycle_schedules o = true -> schedule_ok o s -> schedule_ok o (next_schedule s).
Proof. intros Hc [_ H]. destruct (H Hc) as [->|[->|[->| ->]]]; (split; [done|]); cbn; auto. Qed.

Lemma cycle_schedule_ok o a : queue_ready a -> schedule_ok o (sched a) ->
  exists a', cycle_schedule o a = Ok a' /\ queue_ready a' /\ schedule_ok o (sched a') /\
    map fname (queue_buf a') = map fname (queue_buf a) /\ queue_cur a' = queue_cur a.
Proof.
  intros Hr Hs. unfold cycle_schedule. destruct (cycle_schedules o) eqn:Ec; [|eauto 10].
  set (a1 := set_sched _ a). pose proof (ready_sched (next_schedule (sched a)) a Hr) as Hr1. fold a1 in Hr1.
  assert (Hl : Forall (fun p => (p < length (queue_buf a1))%nat) (seq 0 (Z.to_nat (queued_items a)))).
  { apply Forall_forall. intros p Hp%elem_of_seq. pose proof (qw_items a (qr_wf a Hr)). cbn. lia. }
  assert (H : exists a', rfold rescore a1 (seq 0 (Z.to_nat (queued_items a))) = Ok a' /\ queue_ready a' /\ alike a1 a').
  { revert Hl. generalize (seq 0 (Z.to_nat (queued_items a))). intros l Hl. clearbody a1. clear -Hl Hr1.
    assert (Hal : alike a1 a1) by done. revert Hr1 Hal. generalize a1 at 1 3 4. 
    induction Hl as [|p l Hp Hl IH]; intros b Hb Hal; cbn [rfold]; [eauto|].
    destruct (rescore_ok b p Hb) as (b' & -> & Hb' & Hal'); [now rewrite (alike_length _ _ Hal)|].
    cbn [mbind res_bind]. apply IH; [done|]. now transitivity b. }
  destruct H as (a' & -> & Hr' & Hal). exists a'. split; [done|]. split; [done|].
  split; [|split; [exact (alike_names _ _ Hal)|exact (al_cur _ _ Hal)]].
  rewrite (al_sched _ _ Hal). now apply next_schedule_ok.
Qed.

Lemma skip_disabled_ok a n i : queue_ready a -> exists j, skip_disabled n a i = Ok j.
Proof.
  intros Hr. revert i; induction n as [|n IH]; intros i; cbn [skip_disabled]; [eauto|].
  destruct (Z.ltb_spec (Z.of_nat i) (queued_items a)) as [Hi|]; [|eauto].
  rewrite (qw_items a (qr_wf a Hr)) in Hi. unfold deref.
  destruct (rd_lt (queue_buf a) i) as (q & -> & _); [lia|]. cbn [mbind res_bind]. destruct (disabled q); eauto.
Qed.

Lemma deref_ok a i : queue_ready a -> Z.of_nat i < queued_items a -> exists q, deref a i = Ok q.
Proof.
  intros Hr Hi. rewrite (qw_items a (qr_wf a Hr)) in Hi. unfold deref.
  destruct (rd_lt (queue_buf a) i) as (q & -> & _); [lia|]. eauto.
Qed.

Lemma first_entry_ok o a seek cur : queue_ready a -> 0 <= seek < queued_items a ->
  exists c i seek', first_entry o a seek cur = Ok (set_queue_cur c a, i, seek') /\ 0 <= seek' < queued_items a /\
    (old_seed_selection o = true -> exists p, c = Some p /\ (p < length (queue_buf a))%nat).
Proof.
  intros Hr Hseek. unfold first_entry. pose proof (ready_items a Hr) as Hn. pose proof (qw_items a (qr_wf a Hr)) as Hq.
  destruct (old_seed_selection o); [|exists (queue_cur a), cur, seek; split; [now destruct a|done]].
  destruct (skip_disabled_ok a (Z.to_nat (queued_items a)) 0 Hr) as [j ->]. cbn [mbind res_bind].
  set (i := if queued_items a <=? Z.of_nat j then 0%nat else j). assert (Hi : Z.of_nat i < queued_items a)
    by (subst i; destruct (Z.leb_spec (queued_items a) (Z.of_nat j)); lia).
  destruct (deref_ok a i Hr Hi) as [q ->]. cbn [mbind res_bind]. destruct (truthy seek).
  - destruct (Z.leb_spec (queued_items a) seek); [lia|].
    destruct (deref_ok a (Z.to_nat seek) Hr ltac:(lia)) as [q' ->]. cbn [mbind res_bind].
    do 3 eexists. split; [reflexivity|]. split; [lia|]. intros _. eexists. split; [reflexivity|]. lia.
  - do 3 eexists. split; [reflexivity|]. split; [lia|]. intros _. eexists. split; [reflexivity|]. lia.
Qed.

(** ** The invariant *)

Section Loop.
Context {G W : Type} `{RandGenLaws G} (I : W -> Prop) (E : abort -> Prop) `{EngineLaws G W I E}.
Context (next_percent : G -> double * G) (log log10 log2 : double -> double) (o : settings).
Hypothesis log2_trunc : forall n, 0 < n < 2 ^ 32 -> dtrunc (log2 (dint n)) = Some (Z.log2 n).
Hypothesis Hplain : introspection o = false.
Context (B : Z) (HB : B < 256) (names : list (list Z)).
Implicit Types l : loop G W.

(** [fuzz_one], the synchronisation or a draw comes to nothing. *)
Abbreviation or_lost := (or_stop (fun e => E e \/ rand_stops (G := G) e)).

Lemma or_engine {A} (m : res A) Q : or_stop E m Q -> or_lost m Q.
Proof. apply or_stop_weaken. auto. Qed.

Record sound l : Prop := {
  so_ready : queue_ready (l_afl l);
  so_inv : I (e_world (l_eng l));
  so_names : names `prefix_of` map fname (queue_buf (l_afl l));
  so_sched : schedule_ok o (sched (l_afl l));
  so_effort : effort_ok B (l_effort l);
  so_seek : 0 <= seek_to l < queued_items (l_afl l);
  so_table : table_for (Z.to_nat (prev_queued_items l)) (alias_tables l);
  so_prev : 0 <= prev_queued_items l <= queued_items (l_afl l)
}.

(** The old seed selection has an entry, or is about to start a cycle. *)
Definition at_point (h : bool) l : Prop :=
  old_seed_selection o = true ->
  match queue_cur (l_afl l) with Some p => (p < length (queue_buf (l_afl l)))%nat | None => h = true end.

Lemma sound_same l l' :
  l_eng l' = l_eng l -> l_effort l' = l_effort l -> seek_to l' = seek_to l -> alias_tables l' = alias_tables l ->
  prev_queued_items l' = prev_queued_items l -> sound l -> sound l'.
Proof. intros E1 E2 E3 E4 E5 []. split; unfold l_afl in *; rewrite ?E1, ?E2, ?E3, ?E4, ?E5; assumption. Qed.

Lemma prefix_items a a' : queue_ready a -> queue_ready a' ->
  map fname (queue_buf a) `prefix_of` map fname (queue_buf a') ->
  (length (queue_buf a) <= length (queue_buf a'))%nat /\ queued_items a <= queued_items a'.
Proof.
  intros Hr Hr' Hp%prefix_length. rewrite !length_map in Hp.
  rewrite (qw_items a (qr_wf a Hr)), (qw_items a' (qr_wf a' Hr')). lia.
Qed.

Lemma sound_eng l e : sound l -> kept I (l_eng l) e -> sound (with_eng e l).
Proof.
  intros [] []. destruct (prefix_items _ _ so_ready0 kp_ready0 kp_names0) as [_ Hi]. unfold l_afl in *.
  split; unfold l_afl; cbn; auto; try lia; [etransitivity; eassumption|congruence].
Qed.

(** A change of the loop's own. *)
Lemma kept_own l a : sound l -> queue_ready a ->
  map fname (queue_buf a) = map fname (queue_buf (l_afl l)) -> sched a = sched (l_afl l) ->
  kept I (l_eng l) (set_afl a (l_eng l)).
Proof. intros [] Hr En Es. split; cbn; auto. unfold l_afl in En. now rewrite En. Qed.

Lemma sound_own l a : sound l -> queue_ready a ->
  map fname (queue_buf a) = map fname (queue_buf (l_afl l)) -> sched a = sched (l_afl l) -> sound (with_afl a l).
Proof. intros Hs Hr En Es. apply sound_eng; [done|]. now apply kept_own. Qed.

Lemma sync_ok l : sound l -> or_lost (sync l) (fun l' => sound l' /\
  queue_cur (l_afl l') = queue_cur (l_afl l) /\ (length (queue_buf (l_afl l)) <= length (queue_buf (l_afl l')))%nat).
Proof.
  intros Hs. unfold sync. apply or_stop_bind.
  eapply or_stop_mono; [apply or_engine, (el_sync (queue_cycle l) (l_eng l)); apply Hs|]. intros e [Hk Hc].
  pose proof (el_clock _ (kp_inv _ _ _ Hk)) as Ht. destruct (get_cur_time (e_world e)) as [t w]. cbn [or_stop].
  split; [|split; [exact Hc|apply (prefix_items (l_afl l)); [apply Hs|apply Hk|apply Hk]]].
  eapply sound_same; [..|apply (sound_eng l (mkEngine (e_afl e) (e_rng e) (e_stop e) w) Hs)]; try reflexivity.
  destruct Hk. now split.
Qed.

Lemma new_cycle_ok l : sound l -> or_lost (new_cycle o l) (fun l' => sound l' /\ at_point false l').
Proof.
  intros Hs. unfold new_cycle. apply or_stop_bind.
  eapply or_stop_mono with (P := sound).
  { destruct (sync_is_due o l); [|exact Hs]. eapply or_stop_mono; [now apply sync_ok|]. now intros l' [? _]. }
  clear l Hs. intros l Hs.
  destruct (first_entry_ok o (l_afl l) (seek_to l) (current_entry l) (so_ready l Hs) (so_seek l Hs))
    as (c & i & seek & -> & Hseek & Hc). cbn [mbind res_bind].
  pose proof (sound_own l (set_queue_cur c (l_afl l)) Hs (ready_cur c _ (so_ready l Hs)) eq_refl eq_refl) as Hs1.
  assert (Hn : exists a f, no_finds o (with_afl (set_queue_cur c (l_afl l)) l) = (a, f) /\ queue_ready a /\
    map fname (queue_buf a) = map fname (queue_buf (l_afl l)) /\ queue_cur a = c /\ effort_ok B f /\
    sched a = sched (l_afl l)).
  { unfold no_finds. set (l1 := with_afl _ l) in *. pose proof (so_ready l1 Hs1). pose proof (so_effort l1 Hs1).
    destruct (_ =? _); [destruct (use_splicing _)|]; do 2 eexists; (split; [reflexivity|]);
      auto 10 using ready_finds, harder_ok. }
  destruct Hn as (a & f & -> & Ha & En & Ecur & Hf & Es).
  destruct (cycle_schedule_ok o a Ha) as (a' & -> & Ha' & Hs' & En' & Ecur'); [rewrite Es; apply Hs|].
  cbn [mbind res_bind or_stop].
  assert (Elen : length (queue_buf a') = length (queue_buf (l_afl l))).
  { apply (f_equal length) in En, En'. rewrite !length_map in *. congruence. }
  assert (Eit : queued_items a' = queued_items (l_afl l))
    by (rewrite (qw_items _ (qr_wf _ Ha')), Elen; symmetry; apply qw_items; apply Hs).
  split.
  - destruct Hs. split; unfold l_afl in *; cbn; auto; rewrite ?Eit; try lia. now rewrite En', En.
  - intros Ho. unfold l_afl. cbn. destruct (Hc Ho) as (p & -> & Hp). rewrite Ecur', Ecur, Elen. exact Hp.
Qed.

Lemma loop_head_ok l : sound l -> at_point true l -> or_lost (loop_head o l) (fun l' => sound l' /\ at_point false l').
Proof.
  intros Hs Hp. unfold loop_head. destruct (cull_ready (l_afl l) (so_ready l Hs)) as (a & -> & Hr & Hal).
  cbn [mbind res_bind].
  pose proof (sound_own l a Hs Hr (alike_names _ _ Hal) (al_sched _ _ Hal)) as Hs1.
  apply or_stop_bind. eapply or_stop_mono with (P := fun l' => sound l' /\ at_point false l').
  - destruct (cycle_is_over o (with_afl a l)) eqn:Ec; [now apply new_cycle_ok|]. split; [exact Hs1|].
    intros Ho. specialize (Hp Ho). unfold cycle_is_over in Ec. rewrite Ho in Ec. cbn [negb andb orb] in Ec.
    unfold l_afl in *. cbn in Ec |- *. rewrite (al_cur _ _ Hal) in *. rewrite (alike_length _ _ Hal).
    apply bool_decide_eq_false in Ec. destruct (queue_cur _); done.
  - intros l' [Q1 Q2]. split; [now apply (sound_same l')|exact Q2].
Qed.

(** ** One entry *)

Lemma draw_entry_ok tries n tbl g : 0 < n < 2 ^ 32 -> table_for (Z.to_nat n) tbl ->
  or_lost (draw_entry next_percent (S tries) n tbl g) (fun '(i, _) => Z.of_nat i < n).
Proof.
  intros Hn Ht. pose proof (select_next_queue_entry_bound next_percent n tbl g Hn Ht) as Hb. cbn [draw_entry].
  destruct (rand_below g n) as [xg|e] eqn:Ex.
  - destruct Hb as (i & g' & Es & Hi). rewrite Es. cbn [mbind res_bind]. destruct (Z.leb_spec n (Z.of_nat i)); [lia|].
    cbn [or_stop]. lia.
  - rewrite Hb. cbn. right. now exists n, g.
Qed.

Lemma fresh_table_ok l : sound l ->
  exists l', fresh_table log log10 log2 l = Ok l' /\ sound l' /\ prev_queued_items l' = queued_items (l_afl l').
Proof.
  intros Hs. unfold fresh_table. pose proof (so_prev l Hs) as Hp.
  destruct (Z.ltb_spec (prev_queued_items l) (queued_items (l_afl l))) as [Hlt|Hge]; cbn [orb].
  2: destruct (reinit_table (l_afl l)); [|exists l; split; [done|]; split; [done|lia]].
  all: destruct (create_alias_table_ok log log10 log2 log2_trunc (l_afl l) (so_ready l Hs) (proj1 (so_sched l Hs)))
    as (a & tbl & -> & Hr & Hal & Ea & Ht); cbn [mbind res_bind]; eexists; (split; [reflexivity|]).
  all: assert (Ei : queued_items a = queued_items (l_afl l)) by (rewrite Ea; reflexivity).
  all: destruct Hs; split; [split|]; unfold l_afl in *; cbn; rewrite ?Ei, ?(alike_names _ _ Hal), ?(al_sched _ _ Hal); auto; lia.
Qed.

Lemma next_entry_ok tries l : sound l -> at_point false l ->
  or_lost (next_entry next_percent log log10 log2 o (S tries) l) (fun l' => sound l' /\
    exists p, queue_cur (l_afl l') = Some p /\ (p < length (queue_buf (l_afl l')))%nat).
Proof.
  intros Hs Hp. unfold next_entry, at_point in *. destruct (old_seed_selection o).
  { specialize (Hp eq_refl). destruct (queue_cur (l_afl l)) as [p|] eqn:Ec; [|discriminate]. cbn. split; [exact Hs|]. now exists p. }
  destruct (fresh_table_ok l Hs) as (l1 & -> & Hs1 & Ep). cbn [mbind res_bind].
  pose proof (so_ready l1 Hs1) as Hr. pose proof (ready_items _ Hr) as Hn.
  apply or_stop_bind. eapply or_stop_mono.
  { apply (draw_entry_ok tries (queued_items (l_afl l1)) (alias_tables l1) (e_rng (l_eng l1)) Hn). rewrite <- Ep. apply Hs1. }
  intros [i g] Hi. cbn beta iota. destruct (deref_ok _ _ Hr Hi) as [q ->]. cbn [mbind res_bind or_stop].
  split; [|exists i; split; [reflexivity|]].
  - apply (sound_same (with_eng (mkEngine (set_queue_cur (Some i) (l_afl l1)) g (e_stop (l_eng l1)) (e_world (l_eng l1))) l1));
      try reflexivity.
    apply sound_eng; [done|]. destruct Hs1. split; cbn; auto. now apply ready_cur.
  - unfold l_afl. cbn. rewrite (qw_items _ (qr_wf _ Hr)) in Hi. unfold l_afl in Hi. lia.
Qed.

Lemma old_next_ok l : sound l -> exists l', old_next o l = Ok l' /\ sound l' /\
  (old_seed_selection o = true -> forall p, queue_cur (l_afl l') = Some p -> (p < length (queue_buf (l_afl l')))%nat).
Proof.
  intros Hs. unfold old_next. destruct (old_seed_selection o); [|exists l; now split].
  pose proof (so_ready l Hs) as Hr.
  destruct (skip_disabled_ok (l_afl l) (Z.to_nat (queued_items (l_afl l)) - S (current_entry l)) (S (current_entry l)) Hr)
    as [i ->]. cbn [mbind res_bind].
  assert (Hc : exists c, (if queued_items (l_afl l) <=? Z.of_nat i then Ok None
    else q ← deref (l_afl l) i; Ok (if disabled q then None else Some i)) = Ok c /\
    forall p, c = Some p -> (p < length (queue_buf (l_afl l)))%nat).
  { destruct (Z.leb_spec (queued_items (l_afl l)) (Z.of_nat i)) as [|Hi]; [eexists; split; [reflexivity|done]|].
    destruct (deref_ok _ _ Hr Hi) as [q ->]. cbn [mbind res_bind]. eexists. split; [reflexivity|].
    rewrite (qw_items _ (qr_wf _ Hr)) in Hi. intros p. destruct (disabled q); [done|]. intros [= <-]. lia. }
  destruct Hc as (c & -> & Hc). cbn [mbind res_bind]. eexists. split; [reflexivity|]. split; [|intros _; exact Hc].
  apply (sound_same (with_afl (set_queue_cur c (l_afl l)) l)); try reflexivity.
  apply sound_own; try done. now apply ready_cur.
Qed.

Lemma sound_stop l z : sound l -> sound (with_eng (mkEngine (l_afl l) (e_rng (l_eng l)) z (e_world (l_eng l))) l).
Proof. intros Hs. apply sound_eng; [done|]. destruct Hs. now split. Qed.

Lemma one_entry_ok tries l : sound l -> at_point false l ->
  or_lost (one_entry next_percent log log10 log2 o (S tries) l) (fun '(again, l') => sound l' /\ at_point (negb again) l').
Proof.
  intros Hs Hp. unfold one_entry. apply or_stop_bind. eapply or_stop_mono; [exact (next_entry_ok tries l Hs Hp)|].
  intros l1 (Hs1 & p & Hc & Hl). apply or_stop_bind.
  eapply or_stop_mono; [apply or_engine, (el_fuzz (l_effort l1) (queue_cycle l1) (l_eng l1) p (so_ready l1 Hs1) (so_inv l1 Hs1) Hc Hl)|].
  intros [skipped e] Hk. unfold credit_finds. rewrite Hplain. cbn [andb].
  pose proof (sound_eng l1 e Hs1 Hk) as Hs2. set (l2 := with_eng e l1) in *.
  set (l3 := if _ : bool then with_eng _ l2 else l2).
  assert (Hs3 : sound l3) by (subst l3; destruct (_ && _); [exact (sound_stop l2 2 Hs2)|exact Hs2]). clearbody l3.
  destruct (old_next_ok l3 Hs3) as (l4 & -> & Hs4 & Hc4). cbn [mbind res_bind or_stop]. split; [exact Hs4|].
  intros Ho. specialize (Hc4 Ho). destruct (queue_cur (l_afl l4)) as [k|] eqn:Ek; [now apply Hc4|].
  rewrite bool_decide_eq_false_2 by (intros [? [=]]). now rewrite andb_false_r.
Qed.

(** ** The whole loop *)

Lemma at_point_synced h l l' : at_point h l -> queue_cur (l_afl l') = queue_cur (l_afl l) ->
  (length (queue_buf (l_afl l)) <= length (queue_buf (l_afl l')))%nat -> at_point h l'.
Proof.
  intros Hp Ec Hl Ho. specialize (Hp Ho). rewrite Ec. destruct (queue_cur _); [lia|done].
Qed.

Lemma sync_after l : sound l -> at_point true l -> or_lost (sync l) (fun l' => sound l' /\ at_point true l').
Proof.
  intros Hs Hp. eapply or_stop_mono; [now apply sync_ok|]. intros l' (Hs' & Ec & Hl).
  split; [done|]. now apply (at_point_synced true l).
Qed.

Lemma count_sync_ok k l : sound l -> at_point true l ->
  or_lost (count_sync k l) (fun l' => sound l' /\ at_point true l').
Proof.
  intros Hs Hp. unfold count_sync. set (l1 := mkLoop _ _ _ _ _ _ _ _ _ _ _ _).
  assert (Hs1 : sound l1) by (now apply (sound_same l)).
  destruct (_ =? _); [now apply sync_after|now split].
Qed.

Lemma maybe_sync_ok l : sound l -> at_point true l ->
  or_lost (maybe_sync o l) (fun l' => sound l' /\ at_point true l').
Proof.
  intros Hs Hp. unfold maybe_sync. destruct (_ && _); [|now split].
  destruct (skip_deterministic o); [|now apply sync_after].
  pose proof (el_clock _ (so_inv l Hs)) as Ht. destruct (get_cur_time (e_world (l_eng l))) as [t w].
  set (l1 := with_eng _ l). assert (Hs1 : sound l1) by (apply sound_eng; [done|]; destruct Hs; now split).
  destruct (is_main_node o); destruct (_ <? _); first [now apply count_sync_ok|now split].
Qed.

Lemma fuzz_loop_ok tries n h l : sound l -> at_point h l ->
  or_lost (fuzz_loop next_percent log log10 log2 o (S tries) n h l) (fun '(h', l') => sound l' /\ at_point h' l').
Proof.
  revert h l; induction n as [|n IH]; intros h l Hs Hp; cbn [fuzz_loop]; [now split|].
  destruct (h && stopped l) eqn:Est; [apply andb_true_iff in Est as [-> _]; now split|].
  apply or_stop_bind. eapply or_stop_mono with (P := fun l' => sound l' /\ at_point false l').
  { destruct h; [now apply loop_head_ok|now split]. }
  clear l Hs Hp Est. intros l [Hs Hp]. apply or_stop_bind.
  eapply or_stop_mono; [now apply one_entry_ok|]. clear l Hs Hp. intros [again l] [Hs Hp]. apply or_stop_bind.
  eapply or_stop_mono with (P := fun l' => sound l' /\ at_point (negb again) l').
  { destruct again; [now split|now apply maybe_sync_ok]. }
  clear l Hs Hp. intros l [Hs Hp]. now apply IH.
Qed.
End Loop.

(** C3: the fuzzing loop, in a build without INTROSPECTION, with a schedule
    other than RARE (one of EXPLORE, EXPLOIT, MMOPT and SEEK if schedules are
    cycled).  Let [fuzz_one], whenever it is called with a ready queue and a
    current entry in it, and the synchronisation leave a ready queue that lost
    nothing, or end the program in one of the ways [E].  Then from a ready
    queue every number of rounds, in either seed selection, keeps the queue
    ready and its entries in place, the effort within its limits and the alias
    tables those of a queue no longer than the present one; [fuzz_one] is only
    called with an entry of the queue; one draw always finds one; and the loop
    itself never reads out of bounds, never divides by zero and never reports
    the position to resume at as out of bounds: only [fuzz_one], the
    synchronisation or a draw that fails can end the program.  With
    INTROSPECTION this is not so: [introspection_draws_past_table]. *)
Theorem fuzz_loop_correct {G W} `{RandGenLaws G} I E `{EngineLaws G W I E} next_percent log log10 log2 o B tries n
    (l : loop G W) :
  (forall n, 0 < n < 2 ^ 32 -> dtrunc (log2 (dint n)) = Some (Z.log2 n)) ->
  introspection o = false -> B < 256 ->
  queue_ready (l_afl l) -> I (e_world (l_eng l)) -> schedule_ok o (sched (l_afl l)) -> effort_ok B (l_effort l) ->
  0 <= seek_to l < queued_items (l_afl l) -> prev_queued_items l = 0 -> alias_tables l = ([], []) ->
  at_point o true l ->
  match fuzz_loop next_percent log log10 log2 o (S tries) n true l with
  | Ok (at_head, l') =>
      queue_ready (l_afl l') /\ I (e_world (l_eng l')) /\
      map fname (queue_buf (l_afl l)) `prefix_of` map fname (queue_buf (l_afl l')) /\
      schedule_ok o (sched (l_afl l')) /\ effort_ok B (l_effort l') /\
      table_for (Z.to_nat (prev_queued_items l')) (alias_tables l') /\
      prev_queued_items l' <= queued_items (l_afl l') /\ at_point o at_head l'
  | Err e => E e \/ rand_stops (G := G) e
  end.
Proof.
  intros Hlog Hin HB Hr Hi Hs Hf Hseek Hp Ht Hc.
  assert (Hsound : sound I o B (map fname (queue_buf (l_afl l))) l).
  { pose proof (ready_items _ Hr). split; try done; rewrite ?Hp, ?Ht; [|lia]. split; [done|done|constructor]. }
  pose proof (fuzz_loop_ok I E next_percent log log10 log2 o Hlog Hin B HB _ tries n true l Hsound Hc) as Hl.
  destruct (fuzz_loop _ _ _ _ _ _ _ _ _) as [[h l']|e]; cbn in Hl; [|exact Hl].
  destruct Hl as [[] Hp']. intuition.
Qed.

(** ** An engine that only leaves its entries *)

Lemma ready_level a p v : 0 <= v < 2 ^ 32 -> queue_ready a -> queue_ready (upd p (set_fuzz_level v) a).
Proof.
  intros Hv Hr. pose proof Hr as [].
  assert (Hl : forall w x, queue_buf (upd p (set_fuzz_level v) a) !! w = Some x ->
    exists q, queue_buf a !! w = Some q /\ (x = q \/ x = set_fuzz_level v q)).
  { intros w x Hx. rewrite upd_queue_buf in Hx. destruct (decide (p = w)) as [->|Hne].
    - rewrite lookup_alter_eq in Hx. destruct (queue_buf a !! w) as [q|]; [|discriminate]. injection Hx as <-. eauto.
    - rewrite lookup_alter_ne in Hx by done. eauto. }
  split; try assumption.
  - now apply upd_wf.
  - apply matrix_mini_upd; auto.
  - eapply (names_ok_map fname); [|rewrite upd_queue_buf; apply map_alter_same|exact qr_names0]; auto.
  - apply (dir_ok_map (fun q => (fname q, fs_redundant q)) (queue_buf a)); [|rewrite upd_queue_buf; apply map_alter_same|done]; [|done].
    intros q q' [= ]. auto.
  - intros w x Hx. destruct (Hl w x Hx) as (q & Hq & [->| ->]); exact (qr_counted0 w q Hq).
  - intros w x Hx. destruct (Hl w x Hx) as (q & Hq & [->| ->]); [eauto|exact Hv].
  - rewrite upd_queue_buf. intros En. apply qr_some0, nil_length_inv. now rewrite <- (length_alter (set_fuzz_level v) _ p), En.
Qed.

Lemma ready_left a p : queue_ready a ->
  queue_ready (set_reinit_table true (upd p (set_was_fuzzed true) (set_pending_not_fuzzed (u32 (pending_not_fuzzed a - 1)) a))).
Proof.
  intros Hr. assert (Hr1 : queue_ready (upd p (set_was_fuzzed true) a)) by (apply ready_upd; [now split|done]).
  destruct Hr1 as [[] ? ? ? ? ? ? ? ?]. split; auto. now split.
Qed.

Lemma abandon_entry_ok stop a p : queue_ready a -> queue_cur a = Some p -> (p < length (queue_buf a))%nat ->
  exists a', abandon_entry stop a = Ok a' /\ queue_ready a' /\
    map fname (queue_buf a') = map fname (queue_buf a) /\ sched a' = sched a /\ queue_cur a' = queue_cur a.
Proof.
  intros Hr Hc Hp. unfold abandon_entry, deref. rewrite Hc. cbn [ptr mbind res_bind].
  destruct (rd_lt _ _ Hp) as (q & -> & Hq). cbn [mbind res_bind].
  set (a1 := set_reinit_table true (upd p (set_was_fuzzed true) (set_pending_not_fuzzed (u32 (pending_not_fuzzed a - 1)) a))).
  set (a2 := if favored q then set_pending_favored (u32 (pending_favored a1 - 1)) a1 else a1).
  assert (Hr1 : queue_ready a1) by now apply ready_left.
  assert (Hr2 : queue_ready a2).
  { subst a2. destruct (favored q); [|done]. destruct Hr1 as [[] ? ? ? ? ? ? ? ?]. split; auto. now split. }
  assert (Hn : map fname (queue_buf a2) = map fname (queue_buf a)).
  { replace (queue_buf a2) with (queue_buf a1) by (subst a2; now destruct (favored q)). now apply map_alter_same. }
  assert (Hs : sched a2 = sched a /\ queue_cur a2 = queue_cur a) by (subst a2; now destruct (favored q)).
  eexists. split; [reflexivity|]. destruct (_ && _).
  - split; [apply ready_level; [apply uwrap_range; lia|exact Hr2]|]. split; [|exact (conj (proj1 Hs) (eq_trans (proj2 Hs) Hc))].
    rewrite upd_queue_buf, map_alter_same; done.
  - split; [apply ready_level; [apply uwrap_range; lia|exact Hr]|]. split; [rewrite upd_queue_buf, map_alter_same; done|now split].
Qed.

#[local] Instance counter : RandGen Z := fun g limit => Ok (if limit <=? 1 then (0, g) else (g mod limit, g + 1)).
#[local] Instance counter_laws : RandGenLaws Z.
Proof.
  split.
  - intros g limit Hl. unfold rand_below, counter. now rewrite (proj2 (Z.leb_le limit 1)).
  - intros g limit x g' Hl. unfold rand_below, counter. rewrite (proj2 (Z.leb_gt limit 1)) by lia.
    intros [= <- _]. apply Z.mod_pos_bound. lia.
  - intros g limit e. unfold rand_below, counter. destruct (_ <=? _); discriminate.
Qed.

#[local] Instance leaver : Engine Z unit := {|
  fuzz_one _ _ e := a ← abandon_entry (truthy (e_stop e)) (e_afl e); Ok (false, set_afl a e);
  sync_fuzzers _ e := Ok e;
  get_cur_time w := (0, w)
|}.
#[local] Instance leaver_laws : EngineLaws Z unit (fun _ => True) (dies False).
Proof.
  split; [|intros c e Hr _; split; [now split|done]|done].
  intros f c e p Hr _ Hc Hp. cbn.
  destruct (abandon_entry_ok (truthy (e_stop e)) (e_afl e) p Hr Hc Hp) as (a & -> & Ha & En & Es & _).
  cbn. split; cbn; auto. now rewrite En.
Qed.

(** Two inputs, the matrix first, as the dry run leaves them. *)
Definition afl3 : afl := set_n_fuzz [100] afl1.

Lemma afl1_ready_parts : queue_wf afl1 /\ matrix_mini afl1.
Proof.
  destruct (update_bitmap_score_spec afl0 0 _ afl0_wf eq_refl) as (a' & E & _ & Hwf & _ & _ & Hm).
  unfold afl1. rewrite E. split; [exact Hwf|]. apply Hm. left. reflexivity.
Qed.

Lemma wf_n_fuzz a l : queue_wf a -> length (n_fuzz a) = length l -> queue_wf (set_n_fuzz l a).
Proof. intros [] E. split; try assumption. intros p q Hq. cbn. rewrite <- E. eauto. Qed.

Lemma mini_n_fuzz a l : matrix_mini a -> matrix_mini (set_n_fuzz l a).
Proof. exact (fun H => H). Qed.

Lemma afl3_ready : queue_ready afl3.
Proof.
  destruct afl1_ready_parts as [Hwf Hm]. split; [apply wf_n_fuzz; [exact Hwf|vm_compute; reflexivity]|..].
  - vm_compute. eauto.
  - now apply mini_n_fuzz.
  - split.
    + intros [|[|p]] q Hq; vm_compute in Hq; try discriminate; injection Hq as <-; vm_compute; eauto.
    + intros [|[|p]] [|[|p']] q q' Hq Hq'; vm_compute in Hq, Hq'; try discriminate; try done;
        injection Hq as <-; injection Hq' as <-; vm_compute; discriminate.
  - intros [|[|p]] q fn Hq Hfn; vm_compute in Hq; try discriminate; injection Hq as <-;
      (split; [intros Hin; exfalso; revert Hin; apply not_elem_of_empty | discriminate]).
  - intros [|[|p]] q Hq; vm_compute in Hq; try discriminate; injection Hq as <-; vm_compute; auto.
  - intros [|[|p]] q Hq; vm_compute in Hq; try discriminate; injection Hq as <-; vm_compute; split; (discriminate || reflexivity).
  - vm_compute. discriminate.
  - vm_compute. discriminate.
Qed.

Definition settings0 : settings := mkSettings false true false true true false false 1200000 false false.
Definition effort0 : effort := mkEffort false 0 4 2 1048576.
Definition loop0 {W} (w : W) (a : afl) : loop Z W :=
  mkLoop (mkEngine a 0 0 w) effort0 0 ([], []) 0 0 0 0 0 UINT32_MAX 0 0.

Lemma fuzz_loop_correct_witness :
  exists h l', fuzz_loop (fun g => (dint 0, g)) (fun x => x) (fun x => x) ilog2 settings0 1 50 true (loop0 tt afl3) = Ok (h, l') /\
    queue_ready (l_afl l') /\ havoc_stack_pow2 (l_effort l') <= 6.
Proof.
  assert (Hs : schedule_ok settings0 (sched (l_afl (loop0 tt afl3)))) by (split; [vm_compute; discriminate|vm_compute; auto]).
  assert (He : effort_ok 6 (l_effort (loop0 tt afl3))) by (split; vm_compute; split; discriminate).
  assert (Hk : 0 <= seek_to (loop0 tt afl3) < queued_items (l_afl (loop0 tt afl3))) by (split; [discriminate|vm_compute; reflexivity]).
  assert (Hp : at_point settings0 true (loop0 tt afl3)) by (intros [=]).
  pose proof (fuzz_loop_correct (fun _ => True) (dies False) (fun g => (dint 0, g)) (fun x => x) (fun x => x) ilog2 settings0 6 0 50
    (loop0 tt afl3) ilog2_trunc eq_refl eq_refl afl3_ready Logic.I
    Hs He Hk eq_refl eq_refl Hp) as Hw.
  destruct (fuzz_loop _ _ _ _ _ _ _ _ _) as [[h l']|e].
  - destruct Hw as (Hr & _ & _ & _ & [_ [H1 H2] _ _] & _). exists h, l'. split; [reflexivity|]. split; [exact Hr|].
    unfold spare in H2. repeat case_match; lia.
  - exfalso. destruct Hw as [[_ []]|(k & g & Ek)]. revert Ek. unfold rand_below, counter. destruct (k <=? 1); discriminate.
Defined.

(** ** What the loop does otherwise than it says *)

(** With [AFL_CYCLE_SCHEDULES] the first cycle does not run with the schedule
    that was asked for, and no new table is called for. *)
Lemma first_cycle_changes_schedule :
  match loop_head settings0 (loop0 tt afl3) with
  | Ok l => sched (l_afl l) = EXPLOIT /\ queue_cycle l = 1 /\ reinit_table (l_afl l) = false
  | Err _ => False
  end.
Proof. vm_compute. auto. Qed.

(** An engine that finds an input each time. *)
#[local] Instance finder : Engine Z bool := {|
  fuzz_one _ _ e :=
    a ← abandon_entry (truthy (e_stop e)) (e_afl e);
    Ok (false, set_afl (link_entry a (new_entry a [0x2f; 99 + queued_items a] 10 false)) e);
  sync_fuzzers _ e := Ok e;
  get_cur_time w := (0, w)
|}.

Definition both_fuzzed : afl := upd 0 (set_was_fuzzed true) (upd 1 (set_was_fuzzed true) afl3).

(** With INTROSPECTION the finds of an entry fuzzed before are marked as seen
    before the table has slots for them: the next draw is out of bounds. *)
Lemma introspection_draws_past_table :
  let run intro n := fuzz_loop (fun g => (dint 0, g)) (fun x => x) (fun x => x) ilog2
    (mkSettings false false false false true false false 0 false intro) 1 n true (loop0 true both_fuzzed) in
  run true 3%nat = Err Fault /\ match run false 3%nat with Ok _ => True | Err _ => False end.
Proof. vm_compute. auto. Qed.
