(* ===== verification/Tmin.v ===== *)
(** The test case minimizer, [src/afl-tmin.c].

    The fork server is the class [Fsrv]: one run of the target on a test case
    gives a result and a trace, and the user may have asked to stop.  The
    figures that are only printed at the end are left out. *)

From S2P Require Import Prelude Words Arith Bitmap Session.

(** What the tool sees of the fork server. *)
Class Fsrv (W : Type) := {
  run_testcase : W -> list Z -> fsrv_run_result * list Z * W;
  timed_out : W -> bool;  (** [last_run_timed_out] *)
  user_stop : W -> bool
}.

Record tmin_config := mkTminConf {
  hang_mode : bool;
  exact_mode : bool;
  edges_only : bool;
  tmin_map_size : Z;
  mask_bitmap : option (list Z)
}.

(** [in_data] and [tmp_buf] keep the length they were allocated with;
    [output] is the file written last. *)
Record tmin (W : Type) := mkTmin {
  fsrv : W;
  in_data : list Z;
  in_len : Z;
  tmp_buf : list Z;
  tmin_trace : list Z;
  orig_cksum : Z;
  crash_mode : bool;
  missed_hangs : Z;
  missed_crashes : Z;
  missed_paths : Z;
  output : option (list Z)
}.
Arguments mkTmin {W}. Arguments fsrv {W}. Arguments in_data {W}. Arguments in_len {W}. Arguments tmp_buf {W}.
Arguments tmin_trace {W}. Arguments orig_cksum {W}. Arguments crash_mode {W}. Arguments missed_hangs {W}.
Arguments missed_crashes {W}. Arguments missed_paths {W}. Arguments output {W}.

Definition with_run {W} (w : W) (trace : list Z) (s : tmin W) : tmin W :=
  mkTmin w (in_data s) (in_len s) (tmp_buf s) trace (orig_cksum s) (crash_mode s)
    (missed_hangs s) (missed_crashes s) (missed_paths s) (output s).
Definition with_data {W} (d : list Z) (len : Z) (s : tmin W) : tmin W :=
  mkTmin (fsrv s) d len (tmp_buf s) (tmin_trace s) (orig_cksum s) (crash_mode s)
    (missed_hangs s) (missed_crashes s) (missed_paths s) (output s).
Definition with_tmp {W} (t : list Z) (s : tmin W) : tmin W :=
  mkTmin (fsrv s) (in_data s) (in_len s) t (tmin_trace s) (orig_cksum s) (crash_mode s)
    (missed_hangs s) (missed_crashes s) (missed_paths s) (output s).
Definition with_cksum {W} (c : Z) (s : tmin W) : tmin W :=
  mkTmin (fsrv s) (in_data s) (in_len s) (tmp_buf s) (tmin_trace s) c (crash_mode s)
    (missed_hangs s) (missed_crashes s) (missed_paths s) (output s).
Definition with_crash_mode {W} (s : tmin W) : tmin W :=
  mkTmin (fsrv s) (in_data s) (in_len s) (tmp_buf s) (tmin_trace s) (orig_cksum s) true
    (missed_hangs s) (missed_crashes s) (missed_paths s) (output s).
Definition with_missed {W} (hangs crashes paths : Z) (s : tmin W) : tmin W :=
  mkTmin (fsrv s) (in_data s) (in_len s) (tmp_buf s) (tmin_trace s) (orig_cksum s) (crash_mode s)
    (u32 (missed_hangs s + hangs)) (u32 (missed_crashes s + crashes)) (u32 (missed_paths s + paths)) (output s).
Definition with_output {W} (d : list Z) (s : tmin W) : tmin W :=
  mkTmin (fsrv s) (in_data s) (in_len s) (tmp_buf s) (tmin_trace s) (orig_cksum s) (crash_mode s)
    (missed_hangs s) (missed_crashes s) (missed_paths s) (Some d).

(** [None]: the process exits. *)
Definition T (W A : Type) : Type := tmin W -> res (tmin W * option A).
#[export] Instance T_ret W : MRet (T W) := fun A x s => Ok (s, Some x).
#[export] Instance T_bind W : MBind (T W) := fun A B f m s =>
  match m s with
  | Ok (s', Some x) => f x s'
  | Ok (s', None) => Ok (s', None)
  | Err e => Err e
  end.

(** [memcpy(dst, src + i, n)] and [memcpy(dst + j, ...)], [memset]; out of
    bounds is a fault. *)
Definition memcpy (dst : list Z) (j : nat) (src : list Z) (i n : nat) : res (list Z) :=
  if bool_decide (j + n <= length dst)%nat && bool_decide (i + n <= length src)%nat
  then Ok (take j dst ++ take n (drop i src) ++ drop (j + n) dst) else Err Fault.
Definition memset (dst : list Z) (j n : nat) (x : Z) : res (list Z) :=
  if bool_decide (j + n <= length dst)%nat then Ok (take j dst ++ replicate n x ++ drop (j + n) dst) else Err Fault.
Definition bytes_of (src : list Z) (i n : nat) : res (list Z) :=
  if bool_decide (i + n <= length src)%nat then Ok (take n (drop i src)) else Err Fault.

(** The character [0]. *)
Definition ZERO : Z := 48.
Definition TMIN_SET_MIN_SIZE : Z := 4.
Definition TMIN_SET_STEPS : Z := 128.
Definition TMIN_START_STEPS : Z := 16.
Definition TMIN_MAX_FILE : Z := 10 * 1024 * 1024.

Section Tmin.
Context {W : Type} `{Fsrv W} (cf : tmin_config) (hash64 : list Z -> Z).

Definition lift {A} (m : res A) : T W A := fun s => match m with Ok x => Ok (s, Some x) | Err e => Err e end.
Definition get : T W (tmin W) := fun s => Ok (s, Some s).
Definition put (s : tmin W) : T W unit := fun _ => Ok (s, Some tt).
Definition modify (f : tmin W -> tmin W) : T W unit := fun s => Ok (f s, Some tt).
Definition exit : T W bool := fun s => Ok (s, None).

(** ** One run *)

Definition tmin_classify (mem : list Z) : list Z :=
  if edges_only cf then map (fun b => if truthy b then 1 else b) mem else map count_class_lookup8 mem.

(** By words of four bytes. *)
Definition apply_mask (mem : list Z) : res (list Z) :=
  match mask_bitmap cf with
  | None => Ok mem
  | Some mask =>
      let n := (4 * Z.to_nat (tmin_map_size cf .>> 2))%nat in
      m ← bytes_of mask 0 n;
      t ← bytes_of mem 0 n;
      Ok (zip_with Z.ldiff t m ++ drop n mem)
  end.

Definition anything_set (mem : list Z) : res bool :=
  t ← bytes_of mem 0 (4 * Z.to_nat (tmin_map_size cf .>> 2));
  Ok (existsb truthy t).

Definition same_path (first_run : bool) : T W bool :=
  s ← get;
  let cksum := hash64 (tmin_trace s) in
  _ ← (if first_run then modify (with_cksum cksum) else mret tt);
  s ← get;
  if orig_cksum s =? cksum then mret true else _ ← modify (with_missed 0 0 1); mret false.

(** Whether the change is to be kept. *)
Definition tmin_run_target (mem : list Z) (first_run : bool) : T W bool :=
  s ← get;
  let '(ret, trace, w) := run_testcase (fsrv s) mem in
  _ ← modify (with_run w trace);
  if bool_decide (ret = FSRV_RUN_ERROR) then lift (Err Fatal) else
  if user_stop w then
    d ← lift (bytes_of (in_data s) 0 (Z.to_nat (in_len s)));
    _ ← modify (with_output d); exit
  else if hang_mode cf then
    match ret with
    | FSRV_RUN_TMOUT => mret true
    | FSRV_RUN_CRASH => _ ← modify (with_missed 0 1 0); mret false
    | _ => _ ← modify (with_missed 1 0 0); mret false
    end
  else
    trace ← lift (apply_mask (tmin_classify trace));
    _ ← modify (with_run w trace);
    match ret with
    | FSRV_RUN_TMOUT => _ ← modify (with_missed 1 0 0); mret false
    | FSRV_RUN_CRASH =>
        _ ← (if first_run then modify with_crash_mode else mret tt);
        s ← get;
        if crash_mode s
        then if negb (exact_mode cf) then mret true else same_path first_run
        else _ ← modify (with_missed 0 1 0); mret false
    | _ =>
        if crash_mode s then _ ← modify (with_missed 0 0 1); mret false
        else if bool_decide (ret = FSRV_RUN_NOINST) then lift (Err Fatal) else same_path first_run
    end.

(** Runs the first [len] bytes of [tmp_buf]. *)
Definition run_tmp (len : Z) : T W bool :=
  s ← get; mem ← lift (bytes_of (tmp_buf s) 0 (Z.to_nat len)); tmin_run_target mem false.

Definition copy_to_tmp (j i n : Z) : T W unit :=
  s ← get;
  t ← lift (memcpy (tmp_buf s) (Z.to_nat j) (in_data s) (Z.to_nat i) (Z.to_nat n));
  modify (with_tmp t).

Definition copy_from_tmp (len : Z) : T W unit :=
  s ← get;
  d ← lift (memcpy (in_data s) 0 (tmp_buf s) 0 (Z.to_nat len));
  modify (with_data d (in_len s)).

(** ** Block normalization *)

Definition normalize_block (set_pos use_len : Z) : T W unit :=
  s ← get;
  old ← lift (bytes_of (in_data s) (Z.to_nat set_pos) (Z.to_nat use_len));
  if forallb (Z.eqb ZERO) old then mret tt else
  _ ← copy_to_tmp 0 0 (in_len s);
  s ← get;
  t ← lift (memset (tmp_buf s) (Z.to_nat set_pos) (Z.to_nat use_len) ZERO);
  _ ← modify (with_tmp t);
  res ← run_tmp (in_len s);
  if res : bool then
    s ← get;
    d ← lift (memset (in_data s) (Z.to_nat set_pos) (Z.to_nat use_len) ZERO);
    modify (with_data d (in_len s))
  else mret tt.

Fixpoint normalize_from (fuel : nat) (set_len set_pos : Z) : T W unit :=
  s ← get;
  if negb (set_pos <? in_len s) then mret tt else
  match fuel with
  | O => lift (Err OutOfFuel)
  | S f =>
      _ ← normalize_block set_pos (Z.min set_len (u32 (in_len s - set_pos)));
      normalize_from f set_len (u32 (set_pos + set_len))
  end.

Definition normalize : T W unit :=
  s ← get;
  let set_len := u32 (next_pow2 (in_len s / TMIN_SET_STEPS)) in
  normalize_from (Z.to_nat (in_len s)) (if set_len <? TMIN_SET_MIN_SIZE then TMIN_SET_MIN_SIZE else set_len) 0.

(** ** Block deletion *)

(** The result says whether something was deleted. *)
Definition delete_block (del_len del_pos tail_len : Z) : T W bool :=
  _ ← copy_to_tmp 0 0 del_pos;
  _ ← (if tail_len =? 0 then mret tt else copy_to_tmp del_pos (del_pos + del_len) tail_len);
  let len := u32 (del_pos + tail_len) in
  res ← run_tmp len;
  if res : bool then
    _ ← copy_from_tmp len;
    s ← get;
    _ ← modify (with_data (in_data s) len);
    mret true
  else mret false.

(** The current block is the same as the one before, which could not be deleted. *)
Definition same_block (del_len del_pos : Z) : T W bool :=
  s ← get;
  a ← lift (bytes_of (in_data s) (Z.to_nat (u32 (del_pos - del_len))) (Z.to_nat del_len));
  b ← lift (bytes_of (in_data s) (Z.to_nat del_pos) (Z.to_nat del_len));
  mret (bool_decide (a = b)).

Fixpoint delete_from (fuel : nat) (del_len del_pos : Z) (prev_del changed_any : bool) : T W bool :=
  s ← get;
  if negb (del_pos <? in_len s) then mret changed_any else
  match fuel with
  | O => lift (Err OutOfFuel)
  | S f =>
      let tail_len := Z.max 0 (s32 (in_len s - del_pos - del_len)) in
      skip ← (if negb prev_del && truthy tail_len then same_block del_len del_pos else mret false);
      if skip : bool then delete_from f del_len (u32 (del_pos + del_len)) prev_del changed_any else
      res ← delete_block del_len del_pos tail_len;
      if res : bool then delete_from f del_len del_pos true true
      else delete_from f del_len (u32 (del_pos + del_len)) false changed_any
  end.

(** [next_del_blksize] *)
Fixpoint delete_sizes (fuel : nat) (del_len : Z) (changed_any : bool) : T W bool :=
  let del_len := if truthy del_len then del_len else 1 in
  s ← get;
  changed_any ← delete_from (Z.to_nat (in_len s)) del_len 0 true changed_any;
  s ← get;
  if (1 <? del_len) && (1 <=? in_len s) then
    match fuel with O => lift (Err OutOfFuel) | S f => delete_sizes f (del_len / 2) changed_any end
  else mret changed_any.

(** ** Alphabet and character minimization *)

Definition alpha_map (d : list Z) : list Z :=
  foldl (fun m b => alter (fun c => u32 (c + 1)) (Z.to_nat b) m) (replicate 256 0) d.

Definition try_symbol (alpha : list Z) (changed_any : bool) (i : Z) : T W bool :=
  n ← lift (rd alpha (Z.to_nat i));
  if (i =? ZERO) || negb (truthy n) then mret changed_any else
  s ← get;
  _ ← copy_to_tmp 0 0 (in_len s);
  s ← get;
  let len := Z.to_nat (in_len s) in
  _ ← modify (with_tmp (map (fun b => if b =? i then ZERO else b) (take len (tmp_buf s)) ++ drop len (tmp_buf s)));
  res ← run_tmp (in_len s);
  if res : bool then _ ← copy_from_tmp (in_len s); mret true else mret changed_any.

Fixpoint fold_over {A S} (l : list A) (f : S -> A -> T W S) (x : S) : T W S :=
  match l with [] => mret x | a :: l => x ← f x a; fold_over l f x end.

Definition try_alphabet (changed_any : bool) : T W bool :=
  s ← get;
  d ← lift (bytes_of (in_data s) 0 (Z.to_nat (in_len s)));
  fold_over (seqZ 0 256) (try_symbol (alpha_map d)) changed_any.

Definition try_character (changed_any : bool) (i : nat) : T W bool :=
  s ← get;
  orig ← lift (rd (tmp_buf s) i);
  if orig =? ZERO then mret changed_any else
  t ← lift (wr (tmp_buf s) i ZERO);
  _ ← modify (with_tmp t);
  res ← run_tmp (in_len s);
  s ← get;
  if res : bool then d ← lift (wr (in_data s) i ZERO); _ ← modify (with_data d (in_len s)); mret true
  else t ← lift (wr (tmp_buf s) i orig); _ ← modify (with_tmp t); mret changed_any.

Definition try_characters (changed_any : bool) : T W bool :=
  s ← get;
  _ ← copy_to_tmp 0 0 (in_len s);
  fold_over (seq 0 (Z.to_nat (in_len s))) try_character changed_any.

(** ** The whole *)

(** [next_pass] *)
Fixpoint passes (fuel : nat) (first : bool) : T W unit :=
  s ← get;
  changed_any ← delete_sizes 32 (u32 (next_pow2 (in_len s / TMIN_START_STEPS))) false;
  if negb first && negb changed_any then mret tt else
  changed_any ← try_alphabet changed_any;
  changed_any ← try_characters changed_any;
  if changed_any : bool then
    match fuel with O => lift (Err OutOfFuel) | S f => passes f false end
  else mret tt.

Definition minimize (fuel : nat) : T W unit := _ ← normalize; passes fuel true.

(** The dry run and the output, as in [main]. *)
Definition dry_run : T W unit :=
  s ← get;
  mem ← lift (bytes_of (in_data s) 0 (Z.to_nat (in_len s)));
  _ ← tmin_run_target mem true;
  s ← get;
  if hang_mode cf && negb (timed_out (fsrv s)) then lift (Err Fatal) else
  if timed_out (fsrv s) && negb (hang_mode cf) then lift (Err Fatal) else
  if hang_mode cf || crash_mode s then mret tt else
  any ← lift (anything_set (tmin_trace s)); if any : bool then mret tt else lift (Err Fatal).

Definition tmin_main (fuel : nat) : T W unit :=
  _ ← dry_run;
  _ ← minimize fuel;
  s ← get;
  d ← lift (bytes_of (in_data s) 0 (Z.to_nat (in_len s)));
  modify (with_output d).
End Tmin.

Definition read_initial_file (content : list Z) : res (list Z) :=
  let size := Z.of_nat (length content) in
  if size =? 0 then Err Fatal else if TMIN_MAX_FILE <=? size then Err Fatal else Ok content.

(** [tmp] is what the allocator left in [tmp_buf]. *)
Definition tmin_start {W} (w : W) (data tmp : list Z) : tmin W :=
  mkTmin w data (Z.of_nat (length data)) tmp [] 0 false 0 0 0 None.
