(* ===== verification/TminThms.v ===== *)
(** The minimizer: it ends, it never leaves its buffers, and what it writes is
    still accepted by the target and cannot be cut any further. *)

From S2P Require Import Prelude Words Arith Bitmap Session Tmin.

(** ** Smaller inputs *)

(** [shrinks a b]: [b] is [a] with characters left out or set to [0]. *)
Inductive shrinks : list Z -> list Z -> Prop :=
  | shrinks_nil : shrinks [] []
  | shrinks_keep x a b : shrinks a b -> shrinks (x :: a) (x :: b)
  | shrinks_zero x a b : shrinks a b -> shrinks (x :: a) (ZERO :: b)
  | shrinks_drop x a b : shrinks a b -> shrinks (x :: a) b.
#[local] Hint Constructors shrinks : core.

(** Characters, and characters other than [0]. *)
Fixpoint weight (d : list Z) : nat :=
  match d with [] => 0 | x :: d => (if Z.eqb x ZERO then 1 else 2) + weight d end.

Lemma shrinks_refl a : shrinks a a.
Proof. induction a; auto. Qed.

Lemma shrinks_trans a b c : shrinks a b -> shrinks b c -> shrinks a c.
Proof.
  intros H. revert c. induction H as [|x a b _ IH|x a b _ IH|x a b _ IH]; intros c Hc; auto.
  - inversion Hc; subst; auto.
  - inversion Hc; subst; auto.
Qed.

Lemma shrinks_weight a b : shrinks a b -> (weight b <= weight a)%nat /\ (weight b = weight a -> b = a).
Proof.
  induction 1 as [|x a b _ [IH1 IH2]|x a b _ [IH1 IH2]|x a b _ [IH1 IH2]]; cbn [weight]; [auto|..].
  - split; [lia|]. intros. f_equal. apply IH2. lia.
  - destruct (Z.eqb_spec x ZERO) as [->|]; cbn; split; try lia. intros. f_equal. apply IH2. lia.
  - destruct (x =? ZERO); split; lia.
Qed.

Lemma shrinks_lt a b : shrinks a b -> b <> a -> (weight b < weight a)%nat.
Proof. intros H Hn. destruct (shrinks_weight a b H) as [H1 H2]. destruct (decide (weight b = weight a)); [by apply H2 in e|lia]. Qed.

Lemma shrinks_sublist a b : sublist b a -> shrinks a b.
Proof. induction 1; auto. Qed.

Lemma shrinks_zeroed a b : Forall2 (fun x y => y = x \/ y = ZERO) a b -> shrinks a b.
Proof. induction 1 as [|x y a b [-> | ->]]; auto. Qed.

Lemma shrinks_length a b : shrinks a b -> (length b <= length a)%nat.
Proof. induction 1; cbn; lia. Qed.

Lemma weight_length d : (weight d <= 2 * length d)%nat.
Proof. induction d as [|x d IH]; cbn [weight length]; [lia|]. destruct (x =? ZERO); lia. Qed.

(** ** Symbols *)

Lemma shrinks_bytes a b : shrinks a b -> bytes a -> bytes b.
Proof.
  induction 1 as [|x a b _ IH|x a b _ IH|x a b _ IH]; intros Hb; [done|..]; apply Forall_cons in Hb as [Hx Hb].
  - constructor; [done|by apply IH].
  - constructor; [unfold is_byte, ZERO; lia|by apply IH].
  - by apply IH.
Qed.

Lemma length_alpha (m d : list Z) : length (foldl (fun m b => alter (fun c => u32 (c + 1)) (Z.to_nat b) m) m d) = length m.
Proof. revert m. induction d as [|b d IH]; intros m; [done|]. cbn [foldl]. by rewrite IH, length_alter. Qed.

Lemma alpha_absent i (m d : list Z) : bytes d -> 0 <= i -> i ∉ d ->
  foldl (fun m b => alter (fun c => u32 (c + 1)) (Z.to_nat b) m) m d !! Z.to_nat i = m !! Z.to_nat i.
Proof.
  revert m. induction d as [|b d IH]; intros m Hb Hi Hn; [done|]. cbn [foldl]. apply Forall_cons in Hb as [Hb0 Hb].
  apply not_elem_of_cons in Hn as [Hib Hn]. rewrite IH by done. apply list_lookup_alter_ne. unfold is_byte in Hb0. lia.
Qed.

(** Only a symbol that occurs has a count. *)
Lemma alpha_occurs d i : bytes d -> 0 <= i < 256 -> exists c, rd (alpha_map d) (Z.to_nat i) = Ok c /\ (c <> 0 -> i ∈ d).
Proof.
  intros Hb Hi. destruct (rd_lt (alpha_map d) (Z.to_nat i)) as (c & Hr & Hl).
  { unfold alpha_map. rewrite length_alpha, length_replicate. lia. }
  exists c. split; [done|]. intros Hc. destruct (decide (i ∈ d)) as [|Hn]; [done|]. exfalso. apply Hc.
  unfold alpha_map in Hl. rewrite alpha_absent in Hl by (done || lia). apply lookup_replicate in Hl. by destruct Hl.
Qed.

(** [d] with the symbol [i] replaced. *)
Definition without (i : Z) (d : list Z) : list Z := map (fun b => if b =? i then ZERO else b) d.

Lemma shrinks_without i d : shrinks d (without i d).
Proof. apply shrinks_zeroed. induction d as [|x d IH]; constructor; [|done]. destruct (x =? i); auto. Qed.

Lemma without_changes i d : i <> ZERO -> i ∈ d -> without i d <> d.
Proof.
  intros Hi Hin E. rewrite <- E in Hin. apply list_elem_of_fmap in Hin as (x & Hx & _).
  destruct (Z.eqb_spec x i); congruence.
Qed.

Lemma elem_of_without i j d : j <> i -> j ∈ d -> j ∈ without i d.
Proof. intros Hj Hin. apply list_elem_of_fmap. exists j. destruct (Z.eqb_spec j i); done. Qed.

Lemma shrinks_insert i (d : list Z) : shrinks d (<[i:=ZERO]> d).
Proof.
  apply shrinks_zeroed. revert i. induction d as [|x d IH]; intros i; [constructor|].
  destruct i; cbn; constructor; auto. apply Forall2_same_length_lookup_2; [done|]. intros ? ? ? H1 H2. left. congruence.
Qed.

(** ** Memory *)

Lemma memcpy_ok dst j src i n :
  (j + n <= length dst)%nat -> (i + n <= length src)%nat ->
  memcpy dst j src i n = Ok (take j dst ++ take n (drop i src) ++ drop (j + n) dst).
Proof. intros H1 H2. unfold memcpy. by rewrite !bool_decide_eq_true_2. Qed.

Lemma memset_ok dst j n x :
  (j + n <= length dst)%nat -> memset dst j n x = Ok (take j dst ++ replicate n x ++ drop (j + n) dst).
Proof. intros H. unfold memset. by rewrite bool_decide_eq_true_2. Qed.

Lemma bytes_of_ok src i n : (i + n <= length src)%nat -> bytes_of src i n = Ok (take n (drop i src)).
Proof. intros H. unfold bytes_of. by rewrite bool_decide_eq_true_2. Qed.

(** [d] with [n] characters at [j] set to [0]. *)
Definition blank (j n : nat) (d : list Z) : list Z := take j d ++ replicate n ZERO ++ drop (j + n) d.

Lemma length_blank j n d : (j + n <= length d)%nat -> length (blank j n d) = length d.
Proof. intros H. unfold blank. rewrite !length_app, length_take, length_replicate, length_drop. lia. Qed.

Lemma shrinks_app a b a' b' : shrinks a b -> shrinks a' b' -> shrinks (a ++ a') (b ++ b').
Proof. induction 1; cbn; auto. Qed.

Lemma shrinks_blank j n d : (j + n <= length d)%nat -> shrinks d (blank j n d).
Proof.
  intros H. unfold blank. rewrite <- (take_drop j d) at 1. apply shrinks_app; [apply shrinks_refl|].
  rewrite <- (take_drop n (drop j d)), drop_drop. apply shrinks_app; [|apply shrinks_refl].
  assert (Hl : length (take n (drop j d)) = n) by (rewrite length_take, length_drop; lia).
  rewrite <- Hl at 2. clear. induction (take n (drop j d)); cbn; auto.
Qed.

Lemma take_blank k j n d : (j + n <= k)%nat -> (k <= length d)%nat -> take k (blank j n d) = blank j n (take k d).
Proof.
  intros H1 H2. unfold blank. rewrite take_take, Nat.min_l by lia.
  rewrite !take_app, length_take, length_replicate, take_take, skipn_firstn_comm.
  rewrite (Nat.min_r k j), (Nat.min_l j (length d)) by lia. rewrite take_replicate, Nat.min_r by lia. f_equal. f_equal. f_equal. lia.
Qed.

(** ** What is left *)

(** [d] without [len] characters at [pos]. *)
Definition cut (d : list Z) (pos len : Z) : list Z := gap d (Z.to_nat pos) (Z.to_nat len).

(** No block of length [len] can be left out. *)
Definition stuck_for (P : list Z -> bool) (len : Z) (d : list Z) : Prop :=
  forall k, 0 <= k -> k * len < Z.of_nat (length d) -> P (cut d (k * len) len) = false.

(** No block that [afl-tmin] tries can be left out of [d], down to single
    characters. *)
Definition minimal_for (P : list Z -> bool) (d : list Z) : Prop :=
  forall j, 0 <= j -> 2 ^ j <= Z.max 1 (next_pow2 (Z.of_nat (length d) / TMIN_START_STEPS)) -> stuck_for P (2 ^ j) d.

Lemma minimal_ext P P' d : (forall m, P m = P' m) -> minimal_for P d -> minimal_for P' d.
Proof. intros E H j H1 H2 k H3 H4. rewrite <- E. by apply H. Qed.

(** ** Programs *)

Section Wp.
Context {W : Type} (E : Prop) (X : tmin W -> Prop).

(** The program ends well or exits as [X] says; a fatal error needs [E]. *)
Definition wp {A} (m : T W A) (s : tmin W) (Q : A -> tmin W -> Prop) : Prop :=
  match m s with
  | Ok (s', Some x) => Q x s'
  | Ok (s', None) => X s'
  | Err e => e = Fatal /\ E
  end.

Lemma tm_bind {A B} (m : T W A) (f : A -> T W B) s Q : wp m s (fun x s' => wp (f x) s' Q) -> wp (m ≫= f) s Q.
Proof. unfold wp, mbind, T_bind. by destruct (m s) as [[s' [x|]]|e]. Qed.

Lemma tm_mono {A} (m : T W A) s (Q Q' : A -> tmin W -> Prop) : wp m s Q -> (forall x s', Q x s' -> Q' x s') -> wp m s Q'.
Proof. unfold wp. destruct (m s) as [[s' [x|]]|e]; auto. Qed.

Lemma tm_ret {A} (x : A) s (Q : A -> tmin W -> Prop) : Q x s -> wp (mret x) s Q.
Proof. done. Qed.

Lemma tm_get {A} (f : tmin W -> T W A) s Q : wp (f s) s Q -> wp (get ≫= f) s Q.
Proof. done. Qed.

Lemma tm_modify {A} g (f : unit -> T W A) s Q : wp (f tt) (g s) Q -> wp (modify g ≫= f) s Q.
Proof. done. Qed.

Lemma tm_modified g s (Q : unit -> tmin W -> Prop) : Q tt (g s) -> wp (modify g) s Q.
Proof. done. Qed.

Lemma tm_lift {A B} (m : res A) x (f : A -> T W B) s Q : m = Ok x -> wp (f x) s Q -> wp (lift m ≫= f) s Q.
Proof. by intros ->. Qed.

Lemma tm_fold {A S} (l : list A) (f : S -> A -> T W S) (J : list A -> S -> tmin W -> Prop) x s :
  J l x s -> (forall a l' x s, J (a :: l') x s -> wp (f x a) s (fun x' s' => J l' x' s')) ->
  wp (fold_over l f x) s (fun x' s' => J [] x' s').
Proof.
  intros HJ Hf. revert x s HJ. induction l as [|a l IH]; intros x s HJ; [done|]. cbn [fold_over].
  apply tm_bind. eapply tm_mono; [by apply Hf|]. intros x' s' HJ'. by apply IH.
Qed.

Lemma tm_weaken {A} (E' : Prop) (X' : tmin W -> Prop) (m : T W A) s (Q : A -> tmin W -> Prop) :
  (E -> E') -> (forall s, X s -> X' s) -> wp m s Q ->
  match m s with Ok (s', Some x) => Q x s' | Ok (s', None) => X' s' | Err e => e = Fatal /\ E' end.
Proof. unfold wp. intros HE HX. destruct (m s) as [[s' [x|]]|e]; [auto..|]. intros [? ?]. auto. Qed.
End Wp.

Section Minimize.
Context {W : Type} `{Fsrv W} (cf : tmin_config) (hash64 : list Z -> Z).

(** The target is a function of its input. *)
Context (I : W -> Prop) (ret : list Z -> fsrv_run_result) (tr : list Z -> list Z).
Record target_fixed : Prop := {
  f_run w mem : I w ->
    exists w', run_testcase w mem = (ret mem, tr mem, w') /\ I w' /\ timed_out w' = bool_decide (ret mem = FSRV_RUN_TMOUT);
  f_trace mem : (4 * Z.to_nat (tmin_map_size cf .>> 2) <= length (tr mem))%nat
}.
Context (laws : target_fixed).
Context (Hmask : forall m, mask_bitmap cf = Some m -> (4 * Z.to_nat (tmin_map_size cf .>> 2) <= length m)%nat).

Definition masked (mem : list Z) : list Z :=
  match apply_mask cf (tmin_classify cf (tr mem)) with Ok t => t | Err _ => [] end.

(** What [tmin_run_target] looks for after the dry run. *)
Definition verdict (cm : bool) (ck : Z) (mem : list Z) : bool :=
  if hang_mode cf then bool_decide (ret mem = FSRV_RUN_TMOUT) else
  match ret mem with
  | FSRV_RUN_TMOUT => false
  | FSRV_RUN_CRASH => cm && (negb (exact_mode cf) || (ck =? hash64 (masked mem)))
  | _ => negb cm && (ck =? hash64 (masked mem))
  end.

(** The runs that end the minimizer. *)
Definition run_fails : Prop := exists mem, ret mem = FSRV_RUN_ERROR \/ ret mem = FSRV_RUN_NOINST.

Lemma length_classify mem : length (tmin_classify cf mem) = length mem.
Proof. unfold tmin_classify. destruct (edges_only cf); apply length_map. Qed.

Lemma masked_ok mem : apply_mask cf (tmin_classify cf (tr mem)) = Ok (masked mem).
Proof.
  unfold masked, apply_mask. destruct (mask_bitmap cf) as [m|] eqn:Hm; [|done].
  pose proof (length_classify (tr mem)).
  pose proof (f_trace laws mem). specialize (Hmask m eq_refl).
  rewrite (bytes_of_ok m) by lia. cbn. rewrite bytes_of_ok by lia. done.
Qed.

Lemma length_masked mem : length (masked mem) = length (tr mem).
Proof.
  pose proof (masked_ok mem) as E. pose proof (f_trace laws mem). pose proof (length_classify (tr mem)). unfold apply_mask in E.
  destruct (mask_bitmap cf) as [m|] eqn:Hm; [|injection E as <-; done]. specialize (Hmask m eq_refl).
  rewrite !bytes_of_ok in E by lia. cbn in E. injection E as <-.
  rewrite length_app, length_zip_with, !length_take, !drop_0, length_drop. lia.
Qed.

(** Nothing but the fork server, the trace and the counters changes. *)
Record kept (s s' : tmin W) : Prop := {
  k_data : in_data s' = in_data s;
  k_len : in_len s' = in_len s;
  k_tmp : tmp_buf s' = tmp_buf s;
  k_cksum : orig_cksum s' = orig_cksum s;
  k_mode : crash_mode s' = crash_mode s;
  k_world : I (fsrv s')
}.

Section Run.
Context (X : tmin W -> Prop).
Definition stops (s : tmin W) : Prop := forall s', output s' = Some (take (Z.to_nat (in_len s)) (in_data s)) -> X s'.

Lemma same_path_spec mem s0 s :
  kept s0 s -> tmin_trace s = masked mem ->
  wp run_fails X (same_path hash64 false) s (fun b s' => b = (orig_cksum s0 =? hash64 (masked mem)) /\ kept s0 s').
Proof.
  intros [] Ht. unfold same_path. apply tm_get, tm_bind, tm_ret, tm_get. rewrite Ht, k_cksum0.
  destruct (orig_cksum s0 =? hash64 (masked mem)); [apply tm_ret|apply tm_modify, tm_ret]; (split; [done|]); by split.
Qed.

Lemma run_target_spec mem s :
  I (fsrv s) -> (Z.to_nat (in_len s) <= length (in_data s))%nat -> stops s ->
  wp run_fails X (tmin_run_target cf hash64 mem false) s
    (fun b s' => b = verdict (crash_mode s) (orig_cksum s) mem /\ kept s s').
Proof.
  intros HI Hlen Hx. unfold tmin_run_target. apply tm_get.
  destruct (f_run laws (fsrv s) mem HI) as (w & -> & Hw & _). apply tm_modify.
  case_bool_decide as He; [split; [done|exists mem; auto]|].
  destruct (user_stop w).
  { eapply tm_lift; [apply bytes_of_ok; lia|]. apply Hx. done. }
  unfold verdict. destruct (hang_mode cf).
  { destruct (ret mem); cbn; split; try done; by split. }
  rewrite masked_ok. eapply tm_lift; [done|]. apply tm_modify.
  set (s1 := with_run w (masked mem) _). assert (Hk : kept s s1) by by split.
  destruct (ret mem) eqn:Hr; try done.
  all: try (apply tm_bind, tm_ret, tm_get).
  all: try apply tm_get.
  all: change (crash_mode s1) with (crash_mode s); destruct (crash_mode s); cbn [andb negb].
  all: try (by cbn; split; [done|split]).
  - rewrite bool_decide_eq_false_2 by done. by apply same_path_spec.
  - destruct (exact_mode cf); cbn [negb orb]; [by apply same_path_spec|by apply tm_ret].
  - rewrite bool_decide_eq_true_2 by done. cbn. split; [done|exists mem; auto].
  - rewrite bool_decide_eq_false_2 by done. by apply same_path_spec.
Qed.
End Run.

(** ** The minimizer *)

(** The start: [d0] was accepted with these settings. *)
Context (cm : bool) (ck : Z) (d0 : list Z) (n : nat) (Hn : Z.of_nat n < 2 ^ 30) (Hd0 : bytes d0).
#[local] Abbreviation accepts := (verdict cm ck).
#[local] Abbreviation stuck := (stuck_for (verdict cm ck)).
#[local] Abbreviation minimal := (minimal_for (verdict cm ck)).

Definition good (d : list Z) : Prop := accepts d = true /\ shrinks d0 d.
Definition saved (s : tmin W) : Prop := exists d, output s = Some d /\ good d.

(** The current input is [d]. *)
Record Inv (s : tmin W) (d : list Z) : Prop := {
  i_world : I (fsrv s);
  i_mode : crash_mode s = cm;
  i_cksum : orig_cksum s = ck;
  i_data : length (in_data s) = n;
  i_tmp : length (tmp_buf s) = n;
  i_len : in_len s = Z.of_nat (length d);
  i_fits : (length d <= n)%nat;
  i_cur : take (length d) (in_data s) = d;
  i_good : good d
}.

#[local] Abbreviation wp := (wp run_fails saved).

Lemma inv_stops s d : Inv s d -> stops saved s.
Proof. intros [] s' Hs'. exists d. split; [|done]. by rewrite Hs', i_len0, Nat2Z.id, i_cur0. Qed.

Lemma inv_kept s s' d : Inv s d -> kept s s' -> Inv s' d.
Proof. intros [] []. split; congruence. Qed.

(** One try. *)
Lemma run_tmp_spec s d m len :
  Inv s d -> (length m <= n)%nat -> len = Z.of_nat (length m) -> take (length m) (tmp_buf s) = m ->
  wp (run_tmp cf hash64 len) s (fun b s' => b = accepts m /\ Inv s' d /\ kept s s').
Proof.
  intros Hi Hm -> Ht. unfold run_tmp. apply tm_get. pose proof Hi as [].
  eapply tm_lift; [apply bytes_of_ok; rewrite Nat2Z.id; lia|]. rewrite drop_0, Nat2Z.id, Ht.
  eapply tm_mono; [apply run_target_spec; [done|rewrite i_len0, Nat2Z.id; lia|by eapply inv_stops]|].
  cbn. intros b s' [-> Hk]. rewrite i_mode0, i_cksum0. split; [done|]. split; [by eapply inv_kept|done].
Qed.

Lemma good_shrinks d d' : good d -> shrinks d d' -> accepts d' = true -> good d'.
Proof. intros [_ H1] H2 H3. split; [done|by eapply shrinks_trans]. Qed.

(** [memcpy(tmp_buf + j, in_data + i, len)] *)
Lemma copy_spec {A} (f : unit -> T W A) j i len s d (Q : A -> tmin W -> Prop) t :
  Inv s d -> 0 <= j -> 0 <= i -> 0 <= len -> j + len <= Z.of_nat n -> i + len <= Z.of_nat (length d) ->
  t = take (Z.to_nat j) (tmp_buf s) ++ take (Z.to_nat len) (drop (Z.to_nat i) d) ++ drop (Z.to_nat (j + len)) (tmp_buf s) ->
  (forall s', s' = with_tmp t s -> Inv s' d -> wp (f tt) s' Q) ->
  wp (copy_to_tmp j i len ≫= f) s Q.
Proof.
  intros Hi Hj H0 Hl Hjl Hil -> Hf. pose proof Hi as []. unfold copy_to_tmp. apply tm_bind, tm_get.
  eapply tm_lift; [apply memcpy_ok; lia|]. apply tm_modified.
  replace (take (Z.to_nat len) (drop (Z.to_nat i) (in_data s))) with (take (Z.to_nat len) (drop (Z.to_nat i) d)).
  2: { rewrite <- i_cur0 at 1. rewrite skipn_firstn_comm, take_take. f_equal. lia. }
  rewrite Z2Nat.inj_add in * by lia. apply Hf; [done|]. split; try done. cbn.
  rewrite !length_app, !length_take, !length_drop. lia.
Qed.

(** The copy of the whole input. *)
Lemma copy_all {A} (f : unit -> T W A) s d (Q : A -> tmin W -> Prop) :
  Inv s d -> (forall s', s' = with_tmp (d ++ drop (length d) (tmp_buf s)) s -> Inv s' d -> wp (f tt) s' Q) ->
  wp (copy_to_tmp 0 0 (in_len s) ≫= f) s Q.
Proof.
  intros Hi Hf. pose proof Hi as []. eapply copy_spec; [done|lia..|reflexivity|].
  intros s' -> Hi'. rewrite i_len0, take_0, drop_0, Z.add_0_l, Nat2Z.id, take_ge in * by lia. by apply Hf.
Qed.

(** The current input becomes [d']. *)
Lemma inv_data s d d' data len :
  Inv s d -> good d' -> len = Z.of_nat (length d') -> length data = n -> take (length d') data = d' ->
  Inv (with_data data len s) d'.
Proof.
  intros [] Hg -> Hl Ht. split; try done. cbn. apply (f_equal length) in Ht. rewrite length_take in Ht. lia.
Qed.

Lemma inv_tmp s d t : Inv s d -> length t = n -> Inv (with_tmp t s) d.
Proof. intros [] Hl. by split. Qed.

Definition lessened (d : list Z) (s : tmin W) : Prop := exists d', Inv s d' /\ shrinks d d'.

Lemma lessened_same s d : Inv s d -> lessened d s.
Proof. intros Hi. exists d. split; [done|apply shrinks_refl]. Qed.

Lemma normalize_block_spec s d pos use :
  Inv s d -> 0 <= pos -> 0 <= use -> pos + use <= Z.of_nat (length d) ->
  wp (normalize_block cf hash64 pos use) s (fun _ s' => lessened d s' /\ in_len s' = in_len s).
Proof.
  intros Hi Hp Hu Hl. pose proof Hi as []. unfold normalize_block. apply tm_get.
  eapply tm_lift; [apply bytes_of_ok; lia|]. destruct (forallb _ _); [apply tm_ret; split; [by apply lessened_same|done]|].
  apply (copy_all _ _ d); [done|]. intros s1 E1 Hi1. apply tm_get. subst s1. cbn [tmp_buf with_tmp in_len].
  assert (Hlen : length (d ++ drop (length d) (tmp_buf s)) = n) by (rewrite length_app, length_drop; lia).
  eapply tm_lift; [apply memset_ok; lia|]. apply tm_modify. fold (blank (Z.to_nat pos) (Z.to_nat use) (d ++ drop (length d) (tmp_buf s))).
  set (t := blank _ _ _). assert (Ht : length t = n) by (unfold t; rewrite length_blank; lia).
  assert (Hm : length (blank (Z.to_nat pos) (Z.to_nat use) d) = length d) by (rewrite length_blank; lia).
  apply tm_bind. eapply tm_mono.
  { eapply (run_tmp_spec _ d (blank (Z.to_nat pos) (Z.to_nat use) d)); [by apply inv_tmp|lia|by rewrite Hm|].
    rewrite Hm. cbn [tmp_buf with_tmp]. unfold t. rewrite take_blank by (rewrite ?Hlen; lia). by rewrite take_app_length. }
  cbn beta. intros b s2 (-> & Hi2 & Hk). destruct (accepts _) eqn:Ha; [|apply tm_ret; split; [by apply lessened_same|by destruct Hk]].
  apply tm_get. pose proof Hi2 as []. eapply tm_lift; [apply memset_ok; lia|]. apply tm_modified. split; [|by destruct Hk].
  exists (blank (Z.to_nat pos) (Z.to_nat use) d). assert (Hs : shrinks d (blank (Z.to_nat pos) (Z.to_nat use) d)) by (apply shrinks_blank; lia).
  split; [|done]. fold (blank (Z.to_nat pos) (Z.to_nat use) (in_data s2)).
  eapply inv_data; [done|by eapply good_shrinks|by rewrite Hm|rewrite length_blank; lia|].
  rewrite Hm, take_blank by lia. by rewrite i_cur1.
Qed.

Lemma normalize_from_spec fuel set_len pos s d :
  Inv s d -> 0 < set_len < 2 ^ 31 -> 0 <= pos < 2 ^ 31 -> Z.of_nat (length d) - pos <= Z.of_nat fuel ->
  wp (normalize_from cf hash64 fuel set_len pos) s (fun _ s' => lessened d s').
Proof.
  revert pos s d. induction fuel as [|f IH]; intros pos s d Hi Hs Hp Hf; cbn [normalize_from]; apply tm_get; pose proof Hi as [].
  all: destruct (Z.ltb_spec pos (in_len s)) as [Hlt|Hge]; cbn [negb]; [|apply tm_ret; by apply lessened_same].
  { lia. }
  rewrite (uwrap_id 32 (in_len s - pos)) by lia. apply tm_bind. eapply tm_mono.
  { apply (normalize_block_spec s d); [done|lia..]. }
  cbn beta. intros _ s1 [(d1 & Hi1 & Hd1) Hl]. rewrite uwrap_id by lia.
  assert (Hlen : length d1 = length d) by (pose proof (i_len s1 d1 Hi1); lia).
  destruct (Z.lt_ge_cases (pos + set_len) (Z.of_nat (length d))) as [Hc|Hc].
  - eapply tm_mono; [apply (IH _ s1 d1); [done|lia..]|]. intros _ s2 (d2 & Hi2 & Hd2). exists d2. split; [done|by eapply shrinks_trans].
  - destruct f; cbn [normalize_from]; apply tm_get; pose proof (i_len s1 d1 Hi1);
      (destruct (Z.ltb_spec (pos + set_len) (in_len s1)); [lia|]); apply tm_ret; by exists d1.
Qed.

(** [memcpy(in_data, tmp_buf, len)] of an input that was accepted. *)
Lemma copy_from_spec {A} (f : unit -> T W A) s d m (Q : A -> tmin W -> Prop) :
  Inv s d -> (length m <= n)%nat -> take (length m) (tmp_buf s) = m ->
  wp (f tt) (with_data (m ++ drop (length m) (in_data s)) (in_len s) s) Q ->
  wp (copy_from_tmp (Z.of_nat (length m)) ≫= f) s Q.
Proof.
  intros [] Hm Ht Hf. unfold copy_from_tmp. apply tm_bind, tm_get. eapply tm_lift; [apply memcpy_ok; lia|].
  apply tm_modified. by rewrite Nat2Z.id, take_0, drop_0, Ht, Nat.add_0_l.
Qed.

Lemma inv_copied s d m len : Inv s d -> good m -> (length m <= n)%nat -> len = Z.of_nat (length m) ->
  Inv (with_data (m ++ drop (length m) (in_data s)) len s) m.
Proof.
  intros Hi Hg Hm ->. pose proof Hi as []. eapply inv_data; [done..| |by rewrite take_app_length].
  rewrite length_app, length_drop. lia.
Qed.

Definition tail_of (d : list Z) (pos len : Z) : Z := Z.max 0 (Z.of_nat (length d) - pos - len).

Lemma cut_length d pos len :
  0 <= pos <= Z.of_nat (length d) -> 0 <= len -> Z.of_nat (length (cut d pos len)) = pos + tail_of d pos len.
Proof. intros Hp Hl. unfold cut, gap, tail_of. rewrite length_app, length_take, length_drop. lia. Qed.

Lemma cut_buffer (d t t' : list Z) pos len :
  0 <= pos <= Z.of_nat (length d) -> 0 <= len ->
  take (length (cut d pos len)) (take (Z.to_nat pos) d ++ take (Z.to_nat (tail_of d pos len)) (drop (Z.to_nat (pos + len)) d) ++ t')
  = cut d pos len.
Proof.
  intros Hp Hl. unfold cut, gap, tail_of. rewrite Z2Nat.inj_add by lia.
  rewrite (take_ge (drop _ d)) by (rewrite length_drop; lia). rewrite app_assoc. apply take_app_length.
Qed.

(** Both parts of the copy. *)
Lemma copy_cut {A} (f : unit -> T W A) s d pos len (Q : A -> tmin W -> Prop) :
  Inv s d -> 0 <= pos <= Z.of_nat (length d) -> 0 <= len ->
  (forall s', Inv s' d -> take (length (cut d pos len)) (tmp_buf s') = cut d pos len -> wp (f tt) s' Q) ->
  wp (copy_to_tmp 0 0 pos ≫= fun _ =>
      (if tail_of d pos len =? 0 then mret tt else copy_to_tmp pos (pos + len) (tail_of d pos len)) ≫= f) s Q.
Proof.
  intros Hi Hp Hl Hf. pose proof Hi as []. eapply copy_spec; [done|lia..|reflexivity|].
  intros s1 E1 Hi1. rewrite take_0, drop_0, Z.add_0_l in E1. cbn [app] in E1.
  destruct (Z.eqb_spec (tail_of d pos len) 0) as [Ht|Ht].
  - apply tm_bind, tm_ret. apply Hf; [done|]. subst s1. cbn [tmp_buf with_tmp].
    rewrite <- (cut_buffer d [] (drop (Z.to_nat pos) (tmp_buf s)) pos len) at 2 by lia. by rewrite Ht, take_0.
  - eapply copy_spec; [done|unfold tail_of in *; lia..|reflexivity|]. intros s2 -> Hi2. apply Hf; [done|]. cbn [tmp_buf with_tmp].
    subst s1. cbn [tmp_buf with_tmp]. rewrite (take_app_length' (take (Z.to_nat pos) d)) by (rewrite length_take; lia). by apply cut_buffer.
Qed.

Lemma delete_block_spec s d len pos :
  Inv s d -> 0 <= pos < Z.of_nat (length d) -> 0 < len < 2 ^ 31 ->
  wp (delete_block cf hash64 len pos (tail_of d pos len)) s (fun b s' =>
    accepts (cut d pos len) = b /\ if b then Inv s' (cut d pos len) else Inv s' d).
Proof.
  intros Hi Hp Hl. pose proof Hi as []. unfold delete_block. apply (copy_cut _ _ d pos len); [done|lia..|]. intros s1 Hi1 Ht.
  pose proof (cut_length d pos len) as Hc. rewrite uwrap_id by (unfold tail_of in *; lia).
  assert (Hcn : (length (cut d pos len) <= n)%nat) by (unfold tail_of in *; lia).
  assert (Hs : shrinks d (cut d pos len)) by (apply shrinks_sublist, gap_sublist).
  rewrite <- Hc by lia. apply tm_bind. eapply tm_mono; [by apply (run_tmp_spec s1 d (cut d pos len))|].
  cbn beta. intros b s2 (-> & Hi2 & Hk). destruct (accepts (cut d pos len)) eqn:Ha; [|by apply tm_ret].
  apply (copy_from_spec _ s2 d); [done..|by rewrite (k_tmp _ _ Hk)|]. apply tm_get, tm_modify, tm_ret. split; [done|].
  apply (inv_copied s2 d (cut d pos len)); [done|by eapply good_shrinks|done|done].
Qed.

(** Two equal blocks in a row: leaving out either gives the same. *)
Lemma cut_same d pos len :
  0 < len <= pos -> pos + len <= Z.of_nat (length d) ->
  take (Z.to_nat len) (drop (Z.to_nat (pos - len)) d) = take (Z.to_nat len) (drop (Z.to_nat pos) d) ->
  cut d pos len = cut d (pos - len) len.
Proof.
  intros Hl Hp E. unfold cut, gap. replace (Z.to_nat (pos - len) + Z.to_nat len)%nat with (Z.to_nat pos) by lia.
  rewrite <- (take_drop (Z.to_nat (pos - len)) (take (Z.to_nat pos) d)), take_take, Nat.min_l by lia.
  rewrite skipn_firstn_comm. replace (Z.to_nat pos - Z.to_nat (pos - len))%nat with (Z.to_nat len) by lia.
  rewrite E, <- app_assoc. f_equal. rewrite <- (take_drop (Z.to_nat len) (drop (Z.to_nat pos) d)) at 2. by rewrite drop_drop.
Qed.


(** ** Deletion *)

(** Since [ds] the input got smaller, or it is still [ds]. *)
Definition since (ds d : list Z) (changed : bool) : Prop :=
  shrinks ds d /\ if changed then (weight d < weight ds)%nat else d = ds.
Definition Pass (ds : list Z) (changed : bool) (s : tmin W) : Prop := exists d, Inv s d /\ since ds d changed.

Lemma since_smaller ds d d' ch : since ds d ch -> shrinks d d' -> d' <> d -> since ds d' true.
Proof.
  intros [H1 H2] Hs Hne. split; [by eapply shrinks_trans|]. pose proof (shrinks_lt d d' Hs Hne).
  pose proof (shrinks_weight ds d H1). lia.
Qed.

Lemma data_block s d i len : Inv s d -> 0 <= i -> 0 <= len -> i + len <= Z.of_nat (length d) ->
  bytes_of (in_data s) (Z.to_nat i) (Z.to_nat len) = Ok (take (Z.to_nat len) (drop (Z.to_nat i) d)).
Proof.
  intros [] Hi Hl Hd. rewrite bytes_of_ok by lia. f_equal. rewrite <- i_cur0 at 1. rewrite skipn_firstn_comm, take_take. f_equal. lia.
Qed.

Lemma same_block_spec s d pos len :
  Inv s d -> 0 < len <= pos -> pos + len <= Z.of_nat (length d) ->
  wp (same_block len pos) s (fun b s' => s' = s /\ (b = true -> cut d pos len = cut d (pos - len) len)).
Proof.
  intros Hi Hl Hp. pose proof Hi as []. unfold same_block. apply tm_get. rewrite uwrap_id by lia.
  eapply tm_lift; [apply (data_block s d); [done|lia..]|]. eapply tm_lift; [apply (data_block s d); [done|lia..]|].
  apply tm_ret. split; [done|]. intros E%bool_decide_eq_true. by apply cut_same.
Qed.

Lemma cut_shorter d pos len : 0 <= pos < Z.of_nat (length d) -> 0 < len -> cut d pos len <> d.
Proof. intros Hp Hl E. pose proof (cut_length d pos len) as Hc. rewrite E in Hc. unfold tail_of in Hc. lia. Qed.

Lemma delete_from_spec fuel len k pd ch s ds d :
  Inv s d -> since ds d ch -> 0 < len < 2 ^ 30 -> 0 <= k -> Z.of_nat (length d) - k * len <= Z.of_nat fuel ->
  (pd = false -> 1 <= k) -> (ch = false -> forall j, 0 <= j < k -> accepts (cut ds (j * len) len) = false) ->
  wp (delete_from cf hash64 fuel len (k * len) pd ch) s (fun ch' s' =>
    Pass ds ch' s' /\ (ch' = false -> ch = false /\ stuck len ds)).
Proof.
  revert k pd ch s d. induction fuel as [|f IH]; intros k pd ch s d Hi Hd Hl Hk Hf Hpd Hst; cbn [delete_from]; apply tm_get; pose proof Hi as [].
  all: destruct (Z.ltb_spec (k * len) (in_len s)) as [Hlt|Hge]; cbn [negb].
  1: lia.
  1, 3: apply tm_ret; split; [by exists d|]; intros ->; split; [done|]; destruct Hd as [_ ->]; intros j Hj0 Hj; apply Hst; [done|nia].
  assert (Hkl : 0 <= k * len) by nia.
  replace (s32 _) with (Z.of_nat (length d) - k * len - len) by (unfold swrap; rewrite Z.mod_small; lia).
  fold (tail_of d (k * len) len). rewrite uwrap_id by lia. replace (k * len + len) with ((k + 1) * len) by ring.
  assert (Hskip : forall b, (b = true -> pd = false /\ cut d (k * len) len = cut d (k * len - len) len) ->
    wp (if b : bool then delete_from cf hash64 f len ((k + 1) * len) pd ch
        else res ← delete_block cf hash64 len (k * len) (tail_of d (k * len) len);
          if res : bool then delete_from cf hash64 f len (k * len) true true
          else delete_from cf hash64 f len ((k + 1) * len) false ch) s (fun ch' s' =>
      Pass ds ch' s' /\ (ch' = false -> ch = false /\ stuck len ds))).
  { intros [|] Hb.
    - destruct (Hb eq_refl) as [Hpd' Hc]. specialize (Hpd Hpd'). apply (IH _ _ _ s d); try done; [lia|lia|lia|].
      intros -> j Hj. destruct (decide (j = k)) as [->|]; [|apply Hst; [done|lia]].
      destruct Hd as [_ Ed]. rewrite <- Ed, Hc, Ed. replace (k * len - len) with ((k - 1) * len) by ring. apply Hst; [done|lia].
    - apply tm_bind. eapply tm_mono; [apply (delete_block_spec s d); [done|lia..]|]. cbn beta. intros [|] s1 [Ha Hi1].
      + eapply tm_mono; [apply (IH k true true s1 (cut d (k * len) len)); try done|].
        * eapply since_smaller; [done|apply shrinks_sublist, gap_sublist|apply cut_shorter; lia].
        * rewrite cut_length by lia. unfold tail_of. lia.
        * intros ch' s' [H1 H2]. split; [done|]. intros E. by destruct (H2 E).
      + apply (IH _ false ch s1 d); try done; [lia|lia|lia|]. intros -> j Hj.
        destruct (decide (j = k)) as [->|]; [by destruct Hd as [_ <-]|apply Hst; [done|lia]]. }
  apply tm_bind. destruct pd; cbn [negb andb]; [apply tm_ret, (Hskip false); done|].
  destruct (truthy (tail_of d (k * len) len)) eqn:Ht; [|apply tm_ret, (Hskip false); done].
  apply truthy_true in Ht. unfold tail_of in Ht. specialize (Hpd eq_refl).
  eapply tm_mono; [apply (same_block_spec s d); [done|nia|lia]|]. cbn beta. intros b s1 [-> Hb]. apply Hskip. auto.
Qed.


(** No block of any size from [2 ^ k] down to a single character. *)
Definition stuck_below (k : Z) (d : list Z) : Prop := forall j, 0 <= j <= k -> stuck (2 ^ j) d.


Lemma delete_sizes_spec fuel k s ds ch :
  Pass ds ch s -> 0 <= k <= 20 -> k <= Z.of_nat fuel ->
  wp (delete_sizes cf hash64 fuel (2 ^ k) ch) s (fun ch' s' => Pass ds ch' s' /\ (ch' = false -> ch = false /\ stuck_below k ds)).
Proof.
  revert k s ch. induction fuel as [|f IH]; intros k s ch (d & Hi & Hd) Hk Hf; cbn [delete_sizes].
  all: assert (Hp : 0 < 2 ^ k <= 2 ^ 20) by (split; [apply Z.pow_pos_nonneg; lia|apply Z.pow_le_mono_r; lia]).
  all: rewrite (proj2 (truthy_true (2 ^ k))) by lia; apply tm_get, tm_bind; pose proof Hi as [].
  all: eapply tm_mono; [apply (delete_from_spec _ (2 ^ k) 0 true ch s ds d); try done; lia|].
  all: cbn beta; intros ch' s' [(d' & Hi' & Hd') Hst]; apply tm_get; pose proof (i_len s' d' Hi') as Hlen.
  - assert (k = 0) as -> by lia. cbn [andb Z.ltb Z.compare Z.pow]. apply tm_ret. split; [by exists d'|].
    intros E. destruct (Hst E) as [H1 H2]. split; [done|]. intros j Hj. assert (j = 0) as -> by lia. done.
  - destruct (Z.ltb_spec 1 (2 ^ k)) as [Hk1|Hk1]; cbn [andb].
    + assert (1 <= k) by (destruct (Z.eq_dec k 0) as [->|]; [cbn in Hk1; lia|lia]).
      assert (Hhalf : 2 ^ k / 2 = 2 ^ (k - 1)).
      { replace k with (1 + (k - 1)) at 1 by lia. rewrite Z.pow_add_r by lia. change (2 ^ 1) with 2. rewrite Z.mul_comm. by apply Z.div_mul. }
      destruct (Z.leb_spec 1 (in_len s')) as [Hl|Hl].
      * rewrite Hhalf. eapply tm_mono; [apply (IH (k - 1) s' ch'); [by exists d'|lia..]|].
        intros ch2 s2 [H1 H2]. split; [done|]. intros E. destruct (H2 E) as [E1 H3]. destruct (Hst E1) as [E2 H4]. split; [done|].
        intros j Hj. destruct (decide (j = k)) as [->|]; [done|apply H3; lia].
      * apply tm_ret. split; [by exists d'|]. intros E. destruct (Hst E) as [H1 H2]. split; [done|].
        intros j Hj i Hi0 Hij. subst ch'. destruct Hd' as [_ ->]. nia.
    + assert (k = 0) as -> by (destruct (Z.eq_dec k 0); [done|]; pose proof (Z.pow_gt_1 2 k); lia).
      apply tm_ret. split; [by exists d'|]. intros E. destruct (Hst E) as [H1 H2]. split; [done|].
      intros j Hj. assert (j = 0) as -> by lia. done.
Qed.


(** ** Symbols and characters *)

Lemma inv_bytes s d : Inv s d -> bytes d.
Proof. intros Hi. destruct (i_good s d Hi) as [_ H1]. by eapply shrinks_bytes. Qed.

(** [da] is the input whose symbols were counted. *)
Definition symbols_left (ds da : list Z) (l : list Z) (ch : bool) (s : tmin W) : Prop :=
  exists d, Inv s d /\ since ds d ch /\ NoDup l /\ Forall (fun i => 0 <= i < 256) l /\
    forall i, i ∈ l -> i <> ZERO -> i ∈ da -> i ∈ d.

Lemma try_symbol_spec ds da i l ch s :
  bytes da -> symbols_left ds da (i :: l) ch s ->
  wp (try_symbol cf hash64 (alpha_map da) ch i) s (fun ch' s' => symbols_left ds da l ch' s' /\ (ch' = false -> ch = false)).
Proof.
  intros Hda (d & Hi & Hd & Hnd & Hr & Hin). pose proof Hi as []. apply NoDup_cons in Hnd as [Hil Hnd]. apply Forall_cons in Hr as [Hi0 Hr].
  assert (Hsame : forall s', Inv s' d -> symbols_left ds da l ch s' /\ (ch = false -> ch = false)).
  { intros s' Hi'. split; [|done]. exists d. do 4 (split; [done|]). intros j Hj. apply Hin. by right. }
  unfold try_symbol. destruct (alpha_occurs da i Hda Hi0) as (c & Hc & Hocc). eapply tm_lift; [exact Hc|].
  destruct (Z.eqb_spec i ZERO) as [Hz|Hz]; cbn [orb]; [by apply tm_ret, Hsame|].
  destruct (truthy c) eqn:Ht; cbn [negb]; [|by apply tm_ret, Hsame]. apply truthy_true in Ht.
  assert (Hid : i ∈ d) by (apply Hin; [left|done|auto]). apply tm_get.
  apply (copy_all _ _ d); [done|]. intros s1 -> Hi1. apply tm_get, tm_modify. cbn [in_len with_tmp tmp_buf].
  rewrite i_len0, Nat2Z.id, take_app_length, drop_app_length. fold (without i d).
  assert (Hm : length (without i d) = length d) by apply length_map. apply tm_bind. eapply tm_mono.
  { apply (run_tmp_spec _ d (without i d)).
    - apply inv_tmp; [done|]. rewrite length_app, Hm, length_drop. lia.
    - lia.
    - by rewrite Hm.
    - apply take_app_length. }
  cbn beta. intros b s2 (-> & Hi2 & Hk). destruct (accepts (without i d)) eqn:Ha; [|by apply tm_ret, Hsame].
  rewrite <- Hm. apply (copy_from_spec _ s2 d); [done|lia|rewrite (k_tmp _ _ Hk); apply take_app_length|].
  apply tm_ret. split; [|done]. exists (without i d). split.
  { apply (inv_copied s2 d); [done|apply (good_shrinks d); [done|apply shrinks_without|done]|lia|]. by rewrite (i_len s2 d Hi2), Hm. }
  split; [eapply since_smaller; [done|apply shrinks_without|by apply without_changes]|]. do 2 (split; [done|]).
  intros j Hj Hjz Hja. apply elem_of_without; [by intros ->|apply Hin; [by right|done|done]].
Qed.

Lemma try_alphabet_spec ds ch s : Pass ds ch s -> wp (try_alphabet cf hash64 ch) s (fun ch' s' => Pass ds ch' s' /\ (ch' = false -> ch = false)).
Proof.
  intros (d & Hi & Hd). pose proof Hi as []. unfold try_alphabet. apply tm_get.
  eapply tm_lift; [apply (data_block s d 0 (in_len s)); [done|lia..]|]. rewrite i_len0, Nat2Z.id, drop_0, firstn_all.
  eapply tm_mono; [apply (tm_fold _ _ _ _ (fun l ch' s' => symbols_left ds d l ch' s' /\ (ch' = false -> ch = false)))|].
  - split; [|done]. exists d. do 2 (split; [done|]). split; [apply NoDup_seqZ|]. split; [|done]. apply Forall_forall. intros i Hin%elem_of_seqZ. lia.
  - intros i l ch' s' [HJ Hch]. eapply tm_mono; [apply try_symbol_spec; [by eapply inv_bytes|done]|]. cbn beta. intros ch2 s2 [H1 H2]. auto.
  - intros ch' s' [(d' & H1 & H2 & _) Hch]. split; [|done]. by exists d'.
Qed.

Definition characters_left (ds : list Z) (l : list nat) (ch : bool) (s : tmin W) : Prop :=
  exists d, Inv s d /\ since ds d ch /\ take (length d) (tmp_buf s) = d /\ Forall (fun i => i < length d)%nat l.

Lemma try_character_spec ds i l ch s :
  characters_left ds (i :: l) ch s -> wp (try_character cf hash64 ch i) s (fun ch' s' => characters_left ds l ch' s' /\ (ch' = false -> ch = false)).
Proof.
  intros (d & Hi & Hd & Ht & Hl). pose proof Hi as []. apply Forall_cons in Hl as [Hid Hl]. unfold try_character. apply tm_get.
  destruct (rd_lt d i Hid) as (x & _ & Hx).
  assert (Hx' : tmp_buf s !! i = Some x) by (rewrite <- Ht, lookup_take in Hx; by case_decide).
  eapply tm_lift; [by apply rd_ok|]. destruct (Z.eqb_spec x ZERO) as [Hz|Hz]; [apply tm_ret; split; [by exists d|done]|].
  eapply tm_lift; [apply wr_lt; lia|]. apply tm_modify.
  set (m := <[i:=ZERO]> d). assert (Hm : length m = length d) by apply length_insert. apply tm_bind. eapply tm_mono.
  { apply (run_tmp_spec _ d m); [apply inv_tmp; [done|by rewrite length_insert]|lia|by rewrite Hm|].
    cbn [tmp_buf with_tmp]. by rewrite Hm, take_insert_lt, Ht by done. }
  cbn beta. intros b s2 (-> & Hi2 & Hk). apply tm_get. pose proof (k_tmp _ _ Hk) as Htmp. cbn [tmp_buf with_tmp] in Htmp.
  destruct (accepts m) eqn:Ha.
  - eapply tm_lift; [apply wr_lt; rewrite (i_data s2 d Hi2); lia|]. apply tm_modify, tm_ret. split; [|done]. exists m. rewrite Hm. split; [|split; [|split]].
    + eapply inv_data; [done|apply (good_shrinks d); [done|apply shrinks_insert|done]|by rewrite (i_len s2 d Hi2), Hm|..].
      * rewrite length_insert. apply (i_data s2 d Hi2).
      * by rewrite Hm, take_insert_lt, (i_cur s2 d Hi2) by done.
    + eapply since_smaller; [done|apply shrinks_insert|]. intros E. apply (f_equal (fun l => l !! i)) in E.
      unfold m in E. rewrite list_lookup_insert_eq in E by done. congruence.
    + cbn [tmp_buf with_data]. by rewrite Htmp, take_insert_lt, Ht by done.
    + done.
  - eapply tm_lift; [apply wr_lt; rewrite (i_tmp s2 d Hi2); lia|]. apply tm_modify, tm_ret. split; [|done]. exists d. split; [apply inv_tmp; [done|]|].
    + rewrite length_insert. apply (i_tmp s2 d Hi2).
    + split; [done|]. split; [|done]. cbn [tmp_buf with_tmp]. by rewrite Htmp, list_insert_insert_eq, list_insert_id.
Qed.

Lemma try_characters_spec ds ch s : Pass ds ch s -> wp (try_characters cf hash64 ch) s (fun ch' s' => Pass ds ch' s' /\ (ch' = false -> ch = false)).
Proof.
  intros (d & Hi & Hd). pose proof Hi as []. unfold try_characters. apply tm_get, (copy_all _ _ d); [done|]. intros s1 -> Hi1.
  rewrite i_len0, Nat2Z.id. eapply tm_mono; [apply (tm_fold _ _ _ _ (fun l ch' s' => characters_left ds l ch' s' /\ (ch' = false -> ch = false)))|].
  - split; [|done]. exists d. do 2 (split; [done|]). split; [apply take_app_length|]. apply Forall_forall. intros i Hin%elem_of_seq. lia.
  - intros i l ch' s' [HJ Hch]. eapply tm_mono; [by apply try_character_spec|]. cbn beta. intros ch2 s2 [H1 H2]. auto.
  - intros ch' s' [(d' & H1 & H2 & _) Hch]. split; [|done]. by exists d'.
Qed.


(** ** The passes *)

Lemma first_size m : 0 <= m < 2 ^ 20 -> exists k, 0 <= k <= 20 /\ Z.max 1 (next_pow2 m) = 2 ^ k /\ u32 (next_pow2 m) = next_pow2 m.
Proof.
  intros Hm. destruct (Z.eq_dec m 0) as [->|]; [exists 0; done|].
  destruct (next_pow2_correct m) as (_ & (k & Hk & E) & Hle & Hmin); [lia|].
  assert (Hk20 : 2 ^ k <= 2 ^ 20) by (rewrite <- E; apply Hmin; lia).
  assert (k <= 20) by (apply (Z.pow_le_mono_r_iff 2); lia). exists k. rewrite E in *. split; [done|]. split; [lia|]. apply uwrap_id. lia.
Qed.

Lemma delete_sizes_0 fuel ch : delete_sizes cf hash64 fuel 0 ch = delete_sizes cf hash64 fuel (2 ^ 0) ch.
Proof. by destruct fuel. Qed.

Context (Hn24 : Z.of_nat n < 2 ^ 24).

Lemma delete_all_spec s d :
  Inv s d -> wp (delete_sizes cf hash64 32 (u32 (next_pow2 (in_len s / TMIN_START_STEPS))) false) s
    (fun ch s' => Pass d ch s' /\ (ch = false -> minimal d)).
Proof.
  intros Hi. pose proof Hi as []. rewrite i_len0. unfold minimal_for.
  assert (Hdiv : 0 <= Z.of_nat (length d) / TMIN_START_STEPS < 2 ^ 20).
  { unfold TMIN_START_STEPS. split; [apply Z.div_pos; lia|apply Z.div_lt_upper_bound; lia]. }
  destruct (first_size _ Hdiv) as (k & Hk & E & Eu). pose proof (uwrap_range 32 (next_pow2 (Z.of_nat (length d) / TMIN_START_STEPS))) as Hu. rewrite Eu in *.
  assert (Hp : Pass d false s) by (exists d; split; [done|split; [apply shrinks_refl|done]]).
  eapply tm_mono with (Q := fun ch' s' => Pass d ch' s' /\ (ch' = false -> false = false /\ stuck_below k d)).
  - set (x := next_pow2 _) in *. destruct (Z.eq_dec x 0) as [Hx|Hx].
    + assert (k = 0) as -> by (rewrite Hx in E; destruct (Z.eq_dec k 0); [done|]; pose proof (Z.pow_gt_1 2 k); lia).
      rewrite Hx, delete_sizes_0. apply (delete_sizes_spec 32 0 s d false Hp); lia.
    + assert (x = 2 ^ k) as ->.
      { lia. }
      apply delete_sizes_spec; [done|lia..].
  - intros ch' s' [H1 H2]. split; [done|]. intros Ech j Hj Hle. destruct (H2 Ech) as [_ Hst]. apply Hst.
    rewrite E in Hle. split; [done|]. apply (Z.pow_le_mono_r_iff 2); lia.
Qed.

Lemma passes_spec fuel first s d :
  Inv s d -> (weight d <= fuel)%nat ->
  wp (passes cf hash64 fuel first) s (fun _ s' => exists r, Inv s' r /\ shrinks d r /\ minimal r).
Proof.
  revert first s d. induction fuel as [|f IH]; intros first s d Hi Hf; cbn [passes]; apply tm_get, tm_bind.
  all: eapply tm_mono; [by apply (delete_all_spec s d)|]; cbn beta; intros ch s1 [HP Hmin].
  all: destruct (negb first && negb ch) eqn:Hend;
    [apply andb_prop in Hend as [_ Hch]; destruct ch; [done|]; apply tm_ret; destruct HP as (d1 & Hi1 & Hs1 & ->); exists d; auto|].
  all: apply tm_bind; eapply tm_mono; [by apply try_alphabet_spec|]; cbn beta; intros ch2 s2 [HP2 Hch2].
  all: apply tm_bind; eapply tm_mono; [by apply try_characters_spec|]; cbn beta; intros ch3 s3 [(d3 & Hi3 & Hs3 & Hw3) Hch3].
  all: destruct ch3; [|apply tm_ret; subst d3; exists d; auto 6 using shrinks_refl].
  - lia.
  - eapply tm_mono; [apply (IH false s3 d3); [done|lia]|]. cbn beta. intros _ s4 (r & H1 & H2 & H3). exists r.
    split; [done|]. split; [by eapply shrinks_trans|done].
Qed.

(** Block normalization, then the passes. *)
Lemma minimize_spec fuel s d :
  Inv s d -> (weight d <= fuel)%nat ->
  wp (minimize cf hash64 fuel) s (fun _ s' => exists r, Inv s' r /\ minimal r).
Proof.
  intros Hi Hf. pose proof Hi as []. unfold minimize, normalize. apply tm_bind, tm_get.
  rewrite i_len0, Nat2Z.id.
  assert (Hdiv : 0 <= Z.of_nat (length d) / TMIN_SET_STEPS < 2 ^ 20).
  { unfold TMIN_SET_STEPS. split; [apply Z.div_pos; lia|apply Z.div_lt_upper_bound; lia]. }
  destruct (first_size _ Hdiv) as (k & Hk & Ek & Eu). pose proof (Z.pow_le_mono_r 2 k 20) as Hp.
  eapply tm_mono; [apply (normalize_from_spec _ _ 0 s d); [done| |lia..]|].
  - rewrite Eu. unfold TMIN_SET_MIN_SIZE. case_match eqn:Hc; [lia|]. apply Z.ltb_ge in Hc. lia.
  - cbn beta. intros _ s1 (d1 & Hi1 & Hs1). pose proof (shrinks_weight d d1 Hs1).
    eapply tm_mono; [apply (passes_spec fuel true s1 d1); [done|lia]|]. cbn beta. intros _ s2 (r & H1 & _ & H3). by exists r.
Qed.
End Minimize.

(** ** From the dry run to the output *)

Section Main.
Context {W : Type} `{Fsrv W} (cf : tmin_config) (hash64 : list Z -> Z).
Context (I : W -> Prop) (ret : list Z -> fsrv_run_result) (tr : list Z -> list Z) (laws : target_fixed cf I ret tr).
Context (Hmask : forall m, mask_bitmap cf = Some m -> (4 * Z.to_nat (tmin_map_size cf .>> 2) <= length m)%nat).

(** [mem] behaves like [content]: it hangs like it, crashes like it (on the
    same path in exact mode) or takes the same path without a crash. *)
Definition keeps (content mem : list Z) : bool :=
  if hang_mode cf then bool_decide (ret mem = FSRV_RUN_TMOUT) else
  let same := hash64 (masked cf tr content) =? hash64 (masked cf tr mem) in
  match ret content, ret mem with
  | _, FSRV_RUN_TMOUT => false
  | FSRV_RUN_CRASH, FSRV_RUN_CRASH => negb (exact_mode cf) || same
  | FSRV_RUN_CRASH, _ | _, FSRV_RUN_CRASH => false
  | _, _ => same
  end.

Context (content tmp : list Z) (Hfile : read_initial_file content = Ok content) (Hbytes : bytes content).
Context (Htmp : length tmp = length content).

(** The settings the dry run leaves. *)
Definition start_mode : bool := negb (hang_mode cf) && bool_decide (ret content = FSRV_RUN_CRASH).
Definition start_cksum : Z :=
  if hang_mode cf || start_mode && negb (exact_mode cf) then 0 else hash64 (masked cf tr content).

Lemma verdict_keeps mem : verdict cf hash64 ret tr start_mode start_cksum mem = keeps content mem \/ ret content = FSRV_RUN_TMOUT.
Proof.
  unfold verdict, keeps, start_cksum, start_mode. destruct (hang_mode cf); [by left|].
  destruct (ret content) eqn:Hc; auto; left; destruct (ret mem), (exact_mode cf); reflexivity.
Qed.

(** After the dry run. *)
Definition dried (s : tmin W) : Prop :=
  Inv cf hash64 I ret tr start_mode start_cksum content (length content) s content /\
  (hang_mode cf = false -> ret content <> FSRV_RUN_TMOUT).
Definition stopped_at_start (s : tmin W) : Prop := output s = Some content.

(** What the first run leaves when the tool goes on. *)
Definition first_done (s : tmin W) : Prop :=
  I (fsrv s) /\ in_data s = content /\ in_len s = Z.of_nat (length content) /\ tmp_buf s = tmp /\
  timed_out (fsrv s) = bool_decide (ret content = FSRV_RUN_TMOUT) /\
  (hang_mode cf = false -> ret content <> FSRV_RUN_TMOUT ->
    crash_mode s = start_mode /\ orig_cksum s = start_cksum /\ tmin_trace s = masked cf tr content) /\
  (hang_mode cf = true -> crash_mode s = false /\ orig_cksum s = 0).

Lemma same_path_first (s : tmin W) : tmin_trace s = masked cf tr content ->
  same_path hash64 true s = Ok (with_cksum (hash64 (masked cf tr content)) s, Some true).
Proof. intros Ht. unfold same_path, get, modify, mbind, T_bind. cbn. rewrite Ht. cbn. by rewrite Z.eqb_refl. Qed.

Lemma first_run_spec w :
  I w -> wp True stopped_at_start (tmin_run_target cf hash64 content true) (tmin_start w content tmp) (fun _ s => first_done s).
Proof.
  intros HI. unfold tmin_run_target. apply tm_get.
  change (fsrv (tmin_start w content tmp)) with w. destruct (f_run _ _ _ _ laws w content HI) as (w' & -> & Hw & Htm). apply tm_modify.
  destruct (bool_decide (ret content = FSRV_RUN_ERROR)); [by split|]. destruct (user_stop w').
  { eapply tm_lift; [apply bytes_of_ok; cbn; rewrite Nat2Z.id; lia|]. unfold wp, stopped_at_start. cbn.
    by rewrite Nat2Z.id, firstn_all. }
  destruct (hang_mode cf) eqn:Hh.
  { unfold first_done. rewrite Hh, <- Htm. destruct (ret content); cbn; repeat split; done. }
  rewrite (masked_ok cf I ret tr laws Hmask). eapply tm_lift; [done|]. apply tm_modify.
  set (s1 := with_run w' (masked cf tr content) _).
  unfold first_done, start_cksum, start_mode. rewrite Hh. destruct (ret content) eqn:Hr; try done.
  all: cbn [crash_mode s1 with_run tmin_start].
  all: unfold wp; rewrite ?bool_decide_eq_false_2 by done; rewrite ?bool_decide_eq_true_2 by done.
  1, 3, 4: rewrite same_path_first by done; cbn; repeat split; done.
  unfold modify, get, mbind, T_bind. cbn [crash_mode with_crash_mode].
  destruct (exact_mode cf); cbn [negb]; [rewrite same_path_first by done|]; cbn; repeat split; done.
Qed.

Lemma dry_run_spec w :
  I w -> wp True stopped_at_start (dry_run cf hash64) (tmin_start w content tmp) (fun _ s => dried s).
Proof.
  intros HI. unfold dry_run. apply tm_get. eapply tm_lift; [apply bytes_of_ok; cbn; rewrite Nat2Z.id; lia|].
  cbn [in_data in_len tmin_start]. rewrite drop_0, Nat2Z.id, firstn_all. apply tm_bind.
  eapply tm_mono; [by apply first_run_spec|]. cbn beta. intros _ s (H1 & H2 & H3 & H4 & H5 & H6 & H7). apply tm_get. rewrite H5.
  assert (Hd : bool_decide (ret content = FSRV_RUN_TMOUT) = hang_mode cf -> dried s).
  { intros E. assert (Hm : crash_mode s = start_mode /\ orig_cksum s = start_cksum).
    { destruct (hang_mode cf) eqn:Hh; [|apply bool_decide_eq_false in E; destruct (H6 eq_refl E) as (? & ? & _); done].
      destruct (H7 eq_refl) as [-> ->]. unfold start_cksum, start_mode. by rewrite Hh. }
    destruct Hm as [Hm1 Hm2]. split; [|intros Hh; rewrite Hh in E; by apply bool_decide_eq_false in E].
    split; try done; [by rewrite H2|by rewrite H4|by rewrite H2, firstn_all|]. split; [|apply shrinks_refl].
    destruct (verdict_keeps content) as [-> | Et].
    - unfold keeps. destruct (hang_mode cf); [done|]. apply bool_decide_eq_false in E. rewrite Z.eqb_refl. destruct (ret content); try done.
      by destruct (exact_mode cf).
    - rewrite bool_decide_eq_true_2 in E by done. unfold verdict. rewrite <- E. by apply bool_decide_eq_true_2. }
  destruct (bool_decide _) eqn:Et, (hang_mode cf) eqn:Hh; cbn [andb negb orb]; try (by split); try (by apply tm_ret, Hd).
  destruct (crash_mode s); [by apply tm_ret, Hd|].
  assert (Hnt : ret content <> FSRV_RUN_TMOUT) by (by apply bool_decide_eq_false in Et).
  destruct (H6 eq_refl Hnt) as (_ & _ & Htr). pose proof (f_trace _ _ _ _ laws content).
  eapply tm_lift; [unfold anything_set; rewrite Htr, bytes_of_ok; [done|]; rewrite (length_masked cf I ret tr laws Hmask); lia|].
  destruct (existsb _ _); [by apply tm_ret, Hd|by split].
Qed.

(** What is in the output file. *)
Definition kept_output (s : tmin W) : Prop :=
  exists r, output s = Some r /\ shrinks content r /\ (r = content \/ keeps content r = true).

Lemma tmin_main_spec w fuel :
  I w -> (2 * length content <= fuel)%nat ->
  match tmin_main cf hash64 fuel (tmin_start w content tmp) with
  | Ok (s, Some _) =>
      exists r, output s = Some r /\ shrinks content r /\ keeps content r = true /\ minimal_for (keeps content) r
  | Ok (s, None) => kept_output s
  | Err e => e = Fatal /\ (run_fails ret \/ dry_run cf hash64 (tmin_start w content tmp) = Err Fatal)
  end.
Proof.
  intros HI Hf. unfold tmin_main. unfold mbind, T_bind. pose proof (dry_run_spec w HI) as Hd. unfold wp in Hd.
  destruct (dry_run cf hash64 (tmin_start w content tmp)) as [[s [u|]]|e].
  - destruct Hd as [Hi Hto].
    assert (Hn : Z.of_nat (length content) < 2 ^ 24).
    { unfold read_initial_file in Hfile. case_match; [done|]. case_match eqn:Hl; [done|]. apply Z.leb_gt in Hl. unfold TMIN_MAX_FILE in Hl. lia. }
    assert (Hk : forall m, verdict cf hash64 ret tr start_mode start_cksum m = keeps content m).
    { intros m. destruct (verdict_keeps m) as [E|E]; [done|]. destruct (hang_mode cf) eqn:Hh; [|by destruct (Hto eq_refl)].
      unfold verdict, keeps. by rewrite Hh. }
    pose proof (minimize_spec cf hash64 I ret tr laws Hmask start_mode start_cksum content (length content)
      ltac:(lia) Hbytes Hn fuel s content Hi) as Hm.
    unfold wp in Hm. specialize (Hm ltac:(pose proof (weight_length content); lia)).
    destruct (minimize cf hash64 fuel s) as [[s1 [[]|]]|e1].
    + destruct Hm as (r & [] & Hmin). unfold get, lift, modify. rewrite bytes_of_ok by (rewrite i_len0, Nat2Z.id; lia).
      rewrite drop_0, i_len0, Nat2Z.id, i_cur0.
      exists r. split; [done|]. destruct i_good0 as [Hg1 Hg2]. split; [done|].
      split; [by rewrite <- Hk|]. by eapply minimal_ext.
    + destruct Hm as (r & Ho & Hg1 & Hg2). exists r. split; [done|]. split; [done|]. right. by rewrite <- Hk.
    + destruct Hm as [? ?]. auto.
  - exists content. split; [done|]. split; [apply shrinks_refl|by left].
  - destruct Hd as [-> _]. auto.
Qed.
End Main.

(** C9: for a target whose behaviour depends on its input alone, [afl-tmin]
    ends and never leaves its buffers.  What it writes is the input with
    characters left out or set to [0], it hangs, crashes or takes its path
    like the input does, and no aligned block of any size that is tried, down
    to a single character, can be left out of it.  A tool that is interrupted
    writes the input or something accepted; it fails only if a run fails or
    the dry run does. *)
Theorem tmin_main_correct {W : Type} `{Fsrv W} (cf : tmin_config) (hash64 : list Z -> Z) (I : W -> Prop)
    (ret : list Z -> fsrv_run_result) (tr : list Z -> list Z) (content tmp : list Z) (w : W) (fuel : nat) :
  target_fixed cf I ret tr ->
  (forall m, mask_bitmap cf = Some m -> (4 * Z.to_nat (tmin_map_size cf .>> 2) <= length m)%nat) ->
  read_initial_file content = Ok content -> bytes content -> length tmp = length content ->
  I w -> (2 * length content <= fuel)%nat ->
  match tmin_main cf hash64 fuel (tmin_start w content tmp) with
  | Ok (s, Some _) =>
      exists r, output s = Some r /\ shrinks content r /\ keeps cf hash64 ret tr content r = true /\
        minimal_for (keeps cf hash64 ret tr content) r
  | Ok (s, None) => kept_output cf hash64 ret tr content s
  | Err e => e = Fatal /\ (run_fails ret \/ dry_run cf hash64 (tmin_start w content tmp) = Err Fatal)
  end.
Proof. intros. by eapply tmin_main_spec. Qed.

(** A target that crashes on every input with a [B]. *)
Definition crashes_on_B (mem : list Z) : fsrv_run_result := if existsb (Z.eqb 66) mem then FSRV_RUN_CRASH else FSRV_RUN_OK.
#[local] Instance toy_fsrv : Fsrv unit := {
  run_testcase := fun _ mem => (crashes_on_B mem, [1; 0; 0; 0], tt);
  timed_out := fun _ => false;
  user_stop := fun _ => false
}.
Definition toy_conf : tmin_config := mkTminConf false false false 4 None.
Definition toy_content : list Z := [65; 65; 67; 66; 68; 65; 66].

Lemma tmin_main_correct_witness :
  exists s r, tmin_main toy_conf (fun _ => 0) 14 (tmin_start tt toy_content toy_content) = Ok (s, Some tt) /\
    output s = Some r /\ r = [66] /\ minimal_for (keeps toy_conf (fun _ => 0) crashes_on_B (fun _ => [1; 0; 0; 0]) toy_content) r.
Proof.
  assert (Hf : target_fixed toy_conf (fun _ : unit => True) crashes_on_B (fun _ => [1; 0; 0; 0])).
  { split; [|reflexivity]. intros [] mem _. exists tt. split; [reflexivity|]. split; [done|]. cbn. unfold crashes_on_B. by destruct (existsb _ _). }
  pose proof (tmin_main_correct toy_conf (fun _ => 0) (fun _ => True) crashes_on_B (fun _ => [1; 0; 0; 0]) toy_content toy_content tt 14
    Hf ltac:(discriminate) eq_refl (bytesb_spec toy_content eq_refl) eq_refl Logic.I ltac:(cbn; lia)) as Hm.
  destruct (tmin_main toy_conf (fun _ => 0) 14 (tmin_start tt toy_content toy_content)) as [[s [[]|]]|e] eqn:E; [|vm_compute in E; discriminate..].
  destruct Hm as (r & H1 & _ & _ & H4). exists s, r. split; [done|]. split; [done|]. split; [|done].
  vm_compute in E. injection E as <-. cbn in H1. congruence.
Defined.
