(* ===== verification/CmpHooks.v ===== *)
(** CmpLog in the target: the hooks of [instrumentation/afl-compiler-rt.o.c]
    that the instrumentation calls at every comparison, and that fill the map
    [RedqueenMap] reads.

    A hook first makes out what it logs, a [logged], and then writes it. *)

From S2P Require Import Prelude Words Havoc Redqueen RedqueenMap.
#[local] Open Scope list_scope.
#[local] Open Scope Z_scope.

Definition CMP_TYPE_RTN : Z := 2.

(** One entry: an integer comparison of [shape] with its operands as 64-bit
    halves, or two operands of a routine with their length bytes. *)
Inductive logged :=
  | LIns (k : nat) (shape attr : Z) (a b : Z) (wide : option (Z * Z))
  | LRtn (k : nat) (l len1 len2 : Z) (bs1 bs2 : list Z).

(** [hits] has 24 bits, [shape] 5 and [attribute] 4. *)
Definition ins_header (h : cmp_header) (sh attr : Z) : cmp_header :=
  if negb (type h =? CMP_TYPE_INS) then mkHeader 1 (uwrap 5 sh) CMP_TYPE_INS (uwrap 4 attr)
  else mkHeader (uwrap 24 (hits h + 1)) (if shape h <? sh then uwrap 5 sh else shape h) CMP_TYPE_INS (uwrap 4 attr).
Definition rtn_header (h : cmp_header) (l : Z) : cmp_header :=
  if negb (type h =? CMP_TYPE_RTN) then mkHeader 1 (uwrap 5 (l - 1)) CMP_TYPE_RTN (attribute h)
  else mkHeader (uwrap 24 (hits h + 1)) (if shape h <? l then uwrap 5 (l - 1) else shape h) CMP_TYPE_RTN (attribute h).

(** The value of [hits] before, or 0 for a new kind of entry. *)
Definition old_hits (h : cmp_header) (ty : Z) : Z := if negb (type h =? ty) then 0 else hits h.

Definition poke (off : nat) (bs row : list Z) : res (list Z) :=
  if bool_decide (off + length bs <= length row)%nat then Ok (take off row ++ bs ++ drop (off + length bs) row) else Err Fault.

Definition write_ins (i : nat) (a b : Z) (wide : option (Z * Z)) (row : list Z) : res (list Z) :=
  row ← poke (32 * i) (le_store 8 a) row;
  row ← poke (32 * i + 8) (le_store 8 b) row;
  match wide with
  | None => Ok row
  | Some (ah, bh) => row ← poke (32 * i + 16) (le_store 8 ah) row; poke (32 * i + 24) (le_store 8 bh) row
  end.

(** [struct cmpfn_operands]. *)
Definition write_rtn (i : nat) (len1 len2 : Z) (bs1 bs2 row : list Z) : res (list Z) :=
  row ← poke (64 * i + 31) [u8 len1] row;
  row ← poke (64 * i + 63) [u8 len2] row;
  row ← poke (64 * i) bs1 row;
  poke (64 * i + 32) bs2 row.

Definition write_logged (m : cmp_map) (e : logged) : res cmp_map :=
  match e with
  | LIns k sh attr a b wide =>
      h ← rd (headers m) k;
      row ← rd (log m) k;
      row ← write_ins (Z.to_nat (old_hits h CMP_TYPE_INS .& (CMP_MAP_H - 1))) a b wide row;
      hs ← wr (headers m) k (ins_header h sh attr);
      lg ← wr (log m) k row;
      Ok (mkCmpMap hs lg)
  | LRtn k l len1 len2 bs1 bs2 =>
      h ← rd (headers m) k;
      row ← rd (log m) k;
      row ← write_rtn (Z.to_nat (old_hits h CMP_TYPE_RTN .& (CMP_MAP_RTN_H - 1))) len1 len2 bs1 bs2 row;
      hs ← wr (headers m) k (rtn_header h l);
      lg ← wr (log m) k row;
      Ok (mkCmpMap hs lg)
  end.

Section Hooks.
(** xxHash, the memory of the target, and what a [write] from it returns. *)
Context (default_hash : list Z -> Z) (mem : Z -> option Z) (sys_write : Z -> Z -> Z) (page_size : Z).

(** The key of a return address. *)
Definition key_of (ret : Z) : nat := Z.to_nat (default_hash (le_store 8 ret) .& (CMP_MAP_W - 1)).

(** ** Integers *)

Definition ins_hook (sh ret a b attr : Z) : list logged :=
  if a =? b then [] else [LIns (key_of ret) sh attr a b None].
Definition cmplog_ins_hook1 := ins_hook 0.
Definition cmplog_ins_hook2 := ins_hook 1.
Definition cmplog_ins_hook4 := ins_hook 3.
Definition cmplog_ins_hook8 := ins_hook 7.

Definition high (x : Z) : Z := u64 (x .>> 64).
Definition cmplog_ins_hookN (ret a b attr size : Z) : list logged :=
  if a =? b then [] else
  [LIns (key_of ret) size attr (u64 a) (u64 b) (if 7 <? size then Some (high a, high b) else None)].
Definition cmplog_ins_hook16 (ret a b attr : Z) : list logged :=
  [LIns (key_of ret) 15 attr (u64 a) (u64 b) (Some (high a, high b))].

(** [cases]: the number of cases, the width, the cases. *)
Definition sanitizer_cov_trace_switch (ret val : Z) (cases : list Z) : res (list logged) :=
  n ← rd cases 0;
  rfold (fun l i => c ← rd cases (i + 2);
           Ok (l ++ [LIns (key_of (u64 (ret + Z.of_nat i))) 7 1 val c None])) [] (seq 0 (Z.to_nat n)).

(** ** Routines *)

Definition load1 (p : Z) : res Z := match mem p with Some b => Ok b | None => Err Fault end.

Fixpoint load_bytes (p : Z) (n : nat) : res (list Z) :=
  match n with O => Ok [] | S n => b ← load1 p; bs ← load_bytes (p + 1) n; Ok (b :: bs) end.

Fixpoint strnlen (p : Z) (n : nat) : res Z :=
  match n with
  | O => Ok 0
  | S n => b ← load1 p; if b =? 0 then Ok 0 else l ← strnlen (p + 1) n; Ok (1 + l)
  end.

Definition area_is_valid (p len : Z) : Z :=
  if p =? 0 then 0 else
  let r := sys_write p len in
  if (r <=? 0) || (len <? r) then 0 else
  let page := (p .& Z.lnot (page_size - 1)) + page_size in
  if p + len <? page then r else page - p.

Definition cmplog_rtn_hook_strn (ret p1 p2 len : Z) : res (list logged) :=
  if len =? 0 then Ok [] else
  let len0 := Z.min len 31 in
  len1 ← strnlen p1 (Z.to_nat len0);
  let len1 := if len1 <? 31 then area_is_valid p1 (len1 + 1) else len1 in
  len2 ← strnlen p2 (Z.to_nat len0);
  let len2 := if len2 <? 31 then area_is_valid p1 (len2 + 1) else len2 in
  let l := Z.max len1 len2 in
  if l <? 2 then Ok [] else
  bs1 ← load_bytes p1 (Z.to_nat len1);
  bs2 ← load_bytes p2 (Z.to_nat len2);
  Ok [LRtn (key_of ret) l (0x80 + l) (0x80 + l) bs1 bs2].

Definition cmplog_rtn_hook_str (ret p1 p2 : Z) : res (list logged) :=
  if (p1 =? 0) || (p2 =? 0) then Ok [] else
  n1 ← strnlen p1 30;
  n2 ← strnlen p2 30;
  let len1 := n1 + 1 in
  let len2 := n2 + 1 in
  let l := Z.max len1 len2 in
  if l <? 3 then Ok [] else
  bs1 ← load_bytes p1 (Z.to_nat len1);
  bs2 ← load_bytes p2 (Z.to_nat len2);
  Ok [LRtn (key_of ret) l (0x80 + len1) (0x80 + len2) bs1 bs2].

Definition cmplog_rtn_hook (ret p1 p2 : Z) : res (list logged) :=
  let l1 := area_is_valid p1 31 in
  if l1 <=? 0 then Ok [] else
  let l2 := area_is_valid p2 31 in
  if l2 <=? 0 then Ok [] else
  let len := Z.min 31 (Z.min l1 l2) in
  bs1 ← load_bytes p1 (Z.to_nat len);
  bs2 ← load_bytes p2 (Z.to_nat len);
  Ok [LRtn (key_of ret) len len len bs1 bs2].

(** ** A run of the target *)

(** The calls of the hooks in a run; [ret] is the return address. *)
Inductive call :=
  | Ins1 (ret a b attr : Z) | Ins2 (ret a b attr : Z) | Ins4 (ret a b attr : Z) | Ins8 (ret a b attr : Z)
  | InsN (ret a b attr size : Z) | Ins16 (ret a b attr : Z)
  | Switch (ret val : Z) (cases : list Z)
  | Strn (ret p1 p2 len : Z) | Str (ret p1 p2 : Z) | Rtn (ret p1 p2 : Z).

Definition logs (c : call) : res (list logged) :=
  match c with
  | Ins1 ret a b attr => Ok (cmplog_ins_hook1 ret a b attr)
  | Ins2 ret a b attr => Ok (cmplog_ins_hook2 ret a b attr)
  | Ins4 ret a b attr => Ok (cmplog_ins_hook4 ret a b attr)
  | Ins8 ret a b attr => Ok (cmplog_ins_hook8 ret a b attr)
  | InsN ret a b attr size => Ok (cmplog_ins_hookN ret a b attr size)
  | Ins16 ret a b attr => Ok (cmplog_ins_hook16 ret a b attr)
  | Switch ret val cases => sanitizer_cov_trace_switch ret val cases
  | Strn ret p1 p2 len => cmplog_rtn_hook_strn ret p1 p2 len
  | Str ret p1 p2 => cmplog_rtn_hook_str ret p1 p2
  | Rtn ret p1 p2 => cmplog_rtn_hook ret p1 p2
  end.

Definition run_call (m : cmp_map) (c : call) : res cmp_map := es ← logs c; rfold write_logged m es.
Definition run_calls (m : cmp_map) (cs : list call) : res cmp_map := rfold run_call m cs.
End Hooks.
