(* ===== verification/CmpHooksThms.v ===== *)
(** The hooks of the target keep the map in the shape the fuzzer relies on,
    and the log of a comparison is a ring of its last 32 executions. *)

From S2P Require Import Prelude Words Havoc HavocThms Redqueen RedqueenMap RedqueenMapThms CmpHooks.
#[local] Open Scope list_scope.
#[local] Open Scope Z_scope.

Lemma slot_range x n : 0 <= n -> 0 <= x .& Z.ones n < 2 ^ n.
Proof. intros H. rewrite Z.land_ones by lia. apply Z.mod_pos_bound, Z.pow_pos_nonneg; lia. Qed.

Lemma key_range hash ret : Z.of_nat (key_of hash ret) < CMP_MAP_W.
Proof. unfold key_of. change (CMP_MAP_W - 1) with (Z.ones 16). pose proof (slot_range (hash (le_store 8 ret)) 16). unfold CMP_MAP_W. lia. Qed.
#[local] Opaque CMP_MAP_W.

(** ** Rows *)

Lemma poke_ok off bs row : (off + length bs <= length row)%nat -> poke off bs row = Ok (take off row ++ bs ++ drop (off + length bs) row).
Proof. intros H. unfold poke. by rewrite bool_decide_eq_true_2. Qed.

Lemma poke_length off bs row row' : poke off bs row = Ok row' -> length row' = length row.
Proof.
  unfold poke. case_bool_decide; [|done]. intros [= <-]. rewrite !length_app, length_take, length_drop. lia.
Qed.

Lemma poke_bytes off bs row row' : poke off bs row = Ok row' -> bytes bs -> bytes row -> bytes row'.
Proof.
  unfold poke. case_bool_decide; [|done]. intros [= <-] Hb Hr. apply Forall_app. split; [by apply bytes_take|].
  apply Forall_app. split; [done|by apply bytes_drop].
Qed.

(** What lies before or after is untouched. *)
Lemma poke_other off bs row row' i n :
  poke off bs row = Ok row' -> (i + n <= off \/ off + length bs <= i)%nat -> take n (drop i row') = take n (drop i row).
Proof.
  unfold poke. case_bool_decide as Hl; [|done]. intros [= <-] Hi.
  apply list_eq. intros j. destruct (decide (j < n)%nat) as [Hj|Hj]; [|by rewrite !lookup_ge_None_2 by (rewrite length_take; lia)].
  rewrite !lookup_take_lt, !lookup_drop by done.
  destruct Hi as [Hi|Hi].
  - rewrite lookup_app_l, lookup_take_lt by (rewrite ?length_take; lia). done.
  - rewrite lookup_app_r by (rewrite length_take; lia). rewrite lookup_app_r by (rewrite length_take; lia).
    rewrite length_take, lookup_drop. f_equal. lia.
Qed.

Lemma poke_same off bs row row' : poke off bs row = Ok row' -> take (length bs) (drop off row') = bs.
Proof.
  unfold poke. case_bool_decide as Hl; [|done]. intros [= <-].
  rewrite drop_app_length' by (rewrite length_take; lia). apply take_app_length.
Qed.

(** The upper halves of the comparisons behind the routines are zero. *)
Record row_good (row : list Z) : Prop := {
  g_bytes : bytes row;
  g_len : length row = 1024%nat;
  g_high j : (16 <= j < 32)%nat -> take 16 (drop (32 * j + 16) row) = replicate 16 0
}.

Definition plain_shape (sh : Z) : Prop := sh = 0 \/ sh = 1 \/ sh = 3 \/ sh = 7.
Definition header_good (h : cmp_header) : Prop := 0 <= shape h < 32 /\ (type h = CMP_TYPE_INS -> plain_shape (shape h)).

Record map_good (m : cmp_map) : Prop := {
  m_headers : Z.of_nat (length (headers m)) = CMP_MAP_W;
  m_log : Z.of_nat (length (log m)) = CMP_MAP_W;
  m_shapes : Forall header_good (headers m);
  m_rows : Forall row_good (log m)
}.

Lemma row_good_ok row : row_good row -> row_ok row.
Proof.
  intros [Hb Hl Hh]. split; [done..|]. specialize (Hh 31%nat ltac:(lia)). apply (f_equal (fun l => l !! 0%nat)) in Hh.
  rewrite lookup_take_lt, lookup_drop in Hh by lia. cbn in Hh. apply list_elem_of_In, list_elem_of_lookup.
  exists 496%nat. rewrite lookup_drop. exact Hh.
Qed.

Lemma map_good_ok m : map_good m -> map_ok m.
Proof.
  intros [H1 H2 H3 H4]. split; [done..| |].
  - eapply Forall_impl; [exact H3|]. intros h [Hs Ht]. split; [done|]. intros E.
    destruct (Ht E) as [-> | [-> | [-> | ->]]]; reflexivity.
  - eapply Forall_impl; [exact H4|]. apply row_good_ok.
Qed.

(** ** Entries *)

Definition u64_ok (x : Z) : Prop := 0 <= x < 2 ^ 64.

(** Integers of 1, 2, 4 or 8 bytes, routines of up to 31. *)
Definition plain (e : logged) : Prop :=
  match e with
  | LIns k sh attr a b wide => Z.of_nat k < CMP_MAP_W /\ plain_shape sh /\ u64_ok a /\ u64_ok b /\ wide = None
  | LRtn k l len1 len2 bs1 bs2 =>
      Z.of_nat k < CMP_MAP_W /\ 1 <= l <= 31 /\ (length bs1 <= 31)%nat /\ (length bs2 <= 31)%nat /\ bytes bs1 /\ bytes bs2
  end.

Lemma ins_slot x : (Z.to_nat (x .& (CMP_MAP_H - 1)) < 32)%nat.
Proof. change (CMP_MAP_H - 1) with (Z.ones 5). pose proof (slot_range x 5). lia. Qed.

Lemma rtn_slot x : (Z.to_nat (x .& (CMP_MAP_RTN_H - 1)) < 8)%nat.
Proof. change (CMP_MAP_RTN_H - 1) with (Z.ones 3). pose proof (slot_range x 3). lia. Qed.

Lemma write_ins_good i a b row :
  row_good row -> (i < 32)%nat -> u64_ok a -> u64_ok b -> exists row', write_ins i a b None row = Ok row' /\ row_good row'.
Proof.
  intros [Hb Hl Hh] Hi Ha Hb'. unfold write_ins, u64_ok in *.
  destruct (poke (32 * i) (le_store 8 a) row) as [r1|] eqn:E1; [|rewrite poke_ok in E1 by (rewrite length_le_store; lia); done].
  pose proof (poke_length _ _ _ _ E1) as L1. cbn [mbind res_bind].
  destruct (poke (32 * i + 8) (le_store 8 b) r1) as [r2|] eqn:E2; [|rewrite poke_ok in E2 by (rewrite length_le_store; lia); done].
  pose proof (poke_length _ _ _ _ E2) as L2. cbn [mbind res_bind].
  exists r2. split; [done|]. split; [|lia|].
  - eapply poke_bytes; [exact E2|apply le_store_bytes; lia|]. eapply poke_bytes; [exact E1|apply le_store_bytes; lia|done].
  - intros j Hj. rewrite (poke_other _ _ _ _ _ _ E2), (poke_other _ _ _ _ _ _ E1), Hh by (rewrite ?length_le_store; lia). done.
Qed.

Lemma write_rtn_good i len1 len2 bs1 bs2 row :
  row_good row -> (i < 8)%nat -> (length bs1 <= 31)%nat -> (length bs2 <= 31)%nat -> bytes bs1 -> bytes bs2 ->
  exists row', write_rtn i len1 len2 bs1 bs2 row = Ok row' /\ row_good row'.
Proof.
  intros [Hb Hl Hh] Hi H1 H2 B1 B2. unfold write_rtn.
  assert (Hu : forall x, bytes [u8 x]) by (intros x; constructor; [apply (uwrap_range 8); lia|constructor]).
  destruct (poke (64 * i + 31) [u8 len1] row) as [r1|] eqn:E1; [|rewrite poke_ok in E1 by (cbn [length]; lia); done].
  pose proof (poke_length _ _ _ _ E1) as L1. cbn [mbind res_bind].
  destruct (poke (64 * i + 63) [u8 len2] r1) as [r2|] eqn:E2; [|rewrite poke_ok in E2 by (cbn [length]; lia); done].
  pose proof (poke_length _ _ _ _ E2) as L2. cbn [mbind res_bind].
  destruct (poke (64 * i) bs1 r2) as [r3|] eqn:E3; [|rewrite poke_ok in E3 by lia; done].
  pose proof (poke_length _ _ _ _ E3) as L3. cbn [mbind res_bind].
  destruct (poke (64 * i + 32) bs2 r3) as [r4|] eqn:E4; [|rewrite poke_ok in E4 by lia; done].
  pose proof (poke_length _ _ _ _ E4) as L4. exists r4. split; [done|]. split; [eauto 6 using poke_bytes|lia|].
  intros j Hj. rewrite (poke_other _ _ _ _ _ _ E4), (poke_other _ _ _ _ _ _ E3), (poke_other _ _ _ _ _ _ E2), (poke_other _ _ _ _ _ _ E1), Hh
    by (cbn [length]; lia). done.
Qed.

Lemma plain_shape_5 sh : plain_shape sh -> uwrap 5 sh = sh.
Proof. intros [-> | [-> | [-> | ->]]]; reflexivity. Qed.

Lemma ins_header_good h sh attr : header_good h -> plain_shape sh -> header_good (ins_header h sh attr).
Proof.
  intros [Hs Ht] Hp. assert (Hr : 0 <= sh < 32) by (destruct Hp as [-> | [-> | [-> | ->]]]; lia).
  unfold ins_header. destruct (Z.eqb_spec (type h) CMP_TYPE_INS) as [E|E]; cbn [negb]; split; cbn; rewrite ?plain_shape_5 by done; auto.
  - case_match; lia.
  - case_match; auto.
Qed.

Lemma rtn_header_good h l : header_good h -> 1 <= l <= 31 -> header_good (rtn_header h l).
Proof.
  intros [Hs _] Hl. unfold rtn_header. rewrite uwrap_id by (change (2 ^ 5) with 32; lia).
  destruct (negb _); split; cbn; try done; try lia; case_match; lia.
Qed.

(** Both writes at a key. *)
Lemma map_good_update m k h row :
  map_good m -> Z.of_nat k < CMP_MAP_W -> header_good h -> row_good row ->
  wr (headers m) k h = Ok (<[k:=h]> (headers m)) /\ wr (log m) k row = Ok (<[k:=row]> (log m)) /\
  map_good (mkCmpMap (<[k:=h]> (headers m)) (<[k:=row]> (log m))).
Proof.
  intros [H1 H2 H3 H4] Hk Hh Hr. rewrite !wr_lt by lia. split; [done|]. split; [done|].
  split; cbn [headers log]; rewrite ?length_insert; try done; by apply Forall_insert.
Qed.

Lemma map_good_row m k : map_good m -> Z.of_nat k < CMP_MAP_W ->
  exists h row, rd (headers m) k = Ok h /\ rd (log m) k = Ok row /\ header_good h /\ row_good row /\
    headers m !! k = Some h /\ log m !! k = Some row.
Proof.
  intros [H1 H2 H3 H4] Hk. destruct (rd_lt (headers m) k) as (h & Hh & Lh); [lia|]. destruct (rd_lt (log m) k) as (row & Hr & Lr); [lia|].
  pose proof (Forall_lookup_1 _ _ _ _ H3 Lh). pose proof (Forall_lookup_1 _ _ _ _ H4 Lr). exists h, row. auto 10.
Qed.

Lemma write_logged_good m e : map_good m -> plain e -> exists m', write_logged m e = Ok m' /\ map_good m'.
Proof.
  intros Hm He. destruct e as [k sh attr a b wide|k l len1 len2 bs1 bs2].
  - destruct He as (Hk & Hs & Ha & Hb & ->). destruct (map_good_row m k Hm Hk) as (h & row & Eh & Er & Gh & Gr & _).
    cbn [write_logged]. rstep Eh. rstep Er. destruct (write_ins_good _ a b row Gr (ins_slot (old_hits h CMP_TYPE_INS)) Ha Hb) as (row' & Ew & Gw).
    rstep Ew. destruct (map_good_update m k (ins_header h sh attr) row' Hm Hk (ins_header_good _ _ _ Gh Hs) Gw) as (E1 & E2 & G).
    rstep E1. rstep E2. eauto.
  - destruct He as (Hk & Hl & H1 & H2 & B1 & B2). destruct (map_good_row m k Hm Hk) as (h & row & Eh & Er & Gh & Gr & _).
    cbn [write_logged]. rstep Eh. rstep Er.
    destruct (write_rtn_good _ len1 len2 bs1 bs2 row Gr (rtn_slot (old_hits h CMP_TYPE_RTN)) H1 H2 B1 B2) as (row' & Ew & Gw).
    rstep Ew. destruct (map_good_update m k (rtn_header h l) row' Hm Hk (rtn_header_good _ _ Gh Hl) Gw) as (E1 & E2 & G).
    rstep E1. rstep E2. eauto.
Qed.

Lemma write_all_good es m : map_good m -> Forall plain es -> exists m', rfold write_logged m es = Ok m' /\ map_good m'.
Proof.
  revert m. induction es as [|e es IH]; intros m Hm Hp; [cbn; eauto|]. apply Forall_cons in Hp as [He Hp].
  destruct (write_logged_good m e Hm He) as (m1 & E & Hm1). cbn [rfold]. rstep E. by apply IH.
Qed.

(** ** Calls *)

Section Calls.
Context (hash : list Z -> Z) (mem : Z -> option Z) (sys_write : Z -> Z -> Z) (pk : Z).
Let page_size := 2 ^ pk.
Context (Hpk : 0 <= pk) (Hmem : forall p b, mem p = Some b -> is_byte b).

Definition page_end (p : Z) : Z := (p .& Z.lnot (page_size - 1)) + page_size.

(** What [write] has read is mapped, and so is the rest of the page. *)
Context (Hwrite : forall p len q, 0 < sys_write p len -> p <= q < Z.max (p + sys_write p len) (page_end p) -> mem q <> None).

Lemma page_end_after p : p < page_end p.
Proof.
  unfold page_end, page_size. rewrite Z.sub_1_r, <- Z.ones_equiv, <- Z.ldiff_land, Z.ldiff_ones_r, Z.shiftl_mul_pow2, Z.shiftr_div_pow2 by lia.
  pose proof (Z.pow_pos_nonneg 2 pk). pose proof (Z.div_mod p (2 ^ pk)). pose proof (Z.mod_pos_bound p (2 ^ pk)). lia.
Qed.

Lemma area_spec p len : 0 < len ->
  let v := area_is_valid sys_write page_size p len in
  0 <= v <= len /\ (0 < v -> forall q, p <= q < p + v -> mem q <> None).
Proof.
  intros Hl. cbn zeta. unfold area_is_valid. destruct (p =? 0); [split; [lia|lia]|].
  destruct (_ || _) eqn:Hr; [split; [lia|lia]|]. apply orb_false_elim in Hr as [H1 H2]. apply Z.leb_gt in H1. apply Z.ltb_ge in H2.
  fold (page_end p). pose proof (page_end_after p). destruct (Z.ltb_spec (p + len) (page_end p)); (split; [lia|]); intros _ q Hq; apply (Hwrite p len); lia.
Qed.

Lemma strnlen_range p n l : strnlen mem p n = Ok l -> 0 <= l <= Z.of_nat n.
Proof.
  revert p l. induction n as [|n IH]; intros p l; cbn [strnlen]; [intros [= <-]; lia|].
  unfold load1. destruct (mem p) as [b|]; [|done]. cbn [mbind res_bind]. destruct (b =? 0); [intros [= <-]; lia|].
  destruct (strnlen mem (p + 1) n) as [k|] eqn:E; [|done]. cbn [mbind res_bind]. intros [= <-]. apply IH in E. lia.
Qed.

Lemma load_bytes_spec p n bs : load_bytes mem p n = Ok bs -> length bs = n /\ bytes bs.
Proof.
  revert p bs. induction n as [|n IH]; intros p bs; cbn [load_bytes]; [intros [= <-]; split; [done|constructor]|].
  unfold load1. destruct (mem p) as [b|] eqn:Eb; [|done]. cbn [mbind res_bind].
  destruct (load_bytes mem (p + 1) n) as [r|] eqn:E; [|done]. cbn [mbind res_bind]. intros [= <-]. apply IH in E as [<- Hb].
  split; [done|]. constructor; [by eapply Hmem|done].
Qed.

Lemma load_bytes_ok p n : (forall q, p <= q < p + Z.of_nat n -> mem q <> None) -> exists bs, load_bytes mem p n = Ok bs.
Proof.
  revert p. induction n as [|n IH]; intros p Hq; cbn [load_bytes]; [eauto|]. unfold load1.
  destruct (mem p) as [b|] eqn:Eb; [|exfalso; apply (Hq p); [lia|done]]. cbn [mbind res_bind].
  destruct (IH (p + 1)) as [bs ->]; [intros q H; apply Hq; lia|]. cbn. eauto.
Qed.

(** A string function only loads from memory. *)
Lemma load_faults p n e : load_bytes mem p n = Err e -> e = Fault.
Proof.
  revert p. induction n as [|n IH]; intros p; cbn [load_bytes]; [done|]. unfold load1. destruct (mem p); cbn [mbind res_bind]; [|congruence].
  destruct (load_bytes mem (p + 1) n) eqn:E; cbn [mbind res_bind]; [done|]. intros [= <-]. by eapply IH.
Qed.

Lemma strnlen_faults p n e : strnlen mem p n = Err e -> e = Fault.
Proof.
  revert p. induction n as [|n IH]; intros p; cbn [strnlen]; [done|]. unfold load1. destruct (mem p); cbn [mbind res_bind]; [|congruence].
  case_match; [done|]. destruct (strnlen mem (p + 1) n) eqn:E; cbn [mbind res_bind]; [done|]. intros [= <-]. by eapply IH.
Qed.

(** The calls the fuzzer is made for: comparisons of 1, 2, 4 or 8 bytes,
    switches, routines. *)
Definition plain_call (c : call) : Prop :=
  match c with
  | Ins1 _ a b _ | Ins2 _ a b _ | Ins4 _ a b _ | Ins8 _ a b _ => u64_ok a /\ u64_ok b
  | Switch _ val cases => u64_ok val /\ Forall u64_ok cases /\ exists n, cases !! 0%nat = Some n /\ (Z.to_nat n + 2 <= length cases)%nat
  | InsN _ _ _ _ _ | Ins16 _ _ _ _ => False
  | Strn _ _ _ len => 0 <= len
  | _ => True
  end.
Definition string_call (c : call) : Prop := match c with Strn _ _ _ _ | Str _ _ _ => True | _ => False end.

Abbreviation logs := (logs hash mem sys_write page_size).

Lemma ins_plain sh ret a b attr : plain_shape sh -> u64_ok a -> u64_ok b -> Forall plain (ins_hook hash sh ret a b attr).
Proof.
  intros Hs Ha Hb. unfold ins_hook. destruct (a =? b); [constructor|]. constructor; [|constructor].
  split; [apply key_range|]. auto.
Qed.

Lemma switch_plain ret val cases : plain_call (Switch ret val cases) ->
  exists es, sanitizer_cov_trace_switch hash ret val cases = Ok es /\ Forall plain es.
Proof.
  intros (Hv & Hc & n & Hn & Hlen). unfold sanitizer_cov_trace_switch. rewrite (proj2 (rd_ok cases 0 n) Hn). cbn [mbind res_bind].
  assert (Hi : Forall (fun i => i + 2 < length cases)%nat (seq 0 (Z.to_nat n))) by (apply Forall_forall; intros i Hi%elem_of_seq; lia).
  match goal with |- context [rfold ?g [] _] => set (f := g) end.
  assert (H0 : Forall plain []) by constructor. revert H0 Hi. generalize (seq 0 (Z.to_nat n)) as l, (@nil logged) as acc.
  induction l as [|i l IH]; intros acc Ha Hi; cbn [rfold]; [eauto|]. apply Forall_cons in Hi as [Hi Hl].
  destruct (rd_lt cases (i + 2) Hi) as (c & Er & El). unfold f at 2. rstep Er. apply IH; [|done]. apply Forall_app. split; [done|].
  constructor; [|constructor]. split; [apply key_range|]. split; [by right; right; right|]. split; [done|]. split; [|done]. by eapply Forall_lookup_1.
Qed.

Lemma rtn_plain ret p1 p2 : exists es, cmplog_rtn_hook hash mem sys_write page_size ret p1 p2 = Ok es /\ Forall plain es.
Proof.
  unfold cmplog_rtn_hook. destruct (area_spec p1 31 ltac:(lia)) as [Hr1 Hm1]. destruct (area_spec p2 31 ltac:(lia)) as [Hr2 Hm2].
  destruct (Z.leb_spec (area_is_valid sys_write page_size p1 31) 0); [eauto|].
  destruct (Z.leb_spec (area_is_valid sys_write page_size p2 31) 0); [eauto|].
  set (len := Z.min 31 _).
  destruct (load_bytes_ok p1 (Z.to_nat len)) as [bs1 E1]; [intros q Hq; apply Hm1; lia|].
  destruct (load_bytes_ok p2 (Z.to_nat len)) as [bs2 E2]; [intros q Hq; apply Hm2; lia|].
  rstep E1. rstep E2. eexists. split; [reflexivity|]. apply load_bytes_spec in E1 as [L1 B1]. apply load_bytes_spec in E2 as [L2 B2].
  constructor; [|constructor]. split; [apply key_range|]. split; [lia|]. split; [lia|]. split; [lia|]. done.
Qed.

(** Two operands of a string function. *)
Lemma strings_plain ret p1 p2 l len1 len2 n1 n2 : 1 <= l <= 31 -> n1 <= 31 -> n2 <= 31 ->
  match bs1 ← load_bytes mem p1 (Z.to_nat n1); bs2 ← load_bytes mem p2 (Z.to_nat n2); Ok [LRtn (key_of hash ret) l len1 len2 bs1 bs2] with
  | Ok es => Forall plain es
  | Err e => e = Fault
  end.
Proof.
  intros Hl H1 H2. destruct (load_bytes mem p1 (Z.to_nat n1)) as [bs1|e] eqn:E1; cbn [mbind res_bind]; [|by eapply load_faults].
  destruct (load_bytes mem p2 (Z.to_nat n2)) as [bs2|e] eqn:E2; cbn [mbind res_bind]; [|by eapply load_faults].
  apply load_bytes_spec in E1 as [L1 B1]. apply load_bytes_spec in E2 as [L2 B2].
  constructor; [|constructor]. split; [apply key_range|]. split; [lia|]. split; [lia|]. split; [lia|]. done.
Qed.

Lemma str_plain ret p1 p2 :
  match cmplog_rtn_hook_str hash mem ret p1 p2 with Ok es => Forall plain es | Err e => e = Fault end.
Proof.
  unfold cmplog_rtn_hook_str. destruct (_ || _); [constructor|].
  destruct (strnlen mem p1 30) as [n1|] eqn:E1; cbn [mbind res_bind]; [|by eapply strnlen_faults].
  destruct (strnlen mem p2 30) as [n2|] eqn:E2; cbn [mbind res_bind]; [|by eapply strnlen_faults].
  apply strnlen_range in E1, E2. destruct (Z.ltb_spec (Z.max (n1 + 1) (n2 + 1)) 3); [constructor|]. apply strings_plain; lia.
Qed.

Lemma strn_plain ret p1 p2 len : 0 <= len ->
  match cmplog_rtn_hook_strn hash mem sys_write page_size ret p1 p2 len with Ok es => Forall plain es | Err e => e = Fault end.
Proof.
  intros Hlen. unfold cmplog_rtn_hook_strn. destruct (len =? 0); [constructor|]. set (len0 := Z.to_nat (Z.min len 31)).
  destruct (strnlen mem p1 len0) as [n1|] eqn:E1; cbn [mbind res_bind]; [|by eapply strnlen_faults].
  destruct (strnlen mem p2 len0) as [n2|] eqn:E2; cbn [mbind res_bind]; [|by eapply strnlen_faults].
  apply strnlen_range in E1, E2.
  assert (Hb : forall n, 0 <= n <= 31 -> (if n <? 31 then area_is_valid sys_write page_size p1 (n + 1) else n) <= 31).
  { intros n Hn. destruct (Z.ltb_spec n 31); [|lia]. pose proof (area_spec p1 (n + 1) ltac:(lia)) as [Ha _]. lia. }
  pose proof (Hb n1 ltac:(lia)). pose proof (Hb n2 ltac:(lia)). cbn zeta.
  set (l1 := if n1 <? 31 then _ else _) in *. set (l2 := if n2 <? 31 then _ else _) in *.
  destruct (Z.ltb_spec (Z.max l1 l2) 2); [constructor|]. apply strings_plain; lia.
Qed.

Lemma logs_plain c : plain_call c ->
  match logs c with Ok es => Forall plain es | Err e => e = Fault /\ string_call c end.
Proof.
  destruct c; cbn [CmpHooks.logs plain_call]; intros Hc; try done.
  - destruct Hc. apply ins_plain; [by left|done..].
  - destruct Hc. apply ins_plain; [by right; left|done..].
  - destruct Hc. apply ins_plain; [by right; right; left|done..].
  - destruct Hc. apply ins_plain; [by right; right; right|done..].
  - by destruct (switch_plain ret val cases Hc) as (es & -> & H).
  - pose proof (strn_plain ret p1 p2 len Hc) as H. destruct (cmplog_rtn_hook_strn _ _ _ _ _ _ _ _); [done|split; done].
  - pose proof (str_plain ret p1 p2) as H. destruct (cmplog_rtn_hook_str _ _ _ _ _); [done|split; done].
  - by destruct (rtn_plain ret p1 p2) as (es & -> & H).
Qed.

Abbreviation run_calls := (run_calls hash mem sys_write page_size).

Lemma run_calls_spec m cs : map_good m -> Forall plain_call cs ->
  match run_calls m cs with Ok m' => map_good m' | Err e => e = Fault /\ Exists string_call cs end.
Proof.
  revert m. induction cs as [|c cs IH]; intros m Hm Hcs; [done|]. apply Forall_cons in Hcs as [Hc Hcs].
  change (run_calls m (c :: cs)) with (m1 ← (es ← logs c; rfold write_logged m es); run_calls m1 cs).
  pose proof (logs_plain c Hc) as Hl. destruct (logs c) as [es|e]; cbn [mbind res_bind]; [|destruct Hl; split; [done|by left]].
  destruct (write_all_good es m Hm Hl) as (m1 & -> & Hm1). cbn [mbind res_bind].
  specialize (IH m1 Hm1 Hcs). destruct (run_calls m1 cs); [done|]. destruct IH. split; [done|by right].
Qed.
End Calls.

(** ** The ring *)

(** What is known of a key: the kind of its entries, and the operands logged
    since it has that kind. *)
Definition history : Type := Z * list (Z * Z).
Definition record (k : nat) (hst : history) (e : logged) : history :=
  match e with
  | LIns k' _ _ a b _ =>
      if decide (k' = k) then (CMP_TYPE_INS, (if hst.1 =? CMP_TYPE_INS then hst.2 else []) ++ [(a, b)]) else hst
  | LRtn k' _ _ _ _ _ => if decide (k' = k) then (CMP_TYPE_RTN, []) else hst
  end.

(** The last 32 comparisons are in their slots. *)
Record ring (h : cmp_header) (row : list Z) (hst : history) : Prop := {
  r_type : type h = hst.1;
  r_hits : hst.1 = CMP_TYPE_INS -> hits h = uwrap 24 (Z.of_nat (length hst.2));
  r_slot j a b : hst.1 = CMP_TYPE_INS -> hst.2 !! j = Some (a, b) -> (length hst.2 <= j + 32)%nat ->
    exists o, operands row (j mod 32) = Ok o /\ v0 o = a /\ v1 o = b
}.

(** The words of an entry. *)
Definition word_of (row : list Z) (off : nat) : Z := le_load (take 8 (drop off row)).

Lemma operands_words row i : length row = 1024%nat -> (i < 32)%nat ->
  exists o, operands row i = Ok o /\ v0 o = word_of row (32 * i) /\ v1 o = word_of row (32 * i + 8).
Proof.
  intros Hl Hi. unfold operands. rewrite !slice_ok by lia. cbn [mbind res_bind]. eexists. split; [reflexivity|]. cbn [v0 v1].
  unfold word_of. split; f_equal; f_equal; f_equal; lia.
Qed.

Lemma write_ins_words i a b row row' : write_ins i a b None row = Ok row' -> u64_ok a -> u64_ok b ->
  word_of row' (32 * i) = a /\ word_of row' (32 * i + 8) = b /\
  forall j, j <> i -> word_of row' (32 * j) = word_of row (32 * j) /\ word_of row' (32 * j + 8) = word_of row (32 * j + 8).
Proof.
  unfold write_ins. destruct (poke (32 * i) (le_store 8 a) row) as [r1|] eqn:E1; [|done]. cbn [mbind res_bind].
  destruct (poke (32 * i + 8) (le_store 8 b) r1) as [r2|] eqn:E2; [|done]. cbn [mbind res_bind]. intros [= ->] Ha Hb.
  assert (Hs : forall x, length (le_store 8 x) = 8%nat) by (intros; apply length_le_store).
  assert (Hw : forall x, u64_ok x -> le_load (le_store 8 x) = x) by (intros x Hx; rewrite le_load_store; by apply uwrap_id).
  unfold word_of. split; [|split].
  - pose proof (poke_same _ _ _ _ E1) as P1. rewrite Hs in P1. rewrite (poke_other _ _ _ _ _ _ E2), P1 by lia. by apply Hw.
  - pose proof (poke_same _ _ _ _ E2) as P2. rewrite Hs in P2. rewrite P2. by apply Hw.
  - intros j Hj. by rewrite !(poke_other _ _ _ _ _ _ E2), !(poke_other _ _ _ _ _ _ E1) by (rewrite ?Hs; lia).
Qed.

(** Slot 0 at first, and then one after the other. *)
Lemma next_slot n : Z.to_nat (uwrap 24 (Z.of_nat n) .& (CMP_MAP_H - 1)) = (n mod 32)%nat.
Proof.
  change (CMP_MAP_H - 1) with (Z.ones 5). rewrite Z.land_ones by lia. unfold uwrap. change (2 ^ 24) with (2 ^ 5 * 2 ^ 19).
  rewrite Z.rem_mul_r, Z.mul_comm, Z.mod_add by (done || lia). rewrite Z.mod_mod by done. change (2 ^ 5) with (Z.of_nat 32).
  rewrite <- Nat2Z.inj_mod. apply Nat2Z.id.
Qed.

Lemma hits_step n : uwrap 24 (uwrap 24 (Z.of_nat n) + 1) = uwrap 24 (Z.of_nat (n + 1)).
Proof. unfold uwrap. rewrite Zplus_mod_idemp_l. f_equal. lia. Qed.

Lemma ring_ins h row hst sh attr a b row' :
  ring h row hst -> row_good row -> u64_ok a -> u64_ok b ->
  write_ins (Z.to_nat (old_hits h CMP_TYPE_INS .& (CMP_MAP_H - 1))) a b None row = Ok row' -> row_good row' ->
  ring (ins_header h sh attr) row' (CMP_TYPE_INS, (if hst.1 =? CMP_TYPE_INS then hst.2 else []) ++ [(a, b)]).
Proof.
  intros [Ht Hh Hs] Hg Ha Hb Hw Hg'. set (ops := if hst.1 =? CMP_TYPE_INS then hst.2 else []).
  assert (Hold : old_hits h CMP_TYPE_INS = uwrap 24 (Z.of_nat (length ops))).
  { unfold old_hits, ops. rewrite Ht. destruct (Z.eqb_spec hst.1 CMP_TYPE_INS); cbn [negb]; [auto|reflexivity]. }
  assert (Hslot : forall j x y, ops !! j = Some (x, y) -> (length ops <= j + 32)%nat ->
    exists o, operands row (j mod 32) = Ok o /\ v0 o = x /\ v1 o = y).
  { unfold ops. destruct (Z.eqb_spec hst.1 CMP_TYPE_INS); [|by intros]. intros j x y. by apply Hs. }
  rewrite Hold, next_slot in Hw. destruct (write_ins_words _ _ _ _ _ Hw Ha Hb) as (W1 & W2 & W3).
  assert (Hm : forall n, (n mod 32 < 32)%nat) by (intros; apply Nat.mod_upper_bound; lia). split; cbn [fst snd].
  - unfold ins_header. by destruct (negb _).
  - intros _. rewrite length_app. cbn [length]. rewrite <- hits_step, <- Hold. unfold ins_header, old_hits.
    destruct (negb _); reflexivity.
  - intros j x y _ Hj Hlen. rewrite length_app in Hlen. cbn [length] in Hlen.
    destruct (operands_words row' (j mod 32) (g_len _ Hg') (Hm j)) as (o & Eo & O0 & O1). exists o. split; [done|]. rewrite O0, O1.
    apply lookup_app_Some in Hj as [Hj|[Hge Hj]].
    + pose proof (lookup_lt_Some _ _ _ Hj). destruct (Hslot j x y Hj ltac:(lia)) as (o' & Eo' & <- & <-).
      destruct (operands_words row (j mod 32) (g_len _ Hg) (Hm j)) as (o2 & Eo2 & V0 & V1). assert (o' = o2) as -> by congruence.
      assert (Hne : (j mod 32 <> length ops mod 32)%nat).
      { intros E. pose proof (Nat.div_mod j 32). pose proof (Nat.div_mod (length ops) 32). lia. }
      destruct (W3 _ Hne) as [-> ->]. done.
    + apply list_lookup_singleton_Some in Hj as [Hj [= <- <-]]. assert (j = length ops) as -> by lia. done.
Qed.

Lemma ring_rtn h row hst l : ring (rtn_header h l) row (CMP_TYPE_RTN, hst).
Proof. split; cbn; [unfold rtn_header; by destruct (negb _)|done..]. Qed.

(** Every key of the map has its history. *)
Definition rings (m : cmp_map) (es : list logged) : Prop :=
  forall k h row, headers m !! k = Some h -> log m !! k = Some row -> ring h row (foldl (record k) (0, []) es).

Lemma rings_write m es e m' :
  map_good m -> plain e -> rings m es -> write_logged m e = Ok m' -> rings m' (es ++ [e]).
Proof.
  intros Hm He Hr E k h' row' Hh' Hrow'. rewrite foldl_app. cbn [foldl]. destruct e as [k0 sh attr a b wide|k0 l len1 len2 bs1 bs2].
  all: destruct (map_good_row m k0 Hm ltac:(apply He)) as (h & row & Eh & Er & Gh & Gr & Lh & Lr).
  all: cbn [write_logged] in E; rewrite Eh in E; cbn [mbind res_bind] in E; rewrite Er in E; cbn [mbind res_bind] in E.
  - destruct He as (Hk & Hs & Ha & Hb & ->).
    destruct (write_ins_good _ a b row Gr (ins_slot (old_hits h CMP_TYPE_INS)) Ha Hb) as (row2 & Ew & Gw).
    rewrite Ew in E. cbn [mbind res_bind] in E.
    destruct (map_good_update m k0 (ins_header h sh attr) row2 Hm Hk (ins_header_good _ _ _ Gh Hs) Gw) as (E1 & E2 & _).
    rewrite E1 in E. cbn [mbind res_bind] in E. rewrite E2 in E. injection E as <-. cbn [headers log record] in *.
    apply list_lookup_insert_Some in Hh' as [(<- & <- & _)|[Hne Hh']]; apply list_lookup_insert_Some in Hrow' as [(Ek & <- & _)|[Hne' Hrow']]; try done;
      [|rewrite decide_False by done; by apply Hr]. rewrite decide_True by done.
    eapply ring_ins; eauto.
  - destruct He as (Hk & Hl & H1 & H2 & B1 & B2).
    destruct (write_rtn_good _ len1 len2 bs1 bs2 row Gr (rtn_slot (old_hits h CMP_TYPE_RTN)) H1 H2 B1 B2) as (row2 & Ew & Gw).
    rewrite Ew in E. cbn [mbind res_bind] in E.
    destruct (map_good_update m k0 (rtn_header h l) row2 Hm Hk (rtn_header_good _ _ Gh Hl) Gw) as (E1 & E2 & _).
    rewrite E1 in E. cbn [mbind res_bind] in E. rewrite E2 in E. injection E as <-. cbn [headers log record] in *.
    apply list_lookup_insert_Some in Hh' as [(<- & <- & _)|[Hne Hh']]; apply list_lookup_insert_Some in Hrow' as [(Ek & <- & _)|[Hne' Hrow']]; try done;
      [|rewrite decide_False by done; by apply Hr]. rewrite decide_True by done.
    apply ring_rtn.
Qed.

Lemma rings_all es0 es m m' :
  map_good m -> Forall plain es -> rings m es0 -> rfold write_logged m es = Ok m' -> rings m' (es0 ++ es).
Proof.
  revert es0 m. induction es as [|e es IH]; intros es0 m Hm Hp Hr; cbn [rfold]; [intros [= <-]; by rewrite app_nil_r|].
  apply Forall_cons in Hp as [He Hp]. destruct (write_logged_good m e Hm He) as (m1 & E & Hm1). rstep E. intros E'.
  replace (es0 ++ e :: es) with ((es0 ++ [e]) ++ es) by (by rewrite <- app_assoc).
  exact (IH _ m1 Hm1 Hp (rings_write m es0 e m1 Hm He Hr E) E').
Qed.

(** The map before a run: no headers, whatever rows. *)
Definition cleared (rows : list (list Z)) : cmp_map := mkCmpMap (replicate (Z.to_nat CMP_MAP_W) no_header) rows.

Lemma cleared_good rows : Forall row_good rows -> Z.of_nat (length rows) = CMP_MAP_W -> map_good (cleared rows).
Proof.
  intros Hr Hl. split; cbn [cleared headers log]; [rewrite length_replicate; apply keys_nat|done| |done].
  apply Forall_replicate. split; cbn; [lia|done].
Qed.

Lemma cleared_rings rows : rings (cleared rows) [].
Proof. intros k h row Hh _. apply lookup_replicate in Hh as [-> _]. split; cbn; done. Qed.

(** C16: a run of the target keeps the map of CmpLog well formed, whatever it
    compares with the hooks for 1, 2, 4 and 8 bytes, for switches and for
    routines: every header has a size the fuzzer accepts and every row ends
    as its string search needs, which is what [input_to_state_stage] is safe
    on; only a string function called on unmapped memory can fail. *)
Theorem hooks_keep_map (hash : list Z -> Z) (mem : Z -> option Z) (sys_write : Z -> Z -> Z) (pk : Z) (m : cmp_map) (cs : list call) :
  0 <= pk -> (forall p b, mem p = Some b -> is_byte b) ->
  (forall p len q, 0 < sys_write p len -> p <= q < Z.max (p + sys_write p len) (page_end pk p) -> mem q <> None) ->
  map_good m -> Forall plain_call cs ->
  match run_calls hash mem sys_write (2 ^ pk) m cs with
  | Ok m' => map_good m' /\ map_ok m'
  | Err e => e = Fault /\ Exists string_call cs
  end.
Proof.
  intros Hpk Hmem Hw Hm Hcs. pose proof (run_calls_spec hash mem sys_write pk Hpk Hmem Hw m cs Hm Hcs) as H.
  destruct (run_calls _ _ _ _ _ _); [|done]. split; [done|by apply map_good_ok].
Qed.

(** C15: the log of a key is a ring: after any run, the header of a key that
    logs integers counts its comparisons modulo 2^24, and its 32 slots hold
    the operands of the last 32 of them. *)
Theorem log_is_ring (hash : list Z -> Z) (mem : Z -> option Z) (sys_write : Z -> Z -> Z) (pk : Z)
    (rows : list (list Z)) (cs : list call) (ess : list (list logged)) :
  0 <= pk -> (forall p b, mem p = Some b -> is_byte b) ->
  (forall p len q, 0 < sys_write p len -> p <= q < Z.max (p + sys_write p len) (page_end pk p) -> mem q <> None) ->
  Forall row_good rows -> Z.of_nat (length rows) = CMP_MAP_W -> Forall plain_call cs ->
  Forall2 (fun c es => logs hash mem sys_write (2 ^ pk) c = Ok es) cs ess ->
  exists m, run_calls hash mem sys_write (2 ^ pk) (cleared rows) cs = Ok m /\ rings m (concat ess).
Proof.
  intros Hpk Hmem Hw Hrow Hl Hcs Hess. pose proof (cleared_good rows Hrow Hl) as Hg.
  assert (Hrun : forall m, run_calls hash mem sys_write (2 ^ pk) m cs = rfold write_logged m (concat ess) /\ Forall plain (concat ess)).
  { induction Hess as [|c es cs ess Ec _ IH]; intros m; [split; [done|constructor]|]. apply Forall_cons in Hcs as [Hc Hcs].
    pose proof (logs_plain hash mem sys_write pk Hpk Hmem Hw c Hc) as Hp. rewrite Ec in Hp. split.
    - change (run_calls hash mem sys_write (2 ^ pk) m (c :: cs)) with
        (m1 ← (es ← logs hash mem sys_write (2 ^ pk) c; rfold write_logged m es); run_calls hash mem sys_write (2 ^ pk) m1 cs).
      rewrite Ec. cbn [mbind res_bind concat]. rewrite rfold_app. destruct (rfold write_logged m es); [|done]. cbn [mbind res_bind].
      by apply IH.
    - cbn [concat]. apply Forall_app. split; [done|]. by apply IH. }
  destruct (Hrun (cleared rows)) as [-> Hp]. destruct (write_all_good (concat ess) (cleared rows) Hg Hp) as (m & E & _).
  exists m. split; [done|]. apply (rings_all [] _ (cleared rows)); try done. apply cleared_rings.
Qed.

(** ** Examples *)

(** One page of letters. *)
Definition page_mem (p : Z) : option Z := if (4096 <=? p) && (p <? 8192) then Some 65 else None.
Definition page_write (p len : Z) : Z := if (4096 <=? p) && (p <? 8192) then Z.min len (8192 - p) else -1.

Lemma page_laws :
  (forall p b, page_mem p = Some b -> is_byte b) /\
  (forall p len q, 0 < page_write p len -> p <= q < Z.max (p + page_write p len) (page_end 12 p) -> page_mem q <> None).
Proof.
  split.
  - intros p b. unfold page_mem. case_match; [|done]. intros [= <-]. unfold is_byte. lia.
  - intros p len q. unfold page_write. destruct ((4096 <=? p) && (p <? 8192)) eqn:E; [|lia].
    apply andb_prop in E as [E1 E2]. apply Z.leb_le in E1. apply Z.ltb_lt in E2. intros Hl Hq.
    assert (Hpe : page_end 12 p = 8192).
    { unfold page_end. change (2 ^ 12 - 1) with (Z.ones 12). rewrite <- Z.ldiff_land, Z.ldiff_ones_r, Z.shiftl_mul_pow2, Z.shiftr_div_pow2 by lia.
      change (2 ^ 12) with 4096. assert (p / 4096 = 1) as -> by (symmetry; apply Z.div_unique with (p - 4096); lia). reflexivity. }
    rewrite Hpe in Hq. unfold page_mem. rewrite (proj2 (Z.leb_le 4096 q)), (proj2 (Z.ltb_lt q 8192)) by lia. done.
Qed.

Lemma zero_row_good : row_good (replicate 1024 0).
Proof.
  split; [apply Forall_replicate; unfold is_byte; lia|apply length_replicate|]. intros j Hj.
  rewrite drop_replicate, take_replicate. f_equal. lia.
Qed.

Lemma zero_rows_good : Forall row_good (replicate (Z.to_nat CMP_MAP_W) (replicate 1024 0)).
Proof. apply Forall_replicate, zero_row_good. Qed.

Lemma zero_rows_length : Z.of_nat (length (replicate (Z.to_nat CMP_MAP_W) (replicate 1024 0))) = CMP_MAP_W.
Proof. rewrite length_replicate. apply keys_nat. Qed.

Lemma hooks_keep_map_witness :
  exists m', run_calls (fun _ => 5) page_mem page_write (2 ^ 12) (cleared (replicate (Z.to_nat CMP_MAP_W) (replicate 1024 0)))
    [Ins4 100 7 9 0; Rtn 200 4096 5000] = Ok m' /\ map_ok m'.
Proof.
  pose proof (hooks_keep_map (fun _ => 5) page_mem page_write 12 (cleared (replicate (Z.to_nat CMP_MAP_W) (replicate 1024 0)))
    [Ins4 100 7 9 0; Rtn 200 4096 5000] ltac:(lia) (proj1 page_laws) (proj2 page_laws)
    (cleared_good _ zero_rows_good zero_rows_length)) as H.
  specialize (H ltac:(repeat constructor; discriminate)).
  destruct (run_calls _ _ _ _ _ _) as [m'|e]; [exists m'; split; [done|apply H]|].
  destruct H as [_ H]. exfalso. inversion H as [? ? E|? ? E]; subst; [exact E|]. inversion E as [? ? E'|? ? E']; subst; [exact E'|]. inversion E'.
Defined.

Lemma log_is_ring_witness :
  exists m, run_calls (fun _ => 5) page_mem page_write (2 ^ 12) (cleared (replicate (Z.to_nat CMP_MAP_W) (replicate 1024 0)))
    [Ins4 100 7 9 0; Ins4 100 8 9 1] = Ok m /\ rings m [LIns 5 3 0 7 9 None; LIns 5 3 1 8 9 None].
Proof.
  apply (log_is_ring (fun _ => 5) page_mem page_write 12 _ [Ins4 100 7 9 0; Ins4 100 8 9 1]
    [[LIns 5 3 0 7 9 None]; [LIns 5 3 1 8 9 None]] ltac:(lia) (proj1 page_laws) (proj2 page_laws) zero_rows_good zero_rows_length).
  - repeat constructor; discriminate.
  - repeat constructor.
Defined.

(** After 2^24 comparisons at a key its header says that there were none. *)
Lemma hits_wrap h row hst : ring h row hst -> hst.1 = CMP_TYPE_INS -> Z.of_nat (length hst.2) = 2 ^ 24 -> hits h = 0.
Proof. intros Hr Ht Hl. rewrite (r_hits _ _ _ Hr Ht), Hl. reflexivity. Qed.

(** [strncmp(p1, p2, 5)] where [p2] has five characters and nothing follows:
    the hook asks whether the memory at [p1] is valid and reads at [p2]. *)
Definition tail_mem (p : Z) : option Z :=
  if (4096 <=? p) && (p <? 4200) || (8187 <=? p) && (p <? 8192) then Some 65 else None.

Lemma strn_reads_past :
  load_bytes tail_mem 8187 5 = Ok [65; 65; 65; 65; 65] /\
  cmplog_rtn_hook_strn (fun _ => 5) tail_mem (fun _ len => len) 4096 100 4096 8187 5 = Err Fault.
Proof. split; vm_compute; reflexivity. Qed.
