(* ===== verification/AflAs.v ===== *)
(** The assembler wrapper: [src/afl-as.c], on other systems than Apple's.  It
    rewrites an assembly file, puts trampolines where control arrives, and
    runs the real assembler on the result. *)

From Stdlib Require Import String.
From S2P Require Import Prelude Extras Callstack Describe.
#[local] Open Scope list_scope.
#[local] Open Scope Z_scope.

(** [random()] of the C library. *)
Class Libc (W : Type) := { random : W -> Z * W }.

(** What is set before the file is read. *)
Record as_config := mkAsConf {
  use_64bit : bool;
  clang_mode : bool;
  pass_thru : bool;
  inst_ratio : Z
}.

Record as_flags := mkAsFlags {
  instr_ok : bool;
  skip_csect : bool;
  skip_next_label : bool;
  skip_intel : bool;
  skip_app : bool;
  instrument_next : bool
}.

(** What is written: a line of the input, a trampoline of the width chosen
    with its location, the payload. *)
Inductive item :=
  | Line (l : list Z)
  | Trampoline (is64 : bool) (loc : Z)
  | Payload (is64 : bool).

Record as_state (W : Type) := mkAs {
  flags : as_flags;
  ins_lines : Z;
  outf : list item;
  seed : W
}.
Arguments mkAs {W}.
Arguments flags {W}.
Arguments ins_lines {W}.
Arguments outf {W}.
Arguments seed {W}.

Definition MAP_SIZE : Z := 2 ^ 16.

(** ** Reading a line

    [line] is what [fgets] stored, without the terminator; the code never
    looks past it, since each index is tested after the one before. *)

Definition at_ (line : list Z) (k : nat) : Z := nth k line 0.
Definition tab : Z := 9.
Definition nl : Z := 10.
Definition hash : Z := 35.
Definition isalpha (c : Z) : bool := isupper c || islower c.

(** [!strncmp(line + k, pat, strlen(pat))] *)
Definition strn_eq (line : list Z) (k : nat) (pat : list Z) : bool :=
  bool_decide (take (length pat) (drop k line) = pat).
(** [strstr(line, pat)] as a condition. *)
Definition has (line pat : list Z) : bool :=
  match strstr (c_str line) pat with Some _ => true | None => false end.

Definition directive (line : list Z) : bool := (at_ line 0 =? tab) && (at_ line 1 =? 46).
(** The directives that begin code, and those that begin something else. *)
Definition text_section (line : list Z) : bool :=
  strn_eq line 2 (txt "text" ++ [nl]) || strn_eq line 2 (txt "section" ++ tab :: txt ".text") ||
  strn_eq line 2 (txt "section" ++ tab :: txt "__TEXT,__text") || strn_eq line 2 (txt "section __TEXT,__text").
Definition other_section (line : list Z) : bool :=
  strn_eq line 2 (txt "section" ++ [tab]) || strn_eq line 2 (txt "section ") ||
  strn_eq line 2 (txt "bss" ++ [nl]) || strn_eq line 2 (txt "data" ++ [nl]).

(** The alignment that precedes a jump table on OpenBSD. *)
Definition jump_table (line : list Z) : bool :=
  strn_eq line 2 (txt "p2align ") && isdigit (at_ line 10) && (at_ line 11 =? nl).

(** ** The rewriting *)

Section Instrument.
Context {W : Type} `{Libc W}.
Implicit Types (cf : as_config) (s : as_state W) (line : list Z) (f : as_flags).

Definition R (x : Z) (w : W) : Z * W := let '(v, w) := random w in (Z.rem v x, w).

Definition set_flags f s : as_state W := mkAs f (ins_lines s) (outf s) (seed s).
Definition fputs (i : item) s : as_state W := mkAs (flags s) (ins_lines s) (outf s ++ [i]) (seed s).

(** A trampoline, and [ins_lines++]. *)
Definition put_trampoline cf s : as_state W :=
  let '(loc, w) := R MAP_SIZE (seed s) in
  mkAs (flags s) (u32 (ins_lines s + 1)) (outf s ++ [Trampoline (use_64bit cf) loc]) w.

Definition set_instrument_next b f : as_flags :=
  mkAsFlags (instr_ok f) (skip_csect f) (skip_next_label f) (skip_intel f) (skip_app f) b.
Definition set_skip_next_label b f : as_flags :=
  mkAsFlags (instr_ok f) (skip_csect f) b (skip_intel f) (skip_app f) (instrument_next f).
Definition set_instr_ok b f : as_flags :=
  mkAsFlags b (skip_csect f) (skip_next_label f) (skip_intel f) (skip_app f) (instrument_next f).

(** Code that is to be instrumented. *)
Definition ready f : bool := negb (skip_intel f) && negb (skip_app f) && negb (skip_csect f) && instr_ok f.
(** A line that starts with a tab and a letter. *)
Definition insn line : bool := (at_ line 0 =? tab) && isalpha (at_ line 1).

(** The trampoline an earlier label asked for. *)
Definition put_deferred cf s line : as_state W :=
  if negb (pass_thru cf) && ready (flags s) && instrument_next (flags s) && insn line
  then set_flags (set_instrument_next false (flags s)) (put_trampoline cf s)
  else s.

(** [.code32], [.intel_syntax], [#APP] and their opposites. *)
Definition code_flags cf f line : as_flags :=
  let csect := skip_csect f in
  let csect := if has line (txt ".code") then
                 let csect := if has line (txt ".code32") then use_64bit cf else csect in
                 if has line (txt ".code64") then negb (use_64bit cf) else csect
               else csect in
  let intel := skip_intel f in
  let intel := if has line (txt ".intel_syntax") then true else intel in
  let intel := if has line (txt ".att_syntax") then false else intel in
  let app := skip_app f in
  let app := if (at_ line 0 =? hash) || (at_ line 1 =? hash) then
               let app := if has line (txt "#APP") then true else app in
               if has line (txt "#NO_APP") then false else app
             else app in
  mkAsFlags (instr_ok f) csect (skip_next_label f) intel app (instrument_next f).

(** A conditional branch: the trampoline of the path not taken. *)
Definition put_branch cf s line : as_state W :=
  if (at_ line 1 =? 106) && negb (at_ line 2 =? 109) then
    let '(r, w) := R 100 (seed s) in
    let s := mkAs (flags s) (ins_lines s) (outf s) w in
    if r <? inst_ratio cf then put_trampoline cf s else s
  else s.

(** A label that branches may lead to: [.L0:], or [.LBB0_0:] from clang. *)
Definition branch_label cf line : bool :=
  isdigit (at_ line 2) || (clang_mode cf && strn_eq line 1 (txt "LBB")).

Definition see_label cf s line : as_state W :=
  if has line (txt ":") then
    if at_ line 0 =? 46 then
      if branch_label cf line then
        let '(r, w) := R 100 (seed s) in
        let s := mkAs (flags s) (ins_lines s) (outf s) w in
        if r <? inst_ratio cf then
          if negb (skip_next_label (flags s)) then set_flags (set_instrument_next true (flags s)) s
          else set_flags (set_skip_next_label false (flags s)) s
        else s
      else s
    else set_flags (set_instrument_next true (flags s)) s
  else s.

(** The body of the loop after the line is written. *)
Definition scan_line cf s line : as_state W :=
  let s := if directive line && negb (clang_mode cf) && instr_ok (flags s) && jump_table line
           then set_flags (set_skip_next_label true (flags s)) s else s in
  if directive line && text_section line then set_flags (set_instr_ok true (flags s)) s
  else if directive line && other_section line then set_flags (set_instr_ok false (flags s)) s
  else
    let s := set_flags (code_flags cf (flags s) line) s in
    if negb (ready (flags s)) || (at_ line 0 =? hash) || (at_ line 0 =? 32) then s
    else if at_ line 0 =? tab then put_branch cf s line
    else see_label cf s line.

Definition process_line cf s line : as_state W :=
  let s := fputs (Line (c_str line)) (put_deferred cf s line) in
  if pass_thru cf then s else scan_line cf s line.

(** [while (fgets(line, MAX_LINE, inf))]: every line takes a byte, so the
    length of the file is enough [fuel]. *)
Fixpoint as_lines (fuel : nat) (file : list Z) : list (list Z) :=
  match fuel, file with
  | S n, _ :: _ => let '(line, rest) := fgets (Z.to_nat (MAX_LINE - 1)) file in line :: as_lines n rest
  | _, _ => []
  end.

Definition flags0 : as_flags := mkAsFlags false false false false false false.
Definition as_init (w : W) : as_state W := mkAs flags0 0 [] w.

(** The file that is written. *)
Definition add_instrumentation cf (content : list Z) (w : W) : as_state W :=
  let s := foldl (process_line cf) (as_init w) (as_lines (length content) content) in
  if negb (ins_lines s =? 0) then fputs (Payload (use_64bit cf)) s else s.
End Instrument.

(** ** The command line *)

(** The environment: a variable's value, [None] if it is not set. *)
Definition environ : Type := list Z -> option (list Z).

(** What [edit_params] leaves.  [in_file] is [None] for the standard input. *)
Record as_cmd := mkCmd {
  as_params : list (list Z);
  in_file : option (list Z);
  modified_file : list Z;
  cmd_64bit : bool;
  cmd_pass_thru : bool;
  just_version : bool
}.

Definition str_eq (a b : list Z) : bool := bool_decide (a = b).
(** [!strncmp(s, p, strlen(p))] *)
Definition starts (s p : list Z) : bool := bool_decide (take (length p) s = p).
Definition is_set {A} (o : option A) : bool := match o with Some _ => true | None => false end.

(** The last argument that is not a [-g] option, and its place. *)
Fixpoint input_from (argv : list (list Z)) (n : nat) : option (nat * list Z) :=
  match n with
  | O => None
  | S n' => let a := nth n argv [] in
            if starts a (txt "-g") then input_from argv n' else Some (n, a)
  end.

(** One argument that is passed on: does it set the width? *)
Definition width_of (b : bool) (a : list Z) : bool :=
  if str_eq a (txt "--64") then true else if str_eq a (txt "--32") then false else b.

Definition tmp_dir_of (getenv : environ) : list Z :=
  match getenv (txt "TMPDIR") with
  | Some d => d
  | None => match getenv (txt "TEMP") with
            | Some d => d
            | None => default (txt "/tmp") (getenv (txt "TMP"))
            end
  end.

(** [alloc_printf("%s/.afl-%u-%u-%u.s", ...)] of the process, the time and a
    random number. *)
Definition modified_name (dir : list Z) (pid time rand : Z) : list Z :=
  dir ++ txt "/.afl-" ++ fmt_u (u32 pid) ++ txt "-" ++ fmt_u (u32 time) ++ txt "-" ++ fmt_u (u32 rand) ++ txt ".s".

Definition edit_params (getenv : environ) (word64 : bool) (pid time rand : Z) (argv : list (list Z)) : res as_cmd :=
  let tmp_dir := tmp_dir_of getenv in
  match input_from argv (length argv - 1) with
  | None => Err Fatal
  | Some (input_index, input_file) =>
      let rest := drop 1 (take input_index argv) ++ drop (S input_index) argv in
      let w := foldl width_of word64 rest in
      let name := modified_name tmp_dir pid time rand in
      let cmd input modified pass version :=
        mkCmd (default (txt "as") (getenv (txt "AFL_AS")) :: rest ++ [modified]) input modified w pass version in
      if at_ input_file 0 =? 45 then
        if str_eq (drop 1 input_file) (txt "-version") then Ok (cmd (Some input_file) input_file false true)
        else if negb (at_ input_file 1 =? 0) then Err Fatal
        else Ok (cmd None name false false)
      else
        let pass := negb (starts input_file tmp_dir) && negb (starts input_file (txt "/var/tmp/")) &&
                    negb (starts input_file (txt "/tmp/")) && negb (is_set (getenv (txt "AFL_AS_FORCE_INSTRUMENT"))) in
        Ok (cmd (Some input_file) name pass false)
  end.

(** [sscanf(s, "%u", &x)]: [None] if nothing matches; the conversion is that
    of [strtoul], cut to [unsigned int]. *)
Definition sscanf_u (s : list Z) : option Z :=
  let s := skip_while isspace s in
  let '(neg, s) := match s with
                   | 45 :: s' => (true, s')
                   | 43 :: s' => (false, s')
                   | _ => (false, s)
                   end in
  match s with
  | c :: _ => if isdigit c then
                let v := digits 0 s in
                Some (u32 (if UINT64_MAX <? v then UINT64_MAX else if (neg : bool) then - v else v))
              else None
  | [] => None
  end.

(** The percentage of the labels and branches to instrument, from
    [AFL_INST_RATIO]; a third of them under a sanitizer that adds its own. *)
Definition ratio_of (getenv : environ) : res Z :=
  match getenv (txt "AFL_INST_RATIO") with
  | Some s => match sscanf_u s with
              | Some r => if 100 <? r then Err Fatal else Ok r
              | None => Err Fatal
              end
  | None => if is_set (getenv (txt "AFL_USE_ASAN")) || is_set (getenv (txt "AFL_USE_MSAN"))
            then Ok (100 / 3) else Ok 100
  end.

(** What the program hands to the real assembler: the command, and what it
    wrote to the modified file unless it only asks for the version.  [fopen]
    reads the input, [fresh] says that the modified file could be created. *)
Definition as_main {W} `{Libc W} (getenv : environ) (word64 : bool) (pid time : Z)
    (fopen : option (list Z) -> option (list Z)) (fresh : bool) (argv : list (list Z)) (w : W) :
    res (as_cmd * option (list item)) :=
  if (length argv <? 2)%nat || ((length argv =? 2)%nat && str_eq (nth 1 argv []) (txt "-h")) then Err Fatal else
  let '(rand, w) := random w in
  cmd ← edit_params getenv word64 pid time rand argv;
  ratio ← ratio_of getenv;
  if is_set (getenv (txt "__AFL_AS_LOOPCHECK")) then Err Fatal else
  if just_version cmd then Ok (cmd, None) else
  match fopen (in_file cmd) with
  | None => Err Fatal
  | Some content =>
      if negb fresh then Err Fatal else
      let cf := mkAsConf (cmd_64bit cmd) (is_set (getenv (txt "__AFL_CLANG_MODE"))) (cmd_pass_thru cmd) ratio in
      Ok (cmd, Some (outf (add_instrumentation cf content w)))
  end.
