(* ===== verification/AflAsThms.v ===== *)
(** Properties of [AflAs]: the rewritten file is the input with trampolines
    put in, at the places that the lines before describe. *)

From Stdlib Require Import String.
From S2P Require Import Prelude Extras Callstack CallstackThms Describe AflAs.
#[local] Open Scope list_scope.
#[local] Open Scope Z_scope.

#[local] Arguments txt : simpl never.
#[local] Arguments has : simpl never.
#[local] Arguments at_ : simpl never.
#[local] Arguments strn_eq : simpl never.

(** ** The lines of a file *)

Lemma fgets_split n l : fst (fgets n l) ++ snd (fgets n l) = l.
Proof.
  revert l. induction n as [|n IH]; [done|]. intros [|c l]; [done|]. cbn [fgets].
  destruct (c =? 10); [done|]. specialize (IH l). destruct (fgets n l). cbn in *. now rewrite IH.
Qed.

Lemma as_lines_concat fuel file : (length file <= fuel)%nat -> concat (as_lines fuel file) = file.
Proof.
  revert file. induction fuel as [|fuel IH]; intros [|c file]; cbn [length]; [done|lia|done|]. intros Hl.
  cbn [as_lines].
  assert (Hn : exists k, Z.to_nat (MAX_LINE - 1) = S k) by (exists (Z.to_nat 8190); reflexivity).
  destruct Hn as [k ->]. pose proof (fgets_split (S k) (c :: file)) as Hs.
  assert (Hf : fst (fgets (S k) (c :: file)) <> []).
  { cbn [fgets]. destruct (c =? 10); [done|]. destruct (fgets k file); done. }
  destruct (fgets (S k) (c :: file)) as [a b]. cbn [fst snd] in *. cbn [concat].
  rewrite IH; [done|]. apply (f_equal length) in Hs. rewrite length_app in Hs. cbn [length] in Hs.
  destruct a; [done|]. cbn [length] in *. lia.
Qed.

(** ** What the lines before say *)

(** Something holds since a line that set it, if no line ended it. *)
Definition sticky (on off : list (list Z) -> list Z -> Prop) (ls : list (list Z)) : Prop :=
  exists pre l post, ls = pre ++ l :: post /\ on pre l /\
    forall a l' b, post = a ++ l' :: b -> ~ off (pre ++ l :: a) l'.

Lemma sticky_nil on off : ~ sticky on off [].
Proof. intros (pre & l & post & E & _). now destruct pre. Qed.

Lemma sticky_snoc on off ls l : sticky on off (ls ++ [l]) <-> on ls l \/ (sticky on off ls /\ ~ off ls l).
Proof.
  split.
  - intros (pre & l0 & post & E & Hon & Hoff). destruct post as [|x post _] using rev_ind.
    + apply app_inj_tail in E as [-> ->]. now left.
    + rewrite app_comm_cons, app_assoc in E. apply app_inj_tail in E as [-> ->]. right. split.
      * exists pre, l0, post. repeat split; [done|]. intros a l' b ->. apply (Hoff a l' (b ++ [x])).
        now rewrite <- app_assoc.
      * now apply (Hoff post x []).
  - intros [Hon|[(pre & l0 & post & -> & Hon & Hoff) Hn]].
    + exists ls, l, []. repeat split; [done|]. intros a l' b E. now destruct a.
    + exists pre, l0, (post ++ [l]). rewrite <- app_assoc. repeat split; [done|]. intros a l' b E.
      destruct b as [|x b _] using rev_ind.
      * apply app_inj_tail in E as [-> ->]. done.
      * rewrite app_comm_cons, app_assoc in E. apply app_inj_tail in E as [-> ->]. now apply (Hoff a l' b).
Qed.

Section Places.
Variable cf : as_config.

Definition begins_text (l : list Z) : bool := directive l && text_section l.
Definition section_line (l : list Z) : bool := directive l && (text_section l || other_section l).

(** In a section of code. *)
Definition in_text : list (list Z) -> Prop :=
  sticky (fun _ l => begins_text l = true) (fun _ l => section_line l = true).

(** In code of the other width. *)
Definition this_code : list Z := if use_64bit cf then txt ".code64" else txt ".code32".
Definition that_code : list Z := if use_64bit cf then txt ".code32" else txt ".code64".
Definition to_this (l : list Z) : Prop :=
  section_line l = false /\ has l this_code = true /\ (use_64bit cf = true \/ has l that_code = false).
Definition to_that (l : list Z) : Prop :=
  section_line l = false /\ has l that_code = true /\ (use_64bit cf = false \/ has l this_code = false).
Definition other_width : list (list Z) -> Prop := sticky (fun _ => to_that) (fun _ => to_this).

(** In Intel syntax. *)
Definition att_line (l : list Z) : Prop := section_line l = false /\ has l (txt ".att_syntax") = true.
Definition intel_line (l : list Z) : Prop :=
  section_line l = false /\ has l (txt ".intel_syntax") = true /\ has l (txt ".att_syntax") = false.
Definition in_intel : list (list Z) -> Prop := sticky (fun _ => intel_line) (fun _ => att_line).

(** In an [asm] block of the source. *)
Definition hash_line (l : list Z) : bool := negb (section_line l) && ((at_ l 0 =? hash) || (at_ l 1 =? hash)).
Definition no_app_line (l : list Z) : Prop := hash_line l = true /\ has l (txt "#NO_APP") = true.
Definition app_line (l : list Z) : Prop :=
  hash_line l = true /\ has l (txt "#APP") = true /\ has l (txt "#NO_APP") = false.
Definition in_asm_block : list (list Z) -> Prop := sticky (fun _ => app_line) (fun _ => no_app_line).

(** Compiled code in the syntax and for the machine that trampolines are. *)
Definition active (ls : list (list Z)) : Prop :=
  in_text ls /\ ~ other_width ls /\ ~ in_intel ls /\ ~ in_asm_block ls.

Definition label_line (l : list Z) : bool :=
  negb (at_ l 0 =? hash) && negb (at_ l 0 =? 32) && negb (at_ l 0 =? tab) && has l (txt ":").
Definition local_label (l : list Z) : bool := label_line l && (at_ l 0 =? 46).
Definition jump_label (l : list Z) : bool := local_label l && branch_label cf l.

(** Between an alignment as before a jump table and the label of the table. *)
Definition at_table : list (list Z) -> Prop :=
  sticky (fun ls l => in_text ls /\ directive l = true /\ clang_mode cf = false /\ jump_table l = true)
         (fun ls l => active (ls ++ [l]) /\ jump_label l = true).

(** A label of a function, or one that branches lead to. *)
Definition target (ls : list (list Z)) (l : list Z) : Prop :=
  active (ls ++ [l]) /\ label_line l = true /\
  (at_ l 0 = 46 -> branch_label cf l = true /\ ~ at_table ls).

(** A label is waiting for its first instruction. *)
Definition pending : list (list Z) -> Prop :=
  sticky target (fun ls l => active ls /\ insn l = true).

(** The first instruction after a target, and a conditional branch. *)
Definition entered (ls : list (list Z)) (l : list Z) : Prop := pending ls /\ active ls /\ insn l = true.
Definition cond_branch (l : list Z) : bool := (at_ l 0 =? tab) && (at_ l 1 =? 106) && negb (at_ l 2 =? 109).
Definition branches (ls : list (list Z)) (l : list Z) : Prop := active (ls ++ [l]) /\ cond_branch l = true.

(** ** Flags *)

(** A flag that stands for a proposition. *)
Definition means (b : bool) (P : Prop) : Prop := b = true <-> P.

Lemma means_dec b P : means b P -> P \/ ~ P.
Proof. unfold means. destruct b; intuition congruence. Qed.

Lemma means_snoc b b' on off ls l :
  means b (sticky on off ls) -> (b' = true <-> on ls l \/ (b = true /\ ~ off ls l)) ->
  means b' (sticky on off (ls ++ [l])).
Proof. unfold means. intros Hb Hb'. now rewrite sticky_snoc, Hb', Hb. Qed.

(** The flags that do not depend on draws. *)
Definition tracks (ls : list (list Z)) (f : as_flags) : Prop :=
  means (instr_ok f) (in_text ls) /\ means (skip_csect f) (other_width ls) /\
  means (skip_intel f) (in_intel ls) /\ means (skip_app f) (in_asm_block ls).

(** The flags when the labels and branches of the line are looked at. *)
Definition line_flags (f : as_flags) (l : list Z) : as_flags :=
  let f := if directive l && negb (clang_mode cf) && instr_ok f && jump_table l then set_skip_next_label true f else f in
  if section_line l then set_instr_ok (text_section l) f else code_flags cf f l.

Lemma strstr_app_none s p q : strstr s p = None -> strstr s (p ++ q) = None.
Proof.
  induction s as [|c s IH]; cbn [strstr]; intros Hs.
  - case_bool_decide as Ep; [done|]. rewrite bool_decide_eq_false_2; [done|].
    intros Eq. apply Ep. destruct p; [done|]. now destruct (length _) in Eq.
  - case_bool_decide as Ep; [done|]. rewrite bool_decide_eq_false_2.
    + destruct (strstr s p); [done|]. now rewrite IH.
    + intros Eq. apply Ep. apply (f_equal (take (length p))) in Eq.
      rewrite take_take, length_app, take_app_length in Eq.
      now replace (length p `min` (length p + length q))%nat with (length p) in Eq by lia.
Qed.

Lemma has_app l p q : has l p = false -> has l (p ++ q) = false.
Proof. unfold has. destruct (strstr (c_str l) p) eqn:E; [done|]. now rewrite (strstr_app_none _ _ _ E). Qed.

Lemma has_code l : has l (txt ".code") = false -> has l (txt ".code32") = false /\ has l (txt ".code64") = false.
Proof. intros E. split; [exact (has_app l _ (txt "32") E)|exact (has_app l _ (txt "64") E)]. Qed.

Lemma tracks_line ls f l : tracks ls f -> tracks (ls ++ [l]) (line_flags f l).
Proof.
  intros (Ht & Hc & Hi & Ha). unfold line_flags.
  set (g := if _ : bool then _ else f).
  assert (Hg : instr_ok g = instr_ok f /\ skip_csect g = skip_csect f /\ skip_intel g = skip_intel f /\
               skip_app g = skip_app f) by (unfold g; now case_match).
  destruct Hg as (Gt & Gc & Gi & Ga). rewrite <- Gt in Ht. rewrite <- Gc in Hc. rewrite <- Gi in Hi. rewrite <- Ga in Ha.
  clearbody g. clear Gt Gc Gi Ga.
  split; [|split; [|split]]; (eapply means_snoc; [eassumption|]).
  - unfold begins_text, section_line. destruct (directive l), (text_section l), (other_section l); cbn; intuition congruence.
  - unfold to_that, to_this, this_code, that_code. pose proof (has_code l) as Hcode.
    destruct (section_line l); [cbn; intuition congruence|]. cbn. destruct (use_64bit cf), (has l (txt ".code")), (has l (txt ".code32")), (has l (txt ".code64")); cbn; intuition congruence.
  - unfold intel_line, att_line. destruct (section_line l); [cbn; intuition congruence|]. cbn.
    destruct (has l (txt ".intel_syntax")), (has l (txt ".att_syntax"));
      cbn; intuition congruence.
  - unfold app_line, no_app_line, hash_line.
    destruct (section_line l); [cbn; intuition congruence|]. cbn.
    destruct ((at_ l 0 =? hash) || (at_ l 1 =? hash)), (has l (txt "#APP")), (has l (txt "#NO_APP")); cbn; intuition congruence.
Qed.

Lemma ready_active ls f : tracks ls f -> means (ready f) (active ls).
Proof.
  intros (Ht & Hc & Hi & Ha). unfold active, ready, means in *. rewrite <- Ht, <- Hc, <- Hi, <- Ha.
  destruct (instr_ok f), (skip_csect f), (skip_intel f), (skip_app f); cbn; intuition congruence.
Qed.

(** ** One line *)

Context {W : Type} `{Libc W}.
Implicit Types (s : as_state W).

Lemma label_line_facts l :
  label_line l = true -> section_line l = false /\ insn l = false /\ cond_branch l = false /\ directive l = false.
Proof.
  unfold label_line, section_line, insn, cond_branch, directive. destruct (at_ l 0 =? tab); [|done].
  rewrite andb_false_r. done.
Qed.

Lemma scan_rest s l :
  (if (at_ l 0 =? hash) || (at_ l 0 =? 32) then s
   else if at_ l 0 =? tab then put_branch cf s l else see_label cf s l) =
  if cond_branch l then put_branch cf s l else if label_line l then see_label cf s l else s.
Proof.
  unfold cond_branch, label_line, see_label, put_branch, hash, tab.
  destruct (at_ l 0 =? 35) eqn:E1, (at_ l 0 =? 32) eqn:E2, (at_ l 0 =? 9) eqn:E3; try lia; cbn;
    destruct (has l (txt ":")), (at_ l 1 =? 106), (at_ l 2 =? 109); done.
Qed.

Lemma scan_line_eq s l :
  scan_line cf s l =
    let s := set_flags (line_flags (flags s) l) s in
    if section_line l || negb (ready (flags s)) then s
    else if cond_branch l then put_branch cf s l
    else if label_line l then see_label cf s l
    else s.
Proof.
  unfold scan_line, line_flags. fold (section_line l).
  set (t := directive l && negb (clang_mode cf) && instr_ok (flags s) && jump_table l). cbn zeta.
  replace (if t then set_flags (set_skip_next_label true (flags s)) s else s)
    with (set_flags (if t then set_skip_next_label true (flags s) else flags s) s)
    by (destruct t, s; done).
  generalize (if t then set_skip_next_label true (flags s) else flags s). intros f.
  unfold section_line. destruct (directive l); cbn [andb orb].
  - destruct (text_section l), (other_section l); try done. cbn [orb].
    rewrite <- scan_rest. rewrite <- orb_assoc. cbn [set_flags flags].
    destruct (ready (code_flags cf f l)); done.
  - rewrite <- scan_rest. rewrite <- orb_assoc. cbn [set_flags flags].
    destruct (ready (code_flags cf f l)); done.
Qed.

(** A draw passes or not. *)
Lemma put_branch_cases s l :
  cond_branch l = true ->
  let '(r, w) := R 100 (seed s) in
  let s' := mkAs (flags s) (ins_lines s) (outf s) w in
  put_branch cf s l = if r <? inst_ratio cf then put_trampoline cf s' else s'.
Proof.
  unfold cond_branch, put_branch. intros Hb. rewrite <- andb_assoc in Hb. apply andb_prop in Hb as [_ ->].
  now destruct (R 100 (seed s)).
Qed.

(** What a label changes: two flags, and what is drawn. *)
Lemma see_label_same s l :
  outf (see_label cf s l) = outf s /\ ins_lines (see_label cf s l) = ins_lines s /\
  forall ls, tracks ls (flags s) -> tracks ls (flags (see_label cf s l)).
Proof.
  unfold see_label. destruct (R 100 (seed s)) as [r w]. cbn zeta iota.
  repeat case_match; auto.
Qed.

(** ** What a line writes *)

Definition one_trampoline (o : list item) : Prop :=
  exists v, 0 <= v < MAP_SIZE /\ o = [Trampoline (use_64bit cf) v].
Definition emitted (b : bool) (o : list item) : Prop := if b then one_trampoline o else o = [].
(** A trampoline where [P] allows one, and one exactly where [P] holds. *)
Definition allowed (P : Prop) (o : list item) : Prop := o = [] \/ (P /\ one_trampoline o).
Definition exactly (P : Prop) (o : list item) : Prop := (P /\ one_trampoline o) \/ (~ P /\ o = []).

Lemma emitted_allowed b P o : emitted b o -> (b = true -> P) -> allowed P o.
Proof. unfold emitted, allowed. destruct b; auto. Qed.
Lemma emitted_exactly b P o : emitted b o -> means b P -> exactly P o.
Proof. unfold emitted, exactly, means. destruct b; intuition congruence. Qed.

Hypothesis Hrandom : forall w, 0 <= fst (random w).

Lemma put_trampoline_spec s :
  exists o, one_trampoline o /\ outf (put_trampoline cf s) = outf s ++ o /\
    ins_lines (put_trampoline cf s) = u32 (ins_lines s + Z.of_nat (length o)) /\
    flags (put_trampoline cf s) = flags s.
Proof.
  unfold put_trampoline, R. specialize (Hrandom (seed s)). destruct (random (seed s)) as [v w]. cbn in Hrandom.
  exists [Trampoline (use_64bit cf) (Z.rem v MAP_SIZE)]. split; [|done].
  eexists. split; [|done]. apply Z.rem_bound_pos; [done|reflexivity].
Qed.

Lemma put_deferred_spec s l :
  pass_thru cf = false ->
  let b := ready (flags s) && instrument_next (flags s) && insn l in
  exists o, emitted b o /\ outf (put_deferred cf s l) = outf s ++ o /\
    (0 <= ins_lines s < 2 ^ 32 -> ins_lines (put_deferred cf s l) = u32 (ins_lines s + Z.of_nat (length o))) /\
    flags (put_deferred cf s l) = if b then set_instrument_next false (flags s) else flags s.
Proof.
  intros Hp b. unfold put_deferred. rewrite Hp. cbn [negb andb]. fold b. destruct b.
  - destruct (put_trampoline_spec s) as (o & Ho & E1 & E2 & E3). exists o. auto.
  - exists []. rewrite app_nil_r. repeat split. intros Hi. cbn. rewrite Z.add_0_r. now rewrite uwrap_id.
Qed.

Definition drawn (w : W) : bool := fst (R 100 w) <? inst_ratio cf.

(** The flags after the labels and branches of a line are looked at. *)
Definition label_flags (draw : bool) (f : as_flags) (l : list Z) : as_flags :=
  if negb (at_ l 0 =? 46) then set_instrument_next true f
  else if branch_label cf l && draw
       then if skip_next_label f then set_skip_next_label false f else set_instrument_next true f
       else f.

Lemma scan_line_spec s l :
  let f := line_flags (flags s) l in
  let b := ready f && cond_branch l && drawn (seed s) in
  exists o, emitted b o /\ outf (scan_line cf s l) = outf s ++ o /\
    (0 <= ins_lines s < 2 ^ 32 -> ins_lines (scan_line cf s l) = u32 (ins_lines s + Z.of_nat (length o))) /\
    flags (scan_line cf s l) = if ready f && label_line l then label_flags (drawn (seed s)) f l else f.
Proof.
  intros f b. rewrite scan_line_eq. fold f. cbn zeta. cbn [set_flags flags].
  assert (Hnone : emitted false [] /\ outf s = outf s ++ [] /\
            (0 <= ins_lines s < 2 ^ 32 -> ins_lines s = u32 (ins_lines s + Z.of_nat (length (@nil item))))).
  { rewrite app_nil_r. repeat split. intros Hi. cbn. rewrite Z.add_0_r. now rewrite uwrap_id. }
  destruct Hnone as (N1 & N2 & N3).
  assert (Hdir : section_line l = true -> cond_branch l = false /\ label_line l = false).
  { intros Hs. destruct (label_line l) eqn:El; [now apply label_line_facts in El as (E & _); rewrite E in Hs|].
    split; [|done]. revert Hs. unfold section_line, directive, cond_branch.
    destruct (at_ l 0 =? tab); [|done]. destruct (at_ l 1 =? 46) eqn:E; [|done].
    intros _. apply Z.eqb_eq in E. now rewrite E. }
  subst b. destruct (section_line l).
  { destruct (Hdir eq_refl) as [-> ->]. rewrite !andb_false_r. cbn [orb andb]. exists []. auto. }
  destruct (ready f) eqn:Er; cbn [andb orb negb]; [|exists []; auto].
  destruct (cond_branch l) eqn:Eb.
  - assert (label_line l = false) as ->.
    { destruct (label_line l) eqn:El; [|done]. apply label_line_facts in El as (_ & _ & E & _). congruence. }
    pose proof (put_branch_cases (set_flags f s) l Eb) as Hc. unfold drawn. cbn [set_flags seed flags ins_lines outf] in Hc.
    destruct (R 100 (seed s)) as [r w]. cbn [fst]. rewrite Hc. cbn [andb].
    destruct (r <? inst_ratio cf); [|exists []; auto].
    destruct (put_trampoline_spec (mkAs f (ins_lines s) (outf s) w)) as (o & Ho & E1 & E2 & E3). exists o. auto.
  - cbn [andb]. exists []. destruct (label_line l) eqn:El; [|auto].
    destruct (see_label_same (set_flags f s) l) as (E1 & E2 & _). rewrite E1, E2.
    split; [done|]. split; [done|]. split; [done|].
    unfold see_label, label_flags, drawn. unfold label_line in El. apply andb_prop in El as [_ ->].
    cbn [set_flags seed flags ins_lines outf]. destruct (R 100 (seed s)) as [r w]. cbn [fst].
    destruct (at_ l 0 =? 46), (branch_label cf l), (r <? inst_ratio cf); try done. cbn.
    now destruct (skip_next_label f).
Qed.

Lemma tracks_ext ls f g :
  instr_ok g = instr_ok f -> skip_csect g = skip_csect f -> skip_intel g = skip_intel f -> skip_app g = skip_app f ->
  tracks ls f -> tracks ls g.
Proof. unfold tracks. intros -> -> -> ->. done. Qed.

Lemma tracks_label ls f b l : tracks ls f -> tracks ls (label_flags b f l).
Proof. apply tracks_ext; unfold label_flags; repeat case_match; reflexivity. Qed.

Lemma drawn_full w : 100 <= inst_ratio cf -> drawn w = true.
Proof.
  intros Hr. unfold drawn, R. destruct (random w) as [v w']. cbn.
  apply Z.ltb_lt. eapply Z.lt_le_trans; [|exact Hr]. pose proof (Z.rem_bound_abs v 100 ltac:(lia)). lia.
Qed.

(** All flags, when every draw passes. *)
Definition tracks_all (ls : list (list Z)) (f : as_flags) : Prop :=
  tracks ls f /\ means (skip_next_label f) (at_table ls) /\ means (instrument_next f) (pending ls).

Lemma line_flags_next f l : instrument_next (line_flags f l) = instrument_next f.
Proof. unfold line_flags. repeat case_match; done. Qed.

Lemma line_flags_skip f l :
  skip_next_label (line_flags f l) =
  (directive l && negb (clang_mode cf) && instr_ok f && jump_table l) || skip_next_label f.
Proof.
  unfold line_flags. destruct (_ && jump_table l); destruct (section_line l); done.
Qed.

(** The flags after a line, the one before being [f]. *)
Definition next_flags (f : as_flags) (l : list Z) : as_flags :=
  let f := if ready f && instrument_next f && insn l then set_instrument_next false f else f in
  let f := line_flags f l in
  if ready f && label_line l then label_flags true f l else f.

Lemma tracks_next ls f l : tracks ls f -> tracks (ls ++ [l]) (next_flags f l).
Proof.
  intros Ht. unfold next_flags. set (g := if _ : bool then _ else f).
  assert (tracks (ls ++ [l]) (line_flags g l)).
  { apply tracks_line. revert Ht. apply tracks_ext; unfold g; now case_match. }
  destruct (ready (line_flags g l) && label_line l); [|done]. now apply tracks_label.
Qed.

Lemma ready_same f g :
  instr_ok g = instr_ok f -> skip_csect g = skip_csect f -> skip_intel g = skip_intel f -> skip_app g = skip_app f ->
  ready g = ready f.
Proof. unfold ready. now intros -> -> -> ->. Qed.

Lemma ready_label f b l : ready (label_flags b f l) = ready f.
Proof. apply ready_same; unfold label_flags; repeat case_match; reflexivity. Qed.

(** The flags that the label of a line changes, as one case analysis. *)
Lemma next_flags_bits f l :
  exists r, r = ready (next_flags f l) /\
    let table := directive l && negb (clang_mode cf) && instr_ok f && jump_table l in
    let next := instrument_next f && negb (ready f && insn l) in
    skip_next_label (next_flags f l) =
      (if r && jump_label l then false else table || skip_next_label f) /\
    instrument_next (next_flags f l) =
      ((r && label_line l && (negb (at_ l 0 =? 46) || (branch_label cf l && negb (skip_next_label f)))) || next).
Proof.
  eexists. split; [reflexivity|]. cbv zeta. unfold next_flags.
  set (g := if _ : bool then _ else f).
  assert (Hg : skip_next_label g = skip_next_label f /\ instr_ok g = instr_ok f /\
               instrument_next g = instrument_next f && negb (ready f && insn l)).
  { unfold g. destruct (ready f), (instrument_next f) eqn:E, (insn l); cbn; auto. }
  destruct Hg as (Gs & Gi & Gn). clearbody g. rewrite <- Gn, <- Gs, <- Gi. clear Gn Gs Gi f.
  assert (Hl : ready (if ready (line_flags g l) && label_line l then label_flags true (line_flags g l) l else line_flags g l)
               = ready (line_flags g l)).
  { destruct (ready (line_flags g l) && label_line l); [apply ready_label|done]. }
  rewrite Hl. clear Hl. pose proof (line_flags_skip g l) as Es. pose proof (line_flags_next g l) as En.
  unfold jump_label, local_label.
  destruct (ready (line_flags g l)); cbn [andb orb]; [|now rewrite Es, En].
  destruct (label_line l) eqn:El; cbn [andb orb]; [|now rewrite Es, En].
  apply label_line_facts in El as (_ & _ & _ & Ed). rewrite Ed in *. cbn [andb orb] in *.
  unfold label_flags. rewrite <- Es, <- En.
  destruct (at_ l 0 =? 46), (branch_label cf l); cbn [andb orb negb]; [|auto..].
  destruct (skip_next_label (line_flags g l)) eqn:E; cbn; auto.
Qed.

Lemma table_next ls f l :
  tracks ls f -> means (skip_next_label f) (at_table ls) ->
  means (skip_next_label (next_flags f l)) (at_table (ls ++ [l])).
Proof.
  intros Ht Hs. pose proof (ready_active _ _ (tracks_next ls f l Ht)) as Hn.
  destruct (next_flags_bits f l) as (r & -> & -> & _).
  apply means_snoc with (1 := Hs). cbv beta. unfold means in Hn. rewrite <- Hn. clear Hn.
  destruct Ht as (Ht & _). unfold means in Ht. rewrite <- Ht. clear Ht.
  unfold jump_label, local_label. destruct (label_line l) eqn:El.
  - apply label_line_facts in El as (_ & _ & _ & Ed). rewrite Ed.
    destruct (ready (next_flags f l)), (at_ l 0 =? 46), (branch_label cf l); cbn; intuition congruence.
  - rewrite andb_false_r.
    destruct (directive l), (clang_mode cf), (instr_ok f), (jump_table l); cbn; intuition congruence.
Qed.

Lemma pending_next ls f l :
  tracks_all ls f -> means (instrument_next (next_flags f l)) (pending (ls ++ [l])).
Proof.
  intros (Ht & Hs & Hp). pose proof (ready_active _ _ (tracks_next ls f l Ht)) as Hn.
  destruct (next_flags_bits f l) as (r & -> & _ & ->).
  apply means_snoc with (1 := Hp). apply ready_active in Ht. unfold target, means in *.
  rewrite <- Hn, <- Ht, <- Hs. rewrite <- Z.eqb_eq.
  destruct (ready (next_flags f l)), (label_line l), (at_ l 0 =? 46), (branch_label cf l), (skip_next_label f),
    (instrument_next f), (ready f), (insn l); cbn; intuition congruence.
Qed.

Lemma tracks_all_next ls f l : tracks_all ls f -> tracks_all (ls ++ [l]) (next_flags f l).
Proof.
  intros Ha. pose proof Ha as (Ht & Hs & _).
  split; [now apply tracks_next|]. split; [now apply table_next|now apply pending_next].
Qed.

(** What one line writes and the flags it leaves. *)
Lemma process_line_raw s l :
  pass_thru cf = false -> 0 <= ins_lines s < 2 ^ 32 ->
  let b := ready (flags s) && instrument_next (flags s) && insn l in
  let f := line_flags (if b then set_instrument_next false (flags s) else flags s) l in
  exists before after d,
    outf (process_line cf s l) = outf s ++ before ++ Line (c_str l) :: after /\
    ins_lines (process_line cf s l) = u32 (ins_lines s + Z.of_nat (length before + length after)) /\
    emitted b before /\ emitted (ready f && cond_branch l && d) after /\
    flags (process_line cf s l) = (if ready f && label_line l then label_flags d f l else f) /\
    (100 <= inst_ratio cf -> d = true).
Proof.
  intros Hp Hi b f. unfold process_line. rewrite Hp.
  destruct (put_deferred_spec s l Hp) as (o & Ho & Eo & Ei & Ef). fold b in Ho, Ef. specialize (Ei Hi).
  set (s1 := fputs (Line (c_str l)) (put_deferred cf s l)).
  destruct (scan_line_spec s1 l) as (o' & Ho' & Eo' & Ei' & Ef').
  assert (E1 : flags s1 = if b then set_instrument_next false (flags s) else flags s) by exact Ef.
  rewrite E1 in Ho', Ef'. fold f in Ho', Ef'.
  exists o, o', (drawn (seed s1)). split.
  { rewrite Eo'. unfold s1. cbn [fputs outf]. rewrite Eo. now rewrite <- !app_assoc. }
  split; [|auto using drawn_full].
  assert (E2 : ins_lines s1 = u32 (ins_lines s + Z.of_nat (length o))) by exact Ei.
  rewrite Ei' by (rewrite E2; apply uwrap_range; lia).
  rewrite E2. unfold uwrap. rewrite Zplus_mod_idemp_l. f_equal. lia.
Qed.

Lemma process_line_allowed ls s l :
  pass_thru cf = false -> 0 <= ins_lines s < 2 ^ 32 -> tracks ls (flags s) ->
  exists before after,
    outf (process_line cf s l) = outf s ++ before ++ Line (c_str l) :: after /\
    ins_lines (process_line cf s l) = u32 (ins_lines s + Z.of_nat (length before + length after)) /\
    allowed (active ls /\ insn l = true) before /\ allowed (branches ls l) after /\
    tracks (ls ++ [l]) (flags (process_line cf s l)).
Proof.
  intros Hp Hi Ht. destruct (process_line_raw s l Hp Hi) as (o & o' & d & E & Ei & Ho & Ho' & Ef & _).
  set (b := ready (flags s) && instrument_next (flags s) && insn l) in *.
  set (g := if b then set_instrument_next false (flags s) else flags s) in *.
  assert (Hl : tracks (ls ++ [l]) (line_flags g l)).
  { apply tracks_line. revert Ht. apply tracks_ext; unfold g; now destruct b. }
  exists o, o'. split; [done|]. split; [done|].
  pose proof (ready_active _ _ Ht) as Ha. pose proof (ready_active _ _ Hl) as Ha'. unfold means in Ha, Ha'.
  split; [apply (emitted_allowed _ _ _ Ho); subst b; rewrite !andb_true_iff; tauto|].
  split; [apply (emitted_allowed _ _ _ Ho'); unfold branches; rewrite !andb_true_iff; tauto|].
  rewrite Ef. destruct (ready _ && label_line l); [now apply tracks_label|done].
Qed.

Lemma process_line_exact ls s l :
  100 <= inst_ratio cf -> pass_thru cf = false -> 0 <= ins_lines s < 2 ^ 32 -> tracks_all ls (flags s) ->
  exists before after,
    outf (process_line cf s l) = outf s ++ before ++ Line (c_str l) :: after /\
    ins_lines (process_line cf s l) = u32 (ins_lines s + Z.of_nat (length before + length after)) /\
    exactly (entered ls l) before /\ exactly (branches ls l) after /\
    tracks_all (ls ++ [l]) (flags (process_line cf s l)).
Proof.
  intros Hr Hp Hi Hall. pose proof Hall as (Ht & _ & Hpend).
  destruct (process_line_raw s l Hp Hi) as (o & o' & d & E & Ei & Ho & Ho' & Ef & Hd).
  rewrite (Hd Hr) in *. clear Hd d.
  set (b := ready (flags s) && instrument_next (flags s) && insn l) in *.
  set (g := if b then set_instrument_next false (flags s) else flags s) in *.
  assert (Hl : tracks (ls ++ [l]) (line_flags g l)).
  { apply tracks_line. revert Ht. apply tracks_ext; unfold g; now destruct b. }
  exists o, o'. split; [done|]. split; [done|].
  pose proof (ready_active _ _ Ht) as Ha. pose proof (ready_active _ _ Hl) as Ha'. unfold means in Ha, Ha', Hpend.
  split; [apply (emitted_exactly _ _ _ Ho); unfold means, entered; subst b; rewrite !andb_true_iff; tauto|].
  split; [apply (emitted_exactly _ _ _ Ho'); unfold means, branches; rewrite !andb_true_iff; tauto|].
  rewrite Ef. now apply tracks_all_next.
Qed.

(** ** The whole file *)

(** The output for the lines [rest] that follow the lines [ls]: each line, with
    what [slot] puts before it where [B] holds and after it where [A] does. *)
Inductive written (slot : Prop -> list item -> Prop) (B A : list (list Z) -> list Z -> Prop) :
    list (list Z) -> list (list Z) -> list item -> Prop :=
  | written_nil ls : written slot B A ls [] []
  | written_line ls l rest before after o :
      slot (B ls l) before -> slot (A ls l) after -> written slot B A (ls ++ [l]) rest o ->
      written slot B A ls (l :: rest) (before ++ Line (c_str l) :: after ++ o).

Definition is_trampoline (i : item) : bool := match i with Trampoline _ _ => true | _ => false end.
Definition trampolines (o : list item) : nat := length (List.filter is_trampoline o).

Lemma trampolines_app a b : trampolines (a ++ b) = (trampolines a + trampolines b)%nat.
Proof. unfold trampolines. now rewrite List.filter_app, length_app. Qed.

Lemma one_trampoline_count o : one_trampoline o -> trampolines o = length o /\ (length o <= 1)%nat.
Proof. intros (v & _ & ->). cbn. auto. Qed.
Lemma slot_count P o : allowed P o \/ exactly P o -> trampolines o = length o /\ (length o <= 1)%nat.
Proof.
  intros [[->|[_ Ho]]|[[_ Ho]|[_ ->]]]; try now apply one_trampoline_count. all: cbn; lia.
Qed.

(** Any property of the flags kept with what a line writes is kept with what
    the file does. *)
Lemma lines_written slot B A (I : list (list Z) -> as_flags -> Prop) :
  (forall P o, slot P o -> allowed P o \/ exactly P o) ->
  (forall ls s l, 0 <= ins_lines s < 2 ^ 32 -> I ls (flags s) ->
     exists before after, outf (process_line cf s l) = outf s ++ before ++ Line (c_str l) :: after /\
       ins_lines (process_line cf s l) = u32 (ins_lines s + Z.of_nat (length before + length after)) /\
       slot (B ls l) before /\ slot (A ls l) after /\ I (ls ++ [l]) (flags (process_line cf s l))) ->
  forall rest ls s, 0 <= ins_lines s < 2 ^ 32 -> I ls (flags s) ->
    exists o, outf (foldl (process_line cf) s rest) = outf s ++ o /\ written slot B A ls rest o /\
      ins_lines (foldl (process_line cf) s rest) = u32 (ins_lines s + Z.of_nat (trampolines o)) /\
      (trampolines o <= 2 * length rest)%nat.
Proof.
  intros Hslot Hstep rest. induction rest as [|l rest IH]; intros ls s Hi HI; cbn [foldl].
  { exists []. rewrite app_nil_r. split; [done|]. split; [constructor|]. cbn. rewrite Z.add_0_r, uwrap_id by done. auto. }
  destruct (Hstep ls s l Hi HI) as (before & after & Eo & Ei & Hb & Ha & HI').
  destruct (IH (ls ++ [l]) (process_line cf s l)) as (o & Eo' & Hw & Ei' & Hc); [|done|].
  { rewrite Ei. apply uwrap_range; lia. }
  destruct (slot_count _ _ (Hslot _ _ Hb)) as [Cb Lb]. destruct (slot_count _ _ (Hslot _ _ Ha)) as [Ca La].
  exists (before ++ Line (c_str l) :: after ++ o).
  assert (Ct : trampolines (before ++ Line (c_str l) :: after ++ o) = (length before + length after + trampolines o)%nat).
  { rewrite trampolines_app, Cb. change (Line (c_str l) :: after ++ o) with ([Line (c_str l)] ++ after ++ o).
    rewrite !trampolines_app, Ca. cbn. lia. }
  split. { rewrite Eo', Eo, <- !app_assoc. done. }
  split; [now constructor|]. rewrite Ct. split; [|cbn [length]; lia].
  rewrite Ei', Ei. unfold uwrap. rewrite Zplus_mod_idemp_l. f_equal. lia.
Qed.
End Places.

(** The input in an output. *)
Definition item_bytes (i : item) : list Z := match i with Line l => l | _ => [] end.
Definition lines_of (o : list item) : list Z := concat (map item_bytes o).

Lemma lines_of_app a b : lines_of (a ++ b) = lines_of a ++ lines_of b.
Proof. unfold lines_of. now rewrite map_app, concat_app. Qed.

Section Whole.
Context {W : Type} `{Libc W}.
Hypothesis Hrandom : forall w, 0 <= fst (random w).
Implicit Types (cf : as_config) (content : list Z).

(** The payload follows if there is a trampoline. *)
Definition payload cf (body : list item) : list item :=
  if (trampolines body =? 0)%nat then [] else [Payload (use_64bit cf)].

Lemma slot_lines cf P o : allowed cf P o \/ exactly cf P o -> lines_of o = [].
Proof. intros [[->|[_ (v & _ & ->)]]|[[_ (v & _ & ->)]|[_ ->]]]; done. Qed.

Lemma written_lines cf slot B A ls rest o :
  (forall P o, slot P o -> allowed cf P o \/ exactly cf P o) ->
  written slot B A ls rest o -> lines_of o = concat (map c_str rest).
Proof.
  intros Hs. induction 1 as [|ls l rest before after o Hb Ha _ IH]; [done|].
  change (Line (c_str l) :: after ++ o) with ([Line (c_str l)] ++ after ++ o).
  rewrite !lines_of_app, (slot_lines _ _ _ (Hs _ _ Hb)), (slot_lines _ _ _ (Hs _ _ Ha)), IH.
  unfold lines_of. cbn. now rewrite app_nil_r.
Qed.

Lemma as_lines_short fuel file : (length (as_lines fuel file) <= fuel)%nat.
Proof.
  revert file. induction fuel as [|n IH]; intros [|c file]; cbn; [done|done|lia|].
  destruct (fgets (Z.to_nat (MAX_LINE - 1)) (c :: file)) as [a b]. specialize (IH b). cbn [length]. lia.
Qed.

Lemma c_str_lines content : 0 ∉ content -> concat (map c_str (as_lines (length content) content)) = content.
Proof.
  intros H0. transitivity (concat (as_lines (length content) content)); [|now apply as_lines_concat].
  assert (Hl : forall l, l ∈ as_lines (length content) content -> 0 ∉ l).
  { intros l Hl Hc. apply H0. rewrite <- (as_lines_concat (length content) content) by done.
    apply list_elem_of_In, in_concat. exists l. now rewrite <- !list_elem_of_In. }
  revert Hl. generalize (as_lines (length content) content). intros ls. induction ls as [|l ls IH]; intros Hl; [done|].
  cbn. rewrite c_str_whole by (apply Hl; left). rewrite IH; [done|]. intros x Hx. apply Hl. now right.
Qed.

Lemma pass_thru_lines cf s ls :
  pass_thru cf = true ->
  outf (foldl (process_line cf) s ls) = outf s ++ map (fun l => Line (c_str l)) ls /\
  ins_lines (foldl (process_line cf) s ls) = ins_lines s.
Proof.
  intros Hp. revert s. induction ls as [|l ls IH]; intros s; cbn [foldl map]; [now rewrite app_nil_r|].
  destruct (IH (process_line cf s l)) as [-> ->]. unfold process_line, put_deferred. rewrite Hp. cbn.
  now rewrite <- app_assoc.
Qed.

Lemma instrumented_body cf slot B A (I : list (list Z) -> as_flags -> Prop) content (w : W) :
  (forall P o, slot P o -> allowed cf P o \/ exactly cf P o) ->
  (forall ls s l, 0 <= ins_lines s < 2 ^ 32 -> I ls (flags s) ->
     exists before after, outf (process_line cf s l) = outf s ++ before ++ Line (c_str l) :: after /\
       ins_lines (process_line cf s l) = u32 (ins_lines s + Z.of_nat (length before + length after)) /\
       slot (B ls l) before /\ slot (A ls l) after /\ I (ls ++ [l]) (flags (process_line cf s l))) ->
  I [] flags0 -> 2 * Z.of_nat (length content) < 2 ^ 32 ->
  exists body, written slot B A [] (as_lines (length content) content) body /\
    outf (add_instrumentation cf content w) = body ++ payload cf body.
Proof.
  intros Hs Hstep HI Hlen.
  destruct (lines_written cf slot B A I Hs Hstep (as_lines (length content) content) [] (as_init w))
    as (o & Eo & Hw & Ei & Hc); [done|done|].
  pose proof (as_lines_short (length content) content) as Hl.
  exists o. split; [done|]. unfold add_instrumentation, payload. rewrite Ei. cbn [as_init ins_lines].
  rewrite Z.add_0_l, uwrap_id by lia. cbn [as_init outf] in Eo. rewrite app_nil_l in Eo.
  destruct (Nat.eqb_spec (trampolines o) 0) as [->|Hn]; cbn [Z.of_nat Z.eqb negb]; [now rewrite app_nil_r|].
  rewrite (proj2 (Z.eqb_neq _ 0)) by lia. cbn [negb fputs outf]. now rewrite Eo.
Qed.

Lemma means_false P : ~ P -> means false P.
Proof. unfold means. intuition congruence. Qed.

Lemma tracks_init cf : tracks cf [] flags0.
Proof. split; [|split; [|split]]; apply means_false, sticky_nil. Qed.

Lemma transparent_spec cf content (w : W) :
  0 ∉ content -> 2 * Z.of_nat (length content) < 2 ^ 32 ->
  let lines := as_lines (length content) content in
  let o := outf (add_instrumentation cf content w) in
  lines_of o = content /\
  (pass_thru cf = true -> o = map Line lines) /\
  (pass_thru cf = false -> exists body,
     written (allowed cf) (fun ls l => active cf ls /\ insn l = true) (branches cf) [] lines body /\
     o = body ++ payload cf body).
Proof.
  intros H0 Hlen lines o. destruct (pass_thru cf) eqn:Hp.
  - destruct (pass_thru_lines cf (as_init w) lines Hp) as [Eo Ei].
    assert (E : o = map (fun l => Line (c_str l)) lines).
    { unfold o, add_instrumentation. fold lines. rewrite Ei. exact Eo. }
    pose proof (c_str_lines content H0) as Hc. fold lines in Hc.
    split; [|split; [intros _|done]].
    + rewrite E. unfold lines_of. now rewrite map_map.
    + rewrite E. apply map_ext_in. intros l Hl. rewrite c_str_whole; [done|]. intros Hz. apply H0.
      rewrite <- (as_lines_concat (length content) content) by done.
      apply list_elem_of_In, in_concat. exists l. split; [exact Hl|now apply list_elem_of_In].
  - destruct (instrumented_body cf (allowed cf) (fun ls l => active cf ls /\ insn l = true) (branches cf)
        (tracks cf) content w) as (body & Hw & Eo); [auto| |apply tracks_init|done|].
    { intros ls s l Hi Ht. now apply process_line_allowed. }
    split; [|split; [done|intros _; eauto]].
    unfold o. rewrite Eo, lines_of_app, (written_lines cf _ _ _ _ _ _ (fun P o h => or_introl h) Hw).
    fold lines. pose proof (c_str_lines content H0) as Hc. fold lines in Hc. rewrite Hc. unfold payload. case_match; apply app_nil_r.
Qed.
End Whole.

(** ** The command line *)

Lemma input_from_found p pre input rest :
  starts input (txt "-g") = false ->
  input_from ((p :: pre) ++ input :: rest) (S (length pre)) = Some (S (length pre), input).
Proof.
  intros Hin. cbn [input_from]. rewrite (nth_middle (p :: pre) rest input [] : nth (S (length pre)) _ _ = _).
  now rewrite Hin.
Qed.

Lemma input_from_spec p pre input gs :
  Forall (fun a => starts a (txt "-g") = true) gs -> starts input (txt "-g") = false ->
  input_from ((p :: pre) ++ input :: gs) (S (length pre) + length gs) = Some (S (length pre), input).
Proof.
  intros Hgs Hin. assert (Hk : forall k, (k <= length gs)%nat ->
    input_from ((p :: pre) ++ input :: gs) (S (length pre) + k) = Some (S (length pre), input)); [|now apply Hk].
  intros k. induction k as [|k IH]; intros Hk; [rewrite Nat.add_0_r; now apply input_from_found|].
  replace (S (length pre) + S k)%nat with (S (S (length pre) + k)) by lia. cbn [input_from].
  assert (Hl : exists a, gs !! k = Some a) by (apply lookup_lt_is_Some; lia). destruct Hl as [a Ha].
  replace (nth (S (S (length pre) + k)) ((p :: pre) ++ input :: gs) []) with a.
  - rewrite (Forall_lookup_1 _ _ _ _ Hgs Ha). apply IH. lia.
  - symmetry. apply nth_lookup_Some. rewrite lookup_app_r by (cbn; lia).
    replace (S (S (length pre) + k) - length (p :: pre))%nat with (S k) by (cbn; lia). exact Ha.
Qed.

(** The options that choose the width; the last one wins. *)
Definition width_arg (a : list Z) : bool := str_eq a (txt "--64") || str_eq a (txt "--32").
Definition last_width (word64 : bool) (args : list (list Z)) : bool :=
  match last (List.filter width_arg args) with Some a => str_eq a (txt "--64") | None => word64 end.

Lemma width_fold word64 args : foldl width_of word64 args = last_width word64 args.
Proof.
  unfold last_width. induction args as [|a args IH] using rev_ind; [done|].
  rewrite foldl_snoc, List.filter_app, IH. cbn. unfold width_of, width_arg.
  destruct (str_eq a (txt "--64")) eqn:E; cbn [orb].
  - now rewrite last_snoc.
  - destruct (str_eq a (txt "--32")); [now rewrite last_snoc, E|now rewrite app_nil_r].
Qed.

(** A file that a compiler made, or that the user wants instrumented. *)
Definition compiler_output (getenv : environ) (input : list Z) : Prop :=
  starts input (tmp_dir_of getenv) = true \/ starts input (txt "/var/tmp/") = true \/
  starts input (txt "/tmp/") = true \/ is_set (getenv (txt "AFL_AS_FORCE_INSTRUMENT")) = true.

Lemma starts_dash input : at_ input 0 <> 45 -> starts input (txt "-g") = false.
Proof.
  unfold starts, at_. intros Hd. apply bool_decide_eq_false_2. intros E. apply Hd.
  destruct input as [|c input]; [done|]. cbn in E. now injection E as ->.
Qed.

Definition is_command (getenv : environ) (word64 : bool) (pid time rand : Z) (pre : list (list Z)) (input : list Z)
    (gs : list (list Z)) (cmd : as_cmd) : Prop :=
  as_params cmd = default (txt "as") (getenv (txt "AFL_AS")) :: pre ++ gs ++ [modified_file cmd] /\
  in_file cmd = Some input /\
  modified_file cmd = modified_name (tmp_dir_of getenv) pid time rand /\
  cmd_64bit cmd = last_width word64 (pre ++ gs) /\
  (cmd_pass_thru cmd = false <-> compiler_output getenv input) /\
  just_version cmd = false.

Lemma edit_params_spec getenv word64 pid time rand p pre input gs :
  Forall (fun a => starts a (txt "-g") = true) gs -> at_ input 0 <> 45 ->
  exists cmd, edit_params getenv word64 pid time rand ((p :: pre) ++ input :: gs) = Ok cmd /\
    is_command getenv word64 pid time rand pre input gs cmd.
Proof.
  intros Hgs Hd. unfold edit_params.
  replace (length ((p :: pre) ++ input :: gs) - 1)%nat with (S (length pre) + length gs)%nat
    by (rewrite length_app; cbn; lia).
  rewrite (input_from_spec p pre input gs Hgs (starts_dash _ Hd)).
  replace (drop 1 (take (S (length pre)) ((p :: pre) ++ input :: gs)) ++ drop (S (S (length pre))) ((p :: pre) ++ input :: gs))
    with (pre ++ gs).
  2: { cbn. f_equal; [now rewrite take_app_length|]. clear. induction pre; cbn; auto. }
  rewrite (proj2 (Z.eqb_neq _ _) Hd). eexists. split; [reflexivity|].
  split; [cbn; now rewrite <- app_assoc|]. split; [done|]. split; [done|]. split; [apply width_fold|]. split; [|done].
  unfold compiler_output. cbn [cmd_pass_thru].
  destruct (starts input (tmp_dir_of getenv)), (starts input (txt "/var/tmp/")), (starts input (txt "/tmp/")),
    (is_set (getenv (txt "AFL_AS_FORCE_INSTRUMENT"))); cbn; intuition congruence.
Qed.

Lemma map_Line_count ls : trampolines (map Line ls) = O.
Proof. unfold trampolines. induction ls; cbn; auto. Qed.

Lemma as_main_spec {W} `{Libc W} getenv word64 pid time fopen p pre input gs content ratio (w : W) :
  (forall w, 0 <= fst (random w)) ->
  Forall (fun a => starts a (txt "-g") = true) gs -> at_ input 0 <> 45 ->
  ratio_of getenv = Ok ratio -> getenv (txt "__AFL_AS_LOOPCHECK") = None ->
  fopen (Some input) = Some content -> 0 ∉ content -> 2 * Z.of_nat (length content) < 2 ^ 32 ->
  exists cmd o,
    as_main getenv word64 pid time fopen true ((p :: pre) ++ input :: gs) w = Ok (cmd, Some o) /\
    is_command getenv word64 pid time (fst (random w)) pre input gs cmd /\
    lines_of o = content /\ (~ compiler_output getenv input -> trampolines o = O).
Proof.
  intros Hr Hgs Hd Eratio Eloop Eopen H0 Hlen. unfold as_main.
  assert (E2 : (length ((p :: pre) ++ input :: gs) <? 2)%nat = false) by (apply Nat.ltb_ge; rewrite length_app; cbn; lia).
  assert (Eh : (length ((p :: pre) ++ input :: gs) =? 2)%nat && str_eq (nth 1 ((p :: pre) ++ input :: gs) []) (txt "-h") = false).
  { destruct pre as [|q pre]; cbn [app length].
    - apply andb_false_intro2. apply bool_decide_eq_false_2. cbn. intros ->. now apply Hd.
    - apply andb_false_intro1. apply Nat.eqb_neq. rewrite length_app. cbn. lia. }
  rewrite E2, Eh. cbn [orb]. clear E2 Eh. destruct (random w) as [rand w'] eqn:Ew. cbn [fst].
  destruct (edit_params_spec getenv word64 pid time rand p pre input gs Hgs Hd) as (cmd & -> & Hcmd).
  cbn [mbind res_bind]. rewrite Eratio. cbn [mbind res_bind]. rewrite Eloop. cbn [is_set].
  pose proof Hcmd as (_ & Ein & _ & _ & Epass & Ejust). rewrite Ejust, Ein, Eopen. cbn [negb].
  eexists cmd, _. split; [reflexivity|]. split; [done|].
  match goal with |- context [add_instrumentation ?cf content w'] =>
    destruct (transparent_spec Hr cf content w' H0 Hlen) as (E1 & Ep & _) end.
  split; [exact E1|]. intros Hn. cbn [pass_thru] in Ep. rewrite Ep; [apply map_Line_count|].
  destruct (cmd_pass_thru cmd); [done|]. exfalso. now apply Hn, Epass.
Qed.

(** ** The properties *)

(** C13: instrumenting only adds.  The lines of the input, as [fgets] cuts them,
    come out unchanged and in order; in pass-thru mode nothing is added;
    otherwise, whatever is drawn and whatever the ratio, a trampoline, with a
    location of the map, is put only before an instruction or after a
    conditional branch of active code (in a section of text, for this machine,
    in AT&T syntax, outside of [asm] blocks), and the payload follows exactly
    if there is a trampoline. *)
Theorem add_instrumentation_transparent {W} `{Libc W} (cf : as_config) (content : list Z) (w : W) :
  (forall w, 0 <= fst (random w)) -> 0 ∉ content -> 2 * Z.of_nat (length content) < 2 ^ 32 ->
  let lines := as_lines (length content) content in
  let o := outf (add_instrumentation cf content w) in
  lines_of o = content /\
  (pass_thru cf = true -> o = map Line lines) /\
  (pass_thru cf = false -> exists body,
     written (allowed cf) (fun ls l => active cf ls /\ insn l = true) (branches cf) [] lines body /\
     o = body ++ payload cf body).
Proof. intros Hr. exact (transparent_spec Hr cf content w). Qed.

(** C12: at the full ratio the places are exact.  A trampoline stands before the
    first instruction of active code after each function label and each label
    that branches lead to, the label of a jump table excepted, and after each
    conditional branch of active code, and nowhere else. *)
Theorem add_instrumentation_places {W} `{Libc W} (cf : as_config) (content : list Z) (w : W) :
  (forall w, 0 <= fst (random w)) -> 100 <= inst_ratio cf -> pass_thru cf = false ->
  2 * Z.of_nat (length content) < 2 ^ 32 ->
  exists body,
    written (exactly cf) (entered cf) (branches cf) [] (as_lines (length content) content) body /\
    outf (add_instrumentation cf content w) = body ++ payload cf body.
Proof.
  intros Hr Hratio Hp Hlen.
  apply (instrumented_body cf (exactly cf) (entered cf) (branches cf) (tracks_all cf) content w); [auto| | |done].
  - intros ls s l Hi Ha. now apply process_line_exact.
  - split; [apply tracks_init|]. split; apply means_false, sticky_nil.
Qed.

(** C14: the wrapper finds the input file (the last argument but for [-g]
    options), runs the assembler on the rewritten file with the other
    arguments in their order, for the width the last of [--32] and [--64]
    asks for, and instruments only what is in a directory of temporary files
    or is forced; the rewritten file holds the input. *)
Theorem as_main_correct {W} `{Libc W} getenv word64 pid time fopen p pre input gs content ratio (w : W) :
  (forall w, 0 <= fst (random w)) ->
  Forall (fun a => starts a (txt "-g") = true) gs -> at_ input 0 <> 45 ->
  ratio_of getenv = Ok ratio -> getenv (txt "__AFL_AS_LOOPCHECK") = None ->
  fopen (Some input) = Some content -> 0 ∉ content -> 2 * Z.of_nat (length content) < 2 ^ 32 ->
  exists cmd o,
    as_main getenv word64 pid time fopen true ((p :: pre) ++ input :: gs) w = Ok (cmd, Some o) /\
    is_command getenv word64 pid time (fst (random w)) pre input gs cmd /\
    lines_of o = content /\ (~ compiler_output getenv input -> trampolines o = O).
Proof. apply as_main_spec. Qed.

(** ** Examples *)

#[local] Instance counter_libc : Libc nat := {| random := fun n => (Z.of_nat n, S n) |}.

Definition asm_line (s : string) : list Z := txt s ++ [nl].
Definition asm_tab (s : string) : list Z := tab :: txt s ++ [nl].
Definition sample_asm : list Z :=
  asm_tab ".text" ++ asm_line "main:" ++ asm_tab "push" ++ asm_tab "je .L2" ++ asm_tab "jmp .L3" ++
  asm_line ".L2:" ++ asm_line ".LC9:" ++ asm_tab "ret" ++ asm_tab ".data" ++ asm_line "x:" ++ asm_tab "nop".
Definition sample_conf : as_config := mkAsConf true false false 100.

Example sample_output :
  outf (add_instrumentation sample_conf sample_asm 7%nat) =
  [Line (asm_tab ".text"); Line (asm_line "main:"); Trampoline true 7; Line (asm_tab "push"); Line (asm_tab "je .L2");
   Trampoline true 9; Line (asm_tab "jmp .L3"); Line (asm_line ".L2:"); Line (asm_line ".LC9:"); Trampoline true 11;
   Line (asm_tab "ret"); Line (asm_tab ".data"); Line (asm_line "x:"); Line (asm_tab "nop"); Payload true].
Proof. vm_compute. reflexivity. Qed.

Lemma counter_nonneg (w : nat) : 0 <= fst (random w).
Proof. apply Zle_0_nat. Qed.

Lemma add_instrumentation_transparent_witness :
  lines_of (outf (add_instrumentation sample_conf sample_asm 7%nat)) = sample_asm.
Proof.
  apply (add_instrumentation_transparent sample_conf sample_asm 7%nat counter_nonneg);
    [by apply (bool_decide_unpack _)|reflexivity].
Defined.

Lemma add_instrumentation_places_witness : exists body,
  written (exactly sample_conf) (entered sample_conf) (branches sample_conf) [] (as_lines (length sample_asm) sample_asm) body /\
  outf (add_instrumentation sample_conf sample_asm 7%nat) = body ++ payload sample_conf body.
Proof. apply (add_instrumentation_places sample_conf sample_asm 7%nat counter_nonneg); [done|reflexivity|reflexivity]. Defined.

Definition no_env : environ := fun _ => None.
Lemma as_main_correct_witness :
  exists cmd o,
    as_main no_env true 12 34 (fun _ => Some sample_asm) true
      [txt "as"; txt "--32"; txt "-o"; txt "a.o"; txt "/tmp/a.s"; txt "-g"] 7%nat = Ok (cmd, Some o) /\
    is_command no_env true 12 34 7 [txt "--32"; txt "-o"; txt "a.o"] (txt "/tmp/a.s") [txt "-g"] cmd /\
    lines_of o = sample_asm /\ (~ compiler_output no_env (txt "/tmp/a.s") -> trampolines o = O).
Proof.
  apply (as_main_correct no_env true 12 34 (fun _ => Some sample_asm) (txt "as") [txt "--32"; txt "-o"; txt "a.o"]
    (txt "/tmp/a.s") [txt "-g"] sample_asm 100 7%nat counter_nonneg);
    [by repeat constructor|done|reflexivity|reflexivity|reflexivity|by apply (bool_decide_unpack _)|reflexivity].
Defined.

(** A line longer than the buffer is read in pieces, and a piece may look like
    an instruction: the trampoline then stands inside of the line. *)
Definition long_comment : list Z :=
  asm_tab ".text" ++ asm_line "main:" ++ replicate (Z.to_nat (MAX_LINE - 1)) hash ++ asm_tab "see below" ++ asm_tab "ret".
Lemma long_line_is_split :
  take 5 (outf (add_instrumentation sample_conf long_comment 7%nat)) =
  [Line (asm_tab ".text"); Line (asm_line "main:"); Line (replicate (Z.to_nat (MAX_LINE - 1)) hash);
   Trampoline true 7; Line (asm_tab "see below")].
Proof. vm_compute. reflexivity. Qed.

#[local] Instance two_draws : Libc bool := {| random := fun b : bool => (if b then 99 else 0, false) |}.
(** Below the full ratio, the label of a jump table may fail its draw; the
    mark that it is to be skipped stays and skips the next label. *)
Lemma skip_outlives_its_label :
  trampolines (outf (add_instrumentation (mkAsConf true false false 50) (asm_tab ".text" ++ asm_tab ".p2align 4" ++
    asm_line ".L1:" ++ asm_tab "nop" ++ asm_line ".L2:" ++ asm_tab "nop") true)) = O /\
  trampolines (outf (add_instrumentation (mkAsConf true false false 50)
    (asm_tab ".text" ++ asm_line ".L1:" ++ asm_tab "nop" ++ asm_line ".L2:" ++ asm_tab "nop") true)) = 1%nat.
Proof. split; vm_compute; reflexivity. Qed.
