(* ===== verification/Common.v ===== *)
(** Functions of [src/afl-common.c] the tools share: the edit distance and the
    suggestions for mistyped variables, the reader of environment settings,
    the replacement of [@@], kill signals and the map's size. *)

From Stdlib Require Import String.
From S2P Require Import Prelude Extras Callstack.
#[local] Open Scope list_scope.
#[local] Open Scope Z_scope.

(** ** The edit distance *)

Definition helper_min3 (a b c : Z) : Z :=
  if a <? b then (if a <? c then a else c) else (if b <? c then b else c).

(** One cell; the state is [column] and [lastdiag]. *)
Definition lev_cell (s1 s2 : list Z) (x : nat) (st : list Z * Z) (y : nat) : res (list Z * Z) :=
  let '(column, lastdiag) := st in
  olddiag ← rd column y;
  left ← rd column (y - 1);
  a ← rd s1 (y - 1);
  b ← rd s2 (x - 1);
  column ← wr column y (helper_min3 (u32 (olddiag + 1)) (u32 (left + 1)) (u32 (lastdiag + if a =? b then 0 else 1)));
  Ok (column, olddiag).

Definition lev_column (s1 s2 : list Z) (column : list Z) (x : nat) : res (list Z) :=
  column ← wr column 0 (Z.of_nat x);
  '(column, _) ← rfold (lev_cell s1 s2 x) (column, u32 (Z.of_nat x - 1)) (seq 1 (length s1));
  Ok column.

(** [garbage] is what the array holds before. *)
Definition string_distance_levenshtein (garbage : nat -> list Z) (s1 s2 : list Z) : res Z :=
  let s1len := length s1 in
  column ← wr (take (S s1len) (garbage (S s1len))) s1len 1;
  column ← rfold (fun c y => wr c y (Z.of_nat y)) column (seq 1 s1len);
  column ← rfold (lev_column s1 s2) column (seq 1 (length s2));
  d ← rd column s1len;
  Ok (s32 d).

(** ** Suggestions for a mistyped variable *)

(** A comma is missing after [AFL_FRIDA_INST_NO_SUPPRESS], so the compiler joins
    that name and the next. *)
Definition afl_environment_variables : list (list Z) := map txt
  ["AFL_ALIGNED_ALLOC"; "AFL_ALLOW_TMP"; "AFL_ANALYZE_HEX"; "AFL_AS"; "AFL_AUTORESUME";
   "AFL_AS_FORCE_INSTRUMENT"; "AFL_BENCH_JUST_ONE"; "AFL_BENCH_UNTIL_CRASH"; "AFL_CAL_FAST"; "AFL_CC";
   "AFL_CC_COMPILER"; "AFL_CMIN_ALLOW_ANY"; "AFL_CMIN_CRASHES_ONLY"; "AFL_CMPLOG_ONLY_NEW"; "AFL_CODE_END";
   "AFL_CODE_START"; "AFL_COMPCOV_BINNAME"; "AFL_COMPCOV_LEVEL"; "AFL_CRASH_EXITCODE";
   "AFL_CUSTOM_MUTATOR_LIBRARY"; "AFL_CUSTOM_MUTATOR_ONLY"; "AFL_CXX"; "AFL_CYCLE_SCHEDULES"; "AFL_DEBUG";
   "AFL_DEBUG_CHILD"; "AFL_DEBUG_GDB"; "AFL_DEBUG_UNICORN"; "AFL_DISABLE_TRIM";
   "AFL_DISABLE_LLVM_INSTRUMENTATION"; "AFL_DONT_OPTIMIZE"; "AFL_DRIVER_STDERR_DUPLICATE_FILENAME";
   "AFL_DUMB_FORKSRV"; "AFL_EARLY_FORKSERVER"; "AFL_ENTRYPOINT"; "AFL_EXIT_WHEN_DONE"; "AFL_EXIT_ON_TIME";
   "AFL_EXIT_ON_SEED_ISSUES"; "AFL_FAST_CAL"; "AFL_FORCE_UI"; "AFL_FRIDA_DEBUG_MAPS";
   "AFL_FRIDA_DRIVER_NO_HOOK"; "AFL_FRIDA_EXCLUDE_RANGES"; "AFL_FRIDA_INST_CACHE_SIZE";
   "AFL_FRIDA_INST_COVERAGE_ABSOLUTE"; "AFL_FRIDA_INST_COVERAGE_FILE"; "AFL_FRIDA_INST_DEBUG_FILE";
   "AFL_FRIDA_INST_INSN"; "AFL_FRIDA_INST_JIT"; "AFL_FRIDA_INST_NO_CACHE"; "AFL_FRIDA_INST_NO_OPTIMIZE";
   "AFL_FRIDA_INST_NO_PREFETCH"; "AFL_FRIDA_INST_NO_PREFETCH_BACKPATCH";
   "AFL_FRIDA_INST_NO_SUPPRESSAFL_FRIDA_INST_RANGES"; "AFL_FRIDA_INST_REGS_FILE"; "AFL_FRIDA_INST_SEED";
   "AFL_FRIDA_INST_TRACE"; "AFL_FRIDA_INST_TRACE_UNIQUE"; "AFL_FRIDA_INST_UNSTABLE_COVERAGE_FILE";
   "AFL_FRIDA_JS_SCRIPT"; "AFL_FRIDA_OUTPUT_STDOUT"; "AFL_FRIDA_OUTPUT_STDERR"; "AFL_FRIDA_PERSISTENT_ADDR";
   "AFL_FRIDA_PERSISTENT_CNT"; "AFL_FRIDA_PERSISTENT_DEBUG"; "AFL_FRIDA_PERSISTENT_HOOK";
   "AFL_FRIDA_PERSISTENT_RET"; "AFL_FRIDA_STALKER_ADJACENT_BLOCKS"; "AFL_FRIDA_STALKER_IC_ENTRIES";
   "AFL_FRIDA_STALKER_NO_BACKPATCH"; "AFL_FRIDA_STATS_FILE"; "AFL_FRIDA_STATS_INTERVAL"; "AFL_FRIDA_TRACEABLE";
   "AFL_FRIDA_VERBOSE"; "AFL_FUZZER_ARGS"; "AFL_FUZZER_STATS_UPDATE_INTERVAL"; "AFL_GDB"; "AFL_GCC_ALLOWLIST";
   "AFL_GCC_DENYLIST"; "AFL_GCC_BLOCKLIST"; "AFL_GCC_INSTRUMENT_FILE"; "AFL_GCC_OUT_OF_LINE";
   "AFL_GCC_SKIP_NEVERZERO"; "AFL_GCJ"; "AFL_HANG_TMOUT"; "AFL_FORKSRV_INIT_TMOUT"; "AFL_HARDEN";
   "AFL_I_DONT_CARE_ABOUT_MISSING_CRASHES"; "AFL_IGNORE_PROBLEMS"; "AFL_IGNORE_TIMEOUTS";
   "AFL_IGNORE_UNKNOWN_ENVS"; "AFL_IMPORT_FIRST"; "AFL_INPUT_LEN_MIN"; "AFL_INPUT_LEN_MAX"; "AFL_INST_LIBS";
   "AFL_INST_RATIO"; "AFL_KEEP_TIMEOUTS"; "AFL_KILL_SIGNAL"; "AFL_FORK_SERVER_KILL_SIGNAL"; "AFL_KEEP_TRACES";
   "AFL_KEEP_ASSEMBLY"; "AFL_LD_HARD_FAIL"; "AFL_LD_LIMIT_MB"; "AFL_LD_NO_CALLOC_OVER"; "AFL_LD_PASSTHROUGH";
   "AFL_REAL_LD"; "AFL_LD_PRELOAD"; "AFL_LD_VERBOSE"; "AFL_LLVM_ALLOWLIST"; "AFL_LLVM_DENYLIST";
   "AFL_LLVM_BLOCKLIST"; "AFL_CMPLOG"; "AFL_LLVM_CMPLOG"; "AFL_GCC_CMPLOG"; "AFL_LLVM_INSTRIM";
   "AFL_LLVM_CALLER"; "AFL_LLVM_CTX"; "AFL_LLVM_CTX_K"; "AFL_LLVM_DICT2FILE"; "AFL_LLVM_DICT2FILE_NO_MAIN";
   "AFL_LLVM_DOCUMENT_IDS"; "AFL_LLVM_INSTRIM_LOOPHEAD"; "AFL_LLVM_INSTRUMENT"; "AFL_LLVM_LTO_AUTODICTIONARY";
   "AFL_LLVM_AUTODICTIONARY"; "AFL_LLVM_SKIPSINGLEBLOCK"; "AFL_LLVM_INSTRIM_SKIPSINGLEBLOCK";
   "AFL_LLVM_LAF_SPLIT_COMPARES"; "AFL_LLVM_LAF_SPLIT_COMPARES_BITW"; "AFL_LLVM_LAF_SPLIT_FLOATS";
   "AFL_LLVM_LAF_SPLIT_SWITCHES"; "AFL_LLVM_LAF_ALL"; "AFL_LLVM_LAF_TRANSFORM_COMPARES"; "AFL_LLVM_MAP_ADDR";
   "AFL_LLVM_MAP_DYNAMIC"; "AFL_LLVM_NGRAM_SIZE"; "AFL_NGRAM_SIZE"; "AFL_LLVM_NOT_ZERO";
   "AFL_LLVM_INSTRUMENT_FILE"; "AFL_LLVM_THREADSAFE_INST"; "AFL_LLVM_SKIP_NEVERZERO"; "AFL_NO_AFFINITY";
   "AFL_TRY_AFFINITY"; "AFL_LLVM_LTO_STARTID"; "AFL_LLVM_LTO_DONTWRITEID"; "AFL_NO_ARITH"; "AFL_NO_AUTODICT";
   "AFL_NO_BUILTIN"; "AFL_NO_COLOR"; "AFL_NO_COLOUR"; "AFL_NO_CPU_RED"; "AFL_NO_CRASH_README";
   "AFL_NO_FORKSRV"; "AFL_NO_UI"; "AFL_NO_PYTHON"; "AFL_NO_STARTUP_CALIBRATION"; "AFL_NO_WARN_INSTABILITY";
   "AFL_UNTRACER_FILE"; "AFL_LLVM_USE_TRACE_PC"; "AFL_MAP_SIZE"; "AFL_MAPSIZE"; "AFL_MAX_DET_EXTRAS";
   "AFL_NO_X86"; "AFL_NOOPT"; "AFL_PASSTHROUGH"; "AFL_PATH"; "AFL_PERFORMANCE_FILE"; "AFL_PERSISTENT_RECORD";
   "AFL_PRELOAD"; "AFL_TARGET_ENV"; "AFL_PYTHON_MODULE"; "AFL_QEMU_CUSTOM_BIN"; "AFL_QEMU_COMPCOV";
   "AFL_QEMU_COMPCOV_DEBUG"; "AFL_QEMU_DEBUG_MAPS"; "AFL_QEMU_DISABLE_CACHE"; "AFL_QEMU_DRIVER_NO_HOOK";
   "AFL_QEMU_FORCE_DFL"; "AFL_QEMU_PERSISTENT_ADDR"; "AFL_QEMU_PERSISTENT_CNT"; "AFL_QEMU_PERSISTENT_GPR";
   "AFL_QEMU_PERSISTENT_HOOK"; "AFL_QEMU_PERSISTENT_MEM"; "AFL_QEMU_PERSISTENT_RET";
   "AFL_QEMU_PERSISTENT_RETADDR_OFFSET"; "AFL_QEMU_PERSISTENT_EXITS"; "AFL_QEMU_INST_RANGES";
   "AFL_QEMU_EXCLUDE_RANGES"; "AFL_QEMU_SNAPSHOT"; "AFL_QEMU_TRACK_UNSTABLE"; "AFL_QUIET";
   "AFL_RANDOM_ALLOC_CANARY"; "AFL_REAL_PATH"; "AFL_SHUFFLE_QUEUE"; "AFL_SKIP_BIN_CHECK"; "AFL_SKIP_CPUFREQ";
   "AFL_SKIP_CRASHES"; "AFL_SKIP_OSSFUZZ"; "AFL_STATSD"; "AFL_STATSD_HOST"; "AFL_STATSD_PORT";
   "AFL_STATSD_TAGS_FLAVOR"; "AFL_SYNC_TIME"; "AFL_TESTCACHE_SIZE"; "AFL_TESTCACHE_ENTRIES"; "AFL_TMIN_EXACT";
   "AFL_TMPDIR"; "AFL_TOKEN_FILE"; "AFL_TRACE_PC"; "AFL_USE_ASAN"; "AFL_USE_MSAN"; "AFL_USE_TRACE_PC";
   "AFL_USE_UBSAN"; "AFL_USE_TSAN"; "AFL_USE_CFISAN"; "AFL_USE_LSAN"; "AFL_WINE_PATH"; "AFL_NO_SNAPSHOT";
   "AFL_EXPAND_HAVOC_NOW"; "AFL_USE_FASAN"; "AFL_USE_QASAN"; "AFL_PRINT_FILENAMES"; "AFL_PIZZA_MODE"]%string.

Definition ENV_SIMILARITY_TRESHOLD : Z := 3.

(** [strcspn(s, reject)] for one character. *)
Fixpoint strcspn (s : list Z) (reject : Z) : nat :=
  match s with c :: s => if c =? reject then O else S (strcspn s reject) | [] => O end.

(** [memcpy(dst + off, src, ...)] into a buffer. *)
Definition blit (dst : list Z) (off : nat) (src : list Z) : res (list Z) :=
  if (off + length src <=? length dst)%nat
  then Ok (take off dst ++ src ++ drop (off + length src) dst) else Err Fault.

Section Suggest.
Context (garbage : nat -> list Z) (vars : list (list Z)).

(** [name] without the word from [start] to [end_], in [reduced]; [guard] is
    the test that only one of the two loops makes. *)
Definition drop_word (guard : bool) (name : list Z) (start end_ : nat) (reduced : list Z) : res (list Z) :=
  let len := length name in
  reduced ← blit reduced 0 (take start name);
  reduced ← (if (end_ <? len)%nat then blit reduced start (drop end_ name) else Ok reduced);
  if guard && (len + start <? end_)%nat then Ok reduced else
  let pos := Z.of_nat len - Z.of_nat end_ + Z.of_nat start in
  if pos <? 0 then Err Fault else wr reduced (Z.to_nat pos) 0.

(** The state: which variables were named, and they themselves in order. *)
Definition similar (a b : list Z) (j : nat) (st : list bool * list (list Z)) : res (list bool * list (list Z)) :=
  let '(seen, found) := st in
  distance ← string_distance_levenshtein garbage a b;
  s ← rd seen j;
  if (distance <? ENV_SIMILARITY_TRESHOLD) && negb s then
    v ← rd vars j;
    seen ← wr seen j true;
    Ok (seen, found ++ [v])
  else Ok (seen, found).

Definition var_name (j : nat) : res (list Z) := v ← rd vars j; Ok (drop 4 v).

(** The words of a known variable left out, one after the other. *)
Fixpoint reduce_var (fuel : nat) (env_name afl_env : list Z) (j start : nat) (reduced : list Z)
    (st : list bool * list (list Z)) : res (list bool * list (list Z)) :=
  if negb (start <? length afl_env)%nat then Ok st else
  match fuel with
  | O => Err OutOfFuel
  | S fuel =>
      let end_ := (start + strcspn (drop start afl_env) 95 + 1)%nat in
      reduced ← drop_word true afl_env start end_ reduced;
      st ← similar (c_str reduced) env_name j st;
      reduce_var fuel env_name afl_env j end_ reduced st
  end.

(** The words of the mistyped one left out. *)
Fixpoint reduce_env (fuel : nat) (env_name : list Z) (start : nat) (reduced : list Z)
    (st : list bool * list (list Z)) : res (list bool * list (list Z)) :=
  if negb (start <? length env_name)%nat then Ok st else
  match fuel with
  | O => Err OutOfFuel
  | S fuel =>
      let end_ := (start + strcspn (drop start env_name) 95 + 1)%nat in
      reduced ← drop_word false env_name start end_ reduced;
      st ← rfold (fun st j => v ← var_name j; similar v (c_str reduced) j st) st (seq 0 (length vars));
      reduce_env fuel env_name end_ reduced st
  end.

(** The variables that are suggested, in order. *)
Definition print_suggested_envs (mispelled_env : list Z) : res (list (list Z)) :=
  let env_name := drop 4 (take (strcspn mispelled_env 61) mispelled_env) in
  let st := (replicate (length vars) false, []) in
  st ← rfold (fun st j => v ← var_name j; similar v env_name j st) st (seq 0 (length vars));
  if negb (bool_decide (st.2 = [])) then Ok st.2 else
  st ← rfold (fun st j => v ← var_name j;
                reduce_var (S (length v)) env_name v j 0 (replicate (S (length v)) 0) st) st (seq 0 (length vars));
  if negb (bool_decide (st.2 = [])) then Ok st.2 else
  st ← reduce_env (S (length env_name)) env_name 0 (replicate (S (length env_name)) 0) st;
  Ok st.2.
End Suggest.

(** ** Settings *)

Definition quote (c : Z) : bool := (c =? 39) || (c =? 34).
Definition name_char (c : Z) : bool := isupper c || islower c || isdigit c || (c =? 95).

(** The characters up to one that [p] holds of; the rest starts with it. *)
Fixpoint span_to (p : Z -> bool) (l : list Z) : list Z * list Z :=
  match l with
  | [] => ([], [])
  | c :: l' => if p c then ([], l) else let '(a, b) := span_to p l' in (c :: a, b)
  end.

(** [rest] is what [rest] points to, up to the terminator. *)
Fixpoint read_settings (fuel : nat) (rest : list Z) (set : list (list Z * list Z)) : res (bool * list (list Z * list Z)) :=
  match rest with
  | [] => Ok (negb (bool_decide (set = [])), set)
  | _ =>
      match fuel with
      | O => Err OutOfFuel
      | S fuel =>
          let rest := skip_while (Z.eqb 32) rest in
          if (length rest <=? 1)%nat then Ok (negb (bool_decide (set = [])), set) else
          if match rest with c :: _ => (c =? 61) || isdigit c | [] => false end then Ok (false, set) else
          let '(key, rest) := span_to (fun c => (c =? 61) || (c =? 32)) rest in
          if negb (forallb name_char key) then Ok (false, set) else
          match rest with
          | 61 :: rest =>
              match rest with
              | [] => Ok (false, set)
              | c :: after =>
                  if c =? 32 then Ok (false, set) else
                  let closing_sym := if quote c then c else 32 in
                  let rest := if quote c then after else rest in
                  if quote c && bool_decide (rest = []) then Ok (false, set) else
                  let '(val, rest) := span_to (Z.eqb closing_sym) rest in
                  if negb (closing_sym =? 32) && bool_decide (rest = []) then Ok (false, set) else
                  read_settings fuel (drop 1 rest) (set ++ [(key, val)])
              end
          | _ => Ok (false, set)
          end
      end
  end.

(** What it returns, and what it set. *)
Definition extract_and_set_env (env_str : option (list Z)) : res (bool * list (list Z * list Z)) :=
  match env_str with
  | None => Ok (false, [])
  | Some s => read_settings (length s) (c_str s) []
  end.

(** ** Arguments and numbers *)

(** The first [@@] of each argument becomes the path of the input. *)
Definition file_arg (cwd prog_in arg : list Z) : list Z :=
  match strstr arg (txt "@@") with
  | None => arg
  | Some k => take k arg ++ (if nth 0 prog_in 0 =? 47 then prog_in else cwd ++ txt "/" ++ prog_in) ++ drop (k + 2) arg
  end.

Definition detect_file_args (cwd : option (list Z)) (argv : list (list Z)) (prog_in : option (list Z)) (use_stdin : bool)
    : res (list (list Z) * bool) :=
  match cwd with
  | None => Err Fatal
  | Some cwd =>
      let has := existsb (fun a => match strstr a (txt "@@") with Some _ => true | None => false end) argv in
      match prog_in with
      | None => if has then Err Fatal else Ok (argv, use_stdin)
      | Some p => Ok (map (file_arg cwd p) argv, if has then false else use_stdin)
      end
  end.

(** The value of [strtoul(s, &end, 10)], and what [end] points to; the string
    itself if there is no number. *)
Definition strtoul10 (s : list Z) : Z * list Z :=
  let t := skip_while isspace s in
  let '(neg, t) := match t with
                   | 45 :: t' => (true, t')
                   | 43 :: t' => (false, t')
                   | _ => (false, t)
                   end in
  match t with
  | c :: _ => if isdigit c then
                let v := digits 0 t in
                (if UINT64_MAX <? v then UINT64_MAX else if (neg : bool) then u64 (- v) else v, skip_while isdigit t)
              else (0, s)
  | [] => (0, s)
  end.

Definition parse_afl_kill_signal (numeric_signal_as_str : option (list Z)) (default_signal : Z) : res Z :=
  match numeric_signal_as_str with
  | None | Some [] => Ok default_signal
  | Some s =>
      let '(v, end_) := strtoul10 s in
      if negb (bool_decide (end_ = [])) then Err Fatal else Ok (u8 v)
  end.

(** [fsrv->child_kill_signal] and [fsrv->fsrv_kill_signal]. *)
Definition configure_afl_kill_signals (getenv : list Z -> option (list Z)) (child_env fsrv_env : option (list Z))
    (sigkill default_server_kill_signal : Z) : res (Z * Z) :=
  let child_env := match child_env with Some v => Some v | None => getenv (txt "AFL_KILL_SIGNAL") end in
  let fsrv_env := match fsrv_env with Some v => Some v | None => getenv (txt "AFL_FORK_SERVER_KILL_SIGNAL") end in
  child ← parse_afl_kill_signal child_env sigkill;
  let fsrv_env := match fsrv_env with Some v => Some v | None => child_env end in
  fsrv ← parse_afl_kill_signal fsrv_env default_server_kill_signal;
  Ok (child, fsrv).

Definition DEFAULT_SHMEM_SIZE : Z := 8 * 2 ^ 20.

(** [MAP_SIZE] is [2 ^ 16]. *)
Definition get_map_size (getenv : list Z -> option (list Z)) : res Z :=
  match (match getenv (txt "AFL_MAP_SIZE") with Some p => Some p | None => getenv (txt "AFL_MAPSIZE") end) with
  | Some p =>
      let map_size := u32 (atoi p) in
      if (map_size =? 0) || (2 ^ 29 <? map_size) then Err Fatal
      else Ok (if truthy (map_size mod 64) then u32 (u32 (map_size .>> 6 + 1) .<< 6) else map_size)
  | None => match getenv (txt "AFL_SKIP_BIN_CHECK") with
            | Some _ => Ok (2 ^ 16)
            | None => Ok DEFAULT_SHMEM_SIZE
            end
  end.
