(* ===== verification/CommonThms.v ===== *)
(** Properties of [Common]. *)

From Stdlib Require Import String.
From S2P Require Import Prelude Extras Callstack CallstackThms Common.
#[local] Open Scope list_scope.
#[local] Open Scope Z_scope.

(** ** The edit distance

    [edits a b n]: [n] single characters changed, removed or added make [b]
    of [a]. *)

Inductive edits : list Z -> list Z -> Z -> Prop :=
  | ed_nil : edits [] [] 0
  | ed_keep a b c n : edits a b n -> edits (a ++ [c]) (b ++ [c]) n
  | ed_change a b c d n : edits a b n -> edits (a ++ [c]) (b ++ [d]) (n + 1)
  | ed_remove a b c n : edits a b n -> edits (a ++ [c]) b (n + 1)
  | ed_add a b d n : edits a b n -> edits a (b ++ [d]) (n + 1).

Definition distance (a b : list Z) (n : Z) : Prop := edits a b n /\ forall m, edits a b m -> n <= m.

Lemma edits_bound a b n :
  edits a b n -> Z.of_nat (length a) - Z.of_nat (length b) <= n /\ Z.of_nat (length b) - Z.of_nat (length a) <= n.
Proof. induction 1; rewrite ?length_app; cbn [length]; lia. Qed.

Lemma edits_remove_all a : edits a [] (Z.of_nat (length a)).
Proof.
  induction a as [|c a IH] using rev_ind; [constructor|]. rewrite length_app. cbn [length].
  replace (Z.of_nat (length a + 1)) with (Z.of_nat (length a) + 1) by lia. now constructor.
Qed.

Lemma edits_add_all a b n : edits a [] n -> edits a b (n + Z.of_nat (length b)).
Proof.
  intros Ha. induction b as [|d b IH] using rev_ind; [now rewrite Z.add_0_r|]. rewrite length_app. cbn [length].
  replace (n + Z.of_nat (length b + 1)) with (n + Z.of_nat (length b) + 1) by lia. now constructor.
Qed.

Lemma distance_nil_l b : distance [] b (Z.of_nat (length b)).
Proof.
  split; [exact (edits_add_all [] b 0 ed_nil)|]. intros m Hm. apply edits_bound in Hm. cbn in Hm. lia.
Qed.

Lemma distance_nil_r a : distance a [] (Z.of_nat (length a)).
Proof. split; [apply edits_remove_all|]. intros m Hm. apply edits_bound in Hm. cbn in Hm. lia. Qed.

Lemma distance_range a b n : distance a b n -> 0 <= n <= Z.of_nat (length a) + Z.of_nat (length b).
Proof.
  intros [He Hm]. split; [apply edits_bound in He; lia|]. apply Hm, edits_add_all, edits_remove_all.
Qed.

Lemma helper_min3_spec a b c :
  let m := helper_min3 a b c in m <= a /\ m <= b /\ m <= c /\ (m = a \/ m = b \/ m = c).
Proof. unfold helper_min3. zcases; lia. Qed.

(** The recurrence of the table. *)
Lemma distance_snoc a b c d n1 n2 n3 :
  distance (a ++ [c]) b n1 -> distance a (b ++ [d]) n2 -> distance a b n3 ->
  distance (a ++ [c]) (b ++ [d]) (helper_min3 (n1 + 1) (n2 + 1) (n3 + if c =? d then 0 else 1)).
Proof.
  intros [E1 M1] [E2 M2] [E3 M3].
  destruct (helper_min3_spec (n1 + 1) (n2 + 1) (n3 + if c =? d then 0 else 1)) as (L1 & L2 & L3 & Hm).
  split.
  - destruct Hm as [->|[->| ->]]; [now apply ed_add|now apply ed_remove|].
    destruct (Z.eqb_spec c d) as [->|]; [rewrite Z.add_0_r; now apply ed_keep|now apply ed_change].
  - intros m Hm'. remember (a ++ [c]) as a' eqn:Ea. remember (b ++ [d]) as b' eqn:Eb.
    destruct Hm' as [|a1 b1 c1 k He|a1 b1 c1 d1 k He|a1 b1 c1 k He|a1 b1 d1 k He].
    + now destruct a.
    + apply app_inj_tail in Ea as [-> ->], Eb as [-> ->]. apply M3 in He.
      rewrite Z.eqb_refl in *. lia.
    + apply app_inj_tail in Ea as [-> ->], Eb as [-> ->]. apply M3 in He. destruct (c =? d); lia.
    + apply app_inj_tail in Ea as [-> ->]. subst b1. apply M2 in He. lia.
    + apply app_inj_tail in Eb as [-> ->]. subst a1. apply M1 in He. lia.
Qed.

Section Levenshtein.
Context (s1 s2 : list Z) (Hlen : Z.of_nat (length s1) + Z.of_nat (length s2) < 2 ^ 31 - 1).

(** The entry of the table for the first [y] and the first [x] characters. *)
Definition entry (y x : nat) (v : Z) : Prop := distance (take y s1) (take x s2) v.

Lemma entry_range y x v : entry y x v -> 0 <= v < 2 ^ 31 - 1.
Proof. intros He. apply distance_range in He. rewrite !length_take in He. lia. Qed.

(** Cells [y] on of column [x], the ones before being done. *)
Definition half_done (x y : nat) (column : list Z) (lastdiag : Z) : Prop :=
  length column = S (length s1) /\ entry (y - 1) (x - 1) lastdiag /\
  (forall j v, (j < y)%nat -> column !! j = Some v -> entry j x v) /\
  (forall j v, (y <= j)%nat -> column !! j = Some v -> entry j (x - 1) v).

Lemma lev_cell_spec x y column lastdiag :
  (1 <= x <= length s2)%nat -> (1 <= y <= length s1)%nat -> half_done x y column lastdiag ->
  exists column' ld, lev_cell s1 s2 x (column, lastdiag) y = Ok (column', ld) /\ half_done x (S y) column' ld.
Proof.
  intros Hx Hy (Hl & Hd & Hdone & Htodo). unfold lev_cell.
  destruct (rd_lt column y) as (v & -> & Hv); [lia|]. destruct (rd_lt column (y - 1)) as (w & -> & Hw); [lia|].
  destruct (rd_lt s1 (y - 1)) as (a & -> & Ha); [lia|]. destruct (rd_lt s2 (x - 1)) as (b & -> & Hb); [lia|].
  cbn [mbind res_bind]. rewrite wr_lt by lia. cbn [mbind res_bind].
  pose proof (Htodo y v (Nat.le_refl y) Hv) as Ev. pose proof (Hdone (y - 1)%nat w ltac:(lia) Hw) as Ew.
  do 2 eexists. split; [reflexivity|].
  set (m := helper_min3 _ _ _).
  assert (Em : entry y x m).
  { pose proof (entry_range _ _ _ Ev). pose proof (entry_range _ _ _ Ew). pose proof (entry_range _ _ _ Hd).
    subst m. rewrite !uwrap_id by (destruct (a =? b); lia).
    assert (T1 : take y s1 = take (y - 1) s1 ++ [a]) by (rewrite <- (take_S_r _ _ _ Ha); f_equal; lia).
    assert (T2 : take x s2 = take (x - 1) s2 ++ [b]) by (rewrite <- (take_S_r _ _ _ Hb); f_equal; lia).
    unfold entry in *. rewrite T1, T2 in *. now apply distance_snoc. }
  split; [now rewrite length_insert|]. split; [now replace (S y - 1)%nat with y by lia|]. split.
  - intros j u Hj Hu. destruct (decide (j = y)) as [->|Hne].
    + rewrite list_lookup_insert_eq in Hu by lia. now injection Hu as <-.
    + rewrite list_lookup_insert_ne in Hu by done. apply Hdone; [lia|done].
  - intros j u Hj Hu. rewrite list_lookup_insert_ne in Hu by lia. apply Htodo; [lia|done].
Qed.

Lemma lev_cells_spec x k y column lastdiag :
  (1 <= x <= length s2)%nat -> (1 <= y)%nat -> (y + k = S (length s1))%nat -> half_done x y column lastdiag ->
  exists column' ld, rfold (lev_cell s1 s2 x) (column, lastdiag) (seq y k) = Ok (column', ld) /\
    half_done x (S (length s1)) column' ld.
Proof.
  intros Hx. revert y column lastdiag. induction k as [|k IH]; intros y column lastdiag Hy Hk Hh; cbn [seq rfold].
  - do 2 eexists. split; [reflexivity|]. now replace (S (length s1)) with y by lia.
  - destruct (lev_cell_spec x y column lastdiag Hx ltac:(lia) Hh) as (c' & ld & E & Hh'). rewrite E. cbn [mbind res_bind].
    apply IH; [lia|lia|done].
Qed.

(** A column, from the one before; what cell 0 held does not matter. *)
Definition column_ok (x : nat) (column : list Z) : Prop :=
  length column = S (length s1) /\ forall j v, (1 <= j)%nat -> column !! j = Some v -> entry j x v.

Lemma lev_column_spec x column :
  (1 <= x <= length s2)%nat -> column_ok (x - 1) column ->
  exists column', lev_column s1 s2 column x = Ok column' /\ column_ok x column' /\
    (forall v, column' !! 0%nat = Some v -> entry 0 x v).
Proof.
  intros Hx [Hl Hc]. unfold lev_column. rewrite wr_lt by lia. cbn [mbind res_bind].
  destruct (lev_cells_spec x (length s1) 1 (<[0%nat:=Z.of_nat x]> column) (u32 (Z.of_nat x - 1)) Hx) as (c' & ld & E & Hh);
    [lia|lia| |].
  - split; [now rewrite length_insert|]. split.
    + rewrite uwrap_id by lia. replace (Z.of_nat x - 1) with (Z.of_nat (length (take (x - 1) s2))) by (rewrite length_take; lia).
      apply distance_nil_l.
    + split.
      * intros [|j] v Hj Hv; [|lia]. rewrite list_lookup_insert_eq in Hv by lia. injection Hv as <-.
        replace (Z.of_nat x) with (Z.of_nat (length (take x s2))) by (rewrite length_take; lia). apply distance_nil_l.
      * intros j v Hj Hv. rewrite list_lookup_insert_ne in Hv by lia. now apply Hc.
  - rewrite E. cbn [mbind res_bind]. destruct Hh as (L & _ & Hd & _). exists c'. split; [done|]. split.
    + split; [done|]. intros j v Hj Hv. apply Hd; [|done]. apply lookup_lt_Some in Hv. lia.
    + intros v Hv. apply Hd; [lia|done].
Qed.

Lemma lev_columns_spec k x column :
  (1 <= x)%nat -> (x + k = S (length s2))%nat -> column_ok (x - 1) column ->
  exists column', rfold (lev_column s1 s2) column (seq x k) = Ok column' /\ column_ok (length s2) column' /\
    (0 < k -> forall v, column' !! 0%nat = Some v -> entry 0 (length s2) v)%nat.
Proof.
  revert x column. induction k as [|k IH]; intros x column Hx Hk Hc; cbn [seq rfold].
  - exists column. split; [done|]. split; [now replace (length s2) with (x - 1)%nat by lia|lia].
  - destruct (lev_column_spec x column ltac:(lia) Hc) as (c' & E & Hc' & H0). rewrite E. cbn [mbind res_bind].
    destruct k as [|k].
    + cbn [seq rfold]. exists c'. replace (length s2) with x by lia. auto.
    + destruct (IH (S x) c') as (c2 & E2 & Hc2 & H2); [lia|lia|now replace (S x - 1)%nat with x by lia|].
      exists c2. split; [done|]. split; [done|]. intros _. apply H2. lia.
Qed.

(** The first column. *)
Lemma lev_init column :
  length column = S (length s1) ->
  exists column', rfold (fun c y => wr c y (Z.of_nat y)) column (seq 1 (length s1)) = Ok column' /\
    column_ok 0 column' /\ column' !! 0%nat = column !! 0%nat.
Proof.
  intros Hl.
  assert (Hk : forall k y c, (1 <= y)%nat -> (y + k = S (length s1))%nat -> length c = S (length s1) ->
    (forall j v, (1 <= j < y)%nat -> c !! j = Some v -> v = Z.of_nat j) ->
    exists c', rfold (fun c y => wr c y (Z.of_nat y)) c (seq y k) = Ok c' /\ length c' = S (length s1) /\
      (forall j v, (1 <= j)%nat -> c' !! j = Some v -> v = Z.of_nat j) /\ c' !! 0%nat = c !! 0%nat).
  { intros k. induction k as [|k IH]; intros y c Hy Hk Hc Hv; cbn [seq rfold].
    - exists c. split; [done|]. split; [done|]. split; [|done]. intros j v Hj Hjv. apply Hv; [|done].
      pose proof (lookup_lt_Some _ _ _ Hjv). lia.
    - rewrite wr_lt by lia. cbn [mbind res_bind].
      destruct (IH (S y) (<[y:=Z.of_nat y]> c)) as (c' & E & L & V & Z0); [lia|lia|now rewrite length_insert| |].
      + intros j v Hj Hjv. destruct (decide (j = y)) as [->|Hne].
        * rewrite list_lookup_insert_eq in Hjv by lia. now injection Hjv as <-.
        * rewrite list_lookup_insert_ne in Hjv by done. apply Hv; [lia|done].
      + exists c'. split; [done|]. split; [done|]. split; [done|]. rewrite Z0. apply list_lookup_insert_ne. lia. }
  destruct (Hk (length s1) 1%nat column) as (c' & E & L & V & Z0); [lia|lia|done|intros; lia|].
  exists c'. split; [done|]. split; [|done]. split; [done|]. intros j v Hj Hv. rewrite (V j v Hj Hv).
  apply lookup_lt_Some in Hv.
  replace (Z.of_nat j) with (Z.of_nat (length (take j s1))) by (rewrite length_take; lia). apply distance_nil_r.
Qed.

Lemma levenshtein_spec garbage :
  (forall n, length (garbage n) = n) ->
  exists d, string_distance_levenshtein garbage s1 s2 = Ok d /\
    (s1 = [] /\ s2 = [] /\ d = 1 \/ (s1 <> [] \/ s2 <> []) /\ distance s1 s2 d).
Proof.
  intros Hg. unfold string_distance_levenshtein. set (c0 := take _ _).
  assert (L0 : length c0 = S (length s1)) by (subst c0; rewrite length_take, Hg; lia).
  rewrite wr_lt by lia. cbn [mbind res_bind].
  destruct (lev_init (<[length s1:=1]> c0)) as (c1 & -> & Hc1 & Z1); [now rewrite length_insert|]. cbn [mbind res_bind].
  destruct (lev_columns_spec (length s2) 1 c1) as (c2 & E2 & [L2 Hc2] & H0); [lia|lia|done|].
  rewrite E2. cbn [mbind res_bind]. destruct (rd_lt c2 (length s1)) as (d & Ed & Hd); [lia|]. rewrite Ed. cbn [mbind res_bind].
  exists (s32 d). split; [done|].
  assert (He : s1 <> [] \/ s2 <> [] -> distance s1 s2 (s32 d)).
  { intros Hne. assert (Hd' : entry (length s1) (length s2) d).
    { destruct s1 as [|a l]; cbn [length] in *; [|apply Hc2; [lia|done]].
      destruct Hne as [Hne|Hne]; [done|]. apply H0; [|done]. destruct s2; [done|cbn; lia]. }
    pose proof (entry_range _ _ _ Hd') as Hr.
    assert (Es : s32 d = d) by (unfold swrap; rewrite Z.mod_small; lia). rewrite Es.
    unfold entry in Hd'. now rewrite !firstn_all in Hd'. }
  assert (Hcase : (s1 = [] /\ s2 = []) \/ (s1 <> [] \/ s2 <> [])).
  { clear. destruct s1; [|right; now left]. destruct s2; [now left|right; now right]. }
  destruct Hcase as [[E1 E2']|Hne]; [left|right; auto]. split; [done|]. split; [done|].
  rewrite E2' in E2. cbn [length seq rfold] in E2. injection E2 as <-.
  assert (Z0 : length s1 = 0%nat) by now rewrite E1. rewrite Z0 in *. rewrite Z1 in Hd.
  rewrite list_lookup_insert_eq in Hd by lia. injection Hd as <-. reflexivity.
Qed.
End Levenshtein.

(** ** Settings *)

Inductive style := Bare | Quoted (q : Z).
(** A setting as it is written: spaces, the name, the value. *)
Record setting := mkSetting { gap : nat; s_key : list Z; s_val : list Z; s_style : style }.

Definition setting_ok (s : setting) : Prop :=
  (exists c r, s_key s = c :: r /\ isdigit c = false) /\ Forall (fun c => name_char c = true) (s_key s) /\ (0 ∉ s_val s) /\
  match s_style s with
  | Bare => (32 ∉ s_val s) /\ exists c r, s_val s = c :: r /\ quote c = false
  | Quoted q => quote q = true /\ q ∉ s_val s
  end.

Definition write_setting (s : setting) : list Z :=
  replicate (gap s) 32 ++ s_key s ++ 61 :: (match s_style s with Bare => s_val s | Quoted q => q :: s_val s ++ [q] end).

(** Settings with spaces between them. *)
Fixpoint write_settings (l : list setting) : list Z :=
  match l with
  | [] => []
  | s :: l => write_setting s ++ (match l with [] => [] | _ => 32 :: write_settings l end)
  end.

Definition pair_of (s : setting) : list Z * list Z := (s_key s, s_val s).

Lemma skip_spaces k l : (match l with c :: _ => c <> 32 | [] => True end) -> skip_while (Z.eqb 32) (replicate k 32 ++ l) = l.
Proof.
  intros Hl. induction k as [|k IH]; cbn [replicate app skip_while]; [|exact IH].
  destruct l as [|c l]; [done|]. cbn [skip_while].
  destruct (Z.eqb_spec 32 c); [congruence|done].
Qed.

Lemma span_to_stop p a c r : Forall (fun x => p x = false) a -> p c = true -> span_to p (a ++ c :: r) = (a, c :: r).
Proof. intros Ha Hc. induction Ha as [|x a Hx _ IH]; cbn; [now rewrite Hc|]. now rewrite Hx, IH. Qed.

Lemma span_to_end p a : Forall (fun x => p x = false) a -> span_to p a = (a, []).
Proof. intros Ha. induction Ha as [|x a Hx _ IH]; cbn; [done|]. now rewrite Hx, IH. Qed.

Lemma name_char_spec c : name_char c = true -> c <> 61 /\ c <> 32 /\ c <> 0.
Proof. intros Hc. split; [|split]; intros ->; now vm_compute in Hc. Qed.

Lemma not_in_span x a : x ∉ a -> Forall (fun y => Z.eqb x y = false) a.
Proof. intros Hx. apply Forall_forall. intros y Hy. apply Z.eqb_neq. intros ->. done. Qed.

(** One setting, followed by the end or by a space and more. *)
Lemma read_setting fuel k s rest set :
  setting_ok s -> match rest with [] => True | c :: _ => c = 32 end ->
  exists rest', (rest' = rest \/ rest = 32 :: rest') /\
    read_settings (S fuel) (replicate k 32 ++ write_setting s ++ rest) set =
    read_settings fuel rest' (set ++ [pair_of s]).
Proof.
  intros ((c & r & Ek & Hc) & Hname & H0 & Hst) Hrest.
  pose proof (proj1 (Forall_forall _ _) Hname) as Hn. unfold write_setting, pair_of. destruct s as [g key val st].
  cbn [s_key s_val s_style gap] in *. rewrite <- app_assoc, app_assoc, <- replicate_add.
  assert (Hc2 : name_char c = true) by (apply Hn; rewrite Ek; left). apply name_char_spec in Hc2 as (N1 & N2 & _).
  set (tail := match st with Bare => val | Quoted q => q :: val ++ [q] end).
  assert (Htail : exists d t, tail = d :: t /\ d <> 32).
  { subst tail. destruct st as [|q].
    - destruct Hst as (Hs & d & t & -> & _). exists d, t. split; [done|]. intros ->. apply Hs. left.
    - exists q, (val ++ [q]). split; [done|]. destruct Hst as [Hq _]. intros ->. now vm_compute in Hq. }
  assert (Hfirst : forall x, exists y l, replicate (k + g) 32 ++ (key ++ 61 :: tail) ++ x = y :: l).
  { intros x. destruct (k + g)%nat; cbn; [rewrite Ek; cbn|]; eauto. }
  destruct (Hfirst rest) as (y & l & El). rewrite El. cbn [read_settings]. rewrite <- El. clear y l El Hfirst.
  rewrite skip_spaces by (rewrite Ek; cbn; done).
  rewrite (proj2 (Nat.leb_gt _ _)) by (rewrite Ek; cbn; rewrite !length_app; cbn; lia).
  rewrite <- app_assoc.
  assert (Ef : match key ++ (61 :: tail) ++ rest with [] => false | x :: _ => (x =? 61) || isdigit x end = false)
    by (rewrite Ek; cbn [app]; now rewrite (proj2 (Z.eqb_neq c 61) N1), Hc).
  rewrite Ef. clear Ef.
  cbn [app]. rewrite (span_to_stop _ key 61 (tail ++ rest)); [|apply (Forall_impl _ _ _ Hname)|done].
  2: { intros x Hx. apply name_char_spec in Hx as (X1 & X2 & _). apply orb_false_iff. split; now apply Z.eqb_neq. }
  rewrite (proj2 (forallb_forall _ _)) by (intros x Hx; apply Hn; now apply list_elem_of_In). cbn [negb].
  destruct Htail as (d & t & Et & Hd). rewrite Et. cbn [app]. rewrite (proj2 (Z.eqb_neq d 32) Hd).
  destruct st as [|q].
  - destruct Hst as (Hs & d' & t' & Ev & Hq). subst tail. rewrite Ev in Et. injection Et as -> ->. rewrite Hq. cbn [andb].
    change (d :: t ++ rest) with ((d :: t) ++ rest). rewrite <- Ev.
    destruct rest as [|x rest].
    + exists []. split; [now left|]. rewrite app_nil_r, span_to_end by now apply not_in_span.
      rewrite Z.eqb_refl. reflexivity.
    + subst x. exists rest. split; [now right|]. rewrite span_to_stop; [|now apply not_in_span|done].
      rewrite Z.eqb_refl. reflexivity.
  - destruct Hst as [Hq Hin]. subst tail. injection Et as <- <-. rewrite Hq. cbn [andb].
    rewrite bool_decide_eq_false_2 by (destruct val; done).
    exists rest. split; [now left|]. rewrite <- app_assoc. cbn [app].
    rewrite span_to_stop; [|now apply not_in_span|apply Z.eqb_refl].
    rewrite bool_decide_eq_false_2 by done. rewrite andb_false_r. reflexivity.
Qed.

Lemma read_settings_spec l fuel k set :
  Forall setting_ok l -> l <> [] -> (length l <= fuel)%nat ->
  read_settings fuel (replicate k 32 ++ write_settings l) set = Ok (true, set ++ map pair_of l).
Proof.
  intros Hl. revert fuel k set. induction Hl as [|s l Hs Hl IH]; intros fuel k set Hne Hf; [done|].
  destruct fuel as [|fuel]; [cbn in Hf; lia|]. cbn [write_settings].
  destruct (read_setting fuel k s (match l with [] => [] | _ => 32 :: write_settings l end) set Hs) as (rest' & Hr & ->).
  { now destruct l. }
  destruct l as [|s2 l].
  - assert (rest' = []) as -> by (destruct Hr as [->|Hr]; [done|discriminate]). destruct fuel; cbn [read_settings];
      (rewrite bool_decide_eq_false_2; [done|destruct set; done]).
  - assert (Hk : exists j, rest' = replicate j 32 ++ write_settings (s2 :: l)).
    { destruct Hr as [->|Hr]; [now exists 1%nat|]. exists 0%nat. now injection Hr as <-. }
    destruct Hk as (j & ->). rewrite IH; [|done|cbn in *; lia]. cbn [map]. now rewrite <- app_assoc.
Qed.

(** ** The properties *)

(** C37: the table computes the edit distance: the result is the least number of
    single characters to change, remove or add that makes the second string
    of the first, whatever the array held before.  Only for two empty strings
    it is wrong: the result is 1. *)
Theorem levenshtein_correct garbage s1 s2 :
  (forall n, length (garbage n) = n) -> Z.of_nat (length s1) + Z.of_nat (length s2) < 2 ^ 31 - 1 ->
  exists d, string_distance_levenshtein garbage s1 s2 = Ok d /\
    (s1 = [] /\ s2 = [] /\ d = 1 \/ (s1 <> [] \/ s2 <> []) /\ distance s1 s2 d).
Proof. intros Hg Hlen. now apply levenshtein_spec. Qed.

(** C38: a list of settings that is written with spaces between them, the values
    bare or in either kind of quotes, is read back: the variables are set in
    their order and the reader succeeds. *)
Theorem settings_roundtrip l :
  Forall setting_ok l -> l <> [] ->
  extract_and_set_env (Some (write_settings l)) = Ok (true, map pair_of l).
Proof.
  intros Hl Hne. unfold extract_and_set_env.
  assert (Hz : 0 ∉ write_settings l).
  { clear Hne. induction Hl as [|s l ((c & r & Ek & _) & Hn & H0 & Hst) Hl IH]; cbn [write_settings]; [apply not_elem_of_nil|].
    pose proof (proj1 (Forall_forall _ _) Hn) as Hk. unfold write_setting. rewrite !not_elem_of_app. split; [split; [|split]|].
    - intros Hz. apply elem_of_replicate in Hz as [Hz _]. discriminate.
    - intros Hz. apply Hk, name_char_spec in Hz. tauto.
    - rewrite not_elem_of_cons. split; [done|]. destruct (s_style s) as [|q]; [done|]. destruct Hst as [Hq _].
      assert (0 <> q) by (intros <-; now vm_compute in Hq). rewrite not_elem_of_cons, not_elem_of_app, not_elem_of_cons.
      split; [done|]. split; [done|]. split; [done|apply not_elem_of_nil].
    - destruct l; [apply not_elem_of_nil|]. rewrite not_elem_of_cons. split; [done|exact IH]. }
  rewrite (c_str_whole _ Hz). apply (read_settings_spec l (length (write_settings l)) 0 []); [done|done|].
  clear Hne Hz. induction Hl as [|s l ((c & r & Ek & _) & _) Hl IH]; cbn [write_settings length]; [lia|].
  unfold write_setting. rewrite !length_app, Ek. cbn [length]. destruct l; cbn [length] in *; lia.
Qed.

(** ** Examples *)

Definition no_garbage (n : nat) : list Z := replicate n 0.

Lemma levenshtein_correct_witness :
  exists d, string_distance_levenshtein no_garbage (txt "kitten") (txt "sitting") = Ok d /\ d = 3 /\
    distance (txt "kitten") (txt "sitting") d.
Proof.
  destruct (levenshtein_correct no_garbage (txt "kitten") (txt "sitting")) as (d & E & [(H0 & _)|[_ Hd]]).
  - intros n. apply length_replicate.
  - reflexivity.
  - discriminate H0.
  - exists d. split; [exact E|]. split; [|exact Hd]. vm_compute in E. now injection E as <-.
Defined.

Definition sample_settings : list setting :=
  [mkSetting 0 (txt "A_1") (txt "x") Bare; mkSetting 2 (txt "B") (txt "y z") (Quoted 39); mkSetting 0 (txt "C") [] (Quoted 34)].

Lemma settings_roundtrip_witness :
  extract_and_set_env (Some (txt "A_1=x   B='y z' C=" ++ [34; 34])) =
  Ok (true, [(txt "A_1", txt "x"); (txt "B", txt "y z"); (txt "C", [])]).
Proof.
  apply (settings_roundtrip sample_settings); [|done].
  repeat constructor; cbn; try (intros Hin; repeat (apply elem_of_cons in Hin as [Hin|Hin]; [discriminate|]);
    now apply not_elem_of_nil in Hin); do 2 eexists; (split; [reflexivity|reflexivity]).
Defined.

(** The terminator is written at [reduced[-1]] when the mistyped variable has
    one word that nothing resembles. *)
Lemma suggestion_underruns :
  print_suggested_envs no_garbage afl_environment_variables (txt "AFL_QWERTYUIOP=1") = Err Fault.
Proof. vm_compute. reflexivity. Qed.

(** A variable that is near to a known one. *)
Example suggests_near :
  print_suggested_envs no_garbage afl_environment_variables (txt "AFL_QUIETT=1") = Ok [txt "AFL_QUIET"].
Proof. vm_compute. reflexivity. Qed.

(** The variable after the missing comma is not known. *)
Lemma joined_names_are_unknown :
  (txt "AFL_FRIDA_INST_RANGES" ∉ afl_environment_variables) /\
  txt "AFL_FRIDA_INST_NO_SUPPRESSAFL_FRIDA_INST_RANGES" ∈ afl_environment_variables.
Proof. split; [apply (bool_decide_unpack (_ ∉ _))|apply (bool_decide_unpack (_ ∈ _))]; vm_compute; exact Logic.I. Qed.

(** A single character at the end is not looked at; two make the call fail
    when the settings before them are already made. *)
Lemma trailing_character_ignored :
  extract_and_set_env (Some (txt "A=1 B")) = Ok (true, [(txt "A", txt "1")]) /\
  extract_and_set_env (Some (txt "A=1 BB")) = Ok (false, [(txt "A", txt "1")]).
Proof. split; reflexivity. Qed.

(** The map's size is a multiple of 64 that is large enough. *)
Lemma get_map_size_spec getenv n :
  get_map_size getenv = Ok n -> n mod 64 = 0 /\ 0 < n <= 2 ^ 29.
Proof.
  unfold get_map_size. destruct (match getenv (txt "AFL_MAP_SIZE") with Some p => Some p | None => _ end) as [p|].
  - pose proof (uwrap_range 32 (atoi p) ltac:(lia)). set (m := u32 (atoi p)) in *. clearbody m.
    destruct (Z.eqb_spec m 0); cbn [orb]; [done|]. destruct (Z.ltb_spec (2 ^ 29) m); [done|].
    destruct (truthy (m mod 64)) eqn:Et; intros [= <-].
    + apply truthy_true in Et. rewrite Z.shiftr_div_pow2, Z.shiftl_mul_pow2 by lia. change (2 ^ 6) with 64.
      rewrite (uwrap_id 32 (m / 64 + 1)) by dlia. rewrite uwrap_id by dlia. dlia.
    + apply truthy_false in Et. lia.
  - destruct (getenv _); intros [= <-]; vm_compute; intuition congruence.
Qed.
